(* ===== verification/_CoqProject ===== *)
-Q . S2P
Prelude.v
Status.v
Slice.v
Coding.v
DbFormat.v
KvChecksum.v
PackedValue.v
SeqnoToTime.v
SeqnoCapacity.v
SeqnoProofs.v
WriteBatch.v
WriteBatchRead.v
WriteBatchSpec.v
WriteBatchBuild.v
WriteBatchIterate.v
MemTableInserter.v
InserterProofs.v
Double.v
DoubleRound.v
LruState.v
LruTable.v
LruShard.v
LruTableProofs.v
LruList.v
LruSpec.v
LruRefine.v
LruInv.v
LruProofs.v
LruSystem.v
LruMain.v
LruBounds.v
WalEdit.v
PrepTracker.v
Bits.v
Crc32c.v
Crc32cProofs.v
Blob.v
BlobProofs.v
SkipList.v
SkipListSearch.v
SkipListInsert.v
SkipListMain.v
InternalKey.v
VersionLookup.v
IterKey.v
IterKeyProofs.v
CacheReservation.v
CacheReservationProofs.v
Arena.v
ArenaProofs.v
Autovector.v
AutovectorProofs.v
ConcurrentArena.v
ConcurrentArenaProofs.v
SecondaryAdapter.v
SecondaryAdapterProofs.v
LruFrame.v
ShardedCache.v
ShardedProofs.v
ShardedApply.v
Math128.v
Hashing.v
CacheKey.v
ThreadLocal.v
ThreadLocalProofs.v
StringUtil.v
OptionString.v
OptionTypes.v
OptionProofs.v
OptionEqual.v
WorkQueue.v
MultiGet.v
