(* ===== verification/Prelude.v ===== *)
(** * Verification of the storage core of XiaoDB

    XiaoDB (sources under [src/]) is a partial storage engine in the style of
    RocksDB. This library models the part of it that has an implementation and
    carries its own logic: the batch of updates that every write goes through
    and its application to the memtables, the skip list and the arena that a
    memtable is made of, the order of its keys, the block cache with the
    accounting built on it and the keys it is used with, the records about
    logs and blob files, the checksum, the mapping from sequence numbers to
    times that tiered storage relies on, thread-local pointers, a work queue,
    the ranges of batched lookups, and the text form of options.

    ** The write path

    An application fills a [WriteBatch] with puts, deletes, merges and markers.
    The batch is one byte string: a sequence number, a count and the encoded
    operations. [Iterate] decodes it again and calls a [Handler] once per
    operation; everything else is a handler: the classifier of the content, the
    computation of protection entries, and [MemTableInserter], which gives the
    operations sequence numbers, writes them to the memtables, rebuilds prepared
    transactions found in the log and replays them when their commit marker is
    met.

    - [Prelude]: machine integers as [Z] with explicit wrap-around, bytes, byte
      strings with machine offsets, little-endian integers, the hint databases
      [xdb] and the tactics of the development.
    - [Status]: [include/xiaodb/status.h], error values.
    - [Slice]: [include/xiaodb/slice.h], [util/slice.cc].
    - [Coding]: [util/coding_lean.h], [util/coding.h], [util/coding.cc]; fixed
      and variable-length integers, length-prefixed slices.
    - [DbFormat]: [db/dbformat.h]; value types, packing of internal keys.
    - [KvChecksum]: [db/kv_checksum.h]; protection of keys, values, operation
      types, column families and sequence numbers.
    - [WriteBatch]: the writing half of [db/write_batch.cc], with
      [db/write_batch_internal.h] and [include/xiaodb/write_batch.h];
      [WriteBatchRead]: the reading half, [Handler], [Iterate],
      [VerifyChecksum]; [WriteBatchSpec]: the abstract batch [ABatch], a list of
      operations with a stack of savepoints, its byte format, and the relations
      [Encodes] and [Repr] between a batch and what it stands for;
      [WriteBatchBuild], [WriteBatchIterate]: the two halves refine it.
    - [MemTableInserter]: the handler and [WriteBatchInternal::InsertInto];
      [InserterProofs]: what inserting a batch does to the memtables.

    ** The memtable

    - [SkipList]: [memtable/skiplist.h], nodes in a store, searches, the
      iterator and insertion, store by store; [SkipListSearch],
      [SkipListInsert], [SkipListMain]: the list of levels it represents.
    - [InternalKey]: the comparator, [InternalKey], [RangeTombstone] and
      [PredecessorWALInfo] of [db/dbformat.h]; [VersionLookup] puts skip list
      and comparator together.
    - [IterKey], [IterKeyProofs]: the key of an iterator, [db/dbformat.h].
    - [Arena], [ArenaProofs]: [memory/arena.h] and [.cc]; [ConcurrentArena],
      [ConcurrentArenaProofs]: [memory/concurrent_arena.h] with the array of
      [util/core_local.h], as threads that are interrupted between any two steps.
    - [Autovector], [AutovectorProofs]: [util/autovector.h].

    ** The block cache

    - [Double]: the doubles of the pool ratios, as IEEE numbers; [DoubleRound]:
      rounding is monotone.
    - [LruState], [LruTable], [LruShard]: [cache/lru_cache.h] and [.cc]; handles
      in a heap, the hash table, every operation of a shard in a state monad
      that fails where the code would follow a wrong pointer.
    - [LruTableProofs], [LruList]: the table and the list represent a map and
      three queues; [LruSpec]: the abstract cache; [LruRefine], [LruInv],
      [LruProofs]: representation, invariant and refinement of each operation;
      [LruSystem], [LruMain], [LruBounds]: clients that hold references, and the
      theorems about all runs.
    - [ShardedCache]: [cache/sharded_cache.h] and [.cc] with [LRUCache], shards
      selected by the hash of a key; [LruFrame]: what an operation of a shard
      leaves alone; [ShardedProofs]: the theorems about all runs of its threads;
      [ShardedApply]: the traversal of all entries while the cache is in use.
    - [CacheReservation], [CacheReservationProofs]:
      [cache/cache_reservation_manager.h] and [.cc].
    - [SecondaryAdapter], [SecondaryAdapterProofs]:
      [cache/secondary_cache_adapter.h] and [.cc], a cache in front of a second
      tier, with the reservations distributed over both.
    - [Math128]: [util/math.h], [util/math128.h], [util/fastrange.h]; [Hashing]:
      [util/hash.h] and [.cc]; [CacheKey]: [cache/cache_key.h] and [.cc] with
      [table/unique_id.cc], the keys of blocks.

    ** Records and checksums

    - [SeqnoToTime], [PackedValue]: [db/seqno_to_time_mapping.h] and [.cc];
      [SeqnoCapacity] proves the compaction, [SeqnoProofs] the rest.
    - [WalEdit]: [db/wal_edit.h] and [.cc]. [PrepTracker]:
      [db/logs_with_prep_tracker.h] and [.cc].
    - [Blob], [BlobProofs]: the formats under [db/blob].
    - [Bits], [Crc32c], [Crc32cProofs]: [util/crc32c.cc] as linear maps on bits.

    ** Threads and options

    - [ThreadLocal], [ThreadLocalProofs]: [util/thread_local.cc]; instances with a
      slot per thread, the linked list of the threads' data, and the jobs that
      visit all threads under the mutex, as steps of threads.
    - [WorkQueue]: [util/work_queue.h]; a bounded queue between threads, with its
      mutex and condition variables as steps of threads.
    - [MultiGet]: [table/multiget_context.h]; the ranges of keys of a batched
      lookup, intervals with bit masks of 64 bits.
    - [StringUtil]: [util/string_util.h] and [.cc]; numbers as text, escaping,
      trimming.
    - [OptionString]: [StringToMap] and [NextToken] of
      [options/options_helper.cc], which take option strings apart;
      [OptionTypes]: [OptionTypeInfo] of
      [include/xiaodb/utilities/options_type.h], whose infos describe the fields
      of an options object, with parsing and printing; [OptionProofs]: what is
      printed is read back; [OptionEqual]: the comparison of objects.

    A C++ object is a record with the fields of the class, a member function a
    function from the object to its result and the object it leaves, an error a
    value of type [Status]. A mutex is the atomicity of the block it protects.
    In the files about batches and mappings the model is the release build:
    [assert] does nothing, and what it excludes is a hypothesis where a theorem
    needs it (but a packed value that is too short for its time, where the
    release build would read from a wrong place, is a failure). In [SkipList], [IterKey], [Autovector], [PrepTracker] a failed
    assertion is a failure of the operation, and the theorems show that there is
    none.

    ** What is a parameter

    Code that the repository calls but does not contain is a parameter: the class
    [VarintReader] with [VarintReaderLaws] for [GetVarint32PtrFallback] and
    [GetVarint64Ptr] ([leb128_reader] satisfies the laws), the class [Hasher] for
    the vendored hash, the class [WideColumnCodec] for the serialization of wide
    columns, the record [MemEnv] for memtables, column families, merge
    operators and [DBImpl] ([demo_env] is an instance), the record [CacheEnv] for
    eviction callbacks and [malloc_usable_size], [KeyAppender] for the functions
    that append internal keys, [KeyMemory] for the reallocation of the iterator
    key's buffers, [DummyCache] for the cache as the reservation manager sees it,
    [TieredCaches] for the two tiers as the adapter sees them,
    [MemorySource] for the addresses of new blocks, [IdSources] for session ids
    and the generators of identifiers, [Platform] for the text of doubles and the
    order in which a hash map is traversed, comparators that satisfy
    [CompareLaws], and the random numbers of the skip list. Each class with laws
    has an instance that satisfies them, which the witnesses use.

    ** What the theorems show

    - Building: any sequence of calls on a new batch returns the statuses and
      leaves the bytes, flags, protection entries and savepoints of the abstract
      batch ([batch_refines_spec]); a refused update changes nothing
      ([update_atomic]); savepoints nest ([rollback_restores]); [Append]
      concatenates ([append_concatenates]).
    - Reading: an encoded operation is read back ([read_encoded_operation]);
      [Iterate] is the abstract run over the operations, for every handler
      ([iterate_refines_run]), and ends on every byte string, unless it comes to a
      packed value that is too short ([iterate_terminates]); the checks and queries that are handlers compute
      what the operations say ([verify_checksum_exact],
      [update_protection_info_sound], [deferred_flags_agree]).
    - Inserting: [InsertInto] is the abstract application of the operations, for a
      batch and for a write group, with the repetition of additions that a
      memtable answers with TryAgain ([insert_batch_refines],
      [insert_group_refines]; without in-place updates and eager merges); protection entries stay aligned with updates
      through retries ([prot_index_aligned]); recovery rebuilds prepared
      transactions and replays them at their commit ([prepare_rebuilds],
      [commit_replays]).
    - The memtable: an insertion refines the insertion into a sorted list
      ([skiplist_insert]) and a reader sees the old or the new list at every
      store of it ([skiplist_readers]); searches and iterator are positions in
      the sorted list ([skiplist_searches], [skiplist_sorts]); keys are ordered
      as documented ([internal_key_order]), so that a seek finds the newest
      version that a snapshot sees ([seek_newest_visible]); iterator keys decode
      delta-encoded blocks ([iter_key_deltas], [iter_key_set]); pieces of an
      arena do not overlap ([arena_sound]), also when threads allocate through
      per-core shards ([concurrent_arena_sound]), which never block each other for
      good ([concurrent_arena_drains]); an autovector is a vector
      ([autovector_is_vector]).
    - The cache: every run of a shard is a run of the abstract cache
      ([lru_refines_spec]), without a wrong access ([lru_safe]), with every handle
      in a documented state ([lru_states]) and the counters exact
      ([lru_accounting], [strict_limit]); what is evicted is the oldest
      ([evict_oldest]); nothing leaks ([lru_no_leak]); the table is a map
      ([table_refines_map]). A sharded cache
      never uses a handle with the wrong shard ([sharded_safe]), is one map
      ([sharded_map]) with its capacity and usage split over the shards
      ([sharded_limits]); a traversal meets every entry that stays exactly once
      ([traversal_once]) and ends ([traversal_ends]). Reservations add up and are returned
      ([reservation_handles], [reservation_update]); over two tiers each gets its
      share as long as the rounding fits ([tiered_accounting]), and a lookup finds what either holds
      ([tiered_lookup]). Blocks of different files or at different offsets have
      different cache keys ([cache_keys_unique], [cache_key_base],
      [created_keys_fresh]), and the hash of 128-bit values is a bijection
      ([bijective_hash]).
    - Thread-local pointers are slots per thread and instance under every
      interleaving ([thread_local_refines]), and the mutex is released
      ([thread_local_unlocks]). A work queue is first-in first-out and loses no
      wake-up ([work_queue_sound]).
    - Batched lookups: iterating, counting, skipping, finishing, union, difference,
      complement and suffix of well-formed ranges are what they are on sets of
      keys ([multiget_ranges]).
    - Options: an object of basic values, enumerations, structs, arrays, vectors
      and string maps, with plain strings, is read back from its text
      ([options_roundtrip]) and the comparison of two such objects without
      doubles is exact ([options_compare_exact]); the texts of
      numbers, lists and escaped strings are read back ([texts_roundtrip],
      [consume_decimal_exact]).
    - The sequence-number-to-time mapping: its invariant over all reachable states
      ([mapping_invariant]), of which prepopulated ones need not respect the
      limits, the queries ([proximal_queries]), the equivalence of
      the compaction with the greedy algorithm ([capacity_is_greedy]), and that
      forgetting, copying, encoding and sorting keep what they should.
    - Records: the set of logs after any history ([wal_set_contents]) and its
      check against the disk ([CheckWals_exact]); the smallest outstanding
      prepared log under interleaving ([prep_tracker_min]); blob footers are
      canonical ([footer_canonical]); the checksum is the CRC of its polynomial
      ([extend_is_crc], [combine_concatenates]).
    - Formats: round trips, bounds and orders of integers, slices, internal keys,
      packed values and protection information, in their own files.
    - Behaviour that contradicts a comment of the source or the purpose of the
      code: [delete_range_hides_failure], [clock_reset_breaks_order],
      [noop_hides_content], [charge_overflow_defeats_limit],
      [synced_size_truncated], [header_ignores_magic], [blob_offset_wraps],
      [update_misses_secondary], [length_prefixed_key_unseen],
      [trim_append_loses_shared], [reserve_inverted], [per_shard_wraps],
      [apply_zero_spins], [fast_range_fallback_wrong], [popcount_halves_wrong],
      [trim_blank], [nested_unescaped_twice], [semicolon_not_escaped],
      [single_element_split], [empty_element_dropped],
      [complement_counts_invalid], [suffix_before_start],
      [short_packed_unchecked], [prepopulate_ignores_limits].

    The doc comment of each theorem names the conditions under which it holds.

    ** Fuel

    [iterate_loop] runs with twice the number of bytes plus two, since every
    record consumes a byte and is dispatched at most twice; [iterate_terminates]
    shows that this is enough for every input that can be read. [verify_loop] runs with one more
    than the number of bytes, [remove_loop] with [removal_fuel]
    ([capacity_is_greedy]). The inserter replays a transaction one level deep;
    [commit_replays] shows that the replay is never cut off. The loops of the
    cache run with one more than the number of handles in memory, those of the
    skip list with [search_fuel], those of the reservation manager with
    [reservation_fuel]; a loop that is cut off is a failure of the operation, and
    [lru_safe], [skiplist_searches] and [reservation_update] show that it does
    not happen. The loops over option strings run with the number of characters,
    of which each round consumes one ([map_loop_enough], [strip_braces_done]),
    the printing of a number with the twenty digits that 64 bits can need. The
    iterator of a range runs with the number of keys up to its end, the search
    for its last key with the 63 shifts that empty a mask ([last_loop_spec]),
    [seen_from] with 64 rounds, since every round passes a key of the 64 at most
    ([seen_from_eq]). The parsing and printing of options is structural in the
    info. The other loops
    are structural.

    ** What is not modelled

    In-place updates and eager merges of a memtable are in the model of the
    inserter but not in its refinement theorems. The assignment of an autovector
    is modelled for two different objects. Not in the model are
    [WriteBatch::UpdateTimestamps] (its handler is not in the repository),
    statistics, insertion hints and post-processing counters of the memtable
    (only the memtable reads them), the branches of the checksum that use
    processor instructions, printing, and the parts of the repository that are
    headers without implementation, vendored libraries, or interfaces to the
    operating system. Of the options, those that are objects of their own
    (configurable and customizable objects with their registries), preparation,
    validation and the structures of options themselves are left out. Formats
    with floating-point numbers and dates are left out of the strings. Of batched
    lookups the data of a key and the coroutines are left out. Of the adapter between
    two cache tiers the asynchronous lookups are left out: [IsPending] and [Result]
    of their handle have no definition. *)

From stdpp Require Export base gmap sets list strings numbers pretty.
From Stdlib.Strings Require Export Byte.

Declare Scope xdb_scope.
Delimit Scope xdb_scope with xdb.
#[global] Open Scope Z_scope.

(** ** Machine integers

    An unsigned integer of width [w] is a [Z]; every place where the C++ code
    converts or overflows is written with [wrap w]. *)

Definition wrap (w z : Z) : Z := z mod 2 ^ w.

Abbreviation u8 := (wrap 8).
Abbreviation u16 := (wrap 16).
Abbreviation u32 := (wrap 32).
Abbreviation u64 := (wrap 64).

(** Conversion to a signed integer of width [w] (two's complement). *)
Definition swrap (w z : Z) : Z := (z + 2 ^ (w - 1)) mod 2 ^ w - 2 ^ (w - 1).

Abbreviation s64 := (swrap 64).

(** [z] is a value of the unsigned type of width [w]. *)
Definition is_uint (w z : Z) : Prop := 0 <= z < 2 ^ w.

#[global] Instance is_uint_dec w z : Decision (is_uint w z).
Proof. unfold is_uint. apply _. Defined.

Definition UINT32_MAX : Z := 2 ^ 32 - 1.
Definition UINT64_MAX : Z := 2 ^ 64 - 1.

Create HintDb xdb.
Create Rewrite HintDb xdb.

Lemma wrap_range w z : 0 <= w -> is_uint w (wrap w z).
Proof. intros. apply Z.mod_pos_bound. lia. Qed.

Lemma wrap_small w z : is_uint w z -> wrap w z = z.
Proof. apply Z.mod_small. Qed.

Lemma wrap_wrap w z : wrap w (wrap w z) = wrap w z.
Proof. unfold wrap. apply Zmod_mod. Qed.

Lemma wrap_add_l w a b : wrap w (wrap w a + b) = wrap w (a + b).
Proof. unfold wrap. apply Zplus_mod_idemp_l. Qed.

Lemma wrap_add_r w a b : wrap w (a + wrap w b) = wrap w (a + b).
Proof. unfold wrap. apply Zplus_mod_idemp_r. Qed.

Lemma wrap_wrap_le w w' z : 0 <= w <= w' -> wrap w (wrap w' z) = wrap w z.
Proof.
  intros. unfold wrap. apply Z.mod_mod_divide.
  exists (2 ^ (w' - w)). rewrite <- Z.pow_add_r by lia. f_equal. lia.
Qed.

#[export] Hint Resolve wrap_range : xdb.
#[export] Hint Rewrite wrap_wrap wrap_add_l wrap_add_r : xdb.

(** [Z.lor] of values that occupy disjoint bit ranges is addition. *)
Lemma lor_shiftl_add a b k :
  0 <= k -> 0 <= a < 2 ^ k -> Z.lor a (Z.shiftl b k) = a + b * 2 ^ k.
Proof.
  intros Hk [Ha Hlt].
  assert (Z.land a (Z.shiftl b k) = 0) as Hdisj.
  { apply Z.bits_inj'. intros i Hi. rewrite Z.bits_0, Z.land_spec.
    destruct (Z.lt_ge_cases i k).
    - rewrite Z.shiftl_spec_low by done. apply andb_false_r.
    - by rewrite (proj1 (Z.bounded_iff_bits_nonneg k a Hk Ha) Hlt i). }
  rewrite <- Z.shiftl_mul_pow2, <- Z.lxor_lor, Z.add_nocarry_lxor by done. done.
Qed.

(** ** Bytes *)

(** Conversion of an integer to [unsigned char]. *)
Definition byte_of_Z (z : Z) : byte :=
  default x00 (Byte.of_N (Z.to_N (wrap 8 z))).

Definition byte_to_Z (b : byte) : Z := Z.of_N (Byte.to_N b).

#[global] Instance byte_eq_dec : EqDecision byte := Byte.byte_eq_dec.

Lemma byte_to_Z_range b : is_uint 8 (byte_to_Z b).
Proof.
  unfold is_uint, byte_to_Z. pose proof (Byte.to_N_bounded b). lia.
Qed.

Lemma byte_to_of_Z z : byte_to_Z (byte_of_Z z) = wrap 8 z.
Proof.
  unfold byte_to_Z, byte_of_Z.
  pose proof (wrap_range 8 z ltac:(lia)) as [? ?].
  destruct (Byte.of_N (Z.to_N (wrap 8 z))) as [b|] eqn:E; simpl.
  - apply Byte.to_of_N in E. lia.
  - apply Byte.of_N_None_iff in E. lia.
Qed.

Lemma byte_of_to_Z b : byte_of_Z (byte_to_Z b) = b.
Proof.
  unfold byte_of_Z. rewrite wrap_small by apply byte_to_Z_range.
  unfold byte_to_Z. by rewrite N2Z.id, Byte.of_to_N.
Qed.

Lemma byte_of_Z_wrap z : byte_of_Z (wrap 8 z) = byte_of_Z z.
Proof. unfold byte_of_Z. by rewrite wrap_wrap. Qed.

#[global] Instance byte_to_Z_inj : Inj eq eq byte_to_Z.
Proof. intros a b H. by rewrite <- (byte_of_to_Z a), H, byte_of_to_Z. Qed.

#[export] Hint Resolve byte_to_Z_range : xdb.
#[export] Hint Rewrite byte_to_of_Z byte_of_to_Z byte_of_Z_wrap : xdb.

#[global] Instance byte_countable : Countable byte.
Proof.
  refine (inj_countable' byte_to_Z byte_of_Z _). apply byte_of_to_Z.
Defined.

Abbreviation bytes := (list byte).

(** [std::string::size] and friends, as an unsigned quantity. *)
Definition size {A} (s : list A) : Z := Z.of_nat (length s).

Lemma size_nonneg {A} (s : list A) : 0 <= size s.
Proof. unfold size. lia. Qed.

Lemma size_app {A} (s t : list A) : size (s ++ t) = size s + size t.
Proof. unfold size. rewrite length_app. lia. Qed.

Lemma size_cons {A} (x : A) s : size (x :: s) = 1 + size s.
Proof. unfold size. simpl. lia. Qed.

Lemma size_nil {A} : size (@nil A) = 0.
Proof. done. Qed.

#[export] Hint Rewrite @size_app @size_cons @size_nil : xdb.

(** [str.substr]-like access with machine offsets. *)
Definition ztake {A} (n : Z) (s : list A) : list A := take (Z.to_nat n) s.
Definition zdrop {A} (n : Z) (s : list A) : list A := drop (Z.to_nat n) s.

Lemma ztake_app {A} (s t : list A) : ztake (size s) (s ++ t) = s.
Proof. unfold ztake, size. by rewrite Nat2Z.id, take_app_length. Qed.

Lemma zdrop_app {A} (s t : list A) : zdrop (size s) (s ++ t) = t.
Proof. unfold zdrop, size. by rewrite Nat2Z.id, drop_app_length. Qed.

Lemma ztake_all {A} (s : list A) n : size s <= n -> ztake n s = s.
Proof. unfold size, ztake. intros. apply take_ge. lia. Qed.

Lemma zdrop_all {A} (s : list A) n : size s <= n -> zdrop n s = [].
Proof. unfold size, zdrop. intros. apply drop_ge. lia. Qed.

Lemma ztake_zdrop {A} n (s : list A) : ztake n s ++ zdrop n s = s.
Proof. apply take_drop. Qed.

Lemma size_ztake {A} n (s : list A) :
  0 <= n -> size (ztake n s) = Z.min n (size s).
Proof. unfold size, ztake. rewrite length_take. lia. Qed.

Lemma size_zdrop {A} n (s : list A) :
  0 <= n -> size (zdrop n s) = Z.max 0 (size s - n).
Proof. unfold size, zdrop. rewrite length_drop. lia. Qed.

Lemma ztake_app_le {A} n (s t : list A) :
  n <= size s -> ztake n (s ++ t) = ztake n s.
Proof. unfold size, ztake. intros. apply take_app_le. lia. Qed.

(** [std::string::resize]: cut, or pad with NUL characters. *)
Definition resize (n : Z) (s : bytes) : bytes :=
  ztake n s ++ replicate (Z.to_nat (n - size s)) x00.

Lemma resize_le n s : n <= size s -> resize n s = ztake n s.
Proof.
  intros. unfold resize. replace (Z.to_nat (n - size s)) with 0%nat by lia.
  by rewrite app_nil_r.
Qed.

Lemma size_resize n s : 0 <= n -> size (resize n s) = n.
Proof.
  intros. unfold resize. rewrite size_app, size_ztake by done.
  unfold size in *. rewrite length_replicate. lia.
Qed.

(** Overwriting bytes in place, [memcpy(&s[off], bs, len)]; the callers stay
    within bounds. *)
Definition poke (off : Z) (bs s : bytes) : bytes :=
  ztake off s ++ bs ++ zdrop (off + size bs) s.

Lemma size_poke off bs s :
  0 <= off -> off + size bs <= size s -> size (poke off bs s) = size s.
Proof.
  intros. pose proof (size_nonneg bs). unfold poke.
  rewrite !size_app, size_ztake, size_zdrop by lia. lia.
Qed.

(** ** Little-endian representation of integers in memory *)

Fixpoint le_bytes (n : nat) (z : Z) : bytes :=
  match n with
  | O => []
  | S n => byte_of_Z z :: le_bytes n (Z.shiftr z 8)
  end.

Fixpoint le_val (bs : bytes) : Z :=
  match bs with
  | [] => 0
  | b :: bs => byte_to_Z b + 256 * le_val bs
  end.

Lemma length_le_bytes n z : length (le_bytes n z) = n.
Proof. revert z. induction n as [|n IH]; simpl; auto. Qed.

Lemma size_le_bytes n z : size (le_bytes n z) = Z.of_nat n.
Proof. unfold size. by rewrite length_le_bytes. Qed.

Lemma le_val_range bs : 0 <= le_val bs < 2 ^ (8 * size bs).
Proof.
  induction bs as [|b bs IH]; simpl; [done|].
  pose proof (byte_to_Z_range b) as [? ?]. rewrite size_cons.
  replace (8 * (1 + size bs)) with (8 + 8 * size bs) by lia.
  pose proof (size_nonneg bs). rewrite Z.pow_add_r by lia.
  change (2 ^ 8) with 256 in *. nia.
Qed.

Lemma le_val_bytes n z : le_val (le_bytes n z) = wrap (8 * Z.of_nat n) z.
Proof.
  revert z. induction n as [|n IH]; intros z; cbn [le_bytes le_val].
  - unfold wrap. by rewrite Z.mod_1_r.
  - rewrite IH, byte_to_of_Z. unfold wrap.
    replace (8 * Z.of_nat (S n)) with (8 + 8 * Z.of_nat n) by lia.
    rewrite Z.pow_add_r, Z.shiftr_div_pow2 by lia.
    change (2 ^ 8) with 256. rewrite (Z.rem_mul_r z 256) by lia. lia.
Qed.

Lemma le_bytes_val bs : le_bytes (length bs) (le_val bs) = bs.
Proof.
  induction bs as [|b bs IH]; cbn [le_bytes le_val length]; [done|].
  pose proof (byte_to_Z_range b) as [? ?]. change (2 ^ 8) with 256 in *.
  f_equal.
  - apply (inj byte_to_Z). rewrite byte_to_of_Z. unfold wrap.
    change (2 ^ 8) with 256. rewrite Z.mul_comm, Z.mod_add by lia.
    by apply Z.mod_small.
  - rewrite Z.shiftr_div_pow2 by lia. change (2 ^ 8) with 256.
    rewrite Z.mul_comm, Z.div_add, Z.div_small by lia. by rewrite Z.add_0_l.
Qed.

Lemma le_bytes_inj n a b :
  is_uint (8 * Z.of_nat n) a -> is_uint (8 * Z.of_nat n) b ->
  le_bytes n a = le_bytes n b -> a = b.
Proof.
  intros Ha Hb Heq%(f_equal le_val). rewrite !le_val_bytes in Heq.
  by rewrite !wrap_small in Heq.
Qed.

#[export] Hint Rewrite size_le_bytes length_le_bytes : xdb.

(** ** Tactics of the development *)

(** Case analysis on the boolean test of the outermost [if] of the goal. *)
Ltac case_if :=
  match goal with
  | |- context [if ?b then _ else _] => destruct b eqn:?
  end.

(** Turn boolean comparisons on [Z] in the hypotheses into propositions. *)
Ltac zbool :=
  repeat match goal with
  | H : (_ >=? _) = _ |- _ => rewrite Z.geb_leb in H
  | H : (_ >? _) = _ |- _ => rewrite Z.gtb_ltb in H
  | H : (_ <? _) = true |- _ => apply Z.ltb_lt in H
  | H : (_ <? _) = false |- _ => apply Z.ltb_ge in H
  | H : (_ <=? _) = true |- _ => apply Z.leb_le in H
  | H : (_ <=? _) = false |- _ => apply Z.leb_gt in H
  | H : (_ =? _) = true |- _ => apply Z.eqb_eq in H
  | H : (_ =? _) = false |- _ => apply Z.eqb_neq in H
  | H : (_ && _)%bool = true |- _ => apply andb_true_iff in H; destruct H
  | H : (_ || _)%bool = false |- _ => apply orb_false_iff in H; destruct H
  | H : negb _ = true |- _ => apply negb_true_iff in H
  | H : negb _ = false |- _ => apply negb_false_iff in H
  end.

(** [lia] with the defining equations of divisions by constants. *)
Ltac dlia := Z.div_mod_to_equations; lia.

(** Simplify with the rewriting rules of the shared database. *)
Ltac xsimp := autorewrite with xdb in *.
