(* ===== verification/Status.v ===== *)
(** * Status: error values

    [include/xiaodb/status.h]. A [Status] carries a code, a subcode and the
    message arguments it was built from. The constructor that concatenates the
    two message arguments into [state_] is out of line and not part of the
    repository, so both arguments are kept. Severity, retryable, data-loss and
    scope keep their default values in all the modelled code and are left out,
    as is the [checked_] bookkeeping of debug builds. *)

From S2P Require Import Prelude.

Inductive Code : Set :=
| kOk | kNotFound | kCorruption | kNotSupported | kInvalidArgument | kIOError
| kMergeInProgress | kIncomplete | kShutdownInProgress | kTimedOut | kAborted
| kBusy | kExpired | kTryAgain | kCompactionTooLarge | kColumnFamilyDropped
| kMaxCode.

Inductive SubCode : Set :=
| kNone | kMutexTimeout | kLockTimeout | kLockLimit | kNoSpace | kDeadlock
| kStaleFile | kMemoryLimit | kSpaceLimit | kPathNotFound
| KMergeOperandsInsufficientCapacity | kManualCompactionPaused | kOverwritten
| kTxnNotPrepared | kIOFenced | kMergeOperatorFailed
| kMergeOperandThresholdExceeded | kMaxSubCode.

#[global] Instance Code_eq_dec : EqDecision Code.
Proof. solve_decision. Defined.

#[global] Instance SubCode_eq_dec : EqDecision SubCode.
Proof. solve_decision. Defined.

Record Status : Set := mkStatus {
  code : Code;
  subcode : SubCode;
  msg : string;
  msg2 : string;
}.

#[global] Instance Status_eq_dec : EqDecision Status.
Proof. solve_decision. Defined.

Definition Status_OK : Status := mkStatus kOk kNone "" "".
Definition Status_NotFound : Status := mkStatus kNotFound kNone "" "".
Definition Corruption (m m2 : string) : Status := mkStatus kCorruption kNone m m2.
Definition NotSupported (m : string) : Status := mkStatus kNotSupported kNone m "".
Definition InvalidArgument (m : string) : Status :=
  mkStatus kInvalidArgument kNone m "".
Definition TryAgain : Status := mkStatus kTryAgain kNone "" "".
Definition MemoryLimit : Status := mkStatus kAborted kMemoryLimit "" "".
Definition MemoryLimit_msg (m : string) : Status :=
  mkStatus kAborted kMemoryLimit m "".
Definition OkOverwritten : Status := mkStatus kOk kOverwritten "" "".

Definition ok (s : Status) : bool := bool_decide (code s = kOk).
Definition IsNotFound (s : Status) : bool := bool_decide (code s = kNotFound).
Definition IsCorruption (s : Status) : bool := bool_decide (code s = kCorruption).
Definition IsTryAgain (s : Status) : bool := bool_decide (code s = kTryAgain).
Definition IsMemoryLimit (s : Status) : bool :=
  bool_decide (code s = kAborted) && bool_decide (subcode s = kMemoryLimit).

Lemma ok_not_TryAgain s : ok s = true -> IsTryAgain s = false.
Proof.
  unfold ok, IsTryAgain. rewrite bool_decide_eq_true, bool_decide_eq_false.
  by intros ->.
Qed.

Lemma TryAgain_not_ok s : IsTryAgain s = true -> ok s = false.
Proof.
  unfold ok, IsTryAgain. rewrite bool_decide_eq_true, bool_decide_eq_false.
  by intros ->.
Qed.

#[export] Hint Resolve ok_not_TryAgain TryAgain_not_ok : xdb.
