(* ===== verification/Slice.v ===== *)
(** * Slice: byte ranges

    [include/xiaodb/slice.h] and [util/slice.cc]. A [Slice] is the sequence of
    bytes it refers to; operations that move [data_] and [size_] return the
    shorter sequence. [assert]ed preconditions are hypotheses of the theorems. *)

From S2P Require Import Prelude.

Abbreviation Slice := bytes.

(** [SliceParts]: an array of slices, virtually concatenated. *)
Abbreviation SliceParts := (list Slice).

Definition empty_slice (s : Slice) : bool := size s =? 0.

Definition remove_prefix (n : Z) (s : Slice) : Slice := zdrop n s.
Definition remove_suffix (n : Z) (s : Slice) : Slice := ztake (size s - n) s.

(** [memcmp] over the first [n] bytes of both arguments: the sign of the
    difference of the first differing bytes, compared as [unsigned char]. *)
Fixpoint memcmp (n : nat) (a b : bytes) : Z :=
  match n, a, b with
  | S n, x :: a, y :: b =>
      match byte_to_Z x ?= byte_to_Z y with
      | Lt => -1
      | Gt => 1
      | Eq => memcmp n a b
      end
  | _, _, _ => 0
  end.

Definition compare (a b : Slice) : Z :=
  let min_len := if size a <? size b then size a else size b in
  let r := memcmp (Z.to_nat min_len) a b in
  if r =? 0 then
    if size a <? size b then -1
    else if size a >? size b then 1
    else r
  else r.

Definition slice_eqb (x y : Slice) : bool :=
  (size x =? size y) && (memcmp (length x) x y =? 0).

Definition starts_with (s x : Slice) : bool :=
  (size s >=? size x) && (memcmp (length x) s x =? 0).

Definition ends_with (s x : Slice) : bool :=
  (size s >=? size x) && (memcmp (length x) (zdrop (size s - size x) s) x =? 0).

(** The loop of [difference_offset]; the structural argument is the number of
    iterations left before [len]. *)
Fixpoint difference_offset_loop (n : nat) (a b : bytes) (off : Z) : Z :=
  match n, a, b with
  | S n, x :: a, y :: b =>
      if bool_decide (x = y) then difference_offset_loop n a b (off + 1) else off
  | _, _, _ => off
  end.

Definition difference_offset (a b : Slice) : Z :=
  let len := if size a <? size b then size a else size b in
  difference_offset_loop (Z.to_nat len) a b 0.

(** ** Hexadecimal conversion *)

(** Character literals of the source. *)
Definition ch_0 : Z := 48.
Definition ch_9 : Z := 57.
Definition ch_A : Z := 65.
Definition ch_F : Z := 70.
Definition ch_a : Z := 97.
Definition ch_f : Z := 102.

Definition toHex (v : Z) : byte :=
  if v <=? 9 then byte_of_Z (ch_0 + v) else byte_of_Z (ch_A + v - 10).

(** The argument of [fromHex] is a plain [char], signed on the supported
    platforms. *)
Definition fromHex (ch : byte) : Z :=
  let c := swrap 8 (byte_to_Z ch) in
  let c := if (c >=? ch_a) && (c <=? ch_f) then swrap 8 (c - (ch_a - ch_A)) else c in
  if (c <? ch_0) || ((c >? ch_9) && ((c <? ch_A) || (c >? ch_F))) then -1
  else if c <=? ch_9 then c - ch_0
  else c - ch_A + 10.

Definition ToString (hex : bool) (s : Slice) : bytes :=
  if hex then
    flat_map (fun b => let c := byte_to_Z b in
                [toHex (Z.shiftr c 4); toHex (Z.land c 15)]) s
  else s.

(** The decoding loop consumes two characters per iteration; [None] is the
    early [return false]. *)
Fixpoint DecodeHex_loop (s : bytes) (result : bytes) : option bytes :=
  match s with
  | c1 :: c2 :: s =>
      let h1 := fromHex c1 in
      if h1 <? 0 then None
      else
        let h2 := fromHex c2 in
        if h2 <? 0 then None
        else DecodeHex_loop s (result ++ [byte_of_Z (Z.lor (Z.shiftl h1 4) h2)])
  | _ => Some result
  end.

Definition DecodeHex (s : Slice) : option bytes :=
  if negb (size s mod 2 =? 0) then None else DecodeHex_loop s [].

(** ** Lemmas *)

Lemma memcmp_trichotomy n a b :
  memcmp n a b = -1 \/ memcmp n a b = 0 \/ memcmp n a b = 1.
Proof.
  revert a b. induction n as [|n IH]; intros [|x a] [|y b]; simpl; auto.
  destruct (Z.compare _ _); auto.
Qed.

Lemma memcmp_eq n a b :
  n = length a -> length a = length b -> memcmp n a b = 0 <-> a = b.
Proof.
  revert a b. induction n as [|n IH]; intros [|x a] [|y b] Hn Hl; simpl in *; try done.
  destruct (Z.compare_spec (byte_to_Z x) (byte_to_Z y)) as [E|E|E].
  - apply (inj byte_to_Z) in E as ->. rewrite IH by lia. split; [by intros ->|by intros [= ->]].
  - split; [done|]. intros [= -> ->]. lia.
  - split; [done|]. intros [= -> ->]. lia.
Qed.

Lemma slice_eqb_eq a b : slice_eqb a b = true <-> a = b.
Proof.
  unfold slice_eqb. rewrite andb_true_iff, !Z.eqb_eq. unfold size. split.
  - intros [Hl Hm]. apply memcmp_eq in Hm; [done|done|lia].
  - intros ->. split; [done|]. by apply memcmp_eq.
Qed.

Lemma memcmp_antisym n a b : memcmp n a b = - memcmp n b a.
Proof.
  revert a b. induction n as [|n IH]; intros [|x a] [|y b]; simpl; auto.
  rewrite (Z.compare_antisym (byte_to_Z y)).
  destruct (Z.compare _ _); simpl; auto.
Qed.

Lemma memcmp_prefix n a b : memcmp n a b = 0 -> (n <= length a)%nat ->
  (n <= length b)%nat -> take n a = take n b.
Proof.
  revert a b. induction n as [|n IH]; intros [|x a] [|y b] H Ha Hb;
    simpl in *; try lia; try done.
  destruct (Z.compare_spec (byte_to_Z x) (byte_to_Z y)) as [E|E|E]; try done.
  apply (inj byte_to_Z) in E as ->. f_equal. apply IH; auto with lia.
Qed.

(** Lexicographic order on byte strings, the documented order of slices. *)
Fixpoint lex_lt (a b : bytes) : Prop :=
  match a, b with
  | _, [] => False
  | [], _ :: _ => True
  | x :: a, y :: b => byte_to_Z x < byte_to_Z y \/ (x = y /\ lex_lt a b)
  end.

Lemma lex_lt_trans a b c : lex_lt a b -> lex_lt b c -> lex_lt a c.
Proof.
  revert b c. induction a as [|x a IH]; intros [|y b] [|z c]; simpl; try done.
  intros [?|[-> ?]] [?|[-> ?]]; [left; lia|by left|by left|right; eauto].
Qed.

Lemma lex_lt_irrefl a : ~ lex_lt a a.
Proof. induction a as [|x a IH]; simpl; [tauto|]. intros [?|[_ ?]]; [lia|tauto]. Qed.

Lemma compare_cons x a y b :
  compare (x :: a) (y :: b) =
  match byte_to_Z x ?= byte_to_Z y with
  | Lt => -1
  | Gt => 1
  | Eq => compare a b
  end.
Proof.
  unfold compare. rewrite !size_cons.
  replace (1 + size a <? 1 + size b) with (size a <? size b) by lia.
  replace (1 + size a >? 1 + size b) with (size a >? size b) by lia.
  replace (if size a <? size b then 1 + size a else 1 + size b)
    with (1 + (if size a <? size b then size a else size b)) by (case_if; lia).
  rewrite Z2Nat.inj_add by (try case_if; pose proof (size_nonneg a);
    pose proof (size_nonneg b); lia).
  change (Z.to_nat 1) with 1%nat. cbn [Nat.add memcmp].
  by destruct (Z.compare _ _).
Qed.

Lemma compare_nil_l b : compare [] b = if size b =? 0 then 0 else -1.
Proof. by destruct b. Qed.

Lemma compare_nil_r a : compare a [] = if size a =? 0 then 0 else 1.
Proof. by destruct a. Qed.

Lemma compare_antisym a b : compare b a = - compare a b.
Proof.
  revert b. induction a as [|x a IH]; intros [|y b]; try done.
  rewrite !compare_cons, (Z.compare_antisym (byte_to_Z x)).
  destruct (Z.compare _ _); simpl; auto.
Qed.

Lemma compare_spec a b :
  CompareSpec (a = b) (lex_lt a b) (lex_lt b a) (compare a b ?= 0).
Proof.
  revert b. induction a as [|x a IH]; intros [|y b]; try by constructor.
  rewrite compare_cons.
  destruct (Z.compare_spec (byte_to_Z x) (byte_to_Z y)) as [E|E|E];
    try (constructor; simpl; by left).
  apply (inj byte_to_Z) in E as ->.
  destruct (IH b); constructor; simpl; [by f_equal|by right..].
Qed.

Lemma fromHex_toHex_high b :
  fromHex (toHex (Z.shiftr (byte_to_Z b) 4)) = Z.shiftr (byte_to_Z b) 4.
Proof. destruct b; vm_compute; reflexivity. Qed.

Lemma fromHex_toHex_low b :
  fromHex (toHex (Z.land (byte_to_Z b) 15)) = Z.land (byte_to_Z b) 15.
Proof. destruct b; vm_compute; reflexivity. Qed.

Lemma nibbles_byte b :
  byte_of_Z (Z.lor (Z.shiftl (Z.shiftr (byte_to_Z b) 4) 4)
                   (Z.land (byte_to_Z b) 15)) = b.
Proof. destruct b; vm_compute; reflexivity. Qed.

Lemma DecodeHex_loop_ToString s r :
  DecodeHex_loop (ToString true s) r = Some (r ++ s).
Proof.
  revert r. induction s as [|b s IH]; intros r; [by rewrite app_nil_r|].
  change (ToString true (b :: s)) with
    (toHex (Z.shiftr (byte_to_Z b) 4) :: toHex (Z.land (byte_to_Z b) 15)
       :: ToString true s).
  cbn [DecodeHex_loop]. rewrite fromHex_toHex_high, fromHex_toHex_low.
  rewrite !(proj2 (Z.ltb_ge _ _)).
  - rewrite nibbles_byte, IH, <- app_assoc. done.
  - apply Z.land_nonneg. lia.
  - apply Z.shiftr_nonneg. pose proof (byte_to_Z_range b) as [? ?]. lia.
Qed.

Lemma size_ToString_hex s : size (ToString true s) = 2 * size s.
Proof.
  induction s as [|b s IH]; [done|].
  change (ToString true (b :: s)) with
    (toHex (Z.shiftr (byte_to_Z b) 4) :: toHex (Z.land (byte_to_Z b) 15)
       :: ToString true s).
  rewrite !size_cons, IH. lia.
Qed.

Lemma difference_offset_loop_spec n a b off :
  let d := difference_offset_loop n a b off in
  off <= d /\ ztake (d - off) a = ztake (d - off) b /\
  (d - off < Z.of_nat n -> (n <= length a)%nat -> (n <= length b)%nat ->
   a !! Z.to_nat (d - off) <> b !! Z.to_nat (d - off)) /\
  d - off <= Z.of_nat n.
Proof.
  revert a b off. induction n as [|n IH]; intros a b off d.
  - subst d. simpl. rewrite Z.sub_diag. split_and!; try done; lia.
  - subst d. destruct a as [|x a], b as [|y b]; cbn [difference_offset_loop];
      try (rewrite Z.sub_diag; split_and!; [lia|done|simpl; lia|lia]).
    case_bool_decide as E; subst.
    + destruct (IH a b (off + 1)) as (H1 & H2 & H3 & H4).
      set (d := difference_offset_loop n a b (off + 1)) in *.
      replace (d - off) with (1 + (d - (off + 1))) by lia.
      unfold ztake in *. rewrite Z2Nat.inj_add by lia.
      change (Z.to_nat 1) with 1%nat. cbn [Nat.add take length lookup list_lookup].
      split_and!; [lia|by f_equal| |lia].
      intros. apply H3; simpl in *; lia.
    + rewrite Z.sub_diag. split_and!; [lia|done| |lia]. simpl. congruence.
Qed.

(** ** Properties *)

(** [Slice::compare] is the three-way comparison of the
    lexicographic order of unsigned bytes: negative, zero and positive exactly
    when the first slice precedes, equals or follows the second, and swapping
    the arguments swaps the sign. *)
Theorem compare_lexicographic (a b : Slice) :
  (compare a b < 0 <-> lex_lt a b) /\ (compare a b = 0 <-> a = b) /\
  (compare a b > 0 <-> lex_lt b a) /\ compare b a = - compare a b.
Proof.
  pose proof (lex_lt_irrefl a) as I. pose proof (compare_antisym a b).
  pose proof (compare_spec a b) as Hs.
  assert (lex_lt a b -> lex_lt b a -> False)
    by (intros H1 H2; apply I; by apply (lex_lt_trans _ b)).
  destruct (Z.compare_spec (compare a b) 0); inversion Hs; subst;
    split_and!; try split; intros; subst; try done; try lia;
    exfalso; by eauto using lex_lt_irrefl.
Qed.
