(* ===== verification/Coding.v ===== *)
(** * Coding: fixed-width and variable-length integers, length-prefixed slices

    [util/coding_lean.h], [util/coding.h] and [util/coding.cc]. An [Encode...]
    function returns the bytes it stores at [dst]; a [Put...] function returns
    the string it appends to; a [Get...] function maps the input slice to the
    parsed value, [None] for [return false], and the slice it leaves behind.

    [GetVarint32PtrFallback] and [GetVarint64Ptr] are declared in [coding.h] but
    not defined anywhere in the repository. They are the operations of the class
    [VarintReader]; what the callers rely on is the class [VarintReaderLaws]:
    they parse LEB128 groups. *)

From S2P Require Import Prelude.
From S2P Require Import Slice.

(** ** Fixed-width integers

    Both branches of the endianness test are kept: on a little-endian platform
    the bytes are the object representation of the integer. *)

(** [port::kLittleEndian] of [port/win/port_win.h]. *)
Definition kLittleEndian : bool := true.

(** [buf[i] = (value >> 8 * i) & 0xff]. *)
Definition byte_at (value shift : Z) : byte :=
  byte_of_Z (Z.land (Z.shiftr value shift) 255).

(** [static_cast<unsigned char>(ptr[i])], shifted into place. *)
Definition char_at (ptr : bytes) (i : nat) (shift : Z) : Z :=
  Z.shiftl (byte_to_Z (nth i ptr x00)) shift.

Definition EncodeFixed16_on (little_endian : bool) (value : Z) : bytes :=
  if little_endian then le_bytes 2 value
  else [byte_at value 0; byte_at value 8].

Definition EncodeFixed32_on (little_endian : bool) (value : Z) : bytes :=
  if little_endian then le_bytes 4 value
  else [byte_at value 0; byte_at value 8; byte_at value 16; byte_at value 24].

Definition EncodeFixed64_on (little_endian : bool) (value : Z) : bytes :=
  if little_endian then le_bytes 8 value
  else [byte_at value 0; byte_at value 8; byte_at value 16; byte_at value 24;
        byte_at value 32; byte_at value 40; byte_at value 48; byte_at value 56].

Definition DecodeFixed16_on (little_endian : bool) (ptr : bytes) : Z :=
  if little_endian then le_val (take 2 ptr)
  else Z.lor (char_at ptr 0 0) (char_at ptr 1 8).

Definition DecodeFixed32_on (little_endian : bool) (ptr : bytes) : Z :=
  if little_endian then le_val (take 4 ptr)
  else Z.lor (Z.lor (Z.lor (char_at ptr 0 0) (char_at ptr 1 8)) (char_at ptr 2 16))
             (char_at ptr 3 24).

Definition DecodeFixed64_on (little_endian : bool) (ptr : bytes) : Z :=
  if little_endian then le_val (take 8 ptr)
  else
    let lo := DecodeFixed32_on little_endian ptr in
    let hi := DecodeFixed32_on little_endian (drop 4 ptr) in
    Z.lor (wrap 64 (Z.shiftl hi 32)) lo.

Definition EncodeFixed16 := EncodeFixed16_on kLittleEndian.
Definition EncodeFixed32 := EncodeFixed32_on kLittleEndian.
Definition EncodeFixed64 := EncodeFixed64_on kLittleEndian.
Definition DecodeFixed16 := DecodeFixed16_on kLittleEndian.
Definition DecodeFixed32 := DecodeFixed32_on kLittleEndian.
Definition DecodeFixed64 := DecodeFixed64_on kLittleEndian.

Definition PutFixed16 (dst : bytes) (value : Z) : bytes := dst ++ EncodeFixed16 value.
Definition PutFixed32 (dst : bytes) (value : Z) : bytes := dst ++ EncodeFixed32 value.
Definition PutFixed64 (dst : bytes) (value : Z) : bytes := dst ++ EncodeFixed64 value.

(** ** Varints: encoding *)

Definition EncodeVarint32 (v : Z) : bytes :=
  let B := 128 in
  if v <? Z.shiftl 1 7 then [byte_of_Z v]
  else if v <? Z.shiftl 1 14 then
    [byte_of_Z (Z.lor v B); byte_of_Z (Z.shiftr v 7)]
  else if v <? Z.shiftl 1 21 then
    [byte_of_Z (Z.lor v B); byte_of_Z (Z.lor (Z.shiftr v 7) B);
     byte_of_Z (Z.shiftr v 14)]
  else if v <? Z.shiftl 1 28 then
    [byte_of_Z (Z.lor v B); byte_of_Z (Z.lor (Z.shiftr v 7) B);
     byte_of_Z (Z.lor (Z.shiftr v 14) B); byte_of_Z (Z.shiftr v 21)]
  else
    [byte_of_Z (Z.lor v B); byte_of_Z (Z.lor (Z.shiftr v 7) B);
     byte_of_Z (Z.lor (Z.shiftr v 14) B); byte_of_Z (Z.lor (Z.shiftr v 21) B);
     byte_of_Z (Z.shiftr v 28)].

Definition kMaxVarint64Length : Z := 10.

(** The [while (v >= B)] loop; [None] when the fuel runs out. *)
Fixpoint EncodeVarint64_loop (fuel : nat) (v : Z) : option bytes :=
  match fuel with
  | O => None
  | S fuel =>
      if v >=? 128 then
        rest ← EncodeVarint64_loop fuel (Z.shiftr v 7);
        Some (byte_of_Z (Z.lor (Z.land v (128 - 1)) 128) :: rest)
      else Some [byte_of_Z v]
  end.

(** The fuel is the size of the callers' buffers; [EncodeVarint64_loop_total]
    shows that it is enough. *)
Definition EncodeVarint64 (v : Z) : bytes :=
  default [] (EncodeVarint64_loop (Z.to_nat kMaxVarint64Length) v).

Definition PutVarint32 (dst : bytes) (v : Z) : bytes := dst ++ EncodeVarint32 v.

Definition PutVarint32Varint32 (dst : bytes) (v1 v2 : Z) : bytes :=
  dst ++ (EncodeVarint32 v1 ++ EncodeVarint32 v2).

Definition PutVarint32Varint32Varint32 (dst : bytes) (v1 v2 v3 : Z) : bytes :=
  dst ++ (EncodeVarint32 v1 ++ EncodeVarint32 v2 ++ EncodeVarint32 v3).

Definition PutVarint64 (dst : bytes) (v : Z) : bytes := dst ++ EncodeVarint64 v.

Definition PutVarint64Varint64 (dst : bytes) (v1 v2 : Z) : bytes :=
  dst ++ (EncodeVarint64 v1 ++ EncodeVarint64 v2).

Definition PutVarint32Varint64 (dst : bytes) (v1 v2 : Z) : bytes :=
  dst ++ (EncodeVarint32 v1 ++ EncodeVarint64 v2).

Definition PutVarint32Varint32Varint64 (dst : bytes) (v1 v2 v3 : Z) : bytes :=
  dst ++ (EncodeVarint32 v1 ++ EncodeVarint32 v2 ++ EncodeVarint64 v3).

Fixpoint VarintLength_loop (fuel : nat) (v len : Z) : option Z :=
  match fuel with
  | O => None
  | S fuel =>
      if v >=? 128 then VarintLength_loop fuel (Z.shiftr v 7) (len + 1)
      else Some len
  end.

Definition VarintLength (v : Z) : Z :=
  default 0 (VarintLength_loop (Z.to_nat kMaxVarint64Length) v 1).

(** ** Zigzag coding of signed integers *)

(** [l] is an [int64_t]; [l >> 63] is the arithmetic shift. *)
Definition i64ToZigzag (l : Z) : Z :=
  Z.lxor (wrap 64 (Z.shiftl (wrap 64 l) 1)) (wrap 64 (Z.shiftr l 63)).

Definition zigzagToI64 (n : Z) : Z :=
  swrap 64 (Z.lxor (Z.shiftr n 1) (wrap 64 (- Z.land n 1))).

Definition PutVarsignedint64 (dst : bytes) (v : Z) : bytes :=
  dst ++ EncodeVarint64 (i64ToZigzag v).

(** ** Length-prefixed slices: writing *)

Definition PutLengthPrefixedSlice (dst : bytes) (value : Slice) : bytes :=
  PutVarint32 dst (wrap 32 (size value)) ++ value.

(** [size_t] sum of the sizes of the parts, starting from [total]. *)
Definition parts_size (total : Z) (parts : SliceParts) : Z :=
  fold_left (fun acc p => wrap 64 (acc + size p)) parts total.

Definition PutLengthPrefixedSliceParts_from (dst : bytes) (total_bytes : Z)
    (parts : SliceParts) : bytes :=
  fold_left (fun dst p => dst ++ p) parts
    (PutVarint32 dst (wrap 32 (parts_size total_bytes parts))).

Definition PutLengthPrefixedSliceParts (dst : bytes) (parts : SliceParts) : bytes :=
  PutLengthPrefixedSliceParts_from dst 0 parts.

Definition PutLengthPrefixedSlicePartsWithPadding (dst : bytes)
    (parts : SliceParts) (pad_sz : Z) : bytes :=
  PutLengthPrefixedSliceParts_from dst pad_sz parts
    ++ replicate (Z.to_nat pad_sz) x00.

(** ** Reading *)

Definition Getter (A : Type) : Type := Slice -> option A * Slice.

(** The out-of-line readers: [p .. limit) is the argument, the result is the
    value stored and the bytes from the returned pointer to [limit], [None] for
    [nullptr]. *)
Class VarintReader := {
  GetVarint32PtrFallback : bytes -> option (Z * bytes);
  GetVarint64Ptr : bytes -> option (Z * bytes);
}.

Definition GetFixed64 : Getter Z := fun input =>
  if size input <? 8 then (None, input)
  else (Some (DecodeFixed64 input), remove_prefix 8 input).

Definition GetFixed32 : Getter Z := fun input =>
  if size input <? 4 then (None, input)
  else (Some (DecodeFixed32 input), remove_prefix 4 input).

Definition GetFixed16 : Getter Z := fun input =>
  if size input <? 2 then (None, input)
  else (Some (DecodeFixed16 input), remove_prefix 2 input).

Section Reading.
Context `{VarintReader}.

Definition GetVarint32Ptr (p : bytes) : option (Z * bytes) :=
  match p with
  | b :: q =>
      let result := byte_to_Z b in
      if Z.land result 128 =? 0 then Some (result, q)
      else GetVarint32PtrFallback p
  | [] => GetVarint32PtrFallback p
  end.

Definition GetVarint32 : Getter Z := fun input =>
  match GetVarint32Ptr input with
  | None => (None, input)
  | Some (v, q) => (Some v, q)
  end.

Definition GetVarint64 : Getter Z := fun input =>
  match GetVarint64Ptr input with
  | None => (None, input)
  | Some (v, q) => (Some v, q)
  end.

Definition GetVarsignedint64Ptr (p : bytes) : option (Z * bytes) :=
  match GetVarint64Ptr p with
  | None => None
  | Some (u, q) => Some (zigzagToI64 u, q)
  end.

Definition GetVarsignedint64 : Getter Z := fun input =>
  match GetVarsignedint64Ptr input with
  | None => (None, input)
  | Some (v, q) => (Some v, q)
  end.

(** On a short input the length has already been consumed when the function
    returns [false]. *)
Definition GetLengthPrefixedSlice : Getter Slice := fun input =>
  match GetVarint32 input with
  | (Some len, input) =>
      if size input >=? len then (Some (ztake len input), remove_prefix len input)
      else (None, input)
  | (None, input) => (None, input)
  end.

(** The overload on [const char *]: [mem] is the memory from [data] on, the
    length is looked for in its first five bytes. *)
Definition GetLengthPrefixedSlice_at (mem : bytes) : option Slice :=
  match GetVarint32Ptr (ztake 5 mem) with
  | Some (len, q) =>
      Some (ztake len (zdrop (size (ztake 5 mem) - size q) mem))
  | None => None
  end.

End Reading.

(** The scanning loop of [GetSliceUntil]: [len] is a [uint32_t]. *)
Fixpoint GetSliceUntil_loop (fuel : nat) (slice : Slice) (delimiter : byte)
    (len : Z) : option Z :=
  match fuel with
  | O => None
  | S fuel =>
      if (len <? size slice)
         && bool_decide (slice !! Z.to_nat len <> Some delimiter)
      then GetSliceUntil_loop fuel slice delimiter (wrap 32 (len + 1))
      else Some len
  end.

Definition GetSliceUntil (slice : Slice) (delimiter : byte) : option (Slice * Slice) :=
  len ← GetSliceUntil_loop (S (length slice)) slice delimiter 0;
  Some (ztake len slice,
        remove_prefix (len + (if len <? size slice then 1 else 0)) slice).

(** ** The LEB128 format *)

(** Value of a group: seven bits per byte, least significant first. *)
Fixpoint leb128_val (bs : bytes) : Z :=
  match bs with
  | [] => 0
  | b :: bs => Z.land (byte_to_Z b) 127 + 128 * leb128_val bs
  end.

(** Every byte but the last has its continuation bit set. *)
Fixpoint leb128_wf (bs : bytes) : bool :=
  match bs with
  | [] => false
  | [b] => byte_to_Z b <? 128
  | b :: bs => (128 <=? byte_to_Z b) && leb128_wf bs
  end.

(** What the callers rely on: a well-formed group that fits the width is parsed
    and the pointer moves just past it; a successful parse has consumed at least
    one byte and yields a value of the declared type. *)
Class VarintReaderLaws (R : VarintReader) : Prop := {
  fallback32_parses bs rest :
    leb128_wf bs = true -> size bs <= 5 -> leb128_val bs < 2 ^ 32 ->
    GetVarint32PtrFallback (bs ++ rest) = Some (leb128_val bs, rest);
  fallback32_advances p v q :
    GetVarint32PtrFallback p = Some (v, q) ->
    is_uint 32 v /\ exists b pre, p = b :: pre ++ q;
  get64_parses bs rest :
    leb128_wf bs = true -> size bs <= 10 -> leb128_val bs < 2 ^ 64 ->
    GetVarint64Ptr (bs ++ rest) = Some (leb128_val bs, rest);
  get64_advances p v q :
    GetVarint64Ptr p = Some (v, q) ->
    is_uint 64 v /\ exists b pre, p = b :: pre ++ q;
}.

(** A reader that satisfies the laws: at most [n] bytes of a group are
    inspected. Concrete executions use this instance. *)
Fixpoint leb128_read (n : nat) (p : bytes) : option (Z * bytes) :=
  match n, p with
  | S n, b :: p =>
      if byte_to_Z b <? 128 then Some (byte_to_Z b, p)
      else '(v, q) ← leb128_read n p;
           Some (Z.land (byte_to_Z b) 127 + 128 * v, q)
  | _, _ => None
  end.

Definition leb128_reader : VarintReader := {|
  GetVarint32PtrFallback p := '(v, q) ← leb128_read 5 p; Some (wrap 32 v, q);
  GetVarint64Ptr p := '(v, q) ← leb128_read 10 p; Some (wrap 64 v, q);
|}.

(** ** Lemmas on the continuation byte *)

Lemma land_127 b : Z.land b 127 = b mod 128.
Proof. change 127 with (Z.ones 7). by rewrite Z.land_ones. Qed.

Lemma wrap8_lor_128 v : 0 <= v -> wrap 8 (Z.lor v 128) = v mod 128 + 128.
Proof.
  intros Hv. pose proof (Z.mod_pos_bound v 128 ltac:(lia)).
  transitivity (Z.lor (v mod 128) (Z.shiftl 1 7));
    [|rewrite lor_shiftl_add by lia; lia].
  unfold wrap. rewrite <- !(Z.land_ones _ 8) by lia.
  change 128 with (2 ^ 7) at 2. rewrite <- (Z.land_ones v 7) by lia.
  rewrite Z.land_lor_distr_l. change (Z.shiftl 1 7) with 128.
  change (Z.land 128 (Z.ones 8)) with 128.
  apply Z.bits_inj'. intros i Hi. rewrite !Z.lor_spec, !Z.land_spec.
  change 128 with (2 ^ 7). rewrite Z.pow2_bits_eqb, !Z.testbit_ones_nonneg by lia.
  destruct (Z.eqb_spec 7 i); [by rewrite !orb_true_r|].
  replace (i <? 8) with (i <? 7) by lia. done.
Qed.

Lemma cont_byte v : 0 <= v -> byte_to_Z (byte_of_Z (Z.lor v 128)) = v mod 128 + 128.
Proof. intros. by rewrite byte_to_of_Z, wrap8_lor_128. Qed.

(** [EncodeVarint32] does not mask the low bits before it stores them. *)
Lemma cont_byte_mask v :
  0 <= v -> byte_of_Z (Z.lor v 128) = byte_of_Z (Z.lor (Z.land v (128 - 1)) 128).
Proof.
  intros. apply (inj byte_to_Z). change (128 - 1) with 127.
  rewrite land_127, !cont_byte by (try apply Z.mod_pos_bound; lia).
  by rewrite Zmod_mod.
Qed.

Lemma shiftr_7 v : Z.shiftr v 7 = v / 128.
Proof. by rewrite Z.shiftr_div_pow2. Qed.

Lemma EncodeVarint64_step fuel v :
  0 <= v ->
  EncodeVarint64_loop (S fuel) v =
  if v >=? 128 then
    rest ← EncodeVarint64_loop fuel (v / 128);
    Some (byte_of_Z (v mod 128 + 128) :: rest)
  else Some [byte_of_Z v].
Proof.
  intros. cbn [EncodeVarint64_loop]. rewrite shiftr_7. case_if; [|done].
  rewrite <- cont_byte_mask by done.
  rewrite <- (byte_of_to_Z (byte_of_Z (Z.lor v 128))), cont_byte by done. done.
Qed.

(** The loop ends within [S fuel] iterations on values below [128 ^ S fuel]. *)
Lemma EncodeVarint64_loop_total fuel v :
  0 <= v < 128 ^ Z.of_nat (S fuel) -> is_Some (EncodeVarint64_loop (S fuel) v).
Proof.
  revert v. induction fuel as [|fuel IH]; intros v Hv;
    rewrite EncodeVarint64_step by lia; case_if; zbool; try done.
  - change (128 ^ _) with 128 in Hv. lia.
  - destruct (IH (v / 128)) as [bs ->]; [|done].
    rewrite (Nat2Z.inj_succ (S fuel)), Z.pow_succ_r in Hv by lia.
    split; [apply Z.div_pos; lia|apply Z.div_lt_upper_bound; lia].
Qed.

Lemma EncodeVarint64_loop_spec fuel v bs :
  0 <= v -> EncodeVarint64_loop fuel v = Some bs ->
  leb128_wf bs = true /\ leb128_val bs = v /\ (length bs <= fuel)%nat.
Proof.
  revert v bs. induction fuel as [|fuel IH]; intros v bs Hv; [done|].
  rewrite EncodeVarint64_step by done. case_if; zbool.
  - intros (rest & Hrest & [= <-])%bind_Some.
    destruct (IH (v / 128) rest ltac:(apply Z.div_pos; lia) Hrest) as (Hwf & Hval & Hlen).
    pose proof (Z.mod_pos_bound v 128 ltac:(lia)).
    pose proof (Z.div_mod v 128 ltac:(lia)).
    split_and!; [|cbn [leb128_val]; rewrite Hval|simpl; lia].
    + destruct rest as [|c rest]; [done|].
      change ((128 <=? byte_to_Z (byte_of_Z (v mod 128 + 128)))
              && leb128_wf (c :: rest) = true).
      rewrite Hwf, byte_to_of_Z, wrap_small by (unfold is_uint; lia).
      rewrite andb_true_r. lia.
    + rewrite byte_to_of_Z, wrap_small, land_127 by (unfold is_uint; lia).
      rewrite Z.add_mod, Z.mod_same, Z.add_0_r, !Zmod_mod by lia. lia.
  - intros [= <-]. assert (byte_to_Z (byte_of_Z v) = v) as E
      by (rewrite byte_to_of_Z; apply wrap_small; unfold is_uint; lia).
    cbn [leb128_wf leb128_val]. rewrite E, land_127, Z.mod_small by lia.
    split_and!; [lia|lia|simpl; lia].
Qed.

Lemma EncodeVarint64_spec v :
  is_uint 64 v ->
  leb128_wf (EncodeVarint64 v) = true /\ leb128_val (EncodeVarint64 v) = v /\
  size (EncodeVarint64 v) <= kMaxVarint64Length.
Proof.
  intros [H0 H1]. unfold EncodeVarint64.
  destruct (EncodeVarint64_loop_total 9 v) as [bs E].
  { change (128 ^ _) with (2 ^ 70). lia. }
  change (Z.to_nat kMaxVarint64Length) with 10%nat. rewrite E.
  apply EncodeVarint64_loop_spec in E as (? & ? & Hl); [|done].
  split_and!; [done..|]. simpl. unfold size, kMaxVarint64Length. lia.
Qed.

Lemma EncodeVarint32_loop v :
  is_uint 32 v -> EncodeVarint64_loop 5 v = Some (EncodeVarint32 v).
Proof.
  intros [H0 H1]. unfold EncodeVarint32. cbn zeta.
  change (Z.shiftl 1 7) with 128. change (Z.shiftl 1 14) with 16384.
  change (Z.shiftl 1 21) with 2097152. change (Z.shiftl 1 28) with 268435456.
  assert (Z.shiftr v 7 = v / 128) by (by rewrite Z.shiftr_div_pow2).
  assert (Z.shiftr v 14 = v / 16384) by (by rewrite Z.shiftr_div_pow2).
  assert (Z.shiftr v 21 = v / 2097152) by (by rewrite Z.shiftr_div_pow2).
  assert (Z.shiftr v 28 = v / 268435456) by (by rewrite Z.shiftr_div_pow2).
  assert (forall a, 0 <= Z.shiftr v a) by (intros; apply Z.shiftr_nonneg; lia).
  cbn [EncodeVarint64_loop].
  rewrite !Z.shiftr_shiftr by lia.
  change (7 + 7 + 7 + 7) with 28. change (7 + 7 + 7) with 21. change (7 + 7) with 14.
  rewrite <- !cont_byte_mask by (auto with lia).
  change (2 ^ 32) with 4294967296 in *.
  repeat (case_if; zbool); first [done|exfalso; dlia].
Qed.

Lemma EncodeVarint32_spec v :
  is_uint 32 v ->
  leb128_wf (EncodeVarint32 v) = true /\ leb128_val (EncodeVarint32 v) = v /\
  size (EncodeVarint32 v) <= 5.
Proof.
  intros Hv. pose proof (EncodeVarint32_loop v Hv) as E.
  apply EncodeVarint64_loop_spec in E as (? & ? & Hl); [|apply Hv].
  split_and!; [done..|]. unfold size. lia.
Qed.

Lemma VarintLength_loop_spec fuel v n bs :
  0 <= v -> EncodeVarint64_loop fuel v = Some bs ->
  VarintLength_loop fuel v n = Some (n - 1 + size bs).
Proof.
  revert v n bs. induction fuel as [|fuel IH]; intros v n bs Hv; [done|].
  cbn [EncodeVarint64_loop VarintLength_loop]. case_if.
  - intros (rest & Hrest & [= <-])%bind_Some.
    erewrite IH; [|by apply Z.shiftr_nonneg|done]. f_equal. rewrite size_cons. lia.
  - intros [= <-]. f_equal. rewrite size_cons, size_nil. lia.
Qed.

(** ** Lemmas on fixed-width integers *)

Lemma byte_at_shiftr v s : byte_at v s = byte_of_Z (Z.shiftr v s).
Proof.
  unfold byte_at. change 255 with (Z.ones 8). rewrite Z.land_ones by lia.
  apply byte_of_Z_wrap.
Qed.

Lemma EncodeFixed16_portable v : EncodeFixed16_on false v = EncodeFixed16_on true v.
Proof. unfold EncodeFixed16_on. by rewrite !byte_at_shiftr. Qed.

Lemma EncodeFixed32_portable v : EncodeFixed32_on false v = EncodeFixed32_on true v.
Proof.
  unfold EncodeFixed32_on. rewrite !byte_at_shiftr. cbn [le_bytes].
  by rewrite !Z.shiftr_shiftr by lia.
Qed.

Lemma EncodeFixed64_portable v : EncodeFixed64_on false v = EncodeFixed64_on true v.
Proof.
  unfold EncodeFixed64_on. rewrite !byte_at_shiftr. cbn [le_bytes].
  by rewrite !Z.shiftr_shiftr by lia.
Qed.

Lemma lor_byte acc b k :
  0 <= k -> 0 <= acc < 2 ^ k ->
  Z.lor acc (Z.shiftl (byte_to_Z b) k) = acc + byte_to_Z b * 2 ^ k /\
  0 <= acc + byte_to_Z b * 2 ^ k < 2 ^ (k + 8).
Proof.
  intros Hk Ha. split; [by apply lor_shiftl_add|].
  pose proof (byte_to_Z_range b) as [? ?]. rewrite Z.pow_add_r by lia. nia.
Qed.

Lemma DecodeFixed16_portable ptr :
  2 <= size ptr -> DecodeFixed16_on false ptr = DecodeFixed16_on true ptr.
Proof.
  intros Hl. destruct ptr as [|b0 [|b1 ptr]]; try (unfold size in Hl; simpl in Hl; lia).
  unfold DecodeFixed16_on, char_at. cbn [nth take]. rewrite take_0, Z.shiftl_0_r.
  cbn [le_val].
  destruct (lor_byte (byte_to_Z b0) b1 8) as [-> ?]; [lia|apply byte_to_Z_range|].
  change (2 ^ 8) with 256. lia.
Qed.

Lemma DecodeFixed32_portable ptr :
  4 <= size ptr -> DecodeFixed32_on false ptr = DecodeFixed32_on true ptr.
Proof.
  intros Hl. destruct ptr as [|b0 [|b1 [|b2 [|b3 ptr]]]];
    try (unfold size in Hl; simpl in Hl; lia).
  unfold DecodeFixed32_on, char_at. cbn [nth take]. rewrite take_0, Z.shiftl_0_r.
  cbn [le_val].
  destruct (lor_byte (byte_to_Z b0) b1 8) as [-> H1]; [lia|apply byte_to_Z_range|].
  destruct (lor_byte _ b2 16 ltac:(lia) H1) as [-> H2].
  destruct (lor_byte _ b3 24 ltac:(lia) H2) as [-> H3]. lia.
Qed.

Lemma DecodeFixed64_portable ptr :
  8 <= size ptr -> DecodeFixed64_on false ptr = DecodeFixed64_on true ptr.
Proof.
  intros Hl. unfold DecodeFixed64_on.
  rewrite !DecodeFixed32_portable by (unfold size in *; rewrite ?length_drop; lia).
  unfold DecodeFixed32_on.
  destruct ptr as [|b0 [|b1 [|b2 [|b3 ptr]]]]; try (unfold size in Hl; simpl in Hl; lia).
  cbn [drop take]. rewrite take_0, drop_0.
  pose proof (le_val_range [b0; b1; b2; b3]) as Hlo.
  pose proof (le_val_range (take 4 ptr)) as Hhi.
  rewrite size_cons, size_cons, size_cons, size_cons in *.
  assert (size (take 4 ptr) = 4) as E by (unfold size in *; rewrite length_take; lia).
  rewrite E in Hhi. change (2 ^ (8 * 4)) with 4294967296 in Hhi.
  change (size _) with 0 in Hlo. change (2 ^ _) with 4294967296 in Hlo.
  rewrite wrap_small.
  - rewrite Z.lor_comm, lor_shiftl_add by (try done; lia).
    change (2 ^ 32) with 4294967296. cbn [le_val] in *. lia.
  - rewrite Z.shiftl_mul_pow2 by lia. unfold is_uint.
    change (2 ^ 64) with (4294967296 * 4294967296).
    change (2 ^ 32) with 4294967296. lia.
Qed.

Lemma take_le_bytes n v rest : take n (le_bytes n v ++ rest) = le_bytes n v.
Proof. apply take_app_length'. by rewrite length_le_bytes. Qed.

Lemma DecodeFixed32_Encode v rest :
  is_uint 32 v -> DecodeFixed32 (EncodeFixed32 v ++ rest) = v.
Proof.
  intros. change (le_val (take 4 (le_bytes 4 v ++ rest)) = v).
  rewrite take_le_bytes, le_val_bytes. by apply wrap_small.
Qed.

Lemma DecodeFixed64_Encode v rest :
  is_uint 64 v -> DecodeFixed64 (EncodeFixed64 v ++ rest) = v.
Proof.
  intros. change (le_val (take 8 (le_bytes 8 v ++ rest)) = v).
  rewrite take_le_bytes, le_val_bytes. by apply wrap_small.
Qed.

Lemma size_EncodeFixed32 v : size (EncodeFixed32 v) = 4.
Proof. apply size_le_bytes. Qed.

Lemma size_EncodeFixed64 v : size (EncodeFixed64 v) = 8.
Proof. apply size_le_bytes. Qed.

Lemma DecodeFixed32_range ptr : is_uint 32 (DecodeFixed32 ptr).
Proof.
  unfold DecodeFixed32, DecodeFixed32_on, is_uint. cbn.
  pose proof (le_val_range (take 4 ptr)) as [? ?]. split; [done|].
  eapply Z.lt_le_trans; [done|]. apply Z.pow_le_mono_r; [lia|].
  unfold size. rewrite length_take. lia.
Qed.

Lemma GetFixed64_Put v rest :
  is_uint 64 v -> GetFixed64 (EncodeFixed64 v ++ rest) = (Some v, rest).
Proof.
  intros. unfold GetFixed64. rewrite size_app, size_EncodeFixed64.
  rewrite (proj2 (Z.ltb_ge _ _)) by (pose proof (size_nonneg rest); lia).
  by rewrite DecodeFixed64_Encode.
Qed.

#[export] Hint Rewrite size_EncodeFixed32 size_EncodeFixed64 : xdb.
#[export] Hint Resolve DecodeFixed32_range : xdb.

(** ** Lemmas on the readers *)

Lemma leb128_cont_bit b : (Z.land (byte_to_Z b) 128 =? 0) = (byte_to_Z b <? 128).
Proof. by destruct b. Qed.

Lemma leb128_val_nonneg bs : 0 <= leb128_val bs.
Proof.
  induction bs as [|b bs IH]; simpl; [done|]. rewrite land_127.
  pose proof (Z.mod_pos_bound (byte_to_Z b) 128). lia.
Qed.

Lemma leb128_read_wf n bs rest :
  leb128_wf bs = true -> (length bs <= n)%nat ->
  leb128_read n (bs ++ rest) = Some (leb128_val bs, rest).
Proof.
  revert n. induction bs as [|b bs IH]; intros n Hwf Hn; [done|].
  destruct n as [|n]; [simpl in Hn; lia|]. simpl in Hn.
  cbn [app leb128_read leb128_val]. destruct bs as [|c bs].
  - cbn [leb128_wf] in Hwf. rewrite Hwf. zbool. rewrite land_127, Z.mod_small.
    + cbn [leb128_val app]. by rewrite Z.mul_0_r, Z.add_0_r.
    + pose proof (byte_to_Z_range b) as [? ?]. lia.
  - change (leb128_wf (b :: c :: bs)) with
      ((128 <=? byte_to_Z b) && leb128_wf (c :: bs)) in Hwf. zbool.
    rewrite (proj2 (Z.ltb_ge _ _)) by lia.
    rewrite IH by (done || simpl in *; lia). done.
Qed.

Lemma leb128_read_advances n p v q :
  leb128_read n p = Some (v, q) -> 0 <= v /\ exists b pre, p = b :: pre ++ q.
Proof.
  revert p v q. induction n as [|n IH]; intros [|b p] v q; try done.
  cbn [leb128_read]. pose proof (byte_to_Z_range b) as [? ?]. case_if.
  - intros [= <- <-]. split; [lia|]. by exists b, [].
  - intros ([v' q'] & Hr & [= <- <-])%bind_Some.
    apply IH in Hr as (? & c & pre & ->). rewrite land_127.
    pose proof (Z.mod_pos_bound (byte_to_Z b) 128).
    split; [lia|]. by exists b, (c :: pre).
Qed.

(** The reference reader satisfies the laws of the interface. *)
#[global] Instance leb128_reader_laws : VarintReaderLaws leb128_reader.
Proof.
  assert (forall n w bs rest, leb128_wf bs = true -> (length bs <= n)%nat ->
    leb128_val bs < 2 ^ w ->
    ('(v, q) ← leb128_read n (bs ++ rest); Some (wrap w v, q))
    = Some (leb128_val bs, rest)) as P.
  { intros n w bs rest Hwf Hl Hv. rewrite leb128_read_wf by done. simpl.
    rewrite wrap_small; [done|split; [apply leb128_val_nonneg|done]]. }
  assert (forall n w p v q, 0 <= w ->
    ('(v, q) ← leb128_read n p; Some (wrap w v, q)) = Some (v, q) ->
    is_uint w v /\ exists b pre, p = b :: pre ++ q) as A.
  { intros n w p v q Hw ([v' q'] & Hr & [= <- <-])%bind_Some.
    apply leb128_read_advances in Hr as [? ?]. split; [by apply wrap_range|done]. }
  split.
  - intros bs rest Hwf Hl Hv. apply P; [done|unfold size in Hl; lia|done].
  - intros p v q. by apply (A 5%nat 32).
  - intros bs rest Hwf Hl Hv. apply P; [done|unfold size in Hl; lia|done].
  - intros p v q. by apply (A 10%nat 64).
Qed.

Section ReaderLemmas.
Context `{VarintReaderLaws}.

Lemma GetVarint32Ptr_parses bs rest :
  leb128_wf bs = true -> size bs <= 5 -> leb128_val bs < 2 ^ 32 ->
  GetVarint32Ptr (bs ++ rest) = Some (leb128_val bs, rest).
Proof.
  intros Hwf Hl Hv. destruct bs as [|b bs]; [done|]. cbn [app GetVarint32Ptr].
  rewrite leb128_cont_bit. case_if; [|by apply (fallback32_parses (b :: bs))].
  destruct bs as [|c bs].
  - zbool. cbn [app leb128_val]. pose proof (byte_to_Z_range b) as [? ?].
    by rewrite land_127, Z.mod_small, Z.mul_0_r, Z.add_0_r by lia.
  - change (leb128_wf (b :: c :: bs)) with
      ((128 <=? byte_to_Z b) && leb128_wf (c :: bs)) in Hwf. zbool. lia.
Qed.

Lemma GetVarint32_Encode v rest :
  is_uint 32 v -> GetVarint32 (EncodeVarint32 v ++ rest) = (Some v, rest).
Proof.
  intros Hv. destruct (EncodeVarint32_spec v Hv) as (Hwf & Hval & Hl).
  unfold GetVarint32. rewrite GetVarint32Ptr_parses by (rewrite ?Hval; done || apply Hv).
  by rewrite Hval.
Qed.

Lemma GetVarint64_Encode v rest :
  is_uint 64 v -> GetVarint64 (EncodeVarint64 v ++ rest) = (Some v, rest).
Proof.
  intros Hv. destruct (EncodeVarint64_spec v Hv) as (Hwf & Hval & Hl).
  unfold GetVarint64. rewrite get64_parses by (rewrite ?Hval; done || apply Hv).
  by rewrite Hval.
Qed.

Lemma GetVarint32_advances input v rest :
  GetVarint32 input = (Some v, rest) ->
  is_uint 32 v /\ exists b pre, input = b :: pre ++ rest.
Proof.
  unfold GetVarint32. destruct (GetVarint32Ptr input) as [[v' q]|] eqn:E; [|done].
  intros [= -> ->]. destruct input as [|b p]; cbn [GetVarint32Ptr] in E.
  - by apply fallback32_advances in E.
  - case_match; simplify_eq; [|by apply fallback32_advances in E].
    split; [|by exists b, []]. pose proof (byte_to_Z_range b) as [? ?].
    unfold is_uint. lia.
Qed.

Lemma GetVarint32_fails input rest :
  GetVarint32 input = (None, rest) -> rest = input.
Proof. unfold GetVarint32. by destruct (GetVarint32Ptr input) as [[? ?]|]; intros [=]. Qed.

Lemma GetLengthPrefixedSlice_Put value rest :
  size value < 2 ^ 32 ->
  GetLengthPrefixedSlice (EncodeVarint32 (size value) ++ value ++ rest)
    = (Some value, rest).
Proof.
  intros Hl. pose proof (size_nonneg value). unfold GetLengthPrefixedSlice.
  rewrite GetVarint32_Encode by (unfold is_uint; lia).
  rewrite size_app, Z.geb_leb, (proj2 (Z.leb_le _ _))
    by (pose proof (size_nonneg rest); lia).
  unfold remove_prefix. by rewrite ztake_app, zdrop_app.
Qed.

(** A successful read returns a piece of the input that follows the length. *)
Lemma GetLengthPrefixedSlice_advances input value rest :
  GetLengthPrefixedSlice input = (Some value, rest) ->
  size value < 2 ^ 32 /\ exists b pre, input = b :: pre ++ value ++ rest.
Proof.
  unfold GetLengthPrefixedSlice. destruct (GetVarint32 input) as [[len|] q] eqn:E;
    [|done]. case_if; [|done]. intros [= <- <-]. zbool.
  apply GetVarint32_advances in E as ([? ?] & b & pre & ->). split.
  - rewrite size_ztake by done. lia.
  - exists b, pre. unfold remove_prefix. by rewrite ztake_zdrop.
Qed.

End ReaderLemmas.

(** ** Lemmas on slice parts *)

Lemma parts_size_concat total (parts : SliceParts) :
  parts_size (wrap 64 total) parts = wrap 64 (total + size (List.concat parts)).
Proof.
  unfold parts_size. revert total. induction parts as [|p parts IH]; intros total.
  - simpl. by rewrite size_nil, Z.add_0_r.
  - cbn [fold_left List.concat]. rewrite wrap_add_l, IH, size_app. f_equal. lia.
Qed.

Lemma fold_append (dst : bytes) (parts : SliceParts) :
  fold_left (fun dst p => dst ++ p) parts dst = dst ++ List.concat parts.
Proof.
  revert dst. induction parts as [|p parts IH]; intros dst; simpl.
  - by rewrite app_nil_r.
  - by rewrite IH, <- app_assoc.
Qed.

(** Writing parts is writing their concatenation. *)
Lemma PutLengthPrefixedSliceParts_concat dst (parts : SliceParts) :
  PutLengthPrefixedSliceParts dst parts = PutLengthPrefixedSlice dst (List.concat parts).
Proof.
  unfold PutLengthPrefixedSliceParts, PutLengthPrefixedSliceParts_from.
  rewrite fold_append. change 0 with (wrap 64 0) at 1.
  by rewrite parts_size_concat, wrap_wrap_le, Z.add_0_l by lia.
Qed.

Lemma PutLengthPrefixedSlice_small dst value :
  size value < 2 ^ 32 ->
  PutLengthPrefixedSlice dst value = dst ++ EncodeVarint32 (size value) ++ value.
Proof.
  intros. unfold PutLengthPrefixedSlice, PutVarint32.
  rewrite wrap_small by (split; [apply size_nonneg|done]). by rewrite <- app_assoc.
Qed.

(** ** Lemmas on zigzag coding *)

Lemma lxor_ones_64 x : is_uint 64 x -> Z.lxor x (2 ^ 64 - 1) = 2 ^ 64 - 1 - x.
Proof.
  intros [H0 H1]. change (2 ^ 64 - 1) with (Z.ones 64).
  rewrite Z.sub_nocarry_ldiff.
  - apply Z.bits_inj'. intros i Hi. rewrite Z.lxor_spec, Z.ldiff_spec.
    rewrite Z.testbit_ones_nonneg by lia. destruct (Z.ltb_spec i 64) as [|Hge].
    + by destruct (Z.testbit x i).
    + by rewrite (proj1 (Z.bounded_iff_bits_nonneg 64 x ltac:(lia) H0) H1 i Hge).
  - destruct (decide (x = 0)) as [->|]; [done|].
    apply Z.ldiff_ones_r_low; [done|]. apply Z.log2_lt_pow2; lia.
Qed.

Definition is_int64 (l : Z) : Prop := - 2 ^ 63 <= l < 2 ^ 63.

Lemma i64ToZigzag_val l :
  is_int64 l -> i64ToZigzag l = if l <? 0 then - 2 * l - 1 else 2 * l.
Proof.
  intros [H0 H1]. unfold i64ToZigzag. rewrite Z.shiftl_mul_pow2 by lia.
  rewrite Z.shiftr_div_pow2 by lia. change (2 ^ 63) with 9223372036854775808 in *.
  case_if; zbool.
  - replace (l / 9223372036854775808) with (-1) by dlia.
    change (wrap 64 (-1)) with (2 ^ 64 - 1).
    assert (wrap 64 (wrap 64 l * 2 ^ 1) = 2 * l + 2 ^ 64) as ->.
    { unfold wrap. change (2 ^ 64) with 18446744073709551616. change (2 ^ 1) with 2.
      dlia. }
    rewrite lxor_ones_64; [lia|].
    unfold is_uint. change (2 ^ 64) with 18446744073709551616. lia.
  - replace (l / 9223372036854775808) with 0 by dlia.
    change (wrap 64 0) with 0. rewrite Z.lxor_0_r. unfold wrap.
    change (2 ^ 64) with 18446744073709551616. change (2 ^ 1) with 2. dlia.
Qed.

Lemma zigzagToI64_val n :
  is_uint 64 n -> zigzagToI64 n = if n mod 2 =? 0 then n / 2 else - 1 - n / 2.
Proof.
  intros [H0 H1]. unfold zigzagToI64. rewrite Z.shiftr_div_pow2 by lia.
  change (2 ^ 1) with 2. change 1 with (Z.ones 1). rewrite Z.land_ones by lia.
  change (2 ^ 1) with 2. change (Z.ones 1) with 1.
  unfold swrap. change (2 ^ (64 - 1)) with 9223372036854775808.
  case_if; zbool.
  - replace (n mod 2) with 0. change (wrap 64 (- 0)) with 0. rewrite Z.lxor_0_r.
    change (2 ^ 64) with 18446744073709551616 in *. dlia.
  - replace (n mod 2) with 1 by dlia. change (wrap 64 (- (1))) with (2 ^ 64 - 1).
    rewrite lxor_ones_64.
    + change (2 ^ 64) with 18446744073709551616 in *. dlia.
    + unfold is_uint. change (2 ^ 64) with 18446744073709551616 in *. dlia.
Qed.

Lemma i64ToZigzag_range l : is_int64 l -> is_uint 64 (i64ToZigzag l).
Proof.
  intros Hl. rewrite i64ToZigzag_val by done. destruct Hl. unfold is_uint.
  change (2 ^ 63) with 9223372036854775808 in *.
  change (2 ^ 64) with 18446744073709551616. case_if; zbool; lia.
Qed.

Lemma zigzag_inverse l : is_int64 l -> zigzagToI64 (i64ToZigzag l) = l.
Proof.
  intros Hl. rewrite zigzagToI64_val by (by apply i64ToZigzag_range).
  rewrite i64ToZigzag_val by done. repeat case_if; zbool; dlia.
Qed.

(** ** Lemmas on [GetSliceUntil] *)

Lemma GetSliceUntil_loop_spec fuel pre s d :
  size (pre ++ s) < 2 ^ 32 -> (length s < fuel)%nat ->
  exists tok, (d ∉ tok) /\
    GetSliceUntil_loop fuel (pre ++ s) d (size pre) = Some (size pre + size tok) /\
    (s = tok \/ exists rest, s = tok ++ d :: rest).
Proof.
  revert pre s. induction fuel as [|fuel IH]; intros pre s Hsz Hf; [lia|].
  cbn [GetSliceUntil_loop]. assert (Z.to_nat (size pre) = length pre) as ->
    by (unfold size; lia).
  destruct s as [|c s].
  - exists []. rewrite app_nil_r in *. rewrite (proj2 (Z.ltb_ge _ _)) by lia.
    split_and!; [apply not_elem_of_nil| |by left].
    cbn [andb]. by rewrite size_nil, Z.add_0_r.
  - rewrite list_lookup_middle by done. rewrite !size_app, size_cons in *.
    pose proof (size_nonneg s). pose proof (size_nonneg pre).
    rewrite (proj2 (Z.ltb_lt _ _)) by lia. cbn [andb]. case_bool_decide as E.
    + rewrite wrap_small by (unfold is_uint; lia).
      destruct (IH (pre ++ [c]) s) as (tok & Hd & Hl & Hs).
      { rewrite !size_app, size_cons, size_nil. lia. }
      { simpl in Hf. lia. }
      rewrite size_app, size_cons, size_nil, Z.add_0_r, <- app_assoc in Hl.
      change ([c] ++ s) with (c :: s) in Hl.
      exists (c :: tok). split_and!.
      * apply not_elem_of_cons. split; [congruence|done].
      * rewrite Hl, size_cons. f_equal. lia.
      * destruct Hs as [->|[rest ->]]; [by left|right]. by exists rest.
    + simplify_eq. exists [].
      split_and!; [apply not_elem_of_nil|by rewrite size_nil, Z.add_0_r|].
      right. by exists s.
Qed.

Lemma EncodeVarint32_is_64 (v : Z) : is_uint 32 v -> EncodeVarint32 v = EncodeVarint64 v.
Proof.
  intros Hv. unfold EncodeVarint64.
  change (Z.to_nat kMaxVarint64Length) with (5 + 5)%nat.
  assert (forall m n w bs, EncodeVarint64_loop n w = Some bs ->
    EncodeVarint64_loop (n + m) w = Some bs) as M.
  { intros m n. induction n as [|n IH]; intros w bs; [done|].
    cbn [Nat.add EncodeVarint64_loop]. case_if; [|done].
    intros (r & Hr & [= <-])%bind_Some. by rewrite (IH _ _ Hr). }
  by rewrite (M _ _ _ _ (EncodeVarint32_loop v Hv)).
Qed.

(** ** Properties *)

Section Properties.
Context `{VarintReaderLaws}.

(** Every [uint32_t] written by [PutVarint32] takes at most the five bytes
    of its stack buffer, is appended to the destination, and is read back by
    [GetVarint32], which leaves exactly the bytes that follow it. *)
Theorem varint32_roundtrip (dst rest : bytes) (v : Z) :
  is_uint 32 v ->
  exists enc, PutVarint32 dst v = dst ++ enc /\ 1 <= size enc <= 5 /\
    GetVarint32 (enc ++ rest) = (Some v, rest).
Proof.
  intros Hv. exists (EncodeVarint32 v).
  destruct (EncodeVarint32_spec v Hv) as (Hwf & _ & Hl).
  split_and!; [done| |done|by apply GetVarint32_Encode].
  destruct (EncodeVarint32 v) as [|b bs]; [done|].
  rewrite size_cons. pose proof (size_nonneg bs). lia.
Qed.

(** Every [uint64_t] written by [PutVarint64] takes [VarintLength] bytes,
    never more than [kMaxVarint64Length], and is read back by [GetVarint64],
    which leaves exactly the bytes that follow it. *)
Theorem varint64_roundtrip (dst rest : bytes) (v : Z) :
  is_uint 64 v ->
  exists enc, PutVarint64 dst v = dst ++ enc /\
    size enc = VarintLength v /\ VarintLength v <= kMaxVarint64Length /\
    GetVarint64 (enc ++ rest) = (Some v, rest).
Proof.
  intros Hv. exists (EncodeVarint64 v).
  destruct (EncodeVarint64_spec v Hv) as (_ & _ & Hl).
  assert (VarintLength v = size (EncodeVarint64 v)) as E.
  { unfold VarintLength, EncodeVarint64 in *.
    change (Z.to_nat kMaxVarint64Length) with 10%nat in *.
    destruct (EncodeVarint64_loop_total 9 v) as [bs Hbs].
    { destruct Hv. change (128 ^ _) with (2 ^ 70). lia. }
    rewrite (VarintLength_loop_spec _ _ _ bs (proj1 Hv) Hbs), Hbs.
    simpl. lia. }
  rewrite E. split_and!; [done..|by apply GetVarint64_Encode].
Qed.

(** Signed integers survive the zigzag encoding: what [PutVarsignedint64]
    appends for an [int64_t] is read back by [GetVarsignedint64]. *)
Theorem varsigned_roundtrip (dst rest : bytes) (l : Z) :
  is_int64 l ->
  exists enc, PutVarsignedint64 dst l = dst ++ enc /\
    size enc <= kMaxVarint64Length /\
    GetVarsignedint64 (enc ++ rest) = (Some l, rest).
Proof.
  intros Hl. pose proof (i64ToZigzag_range l Hl) as Hz.
  exists (EncodeVarint64 (i64ToZigzag l)).
  destruct (EncodeVarint64_spec _ Hz) as (Hwf & Hval & Hb).
  split_and!; [done..|]. unfold GetVarsignedint64, GetVarsignedint64Ptr.
  rewrite get64_parses by (rewrite ?Hval; done || apply Hz).
  by rewrite Hval, zigzag_inverse.
Qed.

(** a slice shorter than 4 GiB written by [PutLengthPrefixedSlice], or by
    [PutLengthPrefixedSliceParts] in any number of parts, is read back whole by
    [GetLengthPrefixedSlice], which leaves exactly the bytes that follow it. *)
Theorem length_prefixed_roundtrip (dst rest : bytes) (parts : SliceParts) :
  size (List.concat parts) < 2 ^ 32 ->
  exists enc, PutLengthPrefixedSlice dst (List.concat parts) = dst ++ enc /\
    PutLengthPrefixedSliceParts dst parts = dst ++ enc /\
    GetLengthPrefixedSlice (enc ++ rest) = (Some (List.concat parts), rest).
Proof.
  intros Hl. rewrite PutLengthPrefixedSliceParts_concat.
  rewrite PutLengthPrefixedSlice_small by done. eexists. split_and!; [done..|].
  rewrite <- app_assoc. by apply GetLengthPrefixedSlice_Put.
Qed.

End Properties.

(** varints. Every [uint32_t], [uint64_t] and [int64_t] that [PutVarint32],
    [PutVarint64] or [PutVarsignedint64] appends is read back by the matching [Get]
    function, which leaves exactly the bytes that follow; the bytes fit the writers'
    stack buffers of five and ten bytes and number [VarintLength]; and the unrolled
    32-bit encoder writes what the 64-bit loop writes. *)
Theorem varint_roundtrips `{VarintReaderLaws} (dst rest : bytes) (v32 v64 l : Z) :
  is_uint 32 v32 -> is_uint 64 v64 -> is_int64 l ->
  (exists enc, PutVarint32 dst v32 = dst ++ enc /\ 1 <= size enc <= 5 /\
     GetVarint32 (enc ++ rest) = (Some v32, rest) /\ PutVarint64 dst v32 = dst ++ enc) /\
  (exists enc, PutVarint64 dst v64 = dst ++ enc /\
     size enc = VarintLength v64 /\ VarintLength v64 <= kMaxVarint64Length /\
     GetVarint64 (enc ++ rest) = (Some v64, rest)) /\
  (exists enc, PutVarsignedint64 dst l = dst ++ enc /\ size enc <= kMaxVarint64Length /\
     GetVarsignedint64 (enc ++ rest) = (Some l, rest)).
Proof.
  intros H32 H64 Hl. split_and!; [|by apply varint64_roundtrip|by apply varsigned_roundtrip].
  destruct (varint32_roundtrip dst rest v32 H32) as (enc & He & Hs & Hg). exists enc.
  split; [exact He|]. split; [exact Hs|]. split; [exact Hg|].
  unfold PutVarint64. by rewrite <- EncodeVarint32_is_64.
Qed.

Lemma varint_roundtrips_witness :
  exists enc, PutVarint32 [xff] 300 = [xff] ++ enc /\ 1 <= size enc <= 5 /\
    @GetVarint32 leb128_reader (enc ++ [x07]) = (Some 300, [x07]) /\
    PutVarint64 [xff] 300 = [xff] ++ enc.
Proof.
  apply (@varint_roundtrips leb128_reader _ [xff] [x07] 300 (2 ^ 63) (-77)); done.
Defined.

Lemma length_prefixed_roundtrip_witness :
  exists enc, PutLengthPrefixedSlice [] (List.concat [[x61]; [x62; x63]]) = [] ++ enc /\
    PutLengthPrefixedSliceParts [] [[x61]; [x62; x63]] = [] ++ enc /\
    @GetLengthPrefixedSlice leb128_reader (enc ++ [x07])
      = (Some (List.concat [[x61]; [x62; x63]]), [x07]).
Proof.
  apply (@length_prefixed_roundtrip leb128_reader _ [] [x07] [[x61]; [x62; x63]]).
  done.
Defined.

(** fixed-width integers have one byte format on every platform: whichever
    endianness branch the writer and the reader take, a 16-, 32- or 64-bit value
    is decoded to what was encoded. *)
Theorem fixed_portable_roundtrip (w r : bool) (v16 v32 v64 : Z) (rest : bytes) :
  is_uint 16 v16 -> is_uint 32 v32 -> is_uint 64 v64 ->
  DecodeFixed16_on r (EncodeFixed16_on w v16 ++ rest) = v16 /\
  DecodeFixed32_on r (EncodeFixed32_on w v32 ++ rest) = v32 /\
  DecodeFixed64_on r (EncodeFixed64_on w v64 ++ rest) = v64.
Proof.
  intros H16 H32 H64. pose proof (size_nonneg rest).
  replace (EncodeFixed16_on w v16) with (le_bytes 2 v16)
    by (destruct w; [done|symmetry; apply EncodeFixed16_portable]).
  replace (EncodeFixed32_on w v32) with (le_bytes 4 v32)
    by (destruct w; [done|symmetry; apply EncodeFixed32_portable]).
  replace (EncodeFixed64_on w v64) with (le_bytes 8 v64)
    by (destruct w; [done|symmetry; apply EncodeFixed64_portable]).
  assert (DecodeFixed16_on r (le_bytes 2 v16 ++ rest)
          = DecodeFixed16_on true (le_bytes 2 v16 ++ rest)) as ->
    by (destruct r; [done|apply DecodeFixed16_portable;
                          rewrite size_app, size_le_bytes; lia]).
  assert (DecodeFixed32_on r (le_bytes 4 v32 ++ rest)
          = DecodeFixed32_on true (le_bytes 4 v32 ++ rest)) as ->
    by (destruct r; [done|apply DecodeFixed32_portable;
                          rewrite size_app, size_le_bytes; lia]).
  assert (DecodeFixed64_on r (le_bytes 8 v64 ++ rest)
          = DecodeFixed64_on true (le_bytes 8 v64 ++ rest)) as ->
    by (destruct r; [done|apply DecodeFixed64_portable;
                          rewrite size_app, size_le_bytes; lia]).
  unfold DecodeFixed16_on, DecodeFixed32_on, DecodeFixed64_on.
  rewrite !take_le_bytes, !le_val_bytes. by rewrite !wrap_small.
Qed.

Lemma fixed_portable_roundtrip_witness :
  DecodeFixed16_on true (EncodeFixed16_on false 258 ++ [x07]) = 258 /\
  DecodeFixed32_on true (EncodeFixed32_on false 70000 ++ [x07]) = 70000 /\
  DecodeFixed64_on true (EncodeFixed64_on false (2 ^ 60) ++ [x07]) = 2 ^ 60.
Proof.
  apply (fixed_portable_roundtrip false true 258 70000 (2 ^ 60) [x07]); done.
Defined.

(** on a slice shorter than 4 GiB [GetSliceUntil] terminates; it returns the
    bytes before the first delimiter and leaves what follows the delimiter, or
    returns everything and leaves nothing when there is no delimiter. *)
Theorem GetSliceUntil_splits (s : Slice) (d : byte) :
  size s < 2 ^ 32 ->
  exists tok rest, GetSliceUntil s d = Some (tok, rest) /\ (d ∉ tok) /\
    (s = tok ++ d :: rest \/ (s = tok /\ rest = [])).
Proof.
  intros Hs. destruct (GetSliceUntil_loop_spec (S (length s)) [] s d)
    as (tok & Hd & Hl & Ht); [done|lia|].
  unfold GetSliceUntil. change (size []) with 0 in Hl. cbn [app] in Hl.
  rewrite Hl, Z.add_0_l. cbn [mbind option_bind]. unfold remove_prefix.
  destruct Ht as [->|[rest ->]].
  - exists tok, []. rewrite Z.ltb_irrefl, Z.add_0_r.
    rewrite ztake_all, zdrop_all by done. auto.
  - exists tok, rest. rewrite size_app, size_cons, (proj2 (Z.ltb_lt _ _))
      by (pose proof (size_nonneg rest); lia).
    rewrite ztake_app. split_and!; [|done|by left]. do 2 f_equal.
    replace (size tok + 1) with (size (tok ++ [d]))
      by (by rewrite size_app, size_cons, size_nil).
    change (d :: rest) with ([d] ++ rest). rewrite app_assoc. apply zdrop_app.
Qed.

Lemma GetSliceUntil_splits_witness :
  exists tok rest, GetSliceUntil [x61; x2c; x62] x2c = Some (tok, rest) /\
    (x2c ∉ tok) /\ ([x61; x2c; x62] = tok ++ x2c :: rest \/
                   ([x61; x2c; x62] = tok /\ rest = [])).
Proof. apply (GetSliceUntil_splits [x61; x2c; x62] x2c). done. Defined.
