(* ===== verification/DbFormat.v ===== *)
(** * DbFormat: value types and internal keys

    [db/dbformat.h]. An internal key is a user key followed by eight bytes that
    pack a 56-bit sequence number and a one-byte value type. The enumeration
    [ValueType] is an inductive type with its encoding [vt_val]; a value type
    that comes from a [static_cast] of an arbitrary byte is kept as that byte. *)

From S2P Require Import Prelude.
From S2P Require Import Status.
From S2P Require Import Slice.
From S2P Require Import Coding.

Inductive ValueType : Set :=
| kTypeDeletion | kTypeValue | kTypeMerge | kTypeLogData
| kTypeColumnFamilyDeletion | kTypeColumnFamilyValue | kTypeColumnFamilyMerge
| kTypeSingleDeletion | kTypeColumnFamilySingleDeletion
| kTypeBeginPrepareXID | kTypeEndPrepareXID | kTypeCommitXID | kTypeRollbackXID
| kTypeNoop | kTypeColumnFamilyRangeDeletion | kTypeRangeDeletion
| kTypeColumnFamilyBlobIndex | kTypeBlobIndex | kTypeBeginPersistedPrepareXID
| kTypeBeginUnprepareXID | kTypeDeletionWithTimestamp
| kTypeCommitXIDAndTimestamp | kTypeWideColumnEntity
| kTypeColumnFamilyWideColumnEntity | kTypeValuePreferredSeqno
| kTypeColumnFamilyValuePreferredSeqno | kTypeMaxValid | kMaxValue.

#[global] Instance ValueType_eq_dec : EqDecision ValueType.
Proof. solve_decision. Defined.

(** The values are embedded in the on-disk data structures. *)
Definition vt_val (t : ValueType) : Z :=
  match t with
  | kTypeDeletion => 0x0
  | kTypeValue => 0x1
  | kTypeMerge => 0x2
  | kTypeLogData => 0x3
  | kTypeColumnFamilyDeletion => 0x4
  | kTypeColumnFamilyValue => 0x5
  | kTypeColumnFamilyMerge => 0x6
  | kTypeSingleDeletion => 0x7
  | kTypeColumnFamilySingleDeletion => 0x8
  | kTypeBeginPrepareXID => 0x9
  | kTypeEndPrepareXID => 0xA
  | kTypeCommitXID => 0xB
  | kTypeRollbackXID => 0xC
  | kTypeNoop => 0xD
  | kTypeColumnFamilyRangeDeletion => 0xE
  | kTypeRangeDeletion => 0xF
  | kTypeColumnFamilyBlobIndex => 0x10
  | kTypeBlobIndex => 0x11
  | kTypeBeginPersistedPrepareXID => 0x12
  | kTypeBeginUnprepareXID => 0x13
  | kTypeDeletionWithTimestamp => 0x14
  | kTypeCommitXIDAndTimestamp => 0x15
  | kTypeWideColumnEntity => 0x16
  | kTypeColumnFamilyWideColumnEntity => 0x17
  | kTypeValuePreferredSeqno => 0x18
  | kTypeColumnFamilyValuePreferredSeqno => 0x19
  | kTypeMaxValid => 0x1A
  | kMaxValue => 0x7F
  end.

Definition all_value_types : list ValueType :=
  [kTypeDeletion; kTypeValue; kTypeMerge; kTypeLogData;
   kTypeColumnFamilyDeletion; kTypeColumnFamilyValue; kTypeColumnFamilyMerge;
   kTypeSingleDeletion; kTypeColumnFamilySingleDeletion;
   kTypeBeginPrepareXID; kTypeEndPrepareXID; kTypeCommitXID; kTypeRollbackXID;
   kTypeNoop; kTypeColumnFamilyRangeDeletion; kTypeRangeDeletion;
   kTypeColumnFamilyBlobIndex; kTypeBlobIndex; kTypeBeginPersistedPrepareXID;
   kTypeBeginUnprepareXID; kTypeDeletionWithTimestamp;
   kTypeCommitXIDAndTimestamp; kTypeWideColumnEntity;
   kTypeColumnFamilyWideColumnEntity; kTypeValuePreferredSeqno;
   kTypeColumnFamilyValuePreferredSeqno; kTypeMaxValid; kMaxValue].

(** The enumerator a byte stands for, if any: the [case] labels of a switch. *)
Definition vt_of (c : Z) : option ValueType :=
  List.find (fun t => vt_val t =? c) all_value_types.

Definition vt_byte (t : ValueType) : byte := byte_of_Z (vt_val t).

Lemma vt_of_val t : vt_of (vt_val t) = Some t.
Proof. by destruct t. Qed.

Lemma vt_val_range t : is_uint 8 (vt_val t).
Proof. by destruct t. Qed.

Lemma vt_byte_val t : byte_to_Z (vt_byte t) = vt_val t.
Proof. unfold vt_byte. rewrite byte_to_of_Z. apply wrap_small, vt_val_range. Qed.

#[global] Instance vt_val_inj : Inj eq eq vt_val.
Proof. intros a b H. apply (inj Some). by rewrite <- !vt_of_val, H. Qed.

#[export] Hint Rewrite vt_byte_val vt_of_val : xdb.
#[export] Hint Resolve vt_val_range : xdb.

(** ** Classification *)

(** On the raw byte of a value type. *)
Definition IsValueType (t : Z) : bool :=
  (t <=? vt_val kTypeMerge) || (vt_val kTypeSingleDeletion =? t)
  || (vt_val kTypeBlobIndex =? t) || (vt_val kTypeDeletionWithTimestamp =? t)
  || (vt_val kTypeWideColumnEntity =? t) || (vt_val kTypeValuePreferredSeqno =? t).

Definition IsExtendedValueType (t : Z) : bool :=
  IsValueType t || (t =? vt_val kTypeRangeDeletion) || (t =? vt_val kTypeMaxValid).

(** ** Packing *)

Definition kMaxSequenceNumber : Z := Z.shiftl 1 56 - 1.
Definition kDisableGlobalSequenceNumber : Z := UINT64_MAX.
Definition kNumInternalBytes : Z := 8.

Definition PackSequenceAndType (seq : Z) (t : Z) : Z :=
  Z.lor (wrap 64 (Z.shiftl seq 8)) t.

Definition UnPackSequenceAndType (packed : Z) : Z * Z :=
  (Z.shiftr packed 8, Z.land packed 255).

Record ParsedInternalKey : Set := mkParsedInternalKey {
  pik_user_key : Slice;
  pik_sequence : Z;
  pik_type : Z;
}.

Definition InternalKeyEncodingLength (key : ParsedInternalKey) : Z :=
  size (pik_user_key key) + kNumInternalBytes.

(** [SetTimestamp] overwrites the tail of the user key. *)
Definition SetTimestamp (key : ParsedInternalKey) (ts : Slice) : ParsedInternalKey :=
  let uk := pik_user_key key in
  mkParsedInternalKey (poke (size uk - size ts) ts uk) (pik_sequence key) (pik_type key).

Definition GetTimestamp (key : ParsedInternalKey) (ts_sz : Z) : Slice :=
  let uk := pik_user_key key in ztake ts_sz (zdrop (size uk - ts_sz) uk).

Definition ExtractUserKey (internal_key : Slice) : Slice :=
  ztake (size internal_key - kNumInternalBytes) internal_key.

Definition ExtractUserKeyAndStripTimestamp (internal_key : Slice) (ts_sz : Z) : Slice :=
  ztake (size internal_key - (kNumInternalBytes + ts_sz)) internal_key.

Definition StripTimestampFromUserKey (user_key : Slice) (ts_sz : Z) : Slice :=
  ztake (size user_key - ts_sz) user_key.

Definition ExtractTimestampFromUserKey (user_key : Slice) (ts_sz : Z) : Slice :=
  ztake ts_sz (zdrop (size user_key - ts_sz) user_key).

Definition ExtractTimestampFromKey (internal_key : Slice) (ts_sz : Z) : Slice :=
  ztake ts_sz (zdrop (size internal_key - ts_sz - kNumInternalBytes) internal_key).

Definition ExtractInternalKeyFooter (internal_key : Slice) : Z :=
  DecodeFixed64 (zdrop (size internal_key - kNumInternalBytes) internal_key).

Definition ExtractValueType (internal_key : Slice) : Z :=
  Z.land (ExtractInternalKeyFooter internal_key) 255.

(** On success [*result] is the parsed key; the last argument of the corruption
    status is the debug rendering of the key, built by code outside the
    repository, and is left empty. *)
Definition ParseInternalKey (internal_key : Slice)
    : Status * option ParsedInternalKey :=
  let n := size internal_key in
  if n <? kNumInternalBytes then
    (Corruption ("Corrupted Key: Internal Key too small. Size=" +:+ pretty n +:+ ". ") "",
     None)
  else
    let num := DecodeFixed64 (zdrop (n - kNumInternalBytes) internal_key) in
    let c := Z.land num 255 in
    let result :=
      mkParsedInternalKey (ztake (n - kNumInternalBytes) internal_key)
        (Z.shiftr num 8) c in
    if IsExtendedValueType c then (Status_OK, Some result)
    else (Corruption "Corrupted Key" "", Some result).

Definition UpdateInternalKey (ikey : bytes) (seq t : Z) : bytes :=
  let newval := Z.lor (wrap 64 (Z.shiftl seq 8)) t in
  poke (size ikey - kNumInternalBytes) (EncodeFixed64 newval) ikey.

Definition GetInternalKeySeqno (internal_key : Slice) : Z :=
  let n := size internal_key in
  Z.shiftr (DecodeFixed64 (zdrop (n - kNumInternalBytes) internal_key)) 8.

(** ** Lemmas *)

Lemma Pack_val seq t :
  0 <= seq <= kMaxSequenceNumber -> is_uint 8 t ->
  PackSequenceAndType seq t = seq * 256 + t /\ is_uint 64 (PackSequenceAndType seq t).
Proof.
  unfold kMaxSequenceNumber, is_uint, PackSequenceAndType. intros [H0 H1] [H2 H3].
  change (Z.shiftl 1 56 - 1) with 72057594037927935 in H1.
  change (2 ^ 64) with 18446744073709551616. change (2 ^ 8) with 256 in *.
  rewrite wrap_small.
  - rewrite Z.lor_comm, lor_shiftl_add by (change (2 ^ 8) with 256; lia).
    change (2 ^ 8) with 256. lia.
  - rewrite Z.shiftl_mul_pow2 by lia. unfold is_uint.
    change (2 ^ 64) with 18446744073709551616. change (2 ^ 8) with 256. lia.
Qed.

Lemma UnPack_val p : UnPackSequenceAndType p = (p / 256, p mod 256).
Proof.
  unfold UnPackSequenceAndType. rewrite Z.shiftr_div_pow2 by lia.
  change 255 with (Z.ones 8). by rewrite Z.land_ones by lia.
Qed.

Lemma UnPack_Pack seq t :
  0 <= seq <= kMaxSequenceNumber -> is_uint 8 t ->
  UnPackSequenceAndType (PackSequenceAndType seq t) = (seq, t).
Proof.
  intros Hs Ht. rewrite UnPack_val. destruct (Pack_val seq t Hs Ht) as [-> _].
  destruct Ht. change (2 ^ 8) with 256 in *. f_equal; dlia.
Qed.

(** The footer of an encoded key is found whatever the user key is. *)
Lemma footer_of_encoded uk v :
  is_uint 64 v ->
  DecodeFixed64 (zdrop (size (uk ++ EncodeFixed64 v) - kNumInternalBytes)
                   (uk ++ EncodeFixed64 v)) = v /\
  ztake (size (uk ++ EncodeFixed64 v) - kNumInternalBytes) (uk ++ EncodeFixed64 v) = uk.
Proof.
  intros Hv. rewrite size_app, size_EncodeFixed64. unfold kNumInternalBytes.
  replace (size uk + 8 - 8) with (size uk) by lia. rewrite zdrop_app, ztake_app.
  split; [|done]. rewrite <- (app_nil_r (EncodeFixed64 v)).
  by apply DecodeFixed64_Encode.
Qed.

(** The encoding of an internal key, documented at [AppendInternalKey]:
    user key, then the packed sequence number and type. *)
Definition encoded_key (uk : Slice) (seq t : Z) : bytes :=
  PutFixed64 uk (PackSequenceAndType seq t).

Lemma UpdateInternalKey_encoded uk seq t seq' t' :
  UpdateInternalKey (encoded_key uk seq t) seq' t' = encoded_key uk seq' t'.
Proof.
  unfold UpdateInternalKey, encoded_key, PutFixed64, poke, kNumInternalBytes.
  rewrite size_app, !size_EncodeFixed64.
  replace (size uk + 8 - 8) with (size uk) by lia.
  rewrite ztake_app, zdrop_all by (rewrite size_app, size_EncodeFixed64; lia).
  by rewrite app_nil_r.
Qed.

(** ** Properties *)

(** a user key with a 56-bit sequence number and an extended value type,
    encoded as documented, is parsed back to exactly these three parts with an
    OK status; every accessor agrees with the parse, the footer can be rewritten
    in place with [UpdateInternalKey], and packing is injective. *)
Theorem internal_key_roundtrip (uk : Slice) (seq t seq' t' : Z) :
  0 <= seq <= kMaxSequenceNumber -> is_uint 8 t -> IsExtendedValueType t = true ->
  0 <= seq' <= kMaxSequenceNumber -> is_uint 8 t' ->
  let k := encoded_key uk seq t in
  ParseInternalKey k = (Status_OK, Some (mkParsedInternalKey uk seq t)) /\
  ExtractUserKey k = uk /\ ExtractValueType k = t /\ GetInternalKeySeqno k = seq /\
  UpdateInternalKey k seq' t' = encoded_key uk seq' t' /\
  (PackSequenceAndType seq t = PackSequenceAndType seq' t' -> seq = seq' /\ t = t').
Proof.
  intros Hs Ht Hx Hs' Ht' k. destruct (Pack_val seq t Hs Ht) as [_ Hp].
  destruct (footer_of_encoded uk _ Hp) as [Hf Hu].
  pose proof (UnPack_Pack seq t Hs Ht) as HU. unfold UnPackSequenceAndType in HU.
  injection HU as HU1 HU2.
  unfold k, encoded_key, PutFixed64, ParseInternalKey, ExtractUserKey, ExtractValueType,
    ExtractInternalKeyFooter, GetInternalKeySeqno.
  rewrite !Hf, !Hu, HU1, HU2, Hx. rewrite (proj2 (Z.ltb_ge _ _)).
  - split_and!; [done..|apply UpdateInternalKey_encoded|].
    intros E%(f_equal UnPackSequenceAndType). rewrite !UnPack_Pack in E by done.
    by injection E.
  - rewrite size_app, size_EncodeFixed64. unfold kNumInternalBytes.
    pose proof (size_nonneg uk). lia.
Qed.

Lemma internal_key_roundtrip_witness :
  let k := encoded_key [x61; x62] 1000 (vt_val kTypeValue) in
  ParseInternalKey k =
    (Status_OK, Some (mkParsedInternalKey [x61; x62] 1000 (vt_val kTypeValue))) /\
  ExtractUserKey k = [x61; x62] /\ ExtractValueType k = vt_val kTypeValue /\
  GetInternalKeySeqno k = 1000 /\
  UpdateInternalKey k 7 0 = encoded_key [x61; x62] 7 0 /\
  (PackSequenceAndType 1000 (vt_val kTypeValue) = PackSequenceAndType 7 0 ->
   1000 = 7 /\ vt_val kTypeValue = 0).
Proof.
  apply (internal_key_roundtrip [x61; x62] 1000 (vt_val kTypeValue) 7 0); done.
Defined.

(** packed footers of valid parts fit a [uint64_t] and compare as the pair
    of sequence number and type, sequence number first: the order internal keys
    of one user key rely on. *)
Theorem packed_footer_order (seq t seq' t' : Z) :
  0 <= seq <= kMaxSequenceNumber -> is_uint 8 t ->
  0 <= seq' <= kMaxSequenceNumber -> is_uint 8 t' ->
  (PackSequenceAndType seq t < PackSequenceAndType seq' t' <->
   seq < seq' \/ (seq = seq' /\ t < t')) /\
  PackSequenceAndType seq t <= UINT64_MAX.
Proof.
  intros Hs Ht Hs' Ht'. destruct (Pack_val seq t Hs Ht) as [-> [? ?]].
  destruct (Pack_val seq' t' Hs' Ht') as [-> _]. destruct Ht, Ht'.
  change (2 ^ 8) with 256 in *. unfold UINT64_MAX. lia.
Qed.

Lemma packed_footer_order_witness :
  (PackSequenceAndType 5 1 < PackSequenceAndType 6 0 <-> 5 < 6 \/ (5 = 6 /\ 1 < 0)) /\
  PackSequenceAndType 5 1 <= UINT64_MAX.
Proof. apply (packed_footer_order 5 1 6 0); done. Defined.
