(* ===== verification/KvChecksum.v ===== *)
(** * KvChecksum: per-entry protection information

    [db/kv_checksum.h], for [T = uint64_t]. Each class wraps the exclusive or of
    the hashes of the fields it covers: key, value, operation type and then
    either the column family ([ProtectionInfoKVOC]) or the sequence number
    ([ProtectionInfoKVOS]). The hash is the vendored XXPH3 of [util/xxph3.h]; it
    is the operation of the class [Hasher], of which only the result type is
    assumed. *)

From S2P Require Import Prelude.
From S2P Require Import Status.
From S2P Require Import Slice.
From S2P Require Import Coding.
From S2P Require Import DbFormat.

Class Hasher := {
  NPHash64 : bytes -> Z -> Z;
}.

Class HasherLaws (H : Hasher) : Prop := {
  NPHash64_range data seed : is_uint 64 (NPHash64 data seed);
}.

(** A concrete hasher for executions: a polynomial over the bytes. *)
Definition sum_hasher : Hasher := {|
  NPHash64 data seed :=
    fold_left (fun acc b => wrap 64 (31 * acc + byte_to_Z b + 7)) data (wrap 64 seed);
|}.

#[global] Instance sum_hasher_laws : HasherLaws sum_hasher.
Proof.
  split. intros data seed. cbn. assert (is_uint 64 (wrap 64 seed)) as H0
    by (by apply wrap_range). revert H0. generalize (wrap 64 seed).
  induction data as [|b data IH]; intros acc Hacc; [done|].
  cbn [fold_left]. apply IH. by apply wrap_range.
Qed.

Definition kSeedK : Z := 0.
Definition kSeedV : Z := 0xD28AAD72F49BD50B.
Definition kSeedO : Z := 0xA5155AE5E937AA16.
Definition kSeedS : Z := 0x77A00858DDD37F21.
Definition kSeedC : Z := 0x4A2AB5CBD26F542C.

Record ProtectionInfo : Set := mkPI { pi_val : Z }.
Record ProtectionInfoKVO : Set := mkKVO { kvo_info : ProtectionInfo }.
Record ProtectionInfoKVOC : Set := mkKVOC { kvoc_kvo : ProtectionInfoKVO }.
Record ProtectionInfoKVOS : Set := mkKVOS { kvos_kvo : ProtectionInfoKVO }.
Record ProtectionInfoKV : Set := mkKV { kv_info : ProtectionInfo }.

#[global] Instance ProtectionInfo_eq_dec : EqDecision ProtectionInfo.
Proof. solve_decision. Defined.
#[global] Instance ProtectionInfoKVO_eq_dec : EqDecision ProtectionInfoKVO.
Proof. solve_decision. Defined.
#[global] Instance ProtectionInfoKVOC_eq_dec : EqDecision ProtectionInfoKVOC.
Proof. solve_decision. Defined.

(** The default constructor. *)
Definition ProtectionInfo_new : ProtectionInfo := mkPI 0.

(** [GetVal] through the wrappers. *)
Definition kvo_val (p : ProtectionInfoKVO) : Z := pi_val (kvo_info p).
Definition kvoc_val (p : ProtectionInfoKVOC) : Z := kvo_val (kvoc_kvo p).
Definition kvos_val (p : ProtectionInfoKVOS) : Z := kvo_val (kvos_kvo p).

(** The private constructors from a [T]. *)
Definition mk_kvo (v : Z) : ProtectionInfoKVO := mkKVO (mkPI v).
Definition mk_kvoc (v : Z) : ProtectionInfoKVOC := mkKVOC (mk_kvo v).
Definition mk_kvos (v : Z) : ProtectionInfoKVOS := mkKVOS (mk_kvo v).

(** [Encode] writes the low [len] bytes; other lengths only [assert]. *)
Definition pi_Encode (p : ProtectionInfo) (len : Z) : option bytes :=
  if len =? 1 then Some [byte_of_Z (pi_val p)]
  else if len =? 2 then Some (EncodeFixed16 (wrap 16 (pi_val p)))
  else if len =? 4 then Some (EncodeFixed32 (wrap 32 (pi_val p)))
  else if len =? 8 then Some (EncodeFixed64 (pi_val p))
  else None.

Definition pi_Verify (p : ProtectionInfo) (len : Z) (checksum_ptr : bytes) : bool :=
  if len =? 1 then byte_to_Z (nth 0 checksum_ptr x00) =? wrap 8 (pi_val p)
  else if len =? 2 then DecodeFixed16 checksum_ptr =? wrap 16 (pi_val p)
  else if len =? 4 then DecodeFixed32 checksum_ptr =? wrap 32 (pi_val p)
  else if len =? 8 then DecodeFixed64 checksum_ptr =? pi_val p
  else false.

Definition GetStatus (p : ProtectionInfo) : Status :=
  if negb (pi_val p =? 0) then Corruption "ProtectionInfo mismatch" ""
  else Status_OK.

Section Hashing.
Context `{Hasher}.

Definition GetSliceNPHash64 (s : Slice) (seed : Z) : Z := NPHash64 s seed.

(** [util/hash.cc]: hash of the concatenation of the parts. *)
Definition GetSlicePartsNPHash64 (data : SliceParts) (seed : Z) : Z :=
  NPHash64 (fold_left (fun acc p => acc ++ p) data []) seed.

(** Object representations of the non-slice fields. *)
Definition hash_op (op_type : ValueType) : Z := NPHash64 [vt_byte op_type] kSeedO.
Definition hash_cf (column_family_id : Z) : Z :=
  NPHash64 (le_bytes 4 column_family_id) kSeedC.
Definition hash_seq (sequence_number : Z) : Z :=
  NPHash64 (le_bytes 8 sequence_number) kSeedS.

Definition ProtectKVO (p : ProtectionInfo) (key value : Slice) (op_type : ValueType)
    : ProtectionInfoKVO :=
  let val := pi_val p in
  let val := Z.lxor val (GetSliceNPHash64 key kSeedK) in
  let val := Z.lxor val (GetSliceNPHash64 value kSeedV) in
  let val := Z.lxor val (hash_op op_type) in
  mk_kvo val.

Definition ProtectKVO_parts (p : ProtectionInfo) (key value : SliceParts)
    (op_type : ValueType) : ProtectionInfoKVO :=
  let val := pi_val p in
  let val := Z.lxor val (GetSlicePartsNPHash64 key kSeedK) in
  let val := Z.lxor val (GetSlicePartsNPHash64 value kSeedV) in
  let val := Z.lxor val (hash_op op_type) in
  mk_kvo val.

Definition ProtectKV (p : ProtectionInfo) (key value : Slice) : ProtectionInfoKV :=
  let val := pi_val p in
  let val := Z.lxor val (GetSliceNPHash64 key kSeedK) in
  let val := Z.lxor val (GetSliceNPHash64 value kSeedV) in
  mkKV (mkPI val).

Definition UpdateK (p : ProtectionInfoKVO) (old_key new_key : Slice)
    : ProtectionInfoKVO :=
  mk_kvo (Z.lxor (Z.lxor (kvo_val p) (GetSliceNPHash64 old_key kSeedK))
                 (GetSliceNPHash64 new_key kSeedK)).

Definition UpdateK_parts (p : ProtectionInfoKVO) (old_key new_key : SliceParts)
    : ProtectionInfoKVO :=
  mk_kvo (Z.lxor (Z.lxor (kvo_val p) (GetSlicePartsNPHash64 old_key kSeedK))
                 (GetSlicePartsNPHash64 new_key kSeedK)).

Definition UpdateV (p : ProtectionInfoKVO) (old_value new_value : Slice)
    : ProtectionInfoKVO :=
  mk_kvo (Z.lxor (Z.lxor (kvo_val p) (GetSliceNPHash64 old_value kSeedV))
                 (GetSliceNPHash64 new_value kSeedV)).

Definition UpdateV_parts (p : ProtectionInfoKVO) (old_value new_value : SliceParts)
    : ProtectionInfoKVO :=
  mk_kvo (Z.lxor (Z.lxor (kvo_val p) (GetSlicePartsNPHash64 old_value kSeedV))
                 (GetSlicePartsNPHash64 new_value kSeedV)).

Definition UpdateO (p : ProtectionInfoKVO) (old_op new_op : ValueType)
    : ProtectionInfoKVO :=
  mk_kvo (Z.lxor (Z.lxor (kvo_val p) (hash_op old_op)) (hash_op new_op)).

Definition StripKVO (p : ProtectionInfoKVO) (key value : Slice) (op_type : ValueType)
    : ProtectionInfo :=
  let val := kvo_val p in
  let val := Z.lxor val (GetSliceNPHash64 key kSeedK) in
  let val := Z.lxor val (GetSliceNPHash64 value kSeedV) in
  let val := Z.lxor val (hash_op op_type) in
  mkPI val.

Definition StripKVO_parts (p : ProtectionInfoKVO) (key value : SliceParts)
    (op_type : ValueType) : ProtectionInfo :=
  let val := kvo_val p in
  let val := Z.lxor val (GetSlicePartsNPHash64 key kSeedK) in
  let val := Z.lxor val (GetSlicePartsNPHash64 value kSeedV) in
  let val := Z.lxor val (hash_op op_type) in
  mkPI val.

Definition ProtectC (p : ProtectionInfoKVO) (column_family_id : Z)
    : ProtectionInfoKVOC :=
  mk_kvoc (Z.lxor (kvo_val p) (hash_cf column_family_id)).

Definition StripC (p : ProtectionInfoKVOC) (column_family_id : Z)
    : ProtectionInfoKVO :=
  mk_kvo (Z.lxor (kvoc_val p) (hash_cf column_family_id)).

Definition UpdateC (p : ProtectionInfoKVOC) (old_cf new_cf : Z) : ProtectionInfoKVOC :=
  mk_kvoc (Z.lxor (Z.lxor (kvoc_val p) (hash_cf old_cf)) (hash_cf new_cf)).

Definition ProtectS (p : ProtectionInfoKVO) (sequence_number : Z)
    : ProtectionInfoKVOS :=
  mk_kvos (Z.lxor (kvo_val p) (hash_seq sequence_number)).

Definition StripS (p : ProtectionInfoKVOS) (sequence_number : Z)
    : ProtectionInfoKVO :=
  mk_kvo (Z.lxor (kvos_val p) (hash_seq sequence_number)).

Definition UpdateS (p : ProtectionInfoKVOS) (old_seq new_seq : Z) : ProtectionInfoKVOS :=
  mk_kvos (Z.lxor (Z.lxor (kvos_val p) (hash_seq old_seq)) (hash_seq new_seq)).

End Hashing.

(** ** Lemmas *)

(** Equalities between exclusive ors, bit by bit. *)
Ltac xor_bits :=
  apply Z.bits_inj'; intros ? ?; rewrite ?Z.lxor_spec, ?Z.bits_0;
  repeat match goal with
  | |- context [Z.testbit ?x ?i] => destruct (Z.testbit x i)
  end; reflexivity.

(** Equalities between protection informations. *)
Ltac pi_eq :=
  repeat match goal with
  | |- mkPI _ = mkPI _ => apply f_equal
  | |- mkKVO _ = mkKVO _ => apply f_equal
  | |- mkKVOC _ = mkKVOC _ => apply f_equal
  | |- mkKVOS _ = mkKVOS _ => apply f_equal
  end; xor_bits.

Lemma hash_parts_concat `{Hasher} (data : SliceParts) seed :
  GetSlicePartsNPHash64 data seed = NPHash64 (List.concat data) seed.
Proof. unfold GetSlicePartsNPHash64. by rewrite fold_append. Qed.

Lemma ProtectKVO_parts_concat `{Hasher} p (key value : SliceParts) op :
  ProtectKVO_parts p key value op =
  ProtectKVO p (List.concat key) (List.concat value) op.
Proof. unfold ProtectKVO_parts, ProtectKVO. by rewrite !hash_parts_concat. Qed.

Lemma lxor_eq_0 a b : Z.lxor a b = 0 <-> a = b.
Proof. apply Z.lxor_eq_0_iff. Qed.

(** The combined hash of the four fields of a write batch entry. *)
Definition entry_hash `{Hasher} (key value : Slice) (op : ValueType) (cf : Z) : Z :=
  Z.lxor (Z.lxor (Z.lxor (NPHash64 key kSeedK) (NPHash64 value kSeedV)) (hash_op op))
         (hash_cf cf).

Lemma ProtectC_ProtectKVO `{Hasher} key value op cf :
  ProtectC (ProtectKVO ProtectionInfo_new key value op) cf
  = mk_kvoc (entry_hash key value op cf).
Proof.
  unfold ProtectC, ProtectKVO, entry_hash, ProtectionInfo_new. cbn. f_equal.
Qed.

Lemma Strip_entry `{Hasher} v key value op cf :
  StripKVO (StripC (mk_kvoc v) cf) key value op
  = mkPI (Z.lxor v (entry_hash key value op cf)).
Proof.
  unfold StripKVO, StripC, entry_hash, GetSliceNPHash64. cbn. f_equal. xor_bits.
Qed.

Lemma GetStatus_ok p : GetStatus p = Status_OK <-> pi_val p = 0.
Proof.
  unfold GetStatus. destruct (Z.eqb_spec (pi_val p) 0); simpl; split; done || congruence.
Qed.

Lemma wrap_DecodeFixed n v :
  le_val (take n (le_bytes n v)) = wrap (8 * Z.of_nat n) v.
Proof. rewrite take_ge by (by rewrite length_le_bytes). apply le_val_bytes. Qed.

(** ** Properties *)

Section Properties.
Context `{Hasher}.

(** verifying an entry against the fields it was protected with succeeds;
    against any other key, value, operation or column family it succeeds only
    when the combined hashes collide, so a change of a single field whose hash
    differs is always reported as corruption. *)
Theorem protection_detects (k v k' v' : Slice) (o o' : ValueType) (c c' : Z) :
  let prot := ProtectC (ProtectKVO ProtectionInfo_new k v o) c in
  let check k v o c := GetStatus (StripKVO (StripC prot c) k v o) in
  check k v o c = Status_OK /\
  (check k' v' o' c' = Status_OK <-> entry_hash k v o c = entry_hash k' v' o' c') /\
  (NPHash64 v kSeedV <> NPHash64 v' kSeedV -> IsCorruption (check k v' o c) = true).
Proof.
  intros prot check. unfold check, prot.
  rewrite !ProtectC_ProtectKVO, !Strip_entry, !GetStatus_ok. cbn [pi_val].
  split_and!; [apply Z.lxor_nilpotent|apply lxor_eq_0|].
  intros Hne. unfold GetStatus. cbn [pi_val].
  replace (Z.lxor _ _) with (Z.lxor (NPHash64 v kSeedV) (NPHash64 v' kSeedV))
    by (unfold entry_hash; xor_bits).
  rewrite (proj2 (Z.eqb_neq _ _)); [done|]. by rewrite lxor_eq_0.
Qed.

(** each [Update] operation turns the protection of the old field into the
    protection of the new one, so information carried along while a key is
    rewritten stays equal to the information computed afresh; the overloads on
    slice parts agree with the ones on the concatenated slice. *)
Theorem update_is_reprotect (k v k' v' : Slice) (o o' : ValueType)
    (c c' s s' : Z) (kp vp : SliceParts) :
  let P := ProtectKVO ProtectionInfo_new in
  UpdateK (P k v o) k k' = P k' v o /\ UpdateV (P k v o) v v' = P k v' o /\
  UpdateO (P k v o) o o' = P k v o' /\
  UpdateC (ProtectC (P k v o) c) c c' = ProtectC (P k v o) c' /\
  UpdateS (ProtectS (P k v o) s) s s' = ProtectS (P k v o) s' /\
  StripC (ProtectC (P k v o) c) c = P k v o /\
  StripS (ProtectS (P k v o) s) s = P k v o /\
  StripKVO_parts (ProtectKVO_parts ProtectionInfo_new kp vp o) kp vp o
    = ProtectionInfo_new /\
  ProtectKVO_parts ProtectionInfo_new kp vp o = P (List.concat kp) (List.concat vp) o.
Proof.
  cbv zeta. unfold UpdateK, UpdateV, UpdateO, UpdateC, UpdateS, StripC, StripS,
    StripKVO_parts, ProtectKVO_parts, ProtectC, ProtectS, ProtectKVO,
    GetSliceNPHash64, ProtectionInfo_new, mk_kvoc, mk_kvos, mk_kvo,
    kvoc_val, kvos_val, kvo_val.
  cbn [pi_val kvo_info kvoc_kvo kvos_kvo]. rewrite !hash_parts_concat.
  split_and!; pi_eq.
Qed.

End Properties.

(** checksum bytes written by [Encode] in any of the supported lengths are
    accepted by [Verify] of the same information; with the full eight bytes they
    are accepted by no other information. *)
Theorem encode_verify (p q : ProtectionInfo) (len : Z) (rest : bytes) :
  len ∈ [1; 2; 4; 8] -> is_uint 64 (pi_val p) -> is_uint 64 (pi_val q) ->
  exists dst, pi_Encode p len = Some dst /\ size dst = len /\
    pi_Verify p len (dst ++ rest) = true /\
    (len = 8 -> pi_Verify q len (dst ++ rest) = true -> q = p).
Proof.
  intros Hlen Hp Hq. destruct p as [v], q as [w]. cbn [pi_val] in *.
  assert (forall n x, le_val (take n (le_bytes n x ++ rest)) = wrap (8 * Z.of_nat n) x)
    as D by (intros; by rewrite take_le_bytes, le_val_bytes).
  rewrite !elem_of_cons, elem_of_nil in Hlen.
  unfold pi_Encode, pi_Verify.
  destruct Hlen as [->|[->|[->|[->|[]]]]]; cbn [Z.eqb Pos.eqb pi_val]; eexists;
    (split; [reflexivity|]); (split; [done|]); split; try done.
  - cbn [app nth]. rewrite byte_to_of_Z. apply Z.eqb_refl.
  - change ((le_val (take 2 (le_bytes 2 (wrap 16 v) ++ rest)) =? wrap 16 v) = true).
    rewrite D, wrap_wrap. apply Z.eqb_refl.
  - change ((le_val (take 4 (le_bytes 4 (wrap 32 v) ++ rest)) =? wrap 32 v) = true).
    rewrite D, wrap_wrap. apply Z.eqb_refl.
  - change ((le_val (take 8 (le_bytes 8 v ++ rest)) =? v) = true).
    rewrite D, wrap_small by done. apply Z.eqb_refl.
  - intros _. change ((le_val (take 8 (le_bytes 8 v ++ rest)) =? w) = true -> mkPI w = mkPI v).
    rewrite D, wrap_small by done. by intros ->%Z.eqb_eq.
Qed.

Lemma encode_verify_witness :
  exists dst, pi_Encode (mkPI 70000) 8 = Some dst /\ size dst = 8 /\
    pi_Verify (mkPI 70000) 8 (dst ++ [x07]) = true /\
    (8 = 8 -> pi_Verify (mkPI 12) 8 (dst ++ [x07]) = true -> mkPI 12 = mkPI 70000).
Proof.
  apply (encode_verify (mkPI 70000) (mkPI 12) 8 [x07]); [|done|done].
  rewrite !elem_of_cons. auto.
Defined.
