(* ===== verification/PackedValue.v ===== *)
(** * PackedValue: values with a trailing timestamp or sequence number

    The free functions at the end of [db/seqno_to_time_mapping.cc], used by
    [WriteBatch::TimedPut] and its readers. *)

From S2P Require Import Prelude.
From S2P Require Import Slice.
From S2P Require Import Coding.

Definition PackValueAndWriteTime (value : Slice) (unix_write_time : Z) : Slice :=
  PutFixed64 value unix_write_time.

Definition PackValueAndSeqno (value : Slice) (seqno : Z) : Slice :=
  PutFixed64 value seqno.

(** The assertion of the parsing functions. Without it the size minus eight wraps and the
    slice starts before the value: [None]. *)
Definition packed_size (value : Slice) : option Z :=
  if size value <? 8 then None else Some (size value - 8).

(** The assertion on the result of [GetFixed64] is part of the failure. *)
Definition packed_tail (value : Slice) : option Z :=
  n ← packed_size value; fst (GetFixed64 (ztake 8 (zdrop n value))).

Definition ParsePackedValueForWriteTime (value : Slice) : option Z := packed_tail value.

Definition ParsePackedValueWithWriteTime (value : Slice) : option (Slice * Z) :=
  n ← packed_size value;
  t ← ParsePackedValueForWriteTime value; Some (ztake n value, t).

Definition ParsePackedValueForSeqno (value : Slice) : option Z := packed_tail value.

Definition ParsePackedValueWithSeqno (value : Slice) : option (Slice * Z) :=
  n ← packed_size value;
  t ← ParsePackedValueForSeqno value; Some (ztake n value, t).

Definition ParsePackedValueForValue (value : Slice) : option Slice :=
  n ← packed_size value; Some (ztake n value).

(** ** Lemmas *)

Lemma size_PutFixed64 dst v : size (PutFixed64 dst v) = size dst + 8.
Proof. unfold PutFixed64. by rewrite size_app, size_EncodeFixed64. Qed.

Lemma packed_size_Put dst v : packed_size (PutFixed64 dst v) = Some (size dst).
Proof.
  unfold packed_size. rewrite size_PutFixed64. pose proof (size_nonneg dst).
  destruct (Z.ltb_spec (size dst + 8) 8); [lia|]. f_equal. lia.
Qed.

Lemma packed_tail_Put dst v : is_uint 64 v -> packed_tail (PutFixed64 dst v) = Some v.
Proof.
  intros. unfold packed_tail. rewrite packed_size_Put. cbn [mbind option_bind].
  unfold PutFixed64. rewrite zdrop_app, ztake_all by (by rewrite size_EncodeFixed64).
  rewrite <- (app_nil_r (EncodeFixed64 v)). by rewrite GetFixed64_Put.
Qed.

Lemma ztake_Put dst v : ztake (size dst) (PutFixed64 dst v) = dst.
Proof. apply ztake_app. Qed.

Lemma ParsePackedValueWithWriteTime_Pack value t :
  is_uint 64 t ->
  ParsePackedValueWithWriteTime (PackValueAndWriteTime value t) = Some (value, t).
Proof.
  intros. unfold ParsePackedValueWithWriteTime, ParsePackedValueForWriteTime,
    PackValueAndWriteTime. rewrite packed_size_Put, packed_tail_Put by done. cbn.
  by rewrite ztake_Put.
Qed.

(** The parsing functions fail exactly on values of fewer than eight bytes. *)
Lemma packed_tail_fails value : packed_tail value = None <-> size value < 8.
Proof.
  unfold packed_tail, packed_size. destruct (Z.ltb_spec (size value) 8); [done|].
  cbn [mbind option_bind]. split; [|lia]. unfold GetFixed64.
  destruct (Z.ltb_spec (size (ztake 8 (zdrop (size value - 8) value))) 8) as [Hlt|]; [|done].
  rewrite size_ztake, size_zdrop in Hlt by (rewrite ?size_zdrop; lia). lia.
Qed.

(** ** Properties *)

(** packing a value with a write time or a sequence number and parsing it
    returns the value and the number, through each of the parsing functions. *)
Theorem packed_value_roundtrip (value : Slice) (t : Z) :
  is_uint 64 t ->
  ParsePackedValueWithWriteTime (PackValueAndWriteTime value t) = Some (value, t) /\
  ParsePackedValueForWriteTime (PackValueAndWriteTime value t) = Some t /\
  ParsePackedValueWithSeqno (PackValueAndSeqno value t) = Some (value, t) /\
  ParsePackedValueForSeqno (PackValueAndSeqno value t) = Some t /\
  ParsePackedValueForValue (PackValueAndSeqno value t) = Some value.
Proof.
  intros. rewrite ParsePackedValueWithWriteTime_Pack by done.
  unfold ParsePackedValueForWriteTime, ParsePackedValueWithSeqno,
    ParsePackedValueForSeqno, ParsePackedValueForValue, PackValueAndWriteTime,
    PackValueAndSeqno. rewrite packed_size_Put, packed_tail_Put by done. cbn.
  by rewrite ztake_Put.
Qed.

Lemma packed_value_roundtrip_witness :
  ParsePackedValueWithWriteTime (PackValueAndWriteTime [x61] 77) = Some ([x61], 77) /\
  ParsePackedValueForWriteTime (PackValueAndWriteTime [x61] 77) = Some 77 /\
  ParsePackedValueWithSeqno (PackValueAndSeqno [x61] 77) = Some ([x61], 77) /\
  ParsePackedValueForSeqno (PackValueAndSeqno [x61] 77) = Some 77 /\
  ParsePackedValueForValue (PackValueAndSeqno [x61] 77) = Some [x61].
Proof. apply (packed_value_roundtrip [x61] 77). done. Defined.
