(* ===== verification/SeqnoToTime.v ===== *)
(** * SeqnoToTime: the sampled mapping from sequence numbers to times

    The class [SeqnoToTimeMapping] of [db/seqno_to_time_mapping.h] and
    [db/seqno_to_time_mapping.cc]. The deque of pairs is a list, an iterator is
    an index. [std::sort] is a merge sort by [operator<], which is total, so that
    the sorted permutation is unique; [std::lower_bound] and [std::upper_bound]
    are the positions their specification names on a partitioned range.
    [std::priority_queue] is the bag of its elements, and [top] the extraction of
    a least one. [assert] does nothing. *)

From stdpp Require Import sorting.
From S2P Require Import Prelude.
From S2P Require Import Status.
From S2P Require Import Slice.
From S2P Require Import Coding.
From S2P Require Import DbFormat.

(** ** Pairs *)

Record SeqnoTimePair : Set := mkPair { seqno : Z; time : Z }.

#[global] Instance SeqnoTimePair_eq_dec : EqDecision SeqnoTimePair.
Proof. solve_decision. Defined.

Definition kUnknownTimeBeforeAll : Z := 0.
Definition kUnknownSeqnoBeforeAll : Z := 0.

Definition ComputeDelta (p base : SeqnoTimePair) : SeqnoTimePair :=
  mkPair (wrap 64 (seqno p - seqno base)) (wrap 64 (time p - time base)).

Definition ApplyDelta (p delta_or_base : SeqnoTimePair) : SeqnoTimePair :=
  mkPair (wrap 64 (seqno p + seqno delta_or_base)) (wrap 64 (time p + time delta_or_base)).

(** [None] is [return false] with nothing changed, [Some] the merged pair. *)
Definition PairMerge (this other : SeqnoTimePair) : option SeqnoTimePair :=
  if seqno this =? seqno other then
    Some (mkPair (seqno this) (Z.min (time this) (time other)))
  else if time this =? time other then
    Some (mkPair (Z.max (seqno this) (seqno other)) (time this))
  else if time this >? time other then Some other
  else None.

(** The order of [operator<], reflexively closed. *)
Definition pair_le (p q : SeqnoTimePair) : Prop :=
  seqno p < seqno q \/ (seqno p = seqno q /\ time p <= time q).

#[global] Instance pair_le_dec : RelDecision pair_le.
Proof. intros p q. unfold pair_le. apply _. Defined.

Definition SeqnoLess (a b : SeqnoTimePair) : bool := seqno a <? seqno b.
Definition TimeLess (a b : SeqnoTimePair) : bool := time a <? time b.

Section Pairs.
Context `{VarintReader}.

Definition PairEncode (p : SeqnoTimePair) (dest : bytes) : bytes :=
  PutVarint64Varint64 dest (seqno p) (time p).

(** The status, the pair, and the input left. *)
Definition PairDecode (input : Slice) : Status * SeqnoTimePair * Slice :=
  match GetVarint64 input with
  | (None, input) => (Corruption "Invalid sequence number" "", mkPair 0 0, input)
  | (Some s, input) =>
      match GetVarint64 input with
      | (None, input) => (Corruption "Invalid time" "", mkPair s 0, input)
      | (Some t, input) => (Status_OK, mkPair s t, input)
      end
  end.

End Pairs.

(** ** The mapping *)

Record SeqnoToTimeMapping : Set := mkMapping {
  max_time_span_ : Z;
  capacity_ : Z;
  pairs_ : list SeqnoTimePair;
  enforced_ : bool;
}.

Definition new_SeqnoToTimeMapping : SeqnoToTimeMapping :=
  mkMapping UINT64_MAX UINT64_MAX [] true.

Definition set_pairs (m : SeqnoToTimeMapping) (l : list SeqnoTimePair)
    : SeqnoToTimeMapping := mkMapping (max_time_span_ m) (capacity_ m) l (enforced_ m).

Definition set_enforced (m : SeqnoToTimeMapping) (b : bool) : SeqnoToTimeMapping :=
  mkMapping (max_time_span_ m) (capacity_ m) (pairs_ m) b.

Definition mapping_Clear (m : SeqnoToTimeMapping) : SeqnoToTimeMapping :=
  mkMapping (max_time_span_ m) (capacity_ m) [] true.

(** ** Searching *)

(** [std::upper_bound]: the first position whose element the key is less than. *)
Fixpoint upper_bound {A} (less : A -> A -> bool) (key : A) (l : list A) : nat :=
  match l with
  | [] => 0
  | x :: l => if less key x then 0 else S (upper_bound less key l)
  end.

(** [std::lower_bound]: the first position whose element is not less than the key. *)
Fixpoint lower_bound {A} (less : A -> A -> bool) (key : A) (l : list A) : nat :=
  match l with
  | [] => 0
  | x :: l => if less x key then S (lower_bound less key l) else 0
  end.

Definition FindGreaterTime (t : Z) (m : SeqnoToTimeMapping) : nat :=
  upper_bound TimeLess (mkPair 0 t) (pairs_ m).

Definition FindGreaterEqSeqno (s : Z) (m : SeqnoToTimeMapping) : nat :=
  lower_bound SeqnoLess (mkPair s 0) (pairs_ m).

Definition FindGreaterSeqno (s : Z) (m : SeqnoToTimeMapping) : nat :=
  upper_bound SeqnoLess (mkPair s 0) (pairs_ m).

(** The entry before an iterator, if the iterator is not [cbegin()]. *)
Definition entry_before (it : nat) (m : SeqnoToTimeMapping) : option SeqnoTimePair :=
  match it with O => None | S it => pairs_ m !! it end.

Definition GetProximalTimeBeforeSeqno (s : Z) (m : SeqnoToTimeMapping) : Z :=
  match entry_before (FindGreaterEqSeqno s m) m with
  | None => kUnknownTimeBeforeAll
  | Some p => time p
  end.

Definition GetProximalSeqnoBeforeTime (t : Z) (m : SeqnoToTimeMapping) : Z :=
  match entry_before (FindGreaterTime t m) m with
  | None => kUnknownSeqnoBeforeAll
  | Some p => seqno p
  end.

(** The two output parameters: [None] when the pointer is null, else the old
    value of the variable. *)
Definition GetCurrentTieringCutoffSeqnos (current_time preserve_internal_time_seconds
      preclude_last_level_data_seconds : Z)
    (preserve_time_min_seqno preclude_last_level_min_seqno : option Z)
    (m : SeqnoToTimeMapping) : option Z * option Z :=
  let back d := if current_time >? d then current_time - d else 0 in
  let cutoff t := wrap 64 (GetProximalSeqnoBeforeTime t m + 1) in
  let preserve_time_duration :=
    Z.max preserve_internal_time_seconds preclude_last_level_data_seconds in
  if preserve_time_duration <=? 0 then
    (preserve_time_min_seqno, preclude_last_level_min_seqno)
  else
    ((fun _ => cutoff (back preserve_time_duration)) <$> preserve_time_min_seqno,
     if preclude_last_level_data_seconds >? 0
     then (fun _ => cutoff (back preclude_last_level_data_seconds))
            <$> preclude_last_level_min_seqno
     else preclude_last_level_min_seqno).

(** ** Enforcing the time span *)

(** [while (size >= 2 && pairs_[0].time <= c && pairs_[1].time <= c) pop_front()]. *)
Fixpoint drop_old (cutoff_time : Z) (l : list SeqnoTimePair) : list SeqnoTimePair :=
  match l with
  | p :: ((q :: _) as tl) =>
      if (time p <=? cutoff_time) && (time q <=? cutoff_time)
      then drop_old cutoff_time tl else l
  | _ => l
  end.

Definition EnforceMaxTimeSpan (now : Z) (m : SeqnoToTimeMapping) : SeqnoToTimeMapping :=
  if (length (pairs_ m) <=? 1)%nat then m
  else
    let reference := if now >? 0 then now else default 0 (time <$> last (pairs_ m)) in
    if reference <? max_time_span_ m then m
    else set_pairs m (drop_old (reference - max_time_span_ m) (pairs_ m)).

(** ** Enforcing the capacity *)

(** [RemovalCandidate]: the time gap its removal leaves, and its iterator. *)
Definition Candidate : Type := Z * nat.

Definition seqno_at (D : list SeqnoTimePair) (i : nat) : Z :=
  default 0 (seqno <$> D !! i).

(** [operator>]. *)
Definition candidate_gt (D : list SeqnoTimePair) (a b : Candidate) : bool :=
  if fst a =? fst b then seqno_at D (snd a) >? seqno_at D (snd b) else fst a >? fst b.

(** [top()] and [pop()] of the queue that holds [c] and [pq]. *)
Fixpoint pq_pop (D : list SeqnoTimePair) (c : Candidate) (pq : list Candidate)
    : Candidate * list Candidate :=
  match pq with
  | [] => (c, [])
  | d :: pq =>
      if candidate_gt D c d
      then let '(top, rest) := pq_pop D d pq in (top, c :: rest)
      else let '(top, rest) := pq_pop D c pq in (top, d :: rest)
  end.

(** The candidates: every entry but the first and the last. [i] is the index of
    [prev]. *)
Fixpoint init_candidates (prev_prev_time : Z) (i : nat) (prev : SeqnoTimePair)
    (l : list SeqnoTimePair) : list Candidate :=
  match l with
  | [] => []
  | p :: l => (wrap 64 (time p - prev_prev_time), i)
                :: init_candidates (time prev) (S i) p l
  end.

Definition all_candidates (D : list SeqnoTimePair) : list Candidate :=
  match D with
  | first :: prev :: l => init_candidates (time first) 1 prev l
  | _ => []
  end.

(** Time zero marks an entry as deleted. *)
Definition live (p : SeqnoTimePair) : bool := negb (time p =? kUnknownTimeBeforeAll).

(** The time of the first entry that is not marked, [None] past the end. *)
Fixpoint first_time (l : list SeqnoTimePair) : option Z :=
  match l with
  | [] => None
  | p :: l => if live p then Some (time p) else first_time l
  end.

Definition mark_deleted (p : SeqnoTimePair) : SeqnoTimePair :=
  mkPair (seqno p) kUnknownTimeBeforeAll.

(** The greedy loop; [None] when the fuel runs out or an [assert] is violated. *)
Fixpoint remove_loop (fuel to_remove_count : nat) (D : list SeqnoTimePair)
    (pq : list Candidate) : option (list SeqnoTimePair) :=
  match fuel with
  | O => None
  | S fuel =>
      match to_remove_count with
      | O => Some D
      | S to_remove_count' =>
          match pq with
          | [] => None
          | c :: pq =>
              let '((new_time_gap, i), pq) := pq_pop D c pq in
              after_time ← first_time (drop (S i) D);
              before_time ← first_time (reverse (take i D));
              if new_time_gap =? wrap 64 (after_time - before_time)
              then remove_loop fuel to_remove_count' (alter mark_deleted i D) pq
              else remove_loop fuel to_remove_count D
                     ((wrap 64 (after_time - before_time), i) :: pq)
          end
      end
  end.

(** A capacity of one is treated as two. *)
Definition strict_cap (m : SeqnoToTimeMapping) : Z :=
  if capacity_ m =? 1 then 2 else capacity_ m.

Definition effective_cap (strict : bool) (m : SeqnoToTimeMapping) : Z :=
  let cap := wrap 64 (strict_cap m + if strict then 0 else strict_cap m / 8) in
  if cap <? strict_cap m then UINT64_MAX else cap.

(** Each removal is preceded by at most one adjustment of every candidate. *)
Definition removal_fuel (n to_remove : nat) : nat := S (to_remove * S n).

Definition EnforceCapacity (strict : bool) (m : SeqnoToTimeMapping)
    : option SeqnoToTimeMapping :=
  let D := pairs_ m in
  if capacity_ m =? 0 then Some (set_pairs m [])
  else if size D <=? effective_cap strict m then Some m
  else
    let to_remove_count := Z.to_nat (size D - strict_cap m) in
    D' ← remove_loop (removal_fuel (length D) to_remove_count) to_remove_count D
           (all_candidates D);
    Some (set_pairs m (List.filter live D')).

(** ** Sorting and merging *)

(** [to] is the entry under [to_it], the entries before it are final. *)
Fixpoint merge_pairs (to : SeqnoTimePair) (l : list SeqnoTimePair) : list SeqnoTimePair :=
  match l with
  | [] => [to]
  | p :: l => match PairMerge to p with
              | Some to => merge_pairs to l
              | None => to :: merge_pairs p l
              end
  end.

Definition SortAndMerge (m : SeqnoToTimeMapping) : SeqnoToTimeMapping :=
  let merged := match merge_sort pair_le (pairs_ m) with
                | [] => []
                | p :: l => merge_pairs p l
                end in
  set_enforced (set_pairs m merged) true.

(** ** Modifiers *)

Definition SetMaxTimeSpan (span : Z) (m : SeqnoToTimeMapping) : SeqnoToTimeMapping :=
  let m := mkMapping span (capacity_ m) (pairs_ m) (enforced_ m) in
  if enforced_ m then EnforceMaxTimeSpan 0 m else m.

Definition SetCapacity (capacity : Z) (m : SeqnoToTimeMapping) : option SeqnoToTimeMapping :=
  let m := mkMapping (max_time_span_ m) capacity (pairs_ m) (enforced_ m) in
  if enforced_ m then EnforceCapacity true m else Some m.

Definition Enforce (now : Z) (m : SeqnoToTimeMapping) : option SeqnoToTimeMapping :=
  let m := if negb (enforced_ m) then EnforceMaxTimeSpan now (SortAndMerge m)
           else if now >? 0 then EnforceMaxTimeSpan now m else m in
  EnforceCapacity true m.

Definition AddUnenforced (s t : Z) (m : SeqnoToTimeMapping) : SeqnoToTimeMapping :=
  if s =? 0 then m
  else set_pairs (set_enforced m false) (pairs_ m ++ [mkPair s t]).

(** Replacing the last element of the deque. *)
Definition set_last (l : list SeqnoTimePair) (p : SeqnoTimePair) : list SeqnoTimePair :=
  removelast l ++ [p].

(** The changes before the enforcement at the end; the flag is [added]. *)
Definition append_entry (s t : Z) (last_ : SeqnoTimePair) (m : SeqnoToTimeMapping)
    : bool * SeqnoToTimeMapping :=
  let push := (true, set_pairs m (pairs_ m ++ [mkPair s t])) in
  if seqno last_ <=? s then
    match PairMerge last_ (mkPair s t) with
    | Some merged => (false, set_pairs m (set_last (pairs_ m) merged))
    | None => if enforced_ m && ((s <=? seqno last_) || (t <=? time last_))
              then (false, m) else push
    end
  else if negb (enforced_ m) then push
  else (false, m).

(** The enforcement at the end, "similar to Enforce() but not quite". *)
Definition append_finish (r : bool * SeqnoToTimeMapping)
    : option (bool * SeqnoToTimeMapping) :=
  let '(added, m) := r in
  let m := if negb (enforced_ m) then SortAndMerge m else m in
  m ← EnforceCapacity false (EnforceMaxTimeSpan 0 m);
  Some (added, m).

Definition mapping_Append (s t : Z) (m : SeqnoToTimeMapping)
    : option (bool * SeqnoToTimeMapping) :=
  if capacity_ m =? 0 then Some (false, m)
  else if s =? 0 then append_finish (false, m)
  else match last (pairs_ m) with
       | None => Some (true, set_pairs (set_enforced m true) [mkPair s t])
       | Some last_ => append_finish (append_entry s t last_ m)
       end.

(** The loop runs over [from_seqno .. to_seqno]; it would not end for the greatest
    64-bit [to_seqno]. *)
Definition PrePopulate (from_seqno to_seqno from_time to_time : Z)
    (m : SeqnoToTimeMapping) : bool * SeqnoToTimeMapping :=
  let entry i :=
    mkPair i (wrap 64 (from_time + wrap 64 (wrap 64 (to_time - from_time)
                                            * wrap 64 (i - from_seqno))
                                   / wrap 64 (to_seqno - from_seqno))) in
  (true, set_pairs m (pairs_ m ++ map entry (seqZ from_seqno (to_seqno - from_seqno + 1)))).

(** ** Encoding *)

Section Encoding.
Context `{VarintReader}.

Fixpoint encode_deltas (base : SeqnoTimePair) (l : list SeqnoTimePair) (dest : bytes)
    : bytes :=
  match l with
  | [] => dest
  | cur :: l => encode_deltas cur l (PairEncode (ComputeDelta cur base) dest)
  end.

Definition EncodeTo (m : SeqnoToTimeMapping) (dest : bytes) : bytes :=
  match pairs_ m with
  | [] => dest
  | _ => encode_deltas (mkPair 0 0) (pairs_ m) (PutVarint64 dest (size (pairs_ m)))
  end.

(** The loop of [DecodeImpl]; a failing iteration stops it, so [count] iterations
    bound the recursion. *)
Fixpoint decode_deltas (count : nat) (base : SeqnoTimePair) (input : Slice)
    (pairs : list SeqnoTimePair) : Status * Slice * list SeqnoTimePair :=
  match count with
  | O => (Status_OK, input, pairs)
  | S count =>
      let '(s, val, input) := PairDecode input in
      if negb (ok s) then (s, input, pairs)
      else let val := ApplyDelta val base in
           decode_deltas count val input (pairs ++ [val])
  end.

Definition DecodeImpl (input : Slice) (pairs : list SeqnoTimePair)
    : Status * list SeqnoTimePair :=
  if empty_slice input then (Status_OK, pairs)
  else
    match GetVarint64 input with
    | (None, _) => (Corruption "Invalid sequence number time size" "", pairs)
    | (Some count, input) =>
        let '(s, input, pairs) :=
          decode_deltas (Z.to_nat count) (mkPair 0 0) input pairs in
        if negb (ok s) then (s, pairs)
        else if negb (empty_slice input) then
          (Corruption "Extra bytes at end of sequence number time mapping" "", pairs)
        else (Status_OK, pairs)
    end.

Definition limited (m : SeqnoToTimeMapping) : bool :=
  (max_time_span_ m <? UINT64_MAX) || (capacity_ m <? UINT64_MAX).

Definition DecodeFrom (pairs_str : bytes) (m : SeqnoToTimeMapping)
    : Status * SeqnoToTimeMapping :=
  let orig_size := length (pairs_ m) in
  let '(s, l) := DecodeImpl pairs_str (pairs_ m) in
  if negb (ok s) then (s, set_pairs m (take orig_size l))
  else if (0 <? orig_size)%nat || limited m then (s, set_enforced (set_pairs m l) false)
  else (s, set_pairs m l).

End Encoding.

Definition CopyFromSeqnoRange (src : SeqnoToTimeMapping) (from_seqno to_seqno : Z)
    (m : SeqnoToTimeMapping) : SeqnoToTimeMapping :=
  let src_it := FindGreaterEqSeqno from_seqno src in
  let src_it_end := if to_seqno <? from_seqno then src_it
                    else FindGreaterSeqno to_seqno src in
  let src_it := Nat.pred src_it in
  let m' := set_pairs m (pairs_ m ++ take (src_it_end - src_it) (drop src_it (pairs_ src))) in
  if (0 <? length (pairs_ m))%nat || limited m then set_enforced m' false else m'.

Definition CopyFrom (src m : SeqnoToTimeMapping) : SeqnoToTimeMapping :=
  CopyFromSeqnoRange src kUnknownSeqnoBeforeAll kMaxSequenceNumber m.
