(* ===== verification/SeqnoCapacity.v ===== *)
(** * SeqnoCapacity: compacting to the capacity is the greedy algorithm

    [EnforceCapacity] removes entries through a priority queue whose gaps may be
    out of date, on a deque where removed entries are only marked. Its result is
    that of the greedy algorithm on the plain list: remove, one at a time, the
    inner entry whose removal leaves the smallest time gap. *)

From stdpp Require Import sorting.
From S2P Require Import Prelude.
From S2P Require Import SeqnoToTime.

(** ** Ordered entries *)

Definition valid_pair (p : SeqnoTimePair) : Prop :=
  0 < seqno p < 2 ^ 64 /\ 0 < time p < 2 ^ 64.

Definition earlier (p q : SeqnoTimePair) : Prop :=
  seqno p < seqno q /\ time p <= time q.

(** Sequence numbers increase, times do not decrease. *)
Definition chain : list SeqnoTimePair -> Prop := StronglySorted earlier.

#[global] Instance earlier_trans : Transitive earlier.
Proof. unfold earlier. intros p q r ? ?. lia. Qed.

Lemma chain_app l r :
  chain (l ++ r) <->
  (forall p q, p ∈ l -> q ∈ r -> earlier p q) /\ chain l /\ chain r.
Proof. apply StronglySorted_app. Qed.

Lemma chain_drop_one l p r : chain (l ++ p :: r) -> chain (l ++ r).
Proof.
  rewrite !chain_app. intros (Hlr & Hl & Hr).
  apply StronglySorted_inv in Hr as [Hr _]. split_and!; [|done|done].
  intros. apply Hlr; [done|]. by right.
Qed.

(** ** The greedy algorithm *)

Inductive greedy_step : list SeqnoTimePair -> list SeqnoTimePair -> Prop :=
| greedy_remove l b p a r :
    (forall l' b' p' a' r',
      l ++ b :: p :: a :: r = l' ++ b' :: p' :: a' :: r' ->
      time a - time b < time a' - time b'
      \/ (time a - time b = time a' - time b' /\ seqno p <= seqno p')) ->
    greedy_step (l ++ b :: p :: a :: r) (l ++ b :: a :: r).

Lemma greedy_step_chain l l' : greedy_step l l' -> chain l -> chain l'.
Proof.
  intros [l0 b p a r _]. rewrite !(cons_middle b), !app_assoc.
  apply chain_drop_one.
Qed.

(** The first and the last entry stay, and nothing new appears. *)
Lemma greedy_step_frame l l' :
  greedy_step l l' ->
  head l' = head l /\ last l' = last l /\ length l = S (length l') /\
  forall p, p ∈ tail l' -> p ∈ tail l.
Proof.
  intros [l0 b p a r _].
  split_and!; [by destruct l0| |rewrite !length_app; simpl; lia|].
  - rewrite !last_app. by rewrite !last_cons_cons.
  - intros q. destruct l0 as [|x l0]; cbn; rewrite ?elem_of_app, ?elem_of_cons; tauto.
Qed.

Lemma greedy_steps_frame k l l' :
  nsteps greedy_step k l l' ->
  (chain l -> chain l') /\ head l' = head l /\ last l' = last l /\
  length l = (k + length l')%nat /\ forall p, p ∈ tail l' -> p ∈ tail l.
Proof.
  induction 1 as [l|k l l1 l2 H1 _ (IHc & IHh & IHl & IHn & IHt)]; [done|].
  pose proof (greedy_step_frame _ _ H1) as (Hh & Hl & Hn & Ht).
  split_and!; [eauto using greedy_step_chain|congruence|congruence|lia|auto].
Qed.

(** ** Entries that are not marked *)

Abbreviation lives := (List.filter live).

Lemma live_valid p : valid_pair p -> live p = true.
Proof.
  unfold valid_pair, live, kUnknownTimeBeforeAll. intros. apply negb_true_iff.
  apply Z.eqb_neq. lia.
Qed.

Lemma live_marked p : live (mark_deleted p) = false.
Proof. done. Qed.

Lemma lives_all l : Forall valid_pair l -> lives l = l.
Proof.
  induction 1 as [|p l Hp _ IH]; [done|]. cbn. by rewrite live_valid, IH.
Qed.

Lemma lives_split D X p Y :
  lives D = X ++ p :: Y ->
  exists L R, D = L ++ p :: R /\ lives L = X /\ lives R = Y /\ live p = true.
Proof.
  revert X. induction D as [|q D IH]; intros X; cbn; [by destruct X|].
  destruct (live q) eqn:Hq.
  - destruct X as [|x X]; cbn; intros [= -> HD].
    + by exists [], D.
    + destruct (IH X HD) as (L & R & -> & <- & <- & Hp).
      exists (x :: L), R. cbn. by rewrite Hq.
  - intros HD. destruct (IH X HD) as (L & R & -> & <- & <- & Hp).
    exists (q :: L), R. cbn. by rewrite Hq.
Qed.

Lemma first_time_head l : first_time l = time <$> head (lives l).
Proof. induction l as [|p l IH]; [done|]. cbn. by destruct (live p). Qed.

Lemma lives_reverse l : lives (reverse l) = reverse (lives l).
Proof.
  induction l as [|p l IH]; [done|]. rewrite reverse_cons, List.filter_app, IH. cbn [List.filter].
  destruct (live p); [by rewrite reverse_cons|]. apply app_nil_r.
Qed.

Lemma first_time_reverse l : first_time (reverse l) = time <$> last (lives l).
Proof. by rewrite first_time_head, lives_reverse, head_reverse. Qed.

(** The gap the removal of an entry leaves, as the loop computes it. *)
Definition actual (D : list SeqnoTimePair) (i : nat) : option Z :=
  after ← first_time (drop (S i) D);
  before ← first_time (reverse (take i D));
  Some (after - before).

Lemma drop_S_app {A} (L : list A) p R : drop (S (length L)) (L ++ p :: R) = R.
Proof. by induction L. Qed.

Lemma actual_split L p R :
  actual (L ++ p :: R) (length L)
  = (a ← head (lives R); b ← last (lives L); Some (time a - time b)).
Proof.
  unfold actual. rewrite take_app_length, drop_S_app.
  rewrite first_time_reverse, first_time_head.
  by destruct (head (lives R)), (last (lives L)).
Qed.

Lemma alter_mark L p R :
  alter mark_deleted (length L) (L ++ p :: R) = L ++ mark_deleted p :: R.
Proof. induction L as [|q L IH]; [done|]. cbn. f_equal. exact IH. Qed.

Lemma lives_marked L p R : lives (L ++ mark_deleted p :: R) = lives L ++ lives R.
Proof. by rewrite List.filter_app. Qed.

(** A greatest gap: removing another entry never makes a gap smaller. *)
Lemma head_drop_one X p Y a :
  chain (X ++ p :: Y) -> head (X ++ p :: Y) = Some a -> Y <> [] ->
  exists a', head (X ++ Y) = Some a' /\ time a <= time a'.
Proof.
  intros Hc Ha HY. destruct X as [|x X]; cbn in *.
  - simplify_eq. destruct Y as [|y Y]; [done|]. exists y. split; [done|].
    apply StronglySorted_inv in Hc as [_ Hc]. inversion Hc; subst. unfold earlier in *. lia.
  - simplify_eq. eauto with lia.
Qed.

Lemma last_drop_one X p Y b :
  chain (X ++ p :: Y) -> last (X ++ p :: Y) = Some b -> X <> [] ->
  exists b', last (X ++ Y) = Some b' /\ time b' <= time b.
Proof.
  intros Hc Hb HX. destruct Y as [|y Y].
  - rewrite last_snoc in Hb. simplify_eq. rewrite app_nil_r.
    destruct (last X) as [b'|] eqn:Hl; [|by apply last_None in Hl].
    exists b'. split; [done|]. apply last_Some in Hl as [X' ->].
    apply chain_app in Hc as (Hc & _). assert (earlier b' b) as [? ?]; [|lia].
    apply Hc; set_solver.
  - exists b. split; [|lia]. rewrite last_app in *. rewrite last_cons in Hb.
    by destruct (last (y :: Y)) eqn:E; [|apply last_None in E].
Qed.

Lemma head_Some_nonempty {A} (l : list A) x : head l = Some x -> l <> [].
Proof. by destruct l. Qed.

Lemma actual_marked L p R j x :
  chain (lives (L ++ p :: R)) -> live p = true -> lives L <> [] -> lives R <> [] ->
  j <> length L -> actual (L ++ p :: R) j = Some x ->
  exists y, actual (L ++ mark_deleted p :: R) j = Some y /\ x <= y.
Proof.
  intros Hc Hp HL HR Hj. unfold actual.
  destruct (decide (j < length L)%nat) as [Hlt|Hge].
  - rewrite !take_app_le, !drop_app_le, !first_time_reverse, !first_time_head by lia.
    rewrite <- (take_drop (S j) L), <- app_assoc, List.filter_app in Hc.
    apply chain_app in Hc as (_ & _ & Hc). rewrite List.filter_app in Hc |- *.
    cbn [List.filter] in *. rewrite Hp in Hc |- *. rewrite lives_marked.
    destruct (head _) as [a|] eqn:Ha; [|done].
    destruct (head_drop_one _ _ _ _ Hc Ha HR) as (a' & -> & Hle). cbn.
    destruct (last _) as [b|]; [|done]. cbn. intros [= <-]. eauto with lia.
  - replace j with (length L + S (j - S (length L)))%nat by lia.
    generalize (j - S (length L))%nat as d. clear Hj Hge j. intros d.
    rewrite !take_app_add', <- !Nat.add_succ_r, !drop_app_add' by done.
    cbn [take drop]. rewrite !first_time_reverse, !first_time_head.
    rewrite <- (take_drop d R), app_comm_cons, app_assoc, List.filter_app in Hc.
    apply chain_app in Hc as (_ & Hc & _). rewrite List.filter_app in Hc |- *.
    cbn [List.filter] in *. rewrite Hp in Hc |- *. rewrite lives_marked.
    destruct (head _) as [a|]; [|done]. cbn.
    destruct (last _) as [b|] eqn:Hb; [|done].
    destruct (last_drop_one _ _ _ _ Hc Hb HL) as (b' & -> & Hle). cbn.
    intros [= <-]. eauto with lia.
Qed.

(** ** The queue *)

Lemma candidate_gt_trans D a b c :
  candidate_gt D a b = false -> candidate_gt D b c = false -> candidate_gt D a c = false.
Proof.
  unfold candidate_gt. intros. repeat case_match; zbool; try lia;
    rewrite Z.gtb_ltb; apply Z.ltb_ge; lia.
Qed.

Lemma candidate_gt_asym D a b : candidate_gt D a b = true -> candidate_gt D b a = false.
Proof.
  unfold candidate_gt. intros. repeat case_match; zbool; try lia;
    rewrite Z.gtb_ltb; apply Z.ltb_ge; lia.
Qed.

Lemma pq_pop_least D c pq top rest :
  pq_pop D c pq = (top, rest) ->
  c :: pq ≡ₚ top :: rest /\
  forall d, d ∈ c :: pq -> candidate_gt D top d = false.
Proof.
  revert c top rest. induction pq as [|d pq IH]; intros c top rest; cbn.
  { intros [= <- <-]. split; [done|]. intros d ->%list_elem_of_singleton.
    unfold candidate_gt. rewrite Z.eqb_refl, Z.gtb_ltb. apply Z.ltb_irrefl. }
  destruct (candidate_gt D c d) eqn:Hcd.
  - destruct (pq_pop D d pq) as [t r] eqn:E. intros [= <- <-].
    destruct (IH _ _ _ E) as [Hp Hl]. split; [rewrite Hp; constructor|].
    intros e [->|He]%elem_of_cons; [|by apply Hl].
    apply candidate_gt_trans with d; [apply Hl; by left|].
    by apply candidate_gt_asym.
  - destruct (pq_pop D c pq) as [t r] eqn:E. intros [= <- <-].
    destruct (IH _ _ _ E) as [Hp Hl].
    split; [rewrite Permutation_swap, Hp; constructor|].
    intros e [->|[->|He]%elem_of_cons]%elem_of_cons.
    + apply Hl. by left.
    + apply candidate_gt_trans with c; [apply Hl; by left|done].
    + apply Hl. by right.
Qed.

(** ** The invariant of the loop *)

(** The first and the last entry are never marked. *)
Definition ends (D : list SeqnoTimePair) : Prop :=
  (exists p, head D = Some p /\ live p = true) /\
  (exists p, last D = Some p /\ live p = true).

(** The candidates that are left: inner entries that are not marked. *)
Definition inner (D : list SeqnoTimePair) (i : nat) : Prop :=
  exists L p R, D = L ++ p :: R /\ length L = i /\ live p = true /\ L <> [] /\ R <> [].

Record Inv (D : list SeqnoTimePair) (pq : list Candidate) : Prop := {
  inv_chain : chain (lives D);
  inv_valid : Forall valid_pair (lives D);
  inv_ends : ends D;
  inv_nodup : NoDup pq.*2;
  inv_inner : forall i, i ∈ pq.*2 <-> inner D i;
  inv_gap : forall g i, (g, i) ∈ pq -> exists x, actual D i = Some x /\ g <= x;
  inv_count : (length pq + 2 = length (lives D))%nat;
}.

Lemma Inv_perm D pq pq' : pq ≡ₚ pq' -> Inv D pq -> Inv D pq'.
Proof.
  intros Hp [? ? ? ? Hi Hg ?]. split; try done.
  - by rewrite <- Hp.
  - intros i. rewrite <- Hi. by rewrite Hp.
  - intros g i. rewrite <- Hp. apply Hg.
  - by rewrite <- Hp.
Qed.

Lemma lives_head_nonempty L p R q :
  head (L ++ p :: R) = Some q -> live q = true -> L <> [] -> lives L <> [].
Proof. destruct L as [|x L]; [done|]. cbn. intros [= ->] ->. done. Qed.

Lemma lives_last_nonempty L p R q :
  last (L ++ p :: R) = Some q -> live q = true -> R <> [] -> lives R <> [].
Proof.
  intros Hl Hq HR. rewrite last_app, last_cons in Hl.
  destruct (last R) as [r|] eqn:E; [|by apply last_None in E].
  simplify_eq. apply last_Some in E as [R' ->]. rewrite List.filter_app. cbn.
  rewrite Hq. by destruct (lives R').
Qed.

Lemma inner_lives D L p R :
  ends D -> D = L ++ p :: R -> L <> [] -> R <> [] -> lives L <> [] /\ lives R <> [].
Proof.
  intros [(q & Hq & Lq) (r & Hr & Lr)] -> HL HR.
  eauto using lives_head_nonempty, lives_last_nonempty.
Qed.

(** The neighbours of an inner entry among the entries that are left. *)
Lemma inner_split D i :
  ends D -> inner D i ->
  exists L p R l b a r, D = L ++ p :: R /\ length L = i /\ live p = true /\
    lives L = l ++ [b] /\ lives R = a :: r /\ actual D i = Some (time a - time b).
Proof.
  intros He (L & p & R & HD & Hi & Hp & HL & HR).
  destruct (inner_lives D L p R He HD HL HR) as [HL' HR'].
  destruct (lives R) as [|a r] eqn:Er; [done|].
  destruct (exists_last HL') as (l & b & El).
  exists L, p, R, l, b, a, r. split_and!; try done.
  rewrite HD, <- Hi, actual_split, Er, El, last_snoc. done.
Qed.

Lemma inner_at L p R :
  live p = true -> lives L <> [] -> lives R <> [] -> inner (L ++ p :: R) (length L).
Proof. intros. exists L, p, R. split_and!; try done; intros ->; done. Qed.

Lemma lives_at L p R :
  live p = true -> lives (L ++ p :: R) = lives L ++ p :: lives R.
Proof. intros Hp. rewrite List.filter_app. cbn. by rewrite Hp. Qed.

(** The gap of a candidate fits its machine type. *)
Lemma actual_uint D pq i x : Inv D pq -> inner D i -> actual D i = Some x -> is_uint 64 x.
Proof.
  intros I Hi Hx.
  destruct (inner_split D i (inv_ends _ _ I) Hi)
    as (L & p & R & l & b & a & r & -> & <- & Hp & Hl & Hr & Ha).
  rewrite Ha in Hx. simplify_eq. pose proof (inv_chain _ _ I) as Hc.
  pose proof (inv_valid _ _ I) as Hv. rewrite lives_at, Hl, Hr in Hc, Hv by done.
  assert (earlier b a) as [_ Hba].
  { apply chain_app in Hc as (Hc & _). apply Hc; set_solver. }
  rewrite Forall_forall in Hv.
  assert (valid_pair b) as Hb by (apply Hv; set_solver).
  assert (valid_pair a) as Ha' by (apply Hv; set_solver).
  unfold valid_pair, is_uint in *. lia.
Qed.

(** Among the candidates the popped one is the best of the plain list. *)
Lemma top_is_greedy D g i rest :
  Inv D ((g, i) :: rest) -> actual D i = Some g ->
  (forall d, d ∈ (g, i) :: rest -> candidate_gt D (g, i) d = false) ->
  greedy_step (lives D) (lives (alter mark_deleted i D)).
Proof.
  intros I Hg Hmin. assert (inner D i) as Hi by (apply (inv_inner _ _ I); by left).
  destruct (inner_split D i (inv_ends _ _ I) Hi)
    as (L & p & R & l & b & a & r & HD & <- & Hp & Hl & Hr & Ha).
  assert (g = time a - time b) as -> by congruence.
  assert (seqno_at D (length L) = seqno p) as Hsp
    by (unfold seqno_at; by rewrite HD, list_lookup_middle).
  assert (lives D = l ++ b :: p :: a :: r) as HlD
    by (rewrite HD, lives_at, Hl, Hr by done; by rewrite <- app_assoc).
  rewrite HD at 2. rewrite alter_mark, lives_marked, Hl, Hr, HlD, <- app_assoc.
  apply greedy_remove. intros l' b' p' a' r' Heq. rewrite <- HlD in Heq.
  destruct (lives_split D (l' ++ [b']) p' (a' :: r')) as (L' & R' & HD' & HL' & HR' & Hp').
  { by rewrite <- app_assoc. }
  assert (inner D (length L')) as Hj
    by (rewrite HD'; apply inner_at; [done|rewrite HL'; by destruct l'|by rewrite HR']).
  apply (inv_inner _ _ I) in Hj as ([g' j] & Hj & Hin)%list_elem_of_fmap. cbn in Hj. subst j.
  destruct (inv_gap _ _ I _ _ Hin) as (x & Hx & Hle).
  rewrite HD', actual_split, HL', HR', last_snoc in Hx. cbn in Hx. simplify_eq.
  specialize (Hmin _ Hin). unfold candidate_gt in Hmin. cbn [fst snd] in Hmin.
  rewrite Hsp in Hmin. unfold seqno_at in Hmin.
  rewrite HD', list_lookup_middle in Hmin by done. cbn in Hmin.
  case_match; zbool; lia.
Qed.

Lemma inner_lookup D i :
  inner D i <-> (0 < i)%nat /\ (S i < length D)%nat /\
                exists p, D !! i = Some p /\ live p = true.
Proof.
  split.
  - intros (L & p & R & -> & <- & Hp & HL & HR). rewrite length_app. cbn.
    split_and!; [destruct L; [done|cbn; lia]|destruct R; [done|cbn; lia]|].
    exists p. by rewrite list_lookup_middle.
  - intros (H0 & Hn & p & HDi & Hp). exists (take i D), p, (drop (S i) D).
    pose proof (length_take D i). pose proof (length_drop D (S i)).
    split_and!; [by rewrite take_drop_middle|lia|done| |];
      intros E; rewrite E in *; cbn in *; lia.
Qed.

Lemma inner_marked D i j :
  inner (alter mark_deleted i D) j <-> inner D j /\ j <> i.
Proof.
  rewrite !inner_lookup, length_alter. destruct (decide (j = i)) as [->|Hne].
  - rewrite list_lookup_alter_eq. split; [|naive_solver].
    intros (_ & _ & p & Hp & Hl). destruct (D !! i); [|done]. cbn in Hp. by simplify_eq.
  - rewrite list_lookup_alter_ne by done. naive_solver.
Qed.

Lemma ends_marked L p q R :
  L <> [] -> R <> [] -> ends (L ++ p :: R) -> ends (L ++ q :: R).
Proof.
  intros HL HR [Hh Hl]. split; [by destruct L|].
  rewrite last_app, last_cons in *. by destruct (last R) eqn:E; [|apply last_None in E].
Qed.

Lemma Inv_remove D g i rest :
  Inv D ((g, i) :: rest) -> Inv (alter mark_deleted i D) rest.
Proof.
  intros I. assert (inner D i) as Hi by (apply (inv_inner _ _ I); by left).
  pose proof (inv_nodup _ _ I) as [Hni Hnd]%NoDup_cons.
  destruct Hi as (L & p & R & HD & <- & Hp & HL & HR).
  destruct (inner_lives D L p R (inv_ends _ _ I) HD HL HR) as [HL' HR'].
  pose proof (inv_chain _ _ I) as Hc. pose proof (inv_valid _ _ I) as Hv.
  pose proof (inv_count _ _ I) as Hn. pose proof (inv_ends _ _ I) as He.
  rewrite HD, lives_at in Hv, Hn by done.
  assert (alter mark_deleted (length L) D = L ++ mark_deleted p :: R) as HD1
    by (by rewrite HD, alter_mark).
  split.
  - rewrite HD1, lives_marked. rewrite HD, lives_at in Hc by done.
    by apply chain_drop_one in Hc.
  - rewrite HD1, lives_marked. apply Forall_app in Hv as [? [_ ?]%Forall_cons].
    by apply Forall_app.
  - rewrite HD1. rewrite HD in He. by eapply ends_marked.
  - done.
  - intros j. rewrite inner_marked, <- (inv_inner _ _ I j). cbn. rewrite elem_of_cons.
    split; [intros Hj; split; [by right|by intros ->]|naive_solver].
  - intros g' j Hin. destruct (inv_gap _ _ I g' j) as (x & Hx & Hle); [by right|].
    assert (j <> length L) by (intros ->; apply Hni; by apply (list_elem_of_fmap_2 snd) in Hin).
    rewrite HD in Hx, Hc. rewrite HD1.
    destruct (actual_marked L p R j x) as (y & Hy & Hxy); eauto with lia.
  - rewrite HD1, lives_marked. rewrite length_app in *. cbn in *. lia.
Qed.

Lemma Inv_adjust D g i x rest :
  Inv D ((g, i) :: rest) -> actual D i = Some x -> Inv D ((x, i) :: rest).
Proof.
  intros [? ? ? ? ? Hg ?] Hx. split; try done.
  intros g' j Hin. apply elem_of_cons in Hin as [Heq|Hin].
  - injection Heq as -> ->. eauto with lia.
  - apply Hg. by right.
Qed.

(** ** The loop *)

(** Candidates whose recorded gap is out of date. *)
Definition stale (D : list SeqnoTimePair) (pq : list Candidate) : nat :=
  length (filter (fun c => actual D (snd c) <> Some (fst c)) pq).

Lemma stale_bound D pq : (stale D pq <= length pq)%nat.
Proof. apply length_filter. Qed.

Lemma stale_perm D pq pq' : pq ≡ₚ pq' -> stale D pq = stale D pq'.
Proof. intros Hp. unfold stale. by rewrite Hp. Qed.

Lemma stale_none D pq :
  (forall g i, (g, i) ∈ pq -> actual D i = Some g) -> stale D pq = 0%nat.
Proof.
  unfold stale. induction pq as [|[g i] pq IH]; intros Hpq; [done|].
  rewrite filter_cons, decide_False; cbn [fst snd].
  - apply IH. intros. apply Hpq. by right.
  - intros Hne. apply Hne, Hpq. by left.
Qed.

(** Enough fuel: every removal is followed by at most one adjustment of each
    candidate. *)
Lemma remove_loop_greedy fuel k D pq :
  Inv D pq -> (k <= length pq)%nat ->
  (stale D pq + k * S (length D) < fuel)%nat ->
  exists D', remove_loop fuel k D pq = Some D' /\
    nsteps greedy_step k (lives D) (lives D').
Proof.
  revert k D pq. induction fuel as [|fuel IH]; intros k D pq I Hk Hf; [lia|].
  destruct k as [|k]; [exists D; split; [done|constructor]|].
  destruct pq as [|c pq]; [cbn in Hk; lia|]. cbn [remove_loop].
  destruct (pq_pop D c pq) as [[g i] rest] eqn:E.
  destruct (pq_pop_least _ _ _ _ _ E) as [Hp Hmin].
  apply (Inv_perm _ _ _ Hp) in I. rewrite (stale_perm _ _ _ Hp) in Hf.
  apply Permutation_length in Hp as Hlen. cbn in Hk, Hlen.
  destruct (inv_gap _ _ I g i) as (x & Hx & _); [by left|].
  assert (inner D i) as Hi by (apply (inv_inner _ _ I); by left).
  pose proof (actual_uint _ _ _ _ I Hi Hx) as Hu.
  assert (length rest <= length D)%nat.
  { pose proof (inv_count _ _ I) as Hc. cbn in Hc.
    pose proof (List.filter_length_le live D). lia. }
  pose proof Hx as Hx'. unfold actual in Hx'.
  destruct (first_time (drop _ D)) as [a|]; [|done].
  destruct (first_time (reverse _)) as [b|]; [|done]. cbn in Hx' |- *.
  injection Hx' as Hab. rewrite Hab, (wrap_small 64 x) by done.
  destruct (Z.eqb_spec g x) as [->|Hne].
  - destruct (IH k (alter mark_deleted i D) rest) as (D' & HD' & Hs).
    + eapply Inv_remove, I.
    + lia.
    + pose proof (stale_bound (alter mark_deleted i D) rest).
      rewrite length_alter. lia.
    + exists D'. split; [done|]. econstructor; [|exact Hs].
      eapply top_is_greedy; [exact I|done|].
      intros d Hd. apply Hmin. rewrite (proj1 (pq_pop_least _ _ _ _ _ E)). done.
  - destruct (IH (S k) D ((x, i) :: rest)) as (D' & HD' & Hs).
    + eapply Inv_adjust; [exact I|done].
    + cbn. lia.
    + revert Hf. unfold stale. rewrite !filter_cons. cbn [fst snd].
      rewrite decide_True by congruence. rewrite decide_False by naive_solver.
      cbn. lia.
    + by exists D'.
Qed.

(** ** The start of the loop *)

Lemma init_candidates_index t i q l : (init_candidates t i q l).*2 = seq i (length l).
Proof. revert t i q. induction l as [|p l IH]; intros; cbn; [done|]. by rewrite IH. Qed.

Lemma init_candidates_gap L pp prev l g j :
  Forall valid_pair (L ++ pp :: prev :: l) -> chain (L ++ pp :: prev :: l) ->
  (g, j) ∈ init_candidates (time pp) (S (length L)) prev l ->
  actual (L ++ pp :: prev :: l) j = Some g.
Proof.
  revert L pp prev. induction l as [|p l IH]; intros L pp prev Hv Hc; cbn.
  { by intros ?%elem_of_nil. }
  intros [Heq|Hin]%elem_of_cons.
  - injection Heq as -> ->.
    replace (S (length L)) with (length (L ++ [pp])) by (rewrite length_app; cbn; lia).
    rewrite cons_middle, app_assoc in Hv, Hc |- *. rewrite actual_split.
    apply Forall_app in Hv as [Hv1 [_ Hv2]%Forall_cons].
    rewrite !lives_all by done. rewrite last_snoc. cbn. f_equal. symmetry.
    apply wrap_small. apply chain_app in Hc as (Hc & _).
    assert (earlier pp p) as [_ ?] by (apply Hc; set_solver).
    rewrite Forall_forall in Hv1, Hv2.
    assert (valid_pair pp) as [_ ?] by (apply Hv1; set_solver).
    assert (valid_pair p) as [_ ?] by (apply Hv2; set_solver).
    unfold is_uint. lia.
  - replace (L ++ pp :: prev :: p :: l) with ((L ++ [pp]) ++ prev :: p :: l) in *
      by (by rewrite <- app_assoc).
    apply IH; [done|done|]. by rewrite length_app, Nat.add_1_r.
Qed.

Lemma Inv_start D :
  Forall valid_pair D -> chain D -> (2 <= length D)%nat -> Inv D (all_candidates D).
Proof.
  intros Hv Hc Hn. pose proof (lives_all D Hv) as HD.
  destruct D as [|first [|prev l]]; cbn in Hn; [lia|lia|].
  split; rewrite ?HD; try done.
  - split; [exists first|].
    { split; [done|]. apply live_valid. by inversion Hv. }
    destruct (last (first :: prev :: l)) as [p|] eqn:E; [|by apply last_None in E].
    exists p. split; [done|]. apply live_valid.
    rewrite Forall_forall in Hv. apply Hv. apply last_Some in E as [k ->]. set_solver.
  - cbn. rewrite init_candidates_index. apply NoDup_seq.
  - intros i. cbn [all_candidates]. rewrite init_candidates_index, elem_of_seq, inner_lookup.
    cbn [length]. split; [|lia]. intros Hi. split_and!; [lia|lia|].
    destruct (lookup_lt_is_Some_2 (first :: prev :: l) i) as [p Hp]; [cbn; lia|].
    exists p. split; [done|]. apply live_valid. rewrite Forall_forall in Hv.
    apply Hv. by eapply list_elem_of_lookup_2.
  - intros g i Hin. exists g. split; [|lia]. by apply (init_candidates_gap []).
  - pose proof (f_equal length (init_candidates_index (time first) 1 prev l)) as E.
    rewrite length_fmap, length_seq in E. unfold Candidate in *. cbn. lia.
Qed.

(** ** The whole operation *)

(** The number of entries [EnforceCapacity] removes from a mapping that keeps any. *)
Definition excess (strict : bool) (m : SeqnoToTimeMapping) : nat :=
  if size (pairs_ m) <=? effective_cap strict m then 0
  else Z.to_nat (size (pairs_ m) - strict_cap m).

Lemma strict_cap_bounds m :
  0 < capacity_ m < 2 ^ 64 -> 1 <= strict_cap m < 2 ^ 64 /\ (capacity_ m = 1 -> strict_cap m = 2)
  /\ (strict_cap m = 1 -> False).
Proof.
  intros. unfold strict_cap. destruct (Z.eqb_spec (capacity_ m) 1); lia.
Qed.

Lemma effective_cap_ge strict m :
  0 < capacity_ m < 2 ^ 64 -> strict_cap m <= effective_cap strict m < 2 ^ 64.
Proof.
  intros Hm. pose proof (strict_cap_bounds m Hm) as (? & _). unfold effective_cap.
  pose proof (wrap_range 64 (strict_cap m + (if strict then 0 else strict_cap m / 8)) ltac:(lia)).
  case_if; zbool; unfold UINT64_MAX, is_uint in *; lia.
Qed.

Lemma EnforceCapacity_greedy strict m :
  Forall valid_pair (pairs_ m) -> chain (pairs_ m) -> 0 < capacity_ m < 2 ^ 64 ->
  exists l, EnforceCapacity strict m = Some (set_pairs m l) /\
    nsteps greedy_step (excess strict m) (pairs_ m) l.
Proof.
  intros Hv Hc Hcap. pose proof (effective_cap_ge strict m Hcap).
  pose proof (strict_cap_bounds m Hcap) as (? & _ & ?).
  unfold EnforceCapacity, excess. rewrite (proj2 (Z.eqb_neq _ _)) by lia.
  destruct (Z.leb_spec (size (pairs_ m)) (effective_cap strict m)) as [Hle|Hgt].
  { exists (pairs_ m). split; [by destruct m|constructor]. }
  assert (3 <= length (pairs_ m))%nat by (unfold size in *; lia).
  pose proof (Inv_start _ Hv Hc ltac:(lia)) as I.
  pose proof (inv_count _ _ I) as Hn. rewrite lives_all in Hn by done.
  destruct (remove_loop_greedy
      (removal_fuel (length (pairs_ m)) (Z.to_nat (size (pairs_ m) - strict_cap m)))
      (Z.to_nat (size (pairs_ m) - strict_cap m)) (pairs_ m) (all_candidates (pairs_ m)) I)
    as (D' & -> & Hs); [unfold size in *; lia| |].
  { rewrite stale_none; [unfold removal_fuel; lia|]. intros g i.
    destruct (pairs_ m) as [|p [|q l]]; [cbn in *; lia|cbn in *; lia|].
    by apply (init_candidates_gap []). }
  rewrite lives_all in Hs by done. exists (lives D'). split; [done|exact Hs].
Qed.

(** ** The choice is unique *)

Lemma chain_position X p Y X' p' Y' :
  chain (X ++ p :: Y) -> X ++ p :: Y = X' ++ p' :: Y' -> seqno p = seqno p' ->
  X = X' /\ p = p' /\ Y = Y'.
Proof.
  revert X'. induction X as [|x X IH]; intros X' Hc Heq Hs; destruct X' as [|x' X']; cbn in *.
  - by simplify_eq.
  - injection Heq as -> ->. apply StronglySorted_inv in Hc as [_ Hc].
    rewrite Forall_forall in Hc. destruct (Hc p') as [? _]; [set_solver|lia].
  - injection Heq as -> <-. apply StronglySorted_inv in Hc as [_ Hc].
    rewrite Forall_forall in Hc. destruct (Hc p) as [? _]; [set_solver|lia].
  - injection Heq as -> Heq. apply StronglySorted_inv in Hc as [Hc _].
    destruct (IH X' Hc Heq Hs) as (-> & -> & ->). done.
Qed.

Lemma greedy_step_unique l l1 l2 : chain l -> greedy_step l l1 -> greedy_step l l2 -> l1 = l2.
Proof.
  intros Hc H1 H2. destruct H1 as [k b p a r Hmin].
  inversion H2 as [k' b' p' a' r' Hmin' Heq]; subst.
  assert (seqno p = seqno p') as Hs.
  { pose proof (Hmin _ _ _ _ _ (eq_sym Heq)). pose proof (Hmin' _ _ _ _ _ Heq). lia. }
  replace (k ++ b :: p :: a :: r) with ((k ++ [b]) ++ p :: a :: r) in *
    by (by rewrite <- app_assoc).
  replace (k' ++ b' :: p' :: a' :: r') with ((k' ++ [b']) ++ p' :: a' :: r') in *
    by (by rewrite <- app_assoc).
  destruct (chain_position _ _ _ _ _ _ Hc (eq_sym Heq) Hs) as (Hk & _ & Ha).
  apply app_inj_tail in Hk as [-> ->]. by simplify_eq.
Qed.

Lemma greedy_steps_unique k l l1 l2 :
  chain l -> nsteps greedy_step k l l1 -> nsteps greedy_step k l l2 -> l1 = l2.
Proof.
  intros Hc H1. revert l2 Hc. induction H1 as [l|k l m l1 Hs H1 IH]; intros l2 Hc H2.
  { by inversion H2. }
  inversion H2 as [|? ? m' ? Hs' H2']; subst.
  rewrite (greedy_step_unique l m' m) in H2' by done.
  apply IH; [|done]. by eapply greedy_step_chain.
Qed.

(** ** Property *)

(** C22: compacting to the capacity is the greedy algorithm. On ordered entries
    [EnforceCapacity] returns: nothing changes as long as the entries fit;
    otherwise exactly the excess over the capacity is removed, at each step the
    inner entry whose removal leaves the smallest time gap and, among those, the
    oldest one, although the queue is never updated. The result is the only one
    the greedy algorithm allows, and the first and the last entry stay. *)
Theorem capacity_is_greedy (strict : bool) (m : SeqnoToTimeMapping) :
  Forall valid_pair (pairs_ m) -> chain (pairs_ m) -> 0 < capacity_ m < 2 ^ 64 ->
  exists l, EnforceCapacity strict m = Some (set_pairs m l) /\
    (forall l', nsteps greedy_step (excess strict m) (pairs_ m) l' <-> l' = l) /\
    head l = head (pairs_ m) /\ last l = last (pairs_ m) /\
    size l = if size (pairs_ m) <=? effective_cap strict m then size (pairs_ m)
             else strict_cap m.
Proof.
  intros Hv Hc Hcap. destruct (EnforceCapacity_greedy strict m Hv Hc Hcap) as (l & HE & Hs).
  destruct (greedy_steps_frame _ _ _ Hs) as (_ & Hh & Hl & Hn & _).
  exists l. split_and!; [done| |done|done|].
  - intros l'. split; [intros Hs'; by eapply greedy_steps_unique|by intros ->].
  - revert Hn. unfold excess, size. pose proof (effective_cap_ge strict m Hcap).
    pose proof (strict_cap_bounds m Hcap).
    case_if; zbool; lia.
Qed.

Lemma capacity_is_greedy_witness :
  let m := mkMapping UINT64_MAX 3
             [mkPair 1 10; mkPair 2 20; mkPair 3 21; mkPair 4 50; mkPair 6 100] true in
  exists l, EnforceCapacity true m = Some (set_pairs m l) /\
    (forall l', nsteps greedy_step (excess true m) (pairs_ m) l' <-> l' = l) /\
    head l = head (pairs_ m) /\ last l = last (pairs_ m) /\ size l = 3.
Proof.
  intros m. apply (capacity_is_greedy true m); [|repeat constructor; done|done].
  repeat constructor.
Defined.
