(* ===== verification/SeqnoProofs.v ===== *)
(** * SeqnoProofs: what the sequence-number-to-time mapping guarantees

    Entries are samples of a history of writes. Every reachable mapping holds
    sound samples only and, in the enforced state, is ordered and within its
    limits; the queries return the best bound the samples give; forgetting old
    entries, copying a range and encoding keep the answers that matter. *)

From stdpp Require Import sorting.
From S2P Require Import Prelude.
From S2P Require Import Status.
From S2P Require Import Slice.
From S2P Require Import Coding.
From S2P Require Import DbFormat.
From S2P Require Import SeqnoToTime.
From S2P Require Import SeqnoCapacity.

(** ** Searching ordered entries *)

Abbreviation keep f := (List.filter f).

(** On a range that a test splits in two, the position of the split leads to the
    last entry that passes the test. *)
Lemma last_passing {A} (f : A -> bool) (L R : list A) :
  Forall (fun x => f x = true) L -> Forall (fun x => f x = false) R ->
  keep f (L ++ R) = L.
Proof.
  intros HL HR. rewrite List.filter_app.
  replace (keep f R) with (@nil A)
    by (induction HR as [|x R Hx _ IH]; cbn; [done|by rewrite Hx]).
  rewrite app_nil_r. induction HL as [|x L Hx _ IH]; cbn; [done|]. by rewrite Hx, IH.
Qed.

Lemma lower_bound_split s l :
  chain l ->
  exists L R, l = L ++ R /\ lower_bound SeqnoLess (mkPair s 0) l = length L /\
    Forall (fun p => (seqno p <? s) = true) L /\ Forall (fun p => (seqno p <? s) = false) R.
Proof.
  induction 1 as [|p l Hc IH Hp]; [by exists [], []|]. cbn.
  unfold SeqnoLess at 1. cbn. destruct (seqno p <? s) eqn:E.
  - destruct IH as (L & R & -> & -> & HL & HR). exists (p :: L), R.
    split_and!; [done|done|by constructor|done].
  - exists [], (p :: l). split_and!; [done|done|done|]. constructor; [done|].
    eapply Forall_impl; [exact Hp|]. intros q [? _]. cbn. zbool. apply Z.ltb_ge. lia.
Qed.

Lemma upper_bound_seqno_split s l :
  chain l ->
  exists L R, l = L ++ R /\ upper_bound SeqnoLess (mkPair s 0) l = length L /\
    Forall (fun p => seqno p <= s) L /\ Forall (fun p => s < seqno p) R.
Proof.
  induction 1 as [|p l Hc IH Hp]; [by exists [], []|]. cbn.
  unfold SeqnoLess at 1. cbn. destruct (Z.ltb_spec s (seqno p)) as [Hlt|Hge].
  - exists [], (p :: l). split_and!; [done|done|done|]. constructor; [done|].
    eapply Forall_impl; [exact Hp|]. intros q [? _]. lia.
  - destruct IH as (L & R & -> & -> & HL & HR). exists (p :: L), R.
    split_and!; [done|done|by constructor|done].
Qed.

Lemma upper_bound_time_split t l :
  chain l ->
  exists L R, l = L ++ R /\ upper_bound TimeLess (mkPair 0 t) l = length L /\
    Forall (fun p => (time p <=? t) = true) L /\ Forall (fun p => (time p <=? t) = false) R.
Proof.
  induction 1 as [|p l Hc IH Hp]; [by exists [], []|]. cbn.
  unfold TimeLess at 1. cbn. destruct (Z.ltb_spec t (time p)) as [Hlt|Hge].
  - exists [], (p :: l). split_and!; [done|done|done|].
    constructor; [apply Z.leb_gt; lia|].
    eapply Forall_impl; [exact Hp|]. intros q [_ ?]. apply Z.leb_gt. lia.
  - destruct IH as (L & R & -> & -> & HL & HR). exists (p :: L), R.
    split_and!; [done|done| |done]. constructor; [by apply Z.leb_le|done].
Qed.

Lemma entry_before_split m L R :
  pairs_ m = L ++ R -> entry_before (length L) m = last L.
Proof.
  intros Hm. unfold entry_before. destruct (length L) as [|n] eqn:E.
  { by destruct L. }
  rewrite Hm, lookup_app_l, last_lookup, E by lia. done.
Qed.

Definition older (s : Z) (p : SeqnoTimePair) : bool := seqno p <? s.
Definition by_time (t : Z) (p : SeqnoTimePair) : bool := time p <=? t.

(** The queries, on the entries that pass the test. *)
Lemma GetProximalTime_last s m :
  chain (pairs_ m) ->
  GetProximalTimeBeforeSeqno s m
  = default kUnknownTimeBeforeAll (time <$> last (keep (older s) (pairs_ m))).
Proof.
  intros Hc. destruct (lower_bound_split s _ Hc) as (L & R & Hm & HL & HfL & HfR).
  unfold GetProximalTimeBeforeSeqno, FindGreaterEqSeqno.
  rewrite HL, (entry_before_split _ _ _ Hm), Hm.
  rewrite (last_passing (older s) L R) by done. by destruct (last L).
Qed.

Lemma GetProximalSeqno_last t m :
  chain (pairs_ m) ->
  GetProximalSeqnoBeforeTime t m
  = default kUnknownSeqnoBeforeAll (seqno <$> last (keep (by_time t) (pairs_ m))).
Proof.
  intros Hc. destruct (upper_bound_time_split t _ Hc) as (L & R & Hm & HL & HfL & HfR).
  unfold GetProximalSeqnoBeforeTime, FindGreaterTime.
  rewrite HL, (entry_before_split _ _ _ Hm), Hm.
  rewrite (last_passing (by_time t) L R) by done. by destruct (last L).
Qed.

Lemma elem_of_keep {A} (f : A -> bool) l x : x ∈ keep f l <-> x ∈ l /\ f x = true.
Proof. rewrite !list_elem_of_In. apply List.filter_In. Qed.

Lemma chain_keep f l : chain l -> chain (keep f l).
Proof.
  induction 1 as [|p l Hc IH Hp]; cbn; [constructor|]. destruct (f p); [|done].
  constructor; [done|]. rewrite Forall_forall in *. intros q [? _]%elem_of_keep. auto.
Qed.

Lemma chain_last l p q : chain l -> last l = Some q -> p ∈ l -> p = q \/ earlier p q.
Proof.
  intros Hc [l' ->]%last_Some. rewrite elem_of_app, list_elem_of_singleton.
  apply chain_app in Hc as (Hc & _). intros [Hp| ->]; [right|by left].
  apply Hc; [done|]. by apply list_elem_of_singleton.
Qed.

(** ** Sorting and merging *)

Definition by_seqno (p q : SeqnoTimePair) : Prop := seqno p < seqno q.

#[global] Instance pair_le_trans : Transitive pair_le.
Proof. unfold pair_le. intros p q r ? ?. lia. Qed.

#[global] Instance pair_le_total : Total pair_le.
Proof. intros p q. unfold pair_le. lia. Qed.

#[global] Instance pair_le_antisym : AntiSymm eq pair_le.
Proof. intros [s t] [s' t'] ? ?. unfold pair_le in *. cbn in *. f_equal; lia. Qed.

(** Merging keeps one of the two pairs. *)
Lemma PairMerge_choice p q r :
  seqno p <= seqno q -> PairMerge p q = Some r -> r = p \/ r = q.
Proof.
  destruct p as [s t], q as [s' t']. unfold PairMerge. cbn. intros Hs.
  destruct (Z.eqb_spec s s') as [->|Hne]; [intros [= <-]|].
  { destruct (Z.min_spec t t') as [[_ ->]|[_ ->]]; auto. }
  destruct (Z.eqb_spec t t') as [->|Hnt]; [intros [= <-]|].
  { rewrite Z.max_r by lia. auto. }
  case_if; [intros [= <-]; auto|done].
Qed.

Lemma PairMerge_seqno p q r :
  seqno p <= seqno q -> PairMerge p q = Some r -> seqno p <= seqno r <= seqno q.
Proof.
  intros Hs Hm. destruct (PairMerge_choice p q r Hs Hm) as [-> | ->]; lia.
Qed.

Lemma PairMerge_none p q : PairMerge p q = None -> seqno p <> seqno q /\ time p < time q.
Proof.
  unfold PairMerge. repeat case_if; try done. zbool. lia.
Qed.

Lemma merge_pairs_spec to l :
  StronglySorted pair_le (to :: l) ->
  StronglySorted by_seqno (merge_pairs to l) /\
  (forall p, p ∈ merge_pairs to l -> p ∈ to :: l) /\
  (forall p, p ∈ merge_pairs to l -> seqno to <= seqno p) /\ merge_pairs to l <> [].
Proof.
  revert to. induction l as [|p l IH]; intros to Hs; cbn.
  { split_and!; [repeat constructor|set_solver| |done].
    intros p ->%list_elem_of_singleton. lia. }
  apply StronglySorted_inv in Hs as [Hs [Htp Htl]%Forall_cons].
  assert (seqno to <= seqno p) as Hle by (unfold pair_le in Htp; lia).
  destruct (PairMerge to p) as [to'|] eqn:E.
  - assert (StronglySorted pair_le (to' :: l)) as Hs'.
    { destruct (PairMerge_choice to p to' Hle E) as [-> | ->]; [|done].
      apply StronglySorted_inv in Hs as [Hs _]. by constructor. }
    destruct (IH to' Hs') as (H1 & H2 & H3 & H4).
    pose proof (PairMerge_seqno _ _ _ Hle E).
    split_and!; [done| |intros q Hq; specialize (H3 q Hq); lia|done].
    intros q Hq. destruct (PairMerge_choice to p to' Hle E) as [-> | ->]; set_solver.
  - destruct (IH p Hs) as (H1 & H2 & H3 & H4). apply PairMerge_none in E as [? _].
    split_and!; [|set_solver| |done].
    + constructor; [done|]. apply Forall_forall. intros q Hq. unfold by_seqno.
      specialize (H3 q Hq). lia.
    + intros q [->|Hq]%elem_of_cons; [lia|]. specialize (H3 q Hq). lia.
Qed.

Lemma SortAndMerge_spec m :
  StronglySorted by_seqno (pairs_ (SortAndMerge m)) /\
  (forall p, p ∈ pairs_ (SortAndMerge m) -> p ∈ pairs_ m).
Proof.
  unfold SortAndMerge. cbn.
  pose proof (StronglySorted_merge_sort pair_le (pairs_ m)) as Hs.
  pose proof (merge_sort_Permutation pair_le (pairs_ m)) as Hp.
  destruct (merge_sort pair_le (pairs_ m)) as [|p l]; [split; [constructor|set_solver]|].
  destruct (merge_pairs_spec p l Hs) as (H1 & H2 & _).
  split; [done|]. intros q Hq%H2. by rewrite <- Hp.
Qed.

(** ** Forgetting old entries *)

Lemma drop_old_cons c p q l :
  drop_old c (p :: q :: l)
  = if (time p <=? c) && (time q <=? c) then drop_old c (q :: l) else p :: q :: l.
Proof. done. Qed.

Lemma drop_old_suffix c l : exists k, drop_old c l = drop k l.
Proof.
  induction l as [|p [|q l] IH]; [by exists 0%nat|by exists 0%nat|]. rewrite drop_old_cons.
  case_if; [|by exists 0%nat]. destruct IH as [k ->]. by exists (S k).
Qed.

Lemma drop_old_last c l : last (drop_old c l) = last l.
Proof.
  induction l as [|p [|q l] IH]; [done|done|]. rewrite drop_old_cons.
  case_if; [|done]. rewrite IH. done.
Qed.

Lemma drop_old_keep c t l :
  c <= t -> last (keep (by_time t) (drop_old c l)) = last (keep (by_time t) l).
Proof.
  intros Hct. induction l as [|p [|q l] IH]; [done|done|]. rewrite drop_old_cons.
  case_if; [|done]. rewrite IH. zbool.
  assert (by_time t p = true /\ by_time t q = true) as [Hp Hq]
    by (unfold by_time; rewrite !Z.leb_le; lia).
  cbn [List.filter]. by rewrite Hp, Hq, last_cons_cons.
Qed.

Lemma drop_old_tail c l p : chain l -> p ∈ tail (drop_old c l) -> c < time p.
Proof.
  induction l as [|x [|q l] IH]; [set_solver|set_solver|]. intros Hc. rewrite drop_old_cons.
  apply StronglySorted_inv in Hc as [Hc Hx]. case_if; [by apply IH|].
  cbn. intros Hp. apply Forall_cons in Hx as [Hxq _].
  assert (c < time q) as Hq.
  { apply andb_false_iff in Heqb as [?|?]; zbool; [destruct Hxq; lia|lia]. }
  apply elem_of_cons in Hp as [->|Hp]; [done|].
  apply StronglySorted_inv in Hc as [_ Hc]. rewrite Forall_forall in Hc.
  destruct (Hc p Hp) as [_ ?]. lia.
Qed.

Lemma chain_drop k l : chain l -> chain (drop k l).
Proof. intros Hc. rewrite <- (take_drop k l) in Hc. by apply chain_app in Hc as (_ & _ & ?). Qed.

(** ** Encoding and decoding *)

Definition uint_pair (p : SeqnoTimePair) : Prop := is_uint 64 (seqno p) /\ is_uint 64 (time p).

Lemma ApplyDelta_Compute p base :
  uint_pair p -> ApplyDelta (ComputeDelta p base) base = p.
Proof.
  destruct p as [s t]. intros [Hs Ht]. unfold ApplyDelta, ComputeDelta. cbn in *.
  rewrite !wrap_add_l. f_equal; rewrite Z.sub_add; by apply wrap_small.
Qed.

Lemma uint_ComputeDelta p base : uint_pair (ComputeDelta p base).
Proof. split; by apply wrap_range. Qed.

Lemma encode_deltas_app base l dest :
  encode_deltas base l dest = dest ++ encode_deltas base l [].
Proof.
  revert base dest. induction l as [|p l IH]; intros base dest; cbn [encode_deltas].
  { by rewrite app_nil_r. }
  rewrite IH, (IH p (PairEncode _ [])), app_assoc. f_equal.
Qed.

Section Codec.
Context `{VarintReaderLaws}.

Lemma PairDecode_Encode p rest :
  uint_pair p -> PairDecode (PairEncode p [] ++ rest) = (Status_OK, p, rest).
Proof.
  intros [Hs Ht]. unfold PairDecode, PairEncode, PutVarint64Varint64. cbn.
  rewrite <- app_assoc, GetVarint64_Encode, GetVarint64_Encode by done. by destruct p.
Qed.

Lemma decode_deltas_encode l base rest acc :
  Forall uint_pair l ->
  decode_deltas (length l) base (encode_deltas base l [] ++ rest) acc
  = (Status_OK, rest, acc ++ l).
Proof.
  intros Hl. revert base acc. induction Hl as [|p l Hp Hl IH]; intros base acc;
    cbn [encode_deltas decode_deltas length].
  { by rewrite app_nil_r. }
  rewrite encode_deltas_app, <- app_assoc, PairDecode_Encode by apply uint_ComputeDelta.
  cbn. rewrite ApplyDelta_Compute by done. rewrite IH. by rewrite <- app_assoc.
Qed.

Lemma EncodeTo_nonempty m :
  Forall uint_pair (pairs_ m) -> size (pairs_ m) < 2 ^ 64 -> pairs_ m <> [] ->
  empty_slice (EncodeTo m []) = false.
Proof.
  intros _ Hsz Hne. unfold EncodeTo. destruct (pairs_ m) as [|p l] eqn:E; [done|].
  rewrite encode_deltas_app. unfold PutVarint64. cbn [app].
  destruct (EncodeVarint64_spec (size (p :: l))) as (Hwf & _).
  { unfold is_uint. pose proof (size_nonneg (p :: l)). lia. }
  by destruct (EncodeVarint64 (size (p :: l))).
Qed.

Lemma DecodeImpl_EncodeTo m acc :
  Forall uint_pair (pairs_ m) -> size (pairs_ m) < 2 ^ 64 ->
  DecodeImpl (EncodeTo m []) acc = (Status_OK, acc ++ pairs_ m).
Proof.
  intros Hu Hsz. destruct (pairs_ m) as [|p l] eqn:E.
  { unfold EncodeTo. rewrite E. cbn. by rewrite app_nil_r. }
  unfold DecodeImpl. rewrite EncodeTo_nonempty by (rewrite E; done).
  unfold EncodeTo. rewrite E, encode_deltas_app. unfold PutVarint64. cbn [app].
  rewrite GetVarint64_Encode
    by (unfold is_uint; pose proof (size_nonneg (p :: l)); lia).
  unfold size. rewrite Nat2Z.id.
  rewrite <- (app_nil_r (encode_deltas _ _ _)), decode_deltas_encode by done. done.
Qed.

Lemma decode_deltas_prefix n base input acc :
  acc `prefix_of` snd (decode_deltas n base input acc).
Proof.
  revert base input acc. induction n as [|n IH]; intros; cbn; [done|].
  destruct (PairDecode input) as [[s v] input']. case_if; [done|].
  etrans; [|apply IH]. by apply prefix_app_r.
Qed.

Lemma DecodeImpl_prefix input acc : acc `prefix_of` snd (DecodeImpl input acc).
Proof.
  unfold DecodeImpl. case_if; [done|]. destruct (GetVarint64 input) as [[n|] rest]; [|done].
  pose proof (decode_deltas_prefix (Z.to_nat n) (mkPair 0 0) rest acc) as Hp.
  destruct (decode_deltas _ _ _ _) as [[s i] l]. by repeat case_if.
Qed.

End Codec.

(** ** Reachable mappings

    [wt s] is the time at which the sequence number [s] was written. A pair is a
    sound sample of the history when it was taken at or after its sequence number
    and before the next one, as the class comment asks. *)

Section History.
Context (wt : Z -> Z).

Definition Sound (p : SeqnoTimePair) : Prop :=
  valid_pair p /\ wt (seqno p) <= time p /\ forall s, seqno p < s -> time p <= wt s.

Definition Ordered (l : list SeqnoTimePair) : Prop :=
  Forall Sound l /\ StronglySorted by_seqno l.

(** At most one entry is older than the span allows. *)
Definition within_span (m : SeqnoToTimeMapping) : Prop :=
  forall p newest, p ∈ tail (pairs_ m) -> last (pairs_ m) = Some newest ->
    max_time_span_ m <= time newest -> time newest - max_time_span_ m < time p.

Definition within_capacity (m : SeqnoToTimeMapping) : Prop :=
  capacity_ m < UINT64_MAX -> size (pairs_ m) <= effective_cap false m.

(** [lim] says that the limits have been enforced since entries were prepopulated. *)
Record Good (lim : bool) (m : SeqnoToTimeMapping) : Prop := {
  good_limits : is_uint 64 (capacity_ m) /\ is_uint 64 (max_time_span_ m);
  good_sound : Forall Sound (pairs_ m);
  good_enforced : enforced_ m = true ->
    chain (pairs_ m) /\ (lim = true -> within_span m /\ within_capacity m);
}.

Lemma Sound_valid l : Forall Sound l -> Forall valid_pair l.
Proof. intros Hl. eapply Forall_impl; [exact Hl|]. by intros p []. Qed.

Lemma Sound_uint l : Forall Sound l -> Forall uint_pair l.
Proof.
  intros Hl. eapply Forall_impl; [exact Hl|].
  intros p [[? ?] _]. unfold uint_pair, is_uint. lia.
Qed.

Lemma Sound_earlier p q : Sound p -> Sound q -> by_seqno p q -> earlier p q.
Proof. intros (_ & _ & Hp) (_ & Hq & _) Hpq. specialize (Hp _ Hpq). split; [done|lia]. Qed.

(** Sound samples that are ordered by sequence number are ordered by time. *)
Lemma Ordered_chain l : Ordered l -> chain l.
Proof.
  intros [Hl Hs]. induction Hs as [|p l Hs IH Hp]; [constructor|].
  apply Forall_cons in Hl as [Hp' Hl]. constructor; [by apply IH|].
  rewrite Forall_forall in *. intros q Hq. apply Sound_earlier; auto.
Qed.

Lemma chain_by_seqno l : chain l -> StronglySorted by_seqno l.
Proof.
  induction 1 as [|p l Hc IH Hp]; constructor; [done|].
  eapply Forall_impl; [exact Hp|]. by intros q [].
Qed.

Lemma Ordered_sub l l' :
  Ordered l -> chain l' -> (forall p, p ∈ l' -> p ∈ l) -> Ordered l'.
Proof.
  intros [Hl _] Hc Hsub. split; [|by apply chain_by_seqno].
  rewrite Forall_forall in *. auto.
Qed.

Lemma SortAndMerge_Ordered m : Forall Sound (pairs_ m) -> Ordered (pairs_ (SortAndMerge m)).
Proof.
  intros Hm. destruct (SortAndMerge_spec m) as [Hs Hsub]. split; [|done].
  rewrite Forall_forall in *. auto.
Qed.

(** The time span, measured from a time that no entry exceeds. *)
Lemma EnforceMaxTimeSpan_spec now m :
  Ordered (pairs_ m) -> is_uint 64 (max_time_span_ m) ->
  now = 0 \/ Forall (fun p => time p <= now) (pairs_ m) ->
  exists k, EnforceMaxTimeSpan now m = set_pairs m (drop k (pairs_ m)) /\
    Ordered (drop k (pairs_ m)) /\ within_span (set_pairs m (drop k (pairs_ m))).
Proof.
  intros Ho Hspan Hnow. pose proof (Ordered_chain _ Ho) as Hc.
  assert (forall k, Ordered (drop k (pairs_ m))) as Hdrop.
  { intros k. apply (Ordered_sub (pairs_ m)); [done|by apply chain_drop|].
    intros p Hp. rewrite <- (take_drop k (pairs_ m)). set_solver. }
  unfold EnforceMaxTimeSpan. destruct (Nat.leb_spec (length (pairs_ m)) 1) as [Hlen|Hlen].
  { exists 0%nat. split_and!; [by destruct m|apply Hdrop|]. unfold within_span. cbn.
    destruct (pairs_ m) as [|p [|q l]]; [set_solver|set_solver|cbn in Hlen; lia]. }
  set (reference := if now >? 0 then now else _).
  assert (forall z, last (pairs_ m) = Some z -> time z <= reference) as Href.
  { intros z Hz. subst reference. rewrite Hz. cbn. destruct Hnow as [-> |Hnow]; [cbn; lia|].
    case_if; [|lia]. rewrite Forall_forall in Hnow. apply Hnow.
    apply last_Some in Hz as [l ->]. set_solver. }
  destruct (Z.ltb_spec reference (max_time_span_ m)) as [Hlt|Hge].
  - exists 0%nat. split_and!; [by destruct m|apply Hdrop|].
    intros p z _ Hz Hsp. cbn in *. specialize (Href z Hz). lia.
  - destruct (drop_old_suffix (reference - max_time_span_ m) (pairs_ m)) as [k Hk].
    exists k. rewrite <- Hk. split_and!; [done|rewrite Hk; apply Hdrop|].
    intros p z Hp Hz Hsp. cbn in *. rewrite drop_old_last in Hz. specialize (Href z Hz).
    apply drop_old_tail in Hp; [lia|done].
Qed.

(** Compaction keeps the ends, the order and the span. *)
Lemma EnforceCapacity_spec strict m :
  Ordered (pairs_ m) -> is_uint 64 (capacity_ m) ->
  exists l, EnforceCapacity strict m = Some (set_pairs m l) /\
    Ordered l /\ (within_span m -> within_span (set_pairs m l)) /\ within_capacity (set_pairs m l).
Proof.
  intros Ho Hcap. destruct (decide (capacity_ m = 0)) as [H0|Hne].
  { exists []. unfold EnforceCapacity. rewrite H0. cbn.
    split_and!; [done|split; constructor|by intros _ p z ?%elem_of_nil|].
    unfold within_capacity, effective_cap, strict_cap. cbn. rewrite H0. done. }
  assert (0 < capacity_ m < 2 ^ 64) as Hc by (unfold is_uint in Hcap; lia).
  destruct (EnforceCapacity_greedy strict m) as (l & HE & Hsteps); [|by apply Ordered_chain|done|].
  { by apply Sound_valid, Ho. }
  destruct (greedy_steps_frame _ _ _ Hsteps) as (Hch & Hh & Hl & Hn & Ht).
  exists l. split_and!; [done| | |].
  - apply (Ordered_sub (pairs_ m)); [done|by apply Hch, Ordered_chain|].
    intros p Hp. destruct l as [|x l]; [set_solver|].
    destruct (pairs_ m) as [|y k]; [done|]. cbn in Hh, Ht. set_solver.
  - intros Hspan p z Hp Hz. cbn in *. apply Hspan; [by apply Ht|congruence].
  - intros _. cbn. pose proof (effective_cap_ge strict m Hc).
    pose proof (effective_cap_ge false m Hc). pose proof (strict_cap_bounds m Hc).
    change (effective_cap false (set_pairs m l)) with (effective_cap false m).
    revert Hn. unfold excess, size. destruct (Z.leb_spec (Z.of_nat (length (pairs_ m)))
      (effective_cap strict m)); [|lia].
    destruct strict; [|lia]. intros Hn.
    assert (effective_cap true m = strict_cap m); [|lia].
    unfold effective_cap. rewrite Z.add_0_r, wrap_small by (unfold is_uint; lia).
    by rewrite Z.ltb_irrefl.
Qed.

Lemma Good_intro lim m l :
  Good lim m -> enforced_ m = true -> Ordered l -> (lim = true -> within_span (set_pairs m l)) ->
  within_capacity (set_pairs m l) -> Good lim (set_pairs m l).
Proof.
  intros [Hlim _ _] He Ho Hs Hc. split; [done|apply Ho|]. intros _.
  split; [by apply Ordered_chain|]. intros E. split; [by apply Hs|done].
Qed.

Lemma Good_Ordered lim m : Good lim m -> enforced_ m = true -> Ordered (pairs_ m).
Proof.
  intros [_ Hs He] Hm. split; [done|]. by apply chain_by_seqno, He.
Qed.

Lemma Good_weaken lim m : Good true m -> Good lim m.
Proof. intros [Hlim Hs He]. split; [done|done|]. intros E. destruct (He E) as [? Hl]. split; [done|]. intros _. by apply Hl. Qed.

(** Enforcing both limits on sound entries that are sorted. *)
Lemma enforce_Good now strict m :
  is_uint 64 (capacity_ m) -> is_uint 64 (max_time_span_ m) ->
  Ordered (pairs_ m) -> enforced_ m = true ->
  now = 0 \/ Forall (fun p => time p <= now) (pairs_ m) ->
  exists m', EnforceCapacity strict (EnforceMaxTimeSpan now m) = Some m' /\ Good true m'.
Proof.
  intros Hcap Hspan Ho He Hnow.
  destruct (EnforceMaxTimeSpan_spec now m Ho Hspan Hnow) as (k & -> & Ho' & Hs).
  destruct (EnforceCapacity_spec strict (set_pairs m (drop k (pairs_ m))) Ho' Hcap) as (l & -> & Ho2 & Hs2 & Hc2).
  eexists. split; [done|]. split; [done|apply Ho2|]. intros _.
  split; [by apply Ordered_chain|]. intros _. split; [by apply Hs2|done].
Qed.

Lemma Sound_sorted_snoc l p q :
  StronglySorted by_seqno (l ++ [p]) -> seqno p <= seqno q ->
  StronglySorted by_seqno (l ++ [q]).
Proof.
  rewrite !StronglySorted_app. intros (Hlr & Hl & _) Hpq.
  split_and!; [|done|repeat constructor].
  intros x y Hx ->%list_elem_of_singleton. unfold by_seqno in *.
  specialize (Hlr x p Hx). rewrite list_elem_of_singleton in Hlr. specialize (Hlr eq_refl). lia.
Qed.

Lemma StronglySorted_snoc l p q :
  StronglySorted by_seqno (l ++ [p]) -> by_seqno p q ->
  StronglySorted by_seqno ((l ++ [p]) ++ [q]).
Proof.
  intros Hs Hpq. apply StronglySorted_app_2; [|done|repeat constructor].
  intros x y Hx ->%list_elem_of_singleton. apply elem_of_app in Hx as [Hx|Hx].
  - apply (StronglySorted_app_1_elem_of _ _ _ x p) in Hs; [|done|set_solver].
    unfold by_seqno in *. lia.
  - by apply list_elem_of_singleton in Hx as ->.
Qed.

(** Recording a sample in a mapping that is not empty. *)
Lemma append_entry_spec s t last_ m :
  Forall Sound (pairs_ m) -> (enforced_ m = true -> StronglySorted by_seqno (pairs_ m)) ->
  Sound (mkPair s t) -> last (pairs_ m) = Some last_ ->
  exists added l, append_entry s t last_ m = (added, set_pairs m l) /\
    Forall Sound l /\ (enforced_ m = true -> StronglySorted by_seqno l).
Proof.
  intros Hs Hsort Hp [l0 Hl]%last_Some. unfold append_entry.
  assert (Forall Sound (pairs_ m ++ [mkPair s t])) as Hs' by (apply Forall_app; auto).
  assert (exists l, (false, m) = (false, set_pairs m l) /\
            Forall Sound l /\ (enforced_ m = true -> StronglySorted by_seqno l)) as Hid
    by (exists (pairs_ m); split; [by destruct m|done]).
  destruct (Z.leb_spec (seqno last_) s) as [Hle|Hgt].
  2:{ destruct (enforced_ m) eqn:He; cbn; [by exists false|]. eexists _, _. split_and!; done. }
  destruct (PairMerge last_ (mkPair s t)) as [r|] eqn:E.
  - eexists _, _. split; [done|]. unfold set_last. rewrite Hl, removelast_last.
    rewrite Hl in Hs, Hsort. apply Forall_app in Hs as [Hs0 [Hsl _]%Forall_cons].
    split.
    + apply Forall_app. split; [done|]. constructor; [|done].
      destruct (PairMerge_choice last_ (mkPair s t) r Hle E) as [-> | ->]; done.
    + intros He. eapply Sound_sorted_snoc; [by apply Hsort|].
      apply (PairMerge_seqno last_ (mkPair s t) r Hle E).
  - case_if; [by exists false|]. eexists _, _. split_and!; [done|done|]. intros He.
    rewrite He in Heqb. cbn in Heqb. apply orb_false_iff in Heqb as [? _]. zbool.
    rewrite Hl. rewrite Hl in Hsort. by apply StronglySorted_snoc; [apply Hsort|].
Qed.

Lemma append_finish_Good added m :
  is_uint 64 (capacity_ m) -> is_uint 64 (max_time_span_ m) -> Forall Sound (pairs_ m) ->
  (enforced_ m = true -> StronglySorted by_seqno (pairs_ m)) ->
  exists m', append_finish (added, m) = Some (added, m') /\ Good true m'.
Proof.
  intros Hc Hsp Hs Hsort. unfold append_finish.
  destruct (enforce_Good 0 false (if negb (enforced_ m) then SortAndMerge m else m))
    as (m' & -> & Hm'); [..|by eauto];
    destruct (enforced_ m) eqn:E; cbn; auto.
  - split; auto.
  - by apply SortAndMerge_Ordered.
Qed.

Lemma Append_Good lim s t m :
  Good lim m -> s = 0 \/ Sound (mkPair s t) ->
  exists added m', mapping_Append s t m = Some (added, m') /\ Good (negb (capacity_ m =? 0) || lim) m'.
Proof.
  intros Hg Hsample. pose proof Hg as [[Hcap Hspan] Hs He]. unfold mapping_Append.
  assert (enforced_ m = true -> StronglySorted by_seqno (pairs_ m)) as Hsort
    by (intros E; by apply chain_by_seqno, He).
  destruct (Z.eqb_spec (capacity_ m) 0) as [|Hne]; cbn [negb orb]; [by eauto|].
  destruct (Z.eqb_spec s 0) as [->|Hs0]; [by eauto using append_finish_Good|].
  destruct Hsample as [?|Hp]; [done|].
  destruct (last (pairs_ m)) as [last_|] eqn:El.
  - destruct (append_entry_spec s t last_ m Hs Hsort Hp El) as (added & l & -> & Hl & Hsl).
    eauto using append_finish_Good.
  - eexists _, _. split; [done|]. split; cbn; [done|by constructor|]. intros _.
    split; [repeat constructor|]. intros _. split; [by intros p z ?%elem_of_nil|].
    unfold within_capacity. cbn. intros _.
    assert (0 < capacity_ m < 2 ^ 64) as Hc by (unfold is_uint in *; lia).
    pose proof (effective_cap_ge false m Hc). pose proof (strict_cap_bounds m Hc).
    change (effective_cap false _) with (effective_cap false m). unfold size. cbn. lia.
Qed.

Lemma effective_cap_nonneg strict m : 0 <= effective_cap strict m.
Proof.
  unfold effective_cap. case_if; [done|].
  apply (wrap_range 64 (strict_cap m + (if strict then 0 else strict_cap m / 8))). lia.
Qed.

Lemma unlimited m :
  is_uint 64 (capacity_ m) -> is_uint 64 (max_time_span_ m) -> limited m = false ->
  capacity_ m = UINT64_MAX /\ max_time_span_ m = UINT64_MAX.
Proof.
  unfold limited, is_uint, UINT64_MAX. intros. zbool. lia.
Qed.

(** Adding the entries of another mapping. *)
Lemma add_Good lim m l :
  Good lim m -> Ordered l ->
  let m' := set_pairs m (pairs_ m ++ l) in
  Good lim (if (0 <? length (pairs_ m))%nat || limited m then set_enforced m' false else m').
Proof.
  intros [[Hcap Hspan] Hs He] Hl. cbv zeta.
  assert (Forall Sound (pairs_ m ++ l)) as Hs' by (apply Forall_app; split; [done|apply Hl]).
  case_if; [by split|]. apply orb_false_iff in Heqb as [Hlen Hlim].
  destruct (unlimited m Hcap Hspan Hlim) as [Hc Hsp].
  split; cbn; [done|done|]. intros _. destruct (pairs_ m) as [|p k]; [|done]. cbn in *.
  split; [by apply Ordered_chain|]. intros _. split.
  - intros p z Hp Hz _. cbn in *. rewrite Hsp.
    assert (valid_pair z) as [_ ?].
    { apply Sound_valid in Hs'. rewrite Forall_forall in Hs'. apply Hs'.
      apply last_Some in Hz as [k ->]. set_solver. }
    assert (valid_pair p) as [_ ?].
    { apply Sound_valid in Hs'. rewrite Forall_forall in Hs'. apply Hs'.
      destruct l; [set_solver|]. by right. }
    unfold UINT64_MAX. lia.
  - unfold within_capacity. cbn. rewrite Hc. lia.
Qed.

Lemma Ordered_slice l i n : Ordered l -> Ordered (take n (drop i l)).
Proof.
  intros Hl. assert (l = take i l ++ (take n (drop i l) ++ drop n (drop i l))) as E
    by (by rewrite !take_drop).
  pose proof (Ordered_chain _ Hl) as Hc. rewrite E in Hc.
  apply (Ordered_sub l); [done| |intros p Hp; rewrite E; set_solver].
  by apply chain_app in Hc as (_ & _ & (_ & Hc & _)%chain_app).
Qed.

(** The entries that [PrePopulate] adds *)
Definition prepopulated (from_seqno to_seqno from_time to_time : Z) : list SeqnoTimePair :=
  pairs_ (snd (PrePopulate from_seqno to_seqno from_time to_time new_SeqnoToTimeMapping)).

Lemma PrePopulate_pairs a b c d m :
  pairs_ m = [] -> snd (PrePopulate a b c d m) = set_pairs m (prepopulated a b c d).
Proof. intros E. unfold prepopulated, PrePopulate. cbn. by rewrite E. Qed.

Lemma prepopulated_sorted a b c d : StronglySorted by_seqno (prepopulated a b c d).
Proof.
  unfold prepopulated, PrePopulate. cbn. generalize (b - a + 1). intros len.
  assert (forall (n : nat) i len, n = Z.to_nat len -> StronglySorted by_seqno
    (map (fun i => mkPair i (wrap 64 (c + wrap 64 (wrap 64 (d - c) * wrap 64 (i - a)) / wrap 64 (b - a)))) (seqZ i len))) as L.
  { induction n as [|n IH]; intros i len' Hn; [rewrite seqZ_nil by lia; constructor|].
    rewrite seqZ_cons by lia. cbn [map]. constructor; [apply IH; lia|].
    apply Forall_forall. intros p Hp. apply list_elem_of_In, in_map_iff in Hp as (j & <- & Hj).
    apply list_elem_of_In, elem_of_seqZ in Hj. unfold by_seqno. cbn. lia. }
  by eapply L.
Qed.

(** The states that calls on sound samples lead to, also with entries that are interpolated
    by [PrePopulate], which respects no limit: the flag is false from then on until a call
    enforces both limits. [Enforce] is given no time, or one that no entry exceeds;
    mappings that are copied or encoded are enforced. *)
Inductive Reaches `{VarintReader} : bool -> SeqnoToTimeMapping -> Prop :=
| reach_new : Reaches true new_SeqnoToTimeMapping
| reach_PrePopulate lim from_seqno to_seqno from_time to_time m :
    Reaches lim m -> pairs_ m = [] ->
    0 < from_seqno < to_seqno -> to_seqno < UINT64_MAX -> 0 < from_time <= to_time ->
    Forall Sound (prepopulated from_seqno to_seqno from_time to_time) ->
    Reaches false (snd (PrePopulate from_seqno to_seqno from_time to_time m))
| reach_Append lim s t added m m' :
    Reaches lim m -> s = 0 \/ Sound (mkPair s t) ->
    mapping_Append s t m = Some (added, m') -> Reaches (negb (capacity_ m =? 0) || lim) m'
| reach_AddUnenforced lim s t m :
    Reaches lim m -> s = 0 \/ Sound (mkPair s t) -> Reaches lim (AddUnenforced s t m)
| reach_Enforce lim now m m' :
    Reaches lim m -> now = 0 \/ Forall (fun p => time p <= now) (pairs_ m) ->
    Enforce now m = Some m' -> Reaches (negb (enforced_ m) || (now >? 0) || lim) m'
| reach_SetMaxTimeSpan lim span m :
    Reaches lim m -> is_uint 64 span -> Reaches lim (SetMaxTimeSpan span m)
| reach_SetCapacity lim cap m m' :
    Reaches lim m -> is_uint 64 cap -> SetCapacity cap m = Some m' -> Reaches lim m'
| reach_Clear lim m : Reaches lim m -> Reaches true (mapping_Clear m)
| reach_Copy lim lim' src from to m :
    Reaches lim' src -> enforced_ src = true -> Reaches lim m ->
    Reaches lim (CopyFromSeqnoRange src from to m)
| reach_Decode lim lim' src m :
    Reaches lim' src -> enforced_ src = true -> size (pairs_ src) < 2 ^ 64 -> Reaches lim m ->
    Reaches lim (snd (DecodeFrom (EncodeTo src []) m)).

Definition Reachable `{VarintReader} (m : SeqnoToTimeMapping) : Prop := exists lim, Reaches lim m.

Lemma AddUnenforced_Good lim s t m :
  Good lim m -> s = 0 \/ Sound (mkPair s t) -> Good lim (AddUnenforced s t m).
Proof.
  intros [Hlim Hs He] Hp. unfold AddUnenforced.
  destruct (Z.eqb_spec s 0) as [|Hne]; [done|]. destruct Hp as [?|Hp]; [done|].
  split; cbn; [done| |done]. apply Forall_app. auto.
Qed.

Lemma Enforce_Good lim now m :
  Good lim m -> now = 0 \/ Forall (fun p => time p <= now) (pairs_ m) ->
  exists m', Enforce now m = Some m' /\ Good (negb (enforced_ m) || (now >? 0) || lim) m'.
Proof.
  intros Hg Hnow. pose proof Hg as [[Hcap Hspan] Hs He]. unfold Enforce.
  destruct (enforced_ m) eqn:E; cbn [negb orb].
  - destruct (now >? 0); cbn [orb].
    + apply enforce_Good; auto. by eapply Good_Ordered.
    + destruct (EnforceCapacity_spec true m) as (l & -> & Ho & Hs' & Hc);
        [by eapply Good_Ordered|done|].
      eexists. split; [done|]. apply Good_intro; try done. intros El. by apply Hs', He.
  - apply enforce_Good; auto; [by apply SortAndMerge_Ordered|].
    destruct Hnow as [|Hnow]; [by left|right]. rewrite Forall_forall in *.
    intros p Hp%SortAndMerge_spec. auto.
Qed.

Lemma SetCapacity_Good lim cap m :
  Good lim m -> is_uint 64 cap -> exists m', SetCapacity cap m = Some m' /\ Good lim m'.
Proof.
  intros Hg Hcap. pose proof Hg as [[_ Hspan] Hs He]. unfold SetCapacity. cbn.
  destruct (enforced_ m) eqn:E; [|eexists; split; [done|by split]].
  set (m1 := mkMapping _ _ _ _).
  destruct (EnforceCapacity_spec true m1) as (l & -> & Ho & Hs' & Hc).
  { by apply (Good_Ordered lim m). } { done. }
  eexists. split; [done|]. split; [done|apply Ho|]. intros _.
  split; [by apply Ordered_chain|]. intros El. split; [|done]. apply Hs'. by apply He.
Qed.

Lemma SetMaxTimeSpan_Good lim span m :
  Good lim m -> is_uint 64 span -> Good lim (SetMaxTimeSpan span m).
Proof.
  intros Hg Hspan. pose proof Hg as [[Hcap _] Hs He]. unfold SetMaxTimeSpan. cbn.
  destruct (enforced_ m) eqn:E; [|by split].
  set (m1 := mkMapping _ _ _ _). pose proof (Good_Ordered lim m Hg E) as Ho.
  destruct (EnforceMaxTimeSpan_spec 0 m1) as (k & -> & Ho' & Hs'); [done|done|by left|].
  split; [done|apply Ho'|]. intros _. split; [by apply Ordered_chain|]. intros El. split; [done|].
  destruct (He eq_refl) as (_ & Hl). destruct (Hl El) as [_ Hc]. intros Hlt. specialize (Hc Hlt). cbn in *.
  change (effective_cap false _) with (effective_cap false m).
  unfold size in *. rewrite length_drop. lia.
Qed.

Lemma PrePopulate_Good lim a b c d m :
  Good lim m -> pairs_ m = [] -> Forall Sound (prepopulated a b c d) ->
  Good false (snd (PrePopulate a b c d m)).
Proof.
  intros [Hlim _ _] Hp Hs. rewrite PrePopulate_pairs by done. split; [done|done|]. intros _.
  split; [|done]. apply Ordered_chain. split; [done|apply prepopulated_sorted].
Qed.

Lemma Reaches_Good `{VarintReaderLaws} lim m : Reaches lim m -> Good lim m.
Proof.
  induction 1 as [|lim a b c d m ? IH ? ? ? ? ?|lim s t added m m' ? IH ? E|lim s t m ? IH ?|lim now m m' ? IH ? E
    |lim span m ? IH ?|lim cap m m' ? IH ? E|lim m ? IH|lim lim' src from to m ? IH1 ? ? IH2|lim lim' src m ? IH1 ? ? ? IH2].
  - split; [done|constructor|]. intros _.
    split; [constructor|]. intros _. split; [by intros p z ?%elem_of_nil|done].
  - by eapply PrePopulate_Good.
  - destruct (Append_Good lim s t m) as (a & m1 & E' & Hm1); [done|done|]. congruence.
  - by apply AddUnenforced_Good.
  - destruct (Enforce_Good lim now m) as (m1 & E' & Hm1); [done|done|]. congruence.
  - by apply SetMaxTimeSpan_Good.
  - destruct (SetCapacity_Good lim cap m) as (m1 & E' & Hm1); [done|done|]. congruence.
  - destruct IH as [Hl _ _]. split; [done|constructor|]. intros _.
    split; [constructor|]. intros _. split; [by intros p z ?%elem_of_nil|].
    intros _. apply effective_cap_nonneg.
  - unfold CopyFromSeqnoRange. apply add_Good; [done|]. by eapply Ordered_slice, Good_Ordered.
  - unfold DecodeFrom. rewrite DecodeImpl_EncodeTo;
      [|by eapply Sound_uint, good_sound|done].
    change (negb (ok Status_OK)) with false. cbv iota.
    pose proof (add_Good lim m (pairs_ src)) as Hadd. cbv zeta in Hadd.
    destruct (_ || _); apply Hadd; eauto using Good_Ordered.
Qed.

End History.

(** ** Copying a range *)

Lemma chain_slice l i n : chain l -> chain (take n (drop i l)).
Proof.
  intros Hc. apply (chain_drop i) in Hc. rewrite <- (take_drop n (drop i l)) in Hc.
  by apply chain_app in Hc as (_ & ? & _).
Qed.

Lemma last_app_last {A} (L M : list A) :
  last (drop (Nat.pred (length L)) L ++ M) = last (L ++ M).
Proof.
  rewrite !last_app. destruct (last M); [done|].
  destruct (last L) as [x|] eqn:E; [|by apply last_None in E as ->].
  apply last_Some in E as [L' ->]. rewrite length_app, Nat.add_1_r. cbn.
  by rewrite drop_app_length.
Qed.

Lemma keep_all {A} (f : A -> bool) l : Forall (fun x => f x = true) l -> keep f l = l.
Proof. intros Hl. rewrite <- (app_nil_r l) at 1. by apply last_passing. Qed.

Lemma keep_none {A} (f : A -> bool) l : Forall (fun x => f x = false) l -> keep f l = [].
Proof. intros Hl. by apply (last_passing f []). Qed.

(** The slice that is copied: the entries of the range and the one before it. *)
Lemma copied_slice src from to :
  chain (pairs_ src) -> from <= to ->
  exists L M R, pairs_ src = L ++ M ++ R /\
    pairs_ (CopyFromSeqnoRange src from to new_SeqnoToTimeMapping)
    = drop (Nat.pred (length L)) L ++ M /\
    Forall (fun p => seqno p < from) L /\ Forall (fun p => to < seqno p) R.
Proof.
  intros Hc Hft. destruct (lower_bound_split from _ Hc) as (L & R0 & HL & HlL & HfL & HfR).
  destruct (upper_bound_seqno_split to _ Hc) as (U & R & HU & HlU & HgU & HgR).
  assert (length L <= length U)%nat as Hlen.
  { destruct (decide (length L <= length U)%nat) as [|Hgt]; [done|exfalso].
    rewrite HL in HU. assert (L = U ++ drop (length U) L) as E.
    { rewrite <- (take_drop (length U) L) at 1. f_equal.
      rewrite <- (take_app_le L R0), HU by lia. apply take_app_length. }
    destruct (drop (length U) L) as [|x d] eqn:Ed.
    { rewrite app_nil_r in E. subst. lia. }
    rewrite E, <- app_assoc in HU. apply app_inv_head in HU. cbn in HU. subst R.
    apply Forall_inv in HgR. rewrite E in HfL. apply Forall_app in HfL as [_ HfL].
    apply Forall_inv in HfL. zbool. lia. }
  assert (exists M, U = L ++ M) as [M ->].
  { exists (drop (length L) U). rewrite <- (take_drop (length L) U) at 1. f_equal.
    rewrite <- (take_app_le U R), <- HU, HL by lia. apply take_app_length. }
  exists L, M, R. rewrite HU, <- app_assoc. split_and!; [done| | |done].
  2:{ eapply Forall_impl; [exact HfL|]. intros p Hp. cbn in Hp. by apply Z.ltb_lt. }
  unfold CopyFromSeqnoRange, FindGreaterEqSeqno, FindGreaterSeqno.
  rewrite (proj2 (Z.ltb_ge to from)) by lia. cbn. rewrite HlL, HlU, HU.
  rewrite <- app_assoc, drop_app_le by lia.
  replace (length (L ++ M) - Nat.pred (length L))%nat
    with (length (drop (Nat.pred (length L)) L ++ M))
    by (rewrite !length_app, length_drop; lia).
  by rewrite app_assoc, take_app_length.
Qed.

(** ** Properties *)

(** C20: the invariant of the mapping. In every state that calls on sound samples can
    reach, all entries are sound samples, and in the enforced state sequence numbers
    increase and times do not decrease. The limits hold in the enforced state as well (at
    most one entry is older than the time span allows, and the number of entries is within
    the relaxed capacity) unless the entries were prepopulated and no call has enforced
    both limits since: [PrePopulate] does not look at them. The samples that are appended
    or interpolated are sound ones (taken at or after their sequence number and before the
    next), and a time given to [Enforce] is none or not before that of any entry. The calls
    that compact the mapping always return. *)
Theorem mapping_invariant `{VarintReaderLaws} (wt : Z -> Z) (lim : bool) (m : SeqnoToTimeMapping) :
  Reaches wt lim m ->
  Forall (Sound wt) (pairs_ m) /\
  (enforced_ m = true -> chain (pairs_ m) /\ (lim = true -> within_span m /\ within_capacity m)) /\
  (forall s t, s = 0 \/ Sound wt (mkPair s t) -> is_Some (mapping_Append s t m)) /\
  (forall now, now = 0 \/ Forall (fun p => time p <= now) (pairs_ m) ->
     is_Some (Enforce now m)) /\
  (forall cap, is_uint 64 cap -> is_Some (SetCapacity cap m)).
Proof.
  intros Hr. pose proof (Reaches_Good wt lim m Hr) as Hm. pose proof Hm as [_ Hs He]. split_and!; [done|done| | |].
  - intros s t Hst. destruct (Append_Good wt lim s t m Hm Hst) as (a & m' & -> & _). by eexists.
  - intros now Hnow. destruct (Enforce_Good wt lim now m Hm Hnow) as (m' & -> & _). by eexists.
  - intros cap Hcap. destruct (SetCapacity_Good wt lim cap m Hm Hcap) as (m' & -> & _). by eexists.
Qed.

(** C21: the queries give the best bounds. In every enforced state that sound
    samples lead to, the time returned for a sequence number is no later than the
    time it was written at, and no entry before the sequence number has a later
    time; the sequence number returned for a time was written no later than that
    time, and no entry up to the time has a greater one. Zero means unknown. *)
Theorem proximal_queries `{VarintReaderLaws} (wt : Z -> Z) (m : SeqnoToTimeMapping)
    (s t : Z) :
  Reachable wt m -> enforced_ m = true ->
  let time' := GetProximalTimeBeforeSeqno s m in
  let seqno' := GetProximalSeqnoBeforeTime t m in
  (time' = kUnknownTimeBeforeAll \/ time' <= wt s) /\
  (forall p, p ∈ pairs_ m -> seqno p < s -> time p <= time') /\
  (seqno' = kUnknownSeqnoBeforeAll \/ wt seqno' <= t) /\
  (forall p, p ∈ pairs_ m -> time p <= t -> seqno p <= seqno').
Proof.
  intros [lim Hr] He. destruct (Reaches_Good wt lim m Hr) as [_ Hs Hg].
  destruct (Hg He) as (Hc & _). cbv zeta. rewrite Forall_forall in Hs.
  rewrite GetProximalTime_last, GetProximalSeqno_last by done.
  split_and!.
  - destruct (last _) as [p|] eqn:E; [|by left]. right. cbn.
    assert (p ∈ keep (older s) (pairs_ m)) as [Hp Hlt]%elem_of_keep
      by (apply last_Some in E as [l ->]; set_solver).
    apply Z.ltb_lt in Hlt. by apply (Hs p Hp).
  - intros p Hp Hlt. assert (p ∈ keep (older s) (pairs_ m)) as Hin
      by (apply elem_of_keep; split; [done|by apply Z.ltb_lt]).
    destruct (last _) as [q|] eqn:E; cbn;
      [|by apply last_None in E; rewrite E in Hin; apply elem_of_nil in Hin].
    destruct (chain_last _ _ _ (chain_keep _ _ Hc) E Hin) as [-> |[_ ?]]; lia.
  - destruct (last _) as [p|] eqn:E; [|by left]. right. cbn.
    assert (p ∈ keep (by_time t) (pairs_ m)) as [Hp Hle]%elem_of_keep
      by (apply last_Some in E as [l ->]; set_solver).
    apply Z.leb_le in Hle. destruct (Hs p Hp) as (_ & ? & _). lia.
  - intros p Hp Hle. assert (p ∈ keep (by_time t) (pairs_ m)) as Hin
      by (apply elem_of_keep; split; [done|by apply Z.leb_le]).
    destruct (last _) as [q|] eqn:E; cbn;
      [|by apply last_None in E; rewrite E in Hin; apply elem_of_nil in Hin].
    destruct (chain_last _ _ _ (chain_keep _ _ Hc) E Hin) as [-> |[? _]]; lia.
Qed.

(** A history in which sequence number [s] is written at time [10 s], sampled
    twice. *)
Definition demo_mapping : SeqnoToTimeMapping :=
  mkMapping UINT64_MAX UINT64_MAX [mkPair 10 105; mkPair 20 205] true.

Lemma demo_reachable : @Reaches (fun s => 10 * s) leb128_reader true demo_mapping.
Proof.
  assert (forall s t, 0 < s < 2 ^ 64 -> 0 < t < 2 ^ 64 -> 10 * s <= t <= 10 * (s + 1) ->
    Sound (fun s => 10 * s) (mkPair s t)) as Hs.
  { intros s t ? ? ?. split_and!; [done|cbn; lia|cbn; intros; lia]. }
  assert (@Reaches (fun s => 10 * s) leb128_reader true (mkMapping UINT64_MAX UINT64_MAX [mkPair 10 105] true)) as H1
    by (apply (reach_Append _ true 10 105 true new_SeqnoToTimeMapping); [constructor|right; apply Hs; lia|reflexivity]).
  apply (reach_Append _ true 20 205 true _ _ H1); [right; apply Hs; lia|reflexivity].
Qed.

(** Entries that are prepopulated go over the capacity. *)
Definition demo_prepopulated : SeqnoToTimeMapping :=
  mkMapping UINT64_MAX 1 [mkPair 1 10; mkPair 2 20; mkPair 3 30] true.

Lemma demo_prepopulated_reaches : @Reaches (fun s => 10 * s) leb128_reader false demo_prepopulated.
Proof.
  eapply (reach_PrePopulate _ true 1 3 10 30 (mkMapping UINT64_MAX 1 [] true)); try done.
  - eapply (reach_SetCapacity _ true 1); [constructor|done|reflexivity].
  - replace (prepopulated 1 3 10 30) with [mkPair 1 10; mkPair 2 20; mkPair 3 30] by reflexivity.
    repeat (apply Forall_cons; split; [split_and!; [done|cbn; lia|cbn; intros; lia]|]). by apply Forall_nil.
Qed.

Lemma prepopulate_ignores_limits :
  let m := snd (PrePopulate 1 3 10 30 (mkMapping UINT64_MAX 1 [] true)) in
  enforced_ m = true /\ size (pairs_ m) = 3 /\ effective_cap false m = 2.
Proof. by vm_compute. Qed.

Lemma mapping_invariant_witness :
  Forall (Sound (fun s => 10 * s)) (pairs_ demo_mapping) /\ within_capacity demo_mapping /\
  chain (pairs_ demo_prepopulated) /\ is_Some (mapping_Append 30 301 demo_mapping).
Proof.
  destruct (@mapping_invariant leb128_reader _ (fun s => 10 * s) true demo_mapping demo_reachable)
    as (Hs & He & Ha & _).
  destruct (@mapping_invariant leb128_reader _ (fun s => 10 * s) false demo_prepopulated demo_prepopulated_reaches)
    as (_ & Hp & _).
  split; [exact Hs|]. split; [by apply He|]. split; [by apply Hp|].
  apply Ha. right. split_and!; [done|cbn; lia|cbn; intros; lia].
Defined.

Lemma proximal_queries_witness :
  GetProximalTimeBeforeSeqno 15 demo_mapping = 105 /\ 105 <= 10 * 15 /\
  forall p, p ∈ pairs_ demo_mapping -> seqno p < 15 -> time p <= 105.
Proof.
  split; [reflexivity|]. split; [lia|].
  apply (@proximal_queries leb128_reader _ (fun s => 10 * s) demo_mapping 15 150
           (ex_intro _ true demo_reachable) eq_refl).
Defined.

(** forgetting old entries keeps the answers within the time span. On ordered
    entries, [EnforceMaxTimeSpan] leaves at most one entry at or before the cutoff
    and does not change the sequence number returned for any time from the cutoff
    on. *)
Theorem time_span_keeps_answers (now t : Z) (m : SeqnoToTimeMapping) :
  let newest := default 0 (time <$> last (pairs_ m)) in
  let cutoff := (if now >? 0 then now else newest) - max_time_span_ m in
  let m' := EnforceMaxTimeSpan now m in
  chain (pairs_ m) -> 0 <= cutoff -> cutoff <= t ->
  GetProximalSeqnoBeforeTime t m' = GetProximalSeqnoBeforeTime t m /\
  Forall (fun p => cutoff < time p) (tail (pairs_ m')) /\
  last (pairs_ m') = last (pairs_ m) /\ chain (pairs_ m').
Proof.
  cbv zeta. intros Hc Hcut Ht. unfold EnforceMaxTimeSpan.
  destruct (Nat.leb_spec (length (pairs_ m)) 1) as [Hlen|Hlen].
  { split_and!; try done. destruct (pairs_ m) as [|p [|q l]]; [done|done|cbn in Hlen; lia]. }
  rewrite (proj2 (Z.ltb_ge _ _)) by lia. set (c := _ - max_time_span_ m) in *.
  assert (chain (drop_old c (pairs_ m))) as Hc'
    by (destruct (drop_old_suffix c (pairs_ m)) as [k ->]; by apply chain_drop).
  rewrite !GetProximalSeqno_last by done. cbn. rewrite drop_old_keep by done.
  split_and!; [done| |apply drop_old_last|done].
  apply Forall_forall. intros p Hp. by apply drop_old_tail in Hp.
Qed.

Lemma time_span_keeps_answers_witness :
  let m := mkMapping 250 UINT64_MAX
             [mkPair 10 500; mkPair 20 600; mkPair 30 700; mkPair 40 900] true in
  pairs_ (EnforceMaxTimeSpan 0 m) = [mkPair 20 600; mkPair 30 700; mkPair 40 900] /\
  GetProximalSeqnoBeforeTime 650 (EnforceMaxTimeSpan 0 m) = GetProximalSeqnoBeforeTime 650 m.
Proof.
  intros m. split; [done|].
  apply (time_span_keeps_answers 0 650 m); [repeat constructor; done|done|done].
Defined.

(** encoding and decoding. Decoding the encoding of a mapping into a new one
    gives back its entries, in the enforced state; bytes that are refused leave
    the mapping they were to be added to unchanged. *)
Theorem mapping_roundtrip `{VarintReaderLaws} (m m2 : SeqnoToTimeMapping) (str : bytes) :
  Forall uint_pair (pairs_ m) -> size (pairs_ m) < 2 ^ 64 ->
  DecodeFrom (EncodeTo m []) new_SeqnoToTimeMapping
  = (Status_OK, mkMapping UINT64_MAX UINT64_MAX (pairs_ m) true) /\
  (ok (fst (DecodeFrom str m2)) = false -> snd (DecodeFrom str m2) = m2).
Proof.
  intros Hu Hsz. split.
  - unfold DecodeFrom. by rewrite DecodeImpl_EncodeTo.
  - unfold DecodeFrom. pose proof (DecodeImpl_prefix str (pairs_ m2)) as [k Hk].
    destruct (DecodeImpl str (pairs_ m2)) as [s l]. cbn [snd] in Hk. subst l.
    destruct (ok s) eqn:E; cbn [negb]; [case_if; cbn; by rewrite E|].
    intros _. cbn. rewrite take_app_length. by destruct m2.
Qed.

Lemma mapping_roundtrip_witness :
  let m := mkMapping UINT64_MAX 3 [mkPair 10 500; mkPair 20 600; mkPair 3000 650] true in
  @DecodeFrom leb128_reader (EncodeTo m []) new_SeqnoToTimeMapping
  = (Status_OK, mkMapping UINT64_MAX UINT64_MAX (pairs_ m) true) /\
  (ok (fst (@DecodeFrom leb128_reader [x01; x80] m)) = false ->
   snd (@DecodeFrom leb128_reader [x01; x80] m) = m).
Proof.
  intros m. apply (@mapping_roundtrip leb128_reader _ m m [x01; x80]); [|done].
  repeat constructor; done.
Defined.

(** a copied range answers for itself. Copying the range [from .. to] of
    ordered entries into a new mapping gives a mapping in the enforced state that
    returns, for every sequence number of the range, the time the source
    returns. *)
Theorem copy_range_answers (src : SeqnoToTimeMapping) (from to s : Z) :
  chain (pairs_ src) -> from <= s <= to ->
  let m := CopyFromSeqnoRange src from to new_SeqnoToTimeMapping in
  enforced_ m = true /\ chain (pairs_ m) /\
  GetProximalTimeBeforeSeqno s m = GetProximalTimeBeforeSeqno s src.
Proof.
  intros Hc Hs m. assert (chain (pairs_ m)) as Hc' by (subst m; by apply chain_slice).
  split_and!; [done|done|].
  assert (from <= to) as Hft by lia.
  destruct (copied_slice src from to Hc Hft) as (L & M & R & Hsrc & Hm & HL & HR).
  fold m in Hm. rewrite !GetProximalTime_last, Hsrc, Hm by done.
  rewrite !List.filter_app, (keep_none (older s) R), app_nil_r
    by (eapply Forall_impl; [exact HR|]; intros p Hp; cbn in Hp; apply Z.ltb_ge; lia).
  assert (Forall (fun p => older s p = true) L) as HL'
    by (eapply Forall_impl; [exact HL|]; intros p Hp; cbn in Hp; apply Z.ltb_lt; lia).
  rewrite (keep_all (older s) L), keep_all by (done || by apply Forall_drop).
  by rewrite last_app_last.
Qed.

Lemma copy_range_answers_witness :
  let src := mkMapping 1000 10
               [mkPair 10 500; mkPair 20 600; mkPair 30 700; mkPair 40 900] true in
  let m := CopyFromSeqnoRange src 25 35 new_SeqnoToTimeMapping in
  pairs_ m = [mkPair 20 600; mkPair 30 700] /\
  GetProximalTimeBeforeSeqno 26 m = GetProximalTimeBeforeSeqno 26 src.
Proof.
  intros src m. split; [done|].
  apply (copy_range_answers src 25 35 26); [repeat constructor; done|lia].
Defined.

(** the order in which samples are added does not matter. Sorting and merging
    two collections of the same entries gives the same ordered entries. *)
Theorem merge_order_independent (m m' : SeqnoToTimeMapping) :
  pairs_ m ≡ₚ pairs_ m' ->
  pairs_ (SortAndMerge m) = pairs_ (SortAndMerge m') /\
  StronglySorted by_seqno (pairs_ (SortAndMerge m)).
Proof.
  intros Hp. split; [|apply SortAndMerge_spec]. unfold SortAndMerge. cbn.
  replace (merge_sort pair_le (pairs_ m')) with (merge_sort pair_le (pairs_ m)); [done|].
  apply (StronglySorted_unique pair_le); [apply StronglySorted_merge_sort; apply _..|].
  by rewrite !merge_sort_Permutation.
Qed.

Lemma merge_order_independent_witness :
  let m := mkMapping 9 9 [mkPair 30 700; mkPair 10 500; mkPair 20 700] false in
  let m' := mkMapping 9 9 [mkPair 20 700; mkPair 30 700; mkPair 10 500] false in
  pairs_ (SortAndMerge m) = [mkPair 10 500; mkPair 30 700] /\
  pairs_ (SortAndMerge m) = pairs_ (SortAndMerge m').
Proof.
  intros m m'. split; [done|]. apply (merge_order_independent m m').
  unfold m, m'. cbn. solve_Permutation.
Defined.

(** a clock that goes back past the entry before the last leaves the times out
    of order. After three appends with growing sequence numbers, the third with a
    time before the first, the mapping is in the enforced state with two entries
    whose times decrease, although the search by time relies on their order. *)
Theorem clock_reset_breaks_order (s1 s2 s3 t1 t2 t3 : Z) :
  0 < s1 < s2 -> s2 < s3 -> 0 < t3 < t1 -> t1 < t2 < 2 ^ 64 ->
  exists m1 m2 m3,
    mapping_Append s1 t1 new_SeqnoToTimeMapping = Some (true, m1) /\
    mapping_Append s2 t2 m1 = Some (true, m2) /\
    mapping_Append s3 t3 m2 = Some (false, m3) /\
    enforced_ m3 = true /\ pairs_ m3 = [mkPair s1 t1; mkPair s3 t3] /\
    ~ chain (pairs_ m3).
Proof.
  intros Hs12 Hs23 Ht31 Ht12.
  exists (mkMapping UINT64_MAX UINT64_MAX [mkPair s1 t1] true),
    (mkMapping UINT64_MAX UINT64_MAX [mkPair s1 t1; mkPair s2 t2] true),
    (mkMapping UINT64_MAX UINT64_MAX [mkPair s1 t1; mkPair s3 t3] true).
  assert (forall added s t, 0 <= t < 2 ^ 64 ->
    let m := mkMapping UINT64_MAX UINT64_MAX [mkPair s1 t1; mkPair s t] true in
    append_finish (added, m) = Some (added, m)) as Hfinish.
  { intros added s t Ht m. unfold append_finish. cbn [enforced_ m negb].
    assert (EnforceMaxTimeSpan 0 m = m) as ->; [|reflexivity].
    unfold EnforceMaxTimeSpan. cbn -[UINT64_MAX]. case_if; [done|].
    rewrite (proj2 (Z.leb_gt t1 _)) by (unfold UINT64_MAX; lia). reflexivity. }
  unfold mapping_Append. cbn -[UINT64_MAX append_finish append_entry].
  rewrite !(proj2 (Z.eqb_neq _ 0)) by (unfold UINT64_MAX; lia).
  assert (append_entry s2 t2 (mkPair s1 t1) (mkMapping UINT64_MAX UINT64_MAX [mkPair s1 t1] true)
    = (true, mkMapping UINT64_MAX UINT64_MAX [mkPair s1 t1; mkPair s2 t2] true)) as ->.
  { unfold append_entry, PairMerge. cbn -[UINT64_MAX].
    repeat case_if; zbool; try done; try lia. }
  assert (append_entry s3 t3 (mkPair s2 t2)
      (mkMapping UINT64_MAX UINT64_MAX [mkPair s1 t1; mkPair s2 t2] true)
    = (false, mkMapping UINT64_MAX UINT64_MAX [mkPair s1 t1; mkPair s3 t3] true)) as ->.
  { unfold append_entry, PairMerge. cbn -[UINT64_MAX].
    repeat case_if; zbool; try done; try lia. }
  rewrite !Hfinish by lia. split_and!; try done.
  intros Hc. apply StronglySorted_inv in Hc as [_ [[_ ?] _]%Forall_cons]. cbn in *. lia.
Qed.

Lemma clock_reset_breaks_order_witness :
  exists m1 m2 m3,
    mapping_Append 10 500 new_SeqnoToTimeMapping = Some (true, m1) /\
    mapping_Append 20 600 m1 = Some (true, m2) /\
    mapping_Append 30 400 m2 = Some (false, m3) /\
    enforced_ m3 = true /\ pairs_ m3 = [mkPair 10 500; mkPair 30 400] /\
    ~ chain (pairs_ m3).
Proof. apply (clock_reset_breaks_order 10 20 30 500 600 400); lia. Defined.
