(* ===== verification/WriteBatch.v ===== *)
(** * WriteBatch: building a batch of updates

    The writing half of [db/write_batch.cc], with the helpers of
    [db/write_batch_internal.h] and [include/xiaodb/write_batch.h]. The batch is
    the record [WriteBatch] with the fields of the class; an operation maps a
    batch to its status and the batch it leaves. [WriteBatchInternal::X] is
    [Internal_X]; [X_parts] is the overload on [SliceParts], [X_ts] the overload
    with an explicit timestamp. The model is the release build: [assert] does
    nothing. *)

From S2P Require Import Prelude.
From S2P Require Import Status.
From S2P Require Import Slice.
From S2P Require Import Coding.
From S2P Require Import DbFormat.
From S2P Require Import KvChecksum.
From S2P Require Import PackedValue.

(** ** Data *)

(** [ContentFlags]. *)
Definition DEFERRED : Z := Z.shiftl 1 0.
Definition HAS_PUT : Z := Z.shiftl 1 1.
Definition HAS_DELETE : Z := Z.shiftl 1 2.
Definition HAS_SINGLE_DELETE : Z := Z.shiftl 1 3.
Definition HAS_MERGE : Z := Z.shiftl 1 4.
Definition HAS_BEGIN_PREPARE : Z := Z.shiftl 1 5.
Definition HAS_END_PREPARE : Z := Z.shiftl 1 6.
Definition HAS_COMMIT : Z := Z.shiftl 1 7.
Definition HAS_ROLLBACK : Z := Z.shiftl 1 8.
Definition HAS_DELETE_RANGE : Z := Z.shiftl 1 9.
Definition HAS_BLOB_INDEX : Z := Z.shiftl 1 10.
Definition HAS_BEGIN_UNPREPARE : Z := Z.shiftl 1 11.
Definition HAS_PUT_ENTITY : Z := Z.shiftl 1 12.
Definition HAS_TIMED_PUT : Z := Z.shiftl 1 13.

Record SavePoint : Set := mkSavePoint {
  sp_size : Z;
  sp_count : Z;
  sp_content_flags : Z;
}.

Definition SavePoint_clear : SavePoint := mkSavePoint 0 0 0.

Definition is_cleared (sp : SavePoint) : bool :=
  Z.lor (Z.lor (sp_size sp) (sp_count sp)) (sp_content_flags sp) =? 0.

(** [std::unique_ptr] members are options; the top of the savepoint stack is the
    head of the list. *)
Record WriteBatch : Type := mkWriteBatch {
  save_points_ : option (list SavePoint);
  wal_term_point_ : SavePoint;
  is_latest_persistent_state_ : bool;
  needs_in_place_update_ts_ : bool;
  has_key_with_ts_ : bool;
  content_flags_ : Z;
  max_bytes_ : Z;
  prot_info_ : option (list ProtectionInfoKVOC);
  default_cf_ts_sz_ : Z;
  track_timestamp_size_ : bool;
  cf_id_to_ts_sz_ : gmap Z Z;
  rep_ : bytes;
}.

(** Field updates. *)
Definition set_rep (b : WriteBatch) (r : bytes) : WriteBatch :=
  mkWriteBatch (save_points_ b) (wal_term_point_ b) (is_latest_persistent_state_ b)
    (needs_in_place_update_ts_ b) (has_key_with_ts_ b) (content_flags_ b)
    (max_bytes_ b) (prot_info_ b) (default_cf_ts_sz_ b) (track_timestamp_size_ b)
    (cf_id_to_ts_sz_ b) r.

Definition set_content_flags (b : WriteBatch) (f : Z) : WriteBatch :=
  mkWriteBatch (save_points_ b) (wal_term_point_ b) (is_latest_persistent_state_ b)
    (needs_in_place_update_ts_ b) (has_key_with_ts_ b) f
    (max_bytes_ b) (prot_info_ b) (default_cf_ts_sz_ b) (track_timestamp_size_ b)
    (cf_id_to_ts_sz_ b) (rep_ b).

Definition set_prot_info (b : WriteBatch) (p : option (list ProtectionInfoKVOC))
    : WriteBatch :=
  mkWriteBatch (save_points_ b) (wal_term_point_ b) (is_latest_persistent_state_ b)
    (needs_in_place_update_ts_ b) (has_key_with_ts_ b) (content_flags_ b)
    (max_bytes_ b) p (default_cf_ts_sz_ b) (track_timestamp_size_ b)
    (cf_id_to_ts_sz_ b) (rep_ b).

Definition set_save_points (b : WriteBatch) (s : option (list SavePoint)) : WriteBatch :=
  mkWriteBatch s (wal_term_point_ b) (is_latest_persistent_state_ b)
    (needs_in_place_update_ts_ b) (has_key_with_ts_ b) (content_flags_ b)
    (max_bytes_ b) (prot_info_ b) (default_cf_ts_sz_ b) (track_timestamp_size_ b)
    (cf_id_to_ts_sz_ b) (rep_ b).

Definition set_wal_term_point (b : WriteBatch) (p : SavePoint) : WriteBatch :=
  mkWriteBatch (save_points_ b) p (is_latest_persistent_state_ b)
    (needs_in_place_update_ts_ b) (has_key_with_ts_ b) (content_flags_ b)
    (max_bytes_ b) (prot_info_ b) (default_cf_ts_sz_ b) (track_timestamp_size_ b)
    (cf_id_to_ts_sz_ b) (rep_ b).

Definition set_latest_persistent (b : WriteBatch) (v : bool) : WriteBatch :=
  mkWriteBatch (save_points_ b) (wal_term_point_ b) v
    (needs_in_place_update_ts_ b) (has_key_with_ts_ b) (content_flags_ b)
    (max_bytes_ b) (prot_info_ b) (default_cf_ts_sz_ b) (track_timestamp_size_ b)
    (cf_id_to_ts_sz_ b) (rep_ b).

Definition set_ts_flags (b : WriteBatch) (needs has_key : bool) : WriteBatch :=
  mkWriteBatch (save_points_ b) (wal_term_point_ b) (is_latest_persistent_state_ b)
    needs has_key (content_flags_ b)
    (max_bytes_ b) (prot_info_ b) (default_cf_ts_sz_ b) (track_timestamp_size_ b)
    (cf_id_to_ts_sz_ b) (rep_ b).

Definition set_default_cf_ts_sz (b : WriteBatch) (sz : Z) : WriteBatch :=
  mkWriteBatch (save_points_ b) (wal_term_point_ b) (is_latest_persistent_state_ b)
    (needs_in_place_update_ts_ b) (has_key_with_ts_ b) (content_flags_ b)
    (max_bytes_ b) (prot_info_ b) sz (track_timestamp_size_ b)
    (cf_id_to_ts_sz_ b) (rep_ b).

Definition set_cf_id_to_ts_sz (b : WriteBatch) (m : gmap Z Z) : WriteBatch :=
  mkWriteBatch (save_points_ b) (wal_term_point_ b) (is_latest_persistent_state_ b)
    (needs_in_place_update_ts_ b) (has_key_with_ts_ b) (content_flags_ b)
    (max_bytes_ b) (prot_info_ b) (default_cf_ts_sz_ b) (track_timestamp_size_ b)
    m (rep_ b).

Definition SetTrackTimestampSize (b : WriteBatch) (t : bool) : WriteBatch :=
  mkWriteBatch (save_points_ b) (wal_term_point_ b) (is_latest_persistent_state_ b)
    (needs_in_place_update_ts_ b) (has_key_with_ts_ b) (content_flags_ b)
    (max_bytes_ b) (prot_info_ b) (default_cf_ts_sz_ b) t
    (cf_id_to_ts_sz_ b) (rep_ b).

Definition SetMaxBytes (b : WriteBatch) (max_bytes : Z) : WriteBatch :=
  mkWriteBatch (save_points_ b) (wal_term_point_ b) (is_latest_persistent_state_ b)
    (needs_in_place_update_ts_ b) (has_key_with_ts_ b) (content_flags_ b)
    max_bytes (prot_info_ b) (default_cf_ts_sz_ b) (track_timestamp_size_ b)
    (cf_id_to_ts_sz_ b) (rep_ b).

(** ** Header and construction *)

Definition kHeader : Z := 12.

Definition new_WriteBatch (max_bytes protection_bytes_per_key default_cf_ts_sz : Z)
    : WriteBatch :=
  mkWriteBatch None SavePoint_clear false false false 0 max_bytes
    (if negb (protection_bytes_per_key =? 0) then Some [] else None)
    default_cf_ts_sz false ∅ (resize kHeader []).

Definition WriteBatch_of_rep (rep : bytes) : WriteBatch :=
  mkWriteBatch None SavePoint_clear false false false DEFERRED 0 None 0 false ∅ rep.

(** Copy construction, and what move construction leaves in the new object: the
    members that the initialiser list does not mention get their default values. *)
Definition WriteBatch_copy (src : WriteBatch) : WriteBatch :=
  mkWriteBatch (save_points_ src) (wal_term_point_ src) false false false
    (content_flags_ src) (max_bytes_ src) (prot_info_ src) (default_cf_ts_sz_ src)
    false ∅ (rep_ src).

(** [operator=]: the old object is destroyed, unless it is the source. *)
Definition WriteBatch_assign (self : bool) (b src : WriteBatch) : WriteBatch :=
  if self then b else WriteBatch_copy src.

Definition GetDataSize (b : WriteBatch) : Z := size (rep_ b).

Definition Count (b : WriteBatch) : Z := DecodeFixed32 (zdrop 8 (rep_ b)).
Definition SetCount (b : WriteBatch) (n : Z) : WriteBatch :=
  set_rep b (poke 8 (EncodeFixed32 n) (rep_ b)).

Definition Sequence (b : WriteBatch) : Z := DecodeFixed64 (rep_ b).
Definition SetSequence (b : WriteBatch) (seq : Z) : WriteBatch :=
  set_rep b (poke 0 (EncodeFixed64 seq) (rep_ b)).

Definition GetFirstOffset (b : WriteBatch) : Z := kHeader.

Definition IsLatestPersistentState (b : WriteBatch) : bool :=
  is_latest_persistent_state_ b.
Definition SetAsLatestPersistentState (b : WriteBatch) : WriteBatch :=
  set_latest_persistent b true.

Definition SetDefaultColumnFamilyTimestampSize (b : WriteBatch) (sz : Z) : WriteBatch :=
  set_default_cf_ts_sz b sz.

Definition GetProtectionBytesPerKey (b : WriteBatch) : Z :=
  match prot_info_ b with Some _ => 8 | None => 0 end.

Definition Clear (b : WriteBatch) : WriteBatch :=
  let b := set_rep b (resize kHeader []) in
  let b := set_content_flags b 0 in
  let b := match save_points_ b with
           | Some _ => set_save_points b (Some [])
           | None => b
           end in
  let b := match prot_info_ b with
           | Some _ => set_prot_info b (Some [])
           | None => b
           end in
  let b := set_wal_term_point b SavePoint_clear in
  set_default_cf_ts_sz b 0.

Definition Release (b : WriteBatch) : bytes * WriteBatch := (rep_ b, Clear b).

Definition MarkWalTerminationPoint (b : WriteBatch) : WriteBatch :=
  set_wal_term_point b (mkSavePoint (GetDataSize b) (Count b) (content_flags_ b)).

Definition MaybeTrackTimestampSize (b : WriteBatch) (column_family_id ts_sz : Z)
    : WriteBatch :=
  if negb (track_timestamp_size_ b) then b
  else match cf_id_to_ts_sz_ b !! column_family_id with
       | None => set_cf_id_to_ts_sz b (<[column_family_id := ts_sz]> (cf_id_to_ts_sz_ b))
       | Some _ => b
       end.

(** ** [LocalSavePoint]: the scope guard of every update *)

Definition LocalSavePoint (b : WriteBatch) : SavePoint :=
  mkSavePoint (GetDataSize b) (Count b) (content_flags_ b).

(** [autovector::resize] of the protection entries. *)
Definition resize_entries (n : Z) (l : list ProtectionInfoKVOC)
    : list ProtectionInfoKVOC :=
  ztake n l ++ replicate (Z.to_nat (n - size l)) (mk_kvoc 0).

Definition commit (savepoint : SavePoint) (b : WriteBatch) : Status * WriteBatch :=
  if negb (max_bytes_ b =? 0) && (size (rep_ b) >? max_bytes_ b) then
    let b := set_rep b (resize (sp_size savepoint) (rep_ b)) in
    let b := SetCount b (sp_count savepoint) in
    let b := match prot_info_ b with
             | Some e => set_prot_info b (Some (resize_entries (sp_count savepoint) e))
             | None => b
             end in
    let b := set_content_flags b (sp_content_flags savepoint) in
    (MemoryLimit, b)
  else (Status_OK, b).

(** ** Pieces shared by the update operations *)

(** The count is incremented before the entry is written. *)
Definition increment_count (b : WriteBatch) : WriteBatch :=
  SetCount b (wrap 32 (Count b + 1)).

(** The tag, followed by the column family unless it is the default one. *)
Definition put_tag (b : WriteBatch) (column_family_id : Z) (t cf_t : ValueType)
    : WriteBatch :=
  if column_family_id =? 0 then set_rep b (rep_ b ++ [vt_byte t])
  else set_rep b (PutVarint32 (rep_ b ++ [vt_byte cf_t]) column_family_id).

Definition put_slice (b : WriteBatch) (s : Slice) : WriteBatch :=
  set_rep b (PutLengthPrefixedSlice (rep_ b) s).

Definition put_slice_parts (b : WriteBatch) (s : SliceParts) : WriteBatch :=
  set_rep b (PutLengthPrefixedSliceParts (rep_ b) s).

Definition or_flags (b : WriteBatch) (f : Z) : WriteBatch :=
  set_content_flags b (Z.lor (content_flags_ b) f).

Definition protect (b : WriteBatch) (p : ProtectionInfoKVOC) : WriteBatch :=
  match prot_info_ b with
  | Some e => set_prot_info b (Some (e ++ [p]))
  | None => b
  end.

(** ** Column families *)

(** What the batch asks of a [ColumnFamilyHandle]: its id and the timestamp size
    of its comparator, [None] when [GetComparator] is null. *)
Record ColumnFamilyHandle : Set := mkCFHandle {
  cfh_id : Z;
  cfh_ts_sz : option Z;
}.

Definition GetColumnFamilyID (column_family : option ColumnFamilyHandle) : Z :=
  match column_family with Some h => cfh_id h | None => 0 end.

Definition GetColumnFamilyIdAndTimestampSize (b : WriteBatch)
    (column_family : option ColumnFamilyHandle) : Status * Z * Z :=
  let cf_id := GetColumnFamilyID column_family in
  match column_family with
  | Some h =>
      match cfh_ts_sz h with
      | Some ts_sz =>
          if (0 =? cf_id) && negb (default_cf_ts_sz_ b =? ts_sz) then
            (InvalidArgument "Default cf timestamp size mismatch", cf_id, ts_sz)
          else (Status_OK, cf_id, ts_sz)
      | None => (Status_OK, cf_id, 0)
      end
  | None =>
      if default_cf_ts_sz_ b >? 0 then (Status_OK, cf_id, default_cf_ts_sz_ b)
      else (Status_OK, cf_id, 0)
  end.

(** A null comparator is excluded by an [assert]; it reads as size 0 here. *)
Definition CheckColumnFamilyTimestampSize (column_family : option ColumnFamilyHandle)
    (ts : Slice) : Status :=
  match column_family with
  | None => InvalidArgument "column family handle cannot be null"
  | Some h =>
      let cf_ts_sz := default 0 (cfh_ts_sz h) in
      if 0 =? cf_ts_sz then InvalidArgument "timestamp disabled"
      else if negb (cf_ts_sz =? size ts) then InvalidArgument "timestamp size mismatch"
      else Status_OK
  end.

Definition CheckSlicePartsLength (key value : SliceParts) : Status :=
  if parts_size 0 key >=? UINT32_MAX then InvalidArgument "key is too large"
  else if parts_size 0 value >=? UINT32_MAX then InvalidArgument "value is too large"
  else Status_OK.

(** [WideColumnSerialization] and [WideColumnsHelper] are used by [PutEntity]
    but are not part of the repository. *)
Definition WideColumns : Type := list (Slice * Slice).

Class WideColumnCodec := {
  SortColumns : WideColumns -> WideColumns;
  Serialize : WideColumns -> Status * bytes;
}.

Section Operations.
Context `{Hasher}.

(** The protection of one entry: the operation type is the one without column
    family, the column family is protected separately. *)
Definition entry_prot (key value : Slice) (op : ValueType) (cf : Z) : ProtectionInfoKVOC :=
  ProtectC (ProtectKVO ProtectionInfo_new key value op) cf.

Definition entry_prot_parts (key value : SliceParts) (op : ValueType) (cf : Z)
    : ProtectionInfoKVOC :=
  ProtectC (ProtectKVO_parts ProtectionInfo_new key value op) cf.

(** ** Updates: [WriteBatchInternal] *)

Definition Internal_Put (b : WriteBatch) (column_family_id : Z) (key value : Slice)
    : Status * WriteBatch :=
  if size key >? UINT32_MAX then (InvalidArgument "key is too large", b)
  else if size value >? UINT32_MAX then (InvalidArgument "value is too large", b)
  else
    let save := LocalSavePoint b in
    let b := increment_count b in
    let b := put_tag b column_family_id kTypeValue kTypeColumnFamilyValue in
    let b := put_slice b key in
    let b := put_slice b value in
    let b := or_flags b HAS_PUT in
    let b := protect b (entry_prot key value kTypeValue column_family_id) in
    commit save b.

Definition Internal_TimedPut (b : WriteBatch) (column_family_id : Z)
    (key value : Slice) (write_unix_time : Z) : Status * WriteBatch :=
  if size key >? UINT32_MAX then (InvalidArgument "key is too large", b)
  else if size value >? UINT32_MAX then (InvalidArgument "value is too large", b)
  else if UINT64_MAX =? write_unix_time then Internal_Put b column_family_id key value
  else
    let save := LocalSavePoint b in
    let b := increment_count b in
    let b := put_tag b column_family_id kTypeValuePreferredSeqno
               kTypeColumnFamilyValuePreferredSeqno in
    let packed_value := PackValueAndWriteTime value write_unix_time in
    let b := put_slice b key in
    let b := put_slice b packed_value in
    let b := or_flags b HAS_TIMED_PUT in
    let b := protect b
               (entry_prot key packed_value kTypeValuePreferredSeqno column_family_id) in
    commit save b.

Definition Internal_Put_parts (b : WriteBatch) (column_family_id : Z)
    (key value : SliceParts) : Status * WriteBatch :=
  let s := CheckSlicePartsLength key value in
  if negb (ok s) then (s, b)
  else
    let save := LocalSavePoint b in
    let b := increment_count b in
    let b := put_tag b column_family_id kTypeValue kTypeColumnFamilyValue in
    let b := put_slice_parts b key in
    let b := put_slice_parts b value in
    let b := or_flags b HAS_PUT in
    let b := protect b (entry_prot_parts key value kTypeValue column_family_id) in
    commit save b.

Definition Internal_PutEntity `{WideColumnCodec} (b : WriteBatch)
    (column_family_id : Z) (key : Slice) (columns : WideColumns) : Status * WriteBatch :=
  if size key >? UINT32_MAX then (InvalidArgument "key is too large", b)
  else
    let sorted_columns := SortColumns columns in
    let '(s, entity) := Serialize sorted_columns in
    if negb (ok s) then (s, b)
    else if size entity >? UINT32_MAX then
      (InvalidArgument "wide column entity is too large", b)
    else
      let save := LocalSavePoint b in
      let b := increment_count b in
      let b := put_tag b column_family_id kTypeWideColumnEntity
                 kTypeColumnFamilyWideColumnEntity in
      let b := put_slice b key in
      let b := put_slice b entity in
      let b := or_flags b HAS_PUT_ENTITY in
      let b := protect b (entry_prot key entity kTypeWideColumnEntity column_family_id) in
      commit save b.

Definition Internal_Delete (b : WriteBatch) (column_family_id : Z) (key : Slice)
    : Status * WriteBatch :=
  let save := LocalSavePoint b in
  let b := increment_count b in
  let b := put_tag b column_family_id kTypeDeletion kTypeColumnFamilyDeletion in
  let b := put_slice b key in
  let b := or_flags b HAS_DELETE in
  let b := protect b (entry_prot key [] kTypeDeletion column_family_id) in
  commit save b.

Definition Internal_Delete_parts (b : WriteBatch) (column_family_id : Z)
    (key : SliceParts) : Status * WriteBatch :=
  let save := LocalSavePoint b in
  let b := increment_count b in
  let b := put_tag b column_family_id kTypeDeletion kTypeColumnFamilyDeletion in
  let b := put_slice_parts b key in
  let b := or_flags b HAS_DELETE in
  let b := protect b (entry_prot_parts key [] kTypeDeletion column_family_id) in
  commit save b.

Definition Internal_SingleDelete (b : WriteBatch) (column_family_id : Z) (key : Slice)
    : Status * WriteBatch :=
  let save := LocalSavePoint b in
  let b := increment_count b in
  let b := put_tag b column_family_id kTypeSingleDeletion
             kTypeColumnFamilySingleDeletion in
  let b := put_slice b key in
  let b := or_flags b HAS_SINGLE_DELETE in
  let b := protect b (entry_prot key [] kTypeSingleDeletion column_family_id) in
  commit save b.

Definition Internal_SingleDelete_parts (b : WriteBatch) (column_family_id : Z)
    (key : SliceParts) : Status * WriteBatch :=
  let save := LocalSavePoint b in
  let b := increment_count b in
  let b := put_tag b column_family_id kTypeSingleDeletion
             kTypeColumnFamilySingleDeletion in
  let b := put_slice_parts b key in
  let b := or_flags b HAS_SINGLE_DELETE in
  let b := protect b (entry_prot_parts key [] kTypeSingleDeletion column_family_id) in
  commit save b.

Definition Internal_DeleteRange (b : WriteBatch) (column_family_id : Z)
    (begin_key end_key : Slice) : Status * WriteBatch :=
  let save := LocalSavePoint b in
  let b := increment_count b in
  let b := put_tag b column_family_id kTypeRangeDeletion
             kTypeColumnFamilyRangeDeletion in
  let b := put_slice b begin_key in
  let b := put_slice b end_key in
  let b := or_flags b HAS_DELETE_RANGE in
  let b := protect b (entry_prot begin_key end_key kTypeRangeDeletion column_family_id) in
  commit save b.

Definition Internal_DeleteRange_parts (b : WriteBatch) (column_family_id : Z)
    (begin_key end_key : SliceParts) : Status * WriteBatch :=
  let save := LocalSavePoint b in
  let b := increment_count b in
  let b := put_tag b column_family_id kTypeRangeDeletion
             kTypeColumnFamilyRangeDeletion in
  let b := put_slice_parts b begin_key in
  let b := put_slice_parts b end_key in
  let b := or_flags b HAS_DELETE_RANGE in
  let b := protect b
             (entry_prot_parts begin_key end_key kTypeRangeDeletion column_family_id) in
  commit save b.

Definition Internal_Merge (b : WriteBatch) (column_family_id : Z) (key value : Slice)
    : Status * WriteBatch :=
  if size key >? UINT32_MAX then (InvalidArgument "key is too large", b)
  else if size value >? UINT32_MAX then (InvalidArgument "value is too large", b)
  else
    let save := LocalSavePoint b in
    let b := increment_count b in
    let b := put_tag b column_family_id kTypeMerge kTypeColumnFamilyMerge in
    let b := put_slice b key in
    let b := put_slice b value in
    let b := or_flags b HAS_MERGE in
    let b := protect b (entry_prot key value kTypeMerge column_family_id) in
    commit save b.

Definition Internal_Merge_parts (b : WriteBatch) (column_family_id : Z)
    (key value : SliceParts) : Status * WriteBatch :=
  let s := CheckSlicePartsLength key value in
  if negb (ok s) then (s, b)
  else
    let save := LocalSavePoint b in
    let b := increment_count b in
    let b := put_tag b column_family_id kTypeMerge kTypeColumnFamilyMerge in
    let b := put_slice_parts b key in
    let b := put_slice_parts b value in
    let b := or_flags b HAS_MERGE in
    let b := protect b (entry_prot_parts key value kTypeMerge column_family_id) in
    commit save b.

Definition Internal_PutBlobIndex (b : WriteBatch) (column_family_id : Z)
    (key value : Slice) : Status * WriteBatch :=
  let save := LocalSavePoint b in
  let b := increment_count b in
  let b := put_tag b column_family_id kTypeBlobIndex kTypeColumnFamilyBlobIndex in
  let b := put_slice b key in
  let b := put_slice b value in
  let b := or_flags b HAS_BLOB_INDEX in
  let b := protect b (entry_prot key value kTypeBlobIndex column_family_id) in
  commit save b.

(** ** Updates: the public methods *)

(** The common tail of the methods that track timestamp sizes. *)
Definition track_if_ok (r : Status * WriteBatch) (cf_id ts_sz : Z)
    : Status * WriteBatch :=
  let '(s, b) := r in
  if ok s then (s, MaybeTrackTimestampSize b cf_id ts_sz) else (s, b).

(** [needs_in_place_update_ts_ = true; has_key_with_ts_ = true]. *)
Definition mark_dummy_ts (b : WriteBatch) : WriteBatch := set_ts_flags b true true.

(** [has_key_with_ts_ = true]. *)
Definition mark_has_ts (b : WriteBatch) : WriteBatch :=
  set_ts_flags b (needs_in_place_update_ts_ b) true.

Definition dummy_ts (ts_sz : Z) : Slice := replicate (Z.to_nat ts_sz) x00.

Definition ts_enabled_error : Status :=
  InvalidArgument "Cannot call this method on column family enabling timestamp".

Definition Put (b : WriteBatch) (column_family : option ColumnFamilyHandle)
    (key value : Slice) : Status * WriteBatch :=
  let '(s, cf_id, ts_sz) := GetColumnFamilyIdAndTimestampSize b column_family in
  if negb (ok s) then (s, b)
  else
    track_if_ok
      (if 0 =? ts_sz then Internal_Put b cf_id key value
       else Internal_Put_parts (mark_dummy_ts b) cf_id [key; dummy_ts ts_sz] [value])
      cf_id ts_sz.

Definition TimedPut (b : WriteBatch) (column_family : option ColumnFamilyHandle)
    (key value : Slice) (write_unix_time : Z) : Status * WriteBatch :=
  let '(s, cf_id, ts_sz) := GetColumnFamilyIdAndTimestampSize b column_family in
  if negb (ok s) then (s, b)
  else if negb (ts_sz =? 0) then
    (NotSupported "TimedPut is not supported in combination with user-defined timestamps.", b)
  else Internal_TimedPut b cf_id key value write_unix_time.

Definition Put_ts (b : WriteBatch) (column_family : option ColumnFamilyHandle)
    (key ts value : Slice) : Status * WriteBatch :=
  let s := CheckColumnFamilyTimestampSize column_family ts in
  if negb (ok s) then (s, b)
  else
    let cf_id := GetColumnFamilyID column_family in
    track_if_ok (Internal_Put_parts (mark_has_ts b) cf_id [key; ts] [value])
      cf_id (size ts).

Definition Put_parts (b : WriteBatch) (column_family : option ColumnFamilyHandle)
    (key value : SliceParts) : Status * WriteBatch :=
  let '(s, cf_id, ts_sz) := GetColumnFamilyIdAndTimestampSize b column_family in
  if negb (ok s) then (s, b)
  else if ts_sz =? 0 then track_if_ok (Internal_Put_parts b cf_id key value) cf_id ts_sz
  else (ts_enabled_error, b).

Definition PutEntity `{WideColumnCodec} (b : WriteBatch)
    (column_family : option ColumnFamilyHandle) (key : Slice) (columns : WideColumns)
    : Status * WriteBatch :=
  match column_family with
  | None =>
      (InvalidArgument "Cannot call this method without a column family handle", b)
  | Some _ =>
      let '(s, cf_id, ts_sz) := GetColumnFamilyIdAndTimestampSize b column_family in
      if negb (ok s) then (s, b)
      else if negb (ts_sz =? 0) then (ts_enabled_error, b)
      else Internal_PutEntity b cf_id key columns
  end.

(** The loop over the attribute groups; entries written before a failing group
    stay in the batch. *)
Fixpoint PutEntity_loop `{WideColumnCodec} (b : WriteBatch) (key : Slice)
    (groups : list (option ColumnFamilyHandle * WideColumns)) (s : Status)
    : Status * WriteBatch :=
  match groups with
  | [] => (s, b)
  | (cf, columns) :: groups =>
      let '(s, b) := PutEntity b cf key columns in
      if negb (ok s) then (s, b) else PutEntity_loop b key groups s
  end.

Definition PutEntity_groups `{WideColumnCodec} (b : WriteBatch) (key : Slice)
    (groups : list (option ColumnFamilyHandle * WideColumns)) : Status * WriteBatch :=
  match groups with
  | [] => (InvalidArgument "Cannot call this method with empty attribute groups", b)
  | _ => PutEntity_loop b key groups Status_OK
  end.

Definition Delete (b : WriteBatch) (column_family : option ColumnFamilyHandle)
    (key : Slice) : Status * WriteBatch :=
  let '(s, cf_id, ts_sz) := GetColumnFamilyIdAndTimestampSize b column_family in
  if negb (ok s) then (s, b)
  else
    track_if_ok
      (if 0 =? ts_sz then Internal_Delete b cf_id key
       else Internal_Delete_parts (mark_dummy_ts b) cf_id [key; dummy_ts ts_sz])
      cf_id ts_sz.

Definition Delete_ts (b : WriteBatch) (column_family : option ColumnFamilyHandle)
    (key ts : Slice) : Status * WriteBatch :=
  let s := CheckColumnFamilyTimestampSize column_family ts in
  if negb (ok s) then (s, b)
  else
    let cf_id := GetColumnFamilyID column_family in
    track_if_ok (Internal_Delete_parts (mark_has_ts b) cf_id [key; ts]) cf_id (size ts).

Definition Delete_parts (b : WriteBatch) (column_family : option ColumnFamilyHandle)
    (key : SliceParts) : Status * WriteBatch :=
  let '(s, cf_id, ts_sz) := GetColumnFamilyIdAndTimestampSize b column_family in
  if negb (ok s) then (s, b)
  else if 0 =? ts_sz then track_if_ok (Internal_Delete_parts b cf_id key) cf_id ts_sz
  else (ts_enabled_error, b).

Definition SingleDelete (b : WriteBatch) (column_family : option ColumnFamilyHandle)
    (key : Slice) : Status * WriteBatch :=
  let '(s, cf_id, ts_sz) := GetColumnFamilyIdAndTimestampSize b column_family in
  if negb (ok s) then (s, b)
  else
    track_if_ok
      (if 0 =? ts_sz then Internal_SingleDelete b cf_id key
       else Internal_SingleDelete_parts (mark_dummy_ts b) cf_id [key; dummy_ts ts_sz])
      cf_id ts_sz.

Definition SingleDelete_ts (b : WriteBatch) (column_family : option ColumnFamilyHandle)
    (key ts : Slice) : Status * WriteBatch :=
  let s := CheckColumnFamilyTimestampSize column_family ts in
  if negb (ok s) then (s, b)
  else
    let cf_id := GetColumnFamilyID column_family in
    track_if_ok (Internal_SingleDelete_parts (mark_has_ts b) cf_id [key; ts])
      cf_id (size ts).

Definition SingleDelete_parts (b : WriteBatch)
    (column_family : option ColumnFamilyHandle) (key : SliceParts)
    : Status * WriteBatch :=
  let '(s, cf_id, ts_sz) := GetColumnFamilyIdAndTimestampSize b column_family in
  if negb (ok s) then (s, b)
  else if 0 =? ts_sz then
    track_if_ok (Internal_SingleDelete_parts b cf_id key) cf_id ts_sz
  else (ts_enabled_error, b).

Definition DeleteRange (b : WriteBatch) (column_family : option ColumnFamilyHandle)
    (begin_key end_key : Slice) : Status * WriteBatch :=
  let '(s, cf_id, ts_sz) := GetColumnFamilyIdAndTimestampSize b column_family in
  if negb (ok s) then (s, b)
  else
    track_if_ok
      (if 0 =? ts_sz then Internal_DeleteRange b cf_id begin_key end_key
       else Internal_DeleteRange_parts (mark_dummy_ts b) cf_id
              [begin_key; dummy_ts ts_sz] [end_key; dummy_ts ts_sz])
      cf_id ts_sz.

Definition DeleteRange_ts (b : WriteBatch) (column_family : option ColumnFamilyHandle)
    (begin_key end_key ts : Slice) : Status * WriteBatch :=
  let s := CheckColumnFamilyTimestampSize column_family ts in
  if negb (ok s) then (s, b)
  else
    let cf_id := GetColumnFamilyID column_family in
    track_if_ok
      (Internal_DeleteRange_parts (mark_has_ts b) cf_id [begin_key; ts] [end_key; ts])
      cf_id (size ts).

Definition DeleteRange_parts (b : WriteBatch) (column_family : option ColumnFamilyHandle)
    (begin_key end_key : SliceParts) : Status * WriteBatch :=
  let '(s, cf_id, ts_sz) := GetColumnFamilyIdAndTimestampSize b column_family in
  if negb (ok s) then (s, b)
  else if 0 =? ts_sz then
    track_if_ok (Internal_DeleteRange_parts b cf_id begin_key end_key) cf_id ts_sz
  else (ts_enabled_error, b).

Definition Merge (b : WriteBatch) (column_family : option ColumnFamilyHandle)
    (key value : Slice) : Status * WriteBatch :=
  let '(s, cf_id, ts_sz) := GetColumnFamilyIdAndTimestampSize b column_family in
  if negb (ok s) then (s, b)
  else
    track_if_ok
      (if 0 =? ts_sz then Internal_Merge b cf_id key value
       else Internal_Merge_parts (mark_dummy_ts b) cf_id [key; dummy_ts ts_sz] [value])
      cf_id ts_sz.

Definition Merge_ts (b : WriteBatch) (column_family : option ColumnFamilyHandle)
    (key ts value : Slice) : Status * WriteBatch :=
  let s := CheckColumnFamilyTimestampSize column_family ts in
  if negb (ok s) then (s, b)
  else
    let cf_id := GetColumnFamilyID column_family in
    track_if_ok (Internal_Merge_parts (mark_has_ts b) cf_id [key; ts] [value])
      cf_id (size ts).

Definition Merge_parts (b : WriteBatch) (column_family : option ColumnFamilyHandle)
    (key value : SliceParts) : Status * WriteBatch :=
  let '(s, cf_id, ts_sz) := GetColumnFamilyIdAndTimestampSize b column_family in
  if negb (ok s) then (s, b)
  else if 0 =? ts_sz then track_if_ok (Internal_Merge_parts b cf_id key value) cf_id ts_sz
  else (ts_enabled_error, b).

End Operations.

(** ** Markers and log data: entries outside the count *)

Definition PutLogData (b : WriteBatch) (blob : Slice) : Status * WriteBatch :=
  let save := LocalSavePoint b in
  let b := set_rep b (rep_ b ++ [vt_byte kTypeLogData]) in
  let b := put_slice b blob in
  commit save b.

Definition InsertNoop (b : WriteBatch) : Status * WriteBatch :=
  (Status_OK, set_rep b (rep_ b ++ [vt_byte kTypeNoop])).

Definition GetBeginPrepareType (write_after_commit unprepared_batch : bool) : ValueType :=
  if write_after_commit then kTypeBeginPrepareXID
  else if unprepared_batch then kTypeBeginUnprepareXID
  else kTypeBeginPersistedPrepareXID.

Definition InsertBeginPrepare (b : WriteBatch)
    (write_after_commit unprepared_batch : bool) : Status * WriteBatch :=
  let b := set_rep b
    (rep_ b ++ [vt_byte (GetBeginPrepareType write_after_commit unprepared_batch)]) in
  (Status_OK, or_flags b HAS_BEGIN_PREPARE).

Definition InsertEndPrepare (b : WriteBatch) (xid : Slice) : Status * WriteBatch :=
  let b := set_rep b (rep_ b ++ [vt_byte kTypeEndPrepareXID]) in
  let b := put_slice b xid in
  (Status_OK, or_flags b HAS_END_PREPARE).

(** The no-op at the start of the batch becomes the begin marker. *)
Definition MarkEndPrepare (b : WriteBatch) (xid : Slice)
    (write_after_commit unprepared_batch : bool) : Status * WriteBatch :=
  let b := match save_points_ b with
           | Some _ => set_save_points b (Some [])
           | None => b
           end in
  let b := set_rep b
    (poke 12 [vt_byte (GetBeginPrepareType write_after_commit unprepared_batch)]
       (rep_ b)) in
  let b := or_flags b HAS_BEGIN_PREPARE in
  let b := if unprepared_batch then or_flags b HAS_BEGIN_UNPREPARE else b in
  InsertEndPrepare b xid.

Definition MarkCommit (b : WriteBatch) (xid : Slice) : Status * WriteBatch :=
  let b := set_rep b (rep_ b ++ [vt_byte kTypeCommitXID]) in
  let b := put_slice b xid in
  (Status_OK, or_flags b HAS_COMMIT).

Definition MarkCommitWithTimestamp (b : WriteBatch) (xid commit_ts : Slice)
    : Status * WriteBatch :=
  let b := set_rep b (rep_ b ++ [vt_byte kTypeCommitXIDAndTimestamp]) in
  let b := put_slice b commit_ts in
  let b := put_slice b xid in
  (Status_OK, or_flags b HAS_COMMIT).

Definition MarkRollback (b : WriteBatch) (xid : Slice) : Status * WriteBatch :=
  let b := set_rep b (rep_ b ++ [vt_byte kTypeRollbackXID]) in
  let b := put_slice b xid in
  (Status_OK, or_flags b HAS_ROLLBACK).

(** ** Savepoints *)

Definition SetSavePoint (b : WriteBatch) : WriteBatch :=
  let stack := default [] (save_points_ b) in
  set_save_points b
    (Some (mkSavePoint (GetDataSize b) (Count b) (content_flags_ b) :: stack)).

Definition RollbackToSavePoint (b : WriteBatch) : Status * WriteBatch :=
  match save_points_ b with
  | None | Some [] => (Status_NotFound, b)
  | Some (savepoint :: stack) =>
      let b := set_save_points b (Some stack) in
      if sp_size savepoint =? size (rep_ b) then (Status_OK, b)
      else if sp_size savepoint =? 0 then (Status_OK, Clear b)
      else
        let b := set_rep b (resize (sp_size savepoint) (rep_ b)) in
        let b := match prot_info_ b with
                 | Some e => set_prot_info b (Some (resize_entries (sp_count savepoint) e))
                 | None => b
                 end in
        let b := SetCount b (sp_count savepoint) in
        let b := set_content_flags b (sp_content_flags savepoint) in
        (Status_OK, b)
  end.

Definition PopSavePoint (b : WriteBatch) : Status * WriteBatch :=
  match save_points_ b with
  | None | Some [] => (Status_NotFound, b)
  | Some (_ :: stack) => (Status_OK, set_save_points b (Some stack))
  end.

(** ** Whole-batch operations *)

Definition SetContents (b : WriteBatch) (contents : Slice) : Status * WriteBatch :=
  (Status_OK, set_content_flags (set_rep b contents) DEFERRED).

(** [src_count] is an [int]; it only takes part in additions modulo [2 ^ 32] and
    in the iterator range of the copied protection entries. *)
Definition Append (dst src : WriteBatch) (wal_only : bool) : Status * WriteBatch :=
  let bad b := match prot_info_ b with
               | Some e => negb (size e =? Count b)
               | None => false
               end in
  if bad src || bad dst then
    (Corruption "Write batch has inconsistent count and number of checksums" "", dst)
  else
    let batch_end := wal_term_point_ src in
    let '(src_len, src_count, src_flags) :=
      if wal_only && negb (is_cleared batch_end) then
        (sp_size batch_end - kHeader, sp_count batch_end, sp_content_flags batch_end)
      else (size (rep_ src) - kHeader, Count src, content_flags_ src) in
    let dst :=
      match prot_info_ src with
      | Some e => set_prot_info dst
                    (Some (default [] (prot_info_ dst) ++ ztake src_count e))
      | None => set_prot_info dst None
      end in
    let dst := SetCount dst (wrap 32 (Count dst + src_count)) in
    let dst := set_rep dst (rep_ dst ++ ztake src_len (zdrop kHeader (rep_ src))) in
    (Status_OK, or_flags dst src_flags).

Definition AppendedByteSize (leftByteSize rightByteSize : Z) : Z :=
  if (leftByteSize =? 0) || (rightByteSize =? 0)
  then wrap 64 (leftByteSize + rightByteSize)
  else wrap 64 (leftByteSize + rightByteSize - kHeader).
