(* ===== verification/WriteBatchRead.v ===== *)
(** * WriteBatchRead: reading a batch back

    The reading half of [db/write_batch.cc]: [ReadRecordFromWriteBatch], the
    [WriteBatch::Handler] interface, [Iterate], the handlers
    [BatchContentClassifier] and [ProtectionInfoUpdater], the [Has...]
    predicates, [VerifyChecksum] and [UpdateProtectionInfo]. *)

From S2P Require Import Prelude.
From S2P Require Import Status.
From S2P Require Import Slice.
From S2P Require Import Coding.
From S2P Require Import DbFormat.
From S2P Require Import KvChecksum.
From S2P Require Import PackedValue.
From S2P Require Import WriteBatch.

(** ** Reading one record *)

(** The output parameters of [ReadRecordFromWriteBatch]. A field keeps its old
    value when the record does not carry it. *)
Record RecordOut : Set := mkRecordOut {
  r_tag : Z;
  r_column_family : Z;
  r_key : Slice;
  r_value : Slice;
  r_blob : Slice;
  r_xid : Slice;
  r_write_unix_time : Z;
}.

Definition empty_out : RecordOut := mkRecordOut 0 0 [] [] [] [] 0.

Definition set_tag (r : RecordOut) (t : Z) : RecordOut :=
  mkRecordOut t (r_column_family r) (r_key r) (r_value r) (r_blob r) (r_xid r)
    (r_write_unix_time r).
Definition set_cf (r : RecordOut) (cf : Z) : RecordOut :=
  mkRecordOut (r_tag r) cf (r_key r) (r_value r) (r_blob r) (r_xid r)
    (r_write_unix_time r).
Definition set_key (r : RecordOut) (k : Slice) : RecordOut :=
  mkRecordOut (r_tag r) (r_column_family r) k (r_value r) (r_blob r) (r_xid r)
    (r_write_unix_time r).
Definition set_value (r : RecordOut) (v : Slice) : RecordOut :=
  mkRecordOut (r_tag r) (r_column_family r) (r_key r) v (r_blob r) (r_xid r)
    (r_write_unix_time r).
Definition set_blob (r : RecordOut) (v : Slice) : RecordOut :=
  mkRecordOut (r_tag r) (r_column_family r) (r_key r) (r_value r) v (r_xid r)
    (r_write_unix_time r).
Definition set_xid (r : RecordOut) (v : Slice) : RecordOut :=
  mkRecordOut (r_tag r) (r_column_family r) (r_key r) (r_value r) (r_blob r) v
    (r_write_unix_time r).
Definition set_time (r : RecordOut) (t : Z) : RecordOut :=
  mkRecordOut (r_tag r) (r_column_family r) (r_key r) (r_value r) (r_blob r) (r_xid r) t.

(** [std::to_string(static_cast<unsigned int>(tag))] of a [char]. *)
Definition tag_to_string (tag : Z) : string := pretty (wrap 32 (swrap 8 tag)).

(** A step of the parse: the status the function returns, the remaining input and the
    output parameters; [None] where an assertion of the code fails. *)
Definition Parse : Type := Slice -> RecordOut -> option (Status * Slice * RecordOut).

Definition unknown_tag (tag : Z) : Status :=
  Corruption "unknown WriteBatch tag" (tag_to_string tag).

Section Reading.
Context `{VarintReader}.

Definition done_ok : Parse := fun input r => Some (Status_OK, input, r).

(** [if (!GetVarint32(input, column_family)) return Corruption(err)]. *)
Definition read_cf (err : string) (k : Parse) : Parse := fun input r =>
  match GetVarint32 input with
  | (Some cf, input) => k input (set_cf r cf)
  | (None, input) => Some (Corruption err "", input, r)
  end.

(** [if (!GetLengthPrefixedSlice(input, field)) return Corruption(err)]. *)
Definition read_field (set : RecordOut -> Slice -> RecordOut) (err : string) (k : Parse)
    : Parse := fun input r =>
  match GetLengthPrefixedSlice input with
  | (Some s, input) => k input (set r s)
  | (None, input) => Some (Corruption err "", input, r)
  end.

Definition read_key_value (err : string) : Parse :=
  read_field set_key err (read_field set_value err done_ok).

(** The packed value of a timed put is split only when the caller asks for the
    write time, which asserts that it has one. *)
Definition read_packed (want_time : bool) (err : string) : Parse := fun input r =>
  match GetLengthPrefixedSlice input with
  | (Some packed, input) =>
      if want_time then
        '(v, t) ← ParsePackedValueWithWriteTime packed;
        Some (Status_OK, input, set_time (set_value r v) t)
      else Some (Status_OK, input, set_value r packed)
  | (None, input) => Some (Corruption err "", input, r)
  end.

Definition read_body (want_time : bool) (t : ValueType) : Parse :=
  match t with
  | kTypeColumnFamilyValue =>
      read_cf "bad WriteBatch Put" (read_key_value "bad WriteBatch Put")
  | kTypeValue => read_key_value "bad WriteBatch Put"
  | kTypeColumnFamilyDeletion | kTypeColumnFamilySingleDeletion =>
      read_cf "bad WriteBatch Delete"
        (read_field set_key "bad WriteBatch Delete" done_ok)
  | kTypeDeletion | kTypeSingleDeletion =>
      read_field set_key "bad WriteBatch Delete" done_ok
  | kTypeColumnFamilyRangeDeletion =>
      read_cf "bad WriteBatch DeleteRange" (read_key_value "bad WriteBatch DeleteRange")
  | kTypeRangeDeletion => read_key_value "bad WriteBatch DeleteRange"
  | kTypeColumnFamilyMerge =>
      read_cf "bad WriteBatch Merge" (read_key_value "bad WriteBatch Merge")
  | kTypeMerge => read_key_value "bad WriteBatch Merge"
  | kTypeColumnFamilyBlobIndex =>
      read_cf "bad WriteBatch BlobIndex" (read_key_value "bad WriteBatch BlobIndex")
  | kTypeBlobIndex => read_key_value "bad WriteBatch BlobIndex"
  | kTypeLogData => read_field set_blob "bad WriteBatch Blob" done_ok
  | kTypeNoop | kTypeBeginPrepareXID | kTypeBeginPersistedPrepareXID
  | kTypeBeginUnprepareXID => done_ok
  | kTypeEndPrepareXID => read_field set_xid "bad EndPrepare XID" done_ok
  | kTypeCommitXIDAndTimestamp =>
      read_field set_key "bad commit timestamp"
        (read_field set_xid "bad Commit XID" done_ok)
  | kTypeCommitXID => read_field set_xid "bad Commit XID" done_ok
  | kTypeRollbackXID => read_field set_xid "bad Rollback XID" done_ok
  | kTypeColumnFamilyWideColumnEntity =>
      read_cf "bad WriteBatch PutEntity" (read_key_value "bad WriteBatch PutEntity")
  | kTypeWideColumnEntity => read_key_value "bad WriteBatch PutEntity"
  | kTypeColumnFamilyValuePreferredSeqno =>
      read_cf "bad WriteBatch TimedPut"
        (read_field set_key "bad WriteBatch TimedPut"
           (read_packed want_time "bad WriteBatch TimedPut"))
  | kTypeValuePreferredSeqno =>
      read_field set_key "bad WriteBatch TimedPut"
        (read_packed want_time "bad WriteBatch TimedPut")
  | kTypeDeletionWithTimestamp | kTypeMaxValid | kMaxValue =>
      fun input r => Some (unknown_tag (vt_val t), input, r)
  end.

(** The input is not empty: the callers test it. *)
Definition ReadRecordFromWriteBatch (want_time : bool) : Parse := fun input r =>
  let tag := byte_to_Z (default x00 (head input)) in
  let input := remove_prefix 1 input in
  let r := set_cf (set_tag r tag) 0 in
  match vt_of tag with
  | Some t => read_body want_time t input r
  | None => Some (unknown_tag tag, input, r)
  end.

Definition ReadKeyFromWriteBatchEntry (input : Slice) (cf_record : bool)
    : option Slice * Slice :=
  let input := remove_prefix 1 input in
  if cf_record then
    match GetVarint32 input with
    | (Some _, input) => GetLengthPrefixedSlice input
    | (None, input) => (None, input)
    end
  else GetLengthPrefixedSlice input.

End Reading.

(** ** Handlers *)

Inductive OptionState : Set := kUnknown | kDisabled | kEnabled.

#[global] Instance OptionState_eq_dec : EqDecision OptionState.
Proof. solve_decision. Defined.

(** The virtual methods of [WriteBatch::Handler] over a handler state [S]. *)
Record Handler (S : Type) : Type := mkHandler {
  PutCF : Z -> Slice -> Slice -> S -> Status * S;
  TimedPutCF : Z -> Slice -> Slice -> Z -> S -> Status * S;
  PutEntityCF : Z -> Slice -> Slice -> S -> Status * S;
  DeleteCF : Z -> Slice -> S -> Status * S;
  SingleDeleteCF : Z -> Slice -> S -> Status * S;
  DeleteRangeCF : Z -> Slice -> Slice -> S -> Status * S;
  MergeCF : Z -> Slice -> Slice -> S -> Status * S;
  PutBlobIndexCF : Z -> Slice -> Slice -> S -> Status * S;
  LogData : Slice -> S -> S;
  MarkBeginPrepareH : bool -> S -> Status * S;
  MarkEndPrepareH : Slice -> S -> Status * S;
  MarkNoopH : bool -> S -> Status * S;
  MarkRollbackH : Slice -> S -> Status * S;
  MarkCommitH : Slice -> S -> Status * S;
  MarkCommitWithTimestampH : Slice -> Slice -> S -> Status * S;
  Continue : S -> bool * S;
  WriteAfterCommit : S -> OptionState;
  WriteBeforePrepare : S -> OptionState;
}.

Arguments PutCF {S}. Arguments TimedPutCF {S}. Arguments PutEntityCF {S}.
Arguments DeleteCF {S}. Arguments SingleDeleteCF {S}. Arguments DeleteRangeCF {S}.
Arguments MergeCF {S}. Arguments PutBlobIndexCF {S}. Arguments LogData {S}.
Arguments MarkBeginPrepareH {S}. Arguments MarkEndPrepareH {S}.
Arguments MarkNoopH {S}. Arguments MarkRollbackH {S}. Arguments MarkCommitH {S}.
Arguments MarkCommitWithTimestampH {S}. Arguments Continue {S}.
Arguments WriteAfterCommit {S}. Arguments WriteBeforePrepare {S}.

(** The methods of the base class, on a handler that keeps no state for them:
    default column family updates are accepted and ignored. *)
Definition base_handler (S : Type) : Handler S := {|
  PutCF cf _ _ s :=
    (if cf =? 0 then Status_OK
     else InvalidArgument "non-default column family and PutCF not implemented", s);
  TimedPutCF _ _ _ _ s := (InvalidArgument "TimedPutCF not implemented", s);
  PutEntityCF _ _ _ s := (NotSupported "PutEntityCF not implemented", s);
  DeleteCF cf _ s :=
    (if cf =? 0 then Status_OK
     else InvalidArgument "non-default column family and DeleteCF not implemented", s);
  SingleDeleteCF cf _ s :=
    (if cf =? 0 then Status_OK
     else InvalidArgument
            "non-default column family and SingleDeleteCF not implemented", s);
  DeleteRangeCF _ _ _ s := (InvalidArgument "DeleteRangeCF not implemented", s);
  MergeCF cf _ _ s :=
    (if cf =? 0 then Status_OK
     else InvalidArgument "non-default column family and MergeCF not implemented", s);
  PutBlobIndexCF _ _ _ s := (InvalidArgument "PutBlobIndexCF not implemented", s);
  LogData _ s := s;
  MarkBeginPrepareH _ s := (InvalidArgument "MarkBeginPrepare() handler not defined.", s);
  MarkEndPrepareH _ s := (InvalidArgument "MarkEndPrepare() handler not defined.", s);
  MarkNoopH _ s := (InvalidArgument "MarkNoop() handler not defined.", s);
  MarkRollbackH _ s :=
    (InvalidArgument "MarkRollbackPrepare() handler not defined.", s);
  MarkCommitH _ s := (InvalidArgument "MarkCommit() handler not defined.", s);
  MarkCommitWithTimestampH _ _ s :=
    (InvalidArgument "MarkCommitWithTimestamp() handler not defined.", s);
  Continue s := (true, s);
  WriteAfterCommit _ := kUnknown;
  WriteBeforePrepare _ := kUnknown;
|}.

(** ** Dispatch: the [switch] of [Iterate] *)

Definition msg_committed_disabled : string :=
  "WriteCommitted txn tag when write_after_commit_ is disabled (in WritePrepared/WriteUnprepared mode). If it is not due to corruption, the WAL must be emptied before changing the WritePolicy.".
Definition msg_committed_before_prepare : string :=
  "WriteCommitted txn tag when write_before_prepare_ is enabled (in WriteUnprepared mode). If it is not due to corruption, the WAL must be emptied before changing the WritePolicy.".
Definition msg_prepared_enabled : string :=
  "WritePrepared/WriteUnprepared txn tag when write_after_commit_ is enabled (in default WriteCommitted mode). If it is not due to corruption, the WAL must be emptied before changing the WritePolicy.".
Definition msg_unprepared_enabled : string :=
  "WriteUnprepared txn tag when write_after_commit_ is enabled (in default WriteCommitted mode). If it is not due to corruption, the WAL must be emptied before changing the WritePolicy.".
Definition msg_unprepared_disabled : string :=
  "WriteUnprepared txn tag when write_before_prepare_ is disabled (in WriteCommitted/WritePrepared mode). If it is not due to corruption, the WAL must be emptied before changing the WritePolicy.".

Section Iterating.
Context {S : Type} (hd : Handler S).

(** Result of one dispatch: the status, the handler state, [empty_batch] and
    [found]. *)
Definition Dispatched : Type := Status * S * bool * Z.

(** An update: on success the batch is not empty and [found] goes up. *)
Definition counted (r : Status * S) (empty_batch : bool) (found : Z) : Dispatched :=
  let '(s, h) := r in
  if ok s then (s, h, false, wrap 32 (found + 1)) else (s, h, empty_batch, found).

(** A marker that leaves [empty_batch] at a fixed value. *)
Definition marker (r : Status * S) (empty_batch : bool) (found : Z) : Dispatched :=
  let '(s, h) := r in (s, h, empty_batch, found).

(** [if (state == bad) s = NotSupported(m)]. *)
Definition policy_check (s : Status) (state bad : OptionState) (m : string) : Status :=
  if bool_decide (state = bad) then NotSupported m else s.

(** [None] is the early return of the [default] label. *)
Definition dispatch (r : RecordOut) (h : S) (empty_batch : bool) (found : Z)
    : option Dispatched :=
  let cf := r_column_family r in
  match vt_of (r_tag r) with
  | Some (kTypeColumnFamilyValue | kTypeValue) =>
      Some (counted (PutCF hd cf (r_key r) (r_value r) h) empty_batch found)
  | Some (kTypeColumnFamilyDeletion | kTypeDeletion) =>
      Some (counted (DeleteCF hd cf (r_key r) h) empty_batch found)
  | Some (kTypeColumnFamilySingleDeletion | kTypeSingleDeletion) =>
      Some (counted (SingleDeleteCF hd cf (r_key r) h) empty_batch found)
  | Some (kTypeColumnFamilyRangeDeletion | kTypeRangeDeletion) =>
      Some (counted (DeleteRangeCF hd cf (r_key r) (r_value r) h) empty_batch found)
  | Some (kTypeColumnFamilyMerge | kTypeMerge) =>
      Some (counted (MergeCF hd cf (r_key r) (r_value r) h) empty_batch found)
  | Some (kTypeColumnFamilyBlobIndex | kTypeBlobIndex) =>
      let '(s, h) := PutBlobIndexCF hd cf (r_key r) (r_value r) h in
      Some (s, h, empty_batch, if ok s then wrap 32 (found + 1) else found)
  | Some kTypeLogData => Some (Status_OK, LogData hd (r_blob r) h, false, found)
  | Some kTypeBeginPrepareXID =>
      let '(s, h) := MarkBeginPrepareH hd false h in
      let s := policy_check s (WriteAfterCommit hd h) kDisabled msg_committed_disabled in
      let s := policy_check s (WriteBeforePrepare hd h) kEnabled
                 msg_committed_before_prepare in
      Some (s, h, false, found)
  | Some kTypeBeginPersistedPrepareXID =>
      let '(s, h) := MarkBeginPrepareH hd false h in
      let s := policy_check s (WriteAfterCommit hd h) kEnabled msg_prepared_enabled in
      Some (s, h, false, found)
  | Some kTypeBeginUnprepareXID =>
      let '(s, h) := MarkBeginPrepareH hd true h in
      let s := policy_check s (WriteAfterCommit hd h) kEnabled msg_unprepared_enabled in
      let s := policy_check s (WriteBeforePrepare hd h) kDisabled
                 msg_unprepared_disabled in
      Some (s, h, false, found)
  | Some kTypeEndPrepareXID => Some (marker (MarkEndPrepareH hd (r_xid r) h) true found)
  | Some kTypeCommitXID => Some (marker (MarkCommitH hd (r_xid r) h) true found)
  | Some kTypeCommitXIDAndTimestamp =>
      let '(s, h) := MarkCommitWithTimestampH hd (r_xid r) (r_key r) h in
      Some (s, h, if ok s then true else empty_batch, found)
  | Some kTypeRollbackXID => Some (marker (MarkRollbackH hd (r_xid r) h) true found)
  | Some kTypeNoop => Some (marker (MarkNoopH hd empty_batch h) true found)
  | Some (kTypeWideColumnEntity | kTypeColumnFamilyWideColumnEntity) =>
      Some (counted (PutEntityCF hd cf (r_key r) (r_value r) h) empty_batch found)
  | Some (kTypeValuePreferredSeqno | kTypeColumnFamilyValuePreferredSeqno) =>
      Some (counted (TimedPutCF hd cf (r_key r) (r_value r) (r_write_unix_time r) h)
              empty_batch found)
  | Some (kTypeDeletionWithTimestamp | kTypeMaxValid | kMaxValue) | None => None
  end.

Context `{VarintReader}.

Definition msg_two_try_again : string :=
  "two consecutive TryAgain in WriteBatch handler; this is either a software bug or data corruption.".

(** The statements after the loop. *)
Definition iterate_end (b : WriteBatch) (whole_batch handler_continue : bool)
    (s : Status) (found : Z) : Status :=
  if negb (ok s) then s
  else if handler_continue && whole_batch && negb (found =? Count b) then
    Corruption "WriteBatch has wrong count" ""
  else Status_OK.

(** The loop; [None] when the fuel runs out or an assertion fails. *)
Fixpoint iterate_loop (fuel : nat) (b : WriteBatch) (whole_batch : bool)
    (input : Slice) (r : RecordOut) (h : S) (empty_batch : bool) (found : Z)
    (s : Status) (last_was_try_again : bool) : option (Status * S) :=
  match fuel with
  | O => None
  | Datatypes.S fuel =>
      if (ok s && negb (empty_slice input)) || IsTryAgain s then
        let '(handler_continue, h) := Continue hd h in
        if negb handler_continue then
          Some (iterate_end b whole_batch false s found, h)
        else
          if negb (IsTryAgain s) then
            '(s, input, r) ←
              ReadRecordFromWriteBatch true input (set_cf (set_tag r 0) 0);
            if negb (ok s) then Some (s, h)
            else match dispatch r h empty_batch found with
                 | None => Some (unknown_tag (r_tag r), h)
                 | Some (s, h, empty_batch, found) =>
                     iterate_loop fuel b whole_batch input r h empty_batch found s false
                 end
          else
            if last_was_try_again then Some (Corruption msg_two_try_again "", h)
            else match dispatch r h empty_batch found with
                 | None => Some (unknown_tag (r_tag r), h)
                 | Some (s, h, empty_batch, found) =>
                     iterate_loop fuel b whole_batch input r h empty_batch found s true
                 end
      else Some (iterate_end b whole_batch true s found, h)
  end.

(** Two iterations per byte and a final test are enough fuel: see
    [iterate_terminates]. *)
Definition Internal_Iterate (b : WriteBatch) (h : S) (begin_ end_ : Z)
    : option (Status * S) :=
  if (begin_ >? size (rep_ b)) || (end_ >? size (rep_ b)) || (end_ <? begin_) then
    Some (Corruption "Invalid start/end bounds for Iterate" "", h)
  else
    let input := ztake (end_ - begin_) (zdrop begin_ (rep_ b)) in
    let whole_batch := (begin_ =? kHeader) && (end_ =? size (rep_ b)) in
    iterate_loop (2 * length input + 2) b whole_batch input empty_out h true 0
      Status_OK false.

Definition Iterate (b : WriteBatch) (h : S) : option (Status * S) :=
  if size (rep_ b) <? kHeader then
    Some (Corruption "malformed WriteBatch (too small)" "", h)
  else Internal_Iterate b h kHeader (size (rep_ b)).

End Iterating.

(** ** [BatchContentClassifier] *)

(** The state is [content_flags]; [MarkNoop] is not overridden. *)
Definition classifier : Handler Z :=
  let add f s := (Status_OK, Z.lor s f) in
  let base := base_handler Z in {|
  PutCF _ _ _ s := add HAS_PUT s;
  TimedPutCF _ _ _ _ s := add HAS_TIMED_PUT s;
  PutEntityCF _ _ _ s := add HAS_PUT_ENTITY s;
  DeleteCF _ _ s := add HAS_DELETE s;
  SingleDeleteCF _ _ s := add HAS_SINGLE_DELETE s;
  DeleteRangeCF _ _ _ s := add HAS_DELETE_RANGE s;
  MergeCF _ _ _ s := add HAS_MERGE s;
  PutBlobIndexCF _ _ _ s := add HAS_BLOB_INDEX s;
  LogData := LogData base;
  MarkBeginPrepareH unprepare s :=
    let s := Z.lor s HAS_BEGIN_PREPARE in
    (Status_OK, if unprepare : bool then Z.lor s HAS_BEGIN_UNPREPARE else s);
  MarkEndPrepareH _ s := add HAS_END_PREPARE s;
  MarkNoopH := MarkNoopH base;
  MarkRollbackH _ s := add HAS_ROLLBACK s;
  MarkCommitH _ s := add HAS_COMMIT s;
  MarkCommitWithTimestampH _ _ s := add HAS_COMMIT s;
  Continue := Continue base;
  WriteAfterCommit := WriteAfterCommit base;
  WriteBeforePrepare := WriteBeforePrepare base;
|}.

Section Queries.
Context `{VarintReader}.

(** The computed flags are cached in the batch. The status of the iteration is
    ignored. *)
Definition ComputeContentFlags (b : WriteBatch) : option (Z * WriteBatch) :=
  let rv := content_flags_ b in
  if negb (Z.land rv DEFERRED =? 0) then
    '(_, rv) ← Iterate classifier b 0; Some (rv, set_content_flags b rv)
  else Some (rv, b).

Definition has_flag (f : Z) (b : WriteBatch) : option bool :=
  '(rv, _) ← ComputeContentFlags b; Some (negb (Z.land rv f =? 0)).

Definition HasPut := has_flag HAS_PUT.
Definition HasTimedPut := has_flag HAS_TIMED_PUT.
Definition HasPutEntity := has_flag HAS_PUT_ENTITY.
Definition HasDelete := has_flag HAS_DELETE.
Definition HasSingleDelete := has_flag HAS_SINGLE_DELETE.
Definition HasDeleteRange := has_flag HAS_DELETE_RANGE.
Definition HasMerge := has_flag HAS_MERGE.
Definition HasBeginPrepare := has_flag HAS_BEGIN_PREPARE.
Definition HasEndPrepare := has_flag HAS_END_PREPARE.
Definition HasCommit := has_flag HAS_COMMIT.
Definition HasRollback := has_flag HAS_ROLLBACK.

End Queries.

(** ** Protection information of a whole batch *)

Section Protection.
Context `{Hasher}.

(** [ProtectionInfoUpdater]: the state is the list of entries. *)
Definition prot_updater : Handler (list ProtectionInfoKVOC) :=
  let upd cf k v t s := (Status_OK, s ++ [entry_prot k v t cf]) in
  let upd_parts cf k v t s := (Status_OK, s ++ [entry_prot_parts [k] v t cf]) in
  let skip s := (Status_OK, s) in
  let base := base_handler (list ProtectionInfoKVOC) in {|
  PutCF cf k v s := upd cf k v kTypeValue s;
  TimedPutCF cf k v t s :=
    upd_parts cf k [v; EncodeFixed64 t] kTypeValuePreferredSeqno s;
  PutEntityCF cf k e s := upd cf k e kTypeWideColumnEntity s;
  DeleteCF cf k s := upd cf k [] kTypeDeletion s;
  SingleDeleteCF cf k s := upd cf k [] kTypeSingleDeletion s;
  DeleteRangeCF cf k e s := upd cf k e kTypeRangeDeletion s;
  MergeCF cf k v s := upd cf k v kTypeMerge s;
  PutBlobIndexCF cf k v s := upd cf k v kTypeBlobIndex s;
  LogData := LogData base;
  MarkBeginPrepareH _ s := skip s;
  MarkEndPrepareH _ s := skip s;
  MarkNoopH _ s := skip s;
  MarkRollbackH _ s := skip s;
  MarkCommitH _ s := skip s;
  MarkCommitWithTimestampH _ _ s := skip s;
  Continue := Continue base;
  WriteAfterCommit := WriteAfterCommit base;
  WriteBeforePrepare := WriteBeforePrepare base;
|}.

Context `{VarintReader}.

(** The operation type without column family that an entry is protected with;
    [None] is the [default] label, [Some None] an unprotected record. *)
Definition checksum_op (tag : Z) : option (option ValueType) :=
  match vt_of tag with
  | Some (kTypeColumnFamilyValue | kTypeValue) => Some (Some kTypeValue)
  | Some (kTypeColumnFamilyDeletion | kTypeDeletion) => Some (Some kTypeDeletion)
  | Some (kTypeColumnFamilySingleDeletion | kTypeSingleDeletion) =>
      Some (Some kTypeSingleDeletion)
  | Some (kTypeColumnFamilyRangeDeletion | kTypeRangeDeletion) =>
      Some (Some kTypeRangeDeletion)
  | Some (kTypeColumnFamilyMerge | kTypeMerge) => Some (Some kTypeMerge)
  | Some (kTypeColumnFamilyBlobIndex | kTypeBlobIndex) => Some (Some kTypeBlobIndex)
  | Some (kTypeLogData | kTypeBeginPrepareXID | kTypeEndPrepareXID | kTypeCommitXID
         | kTypeRollbackXID | kTypeNoop | kTypeBeginPersistedPrepareXID
         | kTypeBeginUnprepareXID | kTypeDeletionWithTimestamp
         | kTypeCommitXIDAndTimestamp) => Some None
  | Some (kTypeColumnFamilyWideColumnEntity | kTypeWideColumnEntity) =>
      Some (Some kTypeWideColumnEntity)
  | Some (kTypeColumnFamilyValuePreferredSeqno | kTypeValuePreferredSeqno) =>
      Some (Some kTypeValuePreferredSeqno)
  | Some (kTypeMaxValid | kMaxValue) | None => None
  end.

(** The loop of [VerifyChecksum]; [entries] are the entries from
    [prot_info_idx] on. Each iteration consumes at least a byte. *)
Fixpoint verify_loop (fuel : nat) (b : WriteBatch) (input : Slice) (r : RecordOut)
    (entries : list ProtectionInfoKVOC) (prot_info_idx : Z) : option Status :=
  match fuel with
  | O => None
  | Datatypes.S fuel =>
      match entries with
      | entry :: entries' =>
          if empty_slice input then
            Some (if negb (prot_info_idx =? Count b)
                  then Corruption "WriteBatch has wrong count" "" else Status_OK)
          else
            let r := set_cf (set_value (set_key r []) []) 0 in
            '(s, input, r) ← ReadRecordFromWriteBatch false input r;
            if negb (ok s) then Some s
            else match checksum_op (r_tag r) with
                 | None => Some (unknown_tag (r_tag r))
                 | Some None => verify_loop fuel b input r entries prot_info_idx
                 | Some (Some op) =>
                     let s := GetStatus
                       (StripKVO (StripC entry (r_column_family r))
                          (r_key r) (r_value r) op) in
                     if negb (ok s) then Some s
                     else verify_loop fuel b input r entries' (prot_info_idx + 1)
                 end
      | [] =>
          Some (if negb (prot_info_idx =? Count b)
                then Corruption "WriteBatch has wrong count" "" else Status_OK)
      end
  end.

Definition VerifyChecksum (b : WriteBatch) : option Status :=
  match prot_info_ b with
  | None => Some Status_OK
  | Some entries =>
      let input := zdrop kHeader (rep_ b) in
      verify_loop (length input + 1) b input empty_out entries 0
  end.

(** [XXH3_64bits] of the vendored [util/xxhash.h] is the argument [content_hash]. *)
Definition UpdateProtectionInfo (content_hash : bytes -> Z) (b : WriteBatch)
    (bytes_per_key : Z) (checksum : option Z) : option (Status * WriteBatch) :=
  if bytes_per_key =? 0 then Some (Status_OK, set_prot_info b None)
  else if bytes_per_key =? 8 then
    match prot_info_ b with
    | None =>
        '(s, entries) ← Iterate prot_updater b [];
        let b := set_prot_info b (Some entries) in
        match checksum with
        | Some c =>
            if ok s && negb (content_hash (rep_ b) =? c) then
              Some (Corruption "Write batch content corrupted." "", b)
            else Some (s, b)
        | None => Some (s, b)
        end
    | Some _ => Some (Status_OK, b)
    end
  else Some (NotSupported "WriteBatch protection info must be zero or eight bytes/key", b).

End Protection.
