(* ===== verification/WriteBatchSpec.v ===== *)
(** * WriteBatchSpec: what a write batch means

    The abstract view of a batch, a sequence of operations with a sequence
    number and a stack of savepoints, the byte format of the sequence, and the
    relation [Repr] between a [WriteBatch] and its abstract batch. The format is
    the one the comment at the head of [db/write_batch.cc] documents. *)

From S2P Require Import Prelude.
From S2P Require Import Status.
From S2P Require Import Slice.
From S2P Require Import Coding.
From S2P Require Import DbFormat.
From S2P Require Import KvChecksum.
From S2P Require Import PackedValue.
From S2P Require Import WriteBatch.
From S2P Require Import WriteBatchRead.

(** ** Operations and their encoding *)

Inductive Op : Set :=
| OpPut (cf : Z) (key value : Slice)
| OpTimedPut (cf : Z) (key value : Slice) (write_unix_time : Z)
| OpPutEntity (cf : Z) (key entity : Slice)
| OpDelete (cf : Z) (key : Slice)
| OpSingleDelete (cf : Z) (key : Slice)
| OpDeleteRange (cf : Z) (begin_key end_key : Slice)
| OpMerge (cf : Z) (key value : Slice)
| OpPutBlobIndex (cf : Z) (key value : Slice)
| OpLogData (blob : Slice)
| OpNoop
| OpBeginPrepare (kind : ValueType)
| OpEndPrepare (xid : Slice)
| OpCommit (xid : Slice)
| OpCommitTs (xid ts : Slice)
| OpRollback (xid : Slice).

(** The part of an operation that a [switch] on the tag selects. *)
Inductive Shape : Set :=
| Update (cf : Z) (t cf_t : ValueType) (fields : list Slice)
| Marker (t : ValueType) (fields : list Slice).

Definition shape (op : Op) : Shape :=
  match op with
  | OpPut cf k v => Update cf kTypeValue kTypeColumnFamilyValue [k; v]
  | OpTimedPut cf k v t =>
      Update cf kTypeValuePreferredSeqno kTypeColumnFamilyValuePreferredSeqno
        [k; PackValueAndWriteTime v t]
  | OpPutEntity cf k e =>
      Update cf kTypeWideColumnEntity kTypeColumnFamilyWideColumnEntity [k; e]
  | OpDelete cf k => Update cf kTypeDeletion kTypeColumnFamilyDeletion [k]
  | OpSingleDelete cf k =>
      Update cf kTypeSingleDeletion kTypeColumnFamilySingleDeletion [k]
  | OpDeleteRange cf b e =>
      Update cf kTypeRangeDeletion kTypeColumnFamilyRangeDeletion [b; e]
  | OpMerge cf k v => Update cf kTypeMerge kTypeColumnFamilyMerge [k; v]
  | OpPutBlobIndex cf k v => Update cf kTypeBlobIndex kTypeColumnFamilyBlobIndex [k; v]
  | OpLogData d => Marker kTypeLogData [d]
  | OpNoop => Marker kTypeNoop []
  | OpBeginPrepare kind => Marker kind []
  | OpEndPrepare xid => Marker kTypeEndPrepareXID [xid]
  | OpCommit xid => Marker kTypeCommitXID [xid]
  | OpCommitTs xid ts => Marker kTypeCommitXIDAndTimestamp [ts; xid]
  | OpRollback xid => Marker kTypeRollbackXID [xid]
  end.

Definition encode_slice (s : Slice) : bytes := EncodeVarint32 (wrap 32 (size s)) ++ s.

Definition encode_fields (l : list Slice) : bytes :=
  foldr (fun s acc => encode_slice s ++ acc) [] l.

Definition encode_tag (cf : Z) (t cf_t : ValueType) : bytes :=
  if cf =? 0 then [vt_byte t] else vt_byte cf_t :: EncodeVarint32 cf.

Definition encode_op (op : Op) : bytes :=
  match shape op with
  | Update cf t cf_t l => encode_tag cf t cf_t ++ encode_fields l
  | Marker t l => vt_byte t :: encode_fields l
  end.

Definition encode_ops (ops : list Op) : bytes :=
  foldr (fun op acc => encode_op op ++ acc) [] ops.

(** Updates take part in the count and carry protection information. *)
Definition is_update (op : Op) : bool :=
  match shape op with Update _ _ _ _ => true | Marker _ _ => false end.

Definition num_updates (ops : list Op) : Z := size (List.filter is_update ops).

Definition is_begin_type (t : ValueType) : bool :=
  match t with
  | kTypeBeginPrepareXID | kTypeBeginPersistedPrepareXID | kTypeBeginUnprepareXID => true
  | _ => false
  end.

(** What the format can represent: 32-bit column family ids and lengths, 64-bit
    times, and a begin marker of one of the three kinds. *)
Definition wf_op (op : Op) : bool :=
  match shape op with
  | Update cf _ _ l =>
      bool_decide (is_uint 32 cf) && forallb (fun s => size s <? 2 ^ 32) l
  | Marker _ l => forallb (fun s => size s <? 2 ^ 32) l
  end
  && match op with
     | OpTimedPut _ _ _ t => bool_decide (is_uint 64 t)
     | OpBeginPrepare kind => is_begin_type kind
     | _ => true
     end.

(** The content flag of an operation. *)
Definition flag_of (op : Op) : Z :=
  match op with
  | OpPut _ _ _ => HAS_PUT
  | OpTimedPut _ _ _ _ => HAS_TIMED_PUT
  | OpPutEntity _ _ _ => HAS_PUT_ENTITY
  | OpDelete _ _ => HAS_DELETE
  | OpSingleDelete _ _ => HAS_SINGLE_DELETE
  | OpDeleteRange _ _ _ => HAS_DELETE_RANGE
  | OpMerge _ _ _ => HAS_MERGE
  | OpPutBlobIndex _ _ _ => HAS_BLOB_INDEX
  | OpLogData _ | OpNoop => 0
  | OpBeginPrepare kTypeBeginUnprepareXID => Z.lor HAS_BEGIN_PREPARE HAS_BEGIN_UNPREPARE
  | OpBeginPrepare _ => HAS_BEGIN_PREPARE
  | OpEndPrepare _ => HAS_END_PREPARE
  | OpCommit _ | OpCommitTs _ _ => HAS_COMMIT
  | OpRollback _ => HAS_ROLLBACK
  end.

Definition flags_of (ops : list Op) : Z :=
  foldr (fun op acc => Z.lor (flag_of op) acc) 0 ops.

(** The protection entries of an operation. *)
Definition prot_of `{Hasher} (op : Op) : list ProtectionInfoKVOC :=
  match shape op with
  | Update cf t _ [k; v] => [entry_prot k v t cf]
  | Update cf t _ [k] => [entry_prot k [] t cf]
  | _ => []
  end.

Definition prots_of `{Hasher} (ops : list Op) : list ProtectionInfoKVOC :=
  List.flat_map prot_of ops.

(** ** The abstract batch *)

(** Sequence number, operations, the operations at each savepoint (most recent
    first), the size limit (0: none), the timestamp size of the default column
    family and whether the entries are protected. *)
Record ABatch : Set := mkABatch {
  a_seq : Z;
  a_ops : list Op;
  a_saves : list (list Op);
  a_max_bytes : Z;
  a_default_ts_sz : Z;
  a_protected : bool;
}.

Definition encode_batch (seq : Z) (ops : list Op) : bytes :=
  EncodeFixed64 seq ++ EncodeFixed32 (num_updates ops) ++ encode_ops ops.

(** A savepoint stands for the operations the batch had when it was taken. *)
Record SaveRepr (sp : SavePoint) (ops : list Op) : Prop := mkSaveRepr {
  sr_size : sp_size sp = kHeader + size (encode_ops ops);
  sr_count : sp_count sp = num_updates ops;
  sr_flags : sp_content_flags sp = flags_of ops;
}.

(** The savepoints of the stack are successive prefixes. *)
Fixpoint saves_chain (ops : list Op) (saves : list (list Op)) : Prop :=
  match saves with
  | [] => True
  | s :: saves => s `prefix_of` ops /\ saves_chain s saves
  end.

(** The bytes of [b] are a well-formed batch with these operations. *)
Record Encodes (b : WriteBatch) (seq : Z) (ops : list Op) : Prop := mkEncodes {
  enc_rep : rep_ b = encode_batch seq ops;
  enc_seq : is_uint 64 seq;
  enc_count : num_updates ops < 2 ^ 32;
  enc_wf : Forall (fun op => wf_op op = true) ops;
}.

(** All the content of [b] is the one of the abstract batch. *)
Record Repr `{Hasher} (b : WriteBatch) (a : ABatch) : Prop := mkRepr {
  repr_rep : rep_ b = encode_batch (a_seq a) (a_ops a);
  repr_seq : is_uint 64 (a_seq a);
  repr_count : num_updates (a_ops a) < 2 ^ 32;
  repr_wf : Forall (fun op => wf_op op = true) (a_ops a);
  repr_prot : prot_info_ b = if a_protected a then Some (prots_of (a_ops a)) else None;
  repr_flags : content_flags_ b = flags_of (a_ops a);
  repr_saves : Forall2 SaveRepr (default [] (save_points_ b)) (a_saves a);
  repr_chain : saves_chain (a_ops a) (a_saves a);
  repr_max : max_bytes_ b = a_max_bytes a;
  repr_ts : default_cf_ts_sz_ b = a_default_ts_sz a;
}.

Lemma Repr_Encodes `{Hasher} b a : Repr b a -> Encodes b (a_seq a) (a_ops a).
Proof. by intros []. Qed.

(** ** Lemmas on the encoding *)

Lemma PutLengthPrefixedSlice_encode dst s :
  PutLengthPrefixedSlice dst s = dst ++ encode_slice s.
Proof.
  unfold PutLengthPrefixedSlice, PutVarint32, encode_slice. by rewrite app_assoc.
Qed.

Lemma put_slice_encode b s : put_slice b s = set_rep b (rep_ b ++ encode_slice s).
Proof. unfold put_slice. by rewrite PutLengthPrefixedSlice_encode. Qed.

Lemma put_slice_parts_encode b (s : SliceParts) :
  put_slice_parts b s = set_rep b (rep_ b ++ encode_slice (List.concat s)).
Proof.
  unfold put_slice_parts.
  by rewrite PutLengthPrefixedSliceParts_concat, PutLengthPrefixedSlice_encode.
Qed.

Lemma put_tag_encode b cf t cf_t :
  put_tag b cf t cf_t = set_rep b (rep_ b ++ encode_tag cf t cf_t).
Proof.
  unfold put_tag, encode_tag, PutVarint32. case_if; [done|]. by rewrite <- app_assoc.
Qed.

Lemma encode_ops_app ops ops' :
  encode_ops (ops ++ ops') = encode_ops ops ++ encode_ops ops'.
Proof.
  unfold encode_ops. induction ops as [|op ops IH]; [done|]. cbn [foldr app].
  by rewrite IH, app_assoc.
Qed.

Lemma encode_ops_one op : encode_ops [op] = encode_op op.
Proof. apply app_nil_r. Qed.

Lemma num_updates_app ops ops' :
  num_updates (ops ++ ops') = num_updates ops + num_updates ops'.
Proof. unfold num_updates. by rewrite List.filter_app, size_app. Qed.

Lemma num_updates_nonneg ops : 0 <= num_updates ops.
Proof. apply size_nonneg. Qed.

Lemma flags_of_app ops ops' :
  flags_of (ops ++ ops') = Z.lor (flags_of ops) (flags_of ops').
Proof.
  unfold flags_of. induction ops as [|op ops IH]; [done|]. cbn [foldr app].
  by rewrite IH, Z.lor_assoc.
Qed.

Lemma prots_of_app `{Hasher} ops ops' :
  prots_of (ops ++ ops') = prots_of ops ++ prots_of ops'.
Proof. apply List.flat_map_app. Qed.

Lemma size_prots_of `{Hasher} ops : size (prots_of ops) = num_updates ops.
Proof.
  unfold prots_of, num_updates.
  induction ops as [|op ops IH]; [done|]. cbn [List.flat_map List.filter].
  rewrite size_app, IH. destruct op; cbn -[size]; rewrite ?size_cons, ?size_nil; lia.
Qed.

Lemma size_encode_op op : 1 <= size (encode_op op).
Proof.
  unfold encode_op. pose proof (@size_nonneg byte) as Hs.
  destruct (shape op) as [cf t cf_t l|t l].
  - rewrite size_app. unfold encode_tag. pose proof (Hs (encode_fields l)).
    case_if; rewrite ?size_cons, ?size_nil; [lia|].
    pose proof (Hs (EncodeVarint32 cf)). lia.
  - rewrite size_cons. pose proof (Hs (encode_fields l)). lia.
Qed.

Lemma size_encode_batch seq ops :
  size (encode_batch seq ops) = kHeader + size (encode_ops ops).
Proof.
  unfold encode_batch, kHeader.
  rewrite !size_app, size_EncodeFixed64, size_EncodeFixed32. lia.
Qed.

Lemma encode_batch_tail seq ops : zdrop kHeader (encode_batch seq ops) = encode_ops ops.
Proof. reflexivity. Qed.

(** The count in the header. *)
Lemma Count_encode b seq ops :
  rep_ b = encode_batch seq ops -> num_updates ops < 2 ^ 32 -> Count b = num_updates ops.
Proof.
  intros Hr Hn. unfold Count. rewrite Hr. unfold encode_batch.
  rewrite <- (size_EncodeFixed64 seq), zdrop_app. apply DecodeFixed32_Encode.
  split; [apply num_updates_nonneg|done].
Qed.

Lemma prefix_encode_size ops ops' :
  ops `prefix_of` ops' -> size (encode_ops ops) <= size (encode_ops ops').
Proof.
  intros [k ->]. rewrite encode_ops_app, size_app.
  pose proof (size_nonneg (encode_ops k)). lia.
Qed.

#[export] Hint Rewrite encode_ops_app num_updates_app flags_of_app encode_ops_one
  @prots_of_app : xdb.
