(* ===== verification/WriteBatchBuild.v ===== *)
(** * WriteBatchBuild: the update operations refine the abstract batch

    Every public operation that changes a batch, as a command; the abstract
    command on [ABatch]; the simulation between the two, for one command and for
    any sequence of commands that starts from an empty batch; the atomicity of
    [LocalSavePoint]; savepoints; [Append]. *)

From S2P Require Import Prelude.
From S2P Require Import Status.
From S2P Require Import Slice.
From S2P Require Import Coding.
From S2P Require Import DbFormat.
From S2P Require Import KvChecksum.
From S2P Require Import PackedValue.
From S2P Require Import WriteBatch.
From S2P Require Import WriteBatchRead.
From S2P Require Import WriteBatchSpec.

(** Refinement lemmas of the single operations. *)
Create HintDb refine.

(** ** Commands *)

Inductive Cmd : Type :=
| CPut (cf : option ColumnFamilyHandle) (key value : Slice)
| CPut_ts (cf : option ColumnFamilyHandle) (key ts value : Slice)
| CPut_parts (cf : option ColumnFamilyHandle) (key value : SliceParts)
| CTimedPut (cf : option ColumnFamilyHandle) (key value : Slice) (time : Z)
| CPutEntity (cf : option ColumnFamilyHandle) (key : Slice) (columns : WideColumns)
| CDelete (cf : option ColumnFamilyHandle) (key : Slice)
| CDelete_ts (cf : option ColumnFamilyHandle) (key ts : Slice)
| CDelete_parts (cf : option ColumnFamilyHandle) (key : SliceParts)
| CSingleDelete (cf : option ColumnFamilyHandle) (key : Slice)
| CSingleDelete_ts (cf : option ColumnFamilyHandle) (key ts : Slice)
| CSingleDelete_parts (cf : option ColumnFamilyHandle) (key : SliceParts)
| CDeleteRange (cf : option ColumnFamilyHandle) (begin_key end_key : Slice)
| CDeleteRange_ts (cf : option ColumnFamilyHandle) (begin_key end_key ts : Slice)
| CDeleteRange_parts (cf : option ColumnFamilyHandle) (begin_key end_key : SliceParts)
| CMerge (cf : option ColumnFamilyHandle) (key value : Slice)
| CMerge_ts (cf : option ColumnFamilyHandle) (key ts value : Slice)
| CMerge_parts (cf : option ColumnFamilyHandle) (key value : SliceParts)
| CPutBlobIndex (cf : Z) (key value : Slice)
| CPutLogData (blob : Slice)
| CInsertNoop
| CInsertBeginPrepare (write_after_commit unprepared_batch : bool)
| CInsertEndPrepare (xid : Slice)
| CMarkEndPrepare (xid : Slice) (write_after_commit unprepared_batch : bool)
| CMarkCommit (xid : Slice)
| CMarkCommitWithTimestamp (xid ts : Slice)
| CMarkRollback (xid : Slice)
| CSetSavePoint
| CRollbackToSavePoint
| CPopSavePoint
| CSetSequence (seq : Z)
| CMarkWalTerminationPoint
| CClear.

Section Build.
Context `{Hasher} `{WideColumnCodec}.

Definition exec (c : Cmd) (b : WriteBatch) : Status * WriteBatch :=
  match c with
  | CPut cf k v => Put b cf k v
  | CPut_ts cf k ts v => Put_ts b cf k ts v
  | CPut_parts cf k v => Put_parts b cf k v
  | CTimedPut cf k v t => TimedPut b cf k v t
  | CPutEntity cf k cols => PutEntity b cf k cols
  | CDelete cf k => Delete b cf k
  | CDelete_ts cf k ts => Delete_ts b cf k ts
  | CDelete_parts cf k => Delete_parts b cf k
  | CSingleDelete cf k => SingleDelete b cf k
  | CSingleDelete_ts cf k ts => SingleDelete_ts b cf k ts
  | CSingleDelete_parts cf k => SingleDelete_parts b cf k
  | CDeleteRange cf k e => DeleteRange b cf k e
  | CDeleteRange_ts cf k e ts => DeleteRange_ts b cf k e ts
  | CDeleteRange_parts cf k e => DeleteRange_parts b cf k e
  | CMerge cf k v => Merge b cf k v
  | CMerge_ts cf k ts v => Merge_ts b cf k ts v
  | CMerge_parts cf k v => Merge_parts b cf k v
  | CPutBlobIndex cf k v => Internal_PutBlobIndex b cf k v
  | CPutLogData d => PutLogData b d
  | CInsertNoop => InsertNoop b
  | CInsertBeginPrepare w u => InsertBeginPrepare b w u
  | CInsertEndPrepare xid => InsertEndPrepare b xid
  | CMarkEndPrepare xid w u => MarkEndPrepare b xid w u
  | CMarkCommit xid => MarkCommit b xid
  | CMarkCommitWithTimestamp xid ts => MarkCommitWithTimestamp b xid ts
  | CMarkRollback xid => MarkRollback b xid
  | CSetSavePoint => (Status_OK, SetSavePoint b)
  | CRollbackToSavePoint => RollbackToSavePoint b
  | CPopSavePoint => PopSavePoint b
  | CSetSequence seq => (Status_OK, SetSequence b seq)
  | CMarkWalTerminationPoint => (Status_OK, MarkWalTerminationPoint b)
  | CClear => (Status_OK, Clear b)
  end.

Fixpoint exec_all (cs : list Cmd) (b : WriteBatch) : list Status * WriteBatch :=
  match cs with
  | [] => ([], b)
  | c :: cs => let '(s, b) := exec c b in
               let '(ss, b) := exec_all cs b in (s :: ss, b)
  end.

(** ** The abstract commands *)

(** What an update command asks for: an error, or an operation to append; the
    flag says whether the size limit applies. *)
Inductive Effect : Set :=
| Reject (s : Status)
| Emit (limited : bool) (op : Op).

(** The column family id and timestamp size a handle stands for, or an error. *)
Definition resolve (default_ts : Z) (cf : option ColumnFamilyHandle)
    (k : Z -> Z -> Effect) : Effect :=
  match cf with
  | None => k 0 (Z.max 0 default_ts)
  | Some (mkCFHandle id (Some ts)) =>
      if decide (id = 0 /\ default_ts <> ts)
      then Reject (InvalidArgument "Default cf timestamp size mismatch")
      else k id ts
  | Some (mkCFHandle id None) => k id 0
  end.

(** Keys of a column family with timestamps get a placeholder timestamp. *)
Definition with_dummy (default_ts : Z) (cf : option ColumnFamilyHandle)
    (f : Z -> (Slice -> Slice) -> Op) : Effect :=
  resolve default_ts cf (fun id ts => Emit true (f id (fun k => k ++ dummy_ts ts))).

(** The overloads on slice parts are refused when timestamps are enabled. *)
Definition without_ts (default_ts : Z) (cf : option ColumnFamilyHandle)
    (err : Status) (f : Z -> Effect) : Effect :=
  resolve default_ts cf (fun id ts => if ts =? 0 then f id else Reject err).

(** The overloads with an explicit timestamp check its size. *)
Definition with_ts (cf : option ColumnFamilyHandle) (ts : Slice) (f : Z -> Op)
    : Effect :=
  match cf with
  | None => Reject (InvalidArgument "column family handle cannot be null")
  | Some h =>
      let n := default 0 (cfh_ts_sz h) in
      if decide (n = 0) then Reject (InvalidArgument "timestamp disabled")
      else if decide (n = size ts) then Emit true (f (cfh_id h))
      else Reject (InvalidArgument "timestamp size mismatch")
  end.

Definition cat (parts : SliceParts) : Slice := List.concat parts.

Definition entity_effect (columns : WideColumns) (k : Slice -> Op) : Effect :=
  let '(s, entity) := Serialize (SortColumns columns) in
  if ok s then Emit true (k entity) else Reject s.

(** [None] for the commands that are not appends. *)
Definition effect (default_ts : Z) (c : Cmd) : option Effect :=
  let dummy := with_dummy default_ts in
  let plain cf f := without_ts default_ts cf ts_enabled_error (fun id => Emit true (f id)) in
  match c with
  | CPut cf k v => Some (dummy cf (fun id p => OpPut id (p k) v))
  | CPut_ts cf k ts v => Some (with_ts cf ts (fun id => OpPut id (k ++ ts) v))
  | CPut_parts cf k v => Some (plain cf (fun id => OpPut id (cat k) (cat v)))
  | CTimedPut cf k v t => Some (without_ts default_ts cf
      (NotSupported "TimedPut is not supported in combination with user-defined timestamps.")
      (fun id => Emit true (if t =? UINT64_MAX then OpPut id k v else OpTimedPut id k v t)))
  | CPutEntity None _ _ => Some (Reject
      (InvalidArgument "Cannot call this method without a column family handle"))
  | CPutEntity (Some _ as cf) k cols => Some (without_ts default_ts cf ts_enabled_error
      (fun id => entity_effect cols (OpPutEntity id k)))
  | CDelete cf k => Some (dummy cf (fun id p => OpDelete id (p k)))
  | CDelete_ts cf k ts => Some (with_ts cf ts (fun id => OpDelete id (k ++ ts)))
  | CDelete_parts cf k => Some (plain cf (fun id => OpDelete id (cat k)))
  | CSingleDelete cf k => Some (dummy cf (fun id p => OpSingleDelete id (p k)))
  | CSingleDelete_ts cf k ts => Some (with_ts cf ts (fun id => OpSingleDelete id (k ++ ts)))
  | CSingleDelete_parts cf k => Some (plain cf (fun id => OpSingleDelete id (cat k)))
  | CDeleteRange cf k e => Some (dummy cf (fun id p => OpDeleteRange id (p k) (p e)))
  | CDeleteRange_ts cf k e ts =>
      Some (with_ts cf ts (fun id => OpDeleteRange id (k ++ ts) (e ++ ts)))
  | CDeleteRange_parts cf k e => Some (plain cf (fun id => OpDeleteRange id (cat k) (cat e)))
  | CMerge cf k v => Some (dummy cf (fun id p => OpMerge id (p k) v))
  | CMerge_ts cf k ts v => Some (with_ts cf ts (fun id => OpMerge id (k ++ ts) v))
  | CMerge_parts cf k v => Some (plain cf (fun id => OpMerge id (cat k) (cat v)))
  | CPutBlobIndex cf k v => Some (Emit true (OpPutBlobIndex cf k v))
  | CPutLogData d => Some (Emit true (OpLogData d))
  | CInsertNoop => Some (Emit false OpNoop)
  | CInsertBeginPrepare w u => Some (Emit false (OpBeginPrepare (GetBeginPrepareType w u)))
  | CInsertEndPrepare xid => Some (Emit false (OpEndPrepare xid))
  | CMarkCommit xid => Some (Emit false (OpCommit xid))
  | CMarkCommitWithTimestamp xid ts => Some (Emit false (OpCommitTs xid ts))
  | CMarkRollback xid => Some (Emit false (OpRollback xid))
  | _ => None
  end.

Definition with_ops (a : ABatch) (ops : list Op) : ABatch :=
  mkABatch (a_seq a) ops (a_saves a) (a_max_bytes a) (a_default_ts_sz a)
      (a_protected a).

(** Whether the batch with these operations is over the limit. *)
Definition over_limit (a : ABatch) (ops : list Op) : bool :=
  negb (a_max_bytes a =? 0) && (kHeader + size (encode_ops ops) >? a_max_bytes a).

Definition apply_effect (e : Effect) (a : ABatch) : Status * ABatch :=
  match e with
  | Reject s => (s, a)
  | Emit limited op =>
      if limited && over_limit a (a_ops a ++ [op]) then (MemoryLimit, a)
      else (Status_OK, with_ops a (a_ops a ++ [op]))
  end.

Definition spec (c : Cmd) (a : ABatch) : Status * ABatch :=
  let '(mkABatch seq ops saves limit ts p) := a in
  match effect ts c with
  | Some e => apply_effect e a
  | None =>
      match c with
      | CMarkEndPrepare xid w u =>
          (Status_OK, mkABatch seq (OpBeginPrepare (GetBeginPrepareType w u) :: tail ops
                                    ++ [OpEndPrepare xid]) [] limit ts p)
      | CSetSavePoint => (Status_OK, mkABatch seq ops (ops :: saves) limit ts p)
      | CRollbackToSavePoint =>
          match saves with
          | [] => (Status_NotFound, a)
          | s :: saves => (Status_OK, mkABatch seq s saves limit ts p)
          end
      | CPopSavePoint =>
          match saves with
          | [] => (Status_NotFound, a)
          | _ :: saves => (Status_OK, mkABatch seq ops saves limit ts p)
          end
      | CSetSequence seq => (Status_OK, mkABatch seq ops saves limit ts p)
      | CClear => (Status_OK, mkABatch 0 [] [] limit 0 p)
      | _ => (Status_OK, a)
      end
  end.

Fixpoint spec_all (cs : list Cmd) (a : ABatch) : list Status * ABatch :=
  match cs with
  | [] => ([], a)
  | c :: cs => let '(s, a) := spec c a in
               let '(ss, a) := spec_all cs a in (s :: ss, a)
  end.

(** ** When a command is in the scope of the format *)

Definition op_fields (op : Op) : list Slice :=
  match shape op with Update _ _ _ l | Marker _ l => l end.

(** Lengths below [UINT32_MAX], the bound of the strictest of the checks, and
    room for one more update in the 32-bit count. *)
Definition fits (a : ABatch) (op : Op) : bool :=
  wf_op op && forallb (fun s => size s <? UINT32_MAX) (op_fields op)
  && (num_updates (a_ops a ++ [op]) <? 2 ^ 32).

Definition admissible (a : ABatch) (c : Cmd) : bool :=
  match effect (a_default_ts_sz a) c with
  | Some (Emit _ op) => fits a op
  | Some (Reject _) => true
  | None => true
  end &&
  match c with
  | CInsertBeginPrepare w u => w || negb u
  | CMarkEndPrepare xid w u =>
      negb (w && u) && (size xid <? UINT32_MAX)
      && match a_ops a with OpNoop :: _ => true | _ => false end
  | CSetSequence seq => bool_decide (is_uint 64 seq)
  | CPutEntity _ key _ => size key <=? UINT32_MAX
  | _ => true
  end.

Fixpoint admissible_all (a : ABatch) (cs : list Cmd) : bool :=
  match cs with
  | [] => true
  | c :: cs => admissible a c && admissible_all (snd (spec c a)) cs
  end.

End Build.

(** ** The header *)

Lemma poke_count seq n m (rest : bytes) :
  poke 8 (EncodeFixed32 n) (EncodeFixed64 seq ++ EncodeFixed32 m ++ rest)
  = EncodeFixed64 seq ++ EncodeFixed32 n ++ rest.
Proof.
  reflexivity.
Qed.

Lemma poke_seq seq seq' (rest : bytes) :
  poke 0 (EncodeFixed64 seq') (EncodeFixed64 seq ++ rest) = EncodeFixed64 seq' ++ rest.
Proof.
  unfold poke. rewrite size_EncodeFixed64. cbn [app ztake Z.to_nat take].
  rewrite Z.add_0_l, <- (size_EncodeFixed64 seq), zdrop_app. done.
Qed.

Lemma resize_entries_app n (l k : list ProtectionInfoKVOC) :
  size l = n -> resize_entries n (l ++ k) = l.
Proof.
  intros <-. unfold resize_entries. rewrite ztake_app, size_app.
  replace (Z.to_nat _) with 0%nat by (pose proof (size_nonneg k); lia).
  apply app_nil_r.
Qed.

Lemma resize_app n (l k : bytes) : size l = n -> resize n (l ++ k) = l.
Proof.
  intros <-. rewrite resize_le by (rewrite size_app; pose proof (size_nonneg k); lia).
  apply ztake_app.
Qed.

Lemma saves_chain_app ops ops' saves :
  saves_chain ops saves -> saves_chain (ops ++ ops') saves.
Proof.
  destruct saves; [done|]. intros [? ?]. split; [|done]. by apply prefix_app_r.
Qed.

(** Batches with equal fields are equal. *)
Lemma WriteBatch_ext b b' :
  save_points_ b = save_points_ b' -> wal_term_point_ b = wal_term_point_ b' ->
  is_latest_persistent_state_ b = is_latest_persistent_state_ b' ->
  needs_in_place_update_ts_ b = needs_in_place_update_ts_ b' ->
  has_key_with_ts_ b = has_key_with_ts_ b' -> content_flags_ b = content_flags_ b' ->
  max_bytes_ b = max_bytes_ b' -> prot_info_ b = prot_info_ b' ->
  default_cf_ts_sz_ b = default_cf_ts_sz_ b' ->
  track_timestamp_size_ b = track_timestamp_size_ b' ->
  cf_id_to_ts_sz_ b = cf_id_to_ts_sz_ b' -> rep_ b = rep_ b' -> b = b'.
Proof. destruct b, b'. cbn. intros. by subst. Qed.

(** ** Writing one operation *)

Section BuildLemmas.
Context `{Hasher} `{WideColumnCodec}.

(** What every update does to the batch before its size is checked. *)
Definition write_op (b : WriteBatch) (op : Op) : WriteBatch :=
  let b := if is_update op then increment_count b else b in
  let b := set_rep b (rep_ b ++ encode_op op) in
  let b := or_flags b (flag_of op) in
  set_prot_info b ((fun e => e ++ prot_of op) <$> prot_info_ b).

Lemma write_op_fields b op :
  write_op b op
  = mkWriteBatch (save_points_ b) (wal_term_point_ b) (is_latest_persistent_state_ b)
      (needs_in_place_update_ts_ b) (has_key_with_ts_ b)
      (Z.lor (content_flags_ b) (flag_of op)) (max_bytes_ b)
      ((fun e => e ++ prot_of op) <$> prot_info_ b) (default_cf_ts_sz_ b)
      (track_timestamp_size_ b) (cf_id_to_ts_sz_ b) (rep_ (write_op b op)).
Proof. unfold write_op. by destruct (is_update op). Qed.

Lemma write_op_rep b a op :
  Repr b a -> num_updates (a_ops a ++ [op]) < 2 ^ 32 ->
  rep_ (write_op b op) = encode_batch (a_seq a) (a_ops a ++ [op]).
Proof.
  intros R Hn. pose proof (repr_rep _ _ R) as Hr.
  rewrite num_updates_app in Hn. pose proof (num_updates_nonneg (a_ops a)).
  assert (rep_ (write_op b op)
    = (if is_update op then poke 8 (EncodeFixed32 (wrap 32 (Count b + 1))) (rep_ b)
       else rep_ b) ++ encode_op op) as ->.
  { unfold write_op. by destruct (is_update op). }
  rewrite (Count_encode _ _ _ Hr (repr_count _ _ R)), Hr. unfold encode_batch.
  rewrite poke_count, encode_ops_app, encode_ops_one, num_updates_app.
  unfold num_updates in *. cbn [List.filter] in *.
  destruct (is_update op); rewrite <- !app_assoc; [|by rewrite Z.add_0_r].
  rewrite wrap_small; [done|]. unfold is_uint. rewrite size_cons, size_nil in Hn. lia.
Qed.

Lemma flags_of_snoc ops op :
  flags_of (ops ++ [op]) = Z.lor (flags_of ops) (flag_of op).
Proof. by rewrite flags_of_app, <- (Z.lor_0_r (flag_of op)). Qed.

Lemma Repr_write_op b a op :
  Repr b a -> wf_op op = true -> num_updates (a_ops a ++ [op]) < 2 ^ 32 ->
  Repr (write_op b op) (with_ops a (a_ops a ++ [op])).
Proof.
  intros R Hwf Hn. pose proof (write_op_rep b a op R Hn) as Hr.
  destruct R as [_ Hseq _ Hops Hprot Hflags Hsaves Hchain Hmax Hts]. unfold with_ops. split; cbn [a_ops a_seq a_saves]; auto.
  - apply Forall_app. auto.
  - rewrite write_op_fields. cbn. rewrite Hprot. destruct (a_protected a); [|done].
    cbn. by rewrite prots_of_app, <- (app_nil_r (prot_of op)).
  - rewrite write_op_fields, flags_of_snoc. cbn. by rewrite Hflags.
  - unfold write_op. by destruct (is_update op).
  - by apply saves_chain_app.
  - rewrite <- Hmax. unfold write_op. by destruct (is_update op).
  - rewrite <- Hts. unfold write_op. by destruct (is_update op).
Qed.

(** Cutting the representation back and restoring the count. *)
Lemma truncate_rep seq ops ops' :
  poke 8 (EncodeFixed32 (num_updates ops))
    (resize (kHeader + size (encode_ops ops)) (encode_batch seq (ops ++ ops')))
  = encode_batch seq ops.
Proof.
  unfold encode_batch. rewrite encode_ops_app, !app_assoc.
  rewrite resize_app by (rewrite !size_app, size_EncodeFixed64, size_EncodeFixed32;
    unfold kHeader; lia).
  by rewrite <- !app_assoc, poke_count.
Qed.

Lemma undo_rep b a op :
  Repr b a ->
  poke 8 (EncodeFixed32 (Count b))
    (resize (size (rep_ b)) (encode_batch (a_seq a) (a_ops a ++ [op]))) = rep_ b.
Proof.
  intros [Hr _ Hlt]. rewrite (Count_encode _ _ _ Hr), Hr, size_encode_batch by done.
  apply truncate_rep.
Qed.

(** Undoing the write of an operation restores the batch itself. *)
Lemma commit_write_op b a op :
  Repr b a -> num_updates (a_ops a ++ [op]) < 2 ^ 32 ->
  commit (LocalSavePoint b) (write_op b op)
  = if over_limit a (a_ops a ++ [op]) then (MemoryLimit, b)
    else (Status_OK, write_op b op).
Proof.
  intros R Hn. pose proof (write_op_rep b a op R Hn) as Hr.
  rewrite write_op_fields, Hr. unfold commit, over_limit.
  cbn [max_bytes_ rep_]. rewrite size_encode_batch, <- (repr_max _ _ R).
  case_if; [|done]. f_equal. pose proof (repr_prot _ _ R) as Hp.
  apply WriteBatch_ext; destruct (prot_info_ b) as [e|]; try reflexivity.
  - cbn -[Count]. do 2 f_equal. apply resize_entries_app.
    destruct (a_protected a); [|done]. injection Hp as ->. rewrite size_prots_of.
    symmetry. exact (Count_encode _ _ _ (repr_rep _ _ R) (repr_count _ _ R)).
  - exact (undo_rep b a op R).
  - exact (undo_rep b a op R).
Qed.

(** ** The operations write what they stand for *)

Lemma set_rep_set_rep b r r' : set_rep (set_rep b r) r' = set_rep b r'.
Proof. done. Qed.

Lemma rep_set_rep b r : rep_ (set_rep b r) = r.
Proof. done. Qed.

(** The tail of every counted update. *)
Lemma built_update b op r f p :
  is_update op = true -> r = rep_ (increment_count b) ++ encode_op op ->
  flag_of op = f -> prot_of op = [p] ->
  protect (or_flags (set_rep (increment_count b) r) f) p = write_op b op.
Proof.
  intros Hu -> <- Hp. unfold write_op, protect. rewrite Hu, Hp.
  change (prot_info_ (or_flags (set_rep (increment_count b) _) _)) with (prot_info_ b).
  destruct (prot_info_ b) as [e|] eqn:E; apply WriteBatch_ext; try reflexivity;
    cbn; by rewrite E.
Qed.

(** The tail of the markers, which have no protection entry. *)
Lemma built_marker b op r f :
  is_update op = false -> r = rep_ b ++ encode_op op -> flag_of op = f ->
  or_flags (set_rep b r) f = write_op b op.
Proof.
  intros Hu -> <-. unfold write_op. rewrite Hu.
  apply WriteBatch_ext; try reflexivity.
  unfold is_update, prot_of in *. destruct (shape op); [done|].
  cbn. destruct (prot_info_ b); cbn; [|done]. by rewrite app_nil_r.
Qed.

Ltac solve_built :=
  rewrite ?put_tag_encode, ?put_slice_encode, ?put_slice_parts_encode,
    ?set_rep_set_rep, ?rep_set_rep;
  first [apply built_update | apply built_marker]; try done;
  try (unfold entry_prot_parts; rewrite ProtectKVO_parts_concat; cbn; done);
  unfold encode_op; cbn [shape encode_fields foldr]; unfold cat;
  rewrite <- ?app_assoc, ?app_nil_r; reflexivity.

(** Under these bounds none of the length checks fires. *)
Definition small (op : Op) : Prop :=
  forallb (fun s => size s <? UINT32_MAX) (op_fields op) = true.

Lemma CheckSlicePartsLength_ok (k v : SliceParts) :
  size (cat k) < UINT32_MAX -> size (cat v) < UINT32_MAX ->
  CheckSlicePartsLength k v = Status_OK.
Proof.
  unfold cat, UINT32_MAX. intros. unfold CheckSlicePartsLength.
  change 0 with (wrap 64 0). rewrite !parts_size_concat, !Z.add_0_l.
  pose proof (size_nonneg (List.concat k)). pose proof (size_nonneg (List.concat v)).
  unfold UINT32_MAX. rewrite !wrap_small by (unfold is_uint; lia).
  rewrite !Z.geb_leb, !(proj2 (Z.leb_gt _ _)) by lia. done.
Qed.

Ltac size_guards :=
  repeat match goal with
  | H : small _ |- _ => unfold small, op_fields in H; cbn in H
  end; zbool;
  rewrite ?CheckSlicePartsLength_ok by done; unfold UINT32_MAX in *;
  rewrite ?Z.gtb_ltb, ?(proj2 (Z.ltb_ge _ _)) by lia.

Ltac solve_built_commit := cbv zeta; cbn [negb ok]; f_equal; solve_built.

Lemma Internal_Put_write b cf k v :
  small (OpPut cf k v) ->
  Internal_Put b cf k v = commit (LocalSavePoint b) (write_op b (OpPut cf k v)).
Proof. intros. unfold Internal_Put. size_guards. solve_built_commit. Qed.

Lemma Internal_TimedPut_write b cf k v t :
  small (OpTimedPut cf k v t) -> t <> UINT64_MAX ->
  Internal_TimedPut b cf k v t
  = commit (LocalSavePoint b) (write_op b (OpTimedPut cf k v t)).
Proof.
  intros Hs Ht. unfold Internal_TimedPut. unfold small, op_fields in Hs. cbn in Hs.
  zbool. unfold PackValueAndWriteTime in *. rewrite size_PutFixed64 in *.
  pose proof (size_nonneg v). unfold UINT32_MAX in *.
  rewrite !Z.gtb_ltb, !(proj2 (Z.ltb_ge _ _)) by lia.
  rewrite (proj2 (Z.eqb_neq UINT64_MAX t)) by done. solve_built_commit.
Qed.

Lemma Internal_Put_parts_write b cf (k v : SliceParts) :
  small (OpPut cf (cat k) (cat v)) ->
  Internal_Put_parts b cf k v = commit (LocalSavePoint b) (write_op b (OpPut cf (cat k) (cat v))).
Proof. intros. unfold Internal_Put_parts. size_guards. solve_built_commit. Qed.

Lemma Internal_Delete_write b cf k :
  small (OpDelete cf k) ->
  Internal_Delete b cf k = commit (LocalSavePoint b) (write_op b (OpDelete cf k)).
Proof. intros. unfold Internal_Delete. size_guards. solve_built_commit. Qed.

Lemma Internal_Delete_parts_write b cf (k : SliceParts) :
  small (OpDelete cf (cat k)) ->
  Internal_Delete_parts b cf k = commit (LocalSavePoint b) (write_op b (OpDelete cf (cat k))).
Proof. intros. unfold Internal_Delete_parts. size_guards. solve_built_commit. Qed.

Lemma Internal_SingleDelete_write b cf k :
  small (OpSingleDelete cf k) ->
  Internal_SingleDelete b cf k = commit (LocalSavePoint b) (write_op b (OpSingleDelete cf k)).
Proof. intros. unfold Internal_SingleDelete. size_guards. solve_built_commit. Qed.

Lemma Internal_SingleDelete_parts_write b cf (k : SliceParts) :
  small (OpSingleDelete cf (cat k)) ->
  Internal_SingleDelete_parts b cf k = commit (LocalSavePoint b) (write_op b (OpSingleDelete cf (cat k))).
Proof. intros. unfold Internal_SingleDelete_parts. size_guards. solve_built_commit. Qed.

Lemma Internal_DeleteRange_write b cf k e :
  small (OpDeleteRange cf k e) ->
  Internal_DeleteRange b cf k e = commit (LocalSavePoint b) (write_op b (OpDeleteRange cf k e)).
Proof. intros. unfold Internal_DeleteRange. size_guards. solve_built_commit. Qed.

Lemma Internal_DeleteRange_parts_write b cf (k e : SliceParts) :
  small (OpDeleteRange cf (cat k) (cat e)) ->
  Internal_DeleteRange_parts b cf k e = commit (LocalSavePoint b) (write_op b (OpDeleteRange cf (cat k) (cat e))).
Proof. intros. unfold Internal_DeleteRange_parts. size_guards. solve_built_commit. Qed.

Lemma Internal_Merge_write b cf k v :
  small (OpMerge cf k v) ->
  Internal_Merge b cf k v = commit (LocalSavePoint b) (write_op b (OpMerge cf k v)).
Proof. intros. unfold Internal_Merge. size_guards. solve_built_commit. Qed.

Lemma Internal_Merge_parts_write b cf (k v : SliceParts) :
  small (OpMerge cf (cat k) (cat v)) ->
  Internal_Merge_parts b cf k v = commit (LocalSavePoint b) (write_op b (OpMerge cf (cat k) (cat v))).
Proof. intros. unfold Internal_Merge_parts. size_guards. solve_built_commit. Qed.

Lemma Internal_PutBlobIndex_write b cf k v :
  small (OpPutBlobIndex cf k v) ->
  Internal_PutBlobIndex b cf k v = commit (LocalSavePoint b) (write_op b (OpPutBlobIndex cf k v)).
Proof. intros. unfold Internal_PutBlobIndex. size_guards. solve_built_commit. Qed.

Lemma Internal_PutEntity_write b cf k cols s entity :
  Serialize (SortColumns cols) = (s, entity) -> ok s = true ->
  small (OpPutEntity cf k entity) ->
  Internal_PutEntity b cf k cols
  = commit (LocalSavePoint b) (write_op b (OpPutEntity cf k entity)).
Proof.
  intros Hs Hok ?. unfold Internal_PutEntity. rewrite Hs, Hok. size_guards.
  solve_built_commit.
Qed.

Lemma PutLogData_write b d :
  PutLogData b d = commit (LocalSavePoint b) (write_op b (OpLogData d)).
Proof.
  unfold PutLogData. cbv zeta. f_equal. rewrite put_slice_encode, set_rep_set_rep, rep_set_rep.
  rewrite <- (built_marker b (OpLogData d) _ 0 eq_refl eq_refl eq_refl).
  apply WriteBatch_ext; try reflexivity.
  - cbn. by rewrite Z.lor_0_r.
  - unfold encode_op. cbn. by rewrite <- app_assoc, app_nil_r.
Qed.

(** ** Refinement of the appends *)

(** The result of an operation agrees with the abstract effect. *)
Definition refines (r : Status * WriteBatch) (a : ABatch) (e : Effect) : Prop :=
  fst r = fst (apply_effect e a) /\ Repr (snd r) (snd (apply_effect e a)).

Definition effect_fits (a : ABatch) (e : Effect) : Prop :=
  match e with Emit _ op => fits a op = true | Reject _ => True end.

Lemma fits_spec a op :
  fits a op = true ->
  wf_op op = true /\ small op /\ num_updates (a_ops a ++ [op]) < 2 ^ 32.
Proof. unfold fits, small. intros. zbool. done. Qed.

(** [Repr] only looks at these fields. *)
Lemma Repr_fields b b' a :
  Repr b a -> rep_ b' = rep_ b -> prot_info_ b' = prot_info_ b ->
  content_flags_ b' = content_flags_ b -> save_points_ b' = save_points_ b ->
  max_bytes_ b' = max_bytes_ b -> default_cf_ts_sz_ b' = default_cf_ts_sz_ b ->
  Repr b' a.
Proof. intros [] ? ? ? ? ? ?. split; congruence. Qed.

Lemma Repr_mark_dummy_ts b a : Repr b a -> Repr (mark_dummy_ts b) a.
Proof. intros R. by eapply Repr_fields. Qed.

Lemma Repr_mark_has_ts b a : Repr b a -> Repr (mark_has_ts b) a.
Proof. intros R. by eapply Repr_fields. Qed.

Lemma Repr_track b a cf ts : Repr b a -> Repr (MaybeTrackTimestampSize b cf ts) a.
Proof.
  intros R. unfold MaybeTrackTimestampSize. case_if; [done|].
  case_match; [done|]. by eapply Repr_fields.
Qed.

Lemma refines_reject s b a : Repr b a -> refines (s, b) a (Reject s).
Proof. by split. Qed.

Lemma refines_track r a e cf ts : refines r a e -> refines (track_if_ok r cf ts) a e.
Proof.
  intros [? ?]. unfold track_if_ok. destruct r as [s b]. case_if; [|by split].
  split; [done|]. by apply Repr_track.
Qed.

Lemma refines_commit b a op :
  Repr b a -> fits a op = true ->
  refines (commit (LocalSavePoint b) (write_op b op)) a (Emit true op).
Proof.
  intros R (? & ? & ?)%fits_spec. unfold refines. cbn [apply_effect andb].
  rewrite (commit_write_op b a op) by done. case_if; [done|].
  split; [done|]. by apply Repr_write_op.
Qed.

Lemma refines_marker b a op :
  Repr b a -> fits a op = true -> refines (Status_OK, write_op b op) a (Emit false op).
Proof. intros R (? & ? & ?)%fits_spec. split; [done|]. by apply Repr_write_op. Qed.

Lemma resolve_spec b cf k :
  resolve (default_cf_ts_sz_ b) cf k =
  let '(s, id, ts) := GetColumnFamilyIdAndTimestampSize b cf in
  if ok s then k id ts else Reject s.
Proof.
  unfold resolve, GetColumnFamilyIdAndTimestampSize, GetColumnFamilyID.
  destruct cf as [[id [ts|]]|]; cbn [cfh_id cfh_ts_sz].
  - destruct (decide _) as [[-> Hne]|Hn].
    + by rewrite (proj2 (Z.eqb_neq _ _) Hne).
    + destruct (Z.eqb_spec 0 id) as [<-|], (Z.eqb_spec (default_cf_ts_sz_ b) ts);
        try done. by destruct Hn.
  - done.
  - destruct (Z.gtb_spec (default_cf_ts_sz_ b) 0); cbn; f_equal; lia.
Qed.

Lemma refines_dummy b a cf (f : Z -> (Slice -> Slice) -> Op)
    (plain : WriteBatch -> Z -> Status * WriteBatch)
    (parts : WriteBatch -> Z -> Z -> Status * WriteBatch) :
  (forall b id, small (f id (fun k => k ++ dummy_ts 0)) ->
    plain b id = commit (LocalSavePoint b) (write_op b (f id (fun k => k ++ dummy_ts 0)))) ->
  (forall b id ts, small (f id (fun k => k ++ dummy_ts ts)) ->
    parts b id ts
    = commit (LocalSavePoint b) (write_op b (f id (fun k => k ++ dummy_ts ts)))) ->
  Repr b a -> effect_fits a (with_dummy (a_default_ts_sz a) cf f) ->
  refines
    (let '(s, id, ts) := GetColumnFamilyIdAndTimestampSize b cf in
     if negb (ok s) then (s, b)
     else track_if_ok (if 0 =? ts then plain b id else parts (mark_dummy_ts b) id ts) id ts)
    a (with_dummy (a_default_ts_sz a) cf f).
Proof.
  intros Hplain Hparts R. unfold with_dummy. rewrite <- (repr_ts _ _ R), resolve_spec.
  destruct (GetColumnFamilyIdAndTimestampSize b cf) as [[s id] ts].
  destruct (ok s); cbn [negb effect_fits]; [|intros _; by apply refines_reject].
  intros Hf. pose proof (fits_spec _ _ Hf) as (_ & Hs & _). apply refines_track.
  destruct (Z.eqb_spec 0 ts) as [<-|].
  - rewrite Hplain by done. by apply refines_commit.
  - rewrite Hparts by done. apply refines_commit; [by apply Repr_mark_dummy_ts|done].
Qed.

Lemma refines_with_ts b a cf ts (f : Z -> Op)
    (parts : WriteBatch -> Z -> Status * WriteBatch) :
  (forall b id, small (f id) ->
    parts b id = commit (LocalSavePoint b) (write_op b (f id))) ->
  Repr b a -> effect_fits a (with_ts cf ts f) ->
  refines
    (let s := CheckColumnFamilyTimestampSize cf ts in
     if negb (ok s) then (s, b)
     else let cf_id := GetColumnFamilyID cf in
          track_if_ok (parts (mark_has_ts b) cf_id) cf_id (size ts))
    a (with_ts cf ts f).
Proof.
  intros Hparts R. unfold with_ts, CheckColumnFamilyTimestampSize, GetColumnFamilyID.
  destruct cf as [h|]; [|intros _; by apply refines_reject].
  cbv zeta. destruct (decide _) as [->|Hn]; [intros _; by apply refines_reject|].
  rewrite (proj2 (Z.eqb_neq 0 _)) by done.
  destruct (decide _) as [->|Hsz].
  - rewrite Z.eqb_refl. cbn [negb ok effect_fits].
    intros Hf. pose proof (fits_spec _ _ Hf) as (_ & Hs & _). apply refines_track.
    rewrite Hparts by done. apply refines_commit; [by apply Repr_mark_has_ts|done].
  - rewrite (proj2 (Z.eqb_neq _ _) Hsz). intros _. by apply refines_reject.
Qed.

Lemma refines_without_ts b a cf err (f : Z -> Effect)
    (plain : WriteBatch -> Z -> Status * WriteBatch) :
  (forall id, effect_fits a (f id) -> refines (plain b id) a (f id)) ->
  Repr b a -> effect_fits a (without_ts (a_default_ts_sz a) cf err f) ->
  refines
    (let '(s, id, ts) := GetColumnFamilyIdAndTimestampSize b cf in
     if negb (ok s) then (s, b)
     else if ts =? 0 then plain b id else (err, b))
    a (without_ts (a_default_ts_sz a) cf err f).
Proof.
  intros Hplain R. unfold without_ts. rewrite <- (repr_ts _ _ R), resolve_spec.
  destruct (GetColumnFamilyIdAndTimestampSize b cf) as [[s id] ts].
  destruct (ok s); cbn [negb]; [|intros _; by apply refines_reject].
  case_if; [apply Hplain|]. intros _. by apply refines_reject.
Qed.

(** The overloads on slice parts. *)
Lemma refines_parts b a cf (f : Z -> Op)
    (plain : WriteBatch -> Z -> Status * WriteBatch) (test : Z -> bool) :
  (forall ts, test ts = (ts =? 0)) ->
  (forall id, small (f id) ->
    plain b id = commit (LocalSavePoint b) (write_op b (f id))) ->
  let e := without_ts (a_default_ts_sz a) cf ts_enabled_error (fun id => Emit true (f id)) in
  Repr b a -> effect_fits a e ->
  refines
    (let '(s, id, ts) := GetColumnFamilyIdAndTimestampSize b cf in
     if negb (ok s) then (s, b)
     else if test ts then track_if_ok (plain b id) id ts else (ts_enabled_error, b)) a e.
Proof.
  intros Ht Hplain e R Hf.
  pose proof (refines_without_ts b a cf ts_enabled_error (fun id => Emit true (f id))
    (fun b id => plain b id)) as L.
  destruct (GetColumnFamilyIdAndTimestampSize b cf) as [[s id] ts] eqn:E.
  assert (refines (if negb (ok s) then (s, b) else if ts =? 0 then plain b id
                   else (ts_enabled_error, b)) a e) as L'.
  { apply L; [|done|done]. intros id' Hid. rewrite Hplain by apply (fits_spec _ _ Hid).
    by apply refines_commit. }
  rewrite Ht. destruct (negb (ok s)), (ts =? 0); try done. by apply refines_track.
Qed.

Lemma refines_Internal_TimedPut b a id k v t :
  let op := if t =? UINT64_MAX then OpPut id k v else OpTimedPut id k v t in
  Repr b a -> fits a op = true ->
  refines (Internal_TimedPut b id k v t) a (Emit true op).
Proof.
  intros op. subst op. intros R Hid. pose proof (fits_spec _ _ Hid) as (_ & Hs & _).
  destruct (Z.eqb_spec t UINT64_MAX) as [->|Hne].
  - unfold Internal_TimedPut. rewrite Z.eqb_refl.
    rewrite Internal_Put_write by done. size_guards. by apply refines_commit.
  - rewrite Internal_TimedPut_write by done. by apply refines_commit.
Qed.

Lemma refines_TimedPut b a cf k v t e :
  effect (a_default_ts_sz a) (CTimedPut cf k v t) = Some e ->
  Repr b a -> effect_fits a e -> refines (TimedPut b cf k v t) a e.
Proof.
  intros [= <-] R Hf. pose proof (refines_without_ts b a cf _
    (fun id => Emit true (if t =? UINT64_MAX then OpPut id k v else OpTimedPut id k v t))
    (fun b id => Internal_TimedPut b id k v t)
    (fun id => refines_Internal_TimedPut b a id k v t R) R Hf) as L.
  unfold TimedPut. destruct (GetColumnFamilyIdAndTimestampSize b cf) as [[s id] ts].
  destruct (negb (ok s)), (ts =? 0); exact L.
Qed.

Lemma refines_Internal_PutEntity b a id k cols :
  let e := entity_effect cols (OpPutEntity id k) in
  size k <= UINT32_MAX -> Repr b a -> effect_fits a e ->
  refines (Internal_PutEntity b id k cols) a e.
Proof.
  intros e Hk R. unfold e, entity_effect.
  destruct (Serialize (SortColumns cols)) as [s entity] eqn:E.
  destruct (ok s) eqn:Hok; intros Hid.
  - pose proof (fits_spec _ _ Hid) as (_ & Hs & _).
    rewrite (Internal_PutEntity_write _ _ _ _ s entity) by done. by apply refines_commit.
  - unfold Internal_PutEntity. rewrite E, Hok, Z.gtb_ltb, (proj2 (Z.ltb_ge _ _)) by done.
    by apply refines_reject.
Qed.

Lemma refines_PutEntity b a cf k cols e :
  effect (a_default_ts_sz a) (CPutEntity cf k cols) = Some e ->
  size k <= UINT32_MAX -> Repr b a -> effect_fits a e ->
  refines (PutEntity b cf k cols) a e.
Proof.
  intros He Hk R Hf. unfold PutEntity. destruct cf as [cf|]; injection He as <-;
    [|by apply refines_reject].
  pose proof (refines_without_ts b a (Some cf) _
    (fun id => entity_effect cols (OpPutEntity id k)) (fun b id => Internal_PutEntity b id k cols)
    (fun id => refines_Internal_PutEntity b a id k cols Hk R) R Hf) as L.
  destruct (GetColumnFamilyIdAndTimestampSize b (Some cf)) as [[s id] ts].
  destruct (negb (ok s)), (ts =? 0); exact L.
Qed.

(** The three families of overloads, given the lemma on the internal operation. *)
Ltac by_dummy plain parts lem lem' :=
  apply (refines_dummy _ _ _ _ plain parts);
  [ intros ? ? Hsm; revert Hsm; cbn [dummy_ts Z.to_nat replicate]; rewrite !app_nil_r; apply lem
  | intros ? ? ? Hsm; rewrite lem' by (cbn [cat List.concat]; by rewrite !app_nil_r);
    cbn [cat List.concat]; by rewrite !app_nil_r
  | done | done ].

Ltac by_ts parts lem :=
  apply (refines_with_ts _ _ _ _ _ parts);
  [ intros ? ? Hsm; rewrite lem by (cbn [cat List.concat]; by rewrite !app_nil_r);
    cbn [cat List.concat]; by rewrite !app_nil_r
  | done | done ].

(** One lemma per public method. *)

Lemma refines_Put b a cf k v e :
  effect (a_default_ts_sz a) (CPut cf k v) = Some e -> Repr b a -> effect_fits a e ->
  refines (Put b cf k v) a e.
Proof.
  intros [= <-] R Hf.
  by_dummy (fun b id => Internal_Put b id k v)
    (fun b id ts => Internal_Put_parts b id [k; dummy_ts ts] [v])
    Internal_Put_write Internal_Put_parts_write.
Qed.

Lemma refines_Put_ts b a cf k ts v e :
  effect (a_default_ts_sz a) (CPut_ts cf k ts v) = Some e -> Repr b a -> effect_fits a e ->
  refines (Put_ts b cf k ts v) a e.
Proof.
  intros [= <-] R Hf.
  by_ts (fun b id => Internal_Put_parts b id [k; ts] [v]) Internal_Put_parts_write.
Qed.

Lemma refines_Put_parts b a cf k v e :
  effect (a_default_ts_sz a) (CPut_parts cf k v) = Some e -> Repr b a -> effect_fits a e ->
  refines (Put_parts b cf k v) a e.
Proof.
  intros [= <-] R Hf.
  apply (refines_parts _ _ _ _ (fun b id => Internal_Put_parts b id k v) (fun ts => ts =? 0));
    [ intros; done || apply Z.eqb_sym
    | intros; by apply Internal_Put_parts_write | done | done ].
Qed.

Lemma refines_Delete b a cf k e :
  effect (a_default_ts_sz a) (CDelete cf k) = Some e -> Repr b a -> effect_fits a e ->
  refines (Delete b cf k) a e.
Proof.
  intros [= <-] R Hf.
  by_dummy (fun b id => Internal_Delete b id k)
    (fun b id ts => Internal_Delete_parts b id [k; dummy_ts ts])
    Internal_Delete_write Internal_Delete_parts_write.
Qed.

Lemma refines_Delete_ts b a cf k ts e :
  effect (a_default_ts_sz a) (CDelete_ts cf k ts) = Some e -> Repr b a -> effect_fits a e ->
  refines (Delete_ts b cf k ts) a e.
Proof.
  intros [= <-] R Hf.
  by_ts (fun b id => Internal_Delete_parts b id [k; ts]) Internal_Delete_parts_write.
Qed.

Lemma refines_Delete_parts b a cf k e :
  effect (a_default_ts_sz a) (CDelete_parts cf k) = Some e -> Repr b a -> effect_fits a e ->
  refines (Delete_parts b cf k) a e.
Proof.
  intros [= <-] R Hf.
  apply (refines_parts _ _ _ _ (fun b id => Internal_Delete_parts b id k) (fun ts => 0 =? ts));
    [ intros; done || apply Z.eqb_sym
    | intros; by apply Internal_Delete_parts_write | done | done ].
Qed.

Lemma refines_SingleDelete b a cf k e :
  effect (a_default_ts_sz a) (CSingleDelete cf k) = Some e -> Repr b a -> effect_fits a e ->
  refines (SingleDelete b cf k) a e.
Proof.
  intros [= <-] R Hf.
  by_dummy (fun b id => Internal_SingleDelete b id k)
    (fun b id ts => Internal_SingleDelete_parts b id [k; dummy_ts ts])
    Internal_SingleDelete_write Internal_SingleDelete_parts_write.
Qed.

Lemma refines_SingleDelete_ts b a cf k ts e :
  effect (a_default_ts_sz a) (CSingleDelete_ts cf k ts) = Some e -> Repr b a -> effect_fits a e ->
  refines (SingleDelete_ts b cf k ts) a e.
Proof.
  intros [= <-] R Hf.
  by_ts (fun b id => Internal_SingleDelete_parts b id [k; ts]) Internal_SingleDelete_parts_write.
Qed.

Lemma refines_SingleDelete_parts b a cf k e :
  effect (a_default_ts_sz a) (CSingleDelete_parts cf k) = Some e -> Repr b a -> effect_fits a e ->
  refines (SingleDelete_parts b cf k) a e.
Proof.
  intros [= <-] R Hf.
  apply (refines_parts _ _ _ _ (fun b id => Internal_SingleDelete_parts b id k) (fun ts => 0 =? ts));
    [ intros; done || apply Z.eqb_sym
    | intros; by apply Internal_SingleDelete_parts_write | done | done ].
Qed.

Lemma refines_DeleteRange b a cf k e' e :
  effect (a_default_ts_sz a) (CDeleteRange cf k e') = Some e -> Repr b a -> effect_fits a e ->
  refines (DeleteRange b cf k e') a e.
Proof.
  intros [= <-] R Hf.
  by_dummy (fun b id => Internal_DeleteRange b id k e')
    (fun b id ts => Internal_DeleteRange_parts b id [k; dummy_ts ts] [e'; dummy_ts ts])
    Internal_DeleteRange_write Internal_DeleteRange_parts_write.
Qed.

Lemma refines_DeleteRange_ts b a cf k e' ts e :
  effect (a_default_ts_sz a) (CDeleteRange_ts cf k e' ts) = Some e -> Repr b a -> effect_fits a e ->
  refines (DeleteRange_ts b cf k e' ts) a e.
Proof.
  intros [= <-] R Hf.
  by_ts (fun b id => Internal_DeleteRange_parts b id [k; ts] [e'; ts]) Internal_DeleteRange_parts_write.
Qed.

Lemma refines_DeleteRange_parts b a cf k e' e :
  effect (a_default_ts_sz a) (CDeleteRange_parts cf k e') = Some e -> Repr b a -> effect_fits a e ->
  refines (DeleteRange_parts b cf k e') a e.
Proof.
  intros [= <-] R Hf.
  apply (refines_parts _ _ _ _ (fun b id => Internal_DeleteRange_parts b id k e') (fun ts => 0 =? ts));
    [ intros; done || apply Z.eqb_sym
    | intros; by apply Internal_DeleteRange_parts_write | done | done ].
Qed.

Lemma refines_Merge b a cf k v e :
  effect (a_default_ts_sz a) (CMerge cf k v) = Some e -> Repr b a -> effect_fits a e ->
  refines (Merge b cf k v) a e.
Proof.
  intros [= <-] R Hf.
  by_dummy (fun b id => Internal_Merge b id k v)
    (fun b id ts => Internal_Merge_parts b id [k; dummy_ts ts] [v])
    Internal_Merge_write Internal_Merge_parts_write.
Qed.

Lemma refines_Merge_ts b a cf k ts v e :
  effect (a_default_ts_sz a) (CMerge_ts cf k ts v) = Some e -> Repr b a -> effect_fits a e ->
  refines (Merge_ts b cf k ts v) a e.
Proof.
  intros [= <-] R Hf.
  by_ts (fun b id => Internal_Merge_parts b id [k; ts] [v]) Internal_Merge_parts_write.
Qed.

Lemma refines_Merge_parts b a cf k v e :
  effect (a_default_ts_sz a) (CMerge_parts cf k v) = Some e -> Repr b a -> effect_fits a e ->
  refines (Merge_parts b cf k v) a e.
Proof.
  intros [= <-] R Hf.
  apply (refines_parts _ _ _ _ (fun b id => Internal_Merge_parts b id k v) (fun ts => 0 =? ts));
    [ intros; done || apply Z.eqb_sym
    | intros; by apply Internal_Merge_parts_write | done | done ].
Qed.

(** The markers are appended without a check of the size limit. *)

Lemma InsertNoop_write b : InsertNoop b = (Status_OK, write_op b OpNoop).
Proof.
  unfold InsertNoop. f_equal. rewrite <- (built_marker b OpNoop _ 0 eq_refl eq_refl eq_refl).
  apply WriteBatch_ext; try reflexivity. cbn. by rewrite Z.lor_0_r.
Qed.

Lemma InsertBeginPrepare_write b w u :
  (w || negb u)%bool = true ->
  InsertBeginPrepare b w u
  = (Status_OK, write_op b (OpBeginPrepare (GetBeginPrepareType w u))).
Proof. intros. unfold InsertBeginPrepare. f_equal. by destruct w, u; try done; solve_built. Qed.

Lemma InsertEndPrepare_write b xid :
  InsertEndPrepare b xid = (Status_OK, write_op b (OpEndPrepare xid)).
Proof. unfold InsertEndPrepare. cbv zeta. f_equal. solve_built. Qed.

Lemma MarkCommit_write b xid : MarkCommit b xid = (Status_OK, write_op b (OpCommit xid)).
Proof. unfold MarkCommit. cbv zeta. f_equal. solve_built. Qed.

Lemma MarkCommitWithTimestamp_write b xid ts :
  MarkCommitWithTimestamp b xid ts = (Status_OK, write_op b (OpCommitTs xid ts)).
Proof. unfold MarkCommitWithTimestamp. cbv zeta. f_equal. solve_built. Qed.

Lemma MarkRollback_write b xid :
  MarkRollback b xid = (Status_OK, write_op b (OpRollback xid)).
Proof. unfold MarkRollback. cbv zeta. f_equal. solve_built. Qed.

#[local] Hint Resolve refines_Put refines_Put_ts refines_Put_parts refines_TimedPut
  refines_PutEntity refines_Delete refines_Delete_ts refines_Delete_parts
  refines_SingleDelete refines_SingleDelete_ts refines_SingleDelete_parts
  refines_DeleteRange refines_DeleteRange_ts refines_DeleteRange_parts
  refines_Merge refines_Merge_ts refines_Merge_parts refines_marker refines_commit : refine.

(** Every append command refines its effect. *)
Lemma exec_append_refines b a c e :
  effect (a_default_ts_sz a) c = Some e -> Repr b a -> admissible a c = true ->
  refines (exec c b) a e.
Proof.
  intros He R Ha. unfold admissible in Ha. rewrite He in Ha.
  assert (effect_fits a e) as Hf by (destruct e; [done|]; by zbool).
  destruct c; zbool; try discriminate He; cbn [exec]; try (eauto with refine; fail);
    injection He as <-; cbn [effect_fits] in Hf.
  - rewrite Internal_PutBlobIndex_write by apply (fits_spec _ _ Hf). auto with refine.
  - rewrite PutLogData_write. auto with refine.
  - rewrite InsertNoop_write. auto with refine.
  - rewrite InsertBeginPrepare_write by done. auto with refine.
  - rewrite InsertEndPrepare_write. auto with refine.
  - rewrite MarkCommit_write. auto with refine.
  - rewrite MarkCommitWithTimestamp_write. auto with refine.
  - rewrite MarkRollback_write. auto with refine.
Qed.

(** ** Refinement of the other commands *)

Lemma Repr_SetSavePoint b a :
  Repr b a ->
  Repr (SetSavePoint b)
    (mkABatch (a_seq a) (a_ops a) (a_ops a :: a_saves a) (a_max_bytes a) (a_default_ts_sz a)
      (a_protected a)).
Proof.
  intros [Hr Hs Hn Hwf Hp Hf Hsv Hc Hm Ht]. split; try done.
  - constructor; [|done]. split; cbn -[Count]; [|by eapply Count_encode|done].
    unfold GetDataSize. by rewrite Hr, size_encode_batch.
Qed.

Lemma Repr_PopSavePoint b a s saves :
  Repr b a -> a_saves a = s :: saves ->
  exists sp stack, save_points_ b = Some (sp :: stack) /\ SaveRepr sp s /\
    s `prefix_of` a_ops a /\
    Repr (set_save_points b (Some stack))
      (mkABatch (a_seq a) (a_ops a) saves (a_max_bytes a) (a_default_ts_sz a)
      (a_protected a)) /\
    saves_chain s saves /\ Forall2 SaveRepr stack saves.
Proof.
  intros [Hr Hs Hn Hwf Hp Hf Hsv Hc Hm Ht] Ea. rewrite Ea in *.
  destruct (save_points_ b) as [[|sp stack]|] eqn:E; try by inversion Hsv.
  cbn in Hsv. apply Forall2_cons in Hsv as [? ?]. cbn in Hc. destruct Hc as [? Hc].
  exists sp, stack. split_and!; try done.
  split; try done. destruct saves as [|s' saves]; [done|]. cbn in *.
  destruct Hc. split; [|done]. by etrans.
Qed.

Lemma no_saves b a :
  Repr b a -> a_saves a = [] -> save_points_ b = None \/ save_points_ b = Some [].
Proof.
  intros R E. pose proof (repr_saves _ _ R) as Hs. rewrite E in Hs.
  apply Forall2_nil_inv_r in Hs. destruct (save_points_ b); cbn in *; subst; auto.
Qed.

(** A proper prefix has a shorter encoding. *)
Lemma prefix_same_size ops ops' :
  ops `prefix_of` ops' -> size (encode_ops ops) = size (encode_ops ops') -> ops = ops'.
Proof.
  intros [[|op k] ->]; [by rewrite app_nil_r|]. rewrite encode_ops_app, size_app.
  change (encode_ops (op :: k)) with (encode_op op ++ encode_ops k). rewrite size_app.
  pose proof (size_encode_op op). pose proof (size_nonneg (encode_ops k)). lia.
Qed.

Lemma Repr_RollbackToSavePoint b a s saves :
  Repr b a -> a_saves a = s :: saves ->
  exists b', RollbackToSavePoint b = (Status_OK, b') /\
    Repr b' (mkABatch (a_seq a) s saves (a_max_bytes a) (a_default_ts_sz a)
      (a_protected a)).
Proof.
  intros R Ea. destruct (Repr_PopSavePoint b a s saves R Ea)
    as (sp & stack & E & [Hz Hcn Hfl] & Hpre & R' & Hch & Hstack).
  unfold RollbackToSavePoint. rewrite E.
  change (rep_ (set_save_points b (Some stack))) with (rep_ b).
  rewrite (repr_rep _ _ R), size_encode_batch, Hz.
  pose proof (size_nonneg (encode_ops s)).
  destruct (Z.eqb_spec (kHeader + size (encode_ops s))
              (kHeader + size (encode_ops (a_ops a)))) as [Heq|Hne].
  { eexists. split; [done|]. rewrite (prefix_same_size s (a_ops a)) by (done || lia). done. }
  rewrite (proj2 (Z.eqb_neq _ 0)) by (unfold kHeader; lia).
  eexists. split; [done|]. destruct Hpre as [k Hk].
  pose proof (repr_count _ _ R) as Hn. rewrite Hk, num_updates_app in Hn.
  pose proof (num_updates_nonneg k). rewrite Hcn.
  destruct R as [Hr Hs _ Hwf Hp Hf _ _ Hm Ht]. rewrite Hk in *.
  apply Forall_app in Hwf as [Hwf _].
  change (prot_info_ (set_rep (set_save_points b (Some stack)) _)) with (prot_info_ b).
  destruct (prot_info_ b) as [entries|] eqn:Eb;
    split; cbn [a_seq a_ops a_saves a_max_bytes a_default_ts_sz a_protected];
    first [done | lia | exact (truncate_rep (a_seq a) s k) | exact Hfl | idtac];
    destruct (a_protected a); try done.
  - injection Hp as ->. rewrite prots_of_app.
    exact (f_equal Some (resize_entries_app _ _ _ (size_prots_of s))).
Qed.

Lemma Repr_SetSequence b a seq :
  Repr b a -> is_uint 64 seq ->
  Repr (SetSequence b seq)
    (mkABatch seq (a_ops a) (a_saves a) (a_max_bytes a) (a_default_ts_sz a)
      (a_protected a)).
Proof.
  intros [Hr Hs Hn Hwf Hp Hf Hsv Hc Hm Ht] ?. split; try done.
  cbn [rep_ SetSequence set_rep a_seq a_ops]. rewrite Hr. apply poke_seq.
Qed.

Lemma Repr_empty b limit ts (p : bool) :
  rep_ b = resize kHeader [] -> content_flags_ b = 0 -> default [] (save_points_ b) = [] ->
  prot_info_ b = (if p then Some [] else None) -> max_bytes_ b = limit ->
  default_cf_ts_sz_ b = ts -> Repr b (mkABatch 0 [] [] limit ts p).
Proof.
  intros Hr Hf Hs Hp Hm Ht.
  split; cbn [a_seq a_ops a_saves a_max_bytes a_default_ts_sz a_protected]; try done.
  by rewrite Hs.
Qed.

Lemma Repr_Clear b a :
  Repr b a -> Repr (Clear b) (mkABatch 0 [] [] (a_max_bytes a) 0 (a_protected a)).
Proof.
  intros R. pose proof (repr_prot _ _ R) as Hp. rewrite <- (repr_max _ _ R).
  destruct (a_protected a); destruct b as [[?|] ? ? ? ? ? ? [?|]]; try discriminate Hp;
    apply Repr_empty; reflexivity.
Qed.

(** The leading no-op is overwritten by the begin marker. *)
Lemma poke_begin seq n (t : ValueType) (rest : bytes) :
  poke 12 [vt_byte t] (EncodeFixed64 seq ++ EncodeFixed32 n ++ vt_byte kTypeNoop :: rest)
  = EncodeFixed64 seq ++ EncodeFixed32 n ++ vt_byte t :: rest.
Proof. reflexivity. Qed.

Lemma flag_of_begin w u :
  flag_of (OpBeginPrepare (GetBeginPrepareType w u))
  = if u && negb w then Z.lor HAS_BEGIN_PREPARE HAS_BEGIN_UNPREPARE else HAS_BEGIN_PREPARE.
Proof. by destruct w, u. Qed.

Lemma Repr_begin_marker b a ops w u :
  Repr b a -> a_ops a = OpNoop :: ops -> negb (w && u) = true ->
  let t := GetBeginPrepareType w u in
  let b1 := match save_points_ b with
            | Some _ => set_save_points b (Some []) | None => b end in
  let b2 := or_flags (set_rep b1 (poke 12 [vt_byte t] (rep_ b1))) HAS_BEGIN_PREPARE in
  Repr (if u then or_flags b2 HAS_BEGIN_UNPREPARE else b2)
    (mkABatch (a_seq a) (OpBeginPrepare t :: ops) [] (a_max_bytes a) (a_default_ts_sz a)
      (a_protected a)).
Proof.
  intros [Hr Hs Hn Hwf Hp Hf Hsv Hc Hm Ht] Eo Hwu t b1 b2. rewrite Eo in *.
  pose proof (Forall_inv_tail Hwf) as Hwf'.
  assert (rep_ b1 = rep_ b /\ prot_info_ b1 = prot_info_ b /\
    content_flags_ b1 = content_flags_ b /\ max_bytes_ b1 = max_bytes_ b /\
    default_cf_ts_sz_ b1 = default_cf_ts_sz_ b /\ default [] (save_points_ b1) = [])
    as (H1 & H2 & H3 & H4 & H5 & H6)
    by (unfold b1; by destruct (save_points_ b) eqn:E; rewrite ?E).
  assert (rep_ b2 = encode_batch (a_seq a) (OpBeginPrepare t :: ops)) as Hrep
    by (unfold b2; cbn [rep_ or_flags set_content_flags set_rep]; rewrite H1, Hr; apply poke_begin).
  assert (content_flags_ b2 = Z.lor (content_flags_ b) HAS_BEGIN_PREPARE) as Hfl
    by (unfold b2; cbn [or_flags set_content_flags content_flags_ set_rep]; by rewrite H3).
  assert (forall b', rep_ b' = rep_ b2 -> prot_info_ b' = prot_info_ b1 ->
    save_points_ b' = save_points_ b1 -> max_bytes_ b' = max_bytes_ b1 ->
    default_cf_ts_sz_ b' = default_cf_ts_sz_ b1 ->
    content_flags_ b' = Z.lor (content_flags_ b) (flag_of (OpBeginPrepare t)) ->
    Repr b' (mkABatch (a_seq a) (OpBeginPrepare t :: ops) [] (a_max_bytes a)
               (a_default_ts_sz a) (a_protected a))) as L.
  { intros b' E1 E2 E3 E4 E5 E6.
    split; cbn [a_seq a_ops a_saves a_max_bytes a_default_ts_sz a_protected]; try congruence; try done.
    - constructor; [|done]. unfold t. by destruct w, u.
    - rewrite E2, H2. destruct (prot_info_ b); [|done]. cbn in *. by subst.
    - rewrite E6, Hf. cbn [flags_of foldr flag_of]. apply Z.lor_comm.
    - by rewrite E3, H6. }
  destruct u; apply L; try reflexivity.
  - change (Z.lor (content_flags_ b2) HAS_BEGIN_UNPREPARE
      = Z.lor (content_flags_ b) (flag_of (OpBeginPrepare t))).
    unfold t. rewrite Hfl, flag_of_begin, <- Z.lor_assoc. by destruct w.
  - unfold t. rewrite Hfl, flag_of_begin. done.
Qed.

Lemma Repr_MarkEndPrepare b a xid ops w u :
  Repr b a -> a_ops a = OpNoop :: ops -> negb (w && u) = true -> size xid < UINT32_MAX ->
  exists b', MarkEndPrepare b xid w u = (Status_OK, b') /\
    Repr b' (mkABatch (a_seq a)
      (OpBeginPrepare (GetBeginPrepareType w u) :: ops ++ [OpEndPrepare xid]) []
      (a_max_bytes a) (a_default_ts_sz a)
      (a_protected a)).
Proof.
  intros R Eo Hwu Hx. pose proof (Repr_begin_marker b a ops w u R Eo Hwu) as R'.
  cbv zeta in R'. unfold MarkEndPrepare. rewrite InsertEndPrepare_write.
  eexists. split; [done|].
  apply (Repr_write_op _ _ (OpEndPrepare xid)) in R'; [exact R'| |].
  - unfold wf_op. cbn. rewrite (proj2 (Z.ltb_lt _ _)); [done|]. unfold UINT32_MAX in *. lia.
  - pose proof (repr_count _ _ R) as Hn. rewrite Eo in Hn.
    cbn [a_ops]. rewrite num_updates_app.
    change (num_updates (OpBeginPrepare _ :: ops)) with (num_updates (OpNoop :: ops)).
    change (num_updates [OpEndPrepare xid]) with 0. lia.
Qed.

(** One command. *)
Lemma exec_refines_spec b a c :
  Repr b a -> admissible a c = true ->
  fst (exec c b) = fst (spec c a) /\ Repr (snd (exec c b)) (snd (spec c a)).
Proof.
  intros R Ha. destruct (effect (a_default_ts_sz a) c) as [e|] eqn:He.
  { pose proof (exec_append_refines b a c e He R Ha) as L.
    unfold spec. destruct a as [seq ops saves limit ts p]. cbn [a_default_ts_sz] in He. by rewrite He. }
  unfold spec, admissible in *. rewrite He in Ha. destruct a as [seq ops saves limit ts p].
  cbn [a_default_ts_sz a_ops] in *. rewrite He. cbn [andb] in Ha.
  destruct c; try discriminate He; try (destruct cf; discriminate He); cbn [exec].
  - destruct ops as [|[] ops]; zbool; try done.
    destruct (Repr_MarkEndPrepare _ _ xid ops write_after_commit unprepared_batch R)
      as (b' & -> & R'); [done|by apply negb_true_iff|done|done].
  - split; [done|]. by apply (Repr_SetSavePoint _ _ R).
  - destruct saves as [|s saves].
    + unfold RollbackToSavePoint. by destruct (no_saves _ _ R) as [-> | ->].
    + by destruct (Repr_RollbackToSavePoint _ _ s saves R) as (b' & -> & R').
  - unfold PopSavePoint. destruct saves as [|s saves].
    + by destruct (no_saves _ _ R) as [-> | ->].
    + by destruct (Repr_PopSavePoint _ _ s saves R) as (sp & stack & -> & _ & _ & ? & _).
  - split; [done|]. apply (Repr_SetSequence _ _ _ R). by apply bool_decide_eq_true in Ha.
  - split; [done|]. by eapply Repr_fields.
  - split; [done|]. exact (Repr_Clear _ _ R).
Qed.

(** Batches that represent the same abstract batch have the same content. *)
Lemma Repr_content b b' a :
  Repr b a -> Repr b' a ->
  rep_ b' = rep_ b /\ prot_info_ b' = prot_info_ b /\ content_flags_ b' = content_flags_ b.
Proof. intros [] []. split_and!; congruence. Qed.

Lemma exec_all_refines cs b a :
  Repr b a -> admissible_all a cs = true ->
  fst (exec_all cs b) = fst (spec_all cs a) /\
  Repr (snd (exec_all cs b)) (snd (spec_all cs a)).
Proof.
  revert b a. induction cs as [|c cs IH]; intros b a R; [done|].
  cbn [admissible_all exec_all spec_all]. intros [Hc Hcs]%andb_true_iff.
  destruct (exec_refines_spec b a c R Hc) as [Es Er].
  destruct (exec c b) as [s b1], (spec c a) as [s' a1]. cbn [fst snd] in *. subst s'.
  destruct (IH b1 a1 Er Hcs) as [E1 E2].
  destruct (exec_all cs b1), (spec_all cs a1). cbn in *. by subst.
Qed.

(** ** Nested savepoints *)

(** Whether the commands keep to the savepoints they set themselves, starting
    and ending at depth [d]; commands that reset the stack are excluded. *)
Fixpoint nested (d : nat) (cs : list Cmd) : bool :=
  match cs with
  | [] => (d =? 0)%nat
  | c :: cs =>
      match c with
      | CSetSavePoint => nested (S d) cs
      | CRollbackToSavePoint | CPopSavePoint =>
          match d with O => false | S d => nested d cs end
      | CMarkEndPrepare _ _ _ | CClear | CSetSequence _ => false
      | _ => nested d cs
      end
  end.

(** A command inside a nest leaves everything but the operations and the
    savepoints above [base] alone. *)
Definition same_frame (a a' : ABatch) : Prop :=
  a_seq a' = a_seq a /\ a_max_bytes a' = a_max_bytes a /\
  a_default_ts_sz a' = a_default_ts_sz a /\ a_protected a' = a_protected a.

Lemma apply_effect_frame e a :
  same_frame a (snd (apply_effect e a)) /\ a_saves (snd (apply_effect e a)) = a_saves a.
Proof. unfold apply_effect. destruct e; [done|]. by case_if. Qed.

Lemma nested_spec cs d a base extra :
  nested d cs = true -> a_saves a = extra ++ base -> length extra = d ->
  same_frame a (snd (spec_all cs a)) /\ a_saves (snd (spec_all cs a)) = base.
Proof.
  revert d a extra. induction cs as [|c cs IH]; intros d a extra Hn Hs Hl.
  - cbn in *. apply Nat.eqb_eq in Hn. subst. by destruct extra.
  - cbn [spec_all].
    assert (forall d' extra', nested d' cs = true -> length extra' = d' ->
      same_frame a (snd (spec c a)) -> a_saves (snd (spec c a)) = extra' ++ base ->
      same_frame a (snd (let '(s, a1) := spec c a in
                         let '(ss, a2) := spec_all cs a1 in (s :: ss, a2))) /\
      a_saves (snd (let '(s, a1) := spec c a in
                    let '(ss, a2) := spec_all cs a1 in (s :: ss, a2))) = base) as step.
    { intros d' extra' Hn' Hl' Hf Hs'. destruct (spec c a) as [s a1]. cbn [snd] in *.
      destruct (IH d' a1 extra' Hn' Hs' Hl') as [(? & ? & ? & ?) ?].
      destruct Hf as (? & ? & ? & ?).
      destruct (spec_all cs a1). cbn [snd] in *. unfold same_frame. intuition congruence. }
    unfold spec in *. destruct a as [seq ops saves limit ts p]. cbn [a_saves] in Hs.
    destruct (effect ts c) as [e|] eqn:He.
    + destruct (apply_effect_frame e (mkABatch seq ops saves limit ts p)) as [? Hsv].
      apply (step d extra); [|done|done|by rewrite Hsv].
      destruct c; try done; discriminate He.
    + destruct c; try discriminate Hn; try (discriminate He || (destruct cf; discriminate He));
        cbn in Hn.
      * apply (step (S d) (ops :: extra)); [done|by cbn; rewrite Hl|done|by cbn; rewrite Hs].
      * destruct d as [|d]; [done|]. destruct extra as [|x extra]; [done|]. rewrite Hs in *.
        apply (step d extra); try done. by injection Hl.
      * destruct d as [|d]; [done|]. destruct extra as [|x extra]; [done|]. rewrite Hs in *.
        apply (step d extra); try done. by injection Hl.
      * by apply (step d extra).
Qed.

Lemma spec_all_app cs cs' a :
  snd (spec_all (cs ++ cs') a) = snd (spec_all cs' (snd (spec_all cs a))).
Proof.
  revert a. induction cs as [|c cs IH]; intros a; [done|]. cbn [app spec_all].
  destruct (spec c a) as [s a1]. specialize (IH a1).
  destruct (spec_all (cs ++ cs') a1), (spec_all cs a1). by cbn in *.
Qed.

Lemma nested_rollback cs a :
  nested 0 cs = true ->
  snd (spec_all (CSetSavePoint :: cs ++ [CRollbackToSavePoint]) a) = a.
Proof.
  intros Hn. destruct a as [seq ops saves limit ts p].
  change (CSetSavePoint :: cs ++ [CRollbackToSavePoint])
    with ([CSetSavePoint] ++ cs ++ [CRollbackToSavePoint]).
  rewrite !spec_all_app. cbn [spec_all spec effect snd].
  set (a1 := mkABatch seq ops (ops :: saves) limit ts p).
  destruct (nested_spec cs 0 a1 (ops :: saves) [] Hn eq_refl eq_refl) as [Hf Hs].
  destruct (snd (spec_all cs a1)) as [q o sv l t pr]. unfold same_frame in Hf.
  cbn in Hf, Hs. destruct Hf as (-> & -> & -> & ->). by subst.
Qed.

(** ** [Append] *)

Lemma Append_checks b a :
  Repr b a ->
  match prot_info_ b with Some e => negb (size e =? Count b) | None => false end = false.
Proof.
  intros R. rewrite (repr_prot _ _ R). destruct (a_protected a); [|done].
  rewrite size_prots_of, (Count_encode _ _ _ (repr_rep _ _ R) (repr_count _ _ R)).
  by rewrite Z.eqb_refl.
Qed.

(** The part of [src] that is appended: all of it, or the operations before the
    WAL termination point. *)
Definition appended (src : WriteBatch) (a : ABatch) (wal_only : bool) (cut : list Op) : Prop :=
  if wal_only && negb (is_cleared (wal_term_point_ src))
  then SaveRepr (wal_term_point_ src) cut /\ cut `prefix_of` a_ops a
  else cut = a_ops a.

Lemma appended_range src a wal_only cut :
  Repr src a -> appended src a wal_only cut ->
  (if wal_only && negb (is_cleared (wal_term_point_ src)) then
     (sp_size (wal_term_point_ src) - kHeader, sp_count (wal_term_point_ src),
      sp_content_flags (wal_term_point_ src))
   else (size (rep_ src) - kHeader, Count src, content_flags_ src))
  = (size (encode_ops cut), num_updates cut, flags_of cut) /\ cut `prefix_of` a_ops a.
Proof.
  intros R. unfold appended. case_if.
  - intros [[-> -> ->] ?]. split; [|done]. do 2 f_equal. lia.
  - intros ->. split; [|done].
    rewrite (Count_encode _ _ _ (repr_rep _ _ R) (repr_count _ _ R)), (repr_flags _ _ R).
    rewrite (repr_rep _ _ R), size_encode_batch. do 2 f_equal. lia.
Qed.

Lemma num_updates_0 ops : num_updates ops = 0 -> prots_of ops = [].
Proof.
  rewrite <- size_prots_of. destruct (prots_of ops); [done|]. rewrite size_cons.
  pose proof (size_nonneg l). lia.
Qed.

Lemma Append_fields dst src wal_only len count flags :
  match prot_info_ src with Some e => negb (size e =? Count src) | None => false end = false ->
  match prot_info_ dst with Some e => negb (size e =? Count dst) | None => false end = false ->
  (if wal_only && negb (is_cleared (wal_term_point_ src)) then
     (sp_size (wal_term_point_ src) - kHeader, sp_count (wal_term_point_ src),
      sp_content_flags (wal_term_point_ src))
   else (size (rep_ src) - kHeader, Count src, content_flags_ src)) = (len, count, flags) ->
  exists dst', Append dst src wal_only = (Status_OK, dst') /\
    rep_ dst' = poke 8 (EncodeFixed32 (wrap 32 (Count dst + count))) (rep_ dst)
                ++ ztake len (zdrop kHeader (rep_ src)) /\
    prot_info_ dst' = (fun e => default [] (prot_info_ dst) ++ ztake count e)
                      <$> prot_info_ src /\
    content_flags_ dst' = Z.lor (content_flags_ dst) flags /\
    save_points_ dst' = save_points_ dst /\ max_bytes_ dst' = max_bytes_ dst /\
    default_cf_ts_sz_ dst' = default_cf_ts_sz_ dst.
Proof.
  intros H1 H2 H3. unfold Append. cbv zeta. rewrite H1, H2, H3.
  destruct (prot_info_ src); eexists; split_and!; reflexivity.
Qed.

(** ** Properties *)

(** C1: any sequence of calls on a new batch behaves as the abstract batch does.
    Every call returns the status of the abstract command: invalid column family
    arguments are refused, an update that would exceed [max_bytes] returns the
    memory limit error, popping an empty savepoint stack returns not-found. After
    the calls the bytes, the count, the sequence number, the content flags, the
    protection entries and the savepoint stack are exactly those of the abstract
    operation sequence. *)
Theorem batch_refines_spec (cs : list Cmd) (max_bytes prot_bytes ts_sz : Z) :
  let a0 := mkABatch 0 [] [] max_bytes ts_sz (negb (prot_bytes =? 0)) in
  let b0 := new_WriteBatch max_bytes prot_bytes ts_sz in
  admissible_all a0 cs = true ->
  fst (exec_all cs b0) = fst (spec_all cs a0) /\
  Repr (snd (exec_all cs b0)) (snd (spec_all cs a0)).
Proof.
  intros a0 b0. apply exec_all_refines. by apply Repr_empty.
Qed.

(** C16: savepoints nest. Setting a savepoint, running any commands, whether they
    succeed or fail, and rolling back gives back the bytes, the count, the protection
    entries, the content flags and the savepoints of the batch before; provided that the
    commands close every savepoint they set and no other one, that none of them clears
    the batch, sets its sequence number or ends a prepared section, and that each is
    admissible: fewer than 2^32 updates, fields below 4 GiB, markers as the write policies
    use them. *)
Theorem rollback_restores (cs : list Cmd) (b : WriteBatch) (a : ABatch) :
  let run := CSetSavePoint :: cs ++ [CRollbackToSavePoint] in
  Repr b a -> nested 0 cs = true -> admissible_all a run = true ->
  let b' := snd (exec_all run b) in
  rep_ b' = rep_ b /\ prot_info_ b' = prot_info_ b /\ content_flags_ b' = content_flags_ b /\
  Count b' = Count b /\ Repr b' a.
Proof.
  intros run R Hn Ha b'. destruct (exec_all_refines run b a R Ha) as [_ R'].
  unfold run in R'. rewrite nested_rollback in R' by done. fold run b' in R'.
  destruct (Repr_content b b' a R R') as (Hr & ? & ?).
  split_and!; try done. unfold Count. by rewrite Hr.
Qed.

(** [Append] concatenates. Appending [src] to [dst] gives the batch of the
    operations of [dst] followed by those of [src], or by those before the WAL
    termination point of [src] when only the WAL part is asked for, with the
    counts added, the flags joined and the protection entries concatenated; the
    two batches agree on being protected, or [dst] has no updates. *)
Theorem append_concatenates (dst src : WriteBatch) (ad as_ : ABatch) (wal_only : bool)
    (cut : list Op) :
  Repr dst ad -> Repr src as_ -> appended src as_ wal_only cut ->
  a_protected ad = a_protected as_ \/ num_updates (a_ops ad) = 0 ->
  num_updates (a_ops ad ++ cut) < 2 ^ 32 ->
  exists dst', Append dst src wal_only = (Status_OK, dst') /\
    Repr dst' (mkABatch (a_seq ad) (a_ops ad ++ cut) (a_saves ad) (a_max_bytes ad)
                 (a_default_ts_sz ad) (a_protected as_)).
Proof.
  intros Rd Rs Hcut Hp Hn.
  destruct (appended_range src as_ wal_only cut Rs Hcut) as [Hrange [k Hk]].
  destruct (Append_fields dst src wal_only _ _ _ (Append_checks _ _ Rs) (Append_checks _ _ Rd)
    Hrange) as (dst' & -> & Hr & Hpr & Hf & Hsv & Hm & Ht).
  exists dst'. split; [done|]. pose proof (num_updates_nonneg (a_ops ad)).
  pose proof (num_updates_nonneg cut). pose proof (repr_wf _ _ Rs) as Hwf.
  rewrite Hk in Hwf. apply Forall_app in Hwf as [Hwf _].
  rewrite (Count_encode _ _ _ (repr_rep _ _ Rd) (repr_count _ _ Rd)) in Hr.
  rewrite (repr_rep _ _ Rs), encode_batch_tail, Hk, encode_ops_app, ztake_app in Hr.
  split; cbn [a_seq a_ops a_saves a_max_bytes a_default_ts_sz a_protected];
    try (destruct Rd; congruence || done).
  - rewrite Hr, (repr_rep _ _ Rd). unfold encode_batch.
    rewrite poke_count, num_updates_app, encode_ops_app, <- !app_assoc.
    rewrite num_updates_app in Hn. by rewrite wrap_small by (unfold is_uint; lia).
  - apply Forall_app. split; [apply Rd|done].
  - rewrite Hpr, (repr_prot _ _ Rs), (repr_prot _ _ Rd), Hk.
    destruct (a_protected as_); [|done]. cbn. f_equal.
    rewrite !prots_of_app, <- (size_prots_of cut), ztake_app. f_equal.
    destruct (a_protected ad); [done|]. destruct Hp as [|Hp]; [done|].
    by rewrite num_updates_0.
  - by rewrite Hf, (repr_flags _ _ Rd), flags_of_app.
  - apply saves_chain_app, Rd.
Qed.

(** C15: an update is atomic with respect to the size limit. If the bytes with
    the new entry fit in [max_bytes], the entry is appended; otherwise the call
    returns the memory limit error and leaves the very same batch, count, bytes,
    flags and protection entries included. *)
Theorem update_atomic (b : WriteBatch) (a : ABatch) (cf : Z) (k v : Slice) :
  Repr b a ->
  let outcome op r :=
    fits a op = true ->
    let over := negb (max_bytes_ b =? 0)
                      && (size (rep_ b) + size (encode_op op) >? max_bytes_ b) in
    if over then r = (MemoryLimit, b)
    else fst r = Status_OK /\ Repr (snd r) (with_ops a (a_ops a ++ [op])) /\
         GetDataSize (snd r) = GetDataSize b + size (encode_op op) in
  outcome (OpPut cf k v) (Internal_Put b cf k v) /\
  outcome (OpDelete cf k) (Internal_Delete b cf k) /\
  outcome (OpSingleDelete cf k) (Internal_SingleDelete b cf k) /\
  outcome (OpDeleteRange cf k v) (Internal_DeleteRange b cf k v) /\
  outcome (OpMerge cf k v) (Internal_Merge b cf k v) /\
  outcome (OpPutBlobIndex cf k v) (Internal_PutBlobIndex b cf k v) /\
  outcome (OpLogData v) (PutLogData b v).
Proof.
  intros R outcome.
  assert (forall op r, (small op -> r = commit (LocalSavePoint b) (write_op b op)) ->
    outcome op r) as L.
  { intros op r Hr Hf over. destruct (fits_spec _ _ Hf) as (Hwf & Hs & Hn).
    pose proof (Repr_write_op b a op R Hwf Hn) as R'. rewrite (Hr Hs).
    rewrite (commit_write_op b a op R Hn). unfold over, over_limit, GetDataSize.
    rewrite (repr_rep _ _ R), (repr_max _ _ R), size_encode_batch, encode_ops_app,
      encode_ops_one, size_app, Z.add_assoc.
    case_if; [done|]. split_and!; [done|done|]. cbn [snd].
    rewrite (repr_rep _ _ R'), size_encode_batch. cbn [a_ops with_ops].
    rewrite encode_ops_app, encode_ops_one, size_app. lia. }
  split_and!; apply L; intros.
  - by apply Internal_Put_write.
  - by apply Internal_Delete_write.
  - by apply Internal_SingleDelete_write.
  - by apply Internal_DeleteRange_write.
  - by apply Internal_Merge_write.
  - by apply Internal_PutBlobIndex_write.
  - apply PutLogData_write.
Qed.

End BuildLemmas.

(** ** Executions *)

(** A codec for executions: length-prefixed names and values in the given order. *)
Definition plain_codec : WideColumnCodec := {|
  SortColumns columns := columns;
  Serialize columns :=
    (Status_OK, encode_fields (List.flat_map (fun c => [fst c; snd c]) columns));
|}.

Definition demo_cmds : list Cmd :=
  [ CPut None [x61] [x31]; CSetSavePoint; CDelete (Some (mkCFHandle 300 (Some 0))) [x62];
    CPutEntity (Some (mkCFHandle 7 None)) [x63] [([x64], [x65])]; CRollbackToSavePoint;
    CMerge (Some (mkCFHandle 9 (Some 8))) [x66] [x67]; CPopSavePoint;
    CPut (Some (mkCFHandle 0 (Some 4))) [x68] [x69]; CPutLogData [x6a; x6b] ].

Lemma batch_refines_spec_witness :
  let a0 := mkABatch 0 [] [] 40 0 true in
  let b0 := new_WriteBatch 40 8 0 in
  fst (@exec_all sum_hasher plain_codec demo_cmds b0)
    = fst (@spec_all plain_codec demo_cmds a0) /\
  @Repr sum_hasher (snd (@exec_all sum_hasher plain_codec demo_cmds b0))
    (snd (@spec_all plain_codec demo_cmds a0)).
Proof.
  apply (@batch_refines_spec sum_hasher plain_codec demo_cmds 40 8 0).
  vm_compute. reflexivity.
Defined.

Lemma rollback_restores_witness :
  let b := new_WriteBatch 0 8 0 in
  let run := CSetSavePoint :: [CPut None [x61] [x31]; CSetSavePoint; CDelete None [x61];
    CRollbackToSavePoint; CPutLogData [x62]] ++ [CRollbackToSavePoint] in
  let b' := snd (@exec_all sum_hasher plain_codec run b) in
  rep_ b' = rep_ b /\ prot_info_ b' = prot_info_ b /\ content_flags_ b' = content_flags_ b /\
  Count b' = Count b /\ @Repr sum_hasher b' (mkABatch 0 [] [] 0 0 true).
Proof.
  apply (@rollback_restores sum_hasher plain_codec [CPut None [x61] [x31]; CSetSavePoint;
    CDelete None [x61]; CRollbackToSavePoint; CPutLogData [x62]]
    (new_WriteBatch 0 8 0) (mkABatch 0 [] [] 0 0 true)).
  - apply Repr_empty; reflexivity.
  - reflexivity.
  - vm_compute. reflexivity.
Defined.

Lemma append_concatenates_witness :
  exists dst', Append (new_WriteBatch 0 8 0)
      (snd (@Internal_Put sum_hasher (new_WriteBatch 0 8 0) 5 [x61] [x62])) false
    = (Status_OK, dst') /\
    @Repr sum_hasher dst' (mkABatch 0 [OpPut 5 [x61] [x62]] [] 0 0 true).
Proof.
  apply (@append_concatenates sum_hasher _ _
    (mkABatch 0 [] [] 0 0 true) (mkABatch 0 [OpPut 5 [x61] [x62]] [] 0 0 true)
    false [OpPut 5 [x61] [x62]]).
  - apply Repr_empty; reflexivity.
  - split; try reflexivity; try done. by repeat constructor.
  - reflexivity.
  - by left.
  - vm_compute. reflexivity.
Defined.

Lemma update_atomic_witness :
  let b := new_WriteBatch 16 0 0 in
  @Internal_Put sum_hasher b 0 [x61] [x62; x63] = (MemoryLimit, b) /\
  fst (@Internal_Delete sum_hasher b 0 [x61]) = Status_OK.
Proof.
  assert (@Repr sum_hasher (new_WriteBatch 16 0 0) (mkABatch 0 [] [] 16 0 false)) as R
    by (apply Repr_empty; reflexivity).
  destruct (@update_atomic sum_hasher _ _ 0 [x61] [x62; x63] R) as (Hput & Hdel & _).
  split.
  - apply Hput. vm_compute. reflexivity.
  - apply Hdel. vm_compute. reflexivity.
Defined.
