(* ===== verification/WriteBatchIterate.v ===== *)
(** * WriteBatchIterate: reading refines the abstract batch

    Parsing an encoded operation gives back the operation, [Iterate] over any
    handler is the abstract run [run_ops] over the operations of the batch, it
    terminates on every input, and the queries and checks built on it
    ([ComputeContentFlags], [VerifyChecksum], [UpdateProtectionInfo]) compute
    what the operations say. *)

From S2P Require Import Prelude.
From S2P Require Import Status.
From S2P Require Import Slice.
From S2P Require Import Coding.
From S2P Require Import DbFormat.
From S2P Require Import KvChecksum.
From S2P Require Import PackedValue.
From S2P Require Import WriteBatch.
From S2P Require Import WriteBatchRead.
From S2P Require Import WriteBatchSpec.
From S2P Require Import WriteBatchBuild.

(** ** The record an operation is read as *)

Definition tag_of (op : Op) : ValueType :=
  match shape op with
  | Update cf t cf_t _ => if cf =? 0 then t else cf_t
  | Marker t _ => t
  end.

Definition cf_of (op : Op) : Z :=
  match shape op with Update cf _ _ _ => cf | Marker _ _ => 0 end.

Definition out_of (want_time : bool) (op : Op) (r : RecordOut) : RecordOut :=
  let r := set_cf (set_tag r (vt_val (tag_of op))) (cf_of op) in
  match op with
  | OpTimedPut _ k v t =>
      if want_time then set_time (set_value (set_key r k) v) t
      else set_value (set_key r k) (PackValueAndWriteTime v t)
  | OpPut _ k v | OpPutEntity _ k v | OpDeleteRange _ k v | OpMerge _ k v
  | OpPutBlobIndex _ k v => set_value (set_key r k) v
  | OpDelete _ k | OpSingleDelete _ k => set_key r k
  | OpLogData d => set_blob r d
  | OpNoop | OpBeginPrepare _ => r
  | OpEndPrepare xid | OpCommit xid | OpRollback xid => set_xid r xid
  | OpCommitTs xid ts => set_xid (set_key r ts) xid
  end.

(** ** The abstract run of a handler over operations *)

Definition is_unprepare (kind : ValueType) : bool :=
  match kind with kTypeBeginUnprepareXID => true | _ => false end.

Section Run.
Context {S : Type} (hd : Handler S).

(** The callback of an operation, with the transaction policy checks. *)
Definition handle (op : Op) (empty_batch : bool) (h : S) : Status * S :=
  match op with
  | OpPut cf k v => PutCF hd cf k v h
  | OpTimedPut cf k v t => TimedPutCF hd cf k v t h
  | OpPutEntity cf k e => PutEntityCF hd cf k e h
  | OpDelete cf k => DeleteCF hd cf k h
  | OpSingleDelete cf k => SingleDeleteCF hd cf k h
  | OpDeleteRange cf k e => DeleteRangeCF hd cf k e h
  | OpMerge cf k v => MergeCF hd cf k v h
  | OpPutBlobIndex cf k v => PutBlobIndexCF hd cf k v h
  | OpLogData d => (Status_OK, LogData hd d h)
  | OpNoop => MarkNoopH hd empty_batch h
  | OpBeginPrepare kind =>
      let '(s, h) := MarkBeginPrepareH hd (is_unprepare kind) h in
      let after := WriteAfterCommit hd h in
      let before := WriteBeforePrepare hd h in
      (match kind with
       | kTypeBeginUnprepareXID =>
           policy_check (policy_check s after kEnabled msg_unprepared_enabled)
             before kDisabled msg_unprepared_disabled
       | kTypeBeginPersistedPrepareXID =>
           policy_check s after kEnabled msg_prepared_enabled
       | _ =>
           policy_check (policy_check s after kDisabled msg_committed_disabled)
             before kEnabled msg_committed_before_prepare
       end, h)
  | OpEndPrepare xid => MarkEndPrepareH hd xid h
  | OpCommit xid => MarkCommitH hd xid h
  | OpCommitTs xid ts => MarkCommitWithTimestampH hd xid ts h
  | OpRollback xid => MarkRollbackH hd xid h
  end.

(** Whether the batch counts as empty after the operation: what [MarkNoop] is
    told when it comes next. *)
Definition next_empty (op : Op) (s : Status) (empty_batch : bool) : bool :=
  match op with
  | OpPutBlobIndex _ _ _ => empty_batch
  | OpLogData _ | OpBeginPrepare _ => false
  | OpEndPrepare _ | OpCommit _ | OpRollback _ | OpNoop => true
  | OpCommitTs _ _ => if ok s then true else empty_batch
  | _ => if ok s then false else empty_batch
  end.

Definition next_found (op : Op) (s : Status) (found : Z) : Z :=
  if is_update op && ok s then wrap 32 (found + 1) else found.

(** One callback: status, handler state, [empty_batch], [found]. *)
Definition step_op (op : Op) (h : S) (e : bool) (f : Z) : Status * S * bool * Z :=
  let '(s, h) := handle op e h in (s, h, next_empty op s e, next_found op s f).

(** The operations are handed to the handler in order until it declines to
    continue or reports an error. A [TryAgain] is retried once. The result is the
    status, the handler state, whether the handler still wanted to continue, and
    [found]. *)
Fixpoint run_ops (ops : list Op) (h : S) (e : bool) (f : Z) : Status * S * bool * Z :=
  match ops with
  | [] => (Status_OK, h, true, f)
  | op :: ops =>
      let '(c, h) := Continue hd h in
      if negb c then (Status_OK, h, false, f)
      else
        let '(s, h, e, f) := step_op op h e f in
        if IsTryAgain s then
          let '(c, h) := Continue hd h in
          if negb c then (s, h, false, f)
          else
            let '(s, h, e, f) := step_op op h e f in
            if IsTryAgain s then
              let '(c, h) := Continue hd h in
              if negb c then (s, h, false, f)
              else (Corruption msg_two_try_again "", h, true, f)
            else if ok s then run_ops ops h e f else (s, h, true, f)
        else if ok s then run_ops ops h e f else (s, h, true, f)
  end.

Definition run_batch (ops : list Op) (h : S) : Status * S :=
  let '(s, h, _, _) := run_ops ops h true 0 in (s, h).

End Run.

(** ** Parsing an operation *)

Section Parsing.
Context `{VarintReaderLaws}.

Lemma read_field_encode set err k s rest r :
  (size s <? 2 ^ 32) = true ->
  read_field set err k (encode_slice s ++ rest) r = k rest (set r s).
Proof.
  intros ?%Z.ltb_lt. unfold read_field, encode_slice.
  rewrite wrap_small by (split; [apply size_nonneg|done]).
  by rewrite <- app_assoc, GetLengthPrefixedSlice_Put.
Qed.

Lemma read_packed_encode w err v t rest r :
  (size (PackValueAndWriteTime v t) <? 2 ^ 32) = true -> is_uint 64 t ->
  read_packed w err (encode_slice (PackValueAndWriteTime v t) ++ rest) r
  = Some (Status_OK, rest, if w then set_time (set_value r v) t else set_value r (PackValueAndWriteTime v t)).
Proof.
  intros ?%Z.ltb_lt Ht. unfold read_packed, encode_slice.
  rewrite wrap_small by (split; [apply size_nonneg|done]).
  rewrite <- app_assoc, GetLengthPrefixedSlice_Put by done.
  by destruct w; [rewrite ParsePackedValueWithWriteTime_Pack|].
Qed.

Lemma read_cf_encode err k cf rest r :
  is_uint 32 cf -> read_cf err k (EncodeVarint32 cf ++ rest) r = k rest (set_cf r cf).
Proof. intros. unfold read_cf. by rewrite GetVarint32_Encode. Qed.

Lemma read_record_tag w t rest r :
  ReadRecordFromWriteBatch w (vt_byte t :: rest) r
  = read_body w t rest (set_cf (set_tag r (vt_val t)) 0).
Proof.
  unfold ReadRecordFromWriteBatch. cbv zeta.
  change (default x00 (head (vt_byte t :: rest))) with (vt_byte t).
  by rewrite vt_byte_val, vt_of_val.
Qed.

(** The record of an update starts with its tag and, if it is not the default
    one, its column family. *)
Lemma read_record_update w cf t cf_t err rest r :
  is_uint 32 cf -> read_body w cf_t = read_cf err (read_body w t) ->
  ReadRecordFromWriteBatch w (encode_tag cf t cf_t ++ rest) r
  = read_body w t rest (set_cf (set_tag r (vt_val (if cf =? 0 then t else cf_t))) cf).
Proof.
  intros Hcf Hcft. unfold encode_tag. destruct (Z.eqb_spec cf 0) as [->|]; cbn [app].
  - by rewrite read_record_tag.
  - by rewrite read_record_tag, Hcft, read_cf_encode.
Qed.

Lemma read_op w op rest r :
  wf_op op = true ->
  ReadRecordFromWriteBatch w (encode_op op ++ rest) r = Some (Status_OK, rest, out_of w op r).
Proof.
  intros Hwf. unfold wf_op in Hwf. unfold encode_op.
  destruct op; cbn [shape forallb] in *;
    repeat match goal with
    | H : (_ && _)%bool = true |- _ => apply andb_true_iff in H; destruct H
    | H : bool_decide _ = true |- _ => apply bool_decide_eq_true in H
    end; cbn [encode_fields foldr]; rewrite <- ?app_assoc, ?app_nil_r, <- ?app_comm_cons;
    try (eapply eq_trans; [eapply read_record_update; [done|reflexivity]|];
         cbn [read_body]; unfold read_key_value; cbn [app];
         rewrite ?read_field_encode by done; rewrite ?read_packed_encode by done; reflexivity);
    try (rewrite read_record_tag; cbn [read_body app]; rewrite <- ?app_assoc;
         rewrite ?read_field_encode by done; reflexivity).
  destruct kind; try done; by rewrite read_record_tag.
Qed.

Lemma dispatch_op {S} (hd : Handler S) op r h e f :
  wf_op op = true ->
  dispatch hd (out_of true op r) h e f = Some (step_op hd op h e f).
Proof.
  intros Hwf. unfold dispatch, step_op, next_empty, next_found, handle, counted, marker.
  destruct op; try (destruct kind; try done); unfold out_of, tag_of, cf_of; cbn [shape];
    try (destruct (cf =? 0));
    cbn [set_tag set_cf set_key set_value set_blob set_xid set_time
         r_tag r_column_family r_key r_value r_blob r_xid r_write_unix_time
         is_update shape andb]; rewrite ?vt_of_val; cbv iota beta zeta;
    cbn [is_unprepare]; repeat case_match; simplify_eq; done.
Qed.

(** ** [Iterate] refines the abstract run *)

Section IterateLemmas.
Context {S : Type} (hd : Handler S).

(** What the loop returns for the result of a run. *)
Definition finish (b : WriteBatch) (whole : bool) (res : Status * S * bool * Z)
    : option (Status * S) :=
  let '(s, h, c, f) := res in Some (iterate_end b whole c s f, h).

Lemma encode_op_cons op : exists c l, encode_op op = c :: l.
Proof.
  pose proof (size_encode_op op). destruct (encode_op op) as [|c l]; [|by eauto].
  rewrite size_nil in *. lia.
Qed.

Lemma iterate_end_error b whole c s f :
  ok s = false -> iterate_end b whole c s f = s.
Proof. unfold iterate_end. by intros ->. Qed.

(** Two iterations per operation and one for the final test. *)
Lemma iterate_loop_run ops fuel b whole r h e f s last :
  Forall (fun op => wf_op op = true) ops -> (2 * length ops < fuel)%nat -> ok s = true ->
  iterate_loop hd fuel b whole (encode_ops ops) r h e f s last
  = finish b whole (run_ops hd ops h e f).
Proof.
  revert fuel r h e f s last. induction ops as [|op ops IH];
    intros fuel r h e f s last Hwf Hfuel Hok; (destruct fuel as [|fuel]; [lia|]).
  { cbn [iterate_loop]. rewrite Hok, ok_not_TryAgain by done. cbn.
    unfold iterate_end. by rewrite Hok. }
  cbn [length] in Hfuel. destruct fuel as [|fuel]; [lia|].
  apply Forall_cons in Hwf as [Hop Hwf].
  cbn [run_ops encode_ops foldr]. fold (encode_ops ops).
  remember (Datatypes.S fuel) as fuel1 eqn:Ef. cbn [iterate_loop].
  assert (empty_slice (encode_op op ++ encode_ops ops) = false) as ->
    by (destruct (encode_op_cons op) as (c & l & ->); done).
  rewrite Hok, (ok_not_TryAgain s Hok). cbn [andb orb negb].
  destruct (Continue hd h) as [c1 h1]. destruct c1; cbn [negb].
  2:{ cbn. unfold iterate_end. by rewrite Hok. }
  rewrite read_op by done. cbn [mbind option_bind]. change (ok Status_OK) with true. cbn [negb].
  rewrite dispatch_op by done. destruct (step_op hd op h1 e f) as [[[s1 h2] e1] f1].
  destruct (IsTryAgain s1) eqn:Et.
  - subst fuel1. remember fuel as fuel2 eqn:Ef. cbn [iterate_loop].
    rewrite Et, orb_true_r. destruct (Continue hd h2) as [c2 h3].
    destruct c2; cbn [negb]; [|done].
    rewrite dispatch_op by done. destruct (step_op hd op h3 e1 f1) as [[[s2 h4] e2] f2].
    destruct (IsTryAgain s2) eqn:Et2.
    + destruct fuel2 as [|fuel2]; [lia|]. cbn [iterate_loop].
      rewrite Et2, orb_true_r. destruct (Continue hd h4) as [c3 h5].
      by destruct c3.
    + destruct (ok s2) eqn:Hok2; [apply IH; (done || lia)|].
      destruct fuel2 as [|fuel2]; [lia|]. cbn [iterate_loop]. rewrite Et2, Hok2. done.
  - destruct (ok s1) eqn:Hok1; [apply IH; (done || lia)|].
    subst fuel1. cbn [iterate_loop]. by rewrite Et, Hok1.
Qed.

Lemma next_found_ok op s f :
  ok s = true -> is_uint 32 f -> next_found op s f = wrap 32 (f + num_updates [op]).
Proof.
  intros Hok ?. unfold next_found, num_updates. rewrite Hok. cbn [List.filter].
  destruct (is_update op); [done|]. rewrite size_nil, Z.add_0_r.
  symmetry. by apply wrap_small.
Qed.

(** A retried or accepted callback keeps [found] in range, and a failed one keeps
    it. *)
Lemma next_found_fails op s f : ok s = false -> next_found op s f = f.
Proof. intros Hok. unfold next_found. by rewrite Hok, andb_false_r. Qed.

Lemma run_ops_found ops h e f s h' f' :
  is_uint 32 f -> run_ops hd ops h e f = (s, h', true, f') -> ok s = true ->
  f' = wrap 32 (f + num_updates ops).
Proof.
  intros Hf Hrun Hok. revert h e f Hf Hrun.
  induction ops as [|op ops IH]; intros h e f Hf Hrun.
  { cbn in Hrun. simplify_eq. change (num_updates []) with 0.
    by rewrite Z.add_0_r, wrap_small. }
  assert (forall f1, is_uint 32 f1 -> f1 = wrap 32 (f + num_updates [op]) ->
    forall h e, run_ops hd ops h e f1 = (s, h', true, f') ->
    f' = wrap 32 (f + num_updates (op :: ops))) as next.
  { intros f1 Hf1 -> h1 e1 E. apply IH in E; [|done]. rewrite E, wrap_add_l.
    change (op :: ops) with ([op] ++ ops). rewrite num_updates_app. f_equal. lia. }
  assert (forall s1 f0, ok s1 = true -> is_uint 32 f0 -> is_uint 32 (next_found op s1 f0)) as rng
    by (intros; rewrite next_found_ok by done; by apply wrap_range).
  cbn [run_ops] in Hrun. unfold step_op in Hrun.
  destruct (Continue hd h) as [[] h1]; cbn [negb] in Hrun; [|by simplify_eq].
  destruct (handle hd op e h1) as [s1 h2]. destruct (IsTryAgain s1) eqn:Et.
  - destruct (Continue hd h2) as [[] h3]; cbn [negb] in Hrun; [|by simplify_eq].
    destruct (handle hd op (next_empty op s1 e) h3) as [s2 h4].
    rewrite (next_found_fails op s1) in Hrun by (by apply TryAgain_not_ok).
    destruct (IsTryAgain s2) eqn:Et2;
      [by destruct (Continue hd h4) as [[] ?]; cbn [negb] in Hrun; simplify_eq|].
    destruct (ok s2) eqn:Hok2; [|by simplify_eq; congruence].
    eapply next, Hrun; [by apply rng|by apply next_found_ok].
  - destruct (ok s1) eqn:Hok1; [|by simplify_eq; congruence].
    eapply next, Hrun; [by apply rng|by apply next_found_ok].
Qed.

(** A run that ends well ends with [Status::OK()]. *)
Lemma run_ops_ok ops h e f s h' c f' :
  run_ops hd ops h e f = (s, h', c, f') -> ok s = true -> s = Status_OK.
Proof.
  intros Hrun Hok. revert h e f Hrun. induction ops as [|op ops IH]; intros h e f Hrun.
  { cbn in Hrun. by simplify_eq. }
  cbn [run_ops] in Hrun. destruct (Continue hd h) as [[] h1]; cbn [negb] in Hrun;
    [|by simplify_eq].
  assert (forall s1, IsTryAgain s1 = true -> s1 <> s) as try_again
    by (intros s1 Ht ->; apply TryAgain_not_ok in Ht; congruence).
  destruct (step_op hd op h1 e f) as [[[s1 h2] e1] f1]. destruct (IsTryAgain s1) eqn:Et.
  - destruct (Continue hd h2) as [[] h3]; cbn [negb] in Hrun; [|by destruct (try_again s1); simplify_eq].
    destruct (step_op hd op h3 e1 f1) as [[[s2 h4] e2] f2].
    destruct (IsTryAgain s2) eqn:Et2.
    + destruct (Continue hd h4) as [[] ?]; cbn [negb] in Hrun;
        [by simplify_eq|by destruct (try_again s2); simplify_eq].
    + destruct (ok s2) eqn:Hok2; [by eapply IH|]. simplify_eq. congruence.
  - destruct (ok s1) eqn:Hok1; [by eapply IH|]. simplify_eq. congruence.
Qed.

Lemma length_encode_ops ops : (length ops <= length (encode_ops ops))%nat.
Proof.
  induction ops as [|op ops IH]; cbn; [lia|]. rewrite length_app.
  pose proof (size_encode_op op). unfold size in *. fold (encode_ops ops). lia.
Qed.

(** Iterating over the bytes of a contiguous part of the operations. *)
Lemma Internal_Iterate_run b seq pre ops post h :
  Encodes b seq (pre ++ ops ++ post) ->
  let begin_ := kHeader + size (encode_ops pre) in
  let end_ := begin_ + size (encode_ops ops) in
  Internal_Iterate hd b h begin_ end_
  = finish b ((begin_ =? kHeader) && (end_ =? size (rep_ b))) (run_ops hd ops h true 0).
Proof.
  intros [Hr Hs Hn Hwf] begin_ end_. unfold Internal_Iterate.
  pose proof (size_nonneg (encode_ops ops)). pose proof (size_nonneg (encode_ops post)).
  assert (size (rep_ b) = end_ + size (encode_ops post)) as Hsz.
  { rewrite Hr, size_encode_batch, !encode_ops_app, !size_app. unfold end_, begin_. lia. }
  replace (_ || _ || _)%bool with false.
  2:{ symmetry. rewrite !orb_false_iff, !Z.gtb_ltb, !Z.ltb_ge. unfold end_ in *. lia. }
  assert (ztake (end_ - begin_) (zdrop begin_ (rep_ b)) = encode_ops ops) as ->.
  { rewrite Hr. unfold encode_batch, end_, begin_.
    generalize (num_updates (pre ++ ops ++ post)) as n. intros n.
    rewrite !encode_ops_app, !app_assoc.
    replace (kHeader + size (encode_ops pre)) with
      (size ((EncodeFixed64 seq ++ EncodeFixed32 n) ++ encode_ops pre))
      by (rewrite !size_app, size_EncodeFixed64, size_EncodeFixed32; unfold kHeader; lia).
    rewrite <- (app_assoc _ (encode_ops ops)), zdrop_app.
    rewrite Z.add_simpl_l.
    apply ztake_app. }
  apply Forall_app in Hwf as [_ Hwf]. apply Forall_app in Hwf as [Hwf _].
  apply iterate_loop_run; [done| |done]. pose proof (length_encode_ops ops). lia.
Qed.

(** On the whole batch the count check passes. *)
Lemma Iterate_run b seq ops h :
  Encodes b seq ops -> Iterate hd b h = Some (run_batch hd ops h).
Proof.
  intros E. pose proof (size_nonneg (encode_ops ops)).
  assert (size (rep_ b) = kHeader + size (encode_ops ops)) as Hsz
    by (rewrite (enc_rep _ _ _ E); apply size_encode_batch).
  unfold Iterate. rewrite (proj2 (Z.ltb_ge _ _)) by lia.
  pose proof (Internal_Iterate_run b seq [] ops [] h) as L. cbn [app] in L.
  rewrite app_nil_r in L. specialize (L E).
  change (encode_ops []) with (@nil byte) in L. rewrite size_nil, Z.add_0_r, <- Hsz in L.
  rewrite L, !Z.eqb_refl. cbn [andb]. unfold run_batch, finish.
  destruct (run_ops hd ops h true 0) as [[[s h'] c] f] eqn:Er. do 2 f_equal.
  unfold iterate_end. destruct (ok s) eqn:Hok; [|done]. cbn [negb].
  rewrite (run_ops_ok _ _ _ _ _ _ _ _ Er Hok). destruct c; [|done]. cbn [andb].
  rewrite (run_ops_found ops h true 0 s h' f) by done.
  assert (is_uint 32 (num_updates ops)) as Hu
    by (split; [apply num_updates_nonneg|apply (enc_count _ _ _ E)]).
  rewrite Z.add_0_l, wrap_small by done. rewrite (Count_encode b seq ops) by apply E.
  by rewrite Z.eqb_refl.
Qed.

(** A handler that accepts every operation and always continues folds over the
    operations. *)
Lemma run_ops_fold (upd : S -> Op -> S) ops h e f :
  (forall op e h, op ∈ ops -> handle hd op e h = (Status_OK, upd h op)) ->
  (forall h, Continue hd h = (true, h)) ->
  exists f', run_ops hd ops h e f = (Status_OK, fold_left upd ops h, true, f').
Proof.
  intros Hh Hc. revert h e f. induction ops as [|op ops IH]; intros h e f; [by eexists|].
  cbn [run_ops fold_left]. unfold step_op. rewrite Hc, Hh by (by left).
  apply IH. intros op' e' h' ?. apply Hh. by right.
Qed.

Lemma Iterate_fold (upd : S -> Op -> S) b seq ops h :
  Encodes b seq ops ->
  (forall op e h, op ∈ ops -> handle hd op e h = (Status_OK, upd h op)) ->
  (forall h, Continue hd h = (true, h)) ->
  Iterate hd b h = Some (Status_OK, fold_left upd ops h).
Proof.
  intros E Hh Hc. rewrite (Iterate_run b seq ops) by done. unfold run_batch.
  by destruct (run_ops_fold upd ops h true 0 Hh Hc) as [f' ->].
Qed.

(** ** Termination on arbitrary bytes *)

(** A parser never hands back more input than it got. *)
Definition shrinks (p : Parse) : Prop :=
  forall input r s rest r', p input r = Some (s, rest, r') -> (length rest <= length input)%nat.

Lemma shrinks_done : shrinks done_ok.
Proof. by intros input r s rest r' [= <- <- <-]. Qed.

Lemma shrinks_fail f : shrinks (fun input r => Some (f, input, r)).
Proof. by intros input r s rest r' [= <- <- <-]. Qed.

Lemma shrinks_read_cf err k : shrinks k -> shrinks (read_cf err k).
Proof.
  intros Hk input r s rest r'. unfold read_cf. destruct (GetVarint32 input) as [[v|] q] eqn:E.
  - apply GetVarint32_advances in E as (_ & c & pre & ->). intros E%Hk.
    cbn. rewrite length_app. lia.
  - apply GetVarint32_fails in E as ->. by intros [= <- <- <-].
Qed.

Lemma GetLengthPrefixedSlice_shrinks input : (length (snd (GetLengthPrefixedSlice input)) <= length input)%nat.
Proof.
  unfold GetLengthPrefixedSlice. destruct (GetVarint32 input) as [[v|] q] eqn:E.
  - apply GetVarint32_advances in E as (_ & c & pre & ->). case_if; cbn [snd length]; rewrite length_app; [|lia].
    unfold remove_prefix, zdrop. rewrite length_drop. lia.
  - by apply GetVarint32_fails in E as ->.
Qed.

Lemma shrinks_read_field set err k : shrinks k -> shrinks (read_field set err k).
Proof.
  intros Hk input r s rest r'. unfold read_field. pose proof (GetLengthPrefixedSlice_shrinks input) as Hl.
  destruct (GetLengthPrefixedSlice input) as [[v|] q]; cbn [snd] in Hl; [intros E%Hk; lia|by intros [= <- <- <-]].
Qed.

Lemma shrinks_read_packed w err : shrinks (read_packed w err).
Proof.
  intros input r s rest r'. unfold read_packed. pose proof (GetLengthPrefixedSlice_shrinks input) as Hl.
  destruct (GetLengthPrefixedSlice input) as [[v|] q]; cbn [snd] in Hl; [|by intros [= <- <- <-]].
  destruct w; [|by intros [= <- <- <-]].
  destruct (ParsePackedValueWithWriteTime v) as [[]|]; [by intros [= <- <- <-]|done].
Qed.

Lemma shrinks_read_body w t : shrinks (read_body w t).
Proof.
  destruct t; cbn [read_body]; unfold read_key_value;
    repeat first [apply shrinks_done | apply shrinks_fail | apply shrinks_read_cf | apply shrinks_read_field
                 | apply shrinks_read_packed].
Qed.

Lemma ReadRecord_shrinks w input r s rest r' :
  empty_slice input = false -> ReadRecordFromWriteBatch w input r = Some (s, rest, r') ->
  (length rest < length input)%nat.
Proof.
  destruct input as [|c input]; [done|]. intros _. unfold ReadRecordFromWriteBatch.
  cbv zeta. change (remove_prefix 1 (c :: input)) with input. case_match.
  - intros E%shrinks_read_body. cbn. lia.
  - intros [= <- <- <-]. cbn. lia.
Qed.

(** The input starts with a timed put whose packed value is too short for a write time. *)
Definition short_timed_put (input : Slice) : Prop :=
  exists t q key q' packed rest,
    vt_of (byte_to_Z (default x00 (head input))) = Some t /\
    ((t = kTypeValuePreferredSeqno /\ q = remove_prefix 1 input) \/
     (t = kTypeColumnFamilyValuePreferredSeqno /\ exists cf, GetVarint32 (remove_prefix 1 input) = (Some cf, q))) /\
    GetLengthPrefixedSlice q = (Some key, q') /\ GetLengthPrefixedSlice q' = (Some packed, rest) /\ size packed < 8.

Lemma read_timed_fails q err r :
  read_field set_key err (read_packed true err) q r = None ->
  exists key q' packed rest,
    GetLengthPrefixedSlice q = (Some key, q') /\ GetLengthPrefixedSlice q' = (Some packed, rest) /\ size packed < 8.
Proof.
  unfold read_field, read_packed. destruct (GetLengthPrefixedSlice q) as [[key|] q'] eqn:E1; [|done].
  destruct (GetLengthPrefixedSlice q') as [[packed|] rest] eqn:E2; [|done]. intros Hn.
  exists key, q', packed, rest. split_and!; [done|done|]. apply packed_tail_fails.
  unfold ParsePackedValueWithWriteTime, ParsePackedValueForWriteTime, packed_tail in *.
  destruct (packed_size packed); [|done]. cbn [mbind option_bind] in *.
  by destruct (fst (GetFixed64 _)).
Qed.

(** An assertion fails at no other record. *)
Lemma ReadRecord_fails input r : ReadRecordFromWriteBatch true input r = None -> short_timed_put input.
Proof.
  unfold ReadRecordFromWriteBatch, short_timed_put. cbv zeta. destruct (vt_of _) as [t|] eqn:Et; [|done].
  intros Hn. exists t. destruct t; cbn [read_body] in Hn; unfold read_cf, read_key_value, read_field, done_ok in Hn;
    try (repeat case_match; done).
  - change (read_field set_key "bad WriteBatch TimedPut" (read_packed true "bad WriteBatch TimedPut") (remove_prefix 1 input)
      (set_cf (set_tag r (byte_to_Z (default x00 (head input)))) 0) = None) in Hn.
    apply read_timed_fails in Hn as (key & q' & packed & rest & ? & ? & ?).
    eexists _, key, q', packed, rest. split_and!; try done. by left.
  - destruct (GetVarint32 (remove_prefix 1 input)) as [[cf|] q] eqn:Ev; [|done].
    change (read_field set_key "bad WriteBatch TimedPut" (read_packed true "bad WriteBatch TimedPut") q
      (set_cf (set_cf (set_tag r (byte_to_Z (default x00 (head input)))) 0) cf) = None) in Hn.
    apply read_timed_fails in Hn as (key & q' & packed & rest & ? & ? & ?).
    eexists q, key, q', packed, rest. split_and!; try done. right. split; [done|by exists cf].
Qed.

(** Reading record after record comes to such a timed put. *)
Inductive faults (input : Slice) : Prop :=
| fault_here : short_timed_put input -> faults input
| fault_later r s rest r' :
    empty_slice input = false -> ReadRecordFromWriteBatch true input r = Some (s, rest, r') -> ok s = true ->
    faults rest -> faults input.

(** Two iterations per byte, one more for a pending retry. *)
Lemma iterate_loop_total fuel b whole input r h e f s last :
  (2 * length input + (if IsTryAgain s && negb last then 1 else 0) < fuel)%nat ->
  is_Some (iterate_loop hd fuel b whole input r h e f s last) \/ faults input.
Proof.
  revert input r h e f s last. induction fuel as [|fuel IH];
    intros input r h e f s last Hf; [lia|]. cbn [iterate_loop].
  destruct ((ok s && negb (empty_slice input)) || IsTryAgain s)%bool eqn:Ec; [|by left].
  destruct (Continue hd h) as [[] h1]; cbn [negb]; [|by left].
  destruct (IsTryAgain s) eqn:Et; cbn [negb].
  - destruct last; [by left|]. cbn [andb negb] in Hf.
    destruct (dispatch hd r h1 e f) as [[[[s1 h2] e1] f1]|]; [|by left].
    apply IH. rewrite andb_false_r. lia.
  - rewrite orb_false_r in Ec. apply andb_true_iff in Ec as [_ Hne%negb_true_iff].
    destruct (ReadRecordFromWriteBatch true input _) as [[[s1 input1] r1]|] eqn:Er; cbn [mbind option_bind];
      [|right; by eapply fault_here, ReadRecord_fails].
    pose proof (ReadRecord_shrinks _ _ _ _ _ _ Hne Er) as Hs.
    destruct (ok s1) eqn:Hok; cbn [negb]; [|by left].
    destruct (dispatch hd r1 h1 e f) as [[[[s2 h2] e1] f1]|]; [|by left].
    destruct (IH input1 r1 h2 e1 f1 s2 false) as [|Hfault]; [|by left|right; by eapply fault_later].
    destruct (IsTryAgain s2 && negb false)%bool; lia.
Qed.

End IterateLemmas.

End Parsing.

(** ** Protection information and content flags *)

Section Checks.
Context `{Hasher} `{VarintReaderLaws}.

Definition op_type (op : Op) : option ValueType :=
  match shape op with Update _ t _ _ => Some t | Marker _ _ => None end.

Lemma checksum_op_tag op :
  wf_op op = true -> checksum_op (vt_val (tag_of op)) = Some (op_type op).
Proof.
  intros Hwf. unfold checksum_op. rewrite vt_of_val. unfold tag_of, op_type.
  destruct op; cbn [shape]; try (by destruct (cf =? 0)); try done. by destruct kind.
Qed.

(** What [VerifyChecksum] reads is what the entry was computed from. *)
Lemma prot_of_read op r t :
  op_type op = Some t ->
  let r' := out_of false op (set_cf (set_value (set_key r []) []) 0) in
  prot_of op = [entry_prot (r_key r') (r_value r') t (r_column_family r')].
Proof.
  unfold op_type, prot_of, out_of, cf_of. by destruct op; cbn [shape]; intros [= <-].
Qed.

Lemma entry_check entry k v t cf :
  GetStatus (StripKVO (StripC entry cf) k v t) = Status_OK <-> entry = entry_prot k v t cf.
Proof.
  destruct entry as [[[x]]]. change (mkKVOC (mkKVO (mkPI x))) with (mk_kvoc x).
  rewrite Strip_entry, GetStatus_ok. cbn [pi_val]. rewrite lxor_eq_0.
  unfold entry_prot. rewrite ProtectC_ProtectKVO. split; [by intros ->|by intros [=]].
Qed.

Lemma GetStatus_cases p : GetStatus p = Status_OK \/ IsCorruption (GetStatus p) = true.
Proof. unfold GetStatus. case_if; auto. Qed.

Lemma ok_Corruption s : IsCorruption s = true -> ok s = false.
Proof.
  unfold ok, IsCorruption. rewrite bool_decide_eq_true, bool_decide_eq_false. by intros ->.
Qed.

Lemma r_tag_out w op r : r_tag (out_of w op r) = vt_val (tag_of op).
Proof. by destruct op, w. Qed.

Lemma num_updates_cons op ops :
  num_updates (op :: ops) = (if is_update op then 1 else 0) + num_updates ops.
Proof. unfold num_updates. cbn [List.filter]. destruct (is_update op); [apply size_cons|done]. Qed.

(** When the entries run out the count decides. *)
Lemma verify_no_entries b idx ops :
  Count b = idx + num_updates ops ->
  let s := if negb (idx =? Count b) then Corruption "WriteBatch has wrong count" ""
           else Status_OK in
  (s = Status_OK <-> prots_of ops `prefix_of` []) /\ (s = Status_OK \/ IsCorruption s = true).
Proof.
  intros ->. pose proof (size_prots_of ops) as Hsz.
  destruct (Z.eqb_spec idx (idx + num_updates ops)) as [E|E]; cbn [negb].
  - split; [|by left]. split; [|done]. intros _. destruct (prots_of ops); [done|].
    rewrite size_cons in Hsz. pose proof (size_nonneg l). lia.
  - split; [|by right]. split; [done|]. intros Hp. apply prefix_nil_inv in Hp.
    rewrite Hp, size_nil in Hsz. lia.
Qed.

(** The loop accepts exactly when the remaining entries start with those of the
    remaining operations. *)
Lemma verify_loop_run ops fuel b r entries idx :
  Forall (fun op => wf_op op = true) ops -> (length ops < fuel)%nat ->
  Count b = idx + num_updates ops ->
  exists s, verify_loop fuel b (encode_ops ops) r entries idx = Some s /\
    (s = Status_OK <-> prots_of ops `prefix_of` entries) /\
    (s = Status_OK \/ IsCorruption s = true).
Proof.
  revert fuel r entries idx. induction ops as [|op ops IH];
    intros fuel r entries idx Hwf Hfuel Hcount; (destruct fuel as [|fuel]; [lia|]).
  { cbn [verify_loop encode_ops foldr empty_slice]. rewrite Hcount.
    change (num_updates []) with 0. rewrite Z.add_0_r, Z.eqb_refl.
    destruct entries; eexists; (split; [reflexivity|]); split; auto;
      (split; [intros _; apply prefix_nil|done]). }
  apply Forall_cons in Hwf as [Hop Hwf]. cbn [length] in Hfuel.
  destruct entries as [|entry entries].
  { cbn [verify_loop]. eexists. split; [reflexivity|]. by apply verify_no_entries. }
  cbn [verify_loop encode_ops foldr]. fold (encode_ops ops).
  assert (empty_slice (encode_op op ++ encode_ops ops) = false) as ->
    by (destruct (encode_op_cons op) as (c & l & ->); done).
  rewrite read_op by done. cbn [mbind option_bind]. change (ok Status_OK) with true. cbn [negb].
  rewrite r_tag_out, checksum_op_tag by done. rewrite num_updates_cons in Hcount.
  change (prots_of (op :: ops)) with (prot_of op ++ prots_of ops).
  destruct (op_type op) as [t|] eqn:Et.
  - rewrite (prot_of_read op r t Et).
    assert (is_update op = true) as Hu by (unfold is_update, op_type in *; by destruct (shape op)).
    rewrite Hu in Hcount.
    match goal with |- context [GetStatus ?p] =>
      pose proof (GetStatus_cases p) as Hc; set (st := GetStatus p) in * end.
    pose proof (entry_check entry _ _ t _ : st = Status_OK <-> _) as Hst.
    destruct Hc as [Hc|Hc].
    + rewrite Hc. change (ok Status_OK) with true. cbn [negb].
      destruct (IH fuel (out_of false op (set_cf (set_value (set_key r []) []) 0)) entries
        (idx + 1) Hwf) as (s & E & Hiff & Hor); [lia|lia|].
      exists s. split; [exact E|]. split; [|exact Hor]. rewrite Hiff.
      apply Hst in Hc. rewrite <- Hc. cbn [app].
      split; [by apply prefix_cons|by apply prefix_cons_inv_2].
    + rewrite (ok_Corruption st Hc). cbn [negb]. eexists. split; [reflexivity|].
      split; [|by right]. split.
      * intros E. by rewrite E in Hc.
      * cbn [app]. intros Hp. apply prefix_cons_inv_1 in Hp. exfalso.
        symmetry in Hp. apply Hst in Hp. by rewrite Hp in Hc.
  - assert (is_update op = false /\ prot_of op = []) as [Hu ->]
      by (unfold is_update, op_type, prot_of in *; by destruct (shape op)).
    rewrite Hu in Hcount. apply (IH fuel _ (entry :: entries) idx Hwf); lia.
Qed.

Lemma VerifyChecksum_run b seq ops entries :
  Encodes b seq ops -> prot_info_ b = Some entries ->
  exists s, VerifyChecksum b = Some s /\
    (s = Status_OK <-> prots_of ops `prefix_of` entries) /\
    (s = Status_OK \/ IsCorruption s = true).
Proof.
  intros [Hr Hs Hn Hwf] Hp. unfold VerifyChecksum. rewrite Hp, Hr, encode_batch_tail.
  apply verify_loop_run; [done| |].
  - pose proof (length_encode_ops ops). lia.
  - by rewrite (Count_encode b seq ops).
Qed.

Lemma prot_updater_handle op e entries :
  handle prot_updater op e entries = (Status_OK, entries ++ prot_of op).
Proof.
  destruct op; try (cbn; by rewrite ?app_nil_r).
  destruct kind; cbn; by rewrite app_nil_r.
Qed.

Lemma fold_prots ops entries :
  fold_left (fun es op => es ++ prot_of op) ops entries = entries ++ prots_of ops.
Proof.
  revert entries. induction ops as [|op ops IH]; intros entries; cbn.
  - by rewrite app_nil_r.
  - by rewrite IH, <- app_assoc.
Qed.

Lemma Iterate_prot_updater b seq ops :
  Encodes b seq ops -> Iterate prot_updater b [] = Some (Status_OK, prots_of ops).
Proof.
  intros E. rewrite (Iterate_fold prot_updater (fun es op => es ++ prot_of op) b seq ops)
    by (done || (intros; apply prot_updater_handle)).
  by rewrite fold_prots.
Qed.

Definition is_noop (op : Op) : bool := match op with OpNoop => true | _ => false end.

Lemma classifier_handle op e flags :
  wf_op op = true -> is_noop op = false ->
  handle classifier op e flags = (Status_OK, Z.lor flags (flag_of op)).
Proof.
  intros Hwf Hn. destruct op; try done; [by cbn; rewrite Z.lor_0_r|].
  destruct kind; try done. cbn. by rewrite Z.lor_assoc.
Qed.

Lemma fold_flags ops flags :
  fold_left (fun fl op => Z.lor fl (flag_of op)) ops flags = Z.lor flags (flags_of ops).
Proof.
  revert flags. induction ops as [|op ops IH]; intros flags; cbn.
  - by rewrite Z.lor_0_r.
  - rewrite IH. by rewrite <- Z.lor_assoc.
Qed.

Lemma Iterate_classifier b seq ops :
  Encodes b seq ops -> forallb (fun op => negb (is_noop op)) ops = true ->
  Iterate classifier b 0 = Some (Status_OK, flags_of ops).
Proof.
  intros E Hn. rewrite (Iterate_fold classifier (fun fl op => Z.lor fl (flag_of op)) b seq ops).
  - by rewrite fold_flags.
  - done.
  - intros op e h Hin. apply classifier_handle.
    + by eapply (proj1 (Forall_forall _ _) (enc_wf _ _ _ E)).
    + rewrite forallb_forall in Hn. apply negb_true_iff, Hn. by apply list_elem_of_In.
  - done.
Qed.

End Checks.

(** ** Properties *)

(** parsing inverts encoding. Whatever follows it, the encoding of a
    well-formed operation is read as a record with exactly the operation's tag,
    column family, key, value, write time, blob or transaction id, and the rest
    of the input is left; the fields the operation does not carry keep their
    values. *)
Theorem read_encoded_operation `{VarintReaderLaws} (op : Op) (rest : Slice) (r : RecordOut)
    (want_time : bool) :
  wf_op op = true ->
  ReadRecordFromWriteBatch want_time (encode_op op ++ rest) r
  = Some (Status_OK, rest, out_of want_time op r).
Proof. apply read_op. Qed.

Lemma read_encoded_operation_witness :
  @ReadRecordFromWriteBatch leb128_reader true
    (encode_op (OpTimedPut 300 [x61] [x62; x63] 77) ++ [x00]) empty_out
  = Some (Status_OK, [x00], out_of true (OpTimedPut 300 [x61] [x62; x63] 77) empty_out).
Proof.
  apply (@read_encoded_operation leb128_reader leb128_reader_laws
           (OpTimedPut 300 [x61] [x62; x63] 77) [x00] empty_out true).
  vm_compute. reflexivity.
Defined.

(** C2: [Iterate] is the abstract run. For every handler, iterating over a batch
    that encodes [ops] calls the handler with the operations in order, retries a
    callback that answers [TryAgain] once, stops when the handler declines to
    continue or fails, and returns the handler's status and state; the final
    count check never fails on such a batch. *)
Theorem iterate_refines_run `{VarintReaderLaws} {S : Type} (hd : Handler S)
    (b : WriteBatch) (seq : Z) (ops : list Op) (h : S) :
  Encodes b seq ops -> Iterate hd b h = Some (run_batch hd ops h).
Proof. apply Iterate_run. Qed.

(** A handler that records the operations it is given, for executions. *)
Definition recorder : Handler (list Op) :=
  let add op l := (Status_OK, l ++ [op]) in {|
  PutCF cf k v l := add (OpPut cf k v) l;
  TimedPutCF cf k v t l := add (OpTimedPut cf k v t) l;
  PutEntityCF cf k e l := add (OpPutEntity cf k e) l;
  DeleteCF cf k l := add (OpDelete cf k) l;
  SingleDeleteCF cf k l := add (OpSingleDelete cf k) l;
  DeleteRangeCF cf k e l := add (OpDeleteRange cf k e) l;
  MergeCF cf k v l := add (OpMerge cf k v) l;
  PutBlobIndexCF cf k v l := add (OpPutBlobIndex cf k v) l;
  LogData d l := l ++ [OpLogData d];
  MarkBeginPrepareH u l :=
    add (OpBeginPrepare (if u : bool then kTypeBeginUnprepareXID else kTypeBeginPrepareXID)) l;
  MarkEndPrepareH xid l := add (OpEndPrepare xid) l;
  MarkNoopH _ l := add OpNoop l;
  MarkRollbackH xid l := add (OpRollback xid) l;
  MarkCommitH xid l := add (OpCommit xid) l;
  MarkCommitWithTimestampH xid ts l := add (OpCommitTs xid ts) l;
  Continue l := (true, l);
  WriteAfterCommit _ := kUnknown;
  WriteBeforePrepare _ := kUnknown;
|}.

Definition demo_ops : list Op :=
  [OpNoop; OpPut 0 [x61] [x62]; OpDelete 7 [x63]; OpEndPrepare [x64]].

Lemma demo_encodes : Encodes (WriteBatch_of_rep (encode_batch 9 demo_ops)) 9 demo_ops.
Proof. split; [done|done|done|]. by repeat constructor. Defined.

Lemma iterate_refines_run_witness :
  @Iterate _ recorder leb128_reader (WriteBatch_of_rep (encode_batch 9 demo_ops)) []
  = Some (run_batch recorder demo_ops []) /\
  run_batch recorder demo_ops [] = (Status_OK, demo_ops).
Proof.
  split; [|reflexivity].
  apply (@iterate_refines_run leb128_reader leb128_reader_laws _ recorder _ 9 demo_ops []).
  apply demo_encodes.
Defined.

(** C38: iteration terminates. Whatever the bytes of the batch and whatever the handler
    answers, [Iterate] and the iteration over any range of bytes return a status (the fuel
    of the model never runs out), unless reading record after record from the start of the
    range comes to a timed put whose packed value has fewer than eight bytes: there the
    code asserts, or computes a size that wraps. *)
Theorem iterate_terminates `{VarintReaderLaws} {S : Type} (hd : Handler S)
    (b : WriteBatch) (h : S) (begin_ end_ : Z) :
  (is_Some (Iterate hd b h) \/ faults (zdrop kHeader (rep_ b))) /\
  (is_Some (Internal_Iterate hd b h begin_ end_) \/ faults (ztake (end_ - begin_) (zdrop begin_ (rep_ b)))).
Proof.
  assert (forall x y, is_Some (Internal_Iterate hd b h x y) \/ faults (ztake (y - x) (zdrop x (rep_ b)))) as L.
  { intros x y. unfold Internal_Iterate. case_if; [by left|]. apply iterate_loop_total.
    change (IsTryAgain Status_OK) with false. cbn [andb]. lia. }
  split; [|apply L]. unfold Iterate. destruct (Z.ltb_spec (size (rep_ b)) kHeader); [by left|].
  specialize (L kHeader (size (rep_ b))).
  rewrite (ztake_all (zdrop kHeader (rep_ b))) in L; [done|].
  rewrite size_zdrop by (unfold kHeader; lia). unfold kHeader in *. lia.
Qed.

(** A batch with bytes behind it that are no record. *)
Lemma iterate_terminates_witness :
  let b := WriteBatch_of_rep (encode_batch 9 demo_ops ++ [xff; x01]) in
  (is_Some (@Iterate _ recorder leb128_reader b []) \/ @faults leb128_reader (zdrop kHeader (rep_ b))) /\
  (is_Some (@Internal_Iterate _ recorder leb128_reader b [] 13 15) \/
   @faults leb128_reader (ztake (15 - 13) (zdrop 13 (rep_ b)))).
Proof.
  intros b. apply (@iterate_terminates leb128_reader leb128_reader_laws _ recorder).
Defined.

(** A timed put with too short a value is not reported as a corruption. *)
Lemma short_packed_unchecked :
  let b := WriteBatch_of_rep (encode_batch 9 [] ++ [vt_byte kTypeValuePreferredSeqno; x01; x61; x01; x62]) in
  @Iterate _ recorder leb128_reader b [] = None /\ @short_timed_put leb128_reader (zdrop kHeader (rep_ b)).
Proof.
  split; [by vm_compute|]. exists kTypeValuePreferredSeqno, [x01; x61; x01; x62], [x61], [x01; x62], [x62], [].
  split_and!; [reflexivity|by left|reflexivity|reflexivity|done].
Qed.

(** [VerifyChecksum] accepts a protected batch exactly when its stored
    entries start with the entries computed from the bytes it holds, and reports
    corruption otherwise; so a batch whose bytes were changed after it was
    protected is accepted only if the hashes of the changed entries collide. *)
Theorem verify_checksum_exact `{Hasher} `{VarintReaderLaws} (b : WriteBatch) (seq : Z)
    (ops : list Op) (entries : list ProtectionInfoKVOC) :
  Encodes b seq ops -> prot_info_ b = Some entries ->
  exists s, VerifyChecksum b = Some s /\
    (s = Status_OK <-> prots_of ops `prefix_of` entries) /\
    (s = Status_OK \/ IsCorruption s = true).
Proof. apply VerifyChecksum_run. Qed.

Lemma verify_checksum_exact_witness :
  let b := set_prot_info (WriteBatch_of_rep (encode_batch 9 demo_ops))
             (Some (@prots_of sum_hasher [OpPut 0 [x61] [x62]; OpDelete 7 [x64]])) in
  exists s, @VerifyChecksum sum_hasher leb128_reader b = Some s /\
    (s = Status_OK <-> @prots_of sum_hasher demo_ops `prefix_of`
       @prots_of sum_hasher [OpPut 0 [x61] [x62]; OpDelete 7 [x64]]) /\
    (s = Status_OK \/ IsCorruption s = true).
Proof.
  apply (@verify_checksum_exact sum_hasher leb128_reader leb128_reader_laws _ 9 demo_ops);
    [|reflexivity].
  split; [done|done|done|]. by repeat constructor.
Defined.

(** [UpdateProtectionInfo] with eight bytes per key computes the entries of
    the batch's own operations, so that [VerifyChecksum] accepts the result, and
    refuses a batch whose content does not match the given checksum; with zero
    bytes it drops the entries. *)
Theorem update_protection_info_sound `{Hasher} `{VarintReaderLaws}
    (content_hash : bytes -> Z) (b : WriteBatch) (seq : Z) (ops : list Op)
    (checksum : option Z) :
  Encodes b seq ops -> prot_info_ b = None ->
  let b' := set_prot_info b (Some (prots_of ops)) in
  UpdateProtectionInfo content_hash b 8 checksum
  = Some (match checksum with
          | Some c => if content_hash (rep_ b) =? c then Status_OK
                      else Corruption "Write batch content corrupted." ""
          | None => Status_OK
          end, b') /\
  VerifyChecksum b' = Some Status_OK /\
  UpdateProtectionInfo content_hash b' 0 checksum = Some (Status_OK, b).
Proof.
  intros E Hp b'. split_and!.
  - unfold UpdateProtectionInfo. cbn [Z.eqb Pos.eqb].
    rewrite Hp, (Iterate_prot_updater b seq ops E). cbn [mbind option_bind].
    change (ok Status_OK) with true. cbn [andb].
    change (rep_ (set_prot_info b (Some (prots_of ops)))) with (rep_ b).
    destruct checksum as [c|]; [|done]. by destruct (content_hash (rep_ b) =? c).
  - destruct (VerifyChecksum_run b' seq ops (prots_of ops)) as (s & -> & [_ Hs] & _).
    + by destruct E.
    + done.
    + by rewrite Hs.
  - destruct b. cbn in Hp. by rewrite Hp.
Qed.

Lemma update_protection_info_sound_witness :
  let b := WriteBatch_of_rep (encode_batch 9 demo_ops) in
  let b' := set_prot_info b (Some (@prots_of sum_hasher demo_ops)) in
  @UpdateProtectionInfo sum_hasher leb128_reader size b 8 (Some 31)
  = Some (if size (rep_ b) =? 31 then Status_OK
          else Corruption "Write batch content corrupted." "", b') /\
  @VerifyChecksum sum_hasher leb128_reader b' = Some Status_OK /\
  @UpdateProtectionInfo sum_hasher leb128_reader size b' 0 (Some 31) = Some (Status_OK, b).
Proof.
  apply (@update_protection_info_sound sum_hasher leb128_reader leb128_reader_laws size
           (WriteBatch_of_rep (encode_batch 9 demo_ops)) 9 demo_ops (Some 31));
    [apply demo_encodes|reflexivity].
Defined.

(** a batch rebuilt from bytes answers the content queries as the batch that
    produced the bytes: the flags computed on demand by iterating are the flags
    the builder accumulated. The batch has no no-op marker. *)
Theorem deferred_flags_agree `{Hasher} `{VarintReaderLaws} (b : WriteBatch) (a : ABatch) :
  Repr b a -> forallb (fun op => negb (is_noop op)) (a_ops a) = true ->
  let b' := WriteBatch_of_rep (rep_ b) in
  fst <$> ComputeContentFlags b' = Some (content_flags_ b) /\
  (forall op, op ∈ a_ops a -> flag_of op <> 0 -> has_flag (flag_of op) b' = Some true).
Proof.
  intros Hr Hn b'. assert (Encodes b' (a_seq a) (a_ops a)) as E by (by destruct Hr).
  assert (ComputeContentFlags b' = Some (flags_of (a_ops a), set_content_flags b' (flags_of (a_ops a)))) as Hc.
  { unfold ComputeContentFlags. change (content_flags_ b') with DEFERRED.
    cbn [Z.land DEFERRED negb Z.eqb]. change (negb (Z.land DEFERRED DEFERRED =? 0)) with true.
    cbv iota. by rewrite (Iterate_classifier b' _ _ E Hn). }
  split; [rewrite Hc; cbn; by rewrite (repr_flags _ _ Hr)|].
  intros op [l1 [l2 Ho]]%list_elem_of_split Hne. unfold has_flag. rewrite Hc, Ho.
  cbn [mbind option_bind]. f_equal. rewrite flags_of_app. cbn [flags_of foldr]. fold (flags_of l2).
  apply negb_true_iff, Z.eqb_neq. intros Hz. apply Hne.
  apply Z.bits_inj'. intros i Hi. apply (f_equal (fun z => Z.testbit z i)) in Hz.
  rewrite Z.land_spec, !Z.lor_spec, Z.bits_0 in *.
  by destruct (Z.testbit (flag_of op) i), (Z.testbit (flags_of l1) i).
Qed.

Lemma deferred_flags_agree_witness :
  let b := snd (@Internal_Merge sum_hasher (new_WriteBatch 0 0 0) 5 [x61] [x62]) in
  let b' := WriteBatch_of_rep (rep_ b) in
  fst <$> @ComputeContentFlags leb128_reader b' = Some (content_flags_ b) /\
  (forall op, op ∈ [OpMerge 5 [x61] [x62]] -> flag_of op <> 0 ->
     @has_flag leb128_reader (flag_of op) b' = Some true).
Proof.
  apply (@deferred_flags_agree sum_hasher leb128_reader leb128_reader_laws _
           (mkABatch 0 [OpMerge 5 [x61] [x62]] [] 0 0 false)); [|reflexivity].
  split; try reflexivity; try done. by repeat constructor.
Defined.

(** the computation of the content flags stops at a no-op marker. The
    classifier inherits [MarkNoop], which fails, and the status is ignored: a
    batch rebuilt from bytes that hold a no-op followed by a put answers that it
    has no put, while the batch that produced the bytes answers that it has. *)
Theorem noop_hides_content `{Hasher} `{VarintReaderLaws} (key value : Slice) :
  size key < UINT32_MAX -> size value < UINT32_MAX ->
  let b := snd (Internal_Put (snd (InsertNoop (new_WriteBatch 0 0 0))) 0 key value) in
  HasPut b = Some true /\ HasPut (WriteBatch_of_rep (rep_ b)) = Some false.
Proof.
  intros Hk Hv b. set (op := OpPut 0 key value).
  assert (wf_op op = true /\ small op) as [Hwf Hs].
  { unfold wf_op, small, op_fields, op, UINT32_MAX in *. cbn.
    by rewrite !(proj2 (Z.ltb_lt _ _)) by lia. }
  assert (Repr b (mkABatch 0 [OpNoop; op] [] 0 0 false)) as Hb.
  { pose proof (Repr_empty (new_WriteBatch 0 0 0) 0 0 false eq_refl eq_refl eq_refl
      eq_refl eq_refl eq_refl) as R0.
    pose proof (Repr_write_op _ _ OpNoop R0 eq_refl eq_refl) as R1.
    pose proof (Repr_write_op _ _ op R1 Hwf eq_refl) as R2.
    unfold b. rewrite InsertNoop_write, Internal_Put_write by done. cbn [snd]. fold op.
    by rewrite (commit_write_op _ _ op R1 eq_refl). }
  destruct Hb as [Hr _ _ _ _ Hf _ _ _ _].
  split; [unfold HasPut, has_flag, ComputeContentFlags; by rewrite Hf|].
  assert (Encodes (WriteBatch_of_rep (rep_ b)) 0 [OpNoop; OpPut 0 key value]) as E.
  { by split; [|done|done|repeat constructor]. }
  unfold HasPut, has_flag, ComputeContentFlags.
  change (content_flags_ (WriteBatch_of_rep (rep_ b))) with DEFERRED.
  change (negb (Z.land DEFERRED DEFERRED =? 0)) with true. cbv iota.
  by rewrite (Iterate_run classifier _ 0 _ 0 E).
Qed.

Lemma noop_hides_content_witness :
  let b := snd (@Internal_Put sum_hasher (snd (InsertNoop (new_WriteBatch 0 0 0))) 0
                  [x61] [x62]) in
  @HasPut leb128_reader b = Some true /\
  @HasPut leb128_reader (WriteBatch_of_rep (rep_ b)) = Some false.
Proof.
  apply (@noop_hides_content sum_hasher leb128_reader leb128_reader_laws [x61] [x62]);
    reflexivity.
Defined.
