(* ===== verification/MemTableInserter.v ===== *)
(** * MemTableInserter: applying a batch to the memtables

    The handler [MemTableInserter] of [db/write_batch.cc] and the three overloads
    of [WriteBatchInternal::InsertInto]. The handler is used on the write path and
    during recovery; it hands out sequence numbers, passes the protection
    information of each entry on to the memtable, rebuilds prepared transactions
    found in the log and replays them at their commit marker.

    Memtables, column families and [DBImpl] are not part of the repository: they
    are the operations of the record [MemEnv] over a world [W]. The maps of
    post-processing counters and insertion hints, which only the memtable reads,
    and the statistics ticker are left out. *)

From S2P Require Import Prelude.
From S2P Require Import Status.
From S2P Require Import Slice.
From S2P Require Import Coding.
From S2P Require Import DbFormat.
From S2P Require Import KvChecksum.
From S2P Require Import PackedValue.
From S2P Require Import WriteBatch.
From S2P Require Import WriteBatchRead.

(** ** The environment *)

Inductive UpdateStatus : Set := UPDATE_FAILED | UPDATED_INPLACE | UPDATED.

(** Operations that follow [cf_mems_->Seek(id)] take the id they are positioned
    on as their first argument. *)
Record MemEnv (W : Type) : Type := mkMemEnv {
  (* ColumnFamilyMemTables *)
  env_Seek : Z -> W -> bool;
  env_GetLogNumber : Z -> W -> Z;
  env_timestamp_size : Z -> W -> Z;
  (* ImmutableMemTableOptions *)
  env_inplace_update_support : Z -> W -> bool;
  env_inplace_callback :
    Z -> W -> option (option Slice -> Slice -> UpdateStatus * Slice * Slice);
  env_has_merge_operator : Z -> W -> bool;
  env_max_successive_merges : Z -> W -> Z;
  env_strict_max_successive_merges : Z -> W -> bool;
  (* MemTable: id, sequence number, type, key, value, protection *)
  env_Add : Z -> Z -> ValueType -> Slice -> Slice -> option ProtectionInfoKVOS ->
            W -> Status * W;
  env_Update : Z -> Z -> ValueType -> Slice -> Slice -> option ProtectionInfoKVOS ->
               W -> Status * W;
  env_UpdateCallback : Z -> Z -> Slice -> Slice -> option ProtectionInfoKVOS ->
                       W -> Status * W;
  env_CountSuccessiveMergeEntries : Z -> Slice -> Z -> Z -> W -> Z;
  env_RefLogContainingPrepSection : Z -> Z -> W -> W;
  (* flush and trim scheduling *)
  env_ShouldScheduleFlush : Z -> W -> bool;
  env_MarkFlushScheduled : Z -> W -> bool * W;
  env_ScheduleFlush : Z -> W -> W;
  env_max_write_buffer_size_to_maintain : Z -> W -> Z;
  env_HasHistory : Z -> W -> bool;
  env_MemoryAllocatedBytes : Z -> W -> Z;
  env_MemoryAllocatedBytesExcludingLast : Z -> W -> Z;
  env_MarkTrimHistoryNeeded : Z -> W -> bool * W;
  env_ScheduleTrim : Z -> W -> W;
  (* DBImpl: reads at a snapshot, merging, column family properties *)
  env_Get : Z -> Slice -> Z -> W -> Status * Slice;
  env_GetEntity : Z -> Slice -> Z -> bool -> W -> Status * WideColumns;
  env_HasDefaultColumnOnly : WideColumns -> bool;
  env_GetDefaultColumn : WideColumns -> Slice;
  env_FullMerge_plain : Z -> Slice -> Slice -> Slice -> W -> Status * Slice * ValueType;
  env_FullMerge_wide : Z -> Slice -> WideColumns -> Slice -> W -> Status * Slice * ValueType;
  env_Deserialize : Slice -> Status * WideColumns;
  env_is_delete_range_supported : Z -> W -> bool;
  env_cf_name : Z -> W -> string;
  env_CompareWithoutTimestamp : Z -> Slice -> Slice -> W -> Z;
  (* DBImpl: recovered transactions; the batch info is that of the first batch *)
  env_allow_2pc : W -> bool;
  env_InsertRecoveredTransaction : Z -> Slice -> WriteBatch -> Z -> Z -> bool -> W -> W;
  env_GetRecoveredTransaction : Slice -> W -> option (Z * WriteBatch);
  env_DeleteRecoveredTransaction : Slice -> W -> W;
  env_UpdateTimestamps : WriteBatch -> Slice -> W -> Status * WriteBatch * W;
  (* DuplicateDetector *)
  env_IsDuplicateKeySeq : Z -> Slice -> Z -> W -> bool * W;
}.

Arguments env_Seek {W}. Arguments env_GetLogNumber {W}. Arguments env_timestamp_size {W}.
Arguments env_inplace_update_support {W}. Arguments env_inplace_callback {W}.
Arguments env_has_merge_operator {W}. Arguments env_max_successive_merges {W}.
Arguments env_strict_max_successive_merges {W}. Arguments env_Add {W}.
Arguments env_Update {W}. Arguments env_UpdateCallback {W}.
Arguments env_CountSuccessiveMergeEntries {W}.
Arguments env_RefLogContainingPrepSection {W}. Arguments env_ShouldScheduleFlush {W}.
Arguments env_MarkFlushScheduled {W}. Arguments env_ScheduleFlush {W}.
Arguments env_max_write_buffer_size_to_maintain {W}. Arguments env_HasHistory {W}.
Arguments env_MemoryAllocatedBytes {W}. Arguments env_MemoryAllocatedBytesExcludingLast {W}.
Arguments env_MarkTrimHistoryNeeded {W}. Arguments env_ScheduleTrim {W}.
Arguments env_Get {W}. Arguments env_GetEntity {W}. Arguments env_HasDefaultColumnOnly {W}.
Arguments env_GetDefaultColumn {W}. Arguments env_FullMerge_plain {W}.
Arguments env_FullMerge_wide {W}. Arguments env_Deserialize {W}.
Arguments env_is_delete_range_supported {W}. Arguments env_cf_name {W}.
Arguments env_CompareWithoutTimestamp {W}. Arguments env_allow_2pc {W}.
Arguments env_InsertRecoveredTransaction {W}. Arguments env_GetRecoveredTransaction {W}.
Arguments env_DeleteRecoveredTransaction {W}. Arguments env_UpdateTimestamps {W}.
Arguments env_IsDuplicateKeySeq {W}.

(** ** The inserter *)

(** The constant members; pointers are represented by whether they are null. *)
Record MIConfig : Set := mkMIConfig {
  has_flush_scheduler : bool;
  has_trim_history_scheduler : bool;
  ignore_missing_column_families_ : bool;
  recovering_log_number_ : Z;
  has_db : bool;
  seq_per_batch_ : bool;
  write_after_commit_ : bool;
  write_before_prepare_ : bool;
}.

(** The constructor's derivation of the write policy. *)
Definition mk_config (flush trim ignore_missing : bool) (recovering_log_number : Z)
    (db seq_per_batch batch_per_txn : bool) : MIConfig :=
  mkMIConfig flush trim ignore_missing recovering_log_number db seq_per_batch
    (negb seq_per_batch) (negb batch_per_txn).

(** The mutable members and the world. [stuck_] is no member of the class: it
    records that a nested iteration of [MarkCommit] gave no result: it was cut off, or it
    came to a packed value that is too short. *)
Record Inserter (W : Type) : Type := mkInserter {
  sequence_ : Z;
  log_number_ref_ : Z;
  mi_prot_info_ : option (list ProtectionInfoKVOC);
  prot_info_idx_ : Z;
  has_valid_writes_ : option bool;
  rebuilding_trx_ : option WriteBatch;
  rebuilding_trx_seq_ : Z;
  unprepared_batch_ : bool;
  world_ : W;
  stuck_ : bool;
}.

Arguments mkInserter {W}. Arguments sequence_ {W}. Arguments log_number_ref_ {W}.
Arguments mi_prot_info_ {W}. Arguments prot_info_idx_ {W}. Arguments has_valid_writes_ {W}.
Arguments rebuilding_trx_ {W}. Arguments rebuilding_trx_seq_ {W}.
Arguments unprepared_batch_ {W}. Arguments world_ {W}. Arguments stuck_ {W}.

Definition MemTableInserter {W} (sequence : Z)
    (prot_info : option (list ProtectionInfoKVOC)) (has_valid_writes : option bool) (w : W)
    : Inserter W :=
  mkInserter sequence 0 prot_info 0 has_valid_writes None 0 false w false.

Section Updates.
Context {W : Type}.

Definition set_sequence (m : Inserter W) (v : Z) : Inserter W :=
  mkInserter v (log_number_ref_ m) (mi_prot_info_ m) (prot_info_idx_ m)
    (has_valid_writes_ m) (rebuilding_trx_ m) (rebuilding_trx_seq_ m)
    (unprepared_batch_ m) (world_ m) (stuck_ m).
Definition set_log_number_ref (m : Inserter W) (v : Z) : Inserter W :=
  mkInserter (sequence_ m) v (mi_prot_info_ m) (prot_info_idx_ m)
    (has_valid_writes_ m) (rebuilding_trx_ m) (rebuilding_trx_seq_ m)
    (unprepared_batch_ m) (world_ m) (stuck_ m).
Definition set_prot (m : Inserter W) (v : option (list ProtectionInfoKVOC)) (idx : Z)
    : Inserter W :=
  mkInserter (sequence_ m) (log_number_ref_ m) v idx
    (has_valid_writes_ m) (rebuilding_trx_ m) (rebuilding_trx_seq_ m)
    (unprepared_batch_ m) (world_ m) (stuck_ m).
Definition set_has_valid_writes (m : Inserter W) (v : option bool) : Inserter W :=
  mkInserter (sequence_ m) (log_number_ref_ m) (mi_prot_info_ m) (prot_info_idx_ m)
    v (rebuilding_trx_ m) (rebuilding_trx_seq_ m)
    (unprepared_batch_ m) (world_ m) (stuck_ m).
Definition set_rebuilding (m : Inserter W) (trx : option WriteBatch) (seq : Z)
    (unprepared : bool) : Inserter W :=
  mkInserter (sequence_ m) (log_number_ref_ m) (mi_prot_info_ m) (prot_info_idx_ m)
    (has_valid_writes_ m) trx seq unprepared (world_ m) (stuck_ m).
Definition set_world (m : Inserter W) (w : W) : Inserter W :=
  mkInserter (sequence_ m) (log_number_ref_ m) (mi_prot_info_ m) (prot_info_idx_ m)
    (has_valid_writes_ m) (rebuilding_trx_ m) (rebuilding_trx_seq_ m)
    (unprepared_batch_ m) w (stuck_ m).
Definition set_stuck (m : Inserter W) : Inserter W :=
  mkInserter (sequence_ m) (log_number_ref_ m) (mi_prot_info_ m) (prot_info_idx_ m)
    (has_valid_writes_ m) (rebuilding_trx_ m) (rebuilding_trx_seq_ m)
    (unprepared_batch_ m) (world_ m) true.

End Updates.

(** ** Protection information of the memtable entry *)

(** [UpdateV] and [UpdateO] of [ProtectionInfoKVOS] delegate to its [kvo_]. *)
Definition kvos_UpdateV `{Hasher} (p : ProtectionInfoKVOS) (old_value new_value : Slice)
    : ProtectionInfoKVOS := mkKVOS (UpdateV (kvos_kvo p) old_value new_value).
Definition kvos_UpdateO `{Hasher} (p : ProtectionInfoKVOS) (old_op new_op : ValueType)
    : ProtectionInfoKVOS := mkKVOS (UpdateO (kvos_kvo p) old_op new_op).

Section Inserting.
Context `{Hasher} `{WideColumnCodec} {W : Type} (env : MemEnv W) (cfg : MIConfig).

Definition MI : Type := Inserter W.

Definition IsDuplicateKeySeq (cf : Z) (key : Slice) (m : MI) : bool * MI :=
  let '(dup, w) := env_IsDuplicateKeySeq env cf key (sequence_ m) (world_ m) in
  (dup, set_world m w).

(** An index out of range is excluded by an [assert]. *)
Definition NextProtectionInfo (m : MI) : option ProtectionInfoKVOC * MI :=
  match mi_prot_info_ m with
  | Some entries =>
      (entries !! Z.to_nat (prot_info_idx_ m),
       set_prot m (mi_prot_info_ m) (wrap 64 (prot_info_idx_ m + 1)))
  | None => (None, m)
  end.

Definition DecrementProtectionInfoIdxForTryAgain (m : MI) : MI :=
  match mi_prot_info_ m with
  | Some _ => set_prot m (mi_prot_info_ m) (wrap 64 (prot_info_idx_ m - 1))
  | None => m
  end.

Definition ResetProtectionInfo (m : MI) : MI := set_prot m None 0.

(** The tail of every update callback. *)
Definition retry_prot (r : Status * MI) : Status * MI :=
  let '(s, m) := r in
  if IsTryAgain s then (s, DecrementProtectionInfoIdxForTryAgain m) else (s, m).

(** [kv_prot_info->StripC(column_family_id).ProtectS(sequence_)], if any. *)
Definition mem_prot (p : option ProtectionInfoKVOC) (cf : Z) (m : MI)
    : option ProtectionInfoKVOS :=
  (fun p => ProtectS (StripC p cf) (sequence_ m)) <$> p.

Definition MaybeAdvanceSeq (batch_boundry : bool) (m : MI) : MI :=
  if Bool.eqb batch_boundry (seq_per_batch_ cfg)
  then set_sequence m (wrap 64 (sequence_ m + 1)) else m.

(** [if (has_valid_writes_ != nullptr) *has_valid_writes_ = true]. *)
Definition mark_valid_writes (m : MI) : MI :=
  match has_valid_writes_ m with
  | Some _ => set_has_valid_writes m (Some true)
  | None => m
  end.

(** The result, the status stored through the pointer and the new state. *)
Definition SeekToColumnFamily (cf : Z) (m : MI) : bool * Status * MI :=
  if negb (env_Seek env cf (world_ m)) then
    (false,
     if ignore_missing_column_families_ cfg then Status_OK
     else InvalidArgument "Invalid column family specified in write batch", m)
  else if negb (recovering_log_number_ cfg =? 0)
          && (recovering_log_number_ cfg <? env_GetLogNumber env cf (world_ m)) then
    (false, Status_OK, m)
  else
    let m := mark_valid_writes m in
    let m := if log_number_ref_ m >? 0
             then set_world m (env_RefLogContainingPrepSection env cf (log_number_ref_ m)
                                 (world_ m))
             else m in
    (true, Status_OK, m).

Definition CheckMemtableFull (cf : Z) (m : MI) : MI :=
  let m :=
    if has_flush_scheduler cfg && env_ShouldScheduleFlush env cf (world_ m) then
      let '(marked, w) := env_MarkFlushScheduled env cf (world_ m) in
      set_world m (if marked : bool then env_ScheduleFlush env cf w else w)
    else m in
  if has_trim_history_scheduler cfg then
    let size_to_maintain := env_max_write_buffer_size_to_maintain env cf (world_ m) in
    if (size_to_maintain >? 0) && env_HasHistory env cf (world_ m)
       && (wrap 64 (env_MemoryAllocatedBytes env cf (world_ m)
                    + env_MemoryAllocatedBytesExcludingLast env cf (world_ m))
           >=? size_to_maintain) then
      let '(marked, w) := env_MarkTrimHistoryNeeded env cf (world_ m) in
      set_world m (if marked : bool then env_ScheduleTrim env cf w else w)
    else m
  else m.

(** ** Pieces shared by the update callbacks *)

(** Applying an operation to [rebuilding_trx_]. *)
Definition rebuild (op : WriteBatch -> Status * WriteBatch) (m : MI) : Status * MI :=
  match rebuilding_trx_ m with
  | Some trx =>
      let '(s, trx) := op trx in
      (s, set_rebuilding m (Some trx) (rebuilding_trx_seq_ m) (unprepared_batch_ m))
  | None => (Status_OK, m)
  end.

Definition rebuilding (m : MI) : bool := bool_decide (is_Some (rebuilding_trx_ m)).

(** The branch where the column family is missing or already has the update. *)
Definition seek_missed (cf : Z) (key : Slice) (op : WriteBatch -> Status * WriteBatch)
    (s : Status) (m : MI) : Status * MI :=
  if ok s && rebuilding m then
    let '(s, m) := rebuild op m in
    if ok s then
      let '(dup, m) := IsDuplicateKeySeq cf key m in (s, MaybeAdvanceSeq dup m)
    else (s, m)
  else if ok s then (s, MaybeAdvanceSeq false m)
  else (s, m).

(** After an insertion: the sequence number and the memtable size. *)
Definition after_add (cf : Z) (s : Status) (m : MI) : MI :=
  if IsTryAgain s then MaybeAdvanceSeq true m
  else if ok s then CheckMemtableFull cf (MaybeAdvanceSeq false m)
  else m.

(** [if (cond && rebuilding_trx_ != nullptr) ret_status = op(...)]. *)
Definition rebuild_if (cond : bool) (op : WriteBatch -> Status * WriteBatch)
    (s : Status) (m : MI) : Status * MI :=
  if cond && rebuilding m then rebuild op m else (s, m).

Definition mem_add (cf : Z) (t : ValueType) (key value : Slice)
    (p : option ProtectionInfoKVOS) (m : MI) : Status * MI :=
  let '(s, w) := env_Add env cf (sequence_ m) t key value p (world_ m) in
  (s, set_world m w).

(** ** Puts *)

(** The read-modify-write of [inplace_callback] when the key is not in the
    memtable. The callback sees the previous value through a 32-bit size. *)
Definition inplace_update (cf : Z) (callback : option Slice -> Slice ->
      UpdateStatus * Slice * Slice) (t : ValueType) (key value : Slice)
    (p : option ProtectionInfoKVOS) (m : MI) : Status * MI :=
  let '(get_status, prev_value) :=
    if has_db cfg && (recovering_log_number_ cfg =? 0)
    then env_Get env cf key (sequence_ m) (world_ m) else (NotSupported "", []) in
  if negb (ok get_status) && negb (IsNotFound get_status) then (get_status, m)
  else
    let '(update_status, prev_value, merged_value) :=
      callback (if ok get_status
                then Some (ztake (wrap 32 (size prev_value)) prev_value) else None)
        value in
    match update_status with
    | UPDATED_INPLACE =>
        mem_add cf t key prev_value ((fun p => kvos_UpdateV p value prev_value) <$> p) m
    | UPDATED =>
        mem_add cf t key merged_value ((fun p => kvos_UpdateV p value merged_value) <$> p) m
    | UPDATE_FAILED => (Status_OK, m)
    end.

Definition put_memtable (cf : Z) (t : ValueType) (key value : Slice)
    (p : option ProtectionInfoKVOS) (m : MI) : Status * MI :=
  if negb (env_inplace_update_support env cf (world_ m)) then mem_add cf t key value p m
  else match env_inplace_callback env cf (world_ m) with
       | Some callback =>
           if bool_decide (t = kTypeValue) then
             let '(s, w) := env_UpdateCallback env cf (sequence_ m) key value p (world_ m) in
             let m := set_world m w in
             if IsNotFound s then inplace_update cf callback t key value p m else (s, m)
           else
             let '(s, w) := env_Update env cf (sequence_ m) t key value p (world_ m) in
             (s, set_world m w)
       | None =>
           let '(s, w) := env_Update env cf (sequence_ m) t key value p (world_ m) in
           (s, set_world m w)
       end.

Definition PutCFImpl (cf : Z) (key value : Slice) (t : ValueType)
    (rebuild_txn_op : WriteBatch -> Status * WriteBatch)
    (p : option ProtectionInfoKVOS) (m : MI) : Status * MI :=
  if write_after_commit_ cfg && rebuilding m then rebuild rebuild_txn_op m
  else
    let '(found, s, m) := SeekToColumnFamily cf m in
    if negb found then seek_missed cf key rebuild_txn_op s m
    else
      let '(s, m) := put_memtable cf t key value p m in
      let m := after_add cf s m in
      rebuild_if (ok s) rebuild_txn_op s m.

Definition mi_PutCF (cf : Z) (key value : Slice) (m : MI) : Status * MI :=
  let '(p, m) := NextProtectionInfo m in
  retry_prot (PutCFImpl cf key value kTypeValue
                (fun trx => Internal_Put trx cf key value) (mem_prot p cf m) m).

Definition not_supported_op (trx : WriteBatch) : Status * WriteBatch :=
  (NotSupported "", trx).

Definition mi_TimedPutCF (cf : Z) (key value : Slice) (unix_write_time : Z) (m : MI)
    : Status * MI :=
  let '(p, m) := NextProtectionInfo m in
  let packed_value := PackValueAndWriteTime value unix_write_time in
  retry_prot (PutCFImpl cf key packed_value kTypeValuePreferredSeqno not_supported_op
                (mem_prot p cf m) m).

Definition mi_PutEntityCF (cf : Z) (key value : Slice) (m : MI) : Status * MI :=
  let '(p, m) := NextProtectionInfo m in
  let rebuild_txn_op trx :=
    let '(st, columns) := env_Deserialize env value in
    if negb (ok st) then (st, trx) else Internal_PutEntity trx cf key columns in
  retry_prot (PutCFImpl cf key value kTypeWideColumnEntity rebuild_txn_op
                (mem_prot p cf m) m).

Definition mi_PutBlobIndexCF (cf : Z) (key value : Slice) (m : MI) : Status * MI :=
  let '(p, m) := NextProtectionInfo m in
  retry_prot (PutCFImpl cf key value kTypeBlobIndex not_supported_op (mem_prot p cf m) m).

(** ** Deletes *)

Definition DeleteImpl (cf : Z) (key value : Slice) (delete_type : ValueType)
    (p : option ProtectionInfoKVOS) (m : MI) : Status * MI :=
  let '(s, m) := mem_add cf delete_type key value p m in (s, after_add cf s m).

Definition mi_DeleteCF (cf : Z) (key : Slice) (m : MI) : Status * MI :=
  let '(p, m) := NextProtectionInfo m in
  let op trx := Internal_Delete trx cf key in
  if write_after_commit_ cfg && rebuilding m then rebuild op m
  else
    let '(found, s, m) := SeekToColumnFamily cf m in
    if negb found then retry_prot (seek_missed cf key op s m)
    else
      let delete_type := if 0 =? env_timestamp_size env cf (world_ m)
                         then kTypeDeletion else kTypeDeletionWithTimestamp in
      let p := (fun p => kvos_UpdateO p kTypeDeletion delete_type) <$> mem_prot p cf m in
      let '(s, m) := DeleteImpl cf key [] delete_type p m in
      retry_prot (rebuild_if (ok s) op s m).

Definition mi_SingleDeleteCF (cf : Z) (key : Slice) (m : MI) : Status * MI :=
  let '(p, m) := NextProtectionInfo m in
  let op trx := Internal_SingleDelete trx cf key in
  if write_after_commit_ cfg && rebuilding m then rebuild op m
  else
    let '(found, s, m) := SeekToColumnFamily cf m in
    if negb found then retry_prot (seek_missed cf key op s m)
    else
      let '(s, m) := DeleteImpl cf key [] kTypeSingleDeletion (mem_prot p cf m) m in
      retry_prot (rebuild_if (ok s) op s m).

(** The rebuilding test is on [!IsTryAgain()] here, not on [ok()]. *)
Definition mi_DeleteRangeCF (cf : Z) (begin_key end_key : Slice) (m : MI) : Status * MI :=
  let '(p, m) := NextProtectionInfo m in
  let op trx := Internal_DeleteRange trx cf begin_key end_key in
  if write_after_commit_ cfg && rebuilding m then rebuild op m
  else
    let '(found, s, m) := SeekToColumnFamily cf m in
    if negb found then retry_prot (seek_missed cf begin_key op s m)
    else
      let insert :=
        let '(s, m) := DeleteImpl cf begin_key end_key kTypeRangeDeletion (mem_prot p cf m) m in
        retry_prot (rebuild_if (negb (IsTryAgain s)) op s m) in
      if has_db cfg then
        if negb (env_is_delete_range_supported env cf (world_ m)) then
          (NotSupported ("CF " ++ env_cf_name env cf (world_ m)
                         ++ " reports it does not support DeleteRange")%string, m)
        else
          let cmp := env_CompareWithoutTimestamp env cf begin_key end_key (world_ m) in
          if cmp >? 0 then (InvalidArgument "end key comes before start key", m)
          else if cmp =? 0 then (Status_OK, m)
          else insert
      else insert.

(** ** Merges *)

(** The merge that is performed eagerly when too many operands have piled up;
    [None] when the operand is to be stored instead. *)
Definition eager_merge (cf : Z) (key value : Slice) (m : MI) : option (Slice * ValueType) :=
  if (env_max_successive_merges env cf (world_ m) >? 0) && has_db cfg
     && (recovering_log_number_ cfg =? 0)
     && (env_CountSuccessiveMergeEntries env cf key (sequence_ m)
           (env_max_successive_merges env cf (world_ m)) (world_ m)
         >=? env_max_successive_merges env cf (world_ m)) then
    let '(get_status, columns) :=
      env_GetEntity env cf key (sequence_ m)
        (env_strict_max_successive_merges env cf (world_ m)) (world_ m) in
    if negb (ok get_status) then None
    else
      let '(merge_status, new_value, new_value_type) :=
        if env_HasDefaultColumnOnly env columns
        then env_FullMerge_plain env cf key (env_GetDefaultColumn env columns) value (world_ m)
        else env_FullMerge_wide env cf key columns value (world_ m) in
      if negb (ok merge_status) then None else Some (new_value, new_value_type)
  else None.

Definition mi_MergeCF (cf : Z) (key value : Slice) (m : MI) : Status * MI :=
  let '(p, m) := NextProtectionInfo m in
  let op trx := Internal_Merge trx cf key value in
  if write_after_commit_ cfg && rebuilding m then rebuild op m
  else
    let '(found, s, m) := SeekToColumnFamily cf m in
    if negb found then retry_prot (seek_missed cf key op s m)
    else if negb (env_has_merge_operator env cf (world_ m)) then
      (InvalidArgument "Merge requires `ColumnFamilyOptions::merge_operator != nullptr`", m)
    else
      let '(s, m) :=
        match eager_merge cf key value m with
        | Some (new_value, new_value_type) =>
            let p := (fun p => kvos_UpdateO (kvos_UpdateV p value new_value)
                                 kTypeMerge new_value_type) <$> mem_prot p cf m in
            mem_add cf new_value_type key new_value p m
        | None => mem_add cf kTypeMerge key value (mem_prot p cf m) m
        end in
      let m := after_add cf s m in
      retry_prot (rebuild_if (ok s) op s m).

(** ** Transaction markers *)

Definition mi_MarkBeginPrepare (unprepare : bool) (m : MI) : Status * MI :=
  if negb (recovering_log_number_ cfg =? 0) then
    if negb (env_allow_2pc env (world_ m)) then
      (NotSupported "WAL contains prepared transactions. Open with TransactionDB::Open().", m)
    else
      let m := set_rebuilding m (Some (new_WriteBatch 0 0 0)) (sequence_ m) unprepare in
      (Status_OK, mark_valid_writes m)
  else (Status_OK, m).

(** A null [rebuilding_trx_] is excluded by an [assert] in recovery. *)
Definition mi_MarkEndPrepare (name : Slice) (m : MI) : Status * MI :=
  let m :=
    if negb (recovering_log_number_ cfg =? 0) then
      let batch_cnt := if write_after_commit_ cfg then 0
                       else wrap 64 (sequence_ m - rebuilding_trx_seq_ m + 1) in
      match rebuilding_trx_ m with
      | Some trx =>
          let w := env_InsertRecoveredTransaction env (recovering_log_number_ cfg) name trx
                     (rebuilding_trx_seq_ m) batch_cnt (unprepared_batch_ m) (world_ m) in
          set_rebuilding (set_world m w) None (rebuilding_trx_seq_ m) false
      | None => set_rebuilding m None (rebuilding_trx_seq_ m) false
      end
    else m in
  (Status_OK, MaybeAdvanceSeq true m).

Definition mi_MarkNoop (empty_batch : bool) (m : MI) : Status * MI :=
  (Status_OK, if negb empty_batch then MaybeAdvanceSeq true m else m).

(** The tail of the commit callbacks. *)
Definition commit_tail (s : Status) (m : MI) : Status * MI :=
  retry_prot (s, MaybeAdvanceSeq true m).

(** [replay] is [batch_info.batch_->Iterate(this)]. *)
Definition mi_MarkCommit (replay : WriteBatch -> MI -> Status * MI) (name : Slice) (m : MI)
    : Status * MI :=
  if negb (recovering_log_number_ cfg =? 0) then
    match env_GetRecoveredTransaction env name (world_ m) with
    | Some (log_number, batch) =>
        let '(s, m) :=
          if write_after_commit_ cfg then
            let m := ResetProtectionInfo (set_log_number_ref m log_number) in
            let '(s, m) := replay batch m in (s, set_log_number_ref m 0)
          else (Status_OK, m) in
        let m := if ok s
                 then set_world m (env_DeleteRecoveredTransaction env name (world_ m)) else m in
        commit_tail s (mark_valid_writes m)
    | None => commit_tail Status_OK m
    end
  else commit_tail Status_OK m.

(** [log_number_ref_] is reset only when the timestamps could be updated. *)
Definition mi_MarkCommitWithTimestamp (replay : WriteBatch -> MI -> Status * MI)
    (name commit_ts : Slice) (m : MI) : Status * MI :=
  if negb (recovering_log_number_ cfg =? 0) then
    match env_GetRecoveredTransaction env name (world_ m) with
    | Some (log_number, batch) =>
        let '(s, m) :=
          if write_after_commit_ cfg then
            let m := set_log_number_ref m log_number in
            let '(s, batch, w) := env_UpdateTimestamps env batch commit_ts (world_ m) in
            let m := set_world m w in
            if ok s then
              let '(s, m) := replay batch (ResetProtectionInfo m) in
              (s, set_log_number_ref m 0)
            else (s, m)
          else (Status_OK, m) in
        let m := if ok s
                 then set_world m (env_DeleteRecoveredTransaction env name (world_ m)) else m in
        commit_tail s (mark_valid_writes m)
    | None => commit_tail Status_OK m
    end
  else commit_tail Status_OK m.

Definition mi_MarkRollback (name : Slice) (m : MI) : Status * MI :=
  let m :=
    if negb (recovering_log_number_ cfg =? 0) then
      match env_GetRecoveredTransaction env name (world_ m) with
      | Some _ => set_world m (env_DeleteRecoveredTransaction env name (world_ m))
      | None => m
      end
    else m in
  (Status_OK, MaybeAdvanceSeq true m).

Definition state_of (b : bool) : OptionState := if b then kEnabled else kDisabled.

(** The handler; [replay] is the iteration over a recovered transaction. *)
Definition inserter_with (replay : WriteBatch -> MI -> Status * MI) : Handler MI := {|
  PutCF := mi_PutCF;
  TimedPutCF := mi_TimedPutCF;
  PutEntityCF := mi_PutEntityCF;
  DeleteCF := mi_DeleteCF;
  SingleDeleteCF := mi_SingleDeleteCF;
  DeleteRangeCF := mi_DeleteRangeCF;
  MergeCF := mi_MergeCF;
  PutBlobIndexCF := mi_PutBlobIndexCF;
  LogData _ m := m;
  MarkBeginPrepareH := mi_MarkBeginPrepare;
  MarkEndPrepareH := mi_MarkEndPrepare;
  MarkNoopH := mi_MarkNoop;
  MarkRollbackH := mi_MarkRollback;
  MarkCommitH := mi_MarkCommit replay;
  MarkCommitWithTimestampH := mi_MarkCommitWithTimestamp replay;
  Continue m := (true, m);
  WriteAfterCommit _ := state_of (write_after_commit_ cfg);
  WriteBeforePrepare _ := state_of (write_before_prepare_ cfg);
|}.

Context `{VarintReader}.

(** [MarkCommit] iterates over the recovered batch with the same handler. A
    commit marker inside a recovered batch would nest further; [depth] bounds the
    nesting. *)
Fixpoint inserter (depth : nat) : Handler MI :=
  inserter_with (fun batch m =>
    match depth with
    | O => (Status_OK, set_stuck m)
    | Datatypes.S depth =>
        match Iterate (inserter depth) batch m with
        | Some r => r
        | None => (Status_OK, set_stuck m)
        end
    end).

(** Recovered batches hold no commit markers: one level is enough, see
    [commit_replays]. *)
Definition the_inserter : Handler MI := inserter 1.

(** ** [InsertInto] *)

(** The members of [WriteThread::Writer] that are read or written. *)
Record Writer : Type := mkWriter {
  w_batch : WriteBatch;
  w_log_ref : Z;
  w_disable_memtable : bool;
  w_callback_status : option Status;
  w_status : Status;
  w_sequence : Z;
}.

Definition CallbackFailed (wr : Writer) : bool :=
  match w_callback_status wr with Some s => negb (ok s) | None => false end.

Definition ShouldWriteToMemtable (wr : Writer) : bool :=
  ok (w_status wr) && negb (CallbackFailed wr) && negb (w_disable_memtable wr).

(** [inserter.set_prot_info(p)]. *)
Definition set_prot_info_mi (m : MI) (p : option (list ProtectionInfoKVOC)) : MI :=
  set_prot m p 0.

(** One writer: its batch is stamped with the current sequence number and
    iterated over. *)
Definition insert_writer (wr : Writer) (m : MI) : option (Status * Writer * MI) :=
  let wr := mkWriter (w_batch wr) (w_log_ref wr) (w_disable_memtable wr)
              (w_callback_status wr) (w_status wr) (sequence_ m) in
  if negb (ShouldWriteToMemtable wr) then Some (Status_OK, wr, MaybeAdvanceSeq true m)
  else
    let batch := SetSequence (w_batch wr) (sequence_ m) in
    let m := set_log_number_ref m (w_log_ref wr) in
    let m := set_prot_info_mi m (prot_info_ batch) in
    '(s, m) ← Iterate the_inserter batch m;
    Some (s, mkWriter batch (w_log_ref wr) (w_disable_memtable wr)
               (w_callback_status wr) s (w_sequence wr), m).

(** The loop over the write group; it returns at the first failure. *)
Fixpoint insert_group (group : list Writer) (m : MI)
    : option (Status * list Writer * MI) :=
  match group with
  | [] => Some (Status_OK, [], m)
  | wr :: group =>
      if CallbackFailed wr then
        '(s, rest, m) ← insert_group group m; Some (s, wr :: rest, m)
      else
        '(s, wr', m) ← insert_writer wr m;
        if negb (ok s) then Some (s, wr' :: group, m)
        else '(s, rest, m) ← insert_group group m; Some (s, wr' :: rest, m)
  end.

Definition InsertInto_group (write_group : list Writer) (sequence : Z) (w : W)
    : option (Status * list Writer * MI) :=
  insert_group write_group (MemTableInserter sequence None None w).

Definition InsertInto_writer (wr : Writer) (sequence : Z) (w : W)
    : option (Status * Writer * MI) :=
  let m := MemTableInserter sequence None None w in
  let batch := SetSequence (w_batch wr) sequence in
  let m := set_log_number_ref m (w_log_ref wr) in
  let m := set_prot_info_mi m (prot_info_ batch) in
  '(s, m) ← Iterate the_inserter batch m;
  Some (s, mkWriter batch (w_log_ref wr) (w_disable_memtable wr)
             (w_callback_status wr) (w_status wr) (w_sequence wr), m).

(** The status, [*next_seq] and the final state. *)
Definition InsertInto_batch (batch : WriteBatch) (has_valid_writes : option bool) (w : W)
    : option (Status * Z * MI) :=
  let m := MemTableInserter (Sequence batch) (prot_info_ batch) has_valid_writes w in
  '(s, m) ← Iterate the_inserter batch m;
  Some (s, sequence_ m, m).

End Inserting.
