(* ===== verification/InserterProofs.v ===== *)
(** * InserterProofs: what applying a batch to the memtables guarantees

    Alignment of the protection entries with the callbacks, the refinement of
    [InsertInto] to the abstract application of the operations, the rebuilding
    of prepared transactions during recovery and their replay at commit. *)

From S2P Require Import Prelude.
From S2P Require Import Status.
From S2P Require Import Slice.
From S2P Require Import Coding.
From S2P Require Import DbFormat.
From S2P Require Import KvChecksum.
From S2P Require Import PackedValue.
From S2P Require Import WriteBatch.
From S2P Require Import WriteBatchRead.
From S2P Require Import WriteBatchSpec.
From S2P Require Import WriteBatchBuild.
From S2P Require Import WriteBatchIterate.
From S2P Require Import MemTableInserter.

(** ** An environment for executions

    Every column family but number 9 exists, keys that start with [xff] make
    [Add] fail, a key that is there with the same sequence number makes it ask for a
    retry, additions are logged, recovered transactions are kept in a list. *)

Record DemoWorld : Type := mkDemo {
  dw_added : list (Z * Z * ValueType * Slice * Slice * option ProtectionInfoKVOS);
  dw_txns : list (Slice * (Z * WriteBatch));
}.

Definition demo_Add (cf seq : Z) (t : ValueType) (key value : Slice)
    (p : option ProtectionInfoKVOS) (w : DemoWorld) : Status * DemoWorld :=
  match key with
  | xff :: _ => (Corruption "bad key" "", w)
  | _ =>
      if existsb (fun '(cf', seq', _, key', _, _) =>
                    (cf' =? cf) && (seq' =? seq) && bool_decide (key' = key)) (dw_added w)
      then (TryAgain, w)
      else (Status_OK, mkDemo (dw_added w ++ [(cf, seq, t, key, value, p)]) (dw_txns w))
  end.

Definition demo_env : MemEnv DemoWorld := {|
  env_Seek cf _ := negb (cf =? 9);
  env_GetLogNumber _ _ := 0;
  env_timestamp_size cf _ := if cf =? 8 then 8 else 0;
  env_inplace_update_support _ _ := false;
  env_inplace_callback _ _ := None;
  env_has_merge_operator _ _ := true;
  env_max_successive_merges _ _ := 0;
  env_strict_max_successive_merges _ _ := false;
  env_Add := demo_Add;
  env_Update := demo_Add;
  env_UpdateCallback cf seq k v p w := demo_Add cf seq kTypeValue k v p w;
  env_CountSuccessiveMergeEntries _ _ _ _ _ := 0;
  env_RefLogContainingPrepSection _ _ w := w;
  env_ShouldScheduleFlush _ _ := false;
  env_MarkFlushScheduled _ w := (false, w);
  env_ScheduleFlush _ w := w;
  env_max_write_buffer_size_to_maintain _ _ := 0;
  env_HasHistory _ _ := false;
  env_MemoryAllocatedBytes _ _ := 0;
  env_MemoryAllocatedBytesExcludingLast _ _ := 0;
  env_MarkTrimHistoryNeeded _ w := (false, w);
  env_ScheduleTrim _ w := w;
  env_Get _ _ _ _ := (Status_NotFound, []);
  env_GetEntity _ _ _ _ _ := (Status_NotFound, []);
  env_HasDefaultColumnOnly _ := true;
  env_GetDefaultColumn _ := [];
  env_FullMerge_plain _ _ _ v _ := (Status_OK, v, kTypeValue);
  env_FullMerge_wide _ _ _ v _ := (Status_OK, v, kTypeWideColumnEntity);
  env_Deserialize _ := (Status_OK, []);
  env_is_delete_range_supported _ _ := true;
  env_cf_name _ _ := "demo";
  env_CompareWithoutTimestamp _ a b _ := compare a b;
  env_allow_2pc _ := true;
  env_InsertRecoveredTransaction log name trx _ _ _ w :=
    mkDemo (dw_added w) ((name, (log, trx)) :: dw_txns w);
  env_GetRecoveredTransaction name w :=
    snd <$> List.find (fun t => bool_decide (fst t = name)) (dw_txns w);
  env_DeleteRecoveredTransaction name w :=
    mkDemo (dw_added w) (List.filter (fun t => negb (bool_decide (fst t = name))) (dw_txns w));
  env_UpdateTimestamps b _ w := (Status_OK, b, w);
  env_IsDuplicateKeySeq _ _ _ w := (false, w);
|}.

(** ** Protection entries stay aligned with the callbacks *)

Section Alignment.
Context `{Hasher} `{WideColumnCodec} {W : Type} (env : MemEnv W) (cfg : MIConfig).

(** The step leaves the protection information and its index alone. *)
Definition keeps_prot (m m' : Inserter W) : Prop :=
  mi_prot_info_ m' = mi_prot_info_ m /\ prot_info_idx_ m' = prot_info_idx_ m.

#[local] Instance keeps_prot_preorder : PreOrder keeps_prot.
Proof. split; unfold keeps_prot; [done|]. intros x y z [] []. split; congruence. Qed.

Lemma MaybeAdvanceSeq_prot d m : keeps_prot m (MaybeAdvanceSeq cfg d m).
Proof. unfold MaybeAdvanceSeq. by case_if. Qed.

Lemma mark_valid_writes_prot m : keeps_prot m (mark_valid_writes m).
Proof. unfold mark_valid_writes. by case_match. Qed.

Lemma SeekToColumnFamily_prot cf m :
  keeps_prot m (snd (SeekToColumnFamily env cfg cf m)).
Proof.
  unfold SeekToColumnFamily. repeat case_if; try done; cbn [snd];
    by etrans; [apply mark_valid_writes_prot|].
Qed.

Lemma CheckMemtableFull_prot cf m : keeps_prot m (CheckMemtableFull env cfg cf m).
Proof. unfold CheckMemtableFull. repeat (case_match; simplify_eq; try done). Qed.

Lemma rebuild_prot op m : keeps_prot m (snd (rebuild op m)).
Proof. unfold rebuild. repeat case_match; by simplify_eq. Qed.

Lemma seek_missed_prot cf key op s m :
  keeps_prot m (snd (seek_missed env cfg cf key op s m)).
Proof.
  unfold seek_missed, IsDuplicateKeySeq. case_if; [|case_if; [apply MaybeAdvanceSeq_prot|done]].
  pose proof (rebuild_prot op m) as Hr. destruct (rebuild op m) as [s1 m1]. cbn in Hr.
  case_if; [|done]. destruct (env_IsDuplicateKeySeq _ _ _ _ _). cbn [snd].
  etrans; [exact Hr|]. by etrans; [|apply MaybeAdvanceSeq_prot].
Qed.

Lemma mem_add_prot cf t k v p m : keeps_prot m (snd (mem_add env cf t k v p m)).
Proof. unfold mem_add. by case_match. Qed.

Lemma put_memtable_prot cf t k v p m :
  keeps_prot m (snd (put_memtable env cfg cf t k v p m)).
Proof.
  unfold put_memtable, inplace_update, mem_add. repeat (case_match; simplify_eq; try done).
Qed.

Lemma after_add_prot cf s m : keeps_prot m (after_add env cfg cf s m).
Proof.
  unfold after_add. repeat case_if; [apply MaybeAdvanceSeq_prot| |done].
  etrans; [apply (MaybeAdvanceSeq_prot false)|apply CheckMemtableFull_prot].
Qed.

Lemma rebuild_if_prot c op s m : keeps_prot m (snd (rebuild_if c op s m)).
Proof. unfold rebuild_if. case_if; [apply rebuild_prot|done]. Qed.

Lemma PutCFImpl_prot cf k v t op p m :
  keeps_prot m (snd (PutCFImpl env cfg cf k v t op p m)).
Proof.
  unfold PutCFImpl. case_if; [apply rebuild_prot|].
  pose proof (SeekToColumnFamily_prot cf m) as H1.
  destruct (SeekToColumnFamily env cfg cf m) as [[found s] m1]. cbn in H1.
  case_if; [etrans; [exact H1|apply seek_missed_prot]|].
  pose proof (put_memtable_prot cf t k v p m1) as H2.
  destruct (put_memtable env cfg cf t k v p m1) as [s2 m2]. cbn in H2.
  etrans; [exact H1|]. etrans; [exact H2|].
  etrans; [apply (after_add_prot cf s2)|apply rebuild_if_prot].
Qed.

(** What the index is after a callback that consumed one entry. *)
Definition aligned (m : Inserter W) (r : Status * Inserter W) : Prop :=
  mi_prot_info_ (snd r) = mi_prot_info_ m /\
  prot_info_idx_ (snd r) =
    match mi_prot_info_ m with
    | Some _ => if IsTryAgain (fst r) then prot_info_idx_ m
                else wrap 64 (prot_info_idx_ m + 1)
    | None => prot_info_idx_ m
    end.

Lemma aligned_retry m m1 p r :
  is_uint 64 (prot_info_idx_ m) -> NextProtectionInfo m = (p, m1) ->
  keeps_prot m1 (snd r) -> aligned m (retry_prot r).
Proof.
  intros Hu Hn [H1 H2]. unfold NextProtectionInfo in Hn. unfold aligned, retry_prot.
  unfold DecrementProtectionInfoIdxForTryAgain. destruct r as [s m2]. cbn [fst snd] in *.
  destruct (mi_prot_info_ m) as [e|] eqn:E; simplify_eq; cbn in H1, H2.
  - destruct (IsTryAgain s) eqn:Et; cbn [fst snd]; rewrite ?Et, ?H1; [|by rewrite H2].
    cbn. rewrite H2. split; [done|]. unfold wrap. rewrite Zminus_mod_idemp_l.
    replace (prot_info_idx_ m + 1 - 1) with (prot_info_idx_ m) by lia. by apply wrap_small.
  - rewrite E in H1. destruct (IsTryAgain s) eqn:Et; cbn [fst snd]; rewrite ?H1; cbn;
      rewrite ?H1; done.
Qed.

(** A callback that cannot ask for a retry needs no adjustment. *)
Lemma aligned_plain m m1 p r :
  is_uint 64 (prot_info_idx_ m) -> NextProtectionInfo m = (p, m1) ->
  keeps_prot m1 (snd r) -> IsTryAgain (fst r) = false -> aligned m r.
Proof.
  intros Hu Hn Hk Ht. pose proof (aligned_retry m m1 p r Hu Hn Hk) as L.
  unfold retry_prot in L. destruct r as [s m2]. cbn in Ht. by rewrite Ht in L.
Qed.

Lemma commit_no_retry sp b : IsTryAgain (fst (commit sp b)) = false.
Proof. unfold commit. by case_if. Qed.

Lemma rebuild_no_retry op (m : Inserter W) :
  (forall trx, IsTryAgain (fst (op trx)) = false) -> IsTryAgain (fst (rebuild op m)) = false.
Proof.
  intros Hop. unfold rebuild. case_match; [|done]. specialize (Hop w).
  by destruct (op w).
Qed.

(** The shape shared by the deletions and the merge: rebuild, miss, or insert. *)
Lemma aligned_update m (op : WriteBatch -> Status * WriteBatch) cf key
    (insert : option ProtectionInfoKVOC -> Inserter W -> Status * Inserter W) :
  is_uint 64 (prot_info_idx_ m) ->
  (forall trx, IsTryAgain (fst (op trx)) = false) ->
  (forall p m1 m2, NextProtectionInfo m = (p, m1) -> keeps_prot m1 m2 ->
    aligned m (insert p m2)) ->
  aligned m
    (let '(p, m) := NextProtectionInfo m in
     if write_after_commit_ cfg && rebuilding m then rebuild op m
     else
       let '(found, s, m) := SeekToColumnFamily env cfg cf m in
       if negb found then retry_prot (seek_missed env cfg cf key op s m) else insert p m).
Proof.
  intros Hu Hop Hins. destruct (NextProtectionInfo m) as [p m1] eqn:En.
  case_if. { eapply aligned_plain; [done|done|apply rebuild_prot|by apply rebuild_no_retry]. }
  pose proof (SeekToColumnFamily_prot cf m1) as Hs.
  destruct (SeekToColumnFamily env cfg cf m1) as [[found s] m2]. cbn in Hs.
  case_if; [|by eapply Hins]. eapply aligned_retry; [done|done|].
  etrans; [exact Hs|apply seek_missed_prot].
Qed.

Lemma DeleteImpl_prot cf k v t p m :
  keeps_prot m (snd (DeleteImpl env cfg cf k v t p m)).
Proof.
  unfold DeleteImpl. pose proof (mem_add_prot cf t k v p m) as Ha.
  destruct (mem_add env cf t k v p m) as [s m1]. cbn in *.
  etrans; [exact Ha|apply after_add_prot].
Qed.

Ltac step_DeleteImpl :=
  cbv zeta;
  match goal with |- context [DeleteImpl ?a ?b ?c ?d ?e ?f ?g ?h] =>
    pose proof (DeleteImpl_prot c d e f g h); destruct (DeleteImpl a b c d e f g h) end.

(** the protection entries stay aligned with the callbacks. For every
    environment and every configuration, each update callback moves on to the
    next protection entry, except that a callback that answers [TryAgain] leaves
    the index where it was, so that the retry verifies the same entry. *)
Theorem prot_index_aligned (m : Inserter W) (cf : Z) (key value : Slice) (time : Z) :
  is_uint 64 (prot_info_idx_ m) ->
  aligned m (mi_PutCF env cfg cf key value m) /\
  aligned m (mi_TimedPutCF env cfg cf key value time m) /\
  aligned m (mi_PutEntityCF env cfg cf key value m) /\
  aligned m (mi_PutBlobIndexCF env cfg cf key value m) /\
  aligned m (mi_DeleteCF env cfg cf key m) /\
  aligned m (mi_SingleDeleteCF env cfg cf key m) /\
  aligned m (mi_DeleteRangeCF env cfg cf key value m) /\
  aligned m (mi_MergeCF env cfg cf key value m).
Proof.
  intros Hu.
  assert (forall p m1 m2 s m3 c op, NextProtectionInfo m = (p, m1) -> keeps_prot m1 m2 ->
    keeps_prot m2 m3 -> aligned m (retry_prot (rebuild_if c op s m3))) as L.
  { intros p m1 m2 s m3 c op Hn H1 H2. eapply aligned_retry; [done|done|].
    etrans; [exact H1|]. etrans; [exact H2|apply rebuild_if_prot]. }
  split_and!.
  - unfold mi_PutCF. destruct (NextProtectionInfo m) eqn:En.
    eapply aligned_retry; [done|done|apply PutCFImpl_prot].
  - unfold mi_TimedPutCF. destruct (NextProtectionInfo m) eqn:En.
    eapply aligned_retry; [done|done|apply PutCFImpl_prot].
  - unfold mi_PutEntityCF. destruct (NextProtectionInfo m) eqn:En.
    eapply aligned_retry; [done|done|apply PutCFImpl_prot].
  - unfold mi_PutBlobIndexCF. destruct (NextProtectionInfo m) eqn:En.
    eapply aligned_retry; [done|done|apply PutCFImpl_prot].
  - apply aligned_update; [done|intros; apply commit_no_retry|].
    intros p m1 m2 Hn Hk. step_DeleteImpl. by eapply L.
  - apply aligned_update; [done|intros; apply commit_no_retry|].
    intros p m1 m2 Hn Hk.
    step_DeleteImpl. by eapply L.
  - apply aligned_update; [done|intros; apply commit_no_retry|].
    intros p m1 m2 Hn Hk. step_DeleteImpl.
    repeat case_if; try (by eapply L); by eapply aligned_plain.
  - apply aligned_update; [done|intros; unfold Internal_Merge; repeat case_if; done ||
      apply commit_no_retry|].
    intros p m1 m2 Hn Hk. case_if; [by eapply aligned_plain|].
    assert (forall t k v q, keeps_prot m2 (snd (mem_add env cf t k v q m2))) as Ha
      by (intros; apply mem_add_prot).
    destruct (eager_merge env cfg cf key value m2) as [[nv nt]|]; cbv zeta;
      match goal with |- context [mem_add ?a ?b ?c ?d ?e ?f ?g] =>
        specialize (Ha c d e f); destruct (mem_add a b c d e f g) as [s3 m3] end;
      eapply L; try done; (etrans; [exact Ha|apply after_add_prot]).
Qed.

End Alignment.

(** ** The abstract application of operations to the memtables *)

(** An environment without in-place updates and eager merges. [Add] may fail in any
    way, and ask for a retry. *)
Record PlainEnv {W} (env : MemEnv W) : Prop := mkPlainEnv {
  plain_inplace cf w : env_inplace_update_support env cf w = false;
  plain_merges cf w : env_max_successive_merges env cf w <= 0;
}.

Section Apply.
Context `{Hasher} {W : Type} (env : MemEnv W) (cfg : MIConfig).

(** The sequence number after an update ([false]) or a batch boundary ([true]). *)
Definition adv (boundary : bool) (seq : Z) : Z :=
  if Bool.eqb boundary (seq_per_batch_ cfg) then wrap 64 (seq + 1) else seq.

Definition op_key (op : Op) : Slice := default [] (op_fields op !! 0%nat).
Definition op_value (op : Op) : Slice := default [] (op_fields op !! 1%nat).

(** The type an operation is stored with. *)
Definition mem_type (op : Op) (w : W) : ValueType :=
  match op with
  | OpDelete cf _ => if 0 =? env_timestamp_size env cf w then kTypeDeletion
                     else kTypeDeletionWithTimestamp
  | _ => default kTypeValue (op_type op)
  end.

(** What is said of a range deletion or a merge before it is inserted. *)
Definition verdict (op : Op) (w : W) : option Status :=
  match op with
  | OpDeleteRange cf begin_key end_key =>
      if negb (has_db cfg) then None
      else if negb (env_is_delete_range_supported env cf w) then
        Some (NotSupported ("CF " ++ env_cf_name env cf w
                            ++ " reports it does not support DeleteRange")%string)
      else match env_CompareWithoutTimestamp env cf begin_key end_key w ?= 0 with
           | Gt => Some (InvalidArgument "end key comes before start key")
           | Eq => Some Status_OK
           | Lt => None
           end
  | OpMerge cf _ _ =>
      if env_has_merge_operator env cf w then None
      else Some (InvalidArgument "Merge requires `ColumnFamilyOptions::merge_operator != nullptr`")
  | _ => None
  end.

(** The scheduling of flushes and trims, on the world alone. *)
Definition full (cf : Z) (w : W) : W :=
  world_ (CheckMemtableFull env cfg cf (MemTableInserter 0 None None w)).

(** The protection of the entry that is stored: its own key, value, type and
    sequence number. *)
Definition entry_kvos (key value : Slice) (t : ValueType) (seq : Z) : ProtectionInfoKVOS :=
  ProtectS (ProtectKVO ProtectionInfo_new key value t) seq.

(** In recovery: the column family already contains the updates of this log. *)
Definition already_has (cf : Z) (w : W) : bool :=
  negb (recovering_log_number_ cfg =? 0)
  && (recovering_log_number_ cfg <? env_GetLogNumber env cf w).

(** Status, next sequence number and world; [lref] is the log to be referenced. *)
Definition apply_update (protected : bool) (lref : Z) (op : Op) (seq : Z) (w : W)
    : Status * Z * W :=
  let cf := cf_of op in
  if negb (env_Seek env cf w) then
    if ignore_missing_column_families_ cfg then (Status_OK, adv false seq, w)
    else (InvalidArgument "Invalid column family specified in write batch", seq, w)
  else if already_has cf w then (Status_OK, adv false seq, w)
  else
    let w := if lref >? 0 then env_RefLogContainingPrepSection env cf lref w else w in
    match verdict op w with
    | Some s => (s, seq, w)
    | None =>
        let t := mem_type op w in
        let p := if protected then Some (entry_kvos (op_key op) (op_value op) t seq)
                 else None in
        let '(s, w) := env_Add env cf seq t (op_key op) (op_value op) p w in
        if IsTryAgain s then (s, adv true seq, w)
        else if ok s then (s, adv false seq, full cf w) else (s, seq, w)
    end.

(** Markers only move the sequence number. *)
Definition apply_marker (op : Op) (empty_batch : bool) (seq : Z) : Z :=
  match op with
  | OpEndPrepare _ | OpCommit _ | OpCommitTs _ _ | OpRollback _ => adv true seq
  | OpNoop => if empty_batch then seq else adv true seq
  | _ => seq
  end.

Definition apply_op (protected : bool) (lref : Z) (op : Op) (e : bool) (seq : Z) (w : W)
    : Status * Z * W :=
  if is_update op then apply_update protected lref op seq w
  else (Status_OK, apply_marker op e seq, w).

(** An operation that asks for a retry is applied once more, after a batch boundary. *)
Definition apply_retry (protected : bool) (lref : Z) (op : Op) (e : bool) (seq : Z) (w : W)
    : Status * Z * W :=
  let '(s, seq, w) := apply_op protected lref op e seq w in
  if IsTryAgain s then
    let '(s, seq, w) := apply_op protected lref op e seq w in
    (if IsTryAgain s then Corruption msg_two_try_again "" else s, seq, w)
  else (s, seq, w).

Fixpoint apply_ops (protected : bool) (lref : Z) (ops : list Op) (e : bool) (seq : Z) (w : W)
    : Status * Z * W :=
  match ops with
  | [] => (Status_OK, seq, w)
  | op :: ops =>
      let '(s, seq, w) := apply_retry protected lref op e seq w in
      if ok s then apply_ops protected lref ops (next_empty op s e) seq w else (s, seq, w)
  end.

(** The begin markers that agree with the write policy; in recovery the
    transaction markers do more than move the sequence number. *)
Definition policy_allows (op : Op) : bool :=
  let normal := recovering_log_number_ cfg =? 0 in
  match op with
  | OpBeginPrepare kTypeBeginUnprepareXID =>
      normal && negb (write_after_commit_ cfg) && write_before_prepare_ cfg
  | OpBeginPrepare kTypeBeginPersistedPrepareXID =>
      normal && negb (write_after_commit_ cfg)
  | OpBeginPrepare _ => normal && write_after_commit_ cfg && negb (write_before_prepare_ cfg)
  | OpEndPrepare _ | OpCommit _ | OpCommitTs _ _ | OpRollback _ => normal
  | _ => true
  end.

End Apply.

(** ** The inserter refines the abstract application *)

Lemma StripC_ProtectC `{Hasher} p cf : StripC (ProtectC p cf) cf = p.
Proof.
  destruct p as [[v]]. unfold StripC, ProtectC. cbn. unfold mk_kvo. do 2 f_equal. xor_bits.
Qed.

Lemma UpdateO_ProtectS `{Hasher} k v t t' seq :
  kvos_UpdateO (entry_kvos k v t seq) t t' = entry_kvos k v t' seq.
Proof.
  unfold kvos_UpdateO, entry_kvos, ProtectS, UpdateO, ProtectKVO, mk_kvos, mk_kvo. cbn.
  do 3 f_equal. xor_bits.
Qed.

Section Refinement.
Context `{Hasher} `{WideColumnCodec} {W : Type} (env : MemEnv W) (cfg : MIConfig).
Context (plain : PlainEnv env).

(** The state between two callbacks, outside prepared sections. *)
Definition At (p : option (list ProtectionInfoKVOC)) (lref idx seq : Z) (w : W)
    (m : Inserter W) : Prop :=
  exists hv rseq ub, m = mkInserter seq lref p idx hv None rseq ub w false.

Lemma CheckMemtableFull_full cf m :
  CheckMemtableFull env cfg cf m = set_world m (full env cfg cf (world_ m)).
Proof.
  unfold full. destruct m. unfold CheckMemtableFull. cbn.
  repeat (case_match; cbn in *; simplify_eq; try done).
Qed.

Lemma MaybeAdvanceSeq_adv d (m : Inserter W) :
  MaybeAdvanceSeq cfg d m = set_sequence m (adv cfg d (sequence_ m)).
Proof. unfold MaybeAdvanceSeq, adv. case_if; [done|]. by destruct m. Qed.

Lemma Seek_normal cf p lref idx seq w m :
  At p lref idx seq w m ->
  if env_Seek env cf w && negb (already_has env cfg cf w) then
    exists m', SeekToColumnFamily env cfg cf m = (true, Status_OK, m') /\
      At p lref idx seq
        (if lref >? 0 then env_RefLogContainingPrepSection env cf lref w else w) m'
  else SeekToColumnFamily env cfg cf m
       = (false, if env_Seek env cf w || ignore_missing_column_families_ cfg then Status_OK
                 else InvalidArgument "Invalid column family specified in write batch", m).
Proof.
  intros (hv & rseq & ub & ->). unfold SeekToColumnFamily. cbn [world_].
  destruct (env_Seek env cf w); cbn [negb andb orb]; [|done].
  fold (already_has env cfg cf w).
  destruct (already_has env cfg cf w); cbn [negb]; [done|].
  eexists. split; [reflexivity|]. unfold mark_valid_writes. cbn.
  destruct hv; cbn; destruct (lref >? 0); by eexists _, _, _.
Qed.

(** A callback did what the abstract step says; the entry at [idx] is consumed unless
    a retry is asked for. *)
Definition prev_idx (p : option (list ProtectionInfoKVOC)) (idx : Z) : Z :=
  match p with Some _ => wrap 64 (idx - 1) | None => idx end.

Definition Ran (p : option (list ProtectionInfoKVOC)) (lref idx : Z)
    (a : Status * Z * W) (r : Status * Inserter W) : Prop :=
  let '(s, seq, w) := a in
  fst r = s /\ At p lref (if IsTryAgain s then prev_idx p idx else idx) seq w (snd r).

Lemma retry_prot_run p lref idx s seq w m :
  At p lref idx seq w m -> Ran p lref idx (s, seq, w) (retry_prot (s, m)).
Proof.
  intros (hv & rseq & ub & ->). unfold Ran, retry_prot, prev_idx, DecrementProtectionInfoIdxForTryAgain.
  destruct (IsTryAgain s); cbn; [destruct p; cbn|]; (split; [done|by eexists _, _, _]).
Qed.

(** The core of every update: add the entry, then advance. *)
Definition add_entry (cf : Z) (t : ValueType) (k v : Slice) (q : option ProtectionInfoKVOS)
    (seq : Z) (w : W) : Status * Z * W :=
  let '(s, w) := env_Add env cf seq t k v q w in
  if IsTryAgain s then (s, adv cfg true seq, w)
  else if ok s then (s, adv cfg false seq, full env cfg cf w) else (s, seq, w).

Lemma add_entry_run cf t k v q p lref idx seq w m op c :
  At p lref idx seq w m ->
  Ran p lref idx (add_entry cf t k v q seq w)
    (let '(s, m) := mem_add env cf t k v q m in
     let m := after_add env cfg cf s m in
     retry_prot (rebuild_if (c s) op s m)).
Proof.
  intros (hv & rseq & ub & ->). unfold mem_add, add_entry, after_add. cbn [world_ sequence_].
  destruct (env_Add env cf seq t k v q w) as [s w1]. unfold rebuild_if.
  destruct (IsTryAgain s); [|destruct (ok s)].
  - rewrite MaybeAdvanceSeq_adv. cbn. rewrite andb_false_r. apply retry_prot_run. by eexists _, _, _.
  - rewrite CheckMemtableFull_full, MaybeAdvanceSeq_adv. cbn. rewrite andb_false_r.
    apply retry_prot_run. by eexists _, _, _.
  - cbn. rewrite andb_false_r. apply retry_prot_run. by eexists _, _, _.
Qed.

(** The test of the column family in front of it. *)
Definition if_found (cf lref seq : Z) (w : W) (k : W -> Status * Z * W) : Status * Z * W :=
  if negb (env_Seek env cf w) then
    if ignore_missing_column_families_ cfg then (Status_OK, adv cfg false seq, w)
    else (InvalidArgument "Invalid column family specified in write batch", seq, w)
  else if already_has env cfg cf w then (Status_OK, adv cfg false seq, w)
  else k (if lref >? 0 then env_RefLogContainingPrepSection env cf lref w else w).

Lemma seek_run cf key op p lref idx seq w m k (insert : Inserter W -> Status * Inserter W) :
  At p lref idx seq w m ->
  (forall w m, At p lref idx seq w m -> Ran p lref idx (k w) (insert m)) ->
  Ran p lref idx (if_found cf lref seq w k)
    (if write_after_commit_ cfg && rebuilding m then rebuild op m
     else let '(found, s, m) := SeekToColumnFamily env cfg cf m in
          if negb found then retry_prot (seek_missed env cfg cf key op s m) else insert m).
Proof.
  intros Hat Hk. assert (rebuilding m = false) as Hr
    by (by destruct Hat as (? & ? & ? & ->)). rewrite Hr, andb_false_r.
  pose proof (Seek_normal cf _ _ _ _ _ _ Hat) as Hs. unfold if_found.
  assert (forall s, Ran p lref idx (if ok s then (s, adv cfg false seq, w) else (s, seq, w))
    (retry_prot (seek_missed env cfg cf key op s m))) as Hmiss.
  { intros s. unfold seek_missed. rewrite Hr, andb_false_r. destruct Hat as (hv & rseq & ub & ->).
    destruct (ok s); rewrite ?MaybeAdvanceSeq_adv; apply retry_prot_run; by eexists _, _, _. }
  destruct (env_Seek env cf w); cbn [negb andb orb] in *;
    [destruct (already_has env cfg cf w); cbn [negb] in * |].
  - rewrite Hs. apply (Hmiss Status_OK).
  - destruct Hs as (m' & -> & Hat'). cbn [negb]. by apply Hk.
  - rewrite Hs. cbn [negb]. destruct (ignore_missing_column_families_ cfg).
    + apply (Hmiss Status_OK).
    + apply (Hmiss (InvalidArgument "Invalid column family specified in write batch")).
Qed.

Lemma put_run cf k v t q p lref idx seq w m op :
  At p lref idx seq w m ->
  Ran p lref idx (if_found cf lref seq w (add_entry cf t k v q seq))
    (retry_prot (PutCFImpl env cfg cf k v t op q m)).
Proof.
  intros Hat. assert (rebuilding m = false) as Hr
    by (by destruct Hat as (? & ? & ? & ->)).
  pose proof (seek_run cf k op p lref idx seq w m (add_entry cf t k v q seq)
    (fun m => let '(s, m) := mem_add env cf t k v q m in
              let m := after_add env cfg cf s m in
              retry_prot (rebuild_if (ok s) op s m)) Hat
    (fun w m Hm => add_entry_run cf t k v q p lref idx seq w m op ok Hm)) as L.
  unfold PutCFImpl. rewrite Hr, andb_false_r in *.
  destruct (SeekToColumnFamily env cfg cf m) as [[[] s] m1]; [|exact L]. cbn [negb] in *.
  unfold put_memtable. rewrite (plain_inplace _ plain). cbn [negb].
  by destruct (mem_add env cf t k v q m1).
Qed.

(** Taking the next protection entry. *)
Definition prot_ready (protected : bool) (p : option (list ProtectionInfoKVOC)) (idx : Z)
    (op : Op) : Prop :=
  if protected then exists entries x, p = Some entries /\ prot_of op = [x] /\
                      entries !! Z.to_nat idx = Some x
  else p = None.

Definition next_idx (protected : bool) (idx : Z) : Z := if protected then idx + 1 else idx.

Lemma next_prot protected p lref idx seq w m op t :
  At p lref idx seq w m -> prot_ready protected p idx op -> op_type op = Some t ->
  0 <= idx < 2 ^ 32 ->
  exists q m1, NextProtectionInfo m = (q, m1) /\
    At p lref (next_idx protected idx) seq w m1 /\
    forall w' m2, At p lref (next_idx protected idx) seq w' m2 ->
      mem_prot q (cf_of op) m2
      = if protected then Some (entry_kvos (op_key op) (op_value op) t seq) else None.
Proof.
  intros (hv & rseq & ub & ->) Hp Ht Hi. unfold NextProtectionInfo. cbn.
  destruct protected; cbn in Hp.
  - destruct Hp as (entries & x & -> & Hx & Hl). eexists _, _. split; [reflexivity|].
    rewrite wrap_small by (unfold is_uint; lia). split; [by eexists _, _, _|].
    intros w' m2 (? & ? & ? & ->). rewrite Hl. unfold mem_prot. cbn. f_equal.
    unfold op_type, prot_of, op_key, op_value, op_fields, cf_of in *.
    destruct (shape op) as [cf t' cf_t l|]; [|done]. injection Ht as ->.
    destruct l as [|k [|v [|]]]; simplify_eq/=; unfold entry_prot;
      by rewrite StripC_ProtectC.
  - subst p. eexists _, _. split; [reflexivity|]. split; [by eexists _, _, _|done].
Qed.

Lemma eager_merge_none cf k v m : eager_merge env cfg cf k v m = None.
Proof.
  unfold eager_merge. pose proof (plain_merges _ plain cf (world_ m)).
  rewrite Z.gtb_ltb, (proj2 (Z.ltb_ge _ _)) by done. done.
Qed.

Definition handler := inserter_with env cfg.

Ltac take_entry :=
  match goal with
  | Hat : At _ _ _ _ _ ?m, Hp : prot_ready _ _ _ ?op |- _ =>
      destruct (next_prot _ _ _ _ _ _ m op _ Hat Hp eq_refl ltac:(done))
        as (q & m1 & Hn & Hat1 & Hq); rewrite Hn; cbv [cf_of shape] in Hq
  end.

Lemma delete_run t cf k v q p lref idx seq w m op c :
  At p lref idx seq w m ->
  Ran p lref idx (add_entry cf t k v q seq w)
    (let '(s, m) := DeleteImpl env cfg cf k v t q m in
     retry_prot (rebuild_if (c s) op s m)).
Proof.
  intros Hat. pose proof (add_entry_run cf t k v q p lref idx seq w m op c Hat) as L.
  unfold DeleteImpl. by destruct (mem_add env cf t k v q m).
Qed.

Lemma delete_range_run protected cf b e p lref idx seq w m q op :
  At p lref idx seq w m ->
  mem_prot q cf m = (if protected : bool
                     then Some (entry_kvos b e kTypeRangeDeletion seq) else None) ->
  Ran p lref idx
    (match verdict env cfg (OpDeleteRange cf b e) w with
     | Some s => (s, seq, w)
     | None => add_entry cf kTypeRangeDeletion b e
                 (if protected then Some (entry_kvos b e kTypeRangeDeletion seq) else None) seq w
     end)
    (let insert :=
       let '(s, m) := DeleteImpl env cfg cf b e kTypeRangeDeletion (mem_prot q cf m) m in
       retry_prot (rebuild_if (negb (IsTryAgain s)) op s m) in
     if has_db cfg then
       if negb (env_is_delete_range_supported env cf (world_ m)) then
         (NotSupported ("CF " ++ env_cf_name env cf (world_ m)
                        ++ " reports it does not support DeleteRange")%string, m)
       else
         let cmp := env_CompareWithoutTimestamp env cf b e (world_ m) in
         if cmp >? 0 then (InvalidArgument "end key comes before start key", m)
         else if cmp =? 0 then (Status_OK, m) else insert
     else insert).
Proof.
  intros Hat ->. cbv zeta. unfold verdict.
  assert (world_ m = w) as -> by (by destruct Hat as (? & ? & ? & ->)).
  pose proof (delete_run kTypeRangeDeletion cf b e
    (if protected then Some (entry_kvos b e kTypeRangeDeletion seq) else None)
    p lref idx seq w m op (fun s => negb (IsTryAgain s)) Hat) as L.
  destruct (has_db cfg); cbn [negb]; [|exact L].
  destruct (env_is_delete_range_supported env cf w); cbn [negb]; [|done].
  destruct (Z.compare_spec (env_CompareWithoutTimestamp env cf b e w) 0) as [->|Hlt|Hgt].
  - done.
  - by rewrite Z.gtb_ltb, (proj2 (Z.ltb_ge _ _)), (proj2 (Z.eqb_neq _ _)) by lia.
  - by rewrite Z.gtb_ltb, (proj2 (Z.ltb_lt _ _)) by lia.
Qed.

Lemma apply_update_eq protected lref op seq w :
  apply_update env cfg protected lref op seq w
  = if_found (cf_of op) lref seq w (fun w =>
      match verdict env cfg op w with
      | Some s => (s, seq, w)
      | None => add_entry (cf_of op) (mem_type env op w) (op_key op) (op_value op)
                  (if protected then Some (entry_kvos (op_key op) (op_value op)
                                             (mem_type env op w) seq) else None) seq w
      end).
Proof. reflexivity. Qed.

(** Every update callback runs the abstract update. *)
Lemma update_run replay protected op e p lref idx seq w m :
  is_update op = true -> At p lref idx seq w m -> prot_ready protected p idx op ->
  0 <= idx < 2 ^ 32 ->
  Ran p lref (next_idx protected idx) (apply_update env cfg protected lref op seq w)
    (handle (handler replay) op e m).
Proof.
  intros Hu Hat Hp Hi. rewrite apply_update_eq.
  destruct op; try discriminate Hu; cbv [cf_of shape];
    cbn [handle handler inserter_with
    PutCF TimedPutCF PutEntityCF PutBlobIndexCF DeleteCF SingleDeleteCF DeleteRangeCF MergeCF].
  - unfold mi_PutCF. take_entry. rewrite (Hq w m1 Hat1). by apply put_run.
  - unfold mi_TimedPutCF. take_entry. rewrite (Hq w m1 Hat1). by apply put_run.
  - unfold mi_PutEntityCF. take_entry. rewrite (Hq w m1 Hat1). by apply put_run.
  - unfold mi_DeleteCF. take_entry. eapply seek_run; [done|]. intros w2 m2 Hat2.
    rewrite (Hq w2 m2 Hat2).
    assert (world_ m2 = w2) as -> by (by destruct Hat2 as (? & ? & ? & ->)).
    cbn [verdict mem_type op_type shape].
    set (dt := if 0 =? env_timestamp_size env cf w2 then _ else _).
    replace ((fun p => kvos_UpdateO p kTypeDeletion dt) <$> _) with
      (if protected then Some (entry_kvos key [] dt seq) else None)
      by (destruct protected; [cbn; by rewrite UpdateO_ProtectS|done]).
    by apply delete_run.
  - unfold mi_SingleDeleteCF. take_entry. eapply seek_run; [done|]. intros w2 m2 Hat2.
    rewrite (Hq w2 m2 Hat2). by apply delete_run.
  - unfold mi_DeleteRangeCF. take_entry. eapply seek_run; [done|]. intros w2 m2 Hat2.
    by apply delete_range_run, (Hq w2 m2 Hat2).
  - unfold mi_MergeCF. take_entry. eapply seek_run; [done|]. intros w2 m2 Hat2.
    rewrite eager_merge_none, (Hq w2 m2 Hat2). cbn [verdict].
    assert (world_ m2 = w2) as -> by (by destruct Hat2 as (? & ? & ? & ->)).
    destruct (env_has_merge_operator env cf w2); cbn [negb]; [by apply add_entry_run|by split].
  - unfold mi_PutBlobIndexCF. take_entry. rewrite (Hq w m1 Hat1). by apply put_run.
Qed.

Lemma marker_run replay op e p lref idx seq w m :
  is_update op = false -> wf_op op = true -> policy_allows cfg op = true ->
  At p lref idx seq w m ->
  Ran p lref idx (Status_OK, apply_marker cfg op e seq, w) (handle (handler replay) op e m).
Proof.
  intros Hu Hwf Hpol (hv & rseq & ub & ->).
  assert (forall d, At p lref idx (adv cfg d seq) w
    (MaybeAdvanceSeq cfg d (mkInserter seq lref p idx hv None rseq ub w false))) as Hadv
    by (intros; rewrite MaybeAdvanceSeq_adv; by eexists _, _, _).
  destruct op; try discriminate Hu; cbn [handle handler inserter_with LogData MarkNoopH
    MarkBeginPrepareH MarkEndPrepareH MarkCommitH MarkCommitWithTimestampH MarkRollbackH
    WriteAfterCommit WriteBeforePrepare];
    unfold mi_MarkBeginPrepare, mi_MarkEndPrepare, mi_MarkCommit, mi_MarkCommitWithTimestamp,
      mi_MarkRollback, mi_MarkNoop, commit_tail, retry_prot;
    cbn [policy_allows] in Hpol; rewrite ?Hpol; cbn [negb]; try (split; [done|apply Hadv]).
  - split; [done|by eexists _, _, _].
  - cbn [apply_marker]. destruct e; (split; [done|]); [by eexists _, _, _|apply Hadv].
  - assert ((recovering_log_number_ cfg =? 0) = true) as Hrec
      by (destruct kind; by destruct (recovering_log_number_ cfg =? 0)).
    rewrite Hrec in *. cbn [negb andb] in *. unfold policy_check, state_of.
    split; [|by eexists _, _, _].
    destruct kind; try done; destruct (write_after_commit_ cfg), (write_before_prepare_ cfg);
      done.
Qed.

Lemma num_updates_snoc pre op :
  num_updates (pre ++ [op]) = num_updates pre + (if is_update op then 1 else 0).
Proof.
  rewrite num_updates_app, num_updates_cons. change (num_updates []) with 0. lia.
Qed.

(** The protection entries of the whole batch and the index after [done]. *)
Definition batch_prot (protected : bool) (ops : list Op) : option (list ProtectionInfoKVOC) :=
  if protected then Some (prots_of ops) else None.
Definition batch_idx (protected : bool) (done : list Op) : Z :=
  if protected then num_updates done else 0.

Lemma prot_ready_at protected pre op ops :
  is_update op = true ->
  prot_ready protected (batch_prot protected (pre ++ op :: ops)) (batch_idx protected pre) op.
Proof.
  intros Hu. destruct protected; [|done].
  assert (exists x, prot_of op = [x]) as [x Hx]
    by (unfold is_update in Hu; destruct op; try done; by eexists).
  eexists _, x. split_and!; [done|done|].
  change (op :: ops) with ([op] ++ ops). rewrite !prots_of_app.
  change (prots_of [op]) with (prot_of op ++ []). rewrite Hx.
  apply list_lookup_middle. unfold batch_idx. rewrite <- size_prots_of. unfold size. lia.
Qed.

Lemma apply_op_run replay protected pre op ops e lref seq w m :
  let p := batch_prot protected (pre ++ op :: ops) in
  wf_op op = true -> policy_allows cfg op = true -> num_updates (pre ++ op :: ops) < 2 ^ 32 ->
  At p lref (batch_idx protected pre) seq w m ->
  Ran p lref (batch_idx protected (pre ++ [op])) (apply_op env cfg protected lref op e seq w)
    (handle (handler replay) op e m).
Proof.
  intros p Hop Hpo Hn Hat. unfold apply_op. rewrite num_updates_app in Hn.
  pose proof (num_updates_nonneg pre). pose proof (num_updates_nonneg (op :: ops)).
  destruct (is_update op) eqn:Hu.
  - replace (batch_idx protected (pre ++ [op])) with (next_idx protected (batch_idx protected pre))
      by (unfold next_idx, batch_idx; rewrite num_updates_snoc, Hu; by destruct protected).
    apply update_run; [done|done|by apply prot_ready_at|].
    destruct protected; cbn [batch_idx]; lia.
  - replace (batch_idx protected (pre ++ [op])) with (batch_idx protected pre)
      by (unfold batch_idx; rewrite num_updates_snoc, Hu, Z.add_0_r; done).
    by apply marker_run.
Qed.

(** The whole run did what the abstract application says. *)
Definition Finished (p : option (list ProtectionInfoKVOC)) (lref idx : Z)
    (a : Status * Z * W) (r : Status * Inserter W) : Prop :=
  let '(s, seq, w) := a in
  fst r = s /\ At p lref idx seq w (snd r) /\ IsTryAgain s = false.

(** A retry starts with the same protection entry. *)
Lemma retry_idx protected pre op ops :
  is_update op = true -> num_updates (pre ++ op :: ops) < 2 ^ 32 ->
  prev_idx (batch_prot protected (pre ++ op :: ops)) (batch_idx protected (pre ++ [op])) = batch_idx protected pre.
Proof.
  intros Hu Hn. destruct protected; [|done]. cbn [batch_prot batch_idx prev_idx].
  rewrite num_updates_app in Hn. pose proof (num_updates_nonneg pre). pose proof (num_updates_nonneg (op :: ops)).
  rewrite num_updates_snoc, Hu, Z.add_simpl_r. apply wrap_small. unfold is_uint. lia.
Qed.

Lemma only_updates_retry protected lref op e seq w :
  IsTryAgain (fst (fst (apply_op env cfg protected lref op e seq w))) = true -> is_update op = true.
Proof. unfold apply_op. by destruct (is_update op). Qed.

Lemma retry_empty op s e : is_update op = true -> IsTryAgain s = true -> next_empty op s e = e.
Proof. intros Hu Ht. assert (ok s = false) as Hok by (by destruct s as [[]]). unfold next_empty. rewrite Hok. by destruct op. Qed.

(** A whole run. *)
Lemma run_ops_apply replay protected ops pre e f lref seq w m :
  let p := batch_prot protected (pre ++ ops) in
  Forall (fun op => wf_op op = true) ops -> forallb (policy_allows cfg) ops = true ->
  num_updates (pre ++ ops) < 2 ^ 32 -> At p lref (batch_idx protected pre) seq w m ->
  exists f' idx' r, run_ops (handler replay) ops m e f = (r, true, f') /\
    Finished p lref idx' (apply_ops env cfg protected lref ops e seq w) r.
Proof.
  intros p. subst p. revert pre e f seq w m.
  induction ops as [|op ops IH]; intros pre e f seq w m Hwf Hpol Hn Hat.
  { eexists _, _, _. split; [done|]. by split_and!. }
  apply Forall_cons in Hwf as [Hop Hwf]. cbn [forallb] in Hpol.
  apply andb_true_iff in Hpol as [Hpo Hpol].
  assert (pre ++ op :: ops = (pre ++ [op]) ++ ops) as Hassoc by (by rewrite <- app_assoc).
  assert (forall s seq w m e f, At (batch_prot protected (pre ++ op :: ops)) lref (batch_idx protected (pre ++ [op])) seq w m ->
    IsTryAgain s = false ->
    exists f' idx' r, (if ok s then run_ops (handler replay) ops m e f else (s, m, true, f)) = (r, true, f') /\
      Finished (batch_prot protected (pre ++ op :: ops)) lref idx'
        (if ok s then apply_ops env cfg protected lref ops e seq w else (s, seq, w)) r) as Hrest.
  { intros s seq1 w1 m1 e1 f1 Hat1 Ht. destruct (ok s) eqn:Hok; [rewrite Hassoc in *; by apply IH|].
    eexists _, _, (s, m1). split; [done|]. by split_and!. }
  pose proof (apply_op_run replay protected pre op ops e lref seq w m Hop Hpo Hn Hat) as Hstep.
  pose proof (only_updates_retry protected lref op e seq w) as Hupd.
  cbn [run_ops apply_ops]. unfold step_op, apply_retry.
  change (Continue (handler replay) m) with (true, m). cbn [negb].
  destruct (apply_op env cfg protected lref op e seq w) as [[s seq1] w1].
  destruct (handle (handler replay) op e m) as [s' m1]. destruct Hstep as (Es & Hat1).
  cbn [fst snd] in Es, Hat1, Hupd. subst s'. destruct (IsTryAgain s) eqn:Ht; [|by apply Hrest].
  specialize (Hupd eq_refl). rewrite retry_idx in Hat1 by done. rewrite (retry_empty op s e) by done.
  change (Continue (handler replay) m1) with (true, m1). cbn [negb].
  pose proof (apply_op_run replay protected pre op ops e lref seq1 w1 m1 Hop Hpo Hn Hat1) as Hstep.
  destruct (apply_op env cfg protected lref op e seq1 w1) as [[s2 seq2] w2].
  destruct (handle (handler replay) op e m1) as [s2' m2]. destruct Hstep as (Es & Hat2).
  cbn [fst snd] in Es, Hat2. subst s2'. destruct (IsTryAgain s2) eqn:Ht2.
  - change (Continue (handler replay) m2) with (true, m2). cbn [negb].
    eexists _, _, (_, m2). split; [done|]. by split_and!.
  - by apply Hrest.
Qed.

Context `{VarintReaderLaws}.

(** Iterating over a batch outside recovery. *)
Lemma Iterate_apply depth b bseq ops protected lref seq w m :
  Encodes b bseq ops -> forallb (policy_allows cfg) ops = true ->
  At (batch_prot protected ops) lref 0 seq w m ->
  exists r idx', Iterate (inserter env cfg depth) b m = Some r /\
    Finished (batch_prot protected ops) lref idx'
      (apply_ops env cfg protected lref ops true seq w) r.
Proof.
  intros E Hpol Hat. rewrite (Iterate_run _ b bseq ops m E). unfold run_batch.
  set (replay := fun (b : WriteBatch) (m : Inserter W) => match depth with
    | O => (Status_OK, set_stuck m)
    | S d => match Iterate (inserter env cfg d) b m with
             | Some r => r | None => (Status_OK, set_stuck m) end end).
  assert (inserter env cfg depth = handler replay) as -> by (by destruct depth).
  destruct (run_ops_apply replay protected ops [] true 0 lref seq w m)
    as (f' & idx' & [s m'] & Er & Hr).
  - apply E.
  - done.
  - apply E.
  - by destruct protected.
  - exists (s, m'), idx'. split; [|done].
    exact (f_equal (fun r : Status * Inserter W * bool * Z =>
                      Some (let '(s, h, _, _) := r in (s, h))) Er).
Qed.

Lemma Sequence_encode b seq ops : Encodes b seq ops -> Sequence b = seq.
Proof. intros [Hr Hs _ _]. unfold Sequence. rewrite Hr. by apply DecodeFixed64_Encode. Qed.

Lemma SetSequence_encode b seq seq' ops :
  Encodes b seq ops -> is_uint 64 seq' -> Encodes (SetSequence b seq') seq' ops.
Proof.
  intros [Hr Hs Hn Hwf] ?. split; [|done|done|done].
  cbn [rep_ SetSequence set_rep]. rewrite Hr. apply poke_seq.
Qed.

(** C3: inserting a batch into the memtables is the abstract application of its
    operations, for column families that neither update in place nor merge eagerly, a
    batch with all protection entries or none, and markers that agree with the write
    policy (in recovery, no transaction markers). The operations are applied in order, each under the next sequence
    number (or all under the same one, advanced at batch
    boundaries, when sequence numbers are per batch), with the value type of the
    operation and protection information for exactly the key, value, type and
    sequence number that are stored; missing column families are skipped or
    refused, in recovery column families whose log number is above the recovered one are
    skipped (as the code tests; the comment of [InsertInto] has it the other way round),
    range deletions are checked, a merge without a merge operator is refused, an
    addition that the memtable answers with [TryAgain] is repeated once after a batch
    boundary with the same protection entry and a second [TryAgain] is a corruption,
    the first failure stops the insertion, and the next free sequence number is
    returned. *)
Theorem insert_batch_refines (b : WriteBatch) (seq : Z) (ops : list Op) (protected : bool)
    (hv : option bool) (w : W) :
  Encodes b seq ops -> prot_info_ b = batch_prot protected ops ->
  forallb (policy_allows cfg) ops = true ->
  exists m, InsertInto_batch env cfg b hv w
    = Some (fst (fst (apply_ops env cfg protected 0 ops true seq w)), sequence_ m, m) /\
    (sequence_ m, world_ m)
    = (snd (fst (apply_ops env cfg protected 0 ops true seq w)),
       snd (apply_ops env cfg protected 0 ops true seq w)).
Proof.
  intros E Hp Hpol. unfold InsertInto_batch. rewrite (Sequence_encode b seq ops E), Hp.
  destruct (Iterate_apply 1 b seq ops protected 0 seq w
    (MemTableInserter seq (batch_prot protected ops) hv w)) as ([s m] & idx & Ei & Hr);
    [done|done|by eexists _, _, _|].
  exists m. unfold Finished in Hr. destruct (apply_ops _ _ _ _ _ _ _ _) as [[s' seq'] w'].
  destruct Hr as (Hs & (hv' & rseq & ub & Hm) & _). cbn [fst snd] in *. subst.
  split; [exact (f_equal (fun r => '(s, m) ← r; Some (s, sequence_ m, m)) Ei)|done].
Qed.

(** ** Write groups *)

(** The group on the abstract side: each writer with the operations of its batch.
    The result is the status, the sequence number recorded in each writer, the
    next sequence number and the world. *)
Fixpoint apply_group (group : list (Writer * list Op)) (seq : Z) (w : W)
    : Status * list Z * Z * W :=
  match group with
  | [] => (Status_OK, [], seq, w)
  | (wr, ops) :: group =>
      let continue own seq w :=
        let '(s, seqs, seq, w) := apply_group group seq w in (s, own :: seqs, seq, w) in
      if CallbackFailed wr then continue (w_sequence wr) seq w
      else if negb (ShouldWriteToMemtable wr) then continue seq (adv cfg true seq) w
      else
        let protected := bool_decide (is_Some (prot_info_ (w_batch wr))) in
        let '(s, seq', w) := apply_ops env cfg protected (w_log_ref wr) ops true seq w in
        if ok s then continue seq seq' w
        else (s, seq :: map (fun x => w_sequence (fst x)) group, seq', w)
  end.

(** A writer whose batch holds [ops]. *)
Definition writer_ok (x : Writer * list Op) : Prop :=
  exists bseq, Encodes (w_batch (fst x)) bseq (snd x) /\
    forallb (policy_allows cfg) (snd x) = true /\
    (prot_info_ (w_batch (fst x)) = None \/
     prot_info_ (w_batch (fst x)) = Some (prots_of (snd x))).

Lemma adv_uint d seq : is_uint 64 seq -> is_uint 64 (adv cfg d seq).
Proof. intros. unfold adv. case_if; [by apply wrap_range|done]. Qed.

Lemma apply_op_uint protected lref op e seq w :
  is_uint 64 seq -> is_uint 64 (snd (fst (apply_op env cfg protected lref op e seq w))).
Proof.
  intros Hs. unfold apply_op, apply_update, apply_marker.
  repeat (case_match; simplify_eq/=; try done; try (by apply adv_uint)).
Qed.

Lemma apply_ops_uint protected lref ops e seq w :
  is_uint 64 seq -> is_uint 64 (snd (fst (apply_ops env cfg protected lref ops e seq w))).
Proof.
  revert e seq w. induction ops as [|op ops IH]; intros e seq w Hs; [done|].
  cbn [apply_ops]. unfold apply_retry. pose proof (apply_op_uint protected lref op e seq w Hs) as Hop.
  destruct (apply_op env cfg protected lref op e seq w) as [[s seq1] w1]. cbn in Hop.
  destruct (IsTryAgain s); [|case_if; [by apply IH|done]].
  pose proof (apply_op_uint protected lref op e seq1 w1 Hop) as Hop2.
  destruct (apply_op env cfg protected lref op e seq1 w1) as [[s2 seq2] w2]. cbn in Hop2.
  destruct (ok (if IsTryAgain s2 then _ else s2)); [by apply IH|done].
Qed.

Lemma insert_writer_run wr ops p lref idx seq w m :
  writer_ok (wr, ops) -> is_uint 64 seq -> At p lref idx seq w m ->
  ShouldWriteToMemtable wr = true ->
  let protected := bool_decide (is_Some (prot_info_ (w_batch wr))) in
  exists wr' m' p' idx',
    insert_writer env cfg wr m
    = Some (fst (fst (apply_ops env cfg protected (w_log_ref wr) ops true seq w)), wr', m') /\
    w_sequence wr' = seq /\
    At p' (w_log_ref wr) idx'
      (snd (fst (apply_ops env cfg protected (w_log_ref wr) ops true seq w)))
      (snd (apply_ops env cfg protected (w_log_ref wr) ops true seq w)) m'.
Proof.
  intros (bseq & E & Hpol & Hp) Hu (hv & rseq & ub & ->) Hw protected. cbn [fst snd] in *.
  unfold insert_writer. cbn [sequence_].
  assert (ShouldWriteToMemtable (mkWriter (w_batch wr) (w_log_ref wr) (w_disable_memtable wr)
    (w_callback_status wr) (w_status wr) seq) = true) as -> by done. cbn [negb].
  cbn [w_batch w_log_ref w_disable_memtable w_callback_status w_status w_sequence].
  assert (prot_info_ (SetSequence (w_batch wr) seq) = batch_prot protected ops) as ->.
  { unfold protected. cbn [prot_info_ SetSequence set_rep]. by destruct Hp as [-> | ->]. }
  destruct (Iterate_apply 1 (SetSequence (w_batch wr) seq) seq ops protected (w_log_ref wr) seq w
    (mkInserter seq (w_log_ref wr) (batch_prot protected ops) 0 hv None rseq ub w false))
    as ([s m'] & idx' & Ei & Hr); [by eapply SetSequence_encode|done|by eexists _, _, _|].
  unfold Finished in Hr. destruct (apply_ops _ _ _ _ _ _ _ _) as [[s' seq'] w'].
  destruct Hr as (Hs & Hat & _). cbn [fst snd] in *. subst s'.
  eexists _, m', _, idx'. split; [|split; [|exact Hat]].
  - exact (f_equal (fun r => '(s, m) ← r; Some (s, _, m)) Ei).
  - done.
Qed.

Lemma insert_group_run group p lref idx seq w m :
  Forall writer_ok group -> is_uint 64 seq -> At p lref idx seq w m ->
  let '(s, seqs, seq', w') := apply_group group seq w in
  exists ws m', insert_group env cfg (map fst group) m = Some (s, ws, m') /\
    map w_sequence ws = seqs /\ sequence_ m' = seq' /\ world_ m' = w'.
Proof.
  revert p lref idx seq w m.
  induction group as [|[wr ops] group IH]; intros p lref idx seq w m Hok Hu Hat.
  { exists [], m. by destruct Hat as (? & ? & ? & ->). }
  apply Forall_cons in Hok as [Hwr Hok]. cbn [apply_group map fst insert_group].
  destruct (CallbackFailed wr) eqn:Ecb.
  { specialize (IH p lref idx seq w m Hok Hu Hat).
    destruct (apply_group group seq w) as [[[s seqs] seq'] w'].
    destruct IH as (ws & m' & -> & ? & ? & ?). eexists _, m'. split; [reflexivity|].
    cbn. split_and!; congruence. }
  destruct (ShouldWriteToMemtable wr) eqn:Esw; cbn [negb].
  - destruct (insert_writer_run wr ops p lref idx seq w m Hwr Hu Hat Esw)
      as (wr' & m1 & p1 & idx1 & -> & Hseq & Hat1).
    set (protected := bool_decide _) in *.
    pose proof (apply_ops_uint protected (w_log_ref wr) ops true seq w Hu) as Hu1.
    destruct (apply_ops env cfg protected (w_log_ref wr) ops true seq w) as [[s1 seq1] w1].
    cbn [fst snd mbind option_bind] in *. destruct (ok s1) eqn:Hok1; cbn [negb].
    + specialize (IH p1 _ idx1 seq1 w1 m1 Hok Hu1 Hat1).
      destruct (apply_group group seq1 w1) as [[[s seqs] seq'] w'].
      destruct IH as (ws & m' & -> & ? & ? & ?). eexists _, m'. split; [reflexivity|].
      cbn. split_and!; congruence.
    + eexists _, m1. split; [reflexivity|]. cbn. rewrite map_map, Hseq.
      by destruct Hat1 as (? & ? & ? & ->).
  - unfold insert_writer. destruct Hat as (hv & rseq & ub & ->). cbn [sequence_].
    assert (ShouldWriteToMemtable (mkWriter (w_batch wr) (w_log_ref wr)
      (w_disable_memtable wr) (w_callback_status wr) (w_status wr) seq) = false) as -> by done.
    cbn [negb mbind option_bind]. rewrite MaybeAdvanceSeq_adv.
    specialize (IH p lref idx (adv cfg true seq) w
      (mkInserter (adv cfg true seq) lref p idx hv None rseq ub w false)
      Hok (adv_uint _ _ Hu) ltac:(by eexists _, _, _)).
    destruct (apply_group group (adv cfg true seq) w) as [[[s seqs] seq'] w'].
    destruct IH as (ws & m' & Eg & ? & ? & ?). unfold set_sequence. cbn [sequence_
      log_number_ref_ mi_prot_info_ prot_info_idx_ has_valid_writes_ rebuilding_trx_
      rebuilding_trx_seq_ unprepared_batch_ world_ stuck_].
    change (ok Status_OK) with true. cbn [negb]. rewrite Eg.
    eexists _, m'. split; [reflexivity|]. cbn. split_and!; congruence.
Qed.

(** C19: a write group is inserted writer by writer, under the same conditions on
    column families, protection entries and markers as a single batch. Each writer is stamped with
    the sequence number its batch starts at, which is where the batch before it
    ended; writers whose callback failed are skipped, writers that do not write to
    the memtable only move a per-batch sequence number; the first failing batch
    stops the group. *)
Theorem insert_group_refines (group : list (Writer * list Op)) (seq : Z) (w : W) :
  Forall writer_ok group -> is_uint 64 seq ->
  let '(s, seqs, seq', w') := apply_group group seq w in
  exists ws m', InsertInto_group env cfg (map fst group) seq w = Some (s, ws, m') /\
    map w_sequence ws = seqs /\ sequence_ m' = seq' /\ world_ m' = w'.
Proof. intros Hok Hu. eapply insert_group_run; [done|done|by eexists _, _, _]. Qed.

(** C18: a commit marker met during recovery, outside a prepared section, finishes the
    transaction that was recovered under its name. Where updates are written after the
    commit, the operations of the recovered batch are applied to the memtables with a
    reference to the log of the prepare section, retries included, and the log reference
    is dropped; where they were written before, nothing is applied. The transaction is
    forgotten if all this succeeds and kept otherwise, and the replay is never cut off. A
    marker without a recovered transaction only moves a per-batch sequence number. The
    hypotheses: the write policy is one that the constructor of the inserter makes
    (sequence numbers per batch exactly if updates are not written after the commit), the
    column families neither update in place nor merge eagerly, and the recovered batch
    holds no transaction markers. *)
Theorem commit_replays (name : Slice) (m : Inserter W) :
  recovering_log_number_ cfg <> 0 -> seq_per_batch_ cfg = negb (write_after_commit_ cfg) ->
  rebuilding_trx_ m = None -> stuck_ m = false ->
  match env_GetRecoveredTransaction env name (world_ m) with
  | None => MarkCommitH (the_inserter env cfg) name m
            = (Status_OK, set_sequence m (adv cfg true (sequence_ m)))
  | Some (log, trx) =>
      forall tseq ops, Encodes trx tseq ops -> forallb (policy_allows cfg) ops = true ->
      let '(s, seq', w') :=
        if write_after_commit_ cfg
        then apply_ops env cfg false log ops true (sequence_ m) (world_ m)
        else (Status_OK, adv cfg true (sequence_ m), world_ m) in
      exists m', MarkCommitH (the_inserter env cfg) name m = (s, m') /\
        sequence_ m' = seq' /\ stuck_ m' = false /\
        log_number_ref_ m' = (if write_after_commit_ cfg then 0 else log_number_ref_ m) /\
        world_ m' = if ok s then env_DeleteRecoveredTransaction env name w' else w'
  end.
Proof.
  intros Hrec Hspb Hreb Hst.
  cbn [the_inserter inserter inserter_with MarkCommitH]. unfold mi_MarkCommit.
  rewrite (proj2 (Z.eqb_neq _ _) Hrec). cbn [negb].
  destruct (env_GetRecoveredTransaction env name (world_ m)) as [[log trx]|];
    [|unfold commit_tail; by rewrite MaybeAdvanceSeq_adv].
  intros tseq ops E Hpol. destruct (write_after_commit_ cfg) eqn:Hwac.
  - destruct (Iterate_apply 0 trx tseq ops false log (sequence_ m) (world_ m)
      (ResetProtectionInfo (set_log_number_ref m log))) as ([s1 m1] & idx & Ei & Hr);
      [done|done| |].
    { destruct m. cbn in *. subst. by eexists _, _, _. }
    unfold Finished in Hr. destruct (apply_ops _ _ _ _ _ _ _ _) as [[s seq'] w'].
    destruct Hr as (Es & (hv & rseq & ub & Em) & Ht). cbn [fst snd] in *. subst s1 m1.
    replace (match Iterate _ trx _ with Some r => r | None => _ end)
      with (s, mkInserter seq' log (batch_prot false ops) idx hv None rseq ub w' false)
      by (symmetry; exact (f_equal (fun r => match r with Some r => r
            | None => (Status_OK, set_stuck (ResetProtectionInfo (set_log_number_ref m log)))
            end) Ei)).
    unfold commit_tail, retry_prot, MaybeAdvanceSeq. rewrite Ht, Hspb. cbn [Bool.eqb negb].
    eexists. split; [reflexivity|]. destruct (ok s), hv; done.
  - unfold commit_tail. rewrite MaybeAdvanceSeq_adv. change (ok Status_OK) with true. cbn [retry_prot IsTryAgain].
    eexists. split; [reflexivity|]. unfold mark_valid_writes. destruct m as [? ? ? ? hv ? ? ? ? ?].
    cbn in *. subst. by destruct hv.
Qed.

End Refinement.

(** ** Recovery of prepared transactions *)

Section Recovery.
Context `{Hasher} `{WideColumnCodec} {W : Type} (env : MemEnv W) (cfg : MIConfig).
Context (recovery : recovering_log_number_ cfg <> 0)
        (after_commit : write_after_commit_ cfg = true).

(** The operations a prepared section is rebuilt from. A wide-column entity is taken apart
    and put together again; it is one that this leaves as it is. *)
Definition rebuildable (op : Op) : bool :=
  match op with
  | OpPut _ _ _ | OpDelete _ _ | OpSingleDelete _ _ | OpDeleteRange _ _ _
  | OpMerge _ _ _ => true
  | OpPutEntity _ _ entity =>
      let '(st, columns) := env_Deserialize env entity in
      let '(s, entity') := Serialize (SortColumns columns) in
      ok st && ok s && bool_decide (entity' = entity)
  | _ => false
  end.

(** In the middle of a prepared section. *)
Definition Rebuilding (seq rseq : Z) (ub : bool) (w : W) (a : ABatch) (m : Inserter W) : Prop :=
  sequence_ m = seq /\ rebuilding_trx_seq_ m = rseq /\ unprepared_batch_ m = ub /\
  world_ m = w /\ exists trx, rebuilding_trx_ m = Some trx /\ Repr trx a.

Lemma Rebuilding_next seq rseq ub w a m p m1 :
  Rebuilding seq rseq ub w a m -> NextProtectionInfo m = (p, m1) ->
  Rebuilding seq rseq ub w a m1.
Proof.
  intros Hm. unfold NextProtectionInfo. case_match; intros [= <- <-]; [|done]. exact Hm.
Qed.

(** Without a size limit the rebuilt batch takes the operation. *)
Lemma rebuild_write seq rseq ub w a m op f :
  Rebuilding seq rseq ub w a m -> a_max_bytes a = 0 -> fits a op = true ->
  (forall trx, f trx = commit (LocalSavePoint trx) (write_op trx op)) ->
  exists m', rebuild f m = (Status_OK, m') /\
    Rebuilding seq rseq ub w (with_ops a (a_ops a ++ [op])) m'.
Proof.
  intros (? & ? & ? & ? & trx & Et & R) Hmax (Hwf & Hs & Hn)%fits_spec Hf.
  unfold rebuild. rewrite Et, Hf, (commit_write_op trx a op R Hn).
  unfold over_limit. rewrite Hmax. cbn [Z.eqb negb andb].
  eexists. split; [reflexivity|]. split_and!; try done. eexists. split; [reflexivity|].
  by apply Repr_write_op.
Qed.

Lemma rebuild_step replay op e seq rseq ub w a m :
  rebuildable op = true -> a_max_bytes a = 0 -> fits a op = true ->
  Rebuilding seq rseq ub w a m ->
  exists m', handle (inserter_with env cfg replay) op e m = (Status_OK, m') /\
    Rebuilding seq rseq ub w (with_ops a (a_ops a ++ [op])) m'.
Proof.
  intros Hop Hmax Hf Hm. pose proof (fits_spec _ _ Hf) as (_ & Hs & _).
  destruct op; try discriminate Hop; cbn [handle inserter_with PutCF PutEntityCF DeleteCF
    SingleDeleteCF DeleteRangeCF MergeCF];
    unfold mi_PutCF, mi_PutEntityCF, mi_DeleteCF, mi_SingleDeleteCF, mi_DeleteRangeCF, mi_MergeCF, PutCFImpl;
    destruct (NextProtectionInfo m) as [q m1] eqn:En;
    pose proof (Rebuilding_next _ _ _ _ _ _ _ _ Hm En) as Hm1;
    (assert (rebuilding m1 = true) as ->
      by (destruct Hm1 as (_ & _ & _ & _ & trx & Et & _); unfold rebuilding; by rewrite Et));
    rewrite after_commit; cbn [andb].
  - destruct (rebuild_write _ _ _ _ _ _ _ (fun trx => Internal_Put trx cf key value) Hm1 Hmax Hf)
      as (m' & -> & Hm'); [intros; by apply Internal_Put_write|]. by exists m'.
  - cbn [rebuildable] in Hop. destruct (env_Deserialize env entity) as [st columns].
    destruct (Serialize (SortColumns columns)) as [s entity'] eqn:Es.
    apply andb_true_iff in Hop as [[Hst Hok]%andb_true_iff ->%bool_decide_eq_true].
    destruct (rebuild_write _ _ _ _ _ _ _ (fun trx => Internal_PutEntity trx cf key columns) Hm1 Hmax Hf)
      as (m' & E & Hm'); [intros; by apply (Internal_PutEntity_write _ _ _ _ s)|].
    rewrite Hst. cbn [negb]. rewrite E. by exists m'.
  - eapply rebuild_write; [done|done|done|]. intros. by apply Internal_Delete_write.
  - eapply rebuild_write; [done|done|done|]. intros. by apply Internal_SingleDelete_write.
  - eapply rebuild_write; [done|done|done|]. intros. by apply Internal_DeleteRange_write.
  - eapply rebuild_write; [done|done|done|]. intros. by apply Internal_Merge_write.
Qed.

(** A list of operations that fit after those of [a]. *)
Fixpoint all_fit (a : ABatch) (ops : list Op) : bool :=
  match ops with
  | [] => true
  | op :: ops => fits a op && all_fit (with_ops a (a_ops a ++ [op])) ops
  end.

Lemma rebuild_prefix replay ops rest e f seq rseq ub w a m :
  forallb rebuildable ops = true -> a_max_bytes a = 0 -> all_fit a ops = true ->
  Rebuilding seq rseq ub w a m ->
  exists m' e' f',
    run_ops (inserter_with env cfg replay) (ops ++ rest) m e f
    = run_ops (inserter_with env cfg replay) rest m' e' f' /\
    Rebuilding seq rseq ub w (with_ops a (a_ops a ++ ops)) m'.
Proof.
  revert e f a m. induction ops as [|op ops IH]; intros e f a m Hreb Hmax Hfit Hm.
  { exists m, e, f. split; [done|]. rewrite app_nil_r. by destruct a. }
  cbn [forallb all_fit] in *. apply andb_true_iff in Hreb as [Hop Hreb].
  apply andb_true_iff in Hfit as [Hf Hfit].
  destruct (rebuild_step replay op e _ _ _ _ _ _ Hop Hmax Hf Hm) as (m1 & Eh & Hm1).
  cbn [app run_ops]. unfold step_op.
  change (Continue (inserter_with env cfg replay) m) with (true, m). cbn [negb].
  rewrite Eh. change (IsTryAgain Status_OK) with false. change (ok Status_OK) with true.
  cbv iota.
  destruct (IH (next_empty op Status_OK e) (next_found op Status_OK f)
    (with_ops a (a_ops a ++ [op])) m1 Hreb Hmax Hfit Hm1) as (m' & e' & f' & -> & R).
  exists m', e', f'. split; [done|]. unfold with_ops in *. cbn in *. by rewrite <- app_assoc in R.
Qed.

Lemma end_prepare_run replay name e f seq rseq ub w a m :
  Rebuilding seq rseq ub w a m ->
  exists m' f' trx,
    run_ops (inserter_with env cfg replay) [OpEndPrepare name] m e f = (Status_OK, m', true, f') /\
    Repr trx a /\ rebuilding_trx_ m' = None /\ sequence_ m' = adv cfg true seq /\
    world_ m' = env_InsertRecoveredTransaction env (recovering_log_number_ cfg) name trx rseq
                  0 ub w.
Proof.
  intros (? & ? & ? & ? & trx & Et & R). cbn [run_ops]. unfold step_op.
  change (Continue (inserter_with env cfg replay) m) with (true, m). cbn [negb handle
    inserter_with MarkEndPrepareH]. unfold mi_MarkEndPrepare.
  rewrite (proj2 (Z.eqb_neq _ _) recovery), Et, after_commit. cbn [negb].
  rewrite MaybeAdvanceSeq_adv. eexists _, _, trx. split; [reflexivity|]. by subst.
Qed.

(** The operations that a prepared section refuses. *)
Definition refused_op (op : Op) : bool :=
  match op with OpTimedPut _ _ _ _ | OpPutBlobIndex _ _ _ => true | _ => false end.

Lemma refused_run replay op rest e f seq rseq ub w a m :
  refused_op op = true -> Rebuilding seq rseq ub w a m ->
  exists m' f', run_ops (inserter_with env cfg replay) (op :: rest) m e f = (NotSupported "", m', true, f') /\
    world_ m' = w.
Proof.
  intros Hop Hm. cbn [run_ops]. unfold step_op.
  change (Continue (inserter_with env cfg replay) m) with (true, m). cbn [negb].
  assert (exists m', handle (inserter_with env cfg replay) op e m = (NotSupported "", m') /\ world_ m' = w) as (m' & -> & Hw).
  { destruct op; try discriminate Hop; cbn [handle inserter_with TimedPutCF PutBlobIndexCF];
      unfold mi_TimedPutCF, mi_PutBlobIndexCF, PutCFImpl; destruct (NextProtectionInfo m) as [q m1] eqn:En;
      destruct (Rebuilding_next _ _ _ _ _ _ _ _ Hm En) as (_ & _ & _ & Hw & trx & Et & _);
      unfold rebuilding, rebuild; rewrite Et, after_commit; cbn; by eexists. }
  by eexists _, _.
Qed.

Context `{VarintReaderLaws}.

(** A section starts to be rebuilt at its begin marker. *)
Lemma section_run b seq ops hv w :
  write_before_prepare_ cfg = false -> env_allow_2pc env w = true ->
  Encodes b seq (OpBeginPrepare kTypeBeginPrepareXID :: ops) ->
  exists replay m1,
    Rebuilding seq seq false w (mkABatch 0 [] [] 0 0 false) m1 /\
    InsertInto_batch env cfg b hv w
    = Some (let '(s, m, _, _) := run_ops (inserter_with env cfg replay) ops m1 false 0 in (s, sequence_ m, m)).
Proof.
  intros Hwbp H2pc E. unfold InsertInto_batch.
  rewrite (Sequence_encode b seq _ E), (Iterate_run _ b seq _ _ E).
  unfold run_batch. cbn [run_ops].
  set (m0 := MemTableInserter seq (prot_info_ b) hv w).
  set (m1 := mark_valid_writes
    (set_rebuilding m0 (Some (new_WriteBatch 0 0 0)) seq false)).
  assert (step_op (the_inserter env cfg) (OpBeginPrepare kTypeBeginPrepareXID) m0 true 0
    = (Status_OK, m1, false, 0)) as Es.
  { unfold step_op, the_inserter. cbn [handle inserter inserter_with MarkBeginPrepareH
      WriteAfterCommit WriteBeforePrepare is_unprepare]. unfold mi_MarkBeginPrepare.
    rewrite (proj2 (Z.eqb_neq _ _) recovery). cbn [negb].
    change (world_ m0) with w. rewrite H2pc. cbn [negb]. unfold policy_check, state_of.
    by rewrite after_commit, Hwbp. }
  change (Continue (the_inserter env cfg) m0) with (true, m0). cbn [negb]. rewrite Es.
  change (IsTryAgain Status_OK) with false. change (ok Status_OK) with true. cbv iota.
  cbn [the_inserter inserter].
  match goal with |- context [inserter_with env cfg ?rp] => exists rp, m1 end. split.
  - assert (Repr (new_WriteBatch 0 0 0) (mkABatch 0 [] [] 0 0 false)) by (by apply Repr_empty).
    unfold m1, m0, mark_valid_writes. destruct hv; split_and!; try done; by eexists.
  - by destruct (run_ops _ ops m1 false 0) as [[[s m] c] f].
Qed.

(** C17: a prepared section found in the log rebuilds its transaction. Under the policy that
    writes after the commit, where two-phase commit is allowed, reading a section of
    puts, deletes, single deletes, range deletes, merges and wide-column entities that the
    codec reads and writes back unchanged (as many as fit a batch) during recovery touches
    no memtable; it hands [DBImpl] a batch that holds exactly
    these operations, in order, under the section's name and with the log and the sequence
    number it was found at. At a timed put or a blob index the section is refused: the
    status is [NotSupported] and nothing has been done. *)
Theorem prepare_rebuilds (b : WriteBatch) (seq : Z) (ops rest : list Op)
    (hv : option bool) (w : W) :
  let a0 := mkABatch 0 [] [] 0 0 false in
  write_before_prepare_ cfg = false -> env_allow_2pc env w = true ->
  Encodes b seq (OpBeginPrepare kTypeBeginPrepareXID :: ops ++ rest) ->
  forallb rebuildable ops = true -> all_fit a0 ops = true ->
  (forall name, rest = [OpEndPrepare name] ->
     exists m trx, InsertInto_batch env cfg b hv w = Some (Status_OK, sequence_ m, m) /\
       sequence_ m = adv cfg true seq /\ rebuilding_trx_ m = None /\
       Repr trx (with_ops a0 ops) /\
       world_ m = env_InsertRecoveredTransaction env (recovering_log_number_ cfg) name trx seq
                    0 false w) /\
  (forall op post, rest = op :: post -> refused_op op = true ->
     exists m, InsertInto_batch env cfg b hv w = Some (NotSupported "", sequence_ m, m) /\ world_ m = w).
Proof.
  intros a0 Hwbp H2pc E Hreb Hfit.
  destruct (section_run b seq (ops ++ rest) hv w Hwbp H2pc E) as (replay & m1 & Hm1 & ->).
  destruct (rebuild_prefix replay ops rest false 0 _ _ _ _ a0 m1 Hreb eq_refl Hfit Hm1) as (m2 & e & f & -> & Hm2).
  split.
  - intros name ->. destruct (end_prepare_run replay name e f _ _ _ _ _ _ Hm2) as (m' & f' & trx & -> & Rt & ? & ? & ?).
    by exists m', trx.
  - intros op post -> Hop. destruct (refused_run replay op post e f _ _ _ _ _ _ Hop Hm2) as (m' & f' & -> & Hw).
    by exists m'.
Qed.

End Recovery.

(** while a transaction is rebuilt for the per-batch write policies, a failed
    insertion of a range deletion is reported as a success: the test before the
    operation is added to the rebuilt batch lets every status but [TryAgain]
    through and the batch's answer replaces the error. The single-key deletion
    reports the same failure. *)
Theorem delete_range_hides_failure `{Hasher} {W : Type} (env : MemEnv W)
    (cfg : MIConfig) (m : Inserter W) (trx : WriteBatch) (cf : Z) (k e : Slice) :
  write_after_commit_ cfg = false ->
  (forall w, env_is_delete_range_supported env cf w = true /\
             env_CompareWithoutTimestamp env cf k e w < 0) ->
  env_GetLogNumber env cf (world_ m) <= recovering_log_number_ cfg ->
  log_number_ref_ m = 0 -> rebuilding_trx_ m = Some trx -> max_bytes_ trx = 0 ->
  env_Seek env cf (world_ m) = true -> mi_prot_info_ m = None ->
  (forall t v w, let s := fst (env_Add env cf (sequence_ m) t k v None w) in
    ok s = false /\ IsTryAgain s = false) ->
  fst (mi_DeleteRangeCF env cfg cf k e m) = Status_OK /\
  ok (fst (mi_SingleDeleteCF env cfg cf k m)) = false.
Proof.
  intros Hwac Hrange Hrec Hlog Htrx Hmax Hseek Hprot Hadd.
  assert (forall f, (forall b, max_bytes_ b = 0 -> fst (f b) = Status_OK) ->
    forall m1 : Inserter W, rebuilding_trx_ m1 = Some trx -> fst (rebuild f m1) = Status_OK) as Hreb.
  { intros f Hf m1 E1. unfold rebuild. rewrite E1. specialize (Hf trx Hmax).
    by destruct (f trx). }
  assert (exists m1, SeekToColumnFamily env cfg cf m = (true, Status_OK, m1) /\
    rebuilding_trx_ m1 = Some trx /\ sequence_ m1 = sequence_ m) as (m1 & Es & E1 & Eq).
  { unfold SeekToColumnFamily, mark_valid_writes. rewrite Hseek, (proj2 (Z.ltb_ge _ _) Hrec), andb_false_r.
    cbn [negb].
    destruct m as [? ? ? ? hv ? ? ? ? ?]. cbn in *. subst. destruct hv; by eexists. }
  assert (forall t v p, p = None -> exists s w,
    DeleteImpl env cfg cf k v t p m1 = (s, set_world m1 w) /\ ok s = false /\
    IsTryAgain s = false) as Hdel.
  { intros t v p ->. unfold DeleteImpl, mem_add, after_add. rewrite Eq.
    destruct (Hadd t v (world_ m1)) as [Hok Ht].
    destruct (env_Add env cf (sequence_ m) t k v None (world_ m1)) as [s w]. cbn [fst] in *.
    rewrite Ht, Hok. by eexists _, _. }
  unfold mi_DeleteRangeCF, mi_SingleDeleteCF, NextProtectionInfo. rewrite Hprot, Hwac.
  cbn [andb]. rewrite Es. cbn [negb]. cbv zeta. destruct (Hrange (world_ m1)) as [-> Hlt].
  cbn [negb]. rewrite Z.gtb_ltb, (proj2 (Z.ltb_ge _ _)), (proj2 (Z.eqb_neq _ _)) by lia.
  assert (forall w, rebuilding (set_world m1 w) = true) as Hr
    by (intros w; unfold rebuilding; cbn; by rewrite E1).
  split.
  - destruct (Hdel kTypeRangeDeletion e (mem_prot None cf m1) eq_refl) as (s & w & -> & Hok & Ht).
    unfold rebuild_if. rewrite Ht, Hr. cbn [negb andb].
    replace (if has_db cfg then _ else _) with
      (retry_prot (rebuild (fun b => Internal_DeleteRange b cf k e) (set_world m1 w)))
      by (by destruct (has_db cfg)).
    pose proof (Hreb (fun b => Internal_DeleteRange b cf k e)) as Hf.
    specialize (Hf ltac:(intros b Hb; unfold Internal_DeleteRange, commit;
      replace (max_bytes_ (protect _ _)) with (max_bytes_ b); [by rewrite Hb|];
      unfold protect, put_tag; repeat case_match; done) (set_world m1 w) E1).
    destruct (rebuild _ _) as [s' m']. cbn in Hf. subst s'. done.
  - destruct (Hdel kTypeSingleDeletion [] (mem_prot None cf m1) eq_refl)
      as (s & w & -> & Hok & Ht).
    unfold rebuild_if. rewrite Hok. cbn [andb retry_prot]. by rewrite Ht.
Qed.

(** ** Executions *)

Lemma demo_plain : PlainEnv demo_env.
Proof. by split. Defined.

Definition normal_cfg : MIConfig := mk_config true true false 0 true false true.
Definition recovery_cfg : MIConfig := mk_config false false true 5 true false true.
Definition prepared_cfg : MIConfig := mk_config false false true 5 true true true.

Definition per_batch_cfg : MIConfig := mk_config true true false 0 true true true.

Definition empty_world : DemoWorld := mkDemo [] [].

Lemma prot_index_aligned_witness :
  let m := MemTableInserter 7 (Some [mk_kvoc 1; mk_kvoc 2]) None empty_world in
  aligned m (@mi_PutCF sum_hasher _ demo_env normal_cfg 0 [x61] [x62] m).
Proof.
  apply (@prot_index_aligned sum_hasher plain_codec _ demo_env normal_cfg
    (MemTableInserter 7 (Some [mk_kvoc 1; mk_kvoc 2]) None empty_world) 0 [x61] [x62] 0).
  done.
Defined.

Definition demo_updates : list Op :=
  [OpPut 0 [x61] [x62]; OpPut 0 [x61] [x66]; OpDelete 8 [x63]; OpNoop; OpMerge 3 [x64] [x65]].

Definition demo_batch : WriteBatch :=
  set_prot_info (WriteBatch_of_rep (encode_batch 41 demo_updates))
    (Some (@prots_of sum_hasher demo_updates)).

Lemma demo_batch_encodes : Encodes demo_batch 41 demo_updates.
Proof. split; [done|done|done|]. by repeat constructor. Defined.

(** With sequence numbers per batch the second put of a key is retried after a boundary. *)
Lemma insert_batch_refines_witness :
  let r := @apply_ops sum_hasher _ demo_env per_batch_cfg true 0 demo_updates true 41 empty_world in
  (ok (fst (fst r)), snd (fst r), size (dw_added (snd r))) = (true, 43, 4) /\
  exists m, @InsertInto_batch sum_hasher plain_codec _ demo_env per_batch_cfg leb128_reader
      demo_batch None empty_world = Some (fst (fst r), sequence_ m, m) /\
    (sequence_ m, world_ m) = (snd (fst r), snd r).
Proof.
  split; [by vm_compute|].
  apply (@insert_batch_refines sum_hasher plain_codec _ demo_env per_batch_cfg demo_plain
    leb128_reader leb128_reader_laws demo_batch 41 demo_updates true None empty_world).
  - apply demo_batch_encodes.
  - reflexivity.
  - reflexivity.
Defined.

Definition demo_writer (disable : bool) : Writer :=
  mkWriter demo_batch 0 disable None Status_OK 0.

Lemma insert_group_refines_witness :
  let group := [(demo_writer false, demo_updates); (demo_writer true, demo_updates);
                (demo_writer false, demo_updates)] in
  let '(s, seqs, seq', w') :=
    @apply_group sum_hasher _ demo_env normal_cfg group 100 empty_world in
  exists ws m', @InsertInto_group sum_hasher plain_codec _ demo_env normal_cfg leb128_reader
      (map fst group) 100 empty_world = Some (s, ws, m') /\
    map w_sequence ws = seqs /\ sequence_ m' = seq' /\ world_ m' = w'.
Proof.
  apply (@insert_group_refines sum_hasher plain_codec _ demo_env normal_cfg demo_plain
    leb128_reader leb128_reader_laws
    [(demo_writer false, demo_updates); (demo_writer true, demo_updates);
     (demo_writer false, demo_updates)] 100 empty_world); [|done].
  assert (forall d, @writer_ok sum_hasher normal_cfg (demo_writer d, demo_updates)) as Hw.
  { intros d. exists 41. split_and!; [apply demo_batch_encodes|reflexivity|by right]. }
  by repeat constructor.
Defined.

Definition demo_trx : WriteBatch :=
  WriteBatch_of_rep (encode_batch 0 [OpPut 0 [x61] [x62]; OpDelete 3 [x63]]).

Lemma commit_replays_witness :
  let m := MemTableInserter 50 None None (mkDemo [] [([x74], (4, demo_trx))]) in
  let ops := [OpPut 0 [x61] [x62]; OpDelete 3 [x63]] in
  let '(s, seq', w') := @apply_ops sum_hasher _ demo_env recovery_cfg false 4 ops true
                          (sequence_ m) (world_ m) in
  exists m', MarkCommitH (@the_inserter sum_hasher plain_codec _ demo_env recovery_cfg
                            leb128_reader) [x74] m = (s, m') /\
    sequence_ m' = seq' /\ stuck_ m' = false /\ log_number_ref_ m' = 0 /\
    world_ m' = if ok s then env_DeleteRecoveredTransaction demo_env [x74] w' else w'.
Proof.
  apply (@commit_replays sum_hasher plain_codec _ demo_env recovery_cfg demo_plain
    leb128_reader leb128_reader_laws [x74]
    (MemTableInserter 50 None None (mkDemo [] [([x74], (4, demo_trx))])) ltac:(done)
    eq_refl eq_refl eq_refl 0 [OpPut 0 [x61] [x62]; OpDelete 3 [x63]]); [|reflexivity].
  split; [done|done|done|]. by repeat constructor.
Defined.

Definition demo_section : list Op :=
  OpBeginPrepare kTypeBeginPrepareXID
  :: [OpPut 0 [x61] [x62]; OpDelete 3 [x63]] ++ [OpEndPrepare [x74]].

Lemma prepare_rebuilds_witness :
  exists m trx, @InsertInto_batch sum_hasher plain_codec _ demo_env recovery_cfg leb128_reader
      (WriteBatch_of_rep (encode_batch 60 demo_section)) None empty_world
    = Some (Status_OK, sequence_ m, m) /\
    sequence_ m = adv recovery_cfg true 60 /\ rebuilding_trx_ m = None /\
    @Repr sum_hasher trx
      (with_ops (mkABatch 0 [] [] 0 0 false) [OpPut 0 [x61] [x62]; OpDelete 3 [x63]]) /\
    world_ m = env_InsertRecoveredTransaction demo_env 5 [x74] trx 60 0 false empty_world.
Proof.
  apply (@prepare_rebuilds sum_hasher plain_codec _ demo_env recovery_cfg ltac:(done) eq_refl
    leb128_reader leb128_reader_laws (WriteBatch_of_rep (encode_batch 60 demo_section)) 60
    [OpPut 0 [x61] [x62]; OpDelete 3 [x63]] [OpEndPrepare [x74]] None empty_world); try reflexivity.
  split; [done|done|done|]. by repeat constructor.
Defined.

Lemma delete_range_hides_failure_witness :
  let m := set_rebuilding (MemTableInserter 50 None None empty_world)
             (Some (new_WriteBatch 0 0 0)) 50 false in
  fst (@mi_DeleteRangeCF sum_hasher _ demo_env prepared_cfg 0 [xff] [xff; x01] m) = Status_OK /\
  ok (fst (@mi_SingleDeleteCF sum_hasher _ demo_env prepared_cfg 0 [xff] m)) = false.
Proof.
  apply (@delete_range_hides_failure sum_hasher _ demo_env prepared_cfg
    (set_rebuilding (MemTableInserter 50 None None empty_world)
       (Some (new_WriteBatch 0 0 0)) 50 false) (new_WriteBatch 0 0 0) 0 [xff] [xff; x01]);
    try reflexivity; try done.
Defined.
