(* ===== verification/Double.v ===== *)
(** * IEEE 754 doubles

    The cache keeps ratios of its capacity as [double] and compares sizes with
    products of a size and a ratio. A [double] is a value of the Standard
    Library's executable specification of binary floating point ([SpecFloat]),
    with 53 bits of precision; a [size_t] is rounded to it the way the conversion
    of the language does, to the nearest, ties to even. *)

From Stdlib Require Import SpecFloat.
From S2P Require Import Prelude.

Abbreviation double := spec_float.

Definition double_prec : Z := 53.
Definition double_emax : Z := 1024.

(** The conversion from [size_t]. *)
Definition double_of_Z (z : Z) : double :=
  binary_normalize double_prec double_emax z 0 false.

Definition dmul (x y : double) : double := SFmul double_prec double_emax x y.
Definition dadd (x y : double) : double := SFadd double_prec double_emax x y.
Definition ddiv (x y : double) : double := SFdiv double_prec double_emax x y.

(** [x < y] and [x > y]; both are false when an operand is not a number. *)
Definition dlt (x y : double) : bool := SFltb x y.
Definition dgt (x y : double) : bool := SFltb y x.

Definition d0 : double := double_of_Z 0.
Definition d1 : double := double_of_Z 1.

(** [static_cast<size_t>]: the fraction is dropped. Values that do not fit have no meaning in
    the language; here they wrap. *)
Definition dtrunc (x : double) : Z :=
  match x with
  | S754_finite s m e => u64 (cond_Zopp s (if 0 <=? e then Zpos m * 2 ^ e else Zpos m / 2 ^ (- e)))
  | _ => 0
  end.

(** Not below zero (a NaN is not below anything). *)
Definition dnonneg (x : double) : bool := negb (dlt x d0).

Lemma dnonneg_spec x :
  dnonneg x = true <->
  match x with
  | S754_infinity s | S754_finite s _ _ => s = false
  | _ => True
  end.
Proof. destruct x as [s|s| |s m e]; try destruct s; cbn; naive_solver. Qed.

Lemma binary_round_aux_nonneg m e l :
  dnonneg (binary_round_aux double_prec double_emax false m e l) = true.
Proof.
  rewrite dnonneg_spec. unfold binary_round_aux.
  destruct (shr_fexp _ _ _ _ _) as [mrs e']. destruct (shr_fexp _ _ _ _ _) as [mrs' e''].
  destruct (shr_m mrs'); [done| |done]. by case_if.
Qed.

Lemma double_of_Z_nonneg z : 0 <= z -> dnonneg (double_of_Z z) = true.
Proof.
  intros. unfold double_of_Z. destruct z as [|p|p]; [done| |lia].
  cbn [binary_normalize]. unfold binary_round.
  destruct (shl_align _ _ _). apply binary_round_aux_nonneg.
Qed.

(** A size times a ratio that is not negative is not negative. *)
Lemma dmul_nonneg x y :
  dnonneg x = true -> dnonneg y = true -> dnonneg (dmul x y) = true.
Proof.
  intros Hx Hy. rewrite dnonneg_spec in Hx, Hy.
  destruct x as [?|?| |? ? ?], y as [?|?| |? ? ?]; subst; try done.
  unfold dmul, SFmul. apply binary_round_aux_nonneg.
Qed.

(** Zero is never above a capacity that is not negative. *)
Lemma dgt_zero_nonneg x : dnonneg x = true -> dgt d0 x = false.
Proof.
  unfold dgt. rewrite dnonneg_spec.
  destruct x as [s|s| |s m e]; try destruct s; cbn; naive_solver.
Qed.

#[export] Hint Resolve double_of_Z_nonneg dmul_nonneg dgt_zero_nonneg : xdb.
