(* ===== verification/DoubleRound.v ===== *)
(** * Rounding of doubles

    The value of a rounded double depends on the exact value only and grows with it: rounding to
    the nearest, ties to even, is monotone. So is a size times a ratio, cut down to an integer,
    which is how the cache distributes reservations. *)

From Stdlib Require Import SpecFloat.
From S2P Require Import Prelude.
From S2P Require Import Double.

(** ** Rounding an integer at bit [k] *)

Definition rne_loc (m k : Z) : location :=
  if m mod 2 ^ k =? 0 then loc_Exact else loc_Inexact (2 * (m mod 2 ^ k) ?= 2 ^ k).

Definition rne (m k : Z) : Z := round_nearest_even (m / 2 ^ k) (rne_loc m k).

Lemma pow2_pos k : 0 <= k -> 0 < 2 ^ k.
Proof. intros. apply Z.pow_pos_nonneg; lia. Qed.

Lemma rne_near m k : 0 <= k -> - 2 ^ k <= 2 * (rne m k * 2 ^ k - m) <= 2 ^ k.
Proof.
  intros Hk. pose proof (pow2_pos k Hk) as Hp. unfold rne, rne_loc.
  pose proof (Z.div_mod m (2 ^ k) ltac:(lia)) as E. pose proof (Z.mod_pos_bound m (2 ^ k) Hp) as Hr.
  destruct (Z.eqb_spec (m mod 2 ^ k) 0); cbn [round_nearest_even]; [nia|].
  destruct (Z.compare_spec (2 * (m mod 2 ^ k)) (2 ^ k)); cbn [round_nearest_even]; [destruct (Z.even _)| |]; nia.
Qed.

Lemma rne_mono m m' k : 0 <= k -> m <= m' -> rne m k <= rne m' k.
Proof.
  intros Hk Hm. destruct (decide (m = m')) as [->|Hne]; [done|].
  pose proof (pow2_pos k Hk) as Hp. pose proof (rne_near m k Hk). pose proof (rne_near m' k Hk).
  apply Z.lt_succ_r. apply (Z.mul_lt_mono_pos_r (2 ^ k)); lia.
Qed.

Lemma rne_exact q k : 0 <= k -> rne (q * 2 ^ k) k = q.
Proof.
  intros Hk. pose proof (pow2_pos k Hk) as Hp. unfold rne, rne_loc.
  rewrite Z.mod_mul, Z.div_mul by lia. done.
Qed.

Lemma rne_scale m k j : 0 <= k -> 0 <= j -> rne (m * 2 ^ j) (k + j) = rne m k.
Proof.
  intros Hk Hj. pose proof (pow2_pos k Hk). pose proof (pow2_pos j Hj). unfold rne, rne_loc.
  rewrite Z.pow_add_r, Z.div_mul_cancel_r, Zmult_mod_distr_r by lia. f_equal.
  replace (m mod 2 ^ k * 2 ^ j =? 0) with (m mod 2 ^ k =? 0) by (destruct (Z.eqb_spec (m mod 2 ^ k) 0); symmetry; [apply Z.eqb_eq|apply Z.eqb_neq]; nia).
  case_match; [done|]. f_equal. rewrite Z.mul_assoc. rewrite (Z.mul_comm _ (2 ^ j)), (Z.mul_comm (2 ^ k)).
  symmetry. apply Zmult_compare_compat_l. lia.
Qed.

(** ** Shifting with a sticky bit *)

Lemma iter_pos_nat {A} (f : A -> A) p x : SpecFloat.iter_pos f p x = Nat.iter (Pos.to_nat p) f x.
Proof.
  revert x. induction p as [p IH|p IH|]; intros x; cbn [SpecFloat.iter_pos]; [| |done].
  - rewrite !IH, Pos2Nat.inj_xI, <- !Nat.iter_add. replace (S (2 * Pos.to_nat p)) with (Pos.to_nat p + (Pos.to_nat p + 1))%nat by lia.
    by rewrite !(Nat.iter_add (Pos.to_nat p)).
  - rewrite !IH, Pos2Nat.inj_xO. replace (2 * Pos.to_nat p)%nat with (Pos.to_nat p + Pos.to_nat p)%nat by lia.
    by rewrite Nat.iter_add.
Qed.

(** The record after [k] bits of [m] have been shifted out. *)
Definition shifted (m k : Z) (mrs : shr_record) : Prop :=
  shr_m mrs = m / 2 ^ k /\ loc_of_shr_record mrs = rne_loc m k.

Lemma loc_exact mrs : loc_of_shr_record mrs = loc_Exact <-> shr_r mrs || shr_s mrs = false.
Proof. destruct mrs as [m [] []]; cbn; naive_solver. Qed.

Lemma shr_1_spec mrs : 0 <= shr_m mrs ->
  shr_1 mrs = Build_shr_record (shr_m mrs / 2) (Z.odd (shr_m mrs)) (shr_r mrs || shr_s mrs).
Proof.
  destruct mrs as [m r s]. cbn. intros Hm. destruct m as [|[p|p|]|p]; cbn; try done; try lia; f_equal.
  - rewrite Pos2Z.inj_xI. dlia.
  - rewrite Pos2Z.inj_xO. dlia.
Qed.

Lemma shr_1_shifted m k mrs : 0 <= m -> 0 <= k -> shifted m k mrs -> shifted m (k + 1) (shr_1 mrs).
Proof.
  intros Hm Hk [E1 E2]. pose proof (pow2_pos k Hk) as Hp.
  assert (0 <= m / 2 ^ k) as Hq by (apply Z.div_pos; lia).
  rewrite shr_1_spec by (rewrite E1; done). rewrite E1. pose proof (loc_exact mrs) as Hl. rewrite E2 in Hl.
  pose proof (Z.div_mod m (2 ^ k) ltac:(lia)) as Em. pose proof (Z.mod_pos_bound m (2 ^ k) Hp) as Hr.
  set (q := m / 2 ^ k) in *. set (r := m mod 2 ^ k) in *.
  assert (m / 2 ^ (k + 1) = q / 2 /\ m mod 2 ^ (k + 1) = r + (q mod 2) * 2 ^ k) as [Ed Er].
  { rewrite Z.pow_add_r, Z.pow_1_r by lia. pose proof (Z.div_mod q 2 ltac:(lia)) as Eq.
    pose proof (Z.mod_pos_bound q 2 ltac:(lia)).
    assert (m = (2 ^ k * 2) * (q / 2) + (r + (q mod 2) * 2 ^ k)) as Esum by nia. split.
    - symmetry. apply (Z.div_unique_pos _ _ _ (r + (q mod 2) * 2 ^ k)); [nia|done].
    - symmetry. apply (Z.mod_unique_pos _ _ (q / 2)); [nia|done]. }
  split; [by rewrite Ed|]. unfold rne_loc at 1. rewrite Er, Z.pow_add_r, Z.pow_1_r by lia.
  assert ((shr_r mrs || shr_s mrs = false) <-> r = 0) as Hrs.
  { rewrite <- Hl. unfold rne_loc. fold r. destruct (Z.eqb_spec r 0); naive_solver. }
  rewrite Zmod_odd. cbn [loc_of_shr_record shr_m].
  destruct (Z.odd q), (shr_r mrs || shr_s mrs) eqn:E.
  - assert (r <> 0) by naive_solver. destruct (Z.eqb_spec (r + 1 * 2 ^ k) 0); [lia|]. f_equal. symmetry. apply Z.compare_gt_iff. lia.
  - assert (r = 0) as -> by naive_solver. destruct (Z.eqb_spec (0 + 1 * 2 ^ k) 0); [lia|]. f_equal. symmetry. apply Z.compare_eq_iff. lia.
  - assert (r <> 0) by naive_solver. destruct (Z.eqb_spec (r + 0 * 2 ^ k) 0); [lia|]. f_equal. symmetry. apply Z.compare_lt_iff. lia.
  - assert (r = 0) as -> by naive_solver. done.
Qed.

Lemma shr_spec m e n : 0 <= m ->
  shifted m (Z.max 0 n) (shr (shr_record_of_loc m loc_Exact) e n).1 /\
  (shr (shr_record_of_loc m loc_Exact) e n).2 = e + Z.max 0 n.
Proof.
  intros Hm. assert (shifted m 0 (shr_record_of_loc m loc_Exact)) as H0.
  { split; [cbn; by rewrite Z.div_1_r|]. cbn. unfold rne_loc. by rewrite Z.mod_1_r. }
  assert (forall k : nat, shifted m (Z.of_nat k) (Nat.iter k shr_1 (shr_record_of_loc m loc_Exact))) as Hk.
  { induction k as [|k IH]; [done|]. replace (Z.of_nat (S k)) with (Z.of_nat k + 1) by lia.
    cbn [Nat.iter]. apply shr_1_shifted; [done|lia|done]. }
  destruct n as [|p|p]; cbn [shr fst snd]; [split; [done|lia]| |split; [done|lia]].
  rewrite iter_pos_nat. replace (Z.max 0 (Zpos p)) with (Z.of_nat (Pos.to_nat p)) by lia. split; [apply Hk|lia].
Qed.

(** ** Rounding to a precision

    [X] is a value in units of [2 ^ (- K)]; [place X] is the last bit that a double keeps. *)

Section Round.
Context (K : Z) (HK : 1074 <= K).

Definition place (X : Z) : Z := Z.max (Z.log2 X - 52) (K - 1074).
Definition rounded (X : Z) : Z := rne X (place X) * 2 ^ place X.

Lemma place_nonneg X : 0 <= place X.
Proof. unfold place. lia. Qed.

Lemma rounded_mono X Y : 0 < X -> X <= Y -> rounded X <= rounded Y.
Proof.
  intros HX HXY. unfold rounded. pose proof (Z.log2_le_mono X Y HXY) as HL.
  pose proof (place_nonneg X) as PX. pose proof (place_nonneg Y) as PY.
  destruct (decide (place X = place Y)) as [E|Hne].
  { rewrite E in *. pose proof (rne_mono X Y (place Y) PY HXY). pose proof (pow2_pos (place Y) PY). nia. }
  assert (place X < place Y /\ Z.log2 X < Z.log2 Y /\ place Y = Z.log2 Y - 52) as (Hpl & Hlt & EY)
    by (unfold place in *; lia).
  set (N := Z.max (Z.log2 X + 1) (place X)).
  transitivity (2 ^ N).
  - assert (X <= 2 ^ N) as HN.
    { pose proof (proj2 (Z.log2_spec X HX)). transitivity (2 ^ Z.succ (Z.log2 X)); [lia|].
      apply Z.pow_le_mono_r; lia. }
    replace (2 ^ N) with (2 ^ (N - place X) * 2 ^ place X) in * by (rewrite <- Z.pow_add_r by lia; f_equal; lia).
    pose proof (rne_mono X _ (place X) PX HN) as Hm. rewrite rne_exact in Hm by lia.
    apply Z.mul_le_mono_nonneg_r; [|done]. pose proof (pow2_pos (place X) PX). lia.
  - transitivity (2 ^ Z.log2 Y); [apply Z.pow_le_mono_r; lia|].
    pose proof (proj1 (Z.log2_spec Y ltac:(lia))) as HLY.
    replace (2 ^ Z.log2 Y) with (2 ^ (Z.log2 Y - place Y) * 2 ^ place Y) in * by (rewrite <- Z.pow_add_r by lia; f_equal; lia).
    pose proof (rne_mono _ Y (place Y) PY HLY) as Hm. rewrite rne_exact in Hm by lia.
    apply Z.mul_le_mono_nonneg_r; [|done]. pose proof (pow2_pos (place Y) PY). lia.
Qed.

(** ** Rounding as the specification does it *)

Lemma digits_log2 p : Zpos (digits2_pos p) = Z.log2 (Zpos p) + 1.
Proof.
  induction p as [p IH|p IH|]; cbn [digits2_pos]; [| |done]; rewrite Pos2Z.inj_succ, IH.
  - rewrite Pos2Z.inj_xI, Z.log2_succ_double by lia. lia.
  - rewrite Pos2Z.inj_xO, Z.log2_double by lia. lia.
Qed.

(** The value of a double that is not negative, in units of [2 ^ (- K)]. *)
Definition dvalue (x : double) : Z :=
  match x with S754_finite false m e => Zpos m * 2 ^ (e + K) | _ => 0 end.

Definition plain (x : double) : Prop :=
  match x with
  | S754_zero false => True
  | S754_finite false m e => -1074 <= e <= 971
  | _ => False
  end.

(** The second shift only takes care of a carry. *)
Lemma carry_shift q e : 0 <= q <= 2 ^ 53 \/ 0 < q /\ Z.log2 q + 1 + e - 53 <= e \/
    0 < q /\ fexp double_prec double_emax (Z.log2 q + 1 + e) <= e ->
  -1074 <= e ->
  exists k, 0 <= k <= 1 /\ Z.max 0 (fexp double_prec double_emax (Zdigits2 q + e) - e) = k /\ q mod 2 ^ k = 0.
Proof.
  intros Hq He. assert (fexp double_prec double_emax = fun x => Z.max (x - 53) (-1074)) as Ef by done.
  rewrite Ef in *. destruct q as [|p|p]; [exists 0; rewrite Z.mod_1_r; cbn; lia| |lia].
  change (Zdigits2 (Zpos p)) with (Zpos (digits2_pos p)). rewrite digits_log2.
  destruct (decide (Zpos p = 2 ^ 53)) as [->|Hne]; [exists 1; rewrite Z.log2_pow2 by lia; split_and!; [lia|lia|lia|done]|].
  exists 0. rewrite Z.mod_1_r. split_and!; try lia.
  destruct Hq as [Hq|[Hq|Hq]]; [|lia|lia].
  assert (Z.log2 (Zpos p) < 53) by (apply Z.log2_lt_pow2; lia). lia.
Qed.

(** The first shift rounds. *)
Lemma first_shift m e E : 0 < m -> 0 <= e + K -> E = Z.max (Z.log2 m + 1 + e - 53) (-1074) ->
  let k := Z.max 0 (E - e) in
  0 <= rne m k /\ (rne m k <= 2 ^ 53 \/ k = 0 /\ rne m k = m /\ E < e) /\
  rne m k * 2 ^ (e + k + K) = rounded (m * 2 ^ (e + K)).
Proof.
  intros Hm He EE k. assert (0 <= k) as Hk by lia. pose proof (Z.log2_nonneg m) as Hl0.
  assert (place (m * 2 ^ (e + K)) = E + K) as Epl.
  { unfold place. rewrite Z.log2_mul_pow2 by lia. lia. }
  unfold rounded. rewrite Epl. split.
  { pose proof (rne_mono 0 m k Hk ltac:(lia)) as H0. by rewrite (rne_exact 0 k Hk : rne 0 k = 0) in H0. }
  destruct (decide (E < e)) as [Hlt|Hge].
  - assert (k = 0) as -> by lia. assert (rne m 0 = m) as Er by (rewrite <- (rne_exact m 0) at 2 by lia; f_equal; lia).
    rewrite Er. split; [by right|].
    replace (m * 2 ^ (e + K)) with ((m * 2 ^ (e - E)) * 2 ^ (E + K))
      by (rewrite <- Z.mul_assoc, <- Z.pow_add_r by lia; do 2 f_equal; lia).
    rewrite rne_exact by lia. rewrite <- Z.mul_assoc, <- Z.pow_add_r by lia. do 2 f_equal. lia.
  - split.
    + left. assert (m <= 2 ^ 53 * 2 ^ k) as Hmk.
      { rewrite <- Z.pow_add_r by lia. pose proof (proj2 (Z.log2_spec m Hm)).
        transitivity (2 ^ Z.succ (Z.log2 m)); [lia|]. apply Z.pow_le_mono_r; lia. }
      pose proof (rne_mono m _ k Hk Hmk) as H0. by rewrite rne_exact in H0.
    + replace (E + K) with (k + (e + K)) by lia. rewrite rne_scale by lia. do 2 f_equal. lia.
Qed.

Lemma round_aux_value m e : 0 < m -> 0 <= e + K -> Z.log2 m + e <= 900 ->
  let r := binary_round_aux double_prec double_emax false m e loc_Exact in
  plain r /\ dvalue r = rounded (m * 2 ^ (e + K)).
Proof.
  intros Hm He Hb r. unfold r, binary_round_aux, shr_fexp. clear r.
  set (E := fexp double_prec double_emax (Zdigits2 m + e)).
  assert (E = Z.max (Z.log2 m + 1 + e - 53) (-1074)) as EE.
  { unfold E. destruct m as [|p|p]; [lia| |lia]. change (Zdigits2 (Zpos p)) with (Zpos (digits2_pos p)).
    by rewrite digits_log2. }
  destruct (shr_spec m e (E - e) ltac:(lia)) as [[S1 S2] S3].
  destruct (shr (shr_record_of_loc m loc_Exact) e (E - e)) as [mrs e'] eqn:E1. cbn [fst snd] in S1, S2, S3.
  rewrite S1, S2. set (k := Z.max 0 (E - e)) in *. fold (rne m k). subst e'.
  destruct (first_shift m e E Hm He EE) as (Q0 & Q1 & Q2). fold k in Q0, Q1, Q2.
  pose proof (Z.log2_nonneg m) as Hl0.
  set (q := rne m k) in *.
  destruct (carry_shift q (e + k)) as (k2 & Hk2 & Ek2 & Hmod).
  { destruct Q1 as [Q1|(-> & -> & HEe)]; [left; lia|]. right. right. split; [done|].
    rewrite Z.add_0_r. change (fexp double_prec double_emax (Z.log2 m + 1 + e)) with (Z.max (Z.log2 m + 1 + e - 53) (-1074)). lia. }
  { lia. }
  destruct (shr_spec q (e + k) (fexp double_prec double_emax (Zdigits2 q + (e + k)) - (e + k)) Q0) as [[T1 T2] T3].
  destruct (shr (shr_record_of_loc q loc_Exact) (e + k) _) as [mrs2 e''] eqn:E2. cbn [fst snd] in T1, T2, T3.
  rewrite Ek2 in T1, T3. subst e''. rewrite T1.
  assert (q = q / 2 ^ k2 * 2 ^ k2) as Eq.
  { pose proof (pow2_pos k2 ltac:(lia)). pose proof (Z.div_mod q (2 ^ k2) ltac:(lia)). lia. }
  rewrite <- Q2. destruct (q / 2 ^ k2) as [|p|p] eqn:Eqp.
  - split; [done|]. cbn [dvalue]. lia.
  - destruct (Z.leb_spec (e + k + k2) (double_emax - double_prec)) as [Hle|Hgt].
    + split; [unfold plain; change (double_emax - double_prec) with 971 in Hle; lia|]. cbn [dvalue].
      rewrite Eq at 1. rewrite <- Z.mul_assoc, <- Z.pow_add_r by lia. do 2 f_equal. lia.
    + exfalso. change (double_emax - double_prec) with 971 in Hgt.
      destruct Q1 as [_|(Hk0 & _ & _)]; lia.
  - exfalso. pose proof (pow2_pos k2 ltac:(lia)). pose proof (Z.div_pos q (2 ^ k2)). lia.
Qed.

(** ** Sizes and ratios *)

Lemma shl_pos p d : Zpos (Pos.iter xO p d) = Zpos p * 2 ^ Zpos d.
Proof.
  induction d as [|d IH] using Pos.peano_ind; [cbn; lia|].
  rewrite Pos.iter_succ, Pos2Z.inj_xO, IH, Pos2Z.inj_succ, Z.pow_succ_r by lia. lia.
Qed.

Lemma shl_align_value p e e' : 0 <= e + K -> 0 <= e' + K ->
  let '(p', e2) := shl_align p e e' in
  Zpos p' * 2 ^ (e2 + K) = Zpos p * 2 ^ (e + K) /\ e2 = Z.min e e' /\
  Z.log2 (Zpos p') + e2 = Z.log2 (Zpos p) + e.
Proof.
  intros He He'. unfold shl_align. destruct (e' - e) as [|d|d] eqn:Ed; try (split_and!; (done || lia)).
  assert (Zpos (Pos.iter xO p d) = Zpos p * 2 ^ Zpos d) as Ep by apply shl_pos.
  rewrite Ep. split_and!; [|lia|].
  - rewrite <- Z.mul_assoc, <- Z.pow_add_r by lia. do 2 f_equal. lia.
  - rewrite Z.log2_mul_pow2 by lia. lia.
Qed.

Lemma double_of_Z_value z : 0 <= z < 2 ^ 64 -> plain (double_of_Z z) /\
  dvalue (double_of_Z z) = if z =? 0 then 0 else rounded (z * 2 ^ K).
Proof.
  intros Hz. unfold double_of_Z. destruct z as [|p|p]; [done| |lia]. cbn [binary_normalize Z.eqb].
  unfold binary_round. pose proof (shl_align_value p 0 (fexp double_prec double_emax (Zpos (digits2_pos p) + 0)) ltac:(lia)) as Hal.
  assert (Z.log2 (Zpos p) < 64) by (apply Z.log2_lt_pow2; lia).
  destruct (shl_align p 0 _) as [p' e] eqn:Es.
  destruct Hal as (H1 & H2 & H3).
  { change (fexp double_prec double_emax (Zpos (digits2_pos p) + 0)) with (Z.max (Zpos (digits2_pos p) + 0 - 53) (-1074)). lia. }
  rewrite Z.add_0_l in H1. rewrite <- H1. apply round_aux_value; [lia| |lia].
  change (fexp double_prec double_emax (Zpos (digits2_pos p) + 0)) with (Z.max (Zpos (digits2_pos p) + 0 - 53) (-1074)) in H2. lia.
Qed.

(** A ratio: between zero and one. *)
Definition is_ratio (r : double) : Prop := plain r /\ dvalue r <= 2 ^ K.

Lemma dvalue_nonneg x : 0 <= dvalue x.
Proof. destruct x as [| | |[] m e]; cbn [dvalue]; try lia. Qed.

Lemma rounded_pow2 n : K - 1074 <= n -> rounded (2 ^ n) = 2 ^ n.
Proof.
  intros Hn. unfold rounded. set (p := place (2 ^ n)).
  assert (0 <= p <= n) as Hp by (unfold p, place; rewrite Z.log2_pow2 by lia; lia).
  replace (2 ^ n) with (2 ^ (n - p) * 2 ^ p) by (rewrite <- Z.pow_add_r by lia; f_equal; lia).
  by rewrite rne_exact by lia.
Qed.

(** The product in units of [2 ^ (- K)], before rounding. *)
Definition exact_product (x y : double) : Z := dvalue x * dvalue y / 2 ^ K.

Lemma dmul_value (HK2 : 2148 <= K) x r : plain x -> dvalue x <= 2 ^ (K + 64) -> is_ratio r ->
  plain (dmul x r) /\
  dvalue (dmul x r) = (if exact_product x r =? 0 then 0 else rounded (exact_product x r)) /\
  exact_product x r * 2 ^ K = dvalue x * dvalue r.
Proof.
  intros Hx Hbig [Hr Hone]. pose proof (pow2_pos K ltac:(lia)) as HpK. unfold exact_product.
  destruct x as [[]| | |[] m e]; try done; destruct r as [[]| | |[] m' e']; try done; cbn [plain dvalue dmul SFmul xorb] in *;
    try (rewrite ?Z.mul_0_r, ?Z.mul_0_l, Z.div_0_l by lia; done).
  change (Zpos (m * m')) with (Zpos m * Zpos m').
  set (P := Zpos m * Zpos m' * 2 ^ (e + e' + K)).
  assert (Zpos m * 2 ^ (e + K) * (Zpos m' * 2 ^ (e' + K)) = P * 2 ^ K) as EP.
  { unfold P. replace (Zpos m * 2 ^ (e + K) * (Zpos m' * 2 ^ (e' + K))) with (Zpos m * Zpos m' * (2 ^ (e + K) * 2 ^ (e' + K))) by lia.
    rewrite <- (Z.pow_add_r 2 (e + K) (e' + K)) by lia.
    rewrite <- (Z.mul_assoc (Zpos m * Zpos m') (2 ^ (e + e' + K)) (2 ^ K)), <- (Z.pow_add_r 2 (e + e' + K) K) by lia.
    do 2 f_equal. lia. }
  rewrite EP, Z.div_mul by lia. assert (0 < P) as HP by (pose proof (pow2_pos (e + e' + K) ltac:(lia)); nia).
  destruct (Z.eqb_spec P 0) as [|_]; [lia|].
  assert (Z.log2 (Zpos m * Zpos m') + (e + e') <= 64) as Hlog.
  { assert (P <= 2 ^ (K + 64)) as HPb.
    { apply (Z.mul_le_mono_pos_r _ _ (2 ^ K) HpK). rewrite <- EP.
      transitivity (2 ^ (K + 64) * (Zpos m' * 2 ^ (e' + K))).
      - apply Z.mul_le_mono_nonneg_r; [|done]. pose proof (pow2_pos (e' + K) ltac:(lia)). nia.
      - apply Z.mul_le_mono_nonneg_l; [apply Z.pow_nonneg; lia|done]. }
    apply Z.log2_le_mono in HPb. unfold P in HPb. rewrite Z.log2_pow2, Z.log2_mul_pow2 in HPb by lia. lia. }
  destruct (round_aux_value (Zpos m * Zpos m') (e + e')) as [H1 H2]; [lia|lia|lia|]. done.
Qed.

Lemma dmul_mono (HK2 : 2148 <= K) x y r : plain x -> plain y -> dvalue x <= dvalue y ->
  dvalue y <= 2 ^ (K + 64) -> is_ratio r -> dvalue (dmul x r) <= dvalue (dmul y r).
Proof.
  intros Hx Hy Hle Hbig Hr. pose proof (pow2_pos K ltac:(lia)) as HpK.
  destruct (dmul_value HK2 x r Hx ltac:(lia) Hr) as (_ & -> & Ex).
  destruct (dmul_value HK2 y r Hy Hbig Hr) as (_ & -> & Ey).
  assert (exact_product x r <= exact_product y r) as HP.
  { apply (Z.mul_le_mono_pos_r _ _ (2 ^ K) HpK). rewrite Ex, Ey.
    apply Z.mul_le_mono_nonneg_r; [apply dvalue_nonneg|done]. }
  assert (0 <= exact_product x r).
  { apply Z.div_pos; [|lia]. apply Z.mul_nonneg_nonneg; apply dvalue_nonneg. }
  destruct (Z.eqb_spec (exact_product x r) 0), (Z.eqb_spec (exact_product y r) 0); try lia.
  - apply Z.mul_nonneg_nonneg; [|apply Z.pow_nonneg; lia].
    pose proof (rne_mono 0 (exact_product y r) _ (place_nonneg (exact_product y r)) ltac:(lia)) as H0.
    by rewrite (rne_exact 0 _ (place_nonneg _) : rne 0 _ = 0) in H0.
  - apply rounded_mono; lia.
Qed.

Lemma dtrunc_value x : plain x -> dvalue x < 2 ^ (K + 64) -> dtrunc x = dvalue x / 2 ^ K.
Proof.
  intros Hx Hb. destruct x as [[]| | |[] m e]; try done; cbn [plain dvalue dtrunc cond_Zopp] in *.
  pose proof (pow2_pos K ltac:(lia)) as HpK. pose proof (pow2_pos (e + K) ltac:(lia)) as HpeK.
  assert ((if 0 <=? e then Zpos m * 2 ^ e else Zpos m / 2 ^ (- e)) = Zpos m * 2 ^ (e + K) / 2 ^ K) as ->.
  { destruct (Z.leb_spec 0 e).
    - rewrite Z.pow_add_r by lia. by rewrite Z.mul_assoc, Z.div_mul by lia.
    - replace (2 ^ K) with (2 ^ (- e) * 2 ^ (e + K)) by (rewrite <- Z.pow_add_r by lia; f_equal; lia).
      pose proof (pow2_pos (- e) ltac:(lia)). by rewrite Z.div_mul_cancel_r by lia. }
  apply wrap_small. split; [apply Z.div_pos; lia|]. apply Z.div_lt_upper_bound; [lia|].
  by rewrite <- Z.pow_add_r by lia.
Qed.

Lemma double_of_Z_mono a b : 0 <= a -> a <= b -> b < 2 ^ 64 -> dvalue (double_of_Z a) <= dvalue (double_of_Z b).
Proof.
  intros Ha Hab Hb. pose proof (pow2_pos K ltac:(lia)) as HpK.
  rewrite (proj2 (double_of_Z_value a ltac:(lia))), (proj2 (double_of_Z_value b ltac:(lia))) .
  destruct (Z.eqb_spec a 0), (Z.eqb_spec b 0); try lia.
  - subst a. apply Z.mul_nonneg_nonneg; [|apply Z.pow_nonneg; lia].
    pose proof (rne_mono 0 (b * 2 ^ K) _ (place_nonneg (b * 2 ^ K)) ltac:(nia)) as H0.
    by rewrite (rne_exact 0 _ (place_nonneg _) : rne 0 _ = 0) in H0.
  - apply rounded_mono; nia.
Qed.

Lemma double_of_Z_bound a n : 0 <= n <= 63 -> 0 <= a <= 2 ^ n -> dvalue (double_of_Z a) <= 2 ^ (K + n).
Proof.
  intros Hn Ha. assert (0 < 2 ^ n <= 2 ^ 63) as Hp by (split; [apply pow2_pos; lia|apply Z.pow_le_mono_r; lia]).
  pose proof (double_of_Z_mono a (2 ^ n) ltac:(lia) ltac:(lia) ltac:(lia)) as Hm.
  rewrite (proj2 (double_of_Z_value (2 ^ n) ltac:(lia))) in Hm. destruct (Z.eqb_spec (2 ^ n) 0); [lia|].
  rewrite <- Z.pow_add_r, rounded_pow2 in Hm by lia. by rewrite Z.add_comm.
Qed.

Lemma dmul_bound (HK2 : 2148 <= K) x r n : 0 <= n <= 64 -> plain x -> dvalue x <= 2 ^ (K + n) -> is_ratio r ->
  dvalue (dmul x r) <= 2 ^ (K + n).
Proof.
  intros Hn Hx Hb Hr. pose proof (pow2_pos K ltac:(lia)) as HpK.
  assert (2 ^ (K + n) <= 2 ^ (K + 64)) by (apply Z.pow_le_mono_r; lia).
  destruct (dmul_value HK2 x r Hx ltac:(lia) Hr) as (_ & -> & Ex).
  assert (exact_product x r <= 2 ^ (K + n)) as HP.
  { apply (Z.mul_le_mono_pos_r _ _ (2 ^ K) HpK). rewrite Ex. destruct Hr as [_ Hone].
    pose proof (dvalue_nonneg x). pose proof (dvalue_nonneg r). apply Z.mul_le_mono_nonneg; lia. }
  destruct (Z.eqb_spec (exact_product x r) 0); [apply Z.pow_nonneg; lia|].
  rewrite <- (rounded_pow2 (K + n)) by lia. apply rounded_mono; [|done].
  assert (0 <= exact_product x r); [|lia].
  apply Z.div_pos; [|lia]. apply Z.mul_nonneg_nonneg; apply dvalue_nonneg.
Qed.

(** A size times a ratio, cut down to an integer, grows with the size. *)
Lemma times_mono (HK2 : 2148 <= K) a b n r : 0 <= n <= 63 -> 0 <= a -> a <= b -> b <= 2 ^ n -> is_ratio r ->
  0 <= dtrunc (dmul (double_of_Z a) r) <= dtrunc (dmul (double_of_Z b) r) /\
  dtrunc (dmul (double_of_Z b) r) <= 2 ^ n.
Proof.
  intros Hn Ha Hab Hb Hr. pose proof (pow2_pos K ltac:(lia)) as HpK.
  assert (2 ^ (K + n) < 2 ^ (K + 64)) as Hlt by (apply Z.pow_lt_mono_r; lia).
  assert (2 ^ n <= 2 ^ 63) by (apply Z.pow_le_mono_r; lia).
  destruct (double_of_Z_value a ltac:(lia)) as [Pa _]. destruct (double_of_Z_value b ltac:(lia)) as [Pb _].
  pose proof (double_of_Z_bound b n Hn ltac:(lia)) as Bb.
  pose proof (double_of_Z_mono a b Ha Hab ltac:(lia)) as Mab.
  pose proof (dmul_mono HK2 _ _ r Pa Pb Mab ltac:(lia) Hr) as Mm.
  pose proof (dmul_bound HK2 _ r n ltac:(lia) Pb Bb Hr) as Bm.
  destruct (dmul_value HK2 _ r Pa ltac:(lia) Hr) as (Qa & _). destruct (dmul_value HK2 _ r Pb ltac:(lia) Hr) as (Qb & _).
  rewrite !dtrunc_value by (done || lia). pose proof (dvalue_nonneg (dmul (double_of_Z a) r)).
  split; [split; [apply Z.div_pos; lia|apply Z.div_le_mono; lia]|].
  transitivity (2 ^ (K + n) / 2 ^ K); [apply Z.div_le_mono; lia|].
  rewrite Z.pow_add_r, Z.mul_comm, Z.div_mul by lia. done.
Qed.
End Round.

(** Ratios, decided. *)
Definition ratio_ok (r : double) : bool :=
  match r with
  | S754_zero false => true
  | S754_finite false m e => (-1074 <=? e) && (e <=? 0) && (Zpos m <=? 2 ^ (- e))
  | _ => false
  end.

Lemma ratio_ok_spec K r : 1074 <= K -> ratio_ok r = true -> is_ratio K r.
Proof.
  intros HK H. destruct r as [[]| | |[] m e]; try done; cbn [ratio_ok] in H; unfold is_ratio; cbn [plain dvalue].
  - split; [done|]. apply Z.pow_nonneg. lia.
  - zbool. split; [lia|]. transitivity (2 ^ (- e) * 2 ^ (e + K)).
    + apply Z.mul_le_mono_nonneg_r; [apply Z.pow_nonneg; lia|lia].
    + rewrite <- Z.pow_add_r by lia. apply Z.pow_le_mono_r; lia.
Qed.

Lemma size_times_mono r a b n : ratio_ok r = true -> 0 <= n <= 63 -> 0 <= a -> a <= b -> b <= 2 ^ n ->
  0 <= dtrunc (dmul (double_of_Z a) r) <= dtrunc (dmul (double_of_Z b) r) /\
  dtrunc (dmul (double_of_Z b) r) <= 2 ^ n.
Proof.
  intros Hr Hn Ha Hab Hb. apply (times_mono 2200); try done. by apply ratio_ok_spec.
Qed.
