(* ===== verification/LruState.v ===== *)
(** * The LRU cache: data and memory

    The data of [cache/lru_cache.h]: [LRUHandle], [LRUHandleTable] and
    [LRUCacheShard], and the memory they live in. Handles are heap cells that
    point to each other with [next_hash], [next] and [prev]; a pointer is an
    optional location. A computation on the cache is a function of the memory, the
    shard and the calls made so far, and yields nothing when the code would
    dereference a null or dangling pointer, free a handle twice, index an array
    out of bounds, or when a loop runs out of fuel. *)

From S2P Require Import Prelude.
From S2P Require Import Status.
From S2P Require Import Slice.
From S2P Require Import Double.

(** ** Handles *)

Abbreviation loc := positive (only parsing).
Abbreviation ptr := (option positive).

(** [void *], [Cache::ObjectPtr]. *)
Abbreviation ObjectPtr := Z (only parsing).

Inductive Priority : Set := HIGH | LOW | BOTTOM.

Inductive CacheMetadataChargePolicy : Set :=
| kDontChargeCacheMetadata | kFullChargeCacheMetadata.

#[global] Instance CacheMetadataChargePolicy_eq_dec : EqDecision CacheMetadataChargePolicy.
Proof. solve_decision. Defined.

#[global] Instance Priority_eq_dec : EqDecision Priority.
Proof. solve_decision. Defined.

(** The callbacks of a helper are function pointers; null is [None]. *)
Record CacheItemHelper : Set := mkCacheItemHelper {
  del_cb : option Z;
  size_cb : option Z;
  saveto_cb : option Z;
  create_cb : option Z;
  role : Z;
}.

(** [key_data] and [key_length] together are the key. *)
Record LRUHandle : Set := mkLRUHandle {
  value : ObjectPtr;
  helper : CacheItemHelper;
  next_hash : ptr;
  next : ptr;
  prev : ptr;
  total_charge : Z;
  key : Slice;
  hash : Z;
  refs : Z;
  m_flags : Z;
  im_flags : Z;
}.

Definition set_next_hash (p : ptr) (e : LRUHandle) : LRUHandle :=
  mkLRUHandle (value e) (helper e) p (next e) (prev e) (total_charge e) (key e)
    (hash e) (refs e) (m_flags e) (im_flags e).
Definition set_next (p : ptr) (e : LRUHandle) : LRUHandle :=
  mkLRUHandle (value e) (helper e) (next_hash e) p (prev e) (total_charge e) (key e)
    (hash e) (refs e) (m_flags e) (im_flags e).
Definition set_prev (p : ptr) (e : LRUHandle) : LRUHandle :=
  mkLRUHandle (value e) (helper e) (next_hash e) (next e) p (total_charge e) (key e)
    (hash e) (refs e) (m_flags e) (im_flags e).
Definition set_total_charge (c : Z) (e : LRUHandle) : LRUHandle :=
  mkLRUHandle (value e) (helper e) (next_hash e) (next e) (prev e) c (key e)
    (hash e) (refs e) (m_flags e) (im_flags e).
Definition set_refs (r : Z) (e : LRUHandle) : LRUHandle :=
  mkLRUHandle (value e) (helper e) (next_hash e) (next e) (prev e) (total_charge e)
    (key e) (hash e) r (m_flags e) (im_flags e).
Definition set_m_flags (f : Z) (e : LRUHandle) : LRUHandle :=
  mkLRUHandle (value e) (helper e) (next_hash e) (next e) (prev e) (total_charge e)
    (key e) (hash e) (refs e) f (im_flags e).
Definition set_im_flags (f : Z) (e : LRUHandle) : LRUHandle :=
  mkLRUHandle (value e) (helper e) (next_hash e) (next e) (prev e) (total_charge e)
    (key e) (hash e) (refs e) (m_flags e) f.

Definition M_IN_CACHE : Z := 1.
Definition M_HAS_HIT : Z := 2.
Definition M_IN_HIGH_PRI_POOL : Z := 4.
Definition M_IN_LOW_PRI_POOL : Z := 8.

Definition IM_IS_HIGH_PRI : Z := 1.
Definition IM_IS_LOW_PRI : Z := 2.
Definition IM_IS_STANDALONE : Z := 4.

(** A flag of a flag byte; setting and clearing it. *)
Definition has_flag (fs f : Z) : bool := negb (Z.land fs f =? 0).
Definition put_flag (b : bool) (f fs : Z) : Z :=
  if b then Z.lor fs f else Z.land fs (Z.lnot f).

Definition Ref (e : LRUHandle) : LRUHandle := set_refs (u32 (refs e + 1)) e.

Definition Unref (e : LRUHandle) : bool * LRUHandle :=
  let e := set_refs (u32 (refs e - 1)) e in
  (refs e =? 0, e).

Definition HasRefs (e : LRUHandle) : bool := refs e >? 0.

Definition InCache (e : LRUHandle) : bool := has_flag (m_flags e) M_IN_CACHE.
Definition IsHighPri (e : LRUHandle) : bool := has_flag (im_flags e) IM_IS_HIGH_PRI.
Definition InHighPriPool (e : LRUHandle) : bool :=
  has_flag (m_flags e) M_IN_HIGH_PRI_POOL.
Definition IsLowPri (e : LRUHandle) : bool := has_flag (im_flags e) IM_IS_LOW_PRI.
Definition InLowPriPool (e : LRUHandle) : bool :=
  has_flag (m_flags e) M_IN_LOW_PRI_POOL.
Definition HasHit (e : LRUHandle) : bool := has_flag (m_flags e) M_HAS_HIT.
Definition IsStandalone (e : LRUHandle) : bool :=
  has_flag (im_flags e) IM_IS_STANDALONE.

Definition SetInCache (b : bool) (e : LRUHandle) : LRUHandle :=
  set_m_flags (put_flag b M_IN_CACHE (m_flags e)) e.

Definition SetPriority (p : Priority) (e : LRUHandle) : LRUHandle :=
  match p with
  | HIGH => set_im_flags (put_flag false IM_IS_LOW_PRI
                            (put_flag true IM_IS_HIGH_PRI (im_flags e))) e
  | LOW => set_im_flags (put_flag true IM_IS_LOW_PRI
                           (put_flag false IM_IS_HIGH_PRI (im_flags e))) e
  | BOTTOM => set_im_flags (put_flag false IM_IS_LOW_PRI
                              (put_flag false IM_IS_HIGH_PRI (im_flags e))) e
  end.

Definition SetInHighPriPool (b : bool) (e : LRUHandle) : LRUHandle :=
  set_m_flags (put_flag b M_IN_HIGH_PRI_POOL (m_flags e)) e.

Definition SetInLowPriPool (b : bool) (e : LRUHandle) : LRUHandle :=
  set_m_flags (put_flag b M_IN_LOW_PRI_POOL (m_flags e)) e.

Definition SetHit (e : LRUHandle) : LRUHandle :=
  set_m_flags (put_flag true M_HAS_HIT (m_flags e)) e.

Definition SetIsStandalone (b : bool) (e : LRUHandle) : LRUHandle :=
  set_im_flags (put_flag b IM_IS_STANDALONE (im_flags e)) e.

(** [sizeof(LRUHandle)] on a 64-bit platform. *)
Definition sizeof_LRUHandle : Z := 72.

(** ** Table and shard *)

(** [list_] is the array of buckets. *)
Record LRUHandleTable : Set := mkLRUHandleTable {
  length_bits_ : Z;
  list_ : list ptr;
  elems_ : Z;
  max_length_bits_ : Z;
}.

Record LRUCacheShard : Set := mkLRUCacheShard {
  metadata_charge_policy_ : CacheMetadataChargePolicy;
  capacity_ : Z;
  high_pri_pool_usage_ : Z;
  low_pri_pool_usage_ : Z;
  strict_capacity_limit_ : bool;
  high_pri_pool_ratio_ : double;
  high_pri_pool_capacity_ : double;
  low_pri_pool_ratio_ : double;
  low_pri_pool_capacity_ : double;
  lru_low_pri_ : ptr;
  lru_bottom_pri_ : ptr;
  table_ : LRUHandleTable;
  usage_ : Z;
  lru_usage_ : Z;
}.

(** The dummy head [lru_], a member of the shard, is the cell at this location. *)
Definition lru_ : loc := 1%positive.

Definition set_capacity c s := mkLRUCacheShard (metadata_charge_policy_ s) c
  (high_pri_pool_usage_ s) (low_pri_pool_usage_ s) (strict_capacity_limit_ s)
  (high_pri_pool_ratio_ s) (high_pri_pool_capacity_ s) (low_pri_pool_ratio_ s)
  (low_pri_pool_capacity_ s) (lru_low_pri_ s) (lru_bottom_pri_ s) (table_ s) (usage_ s)
  (lru_usage_ s).
Definition set_pool_usage hi lo s := mkLRUCacheShard (metadata_charge_policy_ s)
  (capacity_ s) hi lo (strict_capacity_limit_ s) (high_pri_pool_ratio_ s)
  (high_pri_pool_capacity_ s) (low_pri_pool_ratio_ s) (low_pri_pool_capacity_ s)
  (lru_low_pri_ s) (lru_bottom_pri_ s) (table_ s) (usage_ s) (lru_usage_ s).
Definition set_strict b s := mkLRUCacheShard (metadata_charge_policy_ s) (capacity_ s)
  (high_pri_pool_usage_ s) (low_pri_pool_usage_ s) b (high_pri_pool_ratio_ s)
  (high_pri_pool_capacity_ s) (low_pri_pool_ratio_ s) (low_pri_pool_capacity_ s)
  (lru_low_pri_ s) (lru_bottom_pri_ s) (table_ s) (usage_ s) (lru_usage_ s).
Definition set_high_pool r c s := mkLRUCacheShard (metadata_charge_policy_ s)
  (capacity_ s) (high_pri_pool_usage_ s) (low_pri_pool_usage_ s)
  (strict_capacity_limit_ s) r c (low_pri_pool_ratio_ s) (low_pri_pool_capacity_ s)
  (lru_low_pri_ s) (lru_bottom_pri_ s) (table_ s) (usage_ s) (lru_usage_ s).
Definition set_low_pool r c s := mkLRUCacheShard (metadata_charge_policy_ s)
  (capacity_ s) (high_pri_pool_usage_ s) (low_pri_pool_usage_ s)
  (strict_capacity_limit_ s) (high_pri_pool_ratio_ s) (high_pri_pool_capacity_ s) r c
  (lru_low_pri_ s) (lru_bottom_pri_ s) (table_ s) (usage_ s) (lru_usage_ s).
Definition set_lru_low_pri p s := mkLRUCacheShard (metadata_charge_policy_ s)
  (capacity_ s) (high_pri_pool_usage_ s) (low_pri_pool_usage_ s)
  (strict_capacity_limit_ s) (high_pri_pool_ratio_ s) (high_pri_pool_capacity_ s)
  (low_pri_pool_ratio_ s) (low_pri_pool_capacity_ s) p (lru_bottom_pri_ s) (table_ s)
  (usage_ s) (lru_usage_ s).
Definition set_lru_bottom_pri p s := mkLRUCacheShard (metadata_charge_policy_ s)
  (capacity_ s) (high_pri_pool_usage_ s) (low_pri_pool_usage_ s)
  (strict_capacity_limit_ s) (high_pri_pool_ratio_ s) (high_pri_pool_capacity_ s)
  (low_pri_pool_ratio_ s) (low_pri_pool_capacity_ s) (lru_low_pri_ s) p (table_ s)
  (usage_ s) (lru_usage_ s).
Definition set_table t s := mkLRUCacheShard (metadata_charge_policy_ s) (capacity_ s)
  (high_pri_pool_usage_ s) (low_pri_pool_usage_ s) (strict_capacity_limit_ s)
  (high_pri_pool_ratio_ s) (high_pri_pool_capacity_ s) (low_pri_pool_ratio_ s)
  (low_pri_pool_capacity_ s) (lru_low_pri_ s) (lru_bottom_pri_ s) t (usage_ s)
  (lru_usage_ s).
Definition set_usage u s := mkLRUCacheShard (metadata_charge_policy_ s) (capacity_ s)
  (high_pri_pool_usage_ s) (low_pri_pool_usage_ s) (strict_capacity_limit_ s)
  (high_pri_pool_ratio_ s) (high_pri_pool_capacity_ s) (low_pri_pool_ratio_ s)
  (low_pri_pool_capacity_ s) (lru_low_pri_ s) (lru_bottom_pri_ s) (table_ s) u
  (lru_usage_ s).
Definition set_lru_usage u s := mkLRUCacheShard (metadata_charge_policy_ s) (capacity_ s)
  (high_pri_pool_usage_ s) (low_pri_pool_usage_ s) (strict_capacity_limit_ s)
  (high_pri_pool_ratio_ s) (high_pri_pool_capacity_ s) (low_pri_pool_ratio_ s)
  (low_pri_pool_capacity_ s) (lru_low_pri_ s) (lru_bottom_pri_ s) (table_ s) (usage_ s) u.

(** ** Memory, calls made, and computations *)

(** Calls the cache makes to code of its users: the deleter of an object, and the
    eviction callback with its answer. *)
Inductive Event : Set :=
| EvDelete (del : Z) (obj : ObjectPtr)
| EvEvict (k : Slice) (obj : ObjectPtr) (was_hit took : bool).

Record World : Set := mkWorld {
  heap : gmap loc LRUHandle;
  shard : LRUCacheShard;
  trace : list Event;
}.

Definition set_heap h w := mkWorld h (shard w) (trace w).
Definition set_shard s w := mkWorld (heap w) s (trace w).
Definition add_event ev w := mkWorld (heap w) (shard w) (trace w ++ [ev]).

Definition M (A : Type) : Type := World -> option (A * World).

#[global] Instance M_ret : MRet M := fun A a w => Some (a, w).
#[global] Instance M_bind : MBind M := fun A B k m w =>
  match m w with Some (a, w') => k a w' | None => None end.

Definition undefined {A} : M A := fun _ => None.

(** Read and update of the cell a pointer points to. *)
Definition load (p : ptr) : M LRUHandle := fun w =>
  match p with
  | None => None
  | Some l => match heap w !! l with Some e => Some (e, w) | None => None end
  end.

Definition update (p : ptr) (f : LRUHandle -> LRUHandle) : M unit := fun w =>
  match p with
  | None => None
  | Some l => match heap w !! l with
              | Some e => Some ((), set_heap (<[l := f e]> (heap w)) w)
              | None => None
              end
  end.

Definition malloc (e : LRUHandle) : M loc := fun w =>
  let l := fresh (dom (heap w)) in
  Some (l, set_heap (<[l := e]> (heap w)) w).

Definition free (p : ptr) : M unit := fun w =>
  match p with
  | None => Some ((), w)
  | Some l => match heap w !! l with
              | Some _ => Some ((), set_heap (delete l (heap w)) w)
              | None => None
              end
  end.

Definition emit (ev : Event) : M unit := fun w => Some ((), add_event ev w).

Definition get : M LRUCacheShard := fun w => Some (shard w, w).
Definition put (f : LRUCacheShard -> LRUCacheShard) : M unit := fun w =>
  Some ((), set_shard (f (shard w)) w).
Definition heap_size : M nat := fun w => Some (base.size (heap w), w).

(** What the platform and the owner of the cache supply: the size the allocator
    reports for a block it was asked for, where [XIAODB_MALLOC_USABLE_SIZE] is
    defined, and the eviction callback, whose answer may depend on all calls made
    before. *)
Record CacheEnv : Type := mkCacheEnv {
  malloc_usable_size : option (Z -> Z);
  eviction_callback_ : option (list Event -> Slice -> ObjectPtr -> bool -> bool);
}.

(** ** Total correctness

    [wp m Q w]: run from [w], the computation [m] does nothing undefined and ends
    with a result and a world that satisfy [Q]. *)

Definition wp {A} (m : M A) (Q : A -> World -> Prop) (w : World) : Prop :=
  match m w with Some (a, w') => Q a w' | None => False end.

Lemma wp_bind {A B} (m : M A) (k : A -> M B) Q w :
  wp m (fun a => wp (k a) Q) w -> wp (x ← m; k x) Q w.
Proof. unfold wp, mbind, M_bind. by destruct (m w) as [[a w']|]. Qed.

Lemma wp_ret {A} (a : A) (Q : A -> World -> Prop) w : Q a w -> wp (mret a) Q w.
Proof. done. Qed.

Lemma wp_mono {A} (m : M A) (P Q : A -> World -> Prop) w :
  wp m P w -> (forall a w', P a w' -> Q a w') -> wp m Q w.
Proof. unfold wp. destruct (m w) as [[a w']|]; auto. Qed.

Lemma wp_load l e (Q : LRUHandle -> World -> Prop) w :
  heap w !! l = Some e -> Q e w -> wp (load (Some l)) Q w.
Proof. intros H ?. unfold wp, load. by rewrite H. Qed.

Lemma wp_update l e f (Q : unit -> World -> Prop) w :
  heap w !! l = Some e -> Q () (set_heap (<[l := f e]> (heap w)) w) ->
  wp (update (Some l) f) Q w.
Proof. intros H ?. unfold wp, update. by rewrite H. Qed.

Lemma wp_free l e (Q : unit -> World -> Prop) w :
  heap w !! l = Some e -> Q () (set_heap (delete l (heap w)) w) ->
  wp (free (Some l)) Q w.
Proof. intros H ?. unfold wp, free. by rewrite H. Qed.

Lemma wp_malloc e (Q : loc -> World -> Prop) w :
  (forall l, heap w !! l = None -> Q l (set_heap (<[l := e]> (heap w)) w)) ->
  wp (malloc e) Q w.
Proof.
  intros H. unfold wp, malloc. apply H. apply not_elem_of_dom, is_fresh.
Qed.

Lemma wp_get (Q : LRUCacheShard -> World -> Prop) w : Q (shard w) w -> wp get Q w.
Proof. done. Qed.

Lemma wp_put f (Q : unit -> World -> Prop) w :
  Q () (set_shard (f (shard w)) w) -> wp (put f) Q w.
Proof. done. Qed.

Lemma wp_heap_size (Q : nat -> World -> Prop) w :
  Q (base.size (heap w)) w -> wp heap_size Q w.
Proof. done. Qed.

Lemma wp_Some {A} (m : M A) Q w :
  wp m Q w -> exists a w', m w = Some (a, w') /\ Q a w'.
Proof. unfold wp. destruct (m w) as [[a w']|]; naive_solver. Qed.

Lemma wp_of_Some {A} (m : M A) (Q : A -> World -> Prop) a w w' :
  m w = Some (a, w') -> Q a w' -> wp m Q w.
Proof. unfold wp. by intros ->. Qed.

(** One step of a computation whose memory accesses are known to succeed. *)
Ltac wstep :=
  lazymatch goal with
  | |- wp (mbind _ _) _ _ => apply wp_bind
  | |- wp (mret _) _ _ => apply wp_ret
  | |- wp get _ _ => apply wp_get
  | |- wp (put _) _ _ => apply wp_put
  | |- wp heap_size _ _ => apply wp_heap_size
  | |- wp (load (Some _)) _ _ => eapply wp_load; [by simplify_map_eq|]
  | |- wp (update (Some _) _) _ _ => eapply wp_update; [by simplify_map_eq|]
  | |- wp (free (Some _)) _ _ => eapply wp_free; [by simplify_map_eq|]
  end; cbn [heap shard trace set_heap set_shard add_event].

Ltac wsteps := repeat wstep.

(** Handles in a list without repetition are fewer than the cells of the heap. *)
Lemma NoDup_length_heap (h : gmap loc LRUHandle) (xs : list loc) :
  NoDup xs -> (forall x, x ∈ xs -> is_Some (h !! x)) ->
  (length xs <= base.size h)%nat.
Proof.
  intros Hnd Hin. rewrite <- size_dom, <- (size_list_to_set (C := gset loc) xs) by done.
  apply subseteq_size. intros x Hx%elem_of_list_to_set. by apply elem_of_dom, Hin.
Qed.
