(* ===== verification/LruTable.v ===== *)
(** * The hash table of the LRU cache

    [LRUHandleTable] of [cache/lru_cache.h] and [cache/lru_cache.cc]: an array of
    buckets, each a list of handles linked by [next_hash], indexed by the upper
    bits of the hash and doubled when it holds as many handles as buckets. *)

From S2P Require Import Prelude.
From S2P Require Import Slice.
From S2P Require Import LruState.

(** A [LRUHandle **] that [FindPointer] returns: the address of a bucket or of the
    field [next_hash] of a handle. *)
Inductive Slot : Set := SBucket (i : Z) | SNext (l : loc).

Definition read_slot (sl : Slot) : M ptr :=
  match sl with
  | SBucket i =>
      s ← get;
      match list_ (table_ s) !! Z.to_nat i with
      | Some p => mret p
      | None => undefined
      end
  | SNext l => e ← load (Some l); mret (next_hash e)
  end.

Definition set_list_ (i : Z) (p : ptr) (s : LRUCacheShard) : LRUCacheShard :=
  let t := table_ s in
  set_table (mkLRUHandleTable (length_bits_ t) (<[Z.to_nat i := p]> (list_ t))
               (elems_ t) (max_length_bits_ t)) s.

Definition write_slot (sl : Slot) (p : ptr) : M unit :=
  match sl with
  | SBucket i =>
      s ← get;
      if (i <? size (list_ (table_ s))) then put (set_list_ i p) else undefined
  | SNext l => update (Some l) (set_next_hash p)
  end.

Definition set_elems (n : Z) (s : LRUCacheShard) : LRUCacheShard :=
  let t := table_ s in
  set_table (mkLRUHandleTable (length_bits_ t) (list_ t) (u32 n) (max_length_bits_ t)) s.

Definition new_table (max_upper_hash_bits : Z) : LRUHandleTable :=
  mkLRUHandleTable 4 (replicate (Z.to_nat (2 ^ 4)) None) 0 max_upper_hash_bits.

(** The bucket of a hash in a table with [2 ^ bits] buckets. *)
Definition bucket_of (bits hash : Z) : Z := Z.shiftr hash (32 - bits).

Fixpoint FindPointer_loop (fuel : nat) (k : Slice) (h : Z) (sl : Slot) : M Slot :=
  match fuel with
  | O => undefined
  | S fuel =>
      p ← read_slot sl;
      match p with
      | None => mret sl
      | Some l =>
          e ← load (Some l);
          if negb (hash e =? h) || negb (slice_eqb k (key e))
          then FindPointer_loop fuel k h (SNext l)
          else mret sl
      end
  end.

Definition FindPointer (k : Slice) (h : Z) : M Slot :=
  s ← get;
  n ← heap_size;
  FindPointer_loop (S n) k h (SBucket (bucket_of (length_bits_ (table_ s)) h)).

Definition Table_Lookup (k : Slice) (h : Z) : M ptr :=
  sl ← FindPointer k h;
  read_slot sl.

(** Moving the handles of one old bucket to the new array. *)
Fixpoint Resize_chain (fuel : nat) (bits : Z) (h : ptr) (new_list : list ptr)
    : M (list ptr) :=
  match fuel with
  | O => undefined
  | S fuel =>
      match h with
      | None => mret new_list
      | Some l =>
          e ← load (Some l);
          let i := Z.to_nat (bucket_of bits (hash e)) in
          match new_list !! i with
          | None => undefined
          | Some p =>
              _ ← update (Some l) (set_next_hash p);
              Resize_chain fuel bits (next_hash e) (<[i := Some l]> new_list)
          end
      end
  end.

Fixpoint Resize_loop (fuel : nat) (bits : Z) (old : list ptr) (new_list : list ptr)
    : M (list ptr) :=
  match old with
  | [] => mret new_list
  | h :: old =>
      new_list ← Resize_chain fuel bits h new_list;
      Resize_loop fuel bits old new_list
  end.

Definition Resize : M unit :=
  s ← get;
  let t := table_ s in
  if (length_bits_ t >=? max_length_bits_ t) then mret ()
  else if (length_bits_ t >=? 31) then mret ()
  else
    n ← heap_size;
    let new_length_bits := length_bits_ t + 1 in
    new_list ← Resize_loop (S n) new_length_bits (list_ t)
                 (replicate (Z.to_nat (2 ^ new_length_bits)) None);
    put (set_table (mkLRUHandleTable new_length_bits new_list (elems_ t)
                      (max_length_bits_ t))).

Definition Table_Insert (h : loc) : M ptr :=
  e ← load (Some h);
  p ← FindPointer (key e) (hash e);
  old ← read_slot p;
  nh ← match old with
       | None => mret None
       | Some o => eo ← load (Some o); mret (next_hash eo)
       end;
  _ ← update (Some h) (set_next_hash nh);
  _ ← write_slot p (Some h);
  match old with
  | None =>
      s ← get;
      _ ← put (set_elems (elems_ (table_ s) + 1));
      s ← get;
      _ ← (if (Z.shiftr (elems_ (table_ s)) (length_bits_ (table_ s)) >? 0)
           then Resize else mret ());
      mret old
  | Some _ => mret old
  end.

Definition Table_Remove (k : Slice) (h : Z) : M ptr :=
  p ← FindPointer k h;
  result ← read_slot p;
  match result with
  | None => mret result
  | Some r =>
      e ← load (Some r);
      _ ← write_slot p (next_hash e);
      s ← get;
      _ ← put (set_elems (elems_ (table_ s) - 1));
      mret result
  end.

(** [ApplyToEntriesRange]: the successor is read before the call. *)
Fixpoint Apply_chain (fuel : nat) (func : loc -> M unit) (h : ptr) : M unit :=
  match fuel with
  | O => undefined
  | S fuel =>
      match h with
      | None => mret ()
      | Some l =>
          e ← load (Some l);
          _ ← func l;
          Apply_chain fuel func (next_hash e)
      end
  end.

Fixpoint Apply_range (fuel count : nat) (func : loc -> M unit) (i : Z) : M unit :=
  match count with
  | O => mret ()
  | S count =>
      h ← read_slot (SBucket i);
      _ ← Apply_chain fuel func h;
      Apply_range fuel count func (i + 1)
  end.

Definition ApplyToEntriesRange (func : loc -> M unit) (index_begin index_end : Z)
    : M unit :=
  n ← heap_size;
  Apply_range (S n) (Z.to_nat (index_end - index_begin)) func index_begin.
