(* ===== verification/LruShard.v ===== *)
(** * One shard of the LRU cache

    [LRUCacheShard] of [cache/lru_cache.h] and [cache/lru_cache.cc]. A method that
    takes the mutex is two definitions: [X_locked], the block under the lock, which
    also yields the handles whose release is put off, and [X], which releases them
    afterwards. *)

From S2P Require Import Prelude.
From S2P Require Import Status.
From S2P Require Import Slice.
From S2P Require Import Double.
From S2P Require Import LruState.
From S2P Require Import LruTable.

(** ** The list of evictable handles *)

Definition LRU_Remove (e : loc) : M unit :=
  s ← get;
  eh ← load (Some e);
  _ ← (if bool_decide (lru_low_pri_ s = Some e)
       then put (set_lru_low_pri (prev eh)) else mret ());
  _ ← (if bool_decide (lru_bottom_pri_ s = Some e)
       then put (set_lru_bottom_pri (prev eh)) else mret ());
  _ ← update (next eh) (set_prev (prev eh));
  _ ← update (prev eh) (set_next (next eh));
  _ ← update (Some e) (fun x => set_prev None (set_next None x));
  s ← get;
  _ ← put (set_lru_usage (u64 (lru_usage_ s - total_charge eh)));
  if InHighPriPool eh then
    put (set_pool_usage (u64 (high_pri_pool_usage_ s - total_charge eh))
           (low_pri_pool_usage_ s))
  else if InLowPriPool eh then
    put (set_pool_usage (high_pri_pool_usage_ s)
           (u64 (low_pri_pool_usage_ s - total_charge eh)))
  else mret ().

Fixpoint Maintain_high (fuel : nat) : M unit :=
  match fuel with
  | O => undefined
  | S fuel =>
      s ← get;
      if dgt (double_of_Z (high_pri_pool_usage_ s)) (high_pri_pool_capacity_ s) then
        e ← load (lru_low_pri_ s);
        _ ← put (set_lru_low_pri (next e));
        x ← load (next e);
        _ ← update (next e) (fun x => SetInLowPriPool true (SetInHighPriPool false x));
        _ ← put (set_pool_usage (u64 (high_pri_pool_usage_ s - total_charge x))
                   (u64 (low_pri_pool_usage_ s + total_charge x)));
        Maintain_high fuel
      else mret ()
  end.

Fixpoint Maintain_low (fuel : nat) : M unit :=
  match fuel with
  | O => undefined
  | S fuel =>
      s ← get;
      if dgt (double_of_Z (low_pri_pool_usage_ s)) (low_pri_pool_capacity_ s) then
        e ← load (lru_bottom_pri_ s);
        _ ← put (set_lru_bottom_pri (next e));
        x ← load (next e);
        _ ← update (next e) (fun x => SetInLowPriPool false (SetInHighPriPool false x));
        _ ← put (set_pool_usage (high_pri_pool_usage_ s)
                   (u64 (low_pri_pool_usage_ s - total_charge x)));
        Maintain_low fuel
      else mret ()
  end.

Definition MaintainPoolSize : M unit :=
  n ← heap_size;
  _ ← Maintain_high (S n);
  Maintain_low (S n).

(** Linking [e] between the handles [p] and [q]: the four assignments that the
    three branches of [LRU_Insert] share. *)
Definition link_between (e : loc) (p q : ptr) : M unit :=
  _ ← update (Some e) (fun x => set_prev p (set_next q x));
  _ ← update p (set_next (Some e));
  update q (set_prev (Some e)).

(** The branches of [LRU_Insert]: the newest of all handles, of the low-priority
    pool, of the bottom-priority pool. *)
Definition LRU_Insert_high (e : loc) (charge : Z) : M unit :=
  s ← get;
  dummy ← load (Some lru_);
  _ ← link_between e (prev dummy) (Some lru_);
  _ ← update (Some e) (fun x => SetInLowPriPool false (SetInHighPriPool true x));
  _ ← put (set_pool_usage (u64 (high_pri_pool_usage_ s + charge))
             (low_pri_pool_usage_ s));
  MaintainPoolSize.

Definition LRU_Insert_low (e : loc) (charge : Z) : M unit :=
  s ← get;
  low ← load (lru_low_pri_ s);
  _ ← link_between e (lru_low_pri_ s) (next low);
  _ ← update (Some e) (fun x => SetInLowPriPool true (SetInHighPriPool false x));
  _ ← put (set_pool_usage (high_pri_pool_usage_ s)
             (u64 (low_pri_pool_usage_ s + charge)));
  _ ← put (set_lru_low_pri (Some e));
  MaintainPoolSize.

Definition LRU_Insert_bottom (e : loc) : M unit :=
  s ← get;
  bottom ← load (lru_bottom_pri_ s);
  _ ← link_between e (lru_bottom_pri_ s) (next bottom);
  _ ← update (Some e) (fun x => SetInLowPriPool false (SetInHighPriPool false x));
  _ ← (if bool_decide (lru_bottom_pri_ s = lru_low_pri_ s)
       then put (set_lru_low_pri (Some e)) else mret ());
  put (set_lru_bottom_pri (Some e)).

Definition LRU_Insert (e : loc) : M unit :=
  s ← get;
  eh ← load (Some e);
  _ ← (if dgt (high_pri_pool_ratio_ s) d0 && (IsHighPri eh || HasHit eh) then
         LRU_Insert_high e (total_charge eh)
       else if dgt (low_pri_pool_ratio_ s) d0
               && (IsHighPri eh || IsLowPri eh || HasHit eh) then
         LRU_Insert_low e (total_charge eh)
       else LRU_Insert_bottom e);
  s ← get;
  put (set_lru_usage (u64 (lru_usage_ s + total_charge eh))).

(** One turn of the loops of [EvictFromLRU] and [EraseUnRefEntries]: the oldest
    handle leaves the list, the table and the usage. *)
Definition evict_one (old : loc) : M unit :=
  eh ← load (Some old);
  _ ← LRU_Remove old;
  _ ← Table_Remove (key eh) (hash eh);
  _ ← update (Some old) (SetInCache false);
  s ← get;
  put (set_usage (u64 (usage_ s - total_charge eh))).

Fixpoint EvictFromLRU_loop (fuel : nat) (charge : Z) (deleted : list loc)
    : M (list loc) :=
  match fuel with
  | O => undefined
  | S fuel =>
      s ← get;
      dummy ← load (Some lru_);
      if (u64 (usage_ s + charge) >? capacity_ s)
         && bool_decide (next dummy <> Some lru_) then
        match next dummy with
        | None => undefined
        | Some old =>
            _ ← evict_one old;
            EvictFromLRU_loop fuel charge (deleted ++ [old])
        end
      else mret deleted
  end.

Definition EvictFromLRU (charge : Z) (deleted : list loc) : M (list loc) :=
  n ← heap_size;
  EvictFromLRU_loop (S n) charge deleted.

Fixpoint EraseUnRefEntries_loop (fuel : nat) (deleted : list loc) : M (list loc) :=
  match fuel with
  | O => undefined
  | S fuel =>
      dummy ← load (Some lru_);
      if bool_decide (next dummy <> Some lru_) then
        match next dummy with
        | None => undefined
        | Some old =>
            _ ← evict_one old;
            EraseUnRefEntries_loop fuel (deleted ++ [old])
        end
      else mret deleted
  end.

Definition EraseUnRefEntries_locked : M (list loc) :=
  n ← heap_size;
  EraseUnRefEntries_loop (S n) [].

(** ** Operations *)

Section Shard.
Context (env : CacheEnv).

Definition CalcuMetaCharge (policy : CacheMetadataChargePolicy) (e : LRUHandle) : Z :=
  match policy with
  | kFullChargeCacheMetadata =>
      let block := u64 (sizeof_LRUHandle - 1 + size (key e)) in
      match malloc_usable_size env with
      | Some usable => u64 (usable block)
      | None => block
      end
  | kDontChargeCacheMetadata => 0
  end.

Definition CalcTotalCharge (charge : Z) (policy : CacheMetadataChargePolicy)
    (e : LRUHandle) : LRUHandle :=
  set_total_charge (u64 (charge + CalcuMetaCharge policy e)) e.

Definition GetCharge (policy : CacheMetadataChargePolicy) (e : LRUHandle) : Z :=
  u64 (total_charge e - CalcuMetaCharge policy e).

(** [LRUHandle::Free]. *)
Definition Free (e : loc) : M unit :=
  eh ← load (Some e);
  _ ← match del_cb (helper eh) with
      | Some del => emit (EvDelete del (value eh))
      | None => mret ()
      end;
  free (Some e).

(** The destructor of the table. *)
Definition Table_destroy : M unit :=
  s ← get;
  ApplyToEntriesRange
    (fun h => e ← load (Some h); if negb (HasRefs e) then Free h else mret ())
    0 (2 ^ length_bits_ (table_ s)).

Definition call_eviction_callback (e : loc) : M bool := fun w =>
  match heap w !! e with
  | None => None
  | Some eh =>
      match eviction_callback_ env with
      | None => Some (false, w)
      | Some cb =>
          let took := cb (trace w) (key eh) (value eh) (HasHit eh) in
          Some (took, add_event (EvEvict (key eh) (value eh) (HasHit eh) took) w)
      end
  end.

Definition NotifyEvicted_one (entry : loc) : M unit :=
  took ← call_eviction_callback entry;
  if (took : bool) then free (Some entry) else Free entry.

Fixpoint NotifyEvicted (evicted_handles : list loc) : M unit :=
  match evicted_handles with
  | [] => mret ()
  | entry :: rest => _ ← NotifyEvicted_one entry; NotifyEvicted rest
  end.

Fixpoint Free_all (last_reference_list : list loc) : M unit :=
  match last_reference_list with
  | [] => mret ()
  | entry :: rest => _ ← Free entry; Free_all rest
  end.

Definition EraseUnRefEntries : M unit :=
  l ← EraseUnRefEntries_locked;
  Free_all l.

Definition pool_capacity (capacity : Z) (ratio : double) : double :=
  dmul (double_of_Z capacity) ratio.

Definition SetCapacity_locked (capacity : Z) : M (list loc) :=
  _ ← put (set_capacity capacity);
  _ ← put (fun s => set_high_pool (high_pri_pool_ratio_ s)
                      (pool_capacity capacity (high_pri_pool_ratio_ s)) s);
  _ ← put (fun s => set_low_pool (low_pri_pool_ratio_ s)
                      (pool_capacity capacity (low_pri_pool_ratio_ s)) s);
  EvictFromLRU 0 [].

Definition SetCapacity (capacity : Z) : M unit :=
  l ← SetCapacity_locked capacity;
  NotifyEvicted l.

Definition SetStrictCapacityLimit (strict_capacity_limit : bool) : M unit :=
  put (set_strict strict_capacity_limit).

Definition SetHighPriorityPoolRatio (ratio : double) : M unit :=
  _ ← put (fun s => set_high_pool ratio (pool_capacity (capacity_ s) ratio) s);
  MaintainPoolSize.

Definition SetLowPriorityPoolRatio (ratio : double) : M unit :=
  _ ← put (fun s => set_low_pool ratio (pool_capacity (capacity_ s) ratio) s);
  MaintainPoolSize.

(** What [InsertItem] does with the handle it replaces, and [Erase] with the one it
    removed: out of the cache, and out of the list when nobody refers to it. *)
Definition detach (e : loc) (deleted : list loc) : M (list loc) :=
  _ ← update (Some e) (SetInCache false);
  eh ← load (Some e);
  if negb (HasRefs eh) then
    _ ← LRU_Remove e;
    s ← get;
    _ ← put (set_usage (u64 (usage_ s - total_charge eh)));
    mret (deleted ++ [e])
  else mret deleted.

(** [InsertItem]; [want] says that [handle] is not null, and the pointer returned
    is what the code stores through it. *)
Definition InsertItem_locked (e : loc) (want : bool) : M (Status * ptr * list loc) :=
  eh ← load (Some e);
  last_reference_list ← EvictFromLRU (total_charge eh) [];
  s ← get;
  if (u64 (usage_ s + total_charge eh) >? capacity_ s)
     && (strict_capacity_limit_ s || negb want) then
    _ ← update (Some e) (SetInCache false);
    if negb want then mret (Status_OK, None, last_reference_list ++ [e])
    else
      _ ← free (Some e);
      mret (MemoryLimit_msg "Insert failed due to LRU cache being full.", None,
            last_reference_list)
  else
    old ← Table_Insert e;
    s ← get;
    _ ← put (set_usage (u64 (usage_ s + total_charge eh)));
    '(st, last_reference_list) ←
       match old with
       | None => mret (Status_OK, last_reference_list)
       | Some o =>
           last_reference_list ← detach o last_reference_list;
           mret (OkOverwritten, last_reference_list)
       end;
    if negb want then
      _ ← LRU_Insert e;
      mret (st, None, last_reference_list)
    else
      eh ← load (Some e);
      _ ← (if negb (HasRefs eh) then update (Some e) Ref else mret ());
      mret (st, Some e, last_reference_list).

Definition InsertItem (e : loc) (want : bool) : M (Status * ptr) :=
  '(s, handle, last_reference_list) ← InsertItem_locked e want;
  _ ← NotifyEvicted last_reference_list;
  mret (s, handle).

Definition Shard_Lookup (k : Slice) (h : Z) : M ptr :=
  e ← Table_Lookup k h;
  match e with
  | None => mret None
  | Some l =>
      eh ← load (Some l);
      _ ← (if negb (HasRefs eh) then LRU_Remove l else mret ());
      _ ← update (Some l) (fun x => SetHit (Ref x));
      mret (Some l)
  end.

Definition Shard_Ref (e : loc) : M bool :=
  _ ← update (Some e) Ref;
  mret true.

(** [Release]; the list holds [e] when it is to be freed. *)
Definition Release_locked (e : loc) (erase_if_last_ref : bool) : M (list loc) :=
  eh ← load (Some e);
  let '(must_free, eh') := Unref eh in
  _ ← update (Some e) (fun _ => eh');
  let was_in_cache := InCache eh' in
  s ← get;
  must_free ←
    (if must_free && was_in_cache then
       if (usage_ s >? capacity_ s) || erase_if_last_ref then
         _ ← Table_Remove (key eh') (hash eh');
         _ ← update (Some e) (SetInCache false);
         mret true
       else
         _ ← LRU_Insert e;
         mret false
     else mret must_free);
  if (must_free : bool) then
    s ← get;
    _ ← put (set_usage (u64 (usage_ s - total_charge eh')));
    mret [e]
  else mret [].

Definition Release (e : ptr) (erase_if_last_ref : bool) : M bool :=
  match e with
  | None => mret false
  | Some l =>
      last_reference_list ← Release_locked l erase_if_last_ref;
      _ ← Free_all last_reference_list;
      mret (bool_decide (last_reference_list <> []))
  end.

Definition CreateHandle (k : Slice) (h : Z) (v : ObjectPtr) (hp : CacheItemHelper)
    (charge : Z) : M loc :=
  s ← get;
  malloc (CalcTotalCharge charge (metadata_charge_policy_ s)
            (mkLRUHandle v hp None None None 0 k h 0 0 0)).

Definition Shard_Insert_locked (k : Slice) (h : Z) (v : ObjectPtr)
    (hp : CacheItemHelper) (charge : Z) (want : bool) (priority : Priority)
    : M (Status * ptr * list loc) :=
  e ← CreateHandle k h v hp charge;
  _ ← update (Some e) (SetPriority priority);
  _ ← update (Some e) (SetInCache true);
  InsertItem_locked e want.

Definition Shard_Insert (k : Slice) (h : Z) (v : ObjectPtr) (hp : CacheItemHelper)
    (charge : Z) (want : bool) (priority : Priority) : M (Status * ptr) :=
  e ← CreateHandle k h v hp charge;
  _ ← update (Some e) (SetPriority priority);
  _ ← update (Some e) (SetInCache true);
  InsertItem e want.

Definition CreateStandalone_locked (k : Slice) (h : Z) (v : ObjectPtr)
    (hp : CacheItemHelper) (charge : Z) (allow_uncharged : bool)
    : M (ptr * list loc) :=
  e ← CreateHandle k h v hp charge;
  _ ← update (Some e) (SetIsStandalone true);
  _ ← update (Some e) Ref;
  eh ← load (Some e);
  last_reference_list ← EvictFromLRU (total_charge eh) [];
  s ← get;
  if strict_capacity_limit_ s && (u64 (usage_ s + total_charge eh) >? capacity_ s) then
    if allow_uncharged then
      _ ← update (Some e) (set_total_charge 0);
      mret (Some e, last_reference_list)
    else
      _ ← free (Some e);
      mret (None, last_reference_list)
  else
    _ ← put (set_usage (u64 (usage_ s + total_charge eh)));
    mret (Some e, last_reference_list).

Definition CreateStandalone (k : Slice) (h : Z) (v : ObjectPtr) (hp : CacheItemHelper)
    (charge : Z) (allow_uncharged : bool) : M ptr :=
  '(e, last_reference_list) ← CreateStandalone_locked k h v hp charge allow_uncharged;
  _ ← NotifyEvicted last_reference_list;
  mret e.

Definition Erase_locked (k : Slice) (h : Z) : M (list loc) :=
  e ← Table_Remove k h;
  match e with
  | None => mret []
  | Some l => detach l []
  end.

Definition Erase (k : Slice) (h : Z) : M unit :=
  l ← Erase_locked k h;
  Free_all l.

Definition GetUsage : M Z := s ← get; mret (usage_ s).
Definition GetPinnedUsage : M Z := s ← get; mret (u64 (usage_ s - lru_usage_ s)).
Definition GetOccupancyCount : M Z := s ← get; mret (elems_ (table_ s)).
Definition GetTableAddressCount : M Z := s ← get; mret (2 ^ length_bits_ (table_ s)).
Definition GetHighPriPoolRatio : M double := s ← get; mret (high_pri_pool_ratio_ s).
Definition GetLowPriPoolRatio : M double := s ← get; mret (low_pri_pool_ratio_ s).

(** [ApplyToSomeEntries]: the visited entries are the results of the calls of
    [callback], in order; the second result is the new [*state]. *)
Definition SIZE_MAX : Z := 2 ^ 64 - 1.

Definition apply_bounds (length_bits average_entries_per_lock state : Z) : Z * Z * Z :=
  let length := 2 ^ length_bits in
  let index_begin := Z.shiftr state (64 - length_bits) in
  let index_end := u64 (index_begin + average_entries_per_lock) in
  if (index_end >=? length) then (index_begin, length, SIZE_MAX)
  else (index_begin, index_end, u64 (Z.shiftl index_end (64 - length_bits))).

Definition ApplyToSomeEntries (callback : LRUHandle -> M unit)
    (average_entries_per_lock state : Z) : M Z :=
  s ← get;
  let '(index_begin, index_end, state') :=
    apply_bounds (length_bits_ (table_ s)) average_entries_per_lock state in
  _ ← ApplyToEntriesRange (fun h => e ← load (Some h); callback e)
        index_begin index_end;
  mret state'.

(** The constructor. *)
Definition new_shard (strict : bool) (high_ratio low_ratio : double)
    (policy : CacheMetadataChargePolicy) (max_upper_hash_bits : Z) : World :=
  mkWorld
    {[ lru_ := mkLRUHandle 0 (mkCacheItemHelper None None None None 0) None (Some lru_)
                 (Some lru_) 0 [] 0 0 0 0 ]}
    (mkLRUCacheShard policy 0 0 0 strict high_ratio d0 low_ratio d0 (Some lru_)
       (Some lru_) (new_table max_upper_hash_bits) 0 0)
    [].

Definition LRUCacheShard_new (capacity : Z) (strict : bool)
    (high_ratio low_ratio : double) (policy : CacheMetadataChargePolicy)
    (max_upper_hash_bits : Z) : option World :=
  snd <$> SetCapacity capacity
            (new_shard strict high_ratio low_ratio policy max_upper_hash_bits).

End Shard.

Fixpoint TEST_GetLRUSize_loop (fuel : nat) (h : ptr) (n : Z) : M Z :=
  match fuel with
  | O => undefined
  | S fuel =>
      if bool_decide (h = Some lru_) then mret n
      else e ← load h; TEST_GetLRUSize_loop fuel (next e) (n + 1)
  end.

Definition TEST_GetLRUSize : M Z :=
  dummy ← load (Some lru_);
  n ← heap_size;
  TEST_GetLRUSize_loop (S n) (next dummy) 0.
