(* ===== verification/LruTableProofs.v ===== *)
(** * The hash table refines a finite map

    [TabRep h t m]: the buckets of [t] in the heap [h] hold exactly the handles of
    the map [m] from keys (with their hashes) to handles. Every operation of the
    table is an operation on [m], and changes nothing of the heap but [next_hash]
    fields. *)

From S2P Require Import Prelude.
From S2P Require Import Slice.
From S2P Require Import LruState.
From S2P Require Import LruTable.

Abbreviation Heap := (gmap positive LRUHandle).
Abbreviation KeyMap := (gmap (Slice * Z) positive).

(** ** Chains *)

(** The handles [xs], linked by [next_hash], from the pointer [p]. *)
Fixpoint chain (h : Heap) (p : ptr) (xs : list loc) : Prop :=
  match xs with
  | [] => p = None
  | x :: xs => p = Some x /\ exists e, h !! x = Some e /\ chain h (next_hash e) xs
  end.

Definition strip_nh (e : LRUHandle) : LRUHandle := set_next_hash None e.

(** Two heaps that differ in [next_hash] fields only. *)
Definition same_but_nh (h h' : Heap) : Prop := strip_nh <$> h' = strip_nh <$> h.

#[global] Instance same_but_nh_equiv : Equivalence same_but_nh.
Proof. split; unfold same_but_nh; [done|congruence|intros ????; congruence]. Qed.

Lemma same_but_nh_lookup h h' l e :
  same_but_nh h h' -> h !! l = Some e ->
  exists e', h' !! l = Some e' /\ strip_nh e' = strip_nh e.
Proof.
  intros Hs He. apply (f_equal (lookup l)) in Hs. rewrite !lookup_fmap, He in Hs.
  destruct (h' !! l) as [e'|]; [|done]. exists e'. split; [done|]. by apply Some_inj.
Qed.

Lemma same_but_nh_insert h l e p :
  h !! l = Some e -> same_but_nh h (<[l := set_next_hash p e]> h).
Proof.
  intros He. unfold same_but_nh. rewrite fmap_insert. apply insert_id.
  by rewrite lookup_fmap, He.
Qed.

Lemma same_but_nh_size h h' : same_but_nh h h' -> base.size h' = base.size h.
Proof.
  intros Hs. by rewrite <- (map_size_fmap strip_nh h'), Hs, map_size_fmap.
Qed.

Lemma strip_nh_fields e e' :
  strip_nh e' = strip_nh e ->
  value e' = value e /\ helper e' = helper e /\ next e' = next e /\ prev e' = prev e /\
  total_charge e' = total_charge e /\ key e' = key e /\ hash e' = hash e /\
  refs e' = refs e /\ m_flags e' = m_flags e /\ im_flags e' = im_flags e.
Proof. unfold strip_nh, set_next_hash. intros [=]. done. Qed.

Lemma chain_frame h h' p xs :
  (forall x e, x ∈ xs -> h !! x = Some e ->
     exists e', h' !! x = Some e' /\ next_hash e' = next_hash e) ->
  chain h p xs -> chain h' p xs.
Proof.
  revert p. induction xs as [|x xs IH]; intros p Hf; [done|].
  intros [-> (e & He & Hc)]. split; [done|].
  destruct (Hf x e) as (e' & He' & Hn); [set_solver|done|].
  exists e'. split; [done|]. rewrite Hn. apply IH; [|done].
  intros y ey Hy. apply Hf. set_solver.
Qed.

Lemma chain_insert_notin h p xs l e :
  l ∉ xs -> chain h p xs -> chain (<[l := e]> h) p xs.
Proof.
  intros Hl. apply chain_frame. intros x ex Hx Hex. exists ex.
  rewrite lookup_insert_ne by (intros ->; done). done.
Qed.

Lemma chain_in h p xs x : chain h p xs -> x ∈ xs -> is_Some (h !! x).
Proof.
  revert p. induction xs as [|y xs IH]; intros p; [set_solver|].
  intros [-> (e & He & Hc)] [->|Hx]%elem_of_cons; eauto.
Qed.

(** Redirecting the last handle of a chain's prefix. *)
Lemma chain_cut h p pre x post e q ys :
  chain h p (pre ++ x :: post) -> NoDup (pre ++ [x]) -> h !! x = Some e ->
  chain h q ys -> x ∉ ys ->
  chain (<[x := set_next_hash q e]> h) p (pre ++ x :: ys).
Proof.
  intros Hc Hnd He Hq Hx. revert p Hc Hnd. induction pre as [|y pre IH]; intros p.
  - intros [-> (e' & He' & Hc)] Hnd. cbn. split; [done|].
    eexists. split; [by simplify_map_eq|]. by apply chain_insert_notin.
  - intros [-> (ey & Hey & Hc)] [Hy Hnd]%NoDup_cons. cbn. split; [done|].
    exists ey. rewrite lookup_insert_ne by set_solver. split; [done|].
    by apply IH.
Qed.

(** The pointer that follows a prefix of a chain. *)
Lemma chain_split h p pre ys :
  chain h p (pre ++ ys) ->
  match last pre with
  | None => chain h p ys
  | Some x => exists e, h !! x = Some e /\ chain h (next_hash e) ys
  end.
Proof.
  revert p. induction pre as [|x pre IH]; intros p; [done|].
  intros [-> (e & He & Hc)]. specialize (IH _ Hc). rewrite last_cons.
  destruct (last pre); naive_solver.
Qed.

(** ** The representation *)

(** The address of the pointer after the prefix [pre] of bucket [i]. *)
Definition slot_after (i : Z) (pre : list loc) : Slot :=
  match last pre with Some l => SNext l | None => SBucket i end.

Record TabRepB (h : Heap) (t : LRUHandleTable) (bs : list (list loc)) (m : KeyMap)
    : Prop := mkTabRepB {
  tr_bits : 1 <= length_bits_ t <= 31;
  tr_len : size (list_ t) = 2 ^ length_bits_ t;
  tr_chains : Forall2 (chain h) (list_ t) bs;
  tr_nodup : NoDup (List.concat bs);
  tr_sound : forall i xs l, bs !! i = Some xs -> l ∈ xs ->
    exists e, h !! l = Some e /\ m !! (key e, hash e) = Some l /\
              bucket_of (length_bits_ t) (hash e) = Z.of_nat i;
  tr_complete : forall k l, m !! k = Some l -> is_uint 32 (snd k) /\
    exists e, h !! l = Some e /\ k = (key e, hash e) /\ l ∈ List.concat bs;
  tr_elems : elems_ t = u32 (Z.of_nat (base.size m));
}.

Definition TabRep (h : Heap) (t : LRUHandleTable) (m : KeyMap) : Prop :=
  exists bs, TabRepB h t bs m.

Lemma bucket_of_range bits hash :
  0 <= bits <= 32 -> is_uint 32 hash -> 0 <= bucket_of bits hash < 2 ^ bits.
Proof.
  intros Hb [H0 H1]. unfold bucket_of. rewrite Z.shiftr_div_pow2 by lia.
  assert (0 < 2 ^ (32 - bits)) by (apply Z.pow_pos_nonneg; lia).
  split; [apply Z.div_pos; lia|]. apply Z.div_lt_upper_bound; [done|].
  rewrite <- Z.pow_add_r by lia. by replace (32 - bits + bits) with 32 by lia.
Qed.

Lemma elem_of_concat {A} (l : A) (bs : list (list A)) :
  l ∈ List.concat bs <-> exists i xs, bs !! i = Some xs /\ l ∈ xs.
Proof.
  rewrite list_elem_of_In, in_concat. split.
  - intros (xs & Hxs & Hl). apply list_elem_of_In in Hxs, Hl.
    apply list_elem_of_lookup in Hxs as [i Hi]. eauto.
  - intros (i & xs & Hi & Hl). exists xs. rewrite <- !list_elem_of_In.
    split; [by eapply list_elem_of_lookup_2|done].
Qed.

Lemma concat_insert_perm {A} (bs : list (list A)) i xs ys :
  bs !! i = Some xs ->
  exists rest, Permutation (List.concat bs) (xs ++ rest) /\
    Permutation (List.concat (<[i := ys]> bs)) (ys ++ rest).
Proof.
  intros Hi. exists (List.concat (take i bs) ++ List.concat (drop (S i) bs)).
  split.
  - rewrite <- (take_drop_middle bs i xs Hi) at 1. rewrite concat_app. cbn.
    rewrite app_assoc, (Permutation_app_comm (List.concat (take i bs)) xs).
    by rewrite app_assoc.
  - rewrite insert_take_drop by (by eapply lookup_lt_Some).
    rewrite concat_app. cbn.
    rewrite app_assoc, (Permutation_app_comm (List.concat (take i bs)) ys).
    by rewrite app_assoc.
Qed.

Section Rep.
Context {h : Heap} {t : LRUHandleTable} {bs : list (list loc)} {m : KeyMap}.
Context (R : TabRepB h t bs m).

Lemma rep_bucket hv :
  is_uint 32 hv ->
  exists xs, bs !! Z.to_nat (bucket_of (length_bits_ t) hv) = Some xs.
Proof.
  intros Hh. destruct R as [Hb Hl Hc _ _ _ _].
  pose proof (bucket_of_range (length_bits_ t) hv ltac:(lia) Hh).
  apply lookup_lt_is_Some. apply Forall2_length in Hc. rewrite <- Hc.
  unfold size in Hl. lia.
Qed.

Lemma rep_size_le : (length (List.concat bs) <= base.size h)%nat.
Proof.
  destruct R as [_ _ Hc Hnd _ _ _]. apply NoDup_length_heap; [done|].
  intros x (i & xs & Hi & Hx)%elem_of_concat.
  destruct (Forall2_lookup_r _ _ _ _ _ Hc Hi) as (p & _ & Hch).
  by eapply chain_in.
Qed.

Lemma rep_chain_le i xs : bs !! i = Some xs -> (length xs <= base.size h)%nat.
Proof.
  intros Hi. etransitivity; [|apply rep_size_le].
  destruct (concat_insert_perm bs i xs [] Hi) as (rest & Hp & _).
  rewrite Hp, length_app. lia.
Qed.

Lemma rep_NoDup i xs : bs !! i = Some xs -> NoDup xs.
Proof.
  intros Hi. destruct (concat_insert_perm bs i xs [] Hi) as (rest & Hp & _).
  pose proof (tr_nodup _ _ _ _ R) as Hnd. rewrite Hp in Hnd.
  by apply NoDup_app in Hnd as [? _].
Qed.

(** A handle of the right bucket matches a key exactly when it is the one the map
    has for it. *)
Lemma rep_match i xs l e k hv :
  bs !! i = Some xs -> l ∈ xs -> h !! l = Some e ->
  (hash e =? hv) && slice_eqb k (key e) = bool_decide (m !! (k, hv) = Some l).
Proof.
  intros Hi Hl He.
  destruct (tr_sound _ _ _ _ R i xs l Hi Hl) as (e' & He' & Hm & _).
  simplify_eq. apply eq_true_iff_eq. rewrite andb_true_iff, Z.eqb_eq, bool_decide_eq_true.
  rewrite slice_eqb_eq.
  split; [intros [<- ->]; done|].
  intros Hk. destruct (tr_complete _ _ _ _ R _ _ Hk) as (_ & e'' & He'' & Hkk & _).
  simplify_eq. done.
Qed.

End Rep.

Lemma chains_frame h h' l bs :
  (forall x e, x ∈ List.concat bs -> h !! x = Some e ->
     exists e', h' !! x = Some e' /\ next_hash e' = next_hash e) ->
  Forall2 (chain h) l bs -> Forall2 (chain h') l bs.
Proof.
  intros Hf Hc. apply Forall2_same_length_lookup.
  split; [exact (Forall2_length _ _ _ Hc)|]. intros i p xs Hp Hxs.
  eapply chain_frame; [|exact (Forall2_lookup_lr _ _ _ _ _ _ Hc Hp Hxs)].
  intros x e Hx. apply Hf. apply elem_of_concat. eauto.
Qed.

(** ** Reading and writing through a slot *)

Lemma chain_head h p xs : chain h p xs -> p = head xs.
Proof. by destruct xs as [|x xs]; cbn; [|intros [-> _]]. Qed.

Lemma NoDup_concat_inj {A} (bs : list (list A)) i j xs ys x :
  NoDup (List.concat bs) -> bs !! i = Some xs -> bs !! j = Some ys ->
  x ∈ xs -> x ∈ ys -> i = j.
Proof.
  intros Hnd Hi Hj Hx Hy. destruct (decide (i = j)) as [|Hne]; [done|exfalso].
  destruct (concat_insert_perm bs i xs [] Hi) as (rest & Hp & Hp').
  rewrite Hp in Hnd. apply NoDup_app in Hnd as (_ & Hdis & _).
  apply (Hdis x Hx). cbn in Hp'. rewrite <- Hp'. apply elem_of_concat.
  exists j, ys. by rewrite list_lookup_insert_ne.
Qed.

(** The table with another array. *)
Definition with_list (l : list ptr) (s : LRUCacheShard) : LRUCacheShard :=
  set_table (mkLRUHandleTable (length_bits_ (table_ s)) l (elems_ (table_ s))
               (max_length_bits_ (table_ s))) s.

Lemma with_list_id s : with_list (list_ (table_ s)) s = s.
Proof. by destruct s as [???????????[] ??]. Qed.

Lemma set_table_id s : set_table (table_ s) s = s.
Proof. by destruct s. Qed.

(** Replacing one chain of the table when the others are untouched. *)
Lemma chains_replace h h' l bs i p ys :
  Forall2 (chain h) l bs -> chain h' p ys ->
  (forall j xs x, j <> i -> bs !! j = Some xs -> x ∈ xs -> h' !! x = h !! x) ->
  Forall2 (chain h') (<[i := p]> l) (<[i := ys]> bs).
Proof.
  intros Hc Hp Hf. apply Forall2_same_length_lookup. split.
  { rewrite !length_insert. by eapply Forall2_length. }
  intros j q xs Hq Hxs. destruct (decide (j = i)) as [->|Hne].
  - apply list_lookup_insert_Some in Hq as [(_ & <- & _)|[? _]]; [|done].
    apply list_lookup_insert_Some in Hxs as [(_ & <- & _)|[? _]]; [|done]. done.
  - rewrite list_lookup_insert_ne in Hq by done.
    rewrite list_lookup_insert_ne in Hxs by done.
    eapply chain_frame; [|by eapply Forall2_lookup_lr].
    intros x e Hx He. exists e. by rewrite (Hf j xs).
Qed.

Section Slots.
Context {w : World} {bs : list (list loc)}.
Context (Hch : Forall2 (chain (heap w)) (list_ (table_ (shard w))) bs).

Lemma read_slot_spec i pre post Q :
  bs !! i = Some (pre ++ post) -> Q (head post) w ->
  wp (read_slot (slot_after (Z.of_nat i) pre)) Q w.
Proof.
  intros Hi HQ. destruct (Forall2_lookup_r _ _ _ _ _ Hch Hi) as (p & Hp & Hc).
  pose proof (chain_split _ _ _ _ Hc) as Hs. unfold slot_after.
  destruct (last pre) as [x|].
  - destruct Hs as (e & He & Hs). unfold read_slot. wsteps.
    by rewrite (chain_head _ _ _ Hs).
  - unfold read_slot. wsteps. rewrite Nat2Z.id, Hp. wstep.
    by rewrite (chain_head _ _ _ Hs).
Qed.

Lemma write_slot_spec i pre post q ys Q :
  NoDup (List.concat bs) -> bs !! i = Some (pre ++ post) ->
  chain (heap w) q ys -> (forall y, y ∈ ys -> y ∈ pre -> False) ->
  (forall h' l',
     same_but_nh (heap w) h' -> length l' = length (list_ (table_ (shard w))) ->
     Forall2 (chain h') l' (<[i := pre ++ ys]> bs) ->
     Q () (mkWorld h' (with_list l' (shard w)) (trace w))) ->
  wp (write_slot (slot_after (Z.of_nat i) pre) q) Q w.
Proof.
  intros Hnd Hi Hq Hdis HQ.
  destruct (Forall2_lookup_r _ _ _ _ _ Hch Hi) as (p & Hp & Hc).
  unfold slot_after. destruct (last pre) as [x|] eqn:El.
  - apply last_Some in El as [pre' ->]. rewrite <- app_assoc in Hi, Hc. cbn in Hi, Hc.
    assert (is_Some (heap w !! x)) as [e He] by (eapply chain_in; [done|set_solver]).
    unfold write_slot. wstep. destruct w as [h s tr]. cbn in *.
    unfold set_heap. cbn. rewrite <- (with_list_id s).
    apply HQ; [by apply same_but_nh_insert|done|].
    rewrite <- (list_insert_id (list_ (table_ s)) i p) by done.
    eapply chains_replace; [done| |].
    + rewrite <- app_assoc. eapply chain_cut; eauto; [|set_solver].
      destruct (concat_insert_perm bs i _ [] Hi) as (rest & Hperm & _).
      rewrite Hperm in Hnd. apply NoDup_app in Hnd as (Hnd & _ & _).
      replace (pre' ++ x :: post) with ((pre' ++ [x]) ++ post) in Hnd
        by (by rewrite <- app_assoc).
      by apply NoDup_app in Hnd as [? _].
    + intros j xs z Hne Hj Hz. apply lookup_insert_ne. intros <-. apply Hne.
      eapply NoDup_concat_inj; eauto. set_solver.
  - apply last_None in El as ->. unfold write_slot. wsteps.
    assert (Z.of_nat i <? size (list_ (table_ (shard w))) = true) as ->.
    { apply lookup_lt_Some in Hp. unfold size. lia. }
    wsteps. destruct w as [h s tr]. unfold set_list_, set_shard. cbn in *.
    rewrite Nat2Z.id. apply HQ; [done|by rewrite length_insert|].
    by eapply chains_replace.
Qed.

End Slots.

(** ** Finding *)

Lemma slot_after_snoc i pre l : slot_after i (pre ++ [l]) = SNext l.
Proof. unfold slot_after. by rewrite last_snoc. Qed.

(** What [FindPointer] finds for a key: where the handle of the map is, or the end
    of the bucket. *)
Definition found (m : KeyMap) (bs : list (list loc)) (i : nat) (kh : Slice * Z)
    (pre post : list loc) : Prop :=
  bs !! i = Some (pre ++ post) /\ m !! kh = head post.

Section Find.
Context {w : World} {bs : list (list loc)} {m : KeyMap}.
Context (R : TabRepB (heap w) (table_ (shard w)) bs m).

Lemma rep_in_bucket k hv i xs l :
  Z.of_nat i = bucket_of (length_bits_ (table_ (shard w))) hv -> bs !! i = Some xs ->
  m !! (k, hv) = Some l -> l ∈ xs.
Proof.
  intros Hb Hi Hm. destruct (tr_complete _ _ _ _ R _ _ Hm) as (_ & e & He & Hk & Hl).
  injection Hk as -> ->. apply elem_of_concat in Hl as (j & ys & Hj & Hy).
  destruct (tr_sound _ _ _ _ R _ _ _ Hj Hy) as (e' & He' & _ & Hb').
  rewrite He in He'. injection He' as <-. rewrite Hb' in Hb.
  apply Nat2Z.inj in Hb as <-. rewrite Hi in Hj. by injection Hj as <-.
Qed.

Lemma FindPointer_loop_spec k hv fuel i pre post Q :
  Z.of_nat i = bucket_of (length_bits_ (table_ (shard w))) hv ->
  bs !! i = Some (pre ++ post) ->
  (length post < fuel)%nat ->
  (forall l, l ∈ pre -> m !! (k, hv) <> Some l) ->
  (forall pre' post', found m bs i (k, hv) pre' post' ->
     Q (slot_after (Z.of_nat i) pre') w) ->
  wp (FindPointer_loop fuel k hv (slot_after (Z.of_nat i) pre)) Q w.
Proof.
  intros Hb. revert pre post. induction fuel as [|fuel IH]; intros pre post Hi Hf Hpre HQ;
    [lia|].
  cbn [FindPointer_loop]. wstep.
  eapply (read_slot_spec (tr_chains _ _ _ _ R)); [done|].
  destruct post as [|l post]; cbn [head].
  - wstep. eapply HQ. split; [done|]. cbn. destruct (m !! (k, hv)) as [l|] eqn:Hm; [|done].
    exfalso. apply (Hpre l); [|done]. rewrite app_nil_r in Hi. by eapply rep_in_bucket.
  - destruct (tr_sound _ _ _ _ R i _ l Hi) as (e & He & _); [set_solver|].
    wsteps.
    rewrite <- negb_andb, (rep_match R i _ l e k hv Hi) by (done || set_solver).
    case_bool_decide as Hm; cbn [negb].
    + wstep. eapply HQ. split; done.
    + rewrite <- (slot_after_snoc (Z.of_nat i) pre l). apply (IH _ post).
      * by rewrite <- app_assoc.
      * cbn in Hf. lia.
      * intros l' [?|Hl']%elem_of_app; [auto|]. apply list_elem_of_singleton in Hl'. by subst.
      * done.
Qed.

Lemma FindPointer_spec k hv Q :
  is_uint 32 hv ->
  (forall i pre post, found m bs i (k, hv) pre post ->
     Z.of_nat i = bucket_of (length_bits_ (table_ (shard w))) hv ->
     Q (slot_after (Z.of_nat i) pre) w) ->
  wp (FindPointer k hv) Q w.
Proof.
  intros Hh HQ. unfold FindPointer. wsteps.
  destruct (rep_bucket R hv Hh) as [xs Hxs].
  pose proof (bucket_of_range (length_bits_ (table_ (shard w))) hv
    ltac:(destruct R; lia) Hh).
  set (i := Z.to_nat (bucket_of (length_bits_ (table_ (shard w))) hv)) in *.
  assert (Z.of_nat i = bucket_of (length_bits_ (table_ (shard w))) hv) as Hi by lia.
  rewrite <- Hi.
  apply (FindPointer_loop_spec k hv _ i [] xs); [done..| | |].
  - pose proof (rep_chain_le R i xs Hxs). lia.
  - set_solver.
  - intros. by eapply HQ.
Qed.

Lemma Table_Lookup_spec k hv Q :
  is_uint 32 hv -> Q (m !! (k, hv)) w -> wp (Table_Lookup k hv) Q w.
Proof.
  intros Hh HQ. unfold Table_Lookup. wstep. apply FindPointer_spec; [done|].
  intros i pre post [Hi Hm] _. eapply (read_slot_spec (tr_chains _ _ _ _ R)); [done|].
  by rewrite <- Hm.
Qed.

End Find.

(** ** Removing *)

(** The representation only reads [next_hash], [key] and [hash] of its handles. *)
Lemma TabRepB_frame h h' t bs m :
  (forall l e, l ∈ List.concat bs -> h !! l = Some e -> exists e', h' !! l = Some e' /\
     next_hash e' = next_hash e /\ key e' = key e /\ hash e' = hash e) ->
  TabRepB h t bs m -> TabRepB h' t bs m.
Proof.
  intros Hf [Hb Hl Hc Hnd Hs Hcm He]. split; try done.
  - eapply chains_frame; [|exact Hc]. intros x e Hx Hex.
    destruct (Hf x e) as (e' & ? & ? & _); eauto.
  - intros i xs l Hi Hl'. destruct (Hs i xs l Hi Hl') as (e & Hle & Hm & Hbk).
    destruct (Hf l e) as (e' & ? & _ & Hk & Hh); [apply elem_of_concat; eauto|done|].
    exists e'. by rewrite Hk, Hh.
  - intros k l Hk. destruct (Hcm k l Hk) as (Hu & e & Hle & -> & Hl'). split; [done|].
    destruct (Hf l e) as (e' & ? & _ & Hk' & Hh); [done..|].
    exists e'. by rewrite Hk', Hh.
Qed.

Lemma u32_pred_size (m : KeyMap) k l :
  m !! k = Some l ->
  u32 (u32 (Z.of_nat (base.size m)) - 1) = u32 (Z.of_nat (base.size (delete k m))).
Proof.
  intros Hk. rewrite map_size_delete_Some by eauto.
  pose proof (map_size_ne_0_lookup_2 m k (mk_is_Some _ _ Hk)).
  unfold Z.sub. rewrite wrap_add_l. f_equal. lia.
Qed.

(** Replacing a bucket and the map together. *)
Lemma TabRepB_rebucket h h' t l' n bs i ys m m' :
  TabRepB h t bs m -> (i < length bs)%nat -> same_but_nh h h' ->
  length l' = length (list_ t) -> Forall2 (chain h') l' (<[i := ys]> bs) ->
  NoDup (List.concat (<[i := ys]> bs)) ->
  (forall l, l ∈ ys -> exists e, h !! l = Some e /\ m' !! (key e, hash e) = Some l /\
     bucket_of (length_bits_ t) (hash e) = Z.of_nat i) ->
  (forall j xs l e, j <> i -> bs !! j = Some xs -> l ∈ xs -> h !! l = Some e ->
     m !! (key e, hash e) = Some l -> m' !! (key e, hash e) = Some l) ->
  (forall k l, m' !! k = Some l -> is_uint 32 (snd k) /\
     exists e, h !! l = Some e /\ k = (key e, hash e) /\
               l ∈ List.concat (<[i := ys]> bs)) ->
  n = u32 (Z.of_nat (base.size m')) ->
  TabRepB h' (mkLRUHandleTable (length_bits_ t) l' n (max_length_bits_ t))
    (<[i := ys]> bs) m'.
Proof.
  intros R Hlt Hs Hlen Hch Hnd Hys Hother Hm' Hn.
  assert (forall l e, h !! l = Some e -> exists e', h' !! l = Some e' /\
            key e' = key e /\ hash e' = hash e) as Hh'.
  { intros l e He. destruct (same_but_nh_lookup _ _ _ _ Hs He) as (e' & He' & Hst).
    apply strip_nh_fields in Hst. naive_solver. }
  split; cbn; try by destruct R.
  - unfold size. rewrite Hlen. by destruct R.
  - intros j xs l Hj Hl.
    assert (exists e, h !! l = Some e /\ m' !! (key e, hash e) = Some l /\
              bucket_of (length_bits_ t) (hash e) = Z.of_nat j) as (e & He & Hm & Hb).
    { apply list_lookup_insert_Some in Hj as [(<- & <- & _)|[? Hj]]; [auto|].
      destruct (tr_sound _ _ _ _ R j xs l Hj Hl) as (e & He & Hm & Hb). eauto 10. }
    destruct (Hh' l e He) as (e' & ? & Hk & Hh). exists e'. by rewrite Hk, Hh.
  - intros k l Hk. destruct (Hm' k l Hk) as (Hu & e & He & -> & Hl). split; [done|].
    destruct (Hh' l e He) as (e' & ? & Hk' & Hh). exists e'. by rewrite Hk', Hh.
Qed.

Lemma Table_Remove_spec w m k hv Q :
  TabRep (heap w) (table_ (shard w)) m -> is_uint 32 hv ->
  (forall h' t', same_but_nh (heap w) h' -> TabRep h' t' (delete (k, hv) m) ->
     Q (m !! (k, hv)) (mkWorld h' (set_table t' (shard w)) (trace w))) ->
  wp (Table_Remove k hv) Q w.
Proof.
  intros [bs R] Hh HQ. unfold Table_Remove. wstep. apply (FindPointer_spec R); [done|].
  intros i pre post [Hi Hm] _. wstep.
  apply (read_slot_spec (tr_chains _ _ _ _ R) i pre post); [done|].
  destruct post as [|l post]; cbn [head] in *.
  { wstep. rewrite <- Hm. destruct w as [h s tr]. cbn in *.
    rewrite <- (set_table_id s). apply HQ; [done|]. rewrite delete_id by done. by exists bs. }
  destruct (tr_sound _ _ _ _ R i _ l Hi) as (e & He & Hl & Hb); [set_solver|].
  destruct (tr_complete _ _ _ _ R _ _ Hm) as (_ & e' & He' & Hk & _). simplify_eq.
  destruct (Forall2_lookup_r _ _ _ _ _ (tr_chains _ _ _ _ R) Hi) as (p & Hp & Hc).
  pose proof (rep_NoDup R _ _ Hi) as Hnd. apply NoDup_app in Hnd as (_ & Hdis & _).
  wsteps. apply (write_slot_spec (tr_chains _ _ _ _ R) i pre (l :: post) _ post);
    [by destruct R|done| |set_solver|].
  { replace (pre ++ l :: post) with ((pre ++ [l]) ++ post) in Hc by (by rewrite <- app_assoc).
    apply chain_split in Hc. rewrite last_snoc in Hc. destruct Hc as (e' & ? & ?).
    by simplify_eq. }
  intros h' l' Hs Hlen Hch. wsteps. rewrite <- Hm.
  eapply (HQ h' (mkLRUHandleTable _ _ _ _)); [done|].
  destruct (concat_insert_perm bs i _ (pre ++ post) Hi) as (rest & Hp1 & Hp2).
  pose proof (tr_nodup _ _ _ _ R) as Hnd. rewrite Hp1, <- app_assoc in Hnd. cbn in Hnd.
  apply NoDup_app in Hnd as (Hn1 & Hn2 & [Hn3 Hn4]%NoDup_cons).
  exists (<[i := pre ++ post]> bs). eapply (TabRepB_rebucket _ _ (table_ (shard w))); try done.
  - by eapply lookup_lt_Some.
  - rewrite Hp2, <- app_assoc. apply NoDup_app. set_solver.
  - intros x Hx. destruct (tr_sound _ _ _ _ R i _ x Hi) as (ex & Hex & Hmx & Hbx);
      [set_solver|].
    exists ex. split_and!; [done| |done]. rewrite lookup_delete_ne; [done|].
    intros Heq. assert (x = l) by congruence. subst. set_solver.
  - intros j xs x ex Hne Hj Hx Hex Hmx. rewrite lookup_delete_ne; [done|].
    intros Heq. assert (x = l) by congruence. subst. apply Hne.
    eapply NoDup_concat_inj; [by destruct R|done..|set_solver].
  - intros k' x Hk'. apply lookup_delete_Some in Hk' as [Hne Hk'].
    destruct (tr_complete _ _ _ _ R _ _ Hk') as (Hu & ex & Hex & -> & Hx).
    split; [done|]. exists ex. split_and!; [done..|]. rewrite Hp2. rewrite Hp1 in Hx.
    assert (x <> l) by (intros ->; congruence). set_solver.
  - cbn. rewrite (tr_elems _ _ _ _ R). by eapply u32_pred_size.
Qed.

(** ** Growing *)

(** Where the handles of a chain go when the array is doubled. *)
Definition push_bucket (h : Heap) (bits : Z) (nbs : list (list loc)) (x : loc)
    : list (list loc) :=
  match h !! x with
  | Some e => alter (cons x) (Z.to_nat (bucket_of bits (hash e))) nbs
  | None => nbs
  end.

Lemma push_bucket_same h h' bits nbs x :
  same_but_nh h h' -> push_bucket h' bits nbs x = push_bucket h bits nbs x.
Proof.
  intros Hs. unfold push_bucket. destruct (h !! x) as [e|] eqn:E.
  - destruct (same_but_nh_lookup _ _ _ _ Hs E) as (e' & -> & Hst).
    apply strip_nh_fields in Hst as (_ & _ & _ & _ & _ & _ & -> & _). done.
  - destruct (h' !! x) as [e'|] eqn:E'; [|done].
    symmetry in Hs. destruct (same_but_nh_lookup _ _ _ _ Hs E') as (e & ? & _).
    congruence.
Qed.

Lemma foldl_push_same h h' bits xs nbs :
  same_but_nh h h' ->
  foldl (push_bucket h' bits) nbs xs = foldl (push_bucket h bits) nbs xs.
Proof.
  intros Hs. revert nbs. induction xs as [|x xs IH]; intros nbs; [done|].
  cbn. by rewrite (push_bucket_same h h').
Qed.

Lemma Resize_chain_spec bits xs : forall fuel w p l nbs Q,
  (length xs < fuel)%nat -> chain (heap w) p xs -> NoDup xs ->
  Forall2 (chain (heap w)) l nbs -> (forall x, x ∈ xs -> x ∈ List.concat nbs -> False) ->
  0 <= bits <= 32 -> size l = 2 ^ bits ->
  (forall x e, x ∈ xs -> heap w !! x = Some e -> is_uint 32 (hash e)) ->
  (forall h' l', same_but_nh (heap w) h' -> size l' = 2 ^ bits ->
     (forall y, y ∉ xs -> h' !! y = heap w !! y) ->
     Forall2 (chain h') l' (foldl (push_bucket (heap w) bits) nbs xs) ->
     Q l' (mkWorld h' (shard w) (trace w))) ->
  wp (Resize_chain fuel bits p l) Q w.
Proof.
  induction xs as [|x xs IH]; intros fuel w p l nbs Q Hf Hc Hnd Hn Hdis Hb Hl Hu HQ;
    (destruct fuel as [|fuel]; [cbn in Hf; lia|]); cbn [Resize_chain].
  { cbn in Hc. subst p. wstep. destruct w. by apply HQ. }
  destruct Hc as [-> (e & He & Hc)]. apply NoDup_cons in Hnd as [Hx Hnd].
  wsteps. pose proof (bucket_of_range bits (hash e) Hb (Hu x e ltac:(set_solver) He)).
  set (i := Z.to_nat (bucket_of bits (hash e))) in *.
  destruct (lookup_lt_is_Some_2 l i) as [q Hq]; [unfold size in Hl; lia|].
  destruct (Forall2_lookup_l _ _ _ _ _ Hn Hq) as (ys & Hys & Hcy).
  rewrite Hq. wsteps.
  assert (x ∉ ys) by (intros Hxy; apply (Hdis x); [set_solver|apply elem_of_concat; eauto]).
  pose proof (same_but_nh_insert _ _ _ q He) as Hs.
  assert (push_bucket (heap w) bits nbs x = <[i := x :: ys]> nbs) as Hpush.
  { unfold push_bucket. rewrite He. fold i. apply list_eq. intros j.
    destruct (decide (j = i)) as [->|].
    - rewrite list_lookup_alter_eq, Hys, list_lookup_insert_eq; [done|].
      by eapply lookup_lt_Some.
    - by rewrite list_lookup_alter_ne, list_lookup_insert_ne. }
  destruct (concat_insert_perm nbs i ys (x :: ys) Hys) as (rest & Hp1 & Hp2).
  eapply (IH _ _ _ _ (<[i := x :: ys]> nbs)); cbn [heap shard trace set_heap]; try done.
  - cbn in Hf. lia.
  - by apply chain_insert_notin.
  - eapply chains_replace; [done| |].
    + split; [done|]. eexists. split; [by simplify_map_eq|].
      by apply chain_insert_notin.
    + intros j zs z Hne Hj Hz. apply lookup_insert_ne. intros ->.
      apply (Hdis z); [set_solver|apply elem_of_concat; eauto].
  - intros z Hz Hz'. rewrite Hp2 in Hz'. apply (Hdis z); [set_solver|]. rewrite Hp1.
    set_solver.
  - unfold size in *. by rewrite length_insert.
  - intros z ez Hz. rewrite lookup_insert_ne by (intros ->; done).
    apply Hu. set_solver.
  - intros h' l' Hs' Hl' Hy Hch. apply HQ; [by etransitivity|done| |].
    + intros y Hy'. rewrite Hy by set_solver. apply lookup_insert_ne. set_solver.
    + cbn [foldl]. rewrite Hpush. by erewrite <- foldl_push_same.
Qed.

(** What pushing does to the contents of the buckets. *)
Lemma push_bucket_facts h bits nbs x e :
  h !! x = Some e -> is_uint 32 (hash e) -> 0 <= bits <= 32 ->
  size nbs = 2 ^ bits ->
  exists i ys, Z.of_nat i = bucket_of bits (hash e) /\ nbs !! i = Some ys /\
    push_bucket h bits nbs x = <[i := x :: ys]> nbs.
Proof.
  intros He Hu Hb Hl. pose proof (bucket_of_range bits (hash e) Hb Hu).
  destruct (lookup_lt_is_Some_2 nbs (Z.to_nat (bucket_of bits (hash e)))) as [ys Hys];
    [unfold size in Hl; lia|].
  exists (Z.to_nat (bucket_of bits (hash e))), ys. split; [lia|]. split; [done|].
  unfold push_bucket. rewrite He. apply list_eq. intros j.
  destruct (decide (j = Z.to_nat (bucket_of bits (hash e)))) as [->|].
  - rewrite list_lookup_alter_eq, Hys, list_lookup_insert_eq; [done|].
    by eapply lookup_lt_Some.
  - by rewrite list_lookup_alter_ne, list_lookup_insert_ne.
Qed.

Definition in_right_bucket (h : Heap) (bits : Z) (nbs : list (list loc)) : Prop :=
  forall i ys y, nbs !! i = Some ys -> y ∈ ys ->
    exists e, h !! y = Some e /\ bucket_of bits (hash e) = Z.of_nat i.

Lemma foldl_push_facts h bits xs : forall nbs,
  (forall x, x ∈ xs -> exists e, h !! x = Some e /\ is_uint 32 (hash e)) ->
  0 <= bits <= 32 -> size nbs = 2 ^ bits -> in_right_bucket h bits nbs ->
  let nbs' := foldl (push_bucket h bits) nbs xs in
  size nbs' = 2 ^ bits /\ in_right_bucket h bits nbs' /\
  Permutation (List.concat nbs') (xs ++ List.concat nbs).
Proof.
  induction xs as [|x xs IH]; intros nbs Hx Hb Hl Hr; [done|]. cbn [foldl].
  destruct (Hx x) as (e & He & Hu); [set_solver|].
  destruct (push_bucket_facts h bits nbs x e He Hu Hb Hl) as (i & ys & Hi & Hys & ->).
  destruct (IH (<[i := x :: ys]> nbs)) as (Hl' & Hr' & Hp).
  - intros y Hy. apply Hx. set_solver.
  - done.
  - unfold size in *. by rewrite length_insert.
  - intros j zs z Hj Hz. apply list_lookup_insert_Some in Hj as [(<- & <- & _)|[? ?]];
      [|eauto]. apply elem_of_cons in Hz as [->|Hz]; eauto.
  - split_and!; [done..|]. rewrite Hp.
    destruct (concat_insert_perm nbs i ys (x :: ys) Hys) as (rest & Hp1 & Hp2).
    rewrite Hp1, Hp2. cbn. by rewrite <- Permutation_middle.
Qed.

Lemma Resize_loop_spec bits : forall bs old fuel w l nbs Q,
  Forall2 (chain (heap w)) old bs -> NoDup (List.concat bs) ->
  (forall i xs, bs !! i = Some xs -> (length xs < fuel)%nat) ->
  Forall2 (chain (heap w)) l nbs ->
  (forall x, x ∈ List.concat bs -> x ∈ List.concat nbs -> False) ->
  0 <= bits <= 32 -> size l = 2 ^ bits -> in_right_bucket (heap w) bits nbs ->
  (forall x, x ∈ List.concat bs ->
     exists e, heap w !! x = Some e /\ is_uint 32 (hash e)) ->
  (forall h' l' nbs', same_but_nh (heap w) h' -> size l' = 2 ^ bits ->
     Forall2 (chain h') l' nbs' -> in_right_bucket h' bits nbs' ->
     Permutation (List.concat nbs') (List.concat bs ++ List.concat nbs) ->
     Q l' (mkWorld h' (shard w) (trace w))) ->
  wp (Resize_loop fuel bits old l) Q w.
Proof.
  induction bs as [|xs bs IH]; intros old fuel w l nbs Q Hc Hnd Hf Hn Hdis Hb Hl Hr Hu HQ.
  { apply Forall2_nil_inv_r in Hc as ->. cbn [Resize_loop]. wstep. destruct w. by eapply HQ. }
  apply Forall2_cons_inv_r in Hc as (p & old' & Hp & Hc & ->).
  cbn [List.concat] in Hnd, Hdis, Hu.
  apply NoDup_app in Hnd as (Hndx & Hxd & Hnd).
  cbn [Resize_loop]. wstep. apply (Resize_chain_spec bits xs _ _ _ _ nbs); try done.
  - apply (Hf 0%nat). done.
  - set_solver.
  - intros x e Hx He. destruct (Hu x) as (e' & He' & ?); [set_solver|]. by simplify_eq.
  - intros h' l' Hs Hl' Hy Hch.
    assert (size nbs = 2 ^ bits) as Hln
      by (apply Forall2_length in Hn; unfold size in *; by rewrite <- Hn).
    destruct (foldl_push_facts (heap w) bits xs nbs) as (_ & Hr' & Hp'); [set_solver|done..|].
    set (nbs' := foldl _ _ _) in *.
    eapply (IH _ _ _ _ nbs'); cbn [heap shard trace]; try done.
    + eapply chains_frame; [|exact Hc]. intros x e Hx He. exists e.
      rewrite Hy; [done|]. intros Hx'. by apply (Hxd x Hx').
    + intros i ys Hys. apply (Hf (S i) ys). done.
    + intros x Hx Hx'. rewrite Hp' in Hx'. apply elem_of_app in Hx' as [Hx'|Hx'].
      * by apply (Hxd x).
      * apply (Hdis x); [set_solver|done].
    + intros i ys y Hi Hy'. destruct (Hr' i ys y Hi Hy') as (e & He & Hbk).
      destruct (same_but_nh_lookup _ _ _ _ Hs He) as (e' & He' & Hst).
      apply strip_nh_fields in Hst as (_ & _ & _ & _ & _ & _ & Hh & _).
      exists e'. by rewrite Hh.
    + intros x Hx. destruct (Hu x) as (e & He & Hue); [set_solver|].
      destruct (same_but_nh_lookup _ _ _ _ Hs He) as (e' & He' & Hst).
      apply strip_nh_fields in Hst as (_ & _ & _ & _ & _ & _ & Hh & _).
      exists e'. by rewrite Hh.
    + intros h2 l2 nbs2 Hs2 Hl2 Hc2 Hr2 Hp2. apply (HQ h2 l2 nbs2); try done.
      * by etransitivity.
      * rewrite Hp2, Hp'. cbn. rewrite !app_assoc.
        by rewrite (Permutation_app_comm (List.concat bs) xs).
Qed.

Lemma Resize_spec w m Q :
  TabRep (heap w) (table_ (shard w)) m ->
  (forall h' t', same_but_nh (heap w) h' -> TabRep h' t' m ->
     Q () (mkWorld h' (set_table t' (shard w)) (trace w))) ->
  wp Resize Q w.
Proof.
  intros [bs R] HQ. unfold Resize. wsteps.
  assert (Q () w) as Hsame.
  { destruct w as [h s tr]. cbn in *. rewrite <- (set_table_id s). apply HQ; [done|].
    by exists bs. }
  case_if; [by wstep|]. case_if; [by wstep|]. zbool. wsteps.
  pose proof R as [Hb Hl Hc Hnd Hs Hcm He].
  assert (List.concat (replicate (Z.to_nat (2 ^ (length_bits_ (table_ (shard w)) + 1)))
            (@nil loc)) = []) as Hnil
    by (generalize (Z.to_nat (2 ^ (length_bits_ (table_ (shard w)) + 1))) as n;
        induction n; done).
  apply (Resize_loop_spec _ bs _ _ _ _
    (replicate (Z.to_nat (2 ^ (length_bits_ (table_ (shard w)) + 1))) [])); try done.
  - intros i xs Hi. pose proof (rep_chain_le R i xs Hi). lia.
  - apply Forall2_replicate. done.
  - rewrite Hnil. set_solver.
  - lia.
  - unfold size. rewrite length_replicate. rewrite Z2Nat.id; [done|].
    apply Z.pow_nonneg. lia.
  - intros i ys y Hi Hy. apply lookup_replicate in Hi as [-> _]. set_solver.
  - intros x Hx. apply elem_of_concat in Hx as (i & xs & Hi & Hx).
    destruct (Hs i xs x Hi Hx) as (e & Hxe & Hm & _). exists e. split; [done|].
    by destruct (Hcm _ _ Hm) as [? _].
  - intros h' l' nbs' Hs' Hl' Hch Hr Hp. rewrite Hnil, app_nil_r in Hp.
    wsteps. apply HQ; [done|]. exists nbs'. split; cbn; try done.
    + lia.
    + by rewrite Hp.
    + intros i xs x Hi Hx. destruct (Hr i xs x Hi Hx) as (e' & He' & Hbk).
      exists e'. split_and!; [done| |done].
      assert (x ∈ List.concat bs) as Hx'
        by (rewrite <- Hp; apply elem_of_concat; eauto).
      apply elem_of_concat in Hx' as (j & ys & Hj & Hy).
      destruct (Hs j ys x Hj Hy) as (e & Hxe & Hm & _).
      destruct (same_but_nh_lookup _ _ _ _ Hs' Hxe) as (e'' & He'' & Hst).
      apply strip_nh_fields in Hst as (_ & _ & _ & _ & _ & Hk & Hh & _).
      simplify_eq. by rewrite Hk, Hh.
    + intros k l0 Hk. destruct (Hcm k l0 Hk) as (Hu & e & Hxe & -> & Hx). split; [done|].
      destruct (same_but_nh_lookup _ _ _ _ Hs' Hxe) as (e'' & He'' & Hst).
      apply strip_nh_fields in Hst as (_ & _ & _ & _ & _ & Hkk & Hh & _).
      exists e''. rewrite Hkk, Hh, Hp. done.
Qed.

(** ** Inserting *)

Lemma u32_succ_size (m : KeyMap) k l :
  m !! k = None ->
  u32 (u32 (Z.of_nat (base.size m)) + 1) = u32 (Z.of_nat (base.size (<[k := l]> m))).
Proof.
  intros Hk. rewrite map_size_insert_None by done. rewrite wrap_add_l. f_equal. lia.
Qed.

(** The new handle takes the place of the one with its key, or the end of the
    bucket. *)
Lemma TabRepB_put h h' t l' n i pre post bs m x e :
  TabRepB h t bs m -> same_but_nh h h' -> length l' = length (list_ t) ->
  found m bs i (key e, hash e) pre post ->
  Z.of_nat i = bucket_of (length_bits_ t) (hash e) ->
  h !! x = Some e -> x ∉ List.concat bs -> is_uint 32 (hash e) ->
  Forall2 (chain h') l' (<[i := pre ++ x :: tail post]> bs) ->
  n = u32 (Z.of_nat (base.size (<[(key e, hash e) := x]> m))) ->
  TabRepB h' (mkLRUHandleTable (length_bits_ t) l' n (max_length_bits_ t))
    (<[i := pre ++ x :: tail post]> bs) (<[(key e, hash e) := x]> m).
Proof.
  intros R Hs Hlen [Hi Hm] Hib He Hx Hu Hch Hn.
  destruct (concat_insert_perm bs i _ (pre ++ x :: tail post) Hi) as (rest & Hp1 & Hp2).
  pose proof (tr_nodup _ _ _ _ R) as Hnd. rewrite Hp1 in Hnd. rewrite Hp1 in Hx.
  apply NoDup_app in Hnd as ((Hpre & Hpp & Hpost)%NoDup_app & Hd & Hrest).
  assert (NoDup (tail post)) by (destruct post; [done|by apply NoDup_cons in Hpost as [_ ?]]).
  assert (forall y, y ∈ tail post -> y ∈ post) as Htl by (destruct post; set_solver).
  (* a handle other than the replaced one keeps its key *)
  assert (forall y ey, y ∈ List.concat bs -> Some y <> head post -> h !! y = Some ey ->
    m !! (key ey, hash ey) = Some y ->
    <[(key e, hash e) := x]> m !! (key ey, hash ey) = Some y) as Hkeep.
  { intros y ey Hy Hne Hey Hmy. rewrite lookup_insert_ne; [done|]. intros Heq. congruence. }
  eapply TabRepB_rebucket; try done.
  - by eapply lookup_lt_Some.
  - rewrite Hp2. apply NoDup_app. split_and!; [|set_solver|done].
    apply NoDup_app. split_and!; [done|set_solver|]. apply NoDup_cons. set_solver.
  - intros y Hy. destruct (decide (y = x)) as [->|Hyx].
    { exists e. split_and!; [done|apply lookup_insert_eq|done]. }
    assert (y ∈ pre ++ post) as Hy' by set_solver.
    destruct (tr_sound _ _ _ _ R i _ y Hi Hy') as (ey & Hey & Hmy & Hby).
    exists ey. split_and!; [done| |done]. apply Hkeep; [rewrite Hp1; set_solver| |done..].
    intros Hh. destruct post as [|z post]; [done|]. injection Hh as ->. cbn in Hy.
    apply NoDup_cons in Hpost as [Hz _]. set_solver.
  - intros j xs y ey Hne Hj Hy Hey Hmy. apply Hkeep; [apply elem_of_concat; eauto| |done..].
    intros Hh. apply Hne. eapply (NoDup_concat_inj bs); [by destruct R|done..|].
    destruct post; [done|]. injection Hh as ->. set_solver.
  - intros k y Hk. apply lookup_insert_Some in Hk as [[<- <-]|[Hne Hk]].
    { split; [done|]. exists e. rewrite Hp2. set_solver. }
    destruct (tr_complete _ _ _ _ R _ _ Hk) as (Hu' & ey & Hey & -> & Hy).
    split; [done|]. exists ey. split_and!; [done..|]. rewrite Hp2. rewrite Hp1 in Hy.
    destruct post as [|z post]; cbn in *; [set_solver|].
    assert (y <> z) by (intros ->; destruct (tr_complete _ _ _ _ R _ _ Hm) as
      (_ & ez & ? & ? & _); congruence). set_solver.
Qed.

Lemma Table_Insert_spec w m x e Q :
  TabRep (heap w) (table_ (shard w)) m -> heap w !! x = Some e -> is_uint 32 (hash e) ->
  (forall k, m !! k <> Some x) ->
  (forall h' t', same_but_nh (heap w) h' -> TabRep h' t' (<[(key e, hash e) := x]> m) ->
     Q (m !! (key e, hash e)) (mkWorld h' (set_table t' (shard w)) (trace w))) ->
  wp (Table_Insert x) Q w.
Proof.
  intros [bs R] He Hu Hnx HQ. unfold Table_Insert. wsteps.
  apply (FindPointer_spec R); [done|]. intros i pre post Hf Hib. pose proof Hf as [Hi Hm].
  assert (x ∉ List.concat bs) as Hx.
  { intros (j & ys & Hj & Hy)%elem_of_concat.
    destruct (tr_sound _ _ _ _ R _ _ _ Hj Hy) as (e' & _ & Hm' & _). by eapply Hnx. }
  wstep. apply (read_slot_spec (tr_chains _ _ _ _ R) i pre post); [done|].
  destruct (Forall2_lookup_r _ _ _ _ _ (tr_chains _ _ _ _ R) Hi) as (p & Hp & Hc).
  (* the pointer that follows the place of the new handle *)
  assert (exists nh, chain (heap w) nh (tail post) /\
    forall Q : ptr -> World -> Prop, Q nh w ->
      wp (match head post with
          | None => mret None
          | Some o => eo ← load (Some o); mret (next_hash eo)
          end) Q w) as (nh & Hnh & Hwp).
  { destruct post as [|o post]; cbn [head tail].
    - exists None. split; [done|]. intros. by wstep.
    - replace (pre ++ o :: post) with ((pre ++ [o]) ++ post) in Hc by (by rewrite <- app_assoc).
      apply chain_split in Hc. rewrite last_snoc in Hc. destruct Hc as (eo & Heo & Hc).
      exists (next_hash eo). split; [done|]. intros. by wsteps. }
  wstep. apply Hwp. wsteps.
  set (w1 := set_heap (<[x := set_next_hash nh e]> (heap w)) w).
  assert (TabRepB (heap w1) (table_ (shard w1)) bs m) as R1.
  { eapply TabRepB_frame; [|exact R]. intros l el Hl Hel. exists el.
    cbn. rewrite lookup_insert_ne by (intros ->; done). done. }
  pose proof (same_but_nh_insert (heap w) x e nh He) as Hs1.
  assert (x ∉ tail post) as Hxt.
  { intros Ht. apply Hx. apply elem_of_concat. exists i, (pre ++ post).
    split; [done|]. destruct post; set_solver. }
  pose proof (rep_NoDup R i _ Hi) as (Hnd1 & Hnd2 & _)%NoDup_app.
  apply (write_slot_spec (tr_chains _ _ _ _ R1) i pre post _ (x :: tail post)).
  - by destruct R.
  - done.
  - split; [done|]. eexists. split; [cbn; by simplify_map_eq|].
    cbn. by apply chain_insert_notin.
  - intros y [->|Hy]%elem_of_cons Hyp.
    + apply Hx. apply elem_of_concat. exists i, (pre ++ post). set_solver.
    + apply (Hnd2 y Hyp). destruct post; set_solver.
  - intros h' l' Hs Hlen Hch.
    assert (same_but_nh (heap w) h') as Hs2 by (by etransitivity).
    assert (forall n, n = u32 (Z.of_nat (base.size (<[(key e, hash e) := x]> m))) ->
      TabRepB h' (mkLRUHandleTable (length_bits_ (table_ (shard w))) l' n
        (max_length_bits_ (table_ (shard w)))) (<[i := pre ++ x :: tail post]> bs)
        (<[(key e, hash e) := x]> m)) as R2.
    { intros n Hn. 
      exact (TabRepB_put _ _ _ _ _ _ _ _ _ _ _ _ R Hs2 Hlen Hf Hib He Hx Hu Hch Hn). }
    destruct post as [|o post]; cbn [head tail] in *.
    + wsteps. cbn [head] in Hm.
      match goal with |- wp _ _ ?w' => set (w2 := w') end.
      assert (TabRep (heap w2) (table_ (shard w2)) (<[(key e, hash e) := x]> m)) as R3.
      { eexists. apply R2. cbn. rewrite (tr_elems _ _ _ _ R). by apply u32_succ_size. }
      rewrite <- Hm. case_if.
      * wsteps. apply (Resize_spec w2 _ _ R3). intros h3 t3 Hs3 R4. wsteps.
        apply HQ; [by etransitivity|done].
      * wsteps. by apply HQ.
    + wsteps. rewrite <- Hm. eapply HQ; [done|]. eexists. apply R2.
      rewrite map_size_insert_Some by eauto. by destruct R.
Qed.

(** ** The table as a whole *)

(** Calls on the table, for handles that are already in memory. *)
Inductive TOp : Set := TInsert (l : loc) | TRemove (k : Slice) (h : Z) | TLookup (k : Slice) (h : Z).

Definition t_op (o : TOp) : M ptr :=
  match o with
  | TInsert l => Table_Insert l
  | TRemove k h => Table_Remove k h
  | TLookup k h => Table_Lookup k h
  end.

Fixpoint t_exec (ops : list TOp) : M (list ptr) :=
  match ops with
  | [] => mret []
  | o :: ops => r ← t_op o; rs ← t_exec ops; mret (r :: rs)
  end.

Definition in_use (m : KeyMap) (l : loc) : bool :=
  existsb (fun kl => bool_decide (snd kl = l)) (map_to_list m).

(** The same calls on a finite map; [None] when the caller passes a hash that is not a
    [uint32_t], or inserts a handle that is not in memory or already in the table. *)
Definition m_op (h : Heap) (o : TOp) (m : KeyMap) : option (ptr * KeyMap) :=
  match o with
  | TInsert l =>
      match h !! l with
      | Some e =>
          if bool_decide (is_uint 32 (hash e)) && negb (in_use m l)
          then Some (m !! (key e, hash e), <[(key e, hash e) := l]> m) else None
      | None => None
      end
  | TRemove k hv =>
      if bool_decide (is_uint 32 hv) then Some (m !! (k, hv), delete (k, hv) m) else None
  | TLookup k hv => if bool_decide (is_uint 32 hv) then Some (m !! (k, hv), m) else None
  end.

Fixpoint m_exec (h : Heap) (ops : list TOp) (m : KeyMap) : option (list ptr * KeyMap) :=
  match ops with
  | [] => Some ([], m)
  | o :: ops =>
      match m_op h o m with
      | None => None
      | Some (r, m1) =>
          match m_exec h ops m1 with Some (rs, m2) => Some (r :: rs, m2) | None => None end
      end
  end.

Lemma in_use_false m l : in_use m l = false -> forall k, m !! k <> Some l.
Proof.
  intros Hu k Hk. apply elem_of_map_to_list in Hk.
  assert (in_use m l = true) as Ht; [|congruence].
  apply existsb_exists. exists (k, l). split; [by apply list_elem_of_In|].
  by rewrite bool_decide_true.
Qed.

Lemma m_op_same h h' o m : same_but_nh h h' -> m_op h' o m = m_op h o m.
Proof.
  intros Hs. destruct o as [l| |]; [|done..]. cbn. destruct (h !! l) as [e|] eqn:E.
  - destruct (same_but_nh_lookup _ _ _ _ Hs E) as (e' & -> & Hst).
    apply strip_nh_fields in Hst as (_ & _ & _ & _ & _ & -> & -> & _). done.
  - destruct (h' !! l) as [e'|] eqn:E'; [|done]. symmetry in Hs.
    destruct (same_but_nh_lookup _ _ _ _ Hs E') as (e & ? & _). congruence.
Qed.

Lemma m_exec_same h h' ops : forall m,
  same_but_nh h h' -> m_exec h' ops m = m_exec h ops m.
Proof.
  induction ops as [|o ops IH]; intros m Hs; [done|]. cbn. rewrite (m_op_same h h') by done.
  destruct (m_op h o m) as [[r m1]|]; [|done]. by rewrite IH.
Qed.

Lemma t_op_spec w o m r m1 :
  TabRep (heap w) (table_ (shard w)) m -> m_op (heap w) o m = Some (r, m1) ->
  exists w', t_op o w = Some (r, w') /\ same_but_nh (heap w) (heap w') /\
    TabRep (heap w') (table_ (shard w')) m1.
Proof.
  intros R Ho. assert (wp (t_op o) (fun r' w' => r' = r /\ same_but_nh (heap w) (heap w') /\
    TabRep (heap w') (table_ (shard w')) m1) w) as H.
  { destruct o as [l|k hv|k hv]; cbn [m_op t_op] in *.
    - destruct (heap w !! l) as [e|] eqn:E; [|done].
      destruct (bool_decide _ && _) eqn:Hc; [|done]. injection Ho as <- <-. zbool.
      apply bool_decide_eq_true in H.
      eapply (Table_Insert_spec w m l e); [done..| |]; [by apply in_use_false|]. done.
    - case_bool_decide; [|done]. injection Ho as <- <-.
      by apply (Table_Remove_spec w m).
    - case_bool_decide; [|done]. injection Ho as <- <-. destruct R as [bs R].
      apply (Table_Lookup_spec R); [done|]. split_and!; [done..|by exists bs]. }
  apply wp_Some in H as (r' & w' & ? & -> & ? & ?). eauto.
Qed.

(** the hash table of the cache is a finite map from keys to handles. Any sequence
    of insertions, removals and lookups on a new table returns what the map returns,
    whatever the hashes collide to and however often the table grows in between. *)
Theorem table_refines_map w bits ops rs m :
  table_ (shard w) = new_table bits -> m_exec (heap w) ops ∅ = Some (rs, m) ->
  exists w', t_exec ops w = Some (rs, w') /\ TabRep (heap w') (table_ (shard w')) m.
Proof.
  intros Ht. assert (TabRep (heap w) (table_ (shard w)) ∅) as R.
  { rewrite Ht. exists (replicate (Z.to_nat (2 ^ 4)) []). split; try done.
    - by apply Forall2_replicate.
    - constructor.
    - intros i xs l Hi Hl. apply lookup_replicate in Hi as [-> _]. set_solver. }
  clear Ht. revert w rs R. generalize (∅ : KeyMap) as m0.
  induction ops as [|o ops IH]; intros m0 w rs R Hm; cbn [m_exec t_exec] in *.
  { injection Hm as <- <-. by exists w. }
  destruct (m_op (heap w) o m0) as [[r m1]|] eqn:Ho; [|done].
  destruct (m_exec (heap w) ops m1) as [[rs' m2]|] eqn:Hrest; [|done].
  injection Hm as <- <-.
  destruct (t_op_spec w o m0 r m1 R Ho) as (w1 & Hw1 & Hs & R1).
  rewrite <- (m_exec_same (heap w) (heap w1)) in Hrest by done.
  destruct (IH m1 w1 rs' R1 Hrest) as (w2 & Hw2 & R2). exists w2. split; [|done].
  unfold mbind, M_bind. by rewrite Hw1, Hw2.
Qed.

(** Twenty handles, of which every second hash collides with its neighbour in the top
    bits; inserting them all grows the table. *)
Definition demo_handle (i : Z) : LRUHandle :=
  mkLRUHandle i (mkCacheItemHelper None None None None 0) None None None 1
    [byte_of_Z i] (i / 2 * 2 ^ 27 + i) 0 0 0.

Definition demo_memory : Heap :=
  list_to_map ((fun i => (Pos.of_nat (i + 2), demo_handle (Z.of_nat i))) <$> seq 0 20).

Definition demo_table_world : World :=
  mkWorld demo_memory
    (mkLRUCacheShard kDontChargeCacheMetadata 0 0 0 false SpecFloat.S754_nan
       SpecFloat.S754_nan SpecFloat.S754_nan SpecFloat.S754_nan None None (new_table 32)
       0 0) [].

Definition demo_table_ops : list TOp :=
  (TInsert <$> (Pos.of_nat <$> seq 2 20)) ++
  [TLookup [x03] (1 * 2 ^ 27 + 3); TRemove [x03] (1 * 2 ^ 27 + 3);
   TLookup [x03] (1 * 2 ^ 27 + 3); TLookup [x02] (1 * 2 ^ 27 + 2)].

Definition demo_table_results : list ptr :=
  replicate 20 None ++ [Some 5; Some 5; None; Some 4]%positive.

(** Evaluation: the removed key is gone, its neighbour is still found. *)
Lemma table_refines_map_witness :
  exists w', t_exec demo_table_ops demo_table_world = Some (demo_table_results, w').
Proof.
  assert (fst <$> m_exec demo_memory demo_table_ops ∅ = Some demo_table_results) as H
    by (vm_compute; reflexivity).
  destruct (m_exec demo_memory demo_table_ops ∅) as [[rs m]|] eqn:E; [|discriminate H].
  injection H as ->.
  destruct (table_refines_map demo_table_world 32 demo_table_ops demo_table_results m
    eq_refl E) as (w' & Hw & _).
  exists w'. exact Hw.
Defined.
