(* ===== verification/LruList.v ===== *)
(** * The list of evictable handles refines three queues

    The circular list through [lru_] is a doubly linked list of handles from the
    oldest to the newest, cut in three pools by [lru_bottom_pri_] and
    [lru_low_pri_]. [LruRep h s p] relates it to three lists of handles [p];
    inserting, removing and balancing the pools are operations on these lists,
    which change nothing of the heap but links and pool flags. *)

From S2P Require Import Prelude.
From S2P Require Import Double.
From S2P Require Import LruState.
From S2P Require Import LruTable.
From S2P Require Import LruShard.
From S2P Require Import LruTableProofs.

(** ** Doubly linked segments *)

Definition nx (h : Heap) (l : loc) : ptr := h !! l ≫= next.
Definition pv (h : Heap) (l : loc) : ptr := h !! l ≫= prev.

(** The handles [xs] lie between [a] and [b]. *)
Fixpoint dseg (h : Heap) (a : loc) (xs : list loc) (b : loc) : Prop :=
  match xs with
  | [] => nx h a = Some b /\ pv h b = Some a
  | x :: xs => nx h a = Some x /\ pv h x = Some a /\ dseg h x xs b
  end.

(** The last handle of a list, or [a]; the first one, or [b]. *)
Definition lst (a : loc) (xs : list loc) : loc := default a (last xs).
Definition hd_or (b : loc) (xs : list loc) : loc := default b (head xs).

Lemma lst_cons a x xs : lst a (x :: xs) = lst x xs.
Proof. unfold lst. rewrite last_cons. by destruct (last xs). Qed.

Lemma lst_snoc a xs x : lst a (xs ++ [x]) = x.
Proof. unfold lst. by rewrite last_snoc. Qed.

Lemma lst_in a xs : lst a xs ∈ a :: xs.
Proof.
  revert a. induction xs as [|x xs IH]; intros a; [unfold lst; cbn; set_solver|].
  rewrite lst_cons. specialize (IH x). set_solver.
Qed.

Lemma hd_or_in b xs : hd_or b xs ∈ xs ++ [b].
Proof. destruct xs; unfold hd_or; cbn; set_solver. Qed.

Lemma dseg_frame h h' a xs b :
  (forall l, l ∈ a :: xs -> nx h' l = nx h l) ->
  (forall l, l ∈ xs ++ [b] -> pv h' l = pv h l) ->
  dseg h a xs b -> dseg h' a xs b.
Proof.
  revert a. induction xs as [|x xs IH]; intros a Hn Hp; cbn.
  - intros [? ?]. rewrite Hn, Hp by set_solver. done.
  - intros (? & ? & ?). rewrite Hn, Hp by set_solver. split_and!; [done..|].
    apply IH; [| |done]; intros; [apply Hn|apply Hp]; set_solver.
Qed.

(** The links at the border of two parts of a segment. *)
Lemma dseg_border h a l1 l2 b :
  dseg h a (l1 ++ l2) b ->
  nx h (lst a l1) = Some (hd_or b l2) /\ pv h (hd_or b l2) = Some (lst a l1).
Proof.
  revert a. induction l1 as [|x l1 IH]; intros a; cbn.
  - destruct l2; cbn; naive_solver.
  - intros (? & ? & ?). rewrite lst_cons. auto.
Qed.

Lemma dseg_insert h h' x l2 b l1 : forall a,
  dseg h a (l1 ++ l2) b -> NoDup (a :: l1 ++ l2) -> NoDup (l1 ++ l2 ++ [b]) ->
  nx h' (lst a l1) = Some x -> pv h' x = Some (lst a l1) ->
  nx h' x = Some (hd_or b l2) -> pv h' (hd_or b l2) = Some x ->
  (forall l, l ∈ a :: l1 ++ l2 -> l <> lst a l1 -> nx h' l = nx h l) ->
  (forall l, l ∈ l1 ++ l2 ++ [b] -> l <> hd_or b l2 -> pv h' l = pv h l) ->
  dseg h' a (l1 ++ x :: l2) b.
Proof.
  induction l1 as [|y l1 IH]; intros a Hs Hn1 Hn2 H1 H2 H3 H4 Hn Hp; cbn in *.
  - split_and!; [done..|]. destruct l2 as [|z l2]; cbn in *; [done|].
    split_and!; [done..|]. destruct Hs as (_ & _ & Hs).
    unfold lst, hd_or in *. cbn in *.
    apply NoDup_cons in Hn1 as [Hn1 _]. apply NoDup_cons in Hn2 as [Hn2 _].
    eapply dseg_frame; [| |done]; intros l Hl; [apply Hn|apply Hp]; set_solver.
  - rewrite lst_cons in *. destruct Hs as (Ha & Hy & Hs).
    apply NoDup_cons in Hn1 as [Ha1 Hn1]. apply NoDup_cons in Hn2 as [Hy2 Hn2].
    pose proof (lst_in y l1). pose proof (hd_or_in b l2).
    split_and!.
    + rewrite Hn; [done|set_solver|]. intros ->. set_solver.
    + rewrite Hp; [done|set_solver|]. intros ->. set_solver.
    + apply IH; try done; intros l Hl Hl'; [apply Hn|apply Hp]; set_solver.
Qed.

Lemma dseg_remove h h' x l2 b l1 : forall a,
  dseg h a (l1 ++ x :: l2) b -> NoDup (a :: l1 ++ x :: l2) ->
  NoDup (l1 ++ x :: l2 ++ [b]) ->
  nx h' (lst a l1) = Some (hd_or b l2) -> pv h' (hd_or b l2) = Some (lst a l1) ->
  (forall l, l ∈ a :: l1 ++ l2 -> l <> lst a l1 -> nx h' l = nx h l) ->
  (forall l, l ∈ l1 ++ l2 ++ [b] -> l <> hd_or b l2 -> pv h' l = pv h l) ->
  dseg h' a (l1 ++ l2) b.
Proof.
  induction l1 as [|y l1 IH]; intros a Hs Hn1 Hn2 H1 H2 Hn Hp; cbn in *.
  - destruct Hs as (_ & _ & Hs). destruct l2 as [|z l2]; cbn in *; [done|].
    split_and!; [done..|]. destruct Hs as (_ & _ & Hs). unfold lst, hd_or in *. cbn in *.
    apply NoDup_cons in Hn1 as [Hn1 _].
    apply NoDup_cons in Hn2 as [_ [Hn2 _]%NoDup_cons].
    eapply dseg_frame; [| |done]; intros l Hl; [apply Hn|apply Hp]; set_solver.
  - rewrite lst_cons in *. destruct Hs as (Ha & Hy & Hs).
    apply NoDup_cons in Hn1 as [Ha1 Hn1]. apply NoDup_cons in Hn2 as [Hy2 Hn2].
    pose proof (lst_in y l1). pose proof (hd_or_in b l2).
    split_and!.
    + rewrite Hn; [done|set_solver|]. intros ->. set_solver.
    + rewrite Hp; [done|set_solver|]. intros ->. set_solver.
    + apply IH; try done; intros l Hl Hl'; [apply Hn|apply Hp]; set_solver.
Qed.

Lemma dseg_in h a xs b x : dseg h a xs b -> x ∈ xs -> is_Some (h !! x).
Proof.
  revert a. induction xs as [|y xs IH]; intros a; [set_solver|]. cbn.
  intros (_ & Hp & Hs) [->|Hx]%elem_of_cons; [|eauto].
  unfold pv in Hp. destruct (h !! y); [done|discriminate].
Qed.

(** ** Pools and their usage *)

Record Pools : Set := mkPools { bot : list loc; low : list loc; high : list loc }.

(** From the oldest to the newest. *)
Definition order (p : Pools) : list loc := bot p ++ low p ++ high p.

Definition chg (h : Heap) (l : loc) : Z :=
  match h !! l with Some e => total_charge e | None => 0 end.

(** The sum of the charges of a list of handles. *)
Definition sumf (c : loc -> Z) (xs : list loc) : Z := foldr (fun l a => c l + a) 0 xs.
Definition sumc (h : Heap) (xs : list loc) : Z := sumf (chg h) xs.

Lemma sumc_app h xs ys : sumc h (xs ++ ys) = sumc h xs + sumc h ys.
Proof. unfold sumc, sumf. induction xs; cbn; [done|]. lia. Qed.

Lemma sumf_ext (c c' : loc -> Z) xs :
  (forall l, l ∈ xs -> c' l = c l) -> sumf c' xs = sumf c xs.
Proof.
  unfold sumf. induction xs as [|x xs IH]; intros Hc; cbn; [done|].
  rewrite Hc, IH by set_solver. done.
Qed.

Lemma sumc_cons h x xs : sumc h (x :: xs) = chg h x + sumc h xs.
Proof. done. Qed.

Lemma sumc_ext h h' xs :
  (forall l, l ∈ xs -> chg h' l = chg h l) -> sumc h' xs = sumc h xs.
Proof. apply sumf_ext. Qed.

#[export] Hint Rewrite sumc_app sumc_cons : xdb.

(** ** What the list operations leave alone *)

Definition POOL_FLAGS : Z := 12.

Definition strip_lru (e : LRUHandle) : LRUHandle :=
  set_m_flags (Z.land (m_flags e) (Z.lnot POOL_FLAGS)) (set_prev None (set_next None e)).

Definition same_but_lru (h h' : Heap) : Prop := strip_lru <$> h' = strip_lru <$> h.

#[global] Instance same_but_lru_equiv : Equivalence same_but_lru.
Proof. split; unfold same_but_lru; [done|congruence|intros ????; congruence]. Qed.

Lemma same_but_lru_lookup h h' l e :
  same_but_lru h h' -> h !! l = Some e ->
  exists e', h' !! l = Some e' /\ strip_lru e' = strip_lru e.
Proof.
  intros Hs He. apply (f_equal (lookup l)) in Hs. rewrite !lookup_fmap, He in Hs.
  destruct (h' !! l) as [e'|]; [|done]. exists e'. split; [done|]. by apply Some_inj.
Qed.

Lemma same_but_lru_insert h l e e' :
  h !! l = Some e -> strip_lru e' = strip_lru e -> same_but_lru h (<[l := e']> h).
Proof.
  intros He Hs. unfold same_but_lru. rewrite fmap_insert, Hs. apply insert_id.
  by rewrite lookup_fmap, He.
Qed.

Lemma strip_lru_charge e e' :
  strip_lru e' = strip_lru e -> total_charge e' = total_charge e.
Proof. unfold strip_lru. intros [=]. done. Qed.

Lemma same_but_lru_chg h h' l : same_but_lru h h' -> chg h' l = chg h l.
Proof.
  intros Hs. unfold chg. destruct (h !! l) as [e|] eqn:E.
  - destruct (same_but_lru_lookup _ _ _ _ Hs E) as (e' & -> & He).
    by apply strip_lru_charge.
  - destruct (h' !! l) as [e'|] eqn:E'; [|done]. symmetry in Hs.
    destruct (same_but_lru_lookup _ _ _ _ Hs E') as (e & ? & _). congruence.
Qed.

Lemma same_but_lru_sumc h h' xs : same_but_lru h h' -> sumc h' xs = sumc h xs.
Proof. intros. apply sumc_ext. intros. by apply same_but_lru_chg. Qed.

(** The fields of the shard that the list operations may change, set to zero. *)
Definition strip_shard (s : LRUCacheShard) : LRUCacheShard :=
  set_pool_usage 0 0 (set_lru_usage 0 (set_lru_low_pri None (set_lru_bottom_pri None s))).

Definition same_core (s s' : LRUCacheShard) : Prop := strip_shard s' = strip_shard s.

#[global] Instance same_core_equiv : Equivalence same_core.
Proof. split; unfold same_core; [done|congruence|intros ????; congruence]. Qed.

(** ** Flags *)

Lemma has_flag_testbit fs k : 0 <= k -> has_flag fs (2 ^ k) = Z.testbit fs k.
Proof.
  intros Hk. unfold has_flag. apply eq_true_iff_eq. rewrite negb_true_iff, Z.eqb_neq.
  split.
  - intros H. destruct (Z.testbit fs k) eqn:E; [done|]. destruct H.
    apply Z.bits_inj'. intros i Hi. rewrite Z.land_spec, Z.bits_0, Z.pow2_bits_eqb by done.
    destruct (Z.eqb_spec k i) as [<-|]; [by rewrite E|apply andb_false_r].
  - intros H E. assert (Z.testbit (Z.land fs (2 ^ k)) k = true) as H'.
    { by rewrite Z.land_spec, H, Z.pow2_bits_true. }
    by rewrite E, Z.bits_0 in H'.
Qed.

Lemma testbit_put_flag b k fs i :
  0 <= k -> 0 <= i ->
  Z.testbit (put_flag b (2 ^ k) fs) i = if k =? i then b else Z.testbit fs i.
Proof.
  intros Hk Hi. unfold put_flag. destruct b.
  - rewrite Z.lor_spec, Z.pow2_bits_eqb by done. destruct (k =? i); [apply orb_true_r|].
    apply orb_false_r.
  - rewrite Z.land_spec, Z.lnot_spec, Z.pow2_bits_eqb by done.
    destruct (k =? i); [apply andb_false_r|apply andb_true_r].
Qed.

Lemma has_put_flag b k k' fs :
  0 <= k -> 0 <= k' ->
  has_flag (put_flag b (2 ^ k) fs) (2 ^ k') =
    if k =? k' then b else has_flag fs (2 ^ k').
Proof. intros. by rewrite !has_flag_testbit, testbit_put_flag. Qed.

Lemma strip_flag b k fs :
  k = 2 \/ k = 3 ->
  Z.land (put_flag b (2 ^ k) fs) (Z.lnot POOL_FLAGS) = Z.land fs (Z.lnot POOL_FLAGS).
Proof.
  intros Hk. apply Z.bits_inj'. intros i Hi.
  rewrite !Z.land_spec, testbit_put_flag by lia.
  destruct (Z.eqb_spec k i) as [<-|]; [|done].
  by destruct Hk as [-> | ->]; cbn; rewrite !andb_false_r.
Qed.

Lemma strip_flag_high b fs :
  Z.land (put_flag b M_IN_HIGH_PRI_POOL fs) (Z.lnot POOL_FLAGS) =
  Z.land fs (Z.lnot POOL_FLAGS).
Proof. apply (strip_flag b 2). by left. Qed.

Lemma strip_flag_low b fs :
  Z.land (put_flag b M_IN_LOW_PRI_POOL fs) (Z.lnot POOL_FLAGS) =
  Z.land fs (Z.lnot POOL_FLAGS).
Proof. apply (strip_flag b 3). by right. Qed.

(** Setting both pool flags, as the code always does. *)
Definition SetPool (hi lo : bool) (e : LRUHandle) : LRUHandle :=
  SetInLowPriPool lo (SetInHighPriPool hi e).

Lemma strip_lru_SetPool hi lo e : strip_lru (SetPool hi lo e) = strip_lru e.
Proof.
  unfold strip_lru, SetPool, SetInLowPriPool, SetInHighPriPool. cbn.
  by rewrite strip_flag_low, strip_flag_high.
Qed.

Lemma SetPool_high hi lo e : InHighPriPool (SetPool hi lo e) = hi.
Proof.
  unfold InHighPriPool, SetPool, SetInLowPriPool, SetInHighPriPool. cbn.
  change M_IN_HIGH_PRI_POOL with (2 ^ 2). change M_IN_LOW_PRI_POOL with (2 ^ 3).
  rewrite has_put_flag by lia. cbn [Z.eqb]. by rewrite has_put_flag by lia.
Qed.

Lemma SetPool_low hi lo e : InLowPriPool (SetPool hi lo e) = lo.
Proof.
  unfold InLowPriPool, SetPool, SetInLowPriPool. cbn.
  change M_IN_LOW_PRI_POOL with (2 ^ 3). by rewrite has_put_flag by lia.
Qed.

(** ** Views of the heap *)

Definition pool_flags (h : Heap) (l : loc) : option (bool * bool) :=
  (fun e => (InHighPriPool e, InLowPriPool e)) <$> h !! l.

Lemma nx_insert h a e l : nx (<[a := e]> h) l = if decide (a = l) then next e else nx h l.
Proof. unfold nx. case_decide; by simplify_map_eq. Qed.

Lemma pv_insert h a e l : pv (<[a := e]> h) l = if decide (a = l) then prev e else pv h l.
Proof. unfold pv. case_decide; by simplify_map_eq. Qed.

Lemma pool_flags_insert h a e l :
  pool_flags (<[a := e]> h) l =
    if decide (a = l) then Some (InHighPriPool e, InLowPriPool e) else pool_flags h l.
Proof. unfold pool_flags. case_decide; by simplify_map_eq. Qed.

(** ** The representation *)

Record LruLinks (h : Heap) (s : LRUCacheShard) (p : Pools) : Prop := mkLruLinks {
  lr_seg : dseg h lru_ (order p) lru_;
  lr_nodup : NoDup (lru_ :: order p);
  lr_bottom : lru_bottom_pri_ s = Some (lst lru_ (bot p));
  lr_low : lru_low_pri_ s = Some (lst lru_ (bot p ++ low p));
  lr_flags : forall l, l ∈ order p ->
    pool_flags h l = Some (bool_decide (l ∈ high p), bool_decide (l ∈ low p));
  lr_high_usage : high_pri_pool_usage_ s = u64 (sumc h (high p));
  lr_low_usage : low_pri_pool_usage_ s = u64 (sumc h (low p));
}.

Record LruRep (h : Heap) (s : LRUCacheShard) (p : Pools) : Prop := mkLruRep {
  lr_links :> LruLinks h s p;
  lr_usage : lru_usage_ s = u64 (sumc h (order p));
}.

(** ** Removing a handle *)

Definition rm (x : loc) (l : list loc) : list loc := filter (fun y => y <> x) l.

Definition pools_remove (x : loc) (p : Pools) : Pools :=
  mkPools (rm x (bot p)) (rm x (low p)) (rm x (high p)).

Lemma rm_notin x l : x ∉ l -> rm x l = l.
Proof.
  induction l as [|y l IH]; intros Hx; [done|]. unfold rm in *.
  rewrite filter_cons_True by set_solver. by rewrite IH by set_solver.
Qed.

Lemma rm_app x l1 l2 : rm x (l1 ++ l2) = rm x l1 ++ rm x l2.
Proof. apply filter_app. Qed.

Lemma rm_mid x l1 l2 : NoDup (l1 ++ x :: l2) -> rm x (l1 ++ x :: l2) = l1 ++ l2.
Proof.
  intros (_ & Hd & [Hx _]%NoDup_cons)%NoDup_app. rewrite rm_app. unfold rm at 2.
  rewrite filter_cons_False by naive_solver. fold (rm x l2).
  rewrite !rm_notin; [done|done|]. intros Hx'. apply (Hd x Hx'). set_solver.
Qed.

Lemma order_remove x p : order (pools_remove x p) = rm x (order p).
Proof. unfold order, pools_remove. cbn. by rewrite !rm_app. Qed.

Lemma elem_of_rm x y l : y ∈ rm x l <-> y ∈ l /\ y <> x.
Proof. unfold rm. rewrite list_elem_of_filter. naive_solver. Qed.

Lemma NoDup_split_unique {A} (x : A) l1 l2 k1 k2 :
  NoDup (l1 ++ x :: l2) -> l1 ++ x :: l2 = k1 ++ x :: k2 -> l1 = k1 /\ l2 = k2.
Proof.
  revert k1. induction l1 as [|y l1 IH]; intros [|z k1] Hnd Heq; cbn in *; simplify_eq.
  - done.
  - apply NoDup_cons in Hnd as [Hx _]. set_solver.
  - apply NoDup_cons in Hnd as [Hx _]. set_solver.
  - apply NoDup_cons in Hnd as [_ Hnd]. destruct (IH k1) as [-> ->]; done.
Qed.

Lemma lst_app_cons a l1 y l2 : lst a (l1 ++ y :: l2) = lst y l2.
Proof.
  revert a. induction l1 as [|z l1 IH]; intros a; cbn [app]; rewrite lst_cons; auto.
Qed.

Lemma lst_notin a l x : x ∉ a :: l -> lst a l <> x.
Proof. intros Hx <-. apply Hx, lst_in. Qed.

(** Where the end of a pool moves when [x] leaves. *)
Lemma boundary_remove a l r l1 x l2 :
  NoDup (a :: l ++ r) -> l ++ r = l1 ++ x :: l2 ->
  (if bool_decide (lst a l = x) then lst a l1 else lst a l) = lst a (rm x l).
Proof.
  intros Hnd Heq. destruct (decide (x ∈ l)) as [Hx|Hx].
  - apply list_elem_of_split in Hx as (k1 & k2 & ->).
    pose proof Hnd as [Ha Hnd']%NoDup_cons.
    rewrite <- app_assoc in Heq, Hnd'. cbn in Heq, Hnd'.
    destruct (NoDup_split_unique _ _ _ _ _ Hnd' Heq) as [<- _].
    assert (NoDup (k1 ++ x :: k2)) as Hk.
    { apply NoDup_cons in Hnd as [_ Hnd]. by apply NoDup_app in Hnd as [? _]. }
    rewrite rm_mid, lst_app_cons by done. apply NoDup_app in Hk as (_ & _ & [Hk _]%NoDup_cons).
    destruct k2 as [|y k2].
    + rewrite bool_decide_true by done. by rewrite app_nil_r.
    + rewrite bool_decide_false, lst_cons, lst_app_cons; [done|].
      rewrite lst_cons. apply lst_notin. set_solver.
  - rewrite rm_notin by done. rewrite bool_decide_false; [done|]. apply lst_notin.
    intros [->|?]%elem_of_cons; [|done]. apply NoDup_cons in Hnd as [Ha _].
    rewrite Heq in Ha. set_solver.
Qed.

Lemma boundary_Some (a x u : loc) :
  (if bool_decide (Some a = Some x) then Some u else Some a) =
  Some (if bool_decide (a = x) then u else a).
Proof. destruct (decide (a = x)) as [->|]; [by rewrite !bool_decide_true|].
  by rewrite !bool_decide_false by congruence.
Qed.

Lemma sumc_rm h x xs :
  NoDup xs -> x ∈ xs -> sumc h (rm x xs) = sumc h xs - chg h x.
Proof.
  intros Hnd (l1 & l2 & ->)%list_elem_of_split. rewrite rm_mid by done. xsimp. lia.
Qed.

Lemma sumc_rm_if h x xs :
  NoDup xs -> sumc h (rm x xs) = sumc h xs - if bool_decide (x ∈ xs) then chg h x else 0.
Proof.
  intros Hnd. destruct (bool_decide_reflect (x ∈ xs)); [by apply sumc_rm|].
  rewrite rm_notin by done. lia.
Qed.

Lemma u64_sub a b : u64 (u64 a - b) = u64 (a - b).
Proof. unfold Z.sub. apply wrap_add_l. Qed.

(** Views of the heap after updates, by cases on the updated locations. *)
Ltac view_cases :=
  rewrite ?nx_insert, ?pv_insert, ?pool_flags_insert;
  repeat (case_decide; subst; cbn); try done.

Section LruRep.
Context {h : Heap} {s : LRUCacheShard} {p : Pools} (R : LruLinks h s p).

Lemma rep_split x :
  x ∈ order p ->
  exists l1 l2 e, order p = l1 ++ x :: l2 /\ h !! x = Some e /\
    prev e = Some (lst lru_ l1) /\ next e = Some (hd_or lru_ l2).
Proof.
  intros Hx. pose proof (list_elem_of_split _ _ Hx) as (l1 & l2 & Ho).
  destruct (dseg_in _ _ _ _ _ (lr_seg _ _ _ R) Hx) as [e He].
  exists l1, l2, e. pose proof (lr_seg _ _ _ R) as Hs. rewrite Ho in Hs.
  destruct (dseg_border _ _ _ _ _ Hs) as [_ Hp].
  replace (l1 ++ x :: l2) with ((l1 ++ [x]) ++ l2) in Hs by (by rewrite <- app_assoc).
  destruct (dseg_border _ _ _ _ _ Hs) as [Hn _]. rewrite lst_snoc in Hn.
  unfold nx, pv, hd_or in *. cbn in Hp. rewrite He in Hn, Hp. done.
Qed.

Lemma rep_NoDup_circ : NoDup (order p ++ [lru_]).
Proof. pose proof (lr_nodup _ _ _ R) as Hnd. by rewrite <- Permutation_cons_append. Qed.

Lemma rep_not_dummy x : x ∈ order p -> x <> lru_.
Proof. intros Hx ->. pose proof (lr_nodup _ _ _ R) as [? _]%NoDup_cons. done. Qed.

Lemma rep_heap l : l ∈ lru_ :: order p -> is_Some (h !! l).
Proof.
  intros [->|Hl]%elem_of_cons; [|exact (dseg_in _ _ _ _ _ (lr_seg _ _ _ R) Hl)].
  pose proof (lr_seg _ _ _ R) as Hs. change (order p) with ([] ++ order p) in Hs.
  apply dseg_border in Hs as [Hn _]. unfold nx, lst in Hn. cbn in Hn.
  destruct (h !! lru_); [done|discriminate].
Qed.

Lemma rep_order_le : (length (order p) < base.size h)%nat.
Proof.
  apply (NoDup_length_heap h (lru_ :: order p)); [by destruct R|]. apply rep_heap.
Qed.

End LruRep.

(** The shard after [x], with charge [c] and in the pool of the given flags, has
    left the list. *)
Definition shard_remove (x : loc) (l1 : list loc) (c : Z) (hi lo : bool)
    (s : LRUCacheShard) : LRUCacheShard :=
  let bd (o : ptr) := if bool_decide (o = Some x) then Some (lst lru_ l1) else o in
  let s1 := set_lru_usage (u64 (lru_usage_ s - c))
    (set_lru_bottom_pri (bd (lru_bottom_pri_ s))
       (set_lru_low_pri (bd (lru_low_pri_ s)) s)) in
  if hi then set_pool_usage (u64 (high_pri_pool_usage_ s - c)) (low_pri_pool_usage_ s) s1
  else if lo then
    set_pool_usage (high_pri_pool_usage_ s) (u64 (low_pri_pool_usage_ s - c)) s1
  else s1.

Lemma set_lru_low_pri_id s : set_lru_low_pri (lru_low_pri_ s) s = s.
Proof. by destruct s. Qed.

Lemma set_lru_bottom_pri_id s : set_lru_bottom_pri (lru_bottom_pri_ s) s = s.
Proof. by destruct s. Qed.

Lemma same_core_remove x l1 c hi lo s : same_core s (shard_remove x l1 c hi lo s).
Proof. by destruct hi, lo. Qed.

(** The new shard and any heap in which [x] is unlinked represent the pools
    without [x]. *)
Lemma LruRep_remove h h' s p x l1 l2 e :
  LruRep h s p -> order p = l1 ++ x :: l2 -> h !! x = Some e -> same_but_lru h h' ->
  nx h' (lst lru_ l1) = Some (hd_or lru_ l2) ->
  pv h' (hd_or lru_ l2) = Some (lst lru_ l1) ->
  (forall l, l <> x -> l <> lst lru_ l1 -> nx h' l = nx h l) ->
  (forall l, l <> x -> l <> hd_or lru_ l2 -> pv h' l = pv h l) ->
  (forall l, l ∈ order p -> l <> x -> pool_flags h' l = pool_flags h l) ->
  LruRep h' (shard_remove x l1 (total_charge e) (InHighPriPool e) (InLowPriPool e) s)
    (pools_remove x p).
Proof.
  intros R Ho He Hsame Hn1 Hp1 Hn Hp Hfl. pose proof R as [[Hs Hnd Hbo Hlo Hf Hhu Hlu] Hu].
  assert (NoDup (order p)) as Hndo by (by apply NoDup_cons in Hnd as [_ ?]).
  assert (chg h x = total_charge e) as Hc by (unfold chg; by rewrite He).
  assert (x ∈ order p) as Hx by (rewrite Ho; set_solver).
  assert (rm x (order p) = l1 ++ l2) as Hrm by (rewrite Ho in *; by apply rm_mid).
  pose proof (Hf x Hx) as Hfx. unfold pool_flags in Hfx. rewrite He in Hfx. cbn in Hfx.
  injection Hfx as Hxh Hxl.
  pose proof Hndo as (Hb & Hbd & (Hl & Hld & Hh)%NoDup_app)%NoDup_app.
  assert (forall xs, NoDup xs -> sumc h' (rm x xs) =
    sumc h xs - if bool_decide (x ∈ xs) then total_charge e else 0) as Hsum
    by (intros; by rewrite (same_but_lru_sumc _ _ _ Hsame), sumc_rm_if, Hc).
  pose proof (Hsum _ Hh) as Hsh. pose proof (Hsum _ Hl) as Hsl. rewrite <- Hxh in Hsh.
  rewrite <- Hxl in Hsl.
  assert (InHighPriPool e = true -> InLowPriPool e = false) as Hexcl.
  { rewrite Hxh, Hxl, bool_decide_eq_true, bool_decide_eq_false. set_solver. }
  split; [split|].
  - rewrite order_remove, Hrm.
    apply (dseg_remove h h' x l2 lru_ l1); try done.
    + by rewrite <- Ho.
    + by rewrite <- Ho.
    + pose proof (rep_NoDup_circ R) as Hc'. rewrite Ho in Hc'. by rewrite <- app_assoc in Hc'.
    + intros l Hl' ?. apply Hn; [|done]. rewrite Ho in Hnd.
      apply NoDup_cons in Hnd as [Hd (_ & Hd1 & [Hd2 _]%NoDup_cons)%NoDup_app]. set_solver.
    + intros l Hl' ?. apply Hp; [|done]. rewrite Ho in Hnd.
      apply NoDup_cons in Hnd as [Hd (_ & Hd1 & [Hd2 _]%NoDup_cons)%NoDup_app]. set_solver.
  - rewrite order_remove. apply NoDup_cons. split.
    + apply NoDup_cons in Hnd as [? _]. rewrite elem_of_rm. naive_solver.
    + by apply NoDup_filter.
  - assert (lru_bottom_pri_ (shard_remove x l1 (total_charge e) (InHighPriPool e)
      (InLowPriPool e) s) = if bool_decide (lru_bottom_pri_ s = Some x)
        then Some (lst lru_ l1) else lru_bottom_pri_ s) as ->
      by (unfold shard_remove; by destruct (InHighPriPool e), (InLowPriPool e)).
    cbn [pools_remove bot].
    rewrite <- (boundary_remove lru_ (bot p) (low p ++ high p) l1 x l2), Hbo by done.
    apply boundary_Some.
  - assert (lru_low_pri_ (shard_remove x l1 (total_charge e) (InHighPriPool e)
      (InLowPriPool e) s) = if bool_decide (lru_low_pri_ s = Some x)
        then Some (lst lru_ l1) else lru_low_pri_ s) as ->
      by (unfold shard_remove; by destruct (InHighPriPool e), (InLowPriPool e)).
    cbn [pools_remove bot low]. rewrite <- rm_app.
    rewrite <- (boundary_remove lru_ (bot p ++ low p) (high p) l1 x l2), Hlo
      by (rewrite <- app_assoc; done).
    apply boundary_Some.
  - intros l. rewrite order_remove, elem_of_rm. intros [Hl' Hne].
    rewrite Hfl, Hf by done. cbn [pools_remove high low].
    f_equal. f_equal; apply bool_decide_ext; rewrite elem_of_rm; naive_solver.
  - unfold shard_remove. cbn [pools_remove high]. rewrite Hsh.
    destruct (InHighPriPool e), (InLowPriPool e); cbn; rewrite Hhu;
      rewrite ?u64_sub, ?Z.sub_0_r; done.
  - unfold shard_remove. cbn [pools_remove low]. rewrite Hsl.
    destruct (InHighPriPool e), (InLowPriPool e); cbn; rewrite Hlu;
      rewrite ?u64_sub, ?Z.sub_0_r; try done. by discriminate Hexcl.
  - unfold shard_remove. rewrite order_remove, Hsum, (bool_decide_true (x ∈ order p)) by done.
    destruct (InHighPriPool e), (InLowPriPool e); cbn; rewrite Hu; by rewrite u64_sub.
Qed.

Lemma LRU_Remove_spec w p x e Q :
  LruRep (heap w) (shard w) p -> x ∈ order p -> heap w !! x = Some e ->
  (forall h' s', same_but_lru (heap w) h' -> same_core (shard w) s' ->
     LruRep h' s' (pools_remove x p) -> Q () (mkWorld h' s' (trace w))) ->
  wp (LRU_Remove x) Q w.
Proof.
  intros R Hx He HQ. destruct (rep_split R x Hx) as (l1 & l2 & e' & Ho & He' & Hpe & Hne).
  simplify_eq. pose proof (lr_nodup _ _ _ R) as Hnd. rewrite Ho in Hnd.
  assert (lst lru_ l1 <> x /\ hd_or lru_ l2 <> x) as [Hlx Hhx].
  { apply NoDup_cons in Hnd as [Hd (_ & Hd1 & [Hd2 _]%NoDup_cons)%NoDup_app].
    pose proof (lst_in lru_ l1). pose proof (hd_or_in lru_ l2). set_solver. }
  destruct (rep_heap R (hd_or lru_ l2)) as [eq Heq].
  { rewrite Ho. pose proof (hd_or_in lru_ l2). set_solver. }
  destruct (rep_heap R (lst lru_ l1)) as [ep Hep].
  { rewrite Ho. pose proof (lst_in lru_ l1). set_solver. }
  unfold LRU_Remove. wsteps.
  (* the two boundary pointers *)
  set (bd (o : ptr) := if bool_decide (o = Some x) then Some (lst lru_ l1) else o).
  apply (wp_of_Some _ _ () _ (set_shard (set_lru_low_pri (bd (lru_low_pri_ (shard w)))
    (shard w)) w)).
  { rewrite Hpe. unfold bd. case_bool_decide; [done|]. rewrite set_lru_low_pri_id.
    by destruct w. }
  wstep. apply (wp_of_Some _ _ () _ (set_shard
    (set_lru_bottom_pri (bd (lru_bottom_pri_ (shard w)))
      (set_lru_low_pri (bd (lru_low_pri_ (shard w))) (shard w))) w)).
  { rewrite Hpe. unfold bd. destruct (bool_decide (lru_bottom_pri_ _ = _)); [done|].
    by destruct w as [? [] ?]. }
  wstep. rewrite Hpe, Hne.
  set (h1 := <[hd_or lru_ l2 := set_prev (Some (lst lru_ l1)) eq]> (heap w)).
  assert (exists ep', h1 !! lst lru_ l1 = Some ep' /\ strip_lru ep' = strip_lru ep /\
    m_flags ep' = m_flags ep /\ prev ep' = if decide (hd_or lru_ l2 = lst lru_ l1)
      then Some (lst lru_ l1) else prev ep) as (ep' & Hep' & Hsp & Hmp & Hpp).
  { unfold h1. case_decide as Hd.
    - rewrite Hd in Heq. simplify_map_eq. rewrite Hd, lookup_insert_eq. eauto.
    - rewrite lookup_insert_ne by done. eauto. }
  set (h2 := <[lst lru_ l1 := set_next (Some (hd_or lru_ l2)) ep']> h1).
  assert (h2 !! x = Some e) as He2.
  { unfold h2, h1. by rewrite !lookup_insert_ne by done. }
  eapply wp_update; [exact Heq|]. wsteps.
  set (h3 := <[x := set_prev None (set_next None e)]> h2).
  set (s' := shard_remove x l1 (total_charge e) (InHighPriPool e) (InLowPriPool e)
               (shard w)).
  apply (wp_of_Some _ _ () _ (mkWorld h3 s' (trace w))).
  { unfold s', shard_remove. fold bd. destruct (InHighPriPool e), (InLowPriPool e); done. }
  assert (same_but_lru (heap w) h3) as Hsame.
  { transitivity h1; [by eapply same_but_lru_insert|].
    transitivity h2; [by eapply same_but_lru_insert|]. by eapply same_but_lru_insert. }
  apply HQ; [done|apply same_core_remove|].
  eapply (LruRep_remove (heap w)); [done..| | | | |].
  - unfold h3, h2. view_cases.
  - unfold h3, h2, h1. view_cases.
  - intros l Hl1 Hl2. unfold h3, h2, h1. view_cases.
    unfold nx. by rewrite Heq.
  - intros l Hl1 Hl2. unfold h3, h2, h1. view_cases.
    unfold pv. by rewrite Hep, Hpp.
  - intros l Hl1 Hl2. unfold h3, h2, h1. view_cases; unfold pool_flags.
    1,2: unfold InHighPriPool, InLowPriPool; cbn; by rewrite Hmp, Hep.
    by rewrite Heq.
Qed.

(** ** Balancing the pools *)

(** While the newer pool is too large its oldest handle moves to the older one. *)
Fixpoint overflow (c : loc -> Z) (cap : double) (older newer : list loc)
    : list loc * list loc :=
  match newer with
  | [] => (older, [])
  | x :: rest =>
      if dgt (double_of_Z (u64 (sumf c newer))) cap
      then overflow c cap (older ++ [x]) rest
      else (older, newer)
  end.

Definition balance (c : loc -> Z) (hcap lcap : double) (p : Pools) : Pools :=
  let '(low1, high1) := overflow c hcap (low p) (high p) in
  let '(bot2, low2) := overflow c lcap (bot p) low1 in
  mkPools bot2 low2 high1.

Lemma overflow_app c cap older newer :
  forall o n, overflow c cap older newer = (o, n) -> o ++ n = older ++ newer.
Proof.
  revert older. induction newer as [|x newer IH]; intros older o n; cbn [overflow].
  - intros [= <- <-]. done.
  - case_if; [|by intros [= <- <-]]. intros H. apply IH in H. by rewrite H, <- app_assoc.
Qed.

Lemma order_balance c hcap lcap p : order (balance c hcap lcap p) = order p.
Proof.
  unfold balance. destruct (overflow _ hcap _ _) as [low1 high1] eqn:E1.
  destruct (overflow _ lcap _ _) as [bot2 low2] eqn:E2. unfold order. cbn.
  apply overflow_app in E1, E2. by rewrite app_assoc, E2, <- app_assoc, E1.
Qed.

Lemma overflow_ext c c' cap older newer :
  (forall l, l ∈ newer -> c' l = c l) ->
  overflow c' cap older newer = overflow c cap older newer.
Proof.
  revert older. induction newer as [|x newer IH]; intros older Hc; [done|].
  cbn [overflow]. rewrite (sumf_ext c c' (x :: newer)) by done.
  rewrite IH by set_solver. done.
Qed.

Lemma balance_ext c c' hcap lcap p :
  (forall l, l ∈ order p -> c' l = c l) -> balance c' hcap lcap p = balance c hcap lcap p.
Proof.
  intros Hc. unfold balance, order in *.
  rewrite (overflow_ext c c' hcap) by (intros; apply Hc; set_solver).
  destruct (overflow c hcap _ _) as [low1 high1] eqn:E.
  apply overflow_app in E. rewrite (overflow_ext c c' lcap); [done|].
  intros l Hl. apply Hc. rewrite <- E. set_solver.
Qed.

(** After balancing, a pool is empty or within its capacity. *)
Lemma overflow_fits c cap older newer :
  dnonneg cap = true ->
  dgt (double_of_Z (u64 (sumf c (snd (overflow c cap older newer))))) cap = false.
Proof.
  intros Hc. revert older. induction newer as [|x newer IH]; intros older; cbn [overflow].
  - by apply dgt_zero_nonneg.
  - case_if; auto.
Qed.

(** Moving the oldest handle of a pool: only its flags and the usages change. *)
Lemma dseg_flags h x e hi lo a xs b :
  h !! x = Some e -> dseg h a xs b -> dseg (<[x := SetPool hi lo e]> h) a xs b.
Proof.
  intros He. apply dseg_frame; intros l _; view_cases; unfold nx, pv; by rewrite He.
Qed.

Lemma same_but_lru_SetPool h x e hi lo :
  h !! x = Some e -> same_but_lru h (<[x := SetPool hi lo e]> h).
Proof. intros. eapply same_but_lru_insert; [done|]. apply strip_lru_SetPool. Qed.

Lemma lr_flags_SetPool h s p x e hi lo p' :
  LruLinks h s p -> order p' = order p -> h !! x = Some e ->
  hi = bool_decide (x ∈ high p') -> lo = bool_decide (x ∈ low p') ->
  (forall l, l <> x -> (l ∈ high p' <-> l ∈ high p) /\ (l ∈ low p' <-> l ∈ low p)) ->
  forall l, l ∈ order p' -> pool_flags (<[x := SetPool hi lo e]> h) l =
    Some (bool_decide (l ∈ high p'), bool_decide (l ∈ low p')).
Proof.
  intros R Ho He -> -> Hne l Hl. rewrite pool_flags_insert.
  destruct (decide (x = l)) as [<-|Hxl].
  - by rewrite SetPool_high, SetPool_low.
  - rewrite (lr_flags _ _ _ R) by (by rewrite <- Ho). destruct (Hne l) as [H1 H2]; [done|].
    f_equal. f_equal; apply bool_decide_ext; naive_solver.
Qed.

Lemma u64_add a b : u64 (u64 a + b) = u64 (a + b).
Proof. apply wrap_add_l. Qed.

Lemma chg_Some h x e : h !! x = Some e -> chg h x = total_charge e.
Proof. unfold chg. by intros ->. Qed.

Lemma same_core_fields s s' :
  same_core s s' ->
  metadata_charge_policy_ s' = metadata_charge_policy_ s /\ capacity_ s' = capacity_ s /\
  strict_capacity_limit_ s' = strict_capacity_limit_ s /\
  high_pri_pool_ratio_ s' = high_pri_pool_ratio_ s /\
  high_pri_pool_capacity_ s' = high_pri_pool_capacity_ s /\
  low_pri_pool_ratio_ s' = low_pri_pool_ratio_ s /\
  low_pri_pool_capacity_ s' = low_pri_pool_capacity_ s /\
  table_ s' = table_ s /\ usage_ s' = usage_ s.
Proof. unfold same_core, strip_shard. intros [=]. done. Qed.

Lemma sumc_nil_double h : double_of_Z (u64 (sumc h [])) = d0.
Proof. done. Qed.

Lemma Maintain_high_spec hs : forall fuel w p Q,
  high p = hs -> LruLinks (heap w) (shard w) p ->
  dnonneg (high_pri_pool_capacity_ (shard w)) = true -> (length hs < fuel)%nat ->
  (forall h' s' low1 high1,
     overflow (chg (heap w)) (high_pri_pool_capacity_ (shard w)) (low p) (high p) =
       (low1, high1) ->
     same_but_lru (heap w) h' -> same_core (shard w) s' ->
     lru_usage_ s' = lru_usage_ (shard w) ->
     LruLinks h' s' (mkPools (bot p) low1 high1) -> Q () (mkWorld h' s' (trace w))) ->
  wp (Maintain_high fuel) Q w.
Proof.
  induction hs as [|x hs IH]; intros fuel w p Q Hh R Hc Hf HQ;
    (destruct fuel as [|fuel]; [lia|]); cbn [Maintain_high]; wsteps;
    rewrite (lr_high_usage _ _ _ R), Hh.
  - rewrite sumc_nil_double, (dgt_zero_nonneg (high_pri_pool_capacity_ (shard w))) by done. wstep.
    destruct w as [h s tr]. rewrite Hh in HQ. eapply HQ; try done.
    destruct p. cbn in Hh. by subst.
  - rewrite Hh in HQ. cbn [overflow] in HQ. change (sumc (heap w)) with (sumf (chg (heap w))).
    case_if; cycle 1.
    { wstep. destruct w as [h s tr]. eapply HQ; try done. by destruct p; cbn in *; subst. }
    pose proof (lr_seg _ _ _ R) as Hs. unfold order in Hs. rewrite app_assoc, Hh in Hs.
    destruct (dseg_border _ _ _ _ _ Hs) as [Hn _]. cbn in Hn.
    rewrite (lr_low _ _ _ R). unfold nx in Hn.
    destruct (heap w !! lst lru_ (bot p ++ low p)) as [el|] eqn:Hel; [|done]. cbn in Hn.
    assert (x ∈ order p) as Hx by (unfold order; rewrite Hh; set_solver).
    destruct (rep_heap R x) as [e He]; [set_solver|].
    wsteps. rewrite Hn. unfold hd_or. cbn [head default]. wsteps.
    set (h1 := <[x := _]> (heap w)). set (s1 := set_pool_usage _ _ _).
    pose proof (lr_nodup _ _ _ R) as [_ Hnd]%NoDup_cons. unfold order in Hnd. rewrite Hh in Hnd.
    apply NoDup_app in Hnd as (_ & Hnb & (_ & Hnl & [Hnx _]%NoDup_cons)%NoDup_app).
    set (p1 := mkPools (bot p) (low p ++ [x]) hs).
    assert (order p1 = order p) as Ho.
    { unfold order, p1. cbn. by rewrite Hh, <- app_assoc. }
    assert (same_but_lru (heap w) h1) as Hsame by (by apply (same_but_lru_SetPool _ x e)).
    assert (LruLinks h1 s1 p1) as R1.
    { split.
      - rewrite Ho. by apply dseg_flags, R.
      - rewrite Ho. by destruct R.
      - by destruct R.
      - change (Some x = Some (lst lru_ (bot p ++ low p ++ [x]))).
        by rewrite app_assoc, lst_snoc.
      - eapply lr_flags_SetPool; eauto; cbn.
        + by rewrite bool_decide_false.
        + rewrite bool_decide_true; [done|set_solver].
        + intros l Hl. rewrite Hh. set_solver.
      - change (u64 (u64 (sumc (heap w) (x :: hs)) - total_charge e) = u64 (sumc h1 hs)).
        rewrite u64_sub, (same_but_lru_sumc _ _ _ Hsame).
        rewrite sumc_cons, (chg_Some _ _ _ He). f_equal. lia.
      - change (u64 (low_pri_pool_usage_ (shard w) + total_charge e) =
                u64 (sumc h1 (low p ++ [x]))).
        rewrite (lr_low_usage _ _ _ R), u64_add, (same_but_lru_sumc _ _ _ Hsame).
        rewrite sumc_app, sumc_cons, (chg_Some _ _ _ He). f_equal. cbn. lia. }
    eapply (IH _ (mkWorld h1 s1 (trace w)) p1); cbn [heap shard trace]; try done.
    { cbn in Hf. lia. }
    intros h' s' low1 high1 Hov Hs' Hcore Hu R'. apply (HQ _ _ low1 high1); try done.
    + rewrite <- Hov. symmetry. apply overflow_ext. intros. by apply same_but_lru_chg.
    + by etransitivity.
Qed.

Lemma Maintain_low_spec ls : forall fuel w p Q,
  low p = ls -> LruLinks (heap w) (shard w) p ->
  dnonneg (low_pri_pool_capacity_ (shard w)) = true -> (length ls < fuel)%nat ->
  (forall h' s' bot1 low1,
     overflow (chg (heap w)) (low_pri_pool_capacity_ (shard w)) (bot p) (low p) =
       (bot1, low1) ->
     same_but_lru (heap w) h' -> same_core (shard w) s' ->
     lru_usage_ s' = lru_usage_ (shard w) ->
     LruLinks h' s' (mkPools bot1 low1 (high p)) -> Q () (mkWorld h' s' (trace w))) ->
  wp (Maintain_low fuel) Q w.
Proof.
  induction ls as [|x ls IH]; intros fuel w p Q Hh R Hc Hf HQ;
    (destruct fuel as [|fuel]; [lia|]); cbn [Maintain_low]; wsteps;
    rewrite (lr_low_usage _ _ _ R), Hh.
  - rewrite sumc_nil_double, (dgt_zero_nonneg (low_pri_pool_capacity_ (shard w))) by done. wstep.
    destruct w as [h s tr]. rewrite Hh in HQ. eapply HQ; try done.
    destruct p. cbn in Hh. by subst.
  - rewrite Hh in HQ. cbn [overflow] in HQ. change (sumc (heap w)) with (sumf (chg (heap w))).
    case_if; cycle 1.
    { wstep. destruct w as [h s tr]. eapply HQ; try done. by destruct p; cbn in *; subst. }
    pose proof (lr_seg _ _ _ R) as Hs. unfold order in Hs. rewrite Hh in Hs.
    destruct (dseg_border _ _ _ _ _ Hs) as [Hn _]. cbn in Hn.
    rewrite (lr_bottom _ _ _ R). unfold nx in Hn.
    destruct (heap w !! lst lru_ (bot p)) as [el|] eqn:Hel; [|done]. cbn in Hn.
    assert (x ∈ order p) as Hx by (unfold order; rewrite Hh; set_solver).
    destruct (rep_heap R x) as [e He]; [set_solver|].
    wsteps. rewrite Hn. unfold hd_or. cbn [head default]. wsteps.
    set (h1 := <[x := _]> (heap w)). set (s1 := set_pool_usage _ _ _).
    pose proof (lr_nodup _ _ _ R) as [_ Hnd]%NoDup_cons. unfold order in Hnd. rewrite Hh in Hnd.
    apply NoDup_app in Hnd as (_ & Hnb & [Hnx _]%NoDup_cons).
    set (p1 := mkPools (bot p ++ [x]) ls (high p)).
    assert (order p1 = order p) as Ho.
    { unfold order, p1. cbn. by rewrite Hh, <- app_assoc. }
    assert (same_but_lru (heap w) h1) as Hsame by (by apply (same_but_lru_SetPool _ x e)).
    assert (LruLinks h1 s1 p1) as R1.
    { split.
      - rewrite Ho. by apply dseg_flags, R.
      - rewrite Ho. by destruct R.
      - change (Some x = Some (lst lru_ (bot p ++ [x]))). by rewrite lst_snoc.
      - change (lru_low_pri_ (shard w) = Some (lst lru_ ((bot p ++ [x]) ++ ls))).
        by rewrite (lr_low _ _ _ R), Hh, <- app_assoc.
      - eapply lr_flags_SetPool; eauto; cbn.
        + rewrite bool_decide_false; [done|set_solver].
        + rewrite bool_decide_false; [done|set_solver].
        + intros l Hl. rewrite Hh. set_solver.
      - change (high_pri_pool_usage_ (shard w) = u64 (sumc h1 (high p))).
        by rewrite (lr_high_usage _ _ _ R), (same_but_lru_sumc _ _ _ Hsame).
      - change (u64 (u64 (sumc (heap w) (x :: ls)) - total_charge e) = u64 (sumc h1 ls)).
        rewrite u64_sub, (same_but_lru_sumc _ _ _ Hsame).
        rewrite sumc_cons, (chg_Some _ _ _ He). f_equal. lia. }
    eapply (IH _ (mkWorld h1 s1 (trace w)) p1); cbn [heap shard trace]; try done.
    { cbn in Hf. lia. }
    intros h' s' bot1 low1 Hov Hs' Hcore Hu R'. apply (HQ _ _ bot1 low1); try done.
    + rewrite <- Hov. symmetry. apply overflow_ext. intros. by apply same_but_lru_chg.
    + by etransitivity.
Qed.

(** The capacities of the pools are not negative. *)
Definition caps_ok (s : LRUCacheShard) : Prop :=
  dnonneg (high_pri_pool_capacity_ s) = true /\ dnonneg (low_pri_pool_capacity_ s) = true.

Lemma MaintainPoolSize_spec w p Q :
  LruLinks (heap w) (shard w) p -> caps_ok (shard w) ->
  (forall h' s', same_but_lru (heap w) h' -> same_core (shard w) s' ->
     lru_usage_ s' = lru_usage_ (shard w) ->
     LruLinks h' s' (balance (chg (heap w)) (high_pri_pool_capacity_ (shard w))
                       (low_pri_pool_capacity_ (shard w)) p) ->
     Q () (mkWorld h' s' (trace w))) ->
  wp MaintainPoolSize Q w.
Proof.
  intros R [Hh Hl] HQ. pose proof (rep_order_le R) as Hlen. unfold order in Hlen.
  rewrite !length_app in Hlen. unfold MaintainPoolSize. wsteps.
  eapply Maintain_high_spec; [done|done|done|lia|].
  intros h1 s1 low1 high1 Hov Hs1 Hc1 Hu1 R1.
  pose proof (same_core_fields _ _ Hc1) as (_ & _ & _ & _ & _ & _ & Hlc & _).
  eapply (Maintain_low_spec low1 _ _ (mkPools (bot p) low1 high1)); cbn [heap shard low];
    [done|exact R1|by rewrite Hlc| |].
  { pose proof (overflow_app _ _ _ _ _ _ Hov) as Ha%(f_equal length).
    rewrite !length_app in Ha. lia. }
  intros h2 s2 bot2 low2 Hov2 Hs2 Hc2 Hu2 R2. cbn in *.
  apply HQ; [by etransitivity|by etransitivity|congruence|].
  unfold balance. rewrite Hov. rewrite Hlc in Hov2.
  erewrite overflow_ext in Hov2; [by rewrite Hov2|].
  intros. by apply same_but_lru_chg.
Qed.

(** ** Inserting a handle *)

Lemma link_between_spec w p x e l1 l2 Q :
  LruLinks (heap w) (shard w) p -> order p = l1 ++ l2 -> x ∉ lru_ :: order p ->
  heap w !! x = Some e ->
  (forall h' e', same_but_lru (heap w) h' -> h' !! x = Some e' ->
     dseg h' lru_ (l1 ++ x :: l2) lru_ ->
     (forall l, l <> x -> pool_flags h' l = pool_flags (heap w) l) ->
     Q () (set_heap h' w)) ->
  wp (link_between x (Some (lst lru_ l1)) (Some (hd_or lru_ l2))) Q w.
Proof.
  intros R Ho Hx He HQ. pose proof (lr_nodup _ _ _ R) as Hnd. rewrite Ho in Hnd, Hx.
  pose proof (lst_in lru_ l1) as Hl. pose proof (hd_or_in lru_ l2) as Hr.
  assert (lst lru_ l1 <> x /\ hd_or lru_ l2 <> x) as [Hlx Hrx] by set_solver.
  destruct (rep_heap R (lst lru_ l1)) as [ep Hep]; [rewrite Ho; set_solver|].
  destruct (rep_heap R (hd_or lru_ l2)) as [eq Heq]; [rewrite Ho; set_solver|].
  unfold link_between. wstep. eapply wp_update; [exact He|].
  set (e1 := set_prev _ _). set (h1 := <[x := e1]> (heap w)).
  assert (h1 !! lst lru_ l1 = Some ep) as Hep1 by (unfold h1; by simplify_map_eq).
  wstep. eapply wp_update; [exact Hep1|]. cbn [heap set_heap].
  set (h2 := <[lst lru_ l1 := set_next (Some x) ep]> h1).
  assert (exists eq', h2 !! hd_or lru_ l2 = Some eq' /\ strip_lru eq' = strip_lru eq /\
    m_flags eq' = m_flags eq /\ next eq' = if decide (lst lru_ l1 = hd_or lru_ l2)
      then Some x else next eq) as (eq' & Heq' & Hsq & Hmq & Hnq).
  { unfold h2, h1. case_decide as Hd.
    - rewrite Hd in *. simplify_eq. rewrite lookup_insert_eq. eauto.
    - rewrite !lookup_insert_ne by done. eauto. }
  eapply wp_update; [exact Heq'|]. cbn [heap set_heap].
  set (h3 := <[hd_or lru_ l2 := _]> h2).
  apply (HQ h3 e1).
  - transitivity h1; [by eapply same_but_lru_insert|].
    transitivity h2; [by eapply same_but_lru_insert|]. by eapply same_but_lru_insert.
  - unfold h3, h2, h1. by simplify_map_eq.
  - apply (dseg_insert (heap w)).
    + rewrite <- Ho. by destruct R.
    + done.
    + pose proof (rep_NoDup_circ R) as Hc. rewrite Ho in Hc. by rewrite <- app_assoc in Hc.
    + unfold h3, h2, h1. view_cases.
    + unfold h3, h2, h1. view_cases.
    + unfold h3, h2, h1. view_cases.
    + unfold h3, h2, h1. view_cases.
    + intros l Hl1 Hl2. unfold h3, h2, h1. view_cases.
      all: first [unfold nx; by rewrite Heq, Hnq|set_solver].
    + intros l Hl1 Hl2. unfold h3, h2, h1. view_cases.
      all: first [unfold pv; by rewrite Hep|set_solver].
  - intros l Hl'. unfold h3, h2, h1. view_cases; unfold pool_flags.
    all: first [by rewrite Hep
               |unfold InHighPriPool, InLowPriPool; cbn; by rewrite Hmq, Heq].
Qed.

(** The pool a handle is put in. *)
Inductive PoolKind : Set := PHigh | PLow | PBottom.

#[global] Instance PoolKind_eq_dec : EqDecision PoolKind.
Proof. solve_decision. Defined.

Definition pool_kind (high_ratio low_ratio : double) (is_high is_low hit : bool)
    : PoolKind :=
  if dgt high_ratio d0 && (is_high || hit) then PHigh
  else if dgt low_ratio d0 && (is_high || is_low || hit) then PLow
  else PBottom.

Definition pools_add (k : PoolKind) (x : loc) (p : Pools) : Pools :=
  match k with
  | PHigh => mkPools (bot p) (low p) (high p ++ [x])
  | PLow => mkPools (bot p) (low p ++ [x]) (high p)
  | PBottom => mkPools (bot p ++ [x]) (low p) (high p)
  end.

(** The newest handle of its pool; the bottom pool is never balanced. *)
Definition pools_insert (c : loc -> Z) (hcap lcap : double) (k : PoolKind) (x : loc)
    (p : Pools) : Pools :=
  match k with
  | PBottom => pools_add k x p
  | _ => balance c hcap lcap (pools_add k x p)
  end.

Lemma order_add k x p :
  exists l1 l2, order p = l1 ++ l2 /\ order (pools_add k x p) = l1 ++ x :: l2 /\
    match k with
    | PHigh => l1 = order p /\ l2 = []
    | PLow => l1 = bot p ++ low p /\ l2 = high p
    | PBottom => l1 = bot p /\ l2 = low p ++ high p
    end.
Proof.
  unfold order. destruct k; cbn.
  - eexists _, []. split; [by rewrite app_nil_r|]. by rewrite <- !app_assoc.
  - exists (bot p ++ low p), (high p). by rewrite <- !app_assoc.
  - exists (bot p), (low p ++ high p). by rewrite <- !app_assoc.
Qed.

Lemma order_insert_perm c hcap lcap k x p :
  Permutation (order (pools_insert c hcap lcap k x p)) (x :: order p).
Proof.
  assert (order (pools_insert c hcap lcap k x p) = order (pools_add k x p)) as ->
    by (destruct k; cbn; rewrite ?order_balance; done).
  destruct (order_add k x p) as (l1 & l2 & -> & -> & _). by rewrite Permutation_middle.
Qed.

Lemma pools_insert_ext c c' hcap lcap k x p :
  (forall l, l ∈ x :: order p -> c' l = c l) ->
  pools_insert c' hcap lcap k x p = pools_insert c hcap lcap k x p.
Proof.
  intros Hc. unfold pools_insert. destruct k; [| |done]; apply balance_ext;
    intros l Hl; apply Hc.
  - destruct (order_add PHigh x p) as (l1 & l2 & Ho & Ho' & _). rewrite Ho' in Hl.
    rewrite Ho. set_solver.
  - destruct (order_add PLow x p) as (l1 & l2 & Ho & Ho' & _). rewrite Ho' in Hl.
    rewrite Ho. set_solver.
Qed.

Lemma sumc_perm h xs ys : Permutation xs ys -> sumc h xs = sumc h ys.
Proof.
  induction 1 as [|x xs ys _ IH|x y xs|xs ys zs _ IH1 _ IH2]; rewrite ?sumc_cons; [done|..];
    lia.
Qed.

Lemma sumc_snoc h xs x : sumc h (xs ++ [x]) = sumc h xs + chg h x.
Proof. rewrite sumc_app, sumc_cons. cbn. lia. Qed.

(** The links and flags after [x] was linked in and its flags were set. *)
Lemma LruLinks_add h h1 s s2 p k x e1 :
  LruLinks h s p -> x ∉ lru_ :: order p -> same_but_lru h h1 -> h1 !! x = Some e1 ->
  dseg h1 lru_ (order (pools_add k x p)) lru_ ->
  (forall l, l <> x -> pool_flags h1 l = pool_flags h l) ->
  lru_bottom_pri_ s2 = Some (lst lru_ (bot (pools_add k x p))) ->
  lru_low_pri_ s2 = Some (lst lru_ (bot (pools_add k x p) ++ low (pools_add k x p))) ->
  high_pri_pool_usage_ s2 = u64 (sumc h (high (pools_add k x p))) ->
  low_pri_pool_usage_ s2 = u64 (sumc h (low (pools_add k x p))) ->
  LruLinks (<[x := SetPool (bool_decide (k = PHigh)) (bool_decide (k = PLow)) e1]> h1) s2
    (pools_add k x p).
Proof.
  intros R Hx Hs He Hd Hfl Hb Hl Hhu Hlu.
  assert (same_but_lru h (<[x := SetPool (bool_decide (k = PHigh))
    (bool_decide (k = PLow)) e1]> h1)) as Hs2
    by (etransitivity; [done|by apply same_but_lru_SetPool]).
  split; try done.
  - by apply dseg_flags.
  - destruct (order_add k x p) as (l1 & l2 & Ho & -> & _).
    pose proof (lr_nodup _ _ _ R) as Hnd. rewrite Ho in *.
    rewrite <- Permutation_middle. apply NoDup_cons in Hnd as [? ?].
    apply NoDup_cons. split; [set_solver|]. apply NoDup_cons. split; [set_solver|done].
  - intros l Hl'. rewrite pool_flags_insert. destruct (decide (x = l)) as [<-|Hne].
    + rewrite SetPool_high, SetPool_low. unfold order in Hx.
      f_equal. f_equal; apply bool_decide_ext; destruct k; cbn; set_solver.
    + rewrite Hfl by done. rewrite (lr_flags _ _ _ R).
      * f_equal. f_equal; apply bool_decide_ext; destruct k; cbn; set_solver.
      * destruct (order_add k x p) as (l1 & l2 & Ho & Ho' & _). rewrite Ho' in Hl'.
        rewrite Ho. set_solver.
  - by rewrite (same_but_lru_sumc _ _ _ Hs2).
  - by rewrite (same_but_lru_sumc _ _ _ Hs2).
Qed.

Section Insert.
Context {w : World} {p : Pools} {x : loc} {e : LRUHandle}.
Context (R : LruLinks (heap w) (shard w) p) (Hcaps : caps_ok (shard w)).
Context (Hx : x ∉ lru_ :: order p) (He : heap w !! x = Some e).

(** What a branch of [LRU_Insert] leaves. *)
Let inserted (k : PoolKind) (Q : unit -> World -> Prop) : Prop :=
  forall h' s', same_but_lru (heap w) h' -> same_core (shard w) s' ->
    lru_usage_ s' = lru_usage_ (shard w) ->
    LruLinks h' s' (pools_insert (chg (heap w)) (high_pri_pool_capacity_ (shard w))
       (low_pri_pool_capacity_ (shard w)) k x p) ->
    Q () (mkWorld h' s' (trace w)).

Lemma LRU_Insert_high_spec Q :
  inserted PHigh Q -> wp (LRU_Insert_high x (total_charge e)) Q w.
Proof.
  intros HQ. unfold LRU_Insert_high. wsteps.
  destruct (rep_heap R lru_) as [ed Hed]; [set_solver|]. wsteps.
  pose proof (lr_seg _ _ _ R) as Hs. rewrite <- (app_nil_r (order p)) in Hs.
  destruct (dseg_border _ _ _ _ _ Hs) as [_ Hp]. unfold pv, hd_or in Hp. cbn in Hp.
  rewrite Hed in Hp. cbn in Hp. rewrite Hp. change (Some lru_) with (Some (hd_or lru_ [])).
  eapply link_between_spec; [done|by rewrite app_nil_r|done..|].
  intros h1 e1 Hs1 He1 Hd1 Hf1. wsteps.
  set (h2 := <[x := _]> h1). set (s2 := set_pool_usage _ _ _).
  assert (LruLinks h2 s2 (pools_add PHigh x p)) as R2.
  { apply (LruLinks_add (heap w) h1 (shard w) s2 p PHigh x e1); try done.
    - unfold order. cbn. unfold order in Hd1. by rewrite <- !app_assoc in *.
    - by destruct R.
    - by destruct R.
    - change (u64 (high_pri_pool_usage_ (shard w) + total_charge e) =
              u64 (sumc (heap w) (high p ++ [x]))).
      by rewrite (lr_high_usage _ _ _ R), u64_add, sumc_snoc, (chg_Some _ _ _ He).
    - by destruct R. }
  assert (same_but_lru (heap w) h2) as Hs2
    by (etransitivity; [done|by apply (same_but_lru_SetPool _ x e1)]).
  eapply (MaintainPoolSize_spec (mkWorld h2 s2 (trace w))); [done|done|].
  intros h' s' Hs' Hc' Hu' R'. apply HQ; [by etransitivity|done|done|].
  cbn [pools_insert]. erewrite <- balance_ext; [exact R'|].
  intros. by apply same_but_lru_chg.
Qed.

Lemma LRU_Insert_low_spec Q :
  inserted PLow Q -> wp (LRU_Insert_low x (total_charge e)) Q w.
Proof.
  intros HQ. unfold LRU_Insert_low. wsteps. rewrite (lr_low _ _ _ R).
  pose proof (lr_seg _ _ _ R) as Hs. unfold order in Hs. rewrite app_assoc in Hs.
  destruct (dseg_border _ _ _ _ _ Hs) as [Hn _]. unfold nx in Hn.
  destruct (heap w !! lst lru_ (bot p ++ low p)) as [el|] eqn:Hel; [|done]. cbn in Hn.
  wsteps. rewrite Hn.
  eapply link_between_spec; [done|by unfold order; rewrite app_assoc|done..|].
  intros h1 e1 Hs1 He1 Hd1 Hf1. wsteps.
  set (h2 := <[x := _]> h1). set (s2 := set_lru_low_pri _ _).
  assert (LruLinks h2 s2 (pools_add PLow x p)) as R2.
  { apply (LruLinks_add (heap w) h1 (shard w) s2 p PLow x e1); try done.
    - unfold order. cbn. by rewrite <- !app_assoc in *.
    - by destruct R.
    - change (Some x = Some (lst lru_ (bot p ++ low p ++ [x]))).
      by rewrite app_assoc, lst_snoc.
    - by destruct R.
    - change (u64 (low_pri_pool_usage_ (shard w) + total_charge e) =
              u64 (sumc (heap w) (low p ++ [x]))).
      by rewrite (lr_low_usage _ _ _ R), u64_add, sumc_snoc, (chg_Some _ _ _ He). }
  assert (same_but_lru (heap w) h2) as Hs2
    by (etransitivity; [done|by apply (same_but_lru_SetPool _ x e1)]).
  eapply (MaintainPoolSize_spec (mkWorld h2 s2 (trace w))); [done|done|].
  intros h' s' Hs' Hc' Hu' R'. apply HQ; [by etransitivity|done|done|].
  cbn [pools_insert]. erewrite <- balance_ext; [exact R'|].
  intros. by apply same_but_lru_chg.
Qed.

Lemma LRU_Insert_bottom_spec Q : inserted PBottom Q -> wp (LRU_Insert_bottom x) Q w.
Proof.
  intros HQ. unfold LRU_Insert_bottom. wsteps. rewrite (lr_bottom _ _ _ R).
  pose proof (lr_seg _ _ _ R) as Hs. unfold order in Hs.
  destruct (dseg_border _ _ _ _ _ Hs) as [Hn _]. unfold nx in Hn.
  destruct (heap w !! lst lru_ (bot p)) as [el|] eqn:Hel; [|done]. cbn in Hn.
  wsteps. rewrite Hn. eapply link_between_spec; [done..|].
  intros h1 e1 Hs1 He1 Hd1 Hf1. wsteps. rewrite (lr_low _ _ _ R).
  set (h2 := <[x := _]> h1).
  set (s1 := set_lru_low_pri (if bool_decide (low p = []) then Some x
                              else lru_low_pri_ (shard w)) (shard w)).
  apply (wp_of_Some _ _ () _ (mkWorld h2 s1 (trace w))).
  { pose proof (lr_nodup _ _ _ R) as Hnd. unfold order in Hnd.
    assert (bool_decide (Some (lst lru_ (bot p)) = Some (lst lru_ (bot p ++ low p))) =
            bool_decide (low p = [])) as ->.
    { apply bool_decide_ext. destruct (low p) as [|y l].
      - by rewrite app_nil_r.
      - split; [|done]. rewrite lst_app_cons. intros [= Heq]. exfalso.
        pose proof (lst_in lru_ (bot p)) as H1. pose proof (lst_in y l) as H2.
        rewrite Heq in H1.
        apply NoDup_cons in Hnd as [Hd1' (_ & Hd2 & _)%NoDup_app].
        apply elem_of_cons in H1 as [H1|H1]; [rewrite H1 in H2; set_solver|].
        apply (Hd2 _ H1). set_solver. }
    unfold s1. case_bool_decide; [done|]. rewrite set_lru_low_pri_id.
    by destruct w. }
  wsteps. apply HQ.
  - etransitivity; [done|by apply (same_but_lru_SetPool _ x e1)].
  - done.
  - done.
  - apply (LruLinks_add (heap w) h1 (shard w) _ p PBottom x e1); try done.
    + unfold order. cbn. by rewrite <- !app_assoc in *.
    + change (Some x = Some (lst lru_ (bot p ++ [x]))). by rewrite lst_snoc.
    + unfold s1. change (lru_low_pri_ (set_lru_low_pri
        (if bool_decide (low p = []) then Some x else lru_low_pri_ (shard w)) (shard w))
        = Some (lst lru_ ((bot p ++ [x]) ++ low p))).
      cbn [lru_low_pri_ set_lru_low_pri]. rewrite (lr_low _ _ _ R).
      case_bool_decide as Hl; [by rewrite Hl, app_nil_r, lst_snoc|].
      destruct (low p); [done|]. by rewrite !lst_app_cons.
    + by destruct R.
    + by destruct R.
Qed.

End Insert.

Lemma LRU_Insert_spec w p x e Q :
  LruRep (heap w) (shard w) p -> caps_ok (shard w) -> x ∉ lru_ :: order p ->
  heap w !! x = Some e ->
  (forall h' s', same_but_lru (heap w) h' -> same_core (shard w) s' ->
     LruRep h' s' (pools_insert (chg (heap w)) (high_pri_pool_capacity_ (shard w))
       (low_pri_pool_capacity_ (shard w))
       (pool_kind (high_pri_pool_ratio_ (shard w)) (low_pri_pool_ratio_ (shard w))
          (IsHighPri e) (IsLowPri e) (HasHit e)) x p) ->
     Q () (mkWorld h' s' (trace w))) ->
  wp (LRU_Insert x) Q w.
Proof.
  intros R Hcaps Hx He HQ. unfold LRU_Insert. wsteps.
  set (k := pool_kind _ _ _ _ _) in HQ.
  eapply (wp_mono _ (fun _ w' => exists h' s', w' = mkWorld h' s' (trace w) /\
    same_but_lru (heap w) h' /\ same_core (shard w) s' /\
    lru_usage_ s' = lru_usage_ (shard w) /\
    LruLinks h' s' (pools_insert (chg (heap w)) (high_pri_pool_capacity_ (shard w))
       (low_pri_pool_capacity_ (shard w)) k x p))).
  { unfold k, pool_kind. case_if.
    - apply (LRU_Insert_high_spec R Hcaps Hx He). intros h' s' ????. eauto 10.
    - case_if.
      + apply (LRU_Insert_low_spec R Hcaps Hx He). intros h' s' ????. eauto 10.
      + apply (LRU_Insert_bottom_spec R Hcaps Hx He). intros h' s' ????. eauto 10. }
  intros [] w' (h' & s' & -> & Hs & Hc & Hu & R'). wsteps. apply HQ; [done|done|].
  split.
  - destruct R' as [????? ??]. by split.
  - cbn [lru_usage_ set_lru_usage]. rewrite Hu, (lr_usage _ _ _ R), u64_add.
    rewrite (same_but_lru_sumc _ _ _ Hs), (sumc_perm _ _ _ (order_insert_perm _ _ _ _ _ _)).
    rewrite sumc_cons, (chg_Some _ _ _ He). f_equal. lia.
Qed.
