(* ===== verification/LruSpec.v ===== *)
(** * The LRU cache, abstractly

    What a shard of the cache promises: objects with reference counts, a finite map
    from keys to the objects in the cache, and three queues of the objects that may
    be evicted. There are no pointers, no hash table and no flags to keep in step.
    The operations are functions on this state; a location only names an object. *)

From S2P Require Import Prelude.
From S2P Require Import Status.
From S2P Require Import Slice.
From S2P Require Import Double.
From S2P Require Import LruState.
From S2P Require Import LruShard.
From S2P Require Import LruTableProofs.
From S2P Require Import LruList.

(** ** State *)

Record AObj : Set := mkAObj {
  o_value : ObjectPtr;
  o_helper : CacheItemHelper;
  o_charge : Z;
  o_key : Slice;
  o_hash : Z;
  o_refs : Z;
  o_in : bool;
  o_hit : bool;
  o_im : Z;
}.

Record ACfg : Set := mkACfg {
  c_policy : CacheMetadataChargePolicy;
  c_capacity : Z;
  c_strict : bool;
  c_high_ratio : double;
  c_high_cap : double;
  c_low_ratio : double;
  c_low_cap : double;
}.

Record ACache : Set := mkACache {
  a_obj : gmap loc AObj;
  a_map : KeyMap;
  a_pools : Pools;
  a_usage : Z;
  a_cfg : ACfg;
}.

Definition with_obj o A := mkACache o (a_map A) (a_pools A) (a_usage A) (a_cfg A).
Definition with_map m A := mkACache (a_obj A) m (a_pools A) (a_usage A) (a_cfg A).
Definition with_pools p A := mkACache (a_obj A) (a_map A) p (a_usage A) (a_cfg A).
Definition with_usage u A := mkACache (a_obj A) (a_map A) (a_pools A) u (a_cfg A).
Definition with_cfg c A := mkACache (a_obj A) (a_map A) (a_pools A) (a_usage A) c.

Definition set_o_refs r o := mkAObj (o_value o) (o_helper o) (o_charge o) (o_key o)
  (o_hash o) r (o_in o) (o_hit o) (o_im o).
Definition set_o_in b o := mkAObj (o_value o) (o_helper o) (o_charge o) (o_key o)
  (o_hash o) (o_refs o) b (o_hit o) (o_im o).
Definition set_o_hit b o := mkAObj (o_value o) (o_helper o) (o_charge o) (o_key o)
  (o_hash o) (o_refs o) (o_in o) b (o_im o).
Definition set_o_charge c o := mkAObj (o_value o) (o_helper o) c (o_key o) (o_hash o)
  (o_refs o) (o_in o) (o_hit o) (o_im o).

(** ** Operations *)

Definition a_charge (A : ACache) (l : loc) : Z :=
  match a_obj A !! l with Some o => o_charge o | None => 0 end.

Definition a_update (l : loc) (f : AObj -> AObj) (A : ACache) : ACache :=
  with_obj (alter f l (a_obj A)) A.

Definition a_unlist (l : loc) (A : ACache) : ACache :=
  with_pools (pools_remove l (a_pools A)) A.

Definition a_unmap (k : Slice * Z) (A : ACache) : ACache :=
  with_map (delete k (a_map A)) A.

(** [o] leaves the count of the usage. *)
Definition a_uncharge (c : Z) (A : ACache) : ACache :=
  with_usage (u64 (a_usage A - c)) A.

Definition a_list (l : loc) (o : AObj) (A : ACache) : ACache :=
  let c := a_cfg A in
  with_pools
    (pools_insert (a_charge A) (c_high_cap c) (c_low_cap c)
       (pool_kind (c_high_ratio c) (c_low_ratio c) (has_flag (o_im o) IM_IS_HIGH_PRI)
          (has_flag (o_im o) IM_IS_LOW_PRI) (o_hit o))
       l (a_pools A)) A.

(** [l], which is evictable, leaves the cache. *)
Definition a_evict_one (l : loc) (A : ACache) : ACache :=
  match a_obj A !! l with
  | None => A
  | Some o =>
      a_uncharge (o_charge o)
        (a_update l (set_o_in false)
           (a_unmap (o_key o, o_hash o) (a_unlist l A)))
  end.

(** Evict the oldest as long as [charge] does not fit. *)
Fixpoint a_evict_loop (xs : list loc) (charge : Z) (A : ACache) (out : list loc)
    : ACache * list loc :=
  match xs with
  | [] => (A, out)
  | x :: xs =>
      if u64 (a_usage A + charge) >? c_capacity (a_cfg A)
      then a_evict_loop xs charge (a_evict_one x A) (out ++ [x])
      else (A, out)
  end.

Definition a_evict (charge : Z) (A : ACache) (out : list loc) : ACache * list loc :=
  a_evict_loop (order (a_pools A)) charge A out.

Fixpoint a_evict_all (xs : list loc) (A : ACache) (out : list loc) : ACache * list loc :=
  match xs with
  | [] => (A, out)
  | x :: xs => a_evict_all xs (a_evict_one x A) (out ++ [x])
  end.

Definition a_erase_unref (A : ACache) : ACache * list loc :=
  a_evict_all (order (a_pools A)) A [].

Definition a_lookup (k : Slice) (h : Z) (A : ACache) : ptr * ACache :=
  match a_map A !! (k, h) with
  | None => (None, A)
  | Some l =>
      match a_obj A !! l with
      | None => (None, A)
      | Some o =>
          let A := if o_refs o >? 0 then A else a_unlist l A in
          (Some l, a_update l (fun o => set_o_hit true (set_o_refs (u32 (o_refs o + 1)) o)) A)
      end
  end.

Definition a_ref (l : loc) (A : ACache) : ACache :=
  a_update l (fun o => set_o_refs (u32 (o_refs o + 1)) o) A.

(** [l] leaves the cache by its key; it is let go when nobody refers to it. *)
Definition a_drop (l : loc) (o : AObj) (A : ACache) (out : list loc)
    : ACache * list loc :=
  let A := a_update l (set_o_in false) A in
  if o_refs o >? 0 then (A, out)
  else (a_uncharge (o_charge o) (a_unlist l A), out ++ [l]).

Definition a_erase (k : Slice) (h : Z) (A : ACache) : ACache * list loc :=
  match a_map A !! (k, h) with
  | None => (A, [])
  | Some l =>
      match a_obj A !! l with
      | None => (A, [])
      | Some o => a_drop l o (a_unmap (k, h) A) []
      end
  end.

Definition a_release (l : loc) (erase_if_last_ref : bool) (A : ACache)
    : ACache * list loc :=
  match a_obj A !! l with
  | None => (A, [])
  | Some o =>
      let r := u32 (o_refs o - 1) in
      let A := a_update l (set_o_refs r) A in
      let o := set_o_refs r o in
      if negb (r =? 0) then (A, [])
      else if o_in o then
        if (a_usage A >? c_capacity (a_cfg A)) || erase_if_last_ref then
          (a_uncharge (o_charge o)
             (a_update l (set_o_in false) (a_unmap (o_key o, o_hash o) A)), [l])
        else (a_list l o A, [])
      else (a_uncharge (o_charge o) A, [l])
  end.

(** The object [o], named [l], is put in the cache. *)
Definition a_insert (l : loc) (o : AObj) (want : bool) (A : ACache)
    : Status * ptr * (ACache * list loc) :=
  let A := with_obj (<[l := o]> (a_obj A)) A in
  let '(A, out) := a_evict (o_charge o) A [] in
  if (u64 (a_usage A + o_charge o) >? c_capacity (a_cfg A))
     && (c_strict (a_cfg A) || negb want) then
    if want then
      (MemoryLimit_msg "Insert failed due to LRU cache being full.", None,
       (with_obj (delete l (a_obj A)) A, out))
    else (Status_OK, None, (a_update l (set_o_in false) A, out ++ [l]))
  else
    let old := a_map A !! (o_key o, o_hash o) in
    let A := with_map (<[(o_key o, o_hash o) := l]> (a_map A)) A in
    let A := with_usage (u64 (a_usage A + o_charge o)) A in
    let '(st, (A, out)) :=
      match old with
      | None => (Status_OK, (A, out))
      | Some l' =>
          match a_obj A !! l' with
          | None => (Status_OK, (A, out))
          | Some o' => (OkOverwritten, a_drop l' o' A out)
          end
      end in
    if want then (st, Some l, (a_ref l A, out))
    else (st, None, (a_list l o A, out)).

Definition a_standalone (l : loc) (o : AObj) (allow_uncharged : bool) (A : ACache)
    : ptr * (ACache * list loc) :=
  let A := with_obj (<[l := o]> (a_obj A)) A in
  let '(A, out) := a_evict (o_charge o) A [] in
  if c_strict (a_cfg A) && (u64 (a_usage A + o_charge o) >? c_capacity (a_cfg A)) then
    if allow_uncharged then (Some l, (a_update l (set_o_charge 0) A, out))
    else (None, (with_obj (delete l (a_obj A)) A, out))
  else (Some l, (with_usage (u64 (a_usage A + o_charge o)) A, out)).

Definition a_set_capacity (capacity : Z) (A : ACache) : ACache * list loc :=
  let c := a_cfg A in
  a_evict 0
    (with_cfg (mkACfg (c_policy c) capacity (c_strict c) (c_high_ratio c)
       (pool_capacity capacity (c_high_ratio c)) (c_low_ratio c)
       (pool_capacity capacity (c_low_ratio c))) A) [].

Definition a_set_strict (b : bool) (A : ACache) : ACache :=
  let c := a_cfg A in
  with_cfg (mkACfg (c_policy c) (c_capacity c) b (c_high_ratio c) (c_high_cap c)
    (c_low_ratio c) (c_low_cap c)) A.

Definition a_balance (A : ACache) : ACache :=
  with_pools (balance (a_charge A) (c_high_cap (a_cfg A)) (c_low_cap (a_cfg A))
                (a_pools A)) A.

Definition a_set_high_ratio (r : double) (A : ACache) : ACache :=
  let c := a_cfg A in
  a_balance (with_cfg (mkACfg (c_policy c) (c_capacity c) (c_strict c) r
    (pool_capacity (c_capacity c) r) (c_low_ratio c) (c_low_cap c)) A).

Definition a_set_low_ratio (r : double) (A : ACache) : ACache :=
  let c := a_cfg A in
  a_balance (with_cfg (mkACfg (c_policy c) (c_capacity c) (c_strict c) (c_high_ratio c)
    (c_high_cap c) r (pool_capacity (c_capacity c) r)) A).

(** A new object, as [CreateHandle] makes it. *)
Definition new_obj (env : CacheEnv) (policy : CacheMetadataChargePolicy) (k : Slice)
    (h : Z) (v : ObjectPtr) (hp : CacheItemHelper) (charge refs : Z) (b : bool) (im : Z)
    : AObj :=
  let e := mkLRUHandle v hp None None None 0 k h 0 0 0 in
  mkAObj v hp (u64 (charge + CalcuMetaCharge env policy e)) k h refs b false im.
