(* ===== verification/LruRefine.v ===== *)
(** * A shard refines the abstract cache

    [Rep w A]: the memory and the shard [w] represent the abstract cache [A]. Every
    primitive of the implementation is the corresponding primitive on [A], so that
    every block under the lock computes the abstract operation. *)

From S2P Require Import Prelude.
From S2P Require Import Status.
From S2P Require Import Slice.
From S2P Require Import Double.
From S2P Require Import LruState.
From S2P Require Import LruTable.
From S2P Require Import LruShard.
From S2P Require Import LruTableProofs.
From S2P Require Import LruList.
From S2P Require Import LruSpec.

Definition obj_of (e : LRUHandle) : AObj :=
  mkAObj (value e) (helper e) (total_charge e) (key e) (hash e) (refs e) (InCache e)
    (HasHit e) (im_flags e).

Definition cfg_of (s : LRUCacheShard) : ACfg :=
  mkACfg (metadata_charge_policy_ s) (capacity_ s) (strict_capacity_limit_ s)
    (high_pri_pool_ratio_ s) (high_pri_pool_capacity_ s) (low_pri_pool_ratio_ s)
    (low_pri_pool_capacity_ s).

Record Rep (w : World) (A : ACache) : Prop := mkRep {
  rp_obj : a_obj A = obj_of <$> delete lru_ (heap w);
  rp_tab : TabRep (heap w) (table_ (shard w)) (a_map A);
  rp_lru : LruRep (heap w) (shard w) (a_pools A);
  rp_usage : usage_ (shard w) = a_usage A;
  rp_cfg : cfg_of (shard w) = a_cfg A;
}.

(** ** Views *)

Lemma rep_obj w A l e :
  Rep w A -> l <> lru_ -> heap w !! l = Some e -> a_obj A !! l = Some (obj_of e).
Proof.
  intros R Hl He. rewrite (rp_obj _ _ R), lookup_fmap, lookup_delete_ne by done.
  by rewrite He.
Qed.

Lemma rep_handle w A l o :
  Rep w A -> a_obj A !! l = Some o ->
  exists e, heap w !! l = Some e /\ obj_of e = o /\ l <> lru_.
Proof.
  intros R Ho. rewrite (rp_obj _ _ R), lookup_fmap in Ho.
  destruct (delete lru_ (heap w) !! l) as [e|] eqn:E; [|done].
  apply lookup_delete_Some in E as [? ?]. injection Ho as <-. eauto.
Qed.

Lemma obj_of_strip_nh e : obj_of (strip_nh e) = obj_of e.
Proof. done. Qed.

Lemma strip_flags_testbit m k :
  k = 0 \/ k = 1 -> Z.testbit (Z.land m (Z.lnot POOL_FLAGS)) k = Z.testbit m k.
Proof.
  intros Hk. rewrite Z.land_spec. destruct Hk as [-> | ->]; cbn; apply andb_true_r.
Qed.

Lemma obj_of_strip_lru e : obj_of (strip_lru e) = obj_of e.
Proof.
  unfold obj_of, InCache, HasHit, M_IN_CACHE, M_HAS_HIT.
  change 1 with (2 ^ 0). change 2 with (2 ^ 1) at 2 4. cbn -[has_flag].
  rewrite !has_flag_testbit by lia. cbn -[Z.testbit Z.land].
  by rewrite !strip_flags_testbit by lia.
Qed.

Lemma objs_same (f : LRUHandle -> LRUHandle) (h h' : Heap) :
  (forall e, obj_of (f e) = obj_of e) -> f <$> h' = f <$> h ->
  obj_of <$> delete lru_ h' = obj_of <$> delete lru_ h.
Proof.
  intros Hf Hs.
  assert (forall g : Heap, obj_of <$> delete lru_ g = delete lru_ (obj_of <$> (f <$> g)))
    as Hg.
  { intros g. rewrite <- map_fmap_compose, fmap_delete. f_equal.
    apply map_fmap_ext. intros. by rewrite <- Hf. }
  by rewrite !Hg, Hs.
Qed.

(** The hash table does not see the list, and the list not the hash table. *)
Lemma TabRep_frame h h' t m :
  (forall l e, h !! l = Some e -> exists e', h' !! l = Some e' /\
     next_hash e' = next_hash e /\ key e' = key e /\ hash e' = hash e) ->
  TabRep h t m -> TabRep h' t m.
Proof. intros Hf [bs R]. exists bs. eapply TabRepB_frame; eauto. Qed.

Lemma TabRep_same_lru h h' t m : same_but_lru h h' -> TabRep h t m -> TabRep h' t m.
Proof.
  intros Hs. apply TabRep_frame. intros l e He.
  destruct (same_but_lru_lookup _ _ _ _ Hs He) as (e' & He' & Heq).
  exists e'. split; [done|]. unfold strip_lru in Heq. by injection Heq.
Qed.

Lemma LruRep_frame h h' s s' p :
  (forall l e, l ∈ lru_ :: order p -> h !! l = Some e -> exists e', h' !! l = Some e' /\
     next e' = next e /\ prev e' = prev e /\
     (l ∈ order p -> InHighPriPool e' = InHighPriPool e /\
        InLowPriPool e' = InLowPriPool e /\ total_charge e' = total_charge e)) ->
  lru_bottom_pri_ s' = lru_bottom_pri_ s -> lru_low_pri_ s' = lru_low_pri_ s ->
  high_pri_pool_usage_ s' = high_pri_pool_usage_ s ->
  low_pri_pool_usage_ s' = low_pri_pool_usage_ s -> lru_usage_ s' = lru_usage_ s ->
  LruRep h s p -> LruRep h' s' p.
Proof.
  intros Hf Hb Hl Hhu Hlu Hu R.
  assert (forall l, l ∈ lru_ :: order p -> nx h' l = nx h l /\ pv h' l = pv h l) as Hv.
  { intros l Hin. destruct (rep_heap R l Hin) as [e He].
    destruct (Hf l e Hin He) as (e' & He' & Hn & Hp & _).
    unfold nx, pv. rewrite He, He'. cbn. by rewrite Hn, Hp. }
  assert (forall l, l ∈ order p -> pool_flags h' l = pool_flags h l /\ chg h' l = chg h l)
    as Hw.
  { intros l Hin. destruct (rep_heap R l) as [e He]; [set_solver|].
    destruct (Hf l e) as (e' & He' & _ & _ & Hfl); [set_solver|done|].
    destruct (Hfl Hin) as (H1 & H2 & H3). unfold pool_flags, chg.
    rewrite He, He', H3. cbn. by rewrite H1, H2. }
  assert (forall xs, (forall l, l ∈ xs -> l ∈ order p) -> sumc h' xs = sumc h xs) as Hsum.
  { intros xs Hxs. apply sumc_ext. intros l Hin. by apply Hw, Hxs. }
  pose proof R as [[Hs Hnd Hbo Hlo Hfl HHu HLu] HU].
  split; [split|]; try congruence.
  - eapply dseg_frame; [| |exact Hs]; intros l Hin; apply Hv; set_solver.
  - intros l Hin. rewrite (proj1 (Hw l Hin)). auto.
  - rewrite Hhu, HHu, Hsum; [done|]. unfold order. set_solver.
  - rewrite Hlu, HLu, Hsum; [done|]. unfold order. set_solver.
  - by rewrite Hu, HU, Hsum.
Qed.

Lemma LruRep_same_nh h h' s s' p :
  same_but_nh h h' -> lru_bottom_pri_ s' = lru_bottom_pri_ s ->
  lru_low_pri_ s' = lru_low_pri_ s -> high_pri_pool_usage_ s' = high_pri_pool_usage_ s ->
  low_pri_pool_usage_ s' = low_pri_pool_usage_ s -> lru_usage_ s' = lru_usage_ s ->
  LruRep h s p -> LruRep h' s' p.
Proof.
  intros Hs Hb Hl Hhu Hlu Hu. apply LruRep_frame; try done. intros l e _ He.
  destruct (same_but_nh_lookup _ _ _ _ Hs He) as (e' & He' & Hst).
  apply strip_nh_fields in Hst as (_ & _ & Hn & Hp & Hc & _ & _ & _ & Hm & _).
  exists e'. unfold InHighPriPool, InLowPriPool. by rewrite Hm.
Qed.

(** ** Primitives *)

Section Prims.
Context {w : World} {A : ACache} (R : Rep w A).

Lemma rep_order_obj l : l ∈ order (a_pools A) -> exists e,
  heap w !! l = Some e /\ a_obj A !! l = Some (obj_of e).
Proof.
  intros Hl. destruct (rep_heap (rp_lru _ _ R) l) as [e He]; [set_solver|].
  exists e. split; [done|]. eapply rep_obj; [done| |done].
  by eapply (rep_not_dummy (rp_lru _ _ R)).
Qed.

Lemma rep_charge l : l <> lru_ -> chg (heap w) l = a_charge A l.
Proof.
  intros Hl. unfold chg, a_charge. rewrite (rp_obj _ _ R), lookup_fmap.
  rewrite lookup_delete_ne by done. by destruct (heap w !! l).
Qed.

Lemma Rep_LRU_Remove l Q :
  l ∈ order (a_pools A) ->
  (forall w', Rep w' (a_unlist l A) -> trace w' = trace w -> Q () w') ->
  wp (LRU_Remove l) Q w.
Proof.
  intros Hl HQ. destruct (rep_order_obj l Hl) as (e & He & _).
  eapply LRU_Remove_spec; [by destruct R|done..|]. intros h' s' Hs Hc R'.
  apply HQ; [|done].
  pose proof (same_core_fields _ _ Hc) as (E1 & E2 & E3 & E4 & E5 & E6 & E7 & E8 & E9).
  pose proof R as [Ho Ht Hlr Hu Hcfg]. split; cbn; try done.
  - rewrite Ho. symmetry. by apply (objs_same strip_lru); [apply obj_of_strip_lru|].
  - rewrite E8. by eapply TabRep_same_lru.
  - congruence.
  - unfold cfg_of in *. congruence.
Qed.

Lemma Rep_LRU_Insert l e Q :
  heap w !! l = Some e -> l <> lru_ -> l ∉ order (a_pools A) -> caps_ok (shard w) ->
  (forall w', Rep w' (a_list l (obj_of e) A) -> trace w' = trace w -> Q () w') ->
  wp (LRU_Insert l) Q w.
Proof.
  intros He Hne Hl Hcaps HQ. eapply LRU_Insert_spec; [by destruct R|done|set_solver|done|].
  intros h' s' Hs Hc R'. apply HQ; [|done].
  pose proof (same_core_fields _ _ Hc) as (E1 & E2 & E3 & E4 & E5 & E6 & E7 & E8 & E9).
  pose proof R as [Ho Ht Hlr Hu Hcfg]. split; cbn; try done.
  - rewrite Ho. symmetry. by apply (objs_same strip_lru); [apply obj_of_strip_lru|].
  - rewrite E8. by eapply TabRep_same_lru.
  - rewrite <- Hcfg. cbn. erewrite pools_insert_ext; [exact R'|].
    intros x Hx. symmetry. apply rep_charge. intros ->.
    apply elem_of_cons in Hx as [Hx|Hx]; [congruence|].
    by eapply (rep_not_dummy Hlr).
  - congruence.
  - unfold cfg_of in *. congruence.
Qed.

Lemma Rep_Maintain Q :
  caps_ok (shard w) ->
  (forall w', Rep w' (a_balance A) -> trace w' = trace w -> Q () w') ->
  wp MaintainPoolSize Q w.
Proof.
  intros Hcaps HQ. eapply MaintainPoolSize_spec; [by destruct R as [_ _ []]|done|].
  intros h' s' Hs Hc Hul R'. apply HQ; [|done].
  pose proof (same_core_fields _ _ Hc) as (E1 & E2 & E3 & E4 & E5 & E6 & E7 & E8 & E9).
  pose proof R as [Ho Ht Hlr Hu Hcfg]. split; cbn; try done.
  - rewrite Ho. symmetry. by apply (objs_same strip_lru); [apply obj_of_strip_lru|].
  - rewrite E8. by eapply TabRep_same_lru.
  - rewrite <- Hcfg. cbn. split.
    + erewrite balance_ext; [exact R'|]. intros x Hx. symmetry. apply rep_charge.
      by eapply (rep_not_dummy Hlr).
    + rewrite Hul, order_balance, (lr_usage _ _ _ Hlr). f_equal.
      symmetry. by apply same_but_lru_sumc.
  - congruence.
  - unfold cfg_of in *. congruence.
Qed.

(** The fields that a hash table operation leaves alone. *)
Lemma Rep_table h' t' m' :
  same_but_nh (heap w) h' -> TabRep h' t' m' ->
  Rep (mkWorld h' (set_table t' (shard w)) (trace w)) (with_map m' A).
Proof.
  intros Hs Ht'. pose proof R as [Ho Ht Hlr Hu Hcfg]. split; cbn; try done.
  - rewrite Ho. symmetry. by apply (objs_same strip_nh).
  - by apply (LruRep_same_nh (heap w) h' (shard w)).
Qed.

Lemma Rep_Table_Remove k hv Q :
  is_uint 32 hv ->
  (forall w', Rep w' (a_unmap (k, hv) A) -> trace w' = trace w ->
     Q (a_map A !! (k, hv)) w') ->
  wp (Table_Remove k hv) Q w.
Proof.
  intros Hh HQ. eapply Table_Remove_spec; [by destruct R|done|].
  intros h' t' Hs Ht. apply HQ; [|done]. by apply Rep_table.
Qed.

Lemma Rep_Table_Insert l e Q :
  heap w !! l = Some e -> is_uint 32 (hash e) -> (forall k, a_map A !! k <> Some l) ->
  (forall w', Rep w' (with_map (<[(key e, hash e) := l]> (a_map A)) A) ->
     trace w' = trace w -> Q (a_map A !! (key e, hash e)) w') ->
  wp (Table_Insert l) Q w.
Proof.
  intros He Hh Hn HQ. eapply Table_Insert_spec; [by destruct R|done..|].
  intros h' t' Hs Ht. apply HQ; [|done]. by apply Rep_table.
Qed.

Lemma Rep_Table_Lookup k hv Q :
  is_uint 32 hv -> Q (a_map A !! (k, hv)) w -> wp (Table_Lookup k hv) Q w.
Proof.
  intros Hh HQ. destruct R as [_ [bs Ht] _ _ _]. by eapply (Table_Lookup_spec Ht).
Qed.

(** Updating fields of an object that neither structure looks at. *)
Lemma Rep_update l e f g Q :
  heap w !! l = Some e -> l <> lru_ ->
  (next_hash (f e) = next_hash e /\ key (f e) = key e /\ hash (f e) = hash e) ->
  (next (f e) = next e /\ prev (f e) = prev e /\
   InHighPriPool (f e) = InHighPriPool e /\ InLowPriPool (f e) = InLowPriPool e) ->
  (l ∈ order (a_pools A) -> total_charge (f e) = total_charge e) ->
  obj_of (f e) = g (obj_of e) ->
  (forall w', Rep w' (a_update l g A) -> heap w' !! l = Some (f e) ->
     shard w' = shard w -> trace w' = trace w -> Q () w') ->
  wp (update (Some l) f) Q w.
Proof.
  intros He Hl (Hn & Hk & Hh) (Hnx & Hpv & Hhi & Hlo) Hc Hg HQ. wstep.
  pose proof R as [Ho Ht Hlr Hu Hcfg].
  apply HQ; cbn; [|by rewrite lookup_insert_eq|done..]. split; cbn; try done.
  - rewrite delete_insert_ne, fmap_insert, Hg, Ho by done.
    apply map_eq. intros i. destruct (decide (i = l)) as [->|Hi].
    + by rewrite lookup_alter_eq, lookup_insert_eq, lookup_fmap, lookup_delete_ne, He.
    + by rewrite lookup_alter_ne, lookup_insert_ne by done.
  - eapply TabRep_frame; [|exact Ht]. intros x ex Hx. destruct (decide (x = l)) as [->|].
    + rewrite He in Hx. injection Hx as <-. exists (f e). by rewrite lookup_insert_eq.
    + exists ex. by rewrite lookup_insert_ne.
  - eapply LruRep_frame; [|done..|exact Hlr]. intros x ex Hin Hx.
    destruct (decide (x = l)) as [->|].
    + rewrite He in Hx. injection Hx as <-. exists (f e). rewrite lookup_insert_eq. auto 10.
    + exists ex. by rewrite lookup_insert_ne.
Qed.

Lemma Rep_set_usage u :
  Rep (set_shard (set_usage u (shard w)) w) (with_usage u A).
Proof.
  pose proof R as [Ho Ht Hlr Hu Hcfg].
  split; cbn; try done. eapply (LruRep_frame (heap w) _ (shard w)); [|done..|exact Hlr].
  eauto 10.
Qed.

Lemma Rep_malloc e Q :
  (forall l w', a_obj A !! l = None -> l <> lru_ -> heap w' !! l = Some e ->
     (forall k, a_map A !! k <> Some l) -> l ∉ order (a_pools A) ->
     Rep w' (with_obj (<[l := obj_of e]> (a_obj A)) A) -> shard w' = shard w ->
     trace w' = trace w -> Q l w') ->
  wp (malloc e) Q w.
Proof.
  intros HQ. apply wp_malloc. intros l Hl. pose proof R as [Ho Ht Hlr Hu Hcfg].
  assert (l <> lru_) as Hne.
  { intros ->. destruct (rep_heap Hlr lru_) as [? ?]; [set_solver|]. congruence. }
  apply HQ; cbn; try done.
  - rewrite Ho, lookup_fmap, lookup_delete_ne by done. by rewrite Hl.
  - by rewrite lookup_insert_eq.
  - intros k Hk. destruct Ht as [bs Ht].
    destruct (tr_complete _ _ _ _ Ht _ _ Hk) as (_ & e' & ? & _). congruence.
  - intros Hin. destruct (rep_heap Hlr l) as [? ?]; [set_solver|]. congruence.
  - split; cbn; try done.
    + by rewrite delete_insert_ne, fmap_insert, Ho.
    + eapply TabRep_frame; [|exact Ht]. intros x ex Hx. exists ex.
      rewrite lookup_insert_ne by congruence. done.
    + eapply LruRep_frame; [|done..|exact Hlr]. intros x ex _ Hx. exists ex.
      rewrite lookup_insert_ne by congruence. done.
Qed.

Lemma Rep_free l e Q :
  heap w !! l = Some e -> l <> lru_ -> (forall k, a_map A !! k <> Some l) ->
  l ∉ order (a_pools A) ->
  (forall w', Rep w' (with_obj (delete l (a_obj A)) A) -> trace w' = trace w -> Q () w') ->
  wp (free (Some l)) Q w.
Proof.
  intros He Hne Hm Hl HQ. pose proof R as [Ho [bs Ht] Hlr Hu Hcfg]. wstep.
  apply HQ; [|done]. split; cbn; try done.
  - by rewrite Ho, delete_delete, <- fmap_delete.
  - exists bs. eapply TabRepB_frame; [|exact Ht]. intros x ex Hx Hex. exists ex.
    rewrite lookup_delete_ne; [done|]. intros ->.
    apply elem_of_concat in Hx as (i & xs & Hi & Hx).
    destruct (tr_sound _ _ _ _ Ht i xs x Hi Hx) as (? & _ & Hmx & _). by eapply Hm.
  - eapply LruRep_frame; [|done..|exact Hlr]. intros x ex Hx Hex. exists ex.
    rewrite lookup_delete_ne; [done|]. intros ->. set_solver.
Qed.

End Prims.
