(* ===== verification/LruInv.v ===== *)
(** * The invariant of the abstract cache

    [Inv ex A held pend]: [held] is the multiset of references that clients hold
    and [pend] the objects taken out of the cache whose release was put off until
    after the lock. Every object is in one of the states of the class comment of
    [LRUHandle]: referenced and in the cache, unreferenced and in the cache (and then
    evictable), referenced and not in the cache; or it is waiting to be freed. [ex]
    is an object under construction. *)

From stdpp Require Import gmultiset.
From S2P Require Import Prelude.
From S2P Require Import Status.
From S2P Require Import Slice.
From S2P Require Import Double.
From S2P Require Import LruState.
From S2P Require Import LruShard.
From S2P Require Import LruTableProofs.
From S2P Require Import LruList.
From S2P Require Import LruSpec.

(** ** The usage of the cache *)

(** The charge of an object that is in the cache or referenced. *)
Definition live_charge (o : AObj) : Z :=
  if o_in o || (o_refs o >? 0) then o_charge o else 0.

Definition total (m : gmap loc AObj) : Z :=
  map_fold (fun _ o acc => live_charge o + acc) 0 m.

Definition hide (ex : option loc) (m : gmap loc AObj) : gmap loc AObj :=
  match ex with Some l => delete l m | None => m end.

Lemma total_insert m l o : m !! l = None -> total (<[l := o]> m) = live_charge o + total m.
Proof. intros. unfold total. rewrite map_fold_insert_L; [done|lia|done]. Qed.

Lemma total_delete m l o : m !! l = Some o -> total (delete l m) = total m - live_charge o.
Proof.
  intros. unfold total. rewrite (map_fold_delete_L _ _ l o m); [lia|lia|done].
Qed.

Lemma total_update m l o o' :
  m !! l = Some o -> total (<[l := o']> m) = total m - live_charge o + live_charge o'.
Proof.
  intros Hl. rewrite <- insert_delete_eq, total_insert by apply lookup_delete_eq.
  rewrite (total_delete _ _ _ Hl). lia.
Qed.

Lemma alter_as_insert {V} (f : V -> V) l (m : gmap loc V) o :
  m !! l = Some o -> alter f l m = <[l := f o]> m.
Proof.
  intros Hl. apply map_eq. intros i. destruct (decide (i = l)) as [->|].
  - by rewrite lookup_alter_eq, lookup_insert_eq, Hl.
  - by rewrite lookup_alter_ne, lookup_insert_ne by done.
Qed.

Lemma hide_insert ex m l o : ex <> Some l -> hide ex (<[l := o]> m) = <[l := o]> (hide ex m).
Proof.
  intros He. destruct ex as [x|]; cbn; [|done]. rewrite delete_insert_ne; congruence.
Qed.

Lemma hide_lookup ex m l : ex <> Some l -> hide ex m !! l = m !! l.
Proof. intros He. destruct ex as [x|]; cbn; [|done]. rewrite lookup_delete_ne; congruence. Qed.

Lemma total_hide_update ex m l o o' :
  ex <> Some l -> m !! l = Some o ->
  total (hide ex (<[l := o']> m)) = total (hide ex m) - live_charge o + live_charge o'.
Proof.
  intros He Hl. rewrite hide_insert by done. apply total_update. by rewrite hide_lookup.
Qed.

(** ** The invariant *)

(** Hash and charge have the width of their types. *)
Definition obj_ok (o : AObj) : Prop := is_uint 32 (o_hash o) /\ is_uint 64 (o_charge o).

(** The state of one location. *)
Definition Ok1 (A : ACache) (held : gmultiset loc) (pend : list loc) (l : loc) : Prop :=
  match a_obj A !! l with
  | None =>
      l ∉ order (a_pools A) /\ l ∉ pend /\ multiplicity l held = 0%nat /\
      forall k, a_map A !! k <> Some l
  | Some o =>
      o_refs o = Z.of_nat (multiplicity l held) /\ obj_ok o /\
      (forall k, a_map A !! k = Some l <-> o_in o = true /\ k = (o_key o, o_hash o)) /\
      (l ∈ order (a_pools A) <-> o_in o = true /\ o_refs o = 0) /\
      (l ∈ pend <-> o_in o = false /\ o_refs o = 0)
  end.

(** Ratios and capacities of the pools are not negative. *)
Definition cfg_ok (c : ACfg) : Prop :=
  dnonneg (c_high_ratio c) = true /\ dnonneg (c_low_ratio c) = true /\
  dnonneg (c_high_cap c) = true /\ dnonneg (c_low_cap c) = true /\ 0 <= c_capacity c.

Record Inv (ex : option loc) (A : ACache) (held : gmultiset loc) (pend : list loc)
    : Prop := mkInv {
  i_ok : forall l, ex <> Some l -> Ok1 A held pend l;
  i_ex : forall l, ex = Some l -> l ∉ order (a_pools A) /\ l ∉ pend /\
    multiplicity l held = 0%nat /\ forall k, a_map A !! k <> Some l;
  i_order : NoDup (order (a_pools A));
  i_pend : NoDup pend;
  i_usage : a_usage A = u64 (total (hide ex (a_obj A)));
  i_bound : Z.of_nat (base.size held) < 2 ^ 32;
  i_cfg : cfg_ok (a_cfg A);
}.

Lemma Ok1_frame A A' held held' pend pend' l :
  a_obj A' !! l = a_obj A !! l ->
  (l ∈ order (a_pools A') <-> l ∈ order (a_pools A)) -> (l ∈ pend' <-> l ∈ pend) ->
  multiplicity l held' = multiplicity l held ->
  (forall k, a_map A' !! k = Some l <-> a_map A !! k = Some l) ->
  Ok1 A held pend l -> Ok1 A' held' pend' l.
Proof.
  intros Ho Hord Hp Hm Hk. unfold Ok1. rewrite Ho, Hm. destruct (a_obj A !! l) as [o|].
  - intros (H1 & H2 & H3 & H4 & H5). split_and!; try done.
    + intros k. by rewrite Hk.
    + by rewrite Hord.
    + by rewrite Hp.
  - intros (H1 & H2 & H3 & H4). rewrite Hord, Hp. split_and!; try done.
    intros k. rewrite Hk. done.
Qed.

Section Facts.
Context {ex : option loc} {A : ACache} {held : gmultiset loc} {pend : list loc}.
Context (I : Inv ex A held pend).

Lemma inv_obj l o :
  ex <> Some l -> a_obj A !! l = Some o ->
  o_refs o = Z.of_nat (multiplicity l held) /\ obj_ok o /\
  (forall k, a_map A !! k = Some l <-> o_in o = true /\ k = (o_key o, o_hash o)) /\
  (l ∈ order (a_pools A) <-> o_in o = true /\ o_refs o = 0) /\
  (l ∈ pend <-> o_in o = false /\ o_refs o = 0).
Proof. intros He Ho. pose proof (i_ok _ _ _ _ I l He) as H. unfold Ok1 in H. by rewrite Ho in H. Qed.

Lemma inv_map k l : a_map A !! k = Some l -> ex <> Some l /\ exists o,
  a_obj A !! l = Some o /\ o_in o = true /\ k = (o_key o, o_hash o).
Proof.
  intros Hk. assert (ex <> Some l) as He.
  { intros ->. destruct (i_ex _ _ _ _ I l eq_refl) as (_ & _ & _ & H). by eapply H. }
  split; [done|]. pose proof (i_ok _ _ _ _ I l He) as H. unfold Ok1 in H.
  destruct (a_obj A !! l) as [o|] eqn:E.
  - exists o. split; [done|]. by apply H.
  - destruct H as (_ & _ & _ & H). by destruct (H k).
Qed.

Lemma inv_listed l : l ∈ order (a_pools A) -> ex <> Some l /\ exists o,
  a_obj A !! l = Some o /\ o_in o = true /\ o_refs o = 0.
Proof.
  intros Hl. assert (ex <> Some l) as He.
  { intros ->. by destruct (i_ex _ _ _ _ I l eq_refl) as (H & _). }
  split; [done|]. pose proof (i_ok _ _ _ _ I l He) as H. unfold Ok1 in H.
  destruct (a_obj A !! l) as [o|] eqn:E.
  - exists o. split; [done|]. by apply H.
  - by destruct H.
Qed.

Lemma inv_held l : l ∈ held -> ex <> Some l /\ exists o,
  a_obj A !! l = Some o /\ 0 < o_refs o.
Proof.
  intros Hl. pose proof (proj1 (elem_of_multiplicity l held) Hl) as Hm. assert (ex <> Some l) as He.
  { intros ->. destruct (i_ex _ _ _ _ I l eq_refl) as (_ & _ & H & _). lia. }
  split; [done|]. pose proof (i_ok _ _ _ _ I l He) as H. unfold Ok1 in H.
  destruct (a_obj A !! l) as [o|] eqn:E.
  - exists o. split; [done|]. destruct H as [-> _]. lia.
  - destruct H as (_ & _ & H & _). lia.
Qed.

Lemma inv_pending l : l ∈ pend -> ex <> Some l /\ exists o,
  a_obj A !! l = Some o /\ o_in o = false /\ o_refs o = 0.
Proof.
  intros Hl. assert (ex <> Some l) as He.
  { intros ->. by destruct (i_ex _ _ _ _ I l eq_refl) as (_ & H & _). }
  split; [done|]. pose proof (i_ok _ _ _ _ I l He) as H. unfold Ok1 in H.
  destruct (a_obj A !! l) as [o|] eqn:E.
  - exists o. split; [done|]. by apply H.
  - by destruct H as (_ & ? & _).
Qed.

Lemma inv_fresh l : ex <> Some l -> a_obj A !! l = None ->
  l ∉ order (a_pools A) /\ l ∉ pend /\ multiplicity l held = 0%nat /\
  forall k, a_map A !! k <> Some l.
Proof. intros He Ho. pose proof (i_ok _ _ _ _ I l He) as H. unfold Ok1 in H. by rewrite Ho in H. Qed.

Lemma multiplicity_le_size l : (multiplicity l held <= base.size held)%nat.
Proof.
  assert ((multiplicity l held *: {[+ l +]} : gmultiset loc) ⊆ held) as Hs%gmultiset_subseteq_size.
  { intros y. rewrite multiplicity_scalar_mul. destruct (decide (y = l)) as [->|].
    - rewrite multiplicity_singleton_eq. lia.
    - rewrite multiplicity_singleton_ne by done. lia. }
  by rewrite gmultiset_size_scalar_mul, gmultiset_size_singleton, Nat.mul_1_r in Hs.
Qed.

Lemma refs_small l o : ex <> Some l -> a_obj A !! l = Some o -> 0 <= o_refs o < 2 ^ 32.
Proof.
  intros He Ho. destruct (inv_obj l o He Ho) as [-> _].
  pose proof (multiplicity_le_size l). pose proof (i_bound _ _ _ _ I). lia.
Qed.

End Facts.

(** ** Changing one object *)

Lemma Inv_at ex A A' held held' pend pend' x o' :
  Inv ex A held pend -> ex <> Some x -> a_obj A' = <[x := o']> (a_obj A) ->
  (forall l, l <> x -> l ∈ order (a_pools A') <-> l ∈ order (a_pools A)) ->
  (forall l, l <> x -> l ∈ pend' <-> l ∈ pend) ->
  (forall l, l <> x -> multiplicity l held' = multiplicity l held) ->
  (forall k l, l <> x -> a_map A' !! k = Some l <-> a_map A !! k = Some l) ->
  Ok1 A' held' pend' x -> NoDup (order (a_pools A')) -> NoDup pend' ->
  a_usage A' = u64 (total (hide ex (<[x := o']> (a_obj A)))) ->
  Z.of_nat (base.size held') < 2 ^ 32 -> cfg_ok (a_cfg A') ->
  Inv ex A' held' pend'.
Proof.
  intros I Hex Ho Hord Hp Hm Hk Hx Hn1 Hn2 Hu Hb Hc. split; try done.
  - intros l He. destruct (decide (l = x)) as [->|Hl]; [done|].
    apply (Ok1_frame A A' held held' pend pend'); auto.
    + by rewrite Ho, lookup_insert_ne.
    + by apply (i_ok _ _ _ _ I).
  - intros l Hl. assert (l <> x) as Hne by congruence.
    destruct (i_ex _ _ _ _ I l Hl) as (H1 & H2 & H3 & H4).
    rewrite Hord, Hp, Hm by done. split_and!; try done. intros k. by rewrite Hk.
  - by rewrite Ho.
Qed.

Lemma u64_total_change ex m x o o' u :
  ex <> Some x -> m !! x = Some o -> u = u64 (total (hide ex m)) ->
  forall d, d = live_charge o' - live_charge o ->
  u64 (total (hide ex (<[x := o']> m))) = u64 (u + d).
Proof.
  intros He Ho -> d ->. rewrite u64_add, (total_hide_update _ _ _ o) by done. f_equal. lia.
Qed.

Lemma live_charge_in o : o_in o = true -> live_charge o = o_charge o.
Proof. unfold live_charge. by intros ->. Qed.

Lemma live_charge_refs o : 0 < o_refs o -> live_charge o = o_charge o.
Proof. unfold live_charge. intros. by rewrite (proj2 (Z.gtb_lt _ _)), orb_true_r by lia. Qed.

Lemma live_charge_out o : o_in o = false -> o_refs o = 0 -> live_charge o = 0.
Proof. unfold live_charge. by intros -> ->. Qed.

Lemma delete_map_iff (m : KeyMap) k0 k l :
  m !! k0 <> Some l -> delete k0 m !! k = Some l <-> m !! k = Some l.
Proof.
  intros Hne. destruct (decide (k = k0)) as [->|].
  - rewrite lookup_delete_eq. naive_solver.
  - by rewrite lookup_delete_ne.
Qed.

(** Reduce projections of the abstract state only. *)
Ltac acbn :=
  cbn [a_unmap a_unlist a_uncharge a_obj a_map a_pools a_usage a_cfg
       with_obj with_map with_pools with_usage with_cfg
       o_value o_helper o_charge o_key o_hash o_refs o_in o_hit o_im
       set_o_refs set_o_in set_o_hit set_o_charge].

Tactic Notation "acbn" "in" hyp(H) :=
  cbn [a_unmap a_unlist a_uncharge a_obj a_map a_pools a_usage a_cfg
       with_obj with_map with_pools with_usage with_cfg
       o_value o_helper o_charge o_key o_hash o_refs o_in o_hit o_im
       set_o_refs set_o_in set_o_hit set_o_charge] in H.

(** Destructing the goal of [Ok1] at a changed object. *)
Ltac ok1 := unfold Ok1; acbn; rewrite ?lookup_insert_eq; acbn; split_and!; try done.

(** ** Evicting *)

Lemma a_evict_one_eq A x o :
  a_obj A !! x = Some o ->
  a_evict_one x A =
    mkACache (<[x := set_o_in false o]> (a_obj A)) (delete (o_key o, o_hash o) (a_map A))
      (pools_remove x (a_pools A)) (u64 (a_usage A - o_charge o)) (a_cfg A).
Proof.
  intros Ho. unfold a_evict_one, a_uncharge, a_update, a_unmap, a_unlist. rewrite Ho.
  cbn. unfold with_usage, with_obj. cbn. by rewrite (alter_as_insert _ _ _ o).
Qed.

Lemma NoDup_snoc {V} (xs : list V) x : NoDup xs -> x ∉ xs -> NoDup (xs ++ [x]).
Proof. intros. rewrite <- Permutation_cons_append. by apply NoDup_cons. Qed.

Lemma NoDup_remove x p : NoDup (order p) -> NoDup (order (pools_remove x p)).
Proof. intros. rewrite order_remove. by apply NoDup_filter. Qed.

Lemma elem_of_remove x l p :
  l ∈ order (pools_remove x p) <-> l ∈ order p /\ l <> x.
Proof. by rewrite order_remove, elem_of_rm. Qed.

Lemma Inv_evict_one ex A held pend x :
  Inv ex A held pend -> x ∈ order (a_pools A) ->
  Inv ex (a_evict_one x A) held (pend ++ [x]).
Proof.
  intros I Hx. destruct (inv_listed I x Hx) as (Hex & o & Ho & Hin & Hr).
  destruct (inv_obj I x o Hex Ho) as (H1 & H2 & H3 & H4 & H5).
  rewrite (a_evict_one_eq A x o Ho).
  eapply (Inv_at ex A _ held held pend _ x (set_o_in false o)); acbn; try done.
  - intros l Hl. rewrite elem_of_remove. naive_solver.
  - intros l Hl. set_solver.
  - intros k l Hl. apply delete_map_iff. rewrite (proj2 (H3 _)) by done. congruence.
  - ok1.
    + intros k. rewrite lookup_delete_Some. naive_solver.
    + rewrite elem_of_remove. naive_solver.
    + rewrite Hr. set_solver.
  - apply NoDup_remove. by destruct I.
  - apply NoDup_snoc; [by destruct I|]. rewrite H5. intros [? _]. congruence.
  - symmetry. eapply u64_total_change; [done..|by destruct I|].
    rewrite (live_charge_in o), live_charge_out by done. lia.
  - by destruct I.
  - by destruct I.
Qed.

Lemma order_evict_one ex A held pend x xs :
  Inv ex A held pend -> order (a_pools A) = x :: xs ->
  order (a_pools (a_evict_one x A)) = xs.
Proof.
  intros I Hx. destruct (inv_listed I x) as (_ & o & Ho & _); [rewrite Hx; set_solver|].
  rewrite (a_evict_one_eq A x o Ho). acbn. rewrite order_remove, Hx.
  pose proof (i_order _ _ _ _ I) as Hnd. rewrite Hx in Hnd. apply (rm_mid x [] xs Hnd).
Qed.

(** Eviction takes the oldest handles, as few as needed. *)
Lemma Inv_evict_loop xs : forall ex A held pend charge out,
  Inv ex A held pend -> order (a_pools A) = xs ->
  let '(A', out') := a_evict_loop xs charge A out in
  exists ev rest, xs = ev ++ rest /\ out' = out ++ ev /\ order (a_pools A') = rest /\
    Inv ex A' held (pend ++ ev) /\ a_cfg A' = a_cfg A /\
    (forall l, l ∉ ev -> a_obj A' !! l = a_obj A !! l) /\
    (u64 (a_usage A' + charge) <= c_capacity (a_cfg A) \/ rest = []).
Proof.
  induction xs as [|x xs IH]; intros ex A held pend charge out I Hx; cbn [a_evict_loop].
  { exists [], []. rewrite !app_nil_r. split_and!; auto. }
  case_if.
  - pose proof (Inv_evict_one ex A held pend x I ltac:(rewrite Hx; set_solver)) as I1.
    pose proof (order_evict_one ex A held pend x xs I Hx) as Hx1.
    specialize (IH ex _ held _ charge (out ++ [x]) I1 Hx1).
    destruct (a_evict_loop xs charge _ _) as [A' out'].
    destruct IH as (ev & rest & -> & -> & Ho & I' & Hc & Hob & Hu).
    destruct (inv_listed I x) as (_ & o & Hxo & _); [rewrite Hx; set_solver|].
    rewrite (a_evict_one_eq A x o Hxo) in Hc, Hob, Hu. cbn in Hc, Hob, Hu.
    exists (x :: ev), rest. rewrite <- app_assoc in *. split_and!; try done.
    intros l Hl. rewrite Hob, lookup_insert_ne by set_solver. done.
  - zbool. exists [], (x :: xs). rewrite !app_nil_r. split_and!; auto.
Qed.

Lemma Inv_evict_all xs : forall ex A held pend out,
  Inv ex A held pend -> order (a_pools A) = xs ->
  let '(A', out') := a_evict_all xs A out in
  out' = out ++ xs /\ order (a_pools A') = [] /\ Inv ex A' held (pend ++ xs).
Proof.
  induction xs as [|x xs IH]; intros ex A held pend out I Hx; cbn [a_evict_all].
  { by rewrite !app_nil_r. }
  pose proof (Inv_evict_one ex A held pend x I ltac:(rewrite Hx; set_solver)) as I1.
  pose proof (order_evict_one ex A held pend x xs I Hx) as Hx1.
  specialize (IH ex _ held _ (out ++ [x]) I1 Hx1).
  destruct (a_evict_all xs _ _) as [A' out']. by rewrite <- !app_assoc in IH.
Qed.

(** ** References *)

Lemma mult_add_ne (l x : loc) (held : gmultiset loc) :
  l <> x -> multiplicity l (held ⊎ {[+ x +]}) = multiplicity l held.
Proof.
  intros. rewrite multiplicity_disj_union, multiplicity_singleton_ne by done. lia.
Qed.

Lemma mult_add_eq (x : loc) (held : gmultiset loc) :
  multiplicity x (held ⊎ {[+ x +]}) = S (multiplicity x held).
Proof. rewrite multiplicity_disj_union, multiplicity_singleton_eq. lia. Qed.

Lemma mult_sub_ne (l x : loc) (held : gmultiset loc) :
  l <> x -> multiplicity l (held ∖ {[+ x +]}) = multiplicity l held.
Proof.
  intros. rewrite multiplicity_difference, multiplicity_singleton_ne by done. lia.
Qed.

Lemma mult_sub_eq (x : loc) (held : gmultiset loc) :
  multiplicity x (held ∖ {[+ x +]}) = (multiplicity x held - 1)%nat.
Proof. by rewrite multiplicity_difference, multiplicity_singleton_eq. Qed.

Lemma size_add (x : loc) (held : gmultiset loc) :
  base.size (held ⊎ {[+ x +]}) = S (base.size held).
Proof. rewrite gmultiset_size_disj_union, gmultiset_size_singleton. lia. Qed.

Lemma a_update_eq A x o f :
  a_obj A !! x = Some o -> a_update x f A = with_obj (<[x := f o]> (a_obj A)) A.
Proof. intros Ho. unfold a_update. by rewrite (alter_as_insert _ _ _ o). Qed.

(** Room for one more reference. *)
Definition room (held : gmultiset loc) : Prop := Z.of_nat (base.size held) + 1 < 2 ^ 32.

Lemma refs_succ ex A held pend l o :
  Inv ex A held pend -> ex <> Some l -> a_obj A !! l = Some o -> room held ->
  u32 (o_refs o + 1) = Z.of_nat (multiplicity l (held ⊎ {[+ l +]})).
Proof.
  intros I He Ho Hr. destruct (inv_obj I l o He Ho) as [-> _].
  rewrite mult_add_eq. pose proof (@multiplicity_le_size held l). unfold room in Hr.
  rewrite wrap_small; [lia|]. unfold is_uint. lia.
Qed.

Lemma u64_total_same ex A held pend x o o' :
  Inv ex A held pend -> ex <> Some x -> a_obj A !! x = Some o ->
  live_charge o' = live_charge o ->
  a_usage A = u64 (total (hide ex (<[x := o']> (a_obj A)))).
Proof.
  intros I He Ho Hl. rewrite (total_hide_update _ _ _ o), Hl by done.
  rewrite (i_usage _ _ _ _ I). f_equal. lia.
Qed.

Lemma Inv_lookup ex A held pend k h :
  Inv ex A held pend -> room held ->
  let '(r, A') := a_lookup k h A in
  match r with
  | Some l => a_map A !! (k, h) = Some l /\ Inv ex A' (held ⊎ {[+ l +]}) pend
  | None => a_map A !! (k, h) = None /\ A' = A
  end.
Proof.
  intros I Hroom. unfold a_lookup. destruct (a_map A !! (k, h)) as [l|] eqn:Hk; [|done].
  destruct (inv_map I _ _ Hk) as (He & o & Ho & Hin & Hkey). rewrite Ho. split; [done|].
  destruct (inv_obj I l o He Ho) as (H1 & H2 & H3 & H4 & H5).
  pose proof (refs_succ _ _ _ _ _ _ I He Ho Hroom) as Hs.
  assert (0 < u32 (o_refs o + 1)) as Hpos by (rewrite Hs, mult_add_eq; lia).
  set (A1 := if o_refs o >? 0 then A else a_unlist l A).
  assert (a_obj A1 = a_obj A /\ a_map A1 = a_map A /\ a_usage A1 = a_usage A /\
          a_cfg A1 = a_cfg A) as (E1 & E2 & E3 & E4) by (unfold A1; by case_if).
  assert (forall x, x ∈ order (a_pools A1) <-> x ∈ order (a_pools A) /\ x <> l) as Hord.
  { intros x. unfold A1. case_if; acbn; [|apply elem_of_remove]. zbool.
    split; [|by intros [? _]]. intros Hx. split; [done|]. intros ->. apply H4 in Hx. lia. }
  rewrite (a_update_eq _ _ o) by (by rewrite E1).
  eapply (Inv_at ex A _ held _ pend pend l); acbn; try done.
  - by rewrite E1.
  - intros x Hx. rewrite Hord. naive_solver.
  - intros x Hx. by apply mult_add_ne.
  - intros. by rewrite E2.
  - ok1.
    + intros k'. by rewrite E2.
    + rewrite Hord. split; [naive_solver|lia].
    + rewrite H5. split; [intros [? _]; congruence|lia].
  - unfold A1. case_if; acbn; [by destruct I|]. apply NoDup_remove. by destruct I.
  - by destruct I.
  - rewrite E3. eapply u64_total_same; [done..|]. by rewrite !live_charge_in.
  - rewrite size_add. unfold room in Hroom. lia.
  - rewrite E4. by destruct I.
Qed.

Lemma Inv_ref ex A held pend l :
  Inv ex A held pend -> room held -> l ∈ held ->
  Inv ex (a_ref l A) (held ⊎ {[+ l +]}) pend.
Proof.
  intros I Hroom Hl. destruct (inv_held I l Hl) as (He & o & Ho & Hr).
  destruct (inv_obj I l o He Ho) as (H1 & H2 & H3 & H4 & H5).
  pose proof (refs_succ _ _ _ _ _ _ I He Ho Hroom) as Hs.
  assert (0 < u32 (o_refs o + 1)) as Hpos by (rewrite Hs, mult_add_eq; lia).
  unfold a_ref. rewrite (a_update_eq _ _ o) by done.
  eapply (Inv_at ex A _ held _ pend pend l); acbn; try done.
  - intros x Hx. by apply mult_add_ne.
  - ok1.
    + rewrite H4. lia.
    + rewrite H5. lia.
  - by destruct I.
  - by destruct I.
  - eapply u64_total_same; [done..|]. by rewrite !live_charge_refs by (acbn; lia).
  - rewrite size_add. unfold room in Hroom. lia.
  - by destruct I.
Qed.

(** ** Leaving the cache by key *)

(** The objects of a list are named in the map by their keys only. *)
Lemma Inv_drop ex A held pend k l o out :
  Inv ex A held pend -> a_map A !! k = Some l -> a_obj A !! l = Some o ->
  let '(A', out') := a_drop l o (a_unmap k A) out in
  exists ev, out' = out ++ ev /\ Inv ex A' held (pend ++ ev) /\
    a_map A' = delete k (a_map A) /\ a_cfg A' = a_cfg A /\
    (forall x, x <> l -> a_obj A' !! x = a_obj A !! x) /\
    ev = (if o_refs o >? 0 then [] else [l]).
Proof.
  intros I Hk Ho. destruct (inv_map I _ _ Hk) as (He & o' & Ho' & Hin & Hkey).
  rewrite Ho in Ho'. injection Ho' as <-.
  destruct (inv_obj I l o He Ho) as (H1 & H2 & H3 & H4 & H5).
  assert (forall k', delete k (a_map A) !! k' = Some l <->
            false = true /\ k' = (o_key o, o_hash o)) as Hmap.
  { intros k'. rewrite lookup_delete_Some, H3, Hkey. naive_solver. }
  unfold a_drop. rewrite (a_update_eq _ _ o) by done. case_if; zbool.
  - exists []. rewrite !app_nil_r. split_and!; try done.
    + eapply (Inv_at ex A _ held held pend pend l); acbn; try done; try by destruct I.
      * intros k' x Hx. apply delete_map_iff. congruence.
      * ok1; [rewrite H4; lia|rewrite H5; lia].
      * eapply u64_total_same; [done..|]. by rewrite !live_charge_refs by (acbn; lia).
    + intros x Hx. acbn. by rewrite lookup_insert_ne.
  - assert (o_refs o = 0) as Hr by lia.
    exists [l]. split_and!; try done.
    + eapply (Inv_at ex A _ held held pend _ l (set_o_in false o)); acbn; try done;
        try by destruct I.
      * intros x Hx. unfold a_unlist. acbn. rewrite elem_of_remove. naive_solver.
      * set_solver.
      * intros k' x Hx. apply delete_map_iff. congruence.
      * ok1.
        -- unfold a_unlist. acbn. rewrite elem_of_remove. naive_solver.
        -- rewrite Hr. set_solver.
      * unfold a_unlist. acbn. apply NoDup_remove. by destruct I.
      * apply NoDup_snoc; [by destruct I|]. rewrite H5. intros [? _]. congruence.
      * symmetry. eapply u64_total_change; [done..|by destruct I|].
        rewrite (live_charge_in o), live_charge_out by done. lia.
    + intros x Hx. acbn. by rewrite lookup_insert_ne.
Qed.

Lemma Inv_erase ex A held pend k h :
  Inv ex A held pend ->
  let '(A', out) := a_erase k h A in
  Inv ex A' held (pend ++ out) /\ a_map A' = delete (k, h) (a_map A).
Proof.
  intros I. unfold a_erase. destruct (a_map A !! (k, h)) as [l|] eqn:Hk.
  - destruct (inv_map I _ _ Hk) as (He & o & Ho & _). rewrite Ho.
    pose proof (Inv_drop ex A held pend (k, h) l o [] I Hk Ho) as H.
    destruct (a_drop _ _ _ _) as [A' out]. destruct H as (ev & -> & ? & ? & _). done.
  - rewrite app_nil_r. by rewrite delete_id.
Qed.

(** ** Releasing *)

Lemma order_insert_iff c hc lc k x p l :
  l ∈ order (pools_insert c hc lc k x p) <-> l = x \/ l ∈ order p.
Proof. rewrite order_insert_perm. set_solver. Qed.

Lemma NoDup_insert c hc lc k x p :
  NoDup (order p) -> x ∉ order p -> NoDup (order (pools_insert c hc lc k x p)).
Proof. intros. rewrite order_insert_perm. by apply NoDup_cons. Qed.

Lemma Inv_release A held pend l erase :
  Inv None A held pend -> l ∈ held ->
  let '(A', out) := a_release l erase A in
  Inv None A' (held ∖ {[+ l +]}) (pend ++ out).
Proof.
  intros I Hl. destruct (inv_held I l Hl) as (He & o & Ho & Hpos).
  destruct (inv_obj I l o He Ho) as (H1 & H2 & H3 & H4 & H5).
  pose proof (refs_small I l o He Ho) as Hsm.
  assert (u32 (o_refs o - 1) = o_refs o - 1) as Hu
    by (apply wrap_small; unfold is_uint; lia).
  assert (o_refs o - 1 = Z.of_nat (multiplicity l (held ∖ {[+ l +]}))) as Hm
    by (rewrite mult_sub_eq; lia).
  assert (Z.of_nat (base.size (held ∖ {[+ l +]})) < 2 ^ 32) as Hb.
  { pose proof (i_bound _ _ _ _ I). assert (held ∖ {[+ l +]} ⊆ held) as
      Hs%gmultiset_subseteq_size by multiset_solver. lia. }
  assert (l ∉ order (a_pools A)) as Hno by (rewrite H4; lia).
  assert (l ∉ pend) as Hnp by (rewrite H5; lia).
  unfold a_release. rewrite Ho, Hu, (a_update_eq _ _ o) by done. acbn.
  case_if; zbool.
  { rewrite app_nil_r.
    eapply (Inv_at None A _ held _ pend pend l); acbn; try done; try by destruct I.
    - intros x Hx. by apply mult_sub_ne.
    - ok1; [rewrite H4; lia|rewrite H5; lia].
    - eapply u64_total_same; [done..|]. by rewrite !live_charge_refs by (acbn; lia). }
  assert (o_refs o - 1 = 0) as Hz by lia. rewrite Hz in *.
  destruct (o_in o) eqn:Hin; [case_if|].
  - unfold a_unmap. acbn. rewrite (a_update_eq _ _ (set_o_refs 0 o))
      by (by acbn; rewrite lookup_insert_eq).
    acbn. unfold a_uncharge. acbn. rewrite insert_insert_eq.
    eapply (Inv_at None A _ held _ pend _ l (set_o_in false (set_o_refs 0 o)));
      acbn; try done; try by destruct I.
    + set_solver.
    + intros x Hx. by apply mult_sub_ne.
    + intros k' x Hx. apply delete_map_iff. rewrite (proj2 (H3 _)) by done. congruence.
    + ok1.
      * intros k'. rewrite lookup_delete_Some, H3. naive_solver.
      * split; [done|]. by intros [? _].
      * set_solver.
    + apply NoDup_snoc; [by destruct I|done].
    + symmetry. eapply u64_total_change; [done..|by destruct I|].
      rewrite (live_charge_in o), live_charge_out by done. lia.
  - rewrite app_nil_r. unfold a_list. acbn.
    eapply (Inv_at None A _ held _ pend pend l); acbn; try done; try by destruct I.
    + intros x Hx. rewrite order_insert_iff. naive_solver.
    + intros x Hx. by apply mult_sub_ne.
    + ok1.
      * rewrite Hin. done.
      * rewrite order_insert_iff, Hin. naive_solver.
      * rewrite H5, Hin. split; intros [? _]; done.
    + apply NoDup_insert; [by destruct I|done].
    + eapply u64_total_same; [done..|]. by rewrite !live_charge_in.
  - unfold a_uncharge. acbn.
    eapply (Inv_at None A _ held _ pend _ l); acbn; try done; try by destruct I.
    + set_solver.
    + intros x Hx. by apply mult_sub_ne.
    + ok1.
      * by rewrite Hin.
      * rewrite Hin. split; [done|]. by intros [? _].
      * rewrite Hin. set_solver.
    + apply NoDup_snoc; [by destruct I|done].
    + symmetry. eapply u64_total_change; [done..|by destruct I|].
      rewrite (live_charge_refs o), live_charge_out by done. lia.
Qed.

(** ** Objects under construction *)

Lemma Inv_alloc A held pend l o :
  Inv None A held pend -> a_obj A !! l = None ->
  Inv (Some l) (with_obj (<[l := o]> (a_obj A)) A) held pend.
Proof.
  intros I Ho. destruct (inv_fresh I l ltac:(done) Ho) as (H1 & H2 & H3 & H4).
  split; acbn; try by destruct I.
  - intros x Hx. apply (Ok1_frame A _ held held pend pend); acbn; try done.
    + rewrite lookup_insert_ne; [done|congruence].
    + by apply (i_ok _ _ _ _ I).
  - by intros x [= <-].
  - cbn. rewrite delete_insert_id by done. by destruct I.
Qed.

(** The object under construction becomes an ordinary one. *)
Lemma Inv_settle A A' held held' pend pend' l o :
  Inv (Some l) A held pend -> is_Some (a_obj A !! l) ->
  a_obj A' = <[l := o]> (a_obj A) ->
  (forall x, x <> l -> x ∈ order (a_pools A') <-> x ∈ order (a_pools A)) ->
  (forall x, x <> l -> x ∈ pend' <-> x ∈ pend) ->
  (forall x, x <> l -> multiplicity x held' = multiplicity x held) ->
  (forall k x, x <> l -> a_map A' !! k = Some x <-> a_map A !! k = Some x) ->
  Ok1 A' held' pend' l -> NoDup (order (a_pools A')) -> NoDup pend' ->
  a_usage A' = u64 (a_usage A + live_charge o) ->
  Z.of_nat (base.size held') < 2 ^ 32 -> cfg_ok (a_cfg A') ->
  Inv None A' held' pend'.
Proof.
  intros I [o0 Ho0] Ho Hord Hp Hm Hk Hx Hn1 Hn2 Hu Hb Hc. split; try done.
  - intros x _. destruct (decide (x = l)) as [->|Hne]; [done|].
    apply (Ok1_frame A A' held held' pend pend'); auto.
    + by rewrite Ho, lookup_insert_ne.
    + apply (i_ok _ _ _ _ I). congruence.
  - rewrite Hu, (i_usage _ _ _ _ I), u64_add, Ho. cbn. f_equal.
    rewrite (total_update _ _ o0), (total_delete _ _ o0) by done. lia.
Qed.

Lemma Inv_discard A held pend l :
  Inv (Some l) A held pend -> Inv None (with_obj (delete l (a_obj A)) A) held pend.
Proof.
  intros I. destruct (i_ex _ _ _ _ I l eq_refl) as (H1 & H2 & H3 & H4).
  split; acbn; try by destruct I; try done.
  intros x _. destruct (decide (x = l)) as [->|Hne].
  - unfold Ok1. acbn. by rewrite lookup_delete_eq.
  - apply (Ok1_frame A _ held held pend pend); acbn; try done.
    + by rewrite lookup_delete_ne.
    + apply (i_ok _ _ _ _ I). congruence.
Qed.

Section Settle.
Context {A : ACache} {held : gmultiset loc} {pend : list loc} {l : loc} {o : AObj}.
Context (I : Inv (Some l) A held pend) (Ho : a_obj A !! l = Some o).
Context (Hh : obj_ok o).

(** It is evicted at once. *)
Lemma Inv_abandon :
  o_refs o = 0 -> Inv None (a_update l (set_o_in false) A) held (pend ++ [l]).
Proof.
  intros Hr. destruct (i_ex _ _ _ _ I l eq_refl) as (H1 & H2 & H3 & H4).
  rewrite (a_update_eq _ _ o) by done.
  eapply (Inv_settle A _ held held pend _ l); acbn; try done; try by destruct I.
  - set_solver.
  - ok1.
    + by rewrite Hr, H3.
    + naive_solver.
    + split; [done|]. by intros [? _].
    + rewrite Hr. set_solver.
  - apply NoDup_snoc; [by destruct I|done].
  - rewrite live_charge_out by done. rewrite Z.add_0_r, wrap_small; [done|].
    rewrite (i_usage _ _ _ _ I). by apply wrap_range.
Qed.

(** It is put in the map, under a key that is free. *)
Definition a_publish (A : ACache) : ACache :=
  with_usage (u64 (a_usage A + o_charge o))
    (with_map (<[(o_key o, o_hash o) := l]> (a_map A)) A).

Lemma publish_map :
  a_map A !! (o_key o, o_hash o) = None ->
  (forall k x, x <> l -> a_map (a_publish A) !! k = Some x <-> a_map A !! k = Some x) /\
  (forall k, a_map (a_publish A) !! k = Some l <-> k = (o_key o, o_hash o)).
Proof.
  intros Hn. destruct (i_ex _ _ _ _ I l eq_refl) as (_ & _ & _ & H4). unfold a_publish. acbn.
  split.
  - intros k x Hx. rewrite lookup_insert_Some. split; [naive_solver|].
    intros Hk. right. split; [|done]. intros <-. congruence.
  - intros k. rewrite lookup_insert_Some. split; [|naive_solver].
    intros [[? _]|[_ Hk]]; [done|]. by destruct (H4 k).
Qed.

Lemma Inv_publish_list :
  a_map A !! (o_key o, o_hash o) = None -> o_in o = true -> o_refs o = 0 ->
  Inv None (a_list l o (a_publish A)) held pend.
Proof.
  intros Hn Hin Hr. destruct (i_ex _ _ _ _ I l eq_refl) as (H1 & H2 & H3 & H4).
  destruct (publish_map Hn) as [Hm1 Hm2].
  eapply (Inv_settle A _ held held pend pend l o); unfold a_list; acbn; try done;
    try by destruct I.
  - unfold a_publish. acbn. by rewrite insert_id.
  - intros x Hx. rewrite order_insert_iff. unfold a_publish. acbn. naive_solver.
  - unfold Ok1. acbn. unfold a_publish at 1. acbn. rewrite Ho. split_and!; try done.
    + by rewrite Hr, H3.
    + intros k. rewrite Hm2. naive_solver.
    + rewrite order_insert_iff. naive_solver.
    + split; [done|]. intros [? _]. congruence.
  - apply NoDup_insert; [by destruct I|done].
  - by rewrite live_charge_in.
Qed.

Lemma Inv_publish_ref :
  a_map A !! (o_key o, o_hash o) = None -> o_in o = true -> o_refs o = 0 ->
  room held -> Inv None (a_ref l (a_publish A)) (held ⊎ {[+ l +]}) pend.
Proof.
  intros Hn Hin Hr Hroom. destruct (i_ex _ _ _ _ I l eq_refl) as (H1 & H2 & H3 & H4).
  destruct (publish_map Hn) as [Hm1 Hm2].
  unfold a_ref. rewrite (a_update_eq _ _ o) by done. rewrite Hr.
  eapply (Inv_settle A _ held _ pend pend l); acbn; try done; try by destruct I.
  - intros x Hx. by apply mult_add_ne.
  - ok1.
    + rewrite mult_add_eq, H3. done.
    + intros k. rewrite Hm2. naive_solver.
    + unfold a_publish. acbn. split; [done|]. by intros [_ ?].
    + split; [done|]. intros [? _]. congruence.
  - by rewrite live_charge_in.
  - rewrite size_add. unfold room in Hroom. lia.
Qed.

(** It is handed to the client without being in the cache. *)
Lemma Inv_hand_out A' o' :
  a_obj A' = <[l := o']> (a_obj A) -> a_map A' = a_map A -> a_pools A' = a_pools A ->
  a_cfg A' = a_cfg A -> a_usage A' = u64 (a_usage A + o_charge o') ->
  o_in o' = false -> o_refs o' = 1 -> obj_ok o' -> room held ->
  Inv None A' (held ⊎ {[+ l +]}) pend.
Proof.
  intros E1 E2 E3 E4 E5 Hin Hr Hhash Hroom.
  destruct (i_ex _ _ _ _ I l eq_refl) as (H1 & H2 & H3 & H4).
  eapply (Inv_settle A _ held _ pend pend l o'); rewrite ?E2, ?E3, ?E4; try done;
    try by destruct I.
  - intros x Hx. by apply mult_add_ne.
  - unfold Ok1. rewrite E1, E2, E3, lookup_insert_eq. split_and!.
    + by rewrite mult_add_eq, H3, Hr.
    + done.
    + intros k. rewrite Hin. naive_solver.
    + rewrite Hin. split; [done|]. by intros [? _].
    + rewrite Hr. split; [done|]. by intros [_ ?].
  - rewrite E5, live_charge_refs by lia. done.
  - rewrite size_add. unfold room in Hroom. lia.
Qed.

End Settle.

(** ** Freeing and configuring *)

Lemma Inv_free A held pend l :
  Inv None A held pend -> l ∈ pend ->
  Inv None (with_obj (delete l (a_obj A)) A) held (rm l pend).
Proof.
  intros I Hl. destruct (inv_pending I l Hl) as (_ & o & Ho & Hin & Hr).
  destruct (inv_obj I l o ltac:(done) Ho) as (H1 & H2 & H3 & H4 & H5).
  split; acbn; try by destruct I; try done.
  - intros x _. destruct (decide (x = l)) as [->|Hne].
    + unfold Ok1. acbn. rewrite lookup_delete_eq. rewrite elem_of_rm. split_and!.
      * rewrite H4. intros [? _]. congruence.
      * naive_solver.
      * lia.
      * intros k Hk. apply H3 in Hk as [? _]. congruence.
    + apply (Ok1_frame A _ held held pend _); acbn; try done.
      * by rewrite lookup_delete_ne.
      * rewrite elem_of_rm. naive_solver.
      * by apply (i_ok _ _ _ _ I).
  - apply NoDup_filter. by destruct I.
  - cbn. rewrite (total_delete _ _ o), live_charge_out by done.
    rewrite (i_usage _ _ _ _ I). cbn. f_equal. lia.
Qed.

Lemma Inv_with_cfg ex A held pend c :
  Inv ex A held pend -> cfg_ok c -> Inv ex (with_cfg c A) held pend.
Proof.
  intros I Hc. split; acbn; try by destruct I.
Qed.

Lemma Inv_with_pools ex A held pend p :
  Inv ex A held pend -> order p = order (a_pools A) -> Inv ex (with_pools p A) held pend.
Proof.
  intros I Hp. split; acbn; rewrite ?Hp; try by destruct I.
  intros l Hl. apply (Ok1_frame A _ held held pend pend); acbn; try done; [by rewrite Hp|].
  by apply (i_ok _ _ _ _ I).
Qed.

Lemma pool_capacity_nonneg capacity r :
  0 <= capacity -> dnonneg r = true -> dnonneg (pool_capacity capacity r) = true.
Proof. intros. unfold pool_capacity. auto with xdb. Qed.

#[export] Hint Resolve pool_capacity_nonneg : xdb.

(** ** Inserting *)

Lemma drop_publish k l o l' o' A out A4 out4 :
  k = (o_key o, o_hash o) -> a_drop l' o' (a_unmap k A) out = (A4, out4) ->
  a_drop l' o' (with_usage (u64 (a_usage A + o_charge o))
                  (with_map (<[k := l]> (a_map A)) A)) out =
    (@a_publish l o A4, out4).
Proof.
  intros ->. unfold a_drop, a_publish, a_update. case_if; intros [= <- <-]; acbn.
  - unfold with_usage, with_map, with_obj. acbn. by rewrite insert_delete_eq.
  - unfold a_uncharge, a_unlist, with_usage, with_map, with_obj, with_pools. acbn.
    rewrite insert_delete_eq, u64_sub, u64_add. do 3 f_equal. lia.
Qed.

Lemma evict_hidden A held pend l o charge :
  Inv (Some l) A held pend -> a_obj A !! l = Some o ->
  let '(A', ev) := a_evict charge A [] in
  Inv (Some l) A' held (pend ++ ev) /\ a_obj A' !! l = Some o /\ a_cfg A' = a_cfg A /\
  (exists rest, order (a_pools A) = ev ++ rest /\ order (a_pools A') = rest /\
    (u64 (a_usage A' + charge) <= c_capacity (a_cfg A) \/ rest = [])).
Proof.
  intros I Ho. unfold a_evict.
  pose proof (Inv_evict_loop _ (Some l) A held pend charge [] I eq_refl) as H.
  destruct (a_evict_loop _ _ _ _) as [A' out].
  destruct H as (ev & rest & Hord & -> & Hrest & I' & Hc & Hob & Hu). cbn.
  split_and!; [done| |done|eauto].
  rewrite Hob; [done|]. destruct (i_ex _ _ _ _ I l eq_refl) as (Hl & _).
  rewrite Hord in Hl. set_solver.
Qed.

Definition held_after (r : ptr) (held : gmultiset loc) : gmultiset loc :=
  match r with Some l => held ⊎ {[+ l +]} | None => held end.

Lemma Inv_insert A held pend l o want :
  Inv None A held pend -> a_obj A !! l = None -> o_in o = true -> o_refs o = 0 ->
  obj_ok o -> room held ->
  let '(st, r, (A', out)) := a_insert l o want A in
  Inv None A' (held_after r held) (pend ++ out).
Proof.
  intros I Hfresh Hin Hr Hh Hroom. unfold a_insert.
  pose proof (Inv_alloc A held pend l o I Hfresh) as I1.
  set (A1 := with_obj _ _) in *.
  pose proof (evict_hidden A1 held pend l o (o_charge o) I1
    ltac:(unfold A1; acbn; by rewrite lookup_insert_eq)) as H.
  destruct (a_evict (o_charge o) A1 []) as [A2 ev]. destruct H as (I2 & Ho2 & Hc2 & _).
  case_if.
  - destruct want; cbn [held_after].
    + by apply Inv_discard.
    + rewrite app_assoc. by eapply Inv_abandon.
  - acbn. destruct (a_map A2 !! (o_key o, o_hash o)) as [l'|] eqn:Hold.
    + destruct (inv_map I2 _ _ Hold) as (Hne & o' & Ho' & _). rewrite Ho'.
      pose proof (Inv_drop _ _ _ _ _ _ _ ev I2 Hold Ho') as H.
      destruct (a_drop l' o' (a_unmap _ A2) ev) as [A4 out4] eqn:Hd.
      destruct H as (ev' & -> & I4 & Hm4 & Hc4 & Hob4 & _).
      rewrite (drop_publish _ l o _ _ _ _ _ _ eq_refl Hd).
      assert (a_obj A4 !! l = Some o) as Ho4 by (rewrite Hob4; [done|congruence]).
      assert (a_map A4 !! (o_key o, o_hash o) = None) as Hn4
        by (rewrite Hm4; apply lookup_delete_eq).
      destruct want; cbn [held_after]; rewrite app_assoc.
      * by eapply Inv_publish_ref.
      * by eapply Inv_publish_list.
    + destruct want; cbn [held_after].
      * by eapply (@Inv_publish_ref A2).
      * by eapply (@Inv_publish_list A2).
Qed.

Lemma Inv_standalone A held pend l o allow :
  Inv None A held pend -> a_obj A !! l = None -> o_in o = false -> o_refs o = 1 ->
  obj_ok o -> room held ->
  let '(r, (A', out)) := a_standalone l o allow A in
  Inv None A' (held_after r held) (pend ++ out).
Proof.
  intros I Hfresh Hin Hr Hh Hroom. unfold a_standalone.
  pose proof (Inv_alloc A held pend l o I Hfresh) as I1.
  set (A1 := with_obj _ _) in *.
  pose proof (evict_hidden A1 held pend l o (o_charge o) I1
    ltac:(unfold A1; acbn; by rewrite lookup_insert_eq)) as H.
  destruct (a_evict (o_charge o) A1 []) as [A2 ev]. destruct H as (I2 & Ho2 & Hc2 & _).
  case_if; [destruct allow|]; cbn [held_after].
  - rewrite (a_update_eq _ _ o) by done.
    eapply (Inv_hand_out I2 Ho2 _ (set_o_charge 0 o)); acbn; try done.
    2: { split; [by destruct Hh|]. unfold is_uint. acbn. lia. }
    rewrite Z.add_0_r, wrap_small; [done|].
    rewrite (i_usage _ _ _ _ I2). by apply wrap_range.
  - by apply Inv_discard.
  - eapply (Inv_hand_out I2 Ho2 _ o); acbn; try done. by rewrite insert_id.
Qed.

Lemma Inv_set_capacity A held pend capacity :
  Inv None A held pend -> 0 <= capacity ->
  let '(A', out) := a_set_capacity capacity A in Inv None A' held (pend ++ out).
Proof.
  intros I Hc. unfold a_set_capacity, a_evict.
  set (A1 := with_cfg _ A).
  assert (Inv None A1 held pend) as I1.
  { apply Inv_with_cfg; [done|]. destruct (i_cfg _ _ _ _ I) as (? & ? & _).
    unfold cfg_ok. cbn. auto 10 with xdb. }
  pose proof (Inv_evict_loop _ None A1 held pend 0 [] I1 eq_refl) as H.
  destruct (a_evict_loop _ _ _ _) as [A' out].
  by destruct H as (ev & rest & _ & -> & _ & I' & _).
Qed.

Lemma Inv_set_high_ratio A held pend r :
  Inv None A held pend -> dnonneg r = true ->
  Inv None (a_set_high_ratio r A) held pend.
Proof.
  intros I Hr. unfold a_set_high_ratio, a_balance.
  destruct (i_cfg _ _ _ _ I) as (? & ? & ? & ? & ?).
  apply Inv_with_pools; [|apply order_balance]. apply Inv_with_cfg; [done|].
  unfold cfg_ok. cbn. auto 10 with xdb.
Qed.

Lemma Inv_set_low_ratio A held pend r :
  Inv None A held pend -> dnonneg r = true ->
  Inv None (a_set_low_ratio r A) held pend.
Proof.
  intros I Hr. unfold a_set_low_ratio, a_balance.
  destruct (i_cfg _ _ _ _ I) as (? & ? & ? & ? & ?).
  apply Inv_with_pools; [|apply order_balance]. apply Inv_with_cfg; [done|].
  unfold cfg_ok. cbn. auto 10 with xdb.
Qed.
