(* ===== verification/LruProofs.v ===== *)
(** * Correctness of a shard of the LRU cache

    Every block under the lock computes the abstract operation
    ([*_refines] lemmas), does nothing undefined and keeps the invariant. From this:
    the safety of every interleaving of clients, the accounting of memory, and what
    eviction removes. *)

From stdpp Require Import gmultiset.
From S2P Require Import Prelude.
From S2P Require Import Status.
From S2P Require Import Slice.
From S2P Require Import Double.
From S2P Require Import LruState.
From S2P Require Import LruTable.
From S2P Require Import LruShard.
From S2P Require Import LruTableProofs.
From S2P Require Import LruList.
From S2P Require Import LruSpec.
From S2P Require Import LruRefine.
From S2P Require Import LruInv.

(** ** Field updates *)

Lemma InCache_put b e : InCache (SetInCache b e) = b.
Proof.
  unfold InCache, SetInCache. cbn [m_flags set_m_flags]. change M_IN_CACHE with (2 ^ 0).
  by rewrite has_put_flag.
Qed.

Lemma HasHit_SetInCache b e : HasHit (SetInCache b e) = HasHit e.
Proof.
  unfold HasHit, SetInCache. cbn [m_flags set_m_flags].
  change M_IN_CACHE with (2 ^ 0). change M_HAS_HIT with (2 ^ 1). by rewrite has_put_flag.
Qed.

Lemma pool_SetInCache b e :
  InHighPriPool (SetInCache b e) = InHighPriPool e /\
  InLowPriPool (SetInCache b e) = InLowPriPool e.
Proof.
  unfold InHighPriPool, InLowPriPool, SetInCache. cbn [m_flags set_m_flags].
  change M_IN_CACHE with (2 ^ 0). change M_IN_HIGH_PRI_POOL with (2 ^ 2).
  change M_IN_LOW_PRI_POOL with (2 ^ 3). by rewrite !has_put_flag.
Qed.

Lemma obj_of_SetInCache b e : obj_of (SetInCache b e) = set_o_in b (obj_of e).
Proof.
  unfold obj_of, set_o_in. cbn -[InCache HasHit].
  by rewrite InCache_put, HasHit_SetInCache.
Qed.

Lemma obj_of_SetHit e : obj_of (SetHit e) = set_o_hit true (obj_of e).
Proof.
  unfold obj_of, set_o_hit, InCache, HasHit, SetHit. cbn -[has_flag put_flag].
  change M_IN_CACHE with (2 ^ 0). change M_HAS_HIT with (2 ^ 1).
  by rewrite !has_put_flag.
Qed.

Lemma pool_SetHit e :
  InHighPriPool (SetHit e) = InHighPriPool e /\ InLowPriPool (SetHit e) = InLowPriPool e.
Proof.
  unfold InHighPriPool, InLowPriPool, SetHit. cbn [m_flags set_m_flags].
  change M_HAS_HIT with (2 ^ 1). change M_IN_HIGH_PRI_POOL with (2 ^ 2).
  change M_IN_LOW_PRI_POOL with (2 ^ 3). by rewrite !has_put_flag.
Qed.

(** An update of a handle of the cache, seen on the abstract object. *)
Lemma Rep_update_obj w A l o f g Q :
  Rep w A -> a_obj A !! l = Some o ->
  (forall e, next_hash (f e) = next_hash e /\ key (f e) = key e /\ hash (f e) = hash e) ->
  (forall e, next (f e) = next e /\ prev (f e) = prev e /\
     InHighPriPool (f e) = InHighPriPool e /\ InLowPriPool (f e) = InLowPriPool e) ->
  (forall e, l ∈ order (a_pools A) -> total_charge (f e) = total_charge e) ->
  (forall e, obj_of e = o -> obj_of (f e) = g (obj_of e)) ->
  (forall w', Rep w' (a_update l g A) -> shard w' = shard w -> trace w' = trace w ->
     Q () w') ->
  wp (update (Some l) f) Q w.
Proof.
  intros R Ho H1 H2 H3 H4 HQ. destruct (rep_handle w A l o R Ho) as (e & He & Hoe & Hl).
  eapply (Rep_update R l e f g); auto.
Qed.

Lemma Rep_SetInCache w A l o b Q :
  Rep w A -> a_obj A !! l = Some o ->
  (forall w', Rep w' (a_update l (set_o_in b) A) -> shard w' = shard w ->
     trace w' = trace w -> Q () w') ->
  wp (update (Some l) (SetInCache b)) Q w.
Proof.
  intros R Ho HQ. eapply (Rep_update_obj w A l o _ (set_o_in b)); try done.
  - intros e. split_and!; [done..| |]; apply pool_SetInCache.
  - intros. apply obj_of_SetInCache.
Qed.

Lemma Rep_Ref w A l o Q :
  Rep w A -> a_obj A !! l = Some o ->
  (forall w', Rep w' (a_ref l A) -> shard w' = shard w -> trace w' = trace w -> Q () w') ->
  wp (update (Some l) Ref) Q w.
Proof.
  intros R Ho HQ.
  by eapply (Rep_update_obj w A l o _ (fun o => set_o_refs (u32 (o_refs o + 1)) o)).
Qed.

(** Load of a handle the abstract cache knows. *)
Lemma Rep_load w A l o Q :
  Rep w A -> a_obj A !! l = Some o ->
  (forall e, heap w !! l = Some e -> obj_of e = o -> l <> lru_ -> Q e w) ->
  wp (load (Some l)) Q w.
Proof.
  intros R Ho HQ. destruct (rep_handle w A l o R Ho) as (e & He & Hoe & Hl).
  eapply wp_load; eauto.
Qed.

Lemma HasRefs_obj e o : obj_of e = o -> HasRefs e = (o_refs o >? 0).
Proof. by intros <-. Qed.

Lemma Rep_caps w A : Rep w A -> cfg_ok (a_cfg A) -> caps_ok (shard w).
Proof.
  intros R (_ & _ & H1 & H2 & _). rewrite <- (rp_cfg _ _ R) in H1, H2. done.
Qed.

(** The fields of a loaded handle, read off its abstract object. *)
Ltac obj_fields H :=
  let E := fresh "E" in
  pose proof H as E; unfold obj_of in E;
  match type of E with
  | mkAObj _ _ _ _ _ _ _ _ _ = ?o => destruct o; injection E as ? ? ? ? ? ? ? ? ?; subst
  end.

(** ** Eviction *)

Lemma evict_one_refines w ex A held pend l Q :
  Rep w A -> Inv ex A held pend -> l ∈ order (a_pools A) ->
  (forall w', Rep w' (a_evict_one l A) -> trace w' = trace w -> Q () w') ->
  wp (evict_one l) Q w.
Proof.
  intros R I Hl HQ. destruct (inv_listed I l Hl) as (Hex & o & Ho & _).
  destruct (inv_obj I l o Hex Ho) as (_ & [Hh _] & _).
  unfold a_evict_one in HQ. rewrite Ho in HQ.
  unfold evict_one. wstep. eapply (Rep_load w A l o); [done..|]. intros e He Hoe Hne.
  wstep. apply (Rep_LRU_Remove R l); [done|]. intros w1 R1 T1.
  wstep. subst o. apply (Rep_Table_Remove R1 (key e) (hash e)); [done|]. intros w2 R2 T2.
  wstep. eapply (Rep_SetInCache w2 _ l (obj_of e)); [done|done|]. intros w3 R3 _ T3.
  wsteps. rewrite (rp_usage _ _ R3).
  apply HQ; [by apply Rep_set_usage|cbn; congruence].
Qed.

Lemma lru_next w A :
  Rep w A -> exists d, heap w !! lru_ = Some d /\
    next d = Some (hd_or lru_ (order (a_pools A))).
Proof.
  intros R. pose proof (lr_seg _ _ _ (rp_lru _ _ R)) as Hs.
  destruct (dseg_border (heap w) lru_ [] (order (a_pools A)) lru_ Hs) as [Hn _].
  unfold nx, lst in Hn. cbn in Hn. destruct (heap w !! lru_) as [d|]; [|done]. eauto.
Qed.

Lemma next_dummy w A d :
  Rep w A -> next d = Some (hd_or lru_ (order (a_pools A))) ->
  bool_decide (next d <> Some lru_) = bool_decide (order (a_pools A) <> []).
Proof.
  intros R ->. apply bool_decide_ext.
  destruct (order (a_pools A)) as [|x xs] eqn:E; [done|].
  assert (x <> lru_) by (apply (rep_not_dummy (rp_lru _ _ R)); rewrite E; set_solver).
  cbn. split; congruence.
Qed.

Lemma EvictFromLRU_loop_refines xs : forall fuel w ex A held pend charge out Q,
  Rep w A -> Inv ex A held pend -> order (a_pools A) = xs -> (length xs < fuel)%nat ->
  (forall w', let '(A', out') := a_evict_loop xs charge A out in
     Rep w' A' -> trace w' = trace w -> Q out' w') ->
  wp (EvictFromLRU_loop fuel charge out) Q w.
Proof.
  induction xs as [|x xs IH]; intros fuel w ex A held pend charge out Q R I Hx Hf HQ;
    (destruct fuel as [|fuel]; [lia|]); cbn [EvictFromLRU_loop a_evict_loop] in *; wsteps;
    destruct (lru_next w A R) as (d & Hd & Hn); wsteps;
    rewrite (next_dummy w A d R Hn), Hx.
  - rewrite bool_decide_false by (by intros []). rewrite andb_false_r. wstep. by apply HQ.
  - rewrite bool_decide_true, andb_true_r by done.
    rewrite (rp_usage _ _ R). replace (capacity_ (shard w)) with (c_capacity (a_cfg A))
      by (by rewrite <- (rp_cfg _ _ R)).
    case_if; [|wstep; by apply HQ].
    rewrite Hn, Hx. cbn [hd_or head default]. wstep.
    apply (evict_one_refines w ex A held pend x); [done..|rewrite Hx; set_solver|].
    intros w1 R1 T1.
    apply (IH fuel w1 ex (a_evict_one x A) held (pend ++ [x])); [done| | |cbn in Hf; lia|].
    + apply Inv_evict_one; [done|]. rewrite Hx. set_solver.
    + by eapply order_evict_one.
    + intros w'. specialize (HQ w'). destruct (a_evict_loop xs _ _ _).
      intros R' T'. apply HQ; [done|congruence].
Qed.

Lemma EvictFromLRU_refines w ex A held pend charge out Q :
  Rep w A -> Inv ex A held pend ->
  (forall w' A' out', a_evict charge A out = (A', out') ->
     Rep w' A' -> trace w' = trace w -> Q out' w') ->
  wp (EvictFromLRU charge out) Q w.
Proof.
  intros R I HQ. unfold EvictFromLRU. wsteps.
  eapply (EvictFromLRU_loop_refines (order (a_pools A))); [done..| |].
  - pose proof (rep_order_le (rp_lru _ _ R)). lia.
  - intros w'. destruct (a_evict_loop _ _ _ _) as [A' out'] eqn:E.
    intros. by eapply HQ.
Qed.

Lemma EraseUnRefEntries_loop_refines xs : forall fuel w ex A held pend out Q,
  Rep w A -> Inv ex A held pend -> order (a_pools A) = xs -> (length xs < fuel)%nat ->
  (forall w', let '(A', out') := a_evict_all xs A out in
     Rep w' A' -> trace w' = trace w -> Q out' w') ->
  wp (EraseUnRefEntries_loop fuel out) Q w.
Proof.
  induction xs as [|x xs IH]; intros fuel w ex A held pend out Q R I Hx Hf HQ;
    (destruct fuel as [|fuel]; [lia|]); cbn [EraseUnRefEntries_loop a_evict_all] in *;
    wsteps; destruct (lru_next w A R) as (d & Hd & Hn); wsteps;
    rewrite (next_dummy w A d R Hn), Hx.
  - rewrite bool_decide_false by (by intros []). wstep. by apply HQ.
  - rewrite bool_decide_true by done. rewrite Hn, Hx. cbn [hd_or head default]. wstep.
    apply (evict_one_refines w ex A held pend x); [done..|rewrite Hx; set_solver|].
    intros w1 R1 T1.
    apply (IH fuel w1 ex (a_evict_one x A) held (pend ++ [x])); [done| | |cbn in Hf; lia|].
    + apply Inv_evict_one; [done|]. rewrite Hx. set_solver.
    + by eapply order_evict_one.
    + intros w'. specialize (HQ w'). destruct (a_evict_all xs _ _).
      intros R' T'. apply HQ; [done|congruence].
Qed.

(** ** The blocks under the lock *)

(** [refines m a]: from a world that represents [A], the block [m] returns the
    result of the abstract operation and represents the state it leaves. *)
Definition refines {B} (m : M B) (w : World) (res : B) (A' : ACache) : Prop :=
  wp m (fun r w' => r = res /\ Rep w' A' /\ trace w' = trace w) w.

Section Blocks.
Context {w : World} {A : ACache} {held : gmultiset loc} {pend : list loc}.
Context (R : Rep w A) (I : Inv None A held pend).

Lemma Lookup_refines k h :
  is_uint 32 h ->
  refines (Shard_Lookup k h) w (fst (a_lookup k h A)) (snd (a_lookup k h A)).
Proof.
  intros Hh. unfold refines, Shard_Lookup, a_lookup. wstep.
  apply (Rep_Table_Lookup R); [done|].
  destruct (a_map A !! (k, h)) as [l|] eqn:Hk; [|by wstep].
  destruct (inv_map I _ _ Hk) as (_ & o & Ho & Hin & _). rewrite Ho. cbn [fst snd].
  destruct (inv_obj I l o ltac:(done) Ho) as (_ & _ & _ & H4 & _).
  pose proof (refs_small I l o ltac:(done) Ho) as Hs.
  wstep. eapply (Rep_load w A l o); [done..|]. intros e He Hoe Hne.
  rewrite (HasRefs_obj e o Hoe). wstep.
  set (A1 := if o_refs o >? 0 then A else a_unlist l A).
  assert (a_obj A1 = a_obj A) as E1 by (unfold A1; by case_if).
  eapply (wp_mono _ (fun _ w1 => Rep w1 A1 /\ trace w1 = trace w)).
  { unfold A1. destruct (o_refs o >? 0) eqn:Hr; cbn [negb]; [by wstep|]. zbool.
    apply (Rep_LRU_Remove R l); [|done]. rewrite H4. split; [done|lia]. }
  intros [] w1 [R1 T1]. wstep.
  eapply (Rep_update_obj w1 A1 l o _
    (fun o => set_o_hit true (set_o_refs (u32 (o_refs o + 1)) o))); try done.
  - by rewrite E1.
  - intros e'. split_and!; [done..| |]; apply (pool_SetHit (Ref e')).
  - intros e' _. apply (obj_of_SetHit (Ref e')).
  - intros w2 R2 _ T2. wstep. split_and!; [done..|congruence].
Qed.

Lemma Ref_refines l :
  l ∈ held -> refines (Shard_Ref l) w true (a_ref l A).
Proof.
  intros Hl. destruct (inv_held I l Hl) as (_ & o & Ho & _).
  unfold refines, Shard_Ref. wstep. eapply (Rep_Ref w A l o); [done..|].
  intros w1 R1 _ T1. by wstep.
Qed.

Lemma EraseUnRef_refines :
  refines EraseUnRefEntries_locked w (snd (a_erase_unref A)) (fst (a_erase_unref A)).
Proof.
  unfold refines, EraseUnRefEntries_locked, a_erase_unref. wsteps.
  eapply (EraseUnRefEntries_loop_refines (order (a_pools A))); [done..| |].
  - pose proof (rep_order_le (rp_lru _ _ R)). lia.
  - intros w'. by destruct (a_evict_all _ _ _) as [A' out'].
Qed.

Lemma Release_refines l erase :
  l ∈ held ->
  refines (Release_locked l erase) w (snd (a_release l erase A))
    (fst (a_release l erase A)).
Proof.
  intros Hl. destruct (inv_held I l Hl) as (_ & o & Ho & Hpos).
  destruct (inv_obj I l o ltac:(done) Ho) as (_ & [Hh _] & _ & H4 & _).
  unfold refines, Release_locked, a_release. rewrite Ho. wstep.
  eapply (Rep_load w A l o); [done..|]. intros e He Hoe Hne. unfold Unref.
  set (e' := set_refs (u32 (refs e - 1)) e).
  set (r := u32 (o_refs o - 1)).
  assert (obj_of e' = set_o_refs r o) as Hoe' by (by subst o).
  wstep. eapply (Rep_update R l e (fun _ => e') (set_o_refs r)); try done.
  { subst o. done. }
  intros w1 R1 He1 S1 T1. wsteps. rewrite S1.
  replace (refs e') with r by (by subst o).
  replace (InCache e') with (o_in (set_o_refs r o)) by (by rewrite <- Hoe').
  set (A1 := a_update l (set_o_refs r) A) in *.
  assert (a_obj A1 !! l = Some (set_o_refs r o)) as Ho1.
  { unfold A1, a_update. acbn. by rewrite lookup_alter_eq, Ho. }
  cbn [fst snd].
  destruct (r =? 0) eqn:Hr; cbn [andb negb].
  2: { by wsteps. }
  destruct (o_in (set_o_refs r o)) eqn:Hin; cbn [andb].
  - rewrite (rp_usage _ _ R).
    replace (capacity_ (shard w)) with (c_capacity (a_cfg A)) by (by rewrite <- (rp_cfg _ _ R)).
    destruct ((a_usage A1 >? c_capacity (a_cfg A1)) || erase) eqn:Hc.
    + change (a_usage A1) with (a_usage A) in Hc. change (a_cfg A1) with (a_cfg A) in Hc.
      rewrite Hc. wstep. replace (key e') with (o_key (set_o_refs r o)) by (by rewrite <- Hoe').
      replace (hash e') with (o_hash (set_o_refs r o)) by (by rewrite <- Hoe').
      apply (Rep_Table_Remove R1); [done|]. intros w2 R2 T2. wstep.
      eapply (Rep_SetInCache w2 _ l (set_o_refs r o)); [done|done|]. intros w3 R3 _ T3.
      wsteps. rewrite (rp_usage _ _ R3).
      replace (total_charge e') with (o_charge (set_o_refs r o)) by (by rewrite <- Hoe').
      split_and!; [done|by apply Rep_set_usage|cbn; congruence].
    + change (a_usage A1) with (a_usage A) in Hc. change (a_cfg A1) with (a_cfg A) in Hc.
      rewrite Hc. wstep.
      apply (Rep_LRU_Insert R1 l e'); [done|done| | |].
      * change (a_pools A1) with (a_pools A). rewrite H4. lia.
      * eapply Rep_caps; [done|]. change (a_cfg A1) with (a_cfg A). by destruct I.
      * intros w2 R2 T2. wsteps. rewrite Hoe' in R2.
        split_and!; [done|exact R2|congruence].
  - wsteps. rewrite (rp_usage _ _ R1).
    replace (total_charge e') with (o_charge (set_o_refs r o)) by (by rewrite <- Hoe').
    split_and!; [done|by apply Rep_set_usage|cbn; congruence].
Qed.

(** Updates of a handle that was just allocated. *)
Lemma malloc_update {B} e f (k : loc -> M B) Q w' :
  wp (l ← malloc (f e); k l) Q w' ->
  wp (l ← malloc e; _ ← update (Some l) f; k l) Q w'.
Proof.
  unfold wp, mbind, M_bind, malloc, update. cbn. rewrite lookup_insert_eq. cbn.
  unfold set_heap. cbn. by rewrite insert_insert_eq.
Qed.

End Blocks.

Lemma detach_refines w A l o out Q :
  Rep w A -> a_obj A !! l = Some o -> 0 <= o_refs o ->
  (o_refs o = 0 -> l ∈ order (a_pools A)) ->
  (forall w' A' out', a_drop l o A out = (A', out') -> Rep w' A' -> trace w' = trace w ->
     Q out' w') ->
  wp (detach l out) Q w.
Proof.
  intros R Ho Hr0 Hord HQ. unfold detach, a_drop in *. wstep.
  eapply (Rep_SetInCache w A l o); [done..|]. intros w1 R1 _ T1.
  assert (a_obj (a_update l (set_o_in false) A) !! l = Some (set_o_in false o)) as Ho1.
  { unfold a_update. acbn. by rewrite lookup_alter_eq, Ho. }
  wstep. eapply (Rep_load w1 _ l); [exact R1|exact Ho1|]. intros e He Hoe Hne.
  rewrite (HasRefs_obj _ _ Hoe). acbn. destruct (o_refs o >? 0) eqn:Hr; cbn [negb].
  - wstep. by eapply HQ.
  - zbool. wstep. apply (Rep_LRU_Remove R1 l); [apply Hord; lia|]. intros w2 R2 T2.
    pose proof (f_equal o_charge Hoe) as Hch. cbn in Hch.
    wsteps. rewrite (rp_usage _ _ R2), Hch.
    eapply HQ; [done|by apply Rep_set_usage|cbn; congruence].
Qed.

Lemma Erase_refines w A held pend k h :
  Rep w A -> Inv None A held pend -> is_uint 32 h ->
  refines (Erase_locked k h) w (snd (a_erase k h A)) (fst (a_erase k h A)).
Proof.
  intros R I Hh. unfold refines, Erase_locked, a_erase. wstep.
  apply (Rep_Table_Remove R); [done|]. intros w1 R1 T1.
  destruct (a_map A !! (k, h)) as [l|] eqn:Hk.
  - destruct (inv_map I _ _ Hk) as (_ & o & Ho & Hin & _). rewrite Ho.
    destruct (inv_obj I l o ltac:(done) Ho) as (Hr & _ & _ & H4 & _).
    apply (detach_refines w1 (a_unmap (k, h) A) l o); [done|done|lia| |].
    + intros Hz. by apply H4.
    + intros w2 A2 out2 -> R2 T2. cbn. split_and!; [done..|congruence].
  - wstep. unfold a_unmap, with_map in R1. rewrite delete_id in R1 by done.
    destruct A. done.
Qed.

(** ** Inserting *)

Definition prio_im (p : Priority) : Z :=
  match p with HIGH => IM_IS_HIGH_PRI | LOW => IM_IS_LOW_PRI | BOTTOM => 0 end.

Section Create.
Context (env : CacheEnv).

(** The state in which [InsertItem] and [CreateStandalone] start. *)
Definition fresh_in (w : World) (A : ACache) (l : loc) : Prop :=
  l <> lru_ /\ a_obj A !! l = None /\ (forall k, a_map A !! k <> Some l) /\
  l ∉ order (a_pools A).

Lemma InsertItem_refines w A held pend l e want :
  Rep w (with_obj (<[l := obj_of e]> (a_obj A)) A) -> Inv None A held pend ->
  heap w !! l = Some e -> fresh_in w A l -> is_uint 32 (hash e) -> refs e = 0 ->
  wp (InsertItem_locked l want)
    (fun r w' => let '(st, p, (A', out)) := a_insert l (obj_of e) want A in
       r = (st, p, out) /\ Rep w' A' /\ trace w' = trace w) w.
Proof.
  intros R I He (Hne & Hfresh & Hnm & Hno) Hh Hr. unfold InsertItem_locked, a_insert.
  pose proof (Inv_alloc A held pend l (obj_of e) I Hfresh) as I1.
  set (A1 := with_obj _ A) in *.
  assert (a_obj A1 !! l = Some (obj_of e)) as Ho1
    by (unfold A1; acbn; apply lookup_insert_eq).
  wsteps. eapply (EvictFromLRU_refines w (Some l) A1); [done..|].
  intros w2 A2 ev Hev R2 T2. change (total_charge e) with (o_charge (obj_of e)) in *.
  pose proof (evict_hidden A1 held pend l (obj_of e) (o_charge (obj_of e)) I1 Ho1) as H.
  rewrite Hev in *. destruct H as (I2 & Ho2 & Hc2 & _).
  destruct (i_ex _ _ _ _ I2 l eq_refl) as (Hl1 & _ & _ & Hl4).
  wstep. wstep. rewrite (rp_usage _ _ R2).
  replace (capacity_ (shard w2)) with (c_capacity (a_cfg A2)) by (by rewrite <- (rp_cfg _ _ R2)).
  replace (strict_capacity_limit_ (shard w2)) with (c_strict (a_cfg A2))
    by (by rewrite <- (rp_cfg _ _ R2)).
  case_if.
  - wstep. eapply (Rep_SetInCache w2 A2 l (obj_of e)); [done..|]. intros w3 R3 _ T3.
    destruct want; cbn [negb].
    + wstep. destruct (rep_handle w3 _ l (set_o_in false (obj_of e)) R3) as (e3 & He3 & _).
      { unfold a_update. acbn. by rewrite lookup_alter_eq, Ho2. }
      eapply (Rep_free R3 l e3); [done|done|done|done|]. intros w4 R4 T4. wstep.
      split_and!; [done| |congruence].
      unfold a_update in R4. unfold with_obj in *. acbn in R4.
      by rewrite delete_alter_eq in R4.
    + wstep. split_and!; [done..|congruence].
  - destruct (rep_handle w2 A2 l _ R2 Ho2) as (e2 & He2 & Hoe2 & _).
    assert (key e2 = key e /\ hash e2 = hash e) as [Hk2 Hh2].
    { split; [exact (f_equal o_key Hoe2)|exact (f_equal o_hash Hoe2)]. }
    wstep. apply (Rep_Table_Insert R2 l e2); [done|by rewrite Hh2|done|].
    intros w3 R3 T3. rewrite Hk2, Hh2 in *. wsteps. rewrite (rp_usage _ _ R3).
    pose proof (Rep_set_usage R3 (u64 (a_usage A2 + o_charge (obj_of e)))) as R4.
    set (A4 := with_usage _ _) in *. acbn. acbn in R4.
    (* the end of the block: the handle goes on the list or to the caller *)
    assert (forall (st : Status) A5 (out5 : list loc) w5, Rep w5 A5 -> a_obj A5 !! l = Some (obj_of e) ->
      l ∉ order (a_pools A5) -> a_cfg A5 = a_cfg A2 -> trace w5 = trace w ->
      wp (if negb want then _ ← LRU_Insert l; mret (st, None, out5)
          else eh ← load (Some l);
               _ ← (if negb (HasRefs eh) then update (Some l) Ref else mret ());
               mret (st, Some l, out5))
        (fun r w' => let '(st', p, (A', out)) :=
             (if want then (st, Some l, (a_ref l A5, out5))
              else (st, None, (a_list l (obj_of e) A5, out5))) in
           r = (st', p, out) /\ Rep w' A' /\ trace w' = trace w) w5) as Hend.
    { intros st A5 out5 w5 R5 Ho5 Hl5 Hc5 T5.
      destruct (rep_handle w5 A5 l _ R5 Ho5) as (e5 & He5 & Hoe5 & _).
      destruct want; cbn [negb].
      - wsteps. rewrite (HasRefs_obj _ _ Hoe5). acbn. unfold obj_of. acbn. rewrite Hr.
        cbn [Z.gtb Z.compare negb]. eapply (Rep_Ref w5 A5 l); [done..|].
        intros w6 R6 _ T6. wstep. split_and!; [done..|congruence].
      - wstep. apply (Rep_LRU_Insert R5 l e5); [done..| |].
        { eapply Rep_caps; [done|]. rewrite Hc5. by destruct I2. }
        intros w6 R6 T6. wstep. rewrite Hoe5 in R6. split_and!; [done..|congruence]. }
    destruct (a_map A2 !! (o_key (obj_of e), o_hash (obj_of e))) as [l'|] eqn:Hold.
    + change (key e, hash e) with (o_key (obj_of e), o_hash (obj_of e)). rewrite Hold.
      destruct (inv_map I2 _ _ Hold) as (Hne' & o' & Ho' & Hin' & _).
      destruct (inv_obj I2 l' o' Hne' Ho') as (Hr' & _ & _ & H4' & _).
      assert (l' <> l) as Hll by congruence.
      change (a_obj A4) with (a_obj A2). rewrite Ho'. wstep.
      eapply (detach_refines _ A4 l' o'); [exact R4|done|lia|intros Hz; by apply H4'|].
      intros w5 A5 out5 Hd R5 T5. wstep. rewrite Hd.
      assert (a_obj A5 !! l = Some (obj_of e) /\ l ∉ order (a_pools A5) /\
              a_cfg A5 = a_cfg A2) as (Ho5 & Hl5 & Hc5).
      { unfold a_drop in Hd. destruct (o_refs o' >? 0); injection Hd as <- <-; unfold a_update; acbn;
          rewrite lookup_alter_ne by done; split_and!; try done.
        rewrite elem_of_remove. naive_solver. }
      apply Hend; try done. cbn in T5. congruence.
    + change (key e, hash e) with (o_key (obj_of e), o_hash (obj_of e)). rewrite Hold.
      wstep. apply Hend; try done. cbn. congruence.
Qed.

Lemma Shard_Insert_refines w A held pend k h v hp charge want prio :
  Rep w A -> Inv None A held pend -> is_uint 32 h ->
  wp (Shard_Insert_locked env k h v hp charge want prio)
    (fun r w' => exists l : loc, a_obj A !! l = None /\ l <> lru_ /\
       let '(st, p, (A', out)) :=
         a_insert l (new_obj env (c_policy (a_cfg A)) k h v hp charge 0 true (prio_im prio))
           want A in
       r = (st, p, out) /\ Rep w' A' /\ trace w' = trace w) w.
Proof.
  intros R I Hh. unfold Shard_Insert_locked, CreateHandle.
  replace (c_policy (a_cfg A)) with (metadata_charge_policy_ (shard w))
    by (by rewrite <- (rp_cfg _ _ R)).
  unfold wp, mbind, M_bind at 2. cbn [get].
  change (wp (l ← malloc (CalcTotalCharge env charge (metadata_charge_policy_ (shard w))
            (mkLRUHandle v hp None None None 0 k h 0 0 0));
          _ ← update (Some l) (SetPriority prio);
          _ ← update (Some l) (SetInCache true);
          InsertItem_locked l want)
    (fun r w' => exists l : loc, a_obj A !! l = None /\ l <> lru_ /\
       let '(st, p, (A', out)) :=
         a_insert l (new_obj env (metadata_charge_policy_ (shard w)) k h v hp charge 0 true
           (prio_im prio)) want A in
       r = (st, p, out) /\ Rep w' A' /\ trace w' = trace w) w).
  apply malloc_update, malloc_update. wstep. apply (Rep_malloc R).
  intros l w1 Hfresh Hne He Hnm Hno R1 S1 T1. set (e := SetInCache true _) in *.
  assert (obj_of e = new_obj env (metadata_charge_policy_ (shard w)) k h v hp charge 0 true
    (prio_im prio)) as Hoe.
  { unfold e. rewrite obj_of_SetInCache. by destruct prio. }
  eapply wp_mono; [eapply (InsertItem_refines w1 A held pend l e want); try done|].
  { by destruct prio. }
  { by destruct prio. }
  intros r w2 H. exists l. split_and!; [done..|]. rewrite <- Hoe.
  destruct (a_insert l (obj_of e) want A) as [[st p] [A' out]].
  rewrite <- T1. done.
Qed.

Lemma CreateStandalone_refines w A held pend k h v hp charge allow :
  Rep w A -> Inv None A held pend -> is_uint 32 h ->
  wp (CreateStandalone_locked env k h v hp charge allow)
    (fun r w' => exists l : loc, a_obj A !! l = None /\ l <> lru_ /\
       let '(p, (A', out)) :=
         a_standalone l (new_obj env (c_policy (a_cfg A)) k h v hp charge 1 false
                           IM_IS_STANDALONE) allow A in
       r = (p, out) /\ Rep w' A' /\ trace w' = trace w) w.
Proof.
  intros R I Hh. unfold CreateStandalone_locked, CreateHandle.
  replace (c_policy (a_cfg A)) with (metadata_charge_policy_ (shard w))
    by (by rewrite <- (rp_cfg _ _ R)).
  set (e := Ref (SetIsStandalone true (CalcTotalCharge env charge
    (metadata_charge_policy_ (shard w)) (mkLRUHandle v hp None None None 0 k h 0 0 0)))).
  set (o := new_obj _ _ _ _ _ _ _ _ _ _).
  assert (obj_of e = o) as Hoe by done.
  apply (malloc_update _ (SetIsStandalone true)), (malloc_update _ Ref).
  wstep. apply (Rep_malloc R). fold e.
  intros l w1 Hfresh Hne He Hnm Hno R1 S1 T1. rewrite Hoe in R1.
  unfold a_standalone. pose proof (Inv_alloc A held pend l o I Hfresh) as I1.
  set (A1 := with_obj _ A) in *.
  assert (a_obj A1 !! l = Some o) as Ho1 by (unfold A1; acbn; apply lookup_insert_eq).
  wsteps. eapply (EvictFromLRU_refines w1 (Some l) A1); [done..|].
  intros w2 A2 ev Hev R2 T2. change (total_charge e) with (o_charge o) in *.
  pose proof (evict_hidden A1 held pend l o (o_charge o) I1 Ho1) as H.
  rewrite Hev in *. destruct H as (I2 & Ho2 & Hc2 & _).
  destruct (i_ex _ _ _ _ I2 l eq_refl) as (Hl1 & _ & _ & Hl4).
  wstep. wstep. rewrite (rp_usage _ _ R2).
  replace (capacity_ (shard w2)) with (c_capacity (a_cfg A2)) by (by rewrite <- (rp_cfg _ _ R2)).
  replace (strict_capacity_limit_ (shard w2)) with (c_strict (a_cfg A2))
    by (by rewrite <- (rp_cfg _ _ R2)).
  destruct (c_strict (a_cfg A2) && _) eqn:Hb; [destruct allow|].
  - wstep. eapply (Rep_update_obj w2 A2 l o _ (set_o_charge 0)); try done.
    intros w3 R3 _ T3. wstep. exists l. fold A1. rewrite Hev, Hb.
    split_and!; [done..|congruence].
  - wstep. destruct (rep_handle w2 A2 l o R2 Ho2) as (e2 & He2 & _).
    eapply (Rep_free R2 l e2); try done. intros w3 R3 T3. wstep. exists l. fold A1.
    rewrite Hev, Hb. split_and!; [done..|congruence].
  - wsteps. exists l. fold A1. rewrite Hev, Hb.
    split_and!; [done..|by apply Rep_set_usage|cbn; congruence].
Qed.

Lemma Rep_set_cfg w A f :
  Rep w A ->
  (forall s, table_ (f s) = table_ s /\ usage_ (f s) = usage_ s /\
     lru_bottom_pri_ (f s) = lru_bottom_pri_ s /\ lru_low_pri_ (f s) = lru_low_pri_ s /\
     high_pri_pool_usage_ (f s) = high_pri_pool_usage_ s /\
     low_pri_pool_usage_ (f s) = low_pri_pool_usage_ s /\ lru_usage_ (f s) = lru_usage_ s) ->
  Rep (set_shard (f (shard w)) w) (with_cfg (cfg_of (f (shard w))) A).
Proof.
  intros R Hf. pose proof R as [Ho Ht Hlr Hu Hcfg].
  destruct (Hf (shard w)) as (E1 & E2 & E3 & E4 & E5 & E6 & E7).
  split; cbn; try done; try congruence.
  eapply (LruRep_frame (heap w) _ (shard w)); try done. eauto 10.
Qed.

Lemma SetCapacity_refines w A held pend capacity :
  Rep w A -> Inv None A held pend -> 0 <= capacity ->
  refines (SetCapacity_locked capacity) w (snd (a_set_capacity capacity A))
    (fst (a_set_capacity capacity A)).
Proof.
  intros R I Hc. unfold refines, SetCapacity_locked, a_set_capacity. wsteps.
  set (A1 := with_cfg _ A).
  assert (Inv None A1 held pend) as I1.
  { apply Inv_with_cfg; [done|]. destruct (i_cfg _ _ _ _ I) as (? & ? & _).
    unfold cfg_ok. cbn. auto 10 with xdb. }
  match goal with |- wp _ _ ?x => set (w1 := x) end.
  assert (Rep w1 A1) as R1.
  { unfold A1. rewrite <- (rp_cfg _ _ R).
    apply (Rep_set_cfg w A (fun s => set_low_pool (low_pri_pool_ratio_ s)
      (pool_capacity capacity (low_pri_pool_ratio_ s)) (set_high_pool
      (high_pri_pool_ratio_ s) (pool_capacity capacity (high_pri_pool_ratio_ s))
      (set_capacity capacity s)))); [done|]. by intros []. }
  apply (EvictFromLRU_refines w1 None A1 held pend); [done..|].
  intros w' A' out' -> R' T'. done.
Qed.

Lemma SetStrict_refines w A b :
  Rep w A -> refines (SetStrictCapacityLimit b) w () (a_set_strict b A).
Proof.
  intros R. unfold refines, SetStrictCapacityLimit. wsteps. split_and!; [done| |done].
  unfold a_set_strict. rewrite <- (rp_cfg _ _ R).
  apply (Rep_set_cfg w A (set_strict b)); [done|]. by intros [].
Qed.

Lemma SetHighRatio_refines w A held pend r :
  Rep w A -> Inv None A held pend -> dnonneg r = true ->
  refines (SetHighPriorityPoolRatio r) w () (a_set_high_ratio r A).
Proof.
  intros R I Hr. unfold refines, SetHighPriorityPoolRatio, a_set_high_ratio. wsteps.
  destruct (i_cfg _ _ _ _ I) as (H1 & H2 & H3 & H4 & H5).
  match goal with |- wp _ _ ?x => set (w1 := x) end. set (A1 := with_cfg _ A).
  assert (Rep w1 A1) as R1.
  { unfold A1. rewrite <- (rp_cfg _ _ R).
    apply (Rep_set_cfg w A (fun s => set_high_pool r (pool_capacity (capacity_ s) r) s));
      [done|]. by intros []. }
  apply (Rep_Maintain R1); [|done]. eapply Rep_caps; [done|]. unfold A1, cfg_ok. cbn.
  auto 10 with xdb.
Qed.

Lemma SetLowRatio_refines w A held pend r :
  Rep w A -> Inv None A held pend -> dnonneg r = true ->
  refines (SetLowPriorityPoolRatio r) w () (a_set_low_ratio r A).
Proof.
  intros R I Hr. unfold refines, SetLowPriorityPoolRatio, a_set_low_ratio. wsteps.
  destruct (i_cfg _ _ _ _ I) as (H1 & H2 & H3 & H4 & H5).
  match goal with |- wp _ _ ?x => set (w1 := x) end. set (A1 := with_cfg _ A).
  assert (Rep w1 A1) as R1.
  { unfold A1. rewrite <- (rp_cfg _ _ R).
    apply (Rep_set_cfg w A (fun s => set_low_pool r (pool_capacity (capacity_ s) r) s));
      [done|]. by intros []. }
  apply (Rep_Maintain R1); [|done]. eapply Rep_caps; [done|]. unfold A1, cfg_ok. cbn.
  auto 10 with xdb.
Qed.

(** ** Letting go of handles, outside the lock *)

(** What [Free] reports for an object. *)
Definition del_events (o : AObj) : list Event :=
  match del_cb (o_helper o) with Some d => [EvDelete d (o_value o)] | None => [] end.

(** What [NotifyEvicted] reports for an object. *)
Definition evict_events (tr : list Event) (o : AObj) : list Event :=
  match eviction_callback_ env with
  | None => del_events o
  | Some cb =>
      let took := cb tr (o_key o) (o_value o) (o_hit o) in
      EvEvict (o_key o) (o_value o) (o_hit o) took :: if took then [] else del_events o
  end.

Lemma Rep_add_event w A ev : Rep w A -> Rep (add_event ev w) A.
Proof. intros []. by split. Qed.

Lemma Free_refines w A held pend l :
  Rep w A -> Inv None A held pend -> l ∈ pend ->
  exists o, a_obj A !! l = Some o /\
  wp (Free l) (fun _ w' => Rep w' (with_obj (delete l (a_obj A)) A) /\
    trace w' = trace w ++ del_events o) w.
Proof.
  intros R I Hl. destruct (inv_pending I l Hl) as (_ & o & Ho & Hin & Hr).
  destruct (inv_obj I l o ltac:(done) Ho) as (_ & _ & H3 & H4 & _).
  exists o. split; [done|]. unfold Free, del_events. wstep.
  eapply (Rep_load w A l o); [done..|]. intros e He Hoe Hne. subst o.
  assert (forall k, a_map A !! k <> Some l) as Hm.
  { intros k Hk. apply H3 in Hk as [? _]. congruence. }
  assert (l ∉ order (a_pools A)) as Hn by (rewrite H4; intros [? _]; congruence).
  wstep. cbn [o_helper obj_of o_value]. destruct (del_cb (helper e)) as [d|].
  - unfold emit. eapply wp_of_Some; [done|].
    eapply (Rep_free (Rep_add_event w A _ R) l e); try done.
  - wstep. eapply (Rep_free R l e); try done.
    intros w' R' T'. split; [done|]. by rewrite T', app_nil_r.
Qed.

Lemma NotifyEvicted_one_refines w A held pend l :
  Rep w A -> Inv None A held pend -> l ∈ pend ->
  exists o, a_obj A !! l = Some o /\
  wp (NotifyEvicted_one env l) (fun _ w' => Rep w' (with_obj (delete l (a_obj A)) A) /\
    trace w' = trace w ++ evict_events (trace w) o) w.
Proof.
  intros R I Hl. destruct (Free_refines w A held pend l R I Hl) as (o & Ho & Hfree).
  exists o. split; [done|].
  destruct (rep_handle w A l o R Ho) as (e & He & Hoe & Hne). subst o.
  unfold NotifyEvicted_one, evict_events. wstep. unfold call_eviction_callback.
  unfold wp at 1. rewrite He. destruct (eviction_callback_ env) as [cb|]; [|done].
  cbn [o_key o_value o_hit obj_of].
  set (ev := EvEvict _ _ _ _). destruct (cb _ _ _ _) eqn:Hcb.
  - destruct (inv_pending I l Hl) as (_ & o & Ho' & Hin & Hr).
    destruct (inv_obj I l o ltac:(done) Ho') as (_ & _ & H3 & H4 & _).
    eapply (Rep_free (Rep_add_event w A ev R) l e); try done.
    + intros k Hk. apply H3 in Hk as [? _]. congruence.
    + rewrite H4. intros [? _]. congruence.
  - destruct (Free_refines _ _ held pend l (Rep_add_event w A ev R) I Hl) as (o & Ho' & H).
    rewrite Ho in Ho'. injection Ho' as <-. eapply wp_mono; [exact H|].
    intros [] w' [R' T']. split; [done|]. rewrite T'. cbn. by rewrite <- app_assoc.
Qed.

End Create.
