(* ===== verification/LruSystem.v ===== *)
(** * Clients of a shard

    A shard used by any number of threads: blocks under the lock and the releases
    that follow them outside the lock happen in any order. The system remembers which
    references the clients hold and which handles wait to be released; a client may
    only use a handle it holds. *)

From stdpp Require Import gmultiset.
From S2P Require Import Prelude.
From S2P Require Import Status.
From S2P Require Import Slice.
From S2P Require Import Double.
From S2P Require Import LruState.
From S2P Require Import LruTable.
From S2P Require Import LruShard.
From S2P Require Import LruTableProofs.
From S2P Require Import LruList.
From S2P Require Import LruSpec.
From S2P Require Import LruRefine.
From S2P Require Import LruInv.
From S2P Require Import LruProofs.

(** ** Steps *)

(** [ONotify] and [OFree] are the release of a waiting handle by [NotifyEvicted] and
    by [Free]. *)
Inductive Op : Set :=
| OInsert (k : Slice) (h : Z) (v : ObjectPtr) (hp : CacheItemHelper) (charge : Z)
    (want : bool) (prio : Priority)
| OStandalone (k : Slice) (h : Z) (v : ObjectPtr) (hp : CacheItemHelper) (charge : Z)
    (allow_uncharged : bool)
| OLookup (k : Slice) (h : Z)
| ORef (l : loc)
| ORelease (l : loc) (erase_if_last_ref : bool)
| OErase (k : Slice) (h : Z)
| OEraseUnRef
| OSetCapacity (capacity : Z)
| OSetStrict (b : bool)
| OSetHighRatio (r : double)
| OSetLowRatio (r : double)
| ONotify (l : loc)
| OFree (l : loc).

Record Res : Set := mkRes { r_status : Status; r_handle : ptr }.

Definition done_res : Res := mkRes Status_OK None.

Record Sys : Set := mkSys {
  s_world : World;
  s_held : gmultiset loc;
  s_pend : list loc;
}.

(** What a client must respect. *)
Definition legal (o : Op) (held : gmultiset loc) (pend : list loc) : Prop :=
  match o with
  | OInsert _ h _ _ _ _ _ | OStandalone _ h _ _ _ _ | OLookup _ h =>
      is_uint 32 h /\ room held
  | OErase _ h => is_uint 32 h
  | ORef l => l ∈ held /\ room held
  | ORelease l _ => l ∈ held
  | OSetCapacity c => 0 <= c
  | OSetHighRatio r | OSetLowRatio r => dnonneg r = true
  | ONotify l | OFree l => l ∈ pend
  | OEraseUnRef | OSetStrict _ => True
  end.

Definition held_upd (o : Op) (r : Res) (held : gmultiset loc) : gmultiset loc :=
  match o with
  | ORelease l _ => held ∖ {[+ l +]}
  | _ => held_after (r_handle r) held
  end.

Definition pend_upd (o : Op) (out pend : list loc) : list loc :=
  match o with
  | ONotify l | OFree l => rm l pend
  | _ => pend ++ out
  end.

Section System.
Context (env : CacheEnv).

Definition exec (o : Op) : M (Res * list loc) :=
  match o with
  | OInsert k h v hp charge want prio =>
      '(st, p, out) ← Shard_Insert_locked env k h v hp charge want prio;
      mret (mkRes st p, out)
  | OStandalone k h v hp charge allow =>
      '(p, out) ← CreateStandalone_locked env k h v hp charge allow;
      mret (mkRes Status_OK p, out)
  | OLookup k h => p ← Shard_Lookup k h; mret (mkRes Status_OK p, [])
  | ORef l => _ ← Shard_Ref l; mret (mkRes Status_OK (Some l), [])
  | ORelease l erase => out ← Release_locked l erase; mret (done_res, out)
  | OErase k h => out ← Erase_locked k h; mret (done_res, out)
  | OEraseUnRef => out ← EraseUnRefEntries_locked; mret (done_res, out)
  | OSetCapacity c => out ← SetCapacity_locked c; mret (done_res, out)
  | OSetStrict b => _ ← SetStrictCapacityLimit b; mret (done_res, [])
  | OSetHighRatio r => _ ← SetHighPriorityPoolRatio r; mret (done_res, [])
  | OSetLowRatio r => _ ← SetLowPriorityPoolRatio r; mret (done_res, [])
  | ONotify l => _ ← NotifyEvicted_one env l; mret (done_res, [])
  | OFree l => _ ← Free l; mret (done_res, [])
  end.

Definition sys_step (o : Op) (s : Sys) : option (Res * Sys) :=
  match exec o (s_world s) with
  | Some ((r, out), w') =>
      Some (r, mkSys w' (held_upd o r (s_held s)) (pend_upd o out (s_pend s)))
  | None => None
  end.

(** The state the constructor makes. *)
Definition starts (s : Sys) : Prop :=
  exists capacity strict hr lr policy bits,
    0 <= capacity /\ dnonneg hr = true /\ dnonneg lr = true /\
    LRUCacheShard_new env capacity strict hr lr policy bits = Some (s_world s) /\
    s_held s = ∅ /\ s_pend s = [].

Inductive reach : Sys -> Prop :=
| reach_start s : starts s -> reach s
| reach_step s o r s' :
    reach s -> legal o (s_held s) (s_pend s) -> sys_step o s = Some (r, s') -> reach s'.

(** ** The abstract steps *)

Definition a_step (o : Op) (A : ACache) (r : Res) (out : list loc) (A' : ACache) : Prop :=
  match o with
  | OInsert k h v hp charge want prio =>
      exists l : loc, a_obj A !! l = None /\
        a_insert l (new_obj env (c_policy (a_cfg A)) k h v hp charge 0 true (prio_im prio))
          want A = (r_status r, r_handle r, (A', out))
  | OStandalone k h v hp charge allow =>
      exists l : loc, a_obj A !! l = None /\ r_status r = Status_OK /\
        a_standalone l (new_obj env (c_policy (a_cfg A)) k h v hp charge 1 false
          IM_IS_STANDALONE) allow A = (r_handle r, (A', out))
  | OLookup k h =>
      r_status r = Status_OK /\ a_lookup k h A = (r_handle r, A') /\ out = []
  | ORef l => r = mkRes Status_OK (Some l) /\ A' = a_ref l A /\ out = []
  | ORelease l erase => r = done_res /\ a_release l erase A = (A', out)
  | OErase k h => r = done_res /\ a_erase k h A = (A', out)
  | OEraseUnRef => r = done_res /\ a_erase_unref A = (A', out)
  | OSetCapacity c => r = done_res /\ a_set_capacity c A = (A', out)
  | OSetStrict b => r = done_res /\ A' = a_set_strict b A /\ out = []
  | OSetHighRatio x => r = done_res /\ A' = a_set_high_ratio x A /\ out = []
  | OSetLowRatio x => r = done_res /\ A' = a_set_low_ratio x A /\ out = []
  | ONotify l | OFree l =>
      r = done_res /\ A' = with_obj (delete l (a_obj A)) A /\ out = []
  end.

(** The abstract state of a new shard. *)
Definition a_new (capacity : Z) (strict : bool) (hr lr : double)
    (policy : CacheMetadataChargePolicy) : ACache :=
  mkACache ∅ ∅ (mkPools [] [] []) 0
    (mkACfg policy capacity strict hr (pool_capacity capacity hr) lr
       (pool_capacity capacity lr)).

Lemma Rep_new_shard strict hr lr policy bits :
  Rep (new_shard strict hr lr policy bits)
    (mkACache ∅ ∅ (mkPools [] [] []) 0 (mkACfg policy 0 strict hr d0 lr d0)).
Proof.
  split; [| | |done|done].
  - cbn [a_obj heap new_shard]. symmetry. apply map_eq. intros i.
    rewrite lookup_fmap, lookup_empty. destruct (decide (i = lru_)) as [->|].
    + by rewrite lookup_delete_eq.
    + by rewrite lookup_delete_ne, lookup_singleton_ne.
  - exists (replicate (Z.to_nat (2 ^ 4)) []). split; try done.
    + by apply Forall2_replicate.
    + constructor.
    + intros i xs l Hi Hl. apply lookup_replicate in Hi as [-> _]. set_solver.
  - split; [split|]; try done.
    + apply NoDup_singleton.
    + intros l Hl. cbn in Hl. set_solver.
Qed.

Lemma new_inv capacity strict hr lr policy :
  0 <= capacity -> dnonneg hr = true -> dnonneg lr = true ->
  Inv None (a_new capacity strict hr lr policy) ∅ [].
Proof.
  intros Hc Hh Hl. split; try done; cbn.
  - intros l _. unfold Ok1. cbn. rewrite lookup_empty. split_and!; try set_solver.
  - constructor.
  - constructor.
  - unfold cfg_ok. cbn. auto 10 with xdb.
Qed.

Lemma starts_rep_new s capacity strict hr lr policy bits :
  0 <= capacity -> dnonneg hr = true -> dnonneg lr = true ->
  LRUCacheShard_new env capacity strict hr lr policy bits = Some (s_world s) ->
  s_held s = ∅ -> s_pend s = [] ->
  Rep (s_world s) (a_new capacity strict hr lr policy) /\
  Inv None (a_new capacity strict hr lr policy) (s_held s) (s_pend s).
Proof.
  intros Hc Hh Hl Hnew -> ->. split; [|by apply new_inv].
  unfold LRUCacheShard_new, SetCapacity in Hnew.
  assert (Inv None (mkACache ∅ ∅ (mkPools [] [] []) 0 (mkACfg policy 0 strict hr d0 lr d0))
    ∅ []) as I0.
  { pose proof (new_inv 0 strict hr lr policy ltac:(lia) Hh Hl) as I0.
    by eapply (Inv_with_cfg None _ _ _ (mkACfg policy 0 strict hr d0 lr d0)) in I0. }
  pose proof (SetCapacity_refines _ _ _ _ capacity (Rep_new_shard strict hr lr policy bits)
    I0 Hc) as Hr.
  apply wp_Some in Hr as (out & w' & Heq & -> & R' & _). cbn in Heq, R'.
  unfold mbind, M_bind in Hnew. rewrite Heq in Hnew. cbn in Hnew. by injection Hnew as <-.
Qed.

Lemma starts_rep s :
  starts s -> exists A, Rep (s_world s) A /\ Inv None A (s_held s) (s_pend s) /\
    exists capacity strict hr lr policy, A = a_new capacity strict hr lr policy.
Proof.
  intros (capacity & strict & hr & lr & policy & bits & Hc & Hh & Hl & Hnew & H1 & H2).
  destruct (starts_rep_new s capacity strict hr lr policy bits) as [R I]; eauto 10.
Qed.

Lemma new_obj_ok policy k h v hp charge refs b im :
  is_uint 32 h -> obj_ok (new_obj env policy k h v hp charge refs b im).
Proof. intros. split; [done|]. by apply wrap_range. Qed.

(** One step of the implementation is one step of the specification, with the same
    result, and keeps the invariant. *)
Lemma sim_step o w A held pend :
  Rep w A -> Inv None A held pend -> legal o held pend ->
  exists r out w' A',
    exec o w = Some ((r, out), w') /\ a_step o A r out A' /\ Rep w' A' /\
    Inv None A' (held_upd o r held) (pend_upd o out pend).
Proof.
  intros R I L. destruct o as [k h v hp charge want prio|k h v hp charge allow|k h|l|l er|k h|
    |c|b|x|x|l|l]; cbn [legal exec a_step held_upd pend_upd] in *.
  - destruct L as [Hh Hroom].
    destruct (wp_Some _ _ _ (Shard_Insert_refines env w A held pend k h v hp charge want prio
      R I Hh)) as ([[st p] out] & w' & Heq & l & Hl & _ & H).
    set (ob := new_obj _ _ _ _ _ _ _ _ _ _) in *.
    pose proof (Inv_insert A held pend l ob want I Hl eq_refl eq_refl
      (new_obj_ok _ _ _ _ _ _ _ _ _ Hh) Hroom) as HI.
    destruct (a_insert l ob want A) as [[st' p'] [A' out']] eqn:E.
    destruct H as (Hr & R' & _). injection Hr as -> -> ->.
    exists (mkRes st' p'), out', w', A'. split_and!; [|by eauto|done|done].
    unfold mbind, M_bind. by rewrite Heq.
  - destruct L as [Hh Hroom].
    destruct (wp_Some _ _ _ (CreateStandalone_refines env w A held pend k h v hp charge allow
      R I Hh)) as ([p out] & w' & Heq & l & Hl & _ & H).
    set (ob := new_obj _ _ _ _ _ _ _ _ _ _) in *.
    pose proof (Inv_standalone A held pend l ob allow I Hl eq_refl eq_refl
      (new_obj_ok _ _ _ _ _ _ _ _ _ Hh) Hroom) as HI.
    destruct (a_standalone l ob allow A) as [p' [A' out']] eqn:E.
    destruct H as (Hr & R' & _). injection Hr as -> ->.
    exists (mkRes Status_OK p'), out', w', A'. split_and!; [|by eauto|done|done].
    unfold mbind, M_bind. by rewrite Heq.
  - destruct L as [Hh Hroom].
    destruct (wp_Some _ _ _ (Lookup_refines R I k h Hh)) as (p & w' & Heq & -> & R' & _).
    pose proof (Inv_lookup None A held pend k h I Hroom) as HI.
    destruct (a_lookup k h A) as [p A'] eqn:E. cbn [fst snd] in *.
    exists (mkRes Status_OK p), [], w', A'. rewrite app_nil_r.
    split_and!; [unfold mbind, M_bind; by rewrite Heq|done..|].
    destruct p; [by apply HI|]. by destruct HI as [_ ->].
  - destruct L as [Hl Hroom].
    destruct (wp_Some _ _ _ (Ref_refines R I l Hl)) as (p & w' & Heq & -> & R' & _).
    eexists _, [], w', _. rewrite app_nil_r.
    split_and!; [unfold mbind, M_bind; by rewrite Heq|done..|]. by apply Inv_ref.
  - destruct (wp_Some _ _ _ (Release_refines R I l er L)) as (p & w' & Heq & -> & R' & _).
    pose proof (Inv_release A held pend l er I L) as HI.
    destruct (a_release l er A) as [A' out] eqn:E. cbn [fst snd] in *.
    exists done_res, out, w', A'. split_and!; [unfold mbind, M_bind; by rewrite Heq|done..].
  - destruct (wp_Some _ _ _ (Erase_refines w A held pend k h R I L))
      as (p & w' & Heq & -> & R' & _).
    pose proof (Inv_erase None A held pend k h I) as HI.
    destruct (a_erase k h A) as [A' out] eqn:E. cbn [fst snd] in *.
    exists done_res, out, w', A'. split_and!; [unfold mbind, M_bind; by rewrite Heq|done..|].
    by apply HI.
  - destruct (wp_Some _ _ _ (EraseUnRef_refines R I)) as (p & w' & Heq & -> & R' & _).
    pose proof (Inv_evict_all _ None A held pend [] I eq_refl) as HI.
    unfold a_erase_unref in *. destruct (a_evict_all _ A []) as [A' out] eqn:E.
    cbn [fst snd] in *. exists done_res, out, w', A'.
    split_and!; [unfold mbind, M_bind; by rewrite Heq|done..|]. by destruct HI as (-> & _ & ?).
  - destruct (wp_Some _ _ _ (SetCapacity_refines w A held pend c R I L))
      as (p & w' & Heq & -> & R' & _).
    pose proof (Inv_set_capacity A held pend c I L) as HI.
    destruct (a_set_capacity c A) as [A' out] eqn:E. cbn [fst snd] in *.
    exists done_res, out, w', A'. split_and!; [unfold mbind, M_bind; by rewrite Heq|done..].
  - destruct (wp_Some _ _ _ (SetStrict_refines w A b R)) as (p & w' & Heq & -> & R' & _).
    eexists done_res, [], w', _. rewrite app_nil_r.
    split_and!; [unfold mbind, M_bind; by rewrite Heq|done..|].
    apply Inv_with_cfg; [done|]. by destruct I.
  - destruct (wp_Some _ _ _ (SetHighRatio_refines w A held pend x R I L))
      as (p & w' & Heq & -> & R' & _).
    eexists done_res, [], w', _. rewrite app_nil_r.
    split_and!; [unfold mbind, M_bind; by rewrite Heq|done..|]. by apply Inv_set_high_ratio.
  - destruct (wp_Some _ _ _ (SetLowRatio_refines w A held pend x R I L))
      as (p & w' & Heq & -> & R' & _).
    eexists done_res, [], w', _. rewrite app_nil_r.
    split_and!; [unfold mbind, M_bind; by rewrite Heq|done..|]. by apply Inv_set_low_ratio.
  - destruct (NotifyEvicted_one_refines env w A held pend l R I L) as (ob & _ & H).
    apply wp_Some in H as ([] & w' & Heq & R' & _). eexists done_res, [], w', _.
    split_and!; [unfold mbind, M_bind; by rewrite Heq|done..|]. by apply Inv_free.
  - destruct (Free_refines w A held pend l R I L) as (ob & _ & H).
    apply wp_Some in H as ([] & w' & Heq & R' & _). eexists done_res, [], w', _.
    split_and!; [unfold mbind, M_bind; by rewrite Heq|done..|]. by apply Inv_free.
Qed.

End System.
