(* ===== verification/LruMain.v ===== *)
(** * Theorems about the LRU cache *)

From stdpp Require Import gmultiset.
From S2P Require Import Prelude.
From S2P Require Import Status.
From S2P Require Import Slice.
From S2P Require Import Double.
From S2P Require Import LruState.
From S2P Require Import LruTable.
From S2P Require Import LruShard.
From S2P Require Import LruTableProofs.
From S2P Require Import LruList.
From S2P Require Import LruSpec.
From S2P Require Import LruRefine.
From S2P Require Import LruInv.
From S2P Require Import LruProofs.
From S2P Require Import LruSystem.

(** ** Reading the list off the memory *)

Fixpoint walk (fuel : nat) (h : Heap) (l : loc) : list loc :=
  match fuel with
  | O => []
  | S fuel =>
      match nx h l with
      | Some x => if bool_decide (x = lru_) then [] else x :: walk fuel h x
      | None => []
      end
  end.

(** The evictable handles, oldest first. *)
Definition lru_list (w : World) : list loc := walk (S (base.size (heap w))) (heap w) lru_.

Lemma walk_dseg h xs : forall a fuel,
  dseg h a xs lru_ -> lru_ ∉ xs -> (length xs < fuel)%nat -> walk fuel h a = xs.
Proof.
  induction xs as [|x xs IH]; intros a fuel Hs Hn Hf; (destruct fuel as [|fuel]; [lia|]);
    cbn [walk dseg] in *.
  - destruct Hs as [-> _]. by rewrite bool_decide_true.
  - destruct Hs as (-> & _ & Hs). rewrite bool_decide_false by set_solver.
    rewrite (IH x fuel); [done..|set_solver|cbn in Hf; lia].
Qed.

Lemma lru_list_order w A : Rep w A -> lru_list w = order (a_pools A).
Proof.
  intros R. apply walk_dseg.
  - by destruct (rp_lru _ _ R) as [[]].
  - pose proof (lr_nodup _ _ _ (rp_lru _ _ R)) as [? _]%NoDup_cons. done.
  - pose proof (rep_order_le (rp_lru _ _ R)). lia.
Qed.

(** ** Executions *)

#[global] Instance legal_dec o held pend : Decision (legal o held pend).
Proof. destruct o; cbn; unfold room; apply _. Defined.

(** Running legal steps. *)
Fixpoint run_ops (env : CacheEnv) (ops : list Op) (s : Sys) : option Sys :=
  match ops with
  | [] => Some s
  | o :: ops =>
      if decide (legal o (s_held s) (s_pend s)) then
        match sys_step env o s with Some (_, s') => run_ops env ops s' | None => None end
      else None
  end.

Lemma run_ops_reach env ops : forall s s',
  reach env s -> run_ops env ops s = Some s' -> reach env s'.
Proof.
  induction ops as [|o ops IH]; intros s s' Hr; cbn [run_ops]; [by intros [= <-]|].
  case_decide as L; [|done]. destruct (sys_step env o s) as [[r s1]|] eqn:E; [|done].
  apply IH. by eapply reach_step.
Qed.

(** A small environment and a cache of capacity 100 in it, half of which is for the
    high-priority pool and a quarter for the low-priority pool. *)
Definition plain_env : CacheEnv := mkCacheEnv None None.

Definition demo_helper : CacheItemHelper := mkCacheItemHelper (Some 7) None None None 0.

Definition half : double := ddiv d1 (double_of_Z 2).
Definition quarter : double := ddiv d1 (double_of_Z 4).

Definition demo_world : World :=
  default (new_shard true half quarter kDontChargeCacheMetadata 32)
    (LRUCacheShard_new plain_env 100 true half quarter kDontChargeCacheMetadata 32).

Definition demo_start : Sys := mkSys demo_world ∅ [].

(** Two high-priority entries, one low, one referenced; the second entry displaces the
    oldest one from the high pool. *)
Definition demo_ops : list Op :=
  [OInsert [x61] 11 1001 demo_helper 30 false HIGH;
   OInsert [x62] 12 1002 demo_helper 30 false HIGH;
   OInsert [x63] 13 1003 demo_helper 20 false LOW;
   OInsert [x64] 14 1004 demo_helper 10 true BOTTOM].

Definition demo_sys : Sys := default demo_start (run_ops plain_env demo_ops demo_start).

Lemma demo_starts : starts plain_env demo_start.
Proof.
  exists 100, true, half, quarter, kDontChargeCacheMetadata, 32.
  split_and!; try done; vm_compute; reflexivity.
Qed.

Lemma demo_reach : reach plain_env demo_sys.
Proof.
  apply (run_ops_reach plain_env demo_ops demo_start); [apply reach_start, demo_starts|].
  vm_compute. reflexivity.
Qed.

Section Reach.
Context (env : CacheEnv).

Lemma reach_rep s :
  reach env s -> exists A, Rep (s_world s) A /\ Inv None A (s_held s) (s_pend s).
Proof.
  induction 1 as [s Hs|s o r s' _ (A & R & I) L Hstep].
  - destruct (starts_rep env s Hs) as (A & R & I & _). eauto.
  - destruct (sim_step env o _ A _ _ R I L) as (r' & out & w' & A' & Hex & _ & R' & I').
    unfold sys_step in Hstep. rewrite Hex in Hstep. injection Hstep as <- <-. eauto.
Qed.

(** C6: whatever clients do, as long as they only use handles they hold, and in
    whatever order the deferred releases happen, no operation of the shard
    dereferences a null or dangling pointer, frees a handle twice, leaves an array or
    runs forever: every step yields a result. *)
Theorem lru_safe s o :
  reach env s -> legal o (s_held s) (s_pend s) ->
  exists r s', sys_step env o s = Some (r, s').
Proof.
  intros Hr L. destruct (reach_rep s Hr) as (A & R & I).
  destruct (sim_step env o _ A _ _ R I L) as (r & out & w' & A' & Hex & _).
  unfold sys_step. rewrite Hex. eauto.
Qed.

(** C23: in every reachable state, every handle in memory is in one of the states of
    the comment of [LRUHandle], decided by its flag and its reference count: the
    count is the number of references clients hold, the hash table finds the handle
    exactly when its flag says so, the list of evictable handles holds exactly the
    unreferenced handles of the cache, and an unreferenced handle outside the cache
    is waiting to be released. *)
Theorem lru_states s l e :
  reach env s -> l <> lru_ -> heap (s_world s) !! l = Some e ->
  refs e = Z.of_nat (multiplicity l (s_held s)) /\
  (InCache e = true <->
     Table_Lookup (key e) (hash e) (s_world s) = Some (Some l, s_world s)) /\
  (l ∈ lru_list (s_world s) <-> InCache e = true /\ refs e = 0) /\
  (l ∈ s_pend s <-> InCache e = false /\ refs e = 0).
Proof.
  intros Hr Hl He. destruct (reach_rep s Hr) as (A & R & I).
  pose proof (rep_obj _ _ _ _ R Hl He) as Ho.
  destruct (inv_obj I l _ ltac:(done) Ho) as (H1 & [H2 _] & H3 & H4 & H5).
  rewrite (lru_list_order _ _ R). split_and!; [done| |done|done].
  assert (Table_Lookup (key e) (hash e) (s_world s) =
          Some (a_map A !! (key e, hash e), s_world s)) as ->.
  { pose proof (Rep_Table_Lookup R (key e) (hash e)
      (fun r w => w = s_world s /\ r = a_map A !! (key e, hash e)) H2) as Hw.
    apply wp_Some in Hw as (r & w & -> & -> & ->); done. }
  split.
  - intros Hin. rewrite (proj2 (H3 (key e, hash e))); done.
  - intros Heq. injection Heq as Heq. by apply H3 in Heq as [? _].
Qed.

(** the accounting of memory. The usage is the sum of the charges of the handles
    that are in the cache or referenced, the evictable part is the sum over the list,
    and the rest is what [GetPinnedUsage] reports; all of this modulo the width of
    the counters. *)
Theorem lru_accounting s :
  reach env s ->
  let w := s_world s in
  let all := total (obj_of <$> delete lru_ (heap w)) in
  let evictable := sumc (heap w) (lru_list w) in
  usage_ (shard w) = u64 all /\ lru_usage_ (shard w) = u64 evictable /\
  GetPinnedUsage w = Some (u64 (all - evictable), w).
Proof.
  intros Hr. destruct (reach_rep s Hr) as (A & R & I). cbn zeta.
  pose proof (i_usage _ _ _ _ I) as Hu. cbn [hide] in Hu.
  rewrite <- (rp_obj _ _ R), (lru_list_order _ _ R).
  rewrite <- (rp_usage _ _ R) in Hu. pose proof (lr_usage _ _ _ (rp_lru _ _ R)) as Hlu.
  split_and!; [done..|]. unfold GetPinnedUsage, mbind, M_bind, get, mret, M_ret.
  rewrite Hu, Hlu. do 2 f_equal. unfold wrap. by rewrite <- Zminus_mod.
Qed.

(** ** Refinement *)

(** Runs of the implementation and of the specification, with what was asked and
    answered. *)
Inductive run : Sys -> list (Op * Res) -> Sys -> Prop :=
| run_nil s : run s [] s
| run_cons s o r s1 tr s2 :
    legal o (s_held s) (s_pend s) -> sys_step env o s = Some (r, s1) -> run s1 tr s2 ->
    run s ((o, r) :: tr) s2.

Inductive a_run : ACache -> list (Op * Res) -> ACache -> Prop :=
| a_run_nil A : a_run A [] A
| a_run_cons A o r out A1 tr A2 :
    a_step env o A r out A1 -> a_run A1 tr A2 -> a_run A ((o, r) :: tr) A2.

(** C4: every run of a shard is a run of the abstract cache: a map and three queues,
    without pointers, flags or buckets. The answers are the same, and the memory
    represents the abstract state at the end. *)
Theorem lru_refines_spec s tr s' :
  starts env s -> run s tr s' ->
  exists capacity strict hr lr policy A',
    a_run (a_new capacity strict hr lr policy) tr A' /\ Rep (s_world s') A'.
Proof.
  intros Hs Hrun. destruct (starts_rep env s Hs) as (A & R & I & c & st & hr & lr & p & HA).
  exists c, st, hr, lr, p. rewrite <- HA. clear Hs HA.
  revert A R I. induction Hrun as [s|s o r s1 tr s2 L Hstep _ IH]; intros A R I.
  - exists A. split; [constructor|done].
  - destruct (sim_step env o _ A _ _ R I L) as (r' & out & w' & A1 & Hex & Ha & R1 & I1).
    unfold sys_step in Hstep. rewrite Hex in Hstep. injection Hstep as <- <-.
    destruct (IH A1 R1 I1) as (A2 & Hr2 & R2). exists A2. split; [|done].
    by econstructor.
Qed.

(** ** Eviction *)

Lemma evict_minimal xs : forall A held pend ex charge out A' out',
  Inv ex A held pend -> order (a_pools A) = xs ->
  a_evict_loop xs charge A out = (A', out') ->
  exists ev, out' = out ++ ev /\
    forall ev1 x ev2, ev = ev1 ++ x :: ev2 ->
      u64 (a_usage A - sumf (a_charge A) ev1 + charge) > c_capacity (a_cfg A).
Proof.
  induction xs as [|x xs IH]; intros A held pend ex charge out A' out' I Hx; cbn [a_evict_loop].
  { intros [= <- <-]. exists []. rewrite app_nil_r. split; [done|].
    intros [|] y ev2 Heq; discriminate. }
  destruct (_ >? _) eqn:Hgt.
  2: { intros [= <- <-]. exists []. rewrite app_nil_r. split; [done|].
       intros [|] y ev2 Heq; discriminate. }
  zbool. intros Hev.
  pose proof (Inv_evict_one ex A held pend x I ltac:(rewrite Hx; set_solver)) as I1.
  destruct (IH _ _ _ _ _ _ _ _ I1 (order_evict_one ex A held pend x xs I Hx) Hev)
    as (ev & -> & Hmin).
  exists (x :: ev). split; [by rewrite <- app_assoc|].
  destruct (inv_listed I x) as (_ & o & Ho & _); [rewrite Hx; set_solver|].
  intros [|y ev1] z ev2 Heq; injection Heq as <- Heq; cbn [sumf foldr].
  - rewrite Z.sub_0_r. lia.
  - specialize (Hmin ev1 z ev2 Heq). rewrite (a_evict_one_eq A x o Ho) in Hmin.
    cbn [a_usage a_cfg] in Hmin.
    rewrite (sumf_ext (a_charge A)) in Hmin.
    + revert Hmin.
      replace (u64 (a_usage A - o_charge o) - sumf (a_charge A) ev1 + charge)
        with (u64 (a_usage A - o_charge o) + (charge - sumf (a_charge A) ev1)) by lia.
      rewrite u64_add. intros Hmin. fold (sumf (a_charge A) ev1).
      assert (a_charge A x = o_charge o) as -> by (unfold a_charge; by rewrite Ho).
      replace (a_usage A - (o_charge o + sumf (a_charge A) ev1) + charge) with
        (a_usage A - o_charge o + (charge - sumf (a_charge A) ev1)) by lia. done.
    + intros l _. unfold a_charge. cbn [a_obj]. rewrite lookup_insert.
      case_decide; [subst; by rewrite Ho|done].
Qed.

(** eviction. [EvictFromLRU] removes handles from the old end of the list only, in
    order, until the charge fits or nothing evictable is left, and not one handle more
    than that takes. *)
Theorem evict_oldest s charge :
  reach env s ->
  exists ev rest w', EvictFromLRU charge [] (s_world s) = Some (ev, w') /\
    lru_list (s_world s) = ev ++ rest /\ lru_list w' = rest /\
    (u64 (usage_ (shard w') + charge) <= capacity_ (shard (s_world s)) \/ rest = []) /\
    (forall ev1 x ev2, ev = ev1 ++ x :: ev2 ->
       u64 (usage_ (shard (s_world s)) - sumc (heap (s_world s)) ev1 + charge) >
       capacity_ (shard (s_world s))).
Proof.
  intros Hr. destruct (reach_rep s Hr) as (A & R & I).
  assert (wp (EvictFromLRU charge []) (fun out w' => exists A', a_evict charge A [] = (A', out)
    /\ Rep w' A') (s_world s)) as Hw by (eapply (EvictFromLRU_refines _ None A); eauto).
  apply wp_Some in Hw as (out & w' & Hex & A' & Hev & R').
  pose proof (Inv_evict_loop _ None A _ _ charge [] I eq_refl) as H. unfold a_evict in Hev.
  rewrite Hev in H. destruct H as (ev & rest & Hord & Hout & Hrest & _ & Hc & _ & Hfit).
  destruct (evict_minimal _ _ _ _ _ _ _ _ _ I eq_refl Hev) as (ev' & Hout' & Hmin).
  cbn in Hout, Hout'. subst ev' out. exists ev, rest, w'.
  rewrite (lru_list_order _ _ R), (lru_list_order _ _ R').
  rewrite (rp_usage _ _ R), (rp_usage _ _ R').
  replace (capacity_ (shard (s_world s))) with (c_capacity (a_cfg A))
    by (by rewrite <- (rp_cfg _ _ R)).
  split_and!; try done. intros ev1 x ev2 Heq. specialize (Hmin ev1 x ev2 Heq).
  unfold sumc. rewrite (sumf_ext (a_charge A)); [done|]. intros l Hl.
  apply (rep_charge R). eapply (rep_not_dummy (rp_lru _ _ R)). rewrite Hord, Heq. set_solver.
Qed.

(** ** Inserting *)

Lemma drop_keeps l l' o o' A out :
  l <> l' -> a_obj A !! l = Some o ->
  a_obj (fst (a_drop l' o' A out)) !! l = Some o /\
  a_map (fst (a_drop l' o' A out)) = a_map A.
Proof.
  intros Hne Ho. unfold a_drop, a_update. case_if; cbn [fst]; acbn;
    by rewrite lookup_alter_ne by done.
Qed.

Lemma a_insert_result A held pend l o st p A' out :
  Inv None A held pend -> a_obj A !! l = None ->
  a_insert l o true A = (st, p, (A', out)) ->
  match p with
  | Some l' =>
      l' = l /\ (st = Status_OK \/ st = OkOverwritten) /\
      a_map A' !! (o_key o, o_hash o) = Some l /\
      a_obj A' !! l = Some (set_o_refs (u32 (o_refs o + 1)) o)
  | None =>
      st = MemoryLimit_msg "Insert failed due to LRU cache being full." /\
      c_strict (a_cfg A) = true /\ order (a_pools A') = [] /\
      u64 (a_usage A' + o_charge o) > c_capacity (a_cfg A)
  end.
Proof.
  intros I Hl Ha. unfold a_insert in Ha. set (A1 := with_obj _ _) in Ha.
  pose proof (evict_hidden A1 held pend l o (o_charge o) (Inv_alloc A held pend l o I Hl)
    ltac:(unfold A1; acbn; by rewrite lookup_insert_eq)) as H.
  destruct (a_evict (o_charge o) A1 []) as [A2 ev].
  destruct H as (I2 & Ho2 & Hc2 & rest & Hord & Hrest & Hfit).
  change (a_cfg A1) with (a_cfg A) in *. rewrite Hc2, orb_false_r in Ha.
  destruct ((_ >? _) && c_strict (a_cfg A)) eqn:Hb; cbn zeta in Ha.
  - zbool. injection Ha as <- <- <- <-. split_and!; try done; [|acbn; lia].
    acbn. rewrite Hrest. destruct Hfit as [Hfit|]; [lia|done].
  - acbn in Ha. set (A4 := with_usage _ _) in Ha.
    assert (a_obj A4 !! l = Some o /\ a_map A4 !! (o_key o, o_hash o) = Some l)
      as [Ho4 Hm4] by (split; [done|apply lookup_insert_eq]).
    destruct (a_map A2 !! (o_key o, o_hash o)) as [l'|] eqn:Hold.
    + destruct (inv_map I2 _ _ Hold) as (Hne & o' & Ho' & _). rewrite Ho' in Ha.
      destruct (drop_keeps l l' o o' A4 ev ltac:(congruence) Ho4) as [Ho5 Hm5].
      destruct (a_drop l' o' A4 ev) as [A5 out5]. injection Ha as <- <- <- <-.
      cbn [fst] in *. split_and!; try done; [by right|unfold a_ref, a_update; acbn; congruence|].
      unfold a_ref, a_update. acbn. by rewrite lookup_alter_eq, Ho5.
    + injection Ha as <- <- <- <-. split_and!; try done; [by left|].
      unfold a_ref, a_update. acbn. acbn in Ho4. by rewrite lookup_alter_eq, Ho4.
Qed.

Lemma rep_lookup w A k hv :
  Rep w A -> is_uint 32 hv -> Table_Lookup k hv w = Some (a_map A !! (k, hv), w).
Proof.
  intros R Hh.
  pose proof (Rep_Table_Lookup R k hv (fun r w' => w' = w /\ r = a_map A !! (k, hv)) Hh) as Hw.
  apply wp_Some in Hw as (r & w' & -> & -> & ->); done.
Qed.

(** what [Insert] returns when it is asked for a handle. Either the new handle: it
    holds the object, has the caller's one reference, and is what the table finds for
    the key from now on; or a memory-limit error, and then the limit is strict, every
    evictable handle is gone and the object still does not fit. *)
Theorem insert_result s k h v hp charge prio r s' :
  reach env s -> legal (OInsert k h v hp charge true prio) (s_held s) (s_pend s) ->
  sys_step env (OInsert k h v hp charge true prio) s = Some (r, s') ->
  match r_handle r with
  | Some l =>
      (r_status r = Status_OK \/ r_status r = OkOverwritten) /\
      Table_Lookup k h (s_world s') = Some (Some l, s_world s') /\
      exists e, heap (s_world s') !! l = Some e /\ value e = v /\ helper e = hp /\
        key e = k /\ refs e = 1
  | None =>
      r_status r = MemoryLimit_msg "Insert failed due to LRU cache being full." /\
      strict_capacity_limit_ (shard (s_world s)) = true /\ lru_list (s_world s') = [] /\
      u64 (usage_ (shard (s_world s')) +
           u64 (charge + CalcuMetaCharge env (metadata_charge_policy_ (shard (s_world s)))
                  (mkLRUHandle v hp None None None 0 k h 0 0 0))) >
      capacity_ (shard (s_world s))
  end.
Proof.
  intros Hr L Hstep. destruct (reach_rep s Hr) as (A & R & I).
  destruct (sim_step env _ _ A _ _ R I L) as (r' & out & w' & A' & Hex & Ha & R' & I').
  unfold sys_step in Hstep. rewrite Hex in Hstep. injection Hstep as <- <-.
  cbn [a_step] in Ha. destruct Ha as (l & Hl & Ha). destruct L as [Hh _].
  apply (a_insert_result _ _ _ _ _ _ _ _ _ I Hl) in Ha. cbn [s_world].
  destruct (r_handle r') as [l'|].
  - destruct Ha as (-> & Hst & Hm & Ho). split; [done|].
    change (a_map A' !! (k, h) = Some l) in Hm.
    rewrite (rep_lookup w' A' k h R' Hh). split; [by rewrite Hm|].
    destruct (rep_handle w' A' l _ R' Ho) as (e & He & Hoe & _). exists e.
    split_and!; [done|apply (f_equal o_value Hoe)|apply (f_equal o_helper Hoe)|
      apply (f_equal o_key Hoe)|apply (f_equal o_refs Hoe)].
  - destruct Ha as (Hst & Hs & Ho & Hu). rewrite (lru_list_order _ _ R'), (rp_usage _ _ R').
    split_and!; try done.
    + by rewrite <- (rp_cfg _ _ R) in Hs.
    + rewrite <- (rp_cfg _ _ R) in Hu. done.
Qed.

(** ** Nothing is lost *)

Lemma run_app s1 tr1 s2 tr2 s3 : run s1 tr1 s2 -> run s2 tr2 s3 -> run s1 (tr1 ++ tr2) s3.
Proof. induction 1; [done|]. intros. cbn. econstructor; eauto. Qed.

Lemma run_reach s tr s' : reach env s -> run s tr s' -> reach env s'.
Proof.
  intros Hr Hrun. induction Hrun as [|s o r s1 tr s2 L Hstep _ IH]; [done|].
  apply IH. by eapply reach_step.
Qed.

(** One legal step, with what it does to the references and the waiting handles. *)
Lemma step_once s o :
  reach env s -> legal o (s_held s) (s_pend s) ->
  exists r out s', run s [(o, r)] s' /\ reach env s' /\
    s_held s' = held_upd o r (s_held s) /\ s_pend s' = pend_upd o out (s_pend s) /\
    (o = OEraseUnRef -> lru_list (s_world s') = [] /\ r = done_res).
Proof.
  intros Hr L. destruct (reach_rep s Hr) as (A & R & I).
  destruct (sim_step env o _ A _ _ R I L) as (r & out & w' & A' & Hex & Ha & R' & I').
  assert (sys_step env o s = Some (r, mkSys w' (held_upd o r (s_held s))
    (pend_upd o out (s_pend s)))) as Hs by (unfold sys_step; by rewrite Hex).
  eexists r, out, _. split_and!.
  - econstructor; [done|exact Hs|constructor].
  - by eapply reach_step.
  - done.
  - done.
  - intros ->. cbn [a_step] in Ha. destruct Ha as [-> Ha]. split; [|done].
    cbn [s_world]. rewrite (lru_list_order _ _ R').
    pose proof (Inv_evict_all _ None A _ _ [] I eq_refl) as H. unfold a_erase_unref in Ha.
    rewrite Ha in H. by destruct H as (_ & ? & _).
Qed.

Definition releases (x : Op * Res) : Prop := match fst x with ORelease _ _ => True | _ => False end.
Definition deferred (x : Op * Res) : Prop := match fst x with ONotify _ | OFree _ => True | _ => False end.

Lemma release_all n : forall s,
  reach env s -> base.size (s_held s) = n ->
  exists tr s', run s tr s' /\ Forall releases tr /\ s_held s' = ∅.
Proof.
  induction n as [|n IH]; intros s Hr Hn.
  - exists [], s. split_and!; [constructor|constructor|]. by apply gmultiset_size_empty_inv.
  - destruct (gmultiset_size_pos_elem_of (s_held s) ltac:(lia)) as [l Hl].
    destruct (step_once s (ORelease l true) Hr Hl) as (r & out & s1 & Hrun & Hr1 & Hh1 & _).
    cbn [held_upd] in Hh1. destruct (IH s1 Hr1) as (tr & s2 & Hrun2 & Hf & Hh2).
    + rewrite Hh1, gmultiset_size_difference by multiset_solver.
      rewrite gmultiset_size_singleton. lia.
    + eexists _, s2. split_and!; [by eapply run_app|by constructor|done].
Qed.

(** The release of a waiting handle keeps the references and the list. *)
Lemma deferred_step s o r s' :
  reach env s -> legal o (s_held s) (s_pend s) -> sys_step env o s = Some (r, s') -> deferred (o, r) ->
  s_held s' = s_held s /\ lru_list (s_world s') = lru_list (s_world s) /\ r = done_res.
Proof.
  intros Hr L Hs Hd. destruct (reach_rep s Hr) as (A & R & I).
  destruct (sim_step env _ _ A _ _ R I L) as (r' & out & w' & A' & Hex & Ha & R' & I').
  unfold sys_step in Hs. rewrite Hex in Hs. injection Hs as <- <-. cbn [s_world s_held].
  destruct o; try done; cbn [a_step held_upd] in *; destruct Ha as (-> & HA & ->);
    rewrite (lru_list_order _ _ R), (lru_list_order _ _ R'), HA; done.
Qed.

Lemma deferred_run s tr s' :
  reach env s -> run s tr s' -> Forall deferred tr ->
  s_held s' = s_held s /\ lru_list (s_world s') = lru_list (s_world s).
Proof.
  intros Hr Hrun. induction Hrun as [|s o r s1 tr s2 L Hs Hrun IH]; [done|].
  intros [Hd Hf]%Forall_cons. destruct (deferred_step _ _ _ _ Hr L Hs Hd) as (H1 & H2 & _).
  destruct IH as [H3 H4]; [by eapply reach_step|done|]. split; congruence.
Qed.

Lemma finish_all n : forall s,
  reach env s -> length (s_pend s) = n ->
  exists tr s', run s tr s' /\ Forall deferred tr /\ s_pend s' = [].
Proof.
  induction n as [|n IH]; intros s Hr Hn.
  - exists [], s. apply nil_length_inv in Hn. split_and!; [constructor|constructor|done].
  - destruct (s_pend s) as [|l pend] eqn:Hp; [done|].
    assert (legal (ONotify l) (s_held s) (s_pend s)) as L by (cbn; rewrite Hp; set_solver).
    destruct (step_once s _ Hr L) as (r & out & s1 & Hrun & Hr1 & _ & Hp1 & _).
    destruct (reach_rep s Hr) as (A & R & I).
    assert (rm l (s_pend s) = pend) as Hrm.
    { pose proof (i_pend _ _ _ _ I) as Hnd. rewrite Hp in *. apply (rm_mid l [] pend Hnd). }
    destruct (IH s1) as (tr & s2 & Hrun2 & Hf & H1); [done| |].
    + rewrite Hp1. cbn [pend_upd]. rewrite Hrm. cbn in Hn. lia.
    + eexists _, s2. split_and!; [by eapply run_app|by constructor|done].
Qed.

(** Without references, entries of the list and waiting handles, nothing is in memory. *)
Lemma nothing_left s :
  reach env s -> s_held s = ∅ -> lru_list (s_world s) = [] -> s_pend s = [] ->
  dom (heap (s_world s)) = {[ lru_ ]} /\ usage_ (shard (s_world s)) = 0.
Proof.
  intros Hr Hh Hl Hp. destruct (reach_rep s Hr) as (A & R & Inv3). rewrite (lru_list_order _ _ R) in Hl.
  assert (a_obj A = ∅) as Hempty.
  { apply map_eq. intros l. rewrite lookup_empty. destruct (a_obj A !! l) as [o|] eqn:Ho;
      [exfalso|done].
    destruct (inv_obj Inv3 l o ltac:(done) Ho) as (H1 & _ & _ & H4 & H5).
    rewrite Hh, multiplicity_empty in H1. rewrite Hl in H4. rewrite Hp in H5.
    destruct (o_in o); [destruct H4 as [_ H4]|destruct H5 as [_ H5]]; set_solver. }
  split.
  - apply set_eq. intros l. rewrite elem_of_dom, elem_of_singleton. split.
    + intros [e He]. destruct (decide (l = lru_)) as [|Hne]; [done|exfalso].
      pose proof (rep_obj _ _ _ _ R Hne He) as Ho. by rewrite Hempty, lookup_empty in Ho.
    + intros ->. apply (rep_heap (rp_lru _ _ R)). set_solver.
  - rewrite (rp_usage _ _ R), (i_usage _ _ _ _ Inv3), Hempty. done.
Qed.

Lemma erase_unref_empties s r s' :
  reach env s -> sys_step env OEraseUnRef s = Some (r, s') ->
  reach env s' /\ s_held s' = s_held s /\ lru_list (s_world s') = [].
Proof.
  intros Hr Hs. destruct (step_once s OEraseUnRef Hr I) as (r1 & out & s1 & Hrun & Hr1 & Hh & _ & Hl).
  destruct (Hl eq_refl) as [Hl1 ->]. inversion Hrun as [|? ? ? ? ? ? _ Hs1 Hnil]; subst.
  inversion Hnil; subst. rewrite Hs in Hs1. injection Hs1 as -> ->. done.
Qed.

(** C24: nothing is lost. In every run in which the clients come to hold no reference, then
    [EraseUnRefEntries] is called and afterwards only deferred releases happen until none
    is left, only the dummy head of the list is in memory and the usage is zero. And from
    every reachable state there is such a run: calls of [Release] only, the call of
    [EraseUnRefEntries], and deferred releases only. *)
Theorem lru_no_leak s :
  reach env s ->
  (forall tr1 s1 r s2 tr3 s3,
     run s tr1 s1 -> s_held s1 = ∅ -> sys_step env OEraseUnRef s1 = Some (r, s2) ->
     run s2 tr3 s3 -> Forall deferred tr3 -> s_pend s3 = [] ->
     dom (heap (s_world s3)) = {[ lru_ ]} /\ usage_ (shard (s_world s3)) = 0) /\
  exists tr1 s1 r s2 tr3 s3,
    run s tr1 s1 /\ Forall releases tr1 /\ s_held s1 = ∅ /\
    sys_step env OEraseUnRef s1 = Some (r, s2) /\
    run s2 tr3 s3 /\ Forall deferred tr3 /\ s_pend s3 = [].
Proof.
  intros Hr. split.
  - intros tr1 s1 r s2 tr3 s3 Hrun1 Hh1 Hs Hrun3 Hf Hp.
    destruct (erase_unref_empties s1 r s2) as (Hr2 & Hh2 & Hl2); [by eapply run_reach|done|].
    destruct (deferred_run _ _ _ Hr2 Hrun3 Hf) as [Hh3 Hl3].
    apply nothing_left; [by eapply run_reach|congruence..].
  - destruct (release_all _ s Hr eq_refl) as (tr1 & s1 & Hrun1 & Hf1 & Hh1).
    pose proof (run_reach _ _ _ Hr Hrun1) as Hr1.
    destruct (step_once s1 OEraseUnRef Hr1 I) as (r & out & s2 & Hrun2 & _).
    inversion Hrun2 as [|? ? ? ? ? ? _ Hs Hnil]; subst. inversion Hnil; subst.
    destruct (finish_all _ s2 ltac:(by eapply erase_unref_empties) eq_refl) as (tr3 & s3 & Hrun3 & Hf3 & Hp3).
    by exists tr1, s1, r, s2, tr3, s3.
Qed.

End Reach.

(** ** The theorems at work on the small cache *)

Ltac evaluate := refine (bool_decide_unpack _ _); vm_compute; exact I.

Lemma lru_safe_witness : exists r s', sys_step plain_env (OErase [x62] 12) demo_sys = Some (r, s').
Proof.
  apply (lru_safe plain_env demo_sys (OErase [x62] 12) demo_reach).
  evaluate.
Defined.

Lemma lru_states_witness : exists e,
  heap (s_world demo_sys) !! 4%positive = Some e /\
  (4%positive ∈ lru_list (s_world demo_sys) <-> InCache e = true /\ refs e = 0).
Proof.
  destruct (heap (s_world demo_sys) !! 4%positive) as [e|] eqn:He.
  - exists e. split; [done|].
    apply (lru_states plain_env demo_sys 4%positive e demo_reach); [done|exact He].
  - exfalso. revert He. vm_compute. discriminate.
Defined.

Lemma lru_accounting_witness :
  usage_ (shard (s_world demo_sys)) = 90 /\
  usage_ (shard (s_world demo_sys)) =
    u64 (total (obj_of <$> delete lru_ (heap (s_world demo_sys)))).
Proof.
  split; [vm_compute; reflexivity|].
  apply (lru_accounting plain_env demo_sys demo_reach).
Defined.

Lemma lru_refines_spec_witness : exists s' r capacity strict hr lr policy A',
  a_run plain_env (a_new capacity strict hr lr policy) [(OLookup [x61] 11, r)] A' /\
  Rep (s_world s') A'.
Proof.
  destruct (sys_step plain_env (OLookup [x61] 11) demo_start) as [[r s']|] eqn:Hs.
  - exists s', r.
    apply (lru_refines_spec plain_env demo_start [(OLookup [x61] 11, r)] s' demo_starts).
    econstructor; [|exact Hs|constructor]. evaluate.
  - exfalso. revert Hs. vm_compute. discriminate.
Defined.

(** Thirty more units push out one handle, the oldest of the bottom pool. *)
Lemma evict_oldest_witness :
  lru_list (s_world demo_sys) = [2; 4; 3]%positive /\
  exists ev rest w', EvictFromLRU 30 [] (s_world demo_sys) = Some (ev, w') /\
    lru_list (s_world demo_sys) = ev ++ rest /\ lru_list w' = rest.
Proof.
  split; [vm_compute; reflexivity|].
  destruct (evict_oldest plain_env demo_sys 30 demo_reach)
    as (ev & rest & w' & H1 & H2 & H3 & _).
  exists ev, rest, w'. split; [exact H1|split; [exact H2|exact H3]].
Defined.

Lemma insert_result_witness : exists r s' l,
  sys_step plain_env (OInsert [x65] 15 1005 demo_helper 40 true HIGH) demo_sys = Some (r, s') /\
  r_handle r = Some l /\ Table_Lookup [x65] 15 (s_world s') = Some (Some l, s_world s').
Proof.
  assert (Hr : option_map (fun x => bool_decide (r_handle (fst x) = None))
    (sys_step plain_env (OInsert [x65] 15 1005 demo_helper 40 true HIGH) demo_sys) = Some false)
    by (vm_compute; reflexivity).
  destruct (sys_step plain_env (OInsert [x65] 15 1005 demo_helper 40 true HIGH) demo_sys)
    as [[r s']|] eqn:Hs; cbn in Hr; [|discriminate].
  pose proof (insert_result plain_env demo_sys [x65] 15 1005 demo_helper 40 HIGH r s'
    demo_reach ltac:(evaluate) Hs) as H.
  destruct (r_handle r) as [l|] eqn:Hl; [|discriminate].
  exists r, s', l. split; [reflexivity|]. split; [exact Hl|]. apply H.
Defined.

Lemma lru_no_leak_witness : exists tr1 s1 r s2 tr3 s3,
  run plain_env demo_sys tr1 s1 /\ s_held s1 = ∅ /\
  sys_step plain_env OEraseUnRef s1 = Some (r, s2) /\ run plain_env s2 tr3 s3 /\
  dom (heap (s_world s3)) = {[ lru_ ]} /\ usage_ (shard (s_world s3)) = 0.
Proof.
  destruct (lru_no_leak plain_env demo_sys demo_reach) as
    (Hall & tr1 & s1 & r & s2 & tr3 & s3 & H1 & _ & H2 & H3 & H4 & H5 & H6).
  exists tr1, s1, r, s2, tr3, s3. split_and!; try done; by eapply Hall.
Defined.
