(* ===== verification/LruBounds.v ===== *)
(** * The strict capacity limit of the LRU cache

    With [strict_capacity_limit] the usage never exceeds the capacity, as long as the
    sum of a usage and a charge does not overflow [size_t]; and a charge for which it
    does overflow defeats the limit. *)

From stdpp Require Import gmultiset.
From S2P Require Import Prelude.
From S2P Require Import Status.
From S2P Require Import Slice.
From S2P Require Import Double.
From S2P Require Import LruState.
From S2P Require Import LruShard.
From S2P Require Import LruTableProofs.
From S2P Require Import LruList.
From S2P Require Import LruSpec.
From S2P Require Import LruRefine.
From S2P Require Import LruInv.
From S2P Require Import LruProofs.
From S2P Require Import LruSystem.
From S2P Require Import LruMain.

(** ** Objects that count for less *)

Definition charges_ok (m : gmap loc AObj) : Prop :=
  forall l o, m !! l = Some o -> 0 <= o_charge o.

(** Every object of [m'] is one of [m] and counts for no more. *)
Definition dom_le (m' m : gmap loc AObj) : Prop :=
  forall l o', m' !! l = Some o' -> 0 <= o_charge o' /\
    exists o, m !! l = Some o /\ live_charge o' <= live_charge o.

Lemma live_charge_bounds o : 0 <= o_charge o -> 0 <= live_charge o <= o_charge o.
Proof. intros. unfold live_charge. case_if; lia. Qed.

Lemma dom_le_refl m : charges_ok m -> dom_le m m.
Proof. intros Hc l o Ho. split; [by eapply Hc|]. eauto with lia. Qed.

Lemma dom_le_trans m1 m2 m3 : dom_le m1 m2 -> dom_le m2 m3 -> dom_le m1 m3.
Proof.
  intros H12 H23 l o1 Ho1. destruct (H12 l o1 Ho1) as (Hc & o2 & Ho2 & Hle).
  destruct (H23 l o2 Ho2) as (_ & o3 & Ho3 & Hle'). split; [done|]. eauto with lia.
Qed.

Lemma dom_le_charges m' m : dom_le m' m -> charges_ok m'.
Proof. intros H l o Ho. by destruct (H l o Ho). Qed.

Lemma dom_le_update m l o o' :
  charges_ok m -> m !! l = Some o -> 0 <= o_charge o' ->
  live_charge o' <= live_charge o -> dom_le (<[l := o']> m) m.
Proof.
  intros Hc Ho Hc' Hle x ox. rewrite lookup_insert_Some. intros [[<- <-]|[_ Hx]]; [eauto|].
  split; [by eapply Hc|]. eauto with lia.
Qed.

Lemma dom_le_delete m l : charges_ok m -> dom_le (delete l m) m.
Proof.
  intros Hc x ox [_ Hx]%lookup_delete_Some. split; [by eapply Hc|]. eauto with lia.
Qed.

Lemma total_nonneg m : charges_ok m -> 0 <= total m.
Proof.
  induction m as [|l o m Hl IH] using map_ind; intros Hc; [done|].
  rewrite total_insert by done.
  assert (charges_ok m) as Hc'.
  { intros x ox Hx. apply (Hc x ox). rewrite lookup_insert_ne; [done|congruence]. }
  pose proof (live_charge_bounds o (Hc l o ltac:(apply lookup_insert_eq))).
  specialize (IH Hc'). lia.
Qed.

Lemma total_dom_le m' : forall m, charges_ok m -> dom_le m' m -> total m' <= total m.
Proof.
  induction m' as [|l o' m' Hl IH] using map_ind; intros m Hc Hd.
  { by apply total_nonneg. }
  destruct (Hd l o' ltac:(apply lookup_insert_eq)) as (_ & o & Ho & Hle).
  rewrite total_insert by done.
  assert (total m' <= total (delete l m)) as H.
  { apply IH.
    - intros x ox [_ Hx]%lookup_delete_Some. by eapply Hc.
    - intros x ox Hx. assert (x <> l) by congruence.
      destruct (Hd x ox) as (H1 & o2 & H2 & H3); [by rewrite lookup_insert_ne|].
      split; [done|]. exists o2. by rewrite lookup_delete_ne. }
  rewrite (total_delete _ _ o) in H by done. lia.
Qed.

(** ** The abstract operations *)

Lemma dom_le_a_update A l f :
  charges_ok (a_obj A) ->
  (forall o, a_obj A !! l = Some o -> 0 <= o_charge (f o) /\
     live_charge (f o) <= live_charge o) ->
  dom_le (a_obj (a_update l f A)) (a_obj A).
Proof.
  intros Hc Hf. unfold a_update. acbn. destruct (a_obj A !! l) as [o|] eqn:Ho.
  - rewrite (alter_as_insert _ _ _ o) by done. destruct (Hf o eq_refl).
    by eapply dom_le_update.
  - assert (alter f l (a_obj A) = a_obj A) as ->; [|by apply dom_le_refl].
    apply map_eq. intros i. destruct (decide (i = l)) as [->|].
    + by rewrite lookup_alter_eq, Ho.
    + by rewrite lookup_alter_ne.
Qed.

Lemma live_set_in_false o : 0 <= o_charge o -> live_charge (set_o_in false o) <= live_charge o.
Proof. intros. unfold live_charge. acbn. destruct (o_in o), (o_refs o >? 0); cbn; lia. Qed.

Lemma dom_le_evict_one A l :
  charges_ok (a_obj A) -> dom_le (a_obj (a_evict_one l A)) (a_obj A).
Proof.
  intros Hc. unfold a_evict_one. destruct (a_obj A !! l) as [o|] eqn:Ho;
    [|by apply dom_le_refl]. acbn.
  apply (dom_le_a_update (a_unmap (o_key o, o_hash o) (a_unlist l A))); [done|].
  acbn. intros o' Ho'. split; [by eapply Hc|]. apply live_set_in_false. by eapply Hc.
Qed.

Lemma dom_le_evict xs : forall charge A out,
  charges_ok (a_obj A) ->
  dom_le (a_obj (fst (a_evict_loop xs charge A out))) (a_obj A).
Proof.
  induction xs as [|x xs IH]; intros charge A out Hc; cbn [a_evict_loop];
    [cbn; by apply dom_le_refl|].
  case_if; [|cbn; by apply dom_le_refl]. pose proof (dom_le_evict_one A x Hc) as H1.
  eapply dom_le_trans; [apply IH|exact H1]. by eapply dom_le_charges.
Qed.

Lemma dom_le_evict_all xs : forall A out,
  charges_ok (a_obj A) -> dom_le (a_obj (fst (a_evict_all xs A out))) (a_obj A).
Proof.
  induction xs as [|x xs IH]; intros A out Hc; cbn [a_evict_all]; [cbn; by apply dom_le_refl|].
  pose proof (dom_le_evict_one A x Hc) as H1.
  eapply dom_le_trans; [apply IH|exact H1]. by eapply dom_le_charges.
Qed.

Lemma dom_le_drop A l o out :
  charges_ok (a_obj A) -> dom_le (a_obj (fst (a_drop l o A out))) (a_obj A).
Proof.
  intros Hc. assert (dom_le (a_obj (a_update l (set_o_in false) A)) (a_obj A)).
  { apply dom_le_a_update; [done|]. intros o' Ho'. split; [acbn; by eapply Hc|].
    apply live_set_in_false. by eapply Hc. }
  unfold a_drop. by case_if.
Qed.

(** ** Steps *)

Definition is_new (o : Op) : bool :=
  match o with OInsert _ _ _ _ _ _ _ | OStandalone _ _ _ _ _ _ => true | _ => false end.

Lemma inv_charges A held pend : Inv None A held pend -> charges_ok (a_obj A).
Proof. intros I l o Ho. by destruct (inv_obj I l o ltac:(done) Ho) as (_ & [_ [? _]] & _). Qed.

(** No operation but the two that create objects makes the cache count for more. *)
Lemma a_step_dom_le env o A held pend r out A' :
  Inv None A held pend -> legal o held pend -> is_new o = false ->
  a_step env o A r out A' -> dom_le (a_obj A') (a_obj A).
Proof.
  intros I L Hnew. pose proof (inv_charges _ _ _ I) as Hc.
  assert (forall l ob, a_obj A !! l = Some ob -> 0 <= o_charge ob) as Hc' by done.
  destruct o as [| |k h|l|l er|k h| |c|b|x|x|l|l]; try done; cbn [a_step legal] in *.
  - intros (_ & Ha & _). unfold a_lookup in Ha.
    destruct (a_map A !! (k, h)) as [l|] eqn:Hk; [|injection Ha as _ <-; by apply dom_le_refl].
    destruct (inv_map I _ _ Hk) as (_ & ob & Ho & Hin & _). rewrite Ho in Ha.
    injection Ha as _ <-.
    assert (a_obj (if o_refs ob >? 0 then A else a_unlist l A) = a_obj A) as E by (by case_if).
    rewrite <- E. apply dom_le_a_update; rewrite E; [done|].
    intros ob' Ho'. rewrite Ho in Ho'. injection Ho' as <-. acbn. split; [by eapply Hc|].
    by rewrite !live_charge_in.
  - intros (_ & -> & _). destruct L as [Hl _].
    destruct (inv_held I l Hl) as (_ & ob & Ho & Hpos).
    apply dom_le_a_update; [done|]. intros ob' Ho'. rewrite Ho in Ho'. injection Ho' as <-. acbn.
    split; [by eapply Hc|]. rewrite (live_charge_refs ob) by done.
    apply (live_charge_bounds (set_o_refs _ ob)). acbn. by eapply Hc.
  - intros (_ & Ha). destruct (inv_held I l L) as (_ & ob & Ho & Hpos).
    assert (dom_le (a_obj (a_update l (set_o_refs (u32 (o_refs ob - 1))) A)) (a_obj A)) as H1.
    { apply dom_le_a_update; [done|]. intros ob' Ho'. rewrite Ho in Ho'. injection Ho' as <-. acbn.
      split; [by eapply Hc|]. rewrite (live_charge_refs ob) by done.
      apply (live_charge_bounds (set_o_refs _ ob)). acbn. by eapply Hc. }
    unfold a_release in Ha. rewrite Ho in Ha.
    destruct (negb _); [by injection Ha as <- _|]. destruct (o_in _); [destruct (_ || er)|];
      injection Ha as <- _; acbn; try exact H1.
    eapply dom_le_trans; [|exact H1].
    apply (dom_le_a_update (a_unmap _ (a_update l _ A))); [by eapply dom_le_charges|].
    intros ob' Ho'. split; [acbn; by eapply (dom_le_charges _ _ H1)|].
    apply live_set_in_false. by eapply (dom_le_charges _ _ H1).
  - intros (_ & Ha). unfold a_erase in Ha.
    destruct (a_map A !! (k, h)) as [l|]; [|injection Ha as <- _; by apply dom_le_refl].
    destruct (a_obj A !! l) as [ob|]; [|injection Ha as <- _; by apply dom_le_refl].
    pose proof (dom_le_drop (a_unmap (k, h) A) l ob [] Hc) as H. by rewrite Ha in H.
  - intros (_ & Ha). unfold a_erase_unref in Ha.
    pose proof (dom_le_evict_all (order (a_pools A)) A [] Hc) as H. by rewrite Ha in H.
  - intros (_ & Ha). unfold a_set_capacity, a_evict in Ha.
    match type of Ha with a_evict_loop ?xs ?ch ?A1 ?o = _ =>
      pose proof (dom_le_evict xs ch A1 o Hc) as H end. by rewrite Ha in H.
  - intros (_ & -> & _). by apply dom_le_refl.
  - intros (_ & -> & _). by apply dom_le_refl.
  - intros (_ & -> & _). by apply dom_le_refl.
  - intros (_ & -> & _). by apply dom_le_delete.
  - intros (_ & -> & _). by apply dom_le_delete.
Qed.

Lemma cfg_evict_one A l : a_cfg (a_evict_one l A) = a_cfg A.
Proof. unfold a_evict_one. by destruct (a_obj A !! l). Qed.

Lemma cfg_evict xs : forall charge A out,
  a_cfg (fst (a_evict_loop xs charge A out)) = a_cfg A.
Proof.
  induction xs as [|x xs IH]; intros charge A out; cbn [a_evict_loop]; [done|].
  case_if; [|done]. by rewrite IH, cfg_evict_one.
Qed.

Lemma cfg_evict_all xs : forall A out, a_cfg (fst (a_evict_all xs A out)) = a_cfg A.
Proof.
  induction xs as [|x xs IH]; intros A out; cbn [a_evict_all]; [done|].
  by rewrite IH, cfg_evict_one.
Qed.

Lemma cfg_drop A l o out : a_cfg (fst (a_drop l o A out)) = a_cfg A.
Proof. unfold a_drop. by case_if. Qed.

(** What is counted besides the object under construction. *)
Lemma evict_room A held pend l o A2 ev :
  Inv None A held pend -> a_obj A !! l = None -> is_uint 64 (o_charge o) ->
  a_evict (o_charge o) (with_obj (<[l := o]> (a_obj A)) A) [] = (A2, ev) ->
  Inv (Some l) A2 held (pend ++ ev) /\ a_obj A2 !! l = Some o /\ a_cfg A2 = a_cfg A /\
  charges_ok (a_obj A2) /\ 0 <= total (delete l (a_obj A2)) <= total (a_obj A).
Proof.
  intros I Hl [Hc0 _] Hev. pose proof (inv_charges _ _ _ I) as Hc.
  set (A1 := with_obj _ A) in *.
  pose proof (evict_hidden A1 held pend l o (o_charge o) (Inv_alloc A held pend l o I Hl)
    ltac:(unfold A1; acbn; apply lookup_insert_eq)) as H. rewrite Hev in H.
  destruct H as (I2 & Ho2 & Hc2 & _).
  assert (charges_ok (a_obj A1)) as Hc1.
  { intros x ox. unfold A1. acbn. rewrite lookup_insert_Some.
    intros [[_ <-]|[_ Hx]]; [done|]. by eapply Hc. }
  pose proof (dom_le_evict (order (a_pools A1)) (o_charge o) A1 [] Hc1) as Hd.
  unfold a_evict in Hev. rewrite Hev in Hd. cbn [fst] in Hd.
  pose proof (dom_le_charges _ _ Hd) as Hc2'.
  assert (charges_ok (delete l (a_obj A2))) as Hcd
    by (eapply dom_le_charges; by apply dom_le_delete).
  split_and!; try done; [by apply total_nonneg|]. apply total_dom_le; [done|].
  intros x ox [Hne Hx]%lookup_delete_Some. destruct (Hd x ox Hx) as (H1 & ox1 & H2 & H3).
  split; [done|]. exists ox1. split; [|done]. unfold A1 in H2. acbn in H2.
  by rewrite lookup_insert_ne in H2.
Qed.

(** The limit that strict insertion keeps. *)
Definition within (A : ACache) : Prop :=
  c_strict (a_cfg A) = true /\ total (a_obj A) <= c_capacity (a_cfg A) < 2 ^ 63.

Lemma fits_exactly ex A held pend l c :
  Inv ex A held pend -> ex = Some l -> 0 <= total (delete l (a_obj A)) < 2 ^ 63 ->
  0 <= c < 2 ^ 63 ->
  u64 (a_usage A + c) = total (delete l (a_obj A)) + c.
Proof.
  intros I -> Ht Hc. rewrite (i_usage _ _ _ _ I), u64_add. cbn [hide].
  apply wrap_small. unfold is_uint. lia.
Qed.

Lemma within_insert A held pend l o want st p A' out :
  Inv None A held pend -> within A -> a_obj A !! l = None -> o_in o = true ->
  o_refs o = 0 -> 0 <= o_charge o < 2 ^ 63 ->
  a_insert l o want A = (st, p, (A', out)) -> within A' /\ a_cfg A' = a_cfg A.
Proof.
  intros I [Hs Hw] Hl Hin Hr Hc Ha. unfold a_insert in Ha.
  destruct (a_evict (o_charge o) _ []) as [A2 ev] eqn:Hev.
  destruct (evict_room A held pend l o A2 ev I Hl ltac:(unfold is_uint; lia) Hev)
    as (I2 & Ho2 & Hcf & Hc2 & Ht).
  assert (total (a_obj A2) = total (delete l (a_obj A2)) + o_charge o) as Htot.
  { rewrite (total_delete _ _ o), live_charge_in by done. lia. }
  assert (forall A', a_cfg A' = a_cfg A -> total (a_obj A') <= c_capacity (a_cfg A) ->
    within A' /\ a_cfg A' = a_cfg A) as Hdone.
  { intros B HB HT. unfold within. rewrite HB. split; [|done]. split; [done|lia]. }
  rewrite (fits_exactly _ _ _ _ l _ I2 eq_refl) in Ha by lia. rewrite Hcf, Hs in Ha.
  cbn [orb] in Ha. rewrite andb_true_r in Ha.
  destruct (_ >? c_capacity (a_cfg A)) eqn:Hfit; zbool.
  - destruct want; injection Ha as _ _ <- _; apply Hdone; try done; [acbn; lia|].
    rewrite (a_update_eq _ _ o) by done. acbn.
    rewrite (total_update _ _ o), (live_charge_out (set_o_in false o)) by done. rewrite live_charge_in by done. lia.
  - acbn in Ha.
    (* the replaced object only makes the cache count for less *)
    assert (exists A5, dom_le (a_obj A5) (a_obj A2) /\ a_cfg A5 = a_cfg A2 /\
      (exists o5, a_obj A5 !! l = Some o5 /\ o_in o5 = true) /\
      (A' = a_ref l A5 \/ A' = a_list l o A5)) as (A5 & Hd & Hcf5 & Hl5 & HA').
    { set (A4 := with_usage _ _) in Ha.
      destruct (a_map A2 !! (o_key o, o_hash o)) as [l'|] eqn:Hold.
      - destruct (inv_map I2 _ _ Hold) as (Hne & o' & Ho' & _). rewrite Ho' in Ha.
        pose proof (dom_le_drop A4 l' o' ev Hc2) as Hd.
        pose proof (cfg_drop A4 l' o' ev) as Hcf4.
        assert (a_obj (fst (a_drop l' o' A4 ev)) !! l = Some o) as Hl4.
        { unfold a_drop, a_update. destruct (o_refs o' >? 0); cbn [fst]; acbn;
            rewrite lookup_alter_ne by congruence; done. }
        destruct (a_drop l' o' A4 ev) as [A5 out5]. exists A5.
        destruct want; injection Ha as _ _ <- _; eauto 10.
      - exists A4. split; [by apply dom_le_refl|].
        destruct want; injection Ha as _ _ <- _; eauto 10. }
    destruct Hl5 as (o5 & Ho5 & Hin5).
    assert (dom_le (a_obj A') (a_obj A5) /\ a_cfg A' = a_cfg A5) as [Hd' Hcf'].
    { pose proof (dom_le_charges _ _ Hd) as Hc5.
      destruct HA' as [-> | ->]; (split; [|done]); [|by apply dom_le_refl].
      apply dom_le_a_update; [done|]. intros o' Ho'. rewrite Ho5 in Ho'.
      injection Ho' as <-. split; [acbn; by eapply Hc5|]. by rewrite !live_charge_in. }
    apply Hdone; [congruence|].
    pose proof (total_dom_le _ _ Hc2 (dom_le_trans _ _ _ Hd' Hd)). lia.
Qed.

Lemma within_standalone A held pend l o allow p A' out :
  Inv None A held pend -> within A -> a_obj A !! l = None -> o_in o = false ->
  o_refs o = 1 -> 0 <= o_charge o < 2 ^ 63 ->
  a_standalone l o allow A = (p, (A', out)) -> within A' /\ a_cfg A' = a_cfg A.
Proof.
  intros I [Hs Hw] Hl Hin Hr Hc Ha. unfold a_standalone in Ha.
  destruct (a_evict (o_charge o) _ []) as [A2 ev] eqn:Hev.
  destruct (evict_room A held pend l o A2 ev I Hl ltac:(unfold is_uint; lia) Hev)
    as (I2 & Ho2 & Hcf & Hc2 & Ht).
  assert (total (a_obj A2) = total (delete l (a_obj A2)) + o_charge o) as Htot.
  { rewrite (total_delete _ _ o), live_charge_refs by (done || lia). lia. }
  rewrite (fits_exactly _ _ _ _ l _ I2 eq_refl) in Ha by lia. rewrite Hcf, Hs in Ha.
  cbn [andb] in Ha. unfold within.
  destruct (_ >? c_capacity (a_cfg A)) eqn:Hfit; zbool.
  - destruct allow; injection Ha as _ <- _; acbn; rewrite ?Hcf.
    + rewrite (a_update_eq _ _ o) by done. acbn.
      rewrite (total_update _ _ o), !live_charge_refs by (acbn; done || lia).
      rewrite Hcf. acbn. split; [|done]. split; [done|lia].
    + split; [|done]. split; [done|lia].
  - injection Ha as _ <- _. acbn. rewrite Hcf. split; [|done]. split; [done|lia].
Qed.

Section Strict.
Context (env : CacheEnv).

(** The client leaves the capacity and the kind of limit alone, and charges less than
    half of what a [size_t] can hold. *)
Definition modest (o : Op) (s : Sys) : Prop :=
  let policy := metadata_charge_policy_ (shard (s_world s)) in
  match o with
  | OInsert k h v hp charge _ _ | OStandalone k h v hp charge _ =>
      o_charge (new_obj env policy k h v hp charge 0 true 0) < 2 ^ 63
  | OSetCapacity _ | OSetStrict _ => False
  | _ => True
  end.

Inductive strict_reach : Sys -> Prop :=
| strict_start s capacity hr lr policy bits :
    0 <= capacity < 2 ^ 63 -> dnonneg hr = true -> dnonneg lr = true ->
    LRUCacheShard_new env capacity true hr lr policy bits = Some (s_world s) ->
    s_held s = ∅ -> s_pend s = [] -> strict_reach s
| strict_step s o r s' :
    strict_reach s -> legal o (s_held s) (s_pend s) -> modest o s ->
    sys_step env o s = Some (r, s') -> strict_reach s'.

Lemma within_step o A held pend r out A' :
  Inv None A held pend -> within A -> legal o held pend ->
  match o with
  | OInsert k h v hp charge _ _ | OStandalone k h v hp charge _ =>
      o_charge (new_obj env (c_policy (a_cfg A)) k h v hp charge 0 true 0) < 2 ^ 63
  | OSetCapacity _ | OSetStrict _ => False
  | _ => True
  end ->
  a_step env o A r out A' -> within A'.
Proof.
  intros I W L Hm Ha. destruct (is_new o) eqn:Hnew.
  - destruct o as [k h v hp charge want prio|k h v hp charge allow| | | | | | | | | | |];
      try discriminate Hnew; cbn [a_step] in Ha.
    + destruct Ha as (l & Hl & Ha).
      set (ob := new_obj _ _ _ _ _ _ _ _ _ _) in Ha.
      refine (proj1 (within_insert A held pend l ob _ _ _ _ _ I W Hl eq_refl eq_refl _ Ha)).
      split; [|exact Hm]. by apply wrap_range.
    + destruct Ha as (l & Hl & _ & Ha).
      set (ob := new_obj _ _ _ _ _ _ _ _ _ _) in Ha.
      refine (proj1 (within_standalone A held pend l ob _ _ _ _ I W Hl eq_refl eq_refl _ Ha)).
      split; [|exact Hm]. by apply wrap_range.
  - pose proof (a_step_dom_le env o A held pend r out A' I L Hnew Ha) as Hd.
    pose proof (total_dom_le _ _ (inv_charges _ _ _ I) Hd) as Ht. destruct W as [Hs Hc].
    assert (c_strict (a_cfg A') = c_strict (a_cfg A) /\
            c_capacity (a_cfg A') = c_capacity (a_cfg A)) as [E1 E2].
    { destruct o as [| |k h|l|l er|k h| |c|b|x|x|l|l]; try done; cbn [a_step] in Ha.
      - destruct Ha as (_ & Ha & _). unfold a_lookup in Ha.
        destruct (a_map A !! (k, h)) as [l|]; [|by injection Ha as _ <-].
        destruct (a_obj A !! l) as [ob|]; [|by injection Ha as _ <-].
        injection Ha as _ <-. by destruct (o_refs ob >? 0).
      - by destruct Ha as (_ & -> & _).
      - destruct Ha as (_ & Ha). unfold a_release in Ha.
        destruct (a_obj A !! l) as [ob|]; [|by injection Ha as <- _].
        destruct (negb _); [by injection Ha as <- _|].
        destruct (o_in _); [destruct (_ || er)|]; by injection Ha as <- _.
      - destruct Ha as (_ & Ha). unfold a_erase in Ha.
        destruct (a_map A !! (k, h)) as [l|]; [|by injection Ha as <- _].
        destruct (a_obj A !! l) as [ob|]; [|by injection Ha as <- _].
        pose proof (cfg_drop (a_unmap (k, h) A) l ob []) as H. rewrite Ha in H.
        cbn in H. by rewrite H.
      - destruct Ha as (_ & Ha). unfold a_erase_unref in Ha.
        pose proof (cfg_evict_all (order (a_pools A)) A []) as H. rewrite Ha in H.
        cbn in H. by rewrite H.
      - by destruct Ha as (_ & -> & _).
      - by destruct Ha as (_ & -> & _).
      - by destruct Ha as (_ & -> & _).
      - by destruct Ha as (_ & -> & _). }
    unfold within. rewrite E1, E2. split; [done|lia].
Qed.

Lemma strict_rep s :
  strict_reach s ->
  exists A, Rep (s_world s) A /\ Inv None A (s_held s) (s_pend s) /\ within A.
Proof.
  induction 1 as [s capacity hr lr policy bits Hc Hh Hl Hnew Hheld Hpend|
                  s o r s' _ (A & R & I & W) L Hm Hstep].
  - destruct (starts_rep_new env s capacity true hr lr policy bits) as [R I]; try done;
      [lia|]. exists (a_new capacity true hr lr policy). split_and!; try done.
  - destruct (sim_step env o _ A _ _ R I L) as (r' & out & w' & A' & Hex & Ha & R' & I').
    unfold sys_step in Hstep. rewrite Hex in Hstep. injection Hstep as <- <-.
    exists A'. split_and!; try done. eapply (within_step o A); try done.
    unfold modest in Hm. rewrite <- (rp_cfg _ _ R). done.
Qed.

(** C29: the strict capacity limit. In a cache made with [strict_capacity_limit] and a capacity
    below [2^63], whose capacity and limit flag are never changed and in which every charge,
    with the metadata where the policy counts it, is below [2^63], the usage is the exact sum
    of the charges of all handles in the cache or referenced, and it never exceeds the
    capacity. (A capacity that is lowered while entries are referenced can be exceeded.) *)
Theorem strict_limit s :
  strict_reach s ->
  usage_ (shard (s_world s)) = total (obj_of <$> delete lru_ (heap (s_world s))) /\
  usage_ (shard (s_world s)) <= capacity_ (shard (s_world s)).
Proof.
  intros Hr. destruct (strict_rep s Hr) as (A & R & I & _ & Hw).
  pose proof (total_nonneg _ (inv_charges _ _ _ I)) as H0.
  assert (usage_ (shard (s_world s)) = total (a_obj A)) as Hu.
  { rewrite (rp_usage _ _ R), (i_usage _ _ _ _ I). cbn [hide]. apply wrap_small.
    unfold is_uint. lia. }
  rewrite <- (rp_obj _ _ R). split; [done|]. rewrite Hu.
  rewrite <- (rp_cfg _ _ R) in Hw. cbn in Hw. lia.
Qed.

End Strict.

(** ** The limit at work, and where it fails *)

#[global] Instance modest_dec env o s : Decision (modest env o s).
Proof. destruct o; cbn; apply _. Defined.

(** Running legal and modest steps. *)
Fixpoint run_modest (env : CacheEnv) (ops : list Op) (s : Sys) : option Sys :=
  match ops with
  | [] => Some s
  | o :: ops =>
      if decide (legal o (s_held s) (s_pend s) /\ modest env o s) then
        match sys_step env o s with Some (_, s') => run_modest env ops s' | None => None end
      else None
  end.

Lemma run_modest_strict env ops : forall s s',
  strict_reach env s -> run_modest env ops s = Some s' -> strict_reach env s'.
Proof.
  induction ops as [|o ops IH]; intros s s' Hr; cbn [run_modest]; [by intros [= <-]|].
  case_decide as L; [|done]. destruct (sys_step env o s) as [[r s1]|] eqn:E; [|done].
  apply IH. destruct L. by eapply strict_step.
Qed.

Lemma demo_strict : strict_reach plain_env demo_sys.
Proof.
  apply (run_modest_strict plain_env demo_ops demo_start); [|vm_compute; reflexivity].
  apply (strict_start plain_env demo_start 100 half quarter kDontChargeCacheMetadata 32);
    try done; vm_compute; reflexivity.
Qed.

Lemma strict_limit_witness :
  usage_ (shard (s_world demo_sys)) = 90 /\
  usage_ (shard (s_world demo_sys)) <= capacity_ (shard (s_world demo_sys)).
Proof.
  split; [vm_compute; reflexivity|apply (strict_limit plain_env demo_sys demo_strict)].
Defined.

(** A pinned entry of charge 60, then one whose charge makes the sum of the check wrap. *)
Definition wrap_ops : list Op :=
  [OInsert [x61] 11 1001 demo_helper 60 true HIGH;
   OInsert [x62] 12 1002 demo_helper (2 ^ 64 - 10) true HIGH].

Definition wrap_sys : Sys := default demo_start (run_ops plain_env wrap_ops demo_start).

(** Without the bound on the charges the strict limit does not hold: both entries are
    accepted by a cache of capacity 100 and pinned, and the usage reads 50. *)
Theorem charge_overflow_defeats_limit :
  reach plain_env wrap_sys /\
  strict_capacity_limit_ (shard (s_world wrap_sys)) = true /\
  base.size (s_held wrap_sys) = 2%nat /\
  usage_ (shard (s_world wrap_sys)) = 50 /\
  total (obj_of <$> delete lru_ (heap (s_world wrap_sys))) > capacity_ (shard (s_world wrap_sys)).
Proof.
  split; [|vm_compute; done].
  apply (run_ops_reach plain_env wrap_ops demo_start); [apply reach_start, demo_starts|].
  vm_compute. reflexivity.
Qed.
