(* ===== verification/WalEdit.v ===== *)
(** * WAL edits: the set of write-ahead logs

    [db/wal_edit.h] and [db/wal_edit.cc]: the records of added and deleted logs, their
    MANIFEST encoding, and [WalSet], the logs a version set knows.

    [std::map] is the list of its entries in the order of the keys, because
    [CheckWals] visits them in that order and stops at the first problem. [Env] and
    the listing of the log directory are parameters of [CheckWals]. *)

From stdpp Require Import sorting pretty.
From S2P Require Import Prelude.
From S2P Require Import Status.
From S2P Require Import Slice.
From S2P Require Import Coding.

(** ** Data *)

Definition kUnknownWalSize : Z := 2 ^ 64 - 1.

Record WalMetadata : Set := mkWalMetadata { synced_size_bytes_ : Z }.

Definition new_WalMetadata : WalMetadata := mkWalMetadata kUnknownWalSize.

Definition HasSyncedSize (m : WalMetadata) : bool :=
  negb (synced_size_bytes_ m =? kUnknownWalSize).

Definition WalMetadata_eqb (lhs rhs : WalMetadata) : bool :=
  synced_size_bytes_ lhs =? synced_size_bytes_ rhs.

Definition kTerminate : Z := 1.
Definition kSyncedSize : Z := 2.

Record WalAddition : Set := mkWalAddition {
  wal_number : Z;
  wal_metadata : WalMetadata;
}.

Definition new_WalAddition : WalAddition := mkWalAddition 0 new_WalMetadata.

Definition set_wal_number (n : Z) (w : WalAddition) : WalAddition :=
  mkWalAddition n (wal_metadata w).

Definition SetSyncedSizeInBytes (n : Z) (w : WalAddition) : WalAddition :=
  mkWalAddition (wal_number w) (mkWalMetadata n).

Record WalDeletion : Set := mkWalDeletion { del_number : Z }.

Definition kEmpty : Z := 0.

Definition new_WalDeletion : WalDeletion := mkWalDeletion kEmpty.
Definition WalDeletion_IsEmpty (d : WalDeletion) : bool := del_number d =? kEmpty.
Definition WalDeletion_Reset (d : WalDeletion) : WalDeletion := mkWalDeletion kEmpty.

(** ** Encoding *)

(** The size goes through the [uint32_t] parameter of [PutVarint32]. *)
Definition WalAddition_EncodeTo (w : WalAddition) (dst : bytes) : bytes :=
  let dst := PutVarint64 dst (wal_number w) in
  let dst :=
    if HasSyncedSize (wal_metadata w) then
      let dst := PutVarint32 dst kSyncedSize in
      PutVarint32 dst (wrap 32 (synced_size_bytes_ (wal_metadata w)))
    else dst in
  PutVarint32 dst kTerminate.

Definition WalDeletion_EncodeTo (d : WalDeletion) (dst : bytes) : bytes :=
  PutVarint64 dst (del_number d).

Section Decoding.
Context `{VarintReader}.

(** The [while (true)] loop over the tags, with the number of iterations left; [None]
    when they are used up. *)
Fixpoint WalAddition_decode_tags (fuel : nat) (w : WalAddition) (src : Slice) :
    option (Status * WalAddition * Slice) :=
  match fuel with
  | O => None
  | S fuel =>
      match GetVarint32 src with
      | (None, src) => Some (Corruption "WalAddition" "Error decoding tag", w, src)
      | (Some tag_value, src) =>
          if tag_value =? kSyncedSize then
            match GetVarint64 src with
            | (None, src) =>
                Some (Corruption "WalAddition" "Error decoding WAL file size", w, src)
            | (Some size, src) =>
                WalAddition_decode_tags fuel (SetSyncedSizeInBytes size w) src
            end
          else if tag_value =? kTerminate then Some (Status_OK, w, src)
          else Some (Corruption "WalAddition" ("Unknown tag " +:+ pretty tag_value), w, src)
      end
  end.

(** Every tag takes at least one byte of the input. *)
Definition WalAddition_DecodeFrom (w : WalAddition) (src : Slice) :
    option (Status * WalAddition * Slice) :=
  match GetVarint64 src with
  | (None, src) => Some (Corruption "WalAddition" "Error decoding WAL log number", w, src)
  | (Some n, src) => WalAddition_decode_tags (S (length src)) (set_wal_number n w) src
  end.

Definition WalDeletion_DecodeFrom (d : WalDeletion) (src : Slice) :
    Status * WalDeletion * Slice :=
  match GetVarint64 src with
  | (None, src) => (Corruption "WalDeletion" "Error decoding WAL log number", d, src)
  | (Some n, src) => (Status_OK, mkWalDeletion n, src)
  end.

End Decoding.

(** ** Printing *)

Definition WalAddition_DebugString (w : WalAddition) : string :=
  "log_number: " +:+ pretty (wal_number w) +:+ " synced_size_in_bytes: " +:+
  pretty (synced_size_bytes_ (wal_metadata w)).

Definition WalDeletion_DebugString (d : WalDeletion) : string :=
  "log_number: " +:+ pretty (del_number d).

(** ** The set *)

Record WalSet : Set := mkWalSet {
  wals_ : list (Z * WalMetadata);
  min_wal_number_to_keep_ : Z;
}.

Definition new_WalSet : WalSet := mkWalSet [] 0.

(** [std::map::lower_bound]: the entries before the position and those from it on. *)
Fixpoint wals_lower_bound (n : Z) (m : list (Z * WalMetadata)) :
    list (Z * WalMetadata) * list (Z * WalMetadata) :=
  match m with
  | [] => ([], [])
  | (k, v) :: rest =>
      if k <? n then let '(a, b) := wals_lower_bound n rest in ((k, v) :: a, b)
      else ([], m)
  end.

Definition created_twice (n : Z) : Status :=
  Corruption "WalSet::AddWal" ("WAL " +:+ pretty n +:+ " is created more than once").

Definition AddWal (s : WalSet) (wal : WalAddition) : Status * WalSet :=
  let n := wal_number wal in
  let meta := wal_metadata wal in
  if n <? min_wal_number_to_keep_ s then (Status_OK, s)
  else
    let '(before, it) := wals_lower_bound n (wals_ s) in
    let put m := mkWalSet m (min_wal_number_to_keep_ s) in
    let inserted := (Status_OK, put (before ++ (n, meta) :: it)) in
    match it with
    | [] => inserted
    | (k, old) :: rest =>
        if negb (k =? n) then inserted
        else if negb (HasSyncedSize meta) then (created_twice n, s)
        else if HasSyncedSize old && (synced_size_bytes_ meta <=? synced_size_bytes_ old)
        then (Status_OK, s)
        else
          (Status_OK, put (before ++ (k, mkWalMetadata (synced_size_bytes_ meta)) :: rest))
    end.

Fixpoint AddWals_loop (st : Status) (s : WalSet) (wals : list WalAddition) : Status * WalSet :=
  match wals with
  | [] => (st, s)
  | wal :: wals =>
      let '(st, s) := AddWal s wal in
      if negb (ok st) then (st, s) else AddWals_loop st s wals
  end.

Definition AddWals (s : WalSet) (wals : list WalAddition) : Status * WalSet :=
  AddWals_loop Status_OK s wals.

Definition DeleteWalsBefore (s : WalSet) (wal : Z) : Status * WalSet :=
  if wal >? min_wal_number_to_keep_ s then
    (Status_OK, mkWalSet (snd (wals_lower_bound wal (wals_ s))) wal)
  else (Status_OK, s).

Definition WalSet_Reset (s : WalSet) : WalSet := mkWalSet [] 0.

Definition missing_wal (n : Z) : Status :=
  Corruption ("Missing WAL with log number: " +:+ pretty n +:+ ".") "".

Definition size_mismatch (n expected actual : Z) : Status :=
  Corruption ("Size mismatch: WAL (log number: " +:+ pretty n +:+ ") in MANIFEST is " +:+
    pretty expected +:+ " bytes , but actually is " +:+ pretty actual +:+
    " bytes on disk.") "".

Section Checking.
Context (GetFileSize : string -> Status * Z) (logs_on_disk : gmap Z string).

(** The body of the loop: the status after the log. *)
Definition check_wal (n : Z) (meta : WalMetadata) (s : Status) : Status :=
  if negb (HasSyncedSize meta) then s
  else
    match logs_on_disk !! n with
    | None => missing_wal n
    | Some fname =>
        let '(s, log_file_size) := GetFileSize fname in
        if negb (ok s) then s
        else if log_file_size <? synced_size_bytes_ meta
        then size_mismatch n (synced_size_bytes_ meta) log_file_size
        else s
    end.

Fixpoint CheckWals_loop (wals : list (Z * WalMetadata)) (s : Status) : Status :=
  match wals with
  | [] => s
  | (n, meta) :: wals =>
      let s := check_wal n meta s in
      if ok s then CheckWals_loop wals s else s
  end.

Definition CheckWals (s : WalSet) : Status := CheckWals_loop (wals_ s) Status_OK.

End Checking.

(** ** Histories of a set *)

Inductive WalEvent : Set :=
| EAdd (wal : WalAddition)
| EDeleteBefore (n : Z).

Definition wal_event (s : WalSet) (e : WalEvent) : WalSet :=
  match e with
  | EAdd wal => snd (AddWal s wal)
  | EDeleteBefore n => snd (DeleteWalsBefore s n)
  end.

Definition wal_history (evs : list WalEvent) : WalSet := foldl wal_event new_WalSet evs.

(** What a history says about the log [n], whatever the order of its events: the
    largest deletion bound, the sizes recorded, the largest known one. *)
Definition join_min (e : WalEvent) (acc : Z) : Z :=
  match e with EDeleteBefore n => Z.max n acc | EAdd _ => acc end.

Definition history_min (evs : list WalEvent) : Z := foldr join_min 0 evs.

(** [None]: never added; [Some None]: added but not synced. *)
Definition join_size (n : Z) (e : WalEvent) (acc : option (option Z)) : option (option Z) :=
  match e with
  | EAdd wal =>
      if wal_number wal =? n then
        let known := default None acc in
        Some (if HasSyncedSize (wal_metadata wal) then
                Some (match known with
                      | Some z => Z.max (synced_size_bytes_ (wal_metadata wal)) z
                      | None => synced_size_bytes_ (wal_metadata wal)
                      end)
              else known)
      else acc
  | EDeleteBefore _ => acc
  end.

Definition history_size (n : Z) (evs : list WalEvent) : option (option Z) :=
  foldr (join_size n) None evs.

Definition meta_of (known : option Z) : WalMetadata :=
  mkWalMetadata (default kUnknownWalSize known).

(** What the set holds for [n] after the history. *)
Definition history_meta (n : Z) (evs : list WalEvent) : option WalMetadata :=
  if n <? history_min evs then None else meta_of <$> history_size n evs.

Lemma history_min_perm evs evs' : evs ≡ₚ evs' -> history_min evs = history_min evs'.
Proof.
  apply (foldr_permutation_proper eq join_min 0).
  intros x y z. destruct x, y; cbn; lia.
Qed.

Lemma history_size_perm n evs evs' : evs ≡ₚ evs' -> history_size n evs = history_size n evs'.
Proof.
  apply (foldr_permutation_proper eq (join_size n) None).
  intros x y z. destruct x as [x|], y as [y|]; cbn [join_size]; try done.
  destruct (_ =? n), (_ =? n), (HasSyncedSize (wal_metadata x)),
    (HasSyncedSize (wal_metadata y)), z as [[z|]|]; cbn; try done; do 2 f_equal; lia.
Qed.

Lemma history_meta_perm n evs evs' : evs ≡ₚ evs' -> history_meta n evs = history_meta n evs'.
Proof.
  intros Hp. unfold history_meta.
  by rewrite (history_min_perm _ _ Hp), (history_size_perm _ _ _ Hp).
Qed.

(** ** Entries in order *)

Definition key_lt (x y : Z * WalMetadata) : Prop := x.1 < y.1.

Abbreviation sorted := (StronglySorted key_lt).

Lemma sorted_app m1 m2 :
  sorted (m1 ++ m2) <->
  sorted m1 /\ sorted m2 /\ (forall x y, x ∈ m1 -> y ∈ m2 -> key_lt x y).
Proof.
  rewrite StronglySorted_app. naive_solver.
Qed.

Lemma sorted_key m n x y : sorted m -> (n, x) ∈ m -> (n, y) ∈ m -> x = y.
Proof.
  induction 1 as [|[k v] m _ IH Hk]; [set_solver|].
  rewrite Forall_forall in Hk. unfold key_lt in Hk. cbn in Hk.
  intros [Hx|Hx]%elem_of_cons [Hy|Hy]%elem_of_cons; simplify_eq; [done|..|auto].
  - specialize (Hk _ Hy). cbn in Hk. lia.
  - specialize (Hk _ Hx). cbn in Hk. lia.
Qed.


Lemma wals_lower_bound_split n m a b :
  sorted m -> wals_lower_bound n m = (a, b) ->
  m = a ++ b /\ (forall x, x ∈ a -> x.1 < n) /\ (forall x, x ∈ b -> n <= x.1).
Proof.
  intros Hs. revert a b. induction Hs as [|[k v] m Hs IH Hk]; intros a b; cbn [wals_lower_bound].
  { intros [= <- <-]. set_solver. }
  destruct (k <? n) eqn:E; zbool.
  - destruct (wals_lower_bound n m) as [a' b']. intros [= <- <-].
    destruct (IH a' b' eq_refl) as (-> & Ha & Hb). split_and!; [done| |done].
    intros x [->|Hx]%elem_of_cons; [done|auto].
  - intros [= <- <-]. split_and!; [done|set_solver|].
    intros x [->|Hx]%elem_of_cons; [done|]. rewrite Forall_forall in Hk.
    specialize (Hk _ Hx). unfold key_lt in Hk. cbn in Hk. lia.
Qed.

(** ** One event *)

(** What [AddWal] makes of the entry it finds. *)
Definition newer (old meta : WalMetadata) : WalMetadata :=
  if HasSyncedSize old && (synced_size_bytes_ meta <=? synced_size_bytes_ old) then old
  else meta.

Lemma mkWalMetadata_eta m : mkWalMetadata (synced_size_bytes_ m) = m.
Proof. by destruct m. Qed.

(** Replacing or inserting at the position of a key keeps the order. *)
Lemma sorted_put n v a b rest :
  sorted (a ++ b) -> (forall x, x ∈ a -> x.1 < n) -> (forall x, x ∈ b -> n <= x.1) ->
  (b = rest /\ (forall x, x ∈ rest -> x.1 <> n) \/ exists old, b = (n, old) :: rest) ->
  sorted (a ++ (n, v) :: rest).
Proof.
  intros (Ha & Hb & Hab)%sorted_app Hla Hlb Hr. apply sorted_app.
  assert (sorted rest /\ forall x, x ∈ rest -> n < x.1) as [Hs Hlt].
  { destruct Hr as [[-> Hne]|[old ->]].
    - split; [done|]. intros x Hx. specialize (Hlb x Hx). specialize (Hne x Hx). lia.
    - apply StronglySorted_inv in Hb as [? Hf]. rewrite Forall_forall in Hf.
      split; [done|]. intros x Hx. apply (Hf x Hx). }
  split_and!; [done| |].
  - constructor; [done|]. apply Forall_forall. intros x Hx. apply (Hlt x Hx).
  - intros x y Hx. specialize (Hla x Hx). unfold key_lt. intros [->|Hy]%elem_of_cons.
    + done.
    + specialize (Hlt y Hy). lia.
Qed.

Lemma AddWal_new s wal :
  sorted (wals_ s) -> min_wal_number_to_keep_ s <= wal_number wal ->
  (forall old, (wal_number wal, old) ∉ wals_ s) ->
  exists s', AddWal s wal = (Status_OK, s') /\ sorted (wals_ s') /\
    min_wal_number_to_keep_ s' = min_wal_number_to_keep_ s /\
    forall x, x ∈ wals_ s' <-> x = (wal_number wal, wal_metadata wal) \/ x ∈ wals_ s.
Proof.
  intros Hs Hm Hno. unfold AddWal. rewrite (proj2 (Z.ltb_ge _ _)) by done.
  destruct (wals_lower_bound _ _) as [a b] eqn:E.
  destruct (wals_lower_bound_split _ _ _ _ Hs E) as (Heq & Ha & Hb). rewrite Heq in Hs.
  assert (forall x, x ∈ b -> x.1 <> wal_number wal) as Hne.
  { intros [k v] Hx Hk. cbn in Hk. subst k. apply (Hno v). rewrite Heq. set_solver. }
  eexists. split_and!.
  - destruct b as [|[k old] b]; [done|].
    rewrite (proj2 (Z.eqb_neq k _)) by (apply (Hne (k, old)); set_solver). done.
  - apply (sorted_put _ _ _ b b); auto.
  - done.
  - intros x. cbn [wals_]. rewrite Heq. set_solver.
Qed.

Lemma AddWal_old s wal old :
  sorted (wals_ s) -> min_wal_number_to_keep_ s <= wal_number wal ->
  (wal_number wal, old) ∈ wals_ s ->
  if HasSyncedSize (wal_metadata wal) then
    exists s', AddWal s wal = (Status_OK, s') /\ sorted (wals_ s') /\
      min_wal_number_to_keep_ s' = min_wal_number_to_keep_ s /\
      forall x, x ∈ wals_ s' <->
        x = (wal_number wal, newer old (wal_metadata wal)) \/
        (x ∈ wals_ s /\ x.1 <> wal_number wal)
  else AddWal s wal = (created_twice (wal_number wal), s).
Proof.
  intros Hs Hm Hin. unfold AddWal. rewrite (proj2 (Z.ltb_ge _ _)) by done.
  destruct (wals_lower_bound _ _) as [a b] eqn:E.
  destruct (wals_lower_bound_split _ _ _ _ Hs E) as (Heq & Ha & Hb).
  pose proof Hs as Hs0. rewrite Heq in Hs.
  assert (exists rest, b = (wal_number wal, old) :: rest) as [rest ->].
  { rewrite Heq in Hin. apply elem_of_app in Hin as [Hin|Hin].
    { specialize (Ha _ Hin). cbn in Ha. lia. }
    apply sorted_app in Hs as (_ & Hsb & _). destruct b as [|[k v] rest]; [set_solver|].
    apply elem_of_cons in Hin as [Hin|Hin]; [injection Hin as <- <-; eauto|].
    apply StronglySorted_inv in Hsb as [_ Hf]. rewrite Forall_forall in Hf.
    specialize (Hf _ Hin). unfold key_lt in Hf. cbn in Hf.
    specialize (Hb (k, v) ltac:(set_solver)). cbn in Hb. lia. }
  rewrite Z.eqb_refl. cbn [negb]. destruct (HasSyncedSize (wal_metadata wal)); [|done].
  cbn [negb]. rewrite mkWalMetadata_eta. unfold newer.
  assert (forall x, x ∈ a ++ rest <-> x ∈ wals_ s /\ x.1 <> wal_number wal) as Hoth.
  { intros x. rewrite Heq, !elem_of_app, elem_of_cons. split.
    - intros [Hx|Hx].
      + specialize (Ha x Hx). split; [set_solver|lia].
      + apply sorted_app in Hs as (_ & [_ Hf]%StronglySorted_inv & _).
        rewrite Forall_forall in Hf. specialize (Hf x Hx). unfold key_lt in Hf. cbn in Hf.
        split; [set_solver|lia].
    - intros [[Hx|[->|Hx]] Hk]; [set_solver|done|set_solver]. }
  destruct (_ && _); eexists; (split_and!; [done| | |]); cbn [wals_ min_wal_number_to_keep_];
    try done.
  - intros x. rewrite <- Hoth, Heq. set_solver.
  - apply (sorted_put _ _ _ ((wal_number wal, old) :: rest)); eauto.
  - intros x. rewrite <- Hoth. set_solver.
Qed.

Lemma DeleteWalsBefore_spec s n :
  sorted (wals_ s) -> (forall x, x ∈ wals_ s -> min_wal_number_to_keep_ s <= x.1) ->
  exists s', DeleteWalsBefore s n = (Status_OK, s') /\ sorted (wals_ s') /\
    min_wal_number_to_keep_ s' = Z.max n (min_wal_number_to_keep_ s) /\
    forall x, x ∈ wals_ s' <-> x ∈ wals_ s /\ n <= x.1.
Proof.
  intros Hs Hmin. unfold DeleteWalsBefore. destruct (_ >? _) eqn:E; zbool.
  - destruct (wals_lower_bound n (wals_ s)) as [a b] eqn:El.
    destruct (wals_lower_bound_split _ _ _ _ Hs El) as (Heq & Ha & Hb).
    eexists. split_and!; [done| |cbn; lia|]; cbn [snd wals_].
    + rewrite Heq in Hs. by apply sorted_app in Hs as (_ & ? & _).
    + intros x. rewrite Heq, elem_of_app. split; [intros; split; auto|].
      intros [[Hx|Hx] Hn]; [specialize (Ha x Hx); lia|done].
  - eexists. split_and!; [done|done|lia|]. intros x. split; [|by intros [? _]].
    intros Hx. split; [done|]. specialize (Hmin x Hx). lia.
Qed.

(** ** The set after a history *)

Record Holds (s : WalSet) (evs : list WalEvent) : Prop := {
  h_sorted : sorted (wals_ s);
  h_min : min_wal_number_to_keep_ s = history_min evs;
  h_in : forall n m, (n, m) ∈ wals_ s <-> history_meta n evs = Some m;
}.

Lemma Holds_new : Holds new_WalSet [].
Proof.
  split; [constructor|done|]. intros n m. unfold history_meta. cbn.
  split; [set_solver|]. by case_match.
Qed.

Lemma Holds_ge s evs x : Holds s evs -> x ∈ wals_ s -> min_wal_number_to_keep_ s <= x.1.
Proof.
  intros H Hx. destruct x as [n m]. apply (h_in _ _ H) in Hx. unfold history_meta in Hx.
  rewrite (h_min _ _ H). destruct (_ <? _) eqn:E; [done|]. zbool. cbn. lia.
Qed.

Lemma history_meta_other n wal evs :
  n <> wal_number wal -> history_meta n (EAdd wal :: evs) = history_meta n evs.
Proof.
  intros Hne. unfold history_meta, history_size, history_min. cbn [foldr join_min join_size].
  by rewrite (proj2 (Z.eqb_neq _ _)) by done.
Qed.

Lemma HasSyncedSize_meta k :
  (forall z, k = Some z -> z <> kUnknownWalSize) ->
  HasSyncedSize (meta_of k) = match k with Some _ => true | None => false end.
Proof.
  intros Hk. unfold HasSyncedSize, meta_of. destruct k as [z|]; cbn [default synced_size_bytes_].
  - specialize (Hk z eq_refl). by rewrite (proj2 (Z.eqb_neq _ _)).
  - by rewrite Z.eqb_refl.
Qed.

Lemma history_size_known n evs z : history_size n evs = Some (Some z) -> z <> kUnknownWalSize.
Proof.
  revert z. induction evs as [|[wal|k] evs IH]; intros z; cbn [history_size foldr join_size];
    [done| |auto].
  fold (history_size n evs) in *. destruct (_ =? n); [|auto]. intros [= Hz]. revert Hz.
  destruct (HasSyncedSize (wal_metadata wal)) eqn:E.
  - unfold HasSyncedSize in E. zbool. destruct (history_size n evs) as [[y|]|]; cbn [default];
      intros [= <-]; [|done..]. specialize (IH y eq_refl).
    destruct (Z.max_spec (synced_size_bytes_ (wal_metadata wal)) y) as [[_ ->]|[_ ->]]; done.
  - destruct (history_size n evs) as [[y|]|]; cbn [default]; intros [= <-]. auto.
Qed.

Lemma history_meta_add_new wal evs :
  history_min evs <= wal_number wal -> history_meta (wal_number wal) evs = None ->
  history_meta (wal_number wal) (EAdd wal :: evs) = Some (wal_metadata wal).
Proof.
  unfold history_meta, history_size, history_min. cbn [foldr join_min join_size]. intros Hm.
  rewrite (proj2 (Z.ltb_ge _ _)), Z.eqb_refl by done.
  destruct (foldr (join_size _) None evs); [done|]. intros _. cbn. f_equal. unfold meta_of.
  destruct (wal_metadata wal) as [z]. unfold HasSyncedSize. cbn.
  destruct (_ =? _) eqn:E; zbool; by subst.
Qed.

Lemma history_meta_add_old wal evs old :
  history_meta (wal_number wal) evs = Some old ->
  history_meta (wal_number wal) (EAdd wal :: evs) =
    Some (if HasSyncedSize (wal_metadata wal) then newer old (wal_metadata wal) else old).
Proof.
  unfold history_meta, history_size, history_min. cbn [foldr join_min join_size].
  destruct (_ <? _); [done|]. rewrite Z.eqb_refl.
  fold (history_size (wal_number wal) evs).
  destruct (history_size (wal_number wal) evs) as [k|] eqn:E; [|done]. cbn. intros [= <-].
  unfold newer. rewrite HasSyncedSize_meta
    by (intros z ->; by apply (history_size_known (wal_number wal) evs)).
  destruct (HasSyncedSize (wal_metadata wal)); [|done]. unfold meta_of.
  destruct k as [z|]; cbn; [|by rewrite mkWalMetadata_eta].
  destruct (_ <=? _) eqn:E1; zbool; f_equal; [f_equal; lia|].
  rewrite <- (mkWalMetadata_eta (wal_metadata wal)). f_equal. cbn. lia.
Qed.

(** The set has an entry for the log, or none. *)
Lemma Holds_cases s evs n :
  Holds s evs ->
  (exists old, (n, old) ∈ wals_ s /\ history_meta n evs = Some old) \/
  (forall old, (n, old) ∉ wals_ s) /\ history_meta n evs = None.
Proof.
  intros H. destruct (history_meta n evs) as [old|] eqn:E.
  - left. exists old. split; [|done]. by apply (h_in _ _ H).
  - right. split; [|done]. intros old Hin. apply (h_in _ _ H) in Hin. congruence.
Qed.

Lemma Holds_add s evs wal : Holds s evs -> Holds (snd (AddWal s wal)) (EAdd wal :: evs).
Proof.
  intros H. destruct (Z.lt_ge_cases (wal_number wal) (min_wal_number_to_keep_ s)) as [Hlt|Hge].
  { unfold AddWal. rewrite (proj2 (Z.ltb_lt _ _)) by done. destruct H as [Hs Hm Hi].
    split; [done..|]. intros n m. rewrite Hi. destruct (decide (n = wal_number wal)) as [->|];
      [|by rewrite history_meta_other].
    unfold history_meta. rewrite Hm in Hlt. change (history_min (EAdd wal :: evs)) with
      (history_min evs). by rewrite (proj2 (Z.ltb_lt _ _)). }
  assert (Hge' : history_min evs <= wal_number wal) by (by rewrite <- (h_min _ _ H)).
  assert (forall n m, n <> wal_number wal ->
    (n, m) ∈ wals_ s <-> history_meta n (EAdd wal :: evs) = Some m) as Hoth.
  { intros n m Hne. rewrite history_meta_other by done. apply (h_in _ _ H). }
  destruct (Holds_cases s evs (wal_number wal) H) as [(old & Hin & Hh)|[Hno Hh]].
  - pose proof (AddWal_old s wal old (h_sorted _ _ H) Hge Hin) as Ha.
    pose proof (history_meta_add_old wal evs old Hh) as Hh'.
    destruct (HasSyncedSize (wal_metadata wal)).
    + destruct Ha as (s' & -> & Hs' & Hm' & Hin'). cbn [snd]. split; [done| |].
      * rewrite Hm'. apply (h_min _ _ H).
      * intros n m. rewrite Hin'. destruct (decide (n = wal_number wal)) as [->|Hne].
        -- rewrite Hh'. split; [intros [[= ->]|[_ Hx]]; [done|by cbn in Hx]|].
           intros [= <-]. by left.
        -- rewrite <- (Hoth n m Hne). cbn. split; [intros [[= -> _]|[? _]]; done|auto].
    + rewrite Ha. cbn [snd]. split; [apply H|apply (h_min _ _ H)|].
      intros n m. destruct (decide (n = wal_number wal)) as [->|Hne]; [|by apply Hoth].
      rewrite Hh', (h_in _ _ H), Hh. done.
  - destruct (AddWal_new s wal (h_sorted _ _ H) Hge Hno) as (s' & -> & Hs' & Hm' & Hin').
    cbn [snd]. split; [done| |].
    + rewrite Hm'. apply (h_min _ _ H).
    + intros n m. rewrite Hin'. destruct (decide (n = wal_number wal)) as [->|Hne].
      * rewrite history_meta_add_new by done. split; [intros [[= ->]|Hx]; [done|]|].
        -- by apply Hno in Hx.
        -- intros [= <-]. by left.
      * rewrite <- (Hoth n m Hne). split; [intros [[= -> _]|?]; done|auto].
Qed.

Lemma Holds_delete s evs n :
  Holds s evs -> Holds (snd (DeleteWalsBefore s n)) (EDeleteBefore n :: evs).
Proof.
  intros H.
  destruct (DeleteWalsBefore_spec s n (h_sorted _ _ H) (fun x => Holds_ge s evs x H))
    as (s' & -> & Hs' & Hm' & Hin'). cbn [snd]. split; [done| |].
  - rewrite Hm', (h_min _ _ H). done.
  - intros k m. rewrite Hin', (h_in _ _ H). cbn [fst]. unfold history_meta.
    change (history_size k (EDeleteBefore n :: evs)) with (history_size k evs).
    change (history_min (EDeleteBefore n :: evs)) with (Z.max n (history_min evs)).
    destruct (k <? history_min evs) eqn:E1, (k <? Z.max n (history_min evs)) eqn:E2; zbool;
      (split; [intros [? ?]|intros ?; split]; first [done|lia]).
Qed.

Lemma Holds_event s evs e : Holds s evs -> Holds (wal_event s e) (e :: evs).
Proof. destruct e; [apply Holds_add|apply Holds_delete]. Qed.

Lemma Holds_perm s evs evs' : evs ≡ₚ evs' -> Holds s evs -> Holds s evs'.
Proof.
  intros Hp [H1 H2 H3]. split; [done| |].
  - by rewrite <- (history_min_perm _ _ Hp).
  - intros n m. by rewrite <- (history_meta_perm _ _ _ Hp).
Qed.

Lemma Holds_history evs : Holds (wal_history evs) evs.
Proof.
  assert (forall s evs0, Holds s evs0 -> Holds (foldl wal_event s evs) (evs0 ++ evs)) as Hg.
  { induction evs as [|e evs IH]; intros s evs0 H; cbn [foldl].
    - by rewrite app_nil_r.
    - eapply Holds_perm; [|apply (IH _ _ (Holds_event s evs0 e H))].
      by rewrite <- Permutation_middle. }
  apply (Hg _ [] Holds_new).
Qed.

Lemma AddWal_refuses evs wal :
  let s := wal_history evs in
  (ok (fst (AddWal s wal)) = false <->
   (exists m, (wal_number wal, m) ∈ wals_ s) /\ HasSyncedSize (wal_metadata wal) = false) /\
  (ok (fst (AddWal s wal)) = false -> AddWal s wal = (created_twice (wal_number wal), s)).
Proof.
  intros s. pose proof (Holds_history evs) as H. fold s in H.
  destruct (Z.lt_ge_cases (wal_number wal) (min_wal_number_to_keep_ s)) as [Hlt|Hge].
  { unfold AddWal. rewrite (proj2 (Z.ltb_lt _ _)) by done. split; [|done].
    split; [done|]. intros [[m Hm] _]. apply (Holds_ge s evs _ H) in Hm. cbn in Hm. lia. }
  destruct (Holds_cases s evs (wal_number wal) H) as [(old & Hin & _)|[Hno _]].
  - pose proof (AddWal_old s wal old (h_sorted _ _ H) Hge Hin) as Ha.
    destruct (HasSyncedSize (wal_metadata wal)).
    + destruct Ha as (s' & -> & _). split; [|done]. split; [done|by intros [_ ?]].
    + rewrite Ha. split; [|done]. split; [|done]. intros _. eauto.
  - destruct (AddWal_new s wal (h_sorted _ _ H) Hge Hno) as (s' & -> & _).
    split; [|done]. split; [done|]. intros [[m Hm] _]. by apply Hno in Hm.
Qed.


(** ** Properties *)


Lemma AddWals_prefix wals : forall evs st,
  let s := wal_history evs in
  ok st = true ->
  exists applied refused, wals = applied ++ refused /\
    snd (AddWals_loop st s wals) = wal_history (evs ++ (EAdd <$> applied)) /\
    match refused with
    | [] => ok (fst (AddWals_loop st s wals)) = true
    | w :: _ =>
        fst (AddWals_loop st s wals) = created_twice (wal_number w) /\
        AddWal (snd (AddWals_loop st s wals)) w =
          (created_twice (wal_number w), snd (AddWals_loop st s wals))
    end.
Proof.
  induction wals as [|w wals IH]; intros evs st; cbn zeta; intros Hst.
  { exists [], []. cbn [AddWals_loop fmap list_fmap fst snd]. by rewrite !app_nil_r. }
  cbn [AddWals_loop]. pose proof (AddWal_refuses evs w) as [_ Href].
  assert (wal_history (evs ++ [EAdd w]) = snd (AddWal (wal_history evs) w)) as Hstep
    by (unfold wal_history; by rewrite foldl_app).
  destruct (AddWal (wal_history evs) w) as [st' s'] eqn:E. cbn [fst snd] in *.
  destruct (ok st') eqn:Hok; cbn [negb].
  - destruct (IH (evs ++ [EAdd w]) st' Hok) as (ap & re & -> & H1 & H2).
    rewrite Hstep in H1, H2. exists (w :: ap), re. split_and!; [done| |done].
    rewrite H1. cbn [fmap list_fmap]. by rewrite <- app_assoc.
  - injection (Href eq_refl) as -> ->. exists [], (w :: wals). cbn [fmap list_fmap app fst snd].
    rewrite app_nil_r. done.
Qed.

(** when [AddWal] refuses. After any history, adding a log fails exactly when the
    log is not obsolete, is already in the set and comes without a synced size; the set
    is unchanged then, and the error says so. [AddWals] applies the logs up to the first
    one that is refused. *)
Theorem AddWal_error (evs : list WalEvent) (wal : WalAddition) (wals : list WalAddition) :
  let s := wal_history evs in
  (ok (fst (AddWal s wal)) = false <->
   (exists m, (wal_number wal, m) ∈ wals_ s) /\ HasSyncedSize (wal_metadata wal) = false) /\
  (ok (fst (AddWal s wal)) = false -> AddWal s wal = (created_twice (wal_number wal), s)) /\
  exists applied refused, wals = applied ++ refused /\
    snd (AddWals s wals) = wal_history (evs ++ (EAdd <$> applied)) /\
    match refused with
    | [] => ok (fst (AddWals s wals)) = true
    | w :: _ =>
        fst (AddWals s wals) = created_twice (wal_number w) /\
        AddWal (snd (AddWals s wals)) w = (created_twice (wal_number w), snd (AddWals s wals))
    end.
Proof.
  intros s. destruct (AddWal_refuses evs wal) as [H1 H2]. split_and!; [done..|].
  apply AddWals_prefix. done.
Qed.

(** ** Encoding *)

Section Encoding.
Context `{VarintReaderLaws}.

Lemma GetVarint64_advances input v rest :
  GetVarint64 input = (Some v, rest) -> (length rest < length input)%nat.
Proof.
  unfold GetVarint64. destruct (GetVarint64Ptr input) as [[v' q]|] eqn:E; [|done].
  intros [= -> ->]. apply get64_advances in E as (_ & b & pre & ->).
  cbn. rewrite length_app. lia.
Qed.

Lemma WalAddition_decode_tags_total fuel : forall w src,
  (length src < fuel)%nat -> exists r, WalAddition_decode_tags fuel w src = Some r.
Proof.
  induction fuel as [|fuel IH]; intros w src Hf; [lia|]. cbn [WalAddition_decode_tags].
  destruct (GetVarint32 src) as [[tag|] src1] eqn:E1; [|eauto].
  apply GetVarint32_advances in E1 as (_ & b & pre & ->). cbn in Hf. rewrite length_app in Hf.
  destruct (tag =? kSyncedSize).
  - destruct (GetVarint64 src1) as [[sz|] src2] eqn:E2; [|eauto].
    apply GetVarint64_advances in E2. apply IH. lia.
  - destruct (tag =? kTerminate); eauto.
Qed.

Lemma WalAddition_decode_encode w0 w dst rest :
  is_uint 64 (wal_number w) -> is_uint 64 (synced_size_bytes_ (wal_metadata w)) ->
  exists enc, WalAddition_EncodeTo w dst = dst ++ enc /\
    WalAddition_DecodeFrom w0 (enc ++ rest) =
      Some (Status_OK,
            mkWalAddition (wal_number w)
              (if HasSyncedSize (wal_metadata w)
               then mkWalMetadata (wrap 32 (synced_size_bytes_ (wal_metadata w)))
               else wal_metadata w0), rest).
Proof.
  intros Hn Hs. unfold WalAddition_EncodeTo, WalAddition_DecodeFrom, PutVarint64, PutVarint32.
  assert (Hw : is_uint 32 (wrap 32 (synced_size_bytes_ (wal_metadata w)))) by (by apply wrap_range).
  destruct (HasSyncedSize (wal_metadata w)); eexists; (split; [by rewrite <- !app_assoc|]);
    rewrite <- !app_assoc, GetVarint64_Encode by done; cbn [WalAddition_decode_tags];
    rewrite GetVarint32_Encode by done; cbn [Z.eqb kSyncedSize kTerminate Pos.eqb].
  - rewrite (EncodeVarint32_is_64 _ Hw), GetVarint64_Encode
      by (unfold is_uint in *; lia).
    rewrite length_app.
    change (length (EncodeVarint32 kSyncedSize)) with 1%nat. cbn [Nat.add WalAddition_decode_tags].
    rewrite GetVarint32_Encode by done. done.
  - done.
Qed.

(** log records survive the MANIFEST. What [WalAddition::EncodeTo] appends is read
    back by [DecodeFrom] of a new record, which leaves exactly the bytes that follow, when
    the synced size is unknown or fits 32 bits; deletions always survive; and [DecodeFrom]
    returns on every input. *)
Theorem wal_edit_roundtrip (w : WalAddition) (d : WalDeletion) (dst rest src : bytes) :
  is_uint 64 (wal_number w) -> is_uint 64 (del_number d) ->
  (is_uint 32 (synced_size_bytes_ (wal_metadata w)) \/ wal_metadata w = new_WalMetadata) ->
  (exists enc, WalAddition_EncodeTo w dst = dst ++ enc /\
     WalAddition_DecodeFrom new_WalAddition (enc ++ rest) = Some (Status_OK, w, rest)) /\
  (exists enc, WalDeletion_EncodeTo d dst = dst ++ enc /\
     WalDeletion_DecodeFrom new_WalDeletion (enc ++ rest) = (Status_OK, d, rest)) /\
  exists r, WalAddition_DecodeFrom new_WalAddition src = Some r.
Proof.
  intros Hn Hd Hs. split_and!.
  - destruct (WalAddition_decode_encode new_WalAddition w dst rest Hn) as (enc & He & Hde).
    { destruct Hs as [Hs| ->]; [unfold is_uint in *; lia|done]. }
    exists enc. split; [done|]. rewrite Hde. do 3 f_equal. destruct w as [n [z]]. cbn in *.
    f_equal. destruct Hs as [Hs|Hs].
    + unfold HasSyncedSize. cbn. rewrite wrap_small by done.
      rewrite (proj2 (Z.eqb_neq _ _)); [done|]. unfold kUnknownWalSize, is_uint in *. lia.
    + by rewrite Hs.
  - exists (EncodeVarint64 (del_number d)). split; [done|]. unfold WalDeletion_DecodeFrom.
    rewrite GetVarint64_Encode by done. by destruct d.
  - unfold WalAddition_DecodeFrom. destruct (GetVarint64 src) as [[n|] src1]; [|eauto].
    apply WalAddition_decode_tags_total. lia.
Qed.

(** A synced size of 4 GiB or more is cut to its low 32 bits by the encoder. *)
Theorem synced_size_truncated (n size : Z) (rest : bytes) :
  is_uint 64 n -> is_uint 64 size -> size <> kUnknownWalSize ->
  WalAddition_DecodeFrom new_WalAddition
    (WalAddition_EncodeTo (mkWalAddition n (mkWalMetadata size)) [] ++ rest) =
    Some (Status_OK, mkWalAddition n (mkWalMetadata (wrap 32 size)), rest).
Proof.
  intros Hn Hs Hk.
  destruct (WalAddition_decode_encode new_WalAddition
    (mkWalAddition n (mkWalMetadata size)) [] rest Hn Hs) as (enc & -> & He).
  cbn [app]. rewrite He. cbn [wal_metadata wal_number]. unfold HasSyncedSize. cbn.
  by rewrite (proj2 (Z.eqb_neq _ _)).
Qed.

End Encoding.

Lemma wal_edit_roundtrip_witness :
  @WalAddition_DecodeFrom leb128_reader new_WalAddition
    (WalAddition_EncodeTo (mkWalAddition 7 (mkWalMetadata 300)) [] ++ [xff]) =
    Some (Status_OK, mkWalAddition 7 (mkWalMetadata 300), [xff]).
Proof.
  destruct (@wal_edit_roundtrip leb128_reader _ (mkWalAddition 7 (mkWalMetadata 300))
    (mkWalDeletion 5) [] [xff] [] ltac:(done) ltac:(done) ltac:(by left))
    as [(enc & -> & He) _]. exact He.
Defined.

(** ** Checking the directory *)

Section CheckProofs.
Context (GetFileSize : string -> Status * Z) (logs_on_disk : gmap Z string).

(** The log is on disk and holds at least the bytes known to be synced. *)
Definition wal_intact (n : Z) (m : WalMetadata) : Prop :=
  HasSyncedSize m = true ->
  exists fname st sz, logs_on_disk !! n = Some fname /\ GetFileSize fname = (st, sz) /\
    ok st = true /\ synced_size_bytes_ m <= sz.

Lemma check_wal_spec n m s :
  ok s = true -> ok (check_wal GetFileSize logs_on_disk n m s) = true <-> wal_intact n m.
Proof.
  intros Hs. unfold check_wal, wal_intact. destruct (HasSyncedSize m); cbn [negb].
  2: { by split. }
  destruct (logs_on_disk !! n) as [fname|]; [|split; [done|]].
  2: { by intros (? & ? & ? & ? & _); done. }
  destruct (GetFileSize fname) as [st sz] eqn:E. destruct (ok st) eqn:Hok; cbn [negb].
  - destruct (sz <? synced_size_bytes_ m) eqn:El; zbool.
    + split; [done|]. intros (f & st' & sz' & Hf & He & _ & Hl); [done|].
      injection Hf as <-. rewrite E in He. injection He as <- <-. lia.
    + split; [|done]. intros _ _. exists fname, st, sz. split_and!; [done..|lia].
  - split; [congruence|]. intros (f & st' & sz' & Hf & He & Hok' & _); [done|].
    injection Hf as <-. congruence.
Qed.

Lemma CheckWals_loop_spec wals : forall s,
  ok s = true ->
  let r := CheckWals_loop GetFileSize logs_on_disk wals s in
  (ok r = true /\ forall n m, (n, m) ∈ wals -> wal_intact n m) \/
  (ok r = false /\ exists before n m after, wals = before ++ (n, m) :: after /\
     (forall k v, (k, v) ∈ before -> wal_intact k v) /\ ~ wal_intact n m /\
     exists s', r = check_wal GetFileSize logs_on_disk n m s').
Proof.
  induction wals as [|[n m] wals IH]; intros s Hs; cbn zeta; cbn [CheckWals_loop].
  { left. split; [done|set_solver]. }
  pose proof (check_wal_spec n m s Hs) as Hc.
  destruct (ok (check_wal _ _ n m s)) eqn:Hok.
  - destruct (IH _ Hok) as [[H1 H2]|(H1 & b & k & v & a & -> & Hb & Hk & Hr)].
    + left. split; [done|]. intros k v [Hx|Hx]%elem_of_cons; [simplify_eq; by apply Hc|eauto].
    + right. split; [done|]. exists ((n, m) :: b), k, v, a. split_and!; [done| |done|done].
      intros k' v' [Hx|Hx]%elem_of_cons; [simplify_eq; by apply Hc|eauto].
  - right. split; [done|]. exists [], n, m, wals. split_and!; [done|set_solver| |eauto].
    intros Hi. apply Hc in Hi. congruence.
Qed.

(** [CheckWals] returns OK exactly when every log of the set with a known synced size
    is on disk with at least that many bytes. Otherwise it reports the problem of the first
    log, the one with the smallest number, that is missing or too short or whose size cannot
    be read. *)
Theorem CheckWals_exact (evs : list WalEvent) :
  let s := wal_history evs in
  let r := CheckWals GetFileSize logs_on_disk s in
  (ok r = true <-> forall n m, (n, m) ∈ wals_ s -> wal_intact n m) /\
  (ok r = false ->
     exists n m st, (n, m) ∈ wals_ s /\ ~ wal_intact n m /\
       r = check_wal GetFileSize logs_on_disk n m st /\
       forall k v, (k, v) ∈ wals_ s -> k < n -> wal_intact k v).
Proof.
  intros s r. pose proof (h_sorted _ _ (Holds_history evs)) as Hs. fold s in Hs.
  destruct (CheckWals_loop_spec (wals_ s) Status_OK eq_refl)
    as [[H1 H2]|(H1 & b & n & m & a & Heq & Hb & Hn & st & Hr)].
  - change (ok r = true) in H1. split; [done|congruence].
  - change (ok r = false) in H1. split.
    + split; [congruence|]. intros Hall. destruct Hn. apply Hall. rewrite Heq. set_solver.
    + intros _. exists n, m, st. split_and!; [rewrite Heq; set_solver|done|done|].
      intros k v Hk Hlt. rewrite Heq in Hk, Hs. apply elem_of_app in Hk as [Hk|Hk]; [eauto|].
      apply sorted_app in Hs as (_ & [_ Hf]%StronglySorted_inv & _).
      apply elem_of_cons in Hk as [[= -> ->]|Hk]; [lia|].
      rewrite Forall_forall in Hf. specialize (Hf _ Hk). unfold key_lt in Hf. cbn in Hf. lia.
Qed.

End CheckProofs.
