(* ===== verification/PrepTracker.v ===== *)
(** * Logs with outstanding prepared sections

    [db/logs_with_prep_tracker.h] and [.cc]. Two-phase commit must not delete a log that
    still holds the prepare section of a transaction that is neither committed nor rolled
    back. The tracker counts the sections prepared in each log and, under a second mutex,
    those that are completed.

    [None] stands for a failed [assert]. [FindMinLogContainingOutstandingPrep] holds the
    first mutex throughout but takes the second one once per iteration, so completions of
    other threads happen between its iterations; the step relation below has one step per
    iteration. *)

From stdpp Require Import sorting gmultiset.
From S2P Require Import Prelude.

Record LogCnt : Set := mkLogCnt { lc_log : Z; lc_cnt : Z }.

Record LogsWithPrepTracker : Set := mkTracker {
  logs_with_prep_ : list LogCnt;
  prepared_section_completed_ : gmap Z Z;
}.

Definition new_tracker : LogsWithPrepTracker := mkTracker [] ∅.

(** ** Operations *)

Definition MarkLogAsHavingPrepSectionFlushed (log : Z) (t : LogsWithPrepTracker) :
    option LogsWithPrepTracker :=
  if log =? 0 then None
  else
    let m := prepared_section_completed_ t in
    Some (mkTracker (logs_with_prep_ t)
      (match m !! log with
       | None => <[log := 1]> m
       | Some n => <[log := u64 (n + 1)]> m
       end)).

(** The scan from the back of the vector; the argument and the result are reversed. *)
Fixpoint mark_containing (log : Z) (rlogs : list LogCnt) : list LogCnt :=
  match rlogs with
  | [] => [mkLogCnt log 1]
  | rit :: rest =>
      if lc_log rit >=? log then
        if lc_log rit =? log then mkLogCnt (lc_log rit) (u64 (lc_cnt rit + 1)) :: rest
        else rit :: mark_containing log rest
      else mkLogCnt log 1 :: rit :: rest
  end.

Definition MarkLogAsContainingPrepSection (log : Z) (t : LogsWithPrepTracker) :
    option LogsWithPrepTracker :=
  if log =? 0 then None
  else
    Some (mkTracker (reverse (mark_containing log (reverse (logs_with_prep_ t))))
            (prepared_section_completed_ t)).

(** One iteration of the loop: an answer, or the state the next iteration starts from. *)
Inductive FindOutcome : Set :=
| FReturn (log : Z)
| FAgain (t : LogsWithPrepTracker).

Definition find_iteration (t : LogsWithPrepTracker) : option FindOutcome :=
  match logs_with_prep_ t with
  | [] => Some (FReturn 0)
  | it :: rest =>
      match prepared_section_completed_ t !! lc_log it with
      | None => Some (FReturn (lc_log it))
      | Some completed =>
          if completed <? lc_cnt it then Some (FReturn (lc_log it))
          else if completed =? lc_cnt it then
            Some (FAgain (mkTracker rest (delete (lc_log it) (prepared_section_completed_ t))))
          else None
      end
  end.

Fixpoint find_loop (fuel : nat) (t : LogsWithPrepTracker) :
    option (Z * LogsWithPrepTracker) :=
  match fuel with
  | O => None
  | S fuel =>
      match find_iteration t with
      | None => None
      | Some (FReturn log) => Some (log, t)
      | Some (FAgain t) => find_loop fuel t
      end
  end.

(** Every iteration but the last removes an entry. *)
Definition FindMinLogContainingOutstandingPrep (t : LogsWithPrepTracker) :
    option (Z * LogsWithPrepTracker) :=
  find_loop (S (length (logs_with_prep_ t))) t.

Definition TEST_PreparedSectionCompletedSize (t : LogsWithPrepTracker) : Z :=
  Z.of_nat (base.size (prepared_section_completed_ t)).

Definition TEST_LogsWithPrepSize (t : LogsWithPrepTracker) : Z := size (logs_with_prep_ t).

(** ** Threads *)

(** The tracker, whether a thread is inside [FindMinLogContainingOutstandingPrep] and
    therefore holds the first mutex, and the sections that are prepared and not yet
    completed: one occurrence of the log per section. *)
Record PSys : Set := mkPSys {
  p_tracker : LogsWithPrepTracker;
  p_finding : bool;
  p_outstanding : gmultiset Z;
}.

Definition count_of (log : Z) (logs : list LogCnt) : Z :=
  match list_find (fun e => lc_log e = log) logs with
  | Some (_, e) => lc_cnt e
  | None => 0
  end.

Inductive p_step : PSys -> PSys -> Prop :=
| p_prepare log t t' out :
    0 < log < 2 ^ 64 -> count_of log (logs_with_prep_ t) + 1 < 2 ^ 64 ->
    MarkLogAsContainingPrepSection log t = Some t' ->
    p_step (mkPSys t false out) (mkPSys t' false (out ⊎ {[+ log +]}))
| p_complete log t t' f out :
    log ∈ out -> MarkLogAsHavingPrepSectionFlushed log t = Some t' ->
    p_step (mkPSys t f out) (mkPSys t' f (out ∖ {[+ log +]}))
| p_find_begin t out :
    p_step (mkPSys t false out) (mkPSys t true out)
| p_find_again t t' out :
    find_iteration t = Some (FAgain t') ->
    p_step (mkPSys t true out) (mkPSys t' true out)
| p_find_return t log out :
    find_iteration t = Some (FReturn log) ->
    p_step (mkPSys t true out) (mkPSys t false out).

Inductive p_reach : PSys -> Prop :=
| p_init : p_reach (mkPSys new_tracker false ∅)
| p_next s s' : p_reach s -> p_step s s' -> p_reach s'.

(** The smallest log with an outstanding section, 0 if there is none. *)
Definition is_min_outstanding (log : Z) (out : gmultiset Z) : Prop :=
  (log = 0 /\ out = ∅) \/ (log ∈ out /\ forall x, x ∈ out -> log <= x).

(** ** The invariant *)

Definition log_lt (x y : LogCnt) : Prop := lc_log x < lc_log y.

Definition done_of (log : Z) (m : gmap Z Z) : Z := default 0 (m !! log).

Record PInv (t : LogsWithPrepTracker) (out : gmultiset Z) : Prop := {
  pi_sorted : StronglySorted log_lt (logs_with_prep_ t);
  pi_entry e : e ∈ logs_with_prep_ t ->
    0 < lc_log e /\ 1 <= lc_cnt e < 2 ^ 64 /\
    lc_cnt e = Z.of_nat (multiplicity (lc_log e) out) +
               done_of (lc_log e) (prepared_section_completed_ t);
  pi_done log c : prepared_section_completed_ t !! log = Some c ->
    1 <= c /\ exists e, e ∈ logs_with_prep_ t /\ lc_log e = log;
  pi_out log : log ∈ out -> exists e, e ∈ logs_with_prep_ t /\ lc_log e = log;
}.

Abbreviation logs_sorted := (StronglySorted log_lt).

Lemma logs_sorted_app l1 l2 :
  logs_sorted (l1 ++ l2) <->
  logs_sorted l1 /\ logs_sorted l2 /\ (forall x y, x ∈ l1 -> y ∈ l2 -> log_lt x y).
Proof. rewrite StronglySorted_app. naive_solver. Qed.

Lemma logs_sorted_mid l1 e l2 :
  logs_sorted (l1 ++ e :: l2) <->
  logs_sorted (l1 ++ l2) /\ (forall x, x ∈ l1 -> log_lt x e) /\ (forall x, x ∈ l2 -> log_lt e x).
Proof.
  rewrite !logs_sorted_app. split.
  - intros (H1 & [H2 H3]%StronglySorted_inv & H4). rewrite Forall_forall in H3.
    split_and!; [done..| | |done]; set_solver.
  - intros ((H1 & H2 & H3) & H4 & H5). split_and!; [done| |].
    + constructor; [done|]. by apply Forall_forall.
    + intros x y Hx [->|Hy]%elem_of_cons; auto.
Qed.

Lemma logs_sorted_inj l x y :
  logs_sorted l -> x ∈ l -> y ∈ l -> lc_log x = lc_log y -> x = y.
Proof.
  induction 1 as [|e l _ IH He]; [set_solver|]. rewrite Forall_forall in He.
  intros [->|Hx]%elem_of_cons [->|Hy]%elem_of_cons Heq; auto.
  - specialize (He _ Hy). unfold log_lt in He. lia.
  - specialize (He _ Hx). unfold log_lt in He. lia.
Qed.

(** What the scan finds, in the order of the vector. *)
Lemma mark_containing_spec log rl :
  logs_sorted (reverse rl) ->
  (exists a e b, reverse rl = a ++ e :: b /\ lc_log e = log /\
     reverse (mark_containing log rl) = a ++ mkLogCnt log (u64 (lc_cnt e + 1)) :: b) \/
  (exists a b, reverse rl = a ++ b /\ (forall x, x ∈ a -> lc_log x < log) /\
     (forall x, x ∈ b -> log < lc_log x) /\
     reverse (mark_containing log rl) = a ++ mkLogCnt log 1 :: b).
Proof.
  induction rl as [|e rl IH]; cbn [mark_containing].
  { intros _. right. exists [], []. split_and!; [done|set_solver..|done]. }
  rewrite reverse_cons. intros Hs. apply logs_sorted_app in Hs as (Hs & _ & Hlt).
  specialize (Hlt : forall x y, x ∈ reverse rl -> y ∈ [e] -> lc_log x < lc_log y).
  destruct (lc_log e >=? log) eqn:E1; zbool; [destruct (lc_log e =? log) eqn:E2; zbool|].
  - left. exists (reverse rl), e, []. rewrite reverse_cons. by subst.
  - rewrite reverse_cons. destruct (IH Hs) as [(a & x & b & H1 & H2 & H3)|(a & b & H1 & H2 & H3 & H4)].
    + left. exists a, x, (b ++ [e]). rewrite H1, H3. by rewrite <- !app_assoc.
    + right. exists a, (b ++ [e]). rewrite H1, H4, <- !app_assoc. split_and!; [done..| |done].
      intros x [Hx|Hx]%elem_of_app; [auto|]. apply list_elem_of_singleton in Hx as ->. lia.
  - right. exists (reverse rl ++ [e]), []. rewrite !reverse_cons. split_and!; [by rewrite app_nil_r| |set_solver|done].
    intros x [Hx|Hx]%elem_of_app.
    + specialize (Hlt x e Hx ltac:(set_solver)). lia.
    + apply list_elem_of_singleton in Hx as ->. lia.
Qed.

Lemma count_of_elem log logs e :
  logs_sorted logs -> e ∈ logs -> lc_log e = log -> count_of log logs = lc_cnt e.
Proof.
  intros Hs He Hl. unfold count_of. destruct (list_find _ logs) as [[i x]|] eqn:E.
  - apply list_find_Some in E as (Hx & Hlx & _). apply list_elem_of_lookup_2 in Hx.
    by rewrite (logs_sorted_inj logs x e Hs Hx He) by congruence.
  - apply list_find_None in E. rewrite Forall_forall in E. by destruct (E e He).
Qed.

(** ** Every step keeps it *)

(** Putting an entry between [a] and [b], in place of [old] or of nothing. *)
Lemma PInv_put a old b log n t out :
  PInv t out -> logs_with_prep_ t = a ++ old ++ b ->
  (old = [] \/ exists e, old = [e] /\ lc_log e = log) ->
  logs_sorted (a ++ mkLogCnt log n :: b) -> 0 < log -> 1 <= n < 2 ^ 64 ->
  n = Z.of_nat (multiplicity log out) + 1 + done_of log (prepared_section_completed_ t) ->
  PInv (mkTracker (a ++ mkLogCnt log n :: b) (prepared_section_completed_ t))
    (out ⊎ {[+ log +]}).
Proof.
  intros [_ He Hd Ho] Heq Hold Hs Hlog Hn Hval.
  assert (forall l, l = log \/ (exists e, e ∈ logs_with_prep_ t /\ lc_log e = l) ->
    exists e, e ∈ a ++ mkLogCnt log n :: b /\ lc_log e = l) as Hkeep.
  { intros l [->|(e & Hin & Hl)]; [exists (mkLogCnt log n); set_solver|].
    destruct (decide (l = log)) as [->|Hne]; [exists (mkLogCnt log n); set_solver|].
    exists e. split; [|done]. rewrite Heq in Hin.
    destruct Hold as [->|(e' & -> & He')]; [set_solver|].
    apply elem_of_app in Hin as [Hin|[Hin|Hin]%elem_of_app]; [set_solver| |set_solver].
    apply list_elem_of_singleton in Hin as ->. congruence. }
  apply logs_sorted_mid in Hs as Hs'. destruct Hs' as (_ & Ha & Hb).
  split; cbn [logs_with_prep_ prepared_section_completed_]; [done| | |].
  - intros x Hx. rewrite multiplicity_disj_union.
    assert (x = mkLogCnt log n \/ (x ∈ logs_with_prep_ t /\ lc_log x <> log)) as [->|[Hx' Hne]].
    { rewrite Heq. apply elem_of_app in Hx as [Hx|[->|Hx]%elem_of_cons]; [|by left|]; right.
      - specialize (Ha x Hx). unfold log_lt in Ha. cbn in Ha. split; [set_solver|lia].
      - specialize (Hb x Hx). unfold log_lt in Hb. cbn in Hb. split; [set_solver|lia]. }
    + cbn [lc_log lc_cnt]. rewrite multiplicity_singleton_eq. lia.
    + destruct (He x Hx') as (? & ? & ?). rewrite multiplicity_singleton_ne by done. lia.
  - intros l c Hl. destruct (Hd l c Hl) as (H3 & Hx). auto.
  - intros l Hl. apply Hkeep. assert (l = log \/ l ∈ out) as [->|Hl'] by multiset_solver; auto.
Qed.

Lemma PInv_prepare log t t' out :
  PInv t out -> 0 < log < 2 ^ 64 -> count_of log (logs_with_prep_ t) + 1 < 2 ^ 64 ->
  MarkLogAsContainingPrepSection log t = Some t' -> PInv t' (out ⊎ {[+ log +]}).
Proof.
  intros I Hlog Hc. destruct (I) as [Hs He Hd Ho]. unfold MarkLogAsContainingPrepSection.
  destruct (log =? 0) eqn:E; [done|]. intros [= <-].
  assert (reverse (reverse (logs_with_prep_ t)) = logs_with_prep_ t) as Hrr
    by apply reverse_involutive.
  destruct (mark_containing_spec log (reverse (logs_with_prep_ t)) ltac:(by rewrite Hrr))
    as [(a & e & b & Heq & Hl & Hm)|(a & b & Heq & Ha & Hb & Hm)]; rewrite Hrr in Heq;
    rewrite Hm; pose proof Hs as Hs'; rewrite Heq in Hs'.
  - assert (e ∈ logs_with_prep_ t) as Hin by (rewrite Heq; set_solver).
    rewrite (count_of_elem log _ e Hs Hin Hl) in Hc.
    destruct (He e Hin) as (H0 & H1 & H2). rewrite Hl in H2.
    apply logs_sorted_mid in Hs' as (Hab & Hla & Hlb). unfold log_lt in Hla, Hlb.
    rewrite wrap_small by (unfold is_uint; lia).
    apply (PInv_put a [e] b); [done|done|by right; eauto| |lia|lia|lia].
    apply logs_sorted_mid. unfold log_lt. rewrite Hl in *. done.
  - assert (forall x, x ∈ logs_with_prep_ t -> lc_log x <> log) as Hne.
    { intros x. rewrite Heq. intros [Hx|Hx]%elem_of_app; [specialize (Ha x Hx)|
        specialize (Hb x Hx)]; lia. }
    assert (multiplicity log out = 0%nat) as Hm0.
    { apply not_elem_of_multiplicity. intros Hin.
      destruct (Ho log Hin) as (x & Hx & Hlx). by destruct (Hne x Hx). }
    assert (done_of log (prepared_section_completed_ t) = 0) as Hd0.
    { unfold done_of. destruct (_ !! log) as [c|] eqn:Ec; [|done].
      destruct (Hd log c Ec) as (_ & x & Hx & Hlx). by destruct (Hne x Hx). }
    apply (PInv_put a [] b); [done|done|by left| |lia|lia|lia].
    apply logs_sorted_mid. done.
Qed.

Lemma PInv_complete log t t' out :
  PInv t out -> log ∈ out -> MarkLogAsHavingPrepSectionFlushed log t = Some t' ->
  PInv t' (out ∖ {[+ log +]}).
Proof.
  intros [Hs He Hd Ho] Hin. destruct (Ho log Hin) as (e & Hel & Hlog).
  destruct (He e Hel) as (H0 & H1 & H2). rewrite Hlog in *.
  assert (0 < Z.of_nat (multiplicity log out)) as Hm
    by (rewrite elem_of_multiplicity in Hin; lia).
  unfold MarkLogAsHavingPrepSectionFlushed. rewrite (proj2 (Z.eqb_neq _ _)) by lia.
  intros [= <-]. set (m := prepared_section_completed_ t) in *.
  assert (exists m', m' = <[log := done_of log m + 1]> m /\
    match m !! log with None => <[log:=1]> m | Some n => <[log:=u64 (n + 1)]> m end = m')
    as (m' & Hm' & ->).
  { eexists. split; [done|]. unfold done_of in *. destruct (m !! log) as [n|] eqn:En; [|done].
    cbn [default from_option id] in *. destruct (Hd log n En) as [? _].
    by rewrite wrap_small by (unfold is_uint; lia). }
  assert (forall l, done_of l m' = if decide (l = log) then done_of log m + 1 else done_of l m)
    as Hdone.
  { intros l. unfold done_of at 1. rewrite Hm'. case_decide as Hl.
    - subst l. by rewrite lookup_insert_eq.
    - by rewrite lookup_insert_ne. }
  split; cbn [logs_with_prep_ prepared_section_completed_]; [done| | |].
  - intros x Hx. destruct (He x Hx) as (? & ? & ?). rewrite Hdone, multiplicity_difference.
    destruct (decide (lc_log x = log)) as [Hxl|Hxl].
    + rewrite Hxl in *. rewrite multiplicity_singleton_eq. lia.
    + rewrite multiplicity_singleton_ne by done. lia.
  - intros l c. rewrite Hm'. destruct (decide (l = log)) as [->|Hl].
    + rewrite lookup_insert_eq. intros [= <-]. split; [|by exists e].
      unfold done_of. destruct (m !! log) as [n|] eqn:En; [|done].
      destruct (Hd log n En) as [? _]. cbn. lia.
    + rewrite lookup_insert_ne by done. apply Hd.
  - intros l Hl. apply Ho. multiset_solver.
Qed.

(** An iteration never fails the assertion; it returns the minimum or removes a log with
    no outstanding section. *)
Lemma find_iteration_spec t out :
  PInv t out ->
  (exists log, find_iteration t = Some (FReturn log) /\ is_min_outstanding log out) \/
  (exists t', find_iteration t = Some (FAgain t') /\ PInv t' out /\
     (length (logs_with_prep_ t') < length (logs_with_prep_ t))%nat).
Proof.
  intros [Hs He Hd Ho]. unfold find_iteration.
  destruct (logs_with_prep_ t) as [|e rest] eqn:El.
  { left. exists 0. split; [done|]. left. split; [done|].
    apply gmultiset_eq. intros l.
    rewrite multiplicity_empty. apply not_elem_of_multiplicity. intros Hl.
    destruct (Ho l Hl) as (? & ? & _). set_solver. }
  destruct (He e ltac:(set_solver)) as (H0 & H1 & H2).
  apply StronglySorted_inv in Hs as [Hs Hlt]. rewrite Forall_forall in Hlt.
  unfold log_lt in Hlt.
  assert (forall x, x ∈ out -> lc_log e <= x) as Hmin.
  { intros x Hx. destruct (Ho x Hx) as (y & [->|Hy]%elem_of_cons & <-); [lia|].
    specialize (Hlt y Hy). lia. }
  assert (1 <= Z.of_nat (multiplicity (lc_log e) out) -> is_min_outstanding (lc_log e) out) as Hret.
  { intros Hm. right. split; [|done]. rewrite elem_of_multiplicity. lia. }
  unfold done_of in H2.
  destruct (prepared_section_completed_ t !! lc_log e) as [c|] eqn:Ec; cbn [default from_option id] in H2.
  2: { left. eexists. split; [done|]. apply Hret. lia. }
  destruct (c <? lc_cnt e) eqn:E1; zbool.
  { left. eexists. split; [done|]. apply Hret. lia. }
  rewrite (proj2 (Z.eqb_eq c _)) by lia. right. eexists. split; [done|].
  split; [|cbn; lia]. split; cbn [logs_with_prep_ prepared_section_completed_]; [done| | |].
  - intros x Hx. destruct (He x ltac:(set_solver)) as (? & ? & Hx2).
    specialize (Hlt x Hx). unfold done_of in *. rewrite lookup_delete_ne by lia. done.
  - intros l c' [Hne Hl]%lookup_delete_Some. destruct (Hd l c' Hl) as (H3 & x & Hx & Hlx).
    split; [done|]. exists x. split; [|done]. apply elem_of_cons in Hx as [->|Hx]; done.
  - intros l Hl. destruct (Ho l Hl) as (x & Hx & Hlx). exists x. split; [|done].
    apply elem_of_cons in Hx as [->|Hx]; [|done]. rewrite elem_of_multiplicity in Hl.
    rewrite Hlx in *. lia.
Qed.

Lemma p_reach_inv s : p_reach s -> PInv (p_tracker s) (p_outstanding s).
Proof.
  induction 1 as [|s s' _ IH Hstep].
  - split; cbn; [constructor|set_solver|done|multiset_solver].
  - destruct Hstep as [log t t' out ? ? ?|log t t' f out ? ?|t out|t t' out Hf|t log out Hf];
      cbn [p_tracker p_outstanding] in *; [by eapply PInv_prepare|by eapply PInv_complete|done| |done].
    destruct (find_iteration_spec t out IH) as [(log & Hr & _)|(t1 & Hr & HI & _)]; congruence.
Qed.

Lemma find_loop_spec fuel : forall t out,
  PInv t out -> (length (logs_with_prep_ t) < fuel)%nat ->
  exists log t', find_loop fuel t = Some (log, t') /\ is_min_outstanding log out /\ PInv t' out.
Proof.
  induction fuel as [|fuel IH]; intros t out I Hf; [lia|]. cbn [find_loop].
  destruct (find_iteration_spec t out I) as [(log & -> & Hm)|(t1 & -> & I1 & Hl)]; [eauto|].
  apply IH; [done|lia].
Qed.

(** the tracker of prepared sections. However threads prepare and complete sections,
    also between the iterations of a search, no assertion of the tracker fails; every
    iteration of a search either shortens the vector of logs or returns the smallest log
    that has an outstanding section at that moment, 0 if there is none; and a search that is
    not interrupted returns that log. *)
Theorem prep_tracker_min (s : PSys) :
  p_reach s ->
  ((exists log, find_iteration (p_tracker s) = Some (FReturn log) /\
      is_min_outstanding log (p_outstanding s)) \/
   (exists t', find_iteration (p_tracker s) = Some (FAgain t') /\
      (length (logs_with_prep_ t') < length (logs_with_prep_ (p_tracker s)))%nat)) /\
  (exists log t', FindMinLogContainingOutstandingPrep (p_tracker s) = Some (log, t') /\
     is_min_outstanding log (p_outstanding s)) /\
  (forall log, log ∈ p_outstanding s ->
     exists t', MarkLogAsHavingPrepSectionFlushed log (p_tracker s) = Some t').
Proof.
  intros Hr. pose proof (p_reach_inv s Hr) as I. split_and!.
  - destruct (find_iteration_spec _ _ I) as [?|(t' & ? & _ & ?)]; [by left|right; eauto].
  - destruct (find_loop_spec (S (length (logs_with_prep_ (p_tracker s)))) _ _ I ltac:(lia))
      as (log & t' & ? & ? & _). eauto.
  - intros log Hl. destruct (pi_out _ _ I log Hl) as (e & He & <-).
    destruct (pi_entry _ _ I e He) as (? & _). unfold MarkLogAsHavingPrepSectionFlushed.
    rewrite (proj2 (Z.eqb_neq _ _)) by lia. eauto.
Qed.

(** Two sections in log 7, one in log 5; the one in log 5 is completed. *)
Lemma prep_tracker_min_witness :
  exists s, p_reach s /\ p_outstanding s = {[+ 7; 7 +]} /\
  exists log t', FindMinLogContainingOutstandingPrep (p_tracker s) = Some (log, t') /\
    is_min_outstanding log (p_outstanding s).
Proof.
  eexists. split; [|split].
  - eapply p_next; [eapply p_next; [eapply p_next; [eapply p_next; [apply p_init|]|]|]|].
    + apply (p_prepare 7); [done|done|reflexivity].
    + apply (p_prepare 5); [done|done|reflexivity].
    + apply (p_prepare 7); [done|done|reflexivity].
    + apply (p_complete 5); [multiset_solver|reflexivity].
  - cbn [p_outstanding]. multiset_solver.
  - apply prep_tracker_min.
    eapply p_next; [eapply p_next; [eapply p_next; [eapply p_next; [apply p_init|]|]|]|].
    + apply (p_prepare 7); [done|done|reflexivity].
    + apply (p_prepare 5); [done|done|reflexivity].
    + apply (p_prepare 7); [done|done|reflexivity].
    + apply (p_complete 5); [multiset_solver|reflexivity].
Defined.
