(* ===== verification/Bits.v ===== *)
(** * Functions that distribute over exclusive or

    Checksums and bit permutations are linear maps on bit vectors. A linear map on [n] bits
    is determined by its values at the powers of two, so that an equation between two of
    them is settled by [n] evaluations. *)

From S2P Require Import Prelude.

Class BitLinear (f : Z -> Z) : Prop := bit_linear a b : f (Z.lxor a b) = Z.lxor (f a) (f b).

Lemma linear_0 f `{BitLinear f} : f 0 = 0.
Proof. rewrite <- (Z.lxor_nilpotent 0) at 1. rewrite bit_linear. apply Z.lxor_nilpotent. Qed.

(** ** Building blocks *)

#[global] Instance linear_id : BitLinear (fun x => x).
Proof. done. Qed.

#[global] Instance linear_lxor f g `{BitLinear f} `{BitLinear g} :
  BitLinear (fun x => Z.lxor (f x) (g x)).
Proof.
  intros a b. rewrite (bit_linear (f := f)), (bit_linear (f := g)).
  rewrite !Z.lxor_assoc. f_equal. rewrite <- !Z.lxor_assoc. f_equal. apply Z.lxor_comm.
Qed.

#[global] Instance linear_shiftr f k `{BitLinear f} : BitLinear (fun x => Z.shiftr (f x) k).
Proof. intros a b. by rewrite (bit_linear (f := f)), Z.shiftr_lxor. Qed.

#[global] Instance linear_shiftl f k `{BitLinear f} : BitLinear (fun x => Z.shiftl (f x) k).
Proof. intros a b. by rewrite (bit_linear (f := f)), Z.shiftl_lxor. Qed.

#[global] Instance linear_land f m `{BitLinear f} : BitLinear (fun x => Z.land (f x) m).
Proof.
  intros a b. rewrite (bit_linear (f := f)). apply Z.bits_inj'. intros i _.
  rewrite !Z.land_spec, !Z.lxor_spec, !Z.land_spec. by destruct (Z.testbit _ i), (Z.testbit _ i), (Z.testbit m i).
Qed.

#[global] Instance linear_cond f k c `{BitLinear f} :
  BitLinear (fun x => if Z.testbit (f x) k then c else 0).
Proof.
  intros a b. rewrite (bit_linear (f := f)), Z.lxor_spec.
  destruct (Z.testbit (f a) k), (Z.testbit (f b) k); cbn [xorb].
  - by rewrite Z.lxor_nilpotent.
  - by rewrite Z.lxor_0_r.
  - by rewrite Z.lxor_0_l.
  - done.
Qed.

Lemma wrap_land w z : 0 <= w -> wrap w z = Z.land z (Z.ones w).
Proof. intros. unfold wrap. by rewrite Z.land_ones. Qed.

#[global] Instance linear_wrap f w `{BitLinear f} : BitLinear (fun x => wrap (Z.abs w) (f x)).
Proof. intros a b. rewrite !wrap_land by lia. exact (linear_land f (Z.ones (Z.abs w)) a b). Qed.

Lemma linear_compose f g : BitLinear f -> BitLinear g -> BitLinear (fun x => g (f x)).
Proof. intros Hf Hg a b. by rewrite (bit_linear (f := f)), (bit_linear (f := g)). Qed.

Lemma linear_iter n f : BitLinear f -> BitLinear (Nat.iter n f).
Proof.
  intros Hf. induction n as [|n IH]; [done|]. intros a b. rewrite !Nat.iter_succ.
  rewrite (IH a b). apply Hf.
Qed.

Lemma linear_ext f g : (forall x, f x = g x) -> BitLinear f -> BitLinear g.
Proof. intros He Hf a b. rewrite <- !He. apply Hf. Qed.

(** ** The basis *)

Lemma lxor_range n a b : 0 <= n -> is_uint n a -> is_uint n b -> is_uint n (Z.lxor a b).
Proof.
  intros Hn [Ha1 Ha2] [Hb1 Hb2]. unfold is_uint.
  assert (0 <= Z.lxor a b) by (apply Z.lxor_nonneg; split; done || lia).
  split; [done|]. destruct (Z.eq_dec (Z.lxor a b) 0) as [->|]; [lia|].
  apply Z.log2_lt_pow2; [lia|].
  pose proof (Z.log2_lxor a b Ha1 Hb1).
  assert (forall x, 0 <= x < 2 ^ n -> Z.log2 x < n \/ x = 0) as Hl.
  { intros x [? ?]. destruct (Z.eq_dec x 0); [by right|left]. apply Z.log2_lt_pow2; lia. }
  destruct (Z.eq_dec n 0) as [->|].
  { change (2 ^ 0) with 1 in *. replace a with 0 in * by lia. replace b with 0 in * by lia. done. }
  destruct (Hl a ltac:(lia)) as [|Ha0], (Hl b ltac:(lia)) as [|Hb0]; try rewrite Ha0 in *;
    try rewrite Hb0 in *; cbn [Z.log2] in *; lia.
Qed.

Lemma split_top n z :
  0 <= n -> is_uint (n + 1) z ->
  z = Z.lxor (if Z.testbit z n then 2 ^ n else 0) (wrap n z) /\ is_uint n (wrap n z).
Proof.
  intros Hn [Hz1 Hz2]. split; [|by apply wrap_range].
  rewrite wrap_land by done. apply Z.bits_inj'. intros i Hi.
  rewrite Z.lxor_spec, Z.land_spec, Z.testbit_ones_nonneg by done.
  destruct (Z.lt_trichotomy i n) as [Hlt|[->|Hgt]].
  - rewrite (proj2 (Z.ltb_lt _ _)), andb_true_r by done.
    destruct (Z.testbit z n); [rewrite Z.pow2_bits_false by lia|rewrite Z.bits_0]; by destruct (Z.testbit z i).
  - rewrite Z.ltb_irrefl, andb_false_r.
    destruct (Z.testbit z n) eqn:E; [by rewrite Z.pow2_bits_true|by rewrite Z.bits_0].
  - rewrite (proj2 (Z.ltb_ge _ _)), andb_false_r by lia.
    assert (Z.testbit z i = false) as ->.
    { destruct (Z.eq_dec z 0) as [->|]; [apply Z.bits_0|]. apply Z.bits_above_log2; [lia|].
      assert (Z.log2 z < n + 1) by (apply Z.log2_lt_pow2; lia). lia. }
    destruct (Z.testbit z n); [by rewrite Z.pow2_bits_false by lia|by rewrite Z.bits_0].
Qed.

Lemma linear_determined n f g :
  BitLinear f -> BitLinear g ->
  (forall i, (i < n)%nat -> f (2 ^ Z.of_nat i) = g (2 ^ Z.of_nat i)) ->
  forall z, is_uint (Z.of_nat n) z -> f z = g z.
Proof.
  intros Hf Hg. induction n as [|n IH]; intros Hb z Hz.
  - change (is_uint 0 z) in Hz. unfold is_uint in Hz. replace z with 0 by lia.
    by rewrite (linear_0 f), (linear_0 g).
  - destruct (split_top (Z.of_nat n) z ltac:(lia)) as [Heq Hr].
    { by replace (Z.of_nat n + 1) with (Z.of_nat (S n)) by lia. }
    rewrite Heq, (bit_linear (f := f)), (bit_linear (f := g)). f_equal.
    + destruct (Z.testbit z _); [apply Hb; lia|]. by rewrite (linear_0 f), (linear_0 g).
    + apply IH; [|done]. intros i Hi. apply Hb. lia.
Qed.

Definition basis_agree (n : nat) (f g : Z -> Z) : bool :=
  forallb (fun i => f (2 ^ Z.of_nat i) =? g (2 ^ Z.of_nat i)) (seq 0 n).

(** The check and what it proves. *)
Lemma basis_agree_sound n f g :
  BitLinear f -> BitLinear g -> basis_agree n f g = true ->
  forall z, is_uint (Z.of_nat n) z -> f z = g z.
Proof.
  intros Hf Hg Hb. apply (linear_determined n f g Hf Hg). intros i Hi.
  unfold basis_agree in Hb. rewrite forallb_forall in Hb.
  apply Z.eqb_eq, Hb. apply in_seq. lia.
Qed.
