(* ===== verification/Crc32cProofs.v ===== *)
(** * The checksum is the CRC of the Castagnoli polynomial

    The reference is bit by bit: shift the register, and subtract the polynomial when a bit
    falls out. The tables, the word-wise loops and the combination of checksums are shown to
    compute it. *)

From S2P Require Import Prelude.
From S2P Require Import Coding.
From S2P Require Import Bits.
From S2P Require Import Crc32c.

(** ** The reference *)

Definition crc_bit (c : Z) : Z :=
  Z.lxor (Z.shiftr c 1) (if Z.testbit c 0 then crc32c_m else 0).

Definition crc_bits (n : nat) : Z -> Z := Nat.iter n crc_bit.

Definition crc_byte (l : Z) (b : byte) : Z := crc_bits 8 (Z.lxor l (byte_to_Z b)).

Definition crc_bytes (l : Z) (bs : bytes) : Z := foldl crc_byte l bs.

Definition crc32c_ref (crc : Z) (bs : bytes) : Z :=
  Z.lxor (crc_bytes (Z.lxor crc ALL_ONES) bs) ALL_ONES.

#[global] Instance crc_bit_linear : BitLinear crc_bit.
Proof. apply (linear_lxor (fun x => Z.shiftr x 1) (fun x => if Z.testbit x 0 then crc32c_m else 0)). Qed.

#[global] Instance crc_bits_linear n : BitLinear (crc_bits n).
Proof. apply linear_iter, _. Qed.

Lemma crc_bits_add m n c : crc_bits (m + n) c = crc_bits m (crc_bits n c).
Proof. apply Nat.iter_add. Qed.

Lemma crc_bit_range c : is_uint 32 c -> is_uint 32 (crc_bit c).
Proof.
  intros [? ?]. apply lxor_range; [lia| |destruct (Z.testbit c 0); done].
  unfold is_uint. rewrite Z.shiftr_div_pow2 by lia. change (2 ^ 1) with 2.
  split; [apply Z.div_pos; lia|]. apply Z.div_lt_upper_bound; lia.
Qed.

Lemma crc_bits_range n c : is_uint 32 c -> is_uint 32 (crc_bits n c).
Proof. intros Hc. unfold crc_bits. induction n; [done|]. by apply crc_bit_range. Qed.

(** Zero bits only shift. *)
Lemma crc_bits_shiftl n x : crc_bits n (Z.shiftl x (Z.of_nat n)) = x.
Proof.
  revert x. induction n as [|n IH]; intros x; [apply Z.shiftl_0_r|].
  replace (S n) with (n + 1)%nat by lia. rewrite crc_bits_add.
  rewrite Nat2Z.inj_add, <- Z.shiftl_shiftl by lia.
  rewrite <- (IH x) at 2. f_equal. unfold crc_bits, crc_bit. cbn [Nat.iter nat_rect].
  rewrite Z.shiftl_spec_low, Z.lxor_0_r, Z.shiftr_shiftl_l by lia. apply Z.shiftl_0_r.
Qed.

Lemma crc_bits_byte x : crc_bits 8 (Z.shiftl x 8) = x.
Proof. apply (crc_bits_shiftl 8). Qed.

Lemma crc_bytes_app l a b : crc_bytes l (a ++ b) = crc_bytes (crc_bytes l a) b.
Proof. apply foldl_app. Qed.

(** ** Bytes as bit vectors *)

Lemma add_shiftl_lxor a b k :
  0 <= k -> is_uint k a -> a + b * 2 ^ k = Z.lxor a (Z.shiftl b k).
Proof.
  intros Hk Ha. rewrite <- (lor_shiftl_add a b k) by done.
  symmetry. apply Z.lxor_lor. apply Z.bits_inj'. intros i Hi. rewrite Z.bits_0, Z.land_spec.
  destruct (Z.lt_ge_cases i k).
  - rewrite Z.shiftl_spec_low by done. apply andb_false_r.
  - destruct Ha as [Ha1 Ha2]. by rewrite (proj1 (Z.bounded_iff_bits_nonneg k a Hk Ha1) Ha2 i).
Qed.

Lemma le_val_lxor b bs : le_val (b :: bs) = Z.lxor (byte_to_Z b) (Z.shiftl (le_val bs) 8).
Proof.
  cbn [le_val]. rewrite <- add_shiftl_lxor by (done || apply byte_to_Z_range).
  change (2 ^ 8) with 256. lia.
Qed.

(** Byte by byte is the same as all the bits of the little-endian value. *)
Lemma crc_bytes_le_val bs : forall l,
  crc_bytes l bs = crc_bits (8 * length bs) (Z.lxor l (le_val bs)).
Proof.
  induction bs as [|b bs IH]; intros l.
  { cbn. by rewrite Z.lxor_0_r. }
  rewrite le_val_lxor. change (crc_bytes l (b :: bs)) with (crc_bytes (crc_byte l b) bs).
  rewrite IH. unfold crc_byte. cbn [length].
  replace (8 * S (length bs))%nat with (8 * length bs + 8)%nat by lia.
  rewrite crc_bits_add, <- Z.lxor_assoc.
  rewrite (bit_linear (f := crc_bits 8) (Z.lxor l _) (Z.shiftl _ 8)).
  rewrite crc_bits_byte. done.
Qed.

Lemma crc_bytes_split l bs :
  crc_bytes l bs = Z.lxor (crc_bits (8 * length bs) l) (crc_bytes 0 bs).
Proof. rewrite !crc_bytes_le_val, Z.lxor_0_l. apply bit_linear. Qed.

Lemma crc_bytes_range l bs : is_uint 32 l -> is_uint 32 (crc_bytes l bs).
Proof.
  revert l. induction bs as [|b bs IH]; intros l Hl; [done|]. apply IH.
  apply crc_bits_range, lxor_range; [lia|done|].
  pose proof (byte_to_Z_range b). unfold is_uint in *. lia.
Qed.

(** ** The tables *)

Definition table_of (n : nat) : list Z := (fun i => crc_bits n (Z.of_nat i)) <$> seq 0 256.

Lemma table0_ok : table0_ = table_of 8. Proof. vm_compute. reflexivity. Qed.
Lemma table1_ok : table1_ = table_of 16. Proof. vm_compute. reflexivity. Qed.
Lemma table2_ok : table2_ = table_of 24. Proof. vm_compute. reflexivity. Qed.
Lemma table3_ok : table3_ = table_of 32. Proof. vm_compute. reflexivity. Qed.

Lemma table_at_of n i : is_uint 8 i -> table_at (table_of n) i = Some (crc_bits n i).
Proof.
  intros [H1 H2]. unfold table_at. rewrite (proj2 (Z.ltb_ge _ _)) by done.
  unfold table_of. rewrite list_lookup_fmap.
  change (2 ^ 8) with 256 in H2.
  rewrite (lookup_seq_lt 0 256 (Z.to_nat i)) by lia. cbn. f_equal. f_equal. lia.
Qed.

Lemma land_255_range z : is_uint 8 (Z.land z 255).
Proof. change 255 with (Z.ones 8). rewrite Z.land_ones by lia. apply Z.mod_pos_bound. lia. Qed.

(** A register is its low byte and the rest. *)
Lemma low_byte l : l = Z.lxor (Z.land l 255) (Z.shiftl (Z.shiftr l 8) 8).
Proof.
  rewrite <- add_shiftl_lxor by (lia || apply land_255_range).
  change 255 with (Z.ones 8). rewrite Z.land_ones, Z.shiftr_div_pow2 by lia.
  pose proof (Z.div_mod l (2 ^ 8) ltac:(lia)). lia.
Qed.

Lemma STEP1_ok l b : STEP1 l b = Some (crc_byte l b).
Proof.
  unfold STEP1. rewrite table0_ok, table_at_of.
  2: { apply lxor_range; [lia|apply land_255_range|apply byte_to_Z_range]. }
  cbn [mbind option_bind]. f_equal. unfold crc_byte. rewrite (low_byte l) at 3.
  rewrite Z.lxor_assoc, (Z.lxor_comm (Z.shiftl _ _)), <- Z.lxor_assoc.
  rewrite (bit_linear (f := crc_bits 8) _ (Z.shiftl _ 8)), crc_bits_byte. done.
Qed.

Lemma shiftr_range w k l : 0 <= k <= w -> is_uint w l -> is_uint (w - k) (Z.shiftr l k).
Proof.
  intros Hk [? ?]. unfold is_uint. rewrite Z.shiftr_div_pow2 by lia.
  split; [apply Z.div_pos; lia|]. apply Z.div_lt_upper_bound; [lia|].
  rewrite <- Z.pow_add_r by lia. by replace (k + (w - k)) with w by lia.
Qed.

(** Four table lookups advance the register by 32 bits. *)
Lemma word_tables c :
  is_uint 32 c ->
  crc_bits 32 c =
    Z.lxor (Z.lxor (Z.lxor (crc_bits 32 (Z.land c 255))
      (crc_bits 24 (Z.land (Z.shiftr c 8) 255)))
      (crc_bits 16 (Z.land (Z.shiftr c 16) 255))) (crc_bits 8 (Z.shiftr c 24)).
Proof.
  intros Hc.
  assert (forall n x, crc_bits (n + 8) x =
    Z.lxor (crc_bits (n + 8) (Z.land x 255)) (crc_bits n (Z.shiftr x 8))) as Hb.
  { intros n x. rewrite (low_byte x) at 1. rewrite (bit_linear (f := crc_bits (n + 8))). f_equal.
    by rewrite crc_bits_add, crc_bits_byte. }
  change (crc_bits 32 c) with (crc_bits (24 + 8) c).
  rewrite (Hb 24%nat c). change (crc_bits 24 (Z.shiftr c 8)) with (crc_bits (16 + 8) (Z.shiftr c 8)).
  rewrite (Hb 16%nat (Z.shiftr c 8)), Z.shiftr_shiftr by lia.
  change (crc_bits 16 (Z.shiftr c (8 + 8))) with (crc_bits (8 + 8) (Z.shiftr c 16)).
  rewrite (Hb 8%nat (Z.shiftr c 16)), Z.shiftr_shiftr by lia. by rewrite !Z.lxor_assoc.
Qed.

Lemma crc32_word_ok l b0 b1 b2 b3 p :
  is_uint 32 l ->
  crc32_word l (b0 :: b1 :: b2 :: b3 :: p) = Some (crc_bytes l [b0; b1; b2; b3], p).
Proof.
  intros Hl. unfold crc32_word, LE_LOAD32. rewrite !size_cons.
  rewrite (proj2 (Z.ltb_ge _ _)) by (pose proof (size_nonneg p); lia).
  assert (DecodeFixed32 (b0 :: b1 :: b2 :: b3 :: p) = le_val [b0; b1; b2; b3]) as -> by done.
  pose proof (le_val_range [b0; b1; b2; b3]) as Hv. change (8 * size [b0; b1; b2; b3]) with 32 in Hv.
  rewrite wrap_small by (by apply lxor_range).
  rewrite crc_bytes_le_val. change (8 * length [b0; b1; b2; b3])%nat with 32%nat.
  set (c := Z.lxor l (le_val [b0; b1; b2; b3])).
  assert (is_uint 32 c) as Hc by (by apply lxor_range).
  rewrite table3_ok, table2_ok, table1_ok, table0_ok, !table_at_of
    by (apply land_255_range || (by apply (shiftr_range 32 24))).
  cbn [mbind option_bind]. rewrite (word_tables c Hc). done.
Qed.

(** ** The loops *)

Lemma DefaultCRC32_ok l p :
  is_uint 32 l -> 8 <= size p ->
  exists pre q, p = pre ++ q /\ length pre = 8%nat /\
    DefaultCRC32 l p = Some (crc_bytes l pre, q).
Proof.
  intros Hl Hp. unfold size in Hp.
  destruct p as [|b0 [|b1 [|b2 [|b3 [|b4 [|b5 [|b6 [|b7 p]]]]]]]]; cbn [length] in Hp; try lia.
  exists [b0; b1; b2; b3; b4; b5; b6; b7], p. split_and!; [done..|].
  unfold DefaultCRC32. rewrite crc32_word_ok by done. cbn [mbind option_bind].
  rewrite crc32_word_ok by (by apply crc_bytes_range). by rewrite <- crc_bytes_app.
Qed.

Lemma by_eight_ok fuel : forall l p,
  is_uint 32 l -> (length p < fuel)%nat ->
  exists pre q, p = pre ++ q /\ by_eight fuel l p = Some (crc_bytes l pre, q).
Proof.
  induction fuel as [|fuel IH]; intros l p Hl Hf; [lia|]. cbn [by_eight].
  destruct (size p >=? 8) eqn:E; zbool; [|by exists [], p].
  destruct (DefaultCRC32_ok l p Hl E) as (pre & q & -> & Hpre & ->). cbn [mbind option_bind].
  rewrite length_app in Hf.
  destruct (IH (crc_bytes l pre) q (crc_bytes_range l pre Hl) ltac:(lia)) as (pre' & q' & -> & ->).
  exists (pre ++ pre'), q'. split; [by rewrite <- app_assoc|]. by rewrite crc_bytes_app.
Qed.

Lemma by_sixteen_ok fuel : forall l p,
  is_uint 32 l -> (length p < fuel)%nat ->
  exists pre q, p = pre ++ q /\ by_sixteen fuel l p = Some (crc_bytes l pre, q).
Proof.
  induction fuel as [|fuel IH]; intros l p Hl Hf; [lia|]. cbn [by_sixteen].
  destruct (size p >=? 16) eqn:E; zbool; [|by exists [], p].
  destruct (DefaultCRC32_ok l p Hl ltac:(lia)) as (a & q & -> & Ha & ->). cbn [mbind option_bind].
  rewrite size_app in E. unfold size in E at 1. rewrite length_app in Hf.
  destruct (DefaultCRC32_ok (crc_bytes l a) q (crc_bytes_range l a Hl) ltac:(lia))
    as (b & q2 & -> & Hb & ->). cbn [mbind option_bind]. rewrite length_app in Hf.
  rewrite <- crc_bytes_app.
  destruct (IH (crc_bytes l (a ++ b)) q2 (crc_bytes_range l _ Hl) ltac:(lia))
    as (c & q3 & -> & ->).
  exists ((a ++ b) ++ c), q3. split; [by rewrite <- !app_assoc|].
  by rewrite (crc_bytes_app l (a ++ b) c).
Qed.

Lemma by_one_ok p : forall l, by_one l p = Some (crc_bytes l p).
Proof.
  induction p as [|b p IH]; intros l; [done|]. cbn [by_one]. rewrite STEP1_ok. cbn. apply IH.
Qed.

Lemma bytes_until_ok x p : forall addr l,
  addr <= x <= addr + size p ->
  exists pre q, p = pre ++ q /\ bytes_until x addr l p = Some (crc_bytes l pre, q).
Proof.
  induction p as [|b p IH]; intros addr l Hx; cbn [bytes_until].
  - rewrite size_nil in Hx. rewrite (proj2 (Z.eqb_eq addr x)) by lia. by exists [], [].
  - destruct (addr =? x) eqn:E; zbool; [by exists [], (b :: p)|]. rewrite size_cons in Hx.
    rewrite STEP1_ok. cbn [mbind option_bind].
    destruct (IH (addr + 1) (crc_byte l b) ltac:(lia)) as (pre & q & -> & ->).
    by exists (b :: pre), q.
Qed.

Lemma align16_ge n : n <= align16 n.
Proof.
  unfold align16. change (Z.lnot 15) with (Z.lnot (Z.ones 4)).
  rewrite <- Z.ldiff_land, Z.ldiff_ones_r by lia.
  rewrite Z.shiftl_mul_pow2, Z.shiftr_div_pow2 by lia. change (2 ^ 4) with 16. dlia.
Qed.

Lemma lxor_ones_range c : is_uint 32 c -> is_uint 32 (Z.lxor c ALL_ONES).
Proof. intros. by apply lxor_range. Qed.

Lemma ExtendImpl_ref addr crc buf :
  is_uint 32 crc -> ExtendImpl addr crc buf = Some (crc32c_ref crc buf).
Proof.
  intros Hc. unfold ExtendImpl. pose proof (lxor_ones_range crc Hc) as Hl.
  assert (exists pre q, buf = pre ++ q /\
    (if align16 addr <=? addr + size buf
     then bytes_until (align16 addr) addr (Z.lxor crc ALL_ONES) buf
     else Some (Z.lxor crc ALL_ONES, buf)) = Some (crc_bytes (Z.lxor crc ALL_ONES) pre, q))
    as (a & p & -> & ->).
  { destruct (_ <=? _) eqn:E; zbool; [|by exists [], buf].
    apply bytes_until_ok. pose proof (align16_ge addr). lia. }
  cbn [mbind option_bind].
  destruct (by_sixteen_ok (S (length p)) _ p (crc_bytes_range _ a Hl) ltac:(lia))
    as (b & p2 & -> & ->). cbn [mbind option_bind]. rewrite <- crc_bytes_app.
  destruct (by_eight_ok (S (length p2)) _ p2 (crc_bytes_range _ (a ++ b) Hl) ltac:(lia))
    as (c & p3 & -> & ->). cbn [mbind option_bind]. rewrite <- crc_bytes_app, by_one_ok.
  cbn [mbind option_bind]. rewrite <- crc_bytes_app, <- !app_assoc.
  rewrite wrap_small by (by apply lxor_ones_range, crc_bytes_range). done.
Qed.

Lemma Extend_ref crc buf : is_uint 32 crc -> Extend crc buf = crc32c_ref crc buf.
Proof. intros. unfold Extend. by rewrite ExtendImpl_ref. Qed.

Lemma Extend_range crc buf : is_uint 32 crc -> is_uint 32 (Extend crc buf).
Proof.
  intros. rewrite Extend_ref by done. by apply lxor_ones_range, crc_bytes_range, lxor_ones_range.
Qed.

Lemma lxor_ones_twice c : Z.lxor (Z.lxor c ALL_ONES) ALL_ONES = c.
Proof. by rewrite Z.lxor_assoc, Z.lxor_nilpotent, Z.lxor_0_r. Qed.

Lemma Extend_app crc a b : is_uint 32 crc -> Extend crc (a ++ b) = Extend (Extend crc a) b.
Proof.
  intros Hc. rewrite (Extend_ref _ b) by (by apply Extend_range). rewrite !Extend_ref by done.
  unfold crc32c_ref. by rewrite crc_bytes_app, lxor_ones_twice.
Qed.

(** ** Multiplication in the field *)

(** The sum the loop of [gf_multiply_sw_1] accumulates. *)
Fixpoint gf_sum (n : nat) (a b : Z) : Z :=
  match n with
  | O => 0
  | S n => Z.lxor (if Z.testbit b 31 then a else 0) (gf_sum n (crc_bit a) (u32 (Z.shiftl b 1)))
  end.

Lemma mask_bit x a :
  is_uint 32 a -> Z.land (u32 (0 - Z.land x 1)) a = if Z.testbit x 0 then a else 0.
Proof.
  intros Ha. assert (Z.land x 1 = Z.b2z (Z.testbit x 0)) as ->.
  { change 1 with (Z.ones 1). rewrite Z.land_ones by lia. symmetry. apply Z.bit0_mod. }
  destruct (Z.testbit x 0); cbn [Z.b2z]; [|done].
  change (u32 (0 - 1)) with (Z.ones 32). rewrite Z.land_comm, Z.land_ones by lia.
  by apply wrap_small.
Qed.

Lemma gf_multiply_sum n : forall p a b,
  is_uint 32 a -> gf_multiply_sw_1 n p a b crc32c_m = Z.lxor p (gf_sum n a b).
Proof.
  induction n as [|n IH]; intros p a b Ha; cbn [gf_multiply_sw_1 gf_sum].
  { by rewrite Z.lxor_0_r. }
  rewrite (mask_bit (Z.shiftr b 31) a Ha), (mask_bit a crc32c_m) by done.
  rewrite Z.shiftr_spec by lia. change (0 + 31) with 31. fold (crc_bit a).
  rewrite IH by (by apply crc_bit_range). apply Z.lxor_assoc.
Qed.

Lemma gf_sum_linear_l n b : BitLinear (fun a => gf_sum n a b).
Proof.
  revert b. induction n as [|n IH]; intros b x y; cbn [gf_sum]; [done|].
  rewrite (bit_linear (f := crc_bit)), (IH (u32 (Z.shiftl b 1)) (crc_bit x) (crc_bit y)).
  destruct (Z.testbit b 31); [|by rewrite !Z.lxor_0_l].
  rewrite !Z.lxor_assoc. f_equal. rewrite <- !Z.lxor_assoc. f_equal. apply Z.lxor_comm.
Qed.

Lemma gf_sum_linear_r n : forall a, BitLinear (gf_sum n a).
Proof.
  induction n as [|n IH]; intros a; [done|].
  assert (BitLinear (fun b => gf_sum n (crc_bit a) (u32 (Z.shiftl b 1)))).
  { apply (linear_compose (fun b => u32 (Z.shiftl b 1)) (gf_sum n (crc_bit a))); [|apply IH].
    apply (linear_wrap (fun b => Z.shiftl b 1) 32). }
  exact (linear_lxor (fun b => if Z.testbit b 31 then a else 0)
           (fun b => gf_sum n (crc_bit a) (u32 (Z.shiftl b 1)))).
Qed.

(** Multiplying by [x] commutes with multiplication: bilinear, so 32 times 32 cases. *)
Lemma gf_sum_step a b :
  is_uint 32 a -> is_uint 32 b -> gf_sum 32 a (crc_bit b) = crc_bit (gf_sum 32 a b).
Proof.
  intros Ha Hb. revert a Ha. apply (linear_determined 32).
  { apply gf_sum_linear_l. }
  { apply (linear_compose (fun a => gf_sum 32 a b) crc_bit); [apply gf_sum_linear_l|apply _]. }
  intros i Hi. revert b Hb. apply (linear_determined 32).
  { apply (linear_compose crc_bit (gf_sum 32 (2 ^ Z.of_nat i))); [apply _|apply gf_sum_linear_r]. }
  { apply (linear_compose (gf_sum 32 (2 ^ Z.of_nat i)) crc_bit); [apply gf_sum_linear_r|apply _]. }
  intros j Hj.
  assert (forallb (fun i => forallb (fun j =>
    gf_sum 32 (2 ^ Z.of_nat i) (crc_bit (2 ^ Z.of_nat j)) =?
    crc_bit (gf_sum 32 (2 ^ Z.of_nat i) (2 ^ Z.of_nat j))) (seq 0 32)) (seq 0 32) = true) as H
    by (vm_compute; reflexivity).
  rewrite forallb_forall in H. specialize (H i ltac:(apply in_seq; lia)).
  rewrite forallb_forall in H. apply Z.eqb_eq, (H j). apply in_seq. lia.
Qed.

(** The element 1 of the field. *)
Definition gf_one : Z := 2 ^ 31.

Lemma gf_sum_one a : is_uint 32 a -> gf_sum 32 a gf_one = a.
Proof.
  apply (basis_agree_sound 32 (fun a => gf_sum 32 a gf_one) (fun a => a));
    [apply gf_sum_linear_l|apply _|vm_compute; reflexivity].
Qed.

Lemma gf_multiply_power n a :
  is_uint 32 a -> gf_multiply_sw a (crc_bits n gf_one) crc32c_m = crc_bits n a.
Proof.
  intros Ha. unfold gf_multiply_sw. rewrite gf_multiply_sum, Z.lxor_0_l by done.
  induction n as [|n IH]; [by apply gf_sum_one|].
  change (crc_bits (S n) gf_one) with (crc_bit (crc_bits n gf_one)).
  rewrite gf_sum_step by (done || by apply crc_bits_range). by rewrite IH.
Qed.

(** [n] bits, with a machine integer. *)
Definition zbits (n c : Z) : Z := crc_bits (Z.to_nat n) c.

Lemma zbits_add m n c : 0 <= m -> 0 <= n -> zbits (m + n) c = zbits m (zbits n c).
Proof. intros. unfold zbits. rewrite Z2Nat.inj_add by done. apply crc_bits_add. Qed.

Lemma zbits_range n c : is_uint 32 c -> is_uint 32 (zbits n c).
Proof. apply crc_bits_range. Qed.

Lemma gf_powers_memo_ok i : gf_powers_memo i crc32c_m = zbits (32 * 2 ^ Z.of_nat i) gf_one.
Proof.
  induction i as [|i IH]; [vm_compute; reflexivity|]. cbn [gf_powers_memo].
  rewrite IH. unfold gf_square_sw. unfold zbits at 2.
  rewrite gf_multiply_power by (by apply zbits_range).
  change (crc_bits (Z.to_nat (32 * 2 ^ Z.of_nat i)) (zbits (32 * 2 ^ Z.of_nat i) gf_one))
    with (zbits (32 * 2 ^ Z.of_nat i) (zbits (32 * 2 ^ Z.of_nat i) gf_one)).
  rewrite <- zbits_add by lia. f_equal. rewrite Nat2Z.inj_succ, Z.pow_succ_r by lia. lia.
Qed.

Lemma crc32c_powers_drop j :
  (j < 62)%nat ->
  drop j crc32c_powers = zbits (32 * 2 ^ Z.of_nat j) gf_one :: drop (S j) crc32c_powers.
Proof.
  intros Hj. rewrite <- gf_powers_memo_ok. apply drop_S. unfold crc32c_powers.
  rewrite list_lookup_fmap, lookup_seq_lt by done. done.
Qed.

Lemma ctz_pos_ok v :
  0 <= ctz_pos v /\ exists o, 0 <= o /\ Zpos v = 2 ^ ctz_pos v * (2 * o + 1).
Proof.
  induction v as [v _|v (IH1 & o & Ho & IH2)|]; cbn [ctz_pos].
  - split; [done|]. exists (Zpos v). lia.
  - split; [lia|]. exists o. split; [done|]. rewrite Z.pow_add_r by lia. lia.
  - split; [done|]. by exists 0.
Qed.

Lemma append_zeroes_loop_ok fuel : forall crc len j,
  is_uint 32 crc -> 0 <= len < 2 ^ (Z.of_nat fuel - 1) -> len * 2 ^ Z.of_nat j < 2 ^ 62 ->
  append_zeroes_loop fuel crc len crc32c_m (drop j crc32c_powers) =
    Some (zbits (32 * (2 ^ Z.of_nat j * len)) crc).
Proof.
  induction fuel as [|fuel IH]; intros crc len j Hc Hlen Hj.
  { rewrite (Z.pow_neg_r 2) in Hlen by lia. lia. }
  cbn [append_zeroes_loop]. destruct (len =? 0) eqn:E; zbool.
  { subst len. rewrite Z.mul_0_r. done. }
  destruct len as [|v|]; [lia| |lia]. cbn [CountTrailingZeroBits].
  destruct (ctz_pos_ok v) as (Hr & o & Ho & Hv). set (r := ctz_pos v) in *.
  rewrite (Z.shiftr_div_pow2 (Zpos v) r) by done.
  assert (Zpos v / 2 ^ r = 2 * o + 1) as ->
    by (rewrite Hv, Z.mul_comm; apply Z.div_mul; lia).
  rewrite Z.shiftr_div_pow2 by lia. change (2 ^ 1) with 2.
  replace ((2 * o + 1) / 2) with o by dlia.
  assert (r + Z.of_nat j < 62) as Hrj.
  { apply (Z.pow_lt_mono_r_iff 2); [lia..|]. rewrite Z.pow_add_r by lia. nia. }
  unfold zdrop. rewrite drop_drop. rewrite crc32c_powers_drop by lia.
  replace (Z.of_nat (j + Z.to_nat r)) with (Z.of_nat j + r) by lia.
  unfold zbits at 1. rewrite gf_multiply_power by done.
  rewrite IH; [|by apply crc_bits_range| |].
  - change (crc_bits (Z.to_nat ?n) crc) with (zbits n crc). f_equal.
    rewrite <- zbits_add by lia. f_equal.
    replace (Z.of_nat (S (j + Z.to_nat r))) with (Z.of_nat j + r + 1) by lia.
    rewrite Hv, !Z.pow_add_r by lia. change (2 ^ 1) with 2. ring.
  - split; [done|]. destruct Hlen as [_ Hlen].
    replace (Z.of_nat (S fuel) - 1) with (Z.of_nat fuel - 1 + 1) in Hlen by lia.
    destruct (Z.eq_dec (Z.of_nat fuel) 0) as [Hz|].
    { rewrite Hz in Hlen. change (2 ^ (0 - 1 + 1)) with 1 in Hlen. lia. }
    rewrite Z.pow_add_r in Hlen by lia. change (2 ^ 1) with 2 in Hlen.
    pose proof (Z.pow_pos_nonneg 2 r ltac:(lia) Hr). nia.
  - replace (Z.of_nat (S (j + Z.to_nat r))) with (Z.of_nat j + r + 1) by lia.
    rewrite !Z.pow_add_r by lia. change (2 ^ 1) with 2.
    pose proof (Z.pow_pos_nonneg 2 (Z.of_nat j) ltac:(lia) ltac:(lia)). nia.
Qed.

Lemma Crc32AppendZeroes_ok crc len :
  is_uint 32 crc -> 0 <= len < 2 ^ 62 ->
  Crc32AppendZeroes crc len crc32c_m crc32c_powers = Some (zbits (32 * len) crc).
Proof.
  intros Hc Hl. unfold Crc32AppendZeroes. change crc32c_powers with (drop 0 crc32c_powers).
  rewrite append_zeroes_loop_ok; [|done|lia|cbn [Z.of_nat]; lia].
  do 2 f_equal. cbn [Z.of_nat]. lia.
Qed.

(** ** Combination *)

Lemma lnot_ones c : is_uint 32 c -> u32 (Z.lnot c) = Z.lxor c ALL_ONES.
Proof.
  intros Hc. unfold ALL_ONES. change 0xffffffff with (Z.ones 32).
  rewrite wrap_land by lia. apply Z.bits_inj'. intros i Hi.
  rewrite Z.land_spec, Z.lnot_spec, Z.lxor_spec by done.
  rewrite Z.testbit_ones_nonneg by lia. destruct (i <? 32) eqn:E; zbool.
  - rewrite andb_true_r. by destruct (Z.testbit c i).
  - destruct Hc as [Hc1 Hc2].
    rewrite (proj1 (Z.bounded_iff_bits_nonneg 32 c ltac:(lia) Hc1) Hc2 i) by lia. done.
Qed.

Lemma le_val_zeroes n : le_val (replicate n x00) = 0.
Proof. induction n as [|n IH]; [done|]. cbn [replicate le_val]. rewrite IH. done. Qed.

(** Zero bytes, in the inverted representation of the checksums. *)
Lemma PureExtend_zeroes crc n :
  is_uint 32 crc -> PureExtend crc (replicate n x00) = zbits (8 * Z.of_nat n) crc.
Proof.
  intros Hc. unfold PureExtend, InvertedToPure, PureToInverted.
  rewrite (lnot_ones crc) by done.
  rewrite Extend_ref by (by apply lxor_ones_range). unfold crc32c_ref.
  rewrite lxor_ones_twice, lnot_ones, lxor_ones_twice
    by (by apply lxor_ones_range, crc_bytes_range).
  rewrite crc_bytes_le_val, length_replicate, le_val_zeroes, Z.lxor_0_r. unfold zbits. f_equal. lia.
Qed.

(** Three exclusive ors cancel the common initial value. *)
Lemma lxor_cancel a i b : Z.lxor (Z.lxor a i) (Z.lxor i b) = Z.lxor a b.
Proof.
  rewrite Z.lxor_assoc, <- (Z.lxor_assoc i i b), Z.lxor_nilpotent, Z.lxor_0_l. done.
Qed.

(** the checksum of a concatenation. [Crc32cCombine] of the checksums of two byte
    strings and the length of the second is the checksum of the strings one after the other,
    and its table of powers is not overrun, for every length that fits a [size_t]. *)
Theorem combine_concatenates (crc : Z) (a b : bytes) :
  is_uint 32 crc -> size b < 2 ^ 64 ->
  Crc32cCombine (Extend crc a) (crc32c_Value b) (size b) = Some (Extend crc (a ++ b)).
Proof.
  intros Hc Hb. pose proof (size_nonneg b) as Hb0. unfold Crc32cCombine, crc32c_Value.
  rewrite Extend_app by done. pose proof (Extend_range crc a Hc) as Ha.
  set (ca := Extend crc a) in *. unfold InvertedToPure, PureToInverted.
  rewrite (lnot_ones ca), (lnot_ones (Extend 0 b)) by (done || by apply Extend_range).
  change (u32 (-1)) with ALL_ONES. rewrite !Extend_ref by done. unfold crc32c_ref.
  set (p := Z.lxor ca ALL_ONES). rewrite lxor_ones_twice, Z.lxor_0_l.
  assert (is_uint 32 p) as Hp by (by apply lxor_ones_range).
  assert (Z.land (size b) 3 = size b mod 4) as -> by (apply (Z.land_ones (size b) 2); lia).
  set (len := size b mod 4). assert (0 <= len < 4) as Hlen by (apply Z.mod_pos_bound; lia).
  assert (ztake len [x00; x00; x00; x00] = replicate (Z.to_nat len) x00) as ->.
  { assert (len = 0 \/ len = 1 \/ len = 2 \/ len = 3) as [-> |[-> |[-> | ->]]] by lia; done. }
  assert ((if negb (len =? 0)
           then PureExtend (Z.lxor p ALL_ONES) (replicate (Z.to_nat len) x00)
           else Z.lxor p ALL_ONES) = zbits (8 * len) (Z.lxor p ALL_ONES)) as ->.
  { destruct (len =? 0) eqn:E; zbool; cbn [negb].
    - rewrite E. done.
    - rewrite PureExtend_zeroes by (by apply lxor_ones_range). f_equal. lia. }
  rewrite Crc32AppendZeroes_ok; [|by apply zbits_range, lxor_ones_range|dlia].
  cbn [mbind option_bind]. f_equal. rewrite <- zbits_add by dlia.
  replace (32 * (size b / 4) + 8 * len) with (8 * size b) by (unfold len; dlia).
  rewrite lnot_ones; [f_equal|].
  - rewrite (crc_bytes_split p b), (crc_bytes_split ALL_ONES b). unfold zbits.
    replace (Z.to_nat (8 * size b)) with (8 * length b)%nat by (unfold size; lia).
    rewrite (bit_linear (f := crc_bits (8 * length b))). apply lxor_cancel.
  - apply lxor_range; [lia|by apply zbits_range, lxor_ones_range|by apply crc_bytes_range].
Qed.

Lemma combine_concatenates_witness :
  Crc32cCombine (Extend 0 [x31; x32; x33]) (crc32c_Value [x34; x35; x36; x37; x38; x39]) 6 =
    Some 0xe3069283.
Proof.
  transitivity (Some (Extend 0 ([x31; x32; x33] ++ [x34; x35; x36; x37; x38; x39]))).
  - apply (combine_concatenates 0 [x31; x32; x33] [x34; x35; x36; x37; x38; x39]); done.
  - vm_compute. reflexivity.
Defined.

(** C39: the checksum. At every address, the table-driven [ExtendImpl] with its aligned,
    word-wise loops returns the bit-by-bit CRC of the Castagnoli polynomial, inverted
    before and after, and so the result does not depend on the address; extending by two
    buffers in turn is extending by their concatenation. *)
Theorem extend_is_crc (addr crc : Z) (a b : bytes) :
  is_uint 32 crc ->
  ExtendImpl addr crc (a ++ b) = Some (crc32c_ref crc (a ++ b)) /\
  Extend crc (a ++ b) = Extend (Extend crc a) b /\ is_uint 32 (Extend crc a).
Proof.
  intros Hc. split_and!; [by apply ExtendImpl_ref|by apply Extend_app|by apply Extend_range].
Qed.

Lemma extend_is_crc_witness :
  ExtendImpl 5 0 ([x31; x32; x33; x34] ++ [x35; x36; x37; x38; x39]) =
    Some (crc32c_ref 0 ([x31; x32; x33; x34] ++ [x35; x36; x37; x38; x39])) /\
  crc32c_ref 0 ([x31; x32; x33; x34] ++ [x35; x36; x37; x38; x39]) = 0xe3069283.
Proof.
  split; [|vm_compute; reflexivity].
  apply (extend_is_crc 5 0 [x31; x32; x33; x34] [x35; x36; x37; x38; x39]). done.
Defined.

(** ** Masking *)

Lemma rotate_split k c :
  0 <= k <= 32 -> is_uint 32 c ->
  Z.lor (Z.shiftr c k) (u32 (Z.shiftl c (32 - k))) = c / 2 ^ k + (c mod 2 ^ k) * 2 ^ (32 - k).
Proof.
  intros Hk [Hc1 Hc2]. rewrite Z.shiftl_mul_pow2, Z.shiftr_div_pow2 by lia.
  assert (u32 (c * 2 ^ (32 - k)) = (c mod 2 ^ k) * 2 ^ (32 - k)) as ->.
  { unfold wrap. replace (2 ^ 32) with (2 ^ k * 2 ^ (32 - k))
      by (rewrite <- Z.pow_add_r by lia; f_equal; lia).
    apply Z.mul_mod_distr_r; lia. }
  rewrite <- Z.shiftl_mul_pow2 by lia. rewrite lor_shiftl_add; [by rewrite Z.shiftl_mul_pow2 by lia|lia|].
  split; [apply Z.div_pos; lia|]. apply Z.div_lt_upper_bound; [lia|].
  rewrite <- Z.pow_add_r by lia. by replace (k + (32 - k)) with 32 by lia.
Qed.

(** The mask is undone by [Unmask], so that different checksums stay different. *)
Theorem mask_roundtrip (crc : Z) :
  is_uint 32 crc -> is_uint 32 (Mask crc) /\ Unmask (Mask crc) = crc.
Proof.
  intros Hc. split; [by apply wrap_range|]. unfold Unmask, Mask.
  pose proof (rotate_split 15 crc ltac:(lia) Hc) as H1. change (32 - 15) with 17 in H1.
  rewrite H1. set (rot := crc / 2 ^ 15 + crc mod 2 ^ 15 * 2 ^ 17).
  assert (is_uint 32 rot) as Hr by (unfold rot, is_uint in *; dlia).
  assert (u32 (u32 (rot + kMaskDelta) - kMaskDelta) = rot) as ->.
  { unfold wrap. rewrite Zminus_mod_idemp_l. replace (rot + kMaskDelta - kMaskDelta) with rot by lia.
    by apply Z.mod_small. }
  pose proof (rotate_split 17 rot ltac:(lia) Hr) as H2. change (32 - 17) with 15 in H2.
  rewrite H2. unfold rot, is_uint in *. dlia.
Qed.
