(* ===== verification/Blob.v ===== *)
(** * Blob files: references, records and metadata

    [db/blob/blob_index.h], [db/blob/blob_log_format.h] and [.cc], [db/blob/blob_file_garbage.cc]
    and the metadata of [db/blob/blob_file_meta.h]: how a value stored outside of the tree is
    referred to, how the blob file frames it, and what the MANIFEST records about garbage.

    A decoding method overwrites the fields it has read before it fails, so that each one
    returns the object together with its status. [None] is a failed [assert] on an empty
    slice. *)

From stdpp Require Import pretty.
From S2P Require Import Prelude.
From S2P Require Import Status.
From S2P Require Import Slice.
From S2P Require Import Coding.
From S2P Require Import Crc32c.

(** ** Chains of reads

    [GetA(&src, &x) && GetB(&src, &y) && ...]: the reads before the first failure have
    stored their values and consumed their bytes. *)

Definition Chain (S : Set) : Set := S -> Slice -> bool * S * Slice.

Definition get_into {S : Set} (g : Getter Z) (store : Z -> S -> S) : Chain S := fun s src =>
  match g src with
  | (Some x, src) => (true, store x s, src)
  | (None, src) => (false, s, src)
  end.

Definition and_then {S : Set} (c1 c2 : Chain S) : Chain S := fun s src =>
  let '(ok, s, src) := c1 s src in
  if (ok : bool) then c2 s src else (false, s, src).

Notation "c1 &&& c2" := (and_then c1 c2) (at level 40, left associativity) : xdb_scope.
Open Scope xdb_scope.

(** ** References to blobs *)

Definition kInlinedTTL : Z := 0.
Definition kBlob : Z := 1.
Definition kBlobTTL : Z := 2.
Definition kUnknown : Z := 3.

Definition kNoCompression : Z := 0.

Record BlobIndex : Set := mkBlobIndex {
  bi_type : Z;
  bi_expiration : Z;
  bi_value : Slice;
  bi_file_number : Z;
  bi_offset : Z;
  bi_size : Z;
  bi_compression : Z;
}.

Definition new_BlobIndex : BlobIndex := mkBlobIndex kUnknown 0 [] 0 0 0 kNoCompression.

Definition bi_set_type (t : Z) (b : BlobIndex) : BlobIndex :=
  mkBlobIndex t (bi_expiration b) (bi_value b) (bi_file_number b) (bi_offset b) (bi_size b)
    (bi_compression b).
Definition bi_set_expiration (x : Z) (b : BlobIndex) : BlobIndex :=
  mkBlobIndex (bi_type b) x (bi_value b) (bi_file_number b) (bi_offset b) (bi_size b)
    (bi_compression b).
Definition bi_set_value (x : Slice) (b : BlobIndex) : BlobIndex :=
  mkBlobIndex (bi_type b) (bi_expiration b) x (bi_file_number b) (bi_offset b) (bi_size b)
    (bi_compression b).
Definition bi_set_file_number (x : Z) (b : BlobIndex) : BlobIndex :=
  mkBlobIndex (bi_type b) (bi_expiration b) (bi_value b) x (bi_offset b) (bi_size b)
    (bi_compression b).
Definition bi_set_offset (x : Z) (b : BlobIndex) : BlobIndex :=
  mkBlobIndex (bi_type b) (bi_expiration b) (bi_value b) (bi_file_number b) x (bi_size b)
    (bi_compression b).
Definition bi_set_size (x : Z) (b : BlobIndex) : BlobIndex :=
  mkBlobIndex (bi_type b) (bi_expiration b) (bi_value b) (bi_file_number b) (bi_offset b) x
    (bi_compression b).
Definition bi_set_compression (x : Z) (b : BlobIndex) : BlobIndex :=
  mkBlobIndex (bi_type b) (bi_expiration b) (bi_value b) (bi_file_number b) (bi_offset b)
    (bi_size b) x.

Definition IsInlined (b : BlobIndex) : bool := bi_type b =? kInlinedTTL.

Definition HasTTL (b : BlobIndex) : bool :=
  (bi_type b =? kInlinedTTL) || (bi_type b =? kBlobTTL).

Definition EncodeInlinedTTL (expiration : Z) (value : Slice) : bytes :=
  PutVarint64 [byte_of_Z kInlinedTTL] expiration ++ value.

Definition EncodeBlob (file_number offset size compression : Z) : bytes :=
  PutVarint64 (PutVarint64 (PutVarint64 [byte_of_Z kBlob] file_number) offset) size
    ++ [byte_of_Z compression].

Definition EncodeBlobTTL (expiration file_number offset size compression : Z) : bytes :=
  PutVarint64 (PutVarint64 (PutVarint64 (PutVarint64 [byte_of_Z kBlobTTL] expiration)
    file_number) offset) size ++ [byte_of_Z compression].

Definition blob_index_error (m : string) : Status :=
  Corruption "Error while decoding blob index" m.

Section Reading.
Context `{VarintReader}.

Definition decode_location (b : BlobIndex) (slice : Slice) : Status * BlobIndex :=
  let '(ok, b, slice) :=
    (get_into GetVarint64 bi_set_file_number &&& get_into GetVarint64 bi_set_offset
     &&& get_into GetVarint64 bi_set_size) b slice in
  match ok, slice with
  | true, [c] => (Status_OK, bi_set_compression (byte_to_Z c) b)
  | _, _ => (blob_index_error "Corrupted blob offset", b)
  end.

Definition BlobIndex_DecodeFrom (b : BlobIndex) (slice : Slice) : option (Status * BlobIndex) :=
  match slice with
  | [] => None
  | t :: rest =>
      let b := bi_set_type (byte_to_Z t) b in
      if bi_type b >=? kUnknown then
        Some (blob_index_error ("Unknown blob index type: " +:+ pretty (swrap 8 (bi_type b))), b)
      else
        let '(ok, b, slice) :=
          if HasTTL b then get_into GetVarint64 bi_set_expiration b rest else (true, b, rest) in
        if negb ok then Some (blob_index_error "Corrupted expiration", b)
        else if IsInlined b then Some (Status_OK, bi_set_value slice b)
        else Some (decode_location b slice)
  end.

End Reading.

(** ** Frames of a blob file *)

Definition kMagicNumber : Z := 2395959.
Definition kVersion1 : Z := 1.

Record BlobLogHeader : Set := mkBlobLogHeader {
  bh_version : Z;
  bh_column_family_id : Z;
  bh_compression : Z;
  bh_has_ttl : bool;
  bh_expiration_range : Z * Z;
}.

Definition BlobLogHeader_kSize : Z := 30.

Definition BlobLogHeader_EncodeTo (h : BlobLogHeader) : bytes :=
  let dst := PutFixed32 [] kMagicNumber in
  let dst := PutFixed32 dst (bh_version h) in
  let dst := PutFixed32 dst (bh_column_family_id h) in
  let dst := dst ++ [byte_of_Z (if bh_has_ttl h then 1 else 0)] in
  let dst := dst ++ [byte_of_Z (bh_compression h)] in
  let dst := PutFixed64 dst (fst (bh_expiration_range h)) in
  PutFixed64 dst (snd (bh_expiration_range h)).

Definition bh_set_version (x : Z) (h : BlobLogHeader) : BlobLogHeader :=
  mkBlobLogHeader x (bh_column_family_id h) (bh_compression h) (bh_has_ttl h)
    (bh_expiration_range h).
Definition bh_set_column_family_id (x : Z) (h : BlobLogHeader) : BlobLogHeader :=
  mkBlobLogHeader (bh_version h) x (bh_compression h) (bh_has_ttl h) (bh_expiration_range h).
Definition bh_set_flags (flags compression : byte) (h : BlobLogHeader) : BlobLogHeader :=
  mkBlobLogHeader (bh_version h) (bh_column_family_id h) (byte_to_Z compression)
    (Z.land (byte_to_Z flags) 1 =? 1) (bh_expiration_range h).
Definition bh_set_first (x : Z) (h : BlobLogHeader) : BlobLogHeader :=
  mkBlobLogHeader (bh_version h) (bh_column_family_id h) (bh_compression h) (bh_has_ttl h)
    (x, snd (bh_expiration_range h)).
Definition bh_set_second (x : Z) (h : BlobLogHeader) : BlobLogHeader :=
  mkBlobLogHeader (bh_version h) (bh_column_family_id h) (bh_compression h) (bh_has_ttl h)
    (fst (bh_expiration_range h), x).

Definition header_error (m : string) : Status :=
  Corruption "Error while decoding blob log header" m.

(** The magic number is read and not looked at. [None] would be a read behind the slice. *)
Definition BlobLogHeader_DecodeFrom (h : BlobLogHeader) (src : Slice) :
    option (Status * BlobLogHeader) :=
  if negb (size src =? BlobLogHeader_kSize) then
    Some (header_error "Unexpected blob file header size", h)
  else
    let '(ok, h, src) :=
      (get_into GetFixed32 (fun magic_number h => h) &&& get_into GetFixed32 bh_set_version
       &&& get_into GetFixed32 bh_set_column_family_id) h src in
    if negb ok then
      Some (header_error "Error decoding magic number, version and column family id", h)
    else
      match src with
      | flags :: compression :: src =>
          let '(ok, h, src) :=
            (get_into GetFixed64 bh_set_first &&& get_into GetFixed64 bh_set_second)
              (bh_set_flags flags compression h) src in
          if negb ok then Some (header_error "Error decoding expiration range", h)
          else Some (Status_OK, h)
      | _ => None
      end.

Record BlobLogFooter : Set := mkBlobLogFooter {
  bf_blob_count : Z;
  bf_expiration_range : Z * Z;
  bf_crc : Z;
}.

Definition BlobLogFooter_kSize : Z := 32.

(** The encoder also stores the checksum in the object. *)
Definition BlobLogFooter_EncodeTo (f : BlobLogFooter) : bytes * BlobLogFooter :=
  let dst := PutFixed32 [] kMagicNumber in
  let dst := PutFixed64 dst (bf_blob_count f) in
  let dst := PutFixed64 dst (fst (bf_expiration_range f)) in
  let dst := PutFixed64 dst (snd (bf_expiration_range f)) in
  let crc := Mask (crc32c_Value dst) in
  (PutFixed32 dst crc, mkBlobLogFooter (bf_blob_count f) (bf_expiration_range f) crc).

Definition footer_error (m : string) : Status :=
  Corruption "Error while decoding blob log footer" m.

Definition bf_set_blob_count (x : Z) (f : BlobLogFooter) : BlobLogFooter :=
  mkBlobLogFooter x (bf_expiration_range f) (bf_crc f).
Definition bf_set_first (x : Z) (f : BlobLogFooter) : BlobLogFooter :=
  mkBlobLogFooter (bf_blob_count f) (x, snd (bf_expiration_range f)) (bf_crc f).
Definition bf_set_second (x : Z) (f : BlobLogFooter) : BlobLogFooter :=
  mkBlobLogFooter (bf_blob_count f) (fst (bf_expiration_range f), x) (bf_crc f).
Definition bf_set_crc (x : Z) (f : BlobLogFooter) : BlobLogFooter :=
  mkBlobLogFooter (bf_blob_count f) (bf_expiration_range f) x.

(** The local [magic_number] and the object. *)
Definition BlobLogFooter_DecodeFrom (f : BlobLogFooter) (src : Slice) : Status * BlobLogFooter :=
  if negb (size src =? BlobLogFooter_kSize) then
    (footer_error "Unexpected blob file footer size", f)
  else
    let src_crc := Mask (crc32c_Value (ztake (BlobLogFooter_kSize - 4) src)) in
    let on_f (set : Z -> BlobLogFooter -> BlobLogFooter) x '(m, f) := (m, set x f) in
    let '(ok, (magic_number, f), src) :=
      (get_into GetFixed32 (fun x '(_, f) => (x, f))
       &&& get_into GetFixed64 (on_f bf_set_blob_count)
       &&& get_into GetFixed64 (on_f bf_set_first) &&& get_into GetFixed64 (on_f bf_set_second)
       &&& get_into GetFixed32 (on_f bf_set_crc)) (0, f) src in
    if negb ok then (footer_error "Error decoding content", f)
    else if negb (magic_number =? kMagicNumber) then (footer_error "Magic number mismatch", f)
    else if negb (src_crc =? bf_crc f) then (footer_error "CRC mismatch", f)
    else (Status_OK, f).

(** The buffers behind [key] and [value] are left out: they only own the memory. *)
Record BlobLogRecord : Set := mkBlobLogRecord {
  br_key_size : Z;
  br_value_size : Z;
  br_expiration : Z;
  br_header_crc : Z;
  br_blob_crc : Z;
  br_key : Slice;
  br_value : Slice;
}.

Definition kHeaderSize : Z := 32.

Definition CalculateAdjustmentForRecordHeader (key_size : Z) : Z := u64 (key_size + kHeaderSize).

Definition record_size (r : BlobLogRecord) : Z :=
  u64 (u64 (kHeaderSize + br_key_size r) + br_value_size r).

Definition br_set_key_size (x : Z) (r : BlobLogRecord) : BlobLogRecord :=
  mkBlobLogRecord x (br_value_size r) (br_expiration r) (br_header_crc r) (br_blob_crc r)
    (br_key r) (br_value r).
Definition br_set_value_size (x : Z) (r : BlobLogRecord) : BlobLogRecord :=
  mkBlobLogRecord (br_key_size r) x (br_expiration r) (br_header_crc r) (br_blob_crc r)
    (br_key r) (br_value r).
Definition br_set_expiration (x : Z) (r : BlobLogRecord) : BlobLogRecord :=
  mkBlobLogRecord (br_key_size r) (br_value_size r) x (br_header_crc r) (br_blob_crc r)
    (br_key r) (br_value r).
Definition br_set_header_crc (x : Z) (r : BlobLogRecord) : BlobLogRecord :=
  mkBlobLogRecord (br_key_size r) (br_value_size r) (br_expiration r) x (br_blob_crc r)
    (br_key r) (br_value r).
Definition br_set_blob_crc (x : Z) (r : BlobLogRecord) : BlobLogRecord :=
  mkBlobLogRecord (br_key_size r) (br_value_size r) (br_expiration r) (br_header_crc r) x
    (br_key r) (br_value r).

(** [crc32c::Mask(crc32c::Extend(crc32c::Value(key), value))] *)
Definition compute_blob_crc (r : BlobLogRecord) : Z :=
  Mask (Extend (crc32c_Value (br_key r)) (br_value r)).

Definition EncodeHeaderTo (r : BlobLogRecord) : bytes * BlobLogRecord :=
  let dst := PutFixed64 [] (size (br_key r)) in
  let dst := PutFixed64 dst (size (br_value r)) in
  let dst := PutFixed64 dst (br_expiration r) in
  let r := br_set_header_crc (Mask (crc32c_Value dst)) r in
  let dst := PutFixed32 dst (br_header_crc r) in
  let r := br_set_blob_crc (compute_blob_crc r) r in
  (PutFixed32 dst (br_blob_crc r), r).

Definition record_error (m : string) : Status := Corruption "Error while decoding blob record" m.

Definition DecodeHeaderFrom (r : BlobLogRecord) (src : Slice) : Status * BlobLogRecord :=
  if negb (size src =? kHeaderSize) then
    (record_error "Unexpected blob record header size", r)
  else
    let src_crc := Mask (crc32c_Value (ztake (kHeaderSize - 8) src)) in
    let '(ok, r, src) :=
      (get_into GetFixed64 br_set_key_size &&& get_into GetFixed64 br_set_value_size
       &&& get_into GetFixed64 br_set_expiration &&& get_into GetFixed32 br_set_header_crc
       &&& get_into GetFixed32 br_set_blob_crc) r src in
    if negb ok then (record_error "Error decoding content", r)
    else if negb (src_crc =? br_header_crc r) then (record_error "Header CRC mismatch", r)
    else (Status_OK, r).

Definition CheckBlobCRC (r : BlobLogRecord) : Status :=
  if negb (compute_blob_crc r =? br_blob_crc r) then Corruption "Blob CRC mismatch" ""
  else Status_OK.

Definition IsValidBlobOffset (value_offset key_size value_size file_size : Z) : bool :=
  if value_offset <? u64 (BlobLogHeader_kSize + kHeaderSize + key_size) then false
  else if u64 (u64 (value_offset + value_size) + BlobLogFooter_kSize) >? file_size then false
  else true.

(** ** Garbage in blob files *)

Definition kInvalidBlobFileNumber : Z := 0.

Record BlobFileGarbage : Set := mkBlobFileGarbage {
  bg_blob_file_number : Z;
  bg_garbage_blob_count : Z;
  bg_garbage_blob_bytes : Z;
}.

Definition new_BlobFileGarbage : BlobFileGarbage :=
  mkBlobFileGarbage kInvalidBlobFileNumber 0 0.

Definition kEndMarker : Z := 0.
Definition kForwardIncompatibleMask : Z := Z.shiftl 1 6.

Definition BlobFileGarbage_EncodeTo (g : BlobFileGarbage) (output : bytes) : bytes :=
  let output := PutVarint64 output (bg_blob_file_number g) in
  let output := PutVarint64 output (bg_garbage_blob_count g) in
  let output := PutVarint64 output (bg_garbage_blob_bytes g) in
  PutVarint32 output kEndMarker.

Definition garbage_error (m : string) : Status := Corruption "BlobFileGarbage" m.

Definition bg_set_number (x : Z) (g : BlobFileGarbage) : BlobFileGarbage :=
  mkBlobFileGarbage x (bg_garbage_blob_count g) (bg_garbage_blob_bytes g).
Definition bg_set_count (x : Z) (g : BlobFileGarbage) : BlobFileGarbage :=
  mkBlobFileGarbage (bg_blob_file_number g) x (bg_garbage_blob_bytes g).
Definition bg_set_bytes (x : Z) (g : BlobFileGarbage) : BlobFileGarbage :=
  mkBlobFileGarbage (bg_blob_file_number g) (bg_garbage_blob_count g) x.

Section Garbage.
Context `{VarintReader}.

(** The loop over the custom fields, which are skipped; every round consumes a byte. *)
Fixpoint skip_custom_fields (fuel : nat) (input : Slice) : option (Status * Slice) :=
  match fuel with
  | O => None
  | S fuel =>
      match GetVarint32 input with
      | (None, input) => Some (garbage_error "Error decoding custom field tag", input)
      | (Some custom_field_tag, input) =>
          if custom_field_tag =? kEndMarker then Some (Status_OK, input)
          else if negb (Z.land custom_field_tag kForwardIncompatibleMask =? 0) then
            Some (garbage_error "Forward incompatible custom field encountered", input)
          else
            match GetLengthPrefixedSlice input with
            | (None, input) => Some (garbage_error "Error decoding custom field value", input)
            | (Some custom_field_value, input) => skip_custom_fields fuel input
            end
      end
  end.

Definition BlobFileGarbage_DecodeFrom (g : BlobFileGarbage) (input : Slice) :
    option (Status * BlobFileGarbage * Slice) :=
  let '(ok, g, input) := get_into GetVarint64 bg_set_number g input in
  if negb ok then Some (garbage_error "Error decoding blob file number", g, input)
  else
    let '(ok, g, input) := get_into GetVarint64 bg_set_count g input in
    if negb ok then Some (garbage_error "Error decoding garbage blob count", g, input)
    else
      let '(ok, g, input) := get_into GetVarint64 bg_set_bytes g input in
      if negb ok then Some (garbage_error "Error decoding garbage blob bytes", g, input)
      else
        match skip_custom_fields (S (length input)) input with
        | None => None
        | Some (s, input) => Some (s, g, input)
        end.

End Garbage.

Definition BlobFileGarbage_eqb (lhs rhs : BlobFileGarbage) : bool :=
  (bg_blob_file_number lhs =? bg_blob_file_number rhs)
  && (bg_garbage_blob_count lhs =? bg_garbage_blob_count rhs)
  && (bg_garbage_blob_bytes lhs =? bg_garbage_blob_bytes rhs).

(** ** Metadata of blob files *)

Record SharedBlobFileMetaData : Set := mkSharedMeta {
  sm_blob_file_number : Z;
  sm_total_blob_count : Z;
  sm_total_blob_bytes : Z;
  sm_checksum_method : string;
  sm_checksum_value : string;
}.

Definition SharedMeta_GetBlobFileSize (m : SharedBlobFileMetaData) : Z :=
  u64 (u64 (BlobLogHeader_kSize + sm_total_blob_bytes m) + BlobLogFooter_kSize).
