(* ===== verification/BlobProofs.v ===== *)
(** * Blob files: round trips and detection of damage *)

From S2P Require Import Prelude.
From S2P Require Import Status.
From S2P Require Import Slice.
From S2P Require Import Coding.
From S2P Require Import Bits.
From S2P Require Import Crc32c.
From S2P Require Import Crc32cProofs.
From S2P Require Import Blob.

(** ** Reading what was written *)

Lemma GetFixed32_Put v rest :
  is_uint 32 v -> GetFixed32 (EncodeFixed32 v ++ rest) = (Some v, rest).
Proof.
  intros. unfold GetFixed32. rewrite size_app, size_EncodeFixed32.
  rewrite (proj2 (Z.ltb_ge _ _)) by (pose proof (size_nonneg rest); lia).
  by rewrite DecodeFixed32_Encode.
Qed.

Lemma get_into_ok {S : Set} (g : Getter Z) (store : Z -> S -> S) s v src rest :
  g src = (Some v, rest) -> get_into g store s src = (true, store v s, rest).
Proof. intros E. unfold get_into. by rewrite E. Qed.

Lemma and_then_ok {S : Set} (c1 c2 : Chain S) s src s' src' :
  c1 s src = (true, s', src') -> and_then c1 c2 s src = c2 s' src'.
Proof. intros E. unfold and_then. by rewrite E. Qed.

Lemma byte_of_Z_to n : is_uint 8 n -> byte_to_Z (byte_of_Z n) = n.
Proof. intros. rewrite byte_to_of_Z. by apply wrap_small. Qed.

Section BlobReading.
Context `{VarintReaderLaws}.

Lemma get_varint64_ok {S : Set} (store : Z -> S -> S) s v rest :
  is_uint 64 v ->
  get_into GetVarint64 store s (EncodeVarint64 v ++ rest) = (true, store v s, rest).
Proof. intros. by apply get_into_ok, GetVarint64_Encode. Qed.

Lemma decode_location_ok b file_number offset size compression :
  is_uint 64 file_number -> is_uint 64 offset -> is_uint 64 size -> is_uint 8 compression ->
  decode_location b (EncodeVarint64 file_number ++ EncodeVarint64 offset ++
    EncodeVarint64 size ++ [byte_of_Z compression]) =
  (Status_OK, bi_set_compression compression
    (bi_set_size size (bi_set_offset offset (bi_set_file_number file_number b)))).
Proof.
  intros. unfold decode_location. erewrite and_then_ok.
  2: { erewrite and_then_ok by (by apply get_varint64_ok). by apply get_varint64_ok. }
  rewrite get_varint64_ok by done. by rewrite byte_of_Z_to.
Qed.

(** references to blobs survive their encoding. Whatever the object held before,
    [BlobIndex::DecodeFrom] of what [EncodeInlinedTTL], [EncodeBlob] or [EncodeBlobTTL] wrote
    succeeds and sets the type and exactly the fields of that type. *)
Theorem blob_index_roundtrip (b : BlobIndex) (expiration file_number offset size compression : Z)
    (value : Slice) :
  is_uint 64 expiration -> is_uint 64 file_number -> is_uint 64 offset -> is_uint 64 size ->
  is_uint 8 compression ->
  let located b := bi_set_compression compression
    (bi_set_size size (bi_set_offset offset (bi_set_file_number file_number b))) in
  BlobIndex_DecodeFrom b (EncodeInlinedTTL expiration value) =
    Some (Status_OK, bi_set_value value (bi_set_expiration expiration (bi_set_type kInlinedTTL b))) /\
  BlobIndex_DecodeFrom b (EncodeBlob file_number offset size compression) =
    Some (Status_OK, located (bi_set_type kBlob b)) /\
  BlobIndex_DecodeFrom b (EncodeBlobTTL expiration file_number offset size compression) =
    Some (Status_OK, located (bi_set_expiration expiration (bi_set_type kBlobTTL b))).
Proof.
  intros He Hf Ho Hs Hc located.
  unfold EncodeInlinedTTL, EncodeBlob, EncodeBlobTTL, PutVarint64. split_and!.
  - cbn [app BlobIndex_DecodeFrom]. rewrite byte_of_Z_to by done.
    cbn [bi_set_type bi_type HasTTL kInlinedTTL kUnknown Z.geb Z.compare Z.eqb orb].
    rewrite get_varint64_ok by done. done.
  - rewrite <- !app_assoc. cbn [app BlobIndex_DecodeFrom]. rewrite byte_of_Z_to by done.
    cbn [bi_set_type bi_type HasTTL IsInlined kBlob kInlinedTTL kBlobTTL kUnknown Z.geb Z.compare
      Pos.compare Pos.compare_cont Z.eqb Pos.eqb orb negb].
    by rewrite decode_location_ok.
  - rewrite <- !app_assoc. cbn [app BlobIndex_DecodeFrom]. rewrite byte_of_Z_to by done.
    cbn [bi_set_type bi_type HasTTL kBlobTTL kInlinedTTL kUnknown Z.geb Z.compare
      Pos.compare Pos.compare_cont Z.eqb Pos.eqb orb].
    rewrite get_varint64_ok by done.
    change (IsInlined (bi_set_expiration expiration _)) with false. cbn [negb].
    by rewrite decode_location_ok.
Qed.

(** ** Garbage records *)

(** Fields a newer version may have added. *)
Definition custom_fields (fields : list (Z * Slice)) : bytes :=
  List.concat ((fun '(tag, v) => EncodeVarint32 tag ++ EncodeVarint32 (size v) ++ v) <$> fields).

Definition compatible_field (f : Z * Slice) : Prop :=
  is_uint 32 (fst f) /\ fst f <> kEndMarker /\ Z.land (fst f) kForwardIncompatibleMask = 0 /\
  size (snd f) < 2 ^ 32.

Lemma skip_custom_fields_ok fields : forall fuel rest,
  Forall compatible_field fields -> (length fields < fuel)%nat ->
  skip_custom_fields fuel (custom_fields fields ++ EncodeVarint32 kEndMarker ++ rest) =
    Some (Status_OK, rest).
Proof.
  induction fields as [|[tag v] fields IH]; intros fuel rest Hf Hl;
    (destruct fuel as [|fuel]; [cbn in Hl; lia|]); cbn [skip_custom_fields].
  - change (custom_fields [] ++ ?x) with x. rewrite GetVarint32_Encode by done. done.
  - apply Forall_cons in Hf as [(Ht & Hne & Hm & Hv) Hf]. cbn [fst snd] in *.
    change (custom_fields ((tag, v) :: fields)) with
      ((EncodeVarint32 tag ++ EncodeVarint32 (size v) ++ v) ++ custom_fields fields).
    rewrite <- !app_assoc, GetVarint32_Encode by done.
    rewrite (proj2 (Z.eqb_neq _ _)), Hm by done. cbn [Z.eqb negb].
    rewrite GetLengthPrefixedSlice_Put by done. apply IH; [done|]. cbn in Hl. lia.
Qed.

Lemma skip_custom_fields_total fuel : forall input,
  (length input < fuel)%nat -> exists r, skip_custom_fields fuel input = Some r.
Proof.
  induction fuel as [|fuel IH]; intros input Hf; [lia|]. cbn [skip_custom_fields].
  destruct (GetVarint32 input) as [[tag|] input1] eqn:E1; [|eauto].
  destruct (tag =? kEndMarker); [eauto|]. destruct (negb _); [eauto|].
  destruct (GetLengthPrefixedSlice input1) as [[v|] input2] eqn:E2; [|eauto].
  apply GetVarint32_advances in E1 as (_ & b & pre & ->).
  apply GetLengthPrefixedSlice_advances in E2 as (_ & b' & pre' & ->).
  apply IH. cbn [length] in Hf. rewrite !length_app in Hf. cbn [length] in Hf.
  rewrite !length_app in Hf. lia.
Qed.

(** records of garbage are forward compatible. [DecodeFrom] reads back what [EncodeTo]
    wrote, also when a newer version has put fields with compatible tags before the end
    marker, and leaves the bytes that follow; and it returns on every input. *)
Theorem garbage_roundtrip (g g0 : BlobFileGarbage) (fields : list (Z * Slice))
    (rest input : bytes) :
  is_uint 64 (bg_blob_file_number g) -> is_uint 64 (bg_garbage_blob_count g) ->
  is_uint 64 (bg_garbage_blob_bytes g) -> Forall compatible_field fields ->
  let fixed := PutVarint64 (PutVarint64 (PutVarint64 [] (bg_blob_file_number g))
    (bg_garbage_blob_count g)) (bg_garbage_blob_bytes g) in
  BlobFileGarbage_EncodeTo g [] = fixed ++ EncodeVarint32 kEndMarker /\
  BlobFileGarbage_DecodeFrom g0
    (fixed ++ custom_fields fields ++ EncodeVarint32 kEndMarker ++ rest) =
    Some (Status_OK, g, rest) /\
  exists r, BlobFileGarbage_DecodeFrom g0 input = Some r.
Proof.
  intros Hn Hc Hb Hf fixed. split_and!; [done| |].
  - unfold BlobFileGarbage_DecodeFrom, fixed, PutVarint64. rewrite <- !app_assoc. cbn [app].
    rewrite get_varint64_ok by done. cbn [negb]. rewrite get_varint64_ok by done. cbn [negb].
    rewrite get_varint64_ok by done. cbn [negb].
    rewrite skip_custom_fields_ok; [by destruct g|done|].
    rewrite length_app. apply Nat.lt_succ_r. transitivity (length (custom_fields fields)); [|lia].
    clear -Hf. induction fields as [|[tag v] fields IH]; [done|].
    change (custom_fields ((tag, v) :: fields)) with
      ((EncodeVarint32 tag ++ EncodeVarint32 (size v) ++ v) ++ custom_fields fields).
    apply Forall_cons in Hf as [(Ht & _) Hf]. specialize (IH Hf).
    destruct (EncodeVarint32_spec tag Ht) as (Hwf & _).
    destruct (EncodeVarint32 tag) as [|x bs]; [done|]. rewrite !length_app. cbn [length]. lia.
  - unfold BlobFileGarbage_DecodeFrom. destruct (get_into _ _ _ input) as [[[] g1] i1]; [|eauto].
    cbn [negb]. destruct (get_into _ _ _ i1) as [[[] g2] i2]; [|eauto].
    cbn [negb]. destruct (get_into _ _ _ i2) as [[[] g3] i3]; [|eauto].
    cbn [negb]. destruct (skip_custom_fields_total (S (length i3)) i3 ltac:(lia)) as [[s i] ->].
    eauto.
Qed.

End BlobReading.

Lemma blob_index_roundtrip_witness :
  @BlobIndex_DecodeFrom leb128_reader new_BlobIndex (EncodeBlob 7 300 4096 1) =
    Some (Status_OK, mkBlobIndex kBlob 0 [] 7 300 4096 1).
Proof.
  apply (@blob_index_roundtrip leb128_reader _ new_BlobIndex 99 7 300 4096 1 [x61]); done.
Defined.

Lemma garbage_roundtrip_witness :
  @BlobFileGarbage_DecodeFrom leb128_reader new_BlobFileGarbage
    ((EncodeVarint64 7 ++ EncodeVarint64 2 ++ EncodeVarint64 500) ++
     custom_fields [(5, [x61; x62])] ++ EncodeVarint32 kEndMarker ++ [xff]) =
    Some (Status_OK, mkBlobFileGarbage 7 2 500, [xff]).
Proof.
  apply (@garbage_roundtrip leb128_reader _ (mkBlobFileGarbage 7 2 500) new_BlobFileGarbage
    [(5, [x61; x62])] [xff] []); try done. repeat constructor; done.
Defined.

(** ** Frames *)

Lemma get_fixed32_ok {S : Set} (store : Z -> S -> S) s v rest :
  is_uint 32 v ->
  get_into GetFixed32 store s (EncodeFixed32 v ++ rest) = (true, store v s, rest).
Proof. intros. by apply get_into_ok, GetFixed32_Put. Qed.

Lemma get_fixed64_ok {S : Set} (store : Z -> S -> S) s v rest :
  is_uint 64 v ->
  get_into GetFixed64 store s (EncodeFixed64 v ++ rest) = (true, store v s, rest).
Proof. intros. by apply get_into_ok, GetFixed64_Put. Qed.

Lemma GetFixed32_inv src v rest :
  GetFixed32 src = (Some v, rest) -> is_uint 32 v /\ src = EncodeFixed32 v ++ rest.
Proof.
  unfold GetFixed32. destruct (size src <? 4) eqn:E; [done|]. zbool. intros [= <- <-].
  split; [apply DecodeFixed32_range|]. unfold remove_prefix, DecodeFixed32, EncodeFixed32.
  cbn [DecodeFixed32_on EncodeFixed32_on kLittleEndian].
  assert (length (take 4 src) = 4%nat) as Hl by (rewrite length_take; unfold size in E; lia).
  rewrite <- Hl at 1. rewrite le_bytes_val. symmetry. apply take_drop.
Qed.

Lemma GetFixed64_inv src v rest :
  GetFixed64 src = (Some v, rest) -> is_uint 64 v /\ src = EncodeFixed64 v ++ rest.
Proof.
  unfold GetFixed64. destruct (size src <? 8) eqn:E; [done|]. zbool. intros [= <- <-].
  unfold remove_prefix, DecodeFixed64, EncodeFixed64.
  cbn [DecodeFixed64_on EncodeFixed64_on kLittleEndian].
  assert (length (take 8 src) = 8%nat) as Hl by (rewrite length_take; unfold size in E; lia).
  split.
  - pose proof (le_val_range (take 8 src)) as Hr. unfold size in Hr. rewrite Hl in Hr. exact Hr.
  - rewrite <- Hl at 1. rewrite le_bytes_val. symmetry. apply take_drop.
Qed.

Lemma get_into_inv {S : Set} (g : Getter Z) (store : Z -> S -> S) s src s' rest :
  get_into g store s src = (true, s', rest) -> exists v, g src = (Some v, rest) /\ s' = store v s.
Proof. unfold get_into. destruct (g src) as [[v|] r]; intros [= <- <-]; eauto. Qed.

Lemma and_then_inv {S : Set} (c1 c2 : Chain S) s src s' src' :
  and_then c1 c2 s src = (true, s', src') ->
  exists s1 src1, c1 s src = (true, s1, src1) /\ c2 s1 src1 = (true, s', src').
Proof. unfold and_then. destruct (c1 s src) as [[[] s1] src1]; [eauto|done]. Qed.

Lemma Mask_range c : is_uint 32 (Mask c).
Proof. by apply wrap_range. Qed.

Lemma size_app_fixed v w : size (EncodeFixed32 v ++ w) = 4 + size w.
Proof. by rewrite size_app, size_EncodeFixed32. Qed.

(** The bytes a footer's checksum covers. *)
Definition footer_body (f : BlobLogFooter) : bytes :=
  EncodeFixed32 kMagicNumber ++ EncodeFixed64 (bf_blob_count f) ++
  EncodeFixed64 (fst (bf_expiration_range f)) ++ EncodeFixed64 (snd (bf_expiration_range f)).

Lemma size_footer_body f : size (footer_body f) = 28.
Proof. unfold footer_body. by rewrite !size_app, size_EncodeFixed32, !size_EncodeFixed64. Qed.

Lemma footer_bytes f rest :
  footer_body f ++ rest =
  EncodeFixed32 kMagicNumber ++ EncodeFixed64 (bf_blob_count f) ++
  EncodeFixed64 (fst (bf_expiration_range f)) ++ EncodeFixed64 (snd (bf_expiration_range f)) ++ rest.
Proof. unfold footer_body. by rewrite <- !app_assoc. Qed.

Lemma footer_encode f :
  BlobLogFooter_EncodeTo f =
    (footer_body f ++ EncodeFixed32 (Mask (crc32c_Value (footer_body f))),
     mkBlobLogFooter (bf_blob_count f) (bf_expiration_range f)
       (Mask (crc32c_Value (footer_body f)))).
Proof.
  unfold BlobLogFooter_EncodeTo, PutFixed32, PutFixed64. cbn zeta. cbn [app].
  rewrite <- !app_assoc. done.
Qed.

Definition valid_range (r : Z * Z) : Prop := is_uint 64 (fst r) /\ is_uint 64 (snd r).

Lemma footer_decode f0 f :
  is_uint 64 (bf_blob_count f) -> valid_range (bf_expiration_range f) ->
  is_uint 32 (bf_crc f) ->
  BlobLogFooter_DecodeFrom f0 (footer_body f ++ EncodeFixed32 (bf_crc f)) =
    (if Mask (crc32c_Value (footer_body f)) =? bf_crc f then Status_OK
     else footer_error "CRC mismatch", f).
Proof.
  intros Hc [Hr1 Hr2] Hcrc. unfold BlobLogFooter_DecodeFrom.
  rewrite size_app, size_footer_body, size_EncodeFixed32.
  change (28 + 4 =? BlobLogFooter_kSize) with true. cbn [negb].
  change (BlobLogFooter_kSize - 4) with 28.
  replace (ztake 28 (footer_body f ++ EncodeFixed32 (bf_crc f))) with (footer_body f)
    by (symmetry; rewrite <- (size_footer_body f); apply ztake_app).
  rewrite footer_bytes. erewrite and_then_ok.
  2: { erewrite and_then_ok. 2: { erewrite and_then_ok. 2: { erewrite and_then_ok
         by (by apply get_fixed32_ok). by apply get_fixed64_ok. }
       by apply get_fixed64_ok. }
       by apply get_fixed64_ok. }
  rewrite <- (app_nil_r (EncodeFixed32 (bf_crc f))), get_fixed32_ok by done.
  cbn [bf_set_blob_count bf_set_first bf_set_second bf_set_crc bf_blob_count bf_expiration_range
    bf_crc fst snd]. destruct f as [count [lo hi] crc]. cbn [bf_crc].
  destruct (_ =? crc); done.
Qed.

(** Inversion of a successful chain of reads. *)
Ltac read_inv :=
  repeat match goal with
  | H : and_then _ _ _ _ = (true, _, _) |- _ =>
      let s := fresh "s" in let r := fresh "src" in let H1 := fresh "Hr" in
      apply and_then_inv in H as (s & r & H1 & H)
  | H : get_into _ _ _ _ = (true, _, _) |- _ =>
      let v := fresh "v" in let H1 := fresh "Hg" in
      let Hs := fresh "Hs" in
      apply get_into_inv in H as (v & H1 & Hs); cbn in Hs; simplify_eq
  | H : GetFixed32 _ = (Some _, _) |- _ => apply GetFixed32_inv in H as [? ->]
  | H : GetFixed64 _ = (Some _, _) |- _ => apply GetFixed64_inv in H as [? ->]
  end.

(** a blob file is accepted as properly closed exactly when its last 32 bytes are a
    footer the encoder writes: [BlobLogFooter::DecodeFrom] succeeds with [f] if and only if
    the bytes are [EncodeTo] of [f], magic number and masked checksum included. *)
Theorem footer_canonical (f0 f : BlobLogFooter) (src : Slice) :
  BlobLogFooter_DecodeFrom f0 src = (Status_OK, f) <->
  is_uint 64 (bf_blob_count f) /\ valid_range (bf_expiration_range f) /\
  BlobLogFooter_EncodeTo f = (src, f).
Proof.
  rewrite footer_encode. split.
  - unfold BlobLogFooter_DecodeFrom. destruct (negb (size src =? _)) eqn:Es; [done|]. zbool.
    destruct (and_then _ _ (0, f0) src) as [[ok [magic f1]] rest] eqn:E.
    destruct ok; cbn [negb]; [|done]. destruct (negb (magic =? _)) eqn:Em; [done|].
    destruct (negb (_ =? bf_crc f1)) eqn:Ec; [done|]. intros [= <-]. zbool.
    read_inv.
    rewrite !size_app, !size_EncodeFixed32, !size_EncodeFixed64 in Es.
    assert (rest = []) as -> by (apply nil_length_inv; unfold size, BlobLogFooter_kSize in *; lia).
    cbn [bf_set_crc bf_set_second bf_set_first bf_set_blob_count bf_blob_count
      bf_expiration_range bf_crc fst snd] in *.
    set (f := mkBlobLogFooter v2 (v1, v0) v) in *. rewrite app_nil_r in *.
    pose proof (footer_bytes f (EncodeFixed32 v)) as Hb. unfold f in Hb at 2 3 4.
    cbn [bf_blob_count bf_expiration_range fst snd] in Hb. rewrite <- Hb in *.
    change (BlobLogFooter_kSize - 4) with 28 in Ec. rewrite <- (size_footer_body f), ztake_app in Ec.
    change (bf_set_crc v _) with f. by rewrite Ec.
  - intros (Hc & Hr & He). apply pair_equal_spec in He as [<- Hf].
    assert (bf_crc f = Mask (crc32c_Value (footer_body f))) as Hcrc by (by rewrite <- Hf at 1).
    rewrite <- Hcrc, footer_decode by (done || rewrite Hcrc; apply Mask_range).
    by rewrite <- Hcrc, Z.eqb_refl.
Qed.

Lemma footer_canonical_witness :
  BlobLogFooter_DecodeFrom (mkBlobLogFooter 0 (0, 0) 0)
    (fst (BlobLogFooter_EncodeTo (mkBlobLogFooter 3 (10, 20) 0))) =
    (Status_OK, snd (BlobLogFooter_EncodeTo (mkBlobLogFooter 3 (10, 20) 0))).
Proof. apply footer_canonical. split_and!; [done..|]. vm_compute. reflexivity. Defined.

Definition record_body (r : BlobLogRecord) : bytes :=
  EncodeFixed64 (size (br_key r)) ++ EncodeFixed64 (size (br_value r)) ++
  EncodeFixed64 (br_expiration r).

Lemma size_record_body r : size (record_body r) = 24.
Proof. unfold record_body. by rewrite !size_app, !size_EncodeFixed64. Qed.

Lemma record_bytes r rest :
  record_body r ++ rest =
  EncodeFixed64 (size (br_key r)) ++ EncodeFixed64 (size (br_value r)) ++
  EncodeFixed64 (br_expiration r) ++ rest.
Proof. unfold record_body. by rewrite <- !app_assoc. Qed.

Lemma record_encode r :
  let r' := br_set_blob_crc (compute_blob_crc r)
              (br_set_header_crc (Mask (crc32c_Value (record_body r))) r) in
  EncodeHeaderTo r =
    (record_body r ++ EncodeFixed32 (br_header_crc r') ++ EncodeFixed32 (br_blob_crc r'), r').
Proof.
  unfold EncodeHeaderTo, PutFixed32, PutFixed64, record_body. cbn zeta. cbn [app].
  rewrite <- !app_assoc. done.
Qed.

Lemma header_roundtrip h h0 :
  is_uint 32 (bh_version h) -> is_uint 32 (bh_column_family_id h) ->
  is_uint 8 (bh_compression h) -> valid_range (bh_expiration_range h) ->
  size (BlobLogHeader_EncodeTo h) = BlobLogHeader_kSize /\
  BlobLogHeader_DecodeFrom h0 (BlobLogHeader_EncodeTo h) = Some (Status_OK, h).
Proof.
  intros Hv Hcf Hc [Hr1 Hr2].
  unfold BlobLogHeader_EncodeTo, PutFixed32, PutFixed64. rewrite <- !app_assoc. cbn [app].
  assert (size (EncodeFixed32 kMagicNumber ++ EncodeFixed32 (bh_version h) ++
    EncodeFixed32 (bh_column_family_id h) ++ byte_of_Z (if bh_has_ttl h then 1 else 0) ::
    byte_of_Z (bh_compression h) :: EncodeFixed64 (fst (bh_expiration_range h)) ++
    EncodeFixed64 (snd (bh_expiration_range h))) = BlobLogHeader_kSize) as Hs
    by (by rewrite !size_app, !size_cons, !size_app, !size_EncodeFixed32, !size_EncodeFixed64).
  split; [done|]. unfold BlobLogHeader_DecodeFrom. rewrite Hs, Z.eqb_refl. cbn [negb].
  erewrite and_then_ok.
  2: { erewrite and_then_ok by (by apply get_fixed32_ok). by apply get_fixed32_ok. }
  rewrite get_fixed32_ok by done. cbn [negb].
  erewrite and_then_ok by (by apply get_fixed64_ok).
  rewrite <- (app_nil_r (EncodeFixed64 (snd _))), get_fixed64_ok by done. cbn [negb].
  do 2 f_equal. destruct h as [version cf compression ttl [lo hi]].
  unfold bh_set_second, bh_set_first, bh_set_flags, bh_set_column_family_id, bh_set_version.
  cbn in *. f_equal; [by apply byte_of_Z_to|by destruct ttl].
Qed.

Lemma record_roundtrip r r0 :
  size (br_key r) < 2 ^ 64 -> size (br_value r) < 2 ^ 64 -> is_uint 64 (br_expiration r) ->
  let '(bytes, r') := EncodeHeaderTo r in
  size bytes = kHeaderSize /\
  DecodeHeaderFrom r0 bytes =
    (Status_OK, mkBlobLogRecord (size (br_key r)) (size (br_value r)) (br_expiration r)
       (br_header_crc r') (br_blob_crc r') (br_key r0) (br_value r0)) /\
  CheckBlobCRC (mkBlobLogRecord (size (br_key r)) (size (br_value r)) (br_expiration r)
       (br_header_crc r') (br_blob_crc r') (br_key r) (br_value r)) = Status_OK.
Proof.
  intros Hk Hval He. pose proof (size_nonneg (br_key r)). pose proof (size_nonneg (br_value r)).
  rewrite record_encode. set (r' := br_set_blob_crc _ _).
  assert (is_uint 32 (br_header_crc r') /\ is_uint 32 (br_blob_crc r')) as [Hh Hb]
    by (split; apply Mask_range).
  split_and!.
  + by rewrite !size_app, size_record_body, !size_EncodeFixed32.
  + unfold DecodeHeaderFrom. rewrite !size_app, size_record_body, !size_EncodeFixed32.
    change (24 + (4 + 4) =? kHeaderSize) with true. cbn [negb].
    change (kHeaderSize - 8) with 24.
    replace (ztake 24 (record_body r ++ EncodeFixed32 (br_header_crc r') ++
      EncodeFixed32 (br_blob_crc r'))) with (record_body r)
      by (symmetry; rewrite <- (size_record_body r); apply ztake_app).
    rewrite record_bytes. erewrite and_then_ok.
    2: { erewrite and_then_ok. 2: { erewrite and_then_ok. 2: { erewrite and_then_ok
           by (apply get_fixed64_ok; unfold is_uint; lia).
           apply get_fixed64_ok; unfold is_uint; lia. }
         by apply get_fixed64_ok. } by apply get_fixed32_ok. }
    rewrite <- (app_nil_r (EncodeFixed32 (br_blob_crc r'))), get_fixed32_ok by done.
    cbn [negb br_set_blob_crc br_set_header_crc br_set_expiration br_set_value_size
      br_set_key_size br_header_crc r']. by rewrite Z.eqb_refl.
  + unfold CheckBlobCRC. cbn [br_blob_crc r' br_set_blob_crc]. unfold compute_blob_crc.
    cbn [br_key br_value]. by rewrite Z.eqb_refl.
Qed.

(** the frames of a blob file survive. A header of 30 bytes is read back; the header
    [EncodeHeaderTo] writes for a record has 32 bytes, is accepted, gives the lengths, the
    expiration and both checksums; and with the key and the value of the record the blob
    checksum is accepted. *)
Theorem blob_frames_roundtrip (h h0 : BlobLogHeader) (r r0 : BlobLogRecord) :
  is_uint 32 (bh_version h) -> is_uint 32 (bh_column_family_id h) ->
  is_uint 8 (bh_compression h) -> valid_range (bh_expiration_range h) ->
  size (br_key r) < 2 ^ 64 -> size (br_value r) < 2 ^ 64 -> is_uint 64 (br_expiration r) ->
  (size (BlobLogHeader_EncodeTo h) = BlobLogHeader_kSize /\
   BlobLogHeader_DecodeFrom h0 (BlobLogHeader_EncodeTo h) = Some (Status_OK, h)) /\
  let '(bytes, r') := EncodeHeaderTo r in
  size bytes = kHeaderSize /\
  DecodeHeaderFrom r0 bytes =
    (Status_OK, mkBlobLogRecord (size (br_key r)) (size (br_value r)) (br_expiration r)
       (br_header_crc r') (br_blob_crc r') (br_key r0) (br_value r0)) /\
  CheckBlobCRC (mkBlobLogRecord (size (br_key r)) (size (br_value r)) (br_expiration r)
       (br_header_crc r') (br_blob_crc r') (br_key r) (br_value r)) = Status_OK.
Proof.
  intros. split; [by apply header_roundtrip|by apply record_roundtrip].
Qed.

Definition demo_header : BlobLogHeader := mkBlobLogHeader 1 5 2 true (100, 200).
Definition demo_record : BlobLogRecord := mkBlobLogRecord 0 0 77 0 0 [x6b; x65; x79] [x76].

Lemma blob_frames_roundtrip_witness :
  BlobLogHeader_DecodeFrom (mkBlobLogHeader 0 0 0 false (0, 0))
    (BlobLogHeader_EncodeTo demo_header) = Some (Status_OK, demo_header).
Proof.
  apply (blob_frames_roundtrip demo_header (mkBlobLogHeader 0 0 0 false (0, 0)) demo_record
    demo_record); done.
Defined.

(** A header with any magic number is accepted. *)
Theorem header_ignores_magic :
  BlobLogHeader_DecodeFrom (mkBlobLogHeader 0 0 0 false (0, 0))
    (EncodeFixed32 0 ++ drop 4 (BlobLogHeader_EncodeTo demo_header)) =
    Some (Status_OK, demo_header).
Proof. vm_compute. reflexivity. Qed.

(** Offsets near the end of the address range pass the check of [IsValidBlobOffset]. *)
Theorem blob_offset_wraps :
  IsValidBlobOffset (2 ^ 64 - 100) 10 200 1000 = true.
Proof. vm_compute. reflexivity. Qed.
