(* ===== verification/SkipList.v ===== *)
(** * The skip list

    [memtable/skiplist.h]. Nodes live in a memory of their own and are never freed while the
    list exists; a node of height [h] has [h] successor pointers. [None] as the result of an
    operation is a null dereference, an access outside of an array or a failed [assert]; a
    pointer is an optional location, [None] being [nullptr].

    The comparator is a parameter, with the laws of a total preorder; so is the random number
    generator of the thread, of which nothing is assumed ([util/random.h] declares the modulus
    as an enumerator that does not fit its type). The allocator returns memory that is not in
    use. *)

From S2P Require Import Prelude.

(** ** Data *)

Abbreviation loc := positive.
Abbreviation ptr := (option positive).

Record Node {K : Type} : Type := mkNode { node_key : K; node_next : list ptr }.
Arguments Node : clear implicits.
Arguments mkNode {K}.

Record SkipList {K : Type} : Type := mkSkipList {
  kMaxHeight_ : nat;
  kBranching_ : Z;
  kScaledInverseBranching_ : Z;
  nodes : gmap loc (Node K);
  max_height_ : nat;
  prev_ : list loc;
  prev_height_ : nat;
}.
Arguments SkipList : clear implicits.
Arguments mkSkipList {K}.

Definition head_ : loc := 1%positive.

Section Ops.
Context {K : Type} (compare_ : K -> K -> Z).

Definition set_nodes (m : gmap loc (Node K)) (s : SkipList K) : SkipList K :=
  mkSkipList (kMaxHeight_ s) (kBranching_ s) (kScaledInverseBranching_ s) m (max_height_ s)
    (prev_ s) (prev_height_ s).
Definition set_max_height (h : nat) (s : SkipList K) : SkipList K :=
  mkSkipList (kMaxHeight_ s) (kBranching_ s) (kScaledInverseBranching_ s) (nodes s) h
    (prev_ s) (prev_height_ s).
Definition set_prev (p : list loc) (s : SkipList K) : SkipList K :=
  mkSkipList (kMaxHeight_ s) (kBranching_ s) (kScaledInverseBranching_ s) (nodes s)
    (max_height_ s) p (prev_height_ s).
Definition set_prev_height (h : nat) (s : SkipList K) : SkipList K :=
  mkSkipList (kMaxHeight_ s) (kBranching_ s) (kScaledInverseBranching_ s) (nodes s)
    (max_height_ s) (prev_ s) h.

Definition check (b : bool) : option unit := if b then Some () else None.

(** [n->key] *)
Definition key_of (s : SkipList K) (n : loc) : option K := node_key <$> nodes s !! n.

(** [n->Next(level)] *)
Definition Next (s : SkipList K) (n : loc) (level : nat) : option ptr :=
  x ← nodes s !! n; node_next x !! level.

(** [n->SetNext(level, p)] *)
Definition SetNext (s : SkipList K) (n : loc) (level : nat) (p : ptr) : option (SkipList K) :=
  x ← nodes s !! n;
  _ ← check (bool_decide (level < length (node_next x))%nat);
  Some (set_nodes (<[n := mkNode (node_key x) (<[level := p]> (node_next x))]> (nodes s)) s).

(** [NewNode]: a location that is not in use. *)
Definition NewNode (s : SkipList K) (key : K) (height : nat) : loc * SkipList K :=
  let n := fresh (dom (nodes s)) in
  (n, set_nodes (<[n := mkNode key (replicate height None)]> (nodes s)) s).

Definition Equal (a b : K) : bool := compare_ a b =? 0.
Definition LessThan (a b : K) : bool := compare_ a b <? 0.

Definition KeyIsAfterNode (s : SkipList K) (key : K) (n : ptr) : option bool :=
  match n with
  | None => Some false
  | Some n => k ← key_of s n; Some (compare_ k key <? 0)
  end.

(** The first assertion of the searches: the list is sorted behind [x]. *)
Definition assert_sorted (s : SkipList K) (x : loc) (next : ptr) : option unit :=
  if bool_decide (x = head_) then Some ()
  else
    match next with
    | None => Some ()
    | Some n => k ← key_of s n; b ← KeyIsAfterNode s k (Some x); check b
    end.

(** The second one: the search has not overshot. *)
Definition assert_before (s : SkipList K) (key : K) (x : loc) : option unit :=
  if bool_decide (x = head_) then Some ()
  else b ← KeyIsAfterNode s key (Some x); check b.

(** ** Searching *)

Fixpoint FindGreaterOrEqual_loop (fuel : nat) (s : SkipList K) (key : K) (x : loc) (level : nat)
    (last_bigger : ptr) : option ptr :=
  match fuel with
  | O => None
  | S fuel =>
      next ← Next s x level;
      _ ← assert_sorted s x next;
      _ ← assert_before s key x;
      cmp ← match next with
            | None => Some 1
            | Some n =>
                if bool_decide (next = last_bigger) then Some 1
                else k ← key_of s n; Some (compare_ k key)
            end;
      if (cmp =? 0) || ((cmp >? 0) && bool_decide (level = 0%nat)) then Some next
      else if cmp <? 0 then
        match next with
        | Some n => FindGreaterOrEqual_loop fuel s key n level last_bigger
        | None => None
        end
      else FindGreaterOrEqual_loop fuel s key x (level - 1) next
  end.

(** A round goes to a later node or to a lower level. *)
Definition search_fuel (s : SkipList K) : nat := S (base.size (nodes s) + max_height_ s).

Definition FindGreaterOrEqual (s : SkipList K) (key : K) : option ptr :=
  FindGreaterOrEqual_loop (search_fuel s) s key head_ (max_height_ s - 1) None.

(** [prev[level] = x] *)
Definition store_prev (level : nat) (x : loc) (prev : list loc) : option (list loc) :=
  _ ← check (bool_decide (level < length prev)%nat);
  Some (<[level := x]> prev).

(** [if (prev != nullptr) prev[level] = x;], [None] being [nullptr] *)
Definition store_prev_if (level : nat) (x : loc) (prev : option (list loc)) :
    option (option (list loc)) :=
  match prev with
  | None => Some None
  | Some p => p ← store_prev level x p; Some (Some p)
  end.

Fixpoint FindLessThan_loop (fuel : nat) (s : SkipList K) (key : K) (prev : option (list loc))
    (x : loc) (level : nat) (last_not_after : ptr) : option (loc * option (list loc)) :=
  match fuel with
  | O => None
  | S fuel =>
      next ← Next s x level;
      _ ← assert_sorted s x next;
      _ ← assert_before s key x;
      after ← (if bool_decide (next = last_not_after) then Some false
               else KeyIsAfterNode s key next);
      if (after : bool) then
        match next with
        | Some n => FindLessThan_loop fuel s key prev n level last_not_after
        | None => None
        end
      else
        prev ← store_prev_if level x prev;
        if bool_decide (level = 0%nat) then Some (x, prev)
        else FindLessThan_loop fuel s key prev x (level - 1) next
  end.

Definition FindLessThan (s : SkipList K) (key : K) (prev : option (list loc)) :
    option (loc * option (list loc)) :=
  FindLessThan_loop (search_fuel s) s key prev head_ (max_height_ s - 1) None.

Fixpoint FindLast_loop (fuel : nat) (s : SkipList K) (x : loc) (level : nat) : option loc :=
  match fuel with
  | O => None
  | S fuel =>
      next ← Next s x level;
      match next with
      | None =>
          if bool_decide (level = 0%nat) then Some x else FindLast_loop fuel s x (level - 1)
      | Some n => FindLast_loop fuel s n level
      end
  end.

Definition FindLast (s : SkipList K) : option loc :=
  FindLast_loop (search_fuel s) s head_ (max_height_ s - 1).

Definition Contains (s : SkipList K) (key : K) : option bool :=
  x ← FindGreaterOrEqual s key;
  match x with
  | None => Some false
  | Some n => k ← key_of s n; Some (Equal key k)
  end.

(** ** The iterator: [node_] *)

Definition Valid (node_ : ptr) : bool := bool_decide (node_ <> None).

Definition Iterator_key (s : SkipList K) (node_ : ptr) : option K := n ← node_; key_of s n.

Definition Iterator_Next (s : SkipList K) (node_ : ptr) : option ptr :=
  n ← node_; Next s n 0.

(** [if (node_ == list_->head_) node_ = nullptr] *)
Definition unless_head (n : loc) : ptr := if bool_decide (n = head_) then None else Some n.

Definition Iterator_Prev (s : SkipList K) (node_ : ptr) : option ptr :=
  n ← node_;
  k ← key_of s n;
  '(x, _) ← FindLessThan s k None;
  Some (unless_head x).

Definition Seek (s : SkipList K) (target : K) : option ptr := FindGreaterOrEqual s target.

Definition SeekToFirst (s : SkipList K) : option ptr := Next s head_ 0.

Definition SeekToLast (s : SkipList K) : option ptr := n ← FindLast s; Some (unless_head n).

(** [while (Valid() && list_->LessThan(target, key())) Prev();] *)
Fixpoint back_up (fuel : nat) (s : SkipList K) (target : K) (node_ : ptr) : option ptr :=
  match fuel with
  | O => None
  | S fuel =>
      match node_ with
      | None => Some None
      | Some n =>
          k ← key_of s n;
          if LessThan target k then p ← Iterator_Prev s node_; back_up fuel s target p
          else Some node_
      end
  end.

Definition SeekForPrev (s : SkipList K) (target : K) : option ptr :=
  node_ ← Seek s target;
  node_ ← (if negb (Valid node_) then SeekToLast s else Some node_);
  back_up (S (base.size (nodes s))) s target node_.

(** ** Inserting *)

Section Random.
Context {Rng : Type} (rnd_Next : Rng -> Z * Rng).

(** [n] is [kMaxHeight_ - height]. *)
Fixpoint RandomHeight_loop (n : nat) (scaled : Z) (height : nat) (rnd : Rng) : nat * Rng :=
  match n with
  | O => (height, rnd)
  | S n =>
      let '(v, rnd) := rnd_Next rnd in
      if v <? scaled then RandomHeight_loop n scaled (S height) rnd else (height, rnd)
  end.

Definition RandomHeight (s : SkipList K) (rnd : Rng) : option (nat * Rng) :=
  let '(height, rnd) :=
    RandomHeight_loop (kMaxHeight_ s - 1) (kScaledInverseBranching_ s) 1 rnd in
  _ ← check (bool_decide (0 < height)%nat && bool_decide (height <= kMaxHeight_ s)%nat);
  Some (height, rnd).

(** [for (int i = 1; i < prev_height_; i++) prev_[i] = prev_[0];] *)
Fixpoint spread_prev (n i : nat) (x : loc) (prev : list loc) : option (list loc) :=
  match n with
  | O => Some prev
  | S n => prev ← store_prev i x prev; spread_prev n (S i) x prev
  end.

(** The loop that links [x] into the levels from [i] on. *)
Fixpoint link_levels (n i : nat) (x : loc) (s : SkipList K) : option (SkipList K) :=
  match n with
  | O => Some s
  | S n =>
      p ← prev_ s !! i;
      next ← Next s p i;
      s ← SetNext s x i next;
      s ← SetNext s p i (Some x);
      link_levels n (S i) x s
  end.

(** The fast path for sequential insertion, or a search. *)
Definition locate (s : SkipList K) (key : K) : option (SkipList K) :=
  p0 ← prev_ s !! 0%nat;
  n0 ← Next s p0 0;
  behind ← KeyIsAfterNode s key n0;
  before ← (if bool_decide (p0 = head_) then Some true else KeyIsAfterNode s key (Some p0));
  if negb behind && before then
    _ ← check (negb (bool_decide (p0 = head_))
               || (bool_decide (prev_height_ s = 1%nat) && bool_decide (max_height_ s = 1%nat)));
    prev ← spread_prev (prev_height_ s - 1) 1 p0 (prev_ s);
    Some (set_prev prev s)
  else
    '(_, prev) ← FindLessThan s key (Some (prev_ s));
    prev ← prev;
    Some (set_prev prev s).

(** No duplicates: [prev_[0]->Next(0) == nullptr || !Equal(key, prev_[0]->Next(0)->key)]. *)
Definition assert_no_duplicate (s : SkipList K) (key : K) : option unit :=
  p0 ← prev_ s !! 0%nat;
  n ← Next s p0 0;
  match n with
  | None => Some ()
  | Some n => k ← key_of s n; check (negb (Equal key k))
  end.

(** Raising the list to a new height: the head precedes every key on the new levels. *)
Definition raise (s : SkipList K) (height : nat) : option (SkipList K) :=
  if bool_decide (max_height_ s < height)%nat then
    prev ← spread_prev (height - max_height_ s) (max_height_ s) head_ (prev_ s);
    Some (set_max_height height (set_prev prev s))
  else Some s.

Definition Insert (s : SkipList K) (key : K) (rnd : Rng) : option (SkipList K * Rng) :=
  s ← locate s key;
  _ ← assert_no_duplicate s key;
  '(height, rnd) ← RandomHeight s rnd;
  s ← raise s height;
  let '(x, s) := NewNode s key height in
  s ← link_levels height 0 x s;
  prev ← store_prev 0 x (prev_ s);
  Some (set_prev_height height (set_prev prev s), rnd).

End Random.

Definition kMaxNext : Z := 2 ^ 31 - 1.

(** The constructor; [zero] is the key of the head, any key will do. *)
Definition SkipList_new (zero : K) (max_height branching_factor : Z) : option (SkipList K) :=
  let kMaxHeight := u16 max_height in
  let kBranching := u16 branching_factor in
  _ ← check ((max_height >? 0) && (kMaxHeight =? max_height));
  _ ← check ((branching_factor >? 0) && (kBranching =? branching_factor));
  let scaled := (kMaxNext + 1) / kBranching in
  _ ← check (scaled >? 0);
  let h := Z.to_nat kMaxHeight in
  Some (mkSkipList h kBranching scaled {[ head_ := mkNode zero (replicate h None) ]} 1
          (replicate h head_) 1).

End Ops.
