(* ===== verification/SkipListSearch.v ===== *)
(** * The skip list: representation and searches

    The list is a sequence of nodes sorted by key; level [i] links the nodes whose height
    exceeds [i]. The height up to which a node is linked is a parameter of the
    representation: while a node is being inserted it is linked on some of its levels only,
    and the searches are correct in these states as well. *)

From stdpp Require Import sorting.
From S2P Require Import Prelude.
From S2P Require Import SkipList.

(** A three-way comparison that is a total preorder. *)
Class CompareLaws {K : Type} (compare_ : K -> K -> Z) : Prop := {
  compare_flip a b : Z.sgn (compare_ b a) = - Z.sgn (compare_ a b);
  compare_trans a b c : compare_ a b <= 0 -> compare_ b c <= 0 -> compare_ a c <= 0;
}.

Section Compare.
Context {K : Type} (cmp : K -> K -> Z) `{!CompareLaws cmp}.

Lemma compare_refl a : cmp a a = 0.
Proof. pose proof (compare_flip a a). lia. Qed.

Lemma compare_gt a b : 0 < cmp a b <-> cmp b a < 0.
Proof. pose proof (compare_flip a b). lia. Qed.

Lemma compare_lt_trans a b c : cmp a b < 0 -> cmp b c < 0 -> cmp a c < 0.
Proof.
  intros Hab Hbc. assert (cmp a c <= 0) by (apply (compare_trans a b c); lia).
  destruct (Z.eq_dec (cmp a c) 0) as [E|]; [exfalso|lia].
  pose proof (compare_flip a c). assert (cmp c b <= 0) by (apply (compare_trans c a b); lia).
  pose proof (compare_flip c b). lia.
Qed.

Lemma compare_le_lt a b c : cmp a b <= 0 -> cmp b c < 0 -> cmp a c < 0.
Proof.
  intros Hab Hbc. assert (cmp a c <= 0) by (apply (compare_trans a b c); lia).
  destruct (Z.eq_dec (cmp a c) 0) as [E|]; [exfalso|lia].
  pose proof (compare_flip a c). assert (cmp c b <= 0) by (apply (compare_trans c a b); lia).
  pose proof (compare_flip c b). lia.
Qed.

Lemma compare_lt_le a b c : cmp a b < 0 -> cmp b c <= 0 -> cmp a c < 0.
Proof.
  intros Hab Hbc. assert (cmp a c <= 0) by (apply (compare_trans a b c); lia).
  destruct (Z.eq_dec (cmp a c) 0) as [E|]; [exfalso|lia].
  pose proof (compare_flip a c). assert (cmp b a <= 0) by (apply (compare_trans b c a); lia).
  pose proof (compare_flip a b). lia.
Qed.

End Compare.

(** ** Levels *)

(** The nodes of [xs] that are linked on level [i]. *)
Definition lvl (lh : loc -> nat) (i : nat) (xs : list loc) : list loc :=
  filter (fun l => (i < lh l)%nat) xs.

(** The last node of [a], the head of the list if there is none. *)
Definition tail_of (a : list loc) : loc := default head_ (last a).

Lemma lvl_app lh i a b : lvl lh i (a ++ b) = lvl lh i a ++ lvl lh i b.
Proof. apply filter_app. Qed.

Lemma elem_of_lvl lh i x xs : x ∈ lvl lh i xs <-> (i < lh x)%nat /\ x ∈ xs.
Proof. unfold lvl. by rewrite list_elem_of_filter. Qed.

Lemma tail_of_snoc a x : tail_of (a ++ [x]) = x.
Proof. unfold tail_of. by rewrite last_snoc. Qed.

Lemma tail_of_cases a : (a = [] /\ tail_of a = head_) \/ exists b, a = b ++ [tail_of a].
Proof.
  destruct a as [|x a _] using rev_ind; [by left|right]. rewrite tail_of_snoc. eauto.
Qed.

Lemma tail_of_lvl lh i a :
  a = [] \/ (i < lh (tail_of a))%nat -> tail_of (lvl lh i a) = tail_of a.
Proof.
  intros Hc. destruct (tail_of_cases a) as [[-> _]|[b Hb]]; [done|].
  rewrite Hb, lvl_app. destruct Hc as [Hc|Hc]; [by rewrite Hc in Hb; destruct b|].
  rewrite Hb, tail_of_snoc in Hc.
  assert (lvl lh i [tail_of a] = [tail_of a]) as -> by (unfold lvl; rewrite filter_cons_True; done).
  by rewrite !tail_of_snoc.
Qed.

(** Taking the tail of a part that contains a node of the level. *)
Lemma lvl_first lh i b x :
  head (lvl lh i b) = Some x ->
  exists b1 b2, b = b1 ++ x :: b2 /\ lvl lh i b1 = [] /\ (i < lh x)%nat.
Proof.
  induction b as [|y b IH]; [done|]. unfold lvl. rewrite filter_cons. case_decide as Hy.
  - intros [= ->]. by exists [], b.
  - intros H. destruct (IH H) as (b1 & b2 & -> & Hb1 & Hx).
    exists (y :: b1), b2. split_and!; [done| |done]. unfold lvl. by rewrite filter_cons_False.
Qed.

Section Rep.
Context {K : Type} (cmp : K -> K -> Z) `{!CompareLaws cmp}.

(** [a] is followed by [ls] on level [i], and nothing after that. *)
Fixpoint linked (s : SkipList K) (i : nat) (a : loc) (ls : list loc) : Prop :=
  match ls with
  | [] => Next s a i = Some None
  | x :: ls => Next s a i = Some (Some x) /\ linked s i x ls
  end.

Lemma linked_next s i ls2 : forall ls1 a,
  linked s i a (ls1 ++ ls2) -> Next s (default a (last ls1)) i = Some (head ls2).
Proof.
  induction ls1 as [|x ls1 IH]; intros a; cbn [app linked].
  - destruct ls2; cbn [linked head]; [done|by intros [? _]].
  - intros [_ H]. specialize (IH x H). destruct ls1 as [|y ls1]; [done|].
    rewrite <- IH. f_equal. rewrite !last_cons. by destruct (last ls1).
Qed.

Definition key_lt (s : SkipList K) (a b : loc) : Prop :=
  exists ka kb, key_of s a = Some ka /\ key_of s b = Some kb /\ cmp ka kb < 0.

(** The key of the node is smaller than [key], or not. *)
Definition before (s : SkipList K) (key : K) (l : loc) : Prop :=
  exists k, key_of s l = Some k /\ cmp k key < 0.
Definition not_before (s : SkipList K) (key : K) (l : loc) : Prop :=
  exists k, key_of s l = Some k /\ 0 <= cmp k key.

Record LRep (s : SkipList K) (lh : loc -> nat) (xs : list loc) : Prop := {
  r_height : (1 <= max_height_ s <= kMaxHeight_ s)%nat;
  r_head : exists n, nodes s !! head_ = Some n /\ length (node_next n) = kMaxHeight_ s;
  r_node l : l ∈ xs -> l <> head_ /\ (1 <= lh l <= max_height_ s)%nat /\
    exists n, nodes s !! l = Some n /\ (lh l <= length (node_next n))%nat;
  r_sorted : StronglySorted (key_lt s) xs;
  r_link i : (i < kMaxHeight_ s)%nat -> linked s i head_ (lvl lh i xs);
}.

Lemma key_lt_irrefl s a : ~ key_lt s a a.
Proof.
  intros (k & k' & H1 & H2 & H3). rewrite H1 in H2. injection H2 as <-.
  rewrite compare_refl in H3 by done. lia.
Qed.

Lemma sorted_nodup s xs : StronglySorted (key_lt s) xs -> NoDup xs.
Proof.
  induction 1 as [|x xs _ IH Hx]; constructor; [|done].
  intros Hin. rewrite Forall_forall in Hx. by destruct (key_lt_irrefl s x (Hx x Hin)).
Qed.

Lemma rep_length s lh xs : LRep s lh xs -> (length xs < base.size (nodes s))%nat.
Proof.
  intros R. pose proof (sorted_nodup s xs (r_sorted _ _ _ R)) as Hnd.
  destruct (r_head _ _ _ R) as (n & Hn & _).
  assert (NoDup (head_ :: xs)) as Hnd'.
  { constructor; [|done]. intros Hin. by destruct (r_node _ _ _ R head_ Hin) as [? _]. }
  apply (Nat.lt_le_trans _ (length (head_ :: xs))); [cbn; lia|].
  rewrite <- (size_list_to_set (C := gset loc) (head_ :: xs)) by done.
  rewrite <- size_dom. apply subseteq_size. intros l. rewrite elem_of_list_to_set, elem_of_dom.
  intros [->|Hl]%elem_of_cons; [eauto|].
  destruct (r_node _ _ _ R l Hl) as (_ & _ & x & Hx & _). eauto.
Qed.

(** The successor of a node on a level where it is linked. *)
Lemma rep_next s lh a c i :
  LRep s lh (a ++ c) -> (i < kMaxHeight_ s)%nat -> a = [] \/ (i < lh (tail_of a))%nat ->
  Next s (tail_of a) i = Some (head (lvl lh i c)).
Proof.
  intros R Hi Ha. pose proof (r_link _ _ _ R i Hi) as Hl. rewrite lvl_app in Hl.
  apply linked_next in Hl. fold (tail_of (lvl lh i a)) in Hl. by rewrite tail_of_lvl in Hl.
Qed.

(** Every node is on level 0. *)
Lemma lvl_0 s lh xs ys : LRep s lh xs -> ys ⊆ xs -> lvl lh 0 ys = ys.
Proof.
  intros R Hsub. assert (forall l, l ∈ ys -> (0 < lh l)%nat) as Hl.
  { intros l Hl. destruct (r_node _ _ _ R l (Hsub l Hl)) as (_ & ? & _). lia. }
  clear Hsub. unfold lvl. induction ys as [|x ys IH]; [done|].
  rewrite filter_cons_True by (apply Hl; set_solver). f_equal. apply IH. set_solver.
Qed.

Lemma rep_key s lh xs l : LRep s lh xs -> l ∈ xs -> exists k, key_of s l = Some k.
Proof.
  intros R Hl. destruct (r_node _ _ _ R l Hl) as (_ & _ & n & Hn & _).
  unfold key_of. rewrite Hn. cbn. eauto.
Qed.

Lemma sorted_pair s xs a x b y c :
  StronglySorted (key_lt s) xs -> xs = a ++ x :: b ++ y :: c -> key_lt s x y.
Proof.
  intros Hs ->. apply StronglySorted_app in Hs as (_ & _ & Hs).
  apply StronglySorted_inv in Hs as [_ Hf]. rewrite Forall_forall in Hf. apply Hf. set_solver.
Qed.

Lemma key_lt_after s x y : key_lt s x y ->
  exists k, key_of s y = Some k /\ KeyIsAfterNode cmp s k (Some x) = Some true.
Proof.
  intros (kx & ky & Hx & Hy & Hlt). exists ky. split; [done|]. unfold KeyIsAfterNode.
  rewrite Hx. cbn. by rewrite (proj2 (Z.ltb_lt _ _)).
Qed.

Lemma before_after s key x : before s key x -> KeyIsAfterNode cmp s key (Some x) = Some true.
Proof.
  intros (k & Hk & Hlt). unfold KeyIsAfterNode. rewrite Hk. cbn. by rewrite (proj2 (Z.ltb_lt _ _)).
Qed.

Lemma not_before_after s key x :
  not_before s key x -> KeyIsAfterNode cmp s key (Some x) = Some false.
Proof.
  intros (k & Hk & Hle). unfold KeyIsAfterNode. rewrite Hk. cbn. by rewrite (proj2 (Z.ltb_ge _ _)).
Qed.

(** The assertions of the searches hold at a node that precedes the key. *)
Lemma asserts_hold s lh xs a c i key :
  LRep s lh xs -> xs = a ++ c -> Forall (before s key) a ->
  assert_sorted cmp s (tail_of a) (head (lvl lh i c)) = Some () /\
  assert_before cmp s key (tail_of a) = Some ().
Proof.
  intros R -> Hb. unfold assert_sorted, assert_before.
  destruct (tail_of_cases a) as [[-> ->]|[b Hab]].
  { by rewrite !bool_decide_eq_true_2. }
  assert (tail_of a ∈ a) as Hin by (rewrite Hab at 2; set_solver).
  destruct (r_node _ _ _ R (tail_of a) ltac:(set_solver)) as (Hne & _).
  rewrite !bool_decide_eq_false_2 by done. split.
  - destruct (head (lvl lh i c)) as [n|] eqn:E; [|done].
    destruct (lvl_first lh i c n E) as (c1 & c2 & -> & _ & _).
    destruct (key_lt_after s (tail_of a) n) as (k & -> & Hk).
    { apply (sorted_pair s _ b (tail_of a) c1 n c2 (r_sorted _ _ _ R)).
      rewrite Hab at 1. by rewrite <- app_assoc. }
    cbn [mbind option_bind]. rewrite Hk. done.
  - rewrite Forall_forall in Hb. rewrite before_after by (by apply Hb). done.
Qed.

(** Every key cuts the list in two. *)
Lemma cut s xs key :
  StronglySorted (key_lt s) xs -> (forall l, l ∈ xs -> exists k, key_of s l = Some k) ->
  exists pre post, xs = pre ++ post /\ Forall (before s key) pre /\ Forall (not_before s key) post.
Proof.
  intros Hs Hk. induction Hs as [|x xs Hs IH Hx]; [by exists [], []|].
  destruct (Hk x ltac:(set_solver)) as (k & Hkx).
  destruct (Z.lt_ge_cases (cmp k key) 0) as [Hlt|Hge].
  - destruct IH as (pre & post & -> & H1 & H2); [set_solver|].
    exists (x :: pre), post. split_and!; [done| |done]. constructor; [|done]. by exists k.
  - exists [], (x :: xs). split_and!; [done..|]. constructor; [by exists k|].
    rewrite Forall_forall in *. intros y Hy. destruct (Hx y Hy) as (kx & ky & E1 & E2 & Hlt).
    exists ky. split; [done|]. rewrite Hkx in E1. injection E1 as <-.
    destruct (Z.lt_ge_cases (cmp ky key) 0); [|done]. exfalso.
    pose proof (compare_lt_trans cmp _ _ _ Hlt H). lia.
Qed.

Lemma rep_cut s lh xs key :
  LRep s lh xs ->
  exists pre post, xs = pre ++ post /\ Forall (before s key) pre /\ Forall (not_before s key) post.
Proof. intros R. apply cut; [apply R|]. intros l. by apply (rep_key s lh xs). Qed.

(** ** The search for the predecessors *)

(** What [FindLessThan] stores: the last node before the key on every level it has left. *)
Definition prev_ok (lh : loc -> nat) (pre : list loc) (level : nat) (p p' : list loc) : Prop :=
  length p' = length p /\
  (forall j, (j <= level)%nat -> p' !! j = Some (tail_of (lvl lh j pre))) /\
  (forall j, (level < j)%nat -> p' !! j = p !! j).

Definition prev_result (lh : loc -> nat) (pre : list loc) (level : nat)
    (prev prev' : option (list loc)) : Prop :=
  match prev, prev' with
  | None, None => True
  | Some p, Some p' => prev_ok lh pre level p p'
  | _, _ => False
  end.

(** Moving on to the first node of the level in [b]. *)
Lemma advance lh (a b : list loc) i n :
  head (lvl lh i b) = Some n ->
  exists b1 b2, b = b1 ++ n :: b2 /\ tail_of (a ++ b1 ++ [n]) = n /\ (i < lh n)%nat /\
    a ++ b = (a ++ b1 ++ [n]) ++ b2.
Proof.
  intros E. destruct (lvl_first lh i b n E) as (b1 & b2 & -> & _ & Hn).
  exists b1, b2. split_and!; [done| |done|].
  - by rewrite app_assoc, tail_of_snoc.
  - by rewrite <- !app_assoc.
Qed.

(** Nothing of the level is left before the key: the tail is the predecessor. *)
Lemma arrived lh i (a b : list loc) :
  a = [] \/ (i < lh (tail_of a))%nat -> lvl lh i b = [] ->
  tail_of (lvl lh i (a ++ b)) = tail_of a.
Proof. intros Ha Hb. by rewrite lvl_app, Hb, app_nil_r, tail_of_lvl. Qed.

Lemma store_prev_ok level x (p : list loc) :
  (level < length p)%nat -> store_prev level x p = Some (<[level := x]> p).
Proof. intros H. unfold store_prev, check. by rewrite bool_decide_eq_true_2. Qed.

Lemma store_prev_if_ok lh pre level prev :
  (forall p, prev = Some p -> (level < length p)%nat) ->
  exists prev1, store_prev_if level (tail_of (lvl lh level pre)) prev = Some prev1 /\
    (forall p, prev1 = Some p -> (level < length p)%nat) /\
    (level = 0%nat -> prev_result lh pre level prev prev1) /\
    (forall prev', (0 < level)%nat -> prev_result lh pre (level - 1) prev1 prev' ->
       prev_result lh pre level prev prev').
Proof.
  intros Hp. unfold store_prev_if. destruct prev as [p|]; [|by exists None].
  specialize (Hp p eq_refl). rewrite store_prev_ok by done.
  eexists. split; [done|]. split_and!.
  - intros p' [= <-]. by rewrite length_insert.
  - intros ->. split_and!; [apply length_insert| |].
    + intros j Hj. replace j with 0%nat by lia. by apply list_lookup_insert_eq.
    + intros j Hj. apply list_lookup_insert_ne. lia.
  - intros [p'|] Hl; [|done]. intros (H1 & H2 & H3). rewrite length_insert in H1.
    split_and!; [done| |].
    + intros j Hj. destruct (decide (j = level)) as [->|]; [|apply H2; lia].
      rewrite H3 by lia. by apply list_lookup_insert_eq.
    + intros j Hj. rewrite H3 by lia. apply list_lookup_insert_ne. lia.
Qed.

(** The next node is not before the key: it is the first one of the level in [post], and the
    comparison may be skipped when it is known. *)
Lemma stop_here s lh key post level lna :
  Forall (not_before s key) post ->
  (if bool_decide (head (lvl lh level post) = lna) then Some false
   else KeyIsAfterNode cmp s key (head (lvl lh level post))) = Some false.
Proof.
  intros Hp. destruct (bool_decide _); [done|].
  destruct (head (lvl lh level post)) as [n|] eqn:En; [|done].
  apply not_before_after. rewrite Forall_forall in Hp. apply Hp.
  destruct (lvl_first lh level post n En) as (c1 & c2 & -> & _). set_solver.
Qed.

(** A node of [pre] is not one of [post]. *)
Lemma before_not_known s key pre post n lna :
  Forall (before s key) pre -> Forall (not_before s key) post -> n ∈ pre ->
  (forall m, lna = Some m -> m ∈ post) -> Some n <> lna.
Proof.
  rewrite !Forall_forall. intros Hb Hp Hn Hlna <-. specialize (Hlna n eq_refl).
  destruct (Hp n Hlna) as (k & Hk & ?). destruct (Hb n Hn) as (k' & Hk' & ?).
  rewrite Hk in Hk'. injection Hk' as <-. lia.
Qed.

Lemma FindLessThan_loop_ok s lh key post fuel : forall a b level prev lna,
  LRep s lh ((a ++ b) ++ post) -> Forall (before s key) (a ++ b) ->
  Forall (not_before s key) post -> (level < max_height_ s)%nat ->
  a = [] \/ (level < lh (tail_of a))%nat -> (forall n, lna = Some n -> n ∈ post) ->
  (length b + level < fuel)%nat ->
  (forall p, prev = Some p -> (level < length p)%nat) ->
  exists prev', FindLessThan_loop cmp fuel s key prev (tail_of a) level lna =
      Some (tail_of (a ++ b), prev') /\
    prev_result lh (a ++ b) level prev prev'.
Proof.
  induction fuel as [|fuel IH]; intros a b level prev lna R Hb Hp Hlev Ha Hlna Hf Hprev; [lia|].
  cbn [FindLessThan_loop]. pose proof (r_height _ _ _ R).
  rewrite <- app_assoc in R. rewrite (rep_next s lh a (b ++ post) level) by (done || lia).
  cbn [mbind option_bind].
  destruct (asserts_hold s lh _ a (b ++ post) level key R eq_refl) as [-> ->].
  { by apply Forall_app in Hb as [? _]. }
  cbn [mbind option_bind]. rewrite lvl_app. destruct (lvl lh level b) as [|n r] eqn:Eb.
  - cbn [app]. rewrite stop_here by done. cbn [mbind option_bind].
    pose proof (arrived lh level a b Ha Eb) as Harr.
    destruct (store_prev_if_ok lh (a ++ b) level prev Hprev) as (prev1 & Hst & Hl1 & Hz & Hs).
    rewrite Harr in Hst. rewrite Hst.
    cbn [mbind option_bind]. destruct (bool_decide (level = 0%nat)) eqn:E0.
    + apply bool_decide_eq_true in E0 as ->. exists prev1. split; [|auto].
      rewrite (lvl_0 s lh _ (a ++ b) R) in Harr by set_solver. by rewrite Harr.
    + apply bool_decide_eq_false in E0.
      destruct (IH a b (level - 1)%nat prev1 (head (lvl lh level post))) as (prev' & -> & Hres);
        [by rewrite <- app_assoc|done|done|lia|destruct Ha; [by left|right; lia]| |lia| |].
      * intros n Hn. destruct (lvl_first lh level post n Hn) as (c1 & c2 & -> & _). set_solver.
      * intros p Hp1. specialize (Hl1 p Hp1). lia.
      * exists prev'. split; [done|]. apply Hs; [lia|done].
  - cbn [app head]. assert (head (lvl lh level b) = Some n) as En by (by rewrite Eb).
    destruct (advance lh a b level n En) as (b1 & b2 & -> & Ht & Hn & Hab).
    assert (n ∈ a ++ b1 ++ n :: b2) as Hin by set_solver.
    rewrite (bool_decide_eq_false_2 (Some n = lna)) by (by eapply before_not_known).
    rewrite before_after by (rewrite Forall_forall in Hb; by apply Hb). cbn [mbind option_bind].
    rewrite length_app in Hf. cbn [length] in Hf. rewrite Hab in *.
    destruct (IH (a ++ b1 ++ [n]) b2 level prev lna) as (prev' & Hloop & Hres); try done.
    + rewrite <- Hab. by rewrite <- app_assoc.
    + right. by rewrite Ht.
    + lia.
    + rewrite Ht in Hloop. eauto.
Qed.

Lemma FindLessThan_ok s lh key pre post prev :
  LRep s lh (pre ++ post) -> Forall (before s key) pre -> Forall (not_before s key) post ->
  (forall p, prev = Some p -> (max_height_ s <= length p)%nat) ->
  exists prev', FindLessThan cmp s key prev = Some (tail_of pre, prev') /\
    prev_result lh pre (max_height_ s - 1) prev prev'.
Proof.
  intros R Hb Hp Hprev. pose proof (r_height _ _ _ R). pose proof (rep_length s lh _ R) as Hlen.
  rewrite length_app in Hlen.
  apply (FindLessThan_loop_ok s lh key post (search_fuel s) [] pre); try done.
  - lia.
  - by left.
  - unfold search_fuel. lia.
  - intros p Hp'. specialize (Hprev p Hp'). lia.
Qed.


(** ** The search for a key *)

(** The comparison of [FindGreaterOrEqual] with the node [n]. *)
Definition compare_next (s : SkipList K) (key : K) (next last_bigger : ptr) : option Z :=
  match next with
  | None => Some 1
  | Some n =>
      if bool_decide (next = last_bigger) then Some 1
      else k ← key_of s n; Some (cmp k key)
  end.

(** A node whose key equals the one searched for is the first one not before it. *)
Lemma equal_is_first s lh pre post key n k :
  LRep s lh (pre ++ post) -> Forall (not_before s key) post -> n ∈ post ->
  key_of s n = Some k -> cmp k key = 0 -> head post = Some n.
Proof.
  intros R Hp Hn Hk Heq. apply list_elem_of_split in Hn as (c1 & c2 & ->).
  destruct c1 as [|m c1]; [done|exfalso]. apply Forall_cons in Hp as [(km & Hkm & Hge) _].
  destruct (sorted_pair s _ pre m c1 n c2 (r_sorted _ _ _ R) eq_refl) as (k1 & k2 & E1 & E2 & Hlt).
  simplify_eq. pose proof (compare_lt_le cmp _ _ _ Hlt ltac:(by rewrite Heq)). lia.
Qed.

Lemma compare_next_stop s lh pre post key level lb :
  LRep s lh (pre ++ post) -> Forall (not_before s key) post ->
  exists c, compare_next s key (head (lvl lh level post)) lb = Some c /\ 0 <= c /\
    (c = 0 -> head (lvl lh level post) = head post).
Proof.
  intros R Hp. unfold compare_next. destruct (head (lvl lh level post)) as [n|] eqn:En.
  - assert (n ∈ post) as Hn.
    { destruct (lvl_first lh level post n En) as (c1 & c2 & -> & _). set_solver. }
    destruct (bool_decide _); [by exists 1|].
    pose proof (proj1 (Forall_forall _ _) Hp n Hn) as (k & Hk & Hge). exists (cmp k key).
    rewrite Hk. split_and!; [done|done|]. intros Heq. symmetry.
    by apply (equal_is_first s lh pre post key n k).
  - by exists 1.
Qed.

Lemma compare_next_go s key pre post n lb :
  Forall (before s key) pre -> Forall (not_before s key) post -> n ∈ pre ->
  (forall m, lb = Some m -> m ∈ post) ->
  exists c, compare_next s key (Some n) lb = Some c /\ c < 0.
Proof.
  intros Hb Hp Hn Hlb. unfold compare_next.
  rewrite bool_decide_eq_false_2 by (by eapply before_not_known).
  rewrite Forall_forall in Hb. destruct (Hb n Hn) as (k & Hk & Hlt). exists (cmp k key).
  by rewrite Hk.
Qed.

Lemma FindGreaterOrEqual_loop_ok s lh key post fuel : forall a b level lb,
  LRep s lh ((a ++ b) ++ post) -> Forall (before s key) (a ++ b) ->
  Forall (not_before s key) post -> (level < max_height_ s)%nat ->
  a = [] \/ (level < lh (tail_of a))%nat -> (forall n, lb = Some n -> n ∈ post) ->
  (length b + level < fuel)%nat ->
  FindGreaterOrEqual_loop cmp fuel s key (tail_of a) level lb = Some (head post).
Proof.
  induction fuel as [|fuel IH]; intros a b level lb R Hb Hp Hlev Ha Hlb Hf; [lia|].
  cbn [FindGreaterOrEqual_loop]. pose proof (r_height _ _ _ R). pose proof R as R'.
  rewrite <- app_assoc in R. rewrite (rep_next s lh a (b ++ post) level) by (done || lia).
  cbn [mbind option_bind].
  destruct (asserts_hold s lh _ a (b ++ post) level key R eq_refl) as [-> ->].
  { by apply Forall_app in Hb as [? _]. }
  cbn [mbind option_bind]. rewrite lvl_app. destruct (lvl lh level b) as [|n r] eqn:Eb.
  - cbn [app]. destruct (compare_next_stop s lh _ post key level lb R' Hp) as (c & Hc & Hge & Heq).
    unfold compare_next in Hc. rewrite Hc. cbn [mbind option_bind].
    destruct (Z.eq_dec c 0) as [->|Hne]; [by rewrite Heq|].
    rewrite (proj2 (Z.eqb_neq _ _) Hne), Z.gtb_ltb, (proj2 (Z.ltb_lt 0 c)) by lia. cbn [orb andb].
    destruct (bool_decide (level = 0%nat)) eqn:E0.
    + apply bool_decide_eq_true in E0 as ->. by rewrite (lvl_0 s lh _ post R) by set_solver.
    + apply bool_decide_eq_false in E0. rewrite (proj2 (Z.ltb_ge c 0)) by lia.
      apply (IH a b); try done; [lia|destruct Ha; [by left|right; lia]| |lia].
      intros n Hn. destruct (lvl_first lh level post n Hn) as (c1 & c2 & -> & _). set_solver.
  - cbn [app head]. assert (head (lvl lh level b) = Some n) as En by (by rewrite Eb).
    destruct (advance lh a b level n En) as (b1 & b2 & -> & Ht & Hn & Hab).
    destruct (compare_next_go s key (a ++ b1 ++ n :: b2) post n lb Hb Hp) as (c & Hc & Hlt);
      [set_solver|done|].
    unfold compare_next in Hc. rewrite Hc. cbn [mbind option_bind].
    rewrite (proj2 (Z.eqb_neq c 0)), Z.gtb_ltb, (proj2 (Z.ltb_ge 0 c)), (proj2 (Z.ltb_lt c 0)) by lia.
    cbn [orb andb]. rewrite length_app in Hf. cbn [length] in Hf. rewrite Hab in *.
    rewrite <- Ht at 1. apply (IH (a ++ b1 ++ [n]) b2); try done; [|lia].
    right. by rewrite Ht.
Qed.

Lemma FindGreaterOrEqual_ok s lh key pre post :
  LRep s lh (pre ++ post) -> Forall (before s key) pre -> Forall (not_before s key) post ->
  FindGreaterOrEqual cmp s key = Some (head post).
Proof.
  intros R Hb Hp. pose proof (r_height _ _ _ R). pose proof (rep_length s lh _ R) as Hlen.
  rewrite length_app in Hlen.
  apply (FindGreaterOrEqual_loop_ok s lh key post (search_fuel s) [] pre); try done.
  - lia.
  - by left.
  - unfold search_fuel. lia.
Qed.

Lemma FindLast_loop_ok s lh fuel : forall a b level,
  LRep s lh (a ++ b) -> (level < max_height_ s)%nat ->
  a = [] \/ (level < lh (tail_of a))%nat -> (length b + level < fuel)%nat ->
  FindLast_loop fuel s (tail_of a) level = Some (tail_of (a ++ b)).
Proof.
  induction fuel as [|fuel IH]; intros a b level R Hlev Ha Hf; [lia|].
  cbn [FindLast_loop]. pose proof (r_height _ _ _ R).
  rewrite (rep_next s lh a b level) by (done || lia). cbn [mbind option_bind].
  destruct (lvl lh level b) as [|n r] eqn:Eb; cbn [head].
  - destruct (bool_decide (level = 0%nat)) eqn:E0.
    + apply bool_decide_eq_true in E0 as ->. pose proof (arrived lh 0 a b Ha Eb) as Harr.
      rewrite (lvl_0 s lh _ (a ++ b) R) in Harr by done. by rewrite Harr.
    + apply bool_decide_eq_false in E0.
      apply IH; [done|lia|destruct Ha; [by left|right; lia]|lia].
  - assert (head (lvl lh level b) = Some n) as En by (by rewrite Eb).
    destruct (advance lh a b level n En) as (b1 & b2 & -> & Ht & Hn & Hab).
    rewrite length_app in Hf. cbn [length] in Hf. rewrite Hab in *. rewrite <- Ht at 1.
    apply IH; [done|done|right; by rewrite Ht|lia].
Qed.

Lemma FindLast_ok s lh xs : LRep s lh xs -> FindLast s = Some (tail_of xs).
Proof.
  intros R. pose proof (r_height _ _ _ R). pose proof (rep_length s lh _ R).
  apply (FindLast_loop_ok s lh (search_fuel s) [] xs); [done|lia|by left|].
  unfold search_fuel. lia.
Qed.

(** ** The iterator *)

Lemma unless_head_tail s lh xs a : LRep s lh xs -> a ⊆ xs -> unless_head (tail_of a) = last a.
Proof.
  intros R Ha. unfold unless_head. destruct (tail_of_cases a) as [[-> ->]|[b Hb]]; [done|].
  destruct (r_node _ _ _ R (tail_of a)) as [Hne _]; [apply Ha; rewrite Hb at 2; set_solver|].
  rewrite bool_decide_eq_false_2 by done. rewrite Hb at 2. by rewrite last_snoc.
Qed.

(** A node of the list cuts it at its own key. *)
Lemma cut_at s lh a n b k :
  LRep s lh (a ++ n :: b) -> key_of s n = Some k ->
  Forall (before s k) a /\ Forall (not_before s k) (n :: b).
Proof.
  intros R Hk. pose proof (r_sorted _ _ _ R) as Hs.
  apply StronglySorted_app in Hs as (Hab & _ & Hs). apply StronglySorted_inv in Hs as [_ Hnb].
  rewrite !Forall_forall in *. split.
  - intros x Hx. destruct (Hab x n Hx ltac:(set_solver)) as (k1 & k2 & E1 & E2 & Hlt).
    simplify_eq. by exists k1.
  - intros x [->|Hx]%elem_of_cons; [exists k; by rewrite compare_refl|].
    destruct (Hnb x Hx) as (k1 & k2 & E1 & E2 & Hlt). simplify_eq. exists k2. split; [done|].
    apply (compare_gt cmp) in Hlt. lia.
Qed.

Lemma Iterator_Next_ok s lh a n b :
  LRep s lh (a ++ n :: b) -> Iterator_Next s (Some n) = Some (head b).
Proof.
  intros R. pose proof (r_height _ _ _ R). cbn [Iterator_Next mbind option_bind].
  destruct (r_node _ _ _ R n ltac:(set_solver)) as (_ & Hh & _).
  rewrite (app_assoc a [n] b : a ++ n :: b = (a ++ [n]) ++ b) in R.
  rewrite <- (tail_of_snoc a n), (rep_next s lh (a ++ [n]) b 0 R); [|lia|].
  - by rewrite (lvl_0 s lh _ b R) by set_solver.
  - right. rewrite tail_of_snoc. lia.
Qed.

Lemma Iterator_Prev_ok s lh a n b :
  LRep s lh (a ++ n :: b) -> Iterator_Prev cmp s (Some n) = Some (last a).
Proof.
  intros R. cbn [Iterator_Prev mbind option_bind].
  destruct (rep_key s lh _ n R ltac:(set_solver)) as (k & Hk). rewrite Hk. cbn [mbind option_bind].
  destruct (cut_at s lh a n b k R Hk) as [H1 H2].
  destruct (FindLessThan_ok s lh k a (n :: b) None R H1 H2 ltac:(done)) as (p & -> & _).
  cbn [mbind option_bind]. by rewrite (unless_head_tail s lh _ a R) by set_solver.
Qed.

Lemma SeekToFirst_ok s lh xs : LRep s lh xs -> SeekToFirst s = Some (head xs).
Proof.
  intros R. pose proof (r_height _ _ _ R). unfold SeekToFirst.
  change head_ with (tail_of []). rewrite (rep_next s lh [] xs 0 R); [|lia|by left]. by rewrite (lvl_0 s lh _ xs R) by done.
Qed.

Lemma SeekToLast_ok s lh xs : LRep s lh xs -> SeekToLast s = Some (last xs).
Proof.
  intros R. unfold SeekToLast. rewrite (FindLast_ok s lh xs R). cbn [mbind option_bind].
  by rewrite (unless_head_tail s lh _ xs R) by done.
Qed.

Lemma Contains_ok s lh xs key : LRep s lh xs ->
  exists b, Contains cmp s key = Some b /\
    (b = true <-> exists l k, l ∈ xs /\ key_of s l = Some k /\ cmp k key = 0).
Proof.
  intros R. destruct (rep_cut s lh xs key R) as (pre & post & -> & Hb & Hp).
  unfold Contains. rewrite (FindGreaterOrEqual_ok s lh key pre post R Hb Hp).
  cbn [mbind option_bind]. rewrite !Forall_forall in *.
  assert (forall l k, l ∈ pre ++ post -> key_of s l = Some k -> cmp k key = 0 ->
    head post = Some l) as Hfirst.
  { intros l k [Hl|Hl]%elem_of_app Hk Heq.
    - destruct (Hb l Hl) as (k' & Hk' & ?). simplify_eq. lia.
    - apply (equal_is_first s lh pre post key l k R); [by rewrite Forall_forall|done..]. }
  destruct (head post) as [n|] eqn:En.
  - assert (n ∈ pre ++ post) as Hn by (destruct post; [done|]; simplify_eq/=; set_solver).
    destruct (rep_key s lh _ n R Hn) as (k & Hk). rewrite Hk. eexists. split; [done|].
    unfold Equal. rewrite Z.eqb_eq. pose proof (compare_flip k key). split.
    + intros E. exists n, k. split_and!; [done..|lia].
    + intros (l & k' & Hl & Hk' & Heq). specialize (Hfirst l k' Hl Hk' Heq). simplify_eq. lia.
  - exists false. split; [done|]. split; [done|]. intros (l & k & Hl & Hk & Heq).
    by specialize (Hfirst l k Hl Hk Heq).
Qed.

(** The nodes up to a key and those behind it. *)
Definition upto (s : SkipList K) (key : K) (l : loc) : Prop :=
  exists k, key_of s l = Some k /\ cmp k key <= 0.
Definition behind (s : SkipList K) (key : K) (l : loc) : Prop :=
  exists k, key_of s l = Some k /\ 0 < cmp k key.

Lemma back_up_stop s target fuel n :
  upto s target n -> back_up cmp (S fuel) s target (Some n) = Some (Some n).
Proof.
  intros (k & Hk & Hle). cbn [back_up]. rewrite Hk. cbn [mbind option_bind]. unfold LessThan.
  pose proof (compare_flip k target). by rewrite (proj2 (Z.ltb_ge _ _)) by lia.
Qed.

Lemma back_up_end s target fuel a :
  Forall (before s target) a -> back_up cmp (S fuel) s target (last a) = Some (last a).
Proof.
  intros Hb. destruct (last a) as [m|] eqn:Em; [|done]. apply back_up_stop.
  rewrite Forall_forall in Hb. apply last_Some_elem_of in Em.
  destruct (Hb m Em) as (k & Hk & ?). exists k. split; [done|lia].
Qed.

(** The nodes after one that is not before the key are behind it. *)
Lemma after_behind s lh pre n post k target :
  LRep s lh (pre ++ n :: post) -> key_of s n = Some k -> 0 <= cmp k target ->
  Forall (behind s target) post.
Proof.
  intros R Hk Hge. pose proof (r_sorted _ _ _ R) as Hs.
  apply StronglySorted_app in Hs as (_ & _ & Hs). apply StronglySorted_inv in Hs as [_ Hn].
  eapply Forall_impl; [exact Hn|]. intros l (k1 & k2 & E1 & E2 & Hlt). simplify_eq.
  exists k2. split; [done|]. apply (compare_gt cmp). apply (compare_le_lt cmp _ k); [|done].
  pose proof (compare_flip k target). lia.
Qed.

Lemma SeekForPrev_ok s lh xs target : LRep s lh xs ->
  exists a b, xs = a ++ b /\ Forall (upto s target) a /\ Forall (behind s target) b /\
    SeekForPrev cmp s target = Some (last a).
Proof.
  intros R. destruct (rep_cut s lh xs target R) as (pre & post & -> & Hb & Hp).
  assert (Forall (upto s target) pre) as Hu.
  { eapply Forall_impl; [exact Hb|]. intros l (k & Hk & ?). exists k. split; [done|lia]. }
  assert (exists f, base.size (nodes s) = S f) as [f Hf].
  { pose proof (rep_length s lh _ R). exists (base.size (nodes s) - 1)%nat. lia. }
  unfold SeekForPrev, Seek. rewrite (FindGreaterOrEqual_ok s lh target pre post R Hb Hp), Hf.
  cbn [mbind option_bind]. destruct post as [|n post]; cbn [head].
  - exists pre, []. split_and!; [done..|]. unfold Valid. rewrite bool_decide_eq_false_2 by naive_solver.
    cbn [negb]. rewrite (SeekToLast_ok s lh _ R), app_nil_r. cbn [mbind option_bind].
    by apply back_up_end.
  - unfold Valid. rewrite bool_decide_eq_true_2 by done. cbn [negb mbind option_bind].
    destruct (Forall_cons_1 _ _ _ Hp) as [(k & Hk & Hge) _].
    pose proof (after_behind s lh pre n post k target R Hk Hge) as Hpost.
    destruct (Z.eq_dec (cmp k target) 0) as [Heq|Hne].
    + assert (upto s target n) as Hn by (exists k; split; [done|lia]).
      exists (pre ++ [n]), post. split_and!; [by rewrite <- app_assoc| |done|].
      * apply Forall_app. split; [done|]. by constructor.
      * rewrite last_snoc. by apply back_up_stop.
    + exists pre, (n :: post). split_and!; [done..| |].
      * constructor; [exists k; split; [done|lia]|done].
      * cbn [back_up]. rewrite Hk. cbn [mbind option_bind]. unfold LessThan.
        rewrite (proj2 (Z.ltb_lt _ _)) by (apply (compare_gt cmp); lia).
        rewrite (Iterator_Prev_ok s lh pre n post R). cbn [mbind option_bind].
        by apply back_up_end.
Qed.

End Rep.
