(* ===== verification/SkipListInsert.v ===== *)
(** * The skip list: insertion

    A new node is linked level by level from the bottom. After every level the list is
    well formed, with the new node at the height it has been linked up to, so that a search
    in between is correct; the node is in the list from the first level on. The array [prev_]
    of predecessors, which makes the insertion of ascending keys fast, has an invariant of its
    own. *)

From stdpp Require Import sorting.
From S2P Require Import Prelude.
From S2P Require Import SkipList.
From S2P Require Import SkipListSearch.

Section Rep.
Context {K : Type} (cmp : K -> K -> Z) `{!CompareLaws cmp}.

(** ** The memory of the nodes *)

Definition height_of (s : SkipList K) (l : loc) : nat :=
  match nodes s !! l with Some n => length (node_next n) | None => 0%nat end.

Lemma Next_bound (s : SkipList K) n i p : Next s n i = Some p -> (i < height_of s n)%nat.
Proof.
  unfold Next, height_of. destruct (nodes s !! n); cbn [mbind option_bind]; [|done].
  apply lookup_lt_Some.
Qed.

(** What one [SetNext] does. *)
Record set_next_post (s s' : SkipList K) (n : loc) (level : nat) (p : ptr) : Prop := {
  sn_next m i : Next s' m i =
    if bool_decide (m = n /\ i = level) then Some p else Next s m i;
  sn_key m : key_of s' m = key_of s m;
  sn_height m : height_of s' m = height_of s m;
  sn_rest : s' = set_nodes (nodes s') s;
  sn_dom m : is_Some (nodes s' !! m) <-> is_Some (nodes s !! m);
}.

Lemma SetNext_ok s n level p : (level < height_of s n)%nat ->
  exists s', SetNext s n level p = Some s' /\ set_next_post s s' n level p.
Proof.
  unfold height_of, SetNext. intros H. destruct (nodes s !! n) as [x|] eqn:En; [|lia].
  cbn [mbind option_bind]. unfold check. rewrite bool_decide_eq_true_2 by done. cbn [mbind option_bind].
  eexists. split; [done|]. split.
  - intros m i. unfold Next. cbn [nodes set_nodes]. destruct (decide (m = n)) as [->|Hm].
    + rewrite lookup_insert_eq, En. cbn [mbind option_bind node_next].
      destruct (decide (i = level)) as [->|Hi].
      * rewrite bool_decide_eq_true_2 by done. by apply list_lookup_insert_eq.
      * rewrite bool_decide_eq_false_2 by naive_solver. by apply list_lookup_insert_ne.
    + rewrite lookup_insert_ne by done. by rewrite bool_decide_eq_false_2 by naive_solver.
  - intros m. unfold key_of. cbn [nodes set_nodes]. destruct (decide (m = n)) as [->|Hm].
    + by rewrite lookup_insert_eq, En.
    + by rewrite lookup_insert_ne by done.
  - intros m. unfold height_of. cbn [nodes set_nodes]. destruct (decide (m = n)) as [->|Hm].
    + rewrite lookup_insert_eq, En. cbn [node_next]. apply length_insert.
    + by rewrite lookup_insert_ne by done.
  - done.
  - intros m. cbn [nodes set_nodes]. destruct (decide (m = n)) as [->|Hm].
    + rewrite lookup_insert_eq, En. split; eauto.
    + by rewrite lookup_insert_ne by done.
Qed.

(** ** Chains *)

Lemma linked_frame (s s' : SkipList K) i ls : forall a,
  (forall l, l ∈ a :: ls -> Next s' l i = Next s l i) -> linked s i a ls -> linked s' i a ls.
Proof.
  induction ls as [|x ls IH]; intros a Hf; cbn [linked].
  - by rewrite Hf by set_solver.
  - intros [H1 H2]. split; [by rewrite Hf by set_solver|]. apply IH; [set_solver|done].
Qed.

(** Linking [x] between [l1] and [l2]. *)
Lemma linked_insert (s s' : SkipList K) i x l2 : forall l1 a,
  NoDup (a :: l1 ++ l2) -> linked s i a (l1 ++ l2) ->
  Next s' x i = Some (head l2) -> Next s' (default a (last l1)) i = Some (Some x) ->
  (forall l, l <> x -> l <> default a (last l1) -> Next s' l i = Next s l i) ->
  x ∉ a :: l1 ++ l2 -> linked s' i a (l1 ++ x :: l2).
Proof.
  induction l1 as [|y l1 IH]; intros a Hnd Hl Hx Hp Hf Hnin; cbn [app linked].
  - split; [done|]. cbn [app last default] in *. destruct l2 as [|z l2]; cbn [linked head] in *; [done|].
    destruct Hl as [_ Hl]. split; [done|]. eapply linked_frame; [|exact Hl].
    intros l Hin. apply NoDup_cons in Hnd as [Ha _]. apply Hf; set_solver.
  - cbn [app linked] in Hl. destruct Hl as [H1 H2].
    assert (default a (last (y :: l1)) = default y (last l1)) as Hlast
      by (rewrite last_cons; by destruct (last l1)).
    rewrite Hlast in *. apply NoDup_cons in Hnd as [Ha Hnd]. split.
    + rewrite Hf; [done|set_solver|]. intros E. apply Ha. rewrite E.
      destruct (last l1) as [z|] eqn:Ez; cbn [default from_option]; [|set_solver].
      apply last_Some_elem_of in Ez. unfold id. set_solver.
    + apply IH; try done. set_solver.
Qed.

(** ** Linking *)

(** The new node [x] is linked up to height [j]. *)
Definition lift (h : loc -> nat) (x : loc) (j : nat) (l : loc) : nat :=
  if bool_decide (l = x) then j else h l.

Lemma lvl_ext h h' i (ls : list loc) : (forall l, l ∈ ls -> h l = h' l) -> lvl h i ls = lvl h' i ls.
Proof.
  intros He. unfold lvl. induction ls as [|l ls IH]; [done|]. rewrite !filter_cons, IH by set_solver.
  rewrite (He l) by set_solver. done.
Qed.

Lemma lvl_lift h x j i (ls : list loc) : x ∉ ls -> lvl (lift h x j) i ls = lvl h i ls.
Proof.
  intros Hx. apply lvl_ext. intros l Hl. unfold lift. rewrite bool_decide_eq_false_2; [done|].
  by intros ->.
Qed.

Lemma lvl_mid h x j i (pre post : list loc) : x ∉ pre ++ post ->
  lvl (lift h x j) i (pre ++ x :: post) =
  lvl h i pre ++ (if decide (i < j)%nat then [x] else []) ++ lvl h i post.
Proof.
  intros Hx. rewrite (lvl_app _ _ pre (x :: post)), (lvl_lift h x j i pre) by set_solver. f_equal.
  unfold lvl at 1. rewrite filter_cons. fold (lvl (lift h x j) i post).
  rewrite (lvl_lift h x j i post) by set_solver.
  assert (lift h x j x = j) as E by (unfold lift; by rewrite bool_decide_eq_true_2).
  case_decide; case_decide; try done; lia.
Qed.

Record Linking (s : SkipList K) (h : loc -> nat) (pre : list loc) (x : loc) (post : list loc)
    (j : nat) : Prop := {
  k_height : (1 <= max_height_ s <= kMaxHeight_ s)%nat;
  k_head : height_of s head_ = kMaxHeight_ s;
  k_node l : l ∈ pre ++ post ->
    l <> head_ /\ (1 <= h l <= max_height_ s)%nat /\ (h l <= height_of s l)%nat;
  k_new : x <> head_ /\ x ∉ pre ++ post /\ (j <= height_of s x <= max_height_ s)%nat;
  k_sorted : StronglySorted (key_lt cmp s) (pre ++ x :: post);
  k_link i : (i < kMaxHeight_ s)%nat -> linked s i head_ (lvl (lift h x j) i (pre ++ x :: post));
  k_prev i : (i < max_height_ s)%nat -> prev_ s !! i = Some (tail_of (lvl h i pre));
}.

Lemma node_of_height s l i : (i <= height_of s l)%nat -> (0 < i)%nat ->
  exists n, nodes s !! l = Some n /\ (i <= length (node_next n))%nat.
Proof. unfold height_of. destruct (nodes s !! l) as [n|]; [eauto|lia]. Qed.

(** Once it is on level 0, the new node is in the list. *)
Lemma linking_rep s h pre x post j :
  Linking s h pre x post j -> (1 <= j)%nat -> LRep cmp s (lift h x j) (pre ++ x :: post).
Proof.
  intros [Hh Hhd Hnode (Hx1 & Hx2 & Hx3) Hs Hl Hp] Hj. split; [done| | |done|done].
  - unfold height_of in Hhd. destruct (nodes s !! head_) as [n|]; [eauto|lia].
  - intros l Hin. unfold lift. destruct (decide (l = x)) as [->|Hne].
    + rewrite bool_decide_eq_true_2 by done. split_and!; [done|lia|lia|].
      apply node_of_height; lia.
    + rewrite bool_decide_eq_false_2 by done.
      destruct (Hnode l ltac:(set_solver)) as (H1 & H2 & H3). split_and!; [done|lia|lia|].
      apply node_of_height; lia.
Qed.

Lemma sorted_remove s a x b :
  StronglySorted (key_lt cmp s) (a ++ x :: b) -> StronglySorted (key_lt cmp s) (a ++ b).
Proof.
  intros (H1 & H2 & H3)%StronglySorted_app. apply StronglySorted_inv in H3 as [H3 _].
  apply StronglySorted_app. split_and!; [|done|done]. set_solver.
Qed.

(** Before that it is not. *)
Lemma linking_rep0 s h pre x post :
  Linking s h pre x post 0 -> LRep cmp s h (pre ++ post).
Proof.
  intros [Hh Hhd Hnode (Hx1 & Hx2 & Hx3) Hs Hl Hp]. split; [done| | | |].
  - unfold height_of in Hhd. destruct (nodes s !! head_) as [n|]; [eauto|lia].
  - intros l Hin. destruct (Hnode l Hin) as (H1 & H2 & H3). split_and!; [done|lia|lia|].
    apply node_of_height; lia.
  - by eapply sorted_remove.
  - intros i Hi. specialize (Hl i Hi). rewrite lvl_mid in Hl by done.
    rewrite decide_False in Hl by lia. by rewrite lvl_app.
Qed.

(** The nodes that precede [x] on level [j], and what follows them. *)
Lemma linking_prev s h pre x post j :
  Linking s h pre x post j -> (j < height_of s x)%nat ->
  let p := tail_of (lvl h j pre) in
  Next s p j = Some (head (lvl h j post)) /\ p <> x /\ NoDup (head_ :: lvl h j pre ++ lvl h j post).
Proof.
  intros [Hh Hhd Hnode (Hx1 & Hx2 & Hx3) Hs Hl Hp] Hj p. split_and!.
  - specialize (Hl j ltac:(lia)). rewrite lvl_mid in Hl by done. rewrite decide_False in Hl by lia.
    by apply linked_next in Hl.
  - intros E. destruct (tail_of_cases (lvl h j pre)) as [[_ E']|[b Hb]].
    + by rewrite <- E' in Hx1.
    + assert (p ∈ lvl h j pre) as Hin by (rewrite Hb; set_solver).
      apply elem_of_lvl in Hin as [_ Hin]. rewrite E in Hin. set_solver.
  - rewrite <- lvl_app. constructor.
    + rewrite elem_of_lvl. intros [_ Hin]. by destruct (Hnode head_ Hin) as [? _].
    + apply NoDup_filter. apply (sorted_nodup cmp s). by eapply sorted_remove.
Qed.

Lemma sorted_keys (s s' : SkipList K) xs :
  (forall l, l ∈ xs -> key_of s' l = key_of s l) ->
  StronglySorted (key_lt cmp s) xs -> StronglySorted (key_lt cmp s') xs.
Proof.
  intros Hk. induction 1 as [|x xs Hs IH Hx]; constructor; [apply IH; set_solver|].
  rewrite Forall_forall in *. intros y Hy. destruct (Hx y Hy) as (k1 & k2 & E1 & E2 & Hlt).
  exists k1, k2. rewrite !Hk by set_solver. done.
Qed.

Lemma linking_change s s' h pre x post j j' :
  Linking s h pre x post j -> s' = set_nodes (nodes s') s ->
  (forall l, key_of s' l = key_of s l) -> (forall l, height_of s' l = height_of s l) ->
  (j' <= height_of s x)%nat ->
  (forall i, (i < kMaxHeight_ s)%nat -> linked s' i head_ (lvl (lift h x j') i (pre ++ x :: post))) ->
  Linking s' h pre x post j'.
Proof.
  intros [Lh Lhd Lnode (Lx1 & Lx2 & Lx3) Ls Ll Lp] R HK HH Hj Hl.
  assert (kMaxHeight_ s' = kMaxHeight_ s) as E1 by (by rewrite R).
  assert (max_height_ s' = max_height_ s) as E2 by (by rewrite R).
  assert (prev_ s' = prev_ s) as E3 by (by rewrite R).
  split; rewrite ?E1, ?E2, ?E3, ?HH; try done.
  - intros l Hin. rewrite HH. by apply Lnode.
  - split_and!; done || lia.
  - by apply (sorted_keys s).
Qed.

(** A new node without links of its own: its pointer on a level where it is not linked may
    be set. *)
Lemma linking_aim s s1 h pre x post j p :
  Linking s h pre x post j -> set_next_post s s1 x j p -> Linking s1 h pre x post j.
Proof.
  intros L [N1 K1 H1 R1 D1]. pose proof L as [Lh Lhd Lnode (Lx1 & Lx2 & Lx3) Ls Ll Lp].
  apply (linking_change s s1 h pre x post j j L R1 K1 H1); [lia|].
  intros i Hi. eapply linked_frame; [|exact (Ll i Hi)]. intros l Hl. rewrite N1.
  rewrite bool_decide_eq_false_2; [done|]. intros [-> ->].
  rewrite lvl_mid, decide_False in Hl by (done || lia).
  apply elem_of_cons in Hl as [Hl|Hl]; [done|]. cbn [app] in Hl. rewrite <- lvl_app in Hl.
  by apply elem_of_lvl in Hl as [_ Hl].
Qed.

(** Publishing it on that level. *)
Lemma linking_publish s s1 s2 h pre x post j :
  Linking s h pre x post j -> (j < height_of s x)%nat ->
  set_next_post s s1 x j (head (lvl h j post)) ->
  set_next_post s1 s2 (tail_of (lvl h j pre)) j (Some x) -> Linking s2 h pre x post (S j).
Proof.
  intros L Hj [N1 K1 H1 R1 _] [N2 K2 H2 R2 _].
  destruct (linking_prev s h pre x post j L Hj) as (_ & Hpx & Hnd).
  pose proof L as [Lh Lhd Lnode (Lx1 & Lx2 & Lx3) Ls Ll Lp].
  apply (linking_change s s2 h pre x post j (S j) L); [|intros; by rewrite ?K2, ?H2..|lia|].
  { rewrite R2 at 1. by rewrite R1. }
  intros i Hi. specialize (Ll i Hi). rewrite lvl_mid in * by done.
  destruct (decide (i = j)) as [->|Hij].
  - rewrite decide_True by lia. rewrite decide_False in Ll by lia. cbn [app] in *.
    apply (linked_insert s s2); try done.
    + rewrite N2, bool_decide_eq_false_2 by naive_solver.
      by rewrite N1, bool_decide_eq_true_2.
    + by rewrite N2, bool_decide_eq_true_2.
    + intros l Hlx Hlp. rewrite N2, bool_decide_eq_false_2 by naive_solver.
      by rewrite N1, bool_decide_eq_false_2 by naive_solver.
    + rewrite <- lvl_app. intros [Hx|[_ Hx]%elem_of_lvl]%elem_of_cons; done.
  - replace (if decide (i < S j)%nat then [x] else []) with (if decide (i < j)%nat then [x] else [])
      by (repeat case_decide; done || lia).
    eapply linked_frame; [|exact Ll]. intros l _.
    by rewrite N2, bool_decide_eq_false_2, N1, bool_decide_eq_false_2 by naive_solver.
Qed.

(** One round of the loop; the state between its two stores is well formed as well. *)
Lemma linking_step s h pre x post j :
  Linking s h pre x post j -> (j < height_of s x)%nat ->
  exists s1 s2, SetNext s x j (head (lvl h j post)) = Some s1 /\
    SetNext s1 (tail_of (lvl h j pre)) j (Some x) = Some s2 /\
    Linking s1 h pre x post j /\ Linking s2 h pre x post (S j) /\
    s2 = set_nodes (nodes s2) s /\
    (forall l, key_of s2 l = key_of s l) /\ (forall l, height_of s2 l = height_of s l).
Proof.
  intros L Hj. destruct (linking_prev s h pre x post j L Hj) as (Hnext & _).
  destruct (SetNext_ok s x j (head (lvl h j post)) Hj) as (s1 & E1 & P1).
  pose proof (Next_bound s _ j _ Hnext) as Hpb. rewrite <- (sn_height _ _ _ _ _ P1) in Hpb.
  destruct (SetNext_ok s1 _ j (Some x) Hpb) as (s2 & E2 & P2).
  exists s1, s2. split_and!; [done|done|by eapply linking_aim|by eapply linking_publish|..];
    destruct P1 as [_ K1 H1 R1 _], P2 as [_ K2 H2 R2 _].
  - rewrite R2 at 1. by rewrite R1.
  - intros. by rewrite K2.
  - intros. by rewrite H2.
Qed.

Lemma link_levels_ok h pre x post n : forall s j,
  Linking s h pre x post j -> (j + n <= height_of s x)%nat ->
  exists s', link_levels n j x s = Some s' /\ Linking s' h pre x post (j + n) /\
    s' = set_nodes (nodes s') s /\
    (forall l, key_of s' l = key_of s l) /\ (forall l, height_of s' l = height_of s l).
Proof.
  induction n as [|n IH]; intros s j L Hn.
  { exists s. rewrite Nat.add_0_r. split_and!; try done. by destruct s. }
  cbn [link_levels]. pose proof (k_new _ _ _ _ _ _ L) as (_ & _ & Hx).
  rewrite (k_prev _ _ _ _ _ _ L j) by lia. cbn [mbind option_bind].
  destruct (linking_prev s h pre x post j L ltac:(lia)) as (Hnext & _). rewrite Hnext.
  cbn [mbind option_bind].
  destruct (linking_step s h pre x post j L ltac:(lia)) as (s1 & s2 & -> & E2 & _ & L2 & R & HK & HH).
  cbn [mbind option_bind]. rewrite E2. cbn [mbind option_bind].
  destruct (IH s2 (S j) L2) as (s' & E' & L' & R' & HK' & HH'); [rewrite HH; lia|].
  exists s'. rewrite Nat.add_succ_r. split_and!; [done|done| | |].
  - rewrite R' at 1. by rewrite R.
  - intros. by rewrite HK'.
  - intros. by rewrite HH'.
Qed.

(** ** The invariant *)

(** Between two insertions [prev_[0]] is the node inserted last and [prev_] its predecessors
    on the levels above its own. *)
Record PrevInv (s : SkipList K) (pre post : list loc) : Prop := {
  p_last : prev_ s !! 0%nat = Some (tail_of pre);
  p_empty : pre = [] -> post = [] /\ max_height_ s = 1%nat /\ prev_height_ s = 1%nat;
  p_height : pre <> [] -> prev_height_ s = height_of s (tail_of pre);
  p_above i : (prev_height_ s <= i < max_height_ s)%nat ->
    prev_ s !! i = Some (tail_of (lvl (height_of s) i pre));
}.

Record Inv (s : SkipList K) (xs : list loc) : Prop := {
  i_rep : LRep cmp s (height_of s) xs;
  i_len : length (prev_ s) = kMaxHeight_ s;
  i_prev : exists pre post, xs = pre ++ post /\ PrevInv s pre post;
}.

(** The predecessors of a key on every level. *)
Definition predecessors (s : SkipList K) (pre prev : list loc) : Prop :=
  length prev = kMaxHeight_ s /\
  forall i, (i < max_height_ s)%nat -> prev !! i = Some (tail_of (lvl (height_of s) i pre)).

Lemma spread_prev_ok n : forall i x (prev : list loc),
  (i + n <= length prev)%nat ->
  exists prev', spread_prev n i x prev = Some prev' /\ length prev' = length prev /\
    (forall j, (i <= j < i + n)%nat -> prev' !! j = Some x) /\
    (forall j, ~ (i <= j < i + n)%nat -> prev' !! j = prev !! j).
Proof.
  induction n as [|n IH]; intros i x prev Hn; cbn [spread_prev].
  { exists prev. split_and!; try done. lia. }
  rewrite store_prev_ok by lia. cbn [mbind option_bind].
  destruct (IH (S i) x (<[i := x]> prev)) as (prev' & -> & H1 & H2 & H3);
    [rewrite length_insert; lia|].
  exists prev'. rewrite length_insert in H1. split_and!; [done|done| |].
  - intros j Hj. destruct (decide (j = i)) as [->|]; [|apply H2; lia].
    rewrite H3 by lia. apply list_lookup_insert_eq. lia.
  - intros j Hj. rewrite H3 by lia. apply list_lookup_insert_ne. lia.
Qed.

(** The last node before a key decides for those in front of it, the first one not before it
    for those behind. *)
Lemma all_before s lh pre post key :
  LRep cmp s lh (pre ++ post) -> pre = [] \/ before cmp s key (tail_of pre) ->
  Forall (before cmp s key) pre.
Proof.
  intros R Hc. destruct (tail_of_cases pre) as [[-> _]|[b Hb]]; [done|].
  destruct Hc as [->|(k & Hk & Hlt)]; [done|]. rewrite Hb in R |- *. rewrite <- app_assoc in R.
  destruct (cut_at cmp s lh b (tail_of pre) post k R Hk) as [H1 _].
  apply Forall_app. split; [|constructor; [by exists k|done]].
  eapply Forall_impl; [exact H1|]. intros l (k' & Hk' & Hlt'). exists k'. split; [done|].
  by apply (compare_lt_trans cmp _ k).
Qed.

Lemma all_not_before s lh pre post key :
  LRep cmp s lh (pre ++ post) -> (forall n, head post = Some n -> not_before cmp s key n) ->
  Forall (not_before cmp s key) post.
Proof.
  intros R Hc. destruct post as [|n post]; [done|]. destruct (Hc n eq_refl) as (k & Hk & Hge).
  constructor; [by exists k|].
  eapply Forall_impl; [exact (after_behind cmp s lh pre n post k key R Hk Hge)|].
  intros l (k' & Hk' & ?). exists k'. split; [done|lia].
Qed.

Lemma KeyIsAfterNode_total s lh xs key n :
  LRep cmp s lh xs -> n ∈ xs ->
  (KeyIsAfterNode cmp s key (Some n) = Some true /\ before cmp s key n) \/
  (KeyIsAfterNode cmp s key (Some n) = Some false /\ not_before cmp s key n).
Proof.
  intros R Hn. destruct (rep_key cmp s lh xs n R Hn) as (k & Hk).
  destruct (Z.lt_ge_cases (cmp k key) 0).
  - left. assert (before cmp s key n) as Hb by (by exists k). split; [by apply before_after|done].
  - right. assert (not_before cmp s key n) as Hb by (by exists k).
    split; [by apply not_before_after|done].
Qed.

Lemma tail_of_in (a : list loc) : a <> [] -> tail_of a ∈ a.
Proof.
  intros H. destruct (tail_of_cases a) as [[-> _]|[b Hb]]; [done|]. rewrite Hb at 2. set_solver.
Qed.

(** The fast path: the key belongs right behind the node inserted last. *)
Lemma fast_path s pre post :
  LRep cmp s (height_of s) (pre ++ post) -> length (prev_ s) = kMaxHeight_ s ->
  PrevInv s pre post ->
  exists prev, spread_prev (prev_height_ s - 1) 1 (tail_of pre) (prev_ s) = Some prev /\
    predecessors s pre prev.
Proof.
  intros R Hlen [P0 Pe Ph Pa]. pose proof (r_height _ _ _ _ R) as Hmax.
  assert (pre = [] /\ prev_height_ s = 1%nat \/ pre <> [] /\ (1 <= height_of s (tail_of pre))%nat
    /\ prev_height_ s = height_of s (tail_of pre) /\ (prev_height_ s <= max_height_ s)%nat) as Hc.
  { destruct (decide (pre = [])) as [->|Hne]; [left; naive_solver|right].
    pose proof (tail_of_in pre Hne) as Hin.
    destruct (r_node _ _ _ _ R (tail_of pre) ltac:(set_solver)) as (_ & Hh & _).
    rewrite Ph by done. split_and!; try done; lia. }
  destruct (spread_prev_ok (prev_height_ s - 1) 1 (tail_of pre) (prev_ s)) as
    (prev & E & H1 & H2 & H3); [lia|].
  exists prev. split; [done|]. split; [lia|]. intros i Hi.
  destruct (decide (i = 0)%nat) as [->|Hi0].
  { rewrite H3, P0 by lia. by rewrite (lvl_0 cmp s _ _ pre R) by set_solver. }
  destruct (decide (i < prev_height_ s)%nat) as [Hlt|Hge].
  - rewrite H2 by lia. rewrite tail_of_lvl; [done|]. destruct Hc as [[? ?]|(_ & _ & <- & _)]; [lia|auto].
  - rewrite H3 by lia. apply Pa. lia.
Qed.

(** The two tests of the fast path. *)
Lemma not_behind s lh pre post key : LRep cmp s lh (pre ++ post) ->
  exists b, KeyIsAfterNode cmp s key (head post) = Some b /\
    (b = false -> Forall (not_before cmp s key) post).
Proof.
  intros R. destruct post as [|n post]; [by exists false|]. cbn [head].
  destruct (KeyIsAfterNode_total s _ _ key n R) as [[-> Hn]|[-> Hn]]; [set_solver|by exists true|].
  exists false. split; [done|]. intros _. apply (all_not_before s _ pre _ key R).
  by intros m [= <-].
Qed.

Lemma in_front s lh pre post key : LRep cmp s lh (pre ++ post) ->
  exists c, (if bool_decide (tail_of pre = head_) then Some true
      else KeyIsAfterNode cmp s key (Some (tail_of pre))) = Some c /\
    (c = true -> Forall (before cmp s key) pre).
Proof.
  intros R. destruct (decide (pre = [])) as [->|Hne]; [by exists true|].
  pose proof (tail_of_in pre Hne) as Hin.
  destruct (r_node _ _ _ _ R (tail_of pre)) as (Hhd & _); [set_solver|].
  rewrite bool_decide_eq_false_2 by done.
  destruct (KeyIsAfterNode_total s _ _ key (tail_of pre) R) as [[-> Hn]|[-> Hn]];
    [set_solver| |by exists false].
  exists true. split; [done|]. intros _. apply (all_before s _ pre post key R). by right.
Qed.

(** [prev_[0]] is the head only in an empty list. *)
Lemma fast_path_assert s pre post :
  LRep cmp s (height_of s) (pre ++ post) -> PrevInv s pre post ->
  check (negb (bool_decide (tail_of pre = head_))
    || (bool_decide (prev_height_ s = 1%nat) && bool_decide (max_height_ s = 1%nat))) = Some ().
Proof.
  intros R P. destruct (decide (pre = [])) as [->|Hne].
  - destruct (p_empty _ _ _ P eq_refl) as (_ & -> & ->). done.
  - destruct (r_node _ _ _ _ R (tail_of pre)) as (Hhd & _);
      [pose proof (tail_of_in pre Hne); set_solver|].
    by rewrite bool_decide_eq_false_2.
Qed.

(** The successor of a node on level 0. *)
Lemma Next_0 s lh pre post :
  LRep cmp s lh (pre ++ post) -> Next s (tail_of pre) 0 = Some (head post).
Proof.
  intros R. pose proof (r_height _ _ _ _ R). rewrite (rep_next cmp s lh pre post 0 R); [|lia|].
  - by rewrite (lvl_0 cmp s _ _ post R) by set_solver.
  - destruct (decide (pre = [])) as [|Hne]; [by left|right].
    destruct (r_node _ _ _ _ R (tail_of pre)) as (_ & ? & _); [|lia].
    pose proof (tail_of_in pre Hne). set_solver.
Qed.

Lemma locate_ok s xs key : Inv s xs ->
  exists prev pre post, locate cmp s key = Some (set_prev prev s) /\ xs = pre ++ post /\
    Forall (before cmp s key) pre /\ Forall (not_before cmp s key) post /\
    predecessors s pre prev.
Proof.
  intros [R Hlen (pre & post & -> & P)]. pose proof (r_height _ _ _ _ R) as Hmax.
  unfold locate. rewrite (p_last _ _ _ P). cbn [mbind option_bind].
  rewrite (Next_0 s _ pre post R). cbn [mbind option_bind].
  destruct (not_behind s _ pre post key R) as (b & -> & Hb).
  destruct (in_front s _ pre post key R) as (c & Ec & Hc). cbn [mbind option_bind].
  rewrite Ec. cbn [mbind option_bind]. destruct (negb b && c) eqn:Efast.
  - apply andb_true_iff in Efast as [->%negb_true_iff ->].
    destruct (fast_path s pre post R Hlen P) as (prev & E & Hpred). exists prev, pre, post.
    rewrite (fast_path_assert s pre post R P). cbn [mbind option_bind]. rewrite E.
    split_and!; try done; auto.
  - destruct (rep_cut cmp s _ _ key R) as (pre1 & post1 & Hxs & H1 & H2). rewrite Hxs in R.
    destruct (FindLessThan_ok cmp s _ key pre1 post1 (Some (prev_ s)) R H1 H2) as (prev' & -> & Hres);
      [intros p [= <-]; lia|].
    cbn [mbind option_bind]. destruct prev' as [prev|]; [|done]. destruct Hres as (L1 & L2 & _).
    exists prev, pre1, post1. split_and!; try done. split; [lia|]. intros i Hi. apply L2. lia.
Qed.

(** ** Insert, step by step *)

(** The key is in the list. *)
Definition present (s : SkipList K) (key : K) (xs : list loc) : Prop :=
  exists l k, l ∈ xs /\ key_of s l = Some k /\ cmp k key = 0.

Lemma assert_no_duplicate_ok s lh pre post prev key :
  LRep cmp s lh (pre ++ post) -> Forall (not_before cmp s key) post ->
  prev !! 0%nat = Some (tail_of pre) -> ~ present s key (pre ++ post) ->
  assert_no_duplicate cmp (set_prev prev s) key = Some ().
Proof.
  intros R Hp H0 Hnew. unfold assert_no_duplicate. cbn [prev_ set_prev]. rewrite H0.
  cbn [mbind option_bind]. change (Next (set_prev prev s)) with (Next s).
  rewrite (Next_0 s lh pre post R). cbn [mbind option_bind].
  destruct post as [|n post]; [done|]. cbn [head]. change (key_of (set_prev prev s)) with (key_of s).
  apply Forall_cons in Hp as [(k & Hk & Hge) _]. rewrite Hk. cbn [mbind option_bind].
  unfold check, Equal. rewrite (proj2 (Z.eqb_neq _ _)); [done|]. intros E. apply Hnew.
  exists n, k. split_and!; [set_solver|done|]. pose proof (compare_flip k key). lia.
Qed.

Lemma assert_no_duplicate_fails s lh pre post prev key :
  LRep cmp s lh (pre ++ post) -> Forall (before cmp s key) pre ->
  Forall (not_before cmp s key) post ->
  prev !! 0%nat = Some (tail_of pre) -> present s key (pre ++ post) ->
  assert_no_duplicate cmp (set_prev prev s) key = None.
Proof.
  intros R Hb Hp H0 (l & k & Hl & Hk & Heq). unfold assert_no_duplicate. cbn [prev_ set_prev].
  rewrite H0. cbn [mbind option_bind]. change (Next (set_prev prev s)) with (Next s).
  rewrite (Next_0 s lh pre post R). cbn [mbind option_bind].
  apply elem_of_app in Hl as [Hl|Hl].
  { rewrite Forall_forall in Hb. destruct (Hb l Hl) as (k' & Hk' & ?). simplify_eq. lia. }
  rewrite (equal_is_first cmp s lh pre post key l k R Hp Hl Hk Heq).
  change (key_of (set_prev prev s)) with (key_of s). rewrite Hk. cbn [mbind option_bind].
  unfold check, Equal. pose proof (compare_flip k key). by rewrite (proj2 (Z.eqb_eq _ _)) by lia.
Qed.

Lemma RandomHeight_ok {Rng : Type} (rnd_Next : Rng -> Z * Rng) (s : SkipList K) rnd :
  (1 <= kMaxHeight_ s)%nat ->
  exists height rnd', RandomHeight rnd_Next s rnd = Some (height, rnd') /\
    (1 <= height <= kMaxHeight_ s)%nat.
Proof.
  intros Hk. assert (forall n h rnd, exists h' rnd',
    RandomHeight_loop rnd_Next n (kScaledInverseBranching_ s) h rnd = (h', rnd') /\
    (h <= h' <= h + n)%nat) as Hloop.
  { induction n as [|n IH]; intros h r; cbn [RandomHeight_loop]; [exists h, r; split; [done|lia]|].
    destruct (rnd_Next r) as [v r1]. destruct (v <? _); [|exists h, r1; split; [done|lia]].
    destruct (IH (S h) r1) as (h' & r' & -> & ?). exists h', r'. split; [done|lia]. }
  destruct (Hloop (kMaxHeight_ s - 1)%nat 1%nat rnd) as (h' & r' & E & Hh). exists h', r'.
  unfold RandomHeight. rewrite E. unfold check. rewrite !bool_decide_eq_true_2 by lia.
  split; [done|lia].
Qed.

(** No node reaches the levels above [max_height_]. *)
Lemma lvl_above s lh xs ys i :
  LRep cmp s lh xs -> ys ⊆ xs -> (max_height_ s <= i)%nat -> lvl lh i ys = [].
Proof.
  intros R Hsub Hi. assert (forall l, l ∉ lvl lh i ys) as Hnone.
  { intros l [Hl Hin]%elem_of_lvl. destruct (r_node _ _ _ _ R l (Hsub l Hin)) as (_ & ? & _). lia. }
  destruct (lvl lh i ys) as [|l ls]; [done|]. destruct (Hnone l). set_solver.
Qed.

Lemma raise_ok s pre post prev height :
  LRep cmp s (height_of s) (pre ++ post) -> predecessors s pre prev ->
  (1 <= height <= kMaxHeight_ s)%nat ->
  exists prev', raise (set_prev prev s) height =
      Some (set_max_height (Nat.max (max_height_ s) height) (set_prev prev' s)) /\
    length prev' = kMaxHeight_ s /\
    forall i, (i < Nat.max (max_height_ s) height)%nat ->
      prev' !! i = Some (tail_of (lvl (height_of s) i pre)).
Proof.
  intros R [Hlen Hprev] Hh. unfold raise. cbn [max_height_ set_prev prev_].
  destruct (bool_decide (max_height_ s < height)%nat) eqn:E.
  - apply bool_decide_eq_true in E. rewrite Nat.max_r by lia.
    destruct (spread_prev_ok (height - max_height_ s) (max_height_ s) head_ prev) as
      (prev' & -> & H1 & H2 & H3); [lia|].
    exists prev'. split_and!; [done|lia|]. intros i Hi.
    destruct (decide (i < max_height_ s)%nat) as [Hlt|Hge].
    + rewrite H3 by lia. by apply Hprev.
    + rewrite H2 by lia. by rewrite (lvl_above s _ _ pre i R) by (set_solver || lia).
  - apply bool_decide_eq_false in E. rewrite Nat.max_l by lia. exists prev. by destruct s.
Qed.

(** The new node is not linked anywhere. *)
Lemma new_node s M prev key height x s3 :
  NewNode (set_max_height M (set_prev prev s)) key height = (x, s3) ->
  nodes s !! x = None /\
  s3 = set_nodes (<[x := mkNode key (replicate height None)]> (nodes s))
         (set_max_height M (set_prev prev s)) /\
  height_of s3 x = height /\ key_of s3 x = Some key /\
  (forall l i, l <> x -> Next s3 l i = Next s l i /\ key_of s3 l = key_of s l /\
     height_of s3 l = height_of s l).
Proof.
  intros [= <- <-]. split_and!.
  - apply not_elem_of_dom. apply is_fresh.
  - done.
  - unfold height_of. cbn [nodes set_nodes set_max_height set_prev]. rewrite lookup_insert_eq.
    apply length_replicate.
  - unfold key_of. cbn [nodes set_nodes set_max_height set_prev]. by rewrite lookup_insert_eq.
  - intros l i Hl. unfold Next, key_of, height_of. cbn [nodes set_nodes set_max_height set_prev].
    by rewrite lookup_insert_ne.
Qed.

Lemma sorted_new s3 pre x post key :
  StronglySorted (key_lt cmp s3) (pre ++ post) -> key_of s3 x = Some key ->
  Forall (before cmp s3 key) pre -> Forall (behind cmp s3 key) post ->
  StronglySorted (key_lt cmp s3) (pre ++ x :: post).
Proof.
  intros (H1 & H2 & H3)%StronglySorted_app Hx Hb Hp. rewrite !Forall_forall in Hb, Hp.
  apply StronglySorted_app. split_and!; [|done|].
  - intros a b Ha [->|Hin]%elem_of_cons; [|by apply H1].
    destruct (Hb a Ha) as (k & Hk & Hlt). by exists k, key.
  - constructor; [done|]. rewrite Forall_forall. intros b Hin.
    destruct (Hp b Hin) as (k & Hk & Hlt). exists key, k. split_and!; [done..|].
    by apply (compare_gt cmp).
Qed.

Lemma new_behind s key pre post :
  Forall (not_before cmp s key) post -> ~ present s key (pre ++ post) ->
  Forall (behind cmp s key) post.
Proof.
  rewrite !Forall_forall. intros Hp Hnew l Hl. destruct (Hp l Hl) as (k & Hk & Hge).
  exists k. split; [done|]. destruct (Z.eq_dec (cmp k key) 0) as [E|]; [|lia].
  exfalso. apply Hnew. exists l, k. split_and!; [set_solver|done|done].
Qed.

Lemma linking_start s pre post prev height key x s3 :
  LRep cmp s (height_of s) (pre ++ post) ->
  Forall (before cmp s key) pre -> Forall (not_before cmp s key) post ->
  ~ present s key (pre ++ post) -> (1 <= height <= kMaxHeight_ s)%nat ->
  (forall i, (i < Nat.max (max_height_ s) height)%nat ->
     prev !! i = Some (tail_of (lvl (height_of s) i pre))) ->
  NewNode (set_max_height (Nat.max (max_height_ s) height) (set_prev prev s)) key height = (x, s3) ->
  Linking s3 (height_of s) pre x post 0.
Proof.
  intros R Hb Hp Hnew Hh Hprev HN. destruct (new_node _ _ _ _ _ _ _ HN) as (Hx & -> & Hxh & Hxk & Hother).
  pose proof (r_height _ _ _ _ R) as Hmax. destruct (r_head _ _ _ _ R) as (nh & Hnh & Hlen).
  set (s3 := set_nodes _ _) in *.
  assert (forall l, l ∈ pre ++ post -> l <> x) as Hne.
  { intros l Hl ->. destruct (r_node _ _ _ _ R x Hl) as (_ & _ & n & Hn & _). congruence. }
  assert (head_ <> x) as Hhx by congruence.
  assert (forall l, l ∈ pre ++ post -> key_of s3 l = key_of s l) as Hkeys.
  { intros l Hl. by apply (Hother l 0%nat), Hne. }
  split; cbn [max_height_ kMaxHeight_ prev_ s3 set_nodes set_max_height set_prev].
  - lia.
  - destruct (Hother head_ 0%nat Hhx) as (_ & _ & ->). unfold height_of. by rewrite Hnh.
  - intros l Hl. destruct (r_node _ _ _ _ R l Hl) as (H1 & H2 & _).
    destruct (Hother l 0%nat (Hne l Hl)) as (_ & _ & ->). split_and!; [done|lia..].
  - fold s3. rewrite Hxh. split_and!; [done| |lia|lia]. intros Hin. by destruct (Hne x Hin).
  - apply (sorted_new s3 pre x post key); [|done|..].
    + apply (sorted_keys s); [done|apply R].
    + rewrite Forall_forall in *. intros l Hl. destruct (Hb l Hl) as (k & Hk & ?).
      exists k. by rewrite Hkeys by set_solver.
    + pose proof (new_behind s key pre post Hp Hnew) as Hbeh. rewrite Forall_forall in *.
      intros l Hl. destruct (Hbeh l Hl) as (k & Hk & ?). exists k. by rewrite Hkeys by set_solver.
  - intros i Hi. rewrite lvl_mid by (intros Hin; by destruct (Hne x Hin)).
    rewrite decide_False by lia. cbn [app]. rewrite <- lvl_app.
    eapply linked_frame; [|exact (r_link _ _ _ _ R i Hi)].
    intros l [->|[_ Hl]%elem_of_lvl]%elem_of_cons; apply Hother; auto.
  - done.
Qed.

Lemma LRep_ext s s' lh lh' xs :
  LRep cmp s lh xs -> nodes s' = nodes s -> kMaxHeight_ s' = kMaxHeight_ s ->
  max_height_ s' = max_height_ s -> (forall l, l ∈ xs -> lh' l = lh l) -> LRep cmp s' lh' xs.
Proof.
  intros [H1 H2 H3 H4 H5] En Ek Em El.
  assert (forall l i, Next s' l i = Next s l i) as EN by (intros; unfold Next; by rewrite En).
  split; rewrite ?En, ?Ek, ?Em; try done.
  - intros l Hl. rewrite El by done. by apply H3.
  - apply (sorted_keys s); [|done]. intros l _. unfold key_of. by rewrite En.
  - intros i Hi. rewrite (lvl_ext lh' lh) by done. eapply linked_frame; [|by apply H5]. auto.
Qed.

(** The state that [Insert] leaves. *)
Lemma insert_done s4 h pre x post height :
  Linking s4 h pre x post height -> height_of s4 x = height -> (1 <= height)%nat ->
  (forall l, l ∈ pre ++ post -> height_of s4 l = h l) ->
  length (prev_ s4) = kMaxHeight_ s4 ->
  Inv (set_prev_height height (set_prev (<[0%nat := x]> (prev_ s4)) s4)) (pre ++ x :: post).
Proof.
  intros L Hx Hh He Hlen. pose proof L as [Lh _ _ (_ & Lx2 & Lx3) _ _ Lp].
  set (s5 := set_prev_height _ _).
  assert (forall l, height_of s5 l = height_of s4 l) as H54 by done. split.
  - apply (LRep_ext s4 s5 (lift h x height)); try done.
    + apply linking_rep; [done|lia].
    + intros l Hl. rewrite H54. unfold lift. destruct (decide (l = x)) as [->|Hne].
      * by rewrite bool_decide_eq_true_2.
      * rewrite bool_decide_eq_false_2 by done. apply He. set_solver.
  - cbn [prev_ s5 set_prev_height set_prev kMaxHeight_]. by rewrite length_insert.
  - exists (pre ++ [x]), post. split; [by rewrite <- app_assoc|].
    split; cbn [prev_ prev_height_ max_height_ s5 set_prev_height set_prev].
    + rewrite tail_of_snoc. apply list_lookup_insert_eq. lia.
    + by destruct pre.
    + intros _. by rewrite tail_of_snoc, H54.
    + intros i Hi. rewrite list_lookup_insert_ne by lia. rewrite Lp by lia. do 2 f_equal.
      rewrite lvl_app. rewrite (lvl_ext (height_of s5) h i pre) by (intros; rewrite H54; apply He; set_solver).
      unfold lvl at 3. rewrite filter_cons_False; [by rewrite app_nil_r|]. rewrite H54. lia.
Qed.

Section Insert.
Context {Rng : Type} (rnd_Next : Rng -> Z * Rng).

(** [Insert] up to the linking. *)
Definition prepares (s : SkipList K) (key : K) (rnd : Rng) (x : loc) (height : nat)
    (s1 s2 s3 : SkipList K) (rnd' : Rng) : Prop :=
  locate cmp s key = Some s1 /\ assert_no_duplicate cmp s1 key = Some () /\
  RandomHeight rnd_Next s1 rnd = Some (height, rnd') /\ raise s1 height = Some s2 /\
  NewNode s2 key height = (x, s3).

Lemma Insert_prepares s key rnd x height s1 s2 s3 rnd' :
  prepares s key rnd x height s1 s2 s3 rnd' ->
  Insert cmp rnd_Next s key rnd =
    (s4 ← link_levels height 0 x s3;
     prev ← store_prev 0 x (prev_ s4);
     Some (set_prev_height height (set_prev prev s4), rnd')).
Proof.
  intros (E1 & E2 & E3 & E4 & E5). unfold Insert. rewrite E1. cbn [mbind option_bind]. rewrite E2.
  cbn [mbind option_bind]. rewrite E3. cbn [mbind option_bind]. rewrite E4. cbn [mbind option_bind].
  by rewrite E5.
Qed.

(** The node [x] of [height] is in state [s3] and not linked; the list is as before. *)
Record prepared (s : SkipList K) (key : K) (pre post : list loc) (x : loc) (height : nat)
    (s1 s2 s3 : SkipList K) : Prop := {
  e_before : Forall (before cmp s key) pre;
  e_behind : Forall (behind cmp s key) post;
  e_linking : Linking s3 (height_of s) pre x post 0;
  e_height : height_of s3 x = height /\ (1 <= height)%nat;
  e_key : key_of s3 x = Some key;
  e_prev : length (prev_ s3) = kMaxHeight_ s3;
  e_same l : l ∈ pre ++ post -> key_of s3 l = key_of s l /\ height_of s3 l = height_of s l;
  e_old : LRep cmp s1 (height_of s) (pre ++ post) /\ LRep cmp s2 (height_of s) (pre ++ post);
  e_nodes : nodes s1 = nodes s /\ nodes s2 = nodes s;
}.

Lemma LRep_raise s s2 lh xs :
  LRep cmp s lh xs -> nodes s2 = nodes s -> kMaxHeight_ s2 = kMaxHeight_ s ->
  (max_height_ s <= max_height_ s2 <= kMaxHeight_ s)%nat -> LRep cmp s2 lh xs.
Proof.
  intros [H1 H2 H3 H4 H5] En Ek Em. split; rewrite ?En, ?Ek; try done; try lia.
  - intros l Hl. destruct (H3 l Hl) as (? & ? & ?). split_and!; [done|lia|lia|done].
  - apply (sorted_keys s); [|done]. intros l _. unfold key_of. by rewrite En.
  - intros i Hi. eapply linked_frame; [|by apply H5]. intros l _. unfold Next. by rewrite En.
Qed.

Lemma insert_prepared s xs key rnd : Inv s xs -> ~ present s key xs ->
  exists pre post x height s1 s2 s3 rnd', xs = pre ++ post /\
    prepares s key rnd x height s1 s2 s3 rnd' /\ prepared s key pre post x height s1 s2 s3.
Proof.
  intros I Hnew. pose proof (i_rep _ _ I) as R. pose proof (r_height _ _ _ _ R) as Hmax.
  destruct (locate_ok s xs key I) as (prev & pre & post & El & -> & Hb & Hp & Hpred).
  destruct (RandomHeight_ok rnd_Next (set_prev prev s) rnd) as (height & rnd' & Er & Hh);
    [cbn; lia|]. cbn [kMaxHeight_ set_prev] in Hh.
  destruct (raise_ok s pre post prev height R Hpred Hh) as (prev' & Eraise & Hlen & Hprev).
  set (s2 := set_max_height _ _) in Eraise.
  destruct (NewNode s2 key height) as [x s3] eqn:EN.
  destruct (new_node _ _ _ _ _ _ _ EN) as (Hx & Hs3 & Hxh & Hxk & Hother).
  exists pre, post, x, height, (set_prev prev s), s2, s3, rnd'. split; [done|]. split.
  - split_and!; try done. apply (assert_no_duplicate_ok s _ pre post prev key R Hp); [|done].
    destruct Hpred as [_ Hpred]. rewrite Hpred by lia.
    by rewrite (lvl_0 cmp s _ _ pre R) by set_solver.
  - split; try done.
    + by apply (new_behind s key pre post).
    + by apply (linking_start s pre post prev' height key x s3).
    + split; [done|lia].
    + by rewrite Hs3.
    + intros l Hl. apply (Hother l 0%nat). intros ->.
      destruct (r_node _ _ _ _ R x Hl) as (_ & _ & n & Hn & _). congruence.
    + split; (apply (LRep_raise s); [done|done|done|cbn; lia]).
Qed.

Lemma Insert_ok s xs key rnd : Inv s xs -> ~ present s key xs ->
  exists pre post x s' rnd', xs = pre ++ post /\ Forall (before cmp s key) pre /\
    Forall (behind cmp s key) post /\
    Insert cmp rnd_Next s key rnd = Some (s', rnd') /\ Inv s' (pre ++ x :: post) /\
    key_of s' x = Some key /\ (forall l, l ∈ xs -> key_of s' l = key_of s l).
Proof.
  intros I Hnew. destruct (insert_prepared s xs key rnd I Hnew) as
    (pre & post & x & height & s1 & s2 & s3 & rnd' & -> & Hprep & [Hb Hp L [Hxh Hh] Hxk Hlen Hsame _ _]).
  rewrite (Insert_prepares _ _ _ _ _ _ _ _ _ Hprep).
  destruct (link_levels_ok _ pre x post height s3 0 L) as (s4 & -> & L4 & R4 & HK & HH); [lia|].
  cbn [mbind option_bind]. pose proof (k_height _ _ _ _ _ _ L4).
  assert (length (prev_ s4) = kMaxHeight_ s4) as Hlen4 by (rewrite R4; done).
  rewrite store_prev_ok by lia. cbn [mbind option_bind].
  eexists pre, post, x, _, rnd'. split_and!; [done..| |cbn; by rewrite <- Hxk; apply HK|].
  - apply (insert_done s4 (height_of s)); [done|by rewrite HH|done| |done].
    intros l Hl. rewrite HH. by apply Hsame.
  - intros l Hl. transitivity (key_of s3 l); [apply HK|by apply Hsame].
Qed.

Lemma Insert_duplicate s xs key rnd : Inv s xs -> present s key xs ->
  Insert cmp rnd_Next s key rnd = None.
Proof.
  intros I Hin. pose proof (i_rep _ _ I) as R. pose proof (r_height _ _ _ _ R).
  destruct (locate_ok s xs key I) as (prev & pre & post & El & -> & Hb & Hp & [_ Hpred]).
  unfold Insert. rewrite El. cbn [mbind option_bind].
  rewrite (assert_no_duplicate_fails s _ pre post prev key R Hb Hp); [done| |done].
  rewrite Hpred by lia. by rewrite (lvl_0 cmp s _ _ pre R) by set_solver.
Qed.

End Insert.

End Rep.
