(* ===== verification/SkipListMain.v ===== *)
(** * The skip list: what it promises

    A list of keys, sorted. Searches and the iterator are positions in this list, an insertion
    is the insertion in order; a reader between two stores of an insertion sees the list
    before it or after it. *)

From stdpp Require Import sorting.
From S2P Require Import Prelude.
From S2P Require Import SkipList.
From S2P Require Import SkipListSearch.
From S2P Require Import SkipListInsert.

(** ** The specification *)

Section Spec.
Context {K : Type} (cmp : K -> K -> Z).

Fixpoint insert_key (key : K) (ks : list K) : list K :=
  match ks with
  | [] => [key]
  | k :: ks => if cmp k key <? 0 then k :: insert_key key ks else key :: k :: ks
  end.

(** The number of keys smaller than [key], and of those up to it. *)
Definition rank_lt (key : K) (ks : list K) : nat := length (filter (fun k => cmp k key < 0) ks).
Definition rank_le (key : K) (ks : list K) : nat := length (filter (fun k => cmp k key <= 0) ks).

Definition mem_key (key : K) (ks : list K) : bool := existsb (fun k => cmp k key =? 0) ks.

(** The nodes [xs] have the keys [ks]. *)
Definition labelled (s : SkipList K) (xs : list loc) (ks : list K) : Prop :=
  Forall2 (fun l k => key_of s l = Some k) xs ks.

(** What a reader sees. *)
Definition shows (s : SkipList K) (ks : list K) : Prop :=
  exists lh xs, LRep cmp s lh xs /\ labelled s xs ks.

(** What the list is between two insertions. *)
Definition holds (s : SkipList K) (ks : list K) : Prop :=
  exists xs, Inv cmp s xs /\ labelled s xs ks.

(** The states of the linking, one after every store. *)
Fixpoint link_trace (n i : nat) (x : loc) (s : SkipList K) : list (SkipList K) :=
  match n with
  | O => []
  | S n =>
      match (p ← prev_ s !! i; next ← Next s p i; s1 ← SetNext s x i next;
             s2 ← SetNext s1 p i (Some x); Some (s1, s2)) with
      | Some (s1, s2) => s1 :: s2 :: link_trace n (S i) x s2
      | None => []
      end
  end.

(** The states of an insertion that a reader can see: after the predecessors are known, after
    the height of the list is raised, after the new node is made, and after every store. *)
Definition insert_trace {Rng : Type} (rnd_Next : Rng -> Z * Rng) (s : SkipList K) (key : K)
    (rnd : Rng) : option (list (SkipList K)) :=
  s1 ← locate cmp s key;
  _ ← assert_no_duplicate cmp s1 key;
  '(height, _) ← RandomHeight rnd_Next s1 rnd;
  s2 ← raise s1 height;
  let '(x, s3) := NewNode s2 key height in
  Some (s1 :: s2 :: s3 :: link_trace height 0 x s3).

End Spec.

Section Rep.
Context {K : Type} (cmp : K -> K -> Z) `{!CompareLaws cmp}.

Lemma labelled_app_inv (s : SkipList K) xs1 xs2 ks : labelled s (xs1 ++ xs2) ks ->
  exists ks1 ks2, ks = ks1 ++ ks2 /\ labelled s xs1 ks1 /\ labelled s xs2 ks2.
Proof. intros (ks1 & ks2 & H1 & H2 & ->)%Forall2_app_inv_l. eauto. Qed.

(** A property of the nodes is one of their keys. *)
Lemma labelled_forall (s : SkipList K) xs ks (P : K -> Prop) :
  labelled s xs ks -> Forall (fun l => exists k, key_of s l = Some k /\ P k) xs -> Forall P ks.
Proof.
  induction 1 as [|l k xs ks Hk _ IH]; intros Hf; constructor; inversion Hf; subst; [|auto].
  destruct H1 as (k' & Hk' & ?). congruence.
Qed.

Lemma labelled_lookup (s : SkipList K) xs ks l : labelled s xs ks -> l ∈ xs ->
  exists k, k ∈ ks /\ key_of s l = Some k.
Proof.
  intros Hl (i & Hi)%list_elem_of_lookup. destruct (Forall2_lookup_l _ _ _ i l Hl Hi) as (k & Hk & ?).
  exists k. split; [|done]. by apply list_elem_of_lookup_2 in Hk.
Qed.

Lemma labelled_lookup_r (s : SkipList K) xs ks k : labelled s xs ks -> k ∈ ks ->
  exists l, l ∈ xs /\ key_of s l = Some k.
Proof.
  intros Hl (i & Hi)%list_elem_of_lookup. destruct (Forall2_lookup_r _ _ _ i k Hl Hi) as (l & Hk & ?).
  exists l. split; [|done]. by apply list_elem_of_lookup_2 in Hk.
Qed.

Lemma present_iff s xs ks key : labelled s xs ks ->
  present cmp s key xs <-> exists k, k ∈ ks /\ cmp k key = 0.
Proof.
  intros Hl. split.
  - intros (l & k & Hin & Hk & Heq). destruct (labelled_lookup s xs ks l Hl Hin) as (k' & Hk' & E).
    simplify_eq. eauto.
  - intros (k & Hin & Heq). destruct (labelled_lookup_r s xs ks k Hl Hin) as (l & Hin' & E).
    by exists l, k.
Qed.

Lemma mem_key_iff key ks : mem_key cmp key ks = true <-> exists k, k ∈ ks /\ cmp k key = 0.
Proof.
  unfold mem_key. rewrite existsb_exists. split; intros (k & Hin & E); exists k.
  - rewrite list_elem_of_In. split; [done|]. by apply Z.eqb_eq.
  - rewrite <- list_elem_of_In. split; [done|]. by apply Z.eqb_eq.
Qed.

(** The place of a new key. *)
Lemma insert_key_at key ks1 ks2 :
  Forall (fun k => cmp k key < 0) ks1 -> Forall (fun k => 0 < cmp k key) ks2 ->
  insert_key cmp key (ks1 ++ ks2) = ks1 ++ key :: ks2.
Proof.
  intros H1 H2. induction H1 as [|k ks1 Hk _ IH]; cbn [app insert_key].
  - destruct H2 as [|k ks2 Hk _]; [done|]. cbn [insert_key]. by rewrite (proj2 (Z.ltb_ge _ _)) by lia.
  - rewrite (proj2 (Z.ltb_lt _ _) Hk). by rewrite IH.
Qed.

Lemma filter_split {A} (P : A -> Prop) `{!forall x, Decision (P x)} (l1 l2 : list A) :
  Forall P l1 -> Forall (fun x => ~ P x) l2 -> length (filter P (l1 ++ l2)) = length l1.
Proof.
  intros H1 H2. rewrite filter_app, length_app.
  assert (filter P l2 = []) as ->.
  { induction H2; [done|]. by rewrite filter_cons_False. }
  induction H1 as [|x l1 Hx _ IH]; [done|]. rewrite filter_cons_True by done. cbn [length] in *. lia.
Qed.

(** ** Searching *)

Lemma lookup_split_len (xs : list loc) i n :
  xs !! i = Some n -> exists a b, xs = a ++ n :: b /\ length a = i.
Proof.
  intros H. exists (take i xs), (drop (S i) xs). split; [by rewrite take_drop_middle|].
  apply length_take_le. apply lookup_lt_Some in H. lia.
Qed.

Lemma lookup_after (a b : list loc) : (a ++ b) !! length a = head b.
Proof. rewrite lookup_app_r by lia. rewrite Nat.sub_diag. by destruct b. Qed.

Lemma Seek_rank s lh xs ks key :
  LRep cmp s lh xs -> labelled s xs ks -> Seek cmp s key = Some (xs !! rank_lt cmp key ks).
Proof.
  intros R Hl. destruct (rep_cut cmp s lh xs key R) as (pre & post & -> & Hb & Hp).
  unfold Seek. rewrite (FindGreaterOrEqual_ok cmp s lh key pre post R Hb Hp).
  destruct (labelled_app_inv s pre post ks Hl) as (ks1 & ks2 & -> & H1 & H2).
  unfold rank_lt. rewrite filter_split.
  - rewrite <- (Forall2_length _ _ _ H1). by rewrite lookup_after.
  - by apply (labelled_forall s pre ks1).
  - apply (labelled_forall s post ks2); [done|]. eapply Forall_impl; [exact Hp|].
    intros l (k & Hk & ?). exists k. split; [done|lia].
Qed.

Lemma SeekForPrev_rank s lh xs ks key :
  LRep cmp s lh xs -> labelled s xs ks ->
  SeekForPrev cmp s key = Some (last (take (rank_le cmp key ks) xs)).
Proof.
  intros R Hl. destruct (SeekForPrev_ok cmp s lh xs key R) as (a & b & -> & Ha & Hb & ->).
  destruct (labelled_app_inv s a b ks Hl) as (ks1 & ks2 & -> & H1 & H2).
  unfold rank_le. rewrite filter_split.
  - rewrite <- (Forall2_length _ _ _ H1). by rewrite take_app_length.
  - by apply (labelled_forall s a ks1).
  - apply (labelled_forall s b ks2); [done|]. eapply Forall_impl; [exact Hb|].
    intros l (k & Hk & ?). exists k. split; [done|lia].
Qed.

Lemma Contains_mem s lh xs ks key :
  LRep cmp s lh xs -> labelled s xs ks -> Contains cmp s key = Some (mem_key cmp key ks).
Proof.
  intros R Hl. destruct (Contains_ok cmp s lh xs key R) as (b & -> & Hb). f_equal.
  apply eq_iff_eq_true. rewrite Hb, mem_key_iff. by apply (present_iff s xs ks key).
Qed.

(** C33: in every state a reader can see, also in the middle of an insertion, the searches and
    the iterator return, none of the assertions of the search loops fails, and they are
    positions in the sorted list of the keys: the first and the last node; the node after and
    the node before a node; [Contains] says whether there is an equal key, [Seek] goes to the
    first node whose key is not smaller than the target and [SeekForPrev] to the last one
    whose key is not greater. *)
Theorem skiplist_searches s ks (Hs : shows cmp s ks) :
  exists xs, labelled s xs ks /\
    SeekToFirst s = Some (head xs) /\ SeekToLast s = Some (last xs) /\
    (forall i n, xs !! i = Some n ->
       Iterator_Next s (Some n) = Some (xs !! S i) /\
       Iterator_Prev cmp s (Some n) = Some (last (take i xs))) /\
    forall key,
      Contains cmp s key = Some (mem_key cmp key ks) /\
      Seek cmp s key = Some (xs !! rank_lt cmp key ks) /\
      SeekForPrev cmp s key = Some (last (take (rank_le cmp key ks) xs)).
Proof.
  destruct Hs as (lh & xs & R & Hl). exists xs. split; [done|].
  split; [by apply (SeekToFirst_ok cmp s lh)|]. split; [by apply (SeekToLast_ok cmp s lh)|]. split.
  - intros i n Hn. destruct (lookup_split_len xs i n Hn) as (a & b & -> & <-).
    rewrite take_app_length. split; [|by apply (Iterator_Prev_ok cmp s lh a n b)].
    rewrite (Iterator_Next_ok cmp s lh a n b R). f_equal.
    rewrite (lookup_app_r a) by lia. rewrite Nat.sub_succ_l, Nat.sub_diag by done. by destruct b.
  - intros key. split; [by apply (Contains_mem s lh xs)|].
    split; [by apply (Seek_rank s lh xs)|by apply (SeekForPrev_rank s lh xs)].
Qed.

(** ** Inserting *)

Lemma labelled_same (s s' : SkipList K) xs ks :
  (forall l, l ∈ xs -> key_of s' l = key_of s l) -> labelled s xs ks -> labelled s' xs ks.
Proof.
  intros Hk Hl. induction Hl as [|l k xs ks E _ IH]; constructor.
  - by rewrite Hk by set_solver.
  - apply IH. set_solver.
Qed.

(** The keys once the node of the new key is in its place. *)
Lemma labelled_insert s s' pre x post ks key :
  labelled s (pre ++ post) ks -> Forall (before cmp s key) pre -> Forall (behind cmp s key) post ->
  key_of s' x = Some key -> (forall l, l ∈ pre ++ post -> key_of s' l = key_of s l) ->
  labelled s' (pre ++ x :: post) (insert_key cmp key ks).
Proof.
  intros Hl Hb Hp Hx Hsame. destruct (labelled_app_inv s pre post ks Hl) as (ks1 & ks2 & -> & H1 & H2).
  rewrite insert_key_at by (by eapply labelled_forall).
  apply Forall2_app; [|constructor; [done|]]; (apply (labelled_same s s'); [|done]);
    intros l Hin; apply Hsame; set_solver.
Qed.

Lemma present_dec s xs ks key : labelled s xs ks ->
  mem_key cmp key ks = false -> ~ present cmp s key xs.
Proof. intros Hl Hm Hp%(present_iff s xs ks key Hl)%mem_key_iff. congruence. Qed.

Lemma holds_insert {Rng} (rnd_Next : Rng -> Z * Rng) s ks key rnd :
  holds cmp s ks -> mem_key cmp key ks = false ->
  exists s' rnd', Insert cmp rnd_Next s key rnd = Some (s', rnd') /\
    holds cmp s' (insert_key cmp key ks).
Proof.
  intros (xs & I & Hl) Em.
  destruct (Insert_ok cmp rnd_Next s xs key rnd I) as
    (pre & post & x & s' & rnd' & -> & Hb & Hp & E & I' & Hx & Hsame); [by eapply present_dec|].
  exists s', rnd'. split; [done|]. exists (pre ++ x :: post). split; [done|].
  by eapply labelled_insert.
Qed.

(** C5: an insertion refines the insertion into a sorted list, whatever height the random
    generator chooses: for a key that is not in the list, [Insert] returns (no null pointer,
    no index outside of [prev_] or of a node, no failed assertion, also on its fast path for
    ascending keys) and leaves a list with the keys in order and its invariant, that of
    [prev_] included. For a key that is in the list it fails the assertion about
    duplicates. *)
Theorem skiplist_insert {Rng} (rnd_Next : Rng -> Z * Rng) s ks key rnd (Hs : holds cmp s ks) :
  if mem_key cmp key ks then Insert cmp rnd_Next s key rnd = None
  else exists s' rnd', Insert cmp rnd_Next s key rnd = Some (s', rnd') /\
    holds cmp s' (insert_key cmp key ks).
Proof.
  destruct (mem_key cmp key ks) eqn:Em; [|by apply holds_insert].
  destruct Hs as (xs & I & Hl). apply (Insert_duplicate cmp rnd_Next s xs key rnd I).
  apply (present_iff s xs ks key Hl). by apply mem_key_iff.
Qed.

(** ** Readers during an insertion *)

(** A state of the linking in which [x] is linked at least on level 0, with the keys of [s]. *)
Definition linked_state (s : SkipList K) h pre x post (t : SkipList K) : Prop :=
  exists j, (1 <= j)%nat /\ Linking cmp t h pre x post j /\ forall l, key_of t l = key_of s l.

Lemma link_round s h pre x post j n :
  Linking cmp s h pre x post j -> (j < height_of s x)%nat ->
  exists s1 s2, link_trace (S n) j x s = s1 :: s2 :: link_trace n (S j) x s2 /\
    link_levels (S n) j x s = link_levels n (S j) x s2 /\
    Linking cmp s1 h pre x post j /\ Linking cmp s2 h pre x post (S j) /\
    (forall l, key_of s1 l = key_of s l) /\ (forall l, key_of s2 l = key_of s l) /\
    (forall l, height_of s2 l = height_of s l) /\ s2 = set_nodes (nodes s2) s.
Proof.
  intros L Hj. pose proof (k_new _ _ _ _ _ _ _ L) as (_ & _ & Hx).
  destruct (linking_prev cmp s h pre x post j L Hj) as (Hnext & _).
  destruct (linking_step cmp s h pre x post j L Hj) as (s1 & s2 & E1 & E2 & L1 & L2 & R & HK & HH).
  exists s1, s2. cbn [link_trace link_levels]. rewrite (k_prev _ _ _ _ _ _ _ L j) by lia.
  cbn [mbind option_bind]. rewrite Hnext. cbn [mbind option_bind]. rewrite E1.
  cbn [mbind option_bind]. rewrite E2. cbn [mbind option_bind]. split_and!; try done.
  destruct (SetNext_ok s x j (head (lvl h j post)) Hj) as (s1' & E1' & P).
  rewrite E1 in E1'. injection E1' as <-. apply P.
Qed.

Lemma link_trace_ok h pre x post n : forall s j,
  Linking cmp s h pre x post j -> (1 <= j)%nat -> (j + n <= height_of s x)%nat ->
  Forall (linked_state s h pre x post) (link_trace n j x s) /\
  link_levels n j x s = Some (default s (last (link_trace n j x s))).
Proof.
  induction n as [|n IH]; intros s j L Hj Hn; [done|].
  destruct (link_round s h pre x post j n L ltac:(lia)) as
    (s1 & s2 & -> & -> & L1 & L2 & HK1 & HK2 & HH & _).
  destruct (IH s2 (S j) L2 ltac:(lia)) as [Hf ->]; [rewrite HH; lia|]. split.
  - constructor; [by exists j|]. constructor; [exists (S j); split_and!; [lia|done|done]|].
    eapply Forall_impl; [exact Hf|]. intros t (j' & Hj' & L' & HK'). exists j'.
    split_and!; [done|done|]. intros l. by rewrite HK'.
  - rewrite !last_cons. by destruct (last (link_trace n (S j) x s2)).
Qed.

Lemma insert_trace_prepares {Rng} (rnd_Next : Rng -> Z * Rng) s key rnd x height s1 s2 s3 rnd' :
  prepares cmp rnd_Next s key rnd x height s1 s2 s3 rnd' ->
  insert_trace cmp rnd_Next s key rnd = Some (s1 :: s2 :: s3 :: link_trace height 0 x s3).
Proof.
  intros (E1 & E2 & E3 & E4 & E5). unfold insert_trace. rewrite E1. cbn [mbind option_bind].
  rewrite E2. cbn [mbind option_bind]. rewrite E3. cbn [mbind option_bind]. rewrite E4.
  cbn [mbind option_bind]. by rewrite E5.
Qed.

(** What is seen in the states before and after the new node is published. *)
Lemma shows_old s h pre x post ks t :
  Linking cmp t h pre x post 0 -> labelled s (pre ++ post) ks ->
  (forall l, l ∈ pre ++ post -> key_of t l = key_of s l) -> shows cmp t ks.
Proof.
  intros L Hl Hk. exists h, (pre ++ post). split; [by eapply linking_rep0|].
  by apply (labelled_same s t).
Qed.

Lemma shows_new s s3 key pre x post height s1 s2 h ks t :
  prepared cmp s key pre post x height s1 s2 s3 -> labelled s (pre ++ post) ks ->
  linked_state s3 h pre x post t -> shows cmp t (insert_key cmp key ks).
Proof.
  intros E Hl (j & Hj & L & HK). exists (lift h x j), (pre ++ x :: post).
  split; [by apply linking_rep|].
  apply (labelled_insert s t); [done|by destruct E|by destruct E|rewrite HK; by destruct E|].
  intros l Hin. rewrite HK. by apply (e_same _ _ _ _ _ _ _ _ _ _ E).
Qed.

(** C8: readers take no lock. In every state of an insertion, after each single store, the list
    a reader sees is the one before the insertion or the one after it: up to the store that
    publishes the new node on level 0 it is the old one, from then on the new one, and the
    last state is the one [Insert] returns, up to the array [prev_] of the writer. *)
Theorem skiplist_readers {Rng} (rnd_Next : Rng -> Z * Rng) s ks key rnd
    (Hs : holds cmp s ks) (Hnew : mem_key cmp key ks = false) :
  exists old new s' rnd',
    insert_trace cmp rnd_Next s key rnd = Some (old ++ new) /\
    Forall (fun t => shows cmp t ks) old /\
    Forall (fun t => shows cmp t (insert_key cmp key ks)) new /\
    Insert cmp rnd_Next s key rnd = Some (s', rnd') /\
    exists t, last new = Some t /\ nodes t = nodes s' /\ max_height_ t = max_height_ s'.
Proof.
  destruct Hs as (xs & I & Hl).
  destruct (insert_prepared cmp rnd_Next s xs key rnd I ltac:(by eapply present_dec)) as
    (pre & post & x & height & s1 & s2 & s3 & rnd' & -> & Hrun & E).
  pose proof E as [_ _ L [Hxh Hh] _ Hlen Hsame [R1 R2] [N1 N2]]. destruct height as [|n]; [lia|].
  destruct (link_round s3 _ pre x post 0 n L ltac:(lia)) as
    (t1 & t2 & Etr & Ell & L1 & L2 & HK1 & HK2 & HH & Rt2).
  destruct (link_trace_ok _ pre x post n t2 1 L2 ltac:(lia)) as [Hf Elast]; [rewrite HH; lia|].
  destruct (link_levels_ok cmp _ pre x post n t2 1 L2) as (s4 & E4 & L4 & R4 & _); [rewrite HH; lia|].
  pose proof (k_height _ _ _ _ _ _ _ L4).
  assert (length (prev_ s4) = kMaxHeight_ s4) as Hlen4
    by (rewrite R4; cbn; by rewrite Rt2).
  exists [s1; s2; s3; t1], (t2 :: link_trace n 1 x t2).
  eexists _, _. rewrite (insert_trace_prepares _ _ _ _ _ _ _ _ _ _ Hrun), Etr,
    (Insert_prepares _ _ _ _ _ _ _ _ _ _ _ Hrun), Ell, E4.
  cbn [mbind option_bind]. rewrite store_prev_ok by lia. cbn [mbind option_bind].
  rewrite E4 in Elast. injection Elast as ->. split_and!; [done| | |done|].
  - assert (forall t, LRep cmp t (height_of s) (pre ++ post) -> nodes t = nodes s -> shows cmp t ks) as Hst.
    { intros t Rt Nt. exists (height_of s), (pre ++ post). split; [done|].
      apply (labelled_same s t); [|done]. intros l _. unfold key_of. by rewrite Nt. }
    repeat constructor; [by apply Hst|by apply Hst|..]; (eapply (shows_old s); [done|done|]);
      intros l Hin; rewrite ?HK1; by apply Hsame.
  - constructor.
    + apply (shows_new s s3 key pre x post (S n) s1 s2 (height_of s)); [done|done|].
      exists 1%nat. split_and!; [lia|done|done].
    + eapply Forall_impl; [exact Hf|]. intros t (j & Hj & Lj & HKj).
      apply (shows_new s s3 key pre x post (S n) s1 s2 (height_of s)); [done|done|].
      exists j. split_and!; [done|done|]. intros l. by rewrite HKj.
  - exists (default t2 (last (link_trace n 1 x t2))). split_and!; [|done|done].
    rewrite last_cons. by destruct (last (link_trace n 1 x t2)).
Qed.

(** ** From the constructor on *)

Lemma new_holds zero max_height branching_factor s :
  SkipList_new zero max_height branching_factor = Some s -> holds cmp s [].
Proof.
  unfold SkipList_new, check. intros H.
  destruct ((max_height >? 0) && _) eqn:E1; cbn [mbind option_bind] in H; [|done].
  destruct ((branching_factor >? 0) && _); cbn [mbind option_bind] in H; [|done].
  destruct ((kMaxNext + 1) / _ >? 0); cbn [mbind option_bind] in H; [|done]. injection H as <-.
  apply andb_true_iff in E1 as [E1 E2]. apply Z.eqb_eq in E2. rewrite E2, Z.gtb_lt in *.
  set (h := Z.to_nat max_height). assert (1 <= h)%nat by (unfold h; lia).
  exists []. split; [|constructor]. split; cbn [prev_ kMaxHeight_]; [|apply length_replicate|].
  - split; cbn [nodes kMaxHeight_ max_height_]; [lia| |by intros l ?%elem_of_nil|constructor|].
    + eexists. split; [apply lookup_singleton_eq|]. apply length_replicate.
    + intros i Hi. cbn [lvl filter list_filter linked]. unfold Next. cbn [nodes].
      rewrite lookup_singleton_eq. cbn [mbind option_bind node_next]. by apply lookup_replicate_2.
  - exists [], []. split; [done|]. split; cbn [prev_ prev_height_ max_height_]; try done.
    + apply lookup_replicate_2. lia.
    + intros i Hi. lia.
Qed.

Lemma insert_key_perm key ks : insert_key cmp key ks ≡ₚ key :: ks.
Proof.
  induction ks as [|k ks IH]; cbn [insert_key]; [done|]. destruct (_ <? 0); [|done].
  rewrite IH. constructor.
Qed.

Lemma mem_key_perm key ks ks' : ks ≡ₚ ks' -> mem_key cmp key ks = mem_key cmp key ks'.
Proof. intros Hp. apply eq_iff_eq_true. rewrite !mem_key_iff. by setoid_rewrite Hp. Qed.

Lemma mem_key_flip k k' ks : mem_key cmp k (k' :: ks) = mem_key cmp k' [k] || mem_key cmp k ks.
Proof.
  cbn [mem_key existsb]. rewrite orb_false_r. f_equal. apply eq_iff_eq_true.
  rewrite !Z.eqb_eq. pose proof (compare_flip k k'). lia.
Qed.

Lemma labelled_sorted s xs ks :
  labelled s xs ks -> StronglySorted (key_lt cmp s) xs -> StronglySorted (fun a b => cmp a b < 0) ks.
Proof.
  induction 1 as [|l k xs ks Hk Hl IH]; intros Hs; [constructor|].
  apply StronglySorted_inv in Hs as [Hs Hx]. constructor; [by apply IH|].
  apply (labelled_forall s xs ks _ Hl). eapply Forall_impl; [exact Hx|].
  intros y (k1 & k2 & E1 & E2 & ?). simplify_eq. eauto.
Qed.

Section Use.
Context {Rng : Type} (rnd_Next : Rng -> Z * Rng).

(** A client: the keys are inserted one after the other, then the iterator reads them. *)
Fixpoint insert_all (keys : list K) (s : SkipList K) (rnd : Rng) : option (SkipList K * Rng) :=
  match keys with
  | [] => Some (s, rnd)
  | key :: keys => '(s, rnd) ← Insert cmp rnd_Next s key rnd; insert_all keys s rnd
  end.

Fixpoint read_all (fuel : nat) (s : SkipList K) (node_ : ptr) : option (list K) :=
  if negb (Valid node_) then Some []
  else
    match fuel with
    | O => None
    | S fuel =>
        k ← Iterator_key s node_;
        n ← Iterator_Next s node_;
        ks ← read_all fuel s n;
        Some (k :: ks)
    end.

Fixpoint distinct (keys : list K) : bool :=
  match keys with [] => true | k :: keys => negb (mem_key cmp k keys) && distinct keys end.

Lemma insert_all_ok keys : forall s ks rnd,
  holds cmp s ks -> distinct keys = true ->
  (forall k, k ∈ keys -> mem_key cmp k ks = false) ->
  exists s' rnd' ks', insert_all keys s rnd = Some (s', rnd') /\ holds cmp s' ks' /\ ks' ≡ₚ keys ++ ks.
Proof.
  induction keys as [|key keys IH]; intros s ks rnd Hs Hd Hnew; cbn [insert_all].
  { by exists s, rnd, ks. }
  cbn [distinct] in Hd. apply andb_true_iff in Hd as [Hk%negb_true_iff Hd].
  destruct (holds_insert rnd_Next s ks key rnd Hs) as (s1 & rnd1 & -> & H1); [apply Hnew; set_solver|].
  cbn [mbind option_bind].
  destruct (IH s1 (insert_key cmp key ks) rnd1 H1 Hd) as (s' & rnd' & ks' & -> & Hs' & Hp).
  - intros k Hin. rewrite (mem_key_perm k _ _ (insert_key_perm key ks)), mem_key_flip.
    rewrite (Hnew k) by set_solver. rewrite orb_false_r. apply not_true_iff_false.
    intros Hm%mem_key_iff. destruct Hm as (k' & ->%list_elem_of_singleton & Heq).
    apply not_true_iff_false in Hk. apply Hk. apply mem_key_iff. eauto.
  - exists s', rnd', ks'. split_and!; [done|done|]. rewrite Hp, (insert_key_perm key ks).
    by rewrite <- Permutation_middle.
Qed.

Lemma read_all_ok s lh b : forall a ks,
  LRep cmp s lh (a ++ b) -> labelled s b ks -> read_all (length b) s (head b) = Some ks.
Proof.
  induction b as [|n b IH]; intros a ks R Hl.
  { by inversion Hl. }
  destruct (Forall2_cons_inv_l _ _ _ _ Hl) as (k & ks' & Hk & Hl' & ->).
  cbn [length head read_all]. unfold Valid. rewrite bool_decide_eq_true_2 by done. cbn [negb].
  unfold Iterator_key. cbn [mbind option_bind]. rewrite Hk. cbn [mbind option_bind].
  rewrite (Iterator_Next_ok cmp s lh a n b R). cbn [mbind option_bind].
  rewrite (IH (a ++ [n]) ks'); [done| |done]. by rewrite <- app_assoc.
Qed.

(** the list sorts. Any sequence of keys no two of which compare equal can be inserted into
    a new list, of any maximal height and branching factor that the constructor accepts and
    with any random numbers, and the iterator then reads exactly these keys in strictly
    ascending order. *)
Theorem skiplist_sorts zero max_height branching_factor s keys rnd
    (Hn : SkipList_new zero max_height branching_factor = Some s) (Hd : distinct keys = true) :
  exists s' rnd' node_ ks, insert_all keys s rnd = Some (s', rnd') /\
    SeekToFirst s' = Some node_ /\ read_all (length keys) s' node_ = Some ks /\
    ks ≡ₚ keys /\ StronglySorted (fun a b => cmp a b < 0) ks.
Proof.
  destruct (insert_all_ok keys s [] rnd (new_holds _ _ _ _ Hn) Hd) as
    (s' & rnd' & ks & E & (xs & I & Hl) & Hp); [done|].
  exists s', rnd', (head xs), ks. pose proof (i_rep _ _ _ I) as R. rewrite app_nil_r in Hp.
  split_and!; [done|by apply (SeekToFirst_ok cmp s' _ xs R)| |done|].
  - rewrite <- Hp, <- (Forall2_length _ _ _ Hl). by apply (read_all_ok s' _ xs [] ks R).
  - apply (labelled_sorted s' xs ks Hl), R.
Qed.

End Use.

Lemma holds_shows s ks : holds cmp s ks -> shows cmp s ks.
Proof. intros (xs & I & Hl). exists (height_of s), xs. split; [apply I|done]. Qed.

End Rep.

(** ** An instance: integer keys and a generator that alternates *)

Instance sub_laws : CompareLaws Z.sub.
Proof. split; intros; lia. Qed.

Definition alternate (n : nat) : Z * nat := (if Nat.even n then 0 else kMaxNext, S n).

(** The list with the keys 1, 3 and 5. *)
Lemma three_keys : exists s, holds Z.sub s [1; 3; 5].
Proof.
  destruct (SkipList_new 0 12 4) as [s|] eqn:E; [|done]. apply (new_holds Z.sub) in E.
  destruct (holds_insert Z.sub alternate s [] 3 0%nat E eq_refl) as (s1 & r1 & _ & H1).
  destruct (holds_insert Z.sub alternate s1 [3] 5 r1 H1 eq_refl) as (s2 & r2 & _ & H2).
  destruct (holds_insert Z.sub alternate s2 [3; 5] 1 r2 H2 eq_refl) as (s3 & r3 & _ & H3).
  by exists s3.
Qed.

Lemma skiplist_searches_witness : exists s xs,
  labelled s xs [1; 3; 5] /\ Contains Z.sub s 3 = Some true /\ Contains Z.sub s 4 = Some false /\
  Seek Z.sub s 2 = Some (xs !! 1%nat) /\ SeekForPrev Z.sub s 0 = Some None /\
  SeekForPrev Z.sub s 9 = SeekToLast s.
Proof.
  destruct three_keys as [s Hs].
  destruct (skiplist_searches Z.sub s [1; 3; 5] (holds_shows Z.sub s _ Hs)) as
    (xs & Hl & _ & Hlast & _ & Hkey).
  exists s, xs. destruct (Hkey 3) as (H3 & _). destruct (Hkey 4) as (H4 & _).
  destruct (Hkey 2) as (_ & H2 & _). destruct (Hkey 0) as (_ & _ & H0).
  destruct (Hkey 9) as (_ & _ & H9). split_and!; try done.
  rewrite H9, Hlast. do 2 f_equal. apply take_ge. rewrite (Forall2_length _ _ _ Hl). done.
Defined.

Lemma skiplist_insert_witness : exists s,
  (exists s' rnd', Insert Z.sub alternate s 4 0%nat = Some (s', rnd') /\
     holds Z.sub s' [1; 3; 4; 5]) /\
  Insert Z.sub alternate s 3 0%nat = None.
Proof.
  destruct three_keys as [s Hs]. exists s. split.
  - exact (skiplist_insert Z.sub alternate s [1; 3; 5] 4 0%nat Hs).
  - exact (skiplist_insert Z.sub alternate s [1; 3; 5] 3 0%nat Hs).
Defined.

Lemma skiplist_readers_witness : exists s old new,
  insert_trace Z.sub alternate s 4 0%nat = Some (old ++ new) /\
  Forall (fun t => shows Z.sub t [1; 3; 5]) old /\
  Forall (fun t => shows Z.sub t [1; 3; 4; 5]) new.
Proof.
  destruct three_keys as [s Hs].
  destruct (skiplist_readers Z.sub alternate s [1; 3; 5] 4 0%nat Hs eq_refl) as
    (old & new & s' & rnd' & H1 & H2 & H3 & _).
  by exists s, old, new.
Defined.

Lemma skiplist_sorts_witness : exists s s' rnd' node_ ks,
  SkipList_new 0 12 4 = Some s /\ insert_all Z.sub alternate [4; 1; 7; 2] s 0%nat = Some (s', rnd') /\
  SeekToFirst s' = Some node_ /\ read_all 4 s' node_ = Some ks /\
  ks ≡ₚ [4; 1; 7; 2] /\ StronglySorted (fun a b => a - b < 0) ks.
Proof.
  eexists. destruct (skiplist_sorts Z.sub alternate 0 12 4 _ [4; 1; 7; 2] 0%nat eq_refl eq_refl) as
    (s' & rnd' & node_ & ks & H).
  exists s', rnd', node_, ks. split; [reflexivity|exact H].
Defined.

(** The model runs. *)
Example sort_runs :
  (s ← SkipList_new 0 12 4;
   '(s, _) ← insert_all Z.sub alternate [4; 1; 7; 2; 9; 3] s 0%nat;
   n ← SeekToFirst s; read_all 6 s n) = Some [1; 2; 3; 4; 7; 9].
Proof. vm_compute. reflexivity. Qed.
