(* ===== verification/InternalKey.v ===== *)
(** * Internal keys: order, construction, range tombstones

    The comparator of internal keys, the class [InternalKey], [RangeTombstone] and
    [PredecessorWALInfo] of [db/dbformat.h]. The comparator of user keys is a parameter. The
    functions that append the parts of a key are declared in the header and defined outside of
    the repository: they are the operations of the class [KeyAppender], their documented
    formats its laws. So is the value type for seeking, of which [SetMinPossibleForUserKey] needs
    that no type of an entry is higher. *)

From S2P Require Import Prelude.
From S2P Require Import Status.
From S2P Require Import Slice.
From S2P Require Import Coding.
From S2P Require Import DbFormat.
From S2P Require Import SkipListSearch.

(** ** The comparator *)

Section Comparator.
Context (user_compare : Slice -> Slice -> Z).

(** The tie break of the comparators: larger numbers first. *)
Definition by_footer (r anum bnum : Z) : Z :=
  if r =? 0 then if anum >? bnum then -1 else if anum <? bnum then 1 else r else r.

Definition IKCompare (akey bkey : Slice) : Z :=
  let r := user_compare (ExtractUserKey akey) (ExtractUserKey bkey) in
  let anum := DecodeFixed64 (zdrop (size akey - kNumInternalBytes) akey) in
  let bnum := DecodeFixed64 (zdrop (size bkey - kNumInternalBytes) bkey) in
  by_footer r anum bnum.

Definition IKEqual (a b : Slice) : bool := IKCompare a b =? 0.

Definition CompareKeySeq (akey bkey : Slice) : Z :=
  let r := user_compare (ExtractUserKey akey) (ExtractUserKey bkey) in
  let anum := Z.shiftr (DecodeFixed64 (zdrop (size akey - kNumInternalBytes) akey)) 8 in
  let bnum := Z.shiftr (DecodeFixed64 (zdrop (size bkey - kNumInternalBytes) bkey)) 8 in
  by_footer r anum bnum.

Definition CompareKeySeq_parsed (a : ParsedInternalKey) (b : Slice) : Z :=
  let r := user_compare (pik_user_key a) (ExtractUserKey b) in
  let anum := pik_sequence a in
  let bnum := Z.shiftr (DecodeFixed64 (zdrop (size b - kNumInternalBytes) b)) 8 in
  by_footer r anum bnum.

(** A footer whose sequence number may be overridden. *)
Definition global_footer (a : Slice) (a_global_seqno : Z) : Z :=
  if a_global_seqno =? kDisableGlobalSequenceNumber then ExtractInternalKeyFooter a
  else PackSequenceAndType a_global_seqno (ExtractValueType a).

Definition IKCompare_global (a : Slice) (a_global_seqno : Z) (b : Slice) (b_global_seqno : Z) : Z :=
  let r := user_compare (ExtractUserKey a) (ExtractUserKey b) in
  by_footer r (global_footer a a_global_seqno) (global_footer b b_global_seqno).

End Comparator.

(** ** The class [InternalKey]: its encoded form *)

(** [AppendInternalKey], [AppendInternalKeyWithDifferentTimestamp],
    [AppendUserKeyWithDifferentTimestamp], [AppendInternalKeyFooter] and [kValueTypeForSeek]. *)
Class KeyAppender : Type := {
  AppendInternalKey : bytes -> ParsedInternalKey -> bytes;
  AppendInternalKeyWithDifferentTimestamp : bytes -> ParsedInternalKey -> Slice -> bytes;
  AppendUserKeyWithDifferentTimestamp : bytes -> Slice -> Slice -> bytes;
  AppendInternalKeyFooter : bytes -> Z -> Z -> bytes;
  kValueTypeForSeek : Z;
}.

Class KeyAppenderLaws (A : KeyAppender) : Prop := {
  append_key result k :
    AppendInternalKey result k = result ++ encoded_key (pik_user_key k) (pik_sequence k) (pik_type k);
  append_key_ts result k ts : size ts <= size (pik_user_key k) ->
    AppendInternalKeyWithDifferentTimestamp result k ts =
    result ++ encoded_key (StripTimestampFromUserKey (pik_user_key k) (size ts) ++ ts)
                (pik_sequence k) (pik_type k);
  append_user_key_ts result k ts : size ts <= size k ->
    AppendUserKeyWithDifferentTimestamp result k ts =
    result ++ StripTimestampFromUserKey k (size ts) ++ ts;
  append_footer result s t : AppendInternalKeyFooter result s t = encoded_key result s t;
  seek_type_highest t : IsValueType t = true -> is_uint 8 t -> t <= kValueTypeForSeek;
  seek_type_byte : is_uint 8 kValueTypeForSeek;
}.

Section InternalKey.
Context `{KeyAppender}.

(** [rep_] is the state of the object. *)
Definition InternalKey_of (user_key : Slice) (s t : Z) : bytes :=
  AppendInternalKey [] (mkParsedInternalKey user_key s t).

Definition InternalKey_of_ts (user_key : Slice) (s t : Z) (ts : Slice) : bytes :=
  AppendInternalKeyWithDifferentTimestamp [] (mkParsedInternalKey user_key s t) ts.

Definition SetMaxPossibleForUserKey (user_key : Slice) (rep_ : bytes) : bytes :=
  AppendInternalKey rep_ (mkParsedInternalKey user_key 0 0).

Definition SetMinPossibleForUserKey (user_key : Slice) (rep_ : bytes) : bytes :=
  AppendInternalKey rep_ (mkParsedInternalKey user_key kMaxSequenceNumber kValueTypeForSeek).

Definition InternalKey_Valid (rep_ : bytes) : bool := ok (ParseInternalKey rep_).1.

Definition SetFrom (p : ParsedInternalKey) (rep_ : bytes) : bytes := AppendInternalKey [] p.

Definition SetFrom_ts (p : ParsedInternalKey) (ts : Slice) (rep_ : bytes) : bytes :=
  AppendInternalKeyWithDifferentTimestamp [] p ts.

Definition IK_Set (user_key : Slice) (s t : Z) (rep_ : bytes) : bytes :=
  SetFrom (mkParsedInternalKey user_key s t) rep_.

Definition IK_Set_ts (user_key : Slice) (s t : Z) (ts : Slice) (rep_ : bytes) : bytes :=
  SetFrom_ts (mkParsedInternalKey user_key s t) ts rep_.

Definition ConvertFromUserKey (s t : Z) (rep_ : bytes) : bytes := AppendInternalKeyFooter rep_ s t.

(** ** Range tombstones *)

Record RangeTombstone : Type := mkRangeTombstone {
  start_key_ : Slice;
  end_key_ : Slice;
  rt_seq_ : Z;
  ts_ : Slice;
}.

Definition RangeTombstone_of (sk ek : Slice) (sn : Z) : RangeTombstone :=
  mkRangeTombstone sk ek sn [].

(** The timestamp replaces the ones of the two keys; [ts_] is the tail of the pinned start
    key. *)
Definition RangeTombstone_of_ts (sk ek : Slice) (sn : Z) (ts : Slice) : RangeTombstone :=
  let ts_sz := size ts in
  let pinned_start_key_ := AppendUserKeyWithDifferentTimestamp [] sk ts in
  let pinned_end_key_ := AppendUserKeyWithDifferentTimestamp [] ek ts in
  mkRangeTombstone pinned_start_key_ pinned_end_key_ sn
    (ztake ts_sz (zdrop (size sk - ts_sz) pinned_start_key_)).

Definition RangeTombstone_parsed (parsed_key : ParsedInternalKey) (value : Slice) : RangeTombstone :=
  mkRangeTombstone (pik_user_key parsed_key) value (pik_sequence parsed_key) [].

Definition Serialize (t : RangeTombstone) : bytes * Slice :=
  (InternalKey_of (start_key_ t) (rt_seq_ t) (vt_val kTypeRangeDeletion), end_key_ t).

Definition SerializeKey (t : RangeTombstone) : bytes :=
  InternalKey_of (start_key_ t) (rt_seq_ t) (vt_val kTypeRangeDeletion).

(** The literal has nine bytes. *)
Definition kTsMax : bytes := replicate 9 xff.

Definition SerializeEndKey (t : RangeTombstone) : bytes :=
  if negb (empty_slice (ts_ t)) then
    if size (ts_ t) <=? size kTsMax then
      InternalKey_of_ts (end_key_ t) kMaxSequenceNumber (vt_val kTypeRangeDeletion)
        (ztake (size (ts_ t)) kTsMax)
    else
      InternalKey_of_ts (end_key_ t) kMaxSequenceNumber (vt_val kTypeRangeDeletion)
        (replicate (Z.to_nat (size (ts_ t))) xff)
  else InternalKey_of (end_key_ t) kMaxSequenceNumber (vt_val kTypeRangeDeletion).

End InternalKey.

(** ** [PredecessorWALInfo] *)

Record PredecessorWALInfo : Type := mkPredecessorWALInfo {
  pw_log_number_ : Z;
  pw_size_bytes_ : Z;
  pw_last_seqno_recorded_ : Z;
  pw_initialized_ : bool;
}.

Definition PredecessorWALInfo_EncodeTo (w : PredecessorWALInfo) (dst : bytes) : bytes :=
  let dst := PutFixed64 dst (pw_log_number_ w) in
  let dst := PutFixed64 dst (pw_size_bytes_ w) in
  PutFixed64 dst (pw_last_seqno_recorded_ w).

(** A field that has been read is stored even when a later one is missing. *)
Definition PredecessorWALInfo_DecodeFrom (w : PredecessorWALInfo) (src : Slice) :
    Status * PredecessorWALInfo * Slice :=
  match GetFixed64 src with
  | (None, src) => (Corruption "Error decoding log number" "", w, src)
  | (Some n, src) =>
      let w := mkPredecessorWALInfo n (pw_size_bytes_ w) (pw_last_seqno_recorded_ w) (pw_initialized_ w) in
      match GetFixed64 src with
      | (None, src) => (Corruption "Error decoding size bytes" "", w, src)
      | (Some n, src) =>
          let w := mkPredecessorWALInfo (pw_log_number_ w) n (pw_last_seqno_recorded_ w) (pw_initialized_ w) in
          match GetFixed64 src with
          | (None, src) => (Corruption "Error decoding last seqno recorded" "", w, src)
          | (Some n, src) =>
              (Status_OK, mkPredecessorWALInfo (pw_log_number_ w) (pw_size_bytes_ w) n true, src)
          end
      end
  end.

(** ** The order of internal keys *)

Section Order.
Context (user_compare : Slice -> Slice -> Z) `{!CompareLaws user_compare}.

Lemma by_footer_cases r a b :
  (r <> 0 /\ by_footer r a b = r) \/ (r = 0 /\ b < a /\ by_footer r a b = -1) \/
  (r = 0 /\ a < b /\ by_footer r a b = 1) \/ (r = 0 /\ a = b /\ by_footer r a b = 0).
Proof.
  unfold by_footer. destruct (Z.eqb_spec r 0) as [->|]; [|by left]. rewrite Z.gtb_ltb.
  destruct (Z.ltb_spec b a); [by right; left|]. destruct (Z.ltb_spec a b); [by right; right; left|].
  do 3 right. split_and!; [done|lia|done].
Qed.

Lemma by_footer_le r a b : by_footer r a b <= 0 <-> r < 0 \/ r = 0 /\ b <= a.
Proof. destruct (by_footer_cases r a b) as [(? & ->)|[(? & ? & ->)|[(? & ? & ->)|(? & ? & ->)]]]; lia. Qed.

Lemma by_footer_lt r a b : by_footer r a b < 0 <-> r < 0 \/ r = 0 /\ b < a.
Proof. destruct (by_footer_cases r a b) as [(? & ->)|[(? & ? & ->)|[(? & ? & ->)|(? & ? & ->)]]]; lia. Qed.

(** A user comparison refined by a number in descending order. *)
Lemma by_footer_laws {X} (u : X -> Slice) (f : X -> Z) (c : X -> X -> Z) :
  (forall a b, c a b = by_footer (user_compare (u a) (u b)) (f a) (f b)) -> CompareLaws c.
Proof.
  intros Hc. split.
  - intros a b. rewrite !Hc. pose proof (compare_flip (u a) (u b)) as E.
    destruct (by_footer_cases (user_compare (u a) (u b)) (f a) (f b))
      as [(? & ->)|[(? & ? & ->)|[(? & ? & ->)|(? & ? & ->)]]];
    destruct (by_footer_cases (user_compare (u b) (u a)) (f b) (f a))
      as [(? & ->)|[(? & ? & ->)|[(? & ? & ->)|(? & ? & ->)]]]; lia.
  - intros a b d. rewrite !Hc, !by_footer_le. intros Hab Hbd.
    pose proof (compare_flip (u a) (u b)). pose proof (compare_flip (u b) (u d)).
    destruct Hab as [Hab|[Hab Hf]].
    + left. apply (compare_lt_le user_compare _ (u b)); lia.
    + destruct Hbd as [Hbd|[Hbd Hf']].
      * left. apply (compare_le_lt user_compare _ (u b)); lia.
      * right. assert (user_compare (u a) (u d) <= 0) by (apply (compare_trans _ (u b)); lia).
        assert (user_compare (u d) (u a) <= 0) by (apply (compare_trans _ (u b)); lia).
        pose proof (compare_flip (u a) (u d)). lia.
Qed.

#[export] Instance IKCompare_laws : CompareLaws (IKCompare user_compare).
Proof. by apply (by_footer_laws ExtractUserKey (fun k => DecodeFixed64 (zdrop (size k - kNumInternalBytes) k))). Qed.

#[export] Instance CompareKeySeq_laws : CompareLaws (CompareKeySeq user_compare).
Proof.
  by apply (by_footer_laws ExtractUserKey
    (fun k => Z.shiftr (DecodeFixed64 (zdrop (size k - kNumInternalBytes) k)) 8)).
Qed.

(** What is stored of an entry. *)
Definition valid_footer (s t : Z) : Prop := 0 <= s <= kMaxSequenceNumber /\ is_uint 8 t.

Lemma encoded_parts u s t : valid_footer s t ->
  ExtractUserKey (encoded_key u s t) = u /\
  ExtractInternalKeyFooter (encoded_key u s t) = PackSequenceAndType s t /\
  PackSequenceAndType s t = s * 256 + t /\
  DecodeFixed64 (zdrop (size (encoded_key u s t) - kNumInternalBytes) (encoded_key u s t))
    = PackSequenceAndType s t.
Proof.
  intros [Hs Ht]. destruct (Pack_val s t Hs Ht) as [Hv Hp].
  destruct (footer_of_encoded u _ Hp) as [Hf Hu]. by split_and!.
Qed.

Lemma IKCompare_encoded u s t u' s' t' : valid_footer s t -> valid_footer s' t' ->
  IKCompare user_compare (encoded_key u s t) (encoded_key u' s' t') =
  by_footer (user_compare u u') (s * 256 + t) (s' * 256 + t').
Proof.
  intros H1 H2. destruct (encoded_parts u s t H1) as (E1 & _ & E2 & E3).
  destruct (encoded_parts u' s' t' H2) as (F1 & _ & F2 & F3).
  unfold IKCompare. by rewrite E1, E3, E2, F1, F3, F2.
Qed.

(** on keys made of a user key, a 56-bit sequence number and a type, the comparator orders
    by user key, then by descending sequence number, then by descending type; [CompareKeySeq]
    leaves the type out, a parsed key compares as the key it was parsed from, and a global
    sequence number acts as if it had been stored in the key. The comparator is a total
    preorder whenever the one of the user keys is. *)
Theorem internal_key_order u s t u' s' t' g g'
    (Hv : valid_footer s t) (Hv' : valid_footer s' t')
    (Hg : 0 <= g <= kMaxSequenceNumber) (Hg' : 0 <= g' <= kMaxSequenceNumber) :
  let a := encoded_key u s t in
  let b := encoded_key u' s' t' in
  let r := user_compare u u' in
  (IKCompare user_compare a b < 0 <-> r < 0 \/ r = 0 /\ (s' < s \/ s = s' /\ t' < t)) /\
  (IKEqual user_compare a b = true <-> r = 0 /\ s = s' /\ t = t') /\
  (CompareKeySeq user_compare a b < 0 <-> r < 0 \/ r = 0 /\ s' < s) /\
  CompareKeySeq_parsed user_compare (mkParsedInternalKey u s t) b = CompareKeySeq user_compare a b /\
  IKCompare_global user_compare a g b g' =
    IKCompare user_compare (encoded_key u g t) (encoded_key u' g' t') /\
  IKCompare_global user_compare a kDisableGlobalSequenceNumber b kDisableGlobalSequenceNumber =
    IKCompare user_compare a b /\
  CompareLaws (IKCompare user_compare).
Proof.
  intros a b r. assert (0 <= t < 256) as Ht by apply Hv. assert (0 <= t' < 256) as Ht' by apply Hv'.
  destruct (encoded_parts u s t Hv) as (E1 & E2 & E3 & E4).
  destruct (encoded_parts u' s' t' Hv') as (F1 & F2 & F3 & F4).
  assert (forall x y, 0 <= y < 256 -> Z.shiftr (x * 256 + y) 8 = x) as Hsh.
  { intros. rewrite Z.shiftr_div_pow2 by lia. change (2 ^ 8) with 256. dlia. }
  assert (forall x y, 0 <= y < 256 -> Z.land (x * 256 + y) 255 = y) as Hlo.
  { intros. change 255 with (Z.ones 8). rewrite Z.land_ones by lia. change (2 ^ 8) with 256. dlia. }
  split_and!.
  - unfold a, b. rewrite IKCompare_encoded by done. fold r. rewrite by_footer_lt. lia.
  - unfold IKEqual. rewrite Z.eqb_eq. unfold a, b. rewrite IKCompare_encoded by done. fold r.
    destruct (by_footer_cases r (s * 256 + t) (s' * 256 + t'))
      as [(? & ->)|[(? & ? & ->)|[(? & ? & ->)|(? & ? & ->)]]]; lia.
  - unfold CompareKeySeq, a, b. rewrite E1, F1, E4, F4, E3, F3, !Hsh by done. fold r.
    by rewrite by_footer_lt.
  - unfold CompareKeySeq_parsed, CompareKeySeq, a, b. cbn [pik_user_key pik_sequence].
    by rewrite E1, F1, E4, F4, E3, !Hsh.
  - assert (forall x, 0 <= x <= kMaxSequenceNumber -> x =? kDisableGlobalSequenceNumber = false) as Hd.
    { intros x Hx. apply Z.eqb_neq. unfold kDisableGlobalSequenceNumber, UINT64_MAX,
        kMaxSequenceNumber in *. change (Z.shiftl 1 56) with (2 ^ 56) in Hx. lia. }
    assert (valid_footer g t) as Hgt by (split; [done|apply Hv]).
    assert (valid_footer g' t') as Hgt' by (split; [done|apply Hv']).
    rewrite IKCompare_encoded by done. unfold IKCompare_global, global_footer, ExtractValueType, a, b.
    rewrite !Hd, E1, F1, E2, F2, E3, F3, !Hlo by done.
    destruct (encoded_parts u g t Hgt) as (_ & _ & -> & _).
    by destruct (encoded_parts u' g' t' Hgt') as (_ & _ & -> & _).
  - unfold a, b. rewrite IKCompare_encoded by done. unfold IKCompare_global, global_footer.
    by rewrite Z.eqb_refl, E1, F1, E2, F2, E3, F3.
  - apply _.
Qed.

Context `{A : KeyAppender} `{!KeyAppenderLaws A}.

Lemma InternalKey_of_encoded u s t : InternalKey_of u s t = encoded_key u s t.
Proof. unfold InternalKey_of. by rewrite append_key. Qed.

Lemma kMaxSequenceNumber_val : kMaxSequenceNumber = 2 ^ 56 - 1.
Proof. done. Qed.

Lemma end_key_plain sk ek sn : SerializeEndKey (RangeTombstone_of sk ek sn) =
  encoded_key ek kMaxSequenceNumber (vt_val kTypeRangeDeletion).
Proof. exact (InternalKey_of_encoded ek kMaxSequenceNumber (vt_val kTypeRangeDeletion)). Qed.

(** The timestamp of a tombstone built from keys with timestamps, and its end key. *)
Lemma end_key_ts sk ek sn ts :
  0 < size ts -> size ts <= size sk -> size ts <= size ek ->
  let t := RangeTombstone_of_ts sk ek sn ts in
  ts_ t = ts /\ start_key_ t = StripTimestampFromUserKey sk (size ts) ++ ts /\
  SerializeEndKey t =
    encoded_key (StripTimestampFromUserKey ek (size ts) ++ replicate (length ts) xff)
      kMaxSequenceNumber (vt_val kTypeRangeDeletion).
Proof.
  intros Hpos Hsk Hek t.
  assert (forall k, size ts <= size k -> size (StripTimestampFromUserKey k (size ts)) = size k - size ts) as Hsz.
  { intros k Hk. unfold StripTimestampFromUserKey, ztake, size in *. rewrite length_take. lia. }
  assert (ts_ t = ts) as Ets.
  { cbn. rewrite (append_user_key_ts [] sk) by done. cbn [app]. rewrite <- (Hsz sk) by done.
    rewrite zdrop_app. rewrite <- (app_nil_r ts) at 2. apply ztake_app. }
  split; [done|]. split; [cbn; by rewrite append_user_key_ts|].
  unfold SerializeEndKey. rewrite Ets. unfold empty_slice.
  rewrite (proj2 (Z.eqb_neq (size ts) 0)) by lia. cbn [negb].
  assert (end_key_ t = StripTimestampFromUserKey ek (size ts) ++ ts) as Eend
    by (cbn; by rewrite append_user_key_ts).
  assert (forall m, m = replicate (length ts) xff ->
    InternalKey_of_ts (end_key_ t) kMaxSequenceNumber (vt_val kTypeRangeDeletion) m =
    encoded_key (StripTimestampFromUserKey ek (size ts) ++ replicate (length ts) xff)
      kMaxSequenceNumber (vt_val kTypeRangeDeletion)) as Hgoal.
  { intros m ->. unfold InternalKey_of_ts.
    assert (size (replicate (length ts) xff) = size ts) as Er by (unfold size; by rewrite length_replicate).
    rewrite append_key_ts by (cbn [pik_user_key]; rewrite Er, Eend, size_app; pose proof (Hsz ek Hek); lia).
    cbn [app pik_user_key pik_sequence pik_type]. f_equal. f_equal. rewrite Er, Eend.
    unfold StripTimestampFromUserKey at 1. rewrite size_app. replace (_ + size ts - size ts) with
      (size (StripTimestampFromUserKey ek (size ts))) by lia. apply ztake_app. }
  destruct (Z.leb_spec (size ts) (size kTsMax)) as [Hle|Hgt]; apply Hgoal.
  - unfold ztake, kTsMax, size in *. rewrite Nat2Z.id, length_replicate in *. rewrite take_replicate.
    f_equal. lia.
  - unfold size. by rewrite Nat2Z.id.
Qed.

(** the keys that bound the entries of one user key: [SetMinPossibleForUserKey] is not
    after any entry and [SetMaxPossibleForUserKey] not before any; the end key of a range
    tombstone is before every entry of the end key that has a sequence number below the
    maximum, and after every entry of a smaller user key, so that the end is exclusive. *)
Theorem boundary_keys u u' s t (Hv : valid_footer s t) (Ht : IsValueType t = true)
    (Hu : user_compare u' u = 0) :
  let k := encoded_key u' s t in
  IKCompare user_compare (SetMinPossibleForUserKey u []) k <= 0 /\
  IKCompare user_compare k (SetMaxPossibleForUserKey u []) <= 0 /\
  (forall sk sn, s < kMaxSequenceNumber ->
     IKCompare user_compare (SerializeEndKey (RangeTombstone_of sk u sn)) k < 0) /\
  (forall sk ek sn, user_compare u ek < 0 ->
     IKCompare user_compare k (SerializeEndKey (RangeTombstone_of sk ek sn)) < 0).
Proof.
  intros k. pose proof (compare_flip (compare_ := user_compare) u' u) as Hf. rewrite Hu in Hf.
  cbn in Hf.
  assert (0 <= t < 256) as Ht' by apply Hv. assert (0 <= s <= kMaxSequenceNumber) as Hs by apply Hv.
  pose proof (seek_type_highest t Ht ltac:(apply Hv)) as Hhi. pose proof seek_type_byte as Hb.
  assert (valid_footer kMaxSequenceNumber kValueTypeForSeek) as Hseek by (split; [done|done]).
  assert (valid_footer kMaxSequenceNumber (vt_val kTypeRangeDeletion)) as Hrd by (split; done).
  assert (0 <= kValueTypeForSeek < 256) as Hb' by apply Hb. split_and!.
  - unfold SetMinPossibleForUserKey, k. rewrite append_key. cbn [app pik_user_key pik_sequence pik_type].
    rewrite IKCompare_encoded, by_footer_le by done. lia.
  - unfold SetMaxPossibleForUserKey, k. rewrite append_key. cbn [app pik_user_key pik_sequence pik_type].
    rewrite IKCompare_encoded, by_footer_le by (done || split; done). lia.
  - intros sk sn Hlt. unfold k. rewrite end_key_plain, IKCompare_encoded, by_footer_lt by done.
    change (vt_val kTypeRangeDeletion) with 15. lia.
  - intros sk ek sn Hlt. unfold k. rewrite end_key_plain, IKCompare_encoded, by_footer_lt by done. left.
    apply (compare_le_lt user_compare _ u); lia.
Qed.

End Order.

(** ** [PredecessorWALInfo] *)

Theorem predecessor_wal_roundtrip w w0 dst rest
    (H1 : is_uint 64 (pw_log_number_ w)) (H2 : is_uint 64 (pw_size_bytes_ w))
    (H3 : is_uint 64 (pw_last_seqno_recorded_ w)) (H4 : pw_initialized_ w = true) :
  exists body, PredecessorWALInfo_EncodeTo w dst = dst ++ body /\
    PredecessorWALInfo_DecodeFrom w0 (body ++ rest) = (Status_OK, w, rest).
Proof.
  exists (EncodeFixed64 (pw_log_number_ w) ++ EncodeFixed64 (pw_size_bytes_ w)
          ++ EncodeFixed64 (pw_last_seqno_recorded_ w)).
  unfold PredecessorWALInfo_EncodeTo, PutFixed64. rewrite <- !app_assoc. split; [done|].
  unfold PredecessorWALInfo_DecodeFrom. rewrite GetFixed64_Put by done. rewrite GetFixed64_Put by done.
  rewrite GetFixed64_Put by done. cbn. rewrite <- H4. by destruct w.
Qed.

(** ** An instance: the documented formats, bytewise user keys *)

#[local] Instance documented_appender : KeyAppender := {
  AppendInternalKey r k := r ++ encoded_key (pik_user_key k) (pik_sequence k) (pik_type k);
  AppendInternalKeyWithDifferentTimestamp r k ts :=
    r ++ encoded_key (StripTimestampFromUserKey (pik_user_key k) (size ts) ++ ts)
           (pik_sequence k) (pik_type k);
  AppendUserKeyWithDifferentTimestamp r k ts := r ++ StripTimestampFromUserKey k (size ts) ++ ts;
  AppendInternalKeyFooter r s t := encoded_key r s t;
  kValueTypeForSeek := vt_val kTypeValuePreferredSeqno;
}.

#[local] Instance documented_laws : KeyAppenderLaws documented_appender.
Proof.
  split; try done. intros t Ht _. change (t <= 24). unfold IsValueType in Ht.
  rewrite !orb_true_iff, !Z.eqb_eq, Z.leb_le in Ht. cbn [vt_val] in Ht. lia.
Qed.

#[export] Instance bytewise_laws : CompareLaws compare.
Proof.
  assert (forall a b, compare a b <= 0 <-> a = b \/ lex_lt a b) as Hle.
  { intros a b. destruct (compare_lexicographic a b) as (H1 & H2 & _). rewrite <- H1, <- H2. lia. }
  split; [intros a b; rewrite compare_antisym; lia|]. intros a b c. rewrite !Hle.
  intros [->|Hab] [->|Hbc]; eauto using lex_lt_trans.
Qed.

Lemma internal_key_order_witness :
  IKCompare compare (encoded_key [x61] 5 1) (encoded_key [x61] 3 1) < 0 /\
  IKCompare_global compare (encoded_key [x61] 5 1) 2 (encoded_key [x61] 3 1) 2 = 0.
Proof.
  destruct (internal_key_order compare [x61] 5 1 [x61] 3 1 2 2) as (H1 & _ & _ & _ & H2 & _);
    [split; done..|done|done|]. split.
  - apply H1. right. split; [reflexivity|]. left. lia.
  - rewrite H2. reflexivity.
Defined.

Lemma boundary_keys_witness :
  IKCompare compare (SetMinPossibleForUserKey [x62] []) (encoded_key [x62] 7 1) <= 0 /\
  IKCompare compare (SerializeEndKey (RangeTombstone_of [x61] [x62] 9)) (encoded_key [x62] 7 1) < 0.
Proof.
  destruct (boundary_keys compare [x62] [x62] 7 1) as (H1 & _ & H2 & _); [split; done|done|done|].
  split; [exact H1|]. apply H2. reflexivity.
Defined.
