(* ===== verification/VersionLookup.v ===== *)
(** * Looking up the version of a key

    The skip list of a memtable is sorted by the comparator of internal keys. Seeking to a user
    key with the sequence number of a snapshot and the highest type finds the newest version
    that the snapshot sees: the two components composed. *)

From stdpp Require Import sorting.
From S2P Require Import Prelude.
From S2P Require Import Slice.
From S2P Require Import DbFormat.
From S2P Require Import SkipList.
From S2P Require Import SkipListSearch.
From S2P Require Import SkipListInsert.
From S2P Require Import SkipListMain.
From S2P Require Import InternalKey.

Section Seek.
Context {K : Type} (cmp : K -> K -> Z) `{!CompareLaws cmp}.

(** [Seek] finds the least key that is not before the target. *)
Lemma Seek_least s ks key : shows cmp s ks ->
  exists n, Seek cmp s key = Some n /\
    match n with
    | None => forall k, k ∈ ks -> cmp k key < 0
    | Some l => exists k, key_of s l = Some k /\ k ∈ ks /\ 0 <= cmp k key /\
        forall k', k' ∈ ks -> cmp k' key < 0 \/ cmp k k' <= 0
    end.
Proof.
  intros (lh & xs & R & Hl). destruct (rep_cut cmp s lh xs key R) as (pre & post & -> & Hb & Hp).
  exists (head post). unfold Seek. split; [by apply (FindGreaterOrEqual_ok cmp s lh key pre post)|].
  rewrite !Forall_forall in *. destruct post as [|l post]; cbn [head].
  - intros k Hk. destruct (labelled_lookup_r s _ ks k Hl Hk) as (n & Hn & E).
    rewrite app_nil_r in Hn. destruct (Hb n Hn) as (k' & E' & ?). congruence.
  - destruct (Hp l ltac:(set_solver)) as (k & Hk & Hge). exists k.
    destruct (labelled_lookup s _ ks l Hl ltac:(set_solver)) as (k0 & Hk0 & E0).
    assert (k0 = k) as -> by congruence. split_and!; try done. intros k' Hk'.
    destruct (labelled_lookup_r s _ ks k' Hl Hk') as (n & [Hn|Hn]%elem_of_app & En).
    + left. destruct (Hb n Hn) as (k2 & E2 & ?). congruence.
    + right. destruct (cut_at cmp s lh pre l post k R Hk) as [_ Hf]. rewrite Forall_forall in Hf.
      destruct (Hf n Hn) as (k2 & E2 & Hge2). assert (k2 = k') as -> by congruence.
      pose proof (compare_flip k' k). lia.
Qed.

End Seek.

(** ** Versions *)

(** A version of a user key, as it is stored. *)
Record Version : Type := mkVersion { v_key : Slice; v_seq : Z; v_type : Z }.

Definition stored (v : Version) : bytes := encoded_key (v_key v) (v_seq v) (v_type v).

Definition valid_version (v : Version) : Prop :=
  valid_footer (v_seq v) (v_type v) /\ IsValueType (v_type v) = true.

Section Lookup.
Context (user_compare : Slice -> Slice -> Z) `{!CompareLaws user_compare}.
Context `{A : KeyAppender} `{!KeyAppenderLaws A}.

(** The versions of [uk] that a reader at [snapshot] may see. *)
Definition visible (uk : Slice) (snapshot : Z) (v : Version) : Prop :=
  user_compare (v_key v) uk = 0 /\ v_seq v <= snapshot.

Definition seek_target (uk : Slice) (snapshot : Z) : bytes :=
  InternalKey_of uk snapshot kValueTypeForSeek.

(** A version is before the target exactly if its user key is smaller, or the same and the
    version too new. *)
Lemma before_target uk snapshot v :
  0 <= snapshot <= kMaxSequenceNumber -> valid_version v ->
  IKCompare user_compare (stored v) (seek_target uk snapshot) < 0 <->
  user_compare (v_key v) uk < 0 \/ user_compare (v_key v) uk = 0 /\ snapshot < v_seq v.
Proof.
  intros Hs [Hv Ht]. unfold stored, seek_target. rewrite InternalKey_of_encoded by apply _.
  pose proof seek_type_byte as Hb. pose proof (seek_type_highest _ Ht ltac:(apply Hv)) as Hhi.
  rewrite IKCompare_encoded by (done || split; done). rewrite by_footer_lt.
  assert (0 <= v_type v < 256) by apply Hv. assert (0 <= kValueTypeForSeek < 256) by apply Hb. lia.
Qed.

(** C9: the memtable lookup of a snapshot read. In a skip list of internal keys, [Seek] to the
    user key with the sequence number of the snapshot and [kValueTypeForSeek] returns a node
    of the newest version that the snapshot sees if there is one; otherwise it returns a node
    of a greater user key or the end, and no version is visible. *)
Theorem seek_newest_visible s vs uk snapshot
    (Hs : shows (IKCompare user_compare) s (map stored vs)) (Hv : Forall valid_version vs)
    (Hsnap : 0 <= snapshot <= kMaxSequenceNumber) :
  exists n, Seek (IKCompare user_compare) s (seek_target uk snapshot) = Some n /\
    ((exists l v, n = Some l /\ v ∈ vs /\ key_of s l = Some (stored v) /\ visible uk snapshot v /\
        forall v', v' ∈ vs -> visible uk snapshot v' -> v_seq v' <= v_seq v) \/
     (forall v', v' ∈ vs -> ~ visible uk snapshot v') /\
     (forall l, n = Some l ->
        exists v, v ∈ vs /\ key_of s l = Some (stored v) /\ 0 < user_compare (v_key v) uk)).
Proof.
  rewrite Forall_forall in Hv.
  assert (forall v, v ∈ vs -> stored v ∈ map stored vs) as Hin
    by (intros v ?; apply list_elem_of_fmap; eauto).
  destruct (Seek_least (IKCompare user_compare) s _ (seek_target uk snapshot) Hs) as (n & E & Hn).
  exists n. split; [done|]. destruct n as [l|].
  - destruct Hn as (k & Hk & Hkin & Hge & Hleast).
    apply list_elem_of_fmap in Hkin as (v & -> & Hvin).
    pose proof (before_target uk snapshot v Hsnap (Hv v Hvin)) as Hbt.
    destruct (Z.eq_dec (user_compare (v_key v) uk) 0) as [Heq|Hne].
    + left. exists l, v. split_and!; try done; [split; [done|lia]|]. intros v' Hv' [He' Hs'].
      pose proof (before_target uk snapshot v' Hsnap (Hv v' Hv')) as Hbt'.
      destruct (Hleast (stored v') (Hin v' Hv')) as [Hlt|Hle]; [lia|].
      unfold stored in Hle. destruct (Hv v Hvin) as [[? Hb] _], (Hv v' Hv') as [[? Hb'] _].
      rewrite IKCompare_encoded, by_footer_le in Hle by done.
      assert (user_compare (v_key v') (v_key v) <= 0) as Hle2.
      { apply (compare_trans _ uk); [lia|]. pose proof (compare_flip (compare_ := user_compare) (v_key v) uk). lia. }
      pose proof (compare_flip (compare_ := user_compare) (v_key v') (v_key v)).
      assert (0 <= v_type v < 256) by apply Hb. assert (0 <= v_type v' < 256) by apply Hb'. lia.
    + right. split; [|intros l' [= <-]; exists v; split_and!; [done|done|lia]].
      intros v' Hv' [He' Hs']. pose proof (before_target uk snapshot v' Hsnap (Hv v' Hv')) as Hbt'.
      destruct (Hleast (stored v') (Hin v' Hv')) as [Hlt|Hle]; [lia|].
      unfold stored in Hle. destruct (Hv v Hvin) as [? _], (Hv v' Hv') as [? _].
      rewrite IKCompare_encoded, by_footer_le in Hle by done.
      assert (0 < user_compare (v_key v) (v_key v')); [|lia].
      apply (compare_gt user_compare).
      apply (compare_le_lt user_compare _ uk); [lia|]. apply (compare_gt user_compare). lia.
  - right. split; [|done]. intros v' Hv' [He' Hs'].
    pose proof (before_target uk snapshot v' Hsnap (Hv v' Hv')) as Hbt'.
    pose proof (Hn (stored v') (Hin v' Hv')). lia.
Qed.

End Lookup.

(** ** An instance: two versions of one key and one of another *)

Definition demo_versions : list Version :=
  [mkVersion [x61] 9 1; mkVersion [x61] 5 1; mkVersion [x62] 7 1].

Lemma demo_table : exists s, holds (IKCompare compare) s (map stored demo_versions).
Proof.
  destruct (SkipList_new (stored (mkVersion [] 0 0)) 12 4) as [s|] eqn:E; [|done].
  apply (new_holds (IKCompare compare)) in E.
  destruct (holds_insert (IKCompare compare) alternate s [] (stored (mkVersion [x61] 5 1)) 0%nat E)
    as (s1 & r1 & _ & H1); [done|].
  destruct (holds_insert (IKCompare compare) alternate s1 _ (stored (mkVersion [x62] 7 1)) r1 H1)
    as (s2 & r2 & _ & H2); [done|].
  destruct (holds_insert (IKCompare compare) alternate s2 _ (stored (mkVersion [x61] 9 1)) r2 H2)
    as (s3 & r3 & _ & H3); [done|].
  by exists s3.
Qed.

Lemma seek_newest_visible_witness : exists s l v,
  Seek (IKCompare compare) s (@seek_target documented_appender [x61] 8) = Some (Some l) /\
  key_of s l = Some (stored v) /\ v = mkVersion [x61] 5 1.
Proof.
  destruct demo_table as [s Hs].
  destruct (@seek_newest_visible compare _ documented_appender documented_laws s demo_versions [x61] 8
    (holds_shows _ s _ Hs)) as (n & Hn & [(l & v & -> & Hin & Hk & Hvis & Hmax)|[Hnone _]]).
  - repeat constructor; done.
  - split; done.
  - exists s, l, v. split_and!; [done|done|].
    pose proof (Hmax (mkVersion [x61] 5 1) ltac:(set_solver) ltac:(split; done)) as Hge.
    destruct Hvis as [He Hle]. unfold demo_versions in Hin.
    apply elem_of_cons in Hin as [->|Hin]; [cbn in Hle; lia|].
    apply elem_of_cons in Hin as [->|Hin]; [done|].
    apply list_elem_of_singleton in Hin as ->. discriminate He.
  - exfalso. apply (Hnone (mkVersion [x61] 5 1)); [set_solver|split; done].
Defined.
