(* ===== verification/IterKey.v ===== *)
(** * IterKey: the key of an iterator

    The class [IterKey] of [db/dbformat.h]: a key in a buffer of the object, inline or on the
    heap, in the secondary buffer, or in memory of somebody else; delta-encoded keys are put
    together in place, also with a minimal timestamp inserted on the way.

    Memory is a byte string per region. Every copy names its source by region, offset and
    length and is carried out when the code carries it out; [None] is an access outside of a
    region or a failed [assert]. [EnlargeBuffer] and [EnlargeSecondaryBufferIfNeeded] are
    declared here and defined outside of the repository, and the content of new memory is not
    specified: they are the operations of the class [KeyMemory], with what the comment at
    [EnlargeBufferIfNeeded] says about them as its laws. *)

From S2P Require Import Prelude.
From S2P Require Import Slice.
From S2P Require Import Coding.
From S2P Require Import DbFormat.

(** ** Data *)

(** Where a pointer leads: [buf_], [secondary_buf_], or memory of somebody else. *)
Inductive KeyPtr : Type := InBuf | InSecondary | Pinned (data : bytes).

(** A slice: region, offset and length. *)
Record KeySlice : Type := mkKeySlice { ks_ptr : KeyPtr; ks_off : Z; ks_len : Z }.

(** [heap_] and [secondary_heap_] are the allocated buffers; without one [buf_] is [space_],
    [secondary_buf_] is [space_for_secondary_buf_]. *)
Record IterKey : Type := mkIterKey {
  space_ : bytes;
  heap_ : option bytes;
  key_ : KeyPtr;
  key_size_ : Z;
  buf_size_ : Z;
  is_user_key_ : bool;
  space_for_secondary_buf_ : bytes;
  secondary_heap_ : option bytes;
  secondary_buf_size_ : Z;
}.

Definition kInlineBufferSize : Z := 39.
Definition kTsMin : bytes := replicate 8 x00.

Definition buf_ (k : IterKey) : bytes := default (space_ k) (heap_ k).
Definition secondary_buf_ (k : IterKey) : bytes :=
  default (space_for_secondary_buf_ k) (secondary_heap_ k).

Definition set_key (p : KeyPtr) (n : Z) (k : IterKey) : IterKey :=
  mkIterKey (space_ k) (heap_ k) p n (buf_size_ k) (is_user_key_ k) (space_for_secondary_buf_ k)
    (secondary_heap_ k) (secondary_buf_size_ k).
Definition set_is_user_key (b : bool) (k : IterKey) : IterKey :=
  mkIterKey (space_ k) (heap_ k) (key_ k) (key_size_ k) (buf_size_ k) b (space_for_secondary_buf_ k)
    (secondary_heap_ k) (secondary_buf_size_ k).
(** A heap buffer of [n] bytes becomes [buf_]. *)
Definition set_heap (h : option bytes) (n : Z) (k : IterKey) : IterKey :=
  mkIterKey (space_ k) h (key_ k) (key_size_ k) n (is_user_key_ k) (space_for_secondary_buf_ k)
    (secondary_heap_ k) (secondary_buf_size_ k).
Definition set_secondary_heap (h : option bytes) (n : Z) (k : IterKey) : IterKey :=
  mkIterKey (space_ k) (heap_ k) (key_ k) (key_size_ k) (buf_size_ k) (is_user_key_ k)
    (space_for_secondary_buf_ k) h n.

(** Storing into the two buffers. *)
Definition put_buf (m : bytes) (k : IterKey) : IterKey :=
  match heap_ k with
  | Some _ => set_heap (Some m) (buf_size_ k) k
  | None => mkIterKey m None (key_ k) (key_size_ k) (buf_size_ k) (is_user_key_ k)
              (space_for_secondary_buf_ k) (secondary_heap_ k) (secondary_buf_size_ k)
  end.
Definition put_secondary (m : bytes) (k : IterKey) : IterKey :=
  match secondary_heap_ k with
  | Some _ => set_secondary_heap (Some m) (secondary_buf_size_ k) k
  | None => mkIterKey (space_ k) (heap_ k) (key_ k) (key_size_ k) (buf_size_ k) (is_user_key_ k)
              m None (secondary_buf_size_ k)
  end.

Definition check (b : bool) : option unit := if b then Some () else None.

(** ** Memory *)

Definition region (k : IterKey) (p : KeyPtr) : bytes :=
  match p with InBuf => buf_ k | InSecondary => secondary_buf_ k | Pinned d => d end.

(** A copy of no bytes accesses no memory. *)
Definition mem_read (m : bytes) (off len : Z) : option bytes :=
  if len =? 0 then Some []
  else if (0 <=? off) && (0 <=? len) && (off + len <=? size m) then Some (ztake len (zdrop off m))
  else None.

Definition mem_write (m : bytes) (off : Z) (bs : bytes) : option bytes :=
  if (0 <=? off) && (off + size bs <=? size m) then Some (poke off bs m) else None.

(** [memcpy(buf_ + off, bs)], [memcpy(secondary_buf_ + off, bs)] *)
Definition write_buf (off : Z) (bs : bytes) (k : IterKey) : option IterKey :=
  m ← mem_write (buf_ k) off bs; Some (put_buf m k).
Definition write_secondary (off : Z) (bs : bytes) (k : IterKey) : option IterKey :=
  m ← mem_write (secondary_buf_ k) off bs; Some (put_secondary m k).

Class KeyMemory : Type := {
  new_bytes : Z -> bytes;
  EnlargeBuffer : Z -> IterKey -> IterKey;
  EnlargeSecondaryBufferIfNeeded : Z -> IterKey -> IterKey;
}.

(** A larger buffer takes the place of [buf_]; a key that is not in [buf_] stays where it is,
    and so does everything else. *)
Class KeyMemoryLaws (M : KeyMemory) : Prop := {
  new_bytes_size n : 0 <= n -> size (new_bytes n) = n;
  enlarge_size n k : size (buf_ (EnlargeBuffer n k)) = buf_size_ (EnlargeBuffer n k) /\
    n <= buf_size_ (EnlargeBuffer n k);
  enlarge_rest n k :
    secondary_buf_ (EnlargeBuffer n k) = secondary_buf_ k /\
    secondary_buf_size_ (EnlargeBuffer n k) = secondary_buf_size_ k /\
    is_user_key_ (EnlargeBuffer n k) = is_user_key_ k;
  enlarge_key n k : key_ k <> InBuf ->
    key_ (EnlargeBuffer n k) = key_ k /\ key_size_ (EnlargeBuffer n k) = key_size_ k;
  enlarge2_size n k : size (secondary_buf_ k) = secondary_buf_size_ k ->
    let k' := EnlargeSecondaryBufferIfNeeded n k in
    size (secondary_buf_ k') = secondary_buf_size_ k' /\ n <= secondary_buf_size_ k';
  enlarge2_rest n k :
    let k' := EnlargeSecondaryBufferIfNeeded n k in
    buf_ k' = buf_ k /\ buf_size_ k' = buf_size_ k /\ is_user_key_ k' = is_user_key_ k;
  enlarge2_key n k : key_ k <> InSecondary ->
    let k' := EnlargeSecondaryBufferIfNeeded n k in
    key_ k' = key_ k /\ key_size_ k' = key_size_ k;
}.

Section Ops.
Context `{M : KeyMemory}.

(** ** Reading *)

Definition IterKey_new : IterKey :=
  mkIterKey (new_bytes kInlineBufferSize) None InBuf 0 kInlineBufferSize true
    (new_bytes kInlineBufferSize) None kInlineBufferSize.

Definition key_bytes (k : IterKey) (len : Z) : option bytes := mem_read (region k (key_ k)) 0 len.

Definition GetKey (k : IterKey) : option Slice := key_bytes k (key_size_ k).

Definition GetInternalKey (k : IterKey) : option Slice :=
  _ ← check (negb (is_user_key_ k)); key_bytes k (key_size_ k).

Definition GetUserKey (k : IterKey) : option Slice :=
  if is_user_key_ k then key_bytes k (key_size_ k)
  else _ ← check (key_size_ k >=? kNumInternalBytes); key_bytes k (key_size_ k - kNumInternalBytes).

Definition IsKeyPinned (k : IterKey) : bool :=
  match key_ k with Pinned _ => true | _ => false end.

Definition Clear (k : IterKey) : IterKey := set_key (key_ k) 0 k.

(** ** Buffers *)

Definition ResetBuffer (k : IterKey) : IterKey :=
  let k := match key_ k with InBuf => set_key InBuf 0 k | _ => k end in
  set_heap None kInlineBufferSize k.

Definition ResetSecondaryBuffer (k : IterKey) : IterKey :=
  let k := match key_ k with InSecondary => set_key InSecondary 0 k | _ => k end in
  set_secondary_heap None kInlineBufferSize k.

Definition EnlargeBufferIfNeeded (key_size : Z) (k : IterKey) : IterKey :=
  if key_size >? buf_size_ k then EnlargeBuffer key_size k else k.

Definition Reserve (sz : Z) (k : IterKey) : IterKey :=
  let k := EnlargeBufferIfNeeded sz k in set_key (key_ k) sz k.

(** ** Setting the key *)

(** [SetKeyImpl(key, copy)] *)
Definition SetKeyImpl (key : Slice) (copy : bool) (k : IterKey) : option IterKey :=
  let sz := size key in
  if copy then
    let k := EnlargeBufferIfNeeded sz k in
    k ← write_buf 0 key k;
    Some (set_key InBuf sz k)
  else Some (set_key (Pinned key) sz k).

Definition SetKey (key : Slice) (copy : bool) (k : IterKey) : option IterKey := SetKeyImpl key copy k.

Definition SetUserKey (key : Slice) (copy : bool) (k : IterKey) : option IterKey :=
  SetKeyImpl key copy (set_is_user_key true k).

Definition SetInternalKey (key : Slice) (copy : bool) (k : IterKey) : option IterKey :=
  SetKeyImpl key copy (set_is_user_key false k).

(** Also updates the user key of a parsed key. *)
Definition SetInternalKey_ikey (key : Slice) (ikey : ParsedInternalKey) (k : IterKey) :
    option (IterKey * ParsedInternalKey) :=
  _ ← check (size key >=? kNumInternalBytes);
  k ← SetInternalKey key true k;
  uk ← key_bytes k (size key - kNumInternalBytes);
  Some (k, mkParsedInternalKey uk (pik_sequence ikey) (pik_type ikey)).

(** From its parts: a prefix, a user key, an optional timestamp, sequence number and type. *)
Definition SetInternalKey_parts (key_prefix user_key : Slice) (s value_type : Z) (ts : option Slice)
    (k : IterKey) : option IterKey :=
  let psize := size key_prefix in
  let usize := size user_key in
  let ts_sz := match ts with Some ts => size ts | None => 0 end in
  let k := EnlargeBufferIfNeeded (psize + usize + 8 + ts_sz) k in
  k ← (if psize >? 0 then write_buf 0 key_prefix k else Some k);
  k ← write_buf psize user_key k;
  k ← match ts with Some ts => write_buf (psize + usize) ts k | None => Some k end;
  k ← write_buf (usize + psize + ts_sz) (EncodeFixed64 (PackSequenceAndType s value_type)) k;
  Some (set_is_user_key false (set_key InBuf (psize + usize + 8 + ts_sz) k)).

Definition EncodeLengthPrefixedKey (key : Slice) (k : IterKey) : option IterKey :=
  let sz := size key in
  let k := EnlargeBufferIfNeeded (sz + VarintLength sz) k in
  let v := EncodeVarint32 (u32 sz) in
  k ← write_buf 0 v k;
  k ← write_buf (size v) key k;
  Some (set_is_user_key true (set_key InBuf (key_size_ k) k)).

(** [UpdateInternalKey]: the timestamp is written to [buf_], the footer to where the key is. *)
Definition IterKey_UpdateInternalKey (seq t : Z) (ts : option Slice) (k : IterKey) : option IterKey :=
  _ ← check (negb (IsKeyPinned k));
  _ ← check (key_size_ k >=? kNumInternalBytes);
  k ← match ts with
      | Some ts =>
          _ ← check (key_size_ k >=? kNumInternalBytes + size ts);
          write_buf (key_size_ k - kNumInternalBytes - size ts) ts k
      | None => Some k
      end;
  let newval := Z.lor (u64 (Z.shiftl seq 8)) t in
  match key_ k with
  | InBuf => write_buf (key_size_ k - kNumInternalBytes) (EncodeFixed64 newval) k
  | InSecondary => write_secondary (key_size_ k - kNumInternalBytes) (EncodeFixed64 newval) k
  | Pinned _ => None
  end.

(** ** Delta-encoded keys *)

Definition TrimAppend (shared_len : Z) (non_shared_data : bytes) (non_shared_len : Z) (k : IterKey) :
    option IterKey :=
  _ ← check (shared_len <=? key_size_ k);
  let total_size := u64 (shared_len + non_shared_len) in
  k ← (if IsKeyPinned k then
         let k := EnlargeBufferIfNeeded total_size k in
         sh ← key_bytes k shared_len;
         write_buf 0 sh k
       else if total_size >? buf_size_ k then
         sh ← key_bytes k shared_len;
         p ← mem_write (new_bytes total_size) 0 sh;
         Some (set_heap (Some p) total_size k)
       else Some k);
  data ← mem_read non_shared_data 0 non_shared_len;
  k ← write_buf shared_len data k;
  Some (set_key InBuf total_size k).

(** [MaybeAddKeyPartsWithTimestamp]; the slices that have been added so far and [ts_added]. *)
Definition MaybeAddKeyPartsWithTimestamp (p : KeyPtr) (off slice_sz : Z) (add_timestamp : bool)
    (left_sz ts_sz : Z) (st : list KeySlice * bool) : option (list KeySlice * bool) :=
  let '(slices, ts_added) := st in
  st ← (if add_timestamp && negb ts_added then
          _ ← check (slice_sz >=? left_sz);
          Some (slices ++ [mkKeySlice p off left_sz; mkKeySlice (Pinned kTsMin) 0 ts_sz;
                           mkKeySlice p (off + left_sz) (slice_sz - left_sz)], true)
        else Some (slices ++ [mkKeySlice p off slice_sz], ts_added));
  _ ← check (bool_decide (length st.1 <= 5)%nat);
  Some st.

(** The slices of the new key. *)
Definition timestamp_slices (k : IterKey) (shared_len : Z) (non_shared_data : bytes)
    (non_shared_len ts_sz : Z) : option (list KeySlice) :=
  if is_user_key_ k then
    Some [mkKeySlice (key_ k) 0 shared_len; mkKeySlice (Pinned non_shared_data) 0 non_shared_len;
          mkKeySlice (Pinned kTsMin) 0 ts_sz]
  else
    _ ← check (shared_len + non_shared_len >=? kNumInternalBytes);
    let user_key_len := u64 (key_size_ k - kNumInternalBytes) in
    let sharable_user_key_len := u64 (user_key_len - ts_sz) in
    let shared_user_key_len := Z.min shared_len sharable_user_key_len in
    let shared_internal_bytes_len := shared_len - shared_user_key_len in
    st ← MaybeAddKeyPartsWithTimestamp (key_ k) 0 shared_user_key_len
           (shared_internal_bytes_len + non_shared_len <? kNumInternalBytes)
           (u64 (shared_len + non_shared_len - kNumInternalBytes)) ts_sz ([], false);
    st ← MaybeAddKeyPartsWithTimestamp (key_ k) user_key_len shared_internal_bytes_len
           (non_shared_len <? kNumInternalBytes)
           (u64 (shared_internal_bytes_len + non_shared_len - kNumInternalBytes)) ts_sz st;
    '(slices, ts_added) ← MaybeAddKeyPartsWithTimestamp (Pinned non_shared_data) 0 non_shared_len
           (non_shared_len >=? kNumInternalBytes)
           (u64 (non_shared_len - kNumInternalBytes)) ts_sz st;
    _ ← check ts_added;
    Some slices.

(** The loop of [SetKeyImpl]: every slice is read when it is copied. *)
Fixpoint copy_slices (to_secondary : bool) (off : Z) (slices : list KeySlice) (k : IterKey) :
    option (Z * IterKey) :=
  match slices with
  | [] => Some (off, k)
  | sl :: slices =>
      bs ← mem_read (region k (ks_ptr sl)) (ks_off sl) (ks_len sl);
      k ← (if to_secondary then write_secondary off bs k else write_buf off bs k);
      copy_slices to_secondary (off + ks_len sl) slices k
  end.

(** [SetKeyImpl(num_key_slices, total_bytes)]: into the buffer that does not hold the key. *)
Definition SetKeyImpl_slices (slices : list KeySlice) (total_bytes : Z) (k : IterKey) : option IterKey :=
  _ ← check (bool_decide (length slices <= 5)%nat);
  let to_secondary := match key_ k with InBuf => true | _ => false end in
  let k := if to_secondary then set_key InSecondary (key_size_ k) (EnlargeSecondaryBufferIfNeeded total_bytes k)
           else set_key InBuf (key_size_ k) (EnlargeBufferIfNeeded total_bytes k) in
  '(actual_total_bytes, k) ← copy_slices to_secondary 0 slices k;
  _ ← check (actual_total_bytes =? total_bytes);
  Some (set_key (key_ k) total_bytes k).

Definition TrimAppendWithTimestamp (shared_len : Z) (non_shared_data : bytes) (non_shared_len ts_sz : Z)
    (k : IterKey) : option IterKey :=
  _ ← check (ts_sz =? 8);
  slices ← timestamp_slices k shared_len non_shared_data non_shared_len ts_sz;
  SetKeyImpl_slices slices (u64 (shared_len + non_shared_len + ts_sz)) k.

Definition SetKeyWithPaddedMinTimestamp (key : Slice) (ts_sz : Z) (k : IterKey) : option IterKey :=
  _ ← check (ts_sz =? 8);
  slices ← (if is_user_key_ k then
              Some [mkKeySlice (Pinned key) 0 (size key); mkKeySlice (Pinned kTsMin) 0 ts_sz]
            else
              _ ← check (size key >=? kNumInternalBytes);
              let user_key_size := size key - kNumInternalBytes in
              Some [mkKeySlice (Pinned key) 0 user_key_size; mkKeySlice (Pinned kTsMin) 0 ts_sz;
                    mkKeySlice (Pinned key) user_key_size kNumInternalBytes]);
  SetKeyImpl_slices slices (u64 (size key + ts_sz)) k.

End Ops.
