(* ===== verification/IterKeyProofs.v ===== *)
(** * IterKey: proofs *)

From S2P Require Import Prelude.
From S2P Require Import Slice.
From S2P Require Import Coding.
From S2P Require Import DbFormat.
From S2P Require Import IterKey.

(** ** Memory *)

Lemma mem_read_size m off len bs : mem_read m off len = Some bs -> size bs = len.
Proof.
  unfold mem_read. destruct (Z.eqb_spec len 0) as [->|]; [by intros [= <-]|].
  case_if; [|done]. zbool. intros [= <-]. rewrite size_ztake, size_zdrop by lia. lia.
Qed.

Lemma mem_read_mid a b c : mem_read (a ++ b ++ c) (size a) (size b) = Some b.
Proof.
  unfold mem_read. destruct (Z.eqb_spec (size b) 0) as [E|].
  { f_equal. symmetry. apply nil_length_inv. unfold size in E. lia. }
  pose proof (size_nonneg a). pose proof (size_nonneg b). pose proof (size_nonneg c).
  rewrite !size_app, !(proj2 (Z.leb_le _ _)) by lia. cbn [andb].
  by rewrite zdrop_app, ztake_app.
Qed.

Lemma mem_read_front b c : mem_read (b ++ c) 0 (size b) = Some b.
Proof. apply (mem_read_mid [] b c). Qed.

Lemma mem_write_mid a b c bs : size bs = size b ->
  mem_write (a ++ b ++ c) (size a) bs = Some (a ++ bs ++ c).
Proof.
  intros E. unfold mem_write, poke. pose proof (size_nonneg a). pose proof (size_nonneg c).
  rewrite !size_app, !(proj2 (Z.leb_le _ _)) by lia. cbn [andb]. f_equal.
  rewrite ztake_app. f_equal. f_equal. rewrite E, <- size_app, app_assoc. apply zdrop_app.
Qed.

(** Room for [n] bytes at the end of what has been written. *)
Lemma split_room (a m : bytes) n : 0 <= n -> size a + n <= size (a ++ m) -> exists b c, m = b ++ c /\ size b = n.
Proof.
  intros Hn H. rewrite size_app in H. exists (ztake n m), (zdrop n m).
  split; [by rewrite ztake_zdrop|]. rewrite size_ztake by done. lia.
Qed.

(** ** The destination of a copy *)

Definition dest (to_secondary : bool) (k : IterKey) : bytes :=
  if to_secondary then secondary_buf_ k else buf_ k.
Definition put (to_secondary : bool) (m : bytes) (k : IterKey) : IterKey :=
  if to_secondary then put_secondary m k else put_buf m k.
Definition dest_ptr (to_secondary : bool) : KeyPtr := if to_secondary then InSecondary else InBuf.

Lemma dest_put b m k : dest b (put b m k) = m.
Proof.
  destruct b; cbn; unfold put_secondary, put_buf, secondary_buf_, buf_.
  - destruct (secondary_heap_ k) eqn:E; cbn; by rewrite ?E.
  - destruct (heap_ k) eqn:E; cbn; by rewrite ?E.
Qed.

Lemma put_put b m m' k : put b m' (put b m k) = put b m' k.
Proof.
  destruct b; cbn; unfold put_secondary, put_buf.
  - by destruct (secondary_heap_ k).
  - by destruct (heap_ k).
Qed.

Lemma region_put b m k p : p <> dest_ptr b -> region (put b m k) p = region k p.
Proof.
  destruct b; destruct p; try done; intros _; cbn; unfold put_secondary, put_buf, buf_, secondary_buf_.
  - by destruct (secondary_heap_ k).
  - by destruct (heap_ k).
Qed.

Lemma put_fields b m k :
  key_ (put b m k) = key_ k /\ key_size_ (put b m k) = key_size_ k /\
  buf_size_ (put b m k) = buf_size_ k /\ secondary_buf_size_ (put b m k) = secondary_buf_size_ k /\
  is_user_key_ (put b m k) = is_user_key_ k.
Proof.
  destruct b; cbn; unfold put_secondary, put_buf.
  - by destruct (secondary_heap_ k).
  - by destruct (heap_ k).
Qed.

Lemma buf_put m k : buf_ (put false m k) = m.
Proof. exact (dest_put false m k). Qed.

Lemma secondary_put m k : secondary_buf_ (put false m k) = secondary_buf_ k.
Proof. by apply (region_put false m k InSecondary). Qed.

Lemma write_dest (b : bool) off bs k :
  (if b then write_secondary off bs k else write_buf off bs k) =
  (mem_write (dest b k) off bs ≫= fun m => Some (put b m k)).
Proof. by destruct b. Qed.

Definition reads (k : IterKey) (b : bool) (sl : KeySlice) (bs : bytes) : Prop :=
  mem_read (region k (ks_ptr sl)) (ks_off sl) (ks_len sl) = Some bs /\ ks_ptr sl <> dest_ptr b.

(** The copy loop concatenates what the slices refer to: no slice refers to the buffer that is
    being written. *)
Lemma copy_slices_ok b slices : forall bss k pre rest,
  Forall2 (reads k b) slices bss -> dest b k = pre ++ rest ->
  size pre + size (concat bss) <= size (dest b k) ->
  exists rest', copy_slices b (size pre) slices k =
      Some (size pre + size (concat bss), put b (pre ++ concat bss ++ rest') k) /\
    size (pre ++ concat bss ++ rest') = size (dest b k).
Proof.
  induction slices as [|sl slices IH]; intros bss k pre rest Hr Hd Hroom.
  - apply Forall2_nil_inv_l in Hr as ->. cbn in *. exists rest. rewrite Z.add_0_r, <- Hd.
    split; [|done]. do 2 f_equal. destruct b; cbn; unfold put_secondary, put_buf, secondary_buf_, buf_;
      [destruct (secondary_heap_ k) eqn:E|destruct (heap_ k) eqn:E]; destruct k; cbn in *; by subst.
  - apply Forall2_cons_inv_l in Hr as (bs & bss' & [Hrd Hp] & Hr & ->).
    cbn [copy_slices concat]. rewrite Hrd. cbn [mbind option_bind]. rewrite write_dest.
    cbn [concat] in Hroom. rewrite size_app in Hroom. pose proof (size_nonneg bs).
    pose proof (size_nonneg (concat bss')). pose proof Hroom as Hroom'.
    rewrite Hd in Hroom'. destruct (split_room pre rest (size bs)) as (b1 & c1 & -> & Hb1); [lia|lia|].
    rewrite Hd, mem_write_mid by done. cbn [mbind option_bind].
    assert (size (pre ++ bs ++ c1) = size (dest b k)) as Hsz by (rewrite Hd, !size_app; lia).
    rewrite <- (mem_read_size _ _ _ _ Hrd), <- size_app, app_assoc.
    destruct (IH bss' (put b ((pre ++ bs) ++ c1) k) (pre ++ bs) c1) as (rest' & -> & Hsz').
    + eapply Forall2_impl; [exact Hr|]. intros sl' bs' [H1 H2]. split; [|done]. by rewrite region_put.
    + by rewrite dest_put.
    + rewrite dest_put, <- app_assoc, Hsz, size_app. lia.
    + exists rest'. rewrite put_put. rewrite dest_put, <- !app_assoc, Hsz in Hsz'.
      rewrite Hd, !size_app in Hsz'. rewrite <- !app_assoc, !size_app, Z.add_assoc.
      split; [done|lia].
Qed.

(** ** What the key is *)

Section Key.
Context `{M : KeyMemory} `{!KeyMemoryLaws M}.

Record HasKey (k : IterKey) (bs : bytes) : Prop := {
  h_buf : size (buf_ k) = buf_size_ k;
  h_secondary : size (secondary_buf_ k) = secondary_buf_size_ k;
  h_size : key_size_ k = size bs;
  h_key : exists rest, region k (key_ k) = bs ++ rest;
}.

Lemma key_bytes_ok k bs1 bs2 : HasKey k (bs1 ++ bs2) -> key_bytes k (size bs1) = Some bs1.
Proof.
  intros [_ _ _ [rest E]]. unfold key_bytes. rewrite E, <- app_assoc. apply mem_read_front.
Qed.

Lemma GetKey_ok k bs : HasKey k bs -> GetKey k = Some bs.
Proof.
  intros H. unfold GetKey. rewrite (h_size _ _ H). apply (key_bytes_ok k bs []).
  by rewrite app_nil_r.
Qed.

Lemma new_key : HasKey IterKey_new [].
Proof. split; cbn; [by apply new_bytes_size..|done|]. by exists (new_bytes kInlineBufferSize). Qed.

(** The state before a copy into [buf_]: room, and a key outside of it untouched. *)
Lemma enlarge_ok n k bs : 0 <= n -> HasKey k bs ->
  let k' := EnlargeBufferIfNeeded n k in
  size (buf_ k') = buf_size_ k' /\ n <= size (buf_ k') /\
  secondary_buf_ k' = secondary_buf_ k /\ secondary_buf_size_ k' = secondary_buf_size_ k /\
  is_user_key_ k' = is_user_key_ k /\ (key_ k <> InBuf -> HasKey k' bs /\ key_ k' = key_ k).
Proof.
  intros Hn [H1 H2 H3 [rest H4]] k'. unfold k', EnlargeBufferIfNeeded. rewrite Z.gtb_ltb.
  destruct (Z.ltb_spec (buf_size_ k) n) as [Hlt|Hge].
  - destruct (enlarge_size n k) as [E1 E2], (enlarge_rest n k) as (E3 & E4 & E5).
    split_and!; try done; [lia|]. intros Hne. destruct (enlarge_key n k Hne) as [E6 E7].
    split; [|done]. split; [done|by rewrite E3, E4|by rewrite E7|]. exists rest. rewrite E6, <- H4.
    destruct (key_ k); done.
  - split_and!; try done; [lia|]. intros _. split; [|done]. split; try done. eauto.
Qed.

(** After a write to [buf_] at its start the key is what has been written. *)
Lemma has_key_written (b : bool) k m bs :
  size (buf_ k) = buf_size_ k -> size (secondary_buf_ k) = secondary_buf_size_ k ->
  size (bs ++ m) = size (dest b k) ->
  HasKey (set_key (dest_ptr b) (size bs) (put b (bs ++ m) k)) bs.
Proof.
  intros H1 H2 H3. destruct (put_fields b (bs ++ m) k) as (_ & _ & E3 & E4 & _).
  pose proof (dest_put b (bs ++ m) k) as Ed.
  assert (region (put b (bs ++ m) k) (dest_ptr (negb b)) = region k (dest_ptr (negb b))) as Er
    by (apply region_put; by destruct b).
  split; [| |done|exists m; destruct b; exact Ed].
  - change (size (buf_ (put b (bs ++ m) k)) = buf_size_ (put b (bs ++ m) k)). rewrite E3.
    destruct b; cbn [dest dest_ptr negb region] in *; [by rewrite Er|by rewrite Ed, H3].
  - change (size (secondary_buf_ (put b (bs ++ m) k)) = secondary_buf_size_ (put b (bs ++ m) k)).
    rewrite E4. destruct b; cbn [dest dest_ptr negb region] in *; [by rewrite Ed, H3|by rewrite Er].
Qed.

Lemma write_front k bs : size bs <= size (buf_ k) ->
  exists m, write_buf 0 bs k = Some (put false (bs ++ m) k) /\ size (bs ++ m) = size (buf_ k).
Proof.
  intros H. pose proof (size_nonneg bs).
  destruct (split_room [] (buf_ k) (size bs)) as (b & c & E & Hb); [done|done|].
  exists c. unfold write_buf. pose proof (mem_write_mid [] b c bs (eq_sym Hb)) as Hw.
  rewrite E. cbn in Hw. change (size []) with 0 in Hw. rewrite Hw.
  split; [done|]. rewrite !size_app. lia.
Qed.

Lemma SetKeyImpl_ok key copy k bs : HasKey k bs ->
  exists k', SetKeyImpl key copy k = Some k' /\ HasKey k' key /\ is_user_key_ k' = is_user_key_ k.
Proof.
  intros H. unfold SetKeyImpl. destruct copy.
  - destruct (enlarge_ok (size key) k bs (size_nonneg key) H) as (E1 & E2 & E3 & E4 & E5 & _).
    destruct (write_front (EnlargeBufferIfNeeded (size key) k) key E2) as (m & -> & Hm).
    cbn [mbind option_bind]. eexists. split; [done|]. split.
    + apply (has_key_written false); [done|by rewrite E3, E4; destruct H|done].
    + rewrite <- E5. apply (put_fields false).
  - eexists. split; [done|]. destruct H as [H1 H2 _ _]. split; [|done]. split; try done.
    exists []. by rewrite app_nil_r.
Qed.

(** ** Delta-encoded keys *)

Lemma write_tail k sh m d : buf_ k = sh ++ m -> size sh + size d <= size (buf_ k) ->
  exists c, write_buf (size sh) d k = Some (put false (sh ++ d ++ c) k) /\
    size (sh ++ d ++ c) = size (buf_ k).
Proof.
  intros E H. pose proof (size_nonneg d). rewrite E in H.
  destruct (split_room sh m (size d)) as (b & c & -> & Hb); [done|done|]. exists c.
  unfold write_buf. rewrite E, mem_write_mid by done. split; [done|]. rewrite !size_app. lia.
Qed.

(** The end of [TrimAppend]: the shared bytes are at the start of [buf_], which has room. *)
Lemma trim_tail k sh d rest m :
  buf_ k = sh ++ m -> size (buf_ k) = buf_size_ k -> size (secondary_buf_ k) = secondary_buf_size_ k ->
  size sh + size d <= size (buf_ k) ->
  exists k', (data ← mem_read (d ++ rest) 0 (size d);
      k ← write_buf (size sh) data k;
      Some (set_key InBuf (size sh + size d) k)) = Some k' /\ HasKey k' (sh ++ d) /\
    is_user_key_ k' = is_user_key_ k /\ key_ k' = InBuf.
Proof.
  intros E H1 H2 H3. rewrite mem_read_front. cbn [mbind option_bind].
  destruct (write_tail k sh m d E H3) as (c & -> & Hc). cbn [mbind option_bind].
  eexists. split; [done|]. rewrite <- size_app. split; [|split; [apply (put_fields false)|done]].
  rewrite app_assoc in Hc |- *. by apply (has_key_written false).
Qed.

Lemma TrimAppend_ok k sh tl d rest :
  HasKey k (sh ++ tl) -> key_ k <> InSecondary -> is_uint 64 (size sh + size d) ->
  exists k', TrimAppend (size sh) (d ++ rest) (size d) k = Some k' /\ HasKey k' (sh ++ d) /\
    is_user_key_ k' = is_user_key_ k /\ key_ k' = InBuf.
Proof.
  intros H Hk Ht. unfold TrimAppend. rewrite (wrap_small 64) by done.
  pose proof (size_nonneg sh) as N1. pose proof (size_nonneg d) as N2.
  pose proof (size_nonneg tl) as N3. rewrite (h_size _ _ H), size_app, (proj2 (Z.leb_le _ _)) by lia. cbn [check mbind option_bind].
  unfold IsKeyPinned. pose proof H as [H1 H2 H3 [r H4]]. destruct (key_ k) eqn:Ek; [|done|].
  - destruct (Z.gtb_spec (size sh + size d) (buf_size_ k)) as [Hgt|Hle].
    + rewrite (key_bytes_ok k sh tl H). cbn [mbind option_bind].
      destruct (split_room [] (new_bytes (size sh + size d)) (size sh)) as (b & c & E & Hb);
        [done|cbn [app]; rewrite new_bytes_size, size_nil by lia; lia|].
      pose proof (mem_write_mid [] b c sh (eq_sym Hb)) as Hw. cbn [app] in Hw.
      change (size []) with 0 in Hw. rewrite E, Hw. cbn [mbind option_bind].
      apply (trim_tail (set_heap (Some (sh ++ c)) (size sh + size d) k) sh d rest c); try done.
      * cbn. apply (f_equal size) in E. rewrite new_bytes_size, size_app in E by lia.
        rewrite size_app. lia.
      * cbn. apply (f_equal size) in E. rewrite new_bytes_size, size_app in E by lia.
        rewrite size_app. lia.
    + cbn [mbind option_bind]. apply (trim_tail k sh d rest (tl ++ r)); try done; [|lia].
      cbn [region] in H4. by rewrite <- app_assoc in H4.
  - destruct (enlarge_ok (size sh + size d) k (sh ++ tl) ltac:(lia) H) as (E1 & E2 & E3 & E4 & E5 & E6).
    destruct E6 as [H' Ek']; [by rewrite Ek|].
    set (k1 := EnlargeBufferIfNeeded (size sh + size d) k) in *.
    rewrite (key_bytes_ok k1 sh tl H'). cbn [mbind option_bind].
    destruct (write_front k1 sh) as (m & -> & Hm); [lia|]. cbn [mbind option_bind].
    destruct (put_fields false (sh ++ m) k1) as (_ & _ & F3 & F4 & F5).
    destruct (trim_tail (put false (sh ++ m) k1) sh d rest m) as (k' & Ek2 & HK & Eu & Ep).
    + apply buf_put.
    + by rewrite F3, buf_put, Hm.
    + by rewrite F4, E4, <- H2, <- E3, secondary_put.
    + rewrite buf_put, Hm. lia.
    + exists k'. split_and!; [done|done|by rewrite Eu, F5, E5|done].
Qed.

(** ** Slices *)

(** A slice of the key or of memory of somebody else. *)
Definition slice_of (k : IterKey) (sl : KeySlice) (bs : bytes) : Prop :=
  mem_read (region k (ks_ptr sl)) (ks_off sl) (ks_len sl) = Some bs /\
  (ks_ptr sl = key_ k \/ exists d, ks_ptr sl = Pinned d).

(** The buffer that does not hold the key is made large enough; the slices stay valid. *)
Lemma other_buffer n k bs : 0 <= n -> HasKey k bs ->
  let b := match key_ k with InBuf => true | _ => false end in
  let k1 := if b then set_key InSecondary (key_size_ k) (EnlargeSecondaryBufferIfNeeded n k)
            else set_key InBuf (key_size_ k) (EnlargeBufferIfNeeded n k) in
  size (buf_ k1) = buf_size_ k1 /\ size (secondary_buf_ k1) = secondary_buf_size_ k1 /\
  n <= size (dest b k1) /\ key_ k1 = dest_ptr b /\ is_user_key_ k1 = is_user_key_ k /\
  forall sl x, slice_of k sl x -> reads k1 b sl x.
Proof.
  intros Hn H. pose proof H as [H1 H2 H3 H4]. destruct (key_ k) eqn:Ek; cbn zeta iota.
  - destruct (enlarge2_size n k H2) as [E1 E2]. destruct (enlarge2_rest n k) as (E3 & E4 & E5).
    set (k2 := EnlargeSecondaryBufferIfNeeded n k) in *.
    split_and!; try done; [by change (size (buf_ k2) = buf_size_ k2); rewrite E3, E4|
      change (n <= size (secondary_buf_ k2)); lia|].
    intros [p o l] x [Hr Hp]. cbn [ks_ptr ks_off ks_len] in *. split; [|destruct Hp as [->|[d ->]]; by rewrite ?Ek].
    destruct Hp as [->|[d ->]]; [|done]. rewrite Ek in *. cbn [region] in *.
    change (mem_read (buf_ k2) o l = Some x). by rewrite E3.
  - destruct (enlarge_ok n k bs Hn H) as (E1 & E2 & E3 & E4 & E5 & E6).
    destruct E6 as [H' Ek']; [by rewrite Ek|]. set (k2 := EnlargeBufferIfNeeded n k) in *.
    split_and!; try done; [by destruct H'|].
    intros [p o l] x [Hr Hp]. cbn [ks_ptr ks_off ks_len] in *. split; [|destruct Hp as [->|[d ->]]; by rewrite ?Ek].
    destruct Hp as [->|[d ->]]; [|done]. rewrite Ek in *. cbn [region] in *.
    change (mem_read (secondary_buf_ k2) o l = Some x). by rewrite E3.
  - destruct (enlarge_ok n k bs Hn H) as (E1 & E2 & E3 & E4 & E5 & E6).
    destruct E6 as [H' Ek']; [by rewrite Ek|]. set (k2 := EnlargeBufferIfNeeded n k) in *.
    split_and!; try done; [by destruct H'|].
    intros [p o l] x [Hr Hp]. cbn [ks_ptr ks_off ks_len] in *. split; [|destruct Hp as [->|[d ->]]; by rewrite ?Ek].
    destruct Hp as [->|[d ->]]; [|done]. rewrite Ek in *. done.
Qed.

Lemma SetKeyImpl_slices_ok k bs slices bss total :
  HasKey k bs -> Forall2 (slice_of k) slices bss -> (length slices <= 5)%nat ->
  total = size (concat bss) ->
  exists k', SetKeyImpl_slices slices total k = Some k' /\ HasKey k' (concat bss) /\
    is_user_key_ k' = is_user_key_ k.
Proof.
  intros H Hs Hlen ->. unfold SetKeyImpl_slices. rewrite bool_decide_eq_true_2 by done.
  cbn [check mbind option_bind].
  destruct (other_buffer (size (concat bss)) k bs (size_nonneg _) H) as (E1 & E2 & E3 & E4 & E5 & E6).
  set (b := match key_ k with InBuf => true | _ => false end) in *.
  set (k1 := if b then _ else _) in *.
  destruct (copy_slices_ok b slices bss k1 [] (dest b k1)) as (rest & Ec & Hsz).
  - eapply Forall2_impl; [exact Hs|]. exact E6.
  - done.
  - rewrite size_nil. lia.
  - rewrite size_nil, Z.add_0_l in Ec. rewrite Ec. cbn [mbind option_bind]. rewrite Z.eqb_refl.
    cbn [check mbind option_bind app]. eexists. split; [done|].
    destruct (put_fields b (concat bss ++ rest) k1) as (F1 & _ & _ & _ & F5).
    rewrite F1, E4. split; [|change (is_user_key_ (put b (concat bss ++ rest) k1) = is_user_key_ k);
      by rewrite F5].
    by apply has_key_written.
Qed.

(** ** Minimal timestamps *)

(** The key with the minimal timestamp behind the user key. *)
Definition pad_ts (user : bool) (x : bytes) : bytes :=
  if user then x ++ kTsMin else ztake (size x - 8) x ++ kTsMin ++ zdrop (size x - 8) x.

Lemma pad_split x1 x2 : size x2 = 8 -> pad_ts false (x1 ++ x2) = x1 ++ kTsMin ++ x2.
Proof.
  intros E. cbn [pad_ts]. rewrite size_app, E. replace (size x1 + 8 - 8) with (size x1) by lia.
  by rewrite ztake_app, zdrop_app.
Qed.

Lemma split_at (x : bytes) n : 0 <= n <= size x ->
  exists x1 x2, x = x1 ++ x2 /\ size x1 = n /\ size x2 = size x - n.
Proof.
  intros Hn. exists (ztake n x), (zdrop n x). rewrite ztake_zdrop, size_ztake, size_zdrop by lia.
  split_and!; [done|lia|lia].
Qed.

Lemma size_pad_ts u x : (u = false -> 8 <= size x) -> size (pad_ts u x) = size x + 8.
Proof.
  intros H. destruct u; cbn [pad_ts]; [by rewrite size_app|]. specialize (H eq_refl).
  rewrite !size_app, size_ztake, size_zdrop by lia. change (size kTsMin) with 8. lia.
Qed.

Lemma slice_key k bs a b c : HasKey k bs -> bs = a ++ b ++ c ->
  slice_of k (mkKeySlice (key_ k) (size a) (size b)) b.
Proof.
  intros [_ _ _ [rest E]] ->. split; [|by left]. cbn [ks_ptr ks_off ks_len].
  rewrite E, <- !app_assoc. apply mem_read_mid.
Qed.

Lemma slice_ext k a b c : slice_of k (mkKeySlice (Pinned (a ++ b ++ c)) (size a) (size b)) b.
Proof. split; [apply mem_read_mid|eauto]. Qed.

Lemma slice_none k p off : p = key_ k -> slice_of k (mkKeySlice p off 0) [].
Proof. intros ->. split; [done|by left]. Qed.

Lemma slice_ts k : slice_of k (mkKeySlice (Pinned kTsMin) 0 8) kTsMin.
Proof. split; [done|eauto]. Qed.

(** [MaybeAddKeyPartsWithTimestamp], without and with the timestamp. *)
Lemma parts_plain p off sz add left slices added : add && negb added = false ->
  (length slices < 5)%nat ->
  MaybeAddKeyPartsWithTimestamp p off sz add left 8 (slices, added) =
  Some (slices ++ [mkKeySlice p off sz], added).
Proof.
  intros E Hl. unfold MaybeAddKeyPartsWithTimestamp. rewrite E. cbn [mbind option_bind fst].
  rewrite bool_decide_eq_true_2; [done|]. rewrite length_app. cbn. lia.
Qed.

Lemma parts_split p off sz left slices : left <= sz -> (length slices < 3)%nat ->
  MaybeAddKeyPartsWithTimestamp p off sz true left 8 (slices, false) =
  Some (slices ++ [mkKeySlice p off left; mkKeySlice (Pinned kTsMin) 0 8;
                   mkKeySlice p (off + left) (sz - left)], true).
Proof.
  intros E Hl. unfold MaybeAddKeyPartsWithTimestamp. cbn [andb negb].
  rewrite Z.geb_leb, (proj2 (Z.leb_le _ _)) by done. cbn [check mbind option_bind fst].
  rewrite bool_decide_eq_true_2; [done|]. rewrite length_app. cbn. lia.
Qed.

(** The three calls for an internal key: [A] and [B] are the shared bytes of the user key and
    of the footer of the old key, [U] the length of its user key with timestamp. *)
Definition three_parts (k : IterKey) (U A B d : Z) (data : bytes) : option (list KeySlice) :=
  st ← MaybeAddKeyPartsWithTimestamp (key_ k) 0 A (B + d <? 8) (u64 (A + B + d - 8)) 8 ([], false);
  st ← MaybeAddKeyPartsWithTimestamp (key_ k) U B (d <? 8) (u64 (B + d - 8)) 8 st;
  '(slices, ts_added) ← MaybeAddKeyPartsWithTimestamp (Pinned data) 0 d (d >=? 8) (u64 (d - 8)) 8 st;
  _ ← check ts_added;
  Some slices.

Ltac all_slices := repeat (apply Forall2_cons_2; [done|]); by apply Forall2_nil_2.

(** Whichever of the three the footer of the new key begins in is cut for the timestamp. *)
Lemma three_parts_ok k U A B d rest :
  slice_of k (mkKeySlice (key_ k) 0 (size A)) A ->
  (forall A1 A2, A = A1 ++ A2 -> slice_of k (mkKeySlice (key_ k) 0 (size A1)) A1 /\
     slice_of k (mkKeySlice (key_ k) (size A1) (size A2)) A2) ->
  slice_of k (mkKeySlice (key_ k) U (size B)) B ->
  (forall B1 B2, B = B1 ++ B2 -> slice_of k (mkKeySlice (key_ k) U (size B1)) B1 /\
     slice_of k (mkKeySlice (key_ k) (U + size B1) (size B2)) B2) ->
  8 <= size A + size B + size d -> is_uint 64 (size A + size B + size d) ->
  exists slices bss, three_parts k U (size A) (size B) (size d) (d ++ rest) = Some slices /\
    Forall2 (slice_of k) slices bss /\ (length slices <= 5)%nat /\
    concat bss = pad_ts false (A ++ B ++ d).
Proof.
  intros SA SA' SB SB' Htot Hu. unfold three_parts. rewrite Z.geb_leb.
  pose proof (size_nonneg A) as N1. pose proof (size_nonneg B) as N2. pose proof (size_nonneg d) as N3.
  pose proof (slice_ts k) as ST. pose proof (slice_ext k [] d rest : slice_of k (mkKeySlice (Pinned (d ++ rest)) 0 (size d)) d) as SD.
  unfold is_uint in Hu.
  destruct (Z.ltb_spec (size B + size d) 8) as [H1|H1].
  - destruct (split_at A (size A + size B + size d - 8)) as (A1 & A2 & EA & EA1 & EA2); [lia|].
    rewrite (wrap_small 64 (size A + size B + size d - 8)) by (unfold is_uint; lia).
    rewrite parts_split by (cbn; lia). cbn [mbind option_bind app].
    rewrite parts_plain by (rewrite ?andb_false_r; cbn; lia || done). cbn [mbind option_bind app].
    rewrite parts_plain by (rewrite ?andb_false_r; cbn; lia || done). cbn [check mbind option_bind app].
    destruct (SA' A1 A2 EA) as [S1 S2]. rewrite Z.add_0_l, <- EA1.
    replace (size A - size A1) with (size A2) by lia.
    eexists _, [A1; kTsMin; A2; B; d]. split_and!; [done|by all_slices|cbn; lia|].
    cbn [concat]. rewrite app_nil_r, EA, <- app_assoc, pad_split by (rewrite !size_app; lia). done.
  - rewrite parts_plain by (cbn; lia || done). cbn [mbind option_bind app].
    destruct (Z.ltb_spec (size d) 8) as [H2|H2].
    + destruct (split_at B (size B + size d - 8)) as (B1 & B2 & EB & EB1 & EB2); [lia|].
      rewrite (wrap_small 64 (size B + size d - 8)) by (unfold is_uint; lia).
      rewrite parts_split by (cbn; lia). cbn [mbind option_bind app].
      rewrite parts_plain by (rewrite ?andb_false_r; cbn; lia || done). cbn [check mbind option_bind app].
      destruct (SB' B1 B2 EB) as [S1 S2]. rewrite <- EB1.
      replace (size B - size B1) with (size B2) by lia.
      eexists _, [A; B1; kTsMin; B2; d]. split_and!; [done|by all_slices|cbn; lia|].
      replace (A ++ B ++ d) with ((A ++ B1) ++ B2 ++ d) by (by rewrite EB, <- !app_assoc).
      rewrite pad_split by (rewrite size_app; lia). cbn [concat].
      by rewrite app_nil_r, <- !app_assoc.
    + rewrite parts_plain by (cbn; lia || done). cbn [mbind option_bind app].
      destruct (split_at d (size d - 8)) as (D1 & D2 & ED & ED1 & ED2); [lia|].
      rewrite (proj2 (Z.leb_le 8 (size d))) by lia.
      rewrite (wrap_small 64 (size d - 8)) by (unfold is_uint; lia).
      rewrite parts_split by (cbn; lia). cbn [check mbind option_bind app].
      rewrite Z.add_0_l, <- ED1. replace (size d - size D1) with (size D2) by lia.
      pose proof (slice_ext k [] D1 (D2 ++ rest)) as S1. pose proof (slice_ext k D1 D2 rest) as S2.
      cbn [app] in S1. rewrite app_assoc, <- ED in S1, S2.
      eexists _, [A; B; D1; kTsMin; D2]. split_and!; [done|by all_slices|cbn; lia|].
      replace (A ++ B ++ d) with ((A ++ B ++ D1) ++ D2) by (by rewrite ED, <- !app_assoc).
      rewrite pad_split by lia. cbn [concat]. by rewrite app_nil_r, <- !app_assoc.
Qed.

Lemma timestamp_slices_internal k A B d data : is_user_key_ k = false -> 8 <= A + B + d ->
  Z.min (A + B) (u64 (u64 (key_size_ k - 8) - 8)) = A ->
  timestamp_slices k (A + B) data d 8 = three_parts k (u64 (key_size_ k - 8)) A B d data.
Proof.
  intros Hu Htot E. unfold timestamp_slices, kNumInternalBytes. rewrite Hu.
  rewrite (Z.geb_leb (A + B + d)), (proj2 (Z.leb_le 8 (A + B + d))) by lia.
  cbn [check mbind option_bind]. rewrite E. by replace (A + B - A) with B by lia.
Qed.

(** The slices of a new internal key that shares bytes with the old one. *)
Lemma internal_slices k A A' B B' d rest :
  let old := (A ++ A') ++ kTsMin ++ B ++ B' in
  HasKey k old -> is_user_key_ k = false -> size B + size B' = 8 -> A' = [] \/ B = [] ->
  is_uint 64 (size old) -> 8 <= size A + size B + size d -> is_uint 64 (size A + size B + size d) ->
  exists slices bss, timestamp_slices k (size A + size B) (d ++ rest) (size d) 8 = Some slices /\
    Forall2 (slice_of k) slices bss /\ (length slices <= 5)%nat /\
    concat bss = pad_ts false (A ++ B ++ d).
Proof.
  intros old H Hu Hb Hab Hsz Htot Htot'. pose proof (size_nonneg A) as N1.
  pose proof (size_nonneg A') as N2. pose proof (size_nonneg B) as N3. unfold is_uint in *.
  assert (size old = size A + size A' + 16) as Eold.
  { unfold old. rewrite !size_app. change (size kTsMin) with 8. lia. }
  assert (u64 (key_size_ k - 8) = size (A ++ A' ++ kTsMin)) as EU.
  { rewrite (h_size _ _ H), Eold, wrap_small by (unfold is_uint; lia). rewrite !size_app.
    change (size kTsMin) with 8. lia. }
  rewrite timestamp_slices_internal; [|done|lia|].
  - rewrite EU. apply three_parts_ok; try done.
    + apply (slice_key k old [] A (A' ++ kTsMin ++ B ++ B') H). unfold old. by rewrite <- !app_assoc.
    + intros A1 A2 ->. unfold old in H. split.
      * apply (slice_key k _ [] A1 (A2 ++ A' ++ kTsMin ++ B ++ B') H). by rewrite <- !app_assoc.
      * apply (slice_key k _ A1 A2 (A' ++ kTsMin ++ B ++ B') H). by rewrite <- !app_assoc.
    + apply (slice_key k old _ B B' H). unfold old. by rewrite <- !app_assoc.
    + intros B1 B2 ->. unfold old in H. rewrite <- size_app. split.
      * apply (slice_key k _ (A ++ A' ++ kTsMin) B1 (B2 ++ B') H). by rewrite <- !app_assoc.
      * apply (slice_key k _ ((A ++ A' ++ kTsMin) ++ B1) B2 B' H). by rewrite <- !app_assoc.
  - rewrite EU, !size_app. change (size kTsMin) with 8. rewrite wrap_small by (unfold is_uint; lia).
    destruct Hab as [-> | ->]; rewrite size_nil; lia.
Qed.

(** The slices of a key that shares nothing. *)
Lemma fresh_slices k old d rest : HasKey k old -> is_user_key_ k = false ->
  8 <= size d -> is_uint 64 (size d) ->
  exists slices bss, timestamp_slices k 0 (d ++ rest) (size d) 8 = Some slices /\
    Forall2 (slice_of k) slices bss /\ (length slices <= 5)%nat /\ concat bss = pad_ts false d.
Proof.
  intros H Hu Hd Hd'. pose proof (timestamp_slices_internal k 0 0 (size d) (d ++ rest) Hu) as E.
  change (0 + 0) with 0 in E. rewrite E; [|lia|apply Z.min_l, wrap_range; lia].
  apply (three_parts_ok k _ [] [] d rest); try done.
  - by apply slice_none.
  - intros A1 A2 Hn. symmetry in Hn. apply app_nil in Hn as [-> ->]. split; by apply slice_none.
  - by apply slice_none.
  - intros A1 A2 Hn. symmetry in Hn. apply app_nil in Hn as [-> ->]. split; by apply slice_none.
Qed.

(** The bytes shared with a padded internal key. *)
Lemma shared_parts sh tl : 8 <= size (sh ++ tl) ->
  exists A A' B B', pad_ts false (sh ++ tl) = (A ++ A') ++ kTsMin ++ B ++ B' /\ sh = A ++ B /\
    size B + size B' = 8 /\ (A' = [] \/ B = []).
Proof.
  intros H. destruct (split_at (sh ++ tl) (size (sh ++ tl) - 8)) as (X & F & E & _ & HF); [lia|].
  rewrite E. rewrite pad_split by lia.
  apply app_eq_inv in E as [(B & -> & ->)|(A' & -> & ->)].
  - exists X, [], B, tl. rewrite app_nil_r, size_app in *. split_and!; [done|done|lia|by left].
  - exists sh, A', [], F. rewrite app_nil_r. split_and!; [done|done|rewrite size_nil; lia|by right].
Qed.

(** The key of an entry: [sh] is what it shares with the entry before, [d] the rest. *)
Lemma TrimAppendWithTimestamp_ok k old sh d rest :
  let u := is_user_key_ k in
  HasKey k old -> sh = [] \/ (exists tl, old = pad_ts u (sh ++ tl) /\ (u = false -> 8 <= size (sh ++ tl))) ->
  is_uint 64 (size old) -> is_uint 64 (size sh + size d + 8) -> (u = false -> 8 <= size sh + size d) ->
  exists k', TrimAppendWithTimestamp (size sh) (d ++ rest) (size d) 8 k = Some k' /\
    HasKey k' (pad_ts u (sh ++ d)) /\ is_user_key_ k' = u.
Proof.
  intros u H Hold Hs1 Hs2 Hmin. unfold TrimAppendWithTimestamp. cbn [check mbind option_bind Z.eqb Pos.eqb].
  pose proof (size_nonneg sh) as N1. pose proof (size_nonneg d) as N2.
  assert (exists slices bss, timestamp_slices k (size sh) (d ++ rest) (size d) 8 = Some slices /\
    Forall2 (slice_of k) slices bss /\ (length slices <= 5)%nat /\ concat bss = pad_ts u (sh ++ d))
    as (slices & bss & -> & Hsl & Hlen & Hc).
  { destruct u eqn:Eu.
    - unfold timestamp_slices. unfold u in Eu. rewrite Eu. eexists _, [sh; d; kTsMin].
      split_and!; [done| |cbn; lia|cbn [concat pad_ts]; by rewrite app_nil_r, <- app_assoc].
      assert (slice_of k (mkKeySlice (key_ k) 0 (size sh)) sh) as S1.
      { destruct Hold as [->|(tl & -> & _)]; [by apply slice_none|].
        apply (slice_key k _ [] sh (tl ++ kTsMin) H). cbn. by rewrite <- app_assoc. }
      pose proof (slice_ext k [] d rest) as S2. pose proof (slice_ts k) as S3. all_slices.
    - destruct Hold as [->|(tl & -> & Hx)].
      + apply (fresh_slices k old d rest); [done|done|specialize (Hmin eq_refl); rewrite (@size_nil byte) in Hmin; lia|].
        rewrite (@size_nil byte) in Hs2. unfold is_uint in *. lia.
      + destruct (shared_parts sh tl (Hx eq_refl)) as (A & A' & B & B' & E & -> & HB & HAB).
        rewrite E in H, Hs1. rewrite (size_app A B) in *. rewrite <- app_assoc.
        apply (internal_slices k A A' B B'); try done; [by apply Hmin|]. unfold is_uint in *. lia. }
  cbn [mbind option_bind].
  destruct (SetKeyImpl_slices_ok k old slices bss (u64 (size sh + size d + 8)) H Hsl Hlen) as
    (k' & E & HK & Eu); [|exists k'; by rewrite <- Hc].
  rewrite Hc, wrap_small, size_pad_ts, size_app by (rewrite ?size_app; done). lia.
Qed.

(** ** A block of delta-encoded keys *)

(** An entry: how many bytes it shares with the key before, its other bytes, and what follows
    them in the block. *)
Record Delta : Type := mkDelta { de_shared : Z; de_data : bytes; de_rest : bytes }.

Definition append_delta (k : IterKey) (de : Delta) : option IterKey :=
  TrimAppend (de_shared de) (de_data de ++ de_rest de) (size (de_data de)) k.

Definition append_delta_ts (k : IterKey) (de : Delta) : option IterKey :=
  TrimAppendWithTimestamp (de_shared de) (de_data de ++ de_rest de) (size (de_data de)) 8 k.

(** [GetKey] after every entry. *)
Fixpoint decode_deltas (step : IterKey -> Delta -> option IterKey) (k : IterKey) (des : list Delta) :
    option (list Slice) :=
  match des with
  | [] => Some []
  | de :: des =>
      k ← step k de;
      key ← GetKey k;
      keys ← decode_deltas step k des;
      Some (key :: keys)
  end.

(** The entries encode the keys, the first one after the key [before]. *)
Inductive deltas : bytes -> list Delta -> list bytes -> Prop :=
| deltas_nil before : deltas before [] []
| deltas_cons sh tl d rest des keys :
    is_uint 64 (size (sh ++ d) + 8) -> deltas (sh ++ d) des keys ->
    deltas (sh ++ tl) (mkDelta (size sh) d rest :: des) ((sh ++ d) :: keys).

Lemma decode_plain_ok before des keys : deltas before des keys -> forall k,
  HasKey k before -> key_ k <> InSecondary -> decode_deltas append_delta k des = Some keys.
Proof.
  induction 1 as [|sh tl d rest des keys Hs _ IH]; intros k H Hk; [done|].
  cbn [decode_deltas].
  destruct (TrimAppend_ok k sh tl d rest H Hk) as (k' & E & H' & _ & Hk').
  { rewrite size_app in Hs. pose proof (size_nonneg sh). pose proof (size_nonneg d).
    unfold is_uint in *. lia. }
  change (append_delta k (mkDelta (size sh) d rest) = Some k') in E. rewrite E.
  cbn [mbind option_bind]. rewrite (GetKey_ok k' _ H'). cbn [mbind option_bind].
  rewrite (IH k' H') by (by rewrite Hk'). done.
Qed.

Lemma decode_ts_ok u before des keys : deltas before des keys -> forall k old,
  is_user_key_ k = u -> HasKey k old -> is_uint 64 (size old) ->
  (before = [] \/ old = pad_ts u before /\ (u = false -> 8 <= size before)) ->
  (u = false -> Forall (fun key => 8 <= size key) keys) ->
  decode_deltas append_delta_ts k des = Some (map (pad_ts u) keys).
Proof.
  induction 1 as [|sh tl d rest des keys Hs _ IH]; intros k old Hu H Hsz Hold Hlong; [done|].
  cbn [decode_deltas].
  assert (u = false -> 8 <= size (sh ++ d)) as Hlen.
  { intros E. specialize (Hlong E). by apply Forall_cons in Hlong as [? _]. }
  destruct (TrimAppendWithTimestamp_ok k old sh d rest H) as (k' & Ek & H' & Eu).
  - destruct Hold as [E|[-> Hx]]; [left; by apply app_nil in E as [-> _]|right].
    exists tl. rewrite Hu. done.
  - done.
  - by rewrite <- size_app.
  - rewrite Hu, <- size_app. done.
  - change (append_delta_ts k (mkDelta (size sh) d rest) = Some k') in Ek. rewrite Ek.
    cbn [mbind option_bind]. rewrite (GetKey_ok k' _ H'). cbn [mbind option_bind]. rewrite Hu in H', Eu.
    rewrite (IH k' _ Eu H'); [by rewrite Hu| |right; done|].
    + by rewrite size_pad_ts.
    + intros E. specialize (Hlong E). by apply Forall_cons in Hlong as [_ ?].
Qed.

(** ** Keys from parts *)

Lemma put_same k : put false (buf_ k) k = k.
Proof. cbn. unfold put_buf, buf_. destruct (heap_ k) eqn:E; destruct k; cbn in *; by subst. Qed.

(** Writing behind what has been written to [buf_] before. *)
Lemma write_next k a m d : size (a ++ m) = size (buf_ k) -> size a + size d <= size (buf_ k) ->
  exists c, write_buf (size a) d (put false (a ++ m) k) = Some (put false ((a ++ d) ++ c) k) /\
    size ((a ++ d) ++ c) = size (buf_ k).
Proof.
  intros E H. destruct (write_tail (put false (a ++ m) k) a m d) as (c & -> & Hc).
  - apply buf_put.
  - by rewrite buf_put, E.
  - exists c. by rewrite put_put, <- app_assoc, Hc, buf_put.
Qed.

Lemma SetInternalKey_parts_ok prefix uk s t ts k old : HasKey k old ->
  exists k', SetInternalKey_parts prefix uk s t ts k = Some k' /\ is_user_key_ k' = false /\
    HasKey k' (prefix ++ uk ++ default [] ts ++ EncodeFixed64 (PackSequenceAndType s t)).
Proof.
  intros H. unfold SetInternalKey_parts. set (ts_sz := match ts with Some ts => size ts | None => 0 end).
  assert (size (default [] ts) = ts_sz) as Ets by (by destruct ts).
  pose proof (size_nonneg prefix) as N1. pose proof (size_nonneg uk) as N2.
  pose proof (size_nonneg (default [] ts)) as N3. set (total := size prefix + size uk + 8 + ts_sz).
  destruct (enlarge_ok total k old ltac:(unfold total; lia) H) as (E1 & E2 & E3 & E4 & _ & _).
  set (k1 := EnlargeBufferIfNeeded total k) in *. unfold total in E2.
  assert (exists m, (if size prefix >? 0 then write_buf 0 prefix k1 else Some k1) =
    Some (put false (prefix ++ m) k1) /\ size (prefix ++ m) = size (buf_ k1)) as (m & -> & Hm).
  { destruct (Z.gtb_spec (size prefix) 0); [apply write_front; lia|]. exists (buf_ k1).
    assert (prefix = []) as -> by (apply nil_length_inv; unfold size in *; lia).
    split; [|done]. cbn [app]. by rewrite put_same. }
  cbn [mbind option_bind].
  destruct (write_next k1 prefix m uk Hm) as (c & -> & Hc); [lia|]. cbn [mbind option_bind].
  assert (exists c', match ts with
    | Some ts => write_buf (size prefix + size uk) ts (put false ((prefix ++ uk) ++ c) k1)
    | None => Some (put false ((prefix ++ uk) ++ c) k1) end =
    Some (put false (((prefix ++ uk) ++ default [] ts) ++ c') k1) /\
    size (((prefix ++ uk) ++ default [] ts) ++ c') = size (buf_ k1)) as (c' & -> & Hc').
  { destruct ts as [ts|]; cbn [default from_option] in *;
      [|exists c; by rewrite (app_nil_r (prefix ++ uk))].
    rewrite <- size_app. apply write_next; [done|]. unfold ts_sz, id in *. rewrite size_app. lia. }
  cbn [mbind option_bind].
  replace (size uk + size prefix + ts_sz) with (size ((prefix ++ uk) ++ default [] ts))
    by (rewrite !size_app; lia).
  destruct (write_next k1 _ c' (EncodeFixed64 (PackSequenceAndType s t)) Hc') as (c2 & -> & Hc2);
    [rewrite !size_app, size_EncodeFixed64; lia|].
  cbn [mbind option_bind]. eexists. split_and!; [done|done|].
  replace total with (size (((prefix ++ uk) ++ default [] ts) ++ EncodeFixed64 (PackSequenceAndType s t)))
    by (rewrite !size_app, size_EncodeFixed64; unfold total; lia).
  rewrite <- !app_assoc. rewrite <- !app_assoc in Hc2.
  pose proof (has_key_written false k1 c2 (prefix ++ uk ++ default [] ts ++ EncodeFixed64 (PackSequenceAndType s t))) as HW.
  rewrite <- !app_assoc in HW. destruct HW as [W1 W2 W3 W4]; [done|by rewrite E3, E4; destruct H|done|].
  by split.
Qed.

Lemma SetKeyWithPaddedMinTimestamp_ok key k old : HasKey k old ->
  (is_user_key_ k = false -> 8 <= size key) -> is_uint 64 (size key + 8) ->
  exists k', SetKeyWithPaddedMinTimestamp key 8 k = Some k' /\
    HasKey k' (pad_ts (is_user_key_ k) key) /\ is_user_key_ k' = is_user_key_ k.
Proof.
  intros H Hlen Hsz. unfold SetKeyWithPaddedMinTimestamp. cbn [check mbind option_bind Z.eqb Pos.eqb].
  pose proof (slice_ts k) as ST.
  rewrite wrap_small by done. destruct (is_user_key_ k) eqn:Eu; cbn [mbind option_bind].
  - pose proof (slice_ext k [] key []) as S1. cbn [app] in S1. rewrite app_nil_r in S1.
    match goal with |- context [SetKeyImpl_slices ?sl] => set (sls := sl) end.
    destruct (SetKeyImpl_slices_ok k old sls [key; kTsMin] (size key + 8) H) as (k' & -> & H' & Eu');
      [by unfold sls; all_slices|cbn; lia|cbn [concat]; by rewrite app_nil_r, size_app|].
    exists k'. rewrite Eu in Eu'. cbn [concat] in H'. by rewrite app_nil_r in H'.
  - specialize (Hlen eq_refl). unfold kNumInternalBytes.
    rewrite Z.geb_leb, (proj2 (Z.leb_le _ _)) by done. cbn [check mbind option_bind].
    destruct (split_at key (size key - 8)) as (a & b & -> & Ea & Eb); [lia|].
    pose proof (slice_ext k [] a b) as S1. pose proof (slice_ext k a b []) as S2. cbn [app] in S1.
    rewrite app_nil_r in S2. rewrite Ea in S1, S2. replace (size b) with 8 in S2 by lia.
    match goal with |- context [SetKeyImpl_slices ?sl] => set (sls := sl) end.
    destruct (SetKeyImpl_slices_ok k old sls [a; kTsMin; b] (size (a ++ b) + 8) H) as (k' & -> & H' & Eu');
      [by unfold sls; all_slices|cbn; lia| |].
    + cbn [concat]. rewrite app_nil_r, !size_app. change (size kTsMin) with 8. lia.
    + exists k'. rewrite Eu in Eu'. cbn [concat] in H'. rewrite app_nil_r in H'.
      by rewrite pad_split by lia.
Qed.

(** ** Properties *)

Lemma new_key_as u : HasKey (set_is_user_key u IterKey_new) [].
Proof. destruct new_key as [H1 H2 H3 H4]. by split. Qed.

(** C34: a block of delta-encoded keys is decoded entry by entry. [TrimAppend] gives back every
    key; [TrimAppendWithTimestamp] gives back every key with the minimal timestamp behind its
    user key, wherever the boundary between user key and footer falls: in the bytes shared
    with the user key before, in those shared with its footer, or in the new bytes. No copy
    leaves its buffer, and no slice refers to the buffer that is being written. *)
Theorem iter_key_deltas u des keys (Hd : deltas [] des keys)
    (Hlong : u = false -> Forall (fun key => 8 <= size key) keys) :
  decode_deltas append_delta (set_is_user_key u IterKey_new) des = Some keys /\
  decode_deltas append_delta_ts (set_is_user_key u IterKey_new) des = Some (map (pad_ts u) keys).
Proof.
  split.
  - by apply (decode_plain_ok [] des keys Hd); [apply new_key_as|].
  - apply (decode_ts_ok u [] des keys Hd _ []); [done|apply new_key_as|done|by left|done].
Qed.

(** whatever the key was before and wherever it is kept, [GetKey] returns the key that has
    been set: copied or pinned, put together from prefix, user key, timestamp and footer, or
    padded with the minimal timestamp; the user key of an internal key is the key without its
    footer. *)
Theorem iter_key_set k old key copy prefix uk s t ts (H : HasKey k old) :
  (exists k', SetKey key copy k = Some k' /\ GetKey k' = Some key) /\
  (exists k', SetUserKey key copy k = Some k' /\ GetUserKey k' = Some key) /\
  (exists k', SetInternalKey (uk ++ EncodeFixed64 (PackSequenceAndType s t)) copy k = Some k' /\
     GetInternalKey k' = Some (uk ++ EncodeFixed64 (PackSequenceAndType s t)) /\
     GetUserKey k' = Some uk) /\
  (exists k', SetInternalKey_parts prefix uk s t ts k = Some k' /\
     GetKey k' = Some (prefix ++ uk ++ default [] ts ++ EncodeFixed64 (PackSequenceAndType s t)) /\
     GetUserKey k' = Some (prefix ++ uk ++ default [] ts)).
Proof.
  assert (forall k' x f, HasKey k' (x ++ f) -> is_user_key_ k' = false -> size f = 8 ->
    GetUserKey k' = Some x) as Huser.
  { intros k' x f H' Eu Ef. unfold GetUserKey. rewrite Eu, (h_size _ _ H'), size_app, Ef.
    pose proof (size_nonneg x). unfold kNumInternalBytes. rewrite Z.geb_leb, (proj2 (Z.leb_le _ _)) by lia.
    cbn [check mbind option_bind]. replace (size x + 8 - 8) with (size x) by lia.
    by apply (key_bytes_ok k' x f). }
  split_and!.
  - destruct (SetKeyImpl_ok key copy k old H) as (k' & E & H' & _). exists k'. split; [done|].
    by apply GetKey_ok.
  - destruct (SetKeyImpl_ok key copy (set_is_user_key true k) old) as (k' & E & H' & Eu);
      [by destruct H; split|]. exists k'. split; [done|]. unfold GetUserKey. rewrite Eu.
    by apply GetKey_ok.
  - destruct (SetKeyImpl_ok (uk ++ EncodeFixed64 (PackSequenceAndType s t)) copy (set_is_user_key false k) old)
      as (k' & E & H' & Eu); [by destruct H; split|]. cbn in Eu. exists k'. split; [done|].
    split; [unfold GetInternalKey; rewrite Eu; by apply GetKey_ok|].
    apply (Huser k' uk (EncodeFixed64 (PackSequenceAndType s t))); [done|done|apply size_EncodeFixed64].
  - destruct (SetInternalKey_parts_ok prefix uk s t ts k old H) as (k' & E & Eu & H').
    exists k'. split; [done|]. split; [by apply GetKey_ok|].
    apply (Huser k' _ (EncodeFixed64 (PackSequenceAndType s t)));
      [by rewrite <- !app_assoc|done|apply size_EncodeFixed64].
Qed.

End Key.

(** ** An instance of the memory operations *)

#[local] Instance demo_memory : KeyMemory := {
  new_bytes n := replicate (Z.to_nat n) xcc;
  EnlargeBuffer n k := set_heap (Some (replicate (Z.to_nat (Z.max n 0)) xcc)) (Z.max n 0) (ResetBuffer k);
  EnlargeSecondaryBufferIfNeeded n k :=
    if n >? secondary_buf_size_ k then
      set_secondary_heap (Some (replicate (Z.to_nat n) xcc)) n (ResetSecondaryBuffer k)
    else k;
}.

#[local] Instance demo_memory_laws : KeyMemoryLaws demo_memory.
Proof.
  assert (forall n, 0 <= n -> size (replicate (Z.to_nat n) xcc) = n) as Hr.
  { intros n Hn. unfold size. rewrite length_replicate. lia. }
  split; cbn [new_bytes EnlargeBuffer EnlargeSecondaryBufferIfNeeded demo_memory].
  - apply Hr.
  - intros n k. unfold ResetBuffer, buf_. destruct (key_ k); cbn; rewrite Hr by lia; split; lia.
  - intros n k. unfold ResetBuffer. destruct (key_ k); done.
  - intros n k Hk. unfold ResetBuffer. destruct (key_ k) eqn:E; cbn; rewrite ?E; done.
  - intros n k H. rewrite Z.gtb_ltb. destruct (Z.ltb_spec (secondary_buf_size_ k) n); [|split; [done|lia]].
    pose proof (size_nonneg (secondary_buf_ k)). unfold ResetSecondaryBuffer, secondary_buf_.
    destruct (key_ k); cbn; rewrite Hr by lia; split; lia.
  - intros n k. unfold ResetSecondaryBuffer. destruct (n >? _); destruct (key_ k); done.
  - intros n k Hk. unfold ResetSecondaryBuffer.
    destruct (n >? _); destruct (key_ k) eqn:E; cbn; rewrite ?E; done.
Qed.

(** Two internal keys that share part of the footer: the boundary moves. *)
Lemma iter_key_deltas_witness :
  let k1 := [x61; x62; x01; x02; x03; x04; x05; x06; x07; x08] in
  let k2 := [x61; x62; x01; x02; x03; x09; x0a; x0b; x0c] in
  let des := [mkDelta 0 k1 [x00]; mkDelta 5 [x09; x0a; x0b; x0c] []] in
  decode_deltas append_delta_ts (set_is_user_key false IterKey_new) des =
    Some [pad_ts false k1; pad_ts false k2].
Proof.
  intros k1 k2 des. apply (iter_key_deltas false des [k1; k2]).
  - apply (deltas_cons [] [] k1 [x00] [mkDelta 5 [x09; x0a; x0b; x0c] []] [k2]); [done|].
    apply (deltas_cons [x61; x62; x01; x02; x03] [x04; x05; x06; x07; x08] [x09; x0a; x0b; x0c] [] [] []);
      [done|constructor].
  - intros _. repeat constructor; done.
Defined.

Lemma iter_key_set_witness :
  exists k', SetInternalKey_parts [x70] [x61] 5 1 (Some [x74]) IterKey_new = Some k' /\
    GetUserKey k' = Some [x70; x61; x74].
Proof.
  destruct (iter_key_set IterKey_new [] [] true [x70] [x61] 5 1 (Some [x74]) new_key) as
    (_ & _ & _ & k' & H1 & _ & H2).
  by exists k'.
Defined.

(** ** Where the code does not do what it says *)

(** [UpdateInternalKey] with a timestamp, of a key that is in the secondary buffer: the
    timestamp goes to the other buffer and the key keeps its old one. *)
Theorem update_misses_secondary :
  (k ← SetInternalKey (pad_ts false [x61; x01; x02; x03; x04; x05; x06; x07; x08]) true IterKey_new;
   k ← TrimAppendWithTimestamp 0 [x62; x01; x02; x03; x04; x05; x06; x07; x08] 9 8 k;
   k ← IterKey_UpdateInternalKey 9 1 (Some (replicate 8 xff)) k;
   GetKey k) = Some ([x62] ++ kTsMin ++ EncodeFixed64 (PackSequenceAndType 9 1)).
Proof. vm_compute. reflexivity. Qed.

(** [EncodeLengthPrefixedKey] does not set [key_size_]: the key it has written is not the key
    that is read. *)
Theorem length_prefixed_key_unseen :
  (k ← EncodeLengthPrefixedKey [x61; x62] IterKey_new; GetKey k) = Some [].
Proof. vm_compute. reflexivity. Qed.

(** [TrimAppend] after [TrimAppendWithTimestamp]: a key in the secondary buffer is not pinned,
    so that its shared bytes are not copied when the other buffer is large enough. *)
Theorem trim_append_loses_shared :
  (k ← SetUserKey [x7a; x7a] true IterKey_new;
   k ← TrimAppendWithTimestamp 0 [x61; x62] 2 8 k;
   k ← TrimAppend 2 [x63] 1 k;
   GetKey k) = Some [x7a; x7a; x63].
Proof. vm_compute. reflexivity. Qed.
