(* ===== verification/CacheReservation.v ===== *)
(** * Reserving cache space

    [cache/cache_reservation_manager.h] and [.cc]: memory that is used outside of the block
    cache is accounted for in it by dummy entries of 256 KiB, and the wrapper that serialises
    the calls of several threads with a mutex. The cache is an interface: the operations the
    manager calls and, as laws, which references it holds after them. A cache state is
    threaded through every operation. *)

From stdpp Require Import gmultiset.
From S2P Require Import Prelude.
From S2P Require Import Status.

(** What the manager uses of a cache: inserting a dummy entry with a handle, and releasing the
    handle with erasure. *)
Class DummyCache (σ handle : Type) : Type := {
  cache_Insert : σ -> Z -> Status * option handle * σ;
  ReleaseAndEraseIfLastRef : σ -> handle -> σ;
}.

(** The references to handles that the users of the cache hold. *)
Class DummyCacheLaws {σ handle} `{Countable handle} (D : DummyCache σ handle)
    (held : σ -> gmultiset handle) : Prop := {
  insert_ok c charge s h c' : cache_Insert c charge = (s, h, c') -> code s = kOk ->
    exists h0, h = Some h0 /\ held c' = {[+ h0 +]} ⊎ held c;
  insert_fails c charge s h c' : cache_Insert c charge = (s, h, c') -> code s <> kOk ->
    held c' = held c;
  release_held c h : h ∈ held c -> held (ReleaseAndEraseIfLastRef c h) = held c ∖ {[+ h +]};
}.

(** ** [CacheReservationManagerImpl] *)

Definition kSizeDummyEntry : Z := 256 * 1024.

Record Manager {handle : Type} : Type := mkManager {
  delayed_decrease_ : bool;
  cache_allocated_size_ : Z;
  memory_used_ : Z;
  dummy_handles_ : list handle;
}.
Arguments Manager : clear implicits.
Arguments mkManager {handle}.

Section Ops.
Context {σ handle : Type} `{D : DummyCache σ handle}.

Definition Manager_new (delayed_decrease : bool) : Manager handle := mkManager delayed_decrease 0 0 [].

Definition set_reserved (n : Z) (hs : list handle) (m : Manager handle) : Manager handle :=
  mkManager (delayed_decrease_ m) n (memory_used_ m) hs.
Definition set_memory_used (n : Z) (m : Manager handle) : Manager handle :=
  mkManager (delayed_decrease_ m) (cache_allocated_size_ m) n (dummy_handles_ m).

(** [while (new_mem_used > cache_allocated_size_)]; [None] is a loop that has not ended. *)
Fixpoint increase_loop (fuel : nat) (new_mem_used : Z) (return_status : Status) (m : Manager handle)
    (c : σ) : option (Status * Manager handle * σ) :=
  if new_mem_used >? cache_allocated_size_ m then
    match fuel with
    | O => None
    | S fuel =>
        let '(s, h, c) := cache_Insert c kSizeDummyEntry in
        if bool_decide (code s = kOk) then
          match h with
          | Some h =>
              increase_loop fuel new_mem_used s
                (set_reserved (u64 (cache_allocated_size_ m + kSizeDummyEntry))
                   (dummy_handles_ m ++ [h]) m) c
          | None => None
          end
        else Some (s, m, c)
    end
  else Some (return_status, m, c).

(** The number of entries that can be missing, and one. *)
Definition reservation_fuel (new_mem_used : Z) : nat := S (Z.to_nat (new_mem_used / kSizeDummyEntry)).

Definition IncreaseCacheReservation (new_mem_used : Z) (m : Manager handle) (c : σ) :
    option (Status * Manager handle * σ) :=
  increase_loop (reservation_fuel new_mem_used) new_mem_used Status_OK m c.

(** [while (new_mem_used + kSizeDummyEntry <= cache_allocated_size_)]; the number of handles
    bounds the rounds, [None] is [back] of an empty vector. *)
Fixpoint decrease_loop (fuel : nat) (new_mem_used : Z) (m : Manager handle) (c : σ) :
    option (Manager handle * σ) :=
  if u64 (new_mem_used + kSizeDummyEntry) <=? cache_allocated_size_ m then
    match fuel with
    | O => None
    | S fuel =>
        match last (dummy_handles_ m) with
        | None => None
        | Some h =>
            let c := ReleaseAndEraseIfLastRef c h in
            decrease_loop fuel new_mem_used
              (set_reserved (u64 (cache_allocated_size_ m - kSizeDummyEntry))
                 (removelast (dummy_handles_ m)) m) c
        end
    end
  else Some (m, c).

Definition DecreaseCacheReservation (new_mem_used : Z) (m : Manager handle) (c : σ) :
    option (Status * Manager handle * σ) :=
  '(m, c) ← decrease_loop (S (length (dummy_handles_ m))) new_mem_used m c;
  Some (Status_OK, m, c).

Definition UpdateCacheReservation (new_mem_used : Z) (m : Manager handle) (c : σ) :
    option (Status * Manager handle * σ) :=
  let m := set_memory_used new_mem_used m in
  let cur_cache_allocated_size := cache_allocated_size_ m in
  if new_mem_used =? cur_cache_allocated_size then Some (Status_OK, m, c)
  else if new_mem_used >? cur_cache_allocated_size then IncreaseCacheReservation new_mem_used m c
  else if delayed_decrease_ m && (new_mem_used >=? cur_cache_allocated_size / 4 * 3)
  then Some (Status_OK, m, c)
  else DecreaseCacheReservation new_mem_used m c.

Definition GetTotalReservedCacheSize (m : Manager handle) : Z := cache_allocated_size_ m.
Definition GetTotalMemoryUsed (m : Manager handle) : Z := memory_used_ m.

(** The handle of a reservation is the number of bytes it stands for. *)
Definition MakeCacheReservation (incremental_memory_used : Z) (m : Manager handle) (c : σ) :
    option (Status * Z * Manager handle * σ) :=
  '(s, m, c) ← UpdateCacheReservation (u64 (GetTotalMemoryUsed m + incremental_memory_used)) m c;
  Some (s, incremental_memory_used, m, c).

Definition ReleaseCacheReservation (incremental_memory_used : Z) (m : Manager handle) (c : σ) :
    option (Status * Manager handle * σ) :=
  let updated_total_mem_used := u64 (GetTotalMemoryUsed m - incremental_memory_used) in
  UpdateCacheReservation updated_total_mem_used m c.

(** [~CacheReservationHandle]: the status is not looked at. *)
Definition CacheReservationHandle_delete (incremental_memory_used : Z) (m : Manager handle) (c : σ) :
    option (Manager handle * σ) :=
  '(_, m, c) ← ReleaseCacheReservation incremental_memory_used m c;
  Some (m, c).

(** [~CacheReservationManagerImpl] *)
Definition Manager_delete (m : Manager handle) (c : σ) : σ :=
  foldl ReleaseAndEraseIfLastRef c (dummy_handles_ m).

(** ** [ConcurrentCacheReservationManager]

    Each of its operations holds the mutex; what runs under it is one step. *)

Definition Concurrent_UpdateCacheReservation_delta (memory_used_delta : Z) (increase : bool)
    (m : Manager handle) (c : σ) : option (Status * Manager handle * σ) :=
  let total_mem_used := GetTotalMemoryUsed m in
  if negb increase then
    UpdateCacheReservation
      (if total_mem_used >? memory_used_delta then u64 (total_mem_used - memory_used_delta) else 0) m c
  else UpdateCacheReservation (u64 (total_mem_used + memory_used_delta)) m c.

End Ops.
