(* ===== verification/CacheReservationProofs.v ===== *)
(** * Reserving cache space: proofs *)

From stdpp Require Import gmultiset.
From S2P Require Import Prelude.
From S2P Require Import Status.
From S2P Require Import CacheReservation.

(** The least multiple of [kSizeDummyEntry] that is not smaller. *)
Definition round_up (n : Z) : Z := (n + kSizeDummyEntry - 1) / kSizeDummyEntry * kSizeDummyEntry.

Lemma round_up_unique n k : n <= kSizeDummyEntry * k < n + kSizeDummyEntry ->
  kSizeDummyEntry * k = round_up n.
Proof.
  intros H. unfold round_up. rewrite Z.mul_comm. f_equal. unfold kSizeDummyEntry in *.
  apply Z.div_unique with (n + 256 * 1024 - 1 - 256 * 1024 * k); lia.
Qed.

Lemma round_up_bounds n : n <= round_up n < n + kSizeDummyEntry.
Proof. unfold round_up, kSizeDummyEntry. dlia. Qed.

Lemma round_up_multiple n : exists q, round_up n = kSizeDummyEntry * q.
Proof. unfold round_up. eexists. by rewrite Z.mul_comm. Qed.

Lemma round_up_least n k : n <= kSizeDummyEntry * k -> round_up n <= kSizeDummyEntry * k.
Proof. unfold round_up, kSizeDummyEntry. intros. dlia. Qed.

Lemma held_snoc {handle} `{Countable handle} (hs : list handle) (h : handle) :
  list_to_set_disj (hs ++ [h]) = list_to_set_disj hs ⊎ {[+ h +]} :> gmultiset handle.
Proof. rewrite list_to_set_disj_app, list_to_set_disj_cons, list_to_set_disj_nil. multiset_solver. Qed.

Section Proofs.
Context {σ handle : Type} `{Countable handle} `{D : DummyCache σ handle}
  (held : σ -> gmultiset handle) `{L : !DummyCacheLaws D held}.

(** The manager holds one reference per dummy entry, besides the references [base] of others. *)
Record Reserves (base : gmultiset handle) (m : Manager handle) (c : σ) : Prop := {
  v_size : cache_allocated_size_ m = kSizeDummyEntry * Z.of_nat (length (dummy_handles_ m));
  v_range : cache_allocated_size_ m < 2 ^ 64;
  v_held : held c = base ⊎ list_to_set_disj (dummy_handles_ m);
}.

(** Same mode and same memory in use. *)
Definition same_use (m m' : Manager handle) : Prop :=
  delayed_decrease_ m' = delayed_decrease_ m /\ memory_used_ m' = memory_used_ m.

Lemma increase_loop_ok base new fuel : forall s m c,
  Reserves base m c -> code s = kOk -> new <= 2 ^ 64 - kSizeDummyEntry ->
  new - cache_allocated_size_ m <= kSizeDummyEntry * Z.of_nat fuel ->
  exists s' m' c', increase_loop fuel new s m c = Some (s', m', c') /\ Reserves base m' c' /\
    same_use m m' /\ cache_allocated_size_ m <= cache_allocated_size_ m' /\
    (code s' = kOk /\
       cache_allocated_size_ m' = Z.max (cache_allocated_size_ m) (round_up new) \/
     code s' <> kOk /\ cache_allocated_size_ m' < new).
Proof.
  assert (forall m c, Reserves base m c -> new <= cache_allocated_size_ m ->
    cache_allocated_size_ m = Z.max (cache_allocated_size_ m) (round_up new)) as Hdone.
  { intros m c [E _ _] Hge. rewrite E in *. pose proof (round_up_least _ _ Hge). lia. }
  induction fuel as [|fuel IH]; intros s m c R Hs Hn Hf; cbn [increase_loop]; rewrite Z.gtb_ltb;
    (destruct (Z.ltb_spec (cache_allocated_size_ m) new) as [Hlt|Hge];
     [|exists s, m, c; split_and!; try done; left; eauto]).
  { lia. }
  destruct (cache_Insert c kSizeDummyEntry) as [[s1 h] c1] eqn:E.
  destruct (bool_decide (code s1 = kOk)) eqn:Eok.
  - apply bool_decide_eq_true in Eok. destruct (insert_ok _ _ _ _ _ E Eok) as (h0 & -> & Hh).
    destruct R as [R1 R2 R3]. unfold kSizeDummyEntry in *.
    set (m1 := set_reserved _ _ m).
    assert (cache_allocated_size_ m1 = cache_allocated_size_ m + 256 * 1024) as E1.
    { cbn. apply wrap_small. unfold is_uint. lia. }
    destruct (IH s1 m1 c1) as (s' & m' & c' & -> & R' & [U1 U2] & Hmono & Hres); try done.
    + split.
      * rewrite E1, R1. cbn [dummy_handles_ m1 set_reserved]. rewrite length_app. cbn [length].
        unfold kSizeDummyEntry. lia.
      * rewrite E1. lia.
      * cbn [dummy_handles_ m1 set_reserved]. rewrite Hh, R3, held_snoc. multiset_solver.
    + rewrite E1. lia.
    + exists s', m', c'. rewrite E1 in *. split_and!; try done; [lia|].
      destruct Hres as [[? ->]|?]; [left|by right]. split; [done|].
      pose proof (round_up_bounds new). destruct (round_up_multiple new) as [q Hq].
      unfold kSizeDummyEntry in *. lia.
  - apply bool_decide_eq_false in Eok. exists s1, m, c1. split_and!; try done; [|right; done].
    destruct R as [R1 R2 R3]. split; [done|done|]. by rewrite (insert_fails _ _ _ _ _ E Eok).
Qed.

Lemma decrease_loop_ok base new fuel : forall m c,
  Reserves base m c -> 0 <= new <= cache_allocated_size_ m -> new + kSizeDummyEntry < 2 ^ 64 ->
  (length (dummy_handles_ m) < fuel)%nat ->
  exists m' c', decrease_loop fuel new m c = Some (m', c') /\ Reserves base m' c' /\
    same_use m m' /\ cache_allocated_size_ m' = round_up new.
Proof.
  induction fuel as [|fuel IH]; intros m c R Hn Hs Hf; [lia|]. cbn [decrease_loop].
  pose proof R as [R1 R2 R3]. rewrite (wrap_small 64 (new + kSizeDummyEntry))
    by (unfold is_uint, kSizeDummyEntry in *; lia).
  destruct (Z.leb_spec (new + kSizeDummyEntry) (cache_allocated_size_ m)) as [Hle|Hgt].
  - destruct (dummy_handles_ m) as [|h0 hs0] eqn:Eh; [cbn in R1; unfold kSizeDummyEntry in *; lia|].
    destruct (exists_last (l := h0 :: hs0) ltac:(done)) as (hs & h & Ehs). rewrite Ehs in *.
    rewrite last_snoc, removelast_last.
    set (m1 := set_reserved _ _ m).
    assert (cache_allocated_size_ m1 = cache_allocated_size_ m - kSizeDummyEntry) as E1.
    { cbn. apply wrap_small. unfold is_uint, kSizeDummyEntry in *. lia. }
    rewrite length_app in *. cbn [length] in *.
    destruct (IH m1 (ReleaseAndEraseIfLastRef c h)) as (m' & c' & -> & R' & [U1 U2] & E');
      [split|rewrite E1; lia|done|cbn; lia|].
    + rewrite E1, R1. cbn [dummy_handles_ m1 set_reserved]. unfold kSizeDummyEntry. lia.
    + rewrite E1. unfold kSizeDummyEntry in *. lia.
    + cbn [dummy_handles_ m1 set_reserved]. rewrite release_held; rewrite R3, held_snoc; multiset_solver.
    + exists m', c'. by split_and!.
  - exists m, c. split_and!; try done. rewrite R1. apply round_up_unique. rewrite <- R1. lia.
Qed.

(** The references after the manager is gone. *)
Lemma delete_releases base m c : Reserves base m c -> held (Manager_delete m c) = base.
Proof.
  intros [_ _ R]. unfold Manager_delete. revert c R.
  induction (dummy_handles_ m) as [|h hs IH]; intros c R; cbn [foldl].
  - rewrite R, list_to_set_disj_nil. multiset_solver.
  - apply IH. rewrite release_held; rewrite R, list_to_set_disj_cons; multiset_solver.
Qed.

(** What is reserved after [UpdateCacheReservation] has succeeded. *)
Definition reserved_after (delayed : bool) (old new : Z) : Z :=
  if new =? old then old
  else if delayed && (new <? old) && (old / 4 * 3 <=? new) then old
  else round_up new.

Lemma update_ok base new m c :
  Reserves base m c -> 0 <= new <= 2 ^ 64 - kSizeDummyEntry ->
  exists s m' c', UpdateCacheReservation new m c = Some (s, m', c') /\ Reserves base m' c' /\
    delayed_decrease_ m' = delayed_decrease_ m /\ memory_used_ m' = new /\
    (code s = kOk /\
       cache_allocated_size_ m' = reserved_after (delayed_decrease_ m) (cache_allocated_size_ m) new \/
     code s <> kOk /\ cache_allocated_size_ m <= cache_allocated_size_ m' < new).
Proof.
  intros R Hn. set (m0 := set_memory_used new m).
  assert (Reserves base m0 c) as R0 by (destruct R; by split).
  assert (0 <= cache_allocated_size_ m) as Hpos by (rewrite (v_size _ _ _ R); unfold kSizeDummyEntry; lia).
  unfold UpdateCacheReservation. fold m0. change (cache_allocated_size_ m0) with (cache_allocated_size_ m).
  change (delayed_decrease_ m0) with (delayed_decrease_ m). unfold reserved_after.
  destruct (Z.eqb_spec new (cache_allocated_size_ m)) as [Heq|Hne].
  { exists Status_OK, m0, c. split_and!; try done. by left. }
  rewrite Z.gtb_ltb. destruct (Z.ltb_spec (cache_allocated_size_ m) new) as [Hlt|Hge].
  - destruct (increase_loop_ok base new (reservation_fuel new) Status_OK m0 c R0 eq_refl ltac:(lia))
      as (s & m' & c' & E & R' & [U1 U2] & Hmono & Hres).
    { unfold reservation_fuel, kSizeDummyEntry. cbn [cache_allocated_size_ m0 set_memory_used].
      rewrite Nat2Z.inj_succ, Z2Nat.id by (apply Z.div_pos; lia). dlia. }
    exists s, m', c'. unfold IncreaseCacheReservation. split_and!; try done.
    cbn [cache_allocated_size_ m0 set_memory_used] in *.
    destruct Hres as [[Hok ->]|[Hbad Hsm]]; [left|right; split; [done|lia]]. split; [done|].
    rewrite (proj2 (Z.ltb_ge new _)), andb_false_r by lia. cbn [andb].
    pose proof (round_up_bounds new). lia.
  - rewrite (proj2 (Z.ltb_lt new _)), andb_true_r by lia. rewrite Z.geb_leb.
    destruct (delayed_decrease_ m && (cache_allocated_size_ m / 4 * 3 <=? new)).
    { exists Status_OK, m0, c. split_and!; try done. by left. }
    pose proof (v_range _ _ _ R) as Hr. pose proof (v_size _ _ _ R) as Hsz.
    destruct (decrease_loop_ok base new (S (length (dummy_handles_ m0))) m0 c R0)
      as (m' & c' & E & R' & [U1 U2] & E').
    + cbn [cache_allocated_size_ m0 set_memory_used]. lia.
    + unfold kSizeDummyEntry in *. lia.
    + cbn. lia.
    + exists Status_OK, m', c'. unfold DecreaseCacheReservation. rewrite E. split_and!; try done.
      left. split; [done|]. done.
Qed.

(** ** Reservations and their handles *)

Definition sum (out : list Z) : Z := foldr Z.add 0 out.

(** The managers that clients can produce: reservations are made and dropped in any order, and
    the cache is used by others in between. [out] are the outstanding reservations. *)
Inductive reach : gmultiset handle -> Manager handle -> σ -> list Z -> Prop :=
| reach_new d c : reach (held c) (Manager_new d) c []
| reach_others base base' m c c' out :
    reach base m c out -> held c' = base' ⊎ list_to_set_disj (dummy_handles_ m) ->
    reach base' m c' out
| reach_make base n m c out s h m' c' :
    reach base m c out -> 0 <= n -> sum out + n <= 2 ^ 64 - kSizeDummyEntry ->
    MakeCacheReservation n m c = Some (s, h, m', c') -> reach base m' c' (h :: out)
| reach_drop base n m c out out' m' c' :
    reach base m c out -> out ≡ₚ n :: out' -> CacheReservationHandle_delete n m c = Some (m', c') ->
    reach base m' c' out'.

Lemma sum_perm out out' : out ≡ₚ out' -> sum out = sum out'.
Proof. unfold sum. induction 1; cbn; lia. Qed.

Record Accounted (base : gmultiset handle) (m : Manager handle) (c : σ) (out : list Z) : Prop := {
  a_reserves : Reserves base m c;
  a_used : memory_used_ m = sum out;
  a_pos : Forall (fun n => 0 <= n) out;
  a_bound : sum out <= 2 ^ 64 - kSizeDummyEntry;
  a_empty : sum out = 0 -> cache_allocated_size_ m = 0;
}.

Lemma sum_nonneg out : Forall (fun n => 0 <= n) out -> 0 <= sum out.
Proof. unfold sum. induction 1; cbn; lia. Qed.

(** Nothing in use, nothing reserved, also when the decrease is delayed. *)
Lemma update_to_zero base m c :
  Reserves base m c -> reserved_after (delayed_decrease_ m) (cache_allocated_size_ m) 0 = 0.
Proof.
  intros [R _ _]. unfold reserved_after. destruct (Z.eqb_spec 0 (cache_allocated_size_ m)) as [->|Hne]; [done|].
  unfold kSizeDummyEntry in *. rewrite (proj2 (Z.leb_gt (cache_allocated_size_ m / 4 * 3) 0)) by dlia.
  by rewrite andb_false_r.
Qed.

Lemma accounted_update base m c new out' :
  Reserves base m c -> new = sum out' -> Forall (fun n => 0 <= n) out' ->
  sum out' <= 2 ^ 64 - kSizeDummyEntry ->
  exists s m' c', UpdateCacheReservation new m c = Some (s, m', c') /\ Accounted base m' c' out'.
Proof.
  intros R -> Hpos Hb. pose proof (sum_nonneg _ Hpos).
  destruct (update_ok base (sum out') m c R ltac:(lia)) as (s & m' & c' & E & R' & _ & Hu & Hres).
  exists s, m', c'. split; [done|]. split; try done. intros Hz. rewrite Hz in Hres.
  destruct Hres as [[_ ->]|[_ ?]]; [by apply (update_to_zero base m c)|].
  rewrite (v_size _ _ _ R) in *. unfold kSizeDummyEntry in *. lia.
Qed.

Lemma make_ok base m c out n :
  Accounted base m c out -> 0 <= n -> sum out + n <= 2 ^ 64 - kSizeDummyEntry ->
  exists s m' c', MakeCacheReservation n m c = Some (s, n, m', c') /\ Accounted base m' c' (n :: out).
Proof.
  intros [R Hu Hp Hb _] Hn Hs. unfold MakeCacheReservation, GetTotalMemoryUsed. rewrite Hu.
  pose proof (sum_nonneg _ Hp). rewrite wrap_small by (unfold is_uint, kSizeDummyEntry in *; lia).
  destruct (accounted_update base m c (sum out + n) (n :: out) R) as (s & m' & c' & -> & A);
    [change (sum (n :: out)) with (n + sum out); lia|by constructor|
     change (sum (n :: out)) with (n + sum out); lia|].
  by exists s, m', c'.
Qed.

Lemma drop_ok base m c out n out' :
  Accounted base m c out -> out ≡ₚ n :: out' ->
  n <= GetTotalMemoryUsed m /\
  exists m' c', CacheReservationHandle_delete n m c = Some (m', c') /\ Accounted base m' c' out'.
Proof.
  intros [R Hu Hp Hb _] Hperm. unfold CacheReservationHandle_delete, ReleaseCacheReservation, GetTotalMemoryUsed.
  rewrite Hu. rewrite (sum_perm _ _ Hperm) in *. rewrite Hperm in Hp. apply Forall_cons in Hp as [Hn Hp].
  pose proof (sum_nonneg _ Hp). change (sum (n :: out')) with (n + sum out') in *. split; [lia|].
  rewrite wrap_small by (unfold is_uint, kSizeDummyEntry in *; lia).
  destruct (accounted_update base m c (n + sum out' - n) out' R) as (s & m' & c' & -> & A);
    [lia|done|lia|].
  by exists m', c'.
Qed.

Lemma reach_accounted base m c out : reach base m c out -> Accounted base m c out.
Proof.
  induction 1 as [d c|base base' m c c' out _ IH Hh|base n m c out s h m' c' _ IH Hn Hs E|
    base n m c out out' m' c' _ IH Hp E].
  - split; try done. split; try done. cbn [dummy_handles_ Manager_new].
    rewrite list_to_set_disj_nil. multiset_solver.
  - destruct IH as [[R1 R2 _] ? ? ? ?]. by repeat split.
  - destruct (make_ok base m c out n IH Hn Hs) as (s2 & m2 & c2 & E2 & A). rewrite E in E2.
    by simplify_eq.
  - destruct (drop_ok base m c out n out' IH Hp) as (_ & m2 & c2 & E2 & A). rewrite E in E2.
    by simplify_eq.
Qed.

(** C35: reservations through handles, with any other use of the cache in between and whatever
    insertions the cache refuses: the memory in use is the sum of the outstanding
    reservations, the reserved size is that of the dummy entries the manager holds, each held
    exactly once besides the references of others; making a reservation and dropping one
    return; when none is outstanding all dummy entries are gone, and the destructor leaves
    exactly the references of others. *)
Theorem reservation_handles base m c out (Hr : reach base m c out) :
  GetTotalMemoryUsed m = sum out /\
  GetTotalReservedCacheSize m = kSizeDummyEntry * Z.of_nat (length (dummy_handles_ m)) /\
  held c = base ⊎ list_to_set_disj (dummy_handles_ m) /\
  (sum out = 0 -> dummy_handles_ m = []) /\
  (forall n, 0 <= n -> sum out + n <= 2 ^ 64 - kSizeDummyEntry ->
     exists s m' c', MakeCacheReservation n m c = Some (s, n, m', c')) /\
  (forall n out', out ≡ₚ n :: out' -> n <= GetTotalMemoryUsed m /\
     exists m' c', CacheReservationHandle_delete n m c = Some (m', c')) /\
  held (Manager_delete m c) = base.
Proof.
  pose proof (reach_accounted _ _ _ _ Hr) as A. pose proof A as [[R1 R2 R3] Hu Hp Hb He].
  split_and!; try done.
  - intros Hz. apply nil_length_inv. specialize (He Hz). unfold kSizeDummyEntry in *. lia.
  - intros n Hn Hs. destruct (make_ok base m c out n A Hn Hs) as (s & m' & c' & E & _). eauto.
  - intros n out' Hperm. destruct (drop_ok base m c out n out' A Hperm) as (Hle & m' & c' & E & _). eauto.
  - by apply delete_releases.
Qed.

(** [UpdateCacheReservation] with the new memory usage returns and records it even on
    failure. On success the reserved size is the least multiple of 256 KiB that covers it;
    in delayed mode a decrease to at least 3/4 of what is reserved leaves it alone. When the
    cache refuses an entry, the reserved size lies between what it was and what is needed.
    The variant with a difference behaves as the one with the total, stopping at zero. *)
Theorem reservation_update base m c new delta
    (R : Reserves base m c) (Hn : 0 <= new <= 2 ^ 64 - kSizeDummyEntry) (Hd : 0 <= delta)
    (Hu : 0 <= memory_used_ m /\ memory_used_ m + delta < 2 ^ 64) :
  (exists s m' c', UpdateCacheReservation new m c = Some (s, m', c') /\ Reserves base m' c' /\
     GetTotalMemoryUsed m' = new /\
     (code s = kOk /\
        cache_allocated_size_ m' = reserved_after (delayed_decrease_ m) (cache_allocated_size_ m) new \/
      code s <> kOk /\ cache_allocated_size_ m <= cache_allocated_size_ m' < new)) /\
  (new <= round_up new < new + kSizeDummyEntry) /\
  Concurrent_UpdateCacheReservation_delta delta false m c =
    UpdateCacheReservation (Z.max 0 (memory_used_ m - delta)) m c /\
  Concurrent_UpdateCacheReservation_delta delta true m c =
    UpdateCacheReservation (memory_used_ m + delta) m c.
Proof.
  split_and!.
  - destruct (update_ok base new m c R Hn) as (s & m' & c' & E & R' & _ & Hm & Hres).
    exists s, m', c'. by split_and!.
  - apply round_up_bounds.
  - apply round_up_bounds.
  - unfold Concurrent_UpdateCacheReservation_delta, GetTotalMemoryUsed. cbn [negb]. rewrite Z.gtb_ltb.
    destruct (Z.ltb_spec delta (memory_used_ m)); f_equal; [|lia].
    rewrite wrap_small by (unfold is_uint; lia). lia.
  - unfold Concurrent_UpdateCacheReservation_delta, GetTotalMemoryUsed. cbn [negb].
    by rewrite wrap_small by (unfold is_uint; lia).
Qed.

End Proofs.

(** ** An instance: a cache with room for a number of entries *)

Record DemoCache : Type := mkDemoCache { demo_room : nat; demo_next : nat; demo_held : gmultiset nat }.

#[local] Instance demo_cache : DummyCache DemoCache nat := {
  cache_Insert c _ :=
    match demo_room c with
    | O => (MemoryLimit, None, c)
    | S r => (Status_OK, Some (demo_next c), mkDemoCache r (S (demo_next c)) ({[+ demo_next c +]} ⊎ demo_held c))
    end;
  ReleaseAndEraseIfLastRef c h := mkDemoCache (S (demo_room c)) (demo_next c) (demo_held c ∖ {[+ h +]});
}.

#[local] Instance demo_cache_laws : DummyCacheLaws demo_cache demo_held.
Proof.
  split; cbn.
  - intros c z s h c'. destruct (demo_room c); intros [= <- <- <-]; [done|eauto].
  - intros c z s h c'. destruct (demo_room c); intros [= <- <- <-]; done.
  - done.
Qed.

Definition demo_start : DemoCache := mkDemoCache 2 0 ∅.

(** Two reservations, of which the second does not fit entirely; the first is dropped. *)
Lemma reservation_handles_witness :
  exists m c, reach demo_held ∅ m c [400000] /\ GetTotalMemoryUsed m = 400000 /\
    GetTotalReservedCacheSize m = 524288 /\ demo_held (Manager_delete m c) = ∅.
Proof.
  destruct (MakeCacheReservation 200000 (Manager_new false) demo_start) as [[[[s1 h1] m1] c1]|] eqn:E1;
    [|done].
  destruct (MakeCacheReservation 400000 m1 c1) as [[[[s2 h2] m2] c2]|] eqn:E2.
  2:{ vm_compute in E1. injection E1 as <- <- <- <-. done. }
  destruct (CacheReservationHandle_delete 200000 m2 c2) as [[m3 c3]|] eqn:E3.
  2:{ vm_compute in E1. injection E1 as <- <- <- <-. vm_compute in E2. injection E2 as <- <- <- <-. done. }
  assert (reach demo_held ∅ m3 c3 [400000]) as Hr.
  { apply (reach_drop demo_held ∅ 200000 m2 c2 [400000; 200000] [400000] m3 c3); [|apply Permutation_swap|done].
    assert (h1 = 200000) as -> by (vm_compute in E1; congruence).
    assert (h2 = 400000) as Eh2.
    { unfold MakeCacheReservation in E2. destruct (UpdateCacheReservation _ m1 c1) as [[[? ?] ?]|]; [|done].
      cbn in E2. congruence. }
    rewrite <- Eh2 at 1. apply (reach_make demo_held ∅ 400000 m1 c1 [200000] s2 h2 m2 c2); [|done|done|done].
    apply (reach_make demo_held ∅ 200000 (Manager_new false) demo_start [] s1 200000 m1 c1); [|done|done|done].
    apply (reach_new demo_held false demo_start). }
  exists m3, c3. pose proof (reservation_handles demo_held ∅ m3 c3 [400000] Hr) as (H1 & H2 & _ & _ & _ & _ & H3).
  split_and!; [done|exact H1| |exact H3].
  vm_compute in E1. injection E1 as <- <- <- <-. vm_compute in E2. injection E2 as <- <- <- <-.
  vm_compute in E3. injection E3 as <- <-. reflexivity.
Defined.

Lemma reservation_update_witness :
  exists s m' c', UpdateCacheReservation 300000 (Manager_new true) demo_start = Some (s, m', c') /\
    GetTotalMemoryUsed m' = 300000 /\ Reserves demo_held ∅ m' c'.
Proof.
  destruct (reservation_update demo_held ∅ (Manager_new true) demo_start 300000 0) as
    ((s & m' & c' & E & R & Hu & _) & _).
  - split; done.
  - unfold kSizeDummyEntry. lia.
  - lia.
  - cbn. lia.
  - exists s, m', c'. by split_and!.
Defined.
