(* ===== verification/Arena.v ===== *)
(** * The arena

    [memory/arena.h] and [memory/arena.cc]: memory for the lifetime of a memtable, carved out
    of blocks from both ends, aligned pieces from the front and unaligned ones from the back.

    An address is an integer. Where new blocks and huge pages lie, whether they can be had and
    what [malloc_usable_size] says are parameters, the operations of the class [MemorySource];
    its laws say that new memory is aligned and does not overlap memory in use. [None] as the
    result of an operation is the exception that [new] throws when there is no memory.
    [kAlignUnit] is a power of two. Two identifiers of the source are misspelt
    ([unaligned_alloc_ptr], [allocated_size]) and read as what they stand for. *)

From S2P Require Import Prelude.

(** A range of memory: address and length. *)
Record Range : Type := mkRange { r_addr : Z; r_len : Z }.

Definition r_end (r : Range) : Z := r_addr r + r_len r.

Definition disjoint_ranges (a b : Range) : Prop := r_end a <= r_addr b \/ r_end b <= r_addr a.

Definition within (a b : Range) : Prop := r_addr b <= r_addr a /\ r_end a <= r_end b.

Class MemorySource : Type := {
  kAlignUnit : Z;
  kHugePageSupported : bool;
  new_block : list Range -> Z -> option Z;
  AllocateHuge : list Range -> Z -> option Z;
  malloc_usable_size : Z -> Z -> Z;
}.

Definition aligned_at `{MemorySource} (a : Z) : Prop := a mod kAlignUnit = 0.

(** [used] are the ranges in use. *)
Class MemorySourceLaws (M : MemorySource) : Prop := {
  align_power : exists k, 0 <= k <= 12 /\ kAlignUnit = 2 ^ k;
  new_block_ok used n a : 0 <= n -> new_block used n = Some a ->
    0 <= a /\ a + n < 2 ^ 64 /\ aligned_at a /\ Forall (disjoint_ranges (mkRange a n)) used;
  huge_ok used n a : 0 <= n -> AllocateHuge used n = Some a ->
    0 <= a /\ a + n < 2 ^ 64 /\ aligned_at a /\ Forall (disjoint_ranges (mkRange a n)) used;
  usable_ok a n : n <= malloc_usable_size a n;
}.

Definition kInlineSize : Z := 2048.
Definition kMinBlockSize : Z := 4096.
Definition kMaxBlockSize : Z := u32 (Z.shiftl 2 30).

Section Arena.
Context `{M : MemorySource}.

(** [inline_block_] is a member of the object. [tracked_] is what the tracker has been told,
    if there is one. *)
Record Arena : Type := mkArena {
  inline_block_ : Z;
  kBlockSize : Z;
  blocks_ : list Range;
  huge_blocks_ : list Range;
  irregular_block_num : Z;
  unaligned_alloc_ptr_ : Z;
  aligned_alloc_ptr_ : Z;
  alloc_bytes_remaining_ : Z;
  hugetlb_size_ : Z;
  blocks_memory_ : Z;
  tracked_ : option Z;
}.

Definition OptimizeBlockSize (block_size : Z) : Z :=
  let block_size := Z.max kMinBlockSize block_size in
  let block_size := Z.min kMaxBlockSize block_size in
  if negb (block_size mod kAlignUnit =? 0) then u64 ((1 + block_size / kAlignUnit) * kAlignUnit)
  else block_size.

Definition Arena_new (self block_size : Z) (tracker : bool) (huge_page_size : Z) : Arena :=
  let kBlockSize := OptimizeBlockSize block_size in
  let hugetlb :=
    if kHugePageSupported then
      if negb (huge_page_size =? 0) && (kBlockSize >? huge_page_size)
      then u64 (((kBlockSize - 1) / huge_page_size + 1) * huge_page_size)
      else huge_page_size
    else 0 in
  mkArena self kBlockSize [] [] 0 (self + kInlineSize) self kInlineSize hugetlb kInlineSize
    (if tracker then Some kInlineSize else None).

(** The ranges in use: the object's own block and the ones it has allocated. *)
Definition used (a : Arena) : list Range :=
  mkRange (inline_block_ a) kInlineSize :: blocks_ a ++ huge_blocks_ a.

Definition track (n : Z) (a : Arena) : option Z :=
  match tracked_ a with Some t => Some (u64 (t + n)) | None => None end.

(** The current block: its free part, and how many irregular blocks there are. *)
Definition set_active (unaligned aligned remaining : Z) (a : Arena) : Arena :=
  mkArena (inline_block_ a) (kBlockSize a) (blocks_ a) (huge_blocks_ a) (irregular_block_num a)
    unaligned aligned remaining (hugetlb_size_ a) (blocks_memory_ a) (tracked_ a).
Definition set_irregular (n : Z) (a : Arena) : Arena :=
  mkArena (inline_block_ a) (kBlockSize a) (blocks_ a) (huge_blocks_ a) n (unaligned_alloc_ptr_ a)
    (aligned_alloc_ptr_ a) (alloc_bytes_remaining_ a) (hugetlb_size_ a) (blocks_memory_ a) (tracked_ a).

Definition AllocateNewBlock (block_bytes : Z) (a : Arena) : option (Z * Arena) :=
  block ← new_block (used a) block_bytes;
  let allocate_size := malloc_usable_size block block_bytes in
  Some (block,
   mkArena (inline_block_ a) (kBlockSize a) (blocks_ a ++ [mkRange block block_bytes]) (huge_blocks_ a)
     (irregular_block_num a) (unaligned_alloc_ptr_ a) (aligned_alloc_ptr_ a) (alloc_bytes_remaining_ a)
     (hugetlb_size_ a) (u64 (blocks_memory_ a + allocate_size)) (track allocate_size a)).

Definition AllocateFromHugePage (bytes : Z) (a : Arena) : option Z * Arena :=
  match AllocateHuge (used a) bytes with
  | Some addr =>
      (Some addr,
       mkArena (inline_block_ a) (kBlockSize a) (blocks_ a) (huge_blocks_ a ++ [mkRange addr bytes])
         (irregular_block_num a) (unaligned_alloc_ptr_ a) (aligned_alloc_ptr_ a) (alloc_bytes_remaining_ a)
         (hugetlb_size_ a) (u64 (blocks_memory_ a + bytes)) (track bytes a))
  | None => (None, a)
  end.

(** A new current block: from huge pages if they are configured and available. *)
Definition fallback_block (a : Arena) : option (Z * Z * Arena) :=
  let '(block_head, a) :=
    if kHugePageSupported && (hugetlb_size_ a >? 0) then AllocateFromHugePage (hugetlb_size_ a) a
    else (None, a) in
  match block_head with
  | Some block_head => Some (block_head, hugetlb_size_ a, a)
  | None => '(block_head, a) ← AllocateNewBlock (kBlockSize a) a; Some (block_head, kBlockSize a, a)
  end.

Definition AllocateFallback (bytes : Z) (aligned : bool) (a : Arena) : option (Z * Arena) :=
  if bytes >? kBlockSize a / 4 then
    AllocateNewBlock bytes (set_irregular (irregular_block_num a + 1) a)
  else
    '(block_head, size, a) ← fallback_block a;
    if aligned then Some (block_head, set_active (block_head + size) (block_head + bytes) (size - bytes) a)
    else
      let p := block_head + size - bytes in
      Some (p, set_active p block_head (size - bytes) a).

Definition Allocate (bytes : Z) (a : Arena) : option (Z * Arena) :=
  if bytes <=? alloc_bytes_remaining_ a then
    let p := unaligned_alloc_ptr_ a - bytes in
    Some (p, set_active p (aligned_alloc_ptr_ a) (alloc_bytes_remaining_ a - bytes) a)
  else AllocateFallback bytes false a.

(** The part of [AllocateAligned] without huge pages of its own. *)
Definition allocate_aligned_in_block (bytes : Z) (a : Arena) : option (Z * Arena) :=
  let current_mod := Z.land (aligned_alloc_ptr_ a) (kAlignUnit - 1) in
  let slop := if current_mod =? 0 then 0 else kAlignUnit - current_mod in
  let needed := u64 (bytes + slop) in
  if needed <=? alloc_bytes_remaining_ a then
    Some (aligned_alloc_ptr_ a + slop,
     set_active (unaligned_alloc_ptr_ a) (aligned_alloc_ptr_ a + needed)
       (alloc_bytes_remaining_ a - needed) a)
  else AllocateFallback bytes true a.

Definition AllocateAligned (bytes huge_page_size : Z) (a : Arena) : option (Z * Arena) :=
  if kHugePageSupported && (hugetlb_size_ a >? 0) && (huge_page_size >? 0) && (bytes >? 0) then
    let reserved_size := u64 (((bytes - 1) / huge_page_size + 1) * huge_page_size) in
    match AllocateFromHugePage reserved_size a with
    | (Some addr, a) => Some (addr, a)
    | (None, a) => allocate_aligned_in_block bytes a
    end
  else allocate_aligned_in_block bytes a.

Definition MemoryAllocatedBytes (a : Arena) : Z := blocks_memory_ a.
Definition AllocatedAndUnused (a : Arena) : Z := alloc_bytes_remaining_ a.
Definition ApproximateMemoryUsage (a : Arena) : Z :=
  u64 (blocks_memory_ a + size (blocks_ a) * 8 - alloc_bytes_remaining_ a).
Definition IsInInlineBlock (a : Arena) : bool :=
  bool_decide (blocks_ a = []) && bool_decide (huge_blocks_ a = []).

End Arena.
