(* ===== verification/ArenaProofs.v ===== *)
(** * The arena: proofs *)

From S2P Require Import Prelude.
From S2P Require Import Arena.

Lemma disjoint_sym a b : disjoint_ranges a b -> disjoint_ranges b a.
Proof. unfold disjoint_ranges. tauto. Qed.

Lemma within_trans a b c : within a b -> within b c -> within a c.
Proof. unfold within. lia. Qed.

Lemma within_disjoint a b a' b' :
  within a b -> within a' b' -> disjoint_ranges b b' -> disjoint_ranges a a'.
Proof. unfold within, disjoint_ranges. lia. Qed.

(** Pieces lie in blocks and do not overlap. *)
Inductive apart : list Range -> Prop :=
| apart_nil : apart []
| apart_cons r rs : Forall (disjoint_ranges r) rs -> apart rs -> apart (r :: rs).

Record Pieces (blocks pieces : list Range) : Prop := {
  g_within r : r ∈ pieces -> exists b, b ∈ blocks /\ within r b;
  g_apart : apart pieces;
}.

(** Part of the free range [f] becomes the piece [p], [f'] stays free. *)
Lemma carve blocks f f' p pieces :
  Pieces blocks (f :: pieces) -> within f' f -> within p f -> disjoint_ranges f' p ->
  Pieces blocks (f' :: p :: pieces).
Proof.
  intros [Hw Ha] Hf Hp Hd. inversion Ha as [|? ? Hall Hrest]; subst. rewrite Forall_forall in Hall.
  assert (forall r, within r f -> Forall (disjoint_ranges r) pieces) as Hsub.
  { intros r Hr. apply Forall_forall. intros x Hx.
    apply (within_disjoint r f x x Hr); [unfold within; lia|]. by apply Hall. }
  destruct (Hw f ltac:(set_solver)) as (b & Hb & Hfb). split.
  - intros r [->|[->|Hr]%elem_of_cons]%elem_of_cons; [exists b|exists b|apply Hw; set_solver];
      (split; [done|by eapply within_trans]).
  - constructor; [constructor; [done|by apply Hsub]|]. constructor; [by apply Hsub|done].
Qed.

(** A new block is disjoint from everything in the old ones. *)
Lemma new_disjoint blocks pieces nb r :
  Pieces blocks pieces -> Forall (disjoint_ranges nb) blocks -> within r nb ->
  Forall (disjoint_ranges r) pieces.
Proof.
  intros [Hw _] Hnb Hr. rewrite Forall_forall in *. intros x Hx. destruct (Hw x Hx) as (b & Hb & Hxb).
  by apply (within_disjoint r nb x b Hr Hxb), Hnb.
Qed.

Lemma Pieces_blocks blocks blocks' pieces :
  Pieces blocks pieces -> (forall b, b ∈ blocks -> b ∈ blocks') -> Pieces blocks' pieces.
Proof. intros [Hw Ha] Hb. split; [|done]. intros r Hr. destruct (Hw r Hr) as (b & ? & ?). eauto. Qed.

Lemma Pieces_add blocks pieces r b :
  Pieces blocks pieces -> Forall (disjoint_ranges r) pieces -> b ∈ blocks -> within r b ->
  Pieces blocks (r :: pieces).
Proof.
  intros [Hw Ha] Hd Hb Hr. split; [|by constructor].
  intros x [->|Hx]%elem_of_cons; [eauto|by apply Hw].
Qed.

Lemma Pieces_tail blocks f pieces : Pieces blocks (f :: pieces) -> Pieces blocks pieces.
Proof. intros [Hw Ha]. inversion Ha; subst. split; [|done]. intros r Hr. apply Hw. set_solver. Qed.

Section Inv.
Context `{M : MemorySource} `{!MemorySourceLaws M}.

Definition free_range (a : Arena) : Range := mkRange (aligned_alloc_ptr_ a) (alloc_bytes_remaining_ a).

(** [pieces] are the ranges that have been handed out. *)
Record ArenaInv (a : Arena) (pieces : list Range) : Prop := {
  n_block : kMinBlockSize <= kBlockSize a <= kMaxBlockSize + 4096;
  n_huge : hugetlb_size_ a = 0 \/ kBlockSize a <= hugetlb_size_ a;
  n_free : 0 <= alloc_bytes_remaining_ a /\
    unaligned_alloc_ptr_ a = aligned_alloc_ptr_ a + alloc_bytes_remaining_ a /\
    0 <= aligned_alloc_ptr_ a /\ unaligned_alloc_ptr_ a < 2 ^ 64;
  n_pieces : Pieces (used a) (free_range a :: pieces);
  n_tracked : forall t, tracked_ a = Some t -> t = blocks_memory_ a;
}.

(** A new block [n] bytes long at [addr], of which nothing has been handed out. *)
Definition fresh_block (a a' : Arena) (addr n : Z) : Prop :=
  0 <= addr /\ addr + n < 2 ^ 64 /\ aligned_at addr /\
  Forall (disjoint_ranges (mkRange addr n)) (used a) /\
  (forall b, b ∈ used a' <-> b = mkRange addr n \/ b ∈ used a) /\
  kBlockSize a' = kBlockSize a /\ hugetlb_size_ a' = hugetlb_size_ a /\
  aligned_alloc_ptr_ a' = aligned_alloc_ptr_ a /\ unaligned_alloc_ptr_ a' = unaligned_alloc_ptr_ a /\
  alloc_bytes_remaining_ a' = alloc_bytes_remaining_ a /\
  (forall t, tracked_ a' = Some t -> exists t0, tracked_ a = Some t0 /\
     (t0 = blocks_memory_ a -> t = blocks_memory_ a')).

Lemma AllocateNewBlock_fresh n a p a' : 0 <= n -> AllocateNewBlock n a = Some (p, a') -> fresh_block a a' p n.
Proof.
  intros Hn. unfold AllocateNewBlock. destruct (new_block (used a) n) as [q|] eqn:E; [|done].
  intros [= <- <-]. destruct (new_block_ok (used a) n q Hn E) as (H1 & H2 & H3 & H4).
  unfold fresh_block. split_and!; try done.
  - intros b. unfold used. cbn. set_solver.
  - cbn. unfold track. intros t. destruct (tracked_ a) as [t0|]; [|done]. intros [= <-].
    exists t0. split; [done|]. by intros ->.
Qed.

Lemma AllocateFromHugePage_fresh n a p a' : 0 <= n -> AllocateFromHugePage n a = (Some p, a') ->
  fresh_block a a' p n.
Proof.
  intros Hn. unfold AllocateFromHugePage. destruct (AllocateHuge (used a) n) as [q|] eqn:E; [|done].
  intros [= <- <-]. destruct (huge_ok (used a) n q Hn E) as (H1 & H2 & H3 & H4).
  unfold fresh_block. split_and!; try done.
  - intros b. unfold used. cbn. set_solver.
  - cbn. unfold track. intros t. destruct (tracked_ a) as [t0|]; [|done]. intros [= <-].
    exists t0. split; [done|]. by intros ->.
Qed.

(** A whole block is handed out. *)
Lemma whole_block a a' pieces p n m :
  ArenaInv a pieces -> fresh_block a a' p m -> 0 <= n <= m -> ArenaInv a' (mkRange p n :: pieces).
Proof.
  intros [B1 B2 B3 B4 B5] (F1 & F2 & F3 & F4 & F5 & F6 & F7 & F8 & F9 & F10 & F11) Hn.
  split; rewrite ?F6, ?F7, ?F8, ?F9, ?F10; try done.
  - assert (free_range a' = free_range a) as -> by (unfold free_range; by rewrite F8, F10).
    assert (Pieces (used a') (free_range a :: pieces)) as HP
      by (apply (Pieces_blocks (used a)); [done|intros; apply F5; by right]).
    assert (within (mkRange p n) (mkRange p m)) as Hw by (unfold within, r_end; cbn; lia).
    pose proof (new_disjoint _ _ _ _ B4 F4 Hw) as Hd. apply Forall_cons in Hd as [Hd1 Hd2].
    destruct HP as [HPw HPa]. inversion HPa; subst. split.
    + intros r [->|[->|Hr]%elem_of_cons]%elem_of_cons; [apply HPw; set_solver| |apply HPw; set_solver].
      exists (mkRange p m). split; [apply F5; by left|done].
    + constructor; [constructor; [by apply disjoint_sym|done]|]. by constructor.
  - intros t Ht. destruct (F11 t Ht) as (t0 & Ht0 & E). apply E. by apply B5.
Qed.

(** A new current block, part of which is handed out. *)
Lemma new_active a a' pieces p m piece un al rem :
  ArenaInv a pieces -> fresh_block a a' p m -> 0 <= rem -> un = al + rem ->
  within (mkRange al rem) (mkRange p m) -> within piece (mkRange p m) ->
  disjoint_ranges (mkRange al rem) piece ->
  ArenaInv (set_active un al rem a') (piece :: pieces).
Proof.
  intros [B1 B2 B3 B4 B5] (F1 & F2 & F3 & F4 & F5 & F6 & F7 & F8 & F9 & F10 & F11) Hrem Hun Hw1 Hw2 Hd.
  split; cbn [kBlockSize hugetlb_size_ alloc_bytes_remaining_ unaligned_alloc_ptr_ aligned_alloc_ptr_
    tracked_ blocks_memory_ set_active]; rewrite ?F6, ?F7; try done.
  - unfold within, r_end in Hw1. cbn in Hw1. split_and!; lia.
  - change (used (set_active un al rem a')) with (used a').
    change (free_range (set_active un al rem a')) with (mkRange al rem).
    assert (Pieces (used a') pieces) as HP
      by (apply (Pieces_blocks (used a)); [by eapply Pieces_tail|intros; apply F5; by right]).
    pose proof (Pieces_tail _ _ _ B4) as B4'.
    assert (mkRange p m ∈ used a') as Hin by (apply F5; by left).
    eapply Pieces_add; [|constructor; [done|by eapply new_disjoint]|exact Hin|done].
    eapply Pieces_add; [done|by eapply new_disjoint|exact Hin|done].
  - intros t Ht. destruct (F11 t Ht) as (t0 & Ht0 & E). apply E. by apply B5.
Qed.

Lemma fallback_block_ok a pieces p m a1 :
  ArenaInv a pieces -> fallback_block a = Some (p, m, a1) -> fresh_block a a1 p m /\ kBlockSize a <= m.
Proof.
  intros [B1 B2 _ _ _]. unfold kMinBlockSize in *. unfold fallback_block.
  destruct (kHugePageSupported && (hugetlb_size_ a >? 0)) eqn:Eh.
  - apply andb_true_iff in Eh as [_ Eh]. apply Z.gtb_lt in Eh.
    destruct (AllocateFromHugePage (hugetlb_size_ a) a) as [[q|] a2] eqn:E.
    + intros [= <- <- <-]. pose proof (AllocateFromHugePage_fresh (hugetlb_size_ a) a q a2 ltac:(lia) E) as F.
      assert (hugetlb_size_ a2 = hugetlb_size_ a) as -> by apply F. split; [done|lia].
    + assert (a2 = a) as -> by (unfold AllocateFromHugePage in E; destruct (AllocateHuge _ _); by simplify_eq).
      destruct (AllocateNewBlock (kBlockSize a) a) as [[q a3]|] eqn:E3; [|done]. intros [= <- <- <-].
      pose proof (AllocateNewBlock_fresh (kBlockSize a) a q a3 ltac:(lia) E3) as F.
      assert (kBlockSize a3 = kBlockSize a) as -> by apply F. split; [done|lia].
  - destruct (AllocateNewBlock (kBlockSize a) a) as [[q a3]|] eqn:E3; [|done]. intros [= <- <- <-].
    pose proof (AllocateNewBlock_fresh (kBlockSize a) a q a3 ltac:(lia) E3) as F.
    assert (kBlockSize a3 = kBlockSize a) as -> by apply F. split; [done|lia].
Qed.

Lemma AllocateFallback_ok bytes aligned a pieces p a' :
  ArenaInv a pieces -> 0 <= bytes -> AllocateFallback bytes aligned a = Some (p, a') ->
  ArenaInv a' (mkRange p bytes :: pieces) /\ (aligned = true -> aligned_at p).
Proof.
  intros I Hb. unfold AllocateFallback. destruct (Z.gtb_spec bytes (kBlockSize a / 4)) as [Hgt|Hle].
  - intros E. assert (ArenaInv (set_irregular (irregular_block_num a + 1) a) pieces) as I'
      by (destruct I; by split).
    pose proof (AllocateNewBlock_fresh _ _ _ _ Hb E) as F. split; [|intros _; apply F].
    apply (whole_block _ a' pieces p bytes bytes I' F). lia.
  - destruct (fallback_block a) as [[[q m] a1]|] eqn:E; [|done]. cbn [mbind option_bind]. destruct (fallback_block_ok a pieces q m a1 I E) as [F Hm].
    pose proof (n_block _ _ I) as Hk. unfold kMinBlockSize in Hk.
    assert (bytes <= m) as Hbm by dlia.
    destruct aligned; intros [= <- <-].
    + split; [|intros _; apply F].
      apply (new_active a a1 pieces q m (mkRange q bytes) _ _ _ I F); try lia;
        unfold within, disjoint_ranges, r_end; cbn; lia.
    + split; [|done].
      apply (new_active a a1 pieces q m (mkRange _ bytes) _ _ _ I F); try lia;
        unfold within, disjoint_ranges, r_end; cbn; lia.
Qed.

(** Part of the current block is handed out. *)
Lemma carve_active a pieces piece un al rem :
  ArenaInv a pieces -> 0 <= rem -> un = al + rem ->
  within (mkRange al rem) (free_range a) -> within piece (free_range a) ->
  disjoint_ranges (mkRange al rem) piece -> ArenaInv (set_active un al rem a) (piece :: pieces).
Proof.
  intros [B1 B2 B3 B4 B5] Hrem Hun Hw1 Hw2 Hd. split; try done.
  - cbn. unfold within, r_end, free_range in Hw1. cbn in Hw1. lia.
  - change (used (set_active un al rem a)) with (used a).
    change (free_range (set_active un al rem a)) with (mkRange al rem).
    by apply (carve _ (free_range a)).
Qed.

Lemma Allocate_ok bytes a pieces p a' :
  ArenaInv a pieces -> 0 <= bytes -> Allocate bytes a = Some (p, a') ->
  ArenaInv a' (mkRange p bytes :: pieces).
Proof.
  intros I Hb. unfold Allocate. destruct (Z.leb_spec bytes (alloc_bytes_remaining_ a)) as [Hle|Hgt].
  - intros [= <- <-]. pose proof (n_free _ _ I) as Hf.
    apply carve_active; try done; try lia; unfold within, disjoint_ranges, r_end, free_range; cbn; lia.
  - intros E. by destruct (AllocateFallback_ok bytes false a pieces p a' I Hb E).
Qed.

(** The alignment unit, and rounding an address up to it. *)
Lemma slop_ok x : 0 <= x ->
  let cm := Z.land x (kAlignUnit - 1) in
  let slop := if cm =? 0 then 0 else kAlignUnit - cm in
  0 <= slop < 4096 /\ aligned_at (x + slop).
Proof.
  intros Hx cm slop. destruct align_power as (k & Hk & E). unfold aligned_at, slop, cm. rewrite E.
  replace (2 ^ k - 1) with (Z.ones k) by (rewrite Z.ones_equiv; lia).
  rewrite Z.land_ones by lia.
  assert (0 < 2 ^ k) by (apply Z.pow_pos_nonneg; lia).
  assert (2 ^ k <= 2 ^ 12) by (apply Z.pow_le_mono_r; lia).
  pose proof (Z.mod_pos_bound x (2 ^ k) ltac:(done)). change (2 ^ 12) with 4096 in *.
  destruct (Z.eqb_spec (x mod 2 ^ k) 0) as [E0|E0].
  - split; [lia|]. by rewrite Z.add_0_r.
  - split; [lia|]. rewrite (Z.div_mod x (2 ^ k)) at 1 by lia.
    replace (2 ^ k * (x / 2 ^ k) + x mod 2 ^ k + (2 ^ k - x mod 2 ^ k)) with ((x / 2 ^ k + 1) * 2 ^ k) by lia.
    apply Z.mod_mul. lia.
Qed.

Lemma allocate_aligned_ok bytes a pieces p a' :
  ArenaInv a pieces -> 0 <= bytes < 2 ^ 62 -> allocate_aligned_in_block bytes a = Some (p, a') ->
  ArenaInv a' (mkRange p bytes :: pieces) /\ aligned_at p.
Proof.
  intros I Hb. unfold allocate_aligned_in_block. pose proof (n_free _ _ I) as (H1 & H2 & H3 & H4).
  destruct (slop_ok (aligned_alloc_ptr_ a) H3) as [Hs Ha].
  set (slop := if Z.land _ _ =? 0 then 0 else _) in *.
  rewrite wrap_small by (unfold is_uint; lia).
  destruct (Z.leb_spec (bytes + slop) (alloc_bytes_remaining_ a)) as [Hle|Hgt].
  - intros [= <- <-]. split; [|done].
    apply carve_active; try done; try lia; unfold within, disjoint_ranges, r_end, free_range; cbn; lia.
  - intros E. destruct (AllocateFallback_ok bytes true a pieces p a' I ltac:(lia) E) as [? Hal]. auto.
Qed.

Lemma AllocateAligned_ok bytes hp a pieces p a' :
  ArenaInv a pieces -> 0 <= bytes < 2 ^ 62 -> 0 <= hp < 2 ^ 62 -> AllocateAligned bytes hp a = Some (p, a') ->
  ArenaInv a' (mkRange p bytes :: pieces) /\ aligned_at p.
Proof.
  intros I Hb Hh. unfold AllocateAligned.
  destruct (kHugePageSupported && _ && _ && _) eqn:E0; [|by apply allocate_aligned_ok].
  zbool. set (rs := (bytes - 1) / hp + 1).
  assert (bytes <= rs * hp < bytes + hp) as Hrs by (unfold rs; dlia).
  rewrite wrap_small by (unfold is_uint; lia).
  destruct (AllocateFromHugePage (rs * hp) a) as [[q|] a2] eqn:E.
  - intros [= <- <-]. pose proof (AllocateFromHugePage_fresh (rs * hp) a q a2 ltac:(lia) E) as F.
    split; [|apply F]. apply (whole_block a a2 pieces q bytes (rs * hp) I F). lia.
  - assert (a2 = a) as -> by (unfold AllocateFromHugePage in E; destruct (AllocateHuge _ _); by simplify_eq).
    by apply allocate_aligned_ok.
Qed.

(** ** From the constructor on *)

Lemma OptimizeBlockSize_ok b : 0 <= b ->
  let k := OptimizeBlockSize b in
  kMinBlockSize <= k <= kMaxBlockSize + 4096 /\ aligned_at k.
Proof.
  intros Hb. unfold OptimizeBlockSize. change kMaxBlockSize with 2147483648. unfold kMinBlockSize.
  destruct align_power as (k & Hk & E). unfold aligned_at. rewrite E.
  assert (0 < 2 ^ k) by (apply Z.pow_pos_nonneg; lia).
  assert (2 ^ k <= 2 ^ 12) by (apply Z.pow_le_mono_r; lia). change (2 ^ 12) with 4096 in *.
  set (x := Z.min 2147483648 (Z.max 4096 b)). assert (4096 <= x <= 2147483648) as Hx by (unfold x; lia).
  destruct (Z.eqb_spec (x mod 2 ^ k) 0) as [E0|E0]; cbn [negb]; [by split_and!; try lia|].
  pose proof (Z.div_mod x (2 ^ k) ltac:(lia)). pose proof (Z.mod_pos_bound x (2 ^ k) ltac:(done)).
  rewrite wrap_small by (unfold is_uint; nia). split_and!; [nia|nia|]. apply Z.mod_mul. lia.
Qed.

Lemma Arena_new_ok self block_size tracker hp :
  0 <= self -> self + kInlineSize < 2 ^ 64 -> 0 <= block_size -> 0 <= hp < 2 ^ 62 ->
  ArenaInv (Arena_new self block_size tracker hp) [].
Proof.
  intros H1 H2 H3 H4. destruct (OptimizeBlockSize_ok block_size H3) as [Hk _].
  unfold kInlineSize in *. unfold Arena_new. set (k := OptimizeBlockSize block_size) in *.
  change kMaxBlockSize with 2147483648 in *. unfold kMinBlockSize in *.
  split; cbn [kBlockSize hugetlb_size_ alloc_bytes_remaining_ unaligned_alloc_ptr_ aligned_alloc_ptr_
    tracked_ blocks_memory_].
  - change kMaxBlockSize with 2147483648. unfold kMinBlockSize. lia.
  - destruct kHugePageSupported; [|by left].
    destruct (Z.eqb_spec hp 0) as [->|Hne]; cbn [negb andb]; [by left|]. right.
    destruct (Z.gtb_spec k hp); [|lia].
    assert (k <= ((k - 1) / hp + 1) * hp < k + hp) by dlia.
    rewrite wrap_small by (unfold is_uint; lia). lia.
  - unfold kInlineSize. lia.
  - split.
    + intros r ->%list_elem_of_singleton. exists (mkRange self kInlineSize). split; [set_solver|].
      unfold within, r_end, free_range. cbn. lia.
    + by repeat constructor.
  - destruct tracker; [by intros t [= <-]|done].
Qed.

Inductive ArenaOp : Type := OpAllocate (bytes : Z) | OpAligned (bytes huge_page_size : Z).

Definition op_bytes (o : ArenaOp) : Z := match o with OpAllocate n | OpAligned n _ => n end.

Definition op_ok (o : ArenaOp) : Prop :=
  match o with
  | OpAllocate n => 0 < n < 2 ^ 62
  | OpAligned n hp => 0 <= n < 2 ^ 62 /\ 0 <= hp < 2 ^ 62
  end.

Definition op_step (o : ArenaOp) (a : Arena) : option (Z * Arena) :=
  match o with OpAllocate n => Allocate n a | OpAligned n hp => AllocateAligned n hp a end.

(** The pointers that a sequence of allocations returns, the last one first. *)
Fixpoint run_arena (ops : list ArenaOp) (a : Arena) (got : list (ArenaOp * Z)) :
    option (list (ArenaOp * Z) * Arena) :=
  match ops with
  | [] => Some (got, a)
  | o :: ops => '(p, a) ← op_step o a; run_arena ops a ((o, p) :: got)
  end.

Definition piece_of (x : ArenaOp * Z) : Range := mkRange (x.2) (op_bytes x.1).

(** An aligned piece is. *)
Definition aligned_piece (x : ArenaOp * Z) : Prop :=
  match x.1 with OpAligned _ _ => aligned_at x.2 | _ => True end.

Lemma op_step_ok o a got p a' :
  ArenaInv a (map piece_of got) -> op_ok o -> op_step o a = Some (p, a') ->
  ArenaInv a' (map piece_of ((o, p) :: got)) /\ aligned_piece (o, p).
Proof.
  intros I Ho E. destruct o as [n|n hp]; cbn in *.
  - split; [|done]. apply (Allocate_ok n a _ p a' I); [lia|done].
  - destruct Ho as [H1 H2]. destruct (AllocateAligned_ok n hp a _ p a' I H1 H2 E) as [I' Ha].
    by split.
Qed.

Lemma run_arena_ok ops : forall a got got' a',
  ArenaInv a (map piece_of got) -> Forall op_ok ops -> Forall aligned_piece got ->
  run_arena ops a got = Some (got', a') ->
  ArenaInv a' (map piece_of got') /\ Forall aligned_piece got' /\ map fst got' = rev ops ++ map fst got.
Proof.
  induction ops as [|o ops IH]; intros a got got' a' I Hop Hal E; cbn [run_arena] in E.
  { injection E as <- <-. done. }
  apply Forall_cons in Hop as [Ho Hop]. destruct (op_step o a) as [[p a1]|] eqn:Es; [|done].
  destruct (op_step_ok o a got p a1 I Ho Es) as [I1 H1].
  destruct (IH a1 ((o, p) :: got) got' a' I1 Hop) as (I' & H' & E'); [by constructor|done|].
  split_and!; [done|done|]. cbn [rev map fst] in *. by rewrite E', <- app_assoc.
Qed.

(** An allocation fails only when there is no memory for a block. *)
Lemma new_block_fails n a : AllocateNewBlock n a = None -> new_block (used a) n = None.
Proof. unfold AllocateNewBlock. by destruct (new_block (used a) n). Qed.

Lemma fallback_fails n al a : AllocateFallback n al a = None ->
  new_block (used a) n = None \/ new_block (used a) (kBlockSize a) = None.
Proof.
  unfold AllocateFallback, fallback_block. destruct (n >? kBlockSize a / 4).
  - intros E%new_block_fails. by left.
  - destruct (_ && _).
    + unfold AllocateFromHugePage. destruct (AllocateHuge _ _); [by destruct al|].
      destruct (AllocateNewBlock (kBlockSize a) a) as [[? ?]|] eqn:E; [by destruct al|].
      apply new_block_fails in E. by right.
    + destruct (AllocateNewBlock (kBlockSize a) a) as [[? ?]|] eqn:E; [by destruct al|].
      apply new_block_fails in E. by right.
Qed.

Lemma op_step_fails o a : op_step o a = None ->
  new_block (used a) (op_bytes o) = None \/ new_block (used a) (kBlockSize a) = None.
Proof.
  assert (forall n, allocate_aligned_in_block n a = None ->
    new_block (used a) n = None \/ new_block (used a) (kBlockSize a) = None) as Hal.
  { intros n. unfold allocate_aligned_in_block. destruct (u64 _ <=? _); [done|apply fallback_fails]. }
  destruct o as [n|n hp]; cbn [op_step op_bytes].
  - unfold Allocate. destruct (n <=? _); [done|apply fallback_fails].
  - unfold AllocateAligned. destruct (_ && _); [|apply Hal]. unfold AllocateFromHugePage.
    destruct (AllocateHuge _ _); [done|apply Hal].
Qed.

(** whatever a client allocates from a new arena, the pieces do not overlap, every piece
    lies inside the inline block or a block that the arena has allocated, and pieces of
    [AllocateAligned] are aligned; the free part of the current block is free, of the size
    that [AllocatedAndUnused] says, and does not overlap them either. What the tracker has
    been told is what [MemoryAllocatedBytes] returns. A further allocation fails only when
    there is no memory for a block of its size or of the block size. *)
Theorem arena_sound self block_size tracker hp ops got a
    (Hself : 0 <= self /\ self + kInlineSize < 2 ^ 64) (Hb : 0 <= block_size) (Hh : 0 <= hp < 2 ^ 62)
    (Hops : Forall op_ok ops)
    (Hrun : run_arena ops (Arena_new self block_size tracker hp) [] = Some (got, a)) :
  rev (map fst got) = ops /\
  apart (free_range a :: map piece_of got) /\
  (forall r, r ∈ map piece_of got -> exists b, b ∈ used a /\ within r b) /\
  Forall aligned_piece got /\
  r_len (free_range a) = AllocatedAndUnused a /\
  (forall t, tracked_ a = Some t -> t = MemoryAllocatedBytes a) /\
  (forall o, op_step o a = None ->
     new_block (used a) (op_bytes o) = None \/ new_block (used a) (kBlockSize a) = None).
Proof.
  destruct (run_arena_ok ops (Arena_new self block_size tracker hp) [] got a) as (I & Hal & Hfst);
    [apply Arena_new_ok; (done || lia)|done|done|done|].
  destruct I as [_ _ _ [Hw Ha] Ht]. split_and!; try done.
  - rewrite Hfst. cbn. by rewrite app_nil_r, rev_involutive.
  - intros r Hr. apply Hw. set_solver.
  - intros o. apply (op_step_fails o a).
Qed.

End Inv.

(** ** An instance: blocks one after the other, no huge pages *)

Definition top (used : list Range) : Z := foldr (fun r n => Z.max (r_end r) n) 0 used.

Lemma top_above used r : r ∈ used -> r_end r <= top used.
Proof.
  unfold top. induction used as [|x used IH]; [by intros ?%elem_of_nil|]. cbn [foldr].
  intros [->|?%IH]%elem_of_cons; lia.
Qed.

Lemma top_nonneg used : 0 <= top used.
Proof. unfold top. induction used; cbn [foldr]; lia. Qed.

#[local] Instance demo_source : MemorySource := {
  kAlignUnit := 16;
  kHugePageSupported := true;
  new_block used n :=
    let a := (top used + 15) / 16 * 16 in if a + n <? 2 ^ 64 then Some a else None;
  AllocateHuge _ _ := None;
  malloc_usable_size _ n := n;
}.

#[local] Instance demo_source_laws : MemorySourceLaws demo_source.
Proof.
  split.
  - exists 4. split; [lia|done].
  - intros used n a Hn. cbn [new_block demo_source]. pose proof (top_nonneg used).
    destruct (Z.ltb_spec ((top used + 15) / 16 * 16 + n) (2 ^ 64)); [|done]. intros [= <-].
    split_and!; [dlia|done|unfold aligned_at; cbn; by apply Z.mod_mul|].
    apply Forall_forall. intros r Hr. pose proof (top_above used r Hr). right. cbn. dlia.
  - done.
  - intros. cbn. lia.
Qed.

(** An unaligned piece, an aligned one behind the inline block's start, a large one and one
    that needs a new block. *)
Lemma arena_sound_witness :
  let ops := [OpAllocate 5; OpAligned 10 0; OpAligned 3 0; OpAllocate 3000; OpAllocate 1000; OpAllocate 1000; OpAllocate 1000] in
  exists got a, run_arena ops (Arena_new 1024 4096 true 0) [] = Some (got, a) /\
    apart (free_range a :: map piece_of got) /\ Forall aligned_piece got /\
    map snd got = [9176; 1067; 2067; 3072; 1040; 1024; 3067].
Proof.
  intros ops. eexists _, _. split; [vm_compute; reflexivity|].
  match goal with |- apart (free_range ?a :: map piece_of ?got) /\ _ =>
    destruct (arena_sound 1024 4096 true 0 ops got a) as (_ & H1 & _ & H2 & _) end;
    [unfold kInlineSize; lia|lia|lia|repeat (apply Forall_cons; split; [unfold op_ok; lia|]); constructor|vm_compute; reflexivity|].
  split_and!; [exact H1|exact H2|reflexivity].
Defined.
