(* ===== verification/Autovector.v ===== *)
(** * autovector: a vector with its first elements in the object

    [util/autovector.h]. The first [kSize] elements are constructed in a buffer of the object,
    the others are in a [std::vector]. A slot of the buffer is [None] while no element is
    constructed in it; [None] as the result of an operation is an access to such a slot or to
    one that does not exist, the destruction of an element that is not there, a failed
    [assert], or the exception that a [std::vector] throws when it cannot reserve. *)

From S2P Require Import Prelude.

Record autovector {T : Type} : Type := mkAutovector {
  num_stack_items_ : nat;
  values_ : list (option T);
  vect_ : list T;
  vect_capacity : nat;
}.
Arguments autovector : clear implicits.
Arguments mkAutovector {T}.

Section Ops.
Context {T : Type} (kSize : nat) (T_default : T) (max_size : Z).

Definition check (b : bool) : option unit := if b then Some () else None.

Definition autovector_new : autovector T := mkAutovector 0 (replicate kSize None) [] 0.

Definition av_size (v : autovector T) : nat := (num_stack_items_ v + length (vect_ v))%nat.
Definition av_empty (v : autovector T) : bool := bool_decide (av_size v = 0%nat).
Definition capacity (v : autovector T) : nat := (kSize + vect_capacity v)%nat.
Definition only_in_stack (v : autovector T) : bool := bool_decide (vect_capacity v = 0%nat).

Definition set_stack (n : nat) (vals : list (option T)) (v : autovector T) : autovector T :=
  mkAutovector n vals (vect_ v) (vect_capacity v).
(** The [std::vector] grows its capacity when it has to. *)
Definition set_vect (l : list T) (v : autovector T) : autovector T :=
  mkAutovector (num_stack_items_ v) (values_ v) l (Nat.max (vect_capacity v) (length l)).

(** [new (&values_[i]) value_type(x)] *)
Definition construct (i : nat) (x : T) (vals : list (option T)) : option (list (option T)) :=
  _ ← check (bool_decide (i < length vals)%nat); Some (<[i := Some x]> vals).

(** [values_[i].~value_type()] *)
Definition destroy (i : nat) (vals : list (option T)) : option (list (option T)) :=
  match vals !! i with
  | Some (Some _) => Some (<[i := None]> vals)
  | _ => None
  end.

Definition av_get (v : autovector T) (n : nat) : option T :=
  _ ← check (bool_decide (n < av_size v)%nat);
  if bool_decide (n < kSize)%nat then mjoin (values_ v !! n) else vect_ v !! (n - kSize)%nat.

(** [*begin()], [*(end() - 1)] *)
Definition front (v : autovector T) : option T := _ ← check (negb (av_empty v)); av_get v 0.
Definition back (v : autovector T) : option T :=
  _ ← check (negb (av_empty v)); av_get v (av_size v - 1).

Definition push_back (item : T) (v : autovector T) : option (autovector T) :=
  let n := num_stack_items_ v in
  if bool_decide (n < kSize)%nat then
    vals ← construct n T_default (values_ v);
    vals ← construct n item vals;
    Some (set_stack (S n) vals v)
  else Some (set_vect (vect_ v ++ [item]) v).

Definition emplace_back (item : T) (v : autovector T) : option (autovector T) :=
  let n := num_stack_items_ v in
  if bool_decide (n < kSize)%nat then
    vals ← construct n item (values_ v); Some (set_stack (S n) vals v)
  else Some (set_vect (vect_ v ++ [item]) v).

Definition pop_back (v : autovector T) : option (autovector T) :=
  _ ← check (negb (av_empty v));
  if bool_decide (vect_ v <> []) then Some (set_vect (removelast (vect_ v)) v)
  else
    let n := (num_stack_items_ v - 1)%nat in
    vals ← destroy n (values_ v); Some (set_stack n vals v).

(** [while (num_stack_items_ < n)] construct the next element; [k] is the number of rounds. *)
Fixpoint construct_up (k : nat) (v : autovector T) : option (autovector T) :=
  match k with
  | O => Some v
  | S k =>
      vals ← construct (num_stack_items_ v) T_default (values_ v);
      construct_up k (set_stack (S (num_stack_items_ v)) vals v)
  end.

(** [while (num_stack_items_ > n)] destroy the last element. *)
Fixpoint destroy_down (k : nat) (v : autovector T) : option (autovector T) :=
  match k with
  | O => Some v
  | S k =>
      let n := (num_stack_items_ v - 1)%nat in
      vals ← destroy n (values_ v);
      destroy_down k (set_stack n vals v)
  end.

(** [std::vector::resize] *)
Definition vect_resize (n : nat) (l : list T) : list T := take n l ++ replicate (n - length l) T_default.

Definition av_resize (n : nat) (v : autovector T) : option (autovector T) :=
  if bool_decide (kSize < n)%nat then
    let v := set_vect (vect_resize (n - kSize) (vect_ v)) v in
    v ← construct_up (kSize - num_stack_items_ v) v;
    Some (set_stack kSize (values_ v) v)
  else
    let v := set_vect [] v in
    v ← construct_up (n - num_stack_items_ v) v;
    destroy_down (num_stack_items_ v - n) v.

Definition clear (v : autovector T) : option (autovector T) :=
  v ← destroy_down (num_stack_items_ v) v;
  Some (set_vect [] v).

(** [reserve]: the difference is of type [size_t]. *)
Definition reserve (cap : nat) (v : autovector T) : option (autovector T) :=
  v ← (if bool_decide (cap < kSize)%nat then
         let n := u64 (Z.of_nat cap - Z.of_nat kSize) in
         _ ← check (n <=? max_size);
         Some (mkAutovector (num_stack_items_ v) (values_ v) (vect_ v)
                 (Nat.max (vect_capacity v) (Z.to_nat n)))
       else Some v);
  _ ← check (bool_decide (cap <= capacity v)%nat);
  Some v.

(** [for (i = 0; i < n; ++i)] construct in place [i]. *)
Fixpoint construct_first (n i : nat) (vals : list (option T)) : option (list (option T)) :=
  match n with
  | O => Some vals
  | S n => vals ← construct i T_default vals; construct_first n (S i) vals
  end.

(** [std::copy]: assignments to constructed elements. *)
Fixpoint copy_first (n i : nat) (src vals : list (option T)) : option (list (option T)) :=
  match n with
  | O => Some vals
  | S n =>
      x ← mjoin (src !! i);
      _ ← mjoin (vals !! i);
      copy_first n (S i) src (<[i := Some x]> vals)
  end.

(** [for (i = 0; i < n; ++i)] construct in place [i] and move the element of [other] there. *)
Fixpoint move_stack (n i : nat) (src vals : list (option T)) : option (list (option T)) :=
  match n with
  | O => Some vals
  | S n =>
      vals ← construct i T_default vals;
      x ← mjoin (src !! i);
      vals ← construct i x vals;
      move_stack n (S i) src vals
  end.

(** [assign]: copies of the elements of [other], another object, in the storage of [v]. *)
Definition assign (other v : autovector T) : option (autovector T) :=
  let n := num_stack_items_ other in
  vals ← construct_first n 0 (values_ v);
  vals ← copy_first n 0 (values_ other) vals;
  Some (mkAutovector n vals (vect_ other) (Nat.max (vect_capacity v) (length (vect_ other)))).

(** [operator=(autovector &&)]: the vector and the elements move, [other] has none of its stack
    items left; its moved-from elements are not destroyed. *)
Definition move_assign (other v : autovector T) : option (autovector T * autovector T) :=
  let n := num_stack_items_ other in
  vals ← move_stack n 0 (values_ other) (values_ v);
  Some (mkAutovector n vals (vect_ other) (vect_capacity other),
        mkAutovector 0 (values_ other) [] 0).

(** The iterator: [begin() + i] and [*] *)
Definition deref (v : autovector T) (index_ : nat) : option T :=
  _ ← check (bool_decide (index_ <= av_size v)%nat); av_get v index_.

End Ops.
