(* ===== verification/AutovectorProofs.v ===== *)
(** * autovector: proofs *)

From S2P Require Import Prelude.
From S2P Require Import Autovector.

Section Proofs.
Context {T : Type} (kSize : nat) (T_default : T) (max_size : Z).

(** [v] holds the elements [xs]: the first ones in the buffer, and others only when it is full. *)
Record Holds (v : autovector T) (xs : list T) : Prop := {
  o_split : exists a rest, xs = a ++ vect_ v /\ values_ v = map Some a ++ rest /\
    num_stack_items_ v = length a /\ (vect_ v <> [] -> length a = kSize);
  o_values : length (values_ v) = kSize;
  o_capacity : (length (vect_ v) <= vect_capacity v)%nat;
}.

Lemma Holds_intro v a rest xs :
  xs = a ++ vect_ v -> values_ v = map Some a ++ rest -> num_stack_items_ v = length a ->
  (vect_ v <> [] -> length a = kSize) -> length (values_ v) = kSize ->
  (length (vect_ v) <= vect_capacity v)%nat -> Holds v xs.
Proof. intros. split; eauto 10. Qed.

Lemma construct_at (a : list T) (o : option T) rest x :
  construct (length a) x (map Some a ++ o :: rest) = Some (map Some (a ++ [x]) ++ rest).
Proof.
  unfold construct, check. rewrite bool_decide_eq_true_2.
  - cbn [mbind option_bind]. f_equal. rewrite insert_app_r_alt by (rewrite length_map; lia).
    rewrite length_map, Nat.sub_diag. cbn. by rewrite map_app, <- app_assoc.
  - rewrite length_app, length_map. cbn. lia.
Qed.

Lemma construct_again (a : list T) rest x y :
  construct (length a) y (map Some (a ++ [x]) ++ rest) = Some (map Some (a ++ [y]) ++ rest).
Proof. rewrite (map_app Some a [x]), <- app_assoc. apply construct_at. Qed.

Lemma destroy_last (a : list T) x rest :
  destroy (length a) (map Some (a ++ [x]) ++ rest) = Some (map Some a ++ None :: rest).
Proof.
  unfold destroy. rewrite (map_app Some a [x]), <- app_assoc. cbn [map app].
  rewrite lookup_app_r by (rewrite length_map; lia). rewrite length_map, Nat.sub_diag. cbn [lookup list_lookup].
  cbn. f_equal. rewrite insert_app_r_alt by (rewrite length_map; lia).
  by rewrite length_map, Nat.sub_diag.
Qed.

(** A free slot, as long as the buffer is not full. *)
Lemma free_slot v (a : list T) rest :
  length (values_ v) = kSize -> values_ v = map Some a ++ rest -> (length a < kSize)%nat ->
  exists o rest', rest = o :: rest'.
Proof.
  intros H1 H2 H3. rewrite H2, length_app, length_map in H1. destruct rest as [|o rest]; [cbn in H1; lia|eauto].
Qed.

Lemma av_size_ok v xs : Holds v xs -> av_size v = length xs.
Proof. intros [(a & rest & -> & _ & E & _) _ _]. unfold av_size. by rewrite E, length_app. Qed.

Lemma av_get_ok v xs n : Holds v xs -> av_get kSize v n = xs !! n.
Proof.
  intros H. unfold av_get. rewrite (av_size_ok v xs H). unfold check.
  destruct (bool_decide (n < length xs)%nat) eqn:E; cbn [mbind option_bind].
  2:{ apply bool_decide_eq_false in E. symmetry. apply lookup_ge_None. lia. }
  apply bool_decide_eq_true in E. destruct H as [(a & rest & -> & Ev & En & Hfull) Hv _].
  rewrite Ev, length_app, length_map in Hv. rewrite length_app in E.
  destruct (bool_decide (n < kSize)%nat) eqn:Ek.
  - apply bool_decide_eq_true in Ek. destruct (decide (n < length a)%nat) as [Hlt|Hge].
    + rewrite Ev, !lookup_app_l by (rewrite ?length_map; lia). rewrite list_lookup_fmap.
      destruct (lookup_lt_is_Some_2 a n Hlt) as [x ->]. done.
    + destruct (vect_ v) eqn:Eb; [cbn in E; lia|]. pose proof (Hfull ltac:(done)). lia.
  - apply bool_decide_eq_false in Ek. destruct (vect_ v) eqn:Eb; [cbn in E; lia|].
    pose proof (Hfull ltac:(done)) as Ha. rewrite lookup_app_r by lia. by rewrite Ha.
Qed.

(** Growing in the buffer and behind it. *)
Lemma grow_stack v a rest x :
  values_ v = map Some a ++ rest -> num_stack_items_ v = length a -> vect_ v = [] ->
  length (values_ v) = kSize -> (length a < kSize)%nat -> forall vals rest',
  vals = map Some (a ++ [x]) ++ rest' -> length vals = kSize ->
  Holds (set_stack (S (length a)) vals v) (a ++ [x]).
Proof.
  intros Ev En Eb Hv Hlt vals rest' -> Hlen.
  apply (Holds_intro _ (a ++ [x]) rest'); cbn [vect_ values_ num_stack_items_ set_stack vect_capacity];
    rewrite ?Eb, ?app_nil_r; try done; [rewrite length_app; cbn; lia|cbn; lia].
Qed.

Lemma push_back_ok v xs x : Holds v xs ->
  exists v', push_back kSize T_default x v = Some v' /\ emplace_back kSize x v = Some v' /\
    Holds v' (xs ++ [x]).
Proof.
  intros [(a & rest & -> & Ev & En & Hfull) Hv Hc]. unfold push_back, emplace_back. rewrite En.
  destruct (bool_decide (length a < kSize)%nat) eqn:Ek.
  - apply bool_decide_eq_true in Ek. destruct (free_slot v a rest Hv Ev Ek) as (o & rest' & ->).
    assert (vect_ v = []) as Eb.
    { destruct (vect_ v) eqn:Eb; [done|]. pose proof (Hfull ltac:(done)). lia. }
    rewrite Ev, !construct_at. cbn [mbind option_bind]. rewrite construct_again. cbn [mbind option_bind].
    eexists. split; [done|]. split; [done|]. rewrite Eb, app_nil_r.
    apply (grow_stack v a (o :: rest') x Ev En Eb Hv Ek _ rest'); [done|].
    rewrite Ev in Hv. rewrite !length_app, !length_map in *. rewrite length_app. cbn in *. lia.
  - apply bool_decide_eq_false in Ek. eexists. split; [done|]. split; [done|].
    assert (length a = kSize) as Ha.
    { rewrite Ev, length_app, length_map in Hv. lia. }
    apply (Holds_intro _ a rest); cbn [vect_ values_ num_stack_items_ set_vect vect_capacity]; try done.
    + by rewrite <- app_assoc.
    + lia.
Qed.

Lemma pop_back_ok v xs x : Holds v (xs ++ [x]) -> exists v', pop_back v = Some v' /\ Holds v' xs.
Proof.
  intros H. pose proof (av_size_ok _ _ H) as Hs. destruct H as [(a & rest & E & Ev & En & Hfull) Hv Hc].
  unfold pop_back, av_empty. rewrite Hs, length_app. cbn [length].
  rewrite (bool_decide_eq_false_2 (length xs + 1 = 0)%nat) by lia. cbn [negb check mbind option_bind].
  destruct (bool_decide (vect_ v <> [])) eqn:Eb.
  - apply bool_decide_eq_true in Eb. destruct (exists_last Eb) as (b & y & Hb).
    rewrite Hb, app_assoc in E. apply app_inj_tail in E as [-> ->]. eexists. split; [done|].
    rewrite Hb, removelast_last. specialize (Hfull Eb).
    apply (Holds_intro _ a rest); cbn [vect_ values_ num_stack_items_ set_vect vect_capacity]; try done.
    lia.
  - apply bool_decide_eq_false in Eb. destruct (vect_ v) as [|y b] eqn:Ev'; [|by destruct Eb].
    rewrite app_nil_r in E. subst a. rewrite En, Ev, length_app. cbn [length].
    replace (length xs + 1 - 1)%nat with (length xs) by lia. rewrite destroy_last. cbn [mbind option_bind].
    eexists. split; [done|].
    apply (Holds_intro _ xs (None :: rest)); cbn [vect_ values_ num_stack_items_ set_stack vect_capacity];
      rewrite ?Ev', ?app_nil_r; try done.
    rewrite Ev in Hv. rewrite !length_app, !length_map in *. rewrite length_app in Hv. cbn in *. lia.
Qed.

(** The loops on the buffer. *)
Lemma construct_up_ok k : forall (v : autovector T) (a : list T) rest,
  values_ v = map Some a ++ rest -> num_stack_items_ v = length a -> (k <= length rest)%nat ->
  construct_up T_default k v =
    Some (set_stack (length a + k) (map Some (a ++ replicate k T_default) ++ drop k rest) v).
Proof.
  induction k as [|k IH]; intros v a rest Ev En Hk.
  - cbn. rewrite Nat.add_0_r, app_nil_r, drop_0, <- Ev, <- En. by destruct v.
  - destruct rest as [|o rest]; [cbn in Hk; lia|]. cbn [construct_up].
    rewrite En, Ev, construct_at. cbn [mbind option_bind].
    rewrite (IH _ (a ++ [T_default]) rest).
    + cbn [replicate drop]. rewrite length_app, <- app_assoc. cbn [length app].
      replace (length a + 1 + k)%nat with (length a + S k)%nat by lia. done.
    + done.
    + cbn [num_stack_items_ set_stack]. rewrite length_app. cbn. lia.
    + cbn in Hk. lia.
Qed.

Lemma destroy_down_ok k : forall (v : autovector T) (a b : list T) rest,
  values_ v = map Some (a ++ b) ++ rest -> num_stack_items_ v = (length a + k)%nat -> length b = k ->
  destroy_down k v = Some (set_stack (length a) (map Some a ++ replicate k None ++ rest) v).
Proof.
  induction k as [|k IH]; intros v a b rest Ev En Hk.
  - destruct b; [|done]. rewrite app_nil_r in Ev. rewrite Nat.add_0_r in En. cbn.
    rewrite <- Ev, <- En. by destruct v.
  - destruct (exists_last (l := b)) as (b' & x & ->); [by destruct b|].
    rewrite length_app in Hk. cbn in Hk. cbn [destroy_down]. rewrite En, Ev, app_assoc.
    replace (length a + S k - 1)%nat with (length (a ++ b')) by (rewrite length_app; lia).
    rewrite destroy_last. cbn [mbind option_bind].
    rewrite (IH _ a b' (None :: rest)).
    + f_equal. unfold set_stack. f_equal. f_equal. cbn [replicate app].
      rewrite (app_assoc _ [None] rest : replicate k None ++ None :: rest = _).
      by rewrite <- replicate_cons_app, <- app_comm_cons.
    + done.
    + cbn [num_stack_items_ set_stack]. rewrite length_app. lia.
    + lia.
Qed.

Lemma vect_resize_app (a b : list T) n :
  (length a <= n)%nat -> vect_resize T_default n (a ++ b) = a ++ vect_resize T_default (n - length a) b.
Proof.
  intros Hn. unfold vect_resize. rewrite take_app_ge, length_app, <- app_assoc by lia.
  do 3 f_equal. lia.
Qed.

Lemma vect_resize_nil n : vect_resize T_default n [] = replicate n T_default.
Proof. unfold vect_resize. by rewrite take_nil, Nat.sub_0_r. Qed.

Lemma av_Holds_cases v xs : Holds v xs -> exists a rest,
  xs = a ++ vect_ v /\ values_ v = map Some a ++ rest /\ num_stack_items_ v = length a /\
  (length a + length rest)%nat = kSize /\ (length a = kSize \/ vect_ v = []).
Proof.
  intros [(a & rest & -> & Ev & En & Hfull) Hv _]. exists a, rest.
  rewrite Ev, length_app, length_map in Hv. repeat split; try done.
  destruct (vect_ v) eqn:Eb; [by right|]. left. by apply Hfull.
Qed.

Lemma resize_up v xs n : Holds v xs -> (kSize < n)%nat ->
  exists v', av_resize kSize T_default n v = Some v' /\ Holds v' (vect_resize T_default n xs).
Proof.
  intros H Hn. destruct (av_Holds_cases v xs H) as (a & rest & -> & Ev & En & Hk & Hor).
  unfold av_resize. rewrite bool_decide_eq_true_2 by done.
  cbn [num_stack_items_ set_vect]. rewrite En.
  rewrite (construct_up_ok _ _ a rest) by (cbn [values_ num_stack_items_ set_vect]; done || lia).
  cbn [mbind option_bind]. eexists. split; [done|]. cbn [values_ set_stack].
  set (a' := a ++ replicate (kSize - length a) T_default).
  assert (length a' = kSize) as Ha' by (unfold a'; rewrite length_app, length_replicate; lia).
  replace (vect_resize T_default n (a ++ vect_ v)) with (a' ++ vect_resize T_default (n - kSize) (vect_ v)).
  - eapply (Holds_intro _ a'); cbn [vect_ values_ num_stack_items_ set_stack set_vect vect_capacity]; try done.
    + rewrite length_app, length_map, length_drop. lia.
    + lia.
  - rewrite vect_resize_app by lia. unfold a'. destruct Hor as [E| ->].
    + by rewrite E, Nat.sub_diag, app_nil_r.
    + rewrite !vect_resize_nil, <- app_assoc, <- replicate_add. do 2 f_equal. lia.
Qed.

Lemma resize_down v xs n : Holds v xs -> (n <= kSize)%nat ->
  exists v', av_resize kSize T_default n v = Some v' /\ Holds v' (vect_resize T_default n xs).
Proof.
  intros H Hn. destruct (av_Holds_cases v xs H) as (a & rest & -> & Ev & En & Hk & Hor).
  unfold av_resize. rewrite bool_decide_eq_false_2 by lia.
  cbn [num_stack_items_ set_vect]. rewrite En.
  rewrite (construct_up_ok _ _ a rest) by (cbn [values_ num_stack_items_ set_vect]; done || lia).
  cbn [mbind option_bind num_stack_items_ set_stack].
  destruct (decide (length a <= n)%nat) as [Hle|Hgt].
  - replace (length a + (n - length a) - n)%nat with 0%nat by lia. cbn [destroy_down].
    eexists. split; [done|]. rewrite vect_resize_app by lia.
    set (a' := a ++ replicate (n - length a) T_default).
    assert (vect_resize T_default (n - length a) (vect_ v) = replicate (n - length a) T_default) as ->.
    { destruct Hor as [E| ->]; [|apply vect_resize_nil].
      replace (n - length a)%nat with 0%nat by lia. done. }
    apply (Holds_intro _ a' (drop (n - length a) rest));
      cbn [vect_ values_ num_stack_items_ set_stack set_vect vect_capacity]; try done.
    + by rewrite app_nil_r.
    + unfold a'. by rewrite length_app, length_replicate.
    + rewrite length_app, length_map, length_drop. unfold a'. rewrite length_app, length_replicate. lia.
    + cbn. lia.
  - replace (n - length a)%nat with 0%nat by lia. cbn [replicate drop]. rewrite app_nil_r, Nat.add_0_r.
    rewrite (destroy_down_ok _ _ (take n a) (drop n a) rest).
    + eexists. split; [done|]. unfold vect_resize. rewrite length_app.
      replace (n - (length a + length (vect_ v)))%nat with 0%nat by lia. rewrite app_nil_r.
      rewrite take_app_le by lia.
      eapply (Holds_intro _ (take n a)); cbn [vect_ values_ num_stack_items_ set_stack set_vect vect_capacity]; try done.
      * by rewrite app_nil_r.
      * rewrite !length_app, length_map, length_replicate, length_take. lia.
      * cbn. lia.
    + cbn [values_ set_stack]. by rewrite take_drop.
    + cbn [num_stack_items_ set_stack]. rewrite length_take. lia.
    + rewrite length_drop. lia.
Qed.

Lemma clear_ok v xs : Holds v xs -> exists v', clear v = Some v' /\ Holds v' [].
Proof.
  intros H. destruct (av_Holds_cases v xs H) as (a & rest & -> & Ev & En & Hk & Hor).
  unfold clear. rewrite En, (destroy_down_ok _ _ [] a rest) by done.
  cbn [mbind option_bind]. eexists. split; [done|].
  eapply (Holds_intro _ []); cbn [vect_ values_ num_stack_items_ set_stack set_vect vect_capacity]; try done.
  - rewrite !length_app, length_replicate. cbn. lia.
  - cbn. lia.
Qed.

(** Copies and moves between two objects. *)
Lemma construct_first_ok n : forall (p q : list (option T)), (n <= length q)%nat ->
  construct_first T_default n (length p) (p ++ q) = Some (p ++ replicate n (Some T_default) ++ drop n q).
Proof.
  induction n as [|n IH]; intros p q Hn; [done|]. destruct q as [|o q]; [cbn in Hn; lia|].
  cbn [construct_first]. unfold construct, check.
  rewrite bool_decide_eq_true_2 by (rewrite length_app; cbn; lia). cbn [mbind option_bind].
  rewrite insert_app_r_alt, Nat.sub_diag by lia. cbn [insert list_insert].
  specialize (IH (p ++ [Some T_default]) q). rewrite length_app, <- app_assoc in IH. cbn in IH.
  replace (length p + 1)%nat with (S (length p)) in IH by lia. rewrite IH by (cbn in Hn; lia).
  by rewrite <- app_assoc.
Qed.

Lemma lookup_middle_Some (p : list T) x r : mjoin ((map Some p ++ Some x :: r) !! length p) = Some x.
Proof. rewrite lookup_app_r, length_map, Nat.sub_diag by (rewrite length_map; lia). done. Qed.

Lemma copy_first_ok (c : list T) : forall (p : list T) r q,
  copy_first (length c) (length p) (map Some (p ++ c) ++ r)
    (map Some p ++ replicate (length c) (Some T_default) ++ q) = Some (map Some (p ++ c) ++ q).
Proof.
  induction c as [|x c IH]; intros p r q; [cbn; by rewrite app_nil_r|].
  cbn [copy_first length replicate app]. rewrite (map_app Some p (x :: c)), <- !app_assoc. cbn [map app].
  rewrite !lookup_middle_Some. cbn [mbind option_bind].
  rewrite insert_app_r_alt, length_map, Nat.sub_diag by (rewrite length_map; lia). cbn [insert list_insert].
  specialize (IH (p ++ [x]) r q). rewrite length_app, !map_app, <- !app_assoc in IH. cbn in IH.
  by replace (length p + 1)%nat with (S (length p)) in IH by lia.
Qed.

Lemma move_stack_ok (c : list T) : forall (p : list T) r q, (length c <= length q)%nat ->
  move_stack T_default (length c) (length p) (map Some (p ++ c) ++ r) (map Some p ++ q) =
    Some (map Some (p ++ c) ++ drop (length c) q).
Proof.
  induction c as [|x c IH]; intros p r q Hq; [cbn; by rewrite app_nil_r, drop_0|].
  destruct q as [|o q]; [cbn in Hq; lia|]. cbn [move_stack length]. rewrite construct_at. cbn [mbind option_bind].
  rewrite (map_app Some p (x :: c)) at 1. rewrite <- app_assoc. cbn [map app]. rewrite lookup_middle_Some.
  cbn [mbind option_bind]. rewrite construct_again. cbn [mbind option_bind].
  specialize (IH (p ++ [x]) r q). rewrite length_app, <- app_assoc in IH. cbn in IH.
  replace (length p + 1)%nat with (S (length p)) in IH by lia. cbn in Hq |- *. by rewrite IH by lia.
Qed.

Lemma assign_ok other v xs ys : Holds other xs -> Holds v ys ->
  exists v', assign T_default other v = Some v' /\ Holds v' xs.
Proof.
  intros H Hv. destruct (av_Holds_cases other xs H) as (a & rest & -> & Ev & En & Hk & Hor).
  destruct Hv as [_ Hlen _]. unfold assign. rewrite En, Ev.
  pose proof (construct_first_ok (length a) [] (values_ v) ltac:(lia)) as E1.
  pose proof (copy_first_ok a [] rest (drop (length a) (values_ v))) as E2.
  cbn [length app map] in E1, E2. rewrite E1. cbn [mbind option_bind]. rewrite E2. cbn [mbind option_bind].
  eexists. split; [done|].
  eapply (Holds_intro _ a); cbn [vect_ values_ num_stack_items_ vect_capacity]; try done.
  - intros Hne. by destruct Hor.
  - rewrite length_app, length_map, length_drop. lia.
  - lia.
Qed.

Lemma move_assign_ok other v xs ys : Holds other xs -> Holds v ys ->
  exists v' other', move_assign T_default other v = Some (v', other') /\ Holds v' xs /\ Holds other' [].
Proof.
  intros H Hv. pose proof (o_values _ _ H) as Hlo. pose proof (o_capacity _ _ H) as Hco.
  destruct (av_Holds_cases other xs H) as (a & rest & -> & Ev & En & Hk & Hor).
  destruct Hv as [_ Hlen _]. unfold move_assign. rewrite En, Ev.
  pose proof (move_stack_ok a [] rest (values_ v) ltac:(lia)) as E.
  cbn [length app map] in E. rewrite E. cbn [mbind option_bind].
  do 2 eexists. split; [done|]. split.
  - eapply (Holds_intro _ a); cbn [vect_ values_ num_stack_items_ vect_capacity]; try done.
    + intros Hne. by destruct Hor.
    + rewrite length_app, length_map, length_drop. lia.
  - eapply (Holds_intro _ []); cbn [vect_ values_ num_stack_items_ vect_capacity]; try done.
    by rewrite <- Ev.
Qed.

(** Two objects, the one in use first, and what may be done with them. *)
Inductive av_op : Type :=
| OpPush (x : T)
| OpEmplace (x : T)
| OpPop
| OpResize (n : nat)
| OpClear
| OpAssign
| OpMove
| OpOther.

Definition av_step (op : av_op) (s : autovector T * autovector T) : option (autovector T * autovector T) :=
  let '(v, w) := s in
  match op with
  | OpPush x => v' ← push_back kSize T_default x v; Some (v', w)
  | OpEmplace x => v' ← emplace_back kSize x v; Some (v', w)
  | OpPop => v' ← pop_back v; Some (v', w)
  | OpResize n => v' ← av_resize kSize T_default n v; Some (v', w)
  | OpClear => v' ← clear v; Some (v', w)
  | OpAssign => v' ← assign T_default w v; Some (v', w)
  | OpMove => move_assign T_default w v
  | OpOther => Some (w, v)
  end.

(** The same on plain lists. *)
Definition list_step (op : av_op) (s : list T * list T) : option (list T * list T) :=
  let '(xs, ys) := s in
  match op with
  | OpPush x | OpEmplace x => Some (xs ++ [x], ys)
  | OpPop => match xs with [] => None | _ => Some (removelast xs, ys) end
  | OpResize n => Some (vect_resize T_default n xs, ys)
  | OpClear => Some ([], ys)
  | OpAssign => Some (ys, ys)
  | OpMove => Some (ys, [])
  | OpOther => Some (ys, xs)
  end.

Definition run_ops {S : Type} (step : av_op -> S -> option S) (ops : list av_op) (s : S) : option S :=
  foldl (fun o op => s ← o; step op s) (Some s) ops.

(** What a caller sees of an object. *)
Definition Shows (v : autovector T) (xs : list T) : Prop :=
  av_size v = length xs /\ (forall n, av_get kSize v n = xs !! n) /\
  front kSize v = head xs /\ back kSize v = last xs.

Definition both {A B : Type} (P : A -> B -> Prop) (s : A * A) (t : B * B) : Prop :=
  P s.1 t.1 /\ P s.2 t.2.

Lemma Holds_Shows v xs : Holds v xs -> Shows v xs.
Proof.
  intros H. pose proof (av_size_ok _ _ H) as Hs.
  assert (forall n, av_get kSize v n = xs !! n) as Hg by (intros n; by apply av_get_ok).
  split; [done|]. split; [done|]. unfold front, back, av_empty. rewrite Hs, !Hg.
  destruct xs as [|x xs]; [done|]. rewrite bool_decide_eq_false_2 by done. cbn [negb check mbind option_bind].
  split; [done|]. rewrite last_lookup. f_equal. cbn. lia.
Qed.

Lemma new_Holds : Holds (autovector_new kSize) [].
Proof.
  apply (Holds_intro _ [] (replicate kSize None)); try done. cbn. by rewrite length_replicate.
Qed.

Lemma av_step_ok op s t : both Holds s t ->
  option_Forall2 (both Holds) (av_step op s) (list_step op t).
Proof.
  destruct s as [v w], t as [xs ys]. intros [Hv Hw]. cbn in Hv, Hw. destruct op; cbn [av_step list_step].
  1,2: destruct (push_back_ok v xs x Hv) as (v' & E1 & E2 & Hv'); rewrite ?E1, ?E2; by constructor.
  - destruct xs as [|x xs _] using rev_ind.
    + unfold pop_back, av_empty. rewrite (av_size_ok _ _ Hv). constructor.
    + destruct (pop_back_ok v xs x Hv) as (v' & -> & Hv'). rewrite removelast_last.
      destruct (xs ++ [x]) eqn:E; [by destruct xs|]. by constructor.
  - assert (exists v', av_resize kSize T_default n v = Some v' /\ Holds v' (vect_resize T_default n xs))
      as (v' & -> & Hv').
    { destruct (decide (kSize < n)%nat); [by apply resize_up|apply resize_down; [done|lia]]. }
    by constructor.
  - destruct (clear_ok v xs Hv) as (v' & -> & Hv'). by constructor.
  - destruct (assign_ok w v ys xs Hw Hv) as (v' & -> & Hv'). by constructor.
  - destruct (move_assign_ok w v ys xs Hw Hv) as (v' & w' & -> & Hv' & Hw'). by constructor.
  - by constructor.
Qed.

Lemma av_run_ok ops : forall o o', option_Forall2 (both Holds) o o' ->
  option_Forall2 (both Holds) (foldl (fun o op => s ← o; av_step op s) o ops)
    (foldl (fun o op => s ← o; list_step op s) o' ops).
Proof.
  induction ops as [|op ops IH]; intros o o' H; cbn [foldl]; [done|]. apply IH.
  destruct H as [s t H|]; [by apply av_step_ok|constructor].
Qed.

(** C37: Two autovectors behave as two vectors: every sequence of [push_back], [emplace_back],
    [pop_back], [resize], [clear], copies and moves, from two empty objects, fails where it
    fails on lists (an element is taken from an empty vector) and nowhere else, no slot of the
    buffer is read or destroyed without an element, and what [size], [operator[]], [front] and
    [back] return is what the list holds, whatever the size of the buffer. *)
Theorem autovector_is_vector ops :
  option_Forall2 (both Shows)
    (run_ops av_step ops (autovector_new kSize, autovector_new kSize))
    (run_ops list_step ops ([], [])).
Proof.
  unfold run_ops.
  destruct (av_run_ok ops (Some (autovector_new kSize, autovector_new kSize)) (Some ([], []))) as [s t [H1 H2]|].
  - constructor. split; apply new_Holds.
  - constructor. split; by apply Holds_Shows.
  - constructor.
Qed.

(** [reserve] has its test the wrong way round: for a capacity below the size of the buffer the
    difference wraps and the vector is asked for more than it can hold, and for any other
    capacity nothing is reserved. *)
Lemma reserve_inverted (v : autovector T) cap :
  (Z.of_nat kSize < 2^62)%Z -> (max_size < 2^63)%Z ->
  reserve kSize max_size cap v =
    if bool_decide (kSize <= cap <= capacity kSize v)%nat then Some v else None.
Proof.
  intros Hk Hm. unfold reserve, check. destruct (decide (cap < kSize)%nat) as [Hlt|Hge].
  - rewrite bool_decide_eq_true_2 by done. rewrite (bool_decide_eq_false_2 (kSize <= _ <= _)%nat) by lia.
    destruct (Z.leb_spec (u64 (Z.of_nat cap - Z.of_nat kSize)) max_size) as [Hle|]; [|done].
    exfalso. unfold wrap in Hle. revert Hle. rewrite <- (Z_mod_plus_full _ 1), Z.mod_small; lia.
  - rewrite bool_decide_eq_false_2 by lia. cbn [mbind option_bind].
    destruct (decide (cap <= capacity kSize v)%nat) as [Hc|Hc].
    + rewrite !bool_decide_eq_true_2 by lia. done.
    + rewrite !bool_decide_eq_false_2 by lia. done.
Qed.
End Proofs.
