(* ===== verification/ConcurrentArena.v ===== *)
(** * The arena behind per-core caches

    [memory/concurrent_arena.h] and the array of [util/core_local.h]: an arena that many
    threads use, with a spin lock of its own and a small cache of free memory per core. A
    block under the lock of the arena is one step; a thread that holds the lock of a shard
    may be interrupted by others between its steps. The constructor and [Repick] have no
    definition in the repository: an initial state has empty shards, and [Repick] may choose
    any shard. As in [Arena], [None] is the exception that [new] throws. *)

From S2P Require Import Prelude.
From S2P Require Import Arena.

(** ** [CoreLocalArray] *)

(** [while (1 << size_shift_ < num_cpus) ++size_shift_]; the shift stays below [fuel]. *)
Fixpoint size_shift_loop (fuel : nat) (num_cpus size_shift : Z) : option Z :=
  if Z.shiftl 1 size_shift <? num_cpus then
    match fuel with
    | O => None
    | S fuel => size_shift_loop fuel num_cpus (size_shift + 1)
    end
  else Some size_shift.

Definition core_size_shift (num_cpus : Z) : option Z := size_shift_loop 31 num_cpus 3.

Definition core_size (size_shift : Z) : Z := Z.shiftl 1 size_shift.

(** ** [ConcurrentArena] *)

Record Shard : Type := mkShard { free_begin_ : Z; allocated_and_unused_ : Z }.

Definition Shard_new : Shard := mkShard 0 0.

Section Concurrent.
Context `{M : MemorySource}.

Record ConcurrentArena : Type := mkConcurrentArena {
  shard_block_size_ : Z;
  shards_ : list Shard;
  arena_ : Arena;
  arena_allocated_and_unused_ : Z;
  memory_allocated_bytes_ : Z;
  irregular_block_num_ : Z;
}.

Definition set_arena (a : Arena) (c : ConcurrentArena) : ConcurrentArena :=
  mkConcurrentArena (shard_block_size_ c) (shards_ c) a (arena_allocated_and_unused_ c)
    (memory_allocated_bytes_ c) (irregular_block_num_ c).
Definition set_shard (i : nat) (s : Shard) (c : ConcurrentArena) : ConcurrentArena :=
  mkConcurrentArena (shard_block_size_ c) (<[i := s]> (shards_ c)) (arena_ c)
    (arena_allocated_and_unused_ c) (memory_allocated_bytes_ c) (irregular_block_num_ c).

Definition Fixup (c : ConcurrentArena) : ConcurrentArena :=
  mkConcurrentArena (shard_block_size_ c) (shards_ c) (arena_ c)
    (AllocatedAndUnused (arena_ c)) (MemoryAllocatedBytes (arena_ c)) (irregular_block_num (arena_ c)).

Definition ShardAllocatedAndUnused (c : ConcurrentArena) : Z :=
  foldl (fun total s => u64 (total + allocated_and_unused_ s)) 0 (shards_ c).

Definition Concurrent_ApproximateMemoryUsage (c : ConcurrentArena) : Z :=
  u64 (ApproximateMemoryUsage (arena_ c) - ShardAllocatedAndUnused c).

Definition Concurrent_AllocatedAndUnused (c : ConcurrentArena) : Z :=
  u64 (arena_allocated_and_unused_ c + ShardAllocatedAndUnused c).

(** A call of [Allocate] or [AllocateAligned]. *)
Inductive Request : Type := RAllocate (bytes : Z) | RAligned (bytes huge_page_size : Z).

(** What callers may ask for. *)
Definition request_ok (r : Request) : Prop :=
  match r with
  | RAllocate bytes => 0 < bytes < 2 ^ 61
  | RAligned bytes huge_page_size => 0 < bytes < 2 ^ 61 /\ 0 <= huge_page_size < 2 ^ 62
  end.

Definition sizeof_ptr : Z := 8.

(** [((bytes - 1) | (sizeof(void * ) - 1)) + 1] *)
Definition rounded_up (bytes : Z) : Z := u64 (Z.lor (u64 (bytes - 1)) (sizeof_ptr - 1) + 1).

(** The arguments [bytes], [force_arena] and [func] of [AllocateImpl]. *)
Definition impl_bytes (r : Request) : Z :=
  match r with RAllocate bytes => bytes | RAligned bytes _ => rounded_up bytes end.
Definition force_arena (r : Request) : bool :=
  match r with RAllocate _ => false | RAligned _ huge_page_size => negb (huge_page_size =? 0) end.
Definition func (r : Request) (a : Arena) : option (Z * Arena) :=
  match r with
  | RAllocate bytes => Allocate bytes a
  | RAligned bytes huge_page_size => AllocateAligned (rounded_up bytes) huge_page_size a
  end.

(** [auto rv = func(); Fixup(); return rv;] under the lock of the arena *)
Definition allocate_direct (r : Request) (c : ConcurrentArena) : option (Z * ConcurrentArena) :=
  '(rv, a) ← func r (arena_ c); Some (rv, Fixup (set_arena a c)).

Definition too_large (r : Request) (c : ConcurrentArena) : bool :=
  (impl_bytes r >? shard_block_size_ c / 4) || force_arena r.

(** [!shards_.AccessAtCore(0)->allocated_and_unused_.load()] *)
Definition first_unused (c : ConcurrentArena) : option bool :=
  s ← shards_ c !! 0%nat; Some (allocated_and_unused_ s =? 0).

(** [cpu & (shards_.Size() - 1)] *)
Definition shard_index (cpu : Z) (c : ConcurrentArena) : nat :=
  Z.to_nat (Z.land cpu (Z.of_nat (length (shards_ c)) - 1)).

(** The block under [reload_lock]: the arena answers itself, or the shard gets new memory of
    the size that is returned. *)
Definition reload (i : nat) (r : Request) (c : ConcurrentArena) :
    option ((Z + Z) * ConcurrentArena) :=
  let exact := arena_allocated_and_unused_ c in
  if (exact >=? impl_bytes r) && IsInInlineBlock (arena_ c) then
    '(rv, c) ← allocate_direct r c; Some (inl rv, c)
  else
    let avail :=
      if (exact >=? shard_block_size_ c / 2) && (exact <? u64 (shard_block_size_ c * 2)) then exact
      else shard_block_size_ c in
    s ← shards_ c !! i;
    '(p, a) ← AllocateAligned avail 0 (arena_ c);
    Some (inr avail, Fixup (set_arena a (set_shard i (mkShard p (allocated_and_unused_ s)) c))).

(** The end of [AllocateImpl]: the piece is taken from the shard. *)
Definition take_piece (i : nat) (r : Request) (avail : Z) (c : ConcurrentArena) :
    option (Z * ConcurrentArena) :=
  s ← shards_ c !! i;
  let bytes := impl_bytes r in
  let unused := u64 (avail - bytes) in
  if bytes mod sizeof_ptr =? 0 then
    Some (free_begin_ s, set_shard i (mkShard (free_begin_ s + bytes) unused) c)
  else Some (free_begin_ s + avail - bytes, set_shard i (mkShard (free_begin_ s) unused) c).

(** ** Threads

    Where a thread is in [AllocateImpl]: before its decision, waiting for the lock of the
    arena, trying to get it, about to try the lock of a shard, waiting for the lock of the
    shard that [Repick] has chosen, with the lock of shard [i], and with [avail] bytes in it. *)
Inductive Phase : Type :=
| Deciding
| ToArena
| Trying
| Picking (cpu : Z)
| Waiting (i : nat)
| Locked (i : nat)
| Taking (i : nat) (avail : Z).

Record Threads : Type := mkThreads {
  shared : ConcurrentArena;
  running : gmap nat (Request * Phase);
  returned : list (Request * Z);
}.

Definition holds_shard (i : nat) (p : Phase) : bool :=
  match p with Locked j | Taking j _ => bool_decide (i = j) | _ => false end.

Definition shard_free (i : nat) (T : Threads) : Prop :=
  forall t r p, running T !! t = Some (r, p) -> holds_shard i p = false.

(** The decision at the start, for a thread whose [tls_cpuid] is [cpu]. *)
Definition decide_path (cpu : Z) (r : Request) (c : ConcurrentArena) : option Phase :=
  if too_large r c then Some ToArena
  else if cpu =? 0 then
    idle ← first_unused c;
    Some (if idle : bool then Trying else Picking cpu)
  else Some (Picking cpu).

(** With the lock of a shard: the memory at hand is used, or more is asked for. *)
Definition look (i : nat) (r : Request) (c : ConcurrentArena) :
    option ((Z + Z) * ConcurrentArena) :=
  s ← shards_ c !! i;
  let avail := allocated_and_unused_ s in
  if avail <? impl_bytes r then reload i r c else Some (inr avail, c).

Definition goes_on (t : nat) (r : Request) (p : Phase) (c : ConcurrentArena) (T : Threads) : Threads :=
  mkThreads c (<[t := (r, p)]> (running T)) (returned T).
Definition returns (t : nat) (r : Request) (rv : Z) (c : ConcurrentArena) (T : Threads) : Threads :=
  mkThreads c (delete t (running T)) ((r, rv) :: returned T).

Inductive th_step (T : Threads) : Threads -> Prop :=
| st_call t r : running T !! t = None -> request_ok r -> th_step T (goes_on t r Deciding (shared T) T)
| st_decide t r cpu p : running T !! t = Some (r, Deciding) ->
    decide_path cpu r (shared T) = Some p -> th_step T (goes_on t r p (shared T) T)
| st_arena t r p rv c : running T !! t = Some (r, p) -> p = ToArena \/ p = Trying ->
    allocate_direct r (shared T) = Some (rv, c) -> th_step T (returns t r rv c T)
| st_try_fails t r : running T !! t = Some (r, Trying) ->
    th_step T (goes_on t r (Picking 0) (shared T) T)
| st_pick t r cpu : running T !! t = Some (r, Picking cpu) ->
    shard_free (shard_index cpu (shared T)) T ->
    th_step T (goes_on t r (Locked (shard_index cpu (shared T))) (shared T) T)
| st_repick t r cpu i : running T !! t = Some (r, Picking cpu) ->
    ~ shard_free (shard_index cpu (shared T)) T -> (i < length (shards_ (shared T)))%nat ->
    th_step T (goes_on t r (Waiting i) (shared T) T)
| st_lock t r i : running T !! t = Some (r, Waiting i) -> shard_free i T ->
    th_step T (goes_on t r (Locked i) (shared T) T)
| st_look t r i avail c : running T !! t = Some (r, Locked i) ->
    look i r (shared T) = Some (inr avail, c) -> th_step T (goes_on t r (Taking i avail) c T)
| st_look_returns t r i rv c : running T !! t = Some (r, Locked i) ->
    look i r (shared T) = Some (inl rv, c) -> th_step T (returns t r rv c T)
| st_take t r i avail rv c : running T !! t = Some (r, Taking i avail) ->
    take_piece i r avail (shared T) = Some (rv, c) -> th_step T (returns t r rv c T).

End Concurrent.
