(* ===== verification/ConcurrentArenaProofs.v ===== *)
(** * The arena behind per-core caches: proofs *)

From S2P Require Import Prelude.
From S2P Require Import Arena.
From S2P Require Import ArenaProofs.
From S2P Require Import ConcurrentArena.

(** ** The array of shards *)

Lemma size_shift_loop_ok fuel : forall n sh, 0 <= sh -> n <= 2 ^ (sh + Z.of_nat fuel) ->
  exists k, size_shift_loop fuel n sh = Some k /\ sh <= k /\ n <= 2 ^ k /\ (k = sh \/ 2 ^ (k - 1) < n).
Proof.
  induction fuel as [|fuel IH]; intros n sh Hs Hn; cbn [size_shift_loop];
    rewrite Z.shiftl_1_l; destruct (Z.ltb_spec (2 ^ sh) n) as [Hlt|Hge]; try (exists sh; split_and!; auto; lia).
  - replace (sh + Z.of_nat 0) with sh in Hn by lia. lia.
  - destruct (IH n (sh + 1)) as (k & E & H1 & H2 & H3); [lia|by replace (sh + 1 + Z.of_nat fuel) with (sh + Z.of_nat (S fuel)) by lia|].
    exists k. split_and!; try done; [lia|]. right. destruct H3 as [->|?]; [|done].
    by replace (sh + 1 - 1) with sh by lia.
Qed.

(** The constructor returns; there is a shard for every processor, at least eight and less
    than twice as many as needed. *)
Lemma core_size_ok n : n < 2 ^ 31 ->
  exists k, core_size_shift n = Some k /\ n <= core_size k /\ 8 <= core_size k /\
    (core_size k = 8 \/ core_size k < 2 * n).
Proof.
  intros Hn. destruct (size_shift_loop_ok 31 n 3 ltac:(lia)) as (k & E & H1 & H2 & H3); [cbn; lia|].
  exists k. unfold core_size_shift, core_size. rewrite Z.shiftl_1_l. split_and!; try done.
  - change 8 with (2 ^ 3). apply Z.pow_le_mono_r; lia.
  - destruct H3 as [->|H3]; [by left|]. right. replace k with (1 + (k - 1)) at 1 by lia.
    rewrite Z.pow_add_r by lia. lia.
Qed.

Lemma rounded_up_ok n : 0 < n < 2 ^ 61 ->
  n <= rounded_up n < n + 8 /\ rounded_up n mod sizeof_ptr = 0.
Proof.
  intros Hn. unfold rounded_up, sizeof_ptr. rewrite (wrap_small 64 (n - 1)) by (unfold is_uint; lia).
  pose proof (Z.add_lor_land (n - 1) (8 - 1)) as E.
  change (8 - 1) with (Z.ones 3) in *. rewrite Z.land_ones in E by lia.
  change (Z.ones 3) with 7 in *. change (2 ^ 3) with 8 in E.
  assert (Z.lor (n - 1) 7 = (n - 1) / 8 * 8 + 7) as -> by dlia.
  rewrite wrap_small by (unfold is_uint; dlia). dlia.
Qed.

Lemma apart_perm l l' : l ≡ₚ l' -> apart l -> apart l'.
Proof.
  induction 1 as [|x l l' Hp IH|x y l|l l1 l2 H1 IH1 H2 IH2]; [done| | |by auto].
  - inversion 1 as [|? ? Hx Hl]; subst. constructor; [by rewrite <- Hp|by apply IH].
  - inversion 1 as [|? ? Hy Hl]; subst. inversion Hl as [|? ? Hx Hl']; subst.
    apply Forall_cons in Hy as [Hyx Hy]. constructor; [constructor; [by apply disjoint_sym|done]|].
    by constructor.
Qed.

Lemma Pieces_perm blocks l l' : l ≡ₚ l' -> Pieces blocks l -> Pieces blocks l'.
Proof. intros Hp [Hw Ha]. split; [intros r; rewrite <- Hp; apply Hw|by eapply apart_perm]. Qed.

Section Threads.
Context `{M : MemorySource} `{!MemorySourceLaws M} (Halign : 8 <= kAlignUnit).

Lemma aligned_8 a : aligned_at a -> a mod 8 = 0.
Proof.
  unfold aligned_at. destruct align_power as (k & Hk & E). rewrite E in Halign |- *. intros H.
  assert (3 <= k) as H3. { change 8 with (2 ^ 3) in Halign. apply Z.pow_le_mono_r_iff in Halign; lia. }
  replace k with ((k - 3) + 3) in H by lia. rewrite Z.pow_add_r in H by lia. change (2 ^ 3) with 8 in H.
  apply Z.mod_divide in H; [|assert (0 < 2 ^ (k - 3)) by (apply Z.pow_pos_nonneg; lia); lia].
  apply Z.mod_divide; [lia|]. destruct H as [q ->]. exists (q * 2 ^ (k - 3)). lia.
Qed.

Lemma impl_bytes_ok r : request_ok r -> 0 < impl_bytes r < 2 ^ 62.
Proof.
  destruct r as [n|n hp]; cbn [request_ok impl_bytes]; [lia|]. intros [H _].
  pose proof (rounded_up_ok n H). lia.
Qed.

(** A piece of [AllocateAligned] is aligned and as long as asked for. *)
Definition aligned_request (x : Request * Z) : Prop :=
  match x.1 with RAligned n _ => x.2 mod 8 = 0 /\ n <= impl_bytes x.1 | _ => True end.

Lemma func_ok r a owned rv a' : ArenaInv a owned -> request_ok r -> func r a = Some (rv, a') ->
  ArenaInv a' (mkRange rv (impl_bytes r) :: owned) /\ aligned_request (r, rv).
Proof.
  intros I Hr E. pose proof (impl_bytes_ok r Hr) as Hb. destruct r as [n|n hp]; cbn [impl_bytes request_ok func] in *.
  - split; [|done]. apply (Allocate_ok n a _ rv a' I); [lia|done].
  - destruct (AllocateAligned_ok (rounded_up n) hp a _ rv a' I ltac:(lia) ltac:(lia) E) as [I' Ha].
    split; [done|]. split; [by apply aligned_8|]. cbn. apply (rounded_up_ok n). apply Hr.
Qed.

(** ** The invariant

    [owned] is what the arena has handed out: pieces of clients and memory of shards; [frees]
    is the free memory of each shard that has some. *)

Definition piece_at (x : Request * Z) : Range := mkRange (x.2) (impl_bytes x.1).

Definition untaken (T : Threads) (i : nat) : Prop :=
  forall t r n, running T !! t <> Some (r, Taking i n).

(** The free memory of shard [s], of which no thread is taking a piece if [u] holds. *)
Definition shard_has (u : Prop) (s : Shard) (o : option Range) : Prop :=
  match o with
  | Some f => r_addr f = free_begin_ s /\ 0 <= r_len f < 2 ^ 62 /\ r_addr f mod 8 = 0 /\
      (u -> r_len f = allocated_and_unused_ s)
  | None => u -> allocated_and_unused_ s = 0
  end.

Definition small_phase (c : ConcurrentArena) (r : Request) (p : Phase) : Prop :=
  match p with
  | Deciding | ToArena => True
  | Trying | Picking _ => impl_bytes r <= shard_block_size_ c / 4
  | Waiting i | Locked i | Taking i _ =>
      impl_bytes r <= shard_block_size_ c / 4 /\ (i < length (shards_ c))%nat
  end.

Record CShape (c : ConcurrentArena) : Prop := {
  cs_block : 0 <= shard_block_size_ c < 2 ^ 60;
  cs_shards : exists k, 0 <= k /\ Z.of_nat (length (shards_ c)) = 2 ^ k;
  cs_unused : arena_allocated_and_unused_ c = AllocatedAndUnused (arena_ c);
  cs_memory : memory_allocated_bytes_ c = MemoryAllocatedBytes (arena_ c);
  cs_irregular : irregular_block_num_ c = irregular_block_num (arena_ c);
}.

Record CInv (T : Threads) (owned : list Range) (frees : list (option Range)) : Prop := {
  ci_shape : CShape (shared T);
  ci_arena : ArenaInv (arena_ (shared T)) owned;
  ci_pieces : Pieces owned (omap id frees ++ map piece_at (returned T));
  ci_length : length frees = length (shards_ (shared T));
  ci_frees i s o : shards_ (shared T) !! i = Some s -> frees !! i = Some o ->
    shard_has (untaken T i) s o;
  ci_taking t r i n : running T !! t = Some (r, Taking i n) ->
    exists f, frees !! i = Some (Some f) /\ r_len f = n /\ impl_bytes r <= n;
  ci_excl t t' r r' p p' i : running T !! t = Some (r, p) -> running T !! t' = Some (r', p') ->
    holds_shard i p = true -> holds_shard i p' = true -> t = t';
  ci_requests t r p : running T !! t = Some (r, p) -> request_ok r /\ small_phase (shared T) r p;
  ci_aligned : Forall aligned_request (returned T);
}.

(** ** Steps that only move one thread *)

(** Where a thread stands as far as the shards are concerned. *)
Definition not_taking (o : option (Request * Phase)) : Prop :=
  forall r i n, o <> Some (r, Taking i n).

Lemma untaken_insert T t r p c i : not_taking (running T !! t) -> not_taking (Some (r, p)) ->
  untaken (goes_on t r p c T) i <-> untaken T i.
Proof.
  intros H1 H2. unfold untaken, goes_on. cbn. split; intros H t' r' n.
  - destruct (decide (t' = t)) as [->|Hne]; [by apply H1|]. specialize (H t' r' n).
    by rewrite lookup_insert_ne in H.
  - destruct (decide (t' = t)) as [->|Hne]; [rewrite lookup_insert_eq; apply H2|].
    rewrite lookup_insert_ne by done. apply H.
Qed.

Lemma untaken_delete T t r rv c i : not_taking (running T !! t) ->
  untaken (returns t r rv c T) i <-> untaken T i.
Proof.
  intros H1. unfold untaken, returns. cbn. split; intros H t' r' n.
  - destruct (decide (t' = t)) as [->|Hne]; [by apply H1|]. specialize (H t' r' n).
    by rewrite lookup_delete_ne in H.
  - destruct (decide (t' = t)) as [->|Hne]; [by rewrite lookup_delete_eq|].
    rewrite lookup_delete_ne by done. apply H.
Qed.

Lemma shard_has_iff (u u' : Prop) s o : (u <-> u') -> shard_has u s o -> shard_has u' s o.
Proof. intros Hu. destruct o; cbn; tauto. Qed.

Lemma goes_on_ok T owned frees t r p : CInv T owned frees -> request_ok r ->
  small_phase (shared T) r p -> not_taking (running T !! t) -> not_taking (Some (r, p)) ->
  (forall i t' r' p', holds_shard i p = true -> running T !! t' = Some (r', p') ->
     holds_shard i p' = true -> t = t') ->
  CInv (goes_on t r p (shared T) T) owned frees.
Proof.
  intros [H1 H2 H3 H4 H5 H6 H7 H8 H9] Hr Hp Ho Hn Hh. split; try done.
  - intros i s o Hs Hf. eapply shard_has_iff; [symmetry; by apply untaken_insert|by apply H5].
  - intros t' r' i n. cbn. destruct (decide (t' = t)) as [->|Hne].
    + rewrite lookup_insert_eq. intros E. by apply Hn in E.
    + rewrite lookup_insert_ne by done. apply H6.
  - intros t1 t2 r1 r2 p1 p2 i. cbn. destruct (decide (t1 = t)) as [->|N1], (decide (t2 = t)) as [->|N2];
      rewrite ?lookup_insert_eq, ?lookup_insert_ne by done; try done.
    + intros [= <- <-] E2 Hi1 Hi2. by apply (Hh i t2 r2 p2).
    + intros E1 [= <- <-] Hi1 Hi2. symmetry. by apply (Hh i t1 r1 p1).
    + apply H7.
  - intros t' r' p'. cbn. destruct (decide (t' = t)) as [->|Hne].
    + rewrite lookup_insert_eq. by intros [= <- <-].
    + rewrite lookup_insert_ne by done. apply H8.
Qed.

(** ** The arena hands out memory *)

Lemma hand_out a owned r ps : ArenaInv a (r :: owned) -> Pieces owned ps -> Pieces (r :: owned) (r :: ps).
Proof.
  intros I HP. pose proof (n_pieces _ _ I) as [_ Ha].
  inversion Ha as [|? ? _ Ha']; subst. inversion Ha' as [|? ? Hd _]; subst.
  apply (Pieces_add _ ps r r).
  - eapply Pieces_blocks; [done|]. intros b Hb. by apply list_elem_of_further.
  - apply (new_disjoint owned ps r r HP Hd). unfold within. lia.
  - apply list_elem_of_here.
  - unfold within. lia.
Qed.

Lemma Fixup_shape a c : CShape c -> CShape (Fixup (set_arena a c)).
Proof. intros [H1 H2 _ _ _]. by split. Qed.

Lemma direct_ok T owned frees t r p rv c : CInv T owned frees -> running T !! t = Some (r, p) ->
  not_taking (running T !! t) -> allocate_direct r (shared T) = Some (rv, c) ->
  CInv (returns t r rv c T) (mkRange rv (impl_bytes r) :: owned) frees.
Proof.
  intros [H1 H2 H3 H4 H5 H6 H7 H8 H9] Ht Ho E. destruct (H8 t r p Ht) as [Hr _].
  unfold allocate_direct in E. destruct (func r (arena_ (shared T))) as [[rv' a]|] eqn:Ef; [|done].
  cbn in E. injection E as -> <-. destruct (func_ok r _ _ rv a H2 Hr Ef) as [I Hal].
  split; try done.
  - by apply Fixup_shape.
  - cbn [returned returns map]. eapply Pieces_perm; [apply Permutation_middle|].
    by apply (hand_out a).
  - intros i s o Hs Hf. eapply shard_has_iff; [symmetry; by apply untaken_delete|by apply H5].
  - cbn [running returns]. intros t' r' i n [_ Hin]%lookup_delete_Some. by apply H6 in Hin.
  - cbn [running returns]. intros t1 t2 r1 r2 p1 p2 i [_ E1]%lookup_delete_Some [_ E2]%lookup_delete_Some. by apply (H7 t1 t2 r1 r2).
  - cbn [running returns]. intros t' r' p' [_ Hin]%lookup_delete_Some. by apply H8 in Hin.
  - cbn [returned returns]. by constructor.
Qed.

(** ** Shards *)

Lemma frees_split (frees : list (option Range)) i o : frees !! i = Some o ->
  exists rest, omap id frees ≡ₚ (match o with Some f => [f] | None => [] end) ++ rest /\
    forall f', omap id (<[i := Some f']> frees) ≡ₚ f' :: rest.
Proof.
  intros Hi. exists (omap id (take i frees) ++ omap id (drop (S i) frees)). split.
  - rewrite <- (take_drop_middle frees i o Hi) at 1. rewrite omap_app.
    destruct o as [f|]; [|done]. symmetry. exact (Permutation_middle _ _ _).
  - intros f'. rewrite insert_take_drop by (by eapply lookup_lt_Some). rewrite omap_app.
    symmetry. exact (Permutation_middle _ _ _).
Qed.

Lemma locked_untaken T owned frees t r i : CInv T owned frees -> running T !! t = Some (r, Locked i) ->
  untaken T i.
Proof.
  intros I Ht t' r' n Ht'.
  assert (t = t') as -> by (eapply (ci_excl _ _ _ I t t' r r' _ _ i); try done; cbn; by apply bool_decide_eq_true).
  rewrite Ht in Ht'. done.
Qed.

(** A thread with the lock of shard [i] starts to take a piece of its free memory [f]. *)
Lemma taking_ok T owned frees t r i owned' f s' c :
  CInv T owned frees -> running T !! t = Some (r, Locked i) -> CShape c ->
  shard_block_size_ c = shard_block_size_ (shared T) -> shards_ c = <[i := s']> (shards_ (shared T)) ->
  ArenaInv (arena_ c) owned' ->
  Pieces owned' (omap id (<[i := Some f]> frees) ++ map piece_at (returned T)) ->
  r_addr f = free_begin_ s' -> r_addr f mod 8 = 0 -> r_len f < 2 ^ 62 -> impl_bytes r <= r_len f ->
  CInv (goes_on t r (Taking i (r_len f)) c T) owned' (<[i := Some f]> frees).
Proof.
  intros I Ht Hc Hb Hs HA HP Hf1 Hf2 Hf3 Hf4. pose proof (locked_untaken _ _ _ _ _ _ I Ht) as Hun.
  destruct I as [H1 H2 H3 H4 H5 H6 H7 H8 H9]. destruct (H8 t r _ Ht) as [Hr [Hsm Hi]].
  pose proof (impl_bytes_ok r Hr) as Hpos.
  assert (forall j, j <> i -> untaken (goes_on t r (Taking i (r_len f)) c T) j -> untaken T j) as Hunj.
  { intros j Hj Hu t' r' n Ht'. destruct (decide (t' = t)) as [->|Hne]; [congruence|].
    apply (Hu t' r' n). cbn. by rewrite lookup_insert_ne. }
  split; cbn [shared running returned goes_on]; try done.
  - by rewrite length_insert, Hs, length_insert.
  - intros j s o. rewrite Hs. destruct (decide (j = i)) as [->|Hj].
    + rewrite !list_lookup_insert_eq by lia. intros [= <-] [= <-]. cbn. split_and!; try done; [lia|].
      intros Hu. exfalso. apply (Hu t r (r_len f)). cbn. by rewrite lookup_insert_eq.
    + rewrite !list_lookup_insert_ne by done. intros Es Eo. specialize (H5 j s o Es Eo).
      destruct o; cbn in *; intuition auto.
  - intros t' r' j n. destruct (decide (t' = t)) as [->|Hne].
    + rewrite lookup_insert_eq. intros [= <- <- <-]. exists f. by rewrite list_lookup_insert_eq by lia.
    + rewrite lookup_insert_ne by done. intros Ht'. destruct (decide (j = i)) as [->|Hj].
      { by apply Hun in Ht'. }
      rewrite list_lookup_insert_ne by done. by apply (H6 t').
  - intros t1 t2 r1 r2 p1 p2 j. destruct (decide (t1 = t)) as [->|N1], (decide (t2 = t)) as [->|N2];
      rewrite ?lookup_insert_eq, ?lookup_insert_ne by done; try done.
    + intros [= <- <-] E2 Hi1 Hi2. by apply (H7 t t2 r r2 (Locked i) p2 j).
    + intros E1 [= <- <-] Hi1 Hi2. by apply (H7 t1 t r1 r p1 (Locked i) j).
    + apply H7.
  - intros t' r' p'. destruct (decide (t' = t)) as [->|Hne].
    + rewrite lookup_insert_eq. intros [= <- <-]. split; [done|]. cbn. by rewrite Hb, Hs, length_insert.
    + rewrite lookup_insert_ne by done. intros Ht'. apply H8 in Ht' as [Hr' Hp']. split; [done|].
      destruct p'; cbn in *; rewrite ?Hb, ?Hs, ?length_insert; done.
Qed.

(** The shard gets new memory: what it had is given up. *)
Lemma refill_ok T owned frees t r i s avail p a :
  CInv T owned frees -> running T !! t = Some (r, Locked i) -> shards_ (shared T) !! i = Some s ->
  impl_bytes r <= avail < 2 ^ 62 -> AllocateAligned avail 0 (arena_ (shared T)) = Some (p, a) ->
  CInv (goes_on t r (Taking i avail)
          (Fixup (set_arena a (set_shard i (mkShard p (allocated_and_unused_ s)) (shared T)))) T)
    (mkRange p avail :: owned) (<[i := Some (mkRange p avail)]> frees).
Proof.
  intros I Ht Es Hav E. pose proof (impl_bytes_ok r (proj1 (ci_requests _ _ _ I t r _ Ht))) as Hpos.
  destruct (AllocateAligned_ok avail 0 _ _ p a (ci_arena _ _ _ I) ltac:(lia) ltac:(lia) E) as [IA Hal].
  apply aligned_8 in Hal.
  eapply (taking_ok T owned frees t r i _ (mkRange p avail) (mkShard p (allocated_and_unused_ s)));
    try done; cbn [r_len r_addr]; try lia.
  - destruct (ci_shape _ _ _ I) as [H1 H2 _ _ _]. split; cbn; try done.
    destruct H2 as (k & Hk & El). exists k. by rewrite length_insert.
  - assert (is_Some (frees !! i)) as [o Ho].
    { apply lookup_lt_is_Some. rewrite (ci_length _ _ _ I). by eapply lookup_lt_Some. }
    destruct (frees_split frees i o Ho) as (rest & Hp1 & Hp2).
    eapply Pieces_perm; [by rewrite (Hp2 (mkRange p avail))|]. cbn [app].
    apply (hand_out a); [done|]. pose proof (ci_pieces _ _ _ I) as HP.
    eapply Pieces_perm in HP; [|by rewrite Hp1]. destruct o; [by apply Pieces_tail in HP|done].
Qed.

Lemma reload_size c r : CShape c -> impl_bytes r <= shard_block_size_ c / 4 -> 0 < impl_bytes r ->
  let exact := arena_allocated_and_unused_ c in
  let avail := if (exact >=? shard_block_size_ c / 2) && (exact <? u64 (shard_block_size_ c * 2)) then exact
               else shard_block_size_ c in
  impl_bytes r <= avail < 2 ^ 62.
Proof.
  intros [Hb _ _ _ _] Hs Hpos exact avail. unfold avail. rewrite wrap_small by (unfold is_uint; lia).
  assert (0 <= shard_block_size_ c / 4 <= shard_block_size_ c) by dlia. clear avail. clearbody exact.
  destruct (_ && _) eqn:E; [|lia]. zbool. dlia.
Qed.

Lemma look_ok T owned frees t r i res c : CInv T owned frees -> running T !! t = Some (r, Locked i) ->
  look i r (shared T) = Some (res, c) ->
  match res with
  | inl rv => CInv (returns t r rv c T) (mkRange rv (impl_bytes r) :: owned) frees
  | inr avail => exists owned' frees', CInv (goes_on t r (Taking i avail) c T) owned' frees'
  end.
Proof.
  intros I Ht E. pose proof (locked_untaken _ _ _ _ _ _ I Ht) as Hun.
  destruct (ci_requests _ _ _ I t r _ Ht) as [Hr [Hsm Hi]]. pose proof (impl_bytes_ok r Hr) as Hpos.
  unfold look in E. destruct (shards_ (shared T) !! i) as [s|] eqn:Es; [|done]. cbn [mbind option_bind] in E.
  destruct (Z.ltb_spec (allocated_and_unused_ s) (impl_bytes r)) as [Hlt|Hge].
  - unfold reload in E. rewrite Es in E. destruct (_ && IsInInlineBlock _).
    + destruct (allocate_direct r (shared T)) as [[rv c']|] eqn:Ed; [|done]. cbn in E. injection E as <- <-.
      eapply direct_ok; [done|done| |done]. by rewrite Ht.
    + pose proof (reload_size _ r (ci_shape _ _ _ I) Hsm ltac:(lia)) as Hav. cbv zeta in Hav.
      set (avail := if _ && _ then _ else _) in *. cbn [mbind option_bind] in E.
      destruct (AllocateAligned avail 0 (arena_ (shared T))) as [[p a]|] eqn:Ea; [|done].
      cbn [mbind option_bind] in E. injection E as <- <-. do 2 eexists. by eapply refill_ok.
  - injection E as <- <-. assert (is_Some (frees !! i)) as [o Ho].
    { apply lookup_lt_is_Some. by rewrite (ci_length _ _ _ I). }
    pose proof (ci_frees _ _ _ I i s o Es Ho) as Hf. destruct o as [f|]; cbn in Hf; [|specialize (Hf Hun); lia].
    destruct Hf as (Hf1 & Hf2 & Hf3 & Hf4). specialize (Hf4 Hun). rewrite <- Hf4.
    exists owned, (<[i := Some f]> frees).
    eapply (taking_ok T owned frees t r i owned f s); try done; try lia.
    + apply (ci_shape _ _ _ I).
    + by rewrite list_insert_id.
    + apply (ci_arena _ _ _ I).
    + rewrite list_insert_id by done. apply (ci_pieces _ _ _ I).
Qed.

(** The piece [rv] is carved out of the free memory [f] of shard [i]; [f'] is left. *)
Lemma taken_ok T owned frees t r i n f f' rv c :
  CInv T owned frees -> running T !! t = Some (r, Taking i n) -> frees !! i = Some (Some f) ->
  within f' f -> within (mkRange rv (impl_bytes r)) f -> disjoint_ranges f' (mkRange rv (impl_bytes r)) ->
  0 <= r_len f' < 2 ^ 62 -> r_addr f' mod 8 = 0 -> aligned_request (r, rv) ->
  c = set_shard i (mkShard (r_addr f') (r_len f')) (shared T) ->
  CInv (returns t r rv c T) owned (<[i := Some f']> frees).
Proof.
  intros [H1 H2 H3 H4 H5 H6 H7 H8 H9] Ht Hf W1 W2 D Hl Ha Hal ->.
  pose proof (lookup_lt_Some _ _ _ Hf) as Hlt.
  assert (forall j, j <> i -> untaken (returns t r rv (shared T) T) j -> untaken T j) as Hunj.
  { intros j Hj Hu t' r' m Ht'. destruct (decide (t' = t)) as [->|Hne]; [congruence|].
    apply (Hu t' r' m). cbn. by rewrite lookup_delete_ne. }
  split; cbn [shared running returned returns]; try done.
  - destruct H1 as [B1 (k & Hk & El) B3 B4 B5]. split; cbn; try done. exists k. by rewrite length_insert.
  - destruct (frees_split frees i _ Hf) as (rest & Hp1 & Hp2). cbn [map].
    eapply Pieces_perm; [rewrite (Hp2 f'); cbn [app]; rewrite <- Permutation_middle; done|].
    apply (carve owned f f'); [|done..]. eapply Pieces_perm; [|exact H3]. by rewrite Hp1.
  - cbn. by rewrite !length_insert.
  - intros j s o. cbn [shards_ set_shard]. destruct (decide (j = i)) as [->|Hj].
    + rewrite !list_lookup_insert_eq by lia. intros [= <-] [= <-]. by cbn.
    + rewrite !list_lookup_insert_ne by done. intros Es Eo. specialize (H5 j s o Es Eo).
      destruct o; cbn in *; intuition auto.
  - intros t' r' j m [Hne Ht']%lookup_delete_Some. destruct (decide (j = i)) as [->|Hj].
    + exfalso. apply Hne. apply (H7 t t' r r' (Taking i n) (Taking i m) i); try done; cbn; by apply bool_decide_eq_true.
    + rewrite list_lookup_insert_ne by done. by apply (H6 t').
  - intros t1 t2 r1 r2 p1 p2 j [_ E1]%lookup_delete_Some [_ E2]%lookup_delete_Some. by apply (H7 t1 t2 r1 r2).
  - intros t' r' p' [_ Ht']%lookup_delete_Some. apply H8 in Ht' as [Hr' Hp']. split; [done|].
    destruct p'; cbn in *; rewrite ?length_insert; done.
  - by constructor.
Qed.

Lemma take_ok T owned frees t r i n rv c :
  CInv T owned frees -> running T !! t = Some (r, Taking i n) -> take_piece i r n (shared T) = Some (rv, c) ->
  exists frees', CInv (returns t r rv c T) owned frees'.
Proof.
  intros I Ht E. destruct (ci_taking _ _ _ I t r i n Ht) as (f & Hf & Hn & Hb).
  destruct (ci_requests _ _ _ I t r _ Ht) as [Hr _]. pose proof (impl_bytes_ok r Hr) as Hpos.
  unfold take_piece in E. destruct (shards_ (shared T) !! i) as [s|] eqn:Es; [|done]. cbn [mbind option_bind] in E.
  destruct (ci_frees _ _ _ I i s _ Es Hf) as (F1 & F2 & F3 & _).
  rewrite wrap_small in E by (unfold is_uint; lia). unfold sizeof_ptr in E.
  destruct (Z.eqb_spec (impl_bytes r mod 8) 0) as [E8|E8]; injection E as <- <-.
  - exists (<[i := Some (mkRange (free_begin_ s + impl_bytes r) (n - impl_bytes r))]> frees).
    eapply taken_ok; try done; unfold within, disjoint_ranges, r_end, aligned_request;
      cbn [r_addr r_len fst snd]; try lia; [dlia|].
    destruct r as [|m hp]; [done|]. split; [dlia|]. apply (rounded_up_ok m). apply Hr.
  - exists (<[i := Some (mkRange (free_begin_ s) (n - impl_bytes r))]> frees).
    eapply taken_ok; try done; unfold within, disjoint_ranges, r_end, aligned_request;
      cbn [r_addr r_len fst snd]; try lia; [dlia|].
    destruct r as [|m hp]; [done|]. exfalso. apply E8. apply (rounded_up_ok m). apply Hr.
Qed.

(** ** Every step keeps the invariant *)

Lemma shard_index_ok c cpu : CShape c -> (shard_index cpu c < length (shards_ c))%nat.
Proof.
  intros [_ (k & Hk & El) _ _ _]. unfold shard_index. rewrite El.
  replace (2 ^ k - 1) with (Z.ones k) by (rewrite Z.ones_equiv; lia). rewrite Z.land_ones by done.
  assert (0 < 2 ^ k) by (apply Z.pow_pos_nonneg; lia). pose proof (Z.mod_pos_bound cpu (2 ^ k)). lia.
Qed.

Lemma decide_path_ok cpu r c p : decide_path cpu r c = Some p ->
  small_phase c r p /\ (p = ToArena \/ p = Trying \/ p = Picking cpu).
Proof.
  unfold decide_path, too_large. destruct (_ || _) eqn:E; [intros [= <-]; split; [done|auto]|]. zbool.
  destruct (cpu =? 0).
  - destruct (first_unused c) as [[]|]; cbn [mbind option_bind]; intros [= <-];
      cbn [small_phase]; (split; [lia|auto]).
  - intros [= <-]. cbn [small_phase]. split; [lia|auto].
Qed.

Lemma step_ok T owned frees T' : CInv T owned frees -> th_step T T' ->
  exists owned' frees', CInv T' owned' frees'.
Proof.
  intros I St. destruct St as [t r Ht Hr|t r cpu p Ht E|t r p rv c Ht Hp E|t r Ht|t r cpu Ht Hfree
    |t r cpu i Ht Hbusy Hi|t r i Ht Hfree|t r i n c Ht E|t r i rv c Ht E|t r i n rv c Ht E].
  - exists owned, frees. apply goes_on_ok; try done. by rewrite Ht.
  - destruct (ci_requests _ _ _ I t r _ Ht) as [Hr _]. destruct (decide_path_ok _ _ _ _ E) as [Hp Hcase].
    exists owned, frees. apply goes_on_ok; try done; [by rewrite Ht|by destruct Hcase as [->|[->| ->]]|].
    by destruct Hcase as [->|[->| ->]].
  - do 2 eexists. eapply direct_ok; try done. rewrite Ht. by destruct Hp as [->| ->].
  - destruct (ci_requests _ _ _ I t r _ Ht) as [Hr Hp]. exists owned, frees.
    apply goes_on_ok; try done. by rewrite Ht.
  - destruct (ci_requests _ _ _ I t r _ Ht) as [Hr Hp]. exists owned, frees.
    apply goes_on_ok; try done; [|by rewrite Ht|].
    + cbn in *. split; [done|]. apply shard_index_ok, (ci_shape _ _ _ I).
    + intros i t' r' p' Hh Ht' Hh'. cbn in Hh. apply bool_decide_eq_true in Hh as ->.
      by rewrite (Hfree t' r' p' Ht') in Hh'.
  - destruct (ci_requests _ _ _ I t r _ Ht) as [Hr Hp]. exists owned, frees.
    apply goes_on_ok; try done. by rewrite Ht.
  - destruct (ci_requests _ _ _ I t r _ Ht) as [Hr Hp]. exists owned, frees.
    apply goes_on_ok; try done; [by rewrite Ht|].
    intros j t' r' p' Hh Ht' Hh'. cbn in Hh. apply bool_decide_eq_true in Hh as ->.
    by rewrite (Hfree t' r' p' Ht') in Hh'.
  - apply (look_ok T owned frees t r i (inr n) c I Ht E).
  - do 2 eexists. apply (look_ok T owned frees t r i (inl rv) c I Ht E).
  - exists owned. by eapply take_ok.
Qed.

(** A new arena: no thread has called it yet. *)
Definition concurrent_start (self block_size : Z) (tracker : bool) (hp shard_block_size shift : Z) : Threads :=
  mkThreads
    (Fixup (mkConcurrentArena shard_block_size (replicate (Z.to_nat (core_size shift)) Shard_new)
              (Arena_new self block_size tracker hp) 0 0 0)) ∅ [].

Lemma start_ok self block_size tracker hp sbs shift :
  0 <= self /\ self + kInlineSize < 2 ^ 64 -> 0 <= block_size -> 0 <= hp < 2 ^ 62 ->
  0 <= sbs < 2 ^ 60 -> 0 <= shift ->
  CInv (concurrent_start self block_size tracker hp sbs shift) []
    (replicate (Z.to_nat (core_size shift)) None).
Proof.
  intros Hself Hb Hh Hs Hsh. assert (0 < 2 ^ shift) by (apply Z.pow_pos_nonneg; lia).
  split; cbn [shared running returned concurrent_start]; try done.
  - split; cbn; try done. exists shift. rewrite length_replicate. unfold core_size.
    rewrite Z.shiftl_1_l. lia.
  - apply Arena_new_ok; (done || lia).
  - replace (omap id (replicate (Z.to_nat (core_size shift)) (None : option Range))) with (@nil Range).
    + split; [by intros r ?%elem_of_nil|constructor].
    + symmetry. by induction (Z.to_nat (core_size shift)).
  - cbn. by rewrite !length_replicate.
  - intros i s o. cbn [shards_ Fixup]. intros [-> _]%lookup_replicate [-> _]%lookup_replicate. by cbn.
Qed.

(** ** Calls return *)

(** The sizes of the blocks that the arena may ask for on behalf of a request: the request itself,
    the block size of the arena, and what a shard is refilled with. *)
Definition block_for (r : Request) (c : ConcurrentArena) (n : Z) : Prop :=
  n = impl_bytes r \/ n = kBlockSize (arena_ c) \/ n = shard_block_size_ c \/ n = arena_allocated_and_unused_ c.

(** There is no memory for a block that a running thread needs. *)
Definition exhausted (T : Threads) : Prop :=
  exists t r p n, running T !! t = Some (r, p) /\ block_for r (shared T) n /\
    new_block (used (arena_ (shared T))) n = None.

Lemma func_fails r a : func r a = None ->
  new_block (used a) (impl_bytes r) = None \/ new_block (used a) (kBlockSize a) = None.
Proof.
  destruct r as [n|n hp]; cbn [func]; intros E.
  - exact (op_step_fails (OpAllocate n) a E).
  - exact (op_step_fails (OpAligned (rounded_up n) hp) a E).
Qed.

Lemma direct_exhausted T t r p :
  running T !! t = Some (r, p) -> allocate_direct r (shared T) = None -> exhausted T.
Proof.
  intros Ht E. unfold allocate_direct in E. destruct (func r (arena_ (shared T))) as [[? ?]|] eqn:Ef; [done|].
  destruct (func_fails _ _ Ef); eexists t, r, p, _; (split_and!; [done| |eassumption]); unfold block_for; auto.
Qed.

(** How many steps a thread may still make. *)
Definition steps_left (p : Phase) : nat :=
  match p with
  | Deciding => 7 | Trying => 6 | Picking _ => 5 | Waiting _ => 4 | Locked _ => 3 | Taking _ _ => 2
  | ToArena => 1
  end.

(** A step of a thread that is running: it comes closer to its end, or it returns. *)
Definition moves (T T' : Threads) : Prop :=
  th_step T T' /\ exists t r p, running T !! t = Some (r, p) /\
    ((exists p', running T' = <[t := (r, p')]> (running T) /\ (steps_left p' < steps_left p)%nat /\
        returned T' = returned T) \/
     (exists rv, running T' = delete t (running T) /\ returned T' = (r, rv) :: returned T)).

Lemma moves_on T t r p p' c : running T !! t = Some (r, p) -> (steps_left p' < steps_left p)%nat ->
  th_step T (goes_on t r p' c T) -> exists T', moves T T'.
Proof. intros Ht Hlt St. exists (goes_on t r p' c T). split; [done|]. exists t, r, p. eauto 10. Qed.

Lemma moves_out T t r p rv c : running T !! t = Some (r, p) ->
  th_step T (returns t r rv c T) -> exists T', moves T T'.
Proof. intros Ht St. exists (returns t r rv c T). split; [done|]. exists t, r, p. eauto 10. Qed.

#[local] Instance shard_free_dec i T : Decision (shard_free i T).
Proof.
  refine (cast_if (decide (map_Forall (fun _ (x : Request * Phase) => holds_shard i x.2 = false) (running T)))).
  - intros t r p Ht. by apply (m t (r, p) Ht).
  - intros H. apply n. intros t [r p] Ht. by apply (H t r p).
Defined.

(** Whoever holds the lock of a shard can go on. *)
Lemma holder_moves T owned frees t r p i : CInv T owned frees -> running T !! t = Some (r, p) ->
  holds_shard i p = true -> (exists T', moves T T') \/ exhausted T.
Proof.
  intros I Ht Hh. destruct (ci_requests _ _ _ I t r p Ht) as [Hr Hp].
  destruct p as [| | | | |j|j n]; try done; cbn in Hp; destruct Hp as [_ Hj];
    destruct (lookup_lt_is_Some_2 _ _ Hj) as [s Es].
  - destruct (look j r (shared T)) as [[[rv|n] c]|] eqn:E.
    + left. eapply moves_out; [done|by eapply st_look_returns].
    + left. eapply (moves_on T t r _ (Taking j n)); [done|cbn; lia|by eapply st_look].
    + right. unfold look in E. rewrite Es in E. cbn [mbind option_bind] in E. destruct (_ <? _); [|done].
      unfold reload in E. rewrite Es in E. destruct (_ && IsInInlineBlock _).
      * apply (direct_exhausted T t r (Locked j) Ht). by destruct (allocate_direct r (shared T)) as [[? ?]|].
      * cbn [mbind option_bind] in E. destruct (AllocateAligned _ 0 _) as [[? ?]|] eqn:Ea; [done|].
        match type of Ea with AllocateAligned ?n 0 ?a = None =>
          destruct (op_step_fails (OpAligned n 0) a Ea) as [Hn|Hn] end;
          eexists t, r, _, _; (split_and!; [done| |exact Hn]); unfold block_for; cbn [op_bytes];
          [destruct (_ && _); auto|auto].
  - left. assert (exists rv c, take_piece j r n (shared T) = Some (rv, c)) as (rv & c & E).
    { unfold take_piece. rewrite Es. cbn [mbind option_bind]. destruct (_ =? 0); eauto. }
    eapply moves_out; [done|by eapply st_take].
Qed.

Lemma busy_holder i T : ~ shard_free i T ->
  exists t r p, running T !! t = Some (r, p) /\ holds_shard i p = true.
Proof.
  intros Hn. destruct (decide (map_Forall (fun _ (x : Request * Phase) => holds_shard i x.2 = false) (running T))) as [Hf|Hf].
  - exfalso. apply Hn. intros t r p Ht. apply (Hf t (r, p) Ht).
  - apply map_not_Forall in Hf as (t & [r p] & Ht & Hh); [|intros; apply _]. exists t, r, p. split; [done|].
    cbn in Hh. by apply not_false_is_true.
Qed.

Lemma running_moves T owned frees t r p : CInv T owned frees -> running T !! t = Some (r, p) ->
  (exists T', moves T T') \/ exhausted T.
Proof.
  intros I Ht. assert (p = ToArena \/ p = Trying -> (exists T', moves T T') \/ exhausted T) as Harena.
  { intros Hp. destruct (allocate_direct r (shared T)) as [[rv c]|] eqn:E.
    - left. eapply moves_out; [done|]. by eapply st_arena.
    - right. by eapply direct_exhausted. }
  destruct p as [| | |cpu|i|i|i n].
  - left. destruct (decide_path 1 r (shared T)) as [p'|] eqn:E.
    + eapply (moves_on T t r _ p'); [done| |by eapply st_decide].
      destruct (decide_path_ok _ _ _ _ E) as [_ [->|[->| ->]]]; cbn; lia.
    + unfold decide_path in E. by destruct (too_large _ _).
  - apply Harena. by left.
  - apply Harena. by right.
  - left. destruct (decide (shard_free (shard_index cpu (shared T)) T)) as [Hf|Hf].
    + eapply (moves_on T t r _ (Locked _)); [done| |by eapply st_pick]. cbn. lia.
    + eapply (moves_on T t r _ (Waiting (shard_index cpu (shared T)))); [done| |eapply st_repick; try done].
      * cbn. lia.
      * apply shard_index_ok, (ci_shape _ _ _ I).
  - destruct (decide (shard_free i T)) as [Hf|Hf].
    + left. eapply (moves_on T t r _ (Locked i)); [done| |by eapply st_lock]. cbn. lia.
    + destruct (busy_holder i T Hf) as (t' & r' & p' & Ht' & Hh). by eapply holder_moves.
  - eapply (holder_moves _ _ _ _ _ _ i); try done. cbn. by apply bool_decide_eq_true.
  - eapply (holder_moves _ _ _ _ _ _ i); try done. cbn. by apply bool_decide_eq_true.
Qed.

Definition work (m : gmap nat (Request * Phase)) : nat :=
  map_fold (fun _ x n => (steps_left x.2 + n)%nat) 0%nat m.

Lemma work_delete m t x : m !! t = Some x -> work m = (steps_left x.2 + work (delete t m))%nat.
Proof. intros Hm. unfold work.
  rewrite (map_fold_delete_L (fun _ x n => (steps_left x.2 + n)%nat) 0%nat t x m); [done|intros; lia|done]. Qed.

Lemma work_insert m t y : work (<[t := y]> m) = (steps_left y.2 + work (delete t m))%nat.
Proof.
  rewrite (work_delete (<[t := y]> m) t y) by apply lookup_insert_eq. by rewrite delete_insert_eq.
Qed.

Lemma moves_work T T' : moves T T' ->
  (work (running T') < work (running T))%nat /\
  (base.size (running T') + length (returned T') = base.size (running T) + length (returned T))%nat.
Proof.
  intros (_ & t & r & p & Ht & [(p' & -> & Hlt & ->)|(rv & -> & ->)]); rewrite (work_delete (running T) t (r, p) Ht).
  - rewrite work_insert. cbn. split; [lia|]. by rewrite map_size_insert, Ht.
  - rewrite map_size_delete, Ht. cbn. assert (0 < steps_left p)%nat by (destruct p; cbn; lia).
    assert (base.size (running T) <> 0%nat) by (intros E%map_size_empty_inv; by rewrite E, lookup_empty in Ht). lia.
Qed.

Inductive reaches (T0 : Threads) : Threads -> Prop :=
| reaches_refl : reaches T0 T0
| reaches_step T T' : reaches T0 T -> th_step T T' -> reaches T0 T'.

Lemma reaches_ok T0 owned frees T : CInv T0 owned frees -> reaches T0 T ->
  exists owned' frees', CInv T owned' frees'.
Proof.
  intros I. induction 1 as [|T T' _ (owned' & frees' & IH) St]; [by exists owned, frees|by eapply step_ok].
Qed.

Lemma drains T owned frees : CInv T owned frees ->
  exists T', rtc moves T T' /\ (running T' = ∅ \/ exhausted T').
Proof.
  remember (work (running T)) as n eqn:En. revert T owned frees En.
  induction n as [n IH] using lt_wf_ind. intros T owned frees En I.
  destruct (decide (running T = ∅)) as [Hemp|Hne]; [by exists T; split; [constructor|left]|].
  apply map_choose in Hne as (t & [r p] & Ht).
  destruct (running_moves T owned frees t r p I Ht) as [(T1 & Hm)|Hex]; [|by exists T; split; [constructor|right]].
  destruct (step_ok T owned frees T1 I (proj1 Hm)) as (o1 & f1 & I1).
  destruct (IH (work (running T1))) with (T := T1) (owned := o1) (frees := f1) as (T' & Hrtc & HT'); try done.
  { pose proof (moves_work T T1 Hm). lia. }
  exists T'. split; [by econstructor|done].
Qed.

Lemma rtc_moves_count T T' : rtc moves T T' ->
  (base.size (running T') + length (returned T') = base.size (running T) + length (returned T))%nat.
Proof. induction 1 as [|T1 T2 T3 Hm _ IH]; [done|]. pose proof (moves_work _ _ Hm). lia. Qed.

(** ** The theorems *)

Section Reachable.
Context (self block_size : Z) (tracker : bool) (hp shard_block_size shift : Z).
Context (Hself : 0 <= self /\ self + kInlineSize < 2 ^ 64) (Hblock : 0 <= block_size)
  (Hhp : 0 <= hp < 2 ^ 62) (Hshard : 0 <= shard_block_size < 2 ^ 60) (Hshift : 0 <= shift).

(** C11: however threads interleave their allocations, the pieces they have been given do not
    overlap, every piece lies inside a block of the arena, pieces of [AllocateAligned] are
    aligned to the size of a pointer and at least as long as asked for; and the atomic copies
    of the arena's counters agree with them, as [AllocateImpl] asserts, whenever the lock of
    the arena is free. *)
Theorem concurrent_arena_sound T
    (Hr : reaches (concurrent_start self block_size tracker hp shard_block_size shift) T) :
  apart (map piece_at (returned T)) /\
  (forall x, x ∈ map piece_at (returned T) -> exists b, b ∈ used (arena_ (shared T)) /\ within x b) /\
  Forall aligned_request (returned T) /\
  arena_allocated_and_unused_ (shared T) = AllocatedAndUnused (arena_ (shared T)) /\
  memory_allocated_bytes_ (shared T) = MemoryAllocatedBytes (arena_ (shared T)).
Proof.
  destruct (reaches_ok _ _ _ T (start_ok self block_size tracker hp shard_block_size shift Hself Hblock Hhp Hshard Hshift) Hr)
    as (owned & frees & I).
  pose proof (ci_pieces _ _ _ I) as [Hw Ha]. pose proof (ci_shape _ _ _ I) as [_ _ C1 C2 _].
  split_and!; try done.
  - clear Hw. induction (omap id frees) as [|f l IH]; [done|]. inversion Ha; subst. auto.
  - intros x Hx. destruct (Hw x) as (b & Hb & Hxb); [apply elem_of_app; by right|].
    destruct (n_pieces _ _ (ci_arena _ _ _ I)) as [Hw' _].
    destruct (Hw' b) as (b' & Hb' & Hbb); [by apply list_elem_of_further|]. exists b'. split; [done|].
    by eapply within_trans.
  - apply (ci_aligned _ _ _ I).
Qed.

(** C36: no deadlock. From every reachable state the threads that are running can run on, without
    another call, until each of them has returned a piece, or until there is no memory for a
    block that one of them needs: one of the size of its request, of the block size of the arena
    or of what a shard is refilled with. *)
Theorem concurrent_arena_drains T
    (Hr : reaches (concurrent_start self block_size tracker hp shard_block_size shift) T) :
  exists T', rtc moves T T' /\
    (running T' = ∅ /\ length (returned T') = (base.size (running T) + length (returned T))%nat \/
     exists t r p n, running T' !! t = Some (r, p) /\ block_for r (shared T') n /\
       new_block (used (arena_ (shared T'))) n = None).
Proof.
  destruct (reaches_ok _ _ _ T (start_ok self block_size tracker hp shard_block_size shift Hself Hblock Hhp Hshard Hshift) Hr)
    as (owned & frees & I).
  destruct (drains T owned frees I) as (T' & Hm & [He|Hx]); exists T'; (split; [done|]); [left|by right].
  split; [done|]. pose proof (rtc_moves_count T T' Hm) as Hc. by rewrite He, map_size_empty in Hc.
Qed.
End Reachable.
End Threads.

(** ** A run with three calls

    The first piece empties the inline block; two threads then meet at a shard, one of them
    waits at another one, both get memory for their shards and take their pieces. *)

#[local] Existing Instance demo_source.
#[local] Existing Instance demo_source_laws.
#[local] Existing Instance shard_free_dec.

Definition demo_arena_start : Threads := concurrent_start 1024 4096 true 0 512 3.

Ltac by_eval :=
  first [vm_compute; reflexivity | refine (bool_decide_unpack _ _); vm_compute; exact I
        | cbn; lia | vm_compute; lia | by left].

(** The next step of a run that is known to be possible. *)
Tactic Notation "next_step" hyp(H) uconstr(st) :=
  eapply reaches_step in H; [|eapply st; by_eval];
  match type of H with reaches ?a ?T => let T' := eval vm_compute in T in change (reaches a T') in H end.

Lemma demo_run : exists T, reaches demo_arena_start T /\ map snd (returned T) = [3484; 3584; 1072].
Proof.
  pose proof (reaches_refl demo_arena_start) as H.
  next_step H (st_call _ 0 (RAllocate 2000)).
  next_step H (st_decide _ 0 (RAllocate 2000) 0).
  next_step H (st_arena _ 0 (RAllocate 2000) ToArena).
  next_step H (st_call _ 1 (RAllocate 100)).
  next_step H (st_call _ 2 (RAligned 10 0)).
  next_step H (st_decide _ 1 (RAllocate 100) 1).
  next_step H (st_pick _ 1 (RAllocate 100) 1).
  next_step H (st_decide _ 2 (RAligned 10 0) 9).
  next_step H (st_repick _ 2 (RAligned 10 0) 9 2).
  next_step H (st_lock _ 2 (RAligned 10 0) 2).
  next_step H (st_look _ 1 (RAllocate 100) 1 512).
  next_step H (st_look _ 2 (RAligned 10 0) 2 512).
  next_step H (st_take _ 2 (RAligned 10 0) 2 512).
  next_step H (st_take _ 1 (RAllocate 100) 1 512).
  eexists. split; [exact H|]. reflexivity.
Qed.

(** One thread holds a shard and the other waits for it. *)
Lemma demo_busy : exists T, reaches demo_arena_start T /\ base.size (running T) = 2%nat.
Proof.
  pose proof (reaches_refl demo_arena_start) as H.
  next_step H (st_call _ 1 (RAllocate 100)).
  next_step H (st_call _ 2 (RAligned 10 0)).
  next_step H (st_decide _ 1 (RAllocate 100) 1).
  next_step H (st_pick _ 1 (RAllocate 100) 1).
  next_step H (st_decide _ 2 (RAligned 10 0) 9).
  next_step H (st_repick _ 2 (RAligned 10 0) 9 1).
  eexists. split; [exact H|]. reflexivity.
Qed.

Lemma concurrent_arena_sound_witness :
  exists T, reaches demo_arena_start T /\ map snd (returned T) = [3484; 3584; 1072] /\
    apart (map piece_at (returned T)) /\ Forall aligned_request (returned T).
Proof.
  assert (8 <= kAlignUnit) as Ha by (cbn; lia). destruct demo_run as (T & Hr & E). exists T.
  destruct (concurrent_arena_sound Ha 1024 4096 true 0 512 3
    ltac:(unfold kInlineSize; lia) ltac:(lia) ltac:(lia) ltac:(lia) ltac:(lia) T Hr) as (H1 & _ & H2 & _).
  split_and!; [exact Hr|exact E|exact H1|exact H2].
Defined.

Lemma concurrent_arena_drains_witness :
  exists T T', reaches demo_arena_start T /\ base.size (running T) = 2%nat /\ rtc moves T T'.
Proof.
  assert (8 <= kAlignUnit) as Ha by (cbn; lia). destruct demo_busy as (T & Hr & E).
  destruct (concurrent_arena_drains Ha 1024 4096 true 0 512 3
    ltac:(unfold kInlineSize; lia) ltac:(lia) ltac:(lia) ltac:(lia) ltac:(lia) T Hr) as (T' & H1 & _).
  exists T, T'. split_and!; [exact Hr|exact E|exact H1].
Defined.
