(* ===== verification/SecondaryAdapter.v ===== *)
(** * Two cache tiers

    [cache/secondary_cache_adapter.h] and [.cc]: a block cache, the target, in front of a
    secondary cache. The adapter moves entries between them, keeps dummy entries in the target
    to remember recent use, and, if it distributes reservations, charges part of the memory
    that placeholder entries reserve to the secondary cache.

    Both caches are interfaces: the class [TieredCaches] has the operations that the adapter
    calls, on a state that is threaded through them. The manager [pri_cache_res_] is the one of
    [CacheReservation], on the target. Asynchronous lookups, names and printing are left out.
    [None] is a manager that does not return. *)

From Stdlib Require Import SpecFloat.
From S2P Require Import Prelude.
From S2P Require Import Status.
From S2P Require Import Slice.
From S2P Require Import Double.
From S2P Require Import LruState.
From S2P Require Import CacheReservation.

Inductive TieredAdmissionPolicy : Set :=
| kAdmPolicyAuto
| kAdmPolicyPlaceholder
| kAdmPolicyAllowCacheHits
| kAdmPolicyThreeQueue
| kAdmPolicyAllowAll
| kAdmPolicyMax.

#[global] Instance TieredAdmissionPolicy_eq_dec : EqDecision TieredAdmissionPolicy.
Proof. solve_decision. Defined.

Definition IsSecondaryCacheCompatible (h : CacheItemHelper) : bool := bool_decide (size_cb h <> None).

Definition nullptr : ObjectPtr := 0.

(** The target and the secondary cache. *)
Class TieredCaches (σ handle sec_handle : Type) : Type := {
  t_Insert : σ -> Slice -> ObjectPtr -> CacheItemHelper -> Z -> bool -> Priority -> Status * option handle * σ;
  t_Lookup : σ -> Slice -> option CacheItemHelper -> Priority -> option handle * σ;
  t_Release : σ -> handle -> bool -> bool * σ;
  t_CreateStandalone : σ -> Slice -> ObjectPtr -> CacheItemHelper -> Z -> bool -> option handle * σ;
  t_Value : σ -> handle -> ObjectPtr;
  t_GetCharge : σ -> handle -> Z;
  t_GetCacheItemHelper : σ -> handle -> CacheItemHelper;
  t_GetCapacity : σ -> Z;
  t_SetCapacity : σ -> Z -> σ;
  s_Insert : σ -> Slice -> ObjectPtr -> CacheItemHelper -> bool -> Status * σ;
  s_InsertSaved : σ -> Slice -> Slice -> Z -> Status * σ;
  s_Lookup : σ -> Slice -> CacheItemHelper -> bool -> bool -> option sec_handle * bool * σ;
  s_Value : sec_handle -> ObjectPtr;
  s_Size : sec_handle -> Z;
  s_SupportForceErase : bool;
  s_GetCapacity : σ -> Status * Z;
  s_SetCapacity : σ -> Z -> Status * σ;
  s_Deflate : σ -> Z -> Status * σ;
  s_Inflate : σ -> Z -> Status * σ;
  unique_key : σ -> Slice;
  placeholder_helper : CacheItemHelper;
  kNoopCacheItemHelper : CacheItemHelper;
  without_secondary_compat : CacheItemHelper -> CacheItemHelper;
  kDummyObj : ObjectPtr;
}.

Record Adapter {handle : Type} : Type := mkAdapter {
  adm_policy_ : TieredAdmissionPolicy;
  distribute_cache_res_ : bool;
  pri_cache_res_ : Manager handle;
  sec_cache_res_ratio_ : double;
  placeholder_usage_ : Z;
  reserved_usage_ : Z;
  sec_reserved_ : Z;
}.
Arguments Adapter : clear implicits.
Arguments mkAdapter {handle}.

Definition kReservationChunkSize : Z := Z.shiftl 1 20.

(** [n & ~(kReservationChunkSize - 1)] *)
Definition chunk_floor (n : Z) : Z := Z.land n (u64 (Z.lnot (kReservationChunkSize - 1))).

(** [static_cast<size_t>(n * ratio)] *)
Definition share (ratio : double) (n : Z) : Z := dtrunc (dmul (double_of_Z n) ratio).

Section Ops.
Context {σ handle sec_handle : Type} `{C : TieredCaches σ handle sec_handle}.

(** The target as the reservation manager uses it, through [PlaceholderSharedCacheInterface]. *)
#[global] Instance target_dummy : DummyCache σ handle := {
  cache_Insert c charge := t_Insert c (unique_key c) nullptr placeholder_helper charge true LOW;
  ReleaseAndEraseIfLastRef c h := (t_Release c h true).2;
}.

Definition set_policy (p : TieredAdmissionPolicy) (a : Adapter handle) : Adapter handle :=
  mkAdapter p (distribute_cache_res_ a) (pri_cache_res_ a) (sec_cache_res_ratio_ a)
    (placeholder_usage_ a) (reserved_usage_ a) (sec_reserved_ a).
Definition set_manager (m : Manager handle) (a : Adapter handle) : Adapter handle :=
  mkAdapter (adm_policy_ a) (distribute_cache_res_ a) m (sec_cache_res_ratio_ a)
    (placeholder_usage_ a) (reserved_usage_ a) (sec_reserved_ a).
Definition set_ratio (r : double) (a : Adapter handle) : Adapter handle :=
  mkAdapter (adm_policy_ a) (distribute_cache_res_ a) (pri_cache_res_ a) r
    (placeholder_usage_ a) (reserved_usage_ a) (sec_reserved_ a).
Definition set_placeholder_usage (n : Z) (a : Adapter handle) : Adapter handle :=
  mkAdapter (adm_policy_ a) (distribute_cache_res_ a) (pri_cache_res_ a) (sec_cache_res_ratio_ a)
    n (reserved_usage_ a) (sec_reserved_ a).
Definition set_reserved_usage (n : Z) (a : Adapter handle) : Adapter handle :=
  mkAdapter (adm_policy_ a) (distribute_cache_res_ a) (pri_cache_res_ a) (sec_cache_res_ratio_ a)
    (placeholder_usage_ a) n (sec_reserved_ a).
Definition set_sec_reserved (n : Z) (a : Adapter handle) : Adapter handle :=
  mkAdapter (adm_policy_ a) (distribute_cache_res_ a) (pri_cache_res_ a) (sec_cache_res_ratio_ a)
    (placeholder_usage_ a) (reserved_usage_ a) n.

(** [pri_cache_res_->UpdateCacheReservation(delta, increase)] *)
Definition update_pri (delta : Z) (increase : bool) (a : Adapter handle) (c : σ) :
    option (Status * Adapter handle * σ) :=
  '(s, m, c) ← Concurrent_UpdateCacheReservation_delta delta increase (pri_cache_res_ a) c;
  Some (s, set_manager m a, c).

Definition Adapter_new (adm_policy : TieredAdmissionPolicy) (distribute_cache_res : bool) (c : σ) :
    option (Adapter handle * σ) :=
  let a := mkAdapter adm_policy distribute_cache_res (Manager_new false) d0 0 0 0 in
  if distribute_cache_res then
    let '(s, sec_capacity) := s_GetCapacity c in
    '(s, m, c) ← UpdateCacheReservation sec_capacity (pri_cache_res_ a) c;
    Some (set_ratio (ddiv (double_of_Z sec_capacity) (double_of_Z (t_GetCapacity c))) (set_manager m a), c)
  else Some (a, c).

(** [EvictionHandler]: whether the entry goes to the secondary cache, and whether it is forced
    there; the target keeps the object. *)
Definition EvictionHandler (key : Slice) (h : handle) (was_hit : bool) (a : Adapter handle) (c : σ) :
    bool * σ :=
  let helper := t_GetCacheItemHelper c h in
  if IsSecondaryCacheCompatible helper && negb (bool_decide (adm_policy_ a = kAdmPolicyThreeQueue)) then
    let obj := t_Value c h in
    if negb (obj =? kDummyObj) then
      let force :=
        if bool_decide (adm_policy_ a = kAdmPolicyAllowCacheHits) then was_hit
        else bool_decide (adm_policy_ a = kAdmPolicyAllowAll) in
      (false, (s_Insert c key obj helper force).2)
    else (false, c)
  else (false, c).

(** [ProcessDummyResult]: whether the handle was that of a dummy entry; then it is released. *)
Definition ProcessDummyResult (h : option handle) (erase : bool) (c : σ) : bool * option handle * σ :=
  match h with
  | Some h =>
      if t_Value c h =? kDummyObj then (true, None, (t_Release c h erase).2) else (false, Some h, c)
  | None => (false, None, c)
  end.

(** The part of [Insert] under [cache_res_mutex_]: a placeholder of the given charge has been
    inserted, with status [s]. *)
Definition add_placeholder (s : Status) (charge : Z) (a : Adapter handle) (c : σ) :
    option (Status * Adapter handle * σ) :=
  let a := set_placeholder_usage (u64 (placeholder_usage_ a + charge)) a in
  if (placeholder_usage_ a <=? t_GetCapacity c) &&
     (u64 (placeholder_usage_ a - reserved_usage_ a) >=? kReservationChunkSize) then
    let a := set_reserved_usage (chunk_floor (placeholder_usage_ a)) a in
    let new_sec_reserved := share (sec_cache_res_ratio_ a) (reserved_usage_ a) in
    let sec_charge := u64 (new_sec_reserved - sec_reserved_ a) in
    let '(_, c) := s_Deflate c sec_charge in
    '(s, a, c) ← update_pri sec_charge false a c;
    Some (s, set_sec_reserved (u64 (sec_reserved_ a + sec_charge)) a, c)
  else Some (s, a, c).

Definition Adapter_Insert (key : Slice) (value : ObjectPtr) (helper : CacheItemHelper) (charge : Z)
    (want_handle : bool) (priority : Priority) (compressed_value : Slice) (type : Z)
    (a : Adapter handle) (c : σ) : option (Status * option handle * Adapter handle * σ) :=
  let '(s, h, c) := t_Insert c key value helper charge want_handle priority in
  '(s, a, c) ←
    (if ok s && (value =? nullptr) && distribute_cache_res_ a && want_handle then
       h ← h; add_placeholder s (t_GetCharge c h) a c
     else Some (s, a, c));
  let c :=
    if negb (value =? nullptr) && negb (empty_slice compressed_value) &&
       bool_decide (adm_policy_ a = kAdmPolicyThreeQueue) && IsSecondaryCacheCompatible helper
    then (s_InsertSaved c key compressed_value type).2 else c in
  Some (s, h, a, c).

(** The part of [Release] under [cache_res_mutex_]. *)
Definition drop_placeholder (charge : Z) (a : Adapter handle) (c : σ) : option (Adapter handle * σ) :=
  let a := set_placeholder_usage (u64 (placeholder_usage_ a - charge)) a in
  if (placeholder_usage_ a <=? t_GetCapacity c) && (placeholder_usage_ a <? reserved_usage_ a) then
    let a := set_reserved_usage (chunk_floor (placeholder_usage_ a)) a in
    let new_sec_reserved := share (sec_cache_res_ratio_ a) (reserved_usage_ a) in
    let sec_charge := u64 (sec_reserved_ a - new_sec_reserved) in
    let '(_, c) := s_Inflate c sec_charge in
    '(_, a, c) ← update_pri sec_charge true a c;
    Some (set_sec_reserved (u64 (sec_reserved_ a - sec_charge)) a, c)
  else Some (a, c).

Definition Adapter_Release (h : handle) (erase_if_last_ref : bool) (a : Adapter handle) (c : σ) :
    option (bool * Adapter handle * σ) :=
  '(a, c) ←
    (if erase_if_last_ref && (t_Value c h =? nullptr) && distribute_cache_res_ a then
       drop_placeholder (t_GetCharge c h) a c
     else Some (a, c));
  let '(b, c) := t_Release c h erase_if_last_ref in
  Some (b, a, c).

(** [Promote], without its counters. *)
Definition Promote (secondary_handle : sec_handle) (key : Slice) (helper : CacheItemHelper)
    (priority : Priority) (found_dummy_entry kept_in_sec_cache : bool) (a : Adapter handle) (c : σ) :
    option (option handle * Adapter handle * σ) :=
  let obj := s_Value secondary_handle in
  if obj =? nullptr then Some (None, a, c)
  else
    let charge := s_Size secondary_handle in
    if s_SupportForceErase && negb found_dummy_entry then
      let '(result, c) := t_CreateStandalone c key obj helper charge true in
      '(_, _, a, c) ← Adapter_Insert key kDummyObj kNoopCacheItemHelper 0 false priority [] 0 a c;
      Some (result, a, c)
    else
      '(s, result, a, c) ←
        Adapter_Insert key obj (if kept_in_sec_cache then without_secondary_compat helper else helper)
          charge true priority [] 0 a c;
      if ok s then Some (result, a, c)
      else
        let '(result, c) := t_CreateStandalone c key obj helper charge true in
        Some (result, a, c).

Definition Adapter_Lookup (key : Slice) (helper : option CacheItemHelper) (priority : Priority)
    (a : Adapter handle) (c : σ) : option (option handle * Adapter handle * σ) :=
  let '(result, c) := t_Lookup c key helper priority in
  let secondary_compatible := match helper with Some h => IsSecondaryCacheCompatible h | None => false end in
  let '(found_dummy_entry, result, c) := ProcessDummyResult result secondary_compatible c in
  match result, helper with
  | None, Some hp =>
      if secondary_compatible then
        let '(secondary_handle, kept_in_sec_cache, c) := s_Lookup c key hp true found_dummy_entry in
        match secondary_handle with
        | Some sh => Promote sh key hp priority found_dummy_entry kept_in_sec_cache a c
        | None => Some (None, a, c)
        end
      else Some (None, a, c)
  | _, _ => Some (result, a, c)
  end.

(** Lowering the capacity: the secondary cache first, then its account, then the target. *)
Definition shrink (capacity sec_capacity old_sec_capacity : Z) (a : Adapter handle) (c : σ) :
    option (Adapter handle * σ) :=
  let '(s, c) := s_SetCapacity c sec_capacity in
  if ok s then
    let a := if placeholder_usage_ a >? capacity then set_reserved_usage (chunk_floor capacity) a else a in
    let new_sec_reserved := share (sec_cache_res_ratio_ a) (reserved_usage_ a) in
    '(_, a, c) ← update_pri
        (u64 (u64 (old_sec_capacity - sec_capacity) - u64 (sec_reserved_ a - new_sec_reserved))) false a c;
    Some (set_sec_reserved new_sec_reserved a, t_SetCapacity c capacity)
  else Some (a, c).

Definition expand (capacity sec_capacity old_sec_capacity : Z) (a : Adapter handle) (c : σ) :
    option (Adapter handle * σ) :=
  let c := t_SetCapacity c capacity in
  '(_, a, c) ← update_pri (u64 (sec_capacity - old_sec_capacity)) true a c;
  Some (a, (s_SetCapacity c sec_capacity).2).

Definition Adapter_SetCapacity (capacity : Z) (a : Adapter handle) (c : σ) : option (Adapter handle * σ) :=
  let sec_capacity := share (if distribute_cache_res_ a then sec_cache_res_ratio_ a else d0) capacity in
  if distribute_cache_res_ a then
    let '(s, old_sec_capacity) := s_GetCapacity c in
    if ok s then
      if old_sec_capacity >? sec_capacity then shrink capacity sec_capacity old_sec_capacity a c
      else expand capacity sec_capacity old_sec_capacity a c
    else Some (a, c)
  else Some (a, t_SetCapacity c capacity).

Definition GetSecondaryCachePinnedUsage (a : Adapter handle) (c : σ) : Status * Z :=
  if distribute_cache_res_ a then
    let '(s, capacity) := s_GetCapacity c in
    if ok s then (s, u64 (capacity - GetTotalMemoryUsed (pri_cache_res_ a))) else (s, 0)
  else (Status_OK, 0).

Definition UpdateCacheReservationRatio (compressed_secondary_ratio : double) (a : Adapter handle) (c : σ) :
    option (Status * Adapter handle * σ) :=
  if distribute_cache_res_ a then
    let sec_capacity := share compressed_secondary_ratio (t_GetCapacity c) in
    let '(s, old_sec_capacity) := s_GetCapacity c in
    if ok s then
      let a := set_ratio compressed_secondary_ratio a in
      let new_sec_reserved := share (sec_cache_res_ratio_ a) (reserved_usage_ a) in
      if sec_capacity >? old_sec_capacity then
        let '(_, c) := s_Deflate c (u64 (new_sec_reserved - sec_reserved_ a)) in
        '(_, a, c) ← update_pri
            (u64 (u64 (sec_capacity - old_sec_capacity) - u64 (new_sec_reserved - sec_reserved_ a))) true a c;
        let a := set_sec_reserved new_sec_reserved a in
        let '(s, c) := s_SetCapacity c sec_capacity in
        Some (s, a, c)
      else
        let '(s, c) := s_SetCapacity c sec_capacity in
        if ok s then
          '(_, a, c) ← update_pri
              (u64 (u64 (old_sec_capacity - sec_capacity) - u64 (sec_reserved_ a - new_sec_reserved))) false a c;
          let '(s, c) := s_Inflate c (u64 (sec_reserved_ a - new_sec_reserved)) in
          Some (s, set_sec_reserved new_sec_reserved a, c)
        else Some (s, a, c)
    else Some (s, a, c)
  else Some (NotSupported "", a, c).

Definition UpdateAdmissionPolicy (p : TieredAdmissionPolicy) (a : Adapter handle) : Status * Adapter handle :=
  (Status_OK, set_policy p a).

(** [UpdateTieredCache] on a cache behind an adapter over a target of another name: [Name]
    gives [kTieredCacheName] exactly if reservations are distributed. *)
Definition UpdateTieredCache (total_capacity : Z) (compressed_secondary_ratio : double)
    (adm_policy : TieredAdmissionPolicy) (a : Adapter handle) (c : σ) :
    option (Status * Adapter handle * σ) :=
  if negb (distribute_cache_res_ a) then Some (InvalidArgument "", a, c)
  else
    '(a, c) ← (if total_capacity >? 0 then Adapter_SetCapacity total_capacity a c else Some (a, c));
    '(s, a, c) ←
      (if SFleb d0 compressed_secondary_ratio && SFleb compressed_secondary_ratio d1
       then UpdateCacheReservationRatio compressed_secondary_ratio a c
       else Some (Status_OK, a, c));
    if bool_decide (adm_policy <> kAdmPolicyMax) then
      let '(s, a) := UpdateAdmissionPolicy adm_policy a in Some (s, a, c)
    else Some (s, a, c).

End Ops.

(** The admission policy that [NewTieredCache] uses; [None] is refused. *)
Definition choose_policy (p : TieredAdmissionPolicy) (nvm_sec_cache : bool) : option TieredAdmissionPolicy :=
  match p with
  | kAdmPolicyAuto => Some (if nvm_sec_cache then kAdmPolicyThreeQueue else kAdmPolicyPlaceholder)
  | kAdmPolicyPlaceholder | kAdmPolicyAllowCacheHits | kAdmPolicyAllowAll =>
      if nvm_sec_cache then None else Some p
  | kAdmPolicyThreeQueue => if nvm_sec_cache then Some p else None
  | kAdmPolicyMax => None
  end.
