(* ===== verification/SecondaryAdapterProofs.v ===== *)
(** * Two cache tiers: proofs *)

From stdpp Require Import gmultiset.
From S2P Require Import Prelude.
From S2P Require Import Status.
From S2P Require Import Slice.
From S2P Require Import Double.
From S2P Require Import DoubleRound.
From S2P Require Import LruState.
From S2P Require Import CacheReservation.
From S2P Require Import CacheReservationProofs.
From S2P Require Import SecondaryAdapter.

(** Capacities are as they were. *)
Definition same_caps {σ} (pcap scap defl : σ -> Z) (c c' : σ) : Prop :=
  pcap c' = pcap c /\ scap c' = scap c /\ defl c' = defl c.

(** What the adapter relies on. [held] are the references to handles of the target, [pcap] its
    capacity, [scap] the capacity of the secondary cache and [defl] by how much it is deflated
    at the moment. *)
Class TieredLaws {σ handle sec_handle} `{Countable handle} (C : TieredCaches σ handle sec_handle)
    (held : σ -> gmultiset handle) (pcap scap defl : σ -> Z) : Prop := {
  lt_Insert c k v hp n w p s h c' : t_Insert c k v hp n w p = (s, h, c') ->
    same_caps pcap scap defl c c' /\
    (forall h1, h1 ∈ held c -> t_Value c' h1 = t_Value c h1) /\
    if ok s && w then exists h0, h = Some h0 /\ held c' = {[+ h0 +]} ⊎ held c /\ t_Value c' h0 = v /\
      0 <= t_GetCharge c' h0
    else held c' = held c;
  lt_Lookup c k hp p h c' : t_Lookup c k hp p = (h, c') ->
    same_caps pcap scap defl c c' /\
    held c' = (match h with Some h => {[+ h +]} | None => ∅ end) ⊎ held c;
  lt_Release c h e b c' : t_Release c h e = (b, c') ->
    same_caps pcap scap defl c c' /\
    (h ∈ held c -> held c' = held c ∖ {[+ h +]});
  lt_CreateStandalone c k v hp n h c' : t_CreateStandalone c k v hp n true = (h, c') ->
    same_caps pcap scap defl c c' /\
    exists h0, h = Some h0 /\ held c' = {[+ h0 +]} ⊎ held c /\ t_Value c' h0 = v;
  lt_GetCapacity c : t_GetCapacity c = pcap c;
  lt_SetCapacity c n : let c' := t_SetCapacity c n in
    pcap c' = n /\ scap c' = scap c /\ defl c' = defl c /\ held c' = held c;
  ls_Insert c k v hp f s c' : s_Insert c k v hp f = (s, c') ->
    same_caps pcap scap defl c c' /\ held c' = held c;
  ls_InsertSaved c k v t s c' : s_InsertSaved c k v t = (s, c') ->
    same_caps pcap scap defl c c' /\ held c' = held c;
  ls_Lookup c k hp w adv h kept c' : s_Lookup c k hp w adv = (h, kept, c') ->
    same_caps pcap scap defl c c' /\ held c' = held c;
  ls_GetCapacity c : s_GetCapacity c = (Status_OK, scap c);
  ls_SetCapacity c n s c' : s_SetCapacity c n = (s, c') ->
    ok s = true /\ pcap c' = pcap c /\ scap c' = n /\ defl c' = defl c /\ held c' = held c;
  ls_Deflate c n s c' : s_Deflate c n = (s, c') -> 0 <= n -> defl c + n <= scap c ->
    ok s = true /\ pcap c' = pcap c /\ scap c' = scap c /\ defl c' = defl c + n /\ held c' = held c;
  ls_Inflate c n s c' : s_Inflate c n = (s, c') -> 0 <= n <= defl c ->
    ok s = true /\ pcap c' = pcap c /\ scap c' = scap c /\ defl c' = defl c - n /\ held c' = held c;
  ls_not_dummy sh : s_Value sh <> kDummyObj;
  ls_dummy : kDummyObj <> nullptr;
}.

Lemma chunk_floor_spec n : 0 <= n < 2 ^ 64 -> chunk_floor n = n / kReservationChunkSize * kReservationChunkSize.
Proof.
  intros Hn. unfold chunk_floor, kReservationChunkSize, wrap. change (Z.shiftl 1 20 - 1) with (Z.ones 20).
  change (Z.shiftl 1 20) with (2 ^ 20).
  rewrite <- Z.land_ones by lia. rewrite (Z.land_comm _ (Z.ones 64)), Z.land_assoc, Z.land_ones by lia.
  rewrite Z.mod_small, <- Z.ldiff_land by lia.
  rewrite Z.ldiff_ones_r by lia. rewrite Z.shiftl_mul_pow2, Z.shiftr_div_pow2 by lia. done.
Qed.

Lemma chunk_floor_bounds n : 0 <= n < 2 ^ 64 -> 0 <= chunk_floor n <= n /\ n - chunk_floor n < kReservationChunkSize.
Proof. intros Hn. rewrite chunk_floor_spec by done. change kReservationChunkSize with 1048576. dlia. Qed.

Section Proofs.
Context {σ handle sec_handle : Type} `{Countable handle} {C : TieredCaches σ handle sec_handle}
  (held : σ -> gmultiset handle) (pcap scap defl : σ -> Z) `{L : !TieredLaws C held pcap scap defl}.

Notation quiet := (same_caps pcap scap defl).

Lemma quiet_refl c : quiet c c.
Proof. by unfold same_caps. Qed.

Lemma quiet_trans c c1 c2 : quiet c c1 -> quiet c1 c2 -> quiet c c2.
Proof. unfold same_caps. intuition congruence. Qed.

(** The target is a cache for the reservation manager. *)
#[local] Instance target_dummy_laws : DummyCacheLaws target_dummy held.
Proof.
  split.
  - intros c n s h c' E Hok. cbn in E. destruct (lt_Insert _ _ _ _ _ _ _ _ _ _ E) as (_ & _ & Hh).
    unfold ok in Hh. rewrite bool_decide_eq_true_2 in Hh by done. cbn in Hh.
    destruct Hh as (h0 & -> & Hh & _). eauto.
  - intros c n s h c' E Hok. cbn in E. destruct (lt_Insert _ _ _ _ _ _ _ _ _ _ E) as (_ & _ & Hh).
    unfold ok in Hh. rewrite bool_decide_eq_false_2 in Hh by done. done.
  - intros c h Hin. cbn. destruct (t_Release c h true) as [b c'] eqn:E. cbn.
    by apply (lt_Release _ _ _ _ _ E).
Qed.

(** The manager does not touch capacities. *)
Lemma increase_quiet fuel n : forall s m c s' m' c',
  increase_loop fuel n s m c = Some (s', m', c') -> quiet c c'.
Proof.
  induction fuel as [|fuel IH]; intros s m c s' m' c' E; cbn [increase_loop] in E; destruct (n >? _);
    try done; try (injection E as <- <- <-; apply quiet_refl).
  destruct (cache_Insert c kSizeDummyEntry) as [[s1 h] c1] eqn:Ei. cbn in Ei.
  destruct (lt_Insert _ _ _ _ _ _ _ _ _ _ Ei) as (Hq & _). case_bool_decide.
  - destruct h as [h|]; [|done]. eapply quiet_trans; [done|by eapply IH].
  - by injection E as <- <- <-.
Qed.

Lemma decrease_quiet fuel n : forall m c m' c',
  decrease_loop fuel n m c = Some (m', c') -> quiet c c'.
Proof.
  induction fuel as [|fuel IH]; intros m c m' c' E; cbn [decrease_loop] in E; destruct (_ <=? _);
    try done; try (injection E as <- <-; apply quiet_refl).
  destruct (last (dummy_handles_ m)) as [h|]; [|done]. eapply quiet_trans; [|by eapply IH].
  cbn. destruct (t_Release c h true) as [b c1] eqn:Er. apply (lt_Release _ _ _ _ _ Er).
Qed.

Lemma update_quiet n m c s m' c' : UpdateCacheReservation n m c = Some (s, m', c') -> quiet c c'.
Proof.
  unfold UpdateCacheReservation. destruct (_ =? _); [by intros [= <- <- <-]; apply quiet_refl|].
  destruct (_ >? _); [apply increase_quiet|]. destruct (_ && _); [by intros [= <- <- <-]; apply quiet_refl|].
  unfold DecreaseCacheReservation. destruct (decrease_loop _ _ _ _) as [[m1 c1]|] eqn:E; [|done].
  intros [= <- <- <-]. by eapply decrease_quiet.
Qed.

Lemma update_pri_ok base a c delta (increase : bool) :
  Reserves held base (pri_cache_res_ a) c -> 0 <= memory_used_ (pri_cache_res_ a) <= 2 ^ 62 ->
  0 <= delta <= 2 ^ 62 ->
  exists s a' c', update_pri delta increase a c = Some (s, a', c') /\
    a' = set_manager (pri_cache_res_ a') a /\ Reserves held base (pri_cache_res_ a') c' /\ quiet c c' /\
    memory_used_ (pri_cache_res_ a') =
      if increase then memory_used_ (pri_cache_res_ a) + delta else Z.max 0 (memory_used_ (pri_cache_res_ a) - delta).
Proof.
  intros R Hu Hd. unfold update_pri, Concurrent_UpdateCacheReservation_delta, GetTotalMemoryUsed.
  set (u := memory_used_ (pri_cache_res_ a)) in *.
  set (new := if increase then u + delta else Z.max 0 (u - delta)).
  assert (0 <= new <= 2 ^ 64 - kSizeDummyEntry) as Hn by (unfold new, kSizeDummyEntry; destruct increase; lia).
  destruct (update_ok held base new (pri_cache_res_ a) c R Hn) as (s & m' & c' & E & R' & _ & Hm & _).
  assert ((if negb increase then UpdateCacheReservation (if u >? delta then u64 (u - delta) else 0) (pri_cache_res_ a) c
           else UpdateCacheReservation (u64 (u + delta)) (pri_cache_res_ a) c) = Some (s, m', c')) as ->.
  { rewrite <- E. unfold new. destruct increase; cbn [negb].
    - by rewrite wrap_small by (unfold is_uint; lia).
    - f_equal. rewrite Z.gtb_ltb. destruct (Z.ltb_spec delta u); [|lia].
      rewrite wrap_small by (unfold is_uint; lia). lia. }
  cbn [mbind option_bind]. exists s, (set_manager m' a), c'. split_and!; try done.
  by eapply update_quiet.
Qed.

(** ** The distribution of reservations *)

Definition charges (outs : list (handle * Z)) : Z := foldr (fun x n => x.2 + n) 0 outs.

Lemma charges_cons h g outs : charges ((h, g) :: outs) = g + charges outs.
Proof. done. Qed.

Lemma charges_perm outs outs' : outs ≡ₚ outs' -> charges outs = charges outs'.
Proof. unfold charges. induction 1; cbn; lia. Qed.

Lemma charges_nonneg outs : Forall (fun x => 0 <= x.2) outs -> 0 <= charges outs.
Proof. unfold charges. induction 1; cbn; lia. Qed.

(** The account of an adapter that distributes reservations: [mine] are the references of its
    clients, [outs] the placeholders among them with their charges. *)
Record TInv (mine : gmultiset handle) (outs : list (handle * Z)) (a : Adapter handle) (c : σ) : Prop := {
  ti_distribute : distribute_cache_res_ a = true;
  ti_ratio : ratio_ok (sec_cache_res_ratio_ a) = true;
  ti_manager : Reserves held mine (pri_cache_res_ a) c;
  ti_caps : 0 <= pcap c <= 2 ^ 62 /\ 0 <= scap c <= 2 ^ 62;
  ti_usage : placeholder_usage_ a = charges outs /\ charges outs <= 2 ^ 62 /\ Forall (fun x => 0 <= x.2) outs;
  ti_reserved : 0 <= reserved_usage_ a <= placeholder_usage_ a /\ reserved_usage_ a <= pcap c;
  ti_sec : sec_reserved_ a = share (sec_cache_res_ratio_ a) (reserved_usage_ a);
  ti_defl : defl c = sec_reserved_ a;
  ti_share : share (sec_cache_res_ratio_ a) (pcap c) <= scap c;
  ti_used : memory_used_ (pri_cache_res_ a) = scap c - sec_reserved_ a;
}.

Lemma share_mono r x y : ratio_ok r = true -> 0 <= x -> x <= y -> y <= 2 ^ 62 ->
  0 <= share r x <= share r y /\ share r y <= 2 ^ 62.
Proof. intros Hr Hx Hxy Hy. by apply (size_times_mono r x y 62). Qed.

Lemma TInv_sec mine outs a c : TInv mine outs a c -> 0 <= sec_reserved_ a <= scap c.
Proof.
  intros I. rewrite (ti_sec _ _ _ _ I). pose proof (ti_share _ _ _ _ I). destruct (ti_caps _ _ _ _ I) as [? ?].
  destruct (ti_reserved _ _ _ _ I) as [? ?].
  pose proof (share_mono _ (reserved_usage_ a) (pcap c) (ti_ratio _ _ _ _ I)). lia.
Qed.

Lemma Reserves_held base m c c' : Reserves held base m c -> held c' = held c -> Reserves held base m c'.
Proof. intros [H1 H2 H3] E. split; try done. by rewrite E. Qed.

(** Something else happens to the caches. *)
Lemma TInv_frame mine mine' outs a c c' : TInv mine outs a c -> quiet c c' ->
  held c' = mine' ⊎ list_to_set_disj (dummy_handles_ (pri_cache_res_ a)) -> TInv mine' outs a c'.
Proof.
  intros [H1 H2 [R1 R2 R3] H4 H5 H6 H7 H8 H9 H10] (Q1 & Q2 & Q3) Hh.
  split; rewrite ?Q1, ?Q2, ?Q3; try done.
Qed.

(** The reserved usage moves to [n], with the shares of the secondary cache. *)
Lemma TInv_move mine outs outs' a m c c' u n :
  TInv mine outs a c -> pcap c' = pcap c -> scap c' = scap c ->
  u = charges outs' -> charges outs' <= 2 ^ 62 -> Forall (fun x => 0 <= x.2) outs' ->
  0 <= n <= u -> n <= pcap c -> defl c' = share (sec_cache_res_ratio_ a) n ->
  Reserves held mine m c' -> memory_used_ m = scap c - share (sec_cache_res_ratio_ a) n ->
  TInv mine outs' (set_sec_reserved (share (sec_cache_res_ratio_ a) n)
         (set_manager m (set_reserved_usage n (set_placeholder_usage u a)))) c'.
Proof.
  intros [H1 H2 H3 H4 H5 H6 H7 H8 H9 H10] Q1 Q2 Eu Hb Hp Hn Hc Hd HR Hm.
  split; rewrite ?Q1, ?Q2; done.
Qed.

(** Only the usage changes. *)
Lemma TInv_usage mine outs outs' a c u : TInv mine outs a c -> u = charges outs' ->
  charges outs' <= 2 ^ 62 -> Forall (fun x => 0 <= x.2) outs' -> reserved_usage_ a <= u ->
  TInv mine outs' (set_placeholder_usage u a) c.
Proof.
  intros [H1 H2 H3 H4 H5 [H6 H6'] H7 H8 H9 H10] Eu Hb Hp Hn.
  split; cbn [set_placeholder_usage placeholder_usage_ reserved_usage_]; (done || lia).
Qed.

Lemma add_placeholder_ok mine outs a c s0 h g :
  TInv mine outs a c -> 0 <= g -> charges outs + g <= 2 ^ 62 ->
  exists s a' c', add_placeholder s0 g a c = Some (s, a', c') /\ TInv mine ((h, g) :: outs) a' c'.
Proof.
  intros I Hg Hs. pose proof (TInv_sec _ _ _ _ I) as Hsec.
  destruct (ti_usage _ _ _ _ I) as (U1 & U2 & U3). pose proof (charges_nonneg _ U3) as Hpos.
  destruct (ti_reserved _ _ _ _ I) as [V1 V2]. destruct (ti_caps _ _ _ _ I) as [K1 K2].
  assert (Forall (fun x : handle * Z => 0 <= x.2) ((h, g) :: outs)) as Hall by (by constructor).
  unfold add_placeholder. rewrite U1, (wrap_small 64 (charges outs + g)) by (unfold is_uint; lia).
  cbn [placeholder_usage_ set_placeholder_usage reserved_usage_]. rewrite (lt_GetCapacity c).
  set (u := charges outs + g) in *.
  assert (u = charges ((h, g) :: outs)) as Eu by (unfold u; rewrite charges_cons; lia).
  destruct (Z.leb_spec u (pcap c)) as [Hle|Hgt]; cbn [andb].
  2:{ exists s0, (set_placeholder_usage u a), c. split; [done|].
      apply (TInv_usage mine outs); (done || lia). }
  rewrite Z.geb_leb. destruct (Z.leb_spec kReservationChunkSize (u64 (u - reserved_usage_ a))) as [Hch|Hch].
  2:{ exists s0, (set_placeholder_usage u a), c. split; [done|].
      apply (TInv_usage mine outs); (done || lia). }
  rewrite wrap_small in Hch by (unfold is_uint; lia).
  destruct (chunk_floor_bounds u ltac:(lia)) as [F1 F2]. set (n := chunk_floor u) in *.
  set (a1 := set_reserved_usage n (set_placeholder_usage u a)).
  change (sec_cache_res_ratio_ a1) with (sec_cache_res_ratio_ a). change (reserved_usage_ a1) with n.
  change (sec_reserved_ a1) with (sec_reserved_ a).
  assert (reserved_usage_ a <= n) as Hrn.
  { unfold n. rewrite chunk_floor_spec by lia. change kReservationChunkSize with 1048576 in *. dlia. }
  pose proof (share_mono _ (reserved_usage_ a) n (ti_ratio _ _ _ _ I) ltac:(lia) Hrn ltac:(lia)) as M1.
  pose proof (share_mono _ n (pcap c) (ti_ratio _ _ _ _ I) ltac:(lia) ltac:(lia) ltac:(lia)) as M2.
  pose proof (ti_share _ _ _ _ I) as Hsh. rewrite <- (ti_sec _ _ _ _ I) in M1.
  set (new := share (sec_cache_res_ratio_ a) n) in *.
  rewrite (wrap_small 64 (new - sec_reserved_ a)) by (unfold is_uint; lia).
  destruct (s_Deflate c (new - sec_reserved_ a)) as [sd c1] eqn:Ed.
  destruct (ls_Deflate _ _ _ _ Ed ltac:(lia) ltac:(rewrite (ti_defl _ _ _ _ I); lia)) as (_ & D1 & D2 & D3 & D4).
  destruct (update_pri_ok mine a1 c1 (new - sec_reserved_ a) false) as (s & a2 & c2 & -> & Ea & R2 & (Q1 & Q2 & Q3) & Hm).
  { cbn. eapply Reserves_held; [apply (ti_manager _ _ _ _ I)|done]. }
  { cbn. rewrite (ti_used _ _ _ _ I). lia. }
  { lia. }
  cbn [mbind option_bind]. eexists s, _, c2. split; [done|].
  assert (sec_reserved_ a2 = sec_reserved_ a) as -> by (by rewrite Ea). rewrite Ea.
  rewrite (wrap_small 64 (sec_reserved_ a + (new - sec_reserved_ a))) by (unfold is_uint; lia).
  replace (sec_reserved_ a + (new - sec_reserved_ a)) with new by lia.
  eapply (TInv_move mine outs _ a _ c c2 u n I); try done; try lia.
  - rewrite Q3, D3, (ti_defl _ _ _ _ I). fold new. lia.
  - cbn. rewrite Hm. cbn. rewrite (ti_used _ _ _ _ I). fold new. lia.
Qed.

Lemma drop_placeholder_ok mine outs outs' a c h g :
  TInv mine outs a c -> outs ≡ₚ (h, g) :: outs' ->
  exists a' c', drop_placeholder g a c = Some (a', c') /\ TInv mine outs' a' c'.
Proof.
  intros I Hp. pose proof (TInv_sec _ _ _ _ I) as Hsec.
  destruct (ti_usage _ _ _ _ I) as (U1 & U2 & U3). rewrite (charges_perm _ _ Hp), charges_cons in U1, U2.
  rewrite Hp in U3. apply Forall_cons in U3 as [Hg U3]. cbn in Hg. pose proof (charges_nonneg _ U3) as Hpos.
  destruct (ti_reserved _ _ _ _ I) as [V1 V2]. destruct (ti_caps _ _ _ _ I) as [K1 K2].
  unfold drop_placeholder. rewrite U1. replace (g + charges outs' - g) with (charges outs') by lia.
  rewrite (wrap_small 64 (charges outs')) by (unfold is_uint; lia).
  set (u := charges outs') in *. cbn [placeholder_usage_ set_placeholder_usage reserved_usage_].
  rewrite (lt_GetCapacity c). destruct (Z.leb_spec u (pcap c)) as [Hle|Hgt]; cbn [andb].
  2:{ exists (set_placeholder_usage u a), c. split; [done|]. apply (TInv_usage mine outs); (done || lia). }
  destruct (Z.ltb_spec u (reserved_usage_ a)) as [Hlt|Hge].
  2:{ exists (set_placeholder_usage u a), c. split; [done|]. apply (TInv_usage mine outs); (done || lia). }
  destruct (chunk_floor_bounds u ltac:(lia)) as [F1 F2]. set (n := chunk_floor u) in *.
  set (a1 := set_reserved_usage n (set_placeholder_usage u a)).
  change (sec_cache_res_ratio_ a1) with (sec_cache_res_ratio_ a). change (reserved_usage_ a1) with n.
  change (sec_reserved_ a1) with (sec_reserved_ a).
  pose proof (share_mono _ n (reserved_usage_ a) (ti_ratio _ _ _ _ I) ltac:(lia) ltac:(lia) ltac:(lia)) as M1.
  rewrite <- (ti_sec _ _ _ _ I) in M1. set (new := share (sec_cache_res_ratio_ a) n) in *.
  rewrite (wrap_small 64 (sec_reserved_ a - new)) by (unfold is_uint; lia).
  destruct (s_Inflate c (sec_reserved_ a - new)) as [sd c1] eqn:Ed.
  destruct (ls_Inflate _ _ _ _ Ed ltac:(rewrite (ti_defl _ _ _ _ I); lia)) as (_ & D1 & D2 & D3 & D4).
  destruct (update_pri_ok mine a1 c1 (sec_reserved_ a - new) true) as (s & a2 & c2 & -> & Ea & R2 & (Q1 & Q2 & Q3) & Hm).
  { cbn. eapply Reserves_held; [apply (ti_manager _ _ _ _ I)|done]. }
  { cbn. rewrite (ti_used _ _ _ _ I). lia. }
  { lia. }
  cbn [mbind option_bind]. eexists _, c2. split; [done|].
  assert (sec_reserved_ a2 = sec_reserved_ a) as -> by (by rewrite Ea). rewrite Ea.
  rewrite (wrap_small 64 (sec_reserved_ a - (sec_reserved_ a - new))) by (unfold is_uint; lia).
  replace (sec_reserved_ a - (sec_reserved_ a - new)) with new by lia.
  eapply (TInv_move mine outs _ a _ c c2 u n I); try done; try lia.
  - rewrite Q3, D3, (ti_defl _ _ _ _ I). fold new. lia.
  - cbn. rewrite Hm. cbn. rewrite (ti_used _ _ _ _ I). fold new. lia.
Qed.

(** ** Calls of clients *)

Lemma insert_placeholder_ok mine outs a c key hp n p compressed type s0 h c0 :
  TInv mine outs a c -> t_Insert c key nullptr hp n true p = (s0, h, c0) ->
  (forall h0, h = Some h0 -> charges outs + t_GetCharge c0 h0 <= 2 ^ 62) ->
  exists s a' c', Adapter_Insert key nullptr hp n true p compressed type a c = Some (s, h, a', c') /\
    if ok s0 then exists h0, h = Some h0 /\ TInv ({[+ h0 +]} ⊎ mine) ((h0, t_GetCharge c0 h0) :: outs) a' c'
    else s = s0 /\ TInv mine outs a' c'.
Proof.
  intros I E Hb. pose proof (v_held _ _ _ _ (ti_manager _ _ _ _ I)) as Hh.
  destruct (lt_Insert _ _ _ _ _ _ _ _ _ _ E) as (Hq & _ & Hres). rewrite andb_true_r in Hres.
  unfold Adapter_Insert. rewrite E, (ti_distribute _ _ _ _ I). cbn [negb andb Z.eqb nullptr].
  destruct (ok s0).
  - destruct Hres as (h0 & -> & Hh0 & _ & Hg). cbn [mbind option_bind].
    destruct (add_placeholder_ok ({[+ h0 +]} ⊎ mine) outs a c0 s0 h0 (t_GetCharge c0 h0)) as (s & a' & c' & -> & I').
    + eapply TInv_frame; [done|done|]. rewrite Hh0, Hh. multiset_solver.
    + done.
    + by apply Hb.
    + cbn [mbind option_bind]. exists s, a', c'. split; [done|]. by exists h0.
  - cbn [mbind option_bind]. exists s0, a, c0. split; [done|]. split; [done|].
    eapply TInv_frame; [done|done|]. by rewrite Hres.
Qed.

Lemma release_placeholder_ok mine outs outs' a c h g :
  TInv mine outs a c -> outs ≡ₚ (h, g) :: outs' -> h ∈ mine -> t_Value c h = nullptr -> t_GetCharge c h = g ->
  exists b a' c', Adapter_Release h true a c = Some (b, a', c') /\ TInv (mine ∖ {[+ h +]}) outs' a' c'.
Proof.
  intros I Hp Hin Hv Hg. unfold Adapter_Release. rewrite Hv, Hg, (ti_distribute _ _ _ _ I). cbn [andb Z.eqb nullptr].
  destruct (drop_placeholder_ok mine outs outs' a c h g I Hp) as (a' & c1 & -> & I1). cbn [mbind option_bind].
  destruct (t_Release c1 h true) as [b c2] eqn:Er. exists b, a', c2. split; [done|].
  destruct (lt_Release _ _ _ _ _ Er) as [Hq Hh]. pose proof (v_held _ _ _ _ (ti_manager _ _ _ _ I1)) as Hh1.
  eapply TInv_frame; [done|done|]. rewrite Hh, Hh1 by (rewrite Hh1; multiset_solver). multiset_solver.
Qed.

(** A handle that may be missing, as references. *)
Definition opt_ref (h : option handle) : gmultiset handle :=
  match h with Some h => {[+ h +]} | None => ∅ end.

(** An entry that is not a placeholder: the adapter only passes it on. *)
Lemma insert_other_ok a c key v hp n w p compressed type : v <> nullptr ->
  exists s h c', Adapter_Insert key v hp n w p compressed type a c = Some (s, h, a, c') /\ quiet c c' /\
    (compressed = [] -> (s, h, c') = t_Insert c key v hp n w p) /\
    held c' = (if ok s && w then opt_ref h else ∅) ⊎ held c.
Proof.
  intros Hv. unfold Adapter_Insert. destruct (t_Insert c key v hp n w p) as [[s h] c1] eqn:E.
  destruct (lt_Insert _ _ _ _ _ _ _ _ _ _ E) as (Hq & _ & Hres).
  rewrite (proj2 (Z.eqb_neq v nullptr) Hv), andb_false_r. cbn [andb negb mbind option_bind].
  assert (held c1 = (if ok s && w then opt_ref h else ∅) ⊎ held c) as Hh.
  { destruct (ok s && w); [|by rewrite Hres, (left_id_L ∅ (⊎))]. by destruct Hres as (h0 & -> & -> & _). }
  destruct (_ && _ && _) eqn:Eb.
  - destruct (s_InsertSaved c1 key compressed type) as [s2 c2] eqn:Es. destruct (ls_InsertSaved _ _ _ _ _ _ Es) as [Hq2 Hh2].
    exists s, h, c2. split_and!; [done|by eapply quiet_trans| |by rewrite Hh2].
    intros ->. done.
  - exists s, h, c1. by split_and!.
Qed.

(** [Promote] returns a reference to the object, if there is one. *)
Lemma Promote_ok sh key hp p found kept a c :
  exists result c', Promote sh key hp p found kept a c = Some (result, a, c') /\ quiet c c' /\
    held c' = opt_ref result ⊎ held c /\
    match result with Some h => t_Value c' h = s_Value sh | None => s_Value sh = nullptr end.
Proof.
  unfold Promote. destruct (Z.eqb_spec (s_Value sh) nullptr) as [E0|Hne].
  { exists None, c. split_and!; try done. unfold opt_ref. multiset_solver. }
  destruct (s_SupportForceErase && negb found).
  - destruct (t_CreateStandalone c key (s_Value sh) hp (s_Size sh) true) as [r c1] eqn:E1.
    destruct (lt_CreateStandalone _ _ _ _ _ _ _ E1) as (Hq1 & h0 & -> & Hh1 & Hv1).
    destruct (insert_other_ok a c1 key kDummyObj kNoopCacheItemHelper 0 false p [] 0 ls_dummy)
      as (s & h & c2 & -> & Hq2 & Et & Hh2).
    cbn [mbind option_bind]. exists (Some h0), c2. split_and!; [done|by eapply quiet_trans| |].
    + rewrite Hh2, Hh1, andb_false_r. unfold opt_ref. multiset_solver.
    + destruct (lt_Insert _ _ _ _ _ _ _ _ _ _ (eq_sym (Et eq_refl))) as (_ & Hst & _).
      rewrite Hst; [done|]. rewrite Hh1. multiset_solver.
  - destruct (insert_other_ok a c key (s_Value sh) (if kept then without_secondary_compat hp else hp)
      (s_Size sh) true p [] 0 Hne) as (s & h & c2 & -> & Hq2 & Et & Hh2).
    specialize (Et eq_refl). cbn [mbind option_bind]. rewrite andb_true_r in Hh2. destruct (ok s) eqn:Eok.
    + exists h, c2. split_and!; try done.
      destruct (lt_Insert _ _ _ _ _ _ _ _ _ _ (eq_sym Et)) as (_ & _ & Hres). rewrite Eok in Hres.
      by destruct Hres as (h0 & -> & _ & Hv & _).
    + destruct (t_CreateStandalone c2 key (s_Value sh) hp (s_Size sh) true) as [r c3] eqn:E3.
      destruct (lt_CreateStandalone _ _ _ _ _ _ _ E3) as (Hq3 & h0 & -> & Hh3 & Hv3).
      exists (Some h0), c3. split_and!; [done|by eapply quiet_trans| |done].
      rewrite Hh3, Hh2. unfold opt_ref. multiset_solver.
Qed.

(** A dummy entry does not leave the adapter. *)
Lemma ProcessDummyResult_ok h e c found h' c' : ProcessDummyResult h e c = (found, h', c') ->
  (forall x, h = Some x -> x ∈ held c) ->
  quiet c c' /\ opt_ref h' ⊎ held c = opt_ref h ⊎ held c' /\
  (found = true /\ h' = None /\ (exists x, h = Some x /\ t_Value c x = kDummyObj) \/
   found = false /\ h' = h /\ c' = c /\ forall x, h = Some x -> t_Value c x <> kDummyObj).
Proof.
  intros E Hin. unfold ProcessDummyResult in E. destruct h as [x|].
  - destruct (Z.eqb_spec (t_Value c x) kDummyObj) as [Ed|Hnd].
    + injection E as <- <- <-. destruct (t_Release c x e) as [b c1] eqn:Er. cbn [snd].
      destruct (lt_Release _ _ _ _ _ Er) as [Hq Hh]. specialize (Hin x eq_refl). specialize (Hh Hin).
      split_and!; [done| |left; eauto]. rewrite Hh. unfold opt_ref. multiset_solver.
    + injection E as <- <- <-. split_and!; [apply quiet_refl|done|]. right. split_and!; try done. by intros ? [= <-].
  - injection E as <- <- <-. split_and!; [apply quiet_refl|done|]. by right.
Qed.

(** What the secondary cache gives, asked in state [c] after a miss in the target. *)
Definition from_secondary (key : Slice) (helper : option CacheItemHelper) (found_dummy : bool) (c : σ)
    (result : option handle) (c' : σ) : Prop :=
  match helper with
  | Some hp =>
      if IsSecondaryCacheCompatible hp then
        match (s_Lookup c key hp true found_dummy).1.1 with
        | Some sh => match result with Some h => t_Value c' h = s_Value sh | None => s_Value sh = nullptr end
        | None => result = None
        end
      else result = None
  | None => result = None
  end.

Lemma lookup_full key helper p a c :
  exists result c', Adapter_Lookup key helper p a c = Some (result, a, c') /\ quiet c c' /\
    held c' = opt_ref result ⊎ held c /\
    (forall h, result = Some h -> t_Value c' h <> kDummyObj) /\
    let '(found, c1) := t_Lookup c key helper p in
    match found with
    | Some x =>
        if t_Value c1 x =? kDummyObj then
          from_secondary key helper true
            (t_Release c1 x (match helper with Some h => IsSecondaryCacheCompatible h | None => false end)).2 result c'
        else result = Some x /\ c' = c1
    | None => from_secondary key helper false c1 result c'
    end.
Proof.
  unfold Adapter_Lookup. destruct (t_Lookup c key helper p) as [h c1] eqn:E1.
  destruct (lt_Lookup _ _ _ _ _ _ E1) as [Hq1 Hh1].
  set (compat := match helper with Some h => IsSecondaryCacheCompatible h | None => false end).
  assert (forall found c2, quiet c c2 -> held c2 = held c ->
    exists result c', match helper with
      | Some hp =>
          if compat then
            let '(secondary_handle, kept_in_sec_cache, c) := s_Lookup c2 key hp true found in
            match secondary_handle with
            | Some sh => Promote sh key hp p found kept_in_sec_cache a c
            | None => Some (None, a, c)
            end
          else Some (None, a, c2)
      | None => Some (None, a, c2)
      end = Some (result, a, c') /\ quiet c c' /\ held c' = opt_ref result ⊎ held c /\
      (forall h, result = Some h -> t_Value c' h <> kDummyObj) /\ from_secondary key helper found c2 result c')
    as Hsec.
  { intros found c2 Hq2 Hh2. assert (held c2 = opt_ref None ⊎ held c) as Hh2' by (rewrite Hh2; unfold opt_ref; multiset_solver).
    destruct helper as [hp|]; [|by exists None, c2]. unfold compat, from_secondary.
    destruct (IsSecondaryCacheCompatible hp); [|by exists None, c2].
    destruct (s_Lookup c2 key hp true found) as [[sh kept] c3] eqn:E3. cbn [fst].
    destruct (ls_Lookup _ _ _ _ _ _ _ _ E3) as [Hq3 Hh3].
    destruct sh as [sh|]; [|exists None, c3; split_and!; try done; [by eapply quiet_trans|by rewrite Hh3]].
    destruct (Promote_ok sh key hp p found kept a c3) as (result & c4 & -> & Hq4 & Hh4 & Hv).
    exists result, c4. split_and!; try done.
    - eapply quiet_trans; [done|]. by eapply quiet_trans.
    - by rewrite Hh4, Hh3, Hh2.
    - intros x ->. rewrite Hv. apply ls_not_dummy. }
  destruct (ProcessDummyResult h compat c1) as [[found h'] c2] eqn:Ep.
  destruct (ProcessDummyResult_ok _ _ _ _ _ _ Ep) as (Hq2 & Hh2 & Hcase).
  { intros x ->. rewrite Hh1. multiset_solver. }
  unfold ProcessDummyResult in Ep. destruct h as [x|].
  - destruct (Z.eqb_spec (t_Value c1 x) kDummyObj) as [Ed|Hnd]; injection Ep as <- <- <-.
    + apply Hsec; [by eapply quiet_trans|]. rewrite Hh1 in Hh2. unfold opt_ref in Hh2. multiset_solver.
    + exists (Some x), c1. split_and!; try done. by intros ? [= <-].
  - injection Ep as <- <- <-. apply Hsec; [done|]. rewrite Hh1. multiset_solver.
Qed.

Lemma lookup_ok key helper p a c :
  exists result c', Adapter_Lookup key helper p a c = Some (result, a, c') /\ quiet c c' /\
    held c' = opt_ref result ⊎ held c.
Proof. destruct (lookup_full key helper p a c) as (r & c' & E & Hq & Hh & _). eauto. Qed.

(** a lookup returns; it leaves the adapter and all capacities alone, and the caller gets
    exactly one new reference if there is a result and none otherwise, the one to a dummy
    entry having been given back. A proper entry of the target is returned as it is. After a
    miss, or after a dummy entry, the secondary cache is asked if the helper allows it, told
    whether there was a dummy entry, and the result holds the very object that it gives. The
    dummy object is never returned. *)
Theorem tiered_lookup key helper p a c :
  exists result c', Adapter_Lookup key helper p a c = Some (result, a, c') /\ quiet c c' /\
    held c' = opt_ref result ⊎ held c /\
    (forall h, result = Some h -> t_Value c' h <> kDummyObj) /\
    let '(found, c1) := t_Lookup c key helper p in
    match found with
    | Some x =>
        if t_Value c1 x =? kDummyObj then
          from_secondary key helper true
            (t_Release c1 x (match helper with Some h => IsSecondaryCacheCompatible h | None => false end)).2 result c'
        else result = Some x /\ c' = c1
    | None => from_secondary key helper false c1 result c'
    end.
Proof. apply lookup_full. Qed.

(** ** Reconfiguration *)

(** The ratio or the capacities have changed, and the accounts with them. *)
Lemma TInv_reconfigure mine outs a c c' r m sec :
  TInv mine outs a c -> ratio_ok r = true -> 0 <= pcap c' <= 2 ^ 62 -> 0 <= scap c' <= 2 ^ 62 ->
  reserved_usage_ a <= pcap c' -> sec = share r (reserved_usage_ a) -> defl c' = sec ->
  share r (pcap c') <= scap c' -> Reserves held mine m c' -> memory_used_ m = scap c' - sec ->
  TInv mine outs (set_sec_reserved sec (set_manager m (set_ratio r a))) c'.
Proof. intros [H1 H2 H3 H4 H5 [H6 H6'] H7 H8 H9 H10] Hr P1 P2 P3 P4 P5 P6 P7 P8. by split. Qed.

Lemma TInv_capacity mine outs a c c' m :
  TInv mine outs a c -> 0 <= pcap c' <= 2 ^ 62 -> 0 <= scap c' <= 2 ^ 62 -> reserved_usage_ a <= pcap c' ->
  defl c' = defl c -> share (sec_cache_res_ratio_ a) (pcap c') <= scap c' -> Reserves held mine m c' ->
  memory_used_ m = scap c' - sec_reserved_ a -> TInv mine outs (set_manager m a) c'.
Proof.
  intros [H1 H2 H3 H4 H5 [H6 H6'] H7 H8 H9 H10] P1 P2 P3 P4 P5 P6 P7. split; try done. by rewrite P4.
Qed.

Lemma set_sec_same (a : Adapter handle) m :
  set_sec_reserved (sec_reserved_ a) (set_manager m a) = set_manager m a.
Proof. by destruct a. Qed.

Lemma set_capacity_ok mine outs a c cap :
  TInv mine outs a c -> 0 <= cap <= 2 ^ 62 -> placeholder_usage_ a <= cap ->
  exists a' c', Adapter_SetCapacity cap a c = Some (a', c') /\ TInv mine outs a' c' /\ pcap c' = cap /\
    scap c' = share (sec_cache_res_ratio_ a) cap.
Proof.
  intros I Hc Hu. pose proof (TInv_sec _ _ _ _ I) as Hsec. destruct (ti_caps _ _ _ _ I) as [K1 K2].
  destruct (ti_reserved _ _ _ _ I) as [V1 V2]. pose proof (ti_ratio _ _ _ _ I) as Hr.
  pose proof (share_mono _ (reserved_usage_ a) cap Hr ltac:(lia) ltac:(lia) ltac:(lia)) as M1.
  pose proof (ti_sec _ _ _ _ I) as Es. pose proof (ti_used _ _ _ _ I) as Hm0.
  unfold Adapter_SetCapacity. rewrite (ti_distribute _ _ _ _ I), (ls_GetCapacity c).
  change (ok Status_OK) with true. cbv iota. set (S' := share (sec_cache_res_ratio_ a) cap) in *.
  rewrite Z.gtb_ltb. destruct (Z.ltb_spec S' (scap c)) as [Hlt|Hge].
  - unfold shrink. destruct (s_SetCapacity c S') as [s1 c1] eqn:E1.
    destruct (ls_SetCapacity _ _ _ _ E1) as (-> & C1 & C2 & C3 & C4).
    rewrite Z.gtb_ltb, (proj2 (Z.ltb_ge cap (placeholder_usage_ a)) Hu). rewrite <- Es.
    rewrite Z.sub_diag, (wrap_small 64 0), Z.sub_0_r, !(wrap_small 64 (scap c - S')) by (unfold is_uint; lia).
    destruct (update_pri_ok mine a c1 (scap c - S') false) as (s & a2 & c2 & -> & Ea & R2 & (Q1 & Q2 & Q3) & Hm).
    { eapply Reserves_held; [apply (ti_manager _ _ _ _ I)|done]. }
    { lia. }
    { lia. }
    cbn [mbind option_bind]. destruct (lt_SetCapacity c2 cap) as (T1 & T2 & T3 & T4).
    eexists _, _. split; [done|]. split; [|split; [done|congruence]]. rewrite Ea, set_sec_same.
    apply (TInv_capacity mine outs a c); (done || (rewrite ?T1, ?T2, ?T3, ?Q1, ?Q2, ?Q3, ?C1, ?C2, ?C3; try lia)).
    eapply Reserves_held; [exact R2|done].
  - unfold expand. destruct (lt_SetCapacity c cap) as (T1 & T2 & T3 & T4). set (c1 := t_SetCapacity c cap) in *.
    rewrite (wrap_small 64 (S' - scap c)) by (unfold is_uint; lia).
    destruct (update_pri_ok mine a c1 (S' - scap c) true) as (s & a2 & c2 & -> & Ea & R2 & (Q1 & Q2 & Q3) & Hm).
    { eapply Reserves_held; [apply (ti_manager _ _ _ _ I)|done]. }
    { lia. }
    { lia. }
    cbn [mbind option_bind]. destruct (s_SetCapacity c2 S') as [s3 c3] eqn:E3.
    destruct (ls_SetCapacity _ _ _ _ E3) as (_ & C1 & C2 & C3 & C4). cbn [snd].
    eexists _, _. split; [done|]. split; [|split; [congruence|done]].
    rewrite Ea. apply (TInv_capacity mine outs a c); (done || (rewrite ?C1, ?C2, ?C3, ?Q1, ?Q2, ?Q3, ?T1, ?T2, ?T3; try lia)).
    eapply Reserves_held; [exact R2|done].
Qed.

(** The change of a ratio for which the rounded shares fit the change of the capacity. *)
Definition ratio_change (r : double) (a : Adapter handle) (c : σ) : Prop :=
  let sec' := share r (pcap c) in
  let new := share r (reserved_usage_ a) in
  ratio_ok r = true /\
  if scap c <? sec' then sec_reserved_ a <= new <= scap c /\ new - sec_reserved_ a <= sec' - scap c
  else 0 <= sec_reserved_ a - new <= scap c - sec'.

Lemma update_ratio_ok mine outs a c r : TInv mine outs a c -> ratio_change r a c ->
  exists s a' c', UpdateCacheReservationRatio r a c = Some (s, a', c') /\ TInv mine outs a' c' /\
    scap c' = share r (pcap c) /\ pcap c' = pcap c.
Proof.
  intros I [Hr Hch]. pose proof (TInv_sec _ _ _ _ I) as Hsec. destruct (ti_caps _ _ _ _ I) as [K1 K2].
  destruct (ti_reserved _ _ _ _ I) as [V1 V2]. pose proof (ti_used _ _ _ _ I) as Hm0.
  pose proof (share_mono _ (reserved_usage_ a) (pcap c) Hr ltac:(lia) ltac:(lia) ltac:(lia)) as M1.
  unfold UpdateCacheReservationRatio. rewrite (ti_distribute _ _ _ _ I), (ls_GetCapacity c), (lt_GetCapacity c).
  change (ok Status_OK) with true. cbv iota. set (a1 := set_ratio r a).
  change (sec_cache_res_ratio_ a1) with r. change (reserved_usage_ a1) with (reserved_usage_ a).
  change (sec_reserved_ a1) with (sec_reserved_ a). rewrite Z.gtb_ltb.
  set (S' := share r (pcap c)) in *. set (new := share r (reserved_usage_ a)) in *.
  destruct (Z.ltb_spec (scap c) S') as [Hlt|Hge].
  - rewrite !(wrap_small 64 (new - sec_reserved_ a)), (wrap_small 64 (S' - scap c)), wrap_small by (unfold is_uint; lia).
    destruct (s_Deflate c (new - sec_reserved_ a)) as [sd c1] eqn:Ed.
    destruct (ls_Deflate _ _ _ _ Ed ltac:(lia) ltac:(rewrite (ti_defl _ _ _ _ I); lia)) as (_ & D1 & D2 & D3 & D4).
    destruct (update_pri_ok mine a1 c1 (S' - scap c - (new - sec_reserved_ a)) true) as (s & a2 & c2 & -> & Ea & R2 & (Q1 & Q2 & Q3) & Hm).
    { cbn. eapply Reserves_held; [apply (ti_manager _ _ _ _ I)|done]. }
    { cbn. lia. }
    { lia. }
    cbn [mbind option_bind]. destruct (s_SetCapacity c2 S') as [s3 c3] eqn:E3.
    destruct (ls_SetCapacity _ _ _ _ E3) as (_ & C1 & C2 & C3 & C4).
    eexists s3, _, c3. split; [done|]. split; [|split; [done|congruence]]. rewrite Ea.
    assert (pcap c3 = pcap c) as Ep by congruence. change (memory_used_ (pri_cache_res_ a1)) with (memory_used_ (pri_cache_res_ a)) in Hm.
    apply (TInv_reconfigure mine outs a c); (done || (rewrite ?Ep, ?C2, ?C3, ?Q3, ?D3, ?(ti_defl _ _ _ _ I); try lia)).
    eapply Reserves_held; [exact R2|done].
  - destruct (s_SetCapacity c S') as [s1 c1] eqn:E1. destruct (ls_SetCapacity _ _ _ _ E1) as (-> & C1 & C2 & C3 & C4).
    rewrite (wrap_small 64 (sec_reserved_ a - new)), (wrap_small 64 (scap c - S')), wrap_small by (unfold is_uint; lia).
    destruct (update_pri_ok mine a1 c1 (scap c - S' - (sec_reserved_ a - new)) false) as (s & a2 & c2 & -> & Ea & R2 & (Q1 & Q2 & Q3) & Hm).
    { cbn. eapply Reserves_held; [apply (ti_manager _ _ _ _ I)|done]. }
    { cbn. lia. }
    { lia. }
    cbn [mbind option_bind]. assert (sec_reserved_ a2 = sec_reserved_ a) as -> by (by rewrite Ea).
    rewrite (wrap_small 64 (sec_reserved_ a - new)) by (unfold is_uint; lia).
    destruct (s_Inflate c2 (sec_reserved_ a - new)) as [s3 c3] eqn:E3.
    destruct (ls_Inflate _ _ _ _ E3 ltac:(rewrite Q3, C3, (ti_defl _ _ _ _ I); lia)) as (_ & D1 & D2 & D3 & D4).
    eexists s3, _, c3. split; [done|]. split; [|split; congruence]. rewrite Ea.
    assert (pcap c3 = pcap c) as Ep by congruence. assert (scap c3 = S') as Es by congruence.
    change (memory_used_ (pri_cache_res_ a1)) with (memory_used_ (pri_cache_res_ a)) in Hm.
    apply (TInv_reconfigure mine outs a c); (done || (rewrite ?Ep, ?Es, ?D3, ?Q3, ?C3, ?(ti_defl _ _ _ _ I); try lia)).
    eapply Reserves_held; [exact R2|done].
Qed.

Lemma share_zero r : ratio_ok r = true -> share r 0 = 0.
Proof. by destruct r as [[]| | |[] m e]. Qed.

Lemma Adapter_new_ok policy c :
  0 <= pcap c <= 2 ^ 62 -> 0 <= scap c <= 2 ^ 62 -> defl c = 0 ->
  exists a c', Adapter_new policy true c = Some (a, c') /\
    (ratio_ok (sec_cache_res_ratio_ a) = true -> share (sec_cache_res_ratio_ a) (pcap c) <= scap c ->
     TInv (held c) [] a c').
Proof.
  intros Hp Hs Hd. unfold Adapter_new. rewrite (ls_GetCapacity c).
  assert (Reserves held (held c) (Manager_new false) c) as R0.
  { split; try done. cbn [dummy_handles_ Manager_new]. rewrite list_to_set_disj_nil. multiset_solver. }
  destruct (update_ok held (held c) (scap c) _ c R0) as (s & m & c1 & E & R1 & _ & Hm & _).
  { unfold kSizeDummyEntry. lia. }
  cbn [pri_cache_res_]. rewrite E. cbn [mbind option_bind]. eexists _, c1. split; [done|]. intros Hr Hsh.
  destruct (update_quiet _ _ _ _ _ _ E) as (Q1 & Q2 & Q3).
  split; cbn [sec_cache_res_ratio_ reserved_usage_ placeholder_usage_ sec_reserved_ pri_cache_res_ set_ratio set_manager distribute_cache_res_];
    rewrite ?Q1, ?Q2, ?Q3; try done; try lia.
  by rewrite share_zero.
Qed.

(** ** All histories

    The clients have references [mine]; [outs] are the placeholders they have inserted and not
    released, with their charges. A change of the capacity is one for which the comment in the
    source is made: not below the memory that placeholders reserve. *)
Inductive treach : gmultiset handle -> list (handle * Z) -> Adapter handle -> σ -> Prop :=
| tr_new policy c a c' : Adapter_new policy true c = Some (a, c') ->
    0 <= pcap c <= 2 ^ 62 -> 0 <= scap c <= 2 ^ 62 -> defl c = 0 ->
    ratio_ok (sec_cache_res_ratio_ a) = true -> share (sec_cache_res_ratio_ a) (pcap c) <= scap c ->
    treach (held c) [] a c'
| tr_placeholder mine outs a c key hp n p compressed type s0 h c0 s a' c' : treach mine outs a c ->
    t_Insert c key nullptr hp n true p = (s0, h, c0) ->
    (forall h0, h = Some h0 -> charges outs + t_GetCharge c0 h0 <= 2 ^ 62) ->
    Adapter_Insert key nullptr hp n true p compressed type a c = Some (s, h, a', c') ->
    treach (if ok s0 then opt_ref h ⊎ mine else mine)
      (match h with Some h => if ok s0 then (h, t_GetCharge c0 h) :: outs else outs | None => outs end) a' c'
| tr_release mine outs outs' a c h g b a' c' : treach mine outs a c -> outs ≡ₚ (h, g) :: outs' -> h ∈ mine ->
    t_Value c h = nullptr -> t_GetCharge c h = g -> Adapter_Release h true a c = Some (b, a', c') ->
    treach (mine ∖ {[+ h +]}) outs' a' c'
| tr_insert mine outs a c key v hp n w p compressed type s h a' c' : treach mine outs a c -> v <> nullptr ->
    Adapter_Insert key v hp n w p compressed type a c = Some (s, h, a', c') ->
    treach ((if ok s && w then opt_ref h else ∅) ⊎ mine) outs a' c'
| tr_lookup mine outs a c key helper p r a' c' : treach mine outs a c ->
    Adapter_Lookup key helper p a c = Some (r, a', c') -> treach (opt_ref r ⊎ mine) outs a' c'
| tr_release_other mine outs a c h e b a' c' : treach mine outs a c -> h ∈ mine ->
    t_Value c h <> nullptr \/ e = false -> Adapter_Release h e a c = Some (b, a', c') ->
    treach (mine ∖ {[+ h +]}) outs a' c'
| tr_capacity mine outs a c cap a' c' : treach mine outs a c -> 0 <= cap <= 2 ^ 62 ->
    placeholder_usage_ a <= cap -> Adapter_SetCapacity cap a c = Some (a', c') -> treach mine outs a' c'
| tr_ratio mine outs a c r s a' c' : treach mine outs a c -> ratio_change r a c ->
    UpdateCacheReservationRatio r a c = Some (s, a', c') -> treach mine outs a' c'
| tr_policy mine outs a c p s a' : treach mine outs a c -> UpdateAdmissionPolicy p a = (s, a') ->
    treach mine outs a' c.

Lemma treach_ok mine outs a c : treach mine outs a c -> TInv mine outs a c.
Proof.
  induction 1 as [policy c a c' E Hp Hs Hd Hr Hsh
    |mine outs a c key hp n p compressed type s0 h c0 s a' c' _ I Et Hb E
    |mine outs outs' a c h g b a' c' _ I Hperm Hin Hv Hg E
    |mine outs a c key v hp n w p compressed type s h a' c' _ I Hv E
    |mine outs a c key helper p r a' c' _ I E
    |mine outs a c h e b a' c' _ I Hin Hv E|mine outs a c cap a' c' _ I Hc Hu E
    |mine outs a c r s a' c' _ I Hch E|mine outs a c p s a' _ I E].
  - destruct (Adapter_new_ok policy c Hp Hs Hd) as (a1 & c1 & E1 & HI). rewrite E1 in E. injection E as <- <-. auto.
  - destruct (insert_placeholder_ok mine outs a c key hp n p compressed type s0 h c0 I Et Hb) as (s1 & a1 & c1 & E1 & HI).
    rewrite E1 in E. injection E as <- <- <-. destruct (ok s0).
    + by destruct HI as (h0 & -> & HI).
    + destruct HI as [_ HI]. by destruct h.
  - destruct (release_placeholder_ok mine outs outs' a c h g I Hperm Hin Hv Hg) as (b1 & a1 & c1 & E1 & HI).
    rewrite E1 in E. by injection E as <- <- <-.
  - destruct (insert_other_ok a c key v hp n w p compressed type Hv) as (s1 & h1 & c1 & E1 & Hq & _ & Hh).
    rewrite E1 in E. injection E as <- <- <- <-. eapply TInv_frame; [done|done|].
    rewrite Hh, (v_held _ _ _ _ (ti_manager _ _ _ _ I)). multiset_solver.
  - destruct (lookup_ok key helper p a c) as (r1 & c1 & E1 & Hq & Hh).
    rewrite E1 in E. injection E as <- <- <-. eapply TInv_frame; [done|done|].
    rewrite Hh, (v_held _ _ _ _ (ti_manager _ _ _ _ I)). multiset_solver.
  - unfold Adapter_Release in E. replace (e && (t_Value c h =? nullptr)) with false in E
      by (destruct Hv as [Hv| ->]; [by rewrite (proj2 (Z.eqb_neq _ _) Hv), andb_false_r|done]).
    cbn [andb mbind option_bind] in E. destruct (t_Release c h e) as [b1 c1] eqn:Er. injection E as <- <- <-.
    destruct (lt_Release _ _ _ _ _ Er) as [Hq Hh]. pose proof (v_held _ _ _ _ (ti_manager _ _ _ _ I)) as Hh1.
    eapply TInv_frame; [done|done|]. rewrite Hh, Hh1 by (rewrite Hh1; multiset_solver). multiset_solver.
  - destruct (set_capacity_ok mine outs a c cap I Hc Hu) as (a1 & c1 & E1 & HI & _). rewrite E1 in E. by injection E as <- <-.
  - destruct (update_ratio_ok mine outs a c r I Hch) as (s1 & a1 & c1 & E1 & HI & _). rewrite E1 in E. by injection E as <- <- <-.
  - injection E as <- <-. by destruct I.
Qed.

(** C10: the accounting of a cache that distributes reservations, under histories of placeholders
    inserted and released, entries inserted, looked up and released, and changes of the
    capacity, of the ratio and of the policy. The usage is the sum of the charges of the
    outstanding placeholders; what has been distributed of it is not more than that nor than
    the capacity; the share of the secondary cache is this times the ratio, rounded to an
    integer, the secondary cache is deflated by exactly the share, and the reservation in the
    target is its capacity without the share; so the pinned usage reported is the share. When
    no placeholder is outstanding, the assertions of the destructor hold. Releasing a
    placeholder and changing the capacity return.

    The histories [treach] are not all histories. Capacities and the charges of the outstanding
    placeholders together are at most [2^62]. At the construction nothing is deflated, and the
    secondary cache has at least its share of the target's capacity. The capacity is not set
    below the outstanding reservations. The ratio is changed only to a valid one for which
    [ratio_change] holds: the change of the rounded share is not more than the change of the
    capacity of the secondary cache, and when the ratio grows, that share is not more than the
    capacity the secondary cache has before the change. Changes outside of this, such as
    raising the ratio again from zero while there are reservations, are those for which the
    comment at [UpdateCacheReservationRatio] announces accumulated errors of the rounding, or
    says that they are not supported; nothing is said about them here. *)
Theorem tiered_accounting mine outs a c (Hr : treach mine outs a c) :
  placeholder_usage_ a = charges outs /\
  0 <= reserved_usage_ a <= placeholder_usage_ a /\ reserved_usage_ a <= t_GetCapacity c /\
  sec_reserved_ a = share (sec_cache_res_ratio_ a) (reserved_usage_ a) /\ defl c = sec_reserved_ a /\
  GetTotalMemoryUsed (pri_cache_res_ a) = scap c - sec_reserved_ a /\
  GetSecondaryCachePinnedUsage a c = (Status_OK, sec_reserved_ a) /\
  (outs = [] -> placeholder_usage_ a = 0 /\ reserved_usage_ a = 0 /\
     GetTotalMemoryUsed (pri_cache_res_ a) = scap c) /\
  (forall h g outs', outs ≡ₚ (h, g) :: outs' -> h ∈ mine -> t_Value c h = nullptr -> t_GetCharge c h = g ->
     exists b a' c', Adapter_Release h true a c = Some (b, a', c')) /\
  (forall cap, placeholder_usage_ a <= cap <= 2 ^ 62 ->
     exists a' c', Adapter_SetCapacity cap a c = Some (a', c')).
Proof.
  apply treach_ok in Hr as I. pose proof (TInv_sec _ _ _ _ I) as Hsec. destruct (ti_caps _ _ _ _ I) as [K1 K2].
  destruct (ti_usage _ _ _ _ I) as (U1 & U2 & U3). destruct (ti_reserved _ _ _ _ I) as [V1 V2].
  split_and!; try done; try lia.
  - by rewrite lt_GetCapacity.
  - apply (ti_sec _ _ _ _ I).
  - apply (ti_defl _ _ _ _ I).
  - apply (ti_used _ _ _ _ I).
  - unfold GetSecondaryCachePinnedUsage, GetTotalMemoryUsed. rewrite (ti_distribute _ _ _ _ I), ls_GetCapacity, (ti_used _ _ _ _ I).
    cbn [ok]. f_equal. rewrite wrap_small by (unfold is_uint; lia). lia.
  - intros ->. cbn in U1. assert (reserved_usage_ a = 0) as E0 by lia. split_and!; [done|done|].
    unfold GetTotalMemoryUsed. rewrite (ti_used _ _ _ _ I), (ti_sec _ _ _ _ I), E0, share_zero by apply (ti_ratio _ _ _ _ I). lia.
  - intros h g outs' Hp Hin Hv Hg. destruct (release_placeholder_ok mine outs outs' a c h g I Hp Hin Hv Hg) as (b & a' & c' & -> & _). eauto.
  - intros cap Hcap. destruct (set_capacity_ok mine outs a c cap I ltac:(lia) ltac:(lia)) as (a' & c' & -> & _). eauto.
Qed.
End Proofs.

(** ** An instance

    A target without entries of its own that remembers the values and charges of the handles
    it has given out, and a secondary cache that knows one object. *)

Record ToyTiers : Type := mkToy {
  toy_values : gmap nat (Z * Z);
  toy_held : gmultiset nat;
  toy_pcap : Z;
  toy_scap : Z;
  toy_defl : Z;
}.

Definition toy_new (c : ToyTiers) : nat := fresh (dom (toy_held c)).

Definition toy_add (v n : Z) (c : ToyTiers) : ToyTiers :=
  mkToy (<[toy_new c := (v, Z.max 0 n)]> (toy_values c)) ({[+ toy_new c +]} ⊎ toy_held c)
    (toy_pcap c) (toy_scap c) (toy_defl c).

Definition toy_caps (p s d : Z) (c : ToyTiers) : ToyTiers := mkToy (toy_values c) (toy_held c) p s d.

Definition toy_object : Z := 7.

Definition plain_helper : CacheItemHelper := mkCacheItemHelper None (Some 1) None None 0.

#[local] Instance toy_tiers : TieredCaches ToyTiers nat unit := {
  t_Insert c k v hp n w p := if w then (Status_OK, Some (toy_new c), toy_add v n c) else (Status_OK, None, c);
  t_Lookup c k hp p := (None, c);
  t_Release c h e :=
    (true, mkToy (toy_values c) (toy_held c ∖ {[+ h +]}) (toy_pcap c) (toy_scap c) (toy_defl c));
  t_CreateStandalone c k v hp n a := (Some (toy_new c), toy_add v n c);
  t_Value c h := default 0 (fst <$> toy_values c !! h);
  t_GetCharge c h := default 0 (snd <$> toy_values c !! h);
  t_GetCacheItemHelper c h := plain_helper;
  t_GetCapacity c := toy_pcap c;
  t_SetCapacity c n := toy_caps n (toy_scap c) (toy_defl c) c;
  s_Insert c k v hp f := (Status_OK, c);
  s_InsertSaved c k v t := (Status_OK, c);
  s_Lookup c k hp w adv := (Some tt, false, c);
  s_Value _ := toy_object;
  s_Size _ := 100;
  s_SupportForceErase := true;
  s_GetCapacity c := (Status_OK, toy_scap c);
  s_SetCapacity c n := (Status_OK, toy_caps (toy_pcap c) n (toy_defl c) c);
  s_Deflate c n := (Status_OK, toy_caps (toy_pcap c) (toy_scap c) (toy_defl c + n) c);
  s_Inflate c n := (Status_OK, toy_caps (toy_pcap c) (toy_scap c) (toy_defl c - n) c);
  unique_key c := [];
  placeholder_helper := plain_helper;
  kNoopCacheItemHelper := plain_helper;
  without_secondary_compat h := h;
  kDummyObj := 1;
}.

Lemma toy_add_ok v n c : same_caps toy_pcap toy_scap toy_defl c (toy_add v n c) /\
  (forall h, h ∈ toy_held c -> t_Value (toy_add v n c) h = t_Value c h) /\
  t_Value (toy_add v n c) (toy_new c) = v /\ 0 <= t_GetCharge (toy_add v n c) (toy_new c).
Proof.
  split; [done|]. pose proof (is_fresh (dom (toy_held c))) as Hf. change (fresh (dom (toy_held c))) with (toy_new c) in Hf.
  cbn [t_Value t_GetCharge toy_tiers toy_add toy_values]. rewrite lookup_insert_eq. split_and!; [|done|cbn; lia].
  intros h Hh. rewrite lookup_insert_ne; [done|]. intros E. apply Hf. rewrite E. by apply gmultiset_elem_of_dom.
Qed.

#[local] Instance toy_laws : TieredLaws toy_tiers toy_held toy_pcap toy_scap toy_defl.
Proof.
  split; try (intros; by unfold same_caps); try (intros * [= <- <-]; by unfold same_caps).
  - intros c k v hp n w p s h c' E. cbn in E. destruct (toy_add_ok v n c) as (H1 & H2 & H3 & H4).
    destruct w; injection E as <- <- <-; split_and!; try done. cbn [andb]. by exists (toy_new c).
  - intros c k hp p h c' [= <- <-]. split; [done|]. multiset_solver.
  - intros c k v hp n h c' [= <- <-]. destruct (toy_add_ok v n c) as (H1 & H2 & H3 & H4). split; [done|]. by exists (toy_new c).
  - intros c k hp w adv h kept c' [= <- <- <-]. by split.
Qed.

(** A budget of ten MiB of which three belong to the secondary cache. *)
Definition toy_start : ToyTiers := mkToy ∅ ∅ 10485760 3145728 0.

(** A placeholder of two and a half MiB: two of them are distributed, and the secondary cache
    gets its share of these. *)
Lemma toy_run : exists a c, treach toy_held toy_pcap toy_scap toy_defl {[+ 12%nat +]} [(12%nat, 2621440)] a c /\
  reserved_usage_ a = 2097152 /\ sec_reserved_ a = 629145 /\ toy_defl c = 629145.
Proof.
  destruct (Adapter_new kAdmPolicyPlaceholder true toy_start) as [[a c]|] eqn:E1; [|by vm_compute in E1].
  pose proof (tr_new toy_held toy_pcap toy_scap toy_defl kAdmPolicyPlaceholder toy_start a c E1) as T1.
  vm_compute in E1. injection E1 as <- <-.
  specialize (T1 ltac:(cbn; lia) ltac:(cbn; lia) ltac:(done) ltac:(by vm_compute) ltac:(by vm_compute)).
  match type of T1 with treach _ _ _ _ _ _ ?a ?c =>
    destruct (Adapter_Insert [] nullptr plain_helper 2621440 true LOW [] 0 a c) as [[[[s h] a'] c']|] eqn:E2;
    [|by vm_compute in E2];
    destruct (t_Insert c [] nullptr plain_helper 2621440 true LOW) as [[s0 h0] c0] eqn:E3 end.
  assert (h = h0) as ->. { vm_compute in E2, E3. by injection E2 as _ <- _ _; injection E3 as _ <- _. }
  pose proof (tr_placeholder toy_held toy_pcap toy_scap toy_defl _ _ _ _ [] plain_helper 2621440 LOW [] 0 s0 h0 c0 s a' c' T1 E3) as T2.
  vm_compute in E2. injection E2 as <- _ <- <-. vm_compute in E3. injection E3 as <- <- <-.
  eexists _, _. split.
  { replace ({[+ 12%nat +]} : gmultiset nat) with (opt_ref (Some 12%nat) ⊎ toy_held toy_start)
      by (unfold opt_ref; cbn [toy_held toy_start]; multiset_solver).
    apply T2; [|vm_compute; reflexivity]. intros h1 [= <-]. by vm_compute. }
  by vm_compute.
Qed.

Lemma tiered_accounting_witness :
  exists a c, treach toy_held toy_pcap toy_scap toy_defl {[+ 12%nat +]} [(12%nat, 2621440)] a c /\
    placeholder_usage_ a = 2621440 /\ GetSecondaryCachePinnedUsage a c = (Status_OK, 629145).
Proof.
  destruct toy_run as (a & c & Hr & H1 & H2 & H3). exists a, c.
  destruct (tiered_accounting toy_held toy_pcap toy_scap toy_defl _ _ a c Hr) as (E1 & _ & _ & _ & _ & _ & E2 & _).
  split; [exact Hr|]. split; [exact E1|]. rewrite E2, H2. reflexivity.
Defined.

(** A miss in the target; the object of the secondary cache is returned. *)
Lemma tiered_lookup_witness :
  let a := mkAdapter kAdmPolicyPlaceholder false (Manager_new false) d0 0 0 0 in
  exists h c', Adapter_Lookup [] (Some plain_helper) LOW a toy_start = Some (Some h, a, c') /\
    toy_held c' = {[+ h +]} /\ t_Value c' h = toy_object.
Proof.
  intros a.
  destruct (tiered_lookup toy_held toy_pcap toy_scap toy_defl [] (Some plain_helper) LOW a toy_start)
    as (r & c' & E & _ & Hh & _ & Hs).
  destruct r as [h|]; [|vm_compute in E; done].
  exists h, c'. split; [exact E|]. split; [|exact Hs]. rewrite Hh. unfold opt_ref. cbn [toy_held toy_start]. multiset_solver.
Defined.
