(* ===== verification/LruFrame.v ===== *)
(** * What every operation of a shard leaves alone

    The table of a shard never shrinks, a handle keeps its key and its hash for life, and only
    [SetCapacity] and [SetStrictCapacityLimit] change the limits. *)

From S2P Require Import Prelude.
From S2P Require Import Status.
From S2P Require Import Slice.
From S2P Require Import Double.
From S2P Require Import LruState.
From S2P Require Import LruTable.
From S2P Require Import LruShard.
From S2P Require Import LruSystem.

Abbreviation table_bits w := (length_bits_ (table_ (shard w))).

(** The new handles of [w'] have keys and hashes that satisfy [P]. *)
Record grows (P : Slice -> Z -> Prop) (w w' : World) : Prop := {
  g_bits : table_bits w <= table_bits w';
  g_cells : forall l e', heap w' !! l = Some e' ->
    (exists e, heap w !! l = Some e /\ key e = key e' /\ hash e = hash e') \/ P (key e') (hash e');
  g_capacity : capacity_ (shard w') = capacity_ (shard w);
  g_strict : strict_capacity_limit_ (shard w') = strict_capacity_limit_ (shard w);
}.

#[global] Instance grows_refl P : Reflexive (grows P).
Proof. intros w. split; try done. eauto. Qed.

#[global] Instance grows_trans P : Transitive (grows P).
Proof.
  intros w1 w2 w3 [B1 C1 K1 S1] [B2 C2 K2 S2]. split; [lia| |congruence..].
  intros l e' He. destruct (C2 l e' He) as [(e & He2 & E1 & E2)|]; [|by right].
  destruct (C1 l e He2) as [(e0 & ? & ? & ?)|]; [left; exists e0; split_and!; congruence|].
  right. by rewrite <- E1, <- E2.
Qed.

Definition keeps {A} (P : Slice -> Z -> Prop) (m : M A) : Prop :=
  forall w a w', m w = Some (a, w') -> grows P w w'.

Section Keeps.
Context (P : Slice -> Z -> Prop).

Lemma keeps_bind {A B} (m : M A) (k : A -> M B) :
  keeps P m -> (forall a, keeps P (k a)) -> keeps P (x ← m; k x).
Proof.
  intros Hm Hk w b w' E. unfold mbind, M_bind in E. destruct (m w) as [[a w1]|] eqn:E1; [|done].
  transitivity w1; [by eapply Hm|by eapply Hk].
Qed.

Lemma keeps_ret {A} (a : A) : keeps P (mret a).
Proof. by intros w b w' [= <- <-]. Qed.

Lemma keeps_undefined {A} : keeps P (@undefined A).
Proof. by intros w b w' E. Qed.

Lemma keeps_load p : keeps P (load p).
Proof. intros w b w' E. unfold load in E. destruct p; [|done]. destruct (_ !! _); [|done]. by injection E as <- <-. Qed.

Lemma keeps_get : keeps P get.
Proof. by intros w b w' [= <- <-]. Qed.

Lemma keeps_heap_size : keeps P heap_size.
Proof. by intros w b w' [= <- <-]. Qed.

Lemma keeps_emit ev : keeps P (emit ev).
Proof. intros w b w' [= <- <-]. split; try done. cbn. eauto. Qed.

Lemma keeps_put f :
  (forall s, length_bits_ (table_ (f s)) = length_bits_ (table_ s) /\ capacity_ (f s) = capacity_ s /\
     strict_capacity_limit_ (f s) = strict_capacity_limit_ s) ->
  keeps P (put f).
Proof.
  intros Hf w b w' [= <- <-]. destruct (Hf (shard w)) as (H1 & H2 & H3). split; cbn; [lia| |done..]. eauto.
Qed.

Lemma grows_update w l e e0 : heap w !! l = Some e -> key e0 = key e -> hash e0 = hash e ->
  grows P w (set_heap (<[l := e0]> (heap w)) w).
Proof.
  intros He E1 E2. split; try done. cbn. intros l' e' Hl'. rewrite lookup_insert in Hl'. case_decide as D.
  - left. exists e. injection Hl' as <-. by rewrite <- D, E1, E2.
  - left. eauto.
Qed.

Lemma keeps_update p f : (forall e, key (f e) = key e /\ hash (f e) = hash e) -> keeps P (update p f).
Proof.
  intros Hf w b w' E. unfold update in E. destruct p as [l|]; [|done].
  destruct (heap w !! l) as [e|] eqn:He; [|done]. injection E as <- <-. destruct (Hf e). by eapply grows_update.
Qed.

Lemma keeps_free p : keeps P (free p).
Proof.
  intros w b w' E. unfold free in E. destruct p as [l|]; [|by injection E as <- <-].
  destruct (heap w !! l) as [e|]; [|done]. injection E as <- <-. split; try done. cbn.
  intros l' e' Hl'. apply lookup_delete_Some in Hl' as [_ ?]. left. eauto.
Qed.

Lemma keeps_malloc e : P (key e) (hash e) -> keeps P (malloc e).
Proof.
  intros HP w b w' E. unfold malloc in E. injection E as <- <-. split; try done. cbn.
  intros l' e' Hl'. rewrite lookup_insert in Hl'. case_decide; [|left; eauto]. injection Hl' as <-. by right.
Qed.
End Keeps.

Create HintDb keeps.
#[export] Hint Resolve keeps_ret keeps_undefined keeps_load keeps_get keeps_heap_size keeps_emit keeps_free : keeps.

(** Through the structure of a computation. *)
Ltac keep :=
  repeat first
    [ solve [eauto with keeps]
    | apply keeps_bind; [|intros ?]
    | solve [apply keeps_put; intros ?; cbn; split_and!; reflexivity]
    | solve [apply keeps_update; intros ?; split; reflexivity]
    | progress cbn beta
    | match goal with
      | |- keeps _ (match ?x with _ => _ end) => destruct x
      | |- keeps _ (if ?x then _ else _) => destruct x
      end ].

Section Ops.
Context (P : Slice -> Z -> Prop).

Lemma keeps_read_slot sl : keeps P (read_slot sl).
Proof. unfold read_slot. keep. Qed.
#[local] Hint Resolve keeps_read_slot : keeps.

Lemma keeps_write_slot sl p : keeps P (write_slot sl p).
Proof. unfold write_slot. keep. Qed.
#[local] Hint Resolve keeps_write_slot : keeps.

Lemma keeps_FindPointer_loop fuel k h : forall sl, keeps P (FindPointer_loop fuel k h sl).
Proof. induction fuel as [|fuel IH]; intros sl; cbn [FindPointer_loop]; keep. Qed.

#[local] Hint Resolve keeps_FindPointer_loop : keeps.

Lemma keeps_FindPointer k h : keeps P (FindPointer k h).
Proof. unfold FindPointer. keep. Qed.
#[local] Hint Resolve keeps_FindPointer : keeps.

Lemma keeps_Table_Lookup k h : keeps P (Table_Lookup k h).
Proof. unfold Table_Lookup. keep. Qed.

(** Moving the handles does not touch the shard. *)
Lemma Resize_chain_frame fuel bits : forall h nl w a w',
  Resize_chain fuel bits h nl w = Some (a, w') -> grows P w w' /\ shard w' = shard w.
Proof.
  induction fuel as [|fuel IH]; intros h nl w a w' E; cbn [Resize_chain] in E; [done|].
  destruct h as [l|]; [|by injection E as <- <-].
  unfold mbind, M_bind, load in E. destruct (heap w !! l) as [e|] eqn:He; [|done].
  destruct (nl !! _) as [p|]; [|done]. unfold update in E. rewrite He in E.
  apply IH in E as [E1 E2]. split; [|done]. etransitivity; [|exact E1]. by eapply grows_update.
Qed.

Lemma Resize_loop_frame fuel bits old : forall nl w a w',
  Resize_loop fuel bits old nl w = Some (a, w') -> grows P w w' /\ shard w' = shard w.
Proof.
  induction old as [|h old IH]; intros nl w a w' E; cbn [Resize_loop] in E; [by injection E as <- <-|].
  unfold mbind, M_bind in E. destruct (Resize_chain fuel bits h nl w) as [[nl1 w1]|] eqn:E1; [|done].
  apply Resize_chain_frame in E1 as [E1 S1]. apply IH in E as [E2 S2].
  split; [by transitivity w1|congruence].
Qed.

Lemma keeps_Resize : keeps P Resize.
Proof.
  intros w a w' E. unfold Resize, mbind, M_bind, get in E.
  destruct (_ >=? max_length_bits_ _); [by injection E as <- <-|].
  destruct (_ >=? 31); [by injection E as <- <-|]. unfold heap_size in E.
  destruct (Resize_loop _ _ _ _ w) as [[nl w1]|] eqn:E1; [|done].
  apply Resize_loop_frame in E1 as [[B C K T] S1]. injection E as <- <-.
  split; cbn; [lia|done|by rewrite S1..].
Qed.
#[local] Hint Resolve keeps_Resize : keeps.

Lemma keeps_Table_Insert l : keeps P (Table_Insert l).
Proof. unfold Table_Insert. keep. Qed.
#[local] Hint Resolve keeps_Table_Insert : keeps.

Lemma keeps_Table_Remove k h : keeps P (Table_Remove k h).
Proof. unfold Table_Remove. keep. Qed.
#[local] Hint Resolve keeps_Table_Remove : keeps.

Lemma keeps_LRU_Remove l : keeps P (LRU_Remove l).
Proof. unfold LRU_Remove. keep. Qed.
#[local] Hint Resolve keeps_LRU_Remove : keeps.

Lemma keeps_Maintain_high fuel : keeps P (Maintain_high fuel).
Proof. induction fuel as [|fuel IH]; cbn [Maintain_high]; keep. Qed.

Lemma keeps_Maintain_low fuel : keeps P (Maintain_low fuel).
Proof. induction fuel as [|fuel IH]; cbn [Maintain_low]; keep. Qed.
#[local] Hint Resolve keeps_Maintain_high keeps_Maintain_low : keeps.

Lemma keeps_LRU_Insert l : keeps P (LRU_Insert l).
Proof.
  unfold LRU_Insert, LRU_Insert_high, LRU_Insert_low, LRU_Insert_bottom, link_between, MaintainPoolSize. keep.
Qed.
#[local] Hint Resolve keeps_LRU_Insert : keeps.

Lemma keeps_evict_one l : keeps P (evict_one l).
Proof. unfold evict_one. keep. Qed.
#[local] Hint Resolve keeps_evict_one : keeps.

Lemma keeps_EvictFromLRU_loop fuel charge : forall deleted, keeps P (EvictFromLRU_loop fuel charge deleted).
Proof. induction fuel as [|fuel IH]; intros deleted; cbn [EvictFromLRU_loop]; keep. Qed.
#[local] Hint Resolve keeps_EvictFromLRU_loop : keeps.

Lemma keeps_EvictFromLRU charge deleted : keeps P (EvictFromLRU charge deleted).
Proof. unfold EvictFromLRU. keep. Qed.
#[local] Hint Resolve keeps_EvictFromLRU : keeps.

Lemma keeps_EraseUnRef_loop fuel : forall deleted, keeps P (EraseUnRefEntries_loop fuel deleted).
Proof. induction fuel as [|fuel IH]; intros deleted; cbn [EraseUnRefEntries_loop]; keep. Qed.
#[local] Hint Resolve keeps_EraseUnRef_loop : keeps.

Lemma keeps_EraseUnRef : keeps P EraseUnRefEntries_locked.
Proof. unfold EraseUnRefEntries_locked. keep. Qed.

Lemma keeps_detach e deleted : keeps P (detach e deleted).
Proof. unfold detach. keep. Qed.
#[local] Hint Resolve keeps_detach : keeps.

Lemma keeps_InsertItem e want : keeps P (InsertItem_locked e want).
Proof. unfold InsertItem_locked. keep. Qed.
#[local] Hint Resolve keeps_InsertItem : keeps.

(** A handle that is written back as it was read, up to [f]. *)
Lemma keeps_store {A} l f (k : LRUHandle -> M A) :
  (forall e, key (f e) = key e /\ hash (f e) = hash e) -> (forall e, keeps P (k e)) ->
  keeps P (eh ← load (Some l); _ ← update (Some l) (fun _ => f eh); k eh).
Proof.
  intros Hf Hk w a w' E. unfold mbind, M_bind, load, update in E.
  destruct (heap w !! l) as [e|] eqn:He; [|done]. rewrite He in E. destruct (Hf e).
  etransitivity; [|exact (Hk _ _ _ _ E)]. by eapply grows_update.
Qed.

Lemma keeps_Release l erase : keeps P (Release_locked l erase).
Proof.
  cbv beta iota zeta delta [Release_locked Unref].
  refine (keeps_store l (fun e => set_refs (u32 (refs e - 1)) e) _ _ _); [done|].
  intros e. keep.
Qed.
#[local] Hint Resolve keeps_Table_Lookup keeps_Release keeps_EraseUnRef : keeps.

Lemma keeps_MaintainPoolSize : keeps P MaintainPoolSize.
Proof. unfold MaintainPoolSize. keep. Qed.
#[local] Hint Resolve keeps_MaintainPoolSize : keeps.

Lemma keeps_Free l : keeps P (Free l).
Proof. unfold Free. keep. Qed.
#[local] Hint Resolve keeps_Free : keeps.

Lemma keeps_callback env l : keeps P (call_eviction_callback env l).
Proof.
  intros w a w' E. unfold call_eviction_callback in E. destruct (heap w !! l); [|done].
  destruct (eviction_callback_ env); injection E as <- <-; [|done]. split; try done. cbn. eauto.
Qed.
#[local] Hint Resolve keeps_callback : keeps.

Lemma keeps_Insert env k h v hp charge want prio : P k h ->
  keeps P (Shard_Insert_locked env k h v hp charge want prio).
Proof.
  intros HP. unfold Shard_Insert_locked, CreateHandle. apply keeps_bind; [|intros ?; keep].
  - keep. by apply keeps_malloc.
  - apply keeps_update. intros e. by destruct prio.
Qed.

Lemma keeps_Standalone env k h v hp charge allow : P k h ->
  keeps P (CreateStandalone_locked env k h v hp charge allow).
Proof.
  intros HP. unfold CreateStandalone_locked, CreateHandle. apply keeps_bind; [|intros ?; keep].
  keep. by apply keeps_malloc.
Qed.

Lemma keeps_Lookup k h : keeps P (Shard_Lookup k h).
Proof. unfold Shard_Lookup. keep. Qed.

Lemma keeps_Erase k h : keeps P (Erase_locked k h).
Proof. unfold Erase_locked. keep. Qed.
#[local] Hint Resolve keeps_Lookup keeps_Erase : keeps.

(** The key and hash of the handle that an operation makes. *)
Definition makes (o : Op) (k : Slice) (h : Z) : Prop :=
  match o with
  | OInsert k' h' _ _ _ _ _ | OStandalone k' h' _ _ _ _ => k = k' /\ h = h'
  | _ => False
  end.

(** Operations that leave the limits alone. *)
Definition plain_op (o : Op) : bool :=
  match o with OSetCapacity _ | OSetStrict _ => false | _ => true end.
End Ops.

#[export] Hint Resolve keeps_EvictFromLRU keeps_MaintainPoolSize keeps_callback keeps_Free keeps_Lookup
  keeps_Release keeps_Erase keeps_EraseUnRef : keeps.

Lemma exec_keeps env o : plain_op o = true -> keeps (makes o) (exec env o).
Proof.
  destruct o; intros Hp; try discriminate Hp; cbn [exec];
    unfold Shard_Ref, SetHighPriorityPoolRatio, SetLowPriorityPoolRatio, NotifyEvicted_one;
    (apply keeps_bind; [|intros ?; keep]); (by apply keeps_Insert) || (by apply keeps_Standalone) || keep.
Qed.

(** Every step of a shard. *)
Record moves_on (o : Op) (w w' : World) : Prop := {
  mo_bits : table_bits w <= table_bits w';
  mo_cells : forall l e', heap w' !! l = Some e' ->
    (exists e, heap w !! l = Some e /\ key e = key e' /\ hash e = hash e') \/ makes o (key e') (hash e');
  mo_capacity : capacity_ (shard w') =
    match o with OSetCapacity c => c | _ => capacity_ (shard w) end;
  mo_strict : strict_capacity_limit_ (shard w') =
    match o with OSetStrict b => b | _ => strict_capacity_limit_ (shard w) end;
}.

Lemma step_moves_on env o s r s' : sys_step env o s = Some (r, s') -> moves_on o (s_world s) (s_world s').
Proof.
  unfold sys_step. destruct (exec env o (s_world s)) as [[[r0 out] w']|] eqn:E; [|done].
  intros [= <- <-]. cbn [s_world]. destruct (plain_op o) eqn:Hp.
  - destruct (exec_keeps env o Hp _ _ _ E) as [B C K T].
    split; [done|done|by destruct o|by destruct o].
  - destruct o; try discriminate Hp; cbn [exec] in E; unfold mbind, M_bind in E.
    + unfold SetCapacity_locked, mbind, M_bind, put in E. cbn in E.
      destruct (EvictFromLRU 0 [] _) as [[l w1]|] eqn:E1; [|done]. injection E as _ _ <-.
      destruct (keeps_EvictFromLRU (fun _ _ => False) 0 [] _ _ _ E1) as [B C K T].
      cbn in *. split; [done| |done..]. intros l' e' Hl'. destruct (C l' e' Hl') as [|[]]. by left.
    + unfold SetStrictCapacityLimit, put in E. injection E as _ _ <-. split; try done. cbn. eauto.
Qed.
