(* ===== verification/ShardedCache.v ===== *)
(** * The sharded cache

    [cache/sharded_cache.h] and [.cc] with [LRUCache] of [cache/lru_cache.cc]: a power of two
    of shards, each an LRU cache with a lock of its own; the hash of a key selects its shard.
    A handle is given with the shard in whose memory it lies, and what the code reads from the
    handle decides which shard it calls: calling another shard with it is undefined.

    The shards are the systems of [LruSystem], so that a call is one block under the lock of a
    shard and releases after it are steps of their own. The operations on all shards go from
    shard to shard and other threads run in between; those that change the configuration hold
    [config_mutex_] meanwhile. The hash is a parameter, as are the sources of seeds. *)

From stdpp Require Import gmultiset.
From S2P Require Import Prelude.
From S2P Require Import Status.
From S2P Require Import Slice.
From S2P Require Import Double.
From S2P Require Import LruState.
From S2P Require Import LruTable.
From S2P Require Import LruShard.
From S2P Require Import LruInv.
From S2P Require Import LruSystem.

(** ** Seeds and sizes *)

Definition kSeedMask : Z := 0x7fffffff.

(** The transformation of [DetermineSeed] for quasi-random seeds. *)
Definition quasi_random (id : Z) : Z :=
  let val := Z.land id kSeedMask in
  let val := u32 (val * 1150630961) in
  let val := Z.lxor val (Z.shiftr (Z.land val kSeedMask) 17) in
  let val := u32 (val * 1320603883) in
  Z.land val kSeedMask.

Definition kHostHashSeed : Z := -2.

(** [hostname_hash] is the hash of the host name if there is one; [base_upper] and [next_id]
    are what the generator gives. *)
Definition DetermineSeed (hash_seed_option : Z) (hostname_hash : option Z) (base_upper next_id : Z) : Z :=
  if hash_seed_option >=? 0 then u32 hash_seed_option
  else if hash_seed_option =? kHostHashSeed then
    match hostname_hash with
    | Some h => Z.land h kSeedMask
    | None => Z.land base_upper kSeedMask
    end
  else quasi_random next_id.

(** [while (num_shards >>= 1) if (++num_shard_bits >= 6) return num_shard_bits;] with [n] calls
    left until the return. *)
Fixpoint shard_bits_loop (n : nat) (num_shards num_shard_bits : Z) : Z :=
  match n with
  | O => num_shard_bits
  | S n =>
      let num_shards := Z.shiftr num_shards 1 in
      if num_shards =? 0 then num_shard_bits else shard_bits_loop n num_shards (num_shard_bits + 1)
  end.

Definition GetDefaultCacheShardBits (capacity min_shard_size : Z) : Z :=
  shard_bits_loop 6 (capacity / min_shard_size) 0.

(** ** The cache *)

(** [ShardedCacheBase] and the array of shards. *)
Record ShardedCache : Set := mkShardedCache {
  last_id_ : Z;
  shard_mask_ : Z;
  hash_seed_ : Z;
  sc_strict_capacity_limit_ : bool;
  sc_capacity_ : Z;
  shards_ : list Sys;
}.

Definition set_config (strict : bool) (capacity : Z) (c : ShardedCache) : ShardedCache :=
  mkShardedCache (last_id_ c) (shard_mask_ c) (hash_seed_ c) strict capacity (shards_ c).
Definition set_shards (l : list Sys) (c : ShardedCache) : ShardedCache :=
  mkShardedCache (last_id_ c) (shard_mask_ c) (hash_seed_ c) (sc_strict_capacity_limit_ c)
    (sc_capacity_ c) l.

Definition GetNumShards (c : ShardedCache) : Z := u32 (shard_mask_ c + 1).

Definition ComputePerShardCapacity (capacity : Z) (c : ShardedCache) : Z :=
  let num_shards := GetNumShards c in
  u64 (capacity + u32 (num_shards - 1)) / num_shards.

Definition NewId (c : ShardedCache) : Z * ShardedCache :=
  (last_id_ c, mkShardedCache (u64 (last_id_ c + 1)) (shard_mask_ c) (hash_seed_ c)
     (sc_strict_capacity_limit_ c) (sc_capacity_ c) (shards_ c)).

Definition HashPieceForSharding (hash : Z) : Z := u32 hash.

(** The index of [GetShard(hash)] in the array. *)
Definition GetShard (hash : Z) (c : ShardedCache) : nat :=
  Z.to_nat (Z.land (HashPieceForSharding hash) (shard_mask_ c)).

(** The shards are read one after the other, each under its own lock, while other threads use the
    cache: shard [i] is read in the state [reads !! i]. *)
Definition shards_read (reads : list ShardedCache) : list Sys :=
  omap id (imap (fun i c => shards_ c !! i) reads).

(** [SumOverShards] *)
Definition SumOverShards (fn : LRUCacheShard -> Z) (reads : list ShardedCache) : Z :=
  foldl (fun result s => u64 (result + fn (shard (s_world s)))) 0 (shards_read reads).

Definition Sharded_GetUsage (reads : list ShardedCache) : Z := SumOverShards usage_ reads.
Definition Sharded_GetPinnedUsage (reads : list ShardedCache) : Z :=
  SumOverShards (fun s => u64 (usage_ s - lru_usage_ s)) reads.

(** All shards read in one state *)
Definition at_once (c : ShardedCache) : list ShardedCache := replicate (length (shards_ c)) c.

Definition handle : Set := nat * positive.

(** The handle that a pointer of a client points to. *)
Definition cell (h : handle) (c : ShardedCache) : option LRUHandle :=
  s ← shards_ c !! h.1; heap (s_world s) !! h.2.

(** ** Calls *)

Inductive Call : Set :=
| CInsert (k : Slice) (v : ObjectPtr) (hp : CacheItemHelper) (charge : Z) (want : bool) (prio : Priority)
| CStandalone (k : Slice) (v : ObjectPtr) (hp : CacheItemHelper) (charge : Z) (allow_uncharged : bool)
| CLookup (k : Slice)
| CErase (k : Slice)
| CRef (h : handle)
| CRelease (h : handle) (erase_if_last_ref : bool).

Record Answer : Set := mkAnswer { an_status : Status; an_handle : option handle }.

Section Sharded.
Context (env : CacheEnv) (NPHash64 : Slice -> Z -> Z).

Definition ComputeHash (k : Slice) (seed : Z) : Z := u32 (NPHash64 k seed).

(** Which shard a call uses, and what it does there. *)
Definition route (o : Call) (c : ShardedCache) : option (nat * Op) :=
  match o with
  | CInsert k v hp charge want prio =>
      let hash := ComputeHash k (hash_seed_ c) in
      Some (GetShard hash c, OInsert k hash v hp charge want prio)
  | CStandalone k v hp charge allow_uncharged =>
      let hash := ComputeHash k (hash_seed_ c) in
      Some (GetShard hash c, OStandalone k hash v hp charge allow_uncharged)
  | CLookup k =>
      let hash := ComputeHash k (hash_seed_ c) in Some (GetShard hash c, OLookup k hash)
  | CErase k =>
      let hash := ComputeHash k (hash_seed_ c) in Some (GetShard hash c, OErase k hash)
  | CRef h =>
      e ← cell h c;
      if bool_decide (GetShard (hash e) c = h.1) then Some (h.1, ORef h.2) else None
  | CRelease h erase_if_last_ref =>
      e ← cell h c;
      if bool_decide (GetShard (hash e) c = h.1) then Some (h.1, ORelease h.2 erase_if_last_ref) else None
  end.

(** One block under the lock of shard [i]. *)
Definition on_shard (i : nat) (o : Op) (c : ShardedCache) : option (Res * ShardedCache) :=
  s ← shards_ c !! i;
  '(r, s) ← sys_step env o s;
  Some (r, set_shards (<[i := s]> (shards_ c)) c).

Definition call (o : Call) (c : ShardedCache) : option (Answer * ShardedCache) :=
  '(i, op) ← route o c;
  '(r, c) ← on_shard i op c;
  Some (mkAnswer (r_status r) (pair i <$> r_handle r), c).

(** [ForEachShard] *)
Fixpoint ForEachShard_from (i n : nat) (o : Op) (c : ShardedCache) : option ShardedCache :=
  match n with
  | O => Some c
  | S n => '(_, c) ← on_shard i o c; ForEachShard_from (S i) n o c
  end.

Definition ForEachShard (o : Op) (c : ShardedCache) : option ShardedCache :=
  ForEachShard_from 0 (Z.to_nat (GetNumShards c)) o c.

(** The changes of the configuration: what is stored, and what is done to each shard then. *)
Inductive Config : Set := SetCapacityTo (capacity : Z) | SetStrictTo (s_c_l : bool).

Definition store_config (g : Config) (c : ShardedCache) : ShardedCache :=
  match g with
  | SetCapacityTo capacity => set_config (sc_strict_capacity_limit_ c) capacity c
  | SetStrictTo s_c_l => set_config s_c_l (sc_capacity_ c) c
  end.

Definition config_op (g : Config) (c : ShardedCache) : Op :=
  match g with
  | SetCapacityTo capacity => OSetCapacity (ComputePerShardCapacity capacity c)
  | SetStrictTo s_c_l => OSetStrict s_c_l
  end.

(** [SetCapacity] and [SetStrictCapacityLimit], when no other thread runs *)
Definition Sharded_configure (g : Config) (c : ShardedCache) : option ShardedCache :=
  ForEachShard (config_op g (store_config g c)) (store_config g c).

Definition Sharded_EraseUnRefEntries (c : ShardedCache) : option ShardedCache :=
  ForEachShard OEraseUnRef c.

(** ** Construction *)

Record LRUCacheOptions : Set := mkLRUCacheOptions {
  opt_capacity : Z;
  opt_num_shard_bits : Z;
  opt_strict : bool;
  opt_policy : CacheMetadataChargePolicy;
  opt_high_ratio : double;
  opt_low_ratio : double;
}.

(** The constructors of [ShardedCacheBase], [ShardedCache] and [LRUCache], for a given seed. *)
Definition LRUCache_new (opts : LRUCacheOptions) (seed : Z) : option ShardedCache :=
  let c := mkShardedCache 1 (u32 (u32 (Z.shiftl 1 (opt_num_shard_bits opts)) - 1)) seed
             (opt_strict opts) (opt_capacity opts) [] in
  let per_shard := ComputePerShardCapacity (sc_capacity_ c) c in
  w ← LRUCacheShard_new env per_shard (opt_strict opts) (opt_high_ratio opts) (opt_low_ratio opts)
        (opt_policy opts) (32 - opt_num_shard_bits opts);
  Some (set_shards (replicate (Z.to_nat (GetNumShards c)) (mkSys w ∅ [])) c).

(** [MakeSharedCache], without a secondary cache. *)
Definition MakeSharedCache (opts : LRUCacheOptions) (seed : Z) : option ShardedCache :=
  if opt_num_shard_bits opts >=? 20 then None
  else if dlt (opt_high_ratio opts) d0 || dgt (opt_high_ratio opts) d1 then None
  else if dlt (opt_low_ratio opts) d0 || dgt (opt_low_ratio opts) d1 then None
  else if dgt (dadd (opt_low_ratio opts) (opt_high_ratio opts)) d1 then None
  else
    let opts :=
      if opt_num_shard_bits opts <? 0 then
        mkLRUCacheOptions (opt_capacity opts)
          (GetDefaultCacheShardBits (opt_capacity opts) (512 * 1024)) (opt_strict opts)
          (opt_policy opts) (opt_high_ratio opts) (opt_low_ratio opts)
      else opts in
    LRUCache_new opts seed.

(** ** Threads

    [job] is the thread that holds [config_mutex_]: what it stores, the operation, and the next
    shard. *)
Record ShSys : Set := mkShSys { cache : ShardedCache; job : option (Config * Op * nat) }.

(** What a client must respect. *)
Definition held_at (i : nat) (c : ShardedCache) : gmultiset positive :=
  match shards_ c !! i with Some s => s_held s | None => ∅ end.

Definition call_ok (o : Call) (c : ShardedCache) : Prop :=
  match o with
  | CInsert k _ _ _ _ _ | CStandalone k _ _ _ _ | CLookup k =>
      room (held_at (GetShard (ComputeHash k (hash_seed_ c)) c) c)
  | CErase _ => True
  | CRef h => h.2 ∈ held_at h.1 c /\ room (held_at h.1 c)
  | CRelease h _ => h.2 ∈ held_at h.1 c
  end.

(** What happens after a block under the lock, or between the shards of an operation on all. *)
Definition is_release (o : Op) : bool :=
  match o with ONotify _ | OFree _ | OEraseUnRef => true | _ => false end.

Inductive sh_step (S : ShSys) : ShSys -> Prop :=
| sh_call o a c : call_ok o (cache S) -> call o (cache S) = Some (a, c) ->
    sh_step S (mkShSys c (job S))
| sh_release i o s r c : is_release o = true -> shards_ (cache S) !! i = Some s ->
    legal o (s_held s) (s_pend s) -> on_shard i o (cache S) = Some (r, c) ->
    sh_step S (mkShSys c (job S))
| sh_new_id : sh_step S (mkShSys (NewId (cache S)).2 (job S))
| sh_lock g : job S = None ->
    match g with SetCapacityTo capacity => is_uint 64 capacity | SetStrictTo _ => True end ->
    sh_step S (mkShSys (store_config g (cache S)) (Some (g, config_op g (store_config g (cache S)), 0%nat)))
| sh_next g o i r c : job S = Some (g, o, i) -> on_shard i o (cache S) = Some (r, c) ->
    sh_step S (mkShSys c (Some (g, o, Datatypes.S i)))
| sh_unlock g o : job S = Some (g, o, Z.to_nat (GetNumShards (cache S))) ->
    sh_step S (mkShSys (cache S) None).

Inductive sh_reach : ShSys -> Prop :=
| sh_start opts seed c :
    is_uint 64 (opt_capacity opts) -> is_uint 32 seed -> MakeSharedCache opts seed = Some c ->
    sh_reach (mkShSys c None)
| sh_more S S' : sh_reach S -> sh_step S S' -> sh_reach S'.

End Sharded.

(** ** [ApplyToAllEntries]

    The traversal by one thread while others run. Each of its steps is the visit of one shard,
    under the lock of the shard, or the end of a round. [callback] does not touch the cache. *)

(** [aepl = std::min(aepl, size_t{1})] *)
Definition entries_per_lock (average_entries_per_lock : Z) : Z := Z.min average_entries_per_lock 1.

Record Traversal : Set := mkTraversal {
  tv_states : list Z;
  tv_next : nat;
  tv_remaining_work : bool;
}.

Definition Traversal_new (num_shards : Z) : Traversal :=
  mkTraversal (replicate (Z.to_nat num_shards) 0) 0 false.

(** The handles of a chain, and those that [ApplyToEntriesRange] meets. *)
Fixpoint chain_of (fuel : nat) (h : gmap positive LRUHandle) (p : ptr) : list positive :=
  match fuel, p with
  | S fuel, Some l =>
      match h !! l with Some e => l :: chain_of fuel h (next_hash e) | None => [] end
  | _, _ => []
  end.

Definition bucket_entries (w : World) (i : Z) : list positive :=
  match list_ (table_ (shard w)) !! Z.to_nat i with
  | Some p => chain_of (base.size (heap w)) (heap w) p
  | None => []
  end.

Definition visits (aepl state : Z) (w : World) : list positive :=
  let '(index_begin, index_end, _) := apply_bounds (length_bits_ (table_ (shard w))) aepl state in
  List.concat (map (bucket_entries w) (seqZ index_begin (index_end - index_begin))).

(** A step of the loop; [None] if it is left. The list has the entries visited. *)
Definition traverse (aepl : Z) (t : Traversal) (c : ShardedCache) :
    option (option Traversal * list handle) :=
  if (tv_next t <? Z.to_nat (GetNumShards c))%nat then
    st ← tv_states t !! tv_next t;
    if st =? SIZE_MAX then
      Some (Some (mkTraversal (tv_states t) (S (tv_next t)) (tv_remaining_work t)), [])
    else
      s ← shards_ c !! tv_next t;
      '(st', _) ← ApplyToSomeEntries (fun _ => mret ()) aepl st (s_world s);
      Some (Some (mkTraversal (<[tv_next t := st']> (tv_states t)) (S (tv_next t))
                    (tv_remaining_work t || negb (st' =? SIZE_MAX))),
            pair (tv_next t) <$> visits aepl st (s_world s))
  else if tv_remaining_work t then Some (Some (mkTraversal (tv_states t) 0 false), [])
  else Some (None, []).
