(* ===== verification/ShardedProofs.v ===== *)
(** * The sharded cache: proofs *)

From stdpp Require Import gmultiset.
From S2P Require Import Prelude.
From S2P Require Import Status.
From S2P Require Import Slice.
From S2P Require Import Double.
From S2P Require Import LruState.
From S2P Require Import LruTable.
From S2P Require Import LruShard.
From S2P Require Import LruList.
From S2P Require Import LruSpec.
From S2P Require Import LruRefine.
From S2P Require Import LruInv.
From S2P Require Import LruSystem.
From S2P Require Import LruMain.
From S2P Require Import LruFrame.
From S2P Require Import ShardedCache.

(** ** Seeds and sizes *)

Lemma land_mask31 x : Z.land x kSeedMask = x mod 2 ^ 31.
Proof. change kSeedMask with (Z.ones 31). by apply Z.land_ones. Qed.

(** Multiplication by an odd number modulo a power of two has an inverse. *)
Lemma mul_mod_inj m p q x y : 0 < m -> (p * q) mod m = 1 mod m -> 0 <= x < m -> 0 <= y < m ->
  (x * p) mod m = (y * p) mod m -> x = y.
Proof.
  intros Hm Hq Hx Hy E.
  assert (forall z, 0 <= z < m -> (((z * p) mod m) * q) mod m = z) as H.
  { intros z Hz. rewrite Z.mul_mod_idemp_l by lia. rewrite <- Z.mul_assoc, <- Z.mul_mod_idemp_r, Hq by lia.
    rewrite Z.mul_mod_idemp_r, Z.mul_1_r by lia. by apply Z.mod_small. }
  rewrite <- (H x Hx), <- (H y Hy). by rewrite E.
Qed.

(** [x ^ (x >> 17)] on 31 bits is its own inverse: the bits shifted in are untouched. *)
Lemma xorshift_involutive x : 0 <= x < 2 ^ 31 ->
  Z.lxor (Z.lxor x (Z.shiftr x 17)) (Z.shiftr (Z.lxor x (Z.shiftr x 17)) 17) = x.
Proof.
  intros Hx. rewrite Z.shiftr_lxor, Z.shiftr_shiftr by lia. change (17 + 17) with 34.
  assert (Z.shiftr x 34 = 0) as -> by (rewrite Z.shiftr_div_pow2 by lia; apply Z.div_small; lia).
  by rewrite Z.lxor_0_r, Z.lxor_assoc, Z.lxor_nilpotent, Z.lxor_0_r.
Qed.

Lemma mod_lxor n a b : 0 <= n -> Z.lxor a b mod 2 ^ n = Z.lxor (a mod 2 ^ n) (b mod 2 ^ n).
Proof.
  intros Hn. apply Z.bits_inj'. intros i Hi. rewrite Z.lxor_spec, !Z.testbit_mod_pow2, Z.lxor_spec by done.
  by destruct (i <? n), (Z.testbit a i), (Z.testbit b i).
Qed.

Lemma xorshift_range x : 0 <= x < 2 ^ 31 -> 0 <= Z.lxor x (Z.shiftr x 17) < 2 ^ 31.
Proof.
  intros Hx. assert (Z.lxor x (Z.shiftr x 17) mod 2 ^ 31 = Z.lxor x (Z.shiftr x 17)) as <-.
  { rewrite mod_lxor, Z.mod_small by lia. f_equal. apply Z.mod_small.
    rewrite Z.shiftr_div_pow2 by lia. pose proof (Z.div_pos x (2 ^ 17)).
    pose proof (Z.div_le_upper_bound x (2 ^ 17) x). lia. }
  apply Z.mod_pos_bound. lia.
Qed.

Lemma quasi_random_steps id :
  let x := (id mod 2 ^ 31 * 1150630961) mod 2 ^ 31 in
  quasi_random id = (Z.lxor x (Z.shiftr x 17) * 1320603883) mod 2 ^ 31.
Proof.
  intros x. unfold quasi_random. rewrite !land_mask31.
  assert (forall a, u32 a mod 2 ^ 31 = a mod 2 ^ 31) as H32.
  { intros a. unfold wrap. apply Z.mod_mod_divide. by exists 2. }
  rewrite H32, <- (Z.mul_mod_idemp_l _ 1320603883) by lia. rewrite <- (Z.mul_mod_idemp_l (Z.lxor x _)) by lia.
  f_equal. f_equal. rewrite mod_lxor by lia. rewrite H32. fold x. symmetry. rewrite mod_lxor by lia. f_equal.
  by rewrite (Z.mod_small x) by (unfold x; apply Z.mod_pos_bound; lia).
Qed.

(** The transformation of quasi-random seeds is a bijection of 31-bit numbers, as its comment
    says: different identifiers give different seeds. *)
Theorem quasi_random_bijective id id' : 0 <= id < 2 ^ 31 -> 0 <= id' < 2 ^ 31 ->
  0 <= quasi_random id < 2 ^ 31 /\ (quasi_random id = quasi_random id' -> id = id').
Proof.
  intros H1 H2. rewrite !quasi_random_steps. split; [apply Z.mod_pos_bound; lia|]. cbv zeta.
  set (x := (id mod 2 ^ 31 * _) mod _). set (y := (id' mod 2 ^ 31 * _) mod _).
  assert (0 <= x < 2 ^ 31) as Hx by (apply Z.mod_pos_bound; lia).
  assert (0 <= y < 2 ^ 31) as Hy by (apply Z.mod_pos_bound; lia).
  intros E. apply (mul_mod_inj (2 ^ 31) _ 1971148739) in E; [|lia|by vm_compute|by apply xorshift_range..].
  assert (x = y) as Exy by (rewrite <- (xorshift_involutive x Hx), <- (xorshift_involutive y Hy); by rewrite E).
  unfold x, y in Exy. apply (mul_mod_inj (2 ^ 31) _ 1446812881) in Exy;
    [|lia|by vm_compute|apply Z.mod_pos_bound; lia..].
  by rewrite !Z.mod_small in Exy by lia.
Qed.

(** The default number of shards: as many as have at least the minimum size, rounded down to a
    power of two, at most 64. *)
Lemma shard_bits_loop_spec n : forall num bits, 1 <= num ->
  shard_bits_loop n num bits = bits + Z.min (Z.of_nat n) (Z.log2 num).
Proof.
  induction n as [|n IH]; intros num bits Hn; cbn [shard_bits_loop].
  { pose proof (Z.log2_nonneg num). lia. }
  rewrite Z.shiftr_div_pow2 by lia. change (2 ^ 1) with 2. destruct (Z.eqb_spec (num / 2) 0) as [E|E].
  - assert (num = 1) as -> by dlia. cbn. lia.
  - rewrite IH by dlia. assert (Z.log2 num = Z.succ (Z.log2 (num / 2))) as ->; [|lia].
    replace num with (2 * (num / 2) + num mod 2) at 1 by dlia.
    assert (num mod 2 = 0 \/ num mod 2 = 1) as [-> | ->] by dlia.
    + rewrite Z.add_0_r. apply Z.log2_double. dlia.
    + apply Z.log2_succ_double. dlia.
Qed.

Lemma shard_bits_range capacity min_size : 0 <= capacity -> 0 < min_size ->
  0 <= GetDefaultCacheShardBits capacity min_size <= 6.
Proof.
  intros Hc Hm. unfold GetDefaultCacheShardBits. destruct (decide (1 <= capacity / min_size)) as [H|H].
  - rewrite shard_bits_loop_spec by done. pose proof (Z.log2_nonneg (capacity / min_size)). lia.
  - assert (capacity / min_size = 0) as -> by (pose proof (Z.div_pos capacity min_size); lia).
    by vm_compute.
Qed.

Section Sharded.
Context (env : CacheEnv) (NPHash64 : Slice -> Z -> Z).

(** ** The invariant *)

Record Shards (c : ShardedCache) : Prop := {
  sd_bits : exists b, 0 <= b < 20 /\ shard_mask_ c = 2 ^ b - 1 /\ Z.of_nat (length (shards_ c)) = 2 ^ b;
  sd_reach : forall i s, shards_ c !! i = Some s -> reach env s;
  sd_hash : forall i s l e, shards_ c !! i = Some s -> l <> lru_ -> heap (s_world s) !! l = Some e ->
    hash e = ComputeHash NPHash64 (key e) (hash_seed_ c) /\ GetShard (hash e) c = i;
  sd_capacity : is_uint 64 (sc_capacity_ c);
}.

Lemma num_shards c : Shards c -> GetNumShards c = Z.of_nat (length (shards_ c)) /\ 1 <= GetNumShards c < 2 ^ 20.
Proof.
  intros D. destruct (sd_bits _ D) as (b & Hb & Hm & Hl). unfold GetNumShards. rewrite Hm, Hl.
  pose proof (Z.pow_pos_nonneg 2 b). pose proof (Z.pow_lt_mono_r 2 b 20).
  rewrite wrap_small by (unfold is_uint; lia). lia.
Qed.

Lemma GetShard_lt c h : Shards c -> exists s, shards_ c !! GetShard h c = Some s.
Proof.
  intros D. apply lookup_lt_is_Some. destruct (sd_bits _ D) as (b & Hb & Hm & Hl).
  unfold GetShard, HashPieceForSharding. rewrite Hm. replace (2 ^ b - 1) with (Z.ones b) by (by rewrite Z.ones_equiv, Z.sub_1_r).
  rewrite Z.land_ones by lia. pose proof (Z.mod_pos_bound (u32 h) (2 ^ b)). pose proof (Z.pow_pos_nonneg 2 b). lia.
Qed.

(** One block under the lock of a shard. *)
Lemma on_shard_ok c i s o : Shards c -> shards_ c !! i = Some s -> legal o (s_held s) (s_pend s) ->
  (forall k h, makes o k h -> h = ComputeHash NPHash64 k (hash_seed_ c) /\ GetShard h c = i) ->
  exists r s', sys_step env o s = Some (r, s') /\
    on_shard env i o c = Some (r, set_shards (<[i := s']> (shards_ c)) c) /\
    moves_on o (s_world s) (s_world s') /\ Shards (set_shards (<[i := s']> (shards_ c)) c).
Proof.
  intros D Hs L Hm. pose proof (sd_reach _ D i s Hs) as Hr.
  destruct (step_once env s o Hr L) as (r & out & s' & Hrun & Hr' & _). inversion_clear Hrun as [|? ? ? ? ? ? _ Hst Hn].
  inversion Hn; subst. pose proof (step_moves_on _ _ _ _ _ Hst) as Mo. exists r, s'.
  split_and!; [done|unfold on_shard; by rewrite Hs; cbn; rewrite Hst|done|].
  destruct D as [(b & Hb & Hmask & Hl) D2 D3 D4]. split; cbn [set_shards shards_ shard_mask_ hash_seed_ sc_capacity_].
  - exists b. by rewrite length_insert.
  - intros j s0 Hj. apply list_lookup_insert_Some in Hj as [(<- & <- & _)|[_ Hj]]; [done|by eapply D2].
  - intros j s0 l e Hj Hl0 He. apply list_lookup_insert_Some in Hj as [(<- & <- & _)|[_ Hj]]; [|by eapply D3].
    destruct (mo_cells _ _ _ Mo l e He) as [(e0 & He0 & <- & <-)|Hk]; [by eapply D3|].
    destruct (Hm _ _ Hk). done.
  - done.
Qed.

(** Which limits the shards have while the configuration changes. *)
Definition limits_ok (c : ShardedCache) (j : option (Config * Op * nat)) : Prop :=
  forall i s, shards_ c !! i = Some s ->
    (match j with Some (SetCapacityTo _, _, k) => (i < k)%nat | _ => True end ->
       capacity_ (shard (s_world s)) = ComputePerShardCapacity (sc_capacity_ c) c) /\
    (match j with Some (SetStrictTo _, _, k) => (i < k)%nat | _ => True end ->
       strict_capacity_limit_ (shard (s_world s)) = sc_strict_capacity_limit_ c).

Definition job_ok (c : ShardedCache) (j : option (Config * Op * nat)) : Prop :=
  match j with
  | None => True
  | Some (g, o, k) => o = config_op g c /\ (k <= length (shards_ c))%nat /\
      match g with
      | SetCapacityTo n => sc_capacity_ c = n
      | SetStrictTo b => sc_strict_capacity_limit_ c = b
      end
  end.

Record ShInv (S : ShSys) : Prop := {
  sh_shards : Shards (cache S);
  sh_limits : limits_ok (cache S) (job S);
  sh_job : job_ok (cache S) (job S);
}.

Lemma per_shard_nonneg n c : Shards c -> 0 <= ComputePerShardCapacity n c.
Proof.
  intros D. destruct (num_shards c D) as [_ H]. unfold ComputePerShardCapacity.
  apply Z.div_pos; [|lia]. apply wrap_range. lia.
Qed.

(** A plain operation of a shard keeps the limits. *)
Lemma limits_plain c j i o s s' : limits_ok c j -> shards_ c !! i = Some s -> plain_op o = true ->
  moves_on o (s_world s) (s_world s') -> limits_ok (set_shards (<[i := s']> (shards_ c)) c) j.
Proof.
  intros H Hs Hp [_ _ M1 M2] k s0 Hk. cbn in Hk.
  apply list_lookup_insert_Some in Hk as [(<- & <- & _)|[_ Hk]]; [|by apply H].
  destruct (H i s Hs) as [H1 H2]. change (ComputePerShardCapacity _ _) with (ComputePerShardCapacity (sc_capacity_ c) c).
  rewrite M1, M2. destruct o; try discriminate Hp; done.
Qed.

Lemma job_set_shards c j l : length l = length (shards_ c) -> job_ok c j -> job_ok (set_shards l c) j.
Proof. intros Hl. destruct j as [[[g o] k]|]; [|done]. cbn. by rewrite Hl. Qed.

Lemma ShInv_plain S i o s s' : ShInv S -> shards_ (cache S) !! i = Some s -> plain_op o = true ->
  moves_on o (s_world s) (s_world s') -> Shards (set_shards (<[i := s']> (shards_ (cache S))) (cache S)) ->
  ShInv (mkShSys (set_shards (<[i := s']> (shards_ (cache S))) (cache S)) (job S)).
Proof.
  intros [D L J] Hs Hp Mo D'. split; [done|by eapply limits_plain|]. apply job_set_shards; [|done].
  apply length_insert.
Qed.

(** ** Calls *)

Lemma held_cell c i s l : Shards c -> shards_ c !! i = Some s -> l ∈ s_held s ->
  exists e, cell (i, l) c = Some e /\ GetShard (hash e) c = i.
Proof.
  intros D Hs Hl. destruct (reach_rep env s (sd_reach _ D i s Hs)) as (A & R & I).
  destruct (inv_held I l Hl) as (_ & o & Ho & _). destruct (rep_handle _ _ _ _ R Ho) as (e & He & _ & Hne).
  exists e. unfold cell. cbn. rewrite Hs. cbn. split; [done|]. by eapply (sd_hash _ D).
Qed.

(** A call is routed to a shard where it is allowed, and to that of its handle. *)
Lemma route_ok c o : Shards c -> call_ok NPHash64 o c ->
  exists i s op, route NPHash64 o c = Some (i, op) /\ shards_ c !! i = Some s /\
    legal op (s_held s) (s_pend s) /\ plain_op op = true /\
    (forall k h, makes op k h -> h = ComputeHash NPHash64 k (hash_seed_ c) /\ GetShard h c = i) /\
    match o with CRef h | CRelease h _ => i = h.1 | _ => True end.
Proof.
  intros D Hok.
  assert (forall k, is_uint 32 (ComputeHash NPHash64 k (hash_seed_ c))) as Hu by (intros; by apply wrap_range).
  destruct o as [k v hp charge want prio|k v hp charge allow|k|k|[i l]|[i l] er]; cbn [call_ok] in Hok;
    try (destruct (GetShard_lt c (ComputeHash NPHash64 k (hash_seed_ c)) D) as [s Hs];
         unfold held_at in Hok; try rewrite Hs in Hok;
         eexists _, s, _; split_and!; [done|exact Hs|cbn [legal]; by eauto|done|by intros k' h' [-> ->] || done|done]).
  - unfold held_at in Hok. cbn in Hok. destruct (shards_ c !! i) as [s|] eqn:Hs; [|multiset_solver].
    destruct Hok as [Hl Hroom]. destruct (held_cell c i s l D Hs Hl) as (e & He & Hsh).
    exists i, s, (ORef l). cbn [route]. rewrite He. cbn. by rewrite bool_decide_true.
  - unfold held_at in Hok. cbn in Hok. destruct (shards_ c !! i) as [s|] eqn:Hs; [|multiset_solver].
    destruct (held_cell c i s l D Hs Hok) as (e & He & Hsh).
    exists i, s, (ORelease l er). cbn [route]. rewrite He. cbn. by rewrite bool_decide_true.
Qed.

Lemma call_step c o : Shards c -> call_ok NPHash64 o c ->
  exists i s op r s', route NPHash64 o c = Some (i, op) /\ shards_ c !! i = Some s /\
    legal op (s_held s) (s_pend s) /\ plain_op op = true /\ sys_step env op s = Some (r, s') /\
    call env NPHash64 o c =
      Some (mkAnswer (r_status r) (pair i <$> r_handle r), set_shards (<[i := s']> (shards_ c)) c) /\
    moves_on op (s_world s) (s_world s') /\ Shards (set_shards (<[i := s']> (shards_ c)) c).
Proof.
  intros D Hok. destruct (route_ok c o D Hok) as (i & s & op & Hr & Hs & L & Hp & Hm & _).
  destruct (on_shard_ok c i s op D Hs L Hm) as (r & s' & Hst & Hon & Mo & D').
  exists i, s, op, r, s'. split_and!; try done. unfold call. rewrite Hr. cbn. by rewrite Hon.
Qed.

Lemma config_step S g o i : ShInv S -> job S = Some (g, o, i) -> (i < length (shards_ (cache S)))%nat ->
  exists r c, on_shard env i o (cache S) = Some (r, c) /\ ShInv (mkShSys c (Some (g, o, Datatypes.S i))).
Proof.
  intros [D L J] Hj Hi. rewrite Hj in L, J. destruct J as (-> & Hk & Hg).
  destruct (lookup_lt_is_Some_2 _ _ Hi) as [s Hs].
  assert (legal (config_op g (cache S)) (s_held s) (s_pend s)) as Hlegal.
  { destruct g; [|done]. by apply per_shard_nonneg. }
  destruct (on_shard_ok (cache S) i s _ D Hs Hlegal) as (r & s' & Hst & Hon & Mo & D').
  { by destruct g. }
  eexists r, _. split; [done|]. split; [done| |].
  - intros k s0 Hk0. cbn in Hk0. change (ComputePerShardCapacity _ (set_shards _ _)) with
      (ComputePerShardCapacity (sc_capacity_ (cache S)) (cache S)).
    destruct Mo as [_ _ M1 M2].
    apply list_lookup_insert_Some in Hk0 as [(<- & <- & _)|[Hne Hk0]].
    + destruct (L i s Hs) as [L1 L2]. rewrite M1, M2. destruct g as [n|b]; cbn in *; (split; [intros _|intros _]).
      * by rewrite <- Hg.
      * by apply L2.
      * by apply L1.
      * done.
    + destruct (L k s0 Hk0) as [L1 L2]. destruct g; cbn in *; split; intros Hlt; try (by apply L1); try (by apply L2).
      * apply L1. lia.
      * apply L2. lia.
  - cbn. rewrite length_insert. split_and!; [|lia|done]. by destruct g.
Qed.

(** ** Reachable states *)

Lemma new_shards opts seed c : 0 <= opt_num_shard_bits opts < 20 -> is_uint 64 (opt_capacity opts) ->
  dnonneg (opt_high_ratio opts) = true -> dnonneg (opt_low_ratio opts) = true ->
  LRUCache_new env opts seed = Some c -> ShInv (mkShSys c None).
Proof.
  intros Hb Hc Hh Hl E. unfold LRUCache_new in E.
  pose proof (Z.pow_pos_nonneg 2 (opt_num_shard_bits opts)) as P1. pose proof (Z.pow_lt_mono_r 2 (opt_num_shard_bits opts) 20) as P2.
  rewrite Z.shiftl_1_l, (wrap_small 32 (2 ^ _)), (wrap_small 32 (2 ^ _ - 1)) in E by (unfold is_uint; lia).
  set (c0 := mkShardedCache _ _ _ _ _ _) in E.
  assert (GetNumShards c0 = 2 ^ opt_num_shard_bits opts) as Hn.
  { unfold GetNumShards. cbn. rewrite wrap_small by (unfold is_uint; lia). lia. }
  assert (0 <= ComputePerShardCapacity (opt_capacity opts) c0) as Hp.
  { unfold ComputePerShardCapacity. rewrite Hn. apply Z.div_pos; [apply wrap_range|]; lia. }
  destruct (LRUCacheShard_new _ _ _ _ _ _ _) as [w|] eqn:Ew; [|done]. cbn in E. injection E as <-.
  change (sc_capacity_ c0) with (opt_capacity opts) in Ew.
  destruct (starts_rep_new env (mkSys w ∅ []) _ _ _ _ _ _ Hp Hh Hl Ew eq_refl eq_refl) as [R I].
  split; [split| |done]; cbn [set_shards cache shards_ shard_mask_ c0].
  - exists (opt_num_shard_bits opts). rewrite length_replicate, Hn. split_and!; (done || lia).
  - intros i s [-> _]%lookup_replicate. apply reach_start.
    exists (ComputePerShardCapacity (opt_capacity opts) c0), (opt_strict opts), (opt_high_ratio opts),
      (opt_low_ratio opts), (opt_policy opts), (32 - opt_num_shard_bits opts). by split_and!.
  - intros i s l e [-> _]%lookup_replicate Hne He. pose proof (rep_obj _ _ _ _ R Hne He) as Ho. cbn in Ho. by rewrite lookup_empty in Ho.
  - done.
  - intros i s [-> _]%lookup_replicate. pose proof (rp_cfg _ _ R) as Hcfg. cbn [s_world].
    split; intros _; [apply (f_equal c_capacity Hcfg)|apply (f_equal c_strict Hcfg)].
Qed.

Lemma Shards_config c b n : Shards c -> is_uint 64 n -> Shards (set_config b n c).
Proof. by intros [D1 D2 D3 D4] Hn. Qed.

Lemma sh_step_ok S S' : ShInv S -> sh_step env NPHash64 S S' -> ShInv S'.
Proof.
  intros Iv St. pose proof Iv as [D L J].
  destruct St as [o a c Hok E|i o s r c Hrel Hs Hlegal E| |g Hj Hg|g o i r c Hj E|g o Hj].
  - destruct (call_step (cache S) o D Hok) as (i & s & op & r & s' & _ & Hs & _ & Hp & _ & Hcall & Mo & D').
    rewrite Hcall in E. injection E as _ <-. by eapply ShInv_plain.
  - destruct (on_shard_ok (cache S) i s o D Hs Hlegal) as (r0 & s' & _ & Hon & Mo & D').
    { by destruct o. }
    rewrite Hon in E. injection E as _ <-. eapply ShInv_plain; try done. by destruct o.
  - split; [by destruct D|done|done].
  - rewrite Hj in L, J. destruct g as [n|b]; cbn [store_config] in *.
    + split; [by apply Shards_config| |].
      * intros i s Hs. destruct (L i s Hs) as [_ L2]. split; [cbn; lia|]. intros _. by apply L2.
      * cbn. split_and!; (done || lia).
    + split; [by apply Shards_config; [|apply D]| |].
      * intros i s Hs. destruct (L i s Hs) as [L1 _]. split; [|cbn; lia]. intros _. by apply L1.
      * cbn. split_and!; (done || lia).
  - assert (i < length (shards_ (cache S)))%nat as Hi.
    { unfold on_shard in E. destruct (shards_ (cache S) !! i) eqn:Hi; [|done]. by eapply lookup_lt_Some. }
    destruct (config_step S g o i Iv Hj Hi) as (r0 & c0 & E0 & Iv'). rewrite E0 in E. by injection E as _ <-.
  - destruct (num_shards (cache S) D) as [Hn _]. rewrite Hj in L. split; [done| |done].
    intros i s Hs. cbn [cache] in Hs. pose proof (lookup_lt_Some _ _ _ Hs). destruct (L i s Hs) as [L1 L2].
    split; intros _; [apply L1|apply L2]; destruct g; (done || (cbn; lia)).
Qed.

Lemma sh_reach_ok S : sh_reach env NPHash64 S -> ShInv S.
Proof.
  induction 1 as [opts seed c Hc Hseed E|S S' _ IH St]; [|by eapply sh_step_ok].
  unfold MakeSharedCache in E. destruct (Z.geb_spec (opt_num_shard_bits opts) 20); [done|].
  destruct (dlt (opt_high_ratio opts) d0) eqn:H1; [done|]. destruct (dgt (opt_high_ratio opts) d1); [done|].
  destruct (dlt (opt_low_ratio opts) d0) eqn:H2; [done|]. destruct (dgt (opt_low_ratio opts) d1); [done|].
  destruct (dgt (dadd _ _) d1); [done|]. cbn [orb] in E.
  assert (dnonneg (opt_high_ratio opts) = true /\ dnonneg (opt_low_ratio opts) = true) as [H3 H4]
    by (unfold dnonneg; by rewrite H1, H2).
  destruct (Z.ltb_spec (opt_num_shard_bits opts) 0).
  - eapply new_shards; [| | | |exact E]; try done. cbn [opt_num_shard_bits].
    pose proof (shard_bits_range (opt_capacity opts) (512 * 1024)). destruct Hc. lia.
  - eapply new_shards; [| | | |exact E]; (done || lia).
Qed.

(** C7: clients of a sharded cache that only use handles they hold. In every state, whatever
    threads do to the shards and to the configuration, every shard is in a state that a cache
    of its own can reach, so that all that holds of these holds of it; every call yields a
    result, in particular a handle is always given back to the shard it came from, although
    the code finds the shard by the hash it reads from the handle; and a change of the
    configuration that has begun gets through all shards. *)
Theorem sharded_safe S (Hr : sh_reach env NPHash64 S) :
  (forall i s, shards_ (cache S) !! i = Some s -> reach env s) /\
  (forall o, call_ok NPHash64 o (cache S) -> exists a c, call env NPHash64 o (cache S) = Some (a, c)) /\
  (forall h o, o = CRef h \/ (exists er, o = CRelease h er) -> call_ok NPHash64 o (cache S) ->
     exists op, route NPHash64 o (cache S) = Some (h.1, op)) /\
  (forall g o i, job S = Some (g, o, i) -> i <> Z.to_nat (GetNumShards (cache S)) ->
     exists r c, on_shard env i o (cache S) = Some (r, c)).
Proof.
  apply sh_reach_ok in Hr as Iv. pose proof Iv as [D L J]. split_and!.
  - apply (sd_reach _ D).
  - intros o Hok. destruct (call_step _ o D Hok) as (i & s & op & r & s' & _ & _ & _ & _ & _ & E & _). eauto.
  - intros h o Ho Hok. destruct (route_ok _ o D Hok) as (i & s & op & E & _ & _ & _ & _ & Hi).
    destruct Ho as [->|[er ->]]; subst i; eauto.
  - intros g o i Hj Hi. destruct (num_shards (cache S) D) as [Hn _].
    rewrite Hj in J. destruct J as (_ & Hk & _).
    destruct (config_step S g o i Iv Hj) as (r & c & E & _); [lia|eauto].
Qed.

(** ** One map *)

(** The handle [h], in whatever shard, is what the cache holds under the key [k]. *)
Definition cached (c : ShardedCache) (k : Slice) (h : ShardedCache.handle) : Prop :=
  exists e, cell h c = Some e /\ h.2 <> lru_ /\ InCache e = true /\ key e = k.

Lemma cached_map c k i s A : Shards c -> GetShard (ComputeHash NPHash64 k (hash_seed_ c)) c = i ->
  shards_ c !! i = Some s -> Rep (s_world s) A -> Inv None A (s_held s) (s_pend s) ->
  forall h, cached c k h <-> exists l, h = (i, l) /\ a_map A !! (k, ComputeHash NPHash64 k (hash_seed_ c)) = Some l.
Proof.
  intros D Hi Hs R I [j l]. split.
  - intros (e & He & Hne & Hin & Hk). unfold cell in He. cbn in He, Hne.
    destruct (shards_ c !! j) as [sj|] eqn:Hj; [|done]. cbn in He.
    destruct (sd_hash _ D j sj l e Hj Hne He) as [Hh Hgs]. rewrite Hk in Hh. rewrite Hh, Hi in Hgs. subst j.
    rewrite Hs in Hj. injection Hj as <-. exists l. split; [done|].
    destruct (inv_obj I l _ ltac:(done) (rep_obj _ _ _ _ R Hne He)) as (_ & _ & H3 & _).
    apply H3. cbn. by rewrite Hk, Hh.
  - intros (l' & [= -> ->] & Hm). destruct (inv_map I _ _ Hm) as (_ & o & Ho & Hin & Hk).
    destruct (rep_handle _ _ _ _ R Ho) as (e & He & Hoe & Hne). exists e. unfold cell. cbn. rewrite Hs. cbn.
    subst o. injection Hk as Hk _. by split_and!.
Qed.

(** What a call does to its shard, in terms of the abstract cache. *)
Lemma call_abstract c o : Shards c -> call_ok NPHash64 o c ->
  exists i s op A r out s' A', route NPHash64 o c = Some (i, op) /\ shards_ c !! i = Some s /\
    Rep (s_world s) A /\ Inv None A (s_held s) (s_pend s) /\
    call env NPHash64 o c =
      Some (mkAnswer (r_status r) (pair i <$> r_handle r), set_shards (<[i := s']> (shards_ c)) c) /\
    a_step env op A r out A' /\ Rep (s_world s') A' /\ Inv None A' (s_held s') (s_pend s') /\
    Shards (set_shards (<[i := s']> (shards_ c)) c).
Proof.
  intros D Hok. destruct (call_step c o D Hok) as (i & s & op & r & s' & Hr & Hs & L & _ & Hst & Hcall & _ & D').
  destruct (reach_rep env s (sd_reach _ D i s Hs)) as (A & R & I).
  destruct (sim_step env op _ A _ _ R I L) as (r0 & out & w' & A' & Hex & Ha & R' & I').
  unfold sys_step in Hst. rewrite Hex in Hst. injection Hst as <- <-.
  exists i, s, op, A, r0, out, (mkSys w' (held_upd op r0 (s_held s)) (pend_upd op out (s_pend s))), A'. by split_and!.
Qed.

Lemma a_lookup_handle k hv A held pend : Inv None A held pend -> (a_lookup k hv A).1 = a_map A !! (k, hv).
Proof.
  intros I. unfold a_lookup. destruct (a_map A !! (k, hv)) as [l|] eqn:E; [|done].
  by destruct (inv_map I _ _ E) as (_ & o & -> & _).
Qed.

Lemma a_erase_map k hv A held pend : Inv None A held pend -> a_map (a_erase k hv A).1 !! (k, hv) = None.
Proof.
  intros I. unfold a_erase. destruct (a_map A !! (k, hv)) as [l|] eqn:E; [|done].
  destruct (inv_map I _ _ E) as (_ & o & -> & _). unfold a_drop. destruct (_ >? 0); cbn; apply lookup_delete_eq.
Qed.

(** C25: the shards together are one map from keys. A lookup returns the handle that the cache
    holds under its key, in whatever shard, and nothing if there is none, so that there is at
    most one per key; an insertion that returns a handle leaves this handle, with the object,
    under the key; after an erasure there is nothing under the key. *)
Theorem sharded_map S (Hr : sh_reach env NPHash64 S) k :
  (call_ok NPHash64 (CLookup k) (cache S) ->
     exists a c, call env NPHash64 (CLookup k) (cache S) = Some (a, c) /\
       forall h, an_handle a = Some h <-> cached (cache S) k h) /\
  (forall v hp charge prio a c h, call_ok NPHash64 (CInsert k v hp charge true prio) (cache S) ->
     call env NPHash64 (CInsert k v hp charge true prio) (cache S) = Some (a, c) -> an_handle a = Some h ->
     (forall h', cached c k h' <-> h' = h) /\ exists e, cell h c = Some e /\ value e = v /\ refs e = 1) /\
  (forall a c, call env NPHash64 (CErase k) (cache S) = Some (a, c) -> forall h, ~ cached c k h).
Proof.
  pose proof (sh_shards _ (sh_reach_ok S Hr)) as D. set (hv := ComputeHash NPHash64 k (hash_seed_ (cache S))).
  split_and!.
  - intros Hok. destruct (call_abstract _ _ D Hok) as (i & s & op & A & r & out & s' & A' & Hro & Hs & R & I & Hc & Ha & _).
    injection Hro as <- <-. destruct Ha as (_ & Ha & _). eexists _, _. split; [exact Hc|]. intros h.
    rewrite (cached_map _ k _ s A D eq_refl Hs R I). fold hv. cbn.
    rewrite <- (a_lookup_handle k hv A _ _ I). unfold hv. rewrite Ha. cbn.
    destruct (r_handle r) as [l|]; cbn; naive_solver.
  - intros v hp charge prio a c h Hok E Hh.
    destruct (call_abstract _ _ D Hok) as (i & s & op & A & r & out & s' & A' & Hro & Hs & R & I & Hc & Ha & R' & I' & D').
    injection Hro as <- <-. rewrite Hc in E. injection E as <- <-. destruct Ha as (l & Hl & Ha).
    apply (a_insert_result _ _ _ _ _ _ _ _ _ I Hl) in Ha. cbn in Hh.
    destruct (r_handle r) as [l'|]; [|done]. injection Hh as <-. destruct Ha as (-> & _ & Hm & Ho).
    pose proof (list_lookup_insert_eq (shards_ (cache S)) _ s' (lookup_lt_Some _ _ _ Hs)) as Hs'.
    split.
    + intros h'. rewrite (cached_map _ k (GetShard hv (cache S)) s' A' D' eq_refl Hs' R' I').
      change (a_map A' !! (k, hv) = Some l) in Hm. cbn. fold hv. rewrite Hm. naive_solver.
    + destruct (rep_handle _ _ _ _ R' Ho) as (e & He & Hoe & _). exists e. unfold cell. cbn [fst snd].
      cbn [set_shards shards_]. rewrite Hs'. cbn. split; [done|].
      split; [apply (f_equal o_value Hoe)|apply (f_equal o_refs Hoe)].
  - intros a c E h.
    destruct (call_abstract _ (CErase k) D I) as (i & s & op & A & r & out & s' & A' & Hro & Hs & R & Iv & Hc & Ha & R' & I' & D').
    injection Hro as <- <-. rewrite Hc in E. injection E as <- <-. destruct Ha as [_ Ha].
    pose proof (list_lookup_insert_eq (shards_ (cache S)) _ s' (lookup_lt_Some _ _ _ Hs)) as Hs'.
    rewrite (cached_map _ k (GetShard hv (cache S)) s' A' D' eq_refl Hs' R' I').
    pose proof (a_erase_map k hv A _ _ Iv) as Hn. unfold hv in Hn. rewrite Ha in Hn. cbn in Hn |- *.
    rewrite Hn. naive_solver.
Qed.

(** ** Limits *)

Definition sum_of (f : Sys -> Z) (l : list Sys) : Z := foldr (fun s n => f s + n) 0 l.

Lemma SumOverShards_sum f reads :
  SumOverShards f reads = u64 (sum_of (fun s => f (shard (s_world s))) (shards_read reads)).
Proof.
  unfold SumOverShards. assert (forall l a, foldl (fun r s => u64 (r + f (shard (s_world s)))) a l =
    if decide (l = []) then a else u64 (a + sum_of (fun s => f (shard (s_world s))) l)) as H.
  { induction l as [|s l IH]; intros a; [done|]. cbn [foldl]. rewrite IH. cbn [sum_of foldr].
    destruct (decide (l = [])) as [->|]; rewrite decide_False by done; cbn; [by rewrite Z.add_0_r|].
    rewrite u64_add. f_equal. unfold sum_of. lia. }
  rewrite H. case_decide as E; [rewrite E; done|done].
Qed.

Lemma omap_id_Some {A} (l : list (option A)) (k : list A) : l = Some <$> k -> omap id l = k.
Proof. intros ->. induction k as [|x k IH]; [done|]. cbn. by rewrite IH. Qed.

Lemma shards_read_once c : shards_read (at_once c) = shards_ c.
Proof.
  unfold shards_read, at_once. apply omap_id_Some. apply list_eq. intros i. rewrite list_lookup_imap, list_lookup_fmap.
  destruct (decide (i < length (shards_ c))%nat) as [Hi|Hi].
  - rewrite lookup_replicate_2 by done. destruct (lookup_lt_is_Some_2 _ _ Hi) as [s Hs]. cbn. by rewrite Hs.
  - by rewrite !lookup_ge_None_2 by (rewrite ?length_replicate; lia).
Qed.

Lemma shards_read_in reads s : s ∈ shards_read reads -> exists i c, c ∈ reads /\ shards_ c !! i = Some s.
Proof.
  unfold shards_read. rewrite list_elem_of_omap. intros (x & Hx & E). cbn in E. subst x.
  apply elem_of_lookup_imap in Hx as (i & c & E & Hc). exists i, c. split; [by eapply list_elem_of_lookup_2|done].
Qed.

Lemma sum_of_const f n l : Forall (fun s => f s = n) l -> sum_of f l = n * Z.of_nat (length l).
Proof. induction 1 as [|s l Hs _ IH]; [cbn; lia|]. unfold sum_of in *. cbn. rewrite IH, Hs. lia. Qed.

Lemma sum_of_ext f g l : Forall (fun s => f s = g s) l -> sum_of f l = sum_of g l.
Proof. induction 1 as [|s l Hs _ IH]; [done|]. unfold sum_of in *. cbn. by rewrite IH, Hs. Qed.

Lemma sum_of_u64 f l : u64 (sum_of (fun s => u64 (f s)) l) = u64 (sum_of f l).
Proof.
  induction l as [|s l IH]; [done|]. unfold sum_of in *. cbn. rewrite u64_add.
  rewrite Z.add_comm. rewrite <- u64_add, IH, u64_add. f_equal. lia.
Qed.

(** C26: the configuration reaches all shards. While no change is under way, every shard has its
    part of the capacity and the flag of the cache; together the parts are at least the
    capacity and exceed it by less than the number of shards, unless the capacity is so close
    to the end of the range that the sum in [ComputePerShardCapacity] wraps. The usage
    that is reported is the sum, up to the width of the counter, over the shards of the
    charges of all handles that the shard has in use when it is read; the shards are read
    one after the other while other threads run, and if none does, it is the sum for the
    whole cache. *)
Theorem sharded_limits S (Hr : sh_reach env NPHash64 S) (Hidle : job S = None) :
  let c := cache S in
  (forall i s, shards_ c !! i = Some s ->
     capacity_ (shard (s_world s)) = ComputePerShardCapacity (sc_capacity_ c) c /\
     strict_capacity_limit_ (shard (s_world s)) = sc_strict_capacity_limit_ c) /\
  (sc_capacity_ c + GetNumShards c <= 2 ^ 64 ->
     sc_capacity_ c <= sum_of (fun s => capacity_ (shard (s_world s))) (shards_ c) < sc_capacity_ c + GetNumShards c) /\
  (forall reads, Forall (fun c' => exists j, sh_reach env NPHash64 (mkShSys c' j)) reads ->
     Sharded_GetUsage reads = u64 (sum_of (fun s => total (obj_of <$> delete lru_ (heap (s_world s)))) (shards_read reads))) /\
  Sharded_GetUsage (at_once c) = u64 (sum_of (fun s => total (obj_of <$> delete lru_ (heap (s_world s)))) (shards_ c)).
Proof.
  intros c. assert (forall reads, Forall (fun c' => exists j, sh_reach env NPHash64 (mkShSys c' j)) reads ->
     Sharded_GetUsage reads = u64 (sum_of (fun s => total (obj_of <$> delete lru_ (heap (s_world s)))) (shards_read reads))) as Husage.
  { intros reads Hreads. unfold Sharded_GetUsage. rewrite SumOverShards_sum, <- (sum_of_u64 (fun s => total _)). f_equal.
    apply sum_of_ext, Forall_forall. intros s (i & c' & Hc' & Hs)%shards_read_in.
    rewrite Forall_forall in Hreads. destruct (Hreads c' Hc') as [j Hj]. destruct (sh_reach_ok _ Hj) as [D _ _].
    destruct (reach_rep env s (sd_reach _ D i s Hs)) as (A & R & I).
    rewrite (rp_usage _ _ R), (i_usage _ _ _ _ I). cbn [hide]. by rewrite (rp_obj _ _ R). }
  destruct (sh_reach_ok S Hr) as [D L J]. rewrite Hidle in L. destruct (num_shards c D) as [Hn Hr'].
  split_and!.
  - intros i s Hs. destruct (L i s Hs) as [L1 L2]. split; [by apply L1|by apply L2].
  - intros Hw. rewrite (sum_of_const _ (ComputePerShardCapacity (sc_capacity_ c) c)), <- Hn.
    + unfold ComputePerShardCapacity. pose proof (sd_capacity _ D) as [K1 K2].
      fold c in K1, K2. rewrite (wrap_small 32), (wrap_small 64) by (unfold is_uint; lia).
      set (n := GetNumShards c) in *. set (x := sc_capacity_ c) in *.
      pose proof (Z.div_mod (x + (n - 1)) n ltac:(lia)). pose proof (Z.mod_pos_bound (x + (n - 1)) n ltac:(lia)). nia.
    + apply Forall_lookup. intros i s Hs. destruct (L i s Hs) as [L1 _]. by apply L1.
  - done.
  - rewrite Husage, shards_read_once; [done|]. unfold at_once. apply Forall_replicate. exists (job S).
    unfold c. by destruct S.
Qed.
End Sharded.

(** A capacity at the end of the range: the sum wraps, and every shard gets nothing. *)
Lemma per_shard_wraps c : shard_mask_ c = 1 -> ComputePerShardCapacity (2 ^ 64 - 1) c = 0.
Proof. intros E. unfold ComputePerShardCapacity, GetNumShards. by rewrite E. Qed.

(** ** An execution *)

#[global] Instance call_ok_dec NPHash64 o c : Decision (call_ok NPHash64 o c).
Proof. destruct o; cbn; unfold room; apply _. Defined.

Fixpoint run_calls (env : CacheEnv) (NPHash64 : Slice -> Z -> Z) (os : list Call) (c : ShardedCache) :
    option (list Answer * ShardedCache) :=
  match os with
  | [] => Some ([], c)
  | o :: os =>
      if decide (call_ok NPHash64 o c) then
        '(a, c) ← call env NPHash64 o c;
        '(l, c) ← run_calls env NPHash64 os c;
        Some (a :: l, c)
      else None
  end.

Lemma run_calls_reach env NPHash64 os : forall c l c' j,
  sh_reach env NPHash64 (mkShSys c j) -> run_calls env NPHash64 os c = Some (l, c') ->
  sh_reach env NPHash64 (mkShSys c' j).
Proof.
  induction os as [|o os IH]; intros c l c' j Hr; cbn [run_calls]; [by intros [= _ <-]|].
  case_decide as Hok; [|done]. destruct (call env NPHash64 o c) as [[a c1]|] eqn:E; [|done]. cbn.
  destruct (run_calls env NPHash64 os c1) as [[l1 c2]|] eqn:E1; [|done]. intros [= _ <-].
  eapply IH; [|exact E1]. eapply sh_more; [exact Hr|]. exact (sh_call env NPHash64 (mkShSys c j) o a c1 Hok E).
Qed.

(** Two shards, a hash that is the first byte of the key, and one key in each shard; the handle
    of the first is still held. *)
Definition byte_hash (k : Slice) (seed : Z) : Z :=
  match k with b :: _ => byte_to_Z b + seed | [] => seed end.

Definition demo_options : LRUCacheOptions :=
  mkLRUCacheOptions 101 1 false kDontChargeCacheMetadata half quarter.

Definition demo_shards : ShardedCache :=
  default (mkShardedCache 0 0 0 false 0 []) (MakeSharedCache plain_env demo_options 5).

Definition demo_calls : list Call :=
  [CInsert [x61] 1001 demo_helper 30 true HIGH; CInsert [x62] 1002 demo_helper 20 false LOW].

Definition demo_sharded : ShardedCache :=
  match run_calls plain_env byte_hash demo_calls demo_shards with Some (_, c) => c | None => demo_shards end.

Lemma demo_sharded_reach : sh_reach plain_env byte_hash (mkShSys demo_sharded None).
Proof.
  destruct (run_calls plain_env byte_hash demo_calls demo_shards) as [[l c]|] eqn:E; [|by vm_compute in E].
  assert (demo_sharded = c) as -> by (unfold demo_sharded; by rewrite E).
  refine (run_calls_reach _ _ _ _ _ _ None (sh_start plain_env byte_hash demo_options 5 demo_shards _ _ _) E);
    [unfold is_uint; cbn; lia|unfold is_uint; lia|].
  destruct (MakeSharedCache plain_env demo_options 5) as [c0|] eqn:E0; [|by vm_compute in E0].
  unfold demo_shards. by rewrite E0.
Qed.

Lemma sharded_safe_witness : exists a c,
  call plain_env byte_hash (CRelease (0%nat, 2%positive) false) demo_sharded = Some (a, c).
Proof.
  destruct (sharded_safe plain_env byte_hash _ demo_sharded_reach) as (_ & H & _).
  apply (H (CRelease (0%nat, 2%positive) false)). apply (bool_decide_unpack _). vm_compute. exact I.
Defined.

Lemma demo_lookup : (fun x => an_handle x.1) <$> call plain_env byte_hash (CLookup [x62]) demo_sharded =
  Some (Some (1%nat, 2%positive)).
Proof. vm_compute. reflexivity. Qed.

Lemma sharded_map_witness : exists a c,
  call plain_env byte_hash (CLookup [x62]) demo_sharded = Some (a, c) /\
  an_handle a = Some (1%nat, 2%positive) /\ cached demo_sharded [x62] (1%nat, 2%positive).
Proof.
  destruct (sharded_map plain_env byte_hash _ demo_sharded_reach [x62]) as (H & _).
  destruct H as (a & c & E & Hh).
  - apply (bool_decide_unpack _). vm_compute. exact I.
  - exists a, c. split; [exact E|].
    assert (an_handle a = Some (1%nat, 2%positive)) as Ha.
    { pose proof demo_lookup as K. cbn [cache] in E. rewrite E in K. apply Some_inj in K. exact K. }
    split; [exact Ha|]. apply (Hh (1%nat, 2%positive)). exact Ha.
Defined.

Lemma sharded_limits_witness :
  101 <= sum_of (fun s => capacity_ (shard (s_world s))) (shards_ demo_sharded) < 103 /\
  Sharded_GetUsage (at_once demo_sharded) = 50.
Proof.
  destruct (sharded_limits plain_env byte_hash _ demo_sharded_reach eq_refl) as (_ & H & _).
  split; [|vm_compute; reflexivity].
  assert (sc_capacity_ demo_sharded = 101) as E1 by (vm_compute; reflexivity).
  assert (GetNumShards demo_sharded = 2) as E2 by (vm_compute; reflexivity).
  cbn zeta in H. cbn [cache] in H. rewrite E1, E2 in H. apply H. lia.
Defined.
