(* ===== verification/ShardedApply.v ===== *)
(** * Visiting all entries of a sharded cache *)

From stdpp Require Import gmultiset.
From S2P Require Import Prelude.
From S2P Require Import Status.
From S2P Require Import Slice.
From S2P Require Import Double.
From S2P Require Import LruState.
From S2P Require Import LruTable.
From S2P Require Import LruShard.
From S2P Require Import LruTableProofs.
From S2P Require Import LruSpec.
From S2P Require Import LruRefine.
From S2P Require Import LruInv.
From S2P Require Import LruSystem.
From S2P Require Import LruMain.
From S2P Require Import LruFrame.
From S2P Require Import ShardedCache.
From S2P Require Import ShardedProofs.

(** ** Callbacks *)

Lemma bind_step {A B} (m : M A) (k : A -> M B) w a w' : m w = Some (a, w') -> (x ← m; k x) w = k a w'.
Proof. intros E. unfold mbind, M_bind. by rewrite E. Qed.

Lemma load_step l e w : heap w !! l = Some e -> load (Some l) w = Some (e, w).
Proof. intros E. unfold load. by rewrite E. Qed.

(** Running a callback on handles in order. *)
Fixpoint call_all (callback : LRUHandle -> M unit) (ls : list positive) : M unit :=
  match ls with
  | [] => mret ()
  | l :: ls => e ← load (Some l); _ ← callback e; call_all callback ls
  end.

(** A callback that does not touch the cache. *)
Definition harmless (callback : LRUHandle -> M unit) : Prop :=
  forall e w, exists ev, callback e w = Some ((), mkWorld (heap w) (shard w) ev).

Lemma call_all_app cb xs : forall ys w,
  call_all cb (xs ++ ys) w = (_ ← call_all cb xs; call_all cb ys) w.
Proof.
  induction xs as [|x xs IH]; intros ys w; [done|]. cbn [app call_all]. unfold mbind, M_bind.
  destruct (load (Some x) w) as [[e w1]|]; [|done]. destruct (cb e w1) as [[[] w2]|]; [|done]. by rewrite IH.
Qed.

Lemma call_all_frame cb xs : forall w, harmless cb -> Forall (fun l => is_Some (heap w !! l)) xs ->
  exists ev, call_all cb xs w = Some ((), mkWorld (heap w) (shard w) ev).
Proof.
  induction xs as [|x xs IH]; intros w Hcb Hx; [exists (trace w); by destruct w|].
  apply Forall_cons in Hx as [[e He] Hx]. cbn [call_all]. unfold mbind, M_bind, load. rewrite He.
  destruct (Hcb e w) as [ev ->]. destruct (IH (mkWorld (heap w) (shard w) ev) Hcb Hx) as [ev' ->]. by exists ev'.
Qed.

(** The chain that a bucket stands for is read off the memory. *)
Lemma chain_of_chain h xs : forall fuel p, chain h p xs -> (length xs <= fuel)%nat -> chain_of fuel h p = xs.
Proof.
  induction xs as [|x xs IH]; intros fuel p Hc Hf; cbn in Hc.
  - subst p. by destruct fuel.
  - destruct Hc as [-> (e & He & Hc)]. destruct fuel as [|fuel]; cbn in Hf; [lia|]. cbn. rewrite He. f_equal.
    apply IH; [done|lia].
Qed.

Lemma Apply_chain_calls cb xs : forall w fuel p, harmless cb -> chain (heap w) p xs -> (length xs < fuel)%nat ->
  Apply_chain fuel (fun h => e ← load (Some h); cb e) p w = call_all cb xs w.
Proof.
  induction xs as [|x xs IH]; intros w fuel p Hcb Hc Hf; cbn in Hc; (destruct fuel as [|fuel]; [cbn in Hf; lia|]).
  - by subst p.
  - destruct Hc as [-> (e & He & Hc)]. cbn [Apply_chain call_all]. destruct (Hcb e w) as [ev Ev].
    rewrite !(bind_step _ _ _ _ _ (load_step x e w He)).
    rewrite (bind_step _ _ _ () (mkWorld (heap w) (shard w) ev)).
    2:{ by rewrite (bind_step _ _ _ _ _ (load_step x e w He)). }
    rewrite (bind_step _ _ _ _ _ Ev). apply IH; [done|done|cbn in Hf; lia].
Qed.

Section Range.
Context {t : LRUHandleTable} {m : KeyMap} {bs : list (list positive)}.

Lemma bucket_entries_rep w i : TabRepB (heap w) (table_ (shard w)) bs m -> 0 <= i ->
  bucket_entries w i = default [] (bs !! Z.to_nat i).
Proof.
  intros R Hi. unfold bucket_entries. pose proof (tr_chains _ _ _ _ R) as Hc.
  destruct (list_ (table_ (shard w)) !! Z.to_nat i) as [p|] eqn:E.
  - destruct (Forall2_lookup_l _ _ _ _ _ Hc E) as (xs & Hx & Hch). rewrite Hx. cbn.
    apply chain_of_chain; [done|by eapply rep_chain_le].
  - destruct (bs !! Z.to_nat i) eqn:E2; [|done]. apply lookup_lt_Some in E2. apply lookup_ge_None in E.
    apply Forall2_length in Hc. lia.
Qed.

Lemma Apply_range_calls cb count : forall w i fuel, harmless cb ->
  TabRepB (heap w) (table_ (shard w)) bs m -> (base.size (heap w) < fuel)%nat ->
  0 <= i -> i + Z.of_nat count <= 2 ^ table_bits w ->
  Apply_range fuel count (fun h => e ← load (Some h); cb e) i w =
    call_all cb (List.concat (map (bucket_entries w) (seqZ i (Z.of_nat count)))) w.
Proof.
  induction count as [|count IH]; intros w i fuel Hcb R Hf Hi Hle; [done|].
  rewrite seqZ_cons by lia. replace (Z.pred (Z.of_nat (S count))) with (Z.of_nat count) by lia.
  rewrite <- (Z.add_1_r i).
  cbn [map List.concat Apply_range]. rewrite call_all_app.
  pose proof (tr_chains _ _ _ _ R) as Hc. pose proof (tr_len _ _ _ _ R) as Hl. unfold size in Hl.
  assert (Z.to_nat i < length (list_ (table_ (shard w))))%nat as Hlt by lia.
  destruct (lookup_lt_is_Some_2 _ _ Hlt) as [p Hp].
  destruct (Forall2_lookup_l _ _ _ _ _ Hc Hp) as (xs & Hx & Hch).
  rewrite (bind_step _ _ w p w) by (cbn [read_slot]; unfold mbind, M_bind, get; by rewrite Hp).
  rewrite (bucket_entries_rep w i R Hi), Hx. cbn [default].
  pose proof (rep_chain_le R _ _ Hx).
  destruct (call_all_frame cb xs w Hcb) as [ev Ev].
  { apply Forall_forall. intros l Hlx. by eapply chain_in. }
  rewrite (bind_step _ _ w () (mkWorld (heap w) (shard w) ev)) by (rewrite (Apply_chain_calls cb xs w fuel p Hcb Hch) by lia; done).
  rewrite (bind_step _ _ w () _ Ev).
  rewrite (IH (mkWorld (heap w) (shard w) ev)); [done..|lia|cbn [shard]; lia].
Qed.
End Range.

(** ** One visit *)

(** With one bucket per lock: the bounds of a visit, for a state that is the start of a bucket. *)
Lemma apply_bounds_one bits j : 1 <= bits <= 31 -> 0 <= j < 2 ^ bits ->
  apply_bounds bits 1 (j * 2 ^ (64 - bits)) =
    (j, j + 1, if j + 1 =? 2 ^ bits then SIZE_MAX else (j + 1) * 2 ^ (64 - bits)).
Proof.
  intros Hb Hj. unfold apply_bounds.
  assert (2 ^ bits * 2 ^ (64 - bits) = 2 ^ 64) as E by (rewrite <- Z.pow_add_r by lia; f_equal; lia).
  assert (0 < 2 ^ (64 - bits)) as Hp by (apply Z.pow_pos_nonneg; lia).
  assert (2 ^ bits <= 2 ^ 31) as Hb31 by (apply Z.pow_le_mono_r; lia).
  rewrite Z.shiftr_div_pow2, Z.div_mul by lia. rewrite (wrap_small 64 (j + 1)) by (unfold is_uint; lia).
  rewrite Z.geb_leb. destruct (Z.leb_spec (2 ^ bits) (j + 1)), (Z.eqb_spec (j + 1) (2 ^ bits)); try lia.
  - do 2 f_equal. lia.
  - rewrite Z.shiftl_mul_pow2 by lia. rewrite wrap_small; [done|]. unfold is_uint. nia.
Qed.

(** Where a traversal of a table is: at the end, or at the start of a bucket. *)
Definition at_bucket (bits st : Z) : Prop :=
  st = SIZE_MAX \/ exists j, 0 <= j < 2 ^ bits /\ st = j * 2 ^ (64 - bits).

Lemma at_bucket_grows bits bits' st : 1 <= bits -> bits <= bits' <= 31 -> at_bucket bits st -> at_bucket bits' st.
Proof.
  intros Hb Hb' [->|(j & Hj & ->)]; [by left|]. right. exists (j * 2 ^ (bits' - bits)).
  assert (0 < 2 ^ (bits' - bits)) by (apply Z.pow_pos_nonneg; lia).
  assert (2 ^ bits' = 2 ^ bits * 2 ^ (bits' - bits)) as -> by (rewrite <- Z.pow_add_r by lia; f_equal; lia).
  split; [nia|]. rewrite <- Z.mul_assoc, <- Z.pow_add_r by lia. do 2 f_equal. lia.
Qed.

Lemma at_bucket_not_end bits j : 1 <= bits <= 31 -> 0 <= j < 2 ^ bits -> j * 2 ^ (64 - bits) < SIZE_MAX.
Proof.
  intros Hb Hj. assert (2 ^ bits * 2 ^ (64 - bits) = 2 ^ 64) as E by (rewrite <- Z.pow_add_r by lia; f_equal; lia).
  assert (2 ^ 33 <= 2 ^ (64 - bits)) by (apply Z.pow_le_mono_r; lia). unfold SIZE_MAX. nia.
Qed.

(** A hash lies in the bucket [j] exactly if, in the upper half of a state, it lies between the
    start of the bucket and that of the next. *)
Lemma bucket_between bits j hv : 1 <= bits <= 31 -> is_uint 32 hv ->
  bucket_of bits hv = j <-> j * 2 ^ (64 - bits) <= hv * 2 ^ 32 < (j + 1) * 2 ^ (64 - bits).
Proof.
  intros Hb Hh. unfold bucket_of. rewrite Z.shiftr_div_pow2 by lia.
  assert (2 ^ (64 - bits) = 2 ^ (32 - bits) * 2 ^ 32) as -> by (rewrite <- Z.pow_add_r by lia; f_equal; lia).
  assert (0 < 2 ^ (32 - bits)) as Hp by (apply Z.pow_pos_nonneg; lia). set (n := 2 ^ (32 - bits)) in *.
  pose proof (Z.div_mod hv n ltac:(lia)). pose proof (Z.mod_pos_bound hv n ltac:(lia)).
  split; [intros <-; nia|]. intros [H1 H2]. symmetry. apply (Z.div_unique hv n j (hv - n * j)); nia.
Qed.

Lemma visit_ok w A cb st : Rep w A -> harmless cb -> at_bucket (table_bits w) st -> st <> SIZE_MAX ->
  exists j w', st = j * 2 ^ (64 - table_bits w) /\ 0 <= j < 2 ^ table_bits w /\
    visits 1 st w = bucket_entries w j /\
    call_all cb (visits 1 st w) w = Some ((), w') /\
    ApplyToSomeEntries cb 1 st w =
      Some (if j + 1 =? 2 ^ table_bits w then SIZE_MAX else (j + 1) * 2 ^ (64 - table_bits w), w').
Proof.
  intros R Hcb [->|(j & Hj & ->)] Hne; [done|]. destruct (rp_tab _ _ R) as [bs Rb].
  pose proof (tr_bits _ _ _ _ Rb) as Hb. exists j.
  assert (visits 1 (j * 2 ^ (64 - table_bits w)) w = bucket_entries w j) as Ev.
  { unfold visits. rewrite apply_bounds_one by done. replace (j + 1 - j) with 1 by lia.
    rewrite seqZ_cons by lia. cbn. by rewrite app_nil_r. }
  destruct (call_all_frame cb (bucket_entries w j) w Hcb) as [ev Hev].
  { rewrite (bucket_entries_rep w j Rb) by lia. destruct (bs !! Z.to_nat j) as [xs|] eqn:Hx; [|constructor].
    apply Forall_forall. intros l Hl. destruct (tr_sound _ _ _ _ Rb _ _ _ Hx Hl) as (e & He & _). eauto. }
  eexists. split_and!; [done|lia|lia|done|by rewrite Ev|].
  unfold ApplyToSomeEntries. rewrite (bind_step _ _ w (shard w) w) by done. rewrite apply_bounds_one by done.
  rewrite (bind_step _ _ w () (mkWorld (heap w) (shard w) ev)); [done|].
  unfold ApplyToEntriesRange. rewrite (bind_step _ _ w (base.size (heap w)) w) by done.
  replace (Z.to_nat (j + 1 - j)) with 1%nat by lia.
  rewrite (Apply_range_calls (bs := bs) (m := a_map A)); [|done..|lia|lia|lia].
  rewrite seqZ_cons by lia. cbn [map List.concat Z.pred]. by rewrite app_nil_r.
Qed.

(** ** A traversal among other threads *)

Definition times (h : ShardedCache.handle) (l : list ShardedCache.handle) : nat :=
  length (filter (fun x => x = h) l).

Lemma times_app h l l' : times h (l ++ l') = (times h l + times h l')%nat.
Proof. unfold times. by rewrite filter_app, length_app. Qed.

Lemma times_pair i j (l : positive) xs : NoDup xs ->
  times (i, l) (pair j <$> xs) = if bool_decide (i = j /\ l ∈ xs) then 1%nat else 0%nat.
Proof.
  induction 1 as [|x xs Hx Hnd IH]; [by rewrite bool_decide_false by set_solver|].
  unfold times in *. rewrite fmap_cons. destruct (decide ((j, x) = (i, l))) as [E|E].
  - rewrite filter_cons_True by exact E. injection E as -> ->. cbn [length]. rewrite IH.
    rewrite (bool_decide_false (i = i /\ l ∈ xs)), bool_decide_true by set_solver. done.
  - rewrite filter_cons_False, IH by exact E. destruct (decide (i = j /\ l ∈ xs)) as [H|H].
    + rewrite !bool_decide_true by set_solver. done.
    + rewrite !bool_decide_false; [done| |done]. intros [-> [->|]%elem_of_cons]; naive_solver.
Qed.

Section Traversal.
Context (env : CacheEnv) (NPHash64 : Slice -> Z -> Z).

(** The traversal, the cache with its other threads, and the entries visited so far. *)
Record TvSys : Set := mkTvSys {
  tv : option Traversal;
  tv_sys : ShSys;
  tv_log : list ShardedCache.handle;
}.

Inductive tv_step (aepl : Z) (T : TvSys) : TvSys -> Prop :=
| tv_own t t' vs : tv T = Some t -> traverse aepl t (cache (tv_sys T)) = Some (t', vs) ->
    tv_step aepl T (mkTvSys t' (tv_sys T) (tv_log T ++ vs))
| tv_other S' : sh_step env NPHash64 (tv_sys T) S' -> tv_step aepl T (mkTvSys (tv T) S' (tv_log T)).

Record TvInv (t : Traversal) (c : ShardedCache) : Prop := {
  ti_len : length (tv_states t) = length (shards_ c);
  ti_next : (tv_next t <= length (shards_ c))%nat;
  ti_states : forall j s st, shards_ c !! j = Some s -> tv_states t !! j = Some st ->
    at_bucket (table_bits (s_world s)) st;
  ti_done : tv_remaining_work t = false -> forall j st, (j < tv_next t)%nat -> tv_states t !! j = Some st -> st = SIZE_MAX;
}.

Lemma shard_rep c i s : Shards env NPHash64 c -> shards_ c !! i = Some s ->
  exists A, Rep (s_world s) A /\ Inv None A (s_held s) (s_pend s) /\ 1 <= table_bits (s_world s) <= 31.
Proof.
  intros D Hs. destruct (reach_rep env s (sd_reach _ _ _ D i s Hs)) as (A & R & I). exists A. split_and!; try done;
    destruct (rp_tab _ _ R) as [bs Rb]; pose proof (tr_bits _ _ _ _ Rb); lia.
Qed.

Lemma on_shard_bits c i o r c' : on_shard env i o c = Some (r, c') ->
  hash_seed_ c' = hash_seed_ c /\ length (shards_ c') = length (shards_ c) /\
  forall j s', shards_ c' !! j = Some s' -> exists s, shards_ c !! j = Some s /\
    table_bits (s_world s) <= table_bits (s_world s').
Proof.
  unfold on_shard. destruct (shards_ c !! i) as [s|] eqn:Hs; [|done]. cbn.
  destruct (sys_step env o s) as [[r0 s1]|] eqn:E; [|done]. cbn. intros [= _ <-]. cbn.
  split_and!; [done|by rewrite length_insert|]. intros j s' Hj.
  apply list_lookup_insert_Some in Hj as [(<- & <- & _)|[_ Hj]]; [|exists s'; by split].
  exists s. split; [done|]. exact (mo_bits _ _ _ (step_moves_on _ _ _ _ _ E)).
Qed.

Lemma sh_step_bits S S' : sh_step env NPHash64 S S' ->
  hash_seed_ (cache S') = hash_seed_ (cache S) /\ length (shards_ (cache S')) = length (shards_ (cache S)) /\
  forall j s', shards_ (cache S') !! j = Some s' -> exists s, shards_ (cache S) !! j = Some s /\
    table_bits (s_world s) <= table_bits (s_world s').
Proof.
  destruct 1 as [o a c _ E|i o s r c _ _ _ E| |g _ _|g o i r c _ E|g o _]; cbn [cache];
    try (by eapply on_shard_bits); try (split_and!; [done|done|intros j s' Hj; by exists s']).
  - unfold call in E. destruct (route NPHash64 o (cache S)) as [[i op]|]; [|done]. cbn in E.
    destruct (on_shard env i op (cache S)) as [[r c1]|] eqn:E1; [|done]. injection E as _ <-. by eapply on_shard_bits.
  - destruct g; cbn; (split_and!; [done|done|intros j s' Hj; by exists s']).
Qed.

Lemma TvInv_other t S S' : ShInv env NPHash64 S' -> ShInv env NPHash64 S -> sh_step env NPHash64 S S' ->
  TvInv t (cache S) -> TvInv t (cache S').
Proof.
  intros Iv' Iv St [T1 T2 T3 T4]. destruct (sh_step_bits S S' St) as (_ & Hl & Hb). split; [congruence|by rewrite Hl| |done].
  intros j s' st Hs' Hst. destruct (Hb j s' Hs') as (s & Hs & Hle).
  destruct (shard_rep _ _ _ (sh_shards _ _ _ Iv') Hs') as (_ & _ & _ & B1).
  destruct (shard_rep _ _ _ (sh_shards _ _ _ Iv) Hs) as (_ & _ & _ & B2).
  eapply at_bucket_grows; [| |by eapply T3]; lia.
Qed.

(** ** The steps of the traversal *)

Inductive tv_case (t : Traversal) (c : ShardedCache) : option Traversal -> list ShardedCache.handle -> Prop :=
| case_skip : (tv_next t < length (shards_ c))%nat -> tv_states t !! tv_next t = Some SIZE_MAX ->
    tv_case t c (Some (mkTraversal (tv_states t) (S (tv_next t)) (tv_remaining_work t))) []
| case_visit s j st st' : shards_ c !! tv_next t = Some s -> tv_states t !! tv_next t = Some st ->
    st = j * 2 ^ (64 - table_bits (s_world s)) -> 0 <= j < 2 ^ table_bits (s_world s) ->
    st' = (if j + 1 =? 2 ^ table_bits (s_world s) then SIZE_MAX else (j + 1) * 2 ^ (64 - table_bits (s_world s))) ->
    tv_case t c
      (Some (mkTraversal (<[tv_next t := st']> (tv_states t)) (S (tv_next t))
               (tv_remaining_work t || negb (st' =? SIZE_MAX))))
      (pair (tv_next t) <$> bucket_entries (s_world s) j)
| case_round : tv_next t = length (shards_ c) -> tv_remaining_work t = true ->
    tv_case t c (Some (mkTraversal (tv_states t) 0 false)) []
| case_end : tv_next t = length (shards_ c) -> tv_remaining_work t = false -> tv_case t c None [].

Lemma harmless_nothing : harmless (fun _ => mret ()).
Proof. intros e w. exists (trace w). by destruct w. Qed.

Lemma traverse_total t c : Shards env NPHash64 c -> TvInv t c ->
  exists t' vs, traverse 1 t c = Some (t', vs) /\ tv_case t c t' vs.
Proof.
  intros D [T1 T2 T3 T4]. destruct (num_shards _ _ _ D) as [Hn _]. unfold traverse. rewrite Hn, Nat2Z.id.
  destruct (Nat.ltb_spec (tv_next t) (length (shards_ c))) as [Hlt|Hge].
  - destruct (lookup_lt_is_Some_2 (tv_states t) (tv_next t)) as [st Hst]; [lia|]. rewrite Hst. cbn.
    destruct (Z.eqb_spec st SIZE_MAX) as [->|Hne]; [eexists _, _; split; [done|by constructor]|].
    destruct (lookup_lt_is_Some_2 _ _ Hlt) as [s Hs]. rewrite Hs. cbn.
    destruct (shard_rep _ _ _ D Hs) as (A & R & _ & B).
    destruct (visit_ok _ A (fun _ => mret ()) st R harmless_nothing (T3 _ _ _ Hs Hst) Hne) as (j & w' & Ej & Hj & Ev & _ & Ea).
    rewrite Ea. cbn. rewrite Ev. eexists _, _. split; [done|]. by econstructor.
  - assert (tv_next t = length (shards_ c)) as He by lia. destruct (tv_remaining_work t) eqn:Hrem;
      (eexists _, _; split; [done|]); by constructor.
Qed.

Lemma next_state_at bits j : 1 <= bits <= 31 -> 0 <= j < 2 ^ bits ->
  at_bucket bits (if j + 1 =? 2 ^ bits then SIZE_MAX else (j + 1) * 2 ^ (64 - bits)).
Proof. intros Hb Hj. destruct (Z.eqb_spec (j + 1) (2 ^ bits)); [by left|]. right. exists (j + 1). split; [lia|done]. Qed.

Lemma TvInv_own t t' vs c : Shards env NPHash64 c -> TvInv t c -> tv_case t c (Some t') vs -> TvInv t' c.
Proof.
  intros D [T1 T2 T3 T4] Hc. inversion Hc as [Hlt Hst| s j st st' Hs Hst Est Hj Est'|Hn Hrem|]; subst t' vs.
  - split; cbn; [done|lia|done|]. intros Hrem j st Hj Hjst.
    destruct (decide (j = tv_next t)) as [->|]; [congruence|]. apply (T4 Hrem j st); [lia|done].
  - assert (tv_next t < length (shards_ c))%nat as Hlt by (by eapply lookup_lt_Some).
    destruct (shard_rep _ _ _ D Hs) as (_ & _ & _ & B).
    split; cbn; [by rewrite length_insert|lia| |].
    + intros i s0 st0 Hs0 Hi. apply list_lookup_insert_Some in Hi as [(<- & <- & _)|[_ Hi]]; [|by eapply T3].
      rewrite Hs in Hs0. injection Hs0 as <-. rewrite Est'. by apply next_state_at.
    + intros Hrem i st0 Hi Hst0. apply orb_false_iff in Hrem as [Hrem He].
      apply list_lookup_insert_Some in Hst0 as [(<- & <- & _)|[Hne Hst0]].
      * apply negb_false_iff in He. by apply Z.eqb_eq in He.
      * apply (T4 Hrem i st0); [lia|done].
  - split; cbn; [done|lia|done|lia].
Qed.

(** *** How much is left to do *)

Definition left_of (st : Z) : Z := if st =? SIZE_MAX then 0 else 2 ^ 31 - st / 2 ^ 33.

Definition left_all (l : list Z) : Z := foldr (fun st n => left_of st + n) 0 l.

Lemma left_all_insert i st st' : forall l, l !! i = Some st -> left_all (<[i := st']> l) = left_all l - left_of st + left_of st'.
Proof.
  induction i as [|i IH]; intros [|x l] Hl; try done.
  - injection Hl as ->. change (left_of st' + left_all l = left_of st + left_all l - left_of st + left_of st'). lia.
  - change (left_of x + left_all (<[i := st']> l) = left_of x + left_all l - left_of st + left_of st').
    rewrite IH by done. lia.
Qed.

(** A bound for the steps that a traversal of [n] shards still takes. *)
Definition work (n : Z) (t : Traversal) : Z :=
  left_all (tv_states t) * (n + 2) + (n - Z.of_nat (tv_next t)) + (if tv_remaining_work t then n + 1 else 0).

Lemma left_of_bucket bits j : 1 <= bits <= 31 -> 0 <= j < 2 ^ bits ->
  left_of (j * 2 ^ (64 - bits)) = (2 ^ bits - j) * 2 ^ (31 - bits) /\ 1 <= 2 ^ (31 - bits).
Proof.
  intros Hb Hj. unfold left_of. pose proof (at_bucket_not_end bits j Hb Hj). destruct (Z.eqb_spec (j * 2 ^ (64 - bits)) SIZE_MAX); [lia|].
  assert (2 ^ (64 - bits) = 2 ^ (31 - bits) * 2 ^ 33) as -> by (rewrite <- Z.pow_add_r by lia; f_equal; lia).
  assert (2 ^ 31 = 2 ^ bits * 2 ^ (31 - bits)) as -> by (rewrite <- Z.pow_add_r by lia; f_equal; lia).
  rewrite Z.mul_assoc, Z.div_mul by lia. pose proof (Z.pow_pos_nonneg 2 (31 - bits)). lia.
Qed.

Lemma left_of_nonneg bits st : 1 <= bits <= 31 -> at_bucket bits st -> 0 <= left_of st.
Proof.
  intros Hb [->|(j & Hj & ->)]; [done|]. destruct (left_of_bucket bits j Hb Hj) as [-> ?]. nia.
Qed.

Lemma left_of_next bits j : 1 <= bits <= 31 -> 0 <= j < 2 ^ bits ->
  left_of (if j + 1 =? 2 ^ bits then SIZE_MAX else (j + 1) * 2 ^ (64 - bits)) < left_of (j * 2 ^ (64 - bits)).
Proof.
  intros Hb Hj. destruct (left_of_bucket bits j Hb Hj) as [-> Hp]. destruct (Z.eqb_spec (j + 1) (2 ^ bits)).
  - change (left_of SIZE_MAX) with 0. nia.
  - destruct (left_of_bucket bits (j + 1) Hb ltac:(lia)) as [-> _]. nia.
Qed.

Lemma left_all_nonneg t c : Shards env NPHash64 c -> TvInv t c -> 0 <= left_all (tv_states t).
Proof.
  intros D [T1 _ T3 _].
  assert (forall l, Forall (fun st => 0 <= left_of st) l -> 0 <= left_all l) as H.
  { induction 1; unfold left_all in *; cbn; lia. }
  apply H, Forall_lookup. intros i st Hst. destruct (lookup_lt_is_Some_2 (shards_ c) i) as [s Hs].
  { rewrite <- T1. by eapply lookup_lt_Some. }
  destruct (shard_rep _ _ _ D Hs) as (_ & _ & _ & B). eapply left_of_nonneg; [exact B|by eapply T3].
Qed.

Lemma work_decreases t t' vs c : Shards env NPHash64 c -> TvInv t c -> tv_case t c (Some t') vs ->
  0 <= work (GetNumShards c) t' < work (GetNumShards c) t.
Proof.
  intros D I Hc. pose proof (TvInv_own _ _ _ _ D I Hc) as I'. pose proof (left_all_nonneg _ _ D I') as Hp.
  pose proof (ti_next _ _ I') as Hn'. destruct (num_shards _ _ _ D) as [Hn _]. unfold work. rewrite Hn.
  set (n := Z.of_nat (length (shards_ c))) in *. split; [destruct (tv_remaining_work t'); nia|].
  inversion Hc as [Hlt Hst|s j st st' Hs Hst Est Hj Est'|He Hrem|]; subst t' vs; cbn [tv_states tv_next tv_remaining_work] in *.
  - lia.
  - destruct (shard_rep _ _ _ D Hs) as (_ & _ & _ & B). pose proof (left_of_next _ _ B Hj) as Hlt.
    rewrite (left_all_insert _ st) by done. rewrite <- Est', <- Est in Hlt.
    destruct (tv_remaining_work t), (negb (st' =? SIZE_MAX)); cbn [orb]; nia.
  - rewrite Hrem. nia.
Qed.

(** *** The entries met *)

(** The hash of the key has been passed. *)
Definition passed (hv st : Z) : bool := hv * 2 ^ 32 <? st.

Lemma passed_end hv : is_uint 32 hv -> passed hv SIZE_MAX = true.
Proof. intros [? ?]. unfold passed, SIZE_MAX. apply Z.ltb_lt. lia. Qed.

Lemma passed_next bits j hv : 1 <= bits <= 31 -> 0 <= j < 2 ^ bits -> is_uint 32 hv ->
  passed hv (if j + 1 =? 2 ^ bits then SIZE_MAX else (j + 1) * 2 ^ (64 - bits)) =
    passed hv (j * 2 ^ (64 - bits)) || bool_decide (bucket_of bits hv = j) /\
  (passed hv (j * 2 ^ (64 - bits)) = true -> bucket_of bits hv <> j).
Proof.
  intros Hb Hj Hh. pose proof (bucket_between bits j hv Hb Hh) as Hk.
  assert (2 ^ bits * 2 ^ (64 - bits) = 2 ^ 64) as E by (rewrite <- Z.pow_add_r by lia; f_equal; lia).
  split.
  - destruct (Z.eqb_spec (j + 1) (2 ^ bits)) as [E1|E1].
    + rewrite passed_end by done. symmetry. unfold passed. destruct (Z.ltb_spec (hv * 2 ^ 32) (j * 2 ^ (64 - bits))); [done|].
      cbn. apply bool_decide_true, Hk. rewrite E1, E. destruct Hh. lia.
    + unfold passed. destruct (Z.ltb_spec (hv * 2 ^ 32) ((j + 1) * 2 ^ (64 - bits))),
        (Z.ltb_spec (hv * 2 ^ 32) (j * 2 ^ (64 - bits))); cbn [orb]; symmetry; try done.
      * apply bool_decide_true, Hk. lia.
      * pose proof (Z.pow_pos_nonneg 2 (64 - bits)). nia.
      * apply bool_decide_false. rewrite Hk. lia.
  - intros Hp%Z.ltb_lt. rewrite Hk. lia.
Qed.

Lemma bucket_entries_cached c i s A bs j k l : Shards env NPHash64 c -> shards_ c !! i = Some s ->
  Rep (s_world s) A -> Inv None A (s_held s) (s_pend s) -> TabRepB (heap (s_world s)) (table_ (shard (s_world s))) bs (a_map A) ->
  0 <= j -> cached c k (i, l) ->
  NoDup (bucket_entries (s_world s) j) /\
  (l ∈ bucket_entries (s_world s) j <-> bucket_of (table_bits (s_world s)) (ComputeHash NPHash64 k (hash_seed_ c)) = j).
Proof.
  intros D Hs R I Rb Hj Hc. rewrite (bucket_entries_rep _ _ Rb Hj).
  destruct Hc as (e & He & Hne & Hin & Hk). unfold cell in He. cbn in He, Hne. rewrite Hs in He. cbn in He.
  destruct (sd_hash _ _ _ D i s l e Hs Hne He) as [Hh _]. rewrite Hk in Hh. rewrite <- Hh.
  destruct (inv_obj I l _ ltac:(done) (rep_obj _ _ _ _ R Hne He)) as (_ & _ & H3 & _).
  assert (a_map A !! (key e, hash e) = Some l) as Hm by (by apply H3).
  destruct (tr_complete _ _ _ _ Rb _ _ Hm) as (_ & e' & He' & _ & Hl).
  apply elem_of_concat in Hl as (i0 & xs0 & Hi0 & Hl0). pose proof (tr_sound _ _ _ _ Rb _ _ _ Hi0 Hl0) as (e0 & He0 & _ & Hb0).
  rewrite He in He0. injection He0 as <-. split.
  - destruct (bs !! Z.to_nat j) as [xs|] eqn:Hx; [|constructor]. by eapply (rep_NoDup Rb).
  - rewrite Hb0. split.
    + destruct (bs !! Z.to_nat j) as [xs|] eqn:Hx; cbn; [|set_solver]. intros Hl.
      destruct (tr_sound _ _ _ _ Rb _ _ _ Hx Hl) as (e1 & He1 & _ & Hb1). rewrite He in He1. injection He1 as <-. lia.
    + intros <-. by rewrite Nat2Z.id, Hi0.
Qed.

(** A visit meets the handle exactly if it passes its hash. *)
Lemma visit_times c t t' vs k i l : Shards env NPHash64 c -> TvInv t c -> tv_case t c (Some t') vs ->
  cached c k (i, l) ->
  forall st, tv_states t !! i = Some st -> exists st', tv_states t' !! i = Some st' /\
    let hv := ComputeHash NPHash64 k (hash_seed_ c) in
    ((if passed hv st then 1 else 0) + times (i, l) vs = if passed hv st' then 1 else 0)%nat.
Proof.
  intros D I Hc Hk st Hst.
  assert (is_uint 32 (ComputeHash NPHash64 k (hash_seed_ c))) as Hu by (by apply wrap_range).
  inversion Hc as [|s j st0 st' Hs Hst0 Est Hj Est'| |]; subst t' vs; cbn [tv_states];
    try (exists st; split; [done|]; cbv zeta; by rewrite Nat.add_0_r).
  destruct (shard_rep _ _ _ D Hs) as (A & R & Iv & B). destruct (decide (i = tv_next t)) as [Ei|Ei].
  - destruct (rp_tab _ _ R) as [bs Rb]. rewrite Ei in *.
    rewrite list_lookup_insert_eq by (by eapply lookup_lt_Some). exists st'. split; [done|]. cbv zeta.
    rewrite Hst in Hst0. injection Hst0 as <-.
    destruct (bucket_entries_cached c _ s A bs j k l D Hs R Iv Rb ltac:(lia) Hk) as [Hnd Hl].
    destruct (passed_next _ _ _ B Hj Hu) as [Hp Hq]. rewrite <- Est', <- Est in Hp. rewrite <- Est in Hq.
    rewrite times_pair, Hp by done. clear Hp Est'.
    destruct (decide (bucket_of (table_bits (s_world s)) (ComputeHash NPHash64 k (hash_seed_ c)) = j)) as [Hb|Hb].
    + rewrite !bool_decide_true by (done || by split; [|apply Hl]). rewrite orb_true_r.
      destruct (passed _ st) eqn:Ep; [by destruct (Hq eq_refl)|done].
    + rewrite !bool_decide_false by (done || naive_solver). rewrite orb_false_r. lia.
  - rewrite list_lookup_insert_ne by done. exists st. split; [done|]. cbv zeta.
    rewrite times_pair by (destruct (rp_tab _ _ R) as [bs Rb]; rewrite (bucket_entries_rep _ _ Rb) by lia;
      destruct (bs !! Z.to_nat j) eqn:Hx; [by eapply (rep_NoDup Rb)|constructor]).
    rewrite bool_decide_false by naive_solver. lia.
Qed.

(** ** The theorems *)

Record TvOk (T : TvSys) : Prop := {
  to_sys : ShInv env NPHash64 (tv_sys T);
  to_tv : forall t, tv T = Some t -> TvInv t (cache (tv_sys T));
}.

(** A traversal of the cache that begins now. *)
Definition tv_start (S : ShSys) : TvSys := mkTvSys (Some (Traversal_new (GetNumShards (cache S)))) S [].

Lemma TvOk_start S : sh_reach env NPHash64 S -> TvOk (tv_start S).
Proof.
  intros Hr. pose proof (sh_reach_ok _ _ _ Hr) as V. pose proof (sh_shards _ _ _ V) as D.
  destruct (num_shards _ _ _ D) as [Hn _]. split; [done|]. intros t [= <-].
  split; cbn; [by rewrite length_replicate, Hn, Nat2Z.id|lia| |lia].
  intros j s st Hs [-> _]%lookup_replicate. right. exists 0. split; [|done].
  destruct (shard_rep _ _ _ D Hs) as (_ & _ & _ & B). pose proof (Z.pow_pos_nonneg 2 (table_bits (s_world s))). lia.
Qed.

Lemma TvOk_own T t : TvOk T -> tv T = Some t ->
  exists t' vs, traverse 1 t (cache (tv_sys T)) = Some (t', vs) /\ tv_case t (cache (tv_sys T)) t' vs.
Proof. intros [V1 V2] Ht. apply traverse_total; [apply (sh_shards _ _ _ V1)|by apply V2]. Qed.

Lemma TvOk_step T T' : TvOk T -> tv_step 1 T T' -> TvOk T'.
Proof.
  intros V St. pose proof V as [V1 V2]. destruct St as [t t' vs Ht Htr|S' St]; cbn.
  - split; [done|]. intros t1 E1. cbn in E1. subst t'. destruct (TvOk_own T t V Ht) as (t0 & vs0 & E & Hc).
    rewrite E in Htr. injection Htr as -> ->. eapply TvInv_own; [apply (sh_shards _ _ _ V1)|by apply V2|done].
  - pose proof (sh_step_ok _ _ _ _ V1 St). split; [done|]. intros t Ht. by eapply TvInv_other; [..|apply V2].
Qed.

(** How often the entry of a key has been met. *)
Definition met_so_far (k : Slice) (h : ShardedCache.handle) (T : TvSys) : Prop :=
  match tv T with
  | None => times h (tv_log T) = 1%nat
  | Some t => exists st, tv_states t !! h.1 = Some st /\
      times h (tv_log T) = if passed (ComputeHash NPHash64 k (hash_seed_ (cache (tv_sys T)))) st then 1%nat else 0%nat
  end.

(** The handle stays in the cache. *)
Definition steady (k : Slice) (h : ShardedCache.handle) (aepl : Z) (T T' : TvSys) : Prop :=
  tv_step aepl T T' /\ cached (cache (tv_sys T)) k h.

Lemma met_step k h T T' : TvOk T -> met_so_far k h T -> steady k h 1 T T' -> met_so_far k h T'.
Proof.
  intros V V3 [St Hk]. pose proof V as [V1 V2]. pose proof (sh_shards _ _ _ V1) as D. destruct h as [i l].
  unfold met_so_far in *. destruct St as [t t' vs Ht Htr|S' St]; cbn [tv tv_sys tv_log].
  - rewrite Ht in V3. destruct V3 as (st & Hst & Hn). pose proof (V2 t Ht) as I.
    destruct (TvOk_own T t V Ht) as (t0 & vs0 & E & Hc). rewrite E in Htr. injection Htr as -> ->.
    destruct t' as [t'|].
    + destruct (visit_times _ _ _ _ _ _ _ D I Hc Hk st Hst) as (st' & Hst' & Hv). exists st'. split; [done|].
      by rewrite times_app, Hn.
    + inversion Hc as [| | |He Hrem]. rewrite app_nil_r, Hn.
      rewrite (ti_done _ _ I Hrem i st), passed_end; [done|by apply wrap_range| |done].
      rewrite He, <- (ti_len _ _ I). by eapply lookup_lt_Some.
  - destruct (sh_step_bits _ _ St) as (Hseed & _). by rewrite Hseed.
Qed.

Lemma met_start k h S : sh_reach env NPHash64 S -> cached (cache S) k h -> met_so_far k h (tv_start S).
Proof.
  intros Hr (e & He & _). destruct (num_shards _ _ _ (sh_shards _ _ _ (sh_reach_ok _ _ _ Hr))) as [Hn _].
  exists 0. split.
  - apply lookup_replicate. split; [done|]. rewrite Hn, Nat2Z.id. unfold cell in He.
    destruct (shards_ (cache S) !! h.1) eqn:E; [|done]. by eapply lookup_lt_Some.
  - destruct (passed _ 0) eqn:E; [|done]. apply Z.ltb_lt in E.
    pose proof (wrap_range 32 (NPHash64 k (hash_seed_ (cache S))) ltac:(lia)) as [? _]. unfold ComputeHash in E. cbn in E. lia.
Qed.

(** C27: a traversal of all entries, by a thread that takes the lock of one shard at a time while
    other threads use the cache and tables grow. If a key has the same entry from the start to
    the end, the entry is visited exactly once, whatever happens to others. *)
Theorem traversal_once S k h n T (Hr : sh_reach env NPHash64 S) (Hn : 1 <= n) (Hk : cached (cache S) k h)
    (Hrun : rtc (steady k h (entries_per_lock n)) (tv_start S) T) (Hend : tv T = None) :
  times h (tv_log T) = 1%nat.
Proof.
  replace (entries_per_lock n) with 1 in Hrun by (unfold entries_per_lock; lia).
  pose proof (TvOk_start S Hr) as V. pose proof (met_start k h S Hr Hk) as Hm. revert V Hm.
  induction Hrun as [T|T1 T2 T3 H12 _ IH]; intros V Hm.
  - unfold met_so_far in Hm. by rewrite Hend in Hm.
  - apply IH; [done|by apply (TvOk_step T1), H12|by eapply met_step].
Qed.

(** the traversal ends. In every state of a run its next step is defined, visiting a shard
    does not fail, and each of its steps lowers a natural number that no other thread
    changes: it takes at most [work] steps of its own. *)
Theorem traversal_ends S n T t (Hr : sh_reach env NPHash64 S) (Hn : 1 <= n)
    (Hrun : rtc (tv_step (entries_per_lock n)) (tv_start S) T) (Ht : tv T = Some t) :
  exists t' vs, traverse (entries_per_lock n) t (cache (tv_sys T)) = Some (t', vs) /\
    forall t1, t' = Some t1 ->
      0 <= work (GetNumShards (cache (tv_sys T))) t1 < work (GetNumShards (cache (tv_sys T))) t.
Proof.
  replace (entries_per_lock n) with 1 in * by (unfold entries_per_lock; lia).
  assert (TvOk T) as V.
  { pose proof (TvOk_start S Hr) as V. revert V. clear Ht.
    induction Hrun as [T|T1 T2 T3 H12 _ IH]; intros V; [done|]. by apply IH, (TvOk_step T1). }
  destruct (TvOk_own T t V Ht) as (t' & vs & E & Hc). exists t', vs. split; [done|]. intros t1 ->.
  pose proof V as [V1 V2]. eapply work_decreases; [apply (sh_shards _ _ _ V1)|by apply V2|done].
Qed.
End Traversal.

(** Whatever callback does not touch the cache is called on exactly the entries recorded. *)
Lemma callback_calls env NPHash64 c cb i s st : Shards env NPHash64 c -> shards_ c !! i = Some s ->
  harmless cb -> at_bucket (table_bits (s_world s)) st -> st <> SIZE_MAX ->
  exists st' w', call_all cb (visits 1 st (s_world s)) (s_world s) = Some ((), w') /\
    ApplyToSomeEntries cb 1 st (s_world s) = Some (st', w').
Proof.
  intros D Hs Hcb Ha Hne. destruct (shard_rep _ _ _ _ _ D Hs) as (A & R & _ & _).
  destruct (visit_ok _ A cb st R Hcb Ha Hne) as (j & w' & _ & _ & _ & E1 & E2). eauto.
Qed.

(** The option [average_entries_per_lock] has no effect from 1 on; with 0 the state of a shard
    never changes, so that the loop goes on for ever. *)
Lemma entries_per_lock_ignored n : 1 <= n -> entries_per_lock n = 1.
Proof. unfold entries_per_lock. lia. Qed.

Lemma apply_zero_spins bits : 1 <= bits <= 31 -> apply_bounds bits (entries_per_lock 0) 0 = (0, 0, 0).
Proof.
  intros Hb. unfold apply_bounds. rewrite Z.shiftr_0_l. cbn [entries_per_lock Z.min]. change (u64 (0 + _)) with 0.
  pose proof (Z.pow_pos_nonneg 2 bits). rewrite Z.geb_leb. destruct (Z.leb_spec (2 ^ bits) 0); [lia|].
  by rewrite Z.shiftl_0_l.
Qed.

(** ** A traversal of the two shards of the example *)

Fixpoint run_traversal (fuel : nat) (t : Traversal) (c : ShardedCache) (log : list ShardedCache.handle) :
    option (list ShardedCache.handle) :=
  match fuel with
  | O => None
  | S fuel =>
      '(t', vs) ← traverse 1 t c;
      match t' with
      | Some t' => run_traversal fuel t' c (log ++ vs)
      | None => Some (log ++ vs)
      end
  end.

Lemma run_traversal_steps env NPHash64 k h S : cached (cache S) k h -> forall fuel t log log',
  run_traversal fuel t (cache S) log = Some log' ->
  rtc (steady env NPHash64 k h 1) (mkTvSys (Some t) S log) (mkTvSys None S log').
Proof.
  intros Hk. induction fuel as [|fuel IH]; intros t log log' E; [done|]. cbn [run_traversal] in E.
  destruct (traverse 1 t (cache S)) as [[t' vs]|] eqn:Et; [|done]. cbn in E.
  eapply rtc_l; [split; [by eapply (tv_own _ _ _ (mkTvSys (Some t) S log))|done]|]. cbn.
  destruct t' as [t'|]; [by apply IH|]. by injection E as <-.
Qed.

Lemma demo_cached : cached demo_sharded [x62] (1%nat, 2%positive).
Proof.
  assert ((fun e => (InCache e, key e)) <$> cell (1%nat, 2%positive) demo_sharded = Some (true, [x62])) as H
    by (vm_compute; reflexivity).
  unfold cached. destruct (cell _ demo_sharded) as [e|]; [|done]. injection H as H1 H2. exists e. by split_and!.
Qed.

Lemma demo_traversal : run_traversal 60 (Traversal_new (GetNumShards demo_sharded)) demo_sharded [] =
  Some [(0%nat, 2%positive); (1%nat, 2%positive)].
Proof. vm_compute. reflexivity. Qed.

Lemma traversal_once_witness : exists T, tv T = None /\ times (1%nat, 2%positive) (tv_log T) = 1%nat.
Proof.
  exists (mkTvSys None (mkShSys demo_sharded None) [(0%nat, 2%positive); (1%nat, 2%positive)]).
  split; [reflexivity|].
  apply (traversal_once plain_env byte_hash (mkShSys demo_sharded None) [x62] (1%nat, 2%positive) 256 _
    demo_sharded_reach); [lia|exact demo_cached| |reflexivity].
  apply (run_traversal_steps plain_env byte_hash [x62] (1%nat, 2%positive) (mkShSys demo_sharded None) demo_cached 60).
  exact demo_traversal.
Defined.

Lemma traversal_ends_witness :
  let t := Traversal_new (GetNumShards demo_sharded) in
  exists t' vs, traverse (entries_per_lock 256) t demo_sharded = Some (t', vs) /\
    forall t1, t' = Some t1 -> 0 <= work (GetNumShards demo_sharded) t1 < work (GetNumShards demo_sharded) t.
Proof.
  intros t.
  exact (traversal_ends plain_env byte_hash (mkShSys demo_sharded None) 256 (tv_start (mkShSys demo_sharded None)) t
    demo_sharded_reach ltac:(lia) (rtc_refl _ _) eq_refl).
Defined.
