(* ===== verification/Math128.v ===== *)
(** * Bit manipulation and 128-bit arithmetic

    [util/math.h], [util/math128.h] and [util/fastrange.h]: the functions on machine integers
    that hashes and cache keys are made of, in the portable versions. A function template over
    integer types takes the number of bytes of its type. [Unsigned128] is the structure of two
    words that stands in where the compiler has no such type; [val128] is the number it stands
    for, and its operators are proved to be those of numbers modulo 2^128. *)

From S2P Require Import Prelude.
From S2P Require Import Coding.
From S2P Require Import Bits.

(** ** Bits of integers *)

(** The loop of [EndianSwapValue]; what the compiler's builtins compute. *)
Definition EndianSwapValue (sizeof : Z) (v : Z) : Z :=
  foldl (fun ret_val i => Z.lor ret_val (Z.shiftl (Z.land (Z.shiftr v (8 * i)) 0xff) (8 * (sizeof - 1 - i))))
    0 (seqZ 0 sizeof).

(** One of the three exchanges of [ReverseBits]. *)
Definition exchange (sizeof : Z) (mask k r : Z) : Z :=
  Z.lor (wrap (8 * sizeof) (Z.shiftl (Z.land r mask) k)) (Z.land (Z.shiftr r k) mask).

Definition ReverseBits (sizeof : Z) (v : Z) : Z :=
  let r := EndianSwapValue sizeof v in
  let kHighestByte := Z.shiftl 1 ((sizeof - 1) * 8) in
  let kEveryByte := Z.lor kHighestByte (kHighestByte / 255) in
  let r := exchange sizeof (kEveryByte * 0x0f) 4 r in
  let r := exchange sizeof (kEveryByte * 0x33) 2 r in
  exchange sizeof (kEveryByte * 0x55) 1 r.

Definition DownwardInvolution (sizeof : Z) (v : Z) : Z :=
  let r := v in
  let r := if sizeof >? 4 then Z.lxor r (Z.shiftr r 32) else r in
  let r := if sizeof >? 2 then Z.lxor r (Z.shiftr (Z.land r 0xffff0000ffff0000) 16) else r in
  let r := if sizeof >? 1 then Z.lxor r (Z.shiftr (Z.land r 0xff00ff00ff00ff00) 8) else r in
  let r := Z.lxor r (Z.shiftr (Z.land r 0xf0f0f0f0f0f0f0f0) 4) in
  let r := Z.lxor r (Z.shiftr (Z.land r 0xcccccccccccccccc) 2) in
  let r := Z.lxor r (Z.shiftr (Z.land r 0xaaaaaaaaaaaaaaaa) 1) in
  wrap (8 * sizeof) r.

Definition BottomNBits (v nbits : Z) : Z := Z.land v (Z.shiftl 1 nbits - 1).

(** [while (v > T{1})]; a 64-bit value is halved at most 63 times. *)
Fixpoint floor_log2_loop (fuel : nat) (v rv : Z) : Z :=
  match fuel with
  | O => rv
  | S fuel => if v >? 1 then floor_log2_loop fuel (Z.shiftr v 1) (rv + 1) else rv
  end.

Definition ConstexprFloorLog2 (v : Z) : Z := floor_log2_loop 64 v 0.

(** The compiler's [__builtin_clzl] and [__builtin_popcount] *)
Definition builtin_clz64 (v : Z) : Z := 63 - Z.log2 v.

Definition FloorLog2 (v : Z) : Z := 8 * 8 - 1 - builtin_clz64 v.

Fixpoint popcount_pos (p : positive) : Z :=
  match p with xH => 1 | xO p => popcount_pos p | xI p => 1 + popcount_pos p end.

Definition BitsSetToOne (v : Z) : Z := match v with Zpos p => popcount_pos p | _ => 0 end.

Definition BitParity (v : Z) : Z := Z.land (BitsSetToOne v) 1.

(** The fallback for compilers without such a builtin. *)
Fixpoint fold_halves (n : nat) (kBits shift_bits v : Z) : Z :=
  match n with
  | O => v
  | S n =>
      if shift_bits <? kBits
      then fold_halves n kBits (Z.shiftl shift_bits 1) (wrap kBits (v + Z.shiftr v shift_bits)) else v
  end.

Definition BitsSetToOneFallback (sizeof : Z) (v : Z) : Z :=
  let kBits := 8 * sizeof in
  let v := wrap kBits (v - Z.land (Z.shiftr v 1) (wrap kBits 0x5555555555555555)) in
  let v := wrap kBits (Z.land v (wrap kBits 0x3333333333333333)
                       + Z.land (Z.shiftr v 2) (wrap kBits 0x3333333333333333)) in
  let v := Z.land (v + Z.shiftr v 4) (wrap kBits 0x0F0F0F0F0F0F0F0F) in
  let v := fold_halves 3 kBits 8 v in
  Z.land v (Z.lor kBits (kBits - 1)).

(** The 64-bit case for a compiler with a 32-bit population count only. *)
Definition BitsSetToOne_halves (v : Z) : Z := BitsSetToOne (u32 (Z.shiftr v 32 + BitsSetToOne (u32 v))).

(** ** The structure of two words *)

Record Unsigned128 : Set := mkU128 { lo : Z; hi : Z }.

Definition U128 (lower : Z) : Unsigned128 := mkU128 lower 0.

Definition shl128 (lhs : Unsigned128) (shift : Z) : Unsigned128 :=
  let shift := Z.land shift 127 in
  if shift >=? 64 then mkU128 0 (u64 (Z.shiftl (lo lhs) (Z.land shift 63)))
  else
    let tmp := lo lhs in
    mkU128 (u64 (Z.shiftl tmp shift))
      (Z.lor (Z.shiftr (Z.shiftr tmp 1) (63 - shift)) (u64 (Z.shiftl (hi lhs) shift))).

Definition and128 (lhs rhs : Unsigned128) := mkU128 (Z.land (lo lhs) (lo rhs)) (Z.land (hi lhs) (hi rhs)).
Definition or128 (lhs rhs : Unsigned128) := mkU128 (Z.lor (lo lhs) (lo rhs)) (Z.lor (hi lhs) (hi rhs)).
Definition xor128 (lhs rhs : Unsigned128) := mkU128 (Z.lxor (lo lhs) (lo rhs)) (Z.lxor (hi lhs) (hi rhs)).
Definition not128 (v : Unsigned128) := mkU128 (u64 (Z.lnot (lo v))) (u64 (Z.lnot (hi v))).

Definition eq128 (lhs rhs : Unsigned128) : bool := (lo lhs =? lo rhs) && (hi lhs =? hi rhs).
Definition ne128 (lhs rhs : Unsigned128) : bool := negb (lo lhs =? lo rhs) || negb (hi lhs =? hi rhs).
Definition gt128 (lhs rhs : Unsigned128) : bool :=
  (hi lhs >? hi rhs) || ((hi lhs =? hi rhs) && (lo lhs >? lo rhs)).
Definition lt128 (lhs rhs : Unsigned128) : bool :=
  (hi lhs <? hi rhs) || ((hi lhs =? hi rhs) && (lo lhs <? lo rhs)).
Definition ge128 (lhs rhs : Unsigned128) : bool :=
  (hi lhs >? hi rhs) || ((hi lhs =? hi rhs) && (lo lhs >=? lo rhs)).
Definition le128 (lhs rhs : Unsigned128) : bool :=
  (hi lhs <? hi rhs) || ((hi lhs =? hi rhs) && (lo lhs <=? lo rhs)).

Definition Lower64of128 (v : Unsigned128) : Z := lo v.
Definition Upper64of128 (v : Unsigned128) : Z := hi v.

Definition low32 (a : Z) : Z := Z.land a 0xffffFFFF.

Definition Multiply64to128 (a b : Z) : Unsigned128 :=
  let tmp := u64 (low32 b * low32 a) in
  let lower := low32 tmp in
  let tmp := Z.shiftr tmp 32 in
  let tmp := u64 (tmp + u64 (low32 b * Z.shiftr a 32)) in
  let tmp2 := u64 (Z.shiftr b 32 * low32 a) in
  let tmp := u64 (tmp + low32 tmp2) in
  let lower := Z.lor lower (u64 (Z.shiftl tmp 32)) in
  let tmp := Z.shiftr tmp 32 in
  let tmp := u64 (tmp + Z.shiftr tmp2 32) in
  let tmp := u64 (tmp + u64 (Z.shiftr b 32 * Z.shiftr a 32)) in
  mkU128 lower tmp.

Definition BottomNBits128 (v : Unsigned128) (nbits : Z) : Unsigned128 :=
  if nbits <? 64 then U128 (BottomNBits (Lower64of128 v) nbits)
  else or128 (shl128 (U128 (BottomNBits (Upper64of128 v) (nbits - 64))) 64) (U128 (Lower64of128 v)).

Definition FloorLog2_128 (v : Unsigned128) : Z :=
  if Upper64of128 v =? 0 then FloorLog2 (Lower64of128 v) else FloorLog2 (Upper64of128 v) + 64.

Definition BitsSetToOne128 (v : Unsigned128) : Z := BitsSetToOne (Lower64of128 v) + BitsSetToOne (Upper64of128 v).
Definition BitParity128 (v : Unsigned128) : Z := BitParity (Z.lxor (Lower64of128 v) (Upper64of128 v)).

Definition EndianSwapValue128 (v : Unsigned128) : Unsigned128 :=
  or128 (shl128 (U128 (EndianSwapValue 8 (Lower64of128 v))) 64) (U128 (EndianSwapValue 8 (Upper64of128 v))).
Definition ReverseBits128 (v : Unsigned128) : Unsigned128 :=
  or128 (shl128 (U128 (ReverseBits 8 (Lower64of128 v))) 64) (U128 (ReverseBits 8 (Upper64of128 v))).
Definition DownwardInvolution128 (v : Unsigned128) : Unsigned128 :=
  or128 (shl128 (U128 (DownwardInvolution 8 (Upper64of128 v))) 64)
    (U128 (DownwardInvolution 8 (Z.lxor (Upper64of128 v) (Lower64of128 v)))).

Definition EncodeFixed128 (value : Unsigned128) : list byte :=
  EncodeFixed64 (Lower64of128 value) ++ EncodeFixed64 (Upper64of128 value).
Definition DecodeFixed128 (ptr : list byte) : Unsigned128 :=
  let rv := U128 (DecodeFixed64 (drop 8 ptr)) in
  or128 (shl128 rv 64) (U128 (DecodeFixed64 ptr)).

(** ** Reduction to a range *)

Definition FastRange32 (hash range : Z) : Z := u32 (Z.shiftr (u64 (range * hash)) 32).

(** The product of the extension type, and the version without it. *)
Definition FastRange64 (hash range : Z) : Z := Z.shiftr (range * hash) 64.

Definition FastRange64_fallback (hash range64 : Z) : Z :=
  let tmp := u64 (low32 range64 * low32 hash) in
  let tmp := Z.shiftr tmp 32 in
  let tmp := u64 (tmp + u64 (low32 range64 * low32 hash)) in
  let tmp2 := u64 (Z.shiftr range64 32 * low32 hash) in
  let tmp := u64 (tmp + u32 tmp2) in
  let tmp := u64 (tmp + Z.shiftr tmp2 32) in
  u64 (tmp + u64 (Z.shiftr range64 32 * Z.shiftr hash 32)).

(** ** What the bit functions compute *)

Lemma or_all_spec (f : Z -> Z) l : forall acc i,
  Z.testbit (foldl (fun a j => Z.lor a (f j)) acc l) i = Z.testbit acc i || existsb (fun j => Z.testbit (f j) i) l.
Proof.
  induction l as [|j l IH]; intros acc i; cbn; [by rewrite orb_false_r|].
  by rewrite IH, Z.lor_spec, orb_assoc.
Qed.

Lemma byte_piece_spec v j k i : 0 <= i -> 0 <= j ->
  Z.testbit (Z.shiftl (Z.land (Z.shiftr v (8 * j)) 0xff) (8 * k)) i
  = (8 * k <=? i) && (i <? 8 * k + 8) && Z.testbit v (i - 8 * k + 8 * j).
Proof.
  intros Hi Hj. rewrite Z.shiftl_spec, Z.land_spec by done. change 0xff with (Z.ones 8).
  destruct (Z.leb_spec (8 * k) i); cbn.
  - rewrite Z.shiftr_spec by lia. rewrite Z.testbit_ones_nonneg by lia.
    rewrite andb_comm. f_equal. destruct (Z.ltb_spec (i - 8 * k) 8), (Z.ltb_spec i (8 * k + 8)); done || lia.
  - by rewrite (Z.testbit_neg_r (Z.ones 8)), andb_false_r by lia.
Qed.

Lemma EndianSwapValue_spec n v i : 0 <= n -> 0 <= i ->
  Z.testbit (EndianSwapValue n v) i = (i <? 8 * n) && Z.testbit v (8 * (n - 1 - i / 8) + i mod 8).
Proof.
  intros Hn Hi. unfold EndianSwapValue. rewrite (or_all_spec (fun j => Z.shiftl _ _)), Z.bits_0. cbn [orb].
  pose proof (Z.div_mod i 8 ltac:(lia)). pose proof (Z.mod_pos_bound i 8 ltac:(lia)).
  apply eq_true_iff_eq. rewrite existsb_exists, andb_true_iff, Z.ltb_lt. split.
  - intros (j & Hj & Hb). apply list_elem_of_In, elem_of_seqZ in Hj.
    rewrite byte_piece_spec in Hb by lia. rewrite !andb_true_iff, Z.leb_le, Z.ltb_lt in Hb.
    destruct Hb as [[H1 H2] Hb]. assert (i / 8 = n - 1 - j) as E by (symmetry; apply (Z.div_unique i 8 _ (i - 8 * (n - 1 - j))); lia).
    split; [lia|]. rewrite E. replace (8 * (n - 1 - (n - 1 - j)) + i mod 8) with (i - 8 * (n - 1 - j) + 8 * j); [done|lia].
  - intros [Hlt Hb]. exists (n - 1 - i / 8). split.
    + apply list_elem_of_In, elem_of_seqZ. assert (i / 8 < n) by (apply Z.div_lt_upper_bound; lia).
      pose proof (Z.div_pos i 8). lia.
    + rewrite byte_piece_spec by (assert (i / 8 < n) by (apply Z.div_lt_upper_bound; lia); lia).
      rewrite !andb_true_iff, Z.leb_le, Z.ltb_lt. split; [lia|]. rewrite <- Hb. f_equal. lia.
Qed.


Lemma uint_of_bits n v : 0 <= n -> (forall i, n <= i -> Z.testbit v i = false) -> is_uint n v.
Proof.
  intros Hn Hb. assert (v = wrap n v) as ->; [|by apply wrap_range].
  apply Z.bits_inj'. intros i Hi. rewrite wrap_land, Z.land_spec, Z.testbit_ones_nonneg by done.
  destruct (Z.ltb_spec i n); [by rewrite andb_true_r|]. by rewrite Hb.
Qed.

Lemma uint_bits n v i : is_uint n v -> n <= i -> Z.testbit v i = false.
Proof.
  intros [Hv1 Hv2] Hi. destruct (Z.eq_dec v 0) as [->|]; [apply Z.bits_0|].
  apply Z.bits_above_log2; [done|]. assert (Z.log2 v < n) by (apply Z.log2_lt_pow2; lia). lia.
Qed.

Lemma EndianSwapValue_range n v : 0 <= n -> is_uint (8 * n) (EndianSwapValue n v).
Proof.
  intros Hn. apply uint_of_bits; [lia|]. intros i Hi. rewrite EndianSwapValue_spec by lia.
  by destruct (Z.ltb_spec i (8 * n)); [lia|].
Qed.

#[global] Instance linear_swap n f `{BitLinear f} : BitLinear (fun x => EndianSwapValue (Z.abs n) (f x)).
Proof.
  intros a b. rewrite (bit_linear (f := f)). apply Z.bits_inj'. intros i Hi.
  rewrite Z.lxor_spec, !EndianSwapValue_spec, Z.lxor_spec by lia.
  by destruct (i <? _), (Z.testbit (f a) _), (Z.testbit (f b) _).
Qed.

(** Swapping the bytes twice gives the value back. *)
Theorem EndianSwapValue_involutive n v : 0 <= n -> is_uint (8 * n) v ->
  EndianSwapValue n (EndianSwapValue n v) = v.
Proof.
  intros Hn Hv. apply Z.bits_inj'. intros i Hi. rewrite EndianSwapValue_spec by done.
  destruct (Z.ltb_spec i (8 * n)); cbn [andb]; [|symmetry; by apply (uint_bits (8 * n))].
  pose proof (Z.div_mod i 8 ltac:(lia)). pose proof (Z.mod_pos_bound i 8 ltac:(lia)).
  assert (i / 8 < n) by (apply Z.div_lt_upper_bound; lia). pose proof (Z.div_pos i 8).
  rewrite EndianSwapValue_spec by lia.
  rewrite (Z.mul_comm 8), Z.div_add_l, (Z.div_small (i mod 8)), Z.add_comm, Z.mod_add, Z.mod_mod by lia.
  destruct (Z.ltb_spec (i mod 8 + (n - 1 - i / 8) * 8) (8 * n)); [|lia]. cbn [andb]. f_equal. lia.
Qed.

(** An exchange is linear if the mask selects every other field. *)
Lemma linear_lor f g m m' : BitLinear f -> BitLinear g -> Z.land m m' = 0 ->
  (forall x, Z.land (f x) m = f x) -> (forall x, Z.land (g x) m' = g x) -> BitLinear (fun x => Z.lor (f x) (g x)).
Proof.
  intros Hf Hg Hm Hfm Hgm. apply (linear_ext (fun x => Z.lxor (f x) (g x))); [|apply _].
  intros x. symmetry. rewrite Z.lxor_lor; [done|]. rewrite <- Hfm, <- Hgm.
  rewrite <- Z.land_assoc, (Z.land_comm m), <- Z.land_assoc, (Z.land_comm m'), Hm, !Z.land_0_r. done.
Qed.

Lemma linear_exchange n mask k f `{BitLinear f} : 0 <= n -> 0 <= k -> is_uint (8 * n) mask ->
  Z.land (wrap (8 * n) (Z.shiftl mask k)) mask = 0 -> BitLinear (fun x => exchange n mask k (f x)).
Proof.
  intros Hn Hk Hmask Hm. unfold exchange. apply (linear_lor _ _ (wrap (8 * n) (Z.shiftl mask k)) mask).
  - rewrite <- (Z.abs_eq (8 * n)) by lia. apply _.
  - apply _.
  - done.
  - intros x. apply Z.bits_inj'. intros i Hi. rewrite !wrap_land by lia.
    rewrite !Z.land_spec, !Z.shiftl_spec, Z.land_spec by done.
    by destruct (Z.testbit (f x) (i - k)), (Z.testbit mask (i - k)), (Z.testbit (Z.ones _) i).
  - intros x. by rewrite <- Z.land_assoc, Z.land_diag.
Qed.

#[global] Instance linear_reverse : BitLinear (ReverseBits 8).
Proof.
  unfold ReverseBits. cbv zeta.
  repeat (apply (linear_exchange 8); [|lia|lia|by split; vm_compute|by vm_compute]).
  exact (linear_swap 8 (fun x => x)).
Qed.

#[global] Instance linear_involution : BitLinear (DownwardInvolution 8).
Proof.
  apply (linear_ext (fun v => u64
    (let r := Z.lxor v (Z.shiftr v 32) in
     let r := Z.lxor r (Z.shiftr (Z.land r 0xffff0000ffff0000) 16) in
     let r := Z.lxor r (Z.shiftr (Z.land r 0xff00ff00ff00ff00) 8) in
     let r := Z.lxor r (Z.shiftr (Z.land r 0xf0f0f0f0f0f0f0f0) 4) in
     let r := Z.lxor r (Z.shiftr (Z.land r 0xcccccccccccccccc) 2) in
     Z.lxor r (Z.shiftr (Z.land r 0xaaaaaaaaaaaaaaaa) 1)))); [done|]. cbv zeta.
  apply (linear_wrap _ 64).
Qed.

Lemma reverse_range v : is_uint 64 v -> is_uint 64 (ReverseBits 8 v).
Proof.
  intros Hv. assert (Z.shiftr (ReverseBits 8 v) 64 = 0) as E.
  { apply (basis_agree_sound 64 (fun x => Z.shiftr (ReverseBits 8 x) 64) (fun _ => 0)); [apply _|done|by vm_compute|done]. }
  assert (ReverseBits 8 v = u64 (ReverseBits 8 v)) as ->; [|by apply wrap_range].
  apply (basis_agree_sound 64 (ReverseBits 8) (fun x => u64 (ReverseBits 8 x)));
    [apply _|apply (linear_wrap _ 64)|by vm_compute|done].
Qed.

Lemma involution_range v : is_uint 64 (DownwardInvolution 8 v).
Proof. by apply wrap_range. Qed.

(** Reversing the bits twice gives the value back. *)
Theorem ReverseBits_involutive v : is_uint 64 v -> ReverseBits 8 (ReverseBits 8 v) = v.
Proof.
  apply (basis_agree_sound 64 (fun x => ReverseBits 8 (ReverseBits 8 x)) (fun x => x));
    [apply (linear_compose _ _); apply _|apply _|by vm_compute].
Qed.

Lemma seqZ_In n i : 0 <= i < n -> In i (seqZ 0 n).
Proof. intros Hi. apply list_elem_of_In, elem_of_seqZ. lia. Qed.

Lemma ReverseBits_spec v i : is_uint 64 v -> 0 <= i < 64 -> Z.testbit (ReverseBits 8 v) i = Z.testbit v (63 - i).
Proof.
  intros Hv Hi.
  assert (forallb (fun k => basis_agree 64 (fun x => if Z.testbit (ReverseBits 8 x) k then 1 else 0)
            (fun x => if Z.testbit x (63 - k) then 1 else 0)) (seqZ 0 64) = true) as Hb by by vm_compute.
  rewrite forallb_forall in Hb. specialize (Hb i (seqZ_In 64 i Hi)).
  pose proof (basis_agree_sound 64 _ _ (linear_cond _ i 1) (linear_cond (fun x => x) (63 - i) 1) Hb v Hv) as E.
  cbv beta in E. by destruct (Z.testbit (ReverseBits 8 v) i), (Z.testbit v (63 - i)).
Qed.

(** The three properties that the comment of [DownwardInvolution] states: it is its own
    inverse, it keeps the highest bit, and it distributes over exclusive or. *)
Theorem DownwardInvolution_involutive v : is_uint 64 v -> DownwardInvolution 8 (DownwardInvolution 8 v) = v.
Proof.
  apply (basis_agree_sound 64 (fun x => DownwardInvolution 8 (DownwardInvolution 8 x)) (fun x => x));
    [apply (linear_compose _ _); apply _|apply _|by vm_compute].
Qed.

Lemma involution_bits_above n v : 0 <= n <= 64 -> is_uint n v -> is_uint n (DownwardInvolution 8 v).
Proof.
  intros Hn Hv.
  assert (forallb (fun k => basis_agree (Z.to_nat k) (DownwardInvolution 8) (fun x => wrap (Z.abs k) (DownwardInvolution 8 x)))
            (seqZ 0 65) = true) as Hb by by vm_compute.
  rewrite forallb_forall in Hb. specialize (Hb n (seqZ_In 65 n ltac:(lia))).
  rewrite (basis_agree_sound _ _ _ linear_involution (linear_wrap _ n) Hb v); [|by rewrite Z2Nat.id by lia].
  rewrite Z.abs_eq by lia. apply wrap_range. lia.
Qed.

Theorem DownwardInvolution_log2 v : is_uint 64 v -> v <> 0 -> FloorLog2 (DownwardInvolution 8 v) = FloorLog2 v.
Proof.
  intros Hv Hv0. assert (forall x, is_uint 64 x -> x <> 0 ->
    DownwardInvolution 8 x <> 0 /\ Z.log2 (DownwardInvolution 8 x) <= Z.log2 x) as Hle.
  { intros x Hx Hx0. destruct (Z.log2_spec x ltac:(destruct Hx; lia)) as [_ H2].
    assert (Z.log2 x < 64) by (apply Z.log2_lt_pow2; destruct Hx; lia). pose proof (Z.log2_nonneg x).
    pose proof (involution_bits_above (Z.succ (Z.log2 x)) x ltac:(lia) ltac:(destruct Hx; split; lia)) as [Hd1 Hd2].
    assert (DownwardInvolution 8 x <> 0) as Hd0.
    { intros E. apply Hx0. rewrite <- (DownwardInvolution_involutive x Hx), E. apply linear_0, _. }
    split; [done|]. apply Z.lt_succ_r, Z.log2_lt_pow2; lia. }
  destruct (Hle v Hv Hv0) as [Hd0 Hd]. destruct (Hle _ (involution_range v) Hd0) as [_ Hd'].
  rewrite DownwardInvolution_involutive in Hd' by done. unfold FloorLog2, builtin_clz64. lia.
Qed.

(** Doubling the argument: the involution is the substitution of [x + 1] for [x] in a
    polynomial over two elements, so that a factor [x] becomes a factor [x + 1]. *)
Lemma involution_double w : is_uint 63 w ->
  DownwardInvolution 8 (Z.shiftl w 1) = Z.lxor (DownwardInvolution 8 w) (u64 (Z.shiftl (DownwardInvolution 8 w) 1)).
Proof.
  apply (basis_agree_sound 63 (fun w => DownwardInvolution 8 (Z.shiftl w 1))
    (fun w => Z.lxor (DownwardInvolution 8 w) (u64 (Z.shiftl (DownwardInvolution 8 w) 1)))); [| |by vm_compute].
  - apply (linear_compose (fun w => Z.shiftl w 1)); apply _.
  - apply linear_lxor; [apply _|]. apply (linear_wrap _ 64).
Qed.

(** If a factor [x + 1] does not add low bits, there were none. *)
Lemma low_bits_double c z : 0 <= c <= 64 -> wrap c (Z.lxor z (u64 (Z.shiftl z 1))) = 0 -> wrap c z = 0.
Proof.
  intros Hc Hz. assert (forall i, 0 <= i -> i < c -> Z.testbit z i = false) as Hb.
  { assert (forall i, 0 <= i -> i < c -> Z.testbit z i = (if 0 <? i then Z.testbit z (i - 1) else false)) as Hs.
    { intros i Hi Hic. assert (Z.testbit (wrap c (Z.lxor z (u64 (Z.shiftl z 1)))) i = false) as E by (rewrite Hz; apply Z.bits_0).
      rewrite !wrap_land, !Z.land_spec, Z.lxor_spec, Z.land_spec, !Z.testbit_ones_nonneg in E by lia.
      rewrite Z.shiftl_spec in E by done. destruct (Z.ltb_spec i c); [|lia]. destruct (Z.ltb_spec i 64); [|lia].
      rewrite !andb_true_r in E. destruct (Z.ltb_spec 0 i); [|rewrite (Z.testbit_neg_r _ (i - 1)) in E by lia].
      all: by destruct (Z.testbit z i); try destruct (Z.testbit z (i - 1)). }
    intros i Hi. pattern i. apply natlike_ind; [|clear i Hi|done].
    - intros H0. by rewrite Hs by lia.
    - intros i Hi IH Hic. rewrite Hs by lia. destruct (Z.ltb_spec 0 (Z.succ i)); [|done].
      replace (Z.succ i - 1) with i by lia. apply IH. lia. }
  apply Z.bits_inj'. intros i Hi. rewrite wrap_land, Z.land_spec, Z.testbit_ones_nonneg, Z.bits_0 by lia.
  destruct (Z.ltb_spec i c); [by rewrite Hb|apply andb_false_r].
Qed.

(** The property that makes cache keys unique: [b] bottom bits of a number and [c] bottom bits
    of its involution determine a number of [b + c] bits. *)
Theorem involution_determines b c v : 0 <= b -> 0 <= c -> b + c <= 64 -> is_uint (b + c) v ->
  wrap b v = 0 -> wrap c (DownwardInvolution 8 v) = 0 -> v = 0.
Proof.
  intros Hb Hc. revert v. pattern b. apply natlike_ind; [|clear b Hb|done].
  - intros v Hle Hv _ Hd. rewrite wrap_small in Hd.
    + rewrite <- (DownwardInvolution_involutive v), Hd; [apply linear_0, _|].
      destruct Hv. split; [done|]. pose proof (Z.pow_le_mono_r 2 (0 + c) 64). lia.
    + replace c with (0 + c) by lia. apply involution_bits_above; [lia|done].
  - intros b Hb IH v Hle Hv Hw Hd.
    assert (v = Z.shiftl (Z.shiftr v 1) 1) as E.
    { apply Z.bits_inj'. intros i Hi. rewrite Z.shiftl_spec by done. destruct (Z.eq_dec i 0) as [->|].
      - rewrite (Z.testbit_neg_r _ (0 - 1)) by lia. assert (Z.testbit (wrap (Z.succ b) v) 0 = false) as E by (rewrite Hw; apply Z.bits_0).
        rewrite wrap_land, Z.land_spec, Z.testbit_ones_nonneg in E by lia.
        destruct (Z.ltb_spec 0 (Z.succ b)); [by rewrite andb_true_r in E|lia].
      - rewrite Z.shiftr_spec by lia. f_equal. lia. }
    assert (is_uint (b + c) (Z.shiftr v 1)) as Hr.
    { destruct Hv as [Hv1 Hv2]. rewrite Z.shiftr_div_pow2 by lia. split; [by apply Z.div_pos|].
      apply Z.div_lt_upper_bound; [lia|]. replace (Z.succ b + c) with (1 + (b + c)) in Hv2 by lia.
      rewrite Z.pow_add_r in Hv2 by lia. lia. }
    assert (Z.shiftr v 1 = 0) as E0; [|by rewrite E, E0]. apply IH; [lia|done| |].
    + apply Z.bits_inj'. intros i Hi. rewrite Z.bits_0.
      assert (Z.testbit (wrap (Z.succ b) v) (i + 1) = false) as E' by (rewrite Hw; apply Z.bits_0).
      rewrite wrap_land, Z.land_spec, Z.testbit_ones_nonneg in E' |- * by lia.
      rewrite Z.shiftr_spec by done. destruct (Z.ltb_spec i b); [|apply andb_false_r].
      destruct (Z.ltb_spec (i + 1) (Z.succ b)); [|lia]. by rewrite andb_true_r in *.
    + rewrite E, involution_double in Hd.
      * by apply low_bits_double in Hd; [|lia].
      * destruct Hr. split; [done|]. pose proof (Z.pow_le_mono_r 2 (b + c) 63). lia.
Qed.

(** ** [Unsigned128] as numbers *)

Definition val128 (v : Unsigned128) : Z := lo v + 2 ^ 64 * hi v.
Definition wf128 (v : Unsigned128) : Prop := is_uint 64 (lo v) /\ is_uint 64 (hi v).

Lemma val128_bits v i : wf128 v -> 0 <= i ->
  Z.testbit (val128 v) i = if i <? 64 then Z.testbit (lo v) i else Z.testbit (hi v) (i - 64).
Proof.
  intros [Hl Hh] Hi. unfold val128. rewrite Z.add_nocarry_lxor, Z.lxor_spec.
  - rewrite (Z.mul_comm (2 ^ 64)), Z.mul_pow2_bits by lia. destruct (Z.ltb_spec i 64).
    + by rewrite (Z.testbit_neg_r (hi v)), xorb_false_r by lia.
    + by rewrite (uint_bits 64 (lo v)), xorb_false_l by done.
  - apply Z.bits_inj'. intros j Hj. rewrite Z.land_spec, (Z.mul_comm (2 ^ 64)), Z.mul_pow2_bits, Z.bits_0 by lia.
    destruct (Z.lt_ge_cases j 64); [by rewrite (Z.testbit_neg_r (hi v)), andb_false_r by lia|].
    by rewrite (uint_bits 64 (lo v)).
Qed.

Lemma wf128_range v : wf128 v -> is_uint 128 (val128 v).
Proof. intros [[? ?] [? ?]]. unfold val128. split; lia. Qed.

Lemma val128_inj u v : wf128 u -> wf128 v -> val128 u = val128 v -> u = v.
Proof.
  destruct u as [ul uh], v as [vl vh]. intros [[? ?] [? ?]] [[? ?] [? ?]] E. unfold val128 in E. cbn in *.
  f_equal; lia.
Qed.

(** Bitwise reasoning about the two words. *)
Lemma wf128_bits v : (forall i, 64 <= i -> Z.testbit (lo v) i = false) ->
  (forall i, 64 <= i -> Z.testbit (hi v) i = false) -> wf128 v.
Proof. intros Hl Hh. split; by apply uint_of_bits. Qed.

Lemma wrap_bits n v i : 0 <= n -> 0 <= i -> Z.testbit (wrap n v) i = (i <? n) && Z.testbit v i.
Proof. intros Hn Hi. by rewrite wrap_land, Z.land_spec, Z.testbit_ones_nonneg, andb_comm by lia. Qed.

Ltac words := repeat match goal with
  | |- context [Z.testbit (wrap _ _) _] => rewrite wrap_bits by lia
  | |- context [Z.testbit (Z.land _ _) _] => rewrite Z.land_spec
  | |- context [Z.testbit (Z.lor _ _) _] => rewrite Z.lor_spec
  | |- context [Z.testbit (Z.lxor _ _) _] => rewrite Z.lxor_spec
  | |- context [Z.testbit (Z.lnot _) _] => rewrite Z.lnot_spec by lia
  | |- context [Z.testbit (Z.shiftl _ _) _] => rewrite Z.shiftl_spec by lia
  | |- context [Z.testbit (Z.shiftr _ _) _] => rewrite Z.shiftr_spec by lia
  | |- context [Z.testbit (val128 _) _] => rewrite val128_bits by (done || lia)
  | |- context [?i <? ?j] => destruct (Z.ltb_spec i j); try lia
  | |- context [Z.testbit 0 _] => rewrite Z.bits_0
  | H : is_uint 64 ?v |- context [Z.testbit ?v ?i] => rewrite (uint_bits 64 v i) by (done || lia)
  | |- context [Z.testbit ?v ?i] => rewrite (Z.testbit_neg_r v i) by lia
  | |- context [Z.testbit (val128 _) ?i] => destruct (Z.lt_ge_cases i 0)
  end; cbn [andb orb xorb negb]; rewrite ?andb_false_r, ?andb_true_r, ?orb_false_r, ?xorb_false_r.

(** The bitwise operators of the structure are those of numbers; [~] is the complement in 128
    bits. *)
Lemma bitwise128 u v : wf128 u -> wf128 v ->
  wf128 (and128 u v) /\ val128 (and128 u v) = Z.land (val128 u) (val128 v) /\
  wf128 (or128 u v) /\ val128 (or128 u v) = Z.lor (val128 u) (val128 v) /\
  wf128 (xor128 u v) /\ val128 (xor128 u v) = Z.lxor (val128 u) (val128 v) /\
  wf128 (not128 v) /\ val128 (not128 v) = wrap 128 (Z.lnot (val128 v)).
Proof.
  intros Hu Hv. pose proof Hu as [Hul Huh]. pose proof Hv as [Hvl Hvh].
  assert (wf128 (and128 u v)) as H1 by (apply wf128_bits; intros i Hi; cbn; by words).
  assert (wf128 (or128 u v)) as H2 by (apply wf128_bits; intros i Hi; cbn; by words).
  assert (wf128 (xor128 u v)) as H3 by (apply wf128_bits; intros i Hi; cbn; by words).
  assert (wf128 (not128 v)) as H4 by (apply wf128_bits; intros i Hi; cbn; by words).
  split_and!; try done; apply Z.bits_inj'; intros i Hi; cbn [lo hi and128 or128 xor128 not128];
    words; cbn [lo hi and128 or128 xor128 not128]; by words.
Qed.

Lemma shl128_correct v s : wf128 v -> 0 <= s < 128 ->
  wf128 (shl128 v s) /\ val128 (shl128 v s) = wrap 128 (Z.shiftl (val128 v) s).
Proof.
  intros Hv Hs. pose proof Hv as [Hl Hh]. unfold shl128. change 127 with (Z.ones 7). rewrite Z.land_ones by lia.
  change (2 ^ 7) with 128. rewrite Z.mod_small, Z.geb_leb by lia. destruct (Z.leb_spec 64 s).
  - assert (Z.land s 63 = s - 64) as ->.
    { change 63 with (Z.ones 6). rewrite Z.land_ones by lia. symmetry. apply (Z.mod_unique s (2 ^ 6) 1); lia. }
    assert (wf128 (mkU128 0 (u64 (Z.shiftl (lo v) (s - 64))))) as Hw by (apply wf128_bits; intros i Hi; cbn; by words).
    split; [done|]. apply Z.bits_inj'. intros i Hi.
    words; cbn [lo hi]; words; try done; f_equal; lia.
  - assert (wf128 (mkU128 (u64 (Z.shiftl (lo v) s))
      (Z.lor (Z.shiftr (Z.shiftr (lo v) 1) (63 - s)) (u64 (Z.shiftl (hi v) s))))) as Hw
      by (apply wf128_bits; intros i Hi; cbn; by words).
    split; [done|]. apply Z.bits_inj'. intros i Hi.
    words; cbn [lo hi]; words; try (f_equal; lia).
    all: destruct (Z.lt_ge_cases i (64 + s)); words; try (f_equal; lia).
Qed.

Lemma compare128 u v : wf128 u -> wf128 v ->
  eq128 u v = (val128 u =? val128 v) /\ ne128 u v = negb (val128 u =? val128 v) /\
  lt128 u v = (val128 u <? val128 v) /\ le128 u v = (val128 u <=? val128 v) /\
  gt128 u v = (val128 u >? val128 v) /\ ge128 u v = (val128 u >=? val128 v).
Proof.
  intros [[? ?] [? ?]] [[? ?] [? ?]]. unfold eq128, ne128, lt128, le128, gt128, ge128, val128.
  split_and!; apply eq_true_iff_eq;
    rewrite ?andb_true_iff, ?orb_true_iff, ?negb_true_iff, ?Z.eqb_eq, ?Z.eqb_neq, ?Z.ltb_lt, ?Z.leb_le, ?Z.gtb_lt, ?Z.geb_le; lia.
Qed.

Lemma low32_mod a : low32 a = a mod 2 ^ 32.
Proof. unfold low32. change 0xffffFFFF with (Z.ones 32). by rewrite Z.land_ones. Qed.

Lemma lor_disjoint_add a b k : 0 <= k -> is_uint k a -> Z.lor a (Z.shiftl b k) = a + 2 ^ k * b.
Proof.
  intros Hk Ha. assert (Z.land a (Z.shiftl b k) = 0) as Hd.
  { apply Z.bits_inj'. intros j Hj. rewrite Z.land_spec, Z.shiftl_spec, Z.bits_0 by done.
    destruct (Z.lt_ge_cases j k); [by rewrite (Z.testbit_neg_r b), andb_false_r by lia|by rewrite (uint_bits k a)]. }
  rewrite <- Z.lxor_lor, <- Z.add_nocarry_lxor, Z.shiftl_mul_pow2 by done. lia.
Qed.

Lemma u64_shift32 t : u64 (Z.shiftl t 32) = Z.shiftl (t mod 2 ^ 32) 32.
Proof.
  rewrite !Z.shiftl_mul_pow2 by lia. unfold wrap. change (2 ^ 64) with (2 ^ 32 * 2 ^ 32).
  by rewrite Z.mul_mod_distr_r by lia.
Qed.

(** The schoolbook product of the halves of two words. *)
Lemma multiply_halves p00 p10 p01 p11 :
  0 <= p00 <= (2 ^ 32 - 1) * (2 ^ 32 - 1) -> 0 <= p10 <= (2 ^ 32 - 1) * (2 ^ 32 - 1) ->
  0 <= p01 <= (2 ^ 32 - 1) * (2 ^ 32 - 1) -> 0 <= p11 <= (2 ^ 32 - 1) * (2 ^ 32 - 1) ->
  let tmp := u64 (p00 / 2 ^ 32 + p10) in
  let tmp := u64 (tmp + p01 mod 2 ^ 32) in
  let top := u64 (u64 (tmp / 2 ^ 32 + p01 / 2 ^ 32) + p11) in
  is_uint 64 (p00 mod 2 ^ 32 + 2 ^ 32 * (tmp mod 2 ^ 32)) /\ is_uint 64 top /\
  (p00 mod 2 ^ 32 + 2 ^ 32 * (tmp mod 2 ^ 32)) + 2 ^ 64 * top = p00 + 2 ^ 32 * (p10 + p01) + 2 ^ 64 * p11.
Proof.
  intros H00 H10 H01 H11. cbv zeta.
  assert (p00 / 2 ^ 32 <= 2 ^ 32 - 2) by (apply Z.lt_succ_r, Z.div_lt_upper_bound; lia).
  assert (p01 / 2 ^ 32 <= 2 ^ 32 - 2) by (apply Z.lt_succ_r, Z.div_lt_upper_bound; lia).
  pose proof (Z.div_mod p00 (2 ^ 32) ltac:(lia)). pose proof (Z.mod_pos_bound p00 (2 ^ 32) ltac:(lia)).
  pose proof (Z.div_mod p01 (2 ^ 32) ltac:(lia)). pose proof (Z.mod_pos_bound p01 (2 ^ 32) ltac:(lia)).
  assert (0 <= p00 / 2 ^ 32) by (apply Z.div_pos; lia). assert (0 <= p01 / 2 ^ 32) by (apply Z.div_pos; lia).
  rewrite (wrap_small 64 (p00 / 2 ^ 32 + p10)) by (split; lia).
  rewrite (wrap_small 64 (p00 / 2 ^ 32 + p10 + p01 mod 2 ^ 32)) by (split; lia).
  set (t := p00 / 2 ^ 32 + p10 + p01 mod 2 ^ 32) in *.
  pose proof (Z.div_mod t (2 ^ 32) ltac:(lia)). pose proof (Z.mod_pos_bound t (2 ^ 32) ltac:(lia)).
  assert (0 <= t / 2 ^ 32) by (apply Z.div_pos; lia).
  assert (t / 2 ^ 32 <= 2 ^ 32 - 1) by (apply Z.lt_succ_r, Z.div_lt_upper_bound; lia).
  rewrite (wrap_small 64 (t / 2 ^ 32 + p01 / 2 ^ 32)) by (split; lia).
  assert (t / 2 ^ 32 + p01 / 2 ^ 32 + p11 < 2 ^ 64) by (unfold t in *; lia).
  rewrite wrap_small by (split; lia). unfold is_uint. lia.
Qed.

Lemma half_product a b : 0 <= a < 2 ^ 32 -> 0 <= b < 2 ^ 32 -> 0 <= a * b <= (2 ^ 32 - 1) * (2 ^ 32 - 1).
Proof. intros Ha Hb. split; [lia|]. apply Z.mul_le_mono_nonneg; lia. Qed.

(** The product of two words is exact. *)
Lemma Multiply64to128_correct a b : is_uint 64 a -> is_uint 64 b ->
  wf128 (Multiply64to128 a b) /\ val128 (Multiply64to128 a b) = a * b.
Proof.
  intros Ha Hb.
  assert (forall x, is_uint 64 x -> 0 <= Z.shiftr x 32 < 2 ^ 32 /\ 0 <= low32 x < 2 ^ 32 /\ x = low32 x + 2 ^ 32 * Z.shiftr x 32) as H.
  { intros x [Hx1 Hx2]. rewrite low32_mod, Z.shiftr_div_pow2 by lia. pose proof (Z.div_mod x (2 ^ 32) ltac:(lia)).
    pose proof (Z.mod_pos_bound x (2 ^ 32) ltac:(lia)). assert (x / 2 ^ 32 < 2 ^ 32) by (apply Z.div_lt_upper_bound; lia).
    pose proof (Z.div_pos x (2 ^ 32)). lia. }
  destruct (H a Ha) as (Ha1 & Ha0 & Ea), (H b Hb) as (Hb1 & Hb0 & Eb). clear H.
  unfold Multiply64to128. cbv zeta. set (a1 := Z.shiftr a 32) in *. set (a0 := low32 a) in *.
  set (b1 := Z.shiftr b 32) in *. set (b0 := low32 b) in *. clearbody a0 a1 b0 b1.
  pose proof (half_product b0 a0 Hb0 Ha0). pose proof (half_product b0 a1 Hb0 Ha1).
  pose proof (half_product b1 a0 Hb1 Ha0). pose proof (half_product b1 a1 Hb1 Ha1).
  rewrite (wrap_small 64 (b0 * a0)), (wrap_small 64 (b0 * a1)), (wrap_small 64 (b1 * a0)), (wrap_small 64 (b1 * a1)) by (split; lia).
  rewrite !low32_mod, u64_shift32, lor_disjoint_add, !(Z.shiftr_div_pow2 _ 32) by (done || (split; apply Z.mod_pos_bound; lia)).
  destruct (multiply_halves (b0 * a0) (b0 * a1) (b1 * a0) (b1 * a1)) as (Hlo & Hhi & Hval); try done.
  split; [by split|]. unfold val128. cbn [lo hi]. rewrite Hval, Ea, Eb. ring.
Qed.

Lemma u128_wf x : is_uint 64 x -> wf128 (U128 x).
Proof. intros Hx. split; [done|by split]. Qed.

(** A value is put together from two words. *)
Lemma words128 l h : is_uint 64 l -> is_uint 64 h -> or128 (shl128 (U128 h) 64) (U128 l) = mkU128 l h.
Proof.
  intros Hl Hh. unfold shl128, or128, U128. cbn [lo hi Z.land Z.geb Z.compare]. change (Z.land 64 127) with 64.
  cbn. rewrite Z.shiftl_0_r, wrap_small, Z.lor_0_r by done. done.
Qed.

Theorem fixed128_roundtrip v rest : wf128 v -> DecodeFixed128 (EncodeFixed128 v ++ rest) = v.
Proof.
  intros [Hl Hh]. unfold DecodeFixed128, EncodeFixed128. cbv zeta. rewrite <- app_assoc.
  pose proof (size_EncodeFixed64 (Lower64of128 v)) as Hs. unfold size in Hs.
  rewrite (DecodeFixed64_Encode (Lower64of128 v)), drop_app_length' by (done || lia).
  rewrite DecodeFixed64_Encode by done. rewrite words128 by done. by destruct v.
Qed.

Theorem involution128_involutive v : wf128 v -> DownwardInvolution128 (DownwardInvolution128 v) = v.
Proof.
  intros [Hl Hh]. unfold DownwardInvolution128. rewrite !words128 by apply involution_range. cbn [Upper64of128 Lower64of128 lo hi].
  rewrite <- (bit_linear (f := DownwardInvolution 8)), <- Z.lxor_assoc, Z.lxor_nilpotent, Z.lxor_0_l.
  rewrite !DownwardInvolution_involutive by done. by destruct v.
Qed.

Theorem floor_log2_128 v : wf128 v -> v <> U128 0 -> FloorLog2_128 v = Z.log2 (val128 v).
Proof.
  intros [[Hl1 Hl2] [Hh1 Hh2]] Hv. unfold FloorLog2_128, FloorLog2, builtin_clz64, Upper64of128, Lower64of128, val128.
  destruct (Z.eqb_spec (hi v) 0) as [->|Hn]; [rewrite Z.mul_0_r, Z.add_0_r; lia|].
  destruct (Z.log2_spec (hi v)) as [H1 H2]; [lia|]. pose proof (Z.log2_nonneg (hi v)).
  symmetry. apply Z.log2_unique; [lia|].
  replace (8 * 8 - 1 - (63 - Z.log2 (hi v)) + 64) with (64 + Z.log2 (hi v)) by lia.
  replace (Z.succ (64 + Z.log2 (hi v))) with (64 + Z.succ (Z.log2 (hi v))) by lia.
  rewrite !Z.pow_add_r by lia. lia.
Qed.

(** The reduction of a hash to a range is the upper part of a product, and in the range. *)
Theorem fast_range hash range : 0 < range ->
  (is_uint 32 hash -> is_uint 32 range -> FastRange32 hash range = range * hash / 2 ^ 32 /\ 0 <= FastRange32 hash range < range) /\
  (is_uint 64 hash -> is_uint 64 range -> FastRange64 hash range = range * hash / 2 ^ 64 /\ 0 <= FastRange64 hash range < range).
Proof.
  intros Hr. split; intros [? ?] [? ?].
  - assert (0 <= range * hash / 2 ^ 32 < range) as Hd by (split; [apply Z.div_pos; lia|apply Z.div_lt_upper_bound; nia]).
    unfold FastRange32. rewrite (wrap_small 64) by (split; nia). rewrite Z.shiftr_div_pow2, wrap_small by (lia || (split; lia)). done.
  - unfold FastRange64. rewrite Z.shiftr_div_pow2 by lia. split; [done|].
    split; [apply Z.div_pos; lia|apply Z.div_lt_upper_bound; nia].
Qed.

(** Without the extension type the low half of the hash is multiplied twice and a shift is
    lost: the result is not in the range. *)
Theorem fast_range_fallback_wrong : exists hash range, is_uint 64 hash /\ 0 < range < 2 ^ 64 /\
  range < FastRange64_fallback hash range.
Proof. exists 0xFFFFFFFF, 10. by repeat split; vm_compute. Qed.

(** The population count of a 64-bit number by halves has a parenthesis in the wrong place: the
    count of one half is added to the other half, not to its count. *)
Theorem popcount_halves_wrong : exists v, is_uint 64 v /\ BitsSetToOne_halves v <> BitsSetToOne v.
Proof. exists 0xFFFFFFFF00000001. by repeat split; vm_compute. Qed.
