(* ===== verification/Hashing.v ===== *)
(** * Hash functions

    The hashes that [util/hash.cc] defines itself: the 32-bit hash of byte strings, and the
    invertible hash of 128-bit values with its inverse. *)

From S2P Require Import Prelude.
From S2P Require Import Coding.
From S2P Require Import Bits.
From S2P Require Import Math128.

(** ** The 32-bit hash *)

Definition hash_m : Z := 0xc6a4a793.

(** A [char] as a signed byte, sign-extended to 32 bits. *)
Definition sign_extended (c : byte) : Z := let v := byte_to_Z c in u32 (if v <? 128 then v else v - 256).

(** [while (data + 4 <= limit)]: one round per four bytes; at most three are left. *)
Fixpoint hash_words (fuel : nat) (data : bytes) (h : Z) : bytes * Z :=
  match fuel with
  | O => (data, h)
  | S fuel =>
      if 4 <=? size data then
        let w := DecodeFixed32 data in
        let h := u32 (h + w) in
        let h := u32 (h * hash_m) in
        hash_words fuel (zdrop 4 data) (Z.lxor h (Z.shiftr h 16))
      else (data, h)
  end.

Definition Hash (data : bytes) (seed : Z) : Z :=
  let h := u32 (Z.lxor seed (u64 (size data * hash_m))) in
  let '(rest, h) := hash_words (length data) data h in
  let at_ i := sign_extended (nth i rest x00) in
  let h := if size rest =? 3 then u32 (h + u32 (Z.shiftl (at_ 2%nat) 16)) else h in
  let h := if (size rest =? 3) || (size rest =? 2) then u32 (h + u32 (Z.shiftl (at_ 1%nat) 8)) else h in
  if 1 <=? size rest then
    let h := u32 (h + at_ 0%nat) in
    let h := u32 (h * hash_m) in
    Z.lxor h (Z.shiftr h 24)
  else h.

(** [BloomHash32], [GetSliceHash] *)
Definition BloomHash (key : bytes) : Z := Hash key 0xbc9f1d34.
Definition GetSliceHash (s : bytes) : Z := Hash s 397.

Definition Upper32of64 (v : Z) : Z := u32 (Z.shiftr v 32).
Definition Lower32of64 (v : Z) : Z := u32 v.

(** ** The invertible hash *)

Definition XXH3_avalanche (h64 : Z) : Z :=
  let h64 := Z.lxor h64 (Z.shiftr h64 37) in
  let h64 := u64 (h64 * 0x165667919E3779F9) in
  Z.lxor h64 (Z.shiftr h64 32).

Definition XXH3_unavalanche (h64 : Z) : Z :=
  let h64 := Z.lxor h64 (Z.shiftr h64 32) in
  let h64 := u64 (h64 * 0x8da8ee41d6df849) in
  Z.lxor h64 (Z.shiftr h64 37).

(** The mixing of the high word with its lower half, and the way back. *)
Definition mix (h : Z) : Z := u64 (h + u64 (Lower32of64 h * 0x85EBCA76)).

Definition unmix (hi : Z) : Z :=
  let tmp32 := u32 (Lower32of64 hi * 0xb6c92f47) in
  let hi := u64 (hi - tmp32) in
  u64 (u64 (Z.land hi 0xFFFFFFFF00000000 - Z.land (u64 (tmp32 * 0x85EBCA76)) 0xFFFFFFFF00000000) + tmp32).

(** The result is the high word and the low word. *)
Definition BijectiveHash2x64 (in_high64 in_low64 seed : Z) : Z * Z :=
  let bitflipl := u64 (0x59973f0033362349 - seed) in
  let bitfliph := u64 (0xc202797692d63d58 + seed) in
  let tmp128 := Multiply64to128 (Z.lxor (Z.lxor in_low64 in_high64) bitflipl) 0x9E3779B185EBCA87 in
  let lo := Lower64of128 tmp128 in
  let hi := Upper64of128 tmp128 in
  let lo := u64 (lo + 0x3c0000000000000) in
  let in_high64 := Z.lxor in_high64 bitfliph in
  let hi := u64 (hi + mix in_high64) in
  let lo := Z.lxor lo (EndianSwapValue 8 hi) in
  let tmp128 := Multiply64to128 lo 0xC2B2AE3D27D4EB4F in
  let lo := Lower64of128 tmp128 in
  let hi := u64 (Upper64of128 tmp128 + u64 (hi * 0xC2B2AE3D27D4EB4F)) in
  (XXH3_avalanche hi, XXH3_avalanche lo).

Definition BijectiveUnhash2x64 (in_high64 in_low64 seed : Z) : Z * Z :=
  let bitflipl := u64 (0x59973f0033362349 - seed) in
  let bitfliph := u64 (0xc202797692d63d58 + seed) in
  let lo := XXH3_unavalanche in_low64 in
  let hi := XXH3_unavalanche in_high64 in
  let lo := u64 (lo * 0xba79078168d4baf) in
  let hi := u64 (hi - Upper64of128 (Multiply64to128 lo 0xC2B2AE3D27D4EB4F)) in
  let hi := u64 (hi * 0xba79078168d4baf) in
  let lo := Z.lxor lo (EndianSwapValue 8 hi) in
  let lo := u64 (lo - 0x3c0000000000000) in
  let lo := u64 (lo * 0x887493432badb37) in
  let hi := u64 (hi - Upper64of128 (Multiply64to128 lo 0x9E3779B185EBCA87)) in
  let hi := unmix hi in
  let hi := Z.lxor hi bitfliph in
  let lo := Z.lxor lo (Z.lxor hi bitflipl) in
  (hi, lo).

(** ** Each stage can be undone *)

Lemma wrap_sub_l w a b : wrap w (wrap w a - b) = wrap w (a - b).
Proof. unfold wrap. apply Zminus_mod_idemp_l. Qed.
Lemma wrap_sub_r w a b : wrap w (a - wrap w b) = wrap w (a - b).
Proof. unfold wrap. apply Zminus_mod_idemp_r. Qed.
Lemma wrap_mul_l w a b : wrap w (wrap w a * b) = wrap w (a * b).
Proof. unfold wrap. destruct (Z.eq_dec (2 ^ w) 0) as [->|]; [by rewrite !Z.mod_0_r|]. by apply Z.mul_mod_idemp_l. Qed.

Lemma xorshift_range64 k x : 0 <= k -> is_uint 64 x -> is_uint 64 (Z.lxor x (Z.shiftr x k)).
Proof.
  intros Hk Hx. apply uint_of_bits; [done|]. intros i Hi.
  rewrite Z.lxor_spec, Z.shiftr_spec by lia. by rewrite !(uint_bits 64 x) by (done || lia).
Qed.

Lemma xorshift_undo k x : 32 <= k -> is_uint 64 x ->
  Z.lxor (Z.lxor x (Z.shiftr x k)) (Z.shiftr (Z.lxor x (Z.shiftr x k)) k) = x.
Proof.
  intros Hk Hx. rewrite Z.shiftr_lxor, Z.shiftr_shiftr by lia.
  assert (Z.shiftr x (k + k) = 0) as ->.
  { apply Z.bits_inj'. intros i Hi. rewrite Z.shiftr_spec, Z.bits_0 by lia. apply (uint_bits 64 x); [done|lia]. }
  by rewrite Z.lxor_0_r, Z.lxor_assoc, Z.lxor_nilpotent, Z.lxor_0_r.
Qed.

Lemma mul_undo w p q x : wrap w (p * q) = 1 -> is_uint w x -> wrap w (wrap w (x * p) * q) = x.
Proof.
  intros Hpq Hx. rewrite wrap_mul_l, <- Z.mul_assoc, Z.mul_comm, <- wrap_mul_l, Hpq, Z.mul_1_l. by apply wrap_small.
Qed.

Ltac uint64 := repeat first [assumption | apply xorshift_range64; [lia|] | apply lxor_range; [lia| |] | apply wrap_range; lia
  | apply (EndianSwapValue_range 8); lia ].

Lemma unavalanche_avalanche h : is_uint 64 h -> XXH3_unavalanche (XXH3_avalanche h) = h.
Proof.
  intros Hh. unfold XXH3_unavalanche, XXH3_avalanche. cbv zeta. rewrite xorshift_undo; [|lia|by apply wrap_range].
  rewrite mul_undo; [|by vm_compute|uint64]. by apply xorshift_undo.
Qed.

Lemma avalanche_unavalanche h : is_uint 64 h -> XXH3_avalanche (XXH3_unavalanche h) = h.
Proof.
  intros Hh. unfold XXH3_unavalanche, XXH3_avalanche. cbv zeta. rewrite xorshift_undo; [|lia|by apply wrap_range].
  rewrite mul_undo; [|by vm_compute|uint64]. by apply xorshift_undo.
Qed.

Lemma avalanche_range h : is_uint 64 h -> is_uint 64 (XXH3_avalanche h) /\ is_uint 64 (XXH3_unavalanche h).
Proof. intros Hh. unfold XXH3_unavalanche, XXH3_avalanche. cbv zeta. split; uint64. Qed.

Lemma mul_low a c : is_uint 64 a -> is_uint 64 c -> Lower64of128 (Multiply64to128 a c) = u64 (a * c).
Proof.
  intros Ha Hc. destruct (Multiply64to128_correct a c Ha Hc) as [[Hl Hh] E]. rewrite <- E. unfold val128, wrap.
  rewrite (Z.mul_comm (2 ^ 64)), Z.mod_add by lia. symmetry. by apply Z.mod_small.
Qed.

Lemma land_upper z : is_uint 64 z -> Z.land z 0xFFFFFFFF00000000 = z - z mod 2 ^ 32.
Proof.
  intros Hz. assert (z = Z.lor (z mod 2 ^ 32) (Z.shiftl (z / 2 ^ 32) 32)) as E.
  { rewrite lor_disjoint_add by (lia || by apply Z.mod_pos_bound). rewrite Z.add_comm. by apply Z.div_mod. }
  assert (Z.land z 0xFFFFFFFF00000000 = Z.shiftl (z / 2 ^ 32) 32) as ->.
  { change 0xFFFFFFFF00000000 with (Z.shiftl (Z.ones 32) 32). apply Z.bits_inj'. intros i Hi.
    rewrite Z.land_spec, !Z.shiftl_spec, <- (Z.shiftr_div_pow2 z 32) by lia. destruct (Z.lt_ge_cases i 32).
    - by rewrite !(Z.testbit_neg_r _ (i - 32)), andb_false_r by lia.
    - rewrite Z.shiftr_spec, Z.testbit_ones_nonneg by lia. replace (i - 32 + 32) with i by lia.
      destruct (Z.ltb_spec (i - 32) 32); [apply andb_true_r|]. by rewrite (uint_bits 64 z) by (done || lia). }
  rewrite Z.shiftl_mul_pow2 by lia. rewrite (Z.div_mod z (2 ^ 32)) at 2 by lia. lia.
Qed.

Lemma unmix_mix h : is_uint 64 h -> unmix (mix h) = h.
Proof.
  intros Hh. set (l := u32 h). assert (is_uint 32 l) as Hl by by apply wrap_range.
  assert (u32 (Lower32of64 (mix h) * 0xb6c92f47) = l) as Ht.
  { unfold mix, Lower32of64. fold l. rewrite wrap_add_r, wrap_wrap_le by lia.
    rewrite <- (wrap_add_l 32 h). fold l. replace (l + l * 0x85EBCA76) with (l * 0x85EBCA77) by lia.
    apply mul_undo; [by vm_compute|done]. }
  unfold unmix. cbv zeta. rewrite Ht. unfold mix, Lower32of64. fold l. rewrite wrap_add_r.
  rewrite wrap_sub_l. replace (h + l * 0x85EBCA76 - l) with ((h - l) + l * 0x85EBCA76) by lia.
  destruct Hl as [Hl1 Hl2]. rewrite (wrap_small 64 (l * _)) by (split; lia).
  rewrite !land_upper by (by apply wrap_range || (split; lia)).
  assert (u64 (h - l + l * 0x85EBCA76) mod 2 ^ 32 = (l * 0x85EBCA76) mod 2 ^ 32) as ->.
  { change (u32 (u64 (h - l + l * 0x85EBCA76)) = u32 (l * 0x85EBCA76)). rewrite wrap_wrap_le by lia.
    rewrite <- wrap_add_l. replace (u32 (h - l)) with 0; [done|]. unfold l. rewrite wrap_sub_r, Z.sub_diag. done. }
  match goal with |- u64 (u64 (?z - ?r - (?m - ?r)) + l) = h => replace (z - r - (m - r)) with (z - m) by lia end.
  rewrite wrap_sub_l, wrap_add_l. replace (h - l + l * 0x85EBCA76 - l * 0x85EBCA76 + l) with h by lia. by apply wrap_small.
Qed.

Lemma mix_unmix y : is_uint 64 y -> mix (unmix y) = y.
Proof.
  intros Hy. unfold unmix, Lower32of64. cbv zeta. rewrite wrap_mul_l. set (t := u32 (y * 0xb6c92f47)).
  assert (is_uint 32 t) as Ht by by apply wrap_range. pose proof Ht as [Ht1 Ht2].
  assert (u32 y = u32 (t * 0x85EBCA77)) as Ey.
  { unfold t. rewrite wrap_mul_l, <- Z.mul_assoc, Z.mul_comm, <- wrap_mul_l.
    replace (u32 (0xb6c92f47 * 0x85EBCA77)) with 1 by by vm_compute. by rewrite Z.mul_1_l. }
  rewrite (wrap_small 64 (t * _)) by (split; lia). rewrite !land_upper by (by apply wrap_range || (split; lia)).
  assert (u64 (y - t) mod 2 ^ 32 = (t * 0x85EBCA76) mod 2 ^ 32) as E.
  { change (u32 (u64 (y - t)) = u32 (t * 0x85EBCA76)). rewrite wrap_wrap_le by lia.
    rewrite <- wrap_sub_l, Ey, wrap_sub_l. f_equal. lia. }
  rewrite E. set (r := (t * 0x85EBCA76) mod 2 ^ 32).
  replace (u64 (y - t) - r - (t * 0x85EBCA76 - r)) with (u64 (y - t) - t * 0x85EBCA76) by lia.
  rewrite wrap_sub_l, wrap_add_l. replace (y - t - t * 0x85EBCA76 + t) with (y - t * 0x85EBCA76) by lia.
  unfold mix, Lower32of64. assert (u32 (u64 (y - t * 0x85EBCA76)) = t) as ->.
  { rewrite wrap_wrap_le, <- wrap_sub_l, Ey, wrap_sub_l by lia.
    replace (t * 0x85EBCA77 - t * 0x85EBCA76) with t by lia. by apply wrap_small. }
  rewrite wrap_add_r, wrap_add_l. replace (y - t * 0x85EBCA76 + t * 0x85EBCA76) with y by lia. by apply wrap_small.
Qed.

Lemma lxor_undo a b : Z.lxor (Z.lxor a b) b = a.
Proof. by rewrite Z.lxor_assoc, Z.lxor_nilpotent, Z.lxor_0_r. Qed.

Lemma mul_high_range a c : is_uint 64 a -> is_uint 64 c -> is_uint 64 (Upper64of128 (Multiply64to128 a c)).
Proof. intros Ha Hc. apply (Multiply64to128_correct a c Ha Hc). Qed.

Lemma add_undo x y : is_uint 64 y -> u64 (u64 (x + y) - x) = y.
Proof. intros Hy. rewrite wrap_sub_l. replace (x + y - x) with y by lia. by apply wrap_small. Qed.

Lemma sub_undo x y : is_uint 64 y -> u64 (x + u64 (y - x)) = y.
Proof. intros Hy. rewrite wrap_add_r. replace (x + (y - x)) with y by lia. by apply wrap_small. Qed.

Lemma u64_range z : is_uint 64 (u64 z).
Proof. by apply wrap_range. Qed.

Ltac side := match goal with |- u64 _ = 1 => vm_compute; reflexivity | _ => assumption || apply u64_range || (split; vm_compute; congruence) end.

Lemma unhash_hash h l seed : is_uint 64 h -> is_uint 64 l ->
  let '(h', l') := BijectiveHash2x64 h l seed in BijectiveUnhash2x64 h' l' seed = (h, l).
Proof.
  intros Hh Hl. unfold BijectiveHash2x64, BijectiveUnhash2x64. cbv zeta.
  set (bl := u64 (_ - seed)). set (bh := u64 (_ + seed)).
  pose proof (u64_range _ : is_uint 64 bl) as Hbl. pose proof (u64_range _ : is_uint 64 bh) as Hbh.
  set (x := Z.lxor (Z.lxor l h) bl). set (g := mix (Z.lxor h bh)).
  assert (is_uint 64 x) as Hx by (unfold x; uint64). pose proof (u64_range _ : is_uint 64 g) as Hg.
  set (T := Upper64of128 (Multiply64to128 x _)). rewrite (mul_low x) by done.
  set (hi1 := u64 (T + g)). set (lo1 := u64 (u64 (x * _) + _)).
  pose proof (u64_range _ : is_uint 64 hi1) as Hhi1. pose proof (u64_range _ : is_uint 64 lo1) as Hlo1.
  set (lo2 := Z.lxor lo1 _). assert (is_uint 64 lo2) as Hlo2 by (unfold lo2; uint64).
  rewrite (mul_low lo2), !unavalanche_avalanche by side.
  rewrite (mul_undo 64 _ _ lo2), add_undo, (mul_undo 64 _ _ hi1) by side.
  assert (Z.lxor lo2 (EndianSwapValue 8 hi1) = lo1) as -> by apply lxor_undo.
  unfold lo1. rewrite (Z.add_comm (u64 (x * _))), add_undo, (mul_undo 64 _ _ x) by side.
  fold T. unfold hi1. rewrite add_undo by done. unfold g. rewrite unmix_mix, lxor_undo by uint64.
  f_equal. unfold x. by rewrite (Z.lxor_assoc l h bl), lxor_undo.
Qed.

Lemma hash_unhash h l seed : is_uint 64 h -> is_uint 64 l ->
  let '(h', l') := BijectiveUnhash2x64 h l seed in BijectiveHash2x64 h' l' seed = (h, l).
Proof.
  intros Hh Hl. unfold BijectiveHash2x64, BijectiveUnhash2x64. cbv zeta.
  set (bl := u64 (_ - seed)). set (bh := u64 (_ + seed)).
  pose proof (u64_range _ : is_uint 64 bl) as Hbl. pose proof (u64_range _ : is_uint 64 bh) as Hbh.
  set (lo1 := u64 (XXH3_unavalanche l * _)). pose proof (u64_range _ : is_uint 64 lo1) as Hlo1.
  set (T2 := Upper64of128 (Multiply64to128 lo1 _)). set (hi1 := u64 (XXH3_unavalanche h - T2)).
  set (hi2 := u64 (hi1 * _)). pose proof (u64_range _ : is_uint 64 hi2) as Hhi2.
  set (lo2 := Z.lxor lo1 (EndianSwapValue 8 hi2)). assert (is_uint 64 lo2) as Hlo2 by (unfold lo2; uint64).
  set (lo3 := u64 (lo2 - _)). set (lo4 := u64 (lo3 * _)). pose proof (u64_range _ : is_uint 64 lo4) as Hlo4.
  set (T := Upper64of128 (Multiply64to128 lo4 _)). set (hi3 := u64 (hi2 - T)).
  pose proof (u64_range _ : is_uint 64 (unmix hi3)) as Hu. set (H := Z.lxor (unmix hi3) bh).
  assert (is_uint 64 H) as HH by (unfold H; uint64). replace (Z.lxor (Z.lxor (Z.lxor lo4 (Z.lxor H bl)) H) bl) with lo4
    by (by rewrite (Z.lxor_assoc (Z.lxor lo4 _) H bl), lxor_undo).
  fold T. rewrite (mul_low lo4) by done. 
  assert (u64 (T + mix (Z.lxor H bh)) = hi2) as ->.
  { unfold H. rewrite lxor_undo, mix_unmix by apply u64_range. by apply sub_undo. }
  assert (u64 (u64 (lo4 * 0x9E3779B185EBCA87) + 0x3c0000000000000) = lo2) as ->.
  { unfold lo4. rewrite mul_undo by side. unfold lo3. rewrite Z.add_comm. by apply sub_undo. }
  assert (Z.lxor lo2 (EndianSwapValue 8 hi2) = lo1) as -> by apply lxor_undo. fold T2.
  pose proof (avalanche_range h Hh) as [_ Hvh]. pose proof (avalanche_range l Hl) as [_ Hvl].
  rewrite (mul_low lo1) by done. unfold lo1. rewrite (mul_undo 64 _ _ (XXH3_unavalanche l)) by side.
  unfold hi2. rewrite (mul_undo 64 _ _ hi1) by side. unfold hi1. rewrite sub_undo by done.
  by rewrite !avalanche_unavalanche.
Qed.

Lemma hash_range h l seed : is_uint 64 h -> is_uint 64 l ->
  let '(h', l') := BijectiveHash2x64 h l seed in is_uint 64 h' /\ is_uint 64 l'.
Proof.
  intros Hh Hl. unfold BijectiveHash2x64. cbv zeta. split; apply avalanche_range; [apply u64_range|].
  rewrite mul_low; [apply u64_range| |by split; vm_compute]. uint64.
Qed.

Lemma unhash_range h l seed : is_uint 64 h -> is_uint 64 l ->
  let '(h', l') := BijectiveUnhash2x64 h l seed in is_uint 64 h' /\ is_uint 64 l'.
Proof. intros Hh Hl. unfold BijectiveUnhash2x64. cbv zeta. split; unfold unmix; cbv zeta; uint64. Qed.

(** C32: the hash of 128-bit values is a bijection for every seed, and [BijectiveUnhash2x64] is its
    inverse in both directions. *)
Theorem bijective_hash h l seed (Hh : is_uint 64 h) (Hl : is_uint 64 l) :
  (let '(h', l') := BijectiveHash2x64 h l seed in
   is_uint 64 h' /\ is_uint 64 l' /\ BijectiveUnhash2x64 h' l' seed = (h, l)) /\
  (let '(h', l') := BijectiveUnhash2x64 h l seed in
   is_uint 64 h' /\ is_uint 64 l' /\ BijectiveHash2x64 h' l' seed = (h, l)).
Proof.
  pose proof (unhash_hash h l seed Hh Hl) as H1. pose proof (hash_unhash h l seed Hh Hl) as H2.
  pose proof (hash_range h l seed Hh Hl) as H3. pose proof (unhash_range h l seed Hh Hl) as H4.
  destruct (BijectiveHash2x64 h l seed), (BijectiveUnhash2x64 h l seed). by destruct H3, H4.
Qed.

Lemma bijective_hash_witness : is_uint 64 1 /\
  (let '(h', l') := BijectiveHash2x64 1 2 3 in is_uint 64 h' /\ is_uint 64 l' /\ BijectiveUnhash2x64 h' l' 3 = (1, 2)).
Proof. split; [done|]. apply (bijective_hash 1 2 3); done. Defined.
