(* ===== verification/CacheKey.v ===== *)
(** * Unique identifiers of files and cache keys

    [cache/cache_key.h] and [.cc], [table/unique_id.cc]: the key of a block in the cache is
    made of an identifier of the file and the offset of the block. The identifier of a file
    combines a session, a hash of the database and the number of the file; nothing is known in
    advance about how large the numbers are, and the key still tells them apart as long as
    their bits fit into a key.

    The vendored hash and the decoding of session identifiers, which has no definition in the
    repository, are the operations of a class. *)

From S2P Require Import Prelude.
From S2P Require Import Status.
From S2P Require Import Coding.
From S2P Require Import Bits.
From S2P Require Import Math128.
From S2P Require Import Hashing.
From S2P Require Import ShardedCache.

(** ** Definitions *)

Record CacheKey : Set := mkCacheKey { file_num_etc64_ : Z; offset_etc64_ : Z }.

#[global] Instance CacheKey_eq_dec : EqDecision CacheKey.
Proof. solve_decision. Defined.

Definition CacheKey_empty : CacheKey := mkCacheKey 0 0.
Definition CacheKey_IsEmpty (k : CacheKey) : bool := (file_num_etc64_ k =? 0) && (offset_etc64_ k =? 0).

(** The bytes of the structure on a little-endian machine. *)
Definition AsSlice (k : CacheKey) : bytes := EncodeFixed64 (file_num_etc64_ k) ++ EncodeFixed64 (offset_etc64_ k).

Definition CreateUniqueForCacheLifetime (cache : ShardedCache) : CacheKey * ShardedCache :=
  let '(id, cache) := NewId cache in
  (mkCacheKey 0 (u64 (id + 1)), cache).

(** The static [counter] starts at [UINT64_MAX]. *)
Definition CreateUniqueForProcessLifetime (counter : Z) : CacheKey * Z :=
  (mkCacheKey 0 counter, u64 (counter - 1)).

(** [id.ptr[0]] and [id.ptr[1]] *)
Definition UniqueId64x2 : Set := Z * Z.

Definition FromInternalUniqueId (id : UniqueId64x2) : CacheKey :=
  let '(session_lower, file_num_etc) := id in
  let session_lower := if session_lower =? 0 then file_num_etc else session_lower in
  let a := Z.lxor (DownwardInvolution 8 session_lower) (ReverseBits 8 file_num_etc) in
  let b := ReverseBits 8 session_lower in
  if a =? 0 then mkCacheKey b a else mkCacheKey a b.

Definition ToInternalUniqueId (k : CacheKey) : UniqueId64x2 :=
  let '(a, b) := (file_num_etc64_ k, offset_etc64_ k) in
  let '(a, b) := if b =? 0 then (b, a) else (a, b) in
  let rv0 := ReverseBits 8 b in
  (rv0, ReverseBits 8 (Z.lxor a (DownwardInvolution 8 rv0))).

Definition WithOffset (k : CacheKey) (offset : Z) : CacheKey :=
  mkCacheKey (file_num_etc64_ k) (Z.lxor (offset_etc64_ k) offset).

Definition CommonPrefixSlice (k : CacheKey) : bytes := EncodeFixed64 (file_num_etc64_ k).

(** What [GetSstInternalUniqueId] calls. *)
Class IdSources : Type := {
  DecodeSessionId : bytes -> Status + Z * Z;   (** the upper and the lower word, or an error *)
  Hash2x64 : bytes -> Z * Z;
  Hash2x64_seeded : bytes -> Z -> Z * Z;
}.

(** [GetSstInternalUniqueId]: the words written to [out], the third one if it is extended. *)
Definition GetSstInternalUniqueId `{IdSources} (db_id db_session_id : bytes) (file_number : Z)
    (force : bool) : Status + Z * Z * Z :=
  if negb force && bool_decide (db_id = []) then inl (NotSupported "Missing db_id")
  else if negb force && (file_number =? 0) then inl (NotSupported "Missing or bad file number")
  else if negb force && bool_decide (db_session_id = []) then inl (NotSupported "Missing db_session_id")
  else
    match
      match DecodeSessionId db_session_id with
      | inr session => inr session
      | inl s =>
          if negb force then inl s
          else
            let '(session_upper, session_lower) := Hash2x64 db_session_id in
            inr (session_upper, if session_lower =? 0 then Z.lor session_upper 1 else session_lower)
      end
    with
    | inl s => inl s
    | inr (session_upper, session_lower) =>
        let '(db_a, db_b) := Hash2x64_seeded db_id session_upper in
        inr (session_lower, Z.lxor db_a file_number, db_b)
    end.

(** The constructor of [OffsetableCacheKey]; with [force] there is no error. *)
Definition OffsetableCacheKey `{IdSources} (db_id db_session_id : bytes) (file_number : Z) : CacheKey :=
  match GetSstInternalUniqueId db_id db_session_id file_number true with
  | inr (a, b, _) => FromInternalUniqueId (a, b)
  | inl _ => CacheKey_empty
  end.

(** ** The identifier and the base key *)

Lemma zero_range : is_uint 64 0.
Proof. by split. Qed.

Lemma reverse_zero v : is_uint 64 v -> ReverseBits 8 v = 0 -> v = 0.
Proof. intros Hv E. rewrite <- (ReverseBits_involutive v Hv), E. apply linear_0, _. Qed.

Lemma lxor_move a b c : Z.lxor a b = c -> b = Z.lxor a c.
Proof. intros <-. by rewrite <- Z.lxor_assoc, Z.lxor_nilpotent, Z.lxor_0_l. Qed.

(** What identifies a file, and what may be a base key. *)
Definition id_ok (id : UniqueId64x2) : Prop :=
  is_uint 64 id.1 /\ is_uint 64 id.2 /\ (id.1 = 0 -> id.2 = 0).
Definition base_ok (k : CacheKey) : Prop :=
  is_uint 64 (file_num_etc64_ k) /\ is_uint 64 (offset_etc64_ k) /\ (file_num_etc64_ k = 0 -> offset_etc64_ k = 0).

Lemma from_ok id : id_ok id -> base_ok (FromInternalUniqueId id) /\ ToInternalUniqueId (FromInternalUniqueId id) = id.
Proof.
  destruct id as [s f]. intros (Hs & Hf & Hz). cbn in Hs, Hf, Hz. unfold FromInternalUniqueId, ToInternalUniqueId.
  replace (if s =? 0 then f else s) with s by (destruct (Z.eqb_spec s 0) as [->|]; [by rewrite Hz|done]).
  set (a := Z.lxor _ _). pose proof (reverse_range s Hs) as Hrs. pose proof (reverse_range f Hf) as Hrf.
  assert (is_uint 64 a) as Ha by (apply lxor_range; [lia|apply involution_range|done]).
  assert (ReverseBits 8 (Z.lxor a (DownwardInvolution 8 s)) = f) as Ef.
  { unfold a. rewrite (Z.lxor_comm (DownwardInvolution 8 s)), lxor_undo. by apply ReverseBits_involutive. }
  destruct (Z.eqb_spec a 0) as [Ea|Ea]; cbn [file_num_etc64_ offset_etc64_].
  - rewrite Ea in *. split; [split_and!; done|]. cbn [Z.eqb]. by rewrite ReverseBits_involutive, Ef by done.
  - split; [split_and!; done|]. destruct (Z.eqb_spec (ReverseBits 8 s) 0) as [E|E].
    + apply reverse_zero in E as ->; [|done]. specialize (Hz eq_refl) as ->. destruct Ea. unfold a.
      by rewrite (linear_0 (ReverseBits 8)), (linear_0 (DownwardInvolution 8)).
    + by rewrite ReverseBits_involutive, Ef by done.
Qed.

Lemma to_ok k : base_ok k -> id_ok (ToInternalUniqueId k) /\ FromInternalUniqueId (ToInternalUniqueId k) = k.
Proof.
  destruct k as [a b]. intros (Ha & Hb & Hz). cbn in Ha, Hb, Hz. unfold ToInternalUniqueId. cbn [file_num_etc64_ offset_etc64_].
  assert (forall x y, is_uint 64 x -> is_uint 64 y -> (y = 0 -> x = 0) -> let s := ReverseBits 8 y in
    let f := ReverseBits 8 (Z.lxor x (DownwardInvolution 8 s)) in
    id_ok (s, f) /\ FromInternalUniqueId (s, f) = if x =? 0 then mkCacheKey y x else mkCacheKey x y) as H.
  { intros x y Hx Hy Hyx s f. assert (is_uint 64 s) as Hs by by apply reverse_range.
    assert (is_uint 64 (Z.lxor x (DownwardInvolution 8 s))) as Hl by (apply lxor_range; [lia|done|apply involution_range]).
    assert (s = 0 -> f = 0) as Hsf.
    { intros E. apply reverse_zero in E as E'; [|done]. unfold f. rewrite E, (Hyx E'), (linear_0 (DownwardInvolution 8)).
      apply linear_0, _. }
    assert (is_uint 64 f) as Hf by by apply reverse_range. split; [by split_and!|]. unfold FromInternalUniqueId.
    replace (if s =? 0 then f else s) with s by (destruct (Z.eqb_spec s 0) as [->|]; [by rewrite Hsf|done]).
    unfold f. rewrite (ReverseBits_involutive (Z.lxor _ _)) by done. rewrite (Z.lxor_comm x), <- Z.lxor_assoc, Z.lxor_nilpotent, Z.lxor_0_l.
    unfold s. by rewrite ReverseBits_involutive. }
  destruct (Z.eqb_spec b 0) as [->|Hb0].
  - destruct (H 0 a zero_range Ha ltac:(done)) as [H1 H2]. by rewrite H2.
  - destruct (H a b Ha Hb ltac:(done)) as [H1 H2]. split; [done|]. rewrite H2.
    destruct (Z.eqb_spec a 0) as [->|]; [by rewrite Hz in Hb0|done].
Qed.

(** base keys and identifiers of files correspond one to one: [ToInternalUniqueId] and
    [FromInternalUniqueId] are inverse to each other in both directions, between identifiers
    whose first word is zero only if they are empty and keys whose first word is zero only if
    they are empty. Keys for offsets of a file with an identifier thus never have a zero first
    word, and keys of the same file differ for different offsets. *)
Theorem cache_key_base :
  (forall id, id_ok id -> base_ok (FromInternalUniqueId id) /\ ToInternalUniqueId (FromInternalUniqueId id) = id) /\
  (forall k, base_ok k -> id_ok (ToInternalUniqueId k) /\ FromInternalUniqueId (ToInternalUniqueId k) = k) /\
  (forall id o o', id_ok id -> id <> (0, 0) -> file_num_etc64_ (WithOffset (FromInternalUniqueId id) o) <> 0 /\
     (WithOffset (FromInternalUniqueId id) o = WithOffset (FromInternalUniqueId id) o' -> o = o')).
Proof.
  split_and!; [apply from_ok|apply to_ok|]. intros id o o' Hid Hn. destruct (from_ok id Hid) as [(_ & _ & Hz) Ht].
  cbn [WithOffset file_num_etc64_ offset_etc64_]. split.
  - intros E. apply Hn. rewrite <- Ht. specialize (Hz E). destruct (FromInternalUniqueId id) as [a b]. cbn in E, Hz. by subst.
  - intros E. injection E as E. apply lxor_move in E. by rewrite <- Z.lxor_assoc, Z.lxor_nilpotent, Z.lxor_0_l in E.
Qed.

(** ** Uniqueness *)

(** The reversal of a short number has no low bits. *)
Lemma reverse_low_bits j e : 0 <= j <= 64 -> is_uint 64 e -> is_uint j e -> wrap (64 - j) (ReverseBits 8 e) = 0.
Proof.
  intros Hj He Hs. apply Z.bits_inj'. intros i Hi. rewrite wrap_bits, Z.bits_0 by lia.
  destruct (Z.ltb_spec i (64 - j)); [|done]. cbn [andb]. rewrite ReverseBits_spec by (done || lia).
  apply (uint_bits j e); [done|lia].
Qed.

Lemma uint_le n m v : 0 <= n <= m -> is_uint n v -> is_uint m v.
Proof. intros Hnm [H1 H2]. split; [done|]. pose proof (Z.pow_le_mono_r 2 n m). lia. Qed.

(** The lemma behind the layout of keys: the differences of session, file number and offset
    vanish together with the differences of the two words, if they have at most 128 bits. *)
Lemma differences_vanish i j k d e f :
  0 <= i <= 64 -> 0 <= j <= 64 -> 0 <= k <= 64 -> i + j + k <= 128 ->
  is_uint i d -> is_uint j e -> is_uint k f ->
  Z.lxor (DownwardInvolution 8 d) (ReverseBits 8 e) = 0 -> Z.lxor (ReverseBits 8 d) f = 0 ->
  d = 0 /\ e = 0 /\ f = 0.
Proof.
  intros Hi Hj Hk Hsum Hd He Hf E1 E2.
  pose proof (uint_le i 64 d Hi Hd) as Hd64. pose proof (uint_le j 64 e Hj He) as He64. pose proof (uint_le k 64 f Hk Hf) as Hf64.
  apply Z.lxor_eq in E1. apply Z.lxor_eq in E2. assert (d = 0) as ->.
  - set (c := Z.min (64 - j) i). set (b := i - c). apply (involution_determines b c); [lia..| | |].
    + by replace (b + c) with i by lia.
    + pose proof (reverse_low_bits k f Hk Hf64 Hf) as Hr. rewrite <- E2, ReverseBits_involutive in Hr by done.
      rewrite <- (wrap_wrap_le b (64 - k)), Hr by lia. by unfold wrap; rewrite Z.mod_0_l by lia.
    + pose proof (reverse_low_bits j e Hj He64 He) as Hr. rewrite <- E1 in Hr.
      rewrite <- (wrap_wrap_le c (64 - j)), Hr by lia. by unfold wrap; rewrite Z.mod_0_l by lia.
  - rewrite (linear_0 (DownwardInvolution 8)) in E1. rewrite (linear_0 (ReverseBits 8)) in E2.
    split; [done|]. split; [|done]. by apply reverse_zero.
Qed.

(** The key of an offset when neither of the corrections for zero words applies. *)
Definition regular (id : UniqueId64x2) : Prop :=
  id.1 <> 0 /\ DownwardInvolution 8 id.1 <> ReverseBits 8 id.2.

Lemma regular_key id o : regular id ->
  WithOffset (FromInternalUniqueId id) o =
  mkCacheKey (Z.lxor (DownwardInvolution 8 id.1) (ReverseBits 8 id.2)) (Z.lxor (ReverseBits 8 id.1) o).
Proof.
  destruct id as [s f]. intros [Hs Hr]. cbn in Hs, Hr. unfold FromInternalUniqueId. destruct (Z.eqb_spec s 0); [done|].
  cbn [fst snd]. destruct (Z.eqb_spec (Z.lxor (DownwardInvolution 8 s) (ReverseBits 8 f)) 0) as [E|]; [by apply Z.lxor_eq in E|done].
Qed.

Lemma lxor_swap a b c d : Z.lxor (Z.lxor a b) (Z.lxor c d) = Z.lxor (Z.lxor a c) (Z.lxor b d).
Proof. apply Z.bits_inj'. intros i _. rewrite !Z.lxor_spec. by destruct (Z.testbit a i), (Z.testbit b i), (Z.testbit c i), (Z.testbit d i). Qed.

Lemma keys_differ i j k s f s' f' o o' :
  0 <= i <= 64 -> 0 <= j <= 64 -> 0 <= k <= 64 -> i + j + k <= 128 ->
  is_uint i (Z.lxor s s') -> is_uint j (Z.lxor f f') -> is_uint k o -> is_uint k o' ->
  regular (s, f) -> regular (s', f') ->
  WithOffset (FromInternalUniqueId (s, f)) o = WithOffset (FromInternalUniqueId (s', f')) o' ->
  s = s' /\ f = f' /\ o = o'.
Proof.
  intros Hi Hj Hk Hsum Hs Hf Ho Ho' Hr Hr' E. rewrite !regular_key in E by done. cbn [fst snd] in E. injection E as E1 E2.
  apply Z.lxor_eq_0_iff in E1, E2. rewrite lxor_swap in E1, E2.
  rewrite <- (bit_linear (f := DownwardInvolution 8)), <- (bit_linear (f := ReverseBits 8)) in E1.
  rewrite <- (bit_linear (f := ReverseBits 8)) in E2.
  destruct (differences_vanish i j k _ _ _ Hi Hj Hk Hsum Hs Hf (lxor_range k o o' ltac:(lia) Ho Ho') E1 E2) as (H1 & H2 & H3).
  by apply Z.lxor_eq in H1, H2, H3.
Qed.

Lemma AsSlice_inj k k' : is_uint 64 (file_num_etc64_ k) -> is_uint 64 (offset_etc64_ k) ->
  is_uint 64 (file_num_etc64_ k') -> is_uint 64 (offset_etc64_ k') -> AsSlice k = AsSlice k' -> k = k'.
Proof.
  intros H1 H2 H3 H4 E. unfold AsSlice in E. apply app_inj_1 in E as [E1 E2].
  - destruct k, k'. cbn [file_num_etc64_ offset_etc64_] in *. f_equal.
    + rewrite <- (DecodeFixed64_Encode file_num_etc64_0 []), E1 by done. by apply DecodeFixed64_Encode.
    + rewrite <- (DecodeFixed64_Encode offset_etc64_0 []), E2 by done. by apply DecodeFixed64_Encode.
  - pose proof (size_EncodeFixed64 (file_num_etc64_ k)). pose proof (size_EncodeFixed64 (file_num_etc64_ k')).
    unfold size in *. lia.
Qed.

Lemma WithOffset_range id o : id_ok id -> is_uint 64 o ->
  is_uint 64 (file_num_etc64_ (WithOffset (FromInternalUniqueId id) o)) /\
  is_uint 64 (offset_etc64_ (WithOffset (FromInternalUniqueId id) o)).
Proof. intros Hid Ho. destruct (from_ok id Hid) as [(H1 & H2 & _) _]. split; [done|]. by apply lxor_range. Qed.

(** The words that the hash and the decoder give have 64 bits. *)
Class IdSourcesLaws `{IdSources} : Prop := {
  session_range se u s : DecodeSessionId se = inr (u, s) -> is_uint 64 u /\ is_uint 64 s;
  hash_words_range db seed : is_uint 64 (Hash2x64_seeded db seed).1 /\ is_uint 64 (Hash2x64_seeded db seed).2;
}.

Section Files.
Context `{IdSourcesLaws}.

(** The identifier of a file of a session. *)
Definition file_id (db : bytes) (u s n : Z) : UniqueId64x2 := (s, Z.lxor (Hash2x64_seeded db u).1 n).

Lemma constructed_key db se n u s : DecodeSessionId se = inr (u, s) ->
  OffsetableCacheKey db se n = FromInternalUniqueId (file_id db u s n).
Proof.
  intros E. unfold OffsetableCacheKey, GetSstInternalUniqueId, file_id. cbn [negb andb]. rewrite E.
  by destruct (Hash2x64_seeded db u).
Qed.

(** C31: blocks of files written in one process have different cache keys. Take two blocks, with
    sessions that differ in [i] bits, file numbers of [j] bits and offsets of [k] bits. If the
    files belong to one database and the numbers have at most 128 bits together, or if they
    belong to any databases and sessions and offsets have at most 64 bits together, then blocks
    with the same bytes as cache key have the same session, the same offset and, in one
    database, the same file number. The bounds need not be known when the keys are made. Left
    out are identifiers for which a word of the key would be zero and is corrected. *)
Theorem cache_keys_unique db db' se se' n n' o o' u s s' i j k
    (Hse : DecodeSessionId se = inr (u, s)) (Hse' : DecodeSessionId se' = inr (u, s'))
    (Hi : 0 <= i <= 64) (Hj : 0 <= j <= 64) (Hk : 0 <= k <= 64)
    (Hs : is_uint i (Z.lxor s s')) (Hn : is_uint j n) (Hn' : is_uint j n') (Ho : is_uint k o) (Ho' : is_uint k o')
    (Hfit : db = db' /\ i + j + k <= 128 \/ i + k <= 64)
    (Hreg : regular (file_id db u s n)) (Hreg' : regular (file_id db' u s' n'))
    (Hkey : AsSlice (WithOffset (OffsetableCacheKey db se n) o) = AsSlice (WithOffset (OffsetableCacheKey db' se' n') o')) :
  s = s' /\ o = o' /\ (db = db' -> n = n').
Proof.
  destruct (session_range _ _ _ Hse) as [Hu Hs1], (session_range _ _ _ Hse') as [_ Hs2].
  destruct (hash_words_range db u) as [Hh _], (hash_words_range db' u) as [Hh' _].
  pose proof (uint_le j 64 n Hj Hn) as Hn64. pose proof (uint_le j 64 n' Hj Hn') as Hn64'.
  rewrite (constructed_key db se n u s Hse), (constructed_key db' se' n' u s' Hse') in Hkey.
  assert (forall d t m, is_uint 64 t -> is_uint 64 (Hash2x64_seeded d u).1 -> is_uint 64 m -> regular (file_id d u t m) ->
    id_ok (file_id d u t m)) as Hok.
  { intros d t m Ht Hd Hm [Hr _]. split_and!; [done|by apply lxor_range|by intros]. }
  apply AsSlice_inj in Hkey; [|apply WithOffset_range; [by apply Hok|by apply (uint_le k)]..].
  assert (exists j', 0 <= j' <= 64 /\ i + j' + k <= 128 /\
    is_uint j' (Z.lxor (file_id db u s n).2 (file_id db' u s' n').2)) as (j' & Hj' & Hsum & Hf).
  { destruct Hfit as [[<- Hsum]|Hsum]; [exists j|exists 64]; (split; [lia|split; [lia|]]); cbn [file_id snd].
    - rewrite lxor_swap, Z.lxor_nilpotent, Z.lxor_0_l. apply lxor_range; [lia|done..].
    - repeat (apply lxor_range; [lia|..]); done. }
  destruct (keys_differ i j' k _ _ _ _ o o' Hi Hj' Hk Hsum Hs Hf Ho Ho' Hreg Hreg' Hkey) as (E1 & E2 & E3).
  split_and!; [done..|]. intros <-. cbn [file_id snd] in E2. apply lxor_move in E2.
  by rewrite <- Z.lxor_assoc, Z.lxor_nilpotent, Z.lxor_0_l in E2.
Qed.

End Files.

(** A decoder of two words and a hash, for an example. *)
#[global] Instance demo_sources : IdSources := {|
  DecodeSessionId se :=
    if bool_decide (length se = 16)%nat then inr (DecodeFixed64 se, DecodeFixed64 (drop 8 se)) else inl (NotSupported "");
  Hash2x64 se := (Hash se 1, Hash se 2);
  Hash2x64_seeded db seed := (u64 (Hash db (u32 seed)), u64 (Hash db 3));
|}.

#[global] Instance demo_sources_laws : IdSourcesLaws.
Proof.
  split.
  - intros se u s E. cbn in E. case_bool_decide as Hl; [|done]. injection E as <- <-.
    assert (forall bs : bytes, (length bs = 8)%nat -> is_uint 64 (le_val bs)) as Hr.
    { intros bs Hb. pose proof (le_val_range bs) as Hr. unfold size in Hr. by rewrite Hb in Hr. }
    split; apply Hr; rewrite length_take; try rewrite length_drop; lia.
  - intros db seed. split; by apply wrap_range.
Qed.

Lemma cache_keys_unique_witness :
  let se := EncodeFixed64 7 ++ EncodeFixed64 (Z.lxor 0x123456789abcdef0 1) in
  let se' := EncodeFixed64 7 ++ EncodeFixed64 (Z.lxor 0x123456789abcdef0 2) in
  AsSlice (WithOffset (OffsetableCacheKey [x61] se 12) 4096) <> AsSlice (WithOffset (OffsetableCacheKey [x61] se' 13) 4096).
Proof.
  intros se se' E.
  assert (0x123456789abcdef1 = 0x123456789abcdef2) as Hd; [|done].
  refine (proj1 (cache_keys_unique [x61] [x61] se se' 12 13 4096 4096 7 0x123456789abcdef1 0x123456789abcdef2 24 40 64 _ _ _ _ _ _ _ _ _ _ _ _ _ E)).
  1,2: vm_compute; reflexivity.
  1,2,3: split; lia.
  1,2,3,4,5: split; vm_compute; congruence.
  1: left; split; [reflexivity|lia].
  all: split; vm_compute; congruence.
Defined.

(** ** Keys that are not of files *)

Inductive KeyRequest : Set := ForCache | ForProcess.

(** Requests for unique keys, in any order, by one cache and one process. *)
Fixpoint create_keys (l : list KeyRequest) (cache : ShardedCache) (counter : Z) : list CacheKey :=
  match l with
  | [] => []
  | ForCache :: l => let '(k, cache) := CreateUniqueForCacheLifetime cache in k :: create_keys l cache counter
  | ForProcess :: l => let '(k, counter) := CreateUniqueForProcessLifetime counter in k :: create_keys l cache counter
  end.

Lemma create_keys_range l : forall cache counter,
  1 <= last_id_ cache -> last_id_ cache + size l < 2 ^ 63 - 1 -> 2 ^ 63 + size l <= counter < 2 ^ 64 ->
  Forall (fun k => file_num_etc64_ k = 0 /\
    (last_id_ cache + 1 <= offset_etc64_ k < 2 ^ 63 \/ 2 ^ 63 <= offset_etc64_ k <= counter)) (create_keys l cache counter) /\
  NoDup (create_keys l cache counter).
Proof.
  induction l as [|r l IH]; intros cache counter H1 H2 H3; [split; constructor|].
  assert (size (r :: l) = 1 + size l) as Hsz by (unfold size; cbn; lia). rewrite Hsz in H2, H3. pose proof (size_nonneg l).
  destruct r; cbn [create_keys CreateUniqueForCacheLifetime CreateUniqueForProcessLifetime NewId].
  - destruct (IH (mkShardedCache (u64 (last_id_ cache + 1)) (shard_mask_ cache) (hash_seed_ cache)
      (sc_strict_capacity_limit_ cache) (sc_capacity_ cache) (shards_ cache)) counter) as [Hf Hnd];
      cbn [last_id_]; rewrite ?(wrap_small 64 (last_id_ cache + 1)) by (split; lia); try lia.
    cbn [last_id_] in Hf. rewrite wrap_small in Hf, Hnd by (split; lia). rewrite Forall_forall in Hf.
    split; [apply Forall_cons; split|apply NoDup_cons; split; [|done]].
    + cbn [file_num_etc64_ offset_etc64_]. lia.
    + apply Forall_forall. intros k Hk. apply Hf in Hk. lia.
    + intros Hk. apply Hf in Hk. cbn [file_num_etc64_ offset_etc64_] in Hk. lia.
  - destruct (IH cache (u64 (counter - 1))) as [Hf Hnd]; rewrite ?(wrap_small 64 (counter - 1)) by (split; lia); try lia.
    rewrite wrap_small in Hf, Hnd by (split; lia). rewrite Forall_forall in Hf.
    split; [apply Forall_cons; split|apply NoDup_cons; split; [|done]].
    + cbn [file_num_etc64_ offset_etc64_]. lia.
    + apply Forall_forall. intros k Hk. apply Hf in Hk. lia.
    + intros Hk. apply Hf in Hk. cbn [file_num_etc64_ offset_etc64_] in Hk. lia.
Qed.

(** Keys made for the lifetime of a cache or of the process are never empty, are different from
    each other and from every key of a block of a file, as long as fewer than [2^63 - 3] of
    them are made. *)
Theorem created_keys_fresh l env opts seed cache id o : LRUCache_new env opts seed = Some cache -> size l < 2 ^ 63 - 3 ->
  id_ok id -> id <> (0, 0) ->
  NoDup (create_keys l cache (2 ^ 64 - 1)) /\
  Forall (fun k => CacheKey_IsEmpty k = false /\ k <> WithOffset (FromInternalUniqueId id) o) (create_keys l cache (2 ^ 64 - 1)).
Proof.
  intros Hc Hl Hid Hn. assert (last_id_ cache = 1) as H1.
  { unfold LRUCache_new in Hc. cbn zeta in Hc. destruct (LruShard.LRUCacheShard_new _ _ _ _ _ _ _); [|done]. by injection Hc as <-. }
  destruct (create_keys_range l cache (2 ^ 64 - 1)) as [Hf Hnd]; [lia..|]. split; [done|].
  eapply Forall_impl; [exact Hf|]. intros k [Hk Ho]. cbv beta in Ho. split.
  - unfold CacheKey_IsEmpty. destruct (Z.eqb_spec (offset_etc64_ k) 0); [lia|apply andb_false_r].
  - intros E. destruct (from_ok id Hid) as [(_ & _ & Hz) Ht]. rewrite E in Hk. cbn [WithOffset file_num_etc64_] in Hk.
    apply Hn. rewrite <- Ht. specialize (Hz Hk). destruct (FromInternalUniqueId id) as [a b]. cbn in Hk, Hz. by subst.
Qed.
