(* ===== verification/ThreadLocal.v ===== *)
(** * Thread-local pointers

    [util/thread_local.cc]: instances of [ThreadLocalPtr] share one vector of pointers per
    thread, indexed by the identifier of the instance. The structures of all threads are in a
    circular list, so that an instance can collect or release what all threads have stored.

    A thread reads and writes the entries of its own vector without a lock; the list, the
    length of the vectors, identifiers and handlers are protected by one mutex. An operation
    that goes through the list holds the mutex but lets the owners of the entries run in
    between, so that each exchange of an entry is a step of its own. A pointer is a number, zero
    the null pointer; so is a handler. Handlers are called with the mutex held and do not call
    back. [None] is an access that the language does not define. *)

From S2P Require Import Prelude.

Definition loc : Set := positive.

Record ThreadData : Set := mkThreadData { entries : list Z; td_next : option loc; td_prev : option loc }.

Definition set_entries (l : list Z) (d : ThreadData) := mkThreadData l (td_next d) (td_prev d).
Definition td_set_next (p : option loc) (d : ThreadData) := mkThreadData (entries d) p (td_prev d).
Definition td_set_prev (p : option loc) (d : ThreadData) := mkThreadData (entries d) (td_next d) p.

(** The address of [head_]. *)
Definition list_head : loc := 1%positive.

(** [StaticMeta] with the memory of [ThreadData] and the variable [tls_] of each thread; the
    calls of handlers so far. *)
Record StaticMeta : Set := mkStaticMeta {
  next_instance_id_ : Z;
  free_instance_ids_ : list Z;
  handler_map_ : gmap Z Z;
  memory : gmap loc ThreadData;
  tls_ : gmap nat loc;
  unrefs : list (Z * Z);
}.

Definition set_memory (h : gmap loc ThreadData) (m : StaticMeta) :=
  mkStaticMeta (next_instance_id_ m) (free_instance_ids_ m) (handler_map_ m) h (tls_ m) (unrefs m).
Definition set_tls (t : gmap nat loc) (m : StaticMeta) :=
  mkStaticMeta (next_instance_id_ m) (free_instance_ids_ m) (handler_map_ m) (memory m) t (unrefs m).
Definition set_ids (n : Z) (f : list Z) (m : StaticMeta) :=
  mkStaticMeta n f (handler_map_ m) (memory m) (tls_ m) (unrefs m).
Definition set_handlers (g : gmap Z Z) (m : StaticMeta) :=
  mkStaticMeta (next_instance_id_ m) (free_instance_ids_ m) g (memory m) (tls_ m) (unrefs m).
Definition add_unrefs (l : list (Z * Z)) (m : StaticMeta) :=
  mkStaticMeta (next_instance_id_ m) (free_instance_ids_ m) (handler_map_ m) (memory m) (tls_ m) (unrefs m ++ l).

Definition StaticMeta_new : StaticMeta :=
  mkStaticMeta 0 [] ∅ {[ list_head := mkThreadData [] (Some list_head) (Some list_head) ]} ∅ [].

(** An assignment through a pointer to a [ThreadData]. *)
Definition write (p : option loc) (f : ThreadData -> ThreadData) (m : StaticMeta) : option StaticMeta :=
  p ← p; d ← memory m !! p; Some (set_memory (<[p := f d]> (memory m)) m).

Definition AddThreadData (d : loc) (m : StaticMeta) : option StaticMeta :=
  m ← write (Some d) (td_set_next (Some list_head)) m;
  h ← memory m !! list_head;
  m ← write (Some d) (td_set_prev (td_prev h)) m;
  m ← write (td_prev h) (td_set_next (Some d)) m;
  write (Some list_head) (td_set_prev (Some d)) m.

Definition RemoveThreadData (d : loc) (m : StaticMeta) : option StaticMeta :=
  td ← memory m !! d;
  m ← write (td_next td) (td_set_prev (td_prev td)) m;
  td ← memory m !! d;
  m ← write (td_prev td) (td_set_next (td_next td)) m;
  m ← write (Some d) (td_set_prev (Some d)) m;
  write (Some d) (td_set_next (Some d)) m.

(** The allocation and registration of [GetThreadLocal], when [tls_] is null. *)
Definition register (t : nat) (m : StaticMeta) : option StaticMeta :=
  let p := fresh (dom (memory m)) in
  let m := set_tls (<[t := p]> (tls_ m)) (set_memory (<[p := mkThreadData [] None None]> (memory m)) m) in
  AddThreadData p m.

Definition own (t : nat) (m : StaticMeta) : option ThreadData := p ← tls_ m !! t; memory m !! p.

(** [std::vector::resize] *)
Definition vector_resize (n : Z) (l : list Z) : list Z :=
  if size l <=? n then l ++ replicate (Z.to_nat (n - size l)) 0 else ztake n l.

Definition GetHandler (id : Z) (m : StaticMeta) : Z := default 0 (handler_map_ m !! id).

Definition SetHandler (id handler : Z) (m : StaticMeta) : StaticMeta :=
  set_handlers (<[id := handler]> (handler_map_ m)) m.

Definition GetId (m : StaticMeta) : Z * StaticMeta :=
  match last (free_instance_ids_ m) with
  | None => (next_instance_id_ m, set_ids (u32 (next_instance_id_ m + 1)) (free_instance_ids_ m) m)
  | Some id => (id, set_ids (next_instance_id_ m) (removelast (free_instance_ids_ m)) m)
  end.

Definition PeekId (m : StaticMeta) : Z :=
  match last (free_instance_ids_ m) with Some id => id | None => next_instance_id_ m end.

(** The handler calls of [OnThreadExit] for the entries from [id] on. *)
Fixpoint exit_calls (id : Z) (l : list Z) (m : StaticMeta) : list (Z * Z) :=
  match l with
  | [] => []
  | raw :: l =>
      (if negb (raw =? 0) && negb (GetHandler id m =? 0) then [(GetHandler id m, raw)] else [])
      ++ exit_calls (id + 1) l m
  end.

(** The variable [tls_] of the thread keeps its value. *)
Definition OnThreadExit (p : loc) (m : StaticMeta) : option StaticMeta :=
  m ← RemoveThreadData p m;
  d ← memory m !! p;
  let m := add_unrefs (exit_calls 0 (entries d) m) m in
  Some (set_memory (delete p (memory m)) m).

(** ** Threads

    What a thread may have under way on an instance. *)
Inductive TlOp : Set :=
| OpGet (id : Z)
| OpReset (id ptr : Z)
| OpSwap (id ptr : Z)
| OpCas (id ptr expected : Z).

Definition op_id (o : TlOp) : Z :=
  match o with OpGet id | OpReset id _ | OpSwap id _ | OpCas id _ _ => id end.

(** How far it has come: [GetThreadLocal] is next, then the length of the vector, then the
    access. *)
Inductive Stage : Set := AtStart | HasData | Sized.

(** What a thread that goes through the list does at each structure. *)
Inductive Job : Set :=
| Scraping (id replacement : Z) (ptrs : list Z)
| Folding (id : Z) (seen : list Z)
| Reclaiming (id unref : Z).

Definition job_id (j : Job) : Z :=
  match j with Scraping id _ _ | Folding id _ | Reclaiming id _ => id end.

(** [lock] is the thread that holds the mutex, its job, and the pointer [t] of its loop. *)
Record TlWorld : Set := mkTlWorld {
  meta : StaticMeta;
  running : gmap nat (TlOp * Stage);
  lock : option (nat * Job * option loc);
}.

Inductive TlEvent : Set :=
| EvNone
| EvGet (t : nat) (id v : Z)
| EvStore (t : nat) (id ptr old : Z)
| EvCas (t : nat) (id ptr expected old : Z)
| EvNew (id : Z)
| EvHandler (id h : Z)
| EvExit (t : nat) (calls : list (Z * Z))
| EvScraped (id : Z) (ptrs : list Z)
| EvFolded (id : Z) (seen : list Z)
| EvReclaimed (id : Z).

Inductive Outcome : Set := Blocked | Done (e : TlEvent) (w : TlWorld).

(** [t->entries[id].ptr] *)
Definition entry (id : Z) (d : ThreadData) : option Z := entries d !! Z.to_nat id.
Definition set_entry (id v : Z) (d : ThreadData) : ThreadData := set_entries (<[Z.to_nat id := v]> (entries d)) d.

(** The access at the end of an operation: the event and the value left in the entry. *)
Definition access (t : nat) (o : TlOp) (old : Z) : TlEvent * Z :=
  match o with
  | OpGet id => (EvGet t id old, old)
  | OpReset id ptr | OpSwap id ptr => (EvStore t id ptr old, ptr)
  | OpCas id ptr expected => (EvCas t id ptr expected old, if old =? expected then ptr else old)
  end.

Definition finish_access (t : nat) (o : TlOp) (w : TlWorld) : option Outcome :=
  let m := meta w in
  d ← own t m;
  old ← entry (op_id o) d;
  let '(ev, v) := access t o old in
  m ← write (tls_ m !! t) (set_entry (op_id o) v) m;
  Some (Done ev (mkTlWorld m (delete t (running w)) (lock w))).

(** The next step of the operation that thread [t] has under way. *)
Definition tl_op_step (t : nat) (w : TlWorld) : option Outcome :=
  let m := meta w in
  '(o, s) ← running w !! t;
  match s with
  | AtStart =>
      match tls_ m !! t with
      | Some _ => Some (Done EvNone (mkTlWorld m (<[t := (o, HasData)]> (running w)) (lock w)))
      | None =>
          match lock w with
          | Some _ => Some Blocked
          | None => m ← register t m; Some (Done EvNone (mkTlWorld m (<[t := (o, HasData)]> (running w)) None))
          end
      end
  | HasData =>
      d ← own t m;
      if op_id o >=? size (entries d) then
        match o with
        | OpGet id => Some (Done (EvGet t id 0) (mkTlWorld m (delete t (running w)) (lock w)))
        | _ =>
            match lock w with
            | Some _ => Some Blocked
            | None =>
                m ← write (tls_ m !! t) (fun d => set_entries (vector_resize (op_id o + 1) (entries d)) d) m;
                Some (Done EvNone (mkTlWorld m (<[t := (o, Sized)]> (running w)) None))
            end
        end
      else Some (Done EvNone (mkTlWorld m (<[t := (o, Sized)]> (running w)) (lock w)))
  | Sized => finish_access t o w
  end.

(** What a job does at one structure whose vector is long enough. *)
Definition visit (j : Job) (ptr : Z) : Job * Z * list (Z * Z) :=
  match j with
  | Scraping id replacement ptrs =>
      (Scraping id replacement (if ptr =? 0 then ptrs else ptrs ++ [ptr]), replacement, [])
  | Folding id seen => (Folding id (if ptr =? 0 then seen else seen ++ [ptr]), ptr, [])
  | Reclaiming id unref =>
      (j, 0, if negb (ptr =? 0) && negb (unref =? 0) then [(unref, ptr)] else [])
  end.

(** The end of a job, still under the mutex. *)
Definition end_job (j : Job) (m : StaticMeta) : TlEvent * StaticMeta :=
  match j with
  | Scraping id _ ptrs => (EvScraped id ptrs, m)
  | Folding id seen => (EvFolded id seen, m)
  | Reclaiming id _ =>
      (EvReclaimed id, set_ids (next_instance_id_ m) (free_instance_ids_ m ++ [id]) (SetHandler id 0 m))
  end.

Definition job_step (w : TlWorld) : option Outcome :=
  '(t, j, cursor) ← lock w;
  let m := meta w in
  p ← cursor;
  if bool_decide (p = list_head) then
    let '(ev, m) := end_job j m in Some (Done ev (mkTlWorld m (running w) None))
  else
    d ← memory m !! p;
    if job_id j <? size (entries d) then
      ptr ← entry (job_id j) d;
      let '(j, v, calls) := visit j ptr in
      m ← write (Some p) (set_entry (job_id j) v) m;
      Some (Done EvNone (mkTlWorld (add_unrefs calls m) (running w) (Some (t, j, td_next d))))
    else Some (Done EvNone (mkTlWorld m (running w) (Some (t, j, td_next d)))).

(** The loop of a job starts at [head_.next]. *)
Definition start_job (t : nat) (j : StaticMeta -> Job) (w : TlWorld) : option Outcome :=
  match lock w with
  | Some _ => Some Blocked
  | None => h ← memory (meta w) !! list_head; Some (Done EvNone (mkTlWorld (meta w) (running w) (Some (t, j (meta w), td_next h))))
  end.

(** ** Steps of the program *)

Inductive TlStep : Set :=
| SCall (t : nat) (o : TlOp)
| SRun (t : nat)
| SNew
| SHandler (id h : Z)
| SScrape (t : nat) (id replacement : Z)
| SFold (t : nat) (id : Z)
| SDestroy (t : nat) (id : Z)
| SJob
| SExit (t : nat).

Definition locked (w : TlWorld) (k : option Outcome) : option Outcome :=
  match lock w with Some _ => Some Blocked | None => k end.

Definition tl_exec (s : TlStep) (w : TlWorld) : option Outcome :=
  let m := meta w in
  match s with
  | SCall t o => Some (Done EvNone (mkTlWorld m (<[t := (o, AtStart)]> (running w)) (lock w)))
  | SRun t => tl_op_step t w
  | SNew => locked w (let '(id, m) := GetId m in Some (Done (EvNew id) (mkTlWorld m (running w) None)))
  | SHandler id h => locked w (Some (Done (EvHandler id h) (mkTlWorld (SetHandler id h m) (running w) None)))
  | SScrape t id replacement => start_job t (fun _ => Scraping id replacement []) w
  | SFold t id => start_job t (fun _ => Folding id []) w
  | SDestroy t id => start_job t (fun m => Reclaiming id (GetHandler id m)) w
  | SJob => job_step w
  | SExit t =>
      locked w
        (match tls_ m !! t with
         | None => Some (Done (EvExit t []) w)
         | Some p =>
             m' ← OnThreadExit p m;
             Some (Done (EvExit t (drop (length (unrefs m)) (unrefs m'))) (mkTlWorld m' (running w) None))
         end)
  end.
