(* ===== verification/ThreadLocalProofs.v ===== *)
(** * Thread-local pointers: every instance is an array of slots

    [ThreadLocal] refines a specification in which an instance has one slot per thread, all
    null at first. Gone are the list of threads, the vectors that grow on demand, and the
    identifiers that are used again. *)

From S2P Require Import Prelude.
From S2P Require Import ThreadLocal.

(** ** The list of threads *)

Definition next_of (h : gmap loc ThreadData) (p : loc) : option loc := d ← h !! p; td_next d.
Definition prev_of (h : gmap loc ThreadData) (p : loc) : option loc := d ← h !! p; td_prev d.

(** From [p] the list goes through [l]. *)
Fixpoint seg (h : gmap loc ThreadData) (p : loc) (l : list loc) : Prop :=
  match l with
  | [] => True
  | q :: l => next_of h p = Some q /\ prev_of h q = Some p /\ seg h q l
  end.

Definition linked (h : gmap loc ThreadData) (locs : list loc) : Prop := seg h list_head (locs ++ [list_head]).

Lemma seg_app h l1 : forall p q l2, seg h p (l1 ++ q :: l2) <-> seg h p (l1 ++ [q]) /\ seg h q l2.
Proof.
  induction l1 as [|x l1 IH]; intros p q l2; cbn.
  - tauto.
  - rewrite IH. tauto.
Qed.

(** A list is kept if the pointers along it are. *)
Lemma seg_frame h h' l : forall p,
  (forall x, x ∈ removelast (p :: l) -> next_of h' x = next_of h x) ->
  (forall x, x ∈ l -> prev_of h' x = prev_of h x) -> seg h p l -> seg h' p l.
Proof.
  induction l as [|q l IH]; intros p Hn Hp Hs; [done|]. destruct Hs as (H1 & H2 & H3). cbn. split_and!.
  - rewrite Hn; [done|]. cbn. set_solver.
  - rewrite Hp; [done|]. set_solver.
  - apply IH; [|set_solver|done]. intros x Hx. apply Hn. cbn [removelast] in Hx |- *. set_solver.
Qed.

Lemma next_of_insert h p d x : next_of (<[p := d]> h) x = if bool_decide (x = p) then td_next d else next_of h x.
Proof.
  unfold next_of. case_bool_decide as E; [by rewrite E, lookup_insert_eq|by rewrite lookup_insert_ne].
Qed.

Lemma prev_of_insert h p d x : prev_of (<[p := d]> h) x = if bool_decide (x = p) then td_prev d else prev_of h x.
Proof.
  unfold prev_of. case_bool_decide as E; [by rewrite E, lookup_insert_eq|by rewrite lookup_insert_ne].
Qed.

Lemma linked_prev_head h locs : linked h locs -> prev_of h list_head = last (list_head :: locs).
Proof.
  unfold linked. generalize list_head at 1 4 as p. intros p. revert p.
  induction locs as [|q locs IH]; intros p; cbn; [by intros (_ & ? & _)|].
  intros (_ & _ & H). rewrite (IH q H). done.
Qed.

(** What an assignment to a pointer of the list changes, field by field. *)
Definition entries_of (h : gmap loc ThreadData) (p : loc) : option (list Z) := entries <$> h !! p.

Record relinked (m m' : StaticMeta) (nx pv : loc -> option loc) : Prop := {
  rl_rest : m' = set_memory (memory m') m;
  rl_next x : next_of (memory m') x = nx x;
  rl_prev x : prev_of (memory m') x = pv x;
  rl_entries x : entries_of (memory m') x = entries_of (memory m) x;
}.

Lemma entries_insert h p d d' x : h !! p = Some d -> entries d' = entries d -> entries_of (<[p := d']> h) x = entries_of h x.
Proof.
  intros Hp E. unfold entries_of. destruct (decide (x = p)) as [->|]; [rewrite lookup_insert_eq, Hp; cbn; by rewrite E|by rewrite lookup_insert_ne].
Qed.

Lemma write_td_next p q m : is_Some (memory m !! p) -> exists m', write (Some p) (td_set_next q) m = Some m' /\
  relinked m m' (fun x => if bool_decide (x = p) then q else next_of (memory m) x) (prev_of (memory m)).
Proof.
  intros [d Hd]. unfold write. cbn. rewrite Hd. cbn. eexists. split; [done|]. split; cbn; [done|..]; intros x.
  - by rewrite next_of_insert.
  - rewrite prev_of_insert. case_bool_decide as E; [|done]. subst. unfold prev_of. by rewrite Hd.
  - by apply (entries_insert _ _ d).
Qed.

Lemma write_prev p q m : is_Some (memory m !! p) -> exists m', write (Some p) (td_set_prev q) m = Some m' /\
  relinked m m' (next_of (memory m)) (fun x => if bool_decide (x = p) then q else prev_of (memory m) x).
Proof.
  intros [d Hd]. unfold write. cbn. rewrite Hd. cbn. eexists. split; [done|]. split; cbn; [done|..]; intros x.
  - rewrite next_of_insert. case_bool_decide as E; [|done]. subst. unfold next_of. by rewrite Hd.
  - by rewrite prev_of_insert.
  - by apply (entries_insert _ _ d).
Qed.

Lemma relinked_trans m m1 m2 n1 p1 n2 p2 : relinked m m1 n1 p1 -> relinked m1 m2 n2 p2 -> relinked m m2 n2 p2.
Proof.
  intros [H1 H2 H3 H4] [K1 K2 K3 K4]. split; [by rewrite K1, H1|done..|]. intros x. by rewrite K4, H4.
Qed.

Lemma entries_is_Some h p : is_Some (h !! p) <-> is_Some (entries_of h p).
Proof. unfold entries_of. by rewrite fmap_is_Some. Qed.

Lemma relinked_mem m m' nx pv p : relinked m m' nx pv -> is_Some (memory m !! p) -> is_Some (memory m' !! p).
Proof. intros Hr. rewrite !entries_is_Some. by rewrite (rl_entries _ _ _ _ Hr). Qed.

(** A pointer of the list that is read. *)
Lemma read_prev h p d : h !! p = Some d -> td_prev d = prev_of h p.
Proof. intros Hd. unfold prev_of. by rewrite Hd. Qed.
Lemma read_next h p d : h !! p = Some d -> td_next d = next_of h p.
Proof. intros Hd. unfold next_of. by rewrite Hd. Qed.

Lemma last_cons_elem (a : loc) l b : last (a :: l) = Some b -> b ∈ a :: l.
Proof. intros E. apply last_Some in E as [l' ->]. set_solver. Qed.

Lemma bind_eq {A B} (o : option A) x (f : A -> option B) : o = Some x -> (o ≫= f) = f x.
Proof. by intros ->. Qed.

Lemma add_linked m d locs : linked (memory m) locs -> is_Some (memory m !! d) -> d ∉ list_head :: locs -> NoDup (list_head :: locs) ->
  (forall p, p ∈ list_head :: locs -> is_Some (memory m !! p)) ->
  exists m' nx pv, AddThreadData d m = Some m' /\ relinked m m' nx pv /\ linked (memory m') (locs ++ [d]).
Proof.
  intros Hl Hd Hnin Hnd Hmem. destruct (last (list_head :: locs)) as [a|] eqn:Ea; [|by apply last_None in Ea].
  pose proof (last_cons_elem _ _ _ Ea) as Hain. pose proof (linked_prev_head _ _ Hl) as Hpv. rewrite Ea in Hpv.
  destruct (write_td_next d (Some list_head) m Hd) as (m1 & E1 & R1).
  assert (is_Some (memory m1 !! list_head)) as [hd Hhd] by (apply (relinked_mem _ _ _ _ _ R1), Hmem; set_solver).
  assert (td_prev hd = Some a) as Ehd by (by rewrite (read_prev _ _ _ Hhd), (rl_prev _ _ _ _ R1)).
  destruct (write_prev d (Some a) m1) as (m2 & E2 & R2); [by apply (relinked_mem _ _ _ _ _ R1)|].
  pose proof (relinked_trans _ _ _ _ _ _ _ R1 R2) as R12.
  destruct (write_td_next a (Some d) m2) as (m3 & E3 & R3); [by apply (relinked_mem _ _ _ _ _ R12), Hmem|].
  pose proof (relinked_trans _ _ _ _ _ _ _ R12 R3) as R13.
  destruct (write_prev list_head (Some d) m3) as (m4 & E4 & R4); [apply (relinked_mem _ _ _ _ _ R13), Hmem; set_solver|].
  exists m4. eexists _, _. split; [|split; [exact (relinked_trans _ _ _ _ _ _ _ R13 R4)|]].
  { unfold AddThreadData. rewrite (bind_eq _ _ _ E1), (bind_eq _ _ _ Hhd). cbv beta. rewrite Ehd.
    by rewrite (bind_eq _ _ _ E2), (bind_eq _ _ _ E3). }
  assert (forall x, next_of (memory m4) x = if bool_decide (x = a) then Some d else if bool_decide (x = d) then Some list_head else next_of (memory m) x) as Hn.
  { intros x. by rewrite (rl_next _ _ _ _ R4), (rl_next _ _ _ _ R3), (rl_next _ _ _ _ R2), (rl_next _ _ _ _ R1). }
  assert (forall x, prev_of (memory m4) x = if bool_decide (x = list_head) then Some d else if bool_decide (x = d) then Some a else prev_of (memory m) x) as Hp.
  { intros x. by rewrite (rl_prev _ _ _ _ R4), (rl_prev _ _ _ _ R3), (rl_prev _ _ _ _ R2), (rl_prev _ _ _ _ R1). }
  assert (a <> d) as Had by (intros ->; done). assert (d <> list_head) as Hdh by set_solver.
  unfold linked in *. rewrite <- app_assoc. cbn [app]. clear - Hl Ea Hn Hp Had Hdh Hnin Hnd.
  apply last_Some in Ea as [l' El]. destruct l' as [|x l'].
  - injection El as <- ->. cbn. rewrite !Hn, !Hp. split_and!; repeat case_bool_decide; done || congruence.
  - injection El as <- ->. rewrite <- app_assoc in Hl |- *. cbn [app] in Hl |- *.
    rewrite seg_app in Hl |- *. destruct Hl as [Hl1 _]. split.
    + eapply seg_frame; [..|exact Hl1].
      * intros y Hy. rewrite Hn. change (list_head :: l' ++ [a]) with ((list_head :: l') ++ [a]) in Hy. rewrite removelast_last in Hy.
        rewrite !bool_decide_eq_false_2; [done|set_solver|]. intros ->.
        change (list_head :: l' ++ [a]) with ((list_head :: l') ++ [a]) in Hnd. apply NoDup_app in Hnd as (_ & Hnd & _). set_solver.
      * intros y Hy. rewrite Hp. rewrite !bool_decide_eq_false_2; [done|set_solver|].
        intros ->. apply NoDup_cons in Hnd as [Hnd _]. set_solver.
    + cbn. rewrite !Hn, !Hp. split_and!; repeat case_bool_decide; done || congruence.
Qed.

Lemma seg_cat h l1 : forall p a l2, last (p :: l1) = Some a -> seg h p (l1 ++ l2) <-> seg h p l1 /\ seg h a l2.
Proof.
  induction l1 as [|q l1 IH]; intros p a l2 Hl; cbn [app].
  - injection Hl as ->. cbn. tauto.
  - cbn [seg]. rewrite (IH q a l2 Hl). tauto.
Qed.

Lemma remove_linked m d l1 l2 : linked (memory m) (l1 ++ d :: l2) -> NoDup (list_head :: l1 ++ d :: l2) ->
  (forall p, p ∈ list_head :: l1 ++ d :: l2 -> is_Some (memory m !! p)) ->
  exists m' nx pv, RemoveThreadData d m = Some m' /\ relinked m m' nx pv /\ linked (memory m') (l1 ++ l2).
Proof.
  intros Hl Hnd Hmem. unfold linked in *. rewrite <- app_assoc in Hl |- *. cbn [app] in Hl.
  destruct (last (list_head :: l1)) as [a|] eqn:Ea; [|by apply last_None in Ea].
  pose proof (last_cons_elem _ _ _ Ea) as Hain.
  destruct (l2 ++ [list_head]) as [|b r] eqn:Eb; [by destruct l2|].
  assert (b ∈ l2 ++ [list_head]) as Hbin by (rewrite Eb; set_solver).
  assert (NoDup (l2 ++ [list_head])) as Hnd2.
  { apply NoDup_cons in Hnd as [Hh Hnd]. apply NoDup_app in Hnd as (_ & _ & Hnd). apply NoDup_cons in Hnd as [_ Hnd].
    apply NoDup_app. split_and!; [done|set_solver|apply NoDup_singleton]. }
  rewrite (seg_cat _ _ _ a) in Hl by done. destruct Hl as [Hl1 Hl2]. cbn in Hl2. destruct Hl2 as (Ha1 & Ha2 & Hd1 & Hd2 & Hr).
  assert (d <> list_head /\ d ∉ l1 /\ d ∉ l2 /\ list_head ∉ l1 /\ (forall x, x ∈ l1 -> x ∈ l2 -> False) /\ NoDup l1 /\ list_head ∉ l2) as (Hdh & Hdl1 & Hdl2 & Hhl1 & Hdis & Hnd1 & Hhl2).
  { apply NoDup_cons in Hnd as [Hh Hnd]. apply NoDup_app in Hnd as (Hnd1 & Hdis & Hnd). apply NoDup_cons in Hnd as [Hd Hnd].
    split_and!; set_solver. }
  assert (a <> d) as Had by set_solver. assert (b <> d) as Hbd by set_solver.
  destruct (Hmem d) as [td Htd]; [set_solver|].
  destruct (write_prev b (Some a) m) as (m1 & E1 & R1); [apply Hmem; set_solver|].
  assert (is_Some (memory m1 !! d)) as [td1 Htd1] by (apply (relinked_mem _ _ _ _ _ R1); by rewrite Htd).
  destruct (write_td_next a (Some b) m1) as (m2 & E2 & R2); [apply (relinked_mem _ _ _ _ _ R1), Hmem; set_solver|].
  pose proof (relinked_trans _ _ _ _ _ _ _ R1 R2) as R12.
  destruct (write_prev d (Some d) m2) as (m3 & E3 & R3); [apply (relinked_mem _ _ _ _ _ R12); by rewrite Htd|].
  pose proof (relinked_trans _ _ _ _ _ _ _ R12 R3) as R13.
  destruct (write_td_next d (Some d) m3) as (m4 & E4 & R4); [apply (relinked_mem _ _ _ _ _ R13); by rewrite Htd|].
  exists m4. eexists _, _. split; [|split; [exact (relinked_trans _ _ _ _ _ _ _ R13 R4)|]].
  { unfold RemoveThreadData. rewrite (bind_eq _ _ _ Htd). rewrite (read_prev _ _ _ Htd), (read_next _ _ _ Htd), Hd1, Ha2.
    rewrite (bind_eq _ _ _ E1), (bind_eq _ _ _ Htd1). rewrite (read_prev _ _ _ Htd1), (read_next _ _ _ Htd1).
    rewrite (rl_prev _ _ _ _ R1), (rl_next _ _ _ _ R1), bool_decide_eq_false_2, Ha2, Hd1 by done.
    by rewrite (bind_eq _ _ _ E2), (bind_eq _ _ _ E3). }
  assert (forall x, next_of (memory m4) x = if bool_decide (x = d) then Some d else if bool_decide (x = a) then Some b else next_of (memory m) x) as Hn.
  { intros x. by rewrite (rl_next _ _ _ _ R4), (rl_next _ _ _ _ R3), (rl_next _ _ _ _ R2), (rl_next _ _ _ _ R1). }
  assert (forall x, prev_of (memory m4) x = if bool_decide (x = d) then Some d else if bool_decide (x = b) then Some a else prev_of (memory m) x) as Hp.
  { intros x. by rewrite (rl_prev _ _ _ _ R4), (rl_prev _ _ _ _ R3), (rl_prev _ _ _ _ R2), (rl_prev _ _ _ _ R1). }
  apply (seg_cat _ _ _ a); [done|]. split.
  - eapply seg_frame; [..|exact Hl1].
    + intros x Hx. rewrite Hn. assert (x <> a /\ x <> d) as [??]; [|by rewrite !bool_decide_eq_false_2].
      apply last_Some in Ea as [l' El]. rewrite El, removelast_last in Hx.
      assert (NoDup (l' ++ [a])) as Hnd' by (rewrite <- El; by apply NoDup_cons).
      apply NoDup_app in Hnd' as (_ & Hnd' & _). split; [set_solver|]. intros ->.
      assert (d ∈ list_head :: l1) by (rewrite El; set_solver). set_solver.
    + intros x Hx. rewrite Hp. rewrite !bool_decide_eq_false_2; [done|set_solver|set_solver].
  - cbn. rewrite Hn, Hp. split_and!; [by repeat case_bool_decide|by repeat case_bool_decide|].
    eapply seg_frame; [..|exact Hr].
    + intros x Hx. rewrite Hn. rewrite <- Eb, removelast_last in Hx. rewrite !bool_decide_eq_false_2; [done|set_solver|set_solver].
    + intros x Hx. rewrite Hp. assert (x ∈ l2 ++ [list_head]) by (rewrite Eb; set_solver).
      rewrite Eb in Hnd2. apply NoDup_cons in Hnd2 as [Hb _]. rewrite !bool_decide_eq_false_2; [done|set_solver|set_solver].
Qed.

(** ** The specification *)

Record Spec : Type := mkSpec {
  sp_alive : gset Z;                            (** the instances *)
  sp_handler : Z -> Z;
  sp_slot : nat -> Z -> Z;                      (** what a thread has stored for an instance *)
  sp_threads : list nat;                        (** the threads that have used one, in order *)
  sp_gone : gset nat;                           (** the threads that have ended *)
  sp_running : gmap nat TlOp;
  sp_job : option (nat * Job * list nat);       (** and the threads that it has not visited *)
  sp_unrefs : list (Z * Z);
}.

Definition upd_slot (t : nat) (id v : Z) (f : nat -> Z -> Z) : nat -> Z -> Z :=
  fun t' id' => if bool_decide (t' = t /\ id' = id) then v else f t' id'.
Definition upd {A} `{EqDecision A} (x : A) (v : Z) (f : A -> Z) : A -> Z := fun y => if bool_decide (y = x) then v else f y.

(** The handlers that are called when a thread ends: one call per instance with a handler in
    whose slot the thread has left a pointer, in the order of the identifiers. *)
Definition spec_calls (a : Spec) (t : nat) (n : Z) : list (Z * Z) :=
  id ← seqZ 0 n;
  if bool_decide (id ∈ sp_alive a) && (negb (sp_slot a t id =? 0) && negb (sp_handler a id =? 0)) then [(sp_handler a id, sp_slot a t id)] else [].

Inductive sp_step (a : Spec) : TlStep -> TlEvent -> Spec -> Prop :=
| sp_call t o :
    sp_step a (SCall t o) EvNone
      (mkSpec (sp_alive a) (sp_handler a) (sp_slot a) (sp_threads a) (sp_gone a) (<[t := o]> (sp_running a)) (sp_job a) (sp_unrefs a))
| sp_quiet t : sp_step a (SRun t) EvNone a
| sp_register t : t ∉ sp_threads a ->
    sp_step a (SRun t) EvNone
      (mkSpec (sp_alive a) (sp_handler a) (sp_slot a) (sp_threads a ++ [t]) (sp_gone a) (sp_running a) (sp_job a) (sp_unrefs a))
| sp_access t o : sp_running a !! t = Some o ->
    sp_step a (SRun t) (access t o (sp_slot a t (op_id o))).1
      (mkSpec (sp_alive a) (sp_handler a) (upd_slot t (op_id o) (access t o (sp_slot a t (op_id o))).2 (sp_slot a))
         (sp_threads a) (sp_gone a) (delete t (sp_running a)) (sp_job a) (sp_unrefs a))
| sp_new id : 0 <= id -> id ∉ sp_alive a ->
    sp_step a SNew (EvNew id)
      (mkSpec ({[id]} ∪ sp_alive a) (upd id 0 (sp_handler a)) (fun t => upd id 0 (sp_slot a t))
         (sp_threads a) (sp_gone a) (sp_running a) (sp_job a) (sp_unrefs a))
| sp_set_handler id h :
    sp_step a (SHandler id h) (EvHandler id h)
      (mkSpec (sp_alive a) (upd id h (sp_handler a)) (sp_slot a) (sp_threads a) (sp_gone a) (sp_running a) (sp_job a) (sp_unrefs a))
| sp_start s t j :
    match s with
    | SScrape t' id r => t' = t /\ j = Scraping id r []
    | SFold t' id => t' = t /\ j = Folding id []
    | SDestroy t' id => t' = t /\ j = Reclaiming id (sp_handler a id)
    | _ => False
    end ->
    sp_step a s EvNone
      (mkSpec (sp_alive a) (sp_handler a) (sp_slot a) (sp_threads a) (sp_gone a) (sp_running a)
         (Some (t, j, sp_threads a)) (sp_unrefs a))
| sp_visit t j t' rest j' v calls : sp_job a = Some (t, j, t' :: rest) ->
    visit j (sp_slot a t' (job_id j)) = (j', v, calls) ->
    sp_step a SJob EvNone
      (mkSpec (sp_alive a) (sp_handler a) (upd_slot t' (job_id j) v (sp_slot a)) (sp_threads a) (sp_gone a) (sp_running a)
         (Some (t, j', rest)) (sp_unrefs a ++ calls))
| sp_skip t j t' rest : sp_job a = Some (t, j, t' :: rest) -> sp_slot a t' (job_id j) = 0 ->
    sp_step a SJob EvNone
      (mkSpec (sp_alive a) (sp_handler a) (sp_slot a) (sp_threads a) (sp_gone a) (sp_running a)
         (Some (t, j, rest)) (sp_unrefs a))
| sp_end t j : sp_job a = Some (t, j, []) ->
    sp_step a SJob
      match j with Scraping id _ ptrs => EvScraped id ptrs | Folding id seen => EvFolded id seen | Reclaiming id _ => EvReclaimed id end
      (mkSpec match j with Reclaiming id _ => sp_alive a ∖ {[id]} | _ => sp_alive a end (sp_handler a) (sp_slot a) (sp_threads a)
         (sp_gone a) (sp_running a) None (sp_unrefs a))
| sp_exit t n calls : (forall id, id ∈ sp_alive a -> id < n) -> calls = spec_calls a t n ->
    sp_step a (SExit t) (EvExit t calls)
      (mkSpec (sp_alive a) (sp_handler a) (fun t' id => if bool_decide (t' = t) then 0 else sp_slot a t' id)
         (filter (fun t' => t' <> t) (sp_threads a)) ({[t]} ∪ sp_gone a) (sp_running a) (sp_job a) (sp_unrefs a ++ calls)).

(** What the program respects: a thread does one thing at a time and nothing after its end; an
    instance is used only between its construction and its destruction. *)
Definition idle (a : Spec) (t : nat) : Prop :=
  t ∉ sp_gone a /\ sp_running a !! t = None /\
  match sp_job a with Some (t', _, _) => t' <> t | None => True end.

Definition usable (a : Spec) (id : Z) : Prop :=
  id ∈ sp_alive a /\ match sp_job a with Some (_, Reclaiming id' _, _) => id' <> id | _ => True end.

Definition legal (a : Spec) (s : TlStep) : Prop :=
  match s with
  | SCall t o => idle a t /\ usable a (op_id o)
  | SRun t => is_Some (sp_running a !! t)
  | SNew => Z.of_nat (base.size (sp_alive a)) < 2 ^ 32 - 1
  | SHandler id _ => usable a id
  | SScrape t id _ | SFold t id => idle a t /\ usable a id
  | SDestroy t id => idle a t /\ usable a id /\ forall t' o, sp_running a !! t' = Some o -> op_id o <> id
  | SJob => is_Some (sp_job a)
  | SExit t => idle a t
  end.

(** ** How the structures represent it *)

Definition thread_entries (m : StaticMeta) (t : nat) : option (list Z) := p ← tls_ m !! t; entries_of (memory m) p.

Record RepList (m : StaticMeta) (threads : list nat) (gone : gset nat) (locs : list loc) : Prop := {
  rp_nd : NoDup (list_head :: locs);
  rp_tnd : NoDup threads;
  rp_linked : linked (memory m) locs;
  rp_mem p : is_Some (memory m !! p) <-> p ∈ list_head :: locs;
  rp_tls : Forall2 (fun t p => tls_ m !! t = Some p) threads locs;
  rp_new t : t ∉ threads -> t ∉ gone -> tls_ m !! t = None;
  rp_gone t : t ∈ threads -> t ∉ gone;
}.

Definition slot_in (alive : gset Z) (slot : Z -> Z) (id : Z) : Z := if bool_decide (id ∈ alive) then slot id else 0.

Record RepSlots (m : StaticMeta) (threads : list nat) (alive : gset Z) (slot : nat -> Z -> Z) : Prop := {
  rp_slots t : t ∈ threads -> exists es, thread_entries m t = Some es /\ size es <= next_instance_id_ m /\
    forall id, 0 <= id -> default 0 (es !! Z.to_nat id) = slot_in alive (slot t) id;
  rp_unused t id : t ∉ threads -> id ∈ alive -> slot t id = 0;
}.

Record RepIds (m : StaticMeta) (alive : gset Z) (handler : Z -> Z) : Prop := {
  rp_ids id : id ∈ alive <-> 0 <= id < next_instance_id_ m /\ id ∉ free_instance_ids_ m;
  rp_free_nd : NoDup (free_instance_ids_ m);
  rp_free id : id ∈ free_instance_ids_ m -> 0 <= id < next_instance_id_ m;
  rp_next : 0 <= next_instance_id_ m < 2 ^ 32;
  rp_handler id : GetHandler id m = slot_in alive handler id;
}.

(** How far the operation of a thread has come. *)
Definition stage_ok (m : StaticMeta) (threads : list nat) (t : nat) (o : TlOp) (s : Stage) : Prop :=
  match s with
  | AtStart => True
  | HasData => t ∈ threads
  | Sized => t ∈ threads /\ forall es, thread_entries m t = Some es -> op_id o < size es
  end.

Definition RepRun (w : TlWorld) (a : Spec) : Prop :=
  (forall t, sp_running a !! t = fst <$> running w !! t) /\
  (forall t o s, running w !! t = Some (o, s) -> stage_ok (meta w) (sp_threads a) t o s) /\
  (forall t o, sp_running a !! t = Some o -> usable a (op_id o) /\ t ∉ sp_gone a).

Definition cursor_at (locs : list loc) (k : nat) : option loc := (locs ++ [list_head]) !! k.

Definition RepJob (w : TlWorld) (a : Spec) (locs : list loc) : Prop :=
  match lock w, sp_job a with
  | None, None => True
  | Some (t, j, cursor), Some (t', j', rest) =>
      t = t' /\ j = j' /\ job_id j ∈ sp_alive a /\
      exists before, sp_threads a = before ++ rest /\ cursor = cursor_at locs (length before) /\
        match j with
        | Reclaiming id unref => unref = sp_handler a id /\ forall t, t ∈ before -> sp_slot a t id = 0
        | _ => True
        end
  | _, _ => False
  end.

Record Rep (w : TlWorld) (a : Spec) (locs : list loc) : Prop := {
  rep_list : RepList (meta w) (sp_threads a) (sp_gone a) locs;
  rep_slots : RepSlots (meta w) (sp_threads a) (sp_alive a) (sp_slot a);
  rep_ids : RepIds (meta w) (sp_alive a) (sp_handler a);
  rep_run : RepRun w a;
  rep_job : RepJob w a locs;
  rep_unrefs : unrefs (meta w) = sp_unrefs a;
}.

Definition sp_init : Spec := mkSpec ∅ (fun _ => 0) (fun _ _ => 0) [] ∅ ∅ None [].
Definition tl_init : TlWorld := mkTlWorld StaticMeta_new ∅ None.

Lemma rep_init : Rep tl_init sp_init [].
Proof.
  split.
  - split.
    + apply NoDup_singleton.
    + constructor.
    + by split_and!; vm_compute.
    + intros p. change (memory (meta tl_init)) with ({[ list_head := mkThreadData [] (Some list_head) (Some list_head) ]} : gmap loc ThreadData).
      destruct (decide (p = list_head)) as [->|].
      * rewrite lookup_singleton_eq. split; [set_solver|done].
      * rewrite lookup_singleton_ne by done. split; [by intros [? ?]|set_solver].
    + constructor.
    + done.
    + cbn. set_solver.
  - split; [cbn; set_solver|done].
  - split; cbn -[Z.pow]; [set_solver by lia|constructor|set_solver|lia|].
    intros id. by unfold slot_in; case_bool_decide.
  - split_and!; [by intros t|by intros t o s|by intros t o].
  - done.
  - done.
Qed.

(** ** Facts about the representation *)

Lemma own_loc m ths gone locs t : RepList m ths gone locs -> t ∈ ths -> exists p, tls_ m !! t = Some p /\ p ∈ locs.
Proof.
  intros HR [k Hk]%list_elem_of_lookup. pose proof (rp_tls _ _ _ _ HR) as HF.
  destruct (Forall2_lookup_l _ _ _ _ _ HF Hk) as (p & Hp & E). exists p. split; [done|]. by apply list_elem_of_lookup_2 in Hp.
Qed.

Lemma own_inj m ths gone locs t t' p : RepList m ths gone locs -> t ∈ ths -> t' ∈ ths ->
  tls_ m !! t = Some p -> tls_ m !! t' = Some p -> t = t'.
Proof.
  intros HR [k Hk]%list_elem_of_lookup [k' Hk']%list_elem_of_lookup E E'. pose proof (rp_tls _ _ _ _ HR) as HF.
  destruct (Forall2_lookup_l _ _ _ _ _ HF Hk) as (q & Hq & Eq), (Forall2_lookup_l _ _ _ _ _ HF Hk') as (q' & Hq' & Eq').
  assert (q = p) as -> by congruence. assert (q' = p) as -> by congruence.
  pose proof (rp_nd _ _ _ _ HR) as [_ Hnd]%NoDup_cons.
  assert (k = k') as -> by exact (NoDup_lookup _ _ _ _ Hnd Hq Hq'). congruence.
Qed.

Lemma own_data m ths gone locs t : RepList m ths gone locs -> t ∈ ths ->
  exists p d, tls_ m !! t = Some p /\ p ∈ locs /\ memory m !! p = Some d /\ own t m = Some d /\ thread_entries m t = Some (entries d).
Proof.
  intros HR Ht. destruct (own_loc _ _ _ _ _ HR Ht) as (p & Hp & Hin).
  destruct (proj2 (rp_mem _ _ _ _ HR p)) as [d Hd]; [set_solver|]. exists p, d.
  unfold own, thread_entries, entries_of. rewrite Hp. cbn. rewrite Hd. done.
Qed.

Lemma linked_ext h h' locs : (forall x, next_of h' x = next_of h x) -> (forall x, prev_of h' x = prev_of h x) ->
  linked h locs -> linked h' locs.
Proof. intros Hn Hp. apply seg_frame; auto. Qed.

(** A thread's entries are changed, by the thread or by a job. *)
Lemma entries_written m ths gone locs t p d f : RepList m ths gone locs -> t ∈ ths -> tls_ m !! t = Some p -> memory m !! p = Some d ->
  td_next (f d) = td_next d -> td_prev (f d) = td_prev d ->
  exists m', write (Some p) f m = Some m' /\ m' = set_memory (memory m') m /\ RepList m' ths gone locs /\
    thread_entries m' t = Some (entries (f d)) /\ (forall t', t' ∈ ths -> t' <> t -> thread_entries m' t' = thread_entries m t').
Proof.
  intros HR Ht Hp Hd Hn Hv. exists (set_memory (<[p := f d]> (memory m)) m).
  split_and!; [unfold write; cbn; by rewrite Hd|done| | |].
  - destruct HR as [H1 H2 H3 H4 H5 H6 H7]. split; cbn; [done..| | |done|done|done].
    + eapply linked_ext; [..|exact H3]; intros x.
      * rewrite next_of_insert. case_bool_decide as E; [|done]. subst. unfold next_of. by rewrite Hd.
      * rewrite prev_of_insert. case_bool_decide as E; [|done]. subst. unfold prev_of. by rewrite Hd.
    + intros q. rewrite <- H4, lookup_insert_is_Some'. split; [intros [<-|]; [by rewrite Hd|done]|by right].
  - unfold thread_entries. cbn. rewrite Hp. cbn. unfold entries_of. by rewrite lookup_insert_eq.
  - intros t' Ht' Hne. unfold thread_entries. cbn. destruct (tls_ m !! t') as [q|] eqn:E; [|done]. cbn.
    unfold entries_of. rewrite lookup_insert_ne; [done|]. intros <-. by apply Hne, (own_inj _ _ _ _ _ _ p HR).
Qed.

Lemma slots_written m m' ths alive slot slot' t es' : RepSlots m ths alive slot -> m' = set_memory (memory m') m -> t ∈ ths ->
  thread_entries m' t = Some es' -> (forall t', t' ∈ ths -> t' <> t -> thread_entries m' t' = thread_entries m t') ->
  size es' <= next_instance_id_ m -> (forall id, 0 <= id -> default 0 (es' !! Z.to_nat id) = slot_in alive (slot' t) id) ->
  (forall t' id, t' <> t -> slot' t' id = slot t' id) -> RepSlots m' ths alive slot'.
Proof.
  intros [H1 H2] Hm Ht He Hf Hs Hd Ho. assert (next_instance_id_ m' = next_instance_id_ m) as En by by rewrite Hm.
  split; [intros t' Ht'|intros t' id Ht' Hid].
  - destruct (decide (t' = t)) as [->|Hne]; [exists es'; by rewrite En|]. rewrite Hf, En by done.
    destruct (H1 t' Ht') as (es & E1 & E2 & E3). exists es. split_and!; [done..|]. intros id Hid. rewrite E3 by done.
    unfold slot_in. case_bool_decide; [by rewrite Ho|done].
  - rewrite Ho; [by apply H2|]. by intros ->.
Qed.

Lemma ids_same m m' alive handler : RepIds m alive handler -> next_instance_id_ m' = next_instance_id_ m ->
  free_instance_ids_ m' = free_instance_ids_ m -> handler_map_ m' = handler_map_ m -> RepIds m' alive handler.
Proof.
  intros [H1 H2 H3 H4 H5] E1 E2 E3. split; [|by rewrite E2|rewrite E1, E2; done|by rewrite E1|].
  - intros id. by rewrite E1, E2.
  - intros id. unfold GetHandler in *. by rewrite E3.
Qed.

(** ** Every step is a step of the specification *)

Definition matched (s : TlStep) (w : TlWorld) (a : Spec) (out : Outcome) : Prop :=
  match out with
  | Blocked => lock w <> None
  | Done e w' => exists a' locs', sp_step a s e a' /\ Rep w' a' locs'
  end.

(** Vectors do not get shorter. *)
Definition grown (m m' : StaticMeta) (threads : list nat) : Prop :=
  forall t es', t ∈ threads -> thread_entries m' t = Some es' -> exists es, thread_entries m t = Some es /\ size es <= size es'.

Lemma grown_refl m threads : grown m m threads.
Proof. intros t es _ E. by exists es. Qed.

Lemma stage_keep m m' ths ths' t o s : grown m m' ths -> (forall x, x ∈ ths -> x ∈ ths') ->
  stage_ok m ths t o s -> stage_ok m' ths' t o s.
Proof.
  intros Hg Hin. destruct s; cbn; [done|apply Hin|]. intros [Ht Hs]. split; [by apply Hin|].
  intros es' E. destruct (Hg t es' Ht E) as (es & E' & Hle). specialize (Hs es E'). lia.
Qed.

Lemma run_keep w w' a a' : RepRun w a -> running w' = running w -> sp_running a' = sp_running a -> sp_gone a' = sp_gone a ->
  grown (meta w) (meta w') (sp_threads a) -> (forall x, x ∈ sp_threads a -> x ∈ sp_threads a') ->
  (forall t o, sp_running a !! t = Some o -> usable a (op_id o) -> usable a' (op_id o)) -> RepRun w' a'.
Proof.
  intros (H1 & H2 & H3) E1 E2 E3 Hg Hin Hu. split_and!.
  - intros t. by rewrite E1, E2.
  - intros t o s. rewrite E1. intros Hr. eapply stage_keep; [done..|]. eauto.
  - intros t o. rewrite E2, E3. intros Hr. destruct (H3 t o Hr) as [? ?]. eauto.
Qed.

(** The stage of one operation changes, or it ends. *)
Lemma run_advance w w' a a' t o s s' : RepRun w a -> running w !! t = Some (o, s) -> running w' = <[t := (o, s')]> (running w) ->
  sp_running a' = sp_running a -> sp_gone a' = sp_gone a -> grown (meta w) (meta w') (sp_threads a) ->
  (forall x, x ∈ sp_threads a -> x ∈ sp_threads a') -> stage_ok (meta w') (sp_threads a') t o s' ->
  (forall id, usable a id -> usable a' id) -> RepRun w' a'.
Proof.
  intros (H1 & H2 & H3) Ht E1 E2 E3 Hg Hin Hs Hu. split_and!.
  - intros t'. rewrite E1, E2, H1. destruct (decide (t' = t)) as [->|]; [by rewrite Ht, lookup_insert_eq|by rewrite lookup_insert_ne].
  - intros t' o' s''. rewrite E1. destruct (decide (t' = t)) as [->|].
    + rewrite lookup_insert_eq. intros E. by injection E as <- <-.
    + rewrite lookup_insert_ne by done. intros Hr. eapply stage_keep; [done..|]. eauto.
  - intros t' o'. rewrite E2, E3. intros Hr. destruct (H3 t' o' Hr). eauto.
Qed.

Lemma run_finish w w' a a' t : RepRun w a -> running w' = delete t (running w) ->
  sp_running a' = delete t (sp_running a) -> sp_gone a' = sp_gone a -> grown (meta w) (meta w') (sp_threads a) ->
  sp_threads a' = sp_threads a -> (forall id, usable a id -> usable a' id) -> RepRun w' a'.
Proof.
  intros (H1 & H2 & H3) E1 E2 E3 Hg Hin Hu. split_and!.
  - intros t'. rewrite E1, E2. destruct (decide (t' = t)) as [->|]; [by rewrite !lookup_delete_eq|]. by rewrite !lookup_delete_ne.
  - intros t' o' s''. rewrite E1, lookup_delete_Some. intros [_ Hr]. rewrite Hin. eapply stage_keep; [done..|]. eauto.
  - intros t' o'. rewrite E2, E3, lookup_delete_Some. intros [_ Hr]. destruct (H3 t' o' Hr). eauto.
Qed.

Lemma slots_ext m ths alive slot slot' : RepSlots m ths alive slot -> (forall t id, id ∈ alive -> slot' t id = slot t id) ->
  RepSlots m ths alive slot'.
Proof.
  intros [H1 H2] He. split.
  - intros t Ht. destruct (H1 t Ht) as (es & E1 & E2 & E3). exists es. split_and!; [done..|]. intros id Hid. rewrite E3 by done.
    unfold slot_in. case_bool_decide; [by rewrite He|done].
  - intros t id Ht Hid. rewrite He by done. by apply H2.
Qed.

Lemma upd_slot_same t id f t' id' : upd_slot t id (f t id) f t' id' = f t' id'.
Proof. unfold upd_slot. case_bool_decide as E; [by destruct E as [-> ->]|done]. Qed.

Lemma step_call w a locs t o : Rep w a locs -> legal a (SCall t o) -> exists out, tl_exec (SCall t o) w = Some out /\ matched (SCall t o) w a out.
Proof.
  intros [HL HS HI (H1 & H2 & H3) HJ HU] [(Hg & Hr & Hj) Hu]. cbn [tl_exec]. eexists. split; [done|]. cbn. eexists _, locs. split; [constructor|].
  split; cbn; [done..| |done|done]. split_and!.
  - intros t'. cbn. destruct (decide (t' = t)) as [->|]; [by rewrite !lookup_insert_eq|by rewrite !lookup_insert_ne].
  - intros t' o' s. cbn. destruct (decide (t' = t)) as [->|]; [rewrite lookup_insert_eq; intros E; by injection E as <- <-|].
    rewrite lookup_insert_ne by done. apply H2.
  - intros t' o'. cbn. destruct (decide (t' = t)) as [->|]; [rewrite lookup_insert_eq; intros E; injection E as <-; done|].
    rewrite lookup_insert_ne by done. apply H3.
Qed.

Lemma register_rep m ths gone locs t : RepList m ths gone locs -> t ∉ ths -> t ∉ gone ->
  exists m' p, register t m = Some m' /\ next_instance_id_ m' = next_instance_id_ m /\
    free_instance_ids_ m' = free_instance_ids_ m /\ handler_map_ m' = handler_map_ m /\ unrefs m' = unrefs m /\
    RepList m' (ths ++ [t]) gone (locs ++ [p]) /\ thread_entries m' t = Some [] /\
    (forall t', t' ∈ ths -> thread_entries m' t' = thread_entries m t').
Proof.
  intros HR Ht Hg. unfold register. set (p := fresh (dom (memory m))).
  assert (p ∉ dom (memory m)) as Hp by apply is_fresh. apply not_elem_of_dom in Hp.
  set (m1 := set_tls _ _). destruct HR as [H1 H2 H3 H4 H5 H6 H7].
  assert (p ∉ list_head :: locs) as Hpl by (intros Hin; apply H4 in Hin as [? ?]; congruence).
  destruct (add_linked m1 p locs) as (m' & nx & pv & E & HRl & Hl); cbn.
  - eapply linked_ext with (h := memory m); [| |done]; intros x.
    all: rewrite ?next_of_insert, ?prev_of_insert; case_bool_decide as E; [subst|done].
    all: unfold next_of, prev_of; by rewrite Hp.
  - by rewrite lookup_insert_eq.
  - done.
  - done.
  - intros q Hq. rewrite lookup_insert_ne by (intros <-; done). by apply H4.
  - pose proof (rl_rest _ _ _ _ HRl) as Em. exists m', p. split; [done|]. rewrite Em. cbn. split_and!; try done.
    + split; cbn.
      * change (list_head :: locs ++ [p]) with ((list_head :: locs) ++ [p]). apply NoDup_app. split_and!; [done|set_solver|apply NoDup_singleton].
      * apply NoDup_app. split_and!; [done|set_solver|apply NoDup_singleton].
      * done.
      * intros q. rewrite entries_is_Some, (rl_entries _ _ _ _ HRl), <- entries_is_Some. cbn.
        rewrite lookup_insert_is_Some'. rewrite H4. set_solver.
      * apply Forall2_app; [|constructor; [by rewrite lookup_insert_eq|constructor]].
        apply Forall2_same_length_lookup. split; [by apply (Forall2_length _ _ _ H5)|]. intros k t' q Hk Hq.
        rewrite lookup_insert_ne; [by apply (Forall2_lookup_lr _ _ _ _ _ _ H5 Hk Hq)|]. intros <-. by apply list_elem_of_lookup_2 in Hk.
      * intros t' Ht' Hg'. rewrite lookup_insert_ne by set_solver. apply H6; set_solver.
      * intros t' [?| ->%list_elem_of_singleton]%elem_of_app; [by apply H7|done].
    + unfold thread_entries. cbn. rewrite lookup_insert_eq. cbn. rewrite (rl_entries _ _ _ _ HRl). unfold entries_of. cbn. by rewrite lookup_insert_eq.
    + intros t' Ht'. unfold thread_entries. cbn. rewrite lookup_insert_ne by (intros <-; done).
      destruct (tls_ m !! t') as [q|] eqn:Eq; [|done]. cbn. rewrite (rl_entries _ _ _ _ HRl). unfold entries_of. cbn.
      rewrite lookup_insert_ne; [done|]. intros <-. apply list_elem_of_lookup in Ht' as [k Hk].
      destruct (Forall2_lookup_l _ _ _ _ _ H5 Hk) as (q' & Hq' & Eq'). assert (q' = p) as -> by congruence.
      apply list_elem_of_lookup_2 in Hq'. set_solver.
Qed.

Lemma job_none w a locs : RepJob w a locs -> lock w = None -> sp_job a = None.
Proof. unfold RepJob. intros HJ E. rewrite E in HJ. by destruct (sp_job a) as [[[? ?] ?]|]. Qed.

(** [GetThreadLocal] *)
Lemma run_start w a locs t o : Rep w a locs -> running w !! t = Some (o, AtStart) ->
  exists out, tl_op_step t w = Some out /\ matched (SRun t) w a out.
Proof.
  intros HRep Hr. destruct HRep as [HL HS HI HRun HJ HU]. pose proof HRun as (H1 & H2 & H3).
  assert (sp_running a !! t = Some o) as Hsr by (by rewrite H1, Hr). destruct (H3 t o Hsr) as [Hu Hg].
  unfold tl_op_step. rewrite (bind_eq _ _ _ Hr). cbv beta iota zeta.
  destruct (tls_ (meta w) !! t) as [p|] eqn:Et.
  - eexists. split; [done|]. cbn. exists a, locs. split; [constructor|]. split; cbn; try done.
    eapply run_advance with (s := AtStart) (s' := HasData); try done; [apply grown_refl|]. cbn.
    destruct (decide (t ∈ sp_threads a)); [done|]. by rewrite (rp_new _ _ _ _ HL) in Et.
  - destruct (lock w) as [[[t0 j0] c0]|] eqn:El; [eexists; split; [done|]; cbn; by rewrite El|].
    assert (t ∉ sp_threads a) as Ht.
    { intros Hin. destruct (own_loc _ _ _ _ _ HL Hin) as (p & Hp & _). congruence. }
    destruct (register_rep _ _ _ _ t HL Ht Hg) as (m' & p & E & E1 & E2 & E3 & E4 & HL' & Et' & Eo).
    rewrite (bind_eq _ _ _ E). eexists. split; [done|]. cbn. eexists _, _. split; [by apply sp_register|]. split; cbn.
    + exact HL'.
    + split.
      * intros t' [Ht'| ->%list_elem_of_singleton]%elem_of_app.
        -- rewrite Eo, E1 by done. by apply HS.
        -- exists []. rewrite E1. split_and!; [done|apply (rp_next _ _ _ HI)|]. intros id Hid. unfold slot_in. case_bool_decide; [|done].
           symmetry. by apply (rp_unused _ _ _ _ HS).
      * intros t' id Ht'. apply (rp_unused _ _ _ _ HS). set_solver.
    + by apply (ids_same (meta w)).
    + eapply run_advance with (s := AtStart) (s' := HasData); try done; cbn; [|set_solver|set_solver].
      intros t' es' Hin He. rewrite Eo in He by done. by exists es'.
    + by rewrite (job_none _ _ _ HJ El).
    + by rewrite E4.
Qed.

Lemma resize_lookup n l id : 0 <= id -> size l <= n -> default 0 (vector_resize n l !! Z.to_nat id) = default 0 (l !! Z.to_nat id).
Proof.
  intros Hid Hn. unfold vector_resize. destruct (Z.leb_spec (size l) n); [|lia].
  destruct (l !! Z.to_nat id) as [x|] eqn:E; [by rewrite (lookup_app_l_Some _ _ _ _ E)|].
  apply lookup_ge_None in E. rewrite lookup_app_r by done. destruct (replicate _ _ !! _) as [y|] eqn:E'; [|done].
  by apply lookup_replicate in E' as [-> _].
Qed.

Lemma size_vector_resize n l : size l <= n -> size (vector_resize n l) = n.
Proof.
  intros Hn. unfold vector_resize. destruct (Z.leb_spec (size l) n); [|lia]. rewrite size_app. unfold size in *.
  rewrite length_replicate. lia.
Qed.

(** A job is not disturbed by what happens to other instances. *)
Lemma job_keep w w' a a' locs : RepJob w a locs -> lock w' = lock w -> sp_job a' = sp_job a -> sp_threads a' = sp_threads a ->
  (forall id, usable a id \/ id ∈ sp_alive a -> id ∈ sp_alive a') ->
  (forall t j id u rest, sp_job a = Some (t, j, rest) -> j = Reclaiming id u -> sp_handler a' id = sp_handler a id /\ forall t, sp_slot a' t id = sp_slot a t id) ->
  RepJob w' a' locs.
Proof.
  intros HJ E1 E2 E3 Ha Hr. unfold RepJob in *. rewrite E1, E2, E3.
  destruct (lock w) as [[[t j] c]|], (sp_job a) as [[[t' j'] rest]|] eqn:Ej; try done.
  destruct HJ as (-> & -> & Hid & before & Hb & Hc & Hj). split_and!; [done|done|by apply Ha; right|]. exists before. split_and!; [done..|].
  destruct j' as [| |id u]; [done..|]. destruct Hj as [Hu Hs]. destruct (Hr _ _ _ _ _ eq_refl eq_refl) as [Hh Ht].
  split; [by rewrite Hh|]. intros t Hin. rewrite Ht. by apply Hs.
Qed.

Lemma default_entry (es : list Z) id : size es <= id -> default 0 (es !! Z.to_nat id) = 0.
Proof. intros Hs. rewrite lookup_ge_None_2; [done|]. unfold size in Hs. lia. Qed.

(** The length of the vector *)
Lemma run_size w a locs t o : Rep w a locs -> running w !! t = Some (o, HasData) ->
  exists out, tl_op_step t w = Some out /\ matched (SRun t) w a out.
Proof.
  intros HRep Hr. destruct HRep as [HL HS HI HRun HJ HU]. pose proof HRun as (H1 & H2 & H3).
  assert (sp_running a !! t = Some o) as Hsr by (by rewrite H1, Hr). destruct (H3 t o Hsr) as [Hu Hg].
  pose proof (H2 t o HasData Hr) as Ht. cbn in Ht. destruct (own_data _ _ _ _ _ HL Ht) as (p & d & Hp & Hpin & Hd & Ho & He).
  destruct (rp_slots _ _ _ _ HS t Ht) as (es & He' & Hsz & Hes). assert (es = entries d) as -> by congruence.
  assert (0 <= op_id o < next_instance_id_ (meta w)) as Hid by (apply (proj1 (rp_ids _ _ _ HI (op_id o))), Hu).
  unfold tl_op_step. rewrite (bind_eq _ _ _ Hr). cbv beta iota zeta. rewrite (bind_eq _ _ _ Ho).
  rewrite Z.geb_leb. destruct (Z.leb_spec (size (entries d)) (op_id o)) as [Hlt|Hge].
  - assert (sp_slot a t (op_id o) = 0) as Hz.
    { specialize (Hes (op_id o) ltac:(lia)). rewrite default_entry in Hes by done. unfold slot_in in Hes.
      rewrite bool_decide_eq_true_2 in Hes by apply Hu. done. }
    assert (is_get : {id | o = OpGet id} + {forall id, o <> OpGet id}) by (destruct o; eauto; by right).
    destruct is_get as [[id ->]|Hng].
    + eexists. split; [done|]. cbn [op_id] in *. pose proof (sp_access a t (OpGet id) Hsr) as Hst. cbn in Hst.
      rewrite Hz in Hst at 1. eexists _, locs. split; [exact Hst|]. split; cbn; try done.
      * eapply slots_ext; [exact HS|]. intros t' id' _. apply upd_slot_same.
      * eapply run_finish; try done. apply grown_refl.
      * eapply job_keep; try done; [by intros ? [[? ?]|?]|]. intros t1 j id' u rest _ _. split; [done|]. intros t'. apply upd_slot_same.
    + (* the vector is extended *)
      destruct (lock w) as [[[t0 j0] c0]|] eqn:El.
      { exists Blocked. split; [by destruct o; [destruct (Hng id)|..]|]. cbn. by rewrite El. }
      destruct (entries_written _ _ _ _ _ _ _ (fun d => set_entries (vector_resize (op_id o + 1) (entries d)) d) HL Ht Hp Hd eq_refl eq_refl)
        as (m' & Ew & Em & HL' & Et' & Eo).
      exists (Done EvNone (mkTlWorld m' (<[t := (o, Sized)]> (running w)) None)). split.
      { destruct o; [by destruct (Hng id)|..]; rewrite Hp; by rewrite (bind_eq _ _ _ Ew). }
      cbn. exists a, locs. split; [constructor|]. cbn in Et'.
      pose proof (size_vector_resize (op_id o + 1) (entries d) ltac:(lia)) as Hrs. split; cbn; try done.
      * eapply slots_written; try done; [lia|]. intros id' Hid'. rewrite resize_lookup by lia. by apply Hes.
      * apply (ids_same (meta w)); [done|by rewrite Em..].
      * eapply run_advance with (s := HasData) (s' := Sized); try done; cbn.
        -- intros t' es' Hin E. destruct (decide (t' = t)) as [->|]; [|rewrite Eo in E by done; by exists es'].
           rewrite Et' in E. injection E as <-. exists (entries d). split; [done|]. lia.
        -- split; [done|]. intros es' E. rewrite Et' in E. injection E as <-. lia.
      * by rewrite (job_none _ _ _ HJ El).
      * by rewrite Em.
  - eexists. split; [done|]. cbn. exists a, locs. split; [constructor|]. split; cbn; try done.
    eapply run_advance with (s := HasData) (s' := Sized); try done; [apply grown_refl|]. cbn. split; [done|].
    intros es' E. rewrite He in E. by injection E as <-.
Qed.

Lemma size_insert {A} (l : list A) k x : size (<[k := x]> l) = size l.
Proof. unfold size. by rewrite length_insert. Qed.

(** What an exchange of an entry does to the slots of its thread. *)
Lemma exchanged (es : list Z) alive slot t id v : 0 <= id < size es -> id ∈ alive ->
  (forall i, 0 <= i -> default 0 (es !! Z.to_nat i) = slot_in alive (slot t) i) ->
  forall i, 0 <= i -> default 0 (<[Z.to_nat id := v]> es !! Z.to_nat i) = slot_in alive (upd_slot t id v slot t) i.
Proof.
  intros Hid Ha Hes i Hi. unfold slot_in, upd_slot. destruct (decide (i = id)) as [->|Hne].
  - rewrite list_lookup_insert_eq by (unfold size in Hid; lia). rewrite !bool_decide_eq_true_2 by done. done.
  - rewrite list_lookup_insert_ne by lia. rewrite Hes by done. unfold slot_in. case_bool_decide; [|done].
    rewrite bool_decide_eq_false_2 by naive_solver. done.
Qed.

Lemma entry_slot es alive slot id : 0 <= id < size es -> id ∈ alive ->
  (forall i, 0 <= i -> default 0 (es !! Z.to_nat i) = slot_in alive slot i) -> es !! Z.to_nat id = Some (slot id).
Proof.
  intros Hid Ha Hes. destruct (lookup_lt_is_Some_2 es (Z.to_nat id)) as [x Hx]; [unfold size in Hid; lia|].
  specialize (Hes id ltac:(lia)). rewrite Hx in Hes |- *. unfold slot_in in Hes. rewrite bool_decide_eq_true_2 in Hes by done. cbn in Hes. by rewrite Hes.
Qed.

Lemma upd_slot_other t id v slot t' id' : t' <> t -> upd_slot t id v slot t' id' = slot t' id'.
Proof. intros Hne. unfold upd_slot. by rewrite bool_decide_eq_false_2 by naive_solver. Qed.

Lemma run_access w a locs t o : Rep w a locs -> running w !! t = Some (o, Sized) ->
  exists out, tl_op_step t w = Some out /\ matched (SRun t) w a out.
Proof.
  intros HRep Hr. destruct HRep as [HL HS HI HRun HJ HU]. pose proof HRun as (H1 & H2 & H3).
  assert (sp_running a !! t = Some o) as Hsr by (by rewrite H1, Hr). destruct (H3 t o Hsr) as [Hu Hg].
  pose proof (H2 t o Sized Hr) as [Ht Hlt]. destruct (own_data _ _ _ _ _ HL Ht) as (p & d & Hp & Hpin & Hd & Ho & He).
  destruct (rp_slots _ _ _ _ HS t Ht) as (es & He' & Hsz & Hes). assert (es = entries d) as -> by congruence. specialize (Hlt _ He).
  assert (0 <= op_id o < next_instance_id_ (meta w)) as Hid by (apply (proj1 (rp_ids _ _ _ HI (op_id o))), Hu).
  assert (entry (op_id o) d = Some (sp_slot a t (op_id o))) as Hen by (eapply entry_slot; [lia|apply Hu|done]).
  set (v := (access t o (sp_slot a t (op_id o))).2).
  destruct (entries_written _ _ _ _ _ _ _ (set_entry (op_id o) v) HL Ht Hp Hd eq_refl eq_refl) as (m' & Ew & Em & HL' & Et' & Eo).
  exists (Done (access t o (sp_slot a t (op_id o))).1 (mkTlWorld m' (delete t (running w)) (lock w))). split.
  { unfold tl_op_step. rewrite (bind_eq _ _ _ Hr). cbv beta iota zeta. unfold finish_access. rewrite (bind_eq _ _ _ Ho), (bind_eq _ _ _ Hen).
    unfold v in Ew. destruct (access t o (sp_slot a t (op_id o))) as [ev v']. cbn [fst snd] in *. rewrite Hp. by rewrite (bind_eq _ _ _ Ew). }
  cbn [matched]. eexists _, locs. split; [by apply (sp_access a t o Hsr)|]. fold v. cbn in Et'. split; cbn; try done.
  - eapply slots_written; try done; [by rewrite size_insert|apply exchanged; [lia|apply Hu|done]|].
    intros t' id' Hne. by apply upd_slot_other.
  - apply (ids_same (meta w)); [done|by rewrite Em..].
  - eapply run_finish; try done; cbn. intros t' es' Hin E. destruct (decide (t' = t)) as [->|]; [|rewrite Eo in E by done; by exists es'].
    rewrite Et' in E. injection E as <-. exists (entries d). split; [done|]. by rewrite size_insert.
  - eapply job_keep; try done; cbn; [by intros ? [[? ?]|?]|]. intros t1 j id' u rest Ej ->. split; [done|]. intros t'.
    unfold upd_slot. rewrite bool_decide_eq_false_2; [done|]. intros [-> ->]. destruct Hu as [_ Hu]. by rewrite Ej in Hu.
  - by rewrite Em.
Qed.

Lemma step_run w a locs t : Rep w a locs -> legal a (SRun t) -> exists out, tl_exec (SRun t) w = Some out /\ matched (SRun t) w a out.
Proof.
  intros HRep [o Ho]. cbn [tl_exec]. destruct (rep_run _ _ _ HRep) as [H1 _]. rewrite H1 in Ho.
  destruct (running w !! t) as [[o' [| |]]|] eqn:Er; [..|done].
  - by eapply run_start.
  - by eapply run_size.
  - by eapply run_access.
Qed.

Lemma slot_in_new alive (f : Z -> Z) id i : id ∉ alive -> slot_in ({[id]} ∪ alive) (upd id 0 f) i = slot_in alive f i.
Proof.
  intros Hid. unfold slot_in, upd. destruct (decide (i = id)) as [->|].
  - rewrite (bool_decide_eq_false_2 (id ∈ alive)), (bool_decide_eq_true_2 (id = id)) by done. by case_bool_decide.
  - rewrite (bool_decide_eq_false_2 (i = id)) by done. rewrite (bool_decide_ext (i ∈ {[id]} ∪ alive) (i ∈ alive)) by set_solver. done.
Qed.

(** A new instance starts with null slots and without a handler. *)
Lemma new_rep w a locs n f id : Rep w a locs -> lock w = None -> id ∉ sp_alive a ->
  RepIds (set_ids n f (meta w)) ({[id]} ∪ sp_alive a) (upd id 0 (sp_handler a)) -> next_instance_id_ (meta w) <= n ->
  Rep (mkTlWorld (set_ids n f (meta w)) (running w) None)
    (mkSpec ({[id]} ∪ sp_alive a) (upd id 0 (sp_handler a)) (fun t => upd id 0 (sp_slot a t))
       (sp_threads a) (sp_gone a) (sp_running a) (sp_job a) (sp_unrefs a)) locs.
Proof.
  intros [HL HS HI HRun HJ HU] El Hid HI' Hn. split; cbn; try done.
  - by destruct HL; split.
  - destruct HS as [H1 H2]. split.
    + intros t Ht. destruct (H1 t Ht) as (es & E1 & E2 & E3). exists es. split_and!; [done|cbn; lia|]. intros i Hi.
      rewrite slot_in_new by done. by apply E3.
    + intros t i Ht Hi. unfold upd. case_bool_decide; [done|]. apply H2; [done|set_solver].
  - eapply run_keep; try done; [by intros t es _ E; exists es|]. intros t o _ [Hu1 Hu2]. split; cbn; [set_solver|done].
  - by rewrite (job_none _ _ _ HJ El).
Qed.

Lemma last_removelast {A} (l : list A) x : last l = Some x -> l = removelast l ++ [x].
Proof. intros E. apply last_Some in E as [l' ->]. by rewrite removelast_last. Qed.

Lemma alive_size m alive handler : RepIds m alive handler -> free_instance_ids_ m = [] -> Z.of_nat (base.size alive) = next_instance_id_ m.
Proof.
  intros HI Hf. assert (alive = list_to_set (seqZ 0 (next_instance_id_ m))) as ->.
  { apply set_eq. intros id. rewrite (rp_ids _ _ _ HI), Hf, elem_of_list_to_set, elem_of_seqZ. set_solver by lia. }
  rewrite size_list_to_set by apply NoDup_seqZ. rewrite length_seqZ. pose proof (rp_next _ _ _ HI). lia.
Qed.

Lemma step_new w a locs : Rep w a locs -> legal a SNew -> exists out, tl_exec SNew w = Some out /\ matched SNew w a out.
Proof.
  intros HRep Hle. pose proof (rep_ids _ _ _ HRep) as HI. cbn [legal] in Hle. unfold tl_exec, locked.
  destruct (lock w) eqn:El; [eexists; split; [done|]; cbn; by rewrite El|]. unfold GetId.
  destruct (last (free_instance_ids_ (meta w))) as [id|] eqn:Ef.
  - apply last_removelast in Ef. set (f := removelast _) in *.
    assert (id ∈ free_instance_ids_ (meta w)) as Hin by (rewrite Ef; set_solver).
    assert (id ∉ sp_alive a) as Hna by (intros Ha; by apply (rp_ids _ _ _ HI) in Ha as [_ ?]).
    pose proof (rp_free _ _ _ HI id Hin) as Hr. pose proof (rp_free_nd _ _ _ HI) as Hnd. rewrite Ef in Hnd. apply NoDup_app in Hnd as (Hnd & Hdis & _).
    eexists. split; [done|]. cbn. eexists _, locs. split; [apply sp_new; [lia|done]|]. apply new_rep; [done|done|done| |done].
    split; cbn.
    + intros i. rewrite elem_of_union, elem_of_singleton, (rp_ids _ _ _ HI), Ef, elem_of_app, list_elem_of_singleton. split.
      * intros [->|[? ?]]; [|naive_solver]. split; [done|]. intros Hf. by apply (Hdis id Hf), list_elem_of_singleton.
      * intros [? ?]. destruct (decide (i = id)); naive_solver.
    + done.
    + intros i Hi. apply (rp_free _ _ _ HI). rewrite Ef. set_solver.
    + apply (rp_next _ _ _ HI).
    + intros i. rewrite slot_in_new by done. apply (rp_handler _ _ _ HI).
  - apply last_None in Ef. rewrite (alive_size _ _ _ HI Ef) in Hle. pose proof (rp_next _ _ _ HI) as Hn.
    set (id := next_instance_id_ (meta w)) in *. rewrite (wrap_small 32) by (split; lia).
    assert (id ∉ sp_alive a) as Hna by (intros Ha; apply (rp_ids _ _ _ HI) in Ha as [? _]; unfold id in *; lia).
    eexists. split; [done|]. cbn. eexists _, locs. split; [apply sp_new; [lia|done]|]. apply new_rep; [done|done|done| |unfold id; lia].
    split; cbn.
    + intros i. rewrite elem_of_union, elem_of_singleton, (rp_ids _ _ _ HI), Ef. fold id. set_solver by lia.
    + rewrite Ef. constructor.
    + rewrite Ef. set_solver.
    + lia.
    + intros i. rewrite slot_in_new by done. apply (rp_handler _ _ _ HI).
Qed.

Lemma step_handler w a locs id h : Rep w a locs -> legal a (SHandler id h) -> exists out, tl_exec (SHandler id h) w = Some out /\ matched (SHandler id h) w a out.
Proof.
  intros [HL HS HI HRun HJ HU] [Hu Hu']. unfold tl_exec, locked. destruct (lock w) eqn:El; [eexists; split; [done|]; cbn; by rewrite El|].
  eexists. split; [done|]. cbn. eexists _, locs. split; [constructor|]. split; cbn; try done.
  - by destruct HL; split.
  - by destruct HS; split.
  - destruct HI as [I1 I2 I3 I4 I5]. split; cbn; try done. intros i. unfold GetHandler, slot_in, upd in *. cbn.
    destruct (decide (i = id)) as [->|].
    + rewrite lookup_insert_eq, !bool_decide_eq_true_2 by done. done.
    + rewrite lookup_insert_ne, I5, (bool_decide_eq_false_2 (i = id)) by done. done.
  - by rewrite (job_none _ _ _ HJ El).
Qed.

Lemma seg_next h l : forall p, seg h p l -> next_of h p = l !! 0%nat \/ l = [].
Proof. destruct l; cbn; [by right|]. intros p (? & _). by left. Qed.

Lemma linked_first h locs : linked h locs -> next_of h list_head = cursor_at locs 0.
Proof. intros Hl. destruct (seg_next _ _ _ Hl) as [?|E]; [done|]. by destruct locs. Qed.

Lemma linked_after h locs k p : linked h locs -> locs !! k = Some p -> next_of h p = cursor_at locs (S k).
Proof.
  intros Hl Hk. unfold linked, cursor_at in *. apply list_elem_of_split_length in Hk as (l1 & l2 & -> & ->).
  rewrite <- app_assoc in Hl |- *. cbn [app] in Hl |- *. rewrite seg_app in Hl. destruct Hl as [_ Hl].
  rewrite lookup_app_r by lia. replace (S (length l1) - length l1)%nat with 1%nat by lia.
  destruct (seg_next _ _ _ Hl) as [->|E]; [done|]. by destruct l2.
Qed.

Lemma start_rep w a locs t j : Rep w a locs -> lock w = None -> job_id j ∈ sp_alive a ->
  (forall id u, j = Reclaiming id u -> u = sp_handler a id /\ forall t' o, sp_running a !! t' = Some o -> op_id o <> id) ->
  exists h, memory (meta w) !! list_head = Some h /\
  Rep (mkTlWorld (meta w) (running w) (Some (t, j, td_next h)))
    (mkSpec (sp_alive a) (sp_handler a) (sp_slot a) (sp_threads a) (sp_gone a) (sp_running a) (Some (t, j, sp_threads a)) (sp_unrefs a)) locs.
Proof.
  intros [HL HS HI HRun HJ HU] El Hid Hj. destruct (proj2 (rp_mem _ _ _ _ HL list_head)) as [h Hh]; [set_solver|].
  exists h. split; [done|]. split; cbn; try done.
  - eapply run_keep; try done; [apply grown_refl|]. intros t' o Ho [Hu1 Hu2]. split; cbn; [done|]. destruct j; try done.
    destruct (Hj _ _ eq_refl) as [_ Hr]. specialize (Hr _ _ Ho). done.
  - split_and!; [done..|]. exists []. split_and!; [done| |].
    + rewrite (read_next _ _ _ Hh). by apply linked_first, (rp_linked _ _ _ _ HL).
    + destruct j; try done. destruct (Hj _ _ eq_refl) as [-> _]. split; [done|set_solver].
Qed.

Lemma step_start w a locs s : Rep w a locs -> legal a s -> match s with SScrape _ _ _ | SFold _ _ | SDestroy _ _ => True | _ => False end ->
  exists out, tl_exec s w = Some out /\ matched s w a out.
Proof.
  intros HRep Hle Hs. destruct s; try done; cbn [tl_exec]; unfold start_job;
    (destruct (lock w) eqn:El; [eexists; split; [done|]; cbn; by rewrite El|]).
  - destruct Hle as [_ [Hu _]]. destruct (start_rep w a locs t (Scraping id replacement [])) as (h & Hh & HRep'); [done..|].
    rewrite (bind_eq _ _ _ Hh). eexists. split; [done|]. eexists _, locs. split; [by apply sp_start|done].
  - destruct Hle as [_ [Hu _]]. destruct (start_rep w a locs t (Folding id [])) as (h & Hh & HRep'); [done..|].
    rewrite (bind_eq _ _ _ Hh). eexists. split; [done|]. eexists _, locs. split; [by apply sp_start|done].
  - destruct Hle as (_ & [Hu _] & Hr). destruct (start_rep w a locs t (Reclaiming id (sp_handler a id))) as (h & Hh & HRep'); [done..| |].
    { intros id' u E. by injection E as <- <-. }
    rewrite (bind_eq _ _ _ Hh). assert (GetHandler id (meta w) = sp_handler a id) as Eh.
    { rewrite (rp_handler _ _ _ (rep_ids _ _ _ HRep)). unfold slot_in. by rewrite bool_decide_eq_true_2. }
    eexists. split; [done|]. rewrite Eh. eexists _, locs. split; [by apply sp_start|done].
Qed.

Lemma slot_in_less alive (f : Z -> Z) id i : (i = id -> f i = 0) -> slot_in (alive ∖ {[id]}) f i = slot_in alive f i.
Proof.
  intros Hz. unfold slot_in. destruct (decide (i = id)) as [E|].
  - rewrite (Hz E). by repeat case_bool_decide.
  - by rewrite (bool_decide_ext (i ∈ alive ∖ {[id]}) (i ∈ alive)) by set_solver.
Qed.

(** The end of [ReclaimId]: the identifier may be used again. *)
Lemma reclaim_rep w a locs t id u c : Rep w a locs -> lock w = Some (t, Reclaiming id u, c) -> sp_job a = Some (t, Reclaiming id u, []) ->
  Rep (mkTlWorld (set_ids (next_instance_id_ (meta w)) (free_instance_ids_ (meta w) ++ [id]) (SetHandler id 0 (meta w))) (running w) None)
    (mkSpec (sp_alive a ∖ {[id]}) (sp_handler a) (sp_slot a) (sp_threads a) (sp_gone a) (sp_running a) None (sp_unrefs a)) locs.
Proof.
  intros [HL HS HI HRun HJ HU] El Ej. unfold RepJob in HJ. rewrite El, Ej in HJ.
  destruct HJ as (_ & _ & Hid & before & Hb & _ & _ & Hz). rewrite app_nil_r in Hb. cbn in Hid. split; cbn; try done.
  - by destruct HL; split.
  - destruct HS as [H1 H2]. split.
    + intros t' Ht'. destruct (H1 t' Ht') as (es & E1 & E2 & E3). exists es. split_and!; [done..|]. intros i Hi. rewrite E3 by done.
      symmetry. apply slot_in_less. intros ->. apply Hz. by rewrite <- Hb.
    + intros t' i Ht' Hi. apply H2; set_solver.
  - destruct HI as [I1 I2 I3 I4 I5]. pose proof (proj1 (I1 id) Hid) as [Hr Hnf]. split; cbn; try done.
    + intros i. rewrite elem_of_difference, I1. set_solver.
    + apply NoDup_app. split_and!; [done|set_solver|apply NoDup_singleton].
    + intros i [?| ->%list_elem_of_singleton]%elem_of_app; auto.
    + intros i. unfold GetHandler, slot_in in *. cbn. destruct (decide (i = id)) as [->|].
      * rewrite lookup_insert_eq, bool_decide_eq_false_2 by set_solver. done.
      * rewrite lookup_insert_ne, I5 by done. by rewrite (bool_decide_ext (i ∈ sp_alive a ∖ {[id]}) (i ∈ sp_alive a)) by set_solver.
  - eapply run_keep; try done; [by intros t' es _ E; exists es|]. intros t' o _ [Hu1 Hu2]. rewrite Ej in Hu2. split; cbn; [set_solver|done].
Qed.

Lemma visit_id j ptr j' v calls : visit j ptr = (j', v, calls) -> job_id j' = job_id j /\
  match j with Reclaiming _ _ => j' = j /\ v = 0 | _ => match j' with Reclaiming _ _ => False | _ => True end end.
Proof. destruct j; cbn; intros E; by injection E as <- <- <-. Qed.

Lemma step_job w a locs : Rep w a locs -> legal a SJob -> exists out, tl_exec SJob w = Some out /\ matched SJob w a out.
Proof.
  intros HRep [[[t j] rest] Ej]. pose proof HRep as [HL HS HI HRun HJ HU]. pose proof HJ as HJ0. unfold RepJob in HJ. rewrite Ej in HJ.
  destruct (lock w) as [[[t0 j0] c]|] eqn:El; [|done]. destruct HJ as (-> & -> & Hid & before & Hb & Hc & Hz).
  pose proof (Forall2_length _ _ _ (rp_tls _ _ _ _ HL)) as Hlen.
  pose proof (proj1 (rp_ids _ _ _ HI (job_id j)) Hid) as [Hrange _].
  cbn [tl_exec]. unfold job_step. rewrite (bind_eq _ _ _ El). cbv beta iota zeta.
  destruct rest as [|t' rest].
  - rewrite app_nil_r in Hb. assert (c = Some list_head) as ->.
    { rewrite Hc. unfold cursor_at. rewrite lookup_app_r by (rewrite Hb in Hlen; lia). rewrite Hb in Hlen. by replace (length before - length locs)%nat with 0%nat by lia. }
    cbn [mbind option_bind]. rewrite bool_decide_eq_true_2 by done.
    pose proof (sp_end a t j Ej) as Hst. destruct j as [id r ptrs|id seen|id u]; cbn [end_job]; eexists; (split; [done|]); eexists _, locs; (split; [exact Hst|]).
    + split; cbn; try done. eapply run_keep; try done; [apply grown_refl|]. intros t' o _ [Hu1 Hu2]. by split.
    + split; cbn; try done. eapply run_keep; try done; [apply grown_refl|]. intros t' o _ [Hu1 Hu2]. by split.
    + by eapply reclaim_rep.
  - assert (t' ∈ sp_threads a) as Ht' by (rewrite Hb; set_solver).
    destruct (own_data _ _ _ _ _ HL Ht') as (p & d & Hp & Hpin & Hd & Ho & He).
    assert (locs !! length before = Some p) as Hk.
    { destruct (Forall2_lookup_l _ _ _ (length before) t' (rp_tls _ _ _ _ HL)) as (q & Hq & Eq); [rewrite Hb; by rewrite lookup_app_r, Nat.sub_diag by lia|]. congruence. }
    assert (c = Some p) as -> by (rewrite Hc; unfold cursor_at; by apply lookup_app_l_Some).
    cbn [mbind option_bind]. rewrite bool_decide_eq_false_2 by (intros ->; by pose proof (rp_nd _ _ _ _ HL) as [? _]%NoDup_cons).
    rewrite Hd. cbn [mbind option_bind]. destruct (rp_slots _ _ _ _ HS t' Ht') as (es & He' & Hsz & Hes). assert (es = entries d) as -> by congruence.
    assert (td_next d = cursor_at locs (length (before ++ [t']))) as Hnx.
    { rewrite (read_next _ _ _ Hd), length_app, Nat.add_1_r. by apply linked_after, Hk; apply (rp_linked _ _ _ _ HL). }
    destruct (Z.ltb_spec (job_id j) (size (entries d))) as [Hlt|Hge].
    + assert (entry (job_id j) d = Some (sp_slot a t' (job_id j))) as Hen by (eapply entry_slot; [lia|done|done]).
      rewrite (bind_eq _ _ _ Hen). destruct (visit j (sp_slot a t' (job_id j))) as [[j' v] calls] eqn:Ev. destruct (visit_id _ _ _ _ _ Ev) as [Eid Hv]. rewrite Eid.
      destruct (entries_written _ _ _ _ _ _ _ (set_entry (job_id j) v) HL Ht' Hp Hd eq_refl eq_refl) as (m' & Ew & Em & HL' & Et' & Eo).
      rewrite (bind_eq _ _ _ Ew). eexists. split; [done|]. cbn. eexists _, locs. split; [by eapply sp_visit|]. cbn in Et'.
      split; cbn; try done.
      * by destruct HL'; split.
      * assert (RepSlots m' (sp_threads a) (sp_alive a) (upd_slot t' (job_id j) v (sp_slot a))) as HS'; [|by destruct HS'; split].
        eapply slots_written; try done; [by rewrite size_insert|apply exchanged; [lia|done|done]|].
        intros t1 id' Hne. by apply upd_slot_other.
      * apply (ids_same (meta w)); [done|by rewrite Em..].
      * eapply run_keep; try done; cbn.
        -- intros t1 es' Hin E. destruct (decide (t1 = t')) as [->|]; [|change (thread_entries m' t1 = Some es') in E; rewrite Eo in E by done; by exists es'].
           change (thread_entries m' t' = Some es') in E. rewrite Et' in E. injection E as <-. exists (entries d). split; [done|]. by rewrite size_insert.
        -- intros t1 o _ [Hu1 Hu2]. rewrite Ej in Hu2. split; cbn; [done|]. destruct j; destruct j'; try done. destruct Hv as [E _]. by injection E as -> ->.
      * split_and!; [done|done|by rewrite Eid|]. exists (before ++ [t']). split_and!; [by rewrite <- app_assoc|done|].
        destruct j; [by destruct j'..|]. destruct Hv as [-> ->]. destruct Hz as [Hu Hz]. split; [done|]. cbn [job_id] in *.
        intros t1 Hin. unfold upd_slot. case_bool_decide as E; [done|]. apply Hz. apply elem_of_app in Hin as [?| ->%list_elem_of_singleton]; [done|naive_solver].
      * rewrite Em. cbn. by rewrite HU.
    + assert (sp_slot a t' (job_id j) = 0) as Hs0.
      { specialize (Hes (job_id j) ltac:(lia)). rewrite default_entry in Hes by done. unfold slot_in in Hes. rewrite bool_decide_eq_true_2 in Hes; done. }
      eexists. split; [done|]. cbn. eexists _, locs. split; [by eapply sp_skip|]. split; cbn; try done.
      * eapply run_keep; try done; [apply grown_refl|]. intros t1 o _ [Hu1 Hu2]. rewrite Ej in Hu2. by split.
      * split_and!; [done..|]. exists (before ++ [t']). split_and!; [by rewrite <- app_assoc|done|].
        destruct j; try done. destruct Hz as [Hu Hz]. split; [done|]. intros t1 [?| ->%list_elem_of_singleton]%elem_of_app; [by apply Hz|done].
Qed.

(** ** The end of a thread *)

Definition call_of (f h : Z -> Z) (id : Z) : list (Z * Z) :=
  if negb (f id =? 0) && negb (h id =? 0) then [(h id, f id)] else [].

Lemma exit_calls_all m (f : Z -> Z) es : forall k, (forall i, 0 <= i -> default 0 (es !! Z.to_nat i) = f (k + i)) ->
  exit_calls k es m = seqZ k (size es) ≫= call_of f (fun id => GetHandler id m).
Proof.
  induction es as [|x es IH]; intros k Hf; [done|]. cbn [exit_calls].
  assert (size (x :: es) = 1 + size es) as -> by (unfold size; cbn; lia). pose proof (size_nonneg es).
  rewrite seqZ_cons by lia. cbn [mbind list_bind]. replace (Z.pred (1 + size es)) with (size es) by lia. f_equal.
  - pose proof (Hf 0 ltac:(lia)) as Hf0. rewrite Z.add_0_r in Hf0. change (x = f k) in Hf0. unfold call_of. by rewrite Hf0.
  - replace (Z.succ k) with (k + 1) by lia. apply IH. intros i Hi. replace (k + 1 + i) with (k + (1 + i)) by lia. rewrite <- Hf by lia.
    by replace (Z.to_nat (1 + i)) with (S (Z.to_nat i)) by lia.
Qed.

Lemma bind_all_nil {A B} (f : A -> list B) l : (forall x, x ∈ l -> f x = []) -> l ≫= f = [].
Proof. induction l as [|x l IH]; intros Hf; [done|]. cbn. rewrite Hf, IH; [done|set_solver|set_solver]. Qed.

Lemma exit_calls_spec m a t es : RepIds m (sp_alive a) (sp_handler a) ->
  (forall i, 0 <= i -> default 0 (es !! Z.to_nat i) = slot_in (sp_alive a) (sp_slot a t) i) -> size es <= next_instance_id_ m ->
  exit_calls 0 es m = spec_calls a t (next_instance_id_ m).
Proof.
  intros HI Hes Hsz. rewrite (exit_calls_all m (slot_in (sp_alive a) (sp_slot a t))) by (intros i Hi; rewrite Z.add_0_l; by apply Hes).
  set (g := call_of _ _). assert (forall id, g id = if bool_decide (id ∈ sp_alive a) && (negb (sp_slot a t id =? 0) && negb (sp_handler a id =? 0))
    then [(sp_handler a id, sp_slot a t id)] else []) as Hg.
  { intros id. unfold g, call_of. rewrite (rp_handler _ _ _ HI). unfold slot_in. by case_bool_decide. }
  unfold spec_calls. transitivity (seqZ 0 (next_instance_id_ m) ≫= g); [|by apply list_bind_ext; [intros id; apply Hg|]].
  pose proof (size_nonneg es). replace (next_instance_id_ m) with (size es + (next_instance_id_ m - size es)) by lia.
  rewrite seqZ_app, bind_app by lia. rewrite (bind_all_nil g (seqZ (0 + size es) _)), app_nil_r; [done|].
  intros id Hid. apply elem_of_seqZ in Hid. specialize (Hes id ltac:(lia)). rewrite default_entry in Hes by lia.
  unfold g, call_of. by rewrite <- Hes.
Qed.

Lemma spec_calls_none a t n : (forall id, id ∈ sp_alive a -> sp_slot a t id = 0) -> spec_calls a t n = [].
Proof.
  intros Hz. apply bind_all_nil. intros id _. case_bool_decide as Hid; [|done]. by rewrite (Hz id Hid).
Qed.

Lemma filter_absent t (l : list nat) : t ∉ l -> filter (fun t' => t' <> t) l = l.
Proof.
  induction l as [|x l IH]; intros Ht; [done|]. rewrite filter_cons_True by set_solver. f_equal. apply IH. set_solver.
Qed.

Lemma next_of_delete h p x : x <> p -> next_of (delete p h) x = next_of h x.
Proof. intros Hx. unfold next_of. by rewrite lookup_delete_ne. Qed.
Lemma prev_of_delete h p x : x <> p -> prev_of (delete p h) x = prev_of h x.
Proof. intros Hx. unfold prev_of. by rewrite lookup_delete_ne. Qed.

(** The structure of a thread is taken out of the list and freed. *)
Lemma exit_rep m s1 t s2 gone locs p : RepList m (s1 ++ t :: s2) gone locs -> tls_ m !! t = Some p ->
  exists m' es, OnThreadExit p m = Some m' /\ thread_entries m t = Some es /\ unrefs m' = unrefs m ++ exit_calls 0 es m /\
    next_instance_id_ m' = next_instance_id_ m /\ free_instance_ids_ m' = free_instance_ids_ m /\ handler_map_ m' = handler_map_ m /\
    (exists locs', RepList m' (s1 ++ s2) ({[t]} ∪ gone) locs') /\
    (forall t', t' ∈ s1 ++ s2 -> thread_entries m' t' = thread_entries m t').
Proof.
  intros HR Hp. pose proof HR as [H1 H2 H3 H4 H5 H6 H7].
  apply Forall2_app_inv_l in H5 as (l1 & l2' & F1 & F2 & ->). apply Forall2_cons_inv_l in F2 as (p' & l2 & Ep & F2 & ->).
  assert (p' = p) as -> by congruence.
  destruct (remove_linked m p l1 l2 H3 H1 (fun q Hq => proj2 (H4 q) Hq)) as (m1 & nx & pv & E & HRl & Hl).
  pose proof (rl_rest _ _ _ _ HRl) as Em.
  assert (is_Some (memory m !! p)) as [d Hd] by (apply H4; set_solver).
  destruct (relinked_mem _ _ _ _ p HRl) as [d1 Hd1]; [by rewrite Hd|].
  assert (entries d1 = entries d) as Ees.
  { pose proof (rl_entries _ _ _ _ HRl p) as Eq. unfold entries_of in Eq. rewrite Hd, Hd1 in Eq. by injection Eq. }
  assert (forall l, exit_calls 0 l m1 = exit_calls 0 l m) as Hcalls.
  { intros l. generalize 0 as k. induction l as [|x l IH]; intros k; [done|]. cbn. rewrite IH. unfold GetHandler. by rewrite Em. }
  apply NoDup_cons in H1 as [Hh H1]. apply NoDup_app in H1 as (Hl1 & Hdis & Hl2). apply NoDup_cons in Hl2 as [Hpl2 Hl2].
  apply NoDup_app in H2 as (Hs1 & Hsdis & Hs2). apply NoDup_cons in Hs2 as [Hts2 Hs2].
  assert (p ∉ list_head :: l1 ++ l2) as Hpn by set_solver.
  exists (set_memory (delete p (memory m1)) (add_unrefs (exit_calls 0 (entries d) m) m1)), (entries d). split_and!.
  - unfold OnThreadExit. rewrite (bind_eq _ _ _ E), (bind_eq _ _ _ Hd1). by rewrite Ees, Hcalls.
  - unfold thread_entries, entries_of. rewrite Hp. cbn. by rewrite Hd.
  - cbn. by rewrite Em.
  - by rewrite Em.
  - by rewrite Em.
  - by rewrite Em.
  - exists (l1 ++ l2). split; cbn.
    + apply NoDup_cons. split; [set_solver|]. apply NoDup_app. split_and!; [done|set_solver|done].
    + apply NoDup_app. split_and!; [done|set_solver|done].
    + eapply seg_frame; [..|exact Hl].
      * intros x Hx. apply next_of_delete. intros ->. apply Hpn. change (list_head :: (l1 ++ l2) ++ [list_head]) with ((list_head :: l1 ++ l2) ++ [list_head]) in Hx.
        by rewrite removelast_last in Hx.
      * intros x Hx. apply prev_of_delete. intros ->. set_solver.
    + intros q. rewrite lookup_delete_is_Some, entries_is_Some, (rl_entries _ _ _ _ HRl), <- entries_is_Some, H4. set_solver.
    + rewrite Em. cbn. by apply Forall2_app.
    + intros t' Ht' Hg. rewrite Em. cbn. apply H6; set_solver.
    + intros t' Ht'. assert (t' ∉ gone) by (apply H7; set_solver). set_solver.
  - intros t' Ht'. unfold thread_entries. cbn. rewrite Em. cbn. destruct (tls_ m !! t') as [q|] eqn:Eq; [|done]. cbn.
    assert (q <> p) as Hq. { intros ->. assert (t' = t) as -> by (eapply own_inj; [exact HR|set_solver|set_solver|done|done]). set_solver. }
    unfold entries_of. rewrite lookup_delete_ne by done. apply (rl_entries _ _ _ _ HRl q).
Qed.

Lemma step_exit w a locs t : Rep w a locs -> legal a (SExit t) -> exists out, tl_exec (SExit t) w = Some out /\ matched (SExit t) w a out.
Proof.
  intros [HL HS HI HRun HJ HU] (Hg & Hr & _). unfold tl_exec, locked.
  destruct (lock w) eqn:El; [eexists; split; [done|]; cbn; by rewrite El|].
  assert (forall id, id ∈ sp_alive a -> id < next_instance_id_ (meta w)) as Hn by (intros id Hid; apply (rp_ids _ _ _ HI) in Hid; lia).
  assert (forall m' ths', (forall x, x ∈ sp_threads a -> x <> t -> x ∈ ths') -> (forall x, x ∈ sp_threads a -> x <> t -> thread_entries m' x = thread_entries (meta w) x) ->
    forall slot calls, RepRun (mkTlWorld m' (running w) None) (mkSpec (sp_alive a) (sp_handler a) slot ths' ({[t]} ∪ sp_gone a) (sp_running a) (sp_job a) calls)) as HRun'.
  { intros m' ths' Hin He slot calls. destruct HRun as (H1 & H2 & H3). split_and!; [done| |].
    - intros t' o s Hr'. cbn in Hr' |- *. assert (t' <> t) as Hne by (intros ->; rewrite H1, Hr' in Hr; done). specialize (H2 _ _ _ Hr').
      destruct s; cbn in H2 |- *; [done|by apply Hin|]. destruct H2 as [? H2]. split; [by apply Hin|]. intros es. rewrite He by done. apply H2.
    - cbn. intros t' o Ho. destruct (H3 t' o Ho) as [Hu Hg']. split; [done|]. assert (t' <> t) by (intros ->; congruence). set_solver. }
  destruct (tls_ (meta w) !! t) as [p|] eqn:Et.
  - assert (t ∈ sp_threads a) as Ht by (destruct (decide (t ∈ sp_threads a)); [done|]; by rewrite (rp_new _ _ _ _ HL) in Et).
    apply list_elem_of_split in Ht as (s1 & s2 & Es). rewrite Es in HL. destruct (exit_rep _ _ _ _ _ _ _ HL Et) as (m' & es & E & Ees & Eu & E1 & E2 & E3 & [locs' HL'] & Eo).
    pose proof (rp_tnd _ _ _ _ HL) as Hnd. apply NoDup_app in Hnd as (Hs1 & Hdis & Hs2). apply NoDup_cons in Hs2 as [Hts2 Hs2].
    assert (filter (fun t' => t' <> t) (sp_threads a) = s1 ++ s2) as Ef.
    { rewrite Es, filter_app, filter_cons_False by naive_solver. rewrite !filter_absent by set_solver. done. }
    rewrite (bind_eq _ _ _ E). eexists. split; [done|]. cbn. rewrite Eu, drop_app_length.
    destruct (rp_slots _ _ _ _ HS t) as (es' & Ees' & Hsz & Hes); [rewrite Es; set_solver|]. assert (es' = es) as -> by congruence.
    eexists _, locs'. split; [apply (sp_exit a t (next_instance_id_ (meta w))); [done|by apply exit_calls_spec]|]. split; cbn.
    + by rewrite Ef.
    + rewrite Ef. split.
      * intros t' Ht'. rewrite Eo, E1 by done. assert (t' <> t) by set_solver.
        destruct (rp_slots _ _ _ _ HS t') as (es' & K1 & K2 & K3); [rewrite Es; set_solver|]. exists es'. split_and!; [done..|]. intros id Hid. rewrite K3 by done.
        unfold slot_in. case_bool_decide; [|done]. by rewrite bool_decide_eq_false_2.
      * intros t' id Ht' Hid. case_bool_decide; [done|]. apply (rp_unused _ _ _ _ HS); [rewrite Es; set_solver|done].
    + by apply (ids_same (meta w)).
    + apply HRun'; rewrite ?Ef; intros x; rewrite Es; intros Hx Hne; [set_solver|apply Eo; set_solver].
    + by rewrite (job_none _ _ _ HJ El).
    + by rewrite Eu, HU.
  - assert (t ∉ sp_threads a) as Ht. { intros Hin. destruct (own_loc _ _ _ _ _ HL Hin) as (p & Hp & _). congruence. }
    eexists. split; [done|]. cbn. eexists _, locs. split; [apply (sp_exit a t (next_instance_id_ (meta w))); [done|]|].
    { symmetry. apply spec_calls_none. intros id. by apply (rp_unused _ _ _ _ HS). }
    split; cbn.
    + rewrite filter_absent by done. destruct HL as [H1 H2 H3 H4 H5 H6 H7]. split; try done; [intros t' ? ?; apply H6; set_solver|].
      intros t' Ht'. assert (t' ∉ sp_gone a) by auto. set_solver.
    + rewrite filter_absent by done. eapply slots_ext; [exact HS|]. intros t' id Hid. case_bool_decide as E; [|done]. subst. symmetry. by apply (rp_unused _ _ _ _ HS).
    + done.
    + rewrite filter_absent by done. destruct w as [m r l]. cbn in *. subst l. by apply HRun'.
    + unfold RepJob. cbn. rewrite ?El. by rewrite (job_none _ _ _ HJ El).
    + by rewrite app_nil_r.
Qed.

(** ** Runs *)

Inductive tl_trace : TlWorld -> list (TlStep * TlEvent) -> TlWorld -> Prop :=
| tl_nil w : tl_trace w [] w
| tl_cons w s e w' tr w'' : tl_exec s w = Some (Done e w') -> tl_trace w' tr w'' -> tl_trace w ((s, e) :: tr) w''.

Inductive sp_trace : Spec -> list (TlStep * TlEvent) -> Spec -> Prop :=
| st_nil a : sp_trace a [] a
| st_cons a s e a' tr a'' : legal a s -> sp_step a s e a' -> sp_trace a' tr a'' -> sp_trace a ((s, e) :: tr) a''.

(** The program respects the contract in every state of the specification that what it has seen
    so far allows. *)
Fixpoint obeys (a : Spec) (tr : list (TlStep * TlEvent)) : Prop :=
  match tr with
  | [] => True
  | (s, e) :: tr => legal a s /\ forall a', sp_step a s e a' -> obeys a' tr
  end.

Lemma step_refines w a locs s : Rep w a locs -> legal a s -> exists out, tl_exec s w = Some out /\ matched s w a out.
Proof.
  intros HR Hl. destruct s; [by eapply step_call|by eapply step_run|by eapply step_new|by eapply step_handler|..|by eapply step_job|by eapply step_exit].
  all: by eapply step_start.
Qed.

Lemma trace_refines tr : forall w a locs w', Rep w a locs -> tl_trace w tr w' -> obeys a tr ->
  exists a' locs', sp_trace a tr a' /\ Rep w' a' locs'.
Proof.
  induction tr as [|[s e] tr IH]; intros w a locs w' HR Ht Ho; inversion Ht; subst.
  - exists a, locs. split; [constructor|done].
  - destruct Ho as [Hl Ho]. destruct (step_refines w a locs s HR Hl) as (out & E & Hm).
    match goal with H : tl_exec s w = Some (Done e _) |- _ => rewrite E in H; injection H as -> end.
    destruct Hm as (a1 & locs1 & Hst & HR1). destruct (IH _ _ _ _ HR1 ltac:(eassumption) (Ho a1 Hst)) as (a2 & locs2 & Htr & HR2).
    exists a2, locs2. split; [by econstructor|done].
Qed.

Lemma job_never_blocked w a locs out : Rep w a locs -> tl_exec SJob w = Some out -> out <> Blocked.
Proof.
  intros HR E ->. cbn in E. unfold job_step in E. destruct (lock w) as [[[t j] [p|]]|]; [|done..]. cbn in E.
  case_bool_decide; [by destruct (end_job j (meta w))|]. destruct (memory (meta w) !! p) as [d|]; [|done]. cbn in E.
  destruct (_ <? _); [|done]. destruct (entry _ _); [|done]. cbn in E. by destruct (visit _ _) as [[? ?] ?].
Qed.

(** C13: thread-local pointers refine a specification in which an instance is one slot per thread.
    Whatever threads do at the same time, a run of the program that uses instances only between
    construction and destruction, and threads only until they end, is a run of the
    specification with the same events: a thread reads what its slot holds, new instances start
    with null slots and without a handler although identifiers are used again, [Scrape], [Fold]
    and destruction visit every thread once, each pointer is passed once to the handler of its
    instance. No step is undefined, and only the mutex blocks a thread; its holder is never
    blocked. *)
Theorem thread_local_refines tr w (Htr : tl_trace tl_init tr w) (Ho : obeys sp_init tr) :
  exists a, sp_trace sp_init tr a /\ unrefs (meta w) = sp_unrefs a /\
    forall s, legal a s -> exists out, tl_exec s w = Some out /\ (out = Blocked -> lock w <> None /\ s <> SJob).
Proof.
  destruct (trace_refines tr _ _ _ _ rep_init Htr Ho) as (a & locs & Hst & HR). exists a. split_and!; [done|apply (rep_unrefs _ _ _ HR)|].
  intros s Hl. destruct (step_refines w a locs s HR Hl) as (out & E & Hm). exists out. split; [done|]. intros ->. split; [done|].
  intros ->. by eapply job_never_blocked.
Qed.

(** The holder of the mutex needs no more steps than there are threads, and one. *)
Definition job_left (a : Spec) : nat := match sp_job a with Some (_, _, rest) => S (length rest) | None => 0 end.

Theorem thread_local_unlocks a s e a' : sp_step a s e a' ->
  match s with
  | SJob => job_left a = S (job_left a')
  | SScrape _ _ _ | SFold _ _ | SDestroy _ _ => job_left a' = S (length (sp_threads a))
  | _ => job_left a' = job_left a
  end.
Proof.
  intros Hst. destruct Hst; try done; unfold job_left; cbn.
  - by destruct s; try done; destruct H as [-> ->].
  - by rewrite H.
  - by rewrite H.
  - by rewrite H.
Qed.

Definition demo_trace : list (TlStep * TlEvent) :=
  [(SNew, EvNew 0); (SHandler 0 9, EvHandler 0 9); (SCall 1 (OpReset 0 5), EvNone); (SRun 1, EvNone); (SRun 1, EvNone);
   (SRun 1, EvStore 1 0 5 0); (SExit 1, EvExit 1 [(9, 5)])].

Fixpoint replay (tr : list (TlStep * TlEvent)) (w : TlWorld) : option TlWorld :=
  match tr with
  | [] => Some w
  | (s, _) :: tr => match tl_exec s w with Some (Done _ w) => replay tr w | _ => None end
  end.

Ltac obey := match goal with
  | |- True => exact I
  | |- legal _ _ /\ _ => split; [unfold legal, idle, usable; split_and?; first [exact I | (rewrite lookup_insert_eq; eexists; reflexivity) | (apply (bool_decide_unpack _); vm_compute; reflexivity)]|]
  | |- forall a', sp_step _ _ _ a' -> _ =>
      let a := fresh in let Hst := fresh "Hst" in intros a Hst; inversion Hst; subst; clear Hst; try contradiction;
      cbn [sp_alive sp_handler sp_slot sp_threads sp_gone sp_running sp_job sp_unrefs sp_init] in *
  | H : <[?t := _]> _ !! ?t = Some _ |- _ => rewrite lookup_insert_eq in H; injection H as <-
  | H : (access _ _ _).1 = EvNone |- _ => discriminate H
  end.

Lemma demo_trace_obeys : obeys sp_init demo_trace.
Proof. cbn [obeys demo_trace]. repeat obey. Qed.

Lemma thread_local_refines_witness :
  exists w, replay demo_trace tl_init = Some w /\ unrefs (meta w) = [(9, 5)] /\
  exists a, sp_trace sp_init demo_trace a /\ unrefs (meta w) = sp_unrefs a /\
    forall s, legal a s -> exists out, tl_exec s w = Some out /\ (out = Blocked -> lock w <> None /\ s <> SJob).
Proof.
  eexists. split; [vm_compute; reflexivity|]. split; [reflexivity|]. apply (thread_local_refines demo_trace).
  - repeat (eapply tl_cons; [vm_compute; reflexivity|]). apply tl_nil.
  - exact demo_trace_obeys.
Defined.
