(* ===== verification/StringUtil.v ===== *)
(** * Strings

    [util/string_util.h] and [.cc]: numbers as text and back, escaping, trimming. A string is a
    list of bytes. An exception of the standard library is the value [None]. *)

From S2P Require Import Prelude.

(** ** Characters *)

(** [isspace] in the default locale *)
Definition isspace (c : byte) : bool :=
  match c with x20 | x09 | x0a | x0b | x0c | x0d => true | _ => false end.

Definition digit_value (c : byte) : option Z :=
  let v := byte_to_Z c in if (48 <=? v) && (v <=? 57) then Some (v - 48) else None.

Definition digit_char (d : Z) : byte := byte_of_Z (48 + d).

(** ** Numbers *)

(** [%PRIu64] and [std::to_string]: a number of 64 bits has at most twenty digits. *)
Fixpoint decimal_loop (fuel : nat) (n : Z) (acc : bytes) : bytes :=
  match fuel with
  | O => acc
  | S fuel =>
      let acc := digit_char (n mod 10) :: acc in
      if n / 10 =? 0 then acc else decimal_loop fuel (n / 10) acc
  end.

Definition to_decimal (n : Z) : bytes := decimal_loop 20 n [].

Definition to_string (n : Z) : bytes := if n <? 0 then x2d :: to_decimal (- n) else to_decimal n.

Definition AppendNumberTo (str : bytes) (num : Z) : bytes := str ++ to_decimal num.

Definition kMaxUint64 : Z := 2 ^ 64 - 1.

(** The loop of [ConsumeDecimalNumber]; the result is the returned value, the number if it is
    stored, and the rest of [in]. *)
Fixpoint consume_loop (inp : bytes) (v digits : Z) : bool * option Z * bytes :=
  match inp with
  | [] => (digits >? 0, Some v, [])
  | c :: rest =>
      match digit_value c with
      | Some delta =>
          if (v >? kMaxUint64 / 10) || ((v =? kMaxUint64 / 10) && (delta >? kMaxUint64 mod 10))
          then (false, None, inp)
          else consume_loop rest (v * 10 + delta) (digits + 1)
      | None => (digits >? 0, Some v, inp)
      end
  end.

Definition ConsumeDecimalNumber (inp : bytes) : bool * option Z * bytes := consume_loop inp 0 0.

(** [std::stoull], [std::stoll] and [std::stoi]: leading white space, a sign, digits; the number
    and what is behind it. *)
Fixpoint skip_space (s : bytes) : bytes :=
  match s with c :: t => if isspace c then skip_space t else s | [] => [] end.

Fixpoint span_digits (s : bytes) (v : Z) : Z * bytes :=
  match s with
  | c :: t => match digit_value c with Some d => span_digits t (v * 10 + d) | None => (v, s) end
  | [] => (v, [])
  end.

Definition signed_number (s : bytes) : option (bool * Z * bytes) :=
  let s := skip_space s in
  let '(neg, s) := match s with x2d :: t => (true, t) | x2b :: t => (false, t) | _ => (false, s) end in
  match s with
  | c :: _ => match digit_value c with Some _ => let '(v, rest) := span_digits s 0 in Some (neg, v, rest) | None => None end
  | [] => None
  end.

Definition stoull (s : bytes) : option (Z * bytes) :=
  match signed_number s with
  | Some (neg, v, rest) => if v <=? kMaxUint64 then Some (if neg : bool then u64 (- v) else v, rest) else None
  | None => None
  end.

Definition stoi_bits (w : Z) (s : bytes) : option (Z * bytes) :=
  match signed_number s with
  | Some (neg, v, rest) =>
      let v := if neg : bool then - v else v in
      if (- 2 ^ (w - 1) <=? v) && (v <? 2 ^ (w - 1)) then Some (v, rest) else None
  | None => None
  end.

(** The letter behind a number multiplies it. *)
Definition unit_shift (rest : bytes) : Z :=
  match rest with
  | (x6b | x4b) :: _ => 10
  | (x6d | x4d) :: _ => 20
  | (x67 | x47) :: _ => 30
  | (x74 | x54) :: _ => 40
  | _ => 0
  end.

Definition ParseUint64 (value : bytes) : option Z :=
  '(num, rest) ← stoull value; Some (u64 (Z.shiftl num (unit_shift rest))).

(** A shift that leaves the range of the type is not defined for signed types before C++20 and
    wraps since then. *)
Definition sign_wrap (w z : Z) : Z := let v := wrap w z in if v <? 2 ^ (w - 1) then v else v - 2 ^ w.

Definition ParseInt64 (value : bytes) : option Z :=
  '(num, rest) ← stoi_bits 64 value; Some (sign_wrap 64 (Z.shiftl num (unit_shift rest))).

Definition ParseInt (value : bytes) : option Z :=
  '(num, rest) ← stoi_bits 32 value;
  Some (sign_wrap 32 (Z.shiftl num (if unit_shift rest =? 40 then 0 else unit_shift rest))).

Definition ParseUint8 (value : bytes) : option Z :=
  num ← ParseUint64 value; if Z.shiftr num 8 =? 0 then Some num else None.
Definition ParseUint32 (value : bytes) : option Z :=
  num ← ParseUint64 value; if Z.shiftr num 32 =? 0 then Some num else None.
Definition ParseInt32 (value : bytes) : option Z :=
  num ← ParseInt64 value; if (num <=? 2 ^ 31 - 1) && (num >=? - 2 ^ 31) then Some num else None.

(** [true], [false], [1], [0] *)
Definition ParseBoolean (value : bytes) : option bool :=
  if bool_decide (value = [x74; x72; x75; x65] \/ value = [x31]) then Some true
  else if bool_decide (value = [x66; x61; x6c; x73; x65] \/ value = [x30]) then Some false
  else None.

Definition ParseSizeT (value : bytes) : option Z := ParseUint64 value.

(** ** Numbers for people *)

(** [snprintf] into a buffer of [len] bytes: the length of the whole text, and the text written. *)
Definition snprintf (len : Z) (text : bytes) : Z * bytes := (size text, ztake (len - 1) text).

Definition AppendHumanBytes (nbytes len : Z) : Z * bytes :=
  if nbytes >=? Z.shiftl 10 40 then snprintf len (to_decimal (Z.shiftr nbytes 40) ++ [x54; x42])
  else if nbytes >=? Z.shiftl 10 30 then snprintf len (to_decimal (Z.shiftr nbytes 30) ++ [x47; x42])
  else if nbytes >=? Z.shiftl 10 20 then snprintf len (to_decimal (Z.shiftr nbytes 20) ++ [x4d; x42])
  else if nbytes >=? Z.shiftl 10 10 then snprintf len (to_decimal (Z.shiftr nbytes 10) ++ [x4b; x42])
  else snprintf len (to_decimal nbytes ++ [x42]).

(** The division of C++ rounds towards zero. *)
Definition NumberToHumanString (num : Z) : bytes :=
  let absnum := if num <? 0 then (if num =? - 2 ^ 63 then 2 ^ 63 - 1 else - num) else num in
  if absnum <? 10000 then to_string num
  else if absnum <? 10000000 then to_string (Z.quot num 1000) ++ [x4b]
  else if absnum <? 10000000000 then to_string (Z.quot num 1000000) ++ [x4d]
  else to_string (Z.quot num 1000000000) ++ [x47].

(** ** Lists *)

(** Up to the first [c], and what is behind it if there is one: [find] and [substr]. *)
Fixpoint cut (c : byte) (s : bytes) : bytes * option bytes :=
  match s with
  | [] => ([], None)
  | x :: t => if byte_eq_dec x c then ([], Some t) else let '(a, r) := cut c t in (x :: a, r)
  end.

(** [std::getline] in a loop: a delimiter at the end starts no further item. *)
Fixpoint split_loop (fuel : nat) (delim : byte) (s : bytes) : list bytes :=
  match fuel, s with
  | S fuel, _ :: _ => match cut delim s with (a, Some r) => a :: split_loop fuel delim r | (a, None) => [a] end
  | _, _ => []
  end.

Definition StringSplit (arg : bytes) (delim : byte) : list bytes := split_loop (length arg) delim arg.

Definition colon : byte := x3a.

(** [ParseVectorInt]: an exception of [ParseInt] ends it. *)
Fixpoint parse_ints (fuel : nat) (value : bytes) : option (list Z) :=
  match fuel, value with
  | S fuel, _ :: _ =>
      match cut colon value with
      | (a, None) => x ← ParseInt a; Some [x]
      | (a, Some rest) => x ← ParseInt a; l ← parse_ints fuel rest; Some (x :: l)
      end
  | _, _ => Some []
  end.

Definition ParseVectorInt (value : bytes) : option (list Z) := parse_ints (length value) value.

Fixpoint serialize_ints (vec : list Z) : bytes :=
  match vec with
  | [] => []
  | [x] => to_string x
  | x :: vec => to_string x ++ colon :: serialize_ints vec
  end.

Definition SerializeIntVector (vec : list Z) : bytes := serialize_ints vec.

(** ** Digits of any base *)

Definition base_char (uppercase : bool) (d : Z) : byte :=
  byte_of_Z (if d <? 10 then 48 + d else (if uppercase then 55 else 87) + d).

(** [PutBaseChars]: the least significant digit is written last. *)
Fixpoint put_digits (base : Z) (uppercase : bool) (n : nat) (v : Z) (acc : bytes) : bytes :=
  match n with
  | O => acc
  | S n => put_digits base uppercase n (v / base) (base_char uppercase (v mod base) :: acc)
  end.

Definition PutBaseChars (base : Z) (n : nat) (v : Z) (uppercase : bool) : bytes := put_digits base uppercase n v [].

(** [ParseBaseChars]: success, the number, and the rest of the buffer; [None] if it is read
    beyond its end. *)
Fixpoint ParseBaseChars (base : Z) (n : nat) (buf : bytes) (v : Z) : option (bool * Z * bytes) :=
  match n with
  | O => Some (true, v, buf)
  | S n =>
      match buf with
      | [] => None
      | ch :: rest =>
          let c := byte_to_Z ch in
          let v := u64 (v * base) in
          if (48 <=? c) && (if base >=? 10 then c <=? 57 else c <? 48 + base)
          then ParseBaseChars base n rest (u64 (v + (c - 48)))
          else if (base >? 10) && (65 <=? c) && (c <? 65 + base - 10)
          then ParseBaseChars base n rest (u64 (v + (c - 65 + 10)))
          else if (base >? 10) && (97 <=? c) && (c <? 97 + base - 10)
          then ParseBaseChars base n rest (u64 (v + (c - 97 + 10)))
          else Some (false, v, buf)
      end
  end.

(** ** Escaping and trimming *)

Definition backslash : byte := x5c.

Definition isSpecialChar (c : byte) : bool :=
  match c with x5c | x23 | x3a | x0d | x0a => true | _ => false end.

Definition UnescapeChar (c : byte) : byte := match c with x72 => x0d | x6e => x0a | _ => c end.
Definition EscapeChar (c : byte) : byte := match c with x0a => x6e | x0d => x72 | _ => c end.

Fixpoint EscapeOptionString (raw_string : bytes) : bytes :=
  match raw_string with
  | [] => []
  | c :: s => if isSpecialChar c then backslash :: EscapeChar c :: EscapeOptionString s else c :: EscapeOptionString s
  end.

Fixpoint unescape_loop (escaped : bool) (s : bytes) : bytes :=
  match s with
  | [] => []
  | c :: s =>
      if escaped then UnescapeChar c :: unescape_loop false s
      else if byte_eq_dec c backslash then unescape_loop true s
      else c :: unescape_loop false s
  end.

Definition UnescapeOptionString (escaped_string : bytes) : bytes := unescape_loop false escaped_string.

(** [while (isspace(str[start]) && start < end) ++start], and the same from the end. *)
Fixpoint trim_front (s : bytes) : bytes :=
  match s with
  | c :: ((_ :: _) as t) => if isspace c then trim_front t else s
  | _ => s
  end.

Definition trim (str : bytes) : bytes := rev (trim_front (rev (trim_front str))).

Definition EndsWith (string pattern : bytes) : bool :=
  if size pattern <=? size string then bool_decide (zdrop (size string - size pattern) string = pattern) else false.
Definition StartsWith (string pattern : bytes) : bool := bool_decide (ztake (size pattern) string = pattern).

(** [AppendEscapedStringTo]: bytes that cannot be printed become [\xhh]. *)
Definition hex_char (d : Z) : byte := base_char false d.

Definition escaped_char (c : byte) : bytes :=
  let v := byte_to_Z c in
  if (32 <=? v) && (v <=? 126) then [c] else [backslash; x78; hex_char (v / 16); hex_char (v mod 16)].

Definition EscapeString (value : bytes) : bytes := value ≫= escaped_char.

(** ** Times of day *)

(** [stream >> hours >> colon >> minutes], with nothing left *)
Definition ParseTimeStringToSeconds (value : bytes) : Z :=
  match stoi_bits 32 value with
  | Some (hours, rest) =>
      match skip_space rest with
      | c :: rest =>
          match stoi_bits 32 rest with
          | Some (minutes, []) =>
              if negb (bool_decide (c = colon)) then -1
              else if (hours <? 0) || (hours >? 23) || (minutes <? 0) || (minutes >? 59) then -1
              else hours * 3600 + minutes * 60
          | _ => -1
          end
      | [] => -1
      end
  | None => -1
  end.

(** [start_time] and [end_time] are passed by reference. *)
Definition TryParseTimeRangeString (value : bytes) (start_time end_time : Z) : bool * Z * Z :=
  match value with
  | [] => (true, 0, 0)
  | _ =>
      match StringSplit value x2d with
      | [a; b] =>
          let start_time := ParseTimeStringToSeconds a in
          if start_time <? 0 then (false, start_time, end_time)
          else
            let end_time := ParseTimeStringToSeconds b in
            if end_time <? 0 then (false, start_time, end_time) else (true, start_time, end_time)
      | _ => (false, start_time, end_time)
      end
  end.

(** ** Printed numbers are read back *)

Definition starts_digit (s : bytes) : Prop := match s with c :: _ => is_Some (digit_value c) | [] => False end.

Lemma digit_value_char d : 0 <= d < 10 -> digit_value (digit_char d) = Some d.
Proof.
  intros H. unfold digit_value, digit_char. rewrite byte_to_of_Z, wrap_small by (unfold is_uint; lia).
  destruct (48 <=? 48 + d) eqn:E1; [|lia]. destruct (48 + d <=? 57) eqn:E2; [|lia]. simpl. f_equal. lia.
Qed.

Lemma digit_value_range c d : digit_value c = Some d -> 0 <= d < 10.
Proof. unfold digit_value. intros H. case_match; simplify_eq. lia. Qed.

Lemma decimal_span fuel n acc :
  0 <= n < 10 ^ Z.of_nat fuel -> (0 < fuel)%nat ->
  span_digits (decimal_loop fuel n acc) 0 = span_digits acc n.
Proof.
  revert n acc. induction fuel as [|fuel IH]; intros n acc Hn Hf; [lia|]. cbn [decimal_loop].
  assert (Hd : 0 <= n mod 10 < 10) by (apply Z.mod_pos_bound; lia).
  pose proof (Z.div_mod n 10 ltac:(lia)) as Hm.
  destruct (n / 10 =? 0) eqn:E.
  - cbn [span_digits]. rewrite digit_value_char by done. f_equal. lia.
  - rewrite Nat2Z.inj_succ, Z.pow_succ_r in Hn by lia.
    rewrite IH.
    + cbn [span_digits]. rewrite digit_value_char by done. f_equal. lia.
    + split; [apply Z.div_pos; lia|apply Z.div_lt_upper_bound; lia].
    + destruct fuel; [|lia]. change (10 ^ Z.of_nat 0) with 1 in Hn. lia.
Qed.

Lemma decimal_digits fuel n acc :
  exists ds, decimal_loop fuel n acc = ds ++ acc /\ Forall (fun c => is_Some (digit_value c)) ds /\
             (ds = [] -> fuel = O).
Proof.
  revert n acc. induction fuel as [|fuel IH]; intros n acc; [by exists []|]. cbn [decimal_loop].
  assert (Hd : is_Some (digit_value (digit_char (n mod 10)))).
  { eexists. apply digit_value_char, Z.mod_pos_bound. lia. }
  destruct (n / 10 =? 0); [by exists [digit_char (n mod 10)]; repeat constructor|].
  destruct (IH (n / 10) (digit_char (n mod 10) :: acc)) as (ds & -> & Hds & _).
  exists (ds ++ [digit_char (n mod 10)]). rewrite <- app_assoc. split_and!; [done| |by destruct ds].
  apply Forall_app. split; [done|by repeat constructor].
Qed.

Lemma span_digits_app s t v :
  Forall (fun c => is_Some (digit_value c)) s -> span_digits (s ++ t) v = span_digits t (fst (span_digits s v)).
Proof.
  intros H. revert v. induction H as [|c s [d Hd] _ IH]; intros v; [done|]. cbn [app span_digits].
  rewrite Hd. apply IH.
Qed.

Lemma span_digits_stop t v : ~ starts_digit t -> span_digits t v = (v, t).
Proof.
  destruct t as [|c t]; [done|]. cbn. intros H. destruct (digit_value c); [|done].
  exfalso. by apply H.
Qed.

Lemma span_digits_mono s v : 0 <= v -> v <= fst (span_digits s v).
Proof.
  revert v. induction s as [|c s IH]; intros v Hv; [done|]. cbn.
  destruct (digit_value c) as [d|] eqn:E; [|done]. apply digit_value_range in E.
  etrans; [|apply IH]; lia.
Qed.

Lemma to_decimal_span n t :
  0 <= n < 2 ^ 64 -> ~ starts_digit t -> span_digits (to_decimal n ++ t) 0 = (n, t).
Proof.
  intros Hn Ht. unfold to_decimal.
  destruct (decimal_digits 20 n []) as (ds & E & Hds & _). rewrite E, app_nil_r.
  rewrite span_digits_app by done. pose proof (decimal_span 20 n []) as H.
  rewrite E, app_nil_r in H. rewrite H; [by apply span_digits_stop| |lia].
  assert (2 ^ 64 < 10 ^ Z.of_nat 20) by done. lia.
Qed.

Lemma to_decimal_cons n : exists c s, to_decimal n = c :: s /\ is_Some (digit_value c) /\
  Forall (fun c => is_Some (digit_value c)) s.
Proof.
  unfold to_decimal. destruct (decimal_digits 20 n []) as (ds & -> & Hds & Hne). rewrite app_nil_r.
  destruct ds as [|c s]; [by specialize (Hne eq_refl)|]. inversion Hds; subst. by exists c, s.
Qed.

Lemma kMax_digits : kMaxUint64 = 10 * (kMaxUint64 / 10) + kMaxUint64 mod 10 /\ 0 <= kMaxUint64 mod 10 < 10.
Proof. split; [by apply Z.div_mod|by apply Z.mod_pos_bound]. Qed.

(** [ConsumeDecimalNumber] reads the longest run of digits, and refuses it exactly if the number
    does not fit into 64 bits. *)
Lemma consume_loop_exact s v digits :
  0 <= v <= kMaxUint64 -> 0 <= digits ->
  let '(n, rest) := span_digits s v in
  if n <=? kMaxUint64
  then consume_loop s v digits = (digits + (size s - size rest) >? 0, Some n, rest)
  else exists r, consume_loop s v digits = (false, None, r).
Proof.
  revert v digits. induction s as [|c s IH]; intros v digits Hv Hd; cbn [span_digits consume_loop].
  - destruct (v <=? kMaxUint64) eqn:E; [|lia]. f_equal; f_equal; unfold size; simpl; lia.
  - destruct (digit_value c) as [d|] eqn:Ed.
    2:{ destruct (v <=? kMaxUint64) eqn:E; [|lia]. f_equal; f_equal; lia. }
    apply digit_value_range in Ed as Hr. pose proof kMax_digits as [Hq Hm10].
    destruct ((v >? kMaxUint64 / 10) || ((v =? kMaxUint64 / 10) && (d >? kMaxUint64 mod 10))) eqn:Eo.
    + assert (Hbig : kMaxUint64 < v * 10 + d) by lia.
      pose proof (span_digits_mono s (v * 10 + d) ltac:(lia)) as Hm.
      destruct (span_digits s (v * 10 + d)) as [n rest]. cbn in Hm.
      destruct (n <=? kMaxUint64) eqn:E; [lia|]. by eexists.
    + assert (Hfit : v * 10 + d <= kMaxUint64) by lia.
      specialize (IH (v * 10 + d) (digits + 1) ltac:(lia) ltac:(lia)).
      destruct (span_digits s (v * 10 + d)) as [n rest]. destruct (n <=? kMaxUint64); [|done].
      rewrite IH. rewrite size_cons. do 3 f_equal. lia.
Qed.

Lemma append_consume str n t :
  0 <= n < 2 ^ 64 -> ~ starts_digit t ->
  ConsumeDecimalNumber (zdrop (size str) (AppendNumberTo str n) ++ t) = (true, Some n, t).
Proof.
  intros Hn Ht. unfold AppendNumberTo, ConsumeDecimalNumber. rewrite zdrop_app.
  pose proof (consume_loop_exact (to_decimal n ++ t) 0 0 ltac:(unfold kMaxUint64; lia) ltac:(lia)) as H.
  rewrite to_decimal_span in H by done. destruct (n <=? kMaxUint64) eqn:E; [|unfold kMaxUint64 in *; lia].
  rewrite H. destruct (to_decimal_cons n) as (c & s & -> & _). rewrite size_app, size_cons.
  pose proof (size_nonneg s). do 2 f_equal. lia.
Qed.

Lemma digit_value_cases c :
  is_Some (digit_value c) ->
  isspace c = false /\ c <> x2d /\ c <> x2b /\ c <> colon.
Proof. intros [d Hd]. destruct c; vm_compute in Hd; try discriminate Hd; done. Qed.

Lemma signed_number_digits c s :
  is_Some (digit_value c) ->
  signed_number (c :: s) = let '(v, rest) := span_digits (c :: s) 0 in Some (false, v, rest).
Proof.
  intros Hc. destruct (digit_value_cases c Hc) as (Hs & H1 & H2 & _). unfold signed_number.
  cbn [skip_space]. rewrite Hs. destruct Hc as [d Hd].
  assert (E : match c with x2d => (true, s) | x2b => (false, s) | _ => (false, c :: s) end = (false, c :: s))
    by (by destruct c).
  rewrite E, Hd. done.
Qed.

Lemma signed_number_to_string n t :
  - 2 ^ 64 < n < 2 ^ 64 -> ~ starts_digit t ->
  signed_number (to_string n ++ t) = Some (n <? 0, Z.abs n, t).
Proof.
  intros Hn Ht. unfold to_string. destruct (n <? 0) eqn:E.
  - destruct (to_decimal_cons (- n)) as (c & s & Hc & Hd & _).
    pose proof (to_decimal_span (- n) t ltac:(lia) Ht) as Hsp. rewrite Hc in Hsp |- *.
    unfold signed_number. cbn [app skip_space isspace] in Hsp |- *. destruct Hd as [d Hd].
    rewrite Hd, Hsp. do 3 f_equal. lia.
  - destruct (to_decimal_cons n) as (c & s & Hc & Hd & _).
    pose proof (to_decimal_span n t ltac:(lia) Ht) as Hsp. rewrite Hc in Hsp |- *.
    cbn [app] in Hsp |- *. rewrite signed_number_digits, Hsp by done. do 3 f_equal. lia.
Qed.

Lemma stoi_to_string w n :
  0 < w <= 64 -> - 2 ^ (w - 1) <= n < 2 ^ (w - 1) -> stoi_bits w (to_string n) = Some (n, []).
Proof.
  intros Hw Hn. assert (2 ^ (w - 1) <= 2 ^ 63) by (apply Z.pow_le_mono_r; lia).
  unfold stoi_bits. rewrite <- (app_nil_r (to_string n)), signed_number_to_string; [|lia|by intros []].
  replace (if n <? 0 then - Z.abs n else Z.abs n) with n by (destruct (n <? 0) eqn:E; lia).
  destruct (- 2 ^ (w - 1) <=? n) eqn:E1; [|lia]. by destruct (n <? 2 ^ (w - 1)) eqn:E2; [|lia].
Qed.

Lemma sign_wrap_id w n : 0 < w -> - 2 ^ (w - 1) <= n < 2 ^ (w - 1) -> sign_wrap w n = n.
Proof.
  intros Hw Hn. assert (2 ^ w = 2 * 2 ^ (w - 1)) by (rewrite <- Z.pow_succ_r by lia; f_equal; lia).
  unfold sign_wrap, wrap. destruct (decide (0 <= n)).
  - rewrite Z.mod_small by lia. by destruct (n <? 2 ^ (w - 1)) eqn:E; [|lia].
  - rewrite <- (Z.mod_add n 1) by lia. rewrite Z.mod_small by lia.
    destruct (n + 1 * 2 ^ w <? 2 ^ (w - 1)) eqn:E; lia.
Qed.

Lemma ParseInt_to_string n : - 2 ^ 31 <= n < 2 ^ 31 -> ParseInt (to_string n) = Some n.
Proof.
  intros Hn. unfold ParseInt. rewrite stoi_to_string by lia. cbn [mbind option_bind unit_shift].
  rewrite Z.shiftl_0_r. f_equal. by apply sign_wrap_id.
Qed.

Lemma ParseInt64_to_string n : - 2 ^ 63 <= n < 2 ^ 63 -> ParseInt64 (to_string n) = Some n.
Proof.
  intros Hn. unfold ParseInt64. rewrite stoi_to_string by lia. cbn [mbind option_bind unit_shift].
  rewrite Z.shiftl_0_r. f_equal. by apply sign_wrap_id.
Qed.

Lemma ParseUint64_to_string n : is_uint 64 n -> ParseUint64 (to_string n) = Some n.
Proof.
  intros Hn. unfold is_uint in Hn. unfold ParseUint64, stoull.
  rewrite <- (app_nil_r (to_string n)), signed_number_to_string; [|lia|by intros []].
  destruct (Z.abs n <=? kMaxUint64) eqn:E; [|unfold kMaxUint64 in E; lia].
  destruct (n <? 0) eqn:E0; [lia|]. cbn [mbind option_bind unit_shift].
  rewrite Z.shiftl_0_r, wrap_small by (unfold is_uint; lia). f_equal. lia.
Qed.

Lemma cut_app c s t : Forall (fun x => x <> c) s -> cut c (s ++ c :: t) = (s, Some t).
Proof.
  induction 1 as [|x s Hx _ IH]; cbn [app cut].
  - by destruct (byte_eq_dec c c).
  - destruct (byte_eq_dec x c); [done|]. by rewrite IH.
Qed.

Lemma cut_none c s : Forall (fun x => x <> c) s -> cut c s = (s, None).
Proof.
  induction 1 as [|x s Hx _ IH]; cbn [cut]; [done|]. destruct (byte_eq_dec x c); [done|]. by rewrite IH.
Qed.

Lemma to_string_no_colon n : Forall (fun x => x <> colon) (to_string n) /\ to_string n <> [].
Proof.
  assert (H : forall m, Forall (fun x => x <> colon) (to_decimal m) /\ to_decimal m <> []).
  { intros m. destruct (to_decimal_cons m) as (c & s & -> & Hc & Hs). split; [|done].
    constructor; [by apply digit_value_cases|]. eapply Forall_impl; [done|].
    intros x Hx. by apply digit_value_cases. }
  unfold to_string. destruct (n <? 0); [|apply H]. split; [constructor; [done|apply H]|done].
Qed.

Lemma parse_serialize_ints vec fuel :
  Forall (fun n => - 2 ^ 31 <= n < 2 ^ 31) vec -> (length (serialize_ints vec) <= fuel)%nat ->
  parse_ints fuel (serialize_ints vec) = Some vec.
Proof.
  intros H. revert fuel. induction H as [|x vec Hx Hv IH]; intros fuel Hf; [by destruct fuel|].
  destruct (to_string_no_colon x) as [Hnc Hne]. destruct vec as [|y vec].
  - cbn [serialize_ints] in Hf |- *. destruct (to_string x) as [|c s] eqn:E; [done|].
    destruct fuel as [|fuel]; [cbn in Hf; lia|]. cbn [parse_ints]. rewrite cut_none, <- E by done.
    by rewrite ParseInt_to_string.
  - change (serialize_ints (x :: y :: vec)) with (to_string x ++ colon :: serialize_ints (y :: vec)) in Hf |- *.
    rewrite length_app in Hf. destruct fuel as [|fuel]; [cbn in Hf; lia|].
    pose proof (cut_app colon (to_string x) (serialize_ints (y :: vec)) Hnc) as Hcut.
    destruct (to_string x ++ colon :: serialize_ints (y :: vec)) eqn:E; [by destruct (to_string x)|].
    cbn [parse_ints]. rewrite Hcut, ParseInt_to_string by done. cbn [mbind option_bind].
    rewrite IH; [done|]. cbn [length] in Hf. lia.
Qed.

(** ** Digits of any base *)

Lemma base_char_step base uppercase n rest w d :
  2 <= base <= 36 -> 0 <= d < base ->
  ParseBaseChars base (S n) (base_char uppercase d :: rest) w = ParseBaseChars base n rest (u64 (u64 (w * base) + d)).
Proof.
  intros Hb Hd. cbn [ParseBaseChars]. unfold base_char. rewrite byte_to_of_Z.
  rewrite wrap_small by (unfold is_uint; destruct (d <? 10), uppercase; lia).
  destruct (d <? 10) eqn:E.
  - replace (48 <=? 48 + d) with true by lia. cbn [andb].
    replace (if base >=? 10 then 48 + d <=? 57 else 48 + d <? 48 + base) with true
      by (destruct (base >=? 10) eqn:Eb; lia).
    do 3 f_equal. lia.
  - destruct (base >=? 10) eqn:Eb; [|lia].
    destruct uppercase.
    + replace (55 + d <=? 57) with false by lia. rewrite andb_false_r.
      replace ((base >? 10) && (65 <=? 55 + d) && (55 + d <? 65 + base - 10)) with true by lia. do 3 f_equal. lia.
    + replace (87 + d <=? 57) with false by lia. rewrite andb_false_r.
      replace ((base >? 10) && (65 <=? 87 + d) && (87 + d <? 65 + base - 10)) with false by lia.
      replace ((base >? 10) && (97 <=? 87 + d) && (87 + d <? 97 + base - 10)) with true by lia. do 3 f_equal. lia.
Qed.

Lemma parse_put_digits base uppercase n m v acc w :
  2 <= base <= 36 -> 0 <= v -> is_uint 64 w ->
  ParseBaseChars base (n + m) (put_digits base uppercase n v acc) w =
  ParseBaseChars base m acc (u64 (w * base ^ Z.of_nat n + v mod base ^ Z.of_nat n)).
Proof.
  intros Hb Hv Hw. revert m v acc Hv. induction n as [|n IH]; intros m v acc Hv.
  - cbn [put_digits Nat.add]. rewrite Z.pow_0_r, Z.mod_1_r, Z.mul_1_r, Z.add_0_r, wrap_small by done. done.
  - cbn [put_digits]. replace (S n + m)%nat with (n + S m)%nat by lia.
    rewrite IH by (apply Z.div_pos; lia). rewrite base_char_step by (done || (apply Z.mod_pos_bound; lia)).
    f_equal. rewrite Nat2Z.inj_succ, Z.pow_succ_r by lia. rewrite Z.rem_mul_r by lia.
    unfold wrap. rewrite Z.mul_mod_idemp_l, Z.add_mod_idemp_l by done. f_equal. ring.
Qed.

Lemma put_base_chars_app base n v uppercase rest :
  PutBaseChars base n v uppercase ++ rest = put_digits base uppercase n v rest.
Proof.
  unfold PutBaseChars. change rest with ([] ++ rest) at 2. generalize (@nil byte). revert v.
  induction n as [|n IH]; intros v acc; [done|]. cbn [put_digits]. by rewrite IH.
Qed.

(** ** Escaping *)

Lemma unescape_escape s : UnescapeOptionString (EscapeOptionString s) = s.
Proof.
  unfold UnescapeOptionString. induction s as [|c s IH]; [done|]. cbn [EscapeOptionString].
  destruct (isSpecialChar c) eqn:E.
  - cbn [unescape_loop]. destruct (byte_eq_dec backslash backslash); [|done]. rewrite IH.
    by destruct c; vm_compute in E; try discriminate E.
  - cbn [unescape_loop]. rewrite IH. destruct (byte_eq_dec c backslash) as [->|]; [done|]. done.
Qed.

(** ** Trimming *)

Definition blank (s : bytes) : Prop := Forall (fun c => isspace c = true) s.

(** Neither the first nor the last character is white space. *)
Definition tight (s : bytes) : Prop :=
  (forall c, head s = Some c -> isspace c = false) /\ (forall c, last s = Some c -> isspace c = false).

Lemma trim_front_spec s :
  exists p, s = p ++ trim_front s /\ blank p /\
            ((forall c, head (trim_front s) = Some c -> isspace c = false) \/ exists c, trim_front s = [c]).
Proof.
  induction s as [|c [|d s] IH].
  - exists []. split_and!; [done|constructor|]. by left.
  - exists []. split_and!; [done|constructor|]. right. by exists c.
  - change (trim_front (c :: d :: s)) with (if isspace c then trim_front (d :: s) else c :: d :: s).
    destruct (isspace c) eqn:E.
    + destruct IH as (p & Hp & Hb & Ho). exists (c :: p). split_and!; [by rewrite Hp at 1|by constructor|done].
    + exists []. split_and!; [done|constructor|]. left. intros x [= <-]. done.
Qed.

Lemma trim_front_id s : (forall c, head s = Some c -> isspace c = false) -> trim_front s = s.
Proof.
  destruct s as [|c [|d s]]; intros H; [done..|].
  change (trim_front (c :: d :: s)) with (if isspace c then trim_front (d :: s) else c :: d :: s).
  by rewrite (H c eq_refl).
Qed.

Lemma head_rev s : head (rev s) = last (s : bytes).
Proof. induction s as [|c s IH] using rev_ind; [done|]. by rewrite rev_app_distr, last_snoc. Qed.

Lemma trim_tight s : tight s -> trim s = s.
Proof.
  intros [H1 H2]. unfold trim. rewrite (trim_front_id s) by done.
  rewrite trim_front_id by (by rewrite head_rev). apply rev_involutive.
Qed.

Lemma tight_single c : isspace c = false -> tight [c].
Proof. intros H. split; intros x [= <-]; done. Qed.

Lemma blank_rev s : blank s -> blank (rev s).
Proof. apply Forall_rev. Qed.

(** What [trim] cuts off is white space, and what it leaves has none at its ends, unless the
    whole text is white space: of that its last character stays. *)
Lemma trim_spec s :
  exists p q, s = p ++ trim s ++ q /\ blank p /\ blank q /\
              (tight (trim s) \/ (blank s /\ exists c, trim s = [c])).
Proof.
  destruct (trim_front_spec s) as (p & Hs & Hp & Ho).
  destruct (trim_front_spec (rev (trim_front s))) as (q & Ht & Hq & Ho').
  unfold trim. set (u := trim_front (rev (trim_front s))) in *. set (t := trim_front s) in *.
  assert (Et : t = rev u ++ rev q) by (by rewrite <- rev_app_distr, <- Ht, rev_involutive).
  exists p, (rev q). split_and!; [congruence|done|by apply blank_rev|].
  assert (Hhead : forall c, head (rev u) = Some c -> head t = Some c).
  { intros c Hc. rewrite Et. destruct (rev u); [done|exact Hc]. }
  destruct Ho as [Ho|[c Hc]].
  - left. destruct Ho' as [Ho'|[c Hc]].
    + split; [intros c Hc; by apply Ho, Hhead|]. intros c Hc. apply Ho'.
      rewrite <- (rev_involutive u), head_rev. done.
    + rewrite Hc. apply tight_single, Ho, Hhead. by rewrite Hc.
  - assert (Hu : u = [c]) by (unfold u; rewrite Hc; done). rewrite Hu.
    destruct (isspace c) eqn:Ec; [right|left; by apply tight_single].
    split; [|by exists c]. rewrite Hs, Hc. apply Forall_app. split; [done|by repeat constructor].
Qed.

(** A text of blanks is not trimmed to nothing. *)
Lemma trim_blank : trim [x20; x20] = [x20].
Proof. done. Qed.

(** ** The operations *)

(** What [ConsumeDecimalNumber] does with any input: it reads the longest run of digits; the
    number is stored and the rest is left, and the answer is whether there was a digit; if the
    number does not fit into 64 bits the answer is no and nothing is stored. *)
Theorem consume_decimal_exact (s : bytes) :
  let '(n, rest) := span_digits s 0 in
  (n < 2 ^ 64 -> ConsumeDecimalNumber s = (size rest <? size s, Some n, rest)) /\
  (2 ^ 64 <= n -> exists r, ConsumeDecimalNumber s = (false, None, r)).
Proof.
  pose proof (consume_loop_exact s 0 0 ltac:(unfold kMaxUint64; lia) ltac:(lia)) as H.
  destruct (span_digits s 0) as [n rest]. unfold ConsumeDecimalNumber.
  destruct (n <=? kMaxUint64) eqn:E; unfold kMaxUint64 in E; split; intros Hn; try lia; [|done].
  rewrite H. do 2 f_equal. lia.
Qed.

(** Texts that this library writes are read back by its own functions: a number that was
    appended to a string by [ConsumeDecimalNumber], whatever other than a digit follows; the text
    of an integer by [ParseInt64], [ParseUint64] and [ParseInt] over the whole range of the type;
    a list of integers by [ParseVectorInt]; the [n] digits of a number in any base up to 36, in
    upper or lower case, by [ParseBaseChars]; and an escaped option string by
    [UnescapeOptionString]. *)
Theorem texts_roundtrip :
  (forall str n t, is_uint 64 n -> ~ starts_digit t ->
     ConsumeDecimalNumber (zdrop (size str) (AppendNumberTo str n) ++ t) = (true, Some n, t)) /\
  (forall n, is_uint 64 n -> ParseUint64 (to_string n) = Some n) /\
  (forall n, - 2 ^ 63 <= n < 2 ^ 63 -> ParseInt64 (to_string n) = Some n) /\
  (forall vec, Forall (fun n => - 2 ^ 31 <= n < 2 ^ 31) vec -> ParseVectorInt (SerializeIntVector vec) = Some vec) /\
  (forall base n v uppercase rest, 2 <= base <= 36 -> is_uint 64 v -> v < base ^ Z.of_nat n ->
     ParseBaseChars base n (PutBaseChars base n v uppercase ++ rest) 0 = Some (true, v, rest)) /\
  (forall s, UnescapeOptionString (EscapeOptionString s) = s).
Proof.
  split_and!.
  - intros. by apply append_consume.
  - apply ParseUint64_to_string.
  - apply ParseInt64_to_string.
  - intros vec Hv. by apply parse_serialize_ints.
  - intros base n v uppercase rest Hb Hv Hn. rewrite put_base_chars_app.
    replace n with (n + 0)%nat at 1 by lia. unfold is_uint in Hv.
    rewrite parse_put_digits by (done || (unfold is_uint; lia)). cbn [ParseBaseChars].
    by rewrite Z.mul_0_l, Z.add_0_l, Z.mod_small, wrap_small by (unfold is_uint; lia).
  - apply unescape_escape.
Qed.
