(* ===== verification/OptionString.v ===== *)
(** * Option strings

    [options/options_helper.cc]: [StringToMap] and [OptionTypeInfo::NextToken], which take a text
    such as [a=1;b={c=2;d=3};e=x] apart, and [Configurable::GetOptionsMap] of
    [options/configurable.cc].

    A position in the string [opts] is represented by the rest of the string from there: the end
    of the string, and every position behind it, is the empty rest. [std::string::npos] is
    [None]. *)

From stdpp Require Import gmap.
From S2P Require Import Prelude.
From S2P Require Import Status.
From S2P Require Import StringUtil.

(** ** Characters *)

Definition open_brace : byte := x7b.
Definition close_brace : byte := x7d.
Definition semicolon : byte := x3b.
Definition equals_sign : byte := x3d.

(** ** Tokens *)

(** From behind an opening brace to the closing brace that brings [count] down to zero: the text
    in between and the text behind it; [None] if [count] is not zero at the end. *)
Fixpoint matching_brace (count : Z) (s : bytes) : option (bytes * bytes) :=
  match s with
  | [] => None
  | c :: s =>
      if bool_decide (c = open_brace) then prod_map (cons c) id <$> matching_brace (count + 1) s
      else if bool_decide (c = close_brace) then
        if count - 1 =? 0 then Some ([], s) else prod_map (cons c) id <$> matching_brace (count - 1) s
      else prod_map (cons c) id <$> matching_brace count s
  end.

(** The token, and [*end]. *)
Definition NextToken (opts : bytes) (delimiter : byte) : Status + bytes * option bytes :=
  match skip_space opts with
  | [] => inr ([], None)
  | c :: s =>
      if bool_decide (c = open_brace) then
        match matching_brace 1 s with
        | Some (inside, rest) =>
            match skip_space rest with
            | (d :: _) as rest =>
                if bool_decide (d = delimiter) then inr (trim inside, Some rest)
                else inl (InvalidArgument "Unexpected chars after nested options")
            | [] => inr (trim inside, Some [])
            end
        | None => inl (InvalidArgument "Mismatched curly braces for nested options")
        end
      else
        match cut delimiter (c :: s) with
        | (a, None) => inr (trim a, None)
        | (a, Some rest) => inr (trim a, Some (delimiter :: rest))
        end
  end.

(** ** Maps *)

(** [find_first_of] with the characters of [={};]: the text before the first of them and the text
    from there *)
Fixpoint key_end (s : bytes) : option (bytes * bytes) :=
  match s with
  | [] => None
  | c :: t =>
      if bool_decide (c = equals_sign) || bool_decide (c = open_brace) || bool_decide (c = close_brace) ||
         bool_decide (c = semicolon)
      then Some ([], s)
      else prod_map (cons c) id <$> key_end t
  end.

(** The loop of [StringToMap]: at most one round for each character. *)
Fixpoint map_loop (fuel : nat) (opts : bytes) (m : gmap bytes bytes) : Status * gmap bytes bytes :=
  match fuel, opts with
  | S fuel, _ :: _ =>
      match key_end opts with
      | None => (InvalidArgument "Mismatched key value pair, '=' expected", m)
      | Some (key, rest) =>
          if negb (bool_decide (head rest = Some equals_sign)) then (InvalidArgument "Unexpected char in key", m)
          else
            let key := trim key in
            if bool_decide (key = []) then (InvalidArgument "Empty key found", m)
            else
              match NextToken (tail rest) semicolon with
              | inl s => (s, m)
              | inr (value, pos) =>
                  let m := <[key := value]> m in
                  match pos with
                  | None => (Status_OK, m)
                  | Some pos => map_loop fuel (tail pos) m
                  end
              end
      end
  | _, _ => (Status_OK, m)
  end.

(** [while (opts.size() > 2 && opts[0] == '{' && opts[opts.size() - 1] == '}')]: each round makes
    the string shorter. *)
Fixpoint strip_braces (fuel : nat) (opts : bytes) : bytes :=
  match fuel with
  | S fuel =>
      if (size opts >? 2) && bool_decide (head opts = Some open_brace) && bool_decide (last opts = Some close_brace)
      then strip_braces fuel (trim (ztake (size opts - 2) (zdrop 1 opts)))
      else opts
  | O => opts
  end.

Definition StringToMap (opts_str : bytes) (opts_map : gmap bytes bytes) : Status * gmap bytes bytes :=
  let opts := trim opts_str in
  let opts := strip_braces (length opts) opts in
  map_loop (length opts) opts opts_map.

(** [nullptr] and [id] *)
Definition kNullptrString : bytes := [x6e; x75; x6c; x6c; x70; x74; x72].
Definition kIdPropName : bytes := [x69; x64].

(** The result is the status, [*id] and [*props]. *)
Definition GetOptionsMap (value default_id : bytes) (props : gmap bytes bytes) : Status * bytes * gmap bytes bytes :=
  if bool_decide (value = []) || bool_decide (value = kNullptrString) then (Status_OK, default_id, props)
  else
    match cut equals_sign value with
    | (_, None) => (Status_OK, value, props)
    | (_, Some _) =>
        let '(status, props) := StringToMap value props in
        if negb (ok status) then (Status_OK, value, ∅)
        else
          match props !! kIdPropName with
          | Some i => (status, if bool_decide (i = kNullptrString) then [] else i, delete kIdPropName props)
          | None =>
              if negb (bool_decide (default_id = [])) then (status, default_id, props)
              else (status, value, ∅)
          end
    end.

(** ** White space *)

Lemma trim_front_blank p s :
  blank p -> s <> [] -> (forall c, head s = Some c -> isspace c = false) -> trim_front (p ++ s) = s.
Proof.
  intros Hp Hs Hh. induction Hp as [|c p Hc _ IH]; [by apply trim_front_id|]. cbn [app].
  destruct (p ++ s) as [|d t] eqn:E; [by destruct p|].
  change (trim_front (c :: d :: t)) with (if isspace c then trim_front (d :: t) else c :: d :: t).
  by rewrite Hc.
Qed.

Lemma trim_blanks p s q : blank p -> blank q -> tight s -> s <> [] -> trim (p ++ s ++ q) = s.
Proof.
  intros Hp Hq [Hh Hl] Hs. unfold trim. rewrite trim_front_blank; [|done|by destruct s|by destruct s].
  rewrite rev_app_distr, trim_front_blank; [apply rev_involutive|by apply blank_rev| |by rewrite head_rev].
  intros E. apply Hs. by rewrite <- (rev_involutive s), E.
Qed.

Lemma skip_space_id s : (forall c, head s = Some c -> isspace c = false) -> skip_space s = s.
Proof. destruct s as [|c s]; [done|]. intros H. cbn. by rewrite (H c eq_refl). Qed.

(** ** Braces *)

Definition is_brace (c : byte) : Prop := c = open_brace \/ c = close_brace.

Inductive balanced : bytes -> Prop :=
| balanced_nil : balanced []
| balanced_char c s : ~ is_brace c -> balanced s -> balanced (c :: s)
| balanced_braces a s : balanced a -> balanced s -> balanced (open_brace :: a ++ close_brace :: s).

Lemma balanced_app s t : balanced s -> balanced t -> balanced (s ++ t).
Proof.
  intros Hs Ht. induction Hs as [|c s Hc _ IH|a s Ha _ _ IH]; [done|by constructor|].
  cbn [app]. rewrite <- app_assoc. by constructor.
Qed.

Lemma balanced_plain s : Forall (fun c => ~ is_brace c) s -> balanced s.
Proof. induction 1; by constructor. Qed.

Lemma balanced_wrap s : balanced s -> balanced (open_brace :: s ++ [close_brace]).
Proof. intros H. apply balanced_braces; [done|constructor]. Qed.

Lemma matching_brace_balanced n b t :
  1 <= n -> balanced b -> matching_brace n (b ++ t) = prod_map (app b) id <$> matching_brace n t.
Proof.
  intros Hn Hb. revert n t Hn. induction Hb as [|c s Hc _ IH|a s _ IHa _ IHs]; intros n t Hn.
  - cbn. by destruct (matching_brace n t) as [[]|].
  - cbn [app matching_brace]. rewrite !bool_decide_eq_false_2 by (unfold is_brace in Hc; tauto).
    rewrite IH by done. by destruct (matching_brace n t) as [[]|].
  - cbn [app]. rewrite <- app_assoc. cbn [app matching_brace]. rewrite bool_decide_eq_true_2 by done.
    rewrite IHa by lia. cbn [matching_brace]. rewrite bool_decide_eq_false_2, bool_decide_eq_true_2 by done.
    replace (n + 1 - 1 =? 0) with false by lia. replace (n + 1 - 1) with n by lia. rewrite IHs by done.
    destruct (matching_brace n t) as [[x y]|]; [|done]. cbn. unfold prod_map. cbn.
    by rewrite <- !app_assoc.
Qed.

Lemma matching_brace_close b t : balanced b -> matching_brace 1 (b ++ close_brace :: t) = Some (b, t).
Proof.
  intros Hb. rewrite matching_brace_balanced by (done || lia). cbn [matching_brace].
  rewrite bool_decide_eq_false_2, bool_decide_eq_true_2 by done. change (1 - 1 =? 0) with true.
  cbn. unfold prod_map. cbn. by rewrite app_nil_r.
Qed.

(** ** Printed values *)

(** A text that can stand for a value before [delimiter], and the token that it gives. *)
Inductive value_text (delimiter : byte) : bytes -> bytes -> Prop :=
| text_simple w :
    tight w -> Forall (fun c => c <> delimiter) w -> head w <> Some open_brace -> value_text delimiter w w
| text_braced b :
    tight b -> balanced b -> value_text delimiter (open_brace :: b ++ [close_brace]) b.

Lemma NextToken_text d w t rest :
  isspace d = false -> d <> open_brace -> value_text d w t ->
  NextToken (w ++ d :: rest) d = inr (t, Some (d :: rest)).
Proof.
  intros Hd Hb [w' Ht Hf Hh|b Ht Hbal]; unfold NextToken.
  - rewrite skip_space_id.
    2:{ intros c Hc. destruct w' as [|x w']; [by injection Hc as <-|]. by apply (proj1 Ht). }
    pose proof (cut_app d w' rest Hf) as Hcut.
    assert (Hop : head (w' ++ d :: rest) <> Some open_brace) by (destruct w'; [cbn; congruence|done]).
    destruct (w' ++ d :: rest) as [|c s] eqn:E; [by destruct w'|].
    rewrite bool_decide_eq_false_2 by (intros ->; by apply Hop). rewrite Hcut. by rewrite trim_tight.
  - cbn [app]. rewrite skip_space_id by (intros c [= <-]; done). rewrite bool_decide_eq_true_2 by done.
    rewrite <- app_assoc. cbn [app]. rewrite matching_brace_close by done.
    rewrite skip_space_id by (intros c [= <-]; done). rewrite bool_decide_eq_true_2 by done. by rewrite trim_tight.
Qed.

(** At the end of the string there is no further position, or the end itself. *)
Lemma NextToken_end d w t :
  value_text d w t -> exists e, NextToken w d = inr (t, e) /\ (e = None \/ e = Some []).
Proof.
  intros [w' Ht Hf Hh|b Ht Hbal]; unfold NextToken.
  - rewrite skip_space_id by apply (proj1 Ht). destruct w' as [|c s]; [by exists None; auto|].
    rewrite bool_decide_eq_false_2 by (intros ->; by apply Hh). rewrite cut_none, trim_tight by done.
    exists None. auto.
  - rewrite skip_space_id by (intros c [= <-]; done). rewrite bool_decide_eq_true_2 by done.
    rewrite matching_brace_close by done. cbn [skip_space]. rewrite trim_tight by done. exists (Some []). auto.
Qed.

(** ** Printed maps *)

(** What [SerializeType] appends for each option. *)
Definition print_pairs (delimiter : bytes) (l : list (bytes * bytes)) : bytes :=
  l ≫= fun '(k, w) => k ++ equals_sign :: w ++ delimiter.

Definition key_char (c : byte) : Prop :=
  c <> equals_sign /\ c <> semicolon /\ ~ is_brace c.

Definition key_text (k : bytes) : Prop := k <> [] /\ tight k /\ Forall key_char k.

Lemma key_end_text p k rest :
  blank p -> Forall key_char k -> key_end (p ++ k ++ equals_sign :: rest) = Some (p ++ k, equals_sign :: rest).
Proof.
  intros Hp Hk. rewrite app_assoc. assert (H : Forall key_char (p ++ k)).
  { apply Forall_app. split; [|done]. eapply Forall_impl; [exact Hp|]. intros c Hc.
    unfold key_char, is_brace. destruct c; try discriminate Hc; split_and!; try discriminate; by intros [|]. }
  induction H as [|c s (H1 & H2 & H3) _ IH]; [done|]. cbn [app key_end].
  rewrite !bool_decide_eq_false_2 by (unfold is_brace in H3; tauto). cbn [orb]. by rewrite IH.
Qed.

Section print.
Context (sp : bytes) (Hsp : blank sp).

(** The text without the white space of the last delimiter *)
Fixpoint print_core (l : list (bytes * bytes)) : bytes :=
  match l with
  | [] => []
  | [(k, w)] => k ++ equals_sign :: w ++ [semicolon]
  | (k, w) :: l => k ++ equals_sign :: w ++ semicolon :: sp ++ print_core l
  end.

Definition pair_ok (l : bytes * bytes) (m : bytes * bytes) : Prop :=
  fst l = fst m /\ key_text (fst l) /\ value_text semicolon (snd l) (snd m).

Definition insert_pairs (m : gmap bytes bytes) (l : list (bytes * bytes)) : gmap bytes bytes :=
  foldl (fun m '(k, t) => <[k := t]> m) m l.

Lemma print_core_pairs l : l <> [] -> print_pairs (semicolon :: sp) l = print_core l ++ sp.
Proof.
  induction l as [|[k w] l IH]; intros Hl; [done|]. unfold print_pairs in *. cbn [mbind list_bind].
  destruct l as [|x l]; [|rewrite IH by done]; cbn [print_core mbind list_bind]; [rewrite app_nil_r|];
    repeat (rewrite <- ?app_assoc; cbn [app]); done.
Qed.

Lemma map_loop_one fuel p k w t rest m :
  blank p -> key_text k -> value_text semicolon w t ->
  map_loop (S fuel) (p ++ k ++ equals_sign :: w ++ semicolon :: rest) m = map_loop fuel rest (<[k := t]> m).
Proof.
  intros Hp (Hne & Ht & Hk) Hw. cbn [map_loop].
  pose proof (key_end_text p k (w ++ semicolon :: rest) Hp Hk) as He.
  destruct (p ++ k ++ equals_sign :: w ++ semicolon :: rest) eqn:E.
  { destruct p; [|done]. destruct k; done. }
  rewrite He. cbn [head tail]. rewrite bool_decide_eq_true_2 by done. cbn [negb].
  assert (Hkey : trim (p ++ k) = k).
  { rewrite <- (app_nil_r k) at 1. apply trim_blanks; done || constructor. }
  rewrite Hkey, bool_decide_eq_false_2 by done. rewrite (NextToken_text semicolon w t) by done. done.
Qed.

Lemma map_loop_print fuel p l l' m :
  blank p -> Forall2 pair_ok l l' -> (length l <= fuel)%nat ->
  (l = [] -> p = []) -> map_loop fuel (p ++ print_core l) m = (Status_OK, insert_pairs m l').
Proof.
  intros Hp Hl. revert fuel p m Hp. induction Hl as [|[k w] [k' t] l l' (Hk & Hkt & Hw) Hl IH]; intros fuel p m Hp Hf He.
  - rewrite He by done. by destruct fuel.
  - cbn in Hk, Hkt, Hw. subst k'. destruct fuel as [|fuel]; [cbn in Hf; lia|]. cbn [length] in Hf.
    destruct l as [|x l]; cbn [print_core].
    + inversion Hl; subst. rewrite (map_loop_one _ _ _ _ t) by done. by destruct fuel.
    + rewrite (map_loop_one _ _ _ _ t) by done. rewrite IH; [done|done|lia|done].
Qed.
End print.

Lemma tight_app s t : s <> [] -> t <> [] -> tight s -> tight t -> tight (s ++ t).
Proof.
  intros Hs Ht [Hh _] [_ Hl]. split.
  - destruct s; [done|]. exact Hh.
  - destruct t as [|x t] using rev_ind; [done|]. intros c. rewrite app_assoc, last_snoc. intros [= <-].
    apply Hl. by rewrite last_snoc.
Qed.

(** The first and the last character decide. *)
Lemma tight_ends a s b : isspace a = false -> isspace b = false -> tight (a :: s ++ [b]).
Proof.
  intros Ha Hb. split; [by intros c [= <-]|]. intros c. rewrite app_comm_cons, last_snoc. by intros [= <-].
Qed.

Lemma print_core_shape sp l l' :
  Forall2 pair_ok l l' -> l <> [] -> exists c s, print_core sp l = c :: s ++ [semicolon] /\ isspace c = false /\ key_char c.
Proof.
  induction 1 as [|[k w] [k' t] l l' (Hk & (Hne & Ht & Hkc) & Hw) Hl IH]; intros Hnil; [done|].
  destruct k as [|c k]; [done|]. exists c. cbn in Hkc, Ht. inversion Hkc as [|? ? Hc _]; subst.
  assert (isspace c = false) by (by apply (proj1 Ht)). destruct l as [|x l].
  - exists (k ++ equals_sign :: w). cbn [print_core app]. by rewrite <- app_assoc.
  - destruct IH as (d & s & E & _); [done|]. exists (k ++ equals_sign :: w ++ semicolon :: sp ++ d :: s).
    cbn [print_core app] in E |- *. rewrite E. split_and!; [|done..].
    repeat (rewrite <- ?app_assoc; cbn [app]). done.
Qed.

Lemma print_core_length sp l : (length l <= length (print_core sp l))%nat.
Proof.
  induction l as [|[k w] l IH]; [done|]. destruct l as [|x l].
  - cbn [print_core length]. rewrite length_app. cbn. lia.
  - change (print_core sp ((k, w) :: x :: l)) with (k ++ equals_sign :: w ++ semicolon :: sp ++ print_core sp (x :: l)).
    rewrite length_app. cbn [length]. rewrite length_app. cbn [length]. rewrite length_app. cbn [length] in IH. lia.
Qed.

Lemma map_loop_print_all sp l l' m :
  blank sp -> Forall2 pair_ok l l' ->
  map_loop (length (print_core sp l)) (print_core sp l) m = (Status_OK, insert_pairs m l').
Proof.
  intros Hsp Hl. change (print_core sp l) with ([] ++ print_core sp l) at 2.
  apply map_loop_print; [done|constructor|done|apply print_core_length|done].
Qed.

Lemma strip_braces_id fuel s : head s <> Some open_brace -> strip_braces fuel s = s.
Proof.
  intros H. destruct fuel; [done|]. cbn [strip_braces].
  rewrite (bool_decide_eq_false_2 (head s = Some open_brace)) by done. by rewrite andb_false_r.
Qed.

Lemma strip_braces_wrap s :
  s <> [] -> tight s -> head s <> Some open_brace ->
  strip_braces (length (open_brace :: s ++ [close_brace])) (open_brace :: s ++ [close_brace]) = s.
Proof.
  intros Hs Ht Hh. cbn [length strip_braces].
  assert (Hsz : size (open_brace :: s ++ [close_brace]) = size s + 2) by (rewrite size_cons, size_app; unfold size; cbn; lia).
  assert (0 < size s) by (destruct s; [done|rewrite size_cons; pose proof (size_nonneg s); lia]).
  rewrite Hsz. replace (size s + 2 >? 2) with true by lia.
  rewrite bool_decide_eq_true_2 by done. rewrite app_comm_cons, last_snoc, bool_decide_eq_true_2 by done. cbn [andb].
  replace (zdrop 1 ((open_brace :: s) ++ [close_brace])) with (s ++ [close_brace]) by done.
  replace (size s + 2 - 2) with (size s) by lia. rewrite ztake_app, trim_tight by done. by apply strip_braces_id.
Qed.

(** What [SerializeType] prints with a delimiter that is a semicolon and white space is taken
    apart again, also in braces. *)
Lemma StringToMap_print sp l l' m :
  blank sp -> Forall2 pair_ok l l' ->
  StringToMap (print_pairs (semicolon :: sp) l) m = (Status_OK, insert_pairs m l').
Proof.
  intros Hsp Hl. destruct l as [|x l]; [by inversion Hl|]. rewrite print_core_pairs by done.
  destruct (print_core_shape sp (x :: l) l' Hl) as (c & s & E & Hc & Hk & Hk2 & Hk3); [done|]. unfold StringToMap.
  assert (Ht : trim (print_core sp (x :: l) ++ sp) = print_core sp (x :: l)).
  { apply (trim_blanks []); [constructor|done| |by rewrite E]. rewrite E. by apply tight_ends. }
  rewrite Ht, strip_braces_id.
  - by apply map_loop_print_all.
  - rewrite E. cbn. unfold is_brace in Hk3. intros [= ->]. tauto.
Qed.

Lemma StringToMap_print_wrapped sp l l' m :
  blank sp -> Forall2 pair_ok l l' -> l <> [] ->
  StringToMap (open_brace :: print_core sp l ++ [close_brace]) m = (Status_OK, insert_pairs m l').
Proof.
  intros Hsp Hl Hne. destruct (print_core_shape sp l l' Hl) as (c & s & E & Hc & Hk & Hk2 & Hk3); [done|].
  unfold StringToMap. rewrite trim_tight by (by apply tight_ends). rewrite strip_braces_wrap.
  - by apply map_loop_print_all.
  - by rewrite E.
  - rewrite E. by apply tight_ends.
  - rewrite E. cbn. unfold is_brace in Hk3. intros [= ->]. tauto.
Qed.

(** ** The loops end *)

Lemma skip_space_length s : (length (skip_space s) <= length s)%nat.
Proof. induction s as [|c s IH]; cbn; [done|]. destruct (isspace c); cbn; lia. Qed.

Lemma matching_brace_length n s a r : matching_brace n s = Some (a, r) -> (length r < length s)%nat.
Proof.
  revert n a. induction s as [|c s IH]; intros n a H; [done|]. cbn [matching_brace] in H.
  repeat case_match; try (by simplify_eq; cbn; lia);
    apply fmap_Some in H as ([a' r'] & H & [= -> ->]); apply IH in H; cbn; lia.
Qed.

Lemma cut_length d s a r : cut d s = (a, Some r) -> (length r < length s)%nat.
Proof.
  revert a. induction s as [|c s IH]; intros a H; [done|]. cbn in H. repeat case_match; simplify_eq; [cbn; lia|].
  specialize (IH _ eq_refl). cbn. lia.
Qed.

Lemma NextToken_length s d t e : NextToken s d = inr (t, Some e) -> (length e <= length s)%nat.
Proof.
  unfold NextToken. intros H. pose proof (skip_space_length s) as Hs. destruct (skip_space s) as [|c u]; [done|].
  case_bool_decide.
  - destruct (matching_brace 1 u) as [[a r]|] eqn:E; [|done]. apply matching_brace_length in E.
    pose proof (skip_space_length r). cbn in Hs. destruct (skip_space r) as [|x v]; [simplify_eq; cbn; lia|].
    case_bool_decide; simplify_eq. lia.
  - destruct (cut d (c :: u)) as [a [r|]] eqn:E; [|done]. apply cut_length in E. simplify_eq. cbn in *. lia.
Qed.

Lemma key_end_length s k r : key_end s = Some (k, r) -> (length r <= length s)%nat.
Proof.
  revert k. induction s as [|c s IH]; intros k H; [done|]. cbn [key_end] in H. case_match; [by simplify_eq|].
  apply fmap_Some in H as ([a' r'] & H & [= -> ->]). apply IH in H. cbn. lia.
Qed.

(** The bound of the loop is enough: it does the same with any larger one. *)
Lemma map_loop_enough fuel fuel' s m :
  (length s <= fuel)%nat -> (length s <= fuel')%nat -> map_loop fuel s m = map_loop fuel' s m.
Proof.
  revert fuel' s m. induction fuel as [|fuel IH]; intros fuel' s m H H'.
  { destruct s; [by destruct fuel'|cbn in H; lia]. }
  destruct s as [|c s]; [by destruct fuel'|]. destruct fuel' as [|fuel']; [cbn in H'; lia|]. cbn [map_loop].
  destruct (key_end (c :: s)) as [[k r]|] eqn:E; [|done]. apply key_end_length in E.
  case_bool_decide as Hr; [|done]. cbn [negb]. case_bool_decide; [done|].
  destruct r as [|x r]; [done|]. cbn [tail].
  destruct (NextToken r semicolon) as [|[t [e|]]] eqn:En; [done| |done]. apply NextToken_length in En.
  cbn [length] in E, H, H'. apply IH; (destruct e; cbn in *; lia).
Qed.

Lemma strip_braces_done fuel s :
  (length s <= fuel)%nat -> let t := strip_braces fuel s in
  ~ (2 < size t /\ head t = Some open_brace /\ last t = Some close_brace).
Proof.
  revert s. induction fuel as [|fuel IH]; intros s H; cbn [strip_braces].
  - destruct s; [|cbn in H; lia]. cbn. intros [? _]. unfold size in *. cbn in *. lia.
  - match goal with |- context [if ?b then _ else _] => destruct b eqn:E end.
    + apply IH. destruct (trim_spec (ztake (size s - 2) (zdrop 1 s))) as (p & q & Et & _).
      assert (Hz : (length (ztake (size s - 2) (zdrop 1 s)) <= length s - 2)%nat).
      { unfold ztake, size. rewrite length_take. lia. }
      rewrite Et, !length_app in Hz. apply andb_true_iff in E as [E _]. apply andb_true_iff in E as [E _].
      unfold size in E. lia.
    + intros (H1 & H2 & H3). rewrite !bool_decide_eq_true_2 in E by done. lia.
Qed.
