(* ===== verification/OptionTypes.v ===== *)
(** * Typed options

    [include/xiaodb/utilities/options_type.h] and [options/options_helper.cc]: how an options
    object is written as text, read from text and compared, driven by a map from option names to
    [OptionTypeInfo]s. The functions that the factories [Enum], [Struct], [Array], [Vector] and
    [StringMap] store_field in an info are represented by the constructors of [Funcs].

    An object is a [Value]; its fields are found by their offset. A pointer to a value is an
    [option]: [None] is the null pointer. Options that are objects of their own ([kConfigurable],
    [kCustomizable], [kEnv]) and functions other than those of the factories are left out. *)

From stdpp Require Import gmap.
From S2P Require Import Prelude.
From S2P Require Import Status.
From S2P Require Import Slice.
From S2P Require Import StringUtil.
From S2P Require Import OptionString.

(** ** Data *)

Definition text (s : string) : bytes := String.list_byte_of_string s.
Definition message (s : bytes) : string := String.string_of_list_byte s.

Inductive OptionType : Set :=
| kBoolean | kInt | kInt32T | kInt64T | kUInt | kUInt8T | kUInt32T | kUInt64T | kSizeT | kDouble
| kAtomicInt | kString | kCompactionStyle | kCompactionPri | kCompressionType
| kCompactionStopStyle | kChecksumType | kEncodingType | kEnum | kStruct | kVector
| kEncodedString | kTemperature | kArray | kStringMap | kUnknown.

Inductive OptionVerificationType : Set :=
| kNormal | kByName | kByNameAllowNull | kByNameAllowFromNull | kDeprecated | kAlias.

#[global] Instance OptionVerificationType_eq_dec : EqDecision OptionVerificationType.
Proof. solve_decision. Defined.

Definition kSanityLevelNone : Z := 0x01.
Definition kSanityLevelLooselyCompatible : Z := 0x02.
Definition kSanityLevelExactMatch : Z := 0xFF.

(** [OptionTypeFlags] *)
Definition kCompareDefault : Z := 0x0.
Definition kCompareExact : Z := kSanityLevelExactMatch.
Definition kMutable : Z := 0x0100.
Definition kDontSerialize : Z := 0x2000.

(** [CompressionType] has no [kLZ4HCCompression], which the map of its names mentions. *)
Definition compaction_style_string_map : list (bytes * Z) :=
  [(text "kCompactionStyleLevel", 0); (text "kCompactionStyleUniversal", 1); (text "kCompactionStyleFIFO", 2);
   (text "kCompactionStyleNone", 3)].
Definition compaction_pri_string_map : list (bytes * Z) :=
  [(text "kByCompensatedSize", 0); (text "kOldestLargestSeqFirst", 1); (text "kOldestSmallestSeqFirst", 2);
   (text "kMinOverlappingRatio", 3); (text "kRoundRobin", 4)].
Definition compression_type_string_map : list (bytes * Z) :=
  [(text "kNoCompression", 0); (text "kSnappyCompression", 1); (text "kZlibCompression", 2);
   (text "kBZip2Compression", 3); (text "kLZ4Compression", 4); (text "kXpressCompression", 6);
   (text "kZSTD", 7); (text "kDisableCompressionOption", 255)].
Definition compaction_stop_style_string_map : list (bytes * Z) :=
  [(text "kCompactionStopStyleSimilarSize", 0); (text "kCompactionStopStyleTotalSize", 1)].
Definition checksum_type_string_map : list (bytes * Z) :=
  [(text "kNoChecksum", 0); (text "kCRC32c", 1); (text "kxxHash", 2); (text "kxxHash64", 3); (text "kXXH3", 4)].
Definition encoding_type_string_map : list (bytes * Z) := [(text "kPlain", 0); (text "kPrefix", 1)].
Definition temperature_string_map : list (bytes * Z) :=
  [(text "kUnknown", 0); (text "kHot", 4); (text "kWarm", 8); (text "kCold", 12)].

Record ConfigOptions : Set := mkConfig {
  ignore_unknown_options : bool;
  ignore_unsupported_options : bool;
  input_strings_escaped : bool;
  mutable_options_only : bool;
  delimiter : bytes;
  sanity_level : Z;
}.

Definition ConfigOptions_new : ConfigOptions := mkConfig false true true false [semicolon] kSanityLevelExactMatch.

Definition IsCheckEnabled (c : ConfigOptions) (level : Z) : bool :=
  (level >? kSanityLevelNone) && (level <=? sanity_level c).

Definition set_delimiter (d : bytes) (c : ConfigOptions) : ConfigOptions :=
  mkConfig (ignore_unknown_options c) (ignore_unsupported_options c) (input_strings_escaped c)
    (mutable_options_only c) d (sanity_level c).
Definition set_ignore_unsupported (b : bool) (c : ConfigOptions) : ConfigOptions :=
  mkConfig (ignore_unknown_options c) b (input_strings_escaped c) (mutable_options_only c) (delimiter c) (sanity_level c).

(** What is at an address. Enumerators are numbers, a [double] is its bit pattern, arrays and
    vectors are lists, and a [std::map] is the list of its pairs in the order of the keys. *)
Inductive Value : Set :=
| VBool (b : bool)
| VInt (z : Z)
| VDouble (bits : Z)
| VString (s : bytes)
| VList (l : list Value)
| VMap (m : list (bytes * bytes))
| VObject (fields : list (Z * Value)).

Inductive OptionTypeInfo : Set :=
| mkInfo (offset : Z) (funcs : Funcs) (type : OptionType) (verification : OptionVerificationType) (flags : Z)
with Funcs : Set :=
| NoFuncs
| EnumFuncs (map : option (list (bytes * Z)))
| StructFuncs (struct_name : bytes) (struct_map : list (bytes * OptionTypeInfo))
| ArrayFuncs (kSize : nat) (elem_info : OptionTypeInfo) (separator : byte)
| VectorFuncs (elem_info : OptionTypeInfo) (separator : byte) (elem : Value)
| StringMapFuncs (kv_separator item_separator : byte).

Definition offset_ (i : OptionTypeInfo) : Z := let 'mkInfo o _ _ _ _ := i in o.
Definition funcs_ (i : OptionTypeInfo) : Funcs := let 'mkInfo _ f _ _ _ := i in f.
Definition type_ (i : OptionTypeInfo) : OptionType := let 'mkInfo _ _ t _ _ := i in t.
Definition verification_ (i : OptionTypeInfo) : OptionVerificationType := let 'mkInfo _ _ _ v _ := i in v.
Definition flags_ (i : OptionTypeInfo) : Z := let 'mkInfo _ _ _ _ f := i in f.

(** The factories; the default values of a new element are part of the info of a vector. *)
Definition Enum (offset : Z) (map : option (list (bytes * Z))) (flags : Z) (v : OptionVerificationType) : OptionTypeInfo :=
  mkInfo offset (EnumFuncs map) kEnum v flags.
Definition Struct (struct_name : bytes) (struct_map : list (bytes * OptionTypeInfo)) (offset : Z)
    (v : OptionVerificationType) (flags : Z) : OptionTypeInfo :=
  mkInfo offset (StructFuncs struct_name struct_map) kStruct v flags.
Definition Array (kSize : nat) (offset : Z) (v : OptionVerificationType) (flags : Z) (elem_info : OptionTypeInfo)
    (separator : byte) : OptionTypeInfo :=
  mkInfo offset (ArrayFuncs kSize elem_info separator) kArray v flags.
Definition Vector (offset : Z) (v : OptionVerificationType) (flags : Z) (elem_info : OptionTypeInfo) (separator : byte)
    (elem : Value) : OptionTypeInfo :=
  mkInfo offset (VectorFuncs elem_info separator elem) kVector v flags.
Definition StringMap (offset : Z) (v : OptionVerificationType) (flags : Z) (kv_separator item_separator : byte) : OptionTypeInfo :=
  mkInfo offset (StringMapFuncs kv_separator item_separator) kStringMap v flags.

Definition IsEnabled (i : OptionTypeInfo) (otf : Z) : bool := Z.land (flags_ i) otf =? otf.
Definition IsMutable (i : OptionTypeInfo) : bool := IsEnabled i kMutable.
Definition IsVerified (i : OptionTypeInfo) (ovf : OptionVerificationType) : bool := bool_decide (verification_ i = ovf).
Definition IsDeprecated (i : OptionTypeInfo) : bool := IsVerified i kDeprecated.
Definition IsAlias (i : OptionTypeInfo) : bool := IsVerified i kAlias.
Definition IsByName (i : OptionTypeInfo) : bool :=
  match verification_ i with kByName | kByNameAllowNull | kByNameAllowFromNull => true | _ => false end.
Definition IsStruct (i : OptionTypeInfo) : bool := match type_ i with kStruct => true | _ => false end.

Definition GetSanityLevel (i : OptionTypeInfo) : Z :=
  if IsDeprecated i || IsAlias i then kSanityLevelNone
  else
    let m := Z.land (flags_ i) kCompareExact in
    if m =? kCompareDefault then kSanityLevelExactMatch else m.

Definition ShouldSerialize (i : OptionTypeInfo) : bool :=
  if IsDeprecated i || IsAlias i then false else if IsEnabled i kDontSerialize then false else true.

(** What the standard library does with [double]s and in which order a hash map is traversed is
    not fixed here. *)
Class Platform := {
  print_double : Z -> bytes;            (** [std::to_string] *)
  parse_double : bytes -> option Z;     (** [std::stod] *)
  doubles_close : Z -> Z -> bool;       (** [fabs(a - b) < 0.00001] *)
  hash_order : gmap bytes bytes -> list (bytes * bytes);
}.

Class PlatformLaws `{Platform} : Prop :=
  hash_order_perm m : hash_order m ≡ₚ map_to_list m.

(** ** Memory *)

Fixpoint field_get (off : Z) (fs : list (Z * Value)) : option Value :=
  match fs with [] => None | (o, v) :: fs => if o =? off then Some v else field_get off fs end.
Fixpoint field_set (off : Z) (v : Value) (fs : list (Z * Value)) : list (Z * Value) :=
  match fs with
  | [] => []
  | (o, w) :: fs => if o =? off then (o, v) :: fs else (o, w) :: field_set off v fs
  end.

(** [GetOffset] and what is read or written there *)
Definition load_field (off : Z) (base : option Value) : option Value :=
  match base with Some (VObject fs) => field_get off fs | _ => None end.
Definition store_field (off : Z) (v : option Value) (base : option Value) : option Value :=
  match base, v with Some (VObject fs), Some v => Some (VObject (field_set off v fs)) | _, _ => base end.

(** ** Single options *)

Definition InvalidArgument2 (m : string) (m2 : bytes) : Status := mkStatus kInvalidArgument kNone m (message m2).
Definition NotFound2 (m : string) (m2 : bytes) : Status := mkStatus kNotFound kNone m (message m2).
Definition NotSupported2 (m : string) (m2 : bytes) : Status := mkStatus kNotSupported kNone m (message m2).
Definition IsNotSupported (s : Status) : bool := bool_decide (code s = kNotSupported).

Fixpoint find_name {A} (name : bytes) (m : list (bytes * A)) : option A :=
  match m with [] => None | (k, a) :: m => if bool_decide (k = name) then Some a else find_name name m end.

Definition ParseEnum (type_map : list (bytes * Z)) (type : bytes) : option Z := find_name type type_map.
Fixpoint SerializeEnum (type_map : list (bytes * Z)) (type : Z) : option bytes :=
  match type_map with [] => None | (k, v) :: m => if v =? type then Some k else SerializeEnum m type end.

(** [Slice::DecodeHex] into a string, whose contents remain if the length is odd, and which has
    the bytes up to the first bad digit if there is one. *)
Fixpoint decode_hex_pairs (s : bytes) : bytes :=
  match s with
  | c1 :: c2 :: s =>
      if fromHex c1 <? 0 then [] else if fromHex c2 <? 0 then []
      else byte_of_Z (Z.lor (Z.shiftl (fromHex c1) 4) (fromHex c2)) :: decode_hex_pairs s
  | _ => []
  end.
Definition DecodeHex_into (old : bytes) (s : bytes) : bytes :=
  if negb (size s mod 2 =? 0) then old else decode_hex_pairs s.

(** A parser of the standard library throws, [ParseOptionHelper] returns false, or it has stored
    a value and returns true. *)
Inductive ParseOutcome : Set := Thrown | Refused | Stored (v : Value).

Definition stored_or_thrown {A} (f : A -> Value) (r : option A) : ParseOutcome :=
  match r with Some a => Stored (f a) | None => Thrown end.
Definition stored_or_refused {A} (f : A -> Value) (r : option A) : ParseOutcome :=
  match r with Some a => Stored (f a) | None => Refused end.

Section platform.
Context `{Platform}.

Definition ParseOptionHelper (cur : Value) (opt_type : OptionType) (value : bytes) : ParseOutcome :=
  match opt_type with
  | kBoolean => stored_or_thrown VBool (ParseBoolean value)
  | kInt => stored_or_thrown VInt (ParseInt value)
  | kInt32T => stored_or_thrown VInt (ParseInt32 value)
  | kInt64T => stored_or_thrown VInt (ParseInt64 value)
  | kUInt => stored_or_thrown VInt (ParseUint32 value)
  | kUInt8T => stored_or_thrown VInt (ParseUint8 value)
  | kUInt32T => stored_or_thrown VInt (ParseUint32 value)
  | kUInt64T => stored_or_thrown VInt (ParseUint64 value)
  | kSizeT => stored_or_thrown VInt (ParseSizeT value)
  | kAtomicInt => stored_or_thrown VInt (ParseInt value)
  | kString => Stored (VString value)
  | kDouble => stored_or_thrown VDouble (parse_double value)
  | kCompactionStyle => stored_or_refused VInt (ParseEnum compaction_style_string_map value)
  | kCompactionPri => stored_or_refused VInt (ParseEnum compaction_pri_string_map value)
  | kCompressionType => stored_or_refused VInt (ParseEnum compression_type_string_map value)
  | kChecksumType => stored_or_refused VInt (ParseEnum checksum_type_string_map value)
  | kEncodingType => stored_or_refused VInt (ParseEnum encoding_type_string_map value)
  | kCompactionStopStyle => stored_or_refused VInt (ParseEnum compaction_stop_style_string_map value)
  | kEncodedString => Stored (VString (DecodeHex_into (match cur with VString s => s | _ => [] end) value))
  | kTemperature => stored_or_refused VInt (ParseEnum temperature_string_map value)
  | _ => Refused
  end.

(** The types of the value and of the option agree. *)
Definition SerializeSingleOptionHelper (v : Value) (opt_type : OptionType) : option bytes :=
  match opt_type, v with
  | kBoolean, VBool b => Some (if b then text "true" else text "false")
  | (kInt | kInt32T | kInt64T | kUInt | kUInt8T | kUInt32T | kUInt64T | kSizeT | kAtomicInt), VInt z => Some (to_string z)
  | kDouble, VDouble d => Some (print_double d)
  | kString, VString s => Some (EscapeOptionString s)
  | kCompactionStyle, VInt z => SerializeEnum compaction_style_string_map z
  | kCompactionPri, VInt z => SerializeEnum compaction_pri_string_map z
  | kCompressionType, VInt z => SerializeEnum compression_type_string_map z
  | kChecksumType, VInt z => SerializeEnum checksum_type_string_map z
  | kEncodingType, VInt z => SerializeEnum encoding_type_string_map z
  | kCompactionStopStyle, VInt z => SerializeEnum compaction_stop_style_string_map z
  | kEncodedString, VString s => Some (ToString true s)
  | kTemperature, VInt z => SerializeEnum temperature_string_map z
  | _, _ => None
  end.

(** ** Reading *)

(** [OptionTypeInfo::Parse] of an info that is known: the configuration, the name, the text and
    the address. *)
Definition Parser : Type := ConfigOptions -> bytes -> bytes -> option Value -> Status * option Value.

Definition dot : byte := x2e.

(** An element of a map of infos, with its parser, and the name under which it is to be parsed. *)
Definition Find {A} (info : A -> OptionTypeInfo) (opt_name : bytes) (opt_map : list (bytes * A)) : option (A * bytes) :=
  match find_name opt_name opt_map with
  | Some a => Some (a, opt_name)
  | None =>
      match cut dot opt_name with
      | (short, Some rest) =>
          if bool_decide (short = []) then None
          else
            match find_name short opt_map with
            | Some a => if IsStruct (info a) then Some (a, rest) else None
            | None => None
            end
      | (_, None) => None
      end
  end.

Abbreviation parsers := (list (bytes * (OptionTypeInfo * Parser))).

(** [ParseType] of a map, in the order of its traversal; [None] as [unused] is the null pointer. *)
Fixpoint ParseType_pairs (c : ConfigOptions) (type_map : parsers) (opts : list (bytes * bytes)) (obj : option Value)
    (unused : option (gmap bytes bytes)) : Status * option Value * option (gmap bytes bytes) :=
  match opts with
  | [] => (Status_OK, obj, unused)
  | (k, v) :: opts =>
      match Find fst k type_map with
      | Some ((info, parse), opt_name) =>
          let '(status, fld) := parse c opt_name v (load_field (offset_ info) obj) in
          let obj := store_field (offset_ info) fld obj in
          if negb (ok status) then (status, obj, unused) else ParseType_pairs c type_map opts obj unused
      | None =>
          match unused with
          | Some u => ParseType_pairs c type_map opts obj (Some (<[k := v]> u))
          | None =>
              if negb (ignore_unknown_options c) then (NotFound2 "Unrecognized option" k, obj, unused)
              else ParseType_pairs c type_map opts obj unused
          end
      end
  end.

Definition ParseType (c : ConfigOptions) (opts_str : bytes) (type_map : parsers) (obj : option Value)
    (unused : option (gmap bytes bytes)) : Status * option Value * option (gmap bytes bytes) :=
  let '(status, opts_map) := StringToMap opts_str ∅ in
  if negb (ok status) then (status, obj, unused) else ParseType_pairs c type_map (hash_order opts_map) obj unused.

(** One field of the struct at [obj] *)
Definition parse_field (c : ConfigOptions) (struct_map : parsers) (name : bytes) (opt_value : bytes) (obj : option Value)
    (shown : bytes) : Status * option Value :=
  match Find fst name struct_map with
  | Some ((info, parse), elem_name) =>
      let '(status, fld) := parse c elem_name opt_value (load_field (offset_ info) obj) in
      (status, store_field (offset_ info) fld obj)
  | None =>
      if negb (ignore_unknown_options c) then (InvalidArgument2 "Unrecognized option" shown, obj) else (Status_OK, obj)
  end.

Definition ParseStruct (c : ConfigOptions) (struct_name : bytes) (struct_map : parsers) (opt_name opt_value : bytes)
    (obj : option Value) : Status * option Value :=
  if bool_decide (opt_name = struct_name) || EndsWith opt_name (dot :: struct_name) then
    let '(status, obj, unused) := ParseType c opt_value struct_map obj (Some ∅) in
    match unused with
    | Some u =>
        match hash_order u with
        | (k, _) :: _ =>
            if ok status && negb (ignore_unknown_options c)
            then (InvalidArgument2 "Unrecognized option" (struct_name ++ dot :: k), obj) else (status, obj)
        | [] => (status, obj)
        end
    | None => (status, obj)
    end
  else if StartsWith opt_name (struct_name ++ [dot]) then
    parse_field c struct_map (zdrop (size struct_name + 1) opt_name) opt_value obj opt_name
  else parse_field c struct_map opt_name opt_value obj (struct_name ++ dot :: opt_name).

(** The loop of [ParseVector]: a round for each token, so no more than there are characters. *)
Fixpoint vector_loop (fuel : nat) (c : ConfigOptions) (parse : Parser) (separator : byte) (name : bytes) (elem : Value)
    (value : bytes) (result : list Value) : Status * list Value :=
  match fuel, value with
  | S fuel, _ :: _ =>
      match NextToken value separator with
      | inl s => (s, result)
      | inr (token, e) =>
          let '(status, v) := parse (set_ignore_unsupported false c) name token (Some elem) in
          let '(status, result) :=
            if ok status then (status, match v with Some v => result ++ [v] | None => result end)
            else if ignore_unsupported_options c && IsNotSupported status then (Status_OK, result)
            else (status, result) in
          if negb (ok status) then (status, result)
          else match e with None => (status, result) | Some e => vector_loop fuel c parse separator name elem (tail e) result end
      end
  | _, _ => (Status_OK, result)
  end.

Definition ParseVector (c : ConfigOptions) (parse : Parser) (separator : byte) (name : bytes) (elem : Value)
    (value : bytes) : Status * list Value := vector_loop (length value) c parse separator name elem value [].

(** The loop of [ParseArray]; the array has [kSize] elements: those up to [i] are in
    [result], [todo] are the others;
    [None] is the end position [npos]. *)
Fixpoint array_loop (c : ConfigOptions) (parse : Parser) (separator : byte) (name : bytes) (value : option bytes)
    (result todo : list Value) : Status * list Value * list Value * option bytes :=
  match todo, value with
  | x :: todo', Some ((_ :: _) as rest) =>
      match NextToken rest separator with
      | inl s => (s, result, todo, value)
      | inr (token, e) =>
          let '(status, v) := parse (set_ignore_unsupported false c) name token (Some x) in
          let status := if ignore_unsupported_options c && IsNotSupported status then Status_OK else status in
          let result := result ++ [match v with Some v => v | None => x end] in
          if negb (ok status) then (status, result, todo', value)
          else array_loop c parse separator name (tail <$> e) result todo'
      end
  | _, _ => (Status_OK, result, todo, value)
  end.

Definition ParseArray (c : ConfigOptions) (parse : Parser) (separator : byte) (name : bytes) (value : bytes)
    (array : list Value) : Status * list Value :=
  let '(status, result, todo, rest) := array_loop c parse separator name (Some value) [] array in
  if negb (ok status) then (status, result ++ todo)
  else
    match todo, rest with
    | _ :: _, _ => (InvalidArgument2 "Serialized value has less elements than array size" name, result ++ todo)
    | [], Some (_ :: _) => (InvalidArgument2 "Serialized value has more elements than array size" name, result)
    | [], _ => (status, result)
    end.

(** [std::map::emplace]: the keys are in order, and a key that is there keeps its value. *)
Fixpoint map_emplace (k v : bytes) (m : list (bytes * bytes)) : list (bytes * bytes) :=
  match m with
  | [] => [(k, v)]
  | (k', v') :: m' =>
      if compare k k' =? 0 then m else if compare k k' <? 0 then (k, v) :: m else (k', v') :: map_emplace k v m'
  end.

(** The two parts of an item; an item without separator fails an assertion, and in a build
    without assertions both are the whole item. *)
Definition map_item (kv_separator : byte) (token : bytes) : bytes * bytes :=
  match cut kv_separator token with (a, Some b) => (a, b) | (a, None) => (token, token) end.

Fixpoint map_items_loop (fuel : nat) (kv_separator item_separator : byte) (value : bytes) (m : list (bytes * bytes))
    : Status * list (bytes * bytes) :=
  match fuel, value with
  | S fuel, _ :: _ =>
      match NextToken value item_separator with
      | inl s => (s, m)
      | inr (token, e) =>
          let m :=
            if bool_decide (token = []) then m
            else
              let '(k, v) := map_item kv_separator token in
              map_emplace (DecodeHex_into [] k) (DecodeHex_into [] v) m in
          match e with None => (Status_OK, m) | Some e => map_items_loop fuel kv_separator item_separator (tail e) m end
      end
  | _, _ => (Status_OK, m)
  end.

Definition ParseStringMap (kv_separator item_separator : byte) (value : bytes) : Status * list (bytes * bytes) :=
  map_items_loop (length value) kv_separator item_separator value [].

(** [OptionTypeInfo::Parse]. The text of the exception is left out of the message. *)
Fixpoint Parse (i : OptionTypeInfo) (c : ConfigOptions) (opt_name value : bytes) (opt_ptr : option Value)
    : Status * option Value :=
  let 'mkInfo offset funcs type verification flags := i in
  if IsDeprecated (mkInfo offset funcs type verification flags) then (Status_OK, opt_ptr)
  else
    let opt_value := if input_strings_escaped c then UnescapeOptionString value else value in
    match opt_ptr with
    | None => (NotFound2 "Could not find option" opt_name, opt_ptr)
    | Some cur =>
        match funcs with
        | NoFuncs =>
            match ParseOptionHelper cur type opt_value with
            | Stored v => (Status_OK, Some v)
            | Refused =>
                if IsByName (mkInfo offset funcs type verification flags)
                then (NotSupported (message (text "Deserializing the option " ++ opt_name ++ text " is not supported")), opt_ptr)
                else (InvalidArgument2 "Error parsing:" opt_name, opt_ptr)
            | Thrown => (InvalidArgument (message (text "Error parsing " ++ opt_name ++ text ":")), opt_ptr)
            end
        | EnumFuncs None => (NotSupported2 "No enum mapping " opt_name, opt_ptr)
        | EnumFuncs (Some m) =>
            match ParseEnum m opt_value with
            | Some z => (Status_OK, Some (VInt z))
            | None => (InvalidArgument2 "No mapping for enum " opt_name, opt_ptr)
            end
        | StructFuncs struct_name struct_map =>
            ParseStruct c struct_name (map (fun e => (fst e, (snd e, Parse (snd e)))) struct_map) opt_name opt_value opt_ptr
        | ArrayFuncs _ elem_info separator =>
            let array := match cur with VList l => l | _ => [] end in
            let '(status, l) := ParseArray c (Parse elem_info) separator opt_name opt_value array in (status, Some (VList l))
        | VectorFuncs elem_info separator elem =>
            let '(status, l) := ParseVector c (Parse elem_info) separator opt_name elem opt_value in (status, Some (VList l))
        | StringMapFuncs kv_separator item_separator =>
            let '(status, m) := ParseStringMap kv_separator item_separator opt_value in
            (status, if ok status then Some (VMap m) else opt_ptr)
        end
    end.

Definition with_parsers (m : list (bytes * OptionTypeInfo)) : parsers := map (fun e => (fst e, (snd e, Parse (snd e)))) m.

(** ** Writing *)

(** [OptionTypeInfo::Serialize] of an info that is known *)
Definition Printer : Type := ConfigOptions -> bytes -> option Value -> Status * bytes.

Abbreviation printers := (list (bytes * (OptionTypeInfo * Printer))).

Fixpoint SerializeType (c : ConfigOptions) (type_map : printers) (obj : option Value) (result : bytes) : Status * bytes :=
  match type_map with
  | [] => (Status_OK, result)
  | (name, (info, serialize)) :: type_map =>
      if ShouldSerialize info then
        let '(status, single) := serialize c name (load_field (offset_ info) obj) in
        if negb (ok status) then (status, result)
        else SerializeType c type_map obj (result ++ name ++ equals_sign :: single ++ delimiter c)
      else SerializeType c type_map obj result
  end.

(** The string that is returned has been empty before. *)
Definition SerializeStruct (c : ConfigOptions) (struct_name : bytes) (struct_map : printers) (opt_name : bytes)
    (obj : option Value) : Status * bytes :=
  if EndsWith opt_name struct_name then
    let '(status, result) := SerializeType (set_delimiter [semicolon] c) struct_map obj [] in
    if negb (ok status) then (status, []) else (status, open_brace :: result ++ [close_brace])
  else if StartsWith opt_name (struct_name ++ [dot]) then
    match Find fst (zdrop (size struct_name + 1) opt_name) struct_map with
    | Some ((info, serialize), elem_name) => serialize c elem_name (load_field (offset_ info) obj)
    | None => (InvalidArgument2 "Unrecognized option" opt_name, [])
    end
  else
    match Find fst opt_name struct_map with
    | None => (InvalidArgument2 "Unrecognized option" opt_name, [])
    | Some ((info, serialize), elem_name) =>
        if ShouldSerialize info then serialize c (opt_name ++ dot :: elem_name) (load_field (offset_ info) obj) else (Status_OK, [])
    end.

Definition contains (c : byte) (s : bytes) : bool := match cut c s with (_, Some _) => true | _ => false end.

(** The loop of [SerializeVector] and [SerializeArray] *)
Fixpoint serialize_elems (c : ConfigOptions) (serialize : Printer) (separator : byte) (name : bytes) (vec : list Value)
    (printed : Z) (result : bytes) : Status * Z * bytes :=
  match vec with
  | [] => (Status_OK, printed, result)
  | elem :: vec =>
      let '(s, elem_str) := serialize c name (Some elem) in
      if negb (ok s) then (s, printed, result)
      else if bool_decide (elem_str = []) then serialize_elems c serialize separator name vec printed result
      else
        let result := if printed >? 0 then result ++ [separator] else result in
        serialize_elems c serialize separator name vec (printed + 1)
          (result ++ if contains separator elem_str then open_brace :: elem_str ++ [close_brace] else elem_str)
  end.

Definition SerializeVector (c : ConfigOptions) (serialize : Printer) (separator : byte) (name : bytes) (vec : list Value)
    : Status * bytes :=
  let '(s, printed, result) := serialize_elems (set_delimiter [semicolon] c) serialize separator name vec 0 [] in
  if negb (ok s) then (s, [])
  else if contains equals_sign result then (Status_OK, open_brace :: result ++ [close_brace])
  else if (printed >? 1) && bool_decide (head result = Some open_brace)
  then (Status_OK, open_brace :: result ++ [close_brace])
  else (Status_OK, result).

Definition SerializeArray : ConfigOptions -> Printer -> byte -> bytes -> list Value -> Status * bytes := SerializeVector.

Definition SerializeStringMap (kv_separator item_separator : byte) (m : list (bytes * bytes)) : bytes :=
  open_brace :: (m ≫= fun '(k, v) => ToString true k ++ kv_separator :: ToString true v ++ [item_separator]) ++ [close_brace].

(** [OptionTypeInfo::Serialize]; the string has been empty before. *)
Fixpoint Serialize (i : OptionTypeInfo) (c : ConfigOptions) (opt_name : bytes) (opt_ptr : option Value) : Status * bytes :=
  let 'mkInfo offset funcs type verification flags := i in
  match opt_ptr with
  | None => (Status_OK, [])
  | Some v =>
      if IsDeprecated (mkInfo offset funcs type verification flags) then (Status_OK, [])
      else if IsEnabled (mkInfo offset funcs type verification flags) kDontSerialize
      then (NotSupported2 "Cannot serialize option: " opt_name, [])
      else
        match funcs with
        | EnumFuncs None => (NotSupported2 "No enum mapping " opt_name, [])
        | EnumFuncs (Some m) =>
            match v with
            | VInt z => match SerializeEnum m z with
                        | Some s => (Status_OK, s) | None => (InvalidArgument2 "No mapping for enum " opt_name, []) end
            | _ => (InvalidArgument2 "No mapping for enum " opt_name, [])
            end
        | StructFuncs struct_name struct_map =>
            SerializeStruct c struct_name (map (fun e => (fst e, (snd e, Serialize (snd e)))) struct_map) opt_name opt_ptr
        | ArrayFuncs _ elem_info separator =>
            SerializeArray c (Serialize elem_info) separator opt_name (match v with VList l => l | _ => [] end)
        | VectorFuncs elem_info separator _ =>
            SerializeVector c (Serialize elem_info) separator opt_name (match v with VList l => l | _ => [] end)
        | StringMapFuncs kv_separator item_separator =>
            (Status_OK, SerializeStringMap kv_separator item_separator (match v with VMap m => m | _ => [] end))
        | NoFuncs =>
            if mutable_options_only c && negb (IsMutable (mkInfo offset funcs type verification flags)) then (Status_OK, [])
            else
              match SerializeSingleOptionHelper v type with
              | Some s => (Status_OK, s)
              | None => (InvalidArgument2 "Cannot serialize option: " opt_name, [])
              end
        end
  end.

Definition with_printers (m : list (bytes * OptionTypeInfo)) : printers := map (fun e => (fst e, (snd e, Serialize (snd e)))) m.
End platform.
