(* ===== verification/OptionProofs.v ===== *)
(** * Typed options are read back *)

From stdpp Require Import gmap sorting.
From S2P Require Import Prelude.
From S2P Require Import Status.
From S2P Require Import Slice.
From S2P Require Import StringUtil.
From S2P Require Import OptionString.
From S2P Require Import OptionTypes.

(** ** Texts *)

(** Characters that neither the escaping nor the splitting of option strings treats specially *)
Definition plain_char (c : byte) : bool :=
  negb (isSpecialChar c) && match c with x3b | x7b | x7d => false | _ => true end.

Definition plain (s : bytes) : Prop := tight s /\ Forall (fun c => plain_char c = true) s.

Lemma plain_char_spec c :
  plain_char c = true ->
  c <> backslash /\ c <> semicolon /\ c <> colon /\ ~ is_brace c /\ isSpecialChar c = false.
Proof.
  intros H. unfold is_brace. destruct c; try discriminate H; split_and!; try discriminate; try done; by intros [|].
Qed.

Definition unescaped (s : bytes) : Prop := Forall (fun c => c <> backslash) s.

Lemma unescape_id s : unescaped s -> UnescapeOptionString s = s.
Proof.
  unfold UnescapeOptionString. induction 1 as [|c s Hc _ IH]; [done|]. cbn [unescape_loop].
  destruct (byte_eq_dec c backslash); [done|]. by rewrite IH.
Qed.

Lemma plain_unescaped s : plain s -> unescaped s.
Proof. intros [_ H]. eapply Forall_impl; [exact H|]. intros c Hc. by apply plain_char_spec. Qed.

Lemma escape_plain s : plain s -> EscapeOptionString s = s.
Proof.
  intros [_ H]. induction H as [|c s Hc _ IH]; [done|]. cbn [EscapeOptionString].
  destruct (plain_char_spec c Hc) as (_ & _ & _ & _ & ->). by rewrite IH.
Qed.

Lemma plain_text d s : plain s -> d = semicolon \/ d = colon -> value_text d s s.
Proof.
  intros [Ht H] Hd. constructor; [done| |].
  - eapply Forall_impl; [exact H|]. intros c Hc. destruct (plain_char_spec c Hc) as (_ & H1 & H2 & _). by destruct Hd as [-> | ->].
  - destruct H as [|c s Hc _]; [done|]. cbn. intros [= ->]. discriminate Hc.
Qed.

(** Texts without white space *)
Lemma plain_no_space s : Forall (fun c => plain_char c = true /\ isspace c = false) s -> plain s.
Proof.
  intros H. split; [|eapply Forall_impl; [exact H|naive_solver]].
  assert (Hin : forall c, In c s -> isspace c = false).
  { intros c Hc. rewrite List.Forall_forall in H. by apply H. }
  split; intros c Hc; apply Hin.
  - destruct s; [done|]. injection Hc as ->. by left.
  - destruct s as [|x s] using rev_ind; [done|]. rewrite last_snoc in Hc. injection Hc as ->.
    apply in_or_app. right. by left.
Qed.

Lemma to_string_plain n : plain (to_string n) /\ to_string n <> [].
Proof.
  assert (Hd : forall c, is_Some (digit_value c) -> plain_char c = true /\ isspace c = false).
  { intros c [d Hd]. destruct c; vm_compute in Hd; try discriminate Hd; done. }
  assert (H : forall m, Forall (fun c => plain_char c = true /\ isspace c = false) (to_decimal m) /\ to_decimal m <> []).
  { intros m. destruct (to_decimal_cons m) as (c & s & -> & Hc & Hs). split; [|done].
    constructor; [by apply Hd|]. eapply Forall_impl; [exact Hs|]. done. }
  split; [apply plain_no_space|]; unfold to_string; destruct (n <? 0); try apply H; [|done].
  constructor; [done|apply H].
Qed.

Lemma toHex_plain v : 0 <= v < 16 -> plain_char (toHex v) = true /\ isspace (toHex v) = false.
Proof.
  intros Hv. assert (H : v = 0 \/ v = 1 \/ v = 2 \/ v = 3 \/ v = 4 \/ v = 5 \/ v = 6 \/ v = 7 \/ v = 8 \/ v = 9 \/
    v = 10 \/ v = 11 \/ v = 12 \/ v = 13 \/ v = 14 \/ v = 15) by lia.
  repeat (destruct H as [-> | H]; [done|]). by subst v.
Qed.

Lemma hex_no_space s : Forall (fun c => plain_char c = true /\ isspace c = false) (ToString true s).
Proof.
  unfold ToString. induction s as [|b s IH]; cbn [flat_map app]; [constructor|].
  pose proof (byte_to_Z_range b) as Hb. unfold is_uint in Hb.
  constructor; [|constructor; [|done]]; apply toHex_plain.
  - rewrite Z.shiftr_div_pow2 by lia. split; [apply Z.div_pos; lia|apply Z.div_lt_upper_bound; lia].
  - change 15 with (Z.ones 4). rewrite Z.land_ones by lia. apply Z.mod_pos_bound. lia.
Qed.

Lemma decode_hex_ToString s : decode_hex_pairs (ToString true s) = s.
Proof.
  induction s as [|b s IH]; [done|].
  change (ToString true (b :: s)) with
    (toHex (Z.shiftr (byte_to_Z b) 4) :: toHex (Z.land (byte_to_Z b) 15) :: ToString true s).
  cbn [decode_hex_pairs]. rewrite fromHex_toHex_high, fromHex_toHex_low, nibbles_byte, IH.
  rewrite !(proj2 (Z.ltb_ge _ _)); [done|apply Z.land_nonneg; lia|].
  apply Z.shiftr_nonneg. apply byte_to_Z_range.
Qed.

Lemma DecodeHex_into_ToString old s : DecodeHex_into old (ToString true s) = s.
Proof.
  unfold DecodeHex_into. rewrite size_ToString_hex, Z.mul_comm, Z.mod_mul by lia. apply decode_hex_ToString.
Qed.

(** ** Single options *)

Lemma ParseUint32_to_string n : is_uint 32 n -> ParseUint32 (to_string n) = Some n.
Proof.
  unfold is_uint. intros Hn. unfold ParseUint32. rewrite ParseUint64_to_string by (unfold is_uint; lia).
  cbn [mbind option_bind]. rewrite Z.shiftr_div_pow2, Z.div_small by lia. done.
Qed.

Lemma ParseUint8_to_string n : is_uint 8 n -> ParseUint8 (to_string n) = Some n.
Proof.
  unfold is_uint. intros Hn. unfold ParseUint8. rewrite ParseUint64_to_string by (unfold is_uint; lia).
  cbn [mbind option_bind]. rewrite Z.shiftr_div_pow2, Z.div_small by lia. done.
Qed.

Lemma ParseInt32_to_string n : - 2 ^ 31 <= n < 2 ^ 31 -> ParseInt32 (to_string n) = Some n.
Proof.
  intros Hn. unfold ParseInt32. rewrite ParseInt64_to_string by lia. cbn [mbind option_bind].
  replace ((n <=? 2 ^ 31 - 1) && (n >=? - 2 ^ 31)) with true by lia. done.
Qed.

(** An enumerator has a name without special characters, which is that of no other one. *)
Definition names_ok (m : list (bytes * Z)) (z : Z) : Prop :=
  exists s, SerializeEnum m z = Some s /\ find_name s m = Some z /\ plain s /\ s <> [].

Definition names_okb (m : list (bytes * Z)) : bool :=
  forallb (fun e => match SerializeEnum m (snd e) with
    | Some s => bool_decide (find_name s m = Some (snd e)) && negb (bool_decide (s = [])) &&
                forallb (fun c => plain_char c && negb (isspace c)) s
    | None => false end) m.

Lemma names_okb_sound m z : names_okb m = true -> In z (map snd m) -> names_ok m z.
Proof.
  unfold names_okb. rewrite forallb_forall. intros H ([k z'] & Ez & Hin)%in_map_iff. cbn in Ez. subst z'.
  specialize (H _ Hin). cbn in H. destruct (SerializeEnum m z) as [s|] eqn:E; [|done]. exists s.
  rewrite !andb_true_iff, bool_decide_eq_true, negb_true_iff, bool_decide_eq_false in H. destruct H as [[H1 H2] H3].
  split_and!; [done..| |done]. apply plain_no_space. rewrite forallb_forall in H3. rewrite List.Forall_forall.
  intros c Hc. apply H3 in Hc. rewrite andb_true_iff, negb_true_iff in Hc. done.
Qed.

Section platform.
Context `{PL : Platform}.

(** The values that an option of a basic type can have *)
Definition scalar_ok (ty : OptionType) (v : Value) : Prop :=
  match ty, v with
  | kBoolean, VBool _ => True
  | (kInt | kInt32T | kAtomicInt), VInt z => - 2 ^ 31 <= z < 2 ^ 31
  | kInt64T, VInt z => - 2 ^ 63 <= z < 2 ^ 63
  | (kUInt | kUInt32T), VInt z => is_uint 32 z
  | kUInt8T, VInt z => is_uint 8 z
  | (kUInt64T | kSizeT), VInt z => is_uint 64 z
  | kDouble, VDouble d => parse_double (print_double d) = Some d /\ plain (print_double d) /\ print_double d <> []
  | kString, VString s => plain s
  | kCompactionStyle, VInt z => In z (map snd compaction_style_string_map)
  | kCompactionPri, VInt z => In z (map snd compaction_pri_string_map)
  | kCompressionType, VInt z => In z (map snd compression_type_string_map)
  | kChecksumType, VInt z => In z (map snd checksum_type_string_map)
  | kEncodingType, VInt z => In z (map snd encoding_type_string_map)
  | kCompactionStopStyle, VInt z => In z (map snd compaction_stop_style_string_map)
  | kEncodedString, VString _ => True
  | kTemperature, VInt z => In z (map snd temperature_string_map)
  | _, _ => False
  end.

Lemma scalar_survives ty v :
  scalar_ok ty v ->
  exists w, SerializeSingleOptionHelper v ty = Some w /\ plain w /\ (v <> VString [] -> w <> []) /\
            forall cur, ParseOptionHelper cur ty w = Stored v.
Proof.
  assert (He : forall m z, names_okb m = true -> In z (map snd m) ->
     exists w, SerializeEnum m z = Some w /\ plain w /\ (VInt z <> VString [] -> w <> []) /\
       forall cur : Value, stored_or_refused VInt (ParseEnum m w) = Stored (VInt z)).
  { intros m z Hm Hz. destruct (names_okb_sound m z Hm Hz) as (s & H1 & H2 & H3 & H4). exists s.
    unfold ParseEnum. by rewrite H2. }
  destruct ty, v; cbn [scalar_ok SerializeSingleOptionHelper ParseOptionHelper]; intros Hv;
    try done; try (by apply He).
  all: try (eexists; split; [done|]; split; [apply to_string_plain|]; split; [intros _; apply to_string_plain|]; intros _;
    first [rewrite ParseInt_to_string by done|rewrite ParseInt32_to_string by done|rewrite ParseInt64_to_string by done
          |rewrite ParseUint32_to_string by done|rewrite ParseUint8_to_string by done
          |unfold ParseSizeT; rewrite ParseUint64_to_string by done]; done).
  - destruct b; (eexists; split; [done|]; split; [by apply plain_no_space; repeat constructor|done]).
  - destruct Hv as (H1 & H2 & H3). eexists; split; [done|]. split; [done|]. split; [done|]. intros _. by rewrite H1.
  - rewrite escape_plain by done. exists s. split_and!; [done..| |done]. congruence.
  - eexists; split; [done|]. split; [apply plain_no_space, hex_no_space|]. split; [|intros cur; by rewrite DecodeHex_into_ToString].
    intros Hs. by destruct s.
Qed.

(** ** Texts and tokens *)

Definition simple_char (c : byte) : Prop := c <> backslash /\ c <> semicolon /\ ~ is_brace c.

(** The text that is printed for a value, and the token that is read. *)
Inductive shape : bytes -> bytes -> Prop :=
| shape_simple w : tight w -> Forall simple_char w -> shape w w
| shape_braced b : tight b -> balanced b -> unescaped b -> shape (open_brace :: b ++ [close_brace]) b.

Lemma plain_shape w : plain w -> shape w w.
Proof.
  intros [Ht Hw]. constructor; [done|]. eapply Forall_impl; [exact Hw|]. intros c Hc.
  destruct (plain_char_spec c Hc) as (H1 & H2 & _ & H3 & _). done.
Qed.

Lemma shape_text w t : shape w t -> value_text semicolon w t.
Proof.
  intros [w' Ht Hw|b Ht Hb Hu]; [|by constructor]. constructor; [done| |].
  - eapply Forall_impl; [exact Hw|]. by intros c (_ & Hc & _).
  - destruct Hw as [|c s (_ & _ & Hc) _]; [done|]. intros [= ->]. apply Hc. by left.
Qed.

Lemma shape_balanced w t : shape w t -> balanced w /\ unescaped w.
Proof.
  intros [w' Ht Hw|b Ht Hb Hu].
  - split; [apply balanced_plain; eapply Forall_impl; [exact Hw|]; by intros c (_ & _ & Hc)|].
    eapply Forall_impl; [exact Hw|]. by intros c (Hc & _).
  - split; [by apply balanced_wrap|]. constructor; [done|]. apply Forall_app. split; [done|]. by repeat constructor.
Qed.

Lemma shape_braced_inv b : shape (open_brace :: b ++ [close_brace]) b -> tight b /\ balanced b.
Proof.
  intros Hs. inversion Hs as [w Ht Hw E|b' H1 H2 H3 E]; subst; [|done]. exfalso.
  match goal with E : _ :: _ = b |- _ => apply (f_equal length) in E; cbn in E; rewrite length_app in E; cbn in E; lia end.
Qed.

Lemma shape_token w t : shape w t -> unescaped t.
Proof. intros Hs. pose proof (shape_balanced w t Hs) as [_ H]. by destruct Hs. Qed.

Lemma unescape_either (b : bool) t : unescaped t -> (if b then UnescapeOptionString t else t) = t.
Proof. intros Ht. destruct b; [by apply unescape_id|done]. Qed.

(** ** Reading into an object *)

(** The object [cur] has the shape to receive what is printed for [v]: a struct has the same
    fields, an array the same length. *)
Inductive receives : OptionTypeInfo -> Value -> Value -> Prop :=
| receives_other off f ty ver fl cur v :
    match f with StructFuncs _ _ | ArrayFuncs _ _ _ => False | _ => True end -> receives (mkInfo off f ty ver fl) cur v
| receives_struct off n m ty ver fl gs fs :
    map fst gs = map fst fs ->
    (forall name j x y, In (name, j) m -> ShouldSerialize j = true -> field_get (offset_ j) gs = Some x ->
       field_get (offset_ j) fs = Some y -> receives j x y) ->
    receives (mkInfo off (StructFuncs n m) ty ver fl) (VObject gs) (VObject fs)
| receives_array off n e sep ty ver fl l0 l :
    length l0 = length l -> (forall p x y, l0 !! p = Some x -> l !! p = Some y -> receives e x y) ->
    receives (mkInfo off (ArrayFuncs n e sep) ty ver fl) (VList l0) (VList l).

Definition survives (i : OptionTypeInfo) (k : bytes) (v : Value) (w t : bytes) : Prop :=
  (forall c, mutable_options_only c = false -> Serialize i c k (Some v) = (Status_OK, w)) /\ shape w t /\
  (forall c cur, receives i cur v -> Parse i c k t (Some cur) = (Status_OK, Some v)).

(** ** Fields *)

Lemma field_get_in off fs : is_Some (field_get off fs) <-> In off (map fst fs).
Proof.
  induction fs as [|[o v] fs IH]; cbn; [split; [by intros []|done]|].
  destruct (o =? off) eqn:E; [apply Z.eqb_eq in E as ->; naive_solver|]. rewrite IH. apply Z.eqb_neq in E. naive_solver.
Qed.

Lemma field_get_set off off' v fs :
  In off (map fst fs) -> field_get off' (field_set off v fs) = if off =? off' then Some v else field_get off' fs.
Proof.
  induction fs as [|[o w] fs IH]; cbn; [done|]. intros Hin. destruct (o =? off) eqn:E.
  - apply Z.eqb_eq in E as ->. cbn. by destruct (off =? off').
  - cbn. apply Z.eqb_neq in E. rewrite IH by naive_solver. destruct (o =? off') eqn:E'; [|done].
    apply Z.eqb_eq in E' as ->. destruct (off =? off') eqn:E2; [|done]. apply Z.eqb_eq in E2. congruence.
Qed.

Lemma field_set_names off v fs : map fst (field_set off v fs) = map fst fs.
Proof. induction fs as [|[o w] fs IH]; cbn; [done|]. destruct (o =? off); cbn; by rewrite ?IH. Qed.

Lemma fields_eq fs gs :
  NoDup (map fst fs) -> map fst gs = map fst fs ->
  (forall off, In off (map fst fs) -> field_get off gs = field_get off fs) -> gs = fs.
Proof.
  revert gs. induction fs as [|[o v] fs IH]; intros [|[o' v'] gs] Hn Hm Hg; try done. cbn in *.
  injection Hm as -> Hm. rewrite NoDup_cons in Hn. destruct Hn as [Ho Hn].
  pose proof (Hg o (or_introl eq_refl)) as H0. rewrite Z.eqb_refl in H0. injection H0 as ->. f_equal.
  apply IH; [done..|]. intros off Hoff. specialize (Hg off (or_intror Hoff)).
  destruct (o =? off) eqn:E; [|done]. apply Z.eqb_eq in E as ->. exfalso. apply Ho. by apply list_elem_of_In.
Qed.

(** ** Structs *)

Abbreviation type_map := (list (bytes * OptionTypeInfo)).

(** The fields of an object are listed in the order of the infos that describe them. *)
Record struct_ok (m : type_map) (fs : list (Z * Value)) : Prop := {
  so_names : NoDup (map fst m);
  so_keys name j : In (name, j) m -> ShouldSerialize j = true ->
    key_text name /\ unescaped name /\ is_Some (field_get (offset_ j) fs);
  so_offsets name name' j j' : In (name, j) m -> In (name', j') m -> ShouldSerialize j = true ->
    ShouldSerialize j' = true -> offset_ j = offset_ j' -> name = name';
  so_fields : NoDup (map fst fs);
  so_layout : map fst fs = map (fun p => offset_ (snd p)) (List.filter (fun p => ShouldSerialize (snd p)) m);
}.

Lemma so_cover m fs off :
  struct_ok m fs -> In off (map fst fs) -> exists name j, In (name, j) m /\ ShouldSerialize j = true /\ offset_ j = off.
Proof.
  intros Hok Hoff. rewrite (so_layout m fs Hok) in Hoff. apply in_map_iff in Hoff as ([name j] & Ho & Hin).
  apply filter_In in Hin as [Hin Hj]. by exists name, j.
Qed.

(** A serialized field: its name, info, value, text and token *)
Record Entry : Type := mkEntry {
  e_name : bytes; e_info : OptionTypeInfo; e_value : Value; e_text : bytes; e_token : bytes }.

Definition entry_ok (m : type_map) (fs : list (Z * Value)) (e : Entry) : Prop :=
  In (e_name e, e_info e) m /\ ShouldSerialize (e_info e) = true /\ field_get (offset_ (e_info e)) fs = Some (e_value e) /\
  survives (e_info e) (e_name e) (e_value e) (e_text e) (e_token e).

Definition printed_pairs (l : list Entry) : list (bytes * bytes) := map (fun e => (e_name e, e_text e)) l.
Definition token_pairs (l : list Entry) : list (bytes * bytes) := map (fun e => (e_name e, e_token e)) l.

(** The entries of a struct, in the order of the map *)
Definition entries (m : type_map) (l : list Entry) : Prop :=
  map (fun e => (e_name e, e_info e)) l = List.filter (fun p => ShouldSerialize (snd p)) m.

Lemma entries_exist m fs m' :
  (forall name j v, In (name, j) m -> ShouldSerialize j = true -> field_get (offset_ j) fs = Some v ->
     exists w t, survives j name v w t) ->
  struct_ok m fs -> (forall p, In p m' -> In p m) -> exists l, Forall (entry_ok m fs) l /\ entries m' l.
Proof.
  intros Hs Hok. induction m' as [|[name j] m' IH]; intros Hsub; [by exists []|].
  destruct IH as (l & Hl & He); [intros p Hp; apply Hsub; by right|].
  assert (Hin : In (name, j) m) by (apply Hsub; by left). unfold entries in *. cbn [List.filter snd].
  destruct (ShouldSerialize j) eqn:E; [|by exists l].
  destruct (so_keys m fs Hok name j Hin E) as (_ & _ & v & Hv). destruct (Hs name j v Hin E Hv) as (w & t & Hw).
  exists (mkEntry name j v w t :: l). cbn. rewrite He. split; [|done]. by constructor.
Qed.

Lemma SerializeType_entries c m fs m' l acc :
  mutable_options_only c = false -> Forall (entry_ok m fs) l -> entries m' l ->
  SerializeType c (with_printers m') (Some (VObject fs)) acc =
  (Status_OK, acc ++ print_pairs (delimiter c) (printed_pairs l)).
Proof.
  intros Hc. revert l acc. induction m' as [|[name j] m' IH]; intros l acc Hl He; unfold entries in He; cbn [List.filter snd] in He.
  - destruct l; [|done]. cbn. by rewrite app_nil_r.
  - cbn [with_printers map fst snd SerializeType]. destruct (ShouldSerialize j) eqn:E.
    + destruct l as [|e l]; [done|]. cbn in He. injection He as Hn Hi He. inversion Hl as [|? ? (H1 & H2 & H3 & H4 & _) Hl']; subst.
      cbn [load_field]. rewrite H3, H4 by done. change (ok Status_OK) with true. cbn [negb].
      change (map (fun e => (fst e, (snd e, Serialize (snd e)))) m') with (with_printers m').
      rewrite (IH l) by done. unfold print_pairs. cbn. by rewrite <- !app_assoc.
    + by apply IH.
Qed.

Lemma entries_incl m l e : entries m l -> In e l -> In (e_name e, e_info e) m.
Proof.
  intros He Hin. assert (H : In (e_name e, e_info e) (List.filter (fun p => ShouldSerialize (snd p)) m)).
  { rewrite <- He. by apply (in_map (fun e => (e_name e, e_info e))). }
  by apply filter_In in H as [H _].
Qed.

Lemma NoDup_map_filter {A B} (f : A -> B) (P : A -> bool) l : NoDup (map f l) -> NoDup (map f (List.filter P l)).
Proof.
  induction l as [|x l IH]; [done|]. cbn. rewrite NoDup_cons. intros [Hx Hl]. destruct (P x); [|by apply IH].
  cbn. rewrite NoDup_cons. split; [|by apply IH]. rewrite list_elem_of_In, in_map_iff. intros (y & Ey & Hy).
  apply Hx. rewrite list_elem_of_In, in_map_iff. apply filter_In in Hy as [Hy _]. by exists y.
Qed.

Lemma entries_names m fs l : struct_ok m fs -> entries m l -> NoDup (map e_name l).
Proof.
  intros Hok He. replace (map e_name l) with (map fst (map (fun e => (e_name e, e_info e)) l)) by (by rewrite map_map).
  rewrite He. apply NoDup_map_filter, Hok.
Qed.

Lemma find_name_in {A} (m : list (bytes * A)) k a : NoDup (map fst m) -> In (k, a) m -> find_name k m = Some a.
Proof.
  induction m as [|[k' a'] m IH]; [done|]. cbn. rewrite NoDup_cons. intros [Hk Hm] [[= -> ->]|Hin].
  - by rewrite bool_decide_eq_true_2.
  - rewrite bool_decide_eq_false_2; [by apply IH|]. intros ->. apply Hk. apply list_elem_of_In, in_map_iff. by exists (k, a).
Qed.

Lemma Find_parser m name j :
  NoDup (map fst m) -> In (name, j) m -> Find fst name (with_parsers m) = Some ((j, Parse j), name).
Proof.
  intros Hm Hin. unfold Find. rewrite (find_name_in _ name (j, Parse j)); [done| |].
  - unfold with_parsers. by rewrite map_map.
  - unfold with_parsers. apply in_map_iff. by exists (name, j).
Qed.

Definition set_all (l : list Entry) (gs : list (Z * Value)) : list (Z * Value) :=
  foldl (fun gs e => field_set (offset_ (e_info e)) (e_value e) gs) gs l.

Lemma ParseType_entries c m fs l gs u :
  struct_ok m fs -> Forall (entry_ok m fs) l -> NoDup (map e_name l) -> map fst gs = map fst fs ->
  (forall e x, In e l -> field_get (offset_ (e_info e)) gs = Some x -> receives (e_info e) x (e_value e)) ->
  ParseType_pairs c (with_parsers m) (token_pairs l) (Some (VObject gs)) u = (Status_OK, Some (VObject (set_all l gs)), u).
Proof.
  intros Hok Hl. revert gs. induction Hl as [|e l (H1 & H2 & H3 & H4 & H5 & H6) Hl IH]; intros gs Hn Hg Hr; [done|].
  cbn [token_pairs map ParseType_pairs]. rewrite (Find_parser m _ (e_info e)) by (done || apply Hok). cbn [load_field].
  assert (Hin : In (offset_ (e_info e)) (map fst gs)) by (rewrite Hg; apply field_get_in; eauto).
  destruct (proj2 (field_get_in _ _) Hin) as [x Hx]. rewrite Hx, H6 by (apply Hr; [by left|done]).
  cbn [store_field]. change (ok Status_OK) with true. cbn [negb].
  change (map (fun e => (e_name e, e_token e)) l) with (token_pairs l). cbn in Hn. rewrite NoDup_cons in Hn. destruct Hn as [Hn Hn'].
  rewrite IH; [done|done|by rewrite field_set_names|].
  intros e' y He' Hy. rewrite field_get_set in Hy by done. destruct (_ =? _) eqn:E; [|by apply Hr; [right|]].
  apply Z.eqb_eq in E. exfalso. apply Hn. rewrite list_elem_of_In, in_map_iff. exists e'. split; [|done].
  rewrite Forall_forall in Hl. destruct (Hl e' (proj2 (list_elem_of_In _ _) He')) as (G1 & G2 & _).
  by apply (so_offsets m fs Hok _ _ (e_info e') (e_info e)).
Qed.

Lemma set_all_names l gs : map fst (set_all l gs) = map fst gs.
Proof. revert gs. induction l as [|e l IH]; intros gs; [done|]. cbn. unfold set_all in IH. by rewrite IH, field_set_names. Qed.

(** Entries agree with [fs], so that the order of the stores does not matter. *)
Lemma set_all_get m fs l gs off :
  Forall (entry_ok m fs) l -> map fst gs = map fst fs ->
  (exists e, In e l /\ offset_ (e_info e) = off) \/ field_get off gs = field_get off fs ->
  field_get off (set_all l gs) = field_get off fs.
Proof.
  intros Hl. revert gs. induction Hl as [|e l (H1 & H2 & H3 & _) Hl IH]; intros gs Hg Ho.
  { destruct Ho as [(e & [] & _)|Ho]. done. }
  cbn. apply IH; [by rewrite field_set_names|].
  assert (Hin : In (offset_ (e_info e)) (map fst gs)) by (rewrite Hg; apply field_get_in; eauto).
  rewrite field_get_set by done. destruct (offset_ (e_info e) =? off) eqn:E.
  { apply Z.eqb_eq in E. subst off. right. by rewrite H3. }
  destruct Ho as [(e' & [-> |He'] & Ho)|Ho]; [|left; by exists e'|by right]. apply Z.eqb_neq in E. done.
Qed.

Lemma insert_pairs_list (m : gmap bytes bytes) l :
  NoDup (map fst l) -> (forall p, In p l -> m !! fst p = None) ->
  map_to_list (insert_pairs m l) ≡ₚ l ++ map_to_list m.
Proof.
  revert m. induction l as [|[k t] l IH]; intros m Hn Hm; [done|]. cbn in Hn. rewrite NoDup_cons in Hn. destruct Hn as [Hk Hn].
  change (insert_pairs m ((k, t) :: l)) with (insert_pairs (<[k := t]> m) l). rewrite IH.
  - rewrite map_to_list_insert by (apply (Hm (k, t)); by left). cbn. by rewrite Permutation_middle.
  - done.
  - intros [k' t'] Hin. cbn. rewrite lookup_insert_ne; [apply (Hm (k', t')); by right|]. intros ->. apply Hk.
    apply list_elem_of_In, in_map_iff. by exists (k', t').
Qed.

Lemma entries_pair_ok m fs l :
  struct_ok m fs -> Forall (entry_ok m fs) l -> Forall2 pair_ok (printed_pairs l) (token_pairs l).
Proof.
  intros Hok. induction 1 as [|e l (H1 & H2 & H3 & H4 & H5 & H6) Hl IH]; [constructor|]. cbn. constructor; [|done].
  destruct (so_keys m fs Hok _ _ H1 H2) as (Hk & _). split_and!; [done..|by apply shape_text].
Qed.

Context `{HL : !PlatformLaws}.

(** An order of traversal of the hash map *)
Lemma hash_order_entries l :
  NoDup (map e_name l) -> exists l', hash_order (insert_pairs ∅ (token_pairs l)) = token_pairs l' /\ l ≡ₚ l'.
Proof.
  intros Hn. assert (Hp : hash_order (insert_pairs ∅ (token_pairs l)) ≡ₚ token_pairs l).
  { rewrite hash_order_perm, insert_pairs_list; [by rewrite map_to_list_empty, app_nil_r| |].
    - unfold token_pairs. by rewrite map_map.
    - intros p _. apply lookup_empty. }
  apply Permutation_map_inv in Hp as (l' & Hl & Hp). by exists l'.
Qed.

Lemma ParseType_survives c m fs l gs u str :
  struct_ok m fs -> Forall (entry_ok m fs) l -> entries m l ->
  StringToMap str ∅ = (Status_OK, insert_pairs ∅ (token_pairs l)) ->
  map fst gs = map fst fs ->
  (forall name j x y, In (name, j) m -> ShouldSerialize j = true -> field_get (offset_ j) gs = Some x ->
     field_get (offset_ j) fs = Some y -> receives j x y) ->
  ParseType c str (with_parsers m) (Some (VObject gs)) u = (Status_OK, Some (VObject fs), u).
Proof.
  intros Hok Hl He Hs Hg Hr. unfold ParseType. rewrite Hs. change (ok Status_OK) with true. cbn [negb].
  pose proof (entries_names m fs l Hok He) as Hn. destruct (hash_order_entries l Hn) as (l' & -> & Hp).
  assert (Hl' : Forall (entry_ok m fs) l') by (by rewrite <- Hp).
  rewrite (ParseType_entries c m fs); [|done|done| |done|].
  - do 4 f_equal. apply fields_eq; [apply Hok|by rewrite set_all_names|]. intros off Hoff.
    apply (set_all_get m fs); [done..|]. left. destruct (so_cover m fs off Hok Hoff) as (name & j & Hin & Hj & Ho).
    assert (Hf : In (name, j) (List.filter (fun p => ShouldSerialize (snd p)) m)) by (by apply filter_In).
    rewrite <- He in Hf. apply in_map_iff in Hf as (e & [= <- <-] & Hf). exists e. split; [|done].
    by apply list_elem_of_In; rewrite <- Hp; apply list_elem_of_In.
  - assert (Hpn : map e_name l ≡ₚ map e_name l') by (by apply Permutation_map). by rewrite <- Hpn.
  - intros e x Hin Hx. rewrite Forall_forall in Hl'. destruct (Hl' e (proj2 (list_elem_of_In _ _) Hin)) as (H1 & H2 & H3 & _).
    by apply (Hr (e_name e)).
Qed.

(** The text of a struct, without and with its braces *)
Lemma print_pairs_tight l l' : Forall2 pair_ok l l' -> tight (print_pairs [semicolon] l).
Proof.
  intros Hl. destruct l as [|x l]; [by split|]. rewrite (print_core_pairs []), app_nil_r by done.
  destruct (print_core_shape [] (x :: l) l' Hl) as (c & s & -> & Hc & _); [done|]. by apply tight_ends.
Qed.

Lemma entries_body m fs l :
  struct_ok m fs -> Forall (entry_ok m fs) l ->
  balanced (print_pairs [semicolon] (printed_pairs l)) /\ unescaped (print_pairs [semicolon] (printed_pairs l)).
Proof.
  intros Hok. induction 1 as [|e l (H1 & H2 & H3 & H4 & H5 & H6) Hl [IHb IHu]]; [by repeat constructor|].
  unfold print_pairs in *. cbn. destruct (so_keys m fs Hok _ _ H1 H2) as ((_ & _ & Hk) & Hu & _).
  destruct (shape_balanced _ _ H5) as [Hb Hw]. split.
  - apply balanced_app; [|done]. apply balanced_app; [apply balanced_plain; eapply Forall_impl; [exact Hk|]; by intros c (_ & _ & Hc)|].
    apply balanced_char; [by intros [|]|]. apply balanced_app; [done|]. apply balanced_char; [by intros [|]|constructor].
  - apply Forall_app. split; [|done]. apply Forall_app. split; [done|]. constructor; [done|]. apply Forall_app. split; [done|by repeat constructor].
Qed.

Lemma contains_spec c s : contains c s = true <-> In c s.
Proof.
  unfold contains. induction s as [|x s IH]; cbn; [done|]. destruct (byte_eq_dec x c) as [->|]; [naive_solver|].
  destruct (cut c s) as [a [r|]]; naive_solver.
Qed.

Lemma EndsWith_self s : EndsWith s s = true.
Proof.
  unfold EndsWith. rewrite Z.leb_refl, Z.sub_diag. by apply bool_decide_eq_true_2.
Qed.

Lemma ShouldSerialize_inv i : ShouldSerialize i = true -> IsDeprecated i = false /\ IsEnabled i kDontSerialize = false.
Proof. unfold ShouldSerialize. destruct (IsDeprecated i), (IsAlias i), (IsEnabled i kDontSerialize); done. Qed.

Lemma struct_survives off k m ty ver fl fs :
  ShouldSerialize (mkInfo off (StructFuncs k m) ty ver fl) = true -> struct_ok m fs ->
  (forall name j v, In (name, j) m -> ShouldSerialize j = true -> field_get (offset_ j) fs = Some v ->
     exists w t, survives j name v w t) ->
  exists b, survives (mkInfo off (StructFuncs k m) ty ver fl) k (VObject fs) (open_brace :: b ++ [close_brace]) b /\
    (fs <> [] ->
     contains equals_sign b = true /\
     forall c cur, receives (mkInfo off (StructFuncs k m) ty ver fl) cur (VObject fs) ->
       Parse (mkInfo off (StructFuncs k m) ty ver fl) c k (open_brace :: b ++ [close_brace]) (Some cur) = (Status_OK, Some (VObject fs))).
Proof.
  intros Hi Hok Hs. destruct (ShouldSerialize_inv _ Hi) as [Hdep Hdont].
  destruct (entries_exist m fs m Hs Hok) as (l & Hl & He); [done|].
  pose proof (entries_pair_ok m fs l Hok Hl) as Hpairs. destruct (entries_body m fs l Hok Hl) as [Hb Hu].
  set (b := print_pairs [semicolon] (printed_pairs l)) in *. exists b.
  assert (Hparse : forall str c cur, unescaped str -> StringToMap str ∅ = (Status_OK, insert_pairs ∅ (token_pairs l)) ->
    receives (mkInfo off (StructFuncs k m) ty ver fl) cur (VObject fs) ->
    Parse (mkInfo off (StructFuncs k m) ty ver fl) c k str (Some cur) = (Status_OK, Some (VObject fs))).
  { intros str c cur Hstr Hmap Hr. inversion Hr; subst; [done|]. cbn [Parse]. rewrite Hdep.
    rewrite unescape_either by done. unfold ParseStruct. rewrite bool_decide_eq_true_2 by done. cbn [orb].
    change (map (fun e => (fst e, (snd e, Parse (snd e)))) m) with (with_parsers m).
    rewrite (ParseType_survives c m fs l) by done.
    assert (Hnil : hash_order ∅ = []) by (apply Permutation_nil_r; by rewrite hash_order_perm, map_to_list_empty).
    by rewrite Hnil. }
  split.
  - split_and!.
    + intros c Hc. cbn [Serialize]. rewrite Hdep, Hdont. unfold SerializeStruct. rewrite EndsWith_self.
      change (map (fun e => (fst e, (snd e, Serialize (snd e)))) m) with (with_printers m).
      rewrite (SerializeType_entries _ m fs m l) by done. done.
    + constructor; [by eapply print_pairs_tight|done..].
    + intros c cur Hr. apply Hparse; [done| |done]. by apply StringToMap_print; [constructor|].
  - intros Hfs. assert (Hl0 : l <> []).
    { destruct fs as [|[o v] fs']; [done|]. destruct (so_cover _ _ o Hok) as (name & j & Hin & Hj & _); [by left|].
      intros ->. unfold entries in He. assert (Hf : In (name, j) []) by (change (@nil (bytes * OptionTypeInfo)) with (map (fun e => (e_name e, e_info e)) []); rewrite He; by apply filter_In). done. }
    split.
    + apply contains_spec. unfold b. destruct l as [|e l]; [done|]. unfold print_pairs. cbn. apply in_or_app. left.
      apply in_or_app. right. by left.
    + intros c cur Hr. apply Hparse; [|unfold b; rewrite (print_core_pairs []), app_nil_r by (by destruct l)|done].
      * constructor; [done|]. apply Forall_app. split; [done|by repeat constructor].
      * apply StringToMap_print_wrapped; [constructor|done|by destruct l].
Qed.

(** ** Vectors and arrays *)

(** An element is a basic value, or a struct with at least one field. *)
Definition elem_survives (e : OptionTypeInfo) (k : bytes) (v : Value) (w t : bytes) : Prop :=
  survives e k v w t /\ w <> [] /\
  ((w = t /\ plain w) \/
   (exists b, w = open_brace :: b ++ [close_brace] /\ t = b /\ tight b /\ balanced b /\ contains equals_sign b = true /\
      forall c cur, receives e cur v -> Parse e c k w (Some cur) = (Status_OK, Some v))).

(** How an element is placed in the text of the vector *)
Definition placed (w : bytes) : bytes := if contains colon w then open_brace :: w ++ [close_brace] else w.

Fixpoint joined (l : list bytes) : bytes :=
  match l with
  | [] => []
  | [x] => placed x
  | x :: l => placed x ++ colon :: joined l
  end.

Lemma joined_cons x y l : joined (x :: y :: l) = placed x ++ colon :: joined (y :: l).
Proof. done. Qed.

Lemma plain_no_colon w : plain w -> contains colon w = false.
Proof.
  intros [_ H]. apply not_true_iff_false. rewrite contains_spec. intros Hin. rewrite List.Forall_forall in H.
  by apply H in Hin.
Qed.

(** The token that is read for an element gives it back. *)
Lemma elem_placed e k v w t :
  elem_survives e k v w t ->
  exists tok, value_text colon (placed w) tok /\
    forall c cur, receives e cur v -> Parse e c k tok (Some cur) = (Status_OK, Some v).
Proof.
  intros ((Hser & Hsh & Hp) & Hne & [[-> Hw]|(b & -> & -> & Ht & Hb & Hq & Hp')]); unfold placed.
  - rewrite plain_no_colon by done. exists t. split; [|done]. by apply plain_text; auto.
  - destruct (contains colon _).
    + exists (open_brace :: b ++ [close_brace]). split; [|done]. constructor; [by apply tight_ends|by apply balanced_wrap].
    + exists b. split; [|done]. by constructor.
Qed.

Lemma elem_placed_shape e k v w t :
  elem_survives e k v w t ->
  placed w <> [] /\ tight (placed w) /\ balanced (placed w) /\ unescaped (placed w) /\
  (contains equals_sign (placed w) = false -> Forall simple_char (placed w)).
Proof.
  intros ((Hser & Hsh & Hp) & Hne & [[-> Hw]|(b & -> & -> & Ht & Hb & Hq & Hp')]);
    destruct (shape_balanced _ _ Hsh) as [Hbal Hun]; unfold placed.
  - rewrite plain_no_colon by done. split_and!; [done|apply Hw|done|done|]. intros _.
    pose proof (plain_shape t Hw) as Hs. destruct Hw as [_ Hw]. eapply Forall_impl; [exact Hw|]. intros c Hc.
    destruct (plain_char_spec c Hc) as (H1 & H2 & _ & H3 & _). done.
  - assert (Hin : In equals_sign (open_brace :: b ++ [close_brace])).
    { right. apply in_or_app. left. by apply contains_spec. }
    destruct (contains colon _).
    + split_and!; [done|by apply tight_ends|by apply balanced_wrap| |].
      * constructor; [done|]. apply Forall_app. split; [done|by repeat constructor].
      * intros Hc. apply not_true_iff_false in Hc. exfalso. apply Hc, contains_spec. right. apply in_or_app. by left.
    + split_and!; [done|by apply tight_ends|done|done|]. intros Hc. apply not_true_iff_false in Hc. exfalso.
      by apply Hc, contains_spec.
Qed.

(** The elements with their texts *)
Definition elems_ok (e : OptionTypeInfo) (k : bytes) (l : list Value) (ws : list bytes) : Prop :=
  Forall2 (fun v w => exists t, elem_survives e k v w t) l ws.

Lemma joined_shape e k l ws :
  elems_ok e k l ws ->
  (ws <> [] -> joined ws <> []) /\ tight (joined ws) /\ balanced (joined ws) /\ unescaped (joined ws) /\
  (contains equals_sign (joined ws) = false -> Forall simple_char (joined ws)) /\ (length ws <= length (joined ws))%nat.
Proof.
  induction 1 as [|v w l ws [t Hw] Hl IH]; [split_and!; repeat constructor; done|].
  destruct (elem_placed_shape _ _ _ _ _ Hw) as (H1 & H2 & H3 & H4 & H5).
  destruct ws as [|w' ws]; [cbn [joined length]; split_and!; try done; destruct (placed w); [done|cbn; lia]|].
  destruct IH as (I1 & I2 & I3 & I4 & I5 & I6). rewrite joined_cons. split_and!.
  - by destruct (placed w).
  - apply tight_app; [done|done|done|]. change (colon :: joined (w' :: ws)) with ([colon] ++ joined (w' :: ws)).
    apply tight_app; [done|by apply I1|by apply tight_single|done].
  - apply balanced_app; [done|]. apply balanced_char; [by intros [|]|done].
  - apply Forall_app. split; [done|by constructor].
  - intros Hc. assert (Hsub : forall s, (forall c, In c s -> In c (placed w ++ colon :: joined (w' :: ws))) -> contains equals_sign s = false).
    { intros s Hs. apply not_true_iff_false. rewrite contains_spec. intros Hin. apply Hs, contains_spec in Hin. congruence. }
    apply Forall_app. split; [apply H5, Hsub; intros c Hin; apply in_or_app; by left|]. constructor.
    + unfold simple_char, is_brace. split_and!; try done. by intros [|].
    + apply I5, Hsub. intros c Hin. apply in_or_app. right. by right.
  - cbn [length] in *. rewrite length_app. cbn [length]. lia.
Qed.

Lemma serialize_elems_joined c e k l ws printed result :
  mutable_options_only c = false -> elems_ok e k l ws -> 0 <= printed ->
  serialize_elems c (Serialize e) colon k l printed result =
  (Status_OK, printed + size ws,
   result ++ match ws with [] => [] | _ => (if printed >? 0 then [colon] else []) ++ joined ws end).
Proof.
  intros Hc Hl. revert printed result. induction Hl as [|v w l ws [t Hw] Hl IH]; intros printed result Hp.
  - cbn. by rewrite app_nil_r, Z.add_0_r.
  - cbn [serialize_elems]. destruct Hw as ((Hser & _) & Hne & _). rewrite Hser by done. change (ok Status_OK) with true. cbn [negb].
    rewrite bool_decide_eq_false_2 by done. rewrite IH by lia. replace (printed + 1 >? 0) with true by lia.
    rewrite size_cons. f_equal; [f_equal; lia|]. change (if contains colon w then _ else w) with (placed w).
    destruct ws as [|w' ws]; [rewrite app_nil_r|rewrite joined_cons]; destruct (printed >? 0); cbn [joined app];
      repeat (rewrite <- ?app_assoc; cbn [app]); done.
Qed.

Lemma vector_loop_joined fuel c e k elem l ws acc :
  elems_ok e k l ws -> (forall v, In v l -> receives e elem v) -> (length ws <= fuel)%nat ->
  vector_loop fuel c (Parse e) colon k elem (joined ws) acc = (Status_OK, acc ++ l).
Proof.
  intros Hl. revert fuel acc. induction Hl as [|v w l ws [t Hw] Hl IH]; intros fuel acc Hr Hf.
  - rewrite app_nil_r. by destruct fuel.
  - destruct fuel as [|fuel]; [cbn in Hf; lia|]. cbn [length] in Hf.
    destruct (elem_placed _ _ _ _ _ Hw) as (tok & Htok & Hp). destruct (elem_placed_shape _ _ _ _ _ Hw) as (Hne & _).
    assert (Hnext : exists r, NextToken (joined (w :: ws)) colon = inr (tok, r) /\
      (ws = [] /\ (r = None \/ r = Some []) \/ ws <> [] /\ r = Some (colon :: joined ws))).
    { destruct ws as [|w' ws].
      - destruct (NextToken_end colon (placed w) tok Htok) as (r & Hr' & Ho). exists r. split; [exact Hr'|by left].
      - exists (Some (colon :: joined (w' :: ws))). split; [|by right]. rewrite joined_cons. by apply NextToken_text. }
    destruct Hnext as (r & Hn & Ho). cbn [vector_loop].
    destruct (joined (w :: ws)) as [|x s] eqn:E; [exfalso; destruct ws; [by apply Hne|rewrite joined_cons in E; by destruct (placed w)]|].
    rewrite Hn, Hp by (apply Hr; by left). change (ok Status_OK) with true. cbn [negb].
    assert (Happ : acc ++ v :: l = (acc ++ [v]) ++ l) by (by rewrite <- app_assoc). rewrite Happ.
    destruct Ho as [[-> Ho]|[_ ->]].
    + inversion Hl; subst. rewrite app_nil_r. destruct Ho as [-> | ->]; [done|]. by destruct fuel.
    + cbn [tail]. apply IH; [|lia]. intros v' Hv'. apply Hr. by right.
Qed.

Definition vector_text (ws : list bytes) : bytes :=
  if contains equals_sign (joined ws) then open_brace :: joined ws ++ [close_brace]
  else if (size ws >? 1) && bool_decide (head (joined ws) = Some open_brace) then open_brace :: joined ws ++ [close_brace]
  else joined ws.

Lemma SerializeVector_text c e k l ws :
  mutable_options_only c = false -> elems_ok e k l ws ->
  SerializeVector c (Serialize e) colon k l = (Status_OK, vector_text ws).
Proof.
  intros Hc Hl. unfold SerializeVector. rewrite (serialize_elems_joined _ e k l ws) by done. change (ok Status_OK) with true.
  cbn [negb app]. rewrite Z.add_0_l. change (0 >? 0) with false. unfold vector_text.
  replace (match ws with [] => [] | _ => [] ++ joined ws end) with (joined ws) by (by destruct ws).
  by destruct (contains equals_sign (joined ws)), ((size ws >? 1) && bool_decide (head (joined ws) = Some open_brace)).
Qed.

Lemma vector_text_shape e k l ws : elems_ok e k l ws -> shape (vector_text ws) (joined ws).
Proof.
  intros Hl. destruct (joined_shape e k l ws Hl) as (_ & H2 & H3 & H4 & H5 & _). unfold vector_text.
  destruct (contains equals_sign (joined ws)) eqn:E; [by constructor|]. specialize (H5 eq_refl).
  rewrite bool_decide_eq_false_2, andb_false_r; [by constructor|].
  destruct H5 as [|c s (_ & _ & Hc) _]; [done|]. intros [= ->]. apply Hc. by left.
Qed.

Lemma elems_texts e k l : (forall v, In v l -> exists w t, elem_survives e k v w t) -> exists ws, elems_ok e k l ws.
Proof.
  induction l as [|v l IH]; intros Hl; [by exists []; constructor|].
  destruct IH as [ws Hws]; [intros v' Hv'; apply Hl; by right|]. destruct (Hl v) as (w & t & Hw); [by left|].
  exists (w :: ws). constructor; [by exists t|done].
Qed.

Lemma vector_survives off e elem ty ver fl k l :
  ShouldSerialize (mkInfo off (VectorFuncs e colon elem) ty ver fl) = true ->
  (forall v, In v l -> receives e elem v /\ exists w t, elem_survives e k v w t) ->
  exists w t, survives (mkInfo off (VectorFuncs e colon elem) ty ver fl) k (VList l) w t.
Proof.
  intros Hi Hl. destruct (ShouldSerialize_inv _ Hi) as [Hdep Hdont].
  destruct (elems_texts e k l) as [ws Hws]; [intros v Hv; by apply Hl|].
  pose proof (vector_text_shape e k l ws Hws) as Hsh.
  exists (vector_text ws), (joined ws). split_and!; [|done|].
  - intros c Hc. cbn [Serialize]. rewrite Hdep, Hdont. by apply SerializeVector_text.
  - intros c cur _. cbn [Parse]. rewrite Hdep. rewrite unescape_either by (by eapply shape_token). unfold ParseVector.
    rewrite (vector_loop_joined _ c e k elem l ws); [done|done|intros v Hv; by apply Hl|].
    by apply (joined_shape e k l ws Hws).
Qed.

Lemma array_loop_joined c e k l ws l0 acc :
  elems_ok e k l ws -> length l0 = length l ->
  (forall n x y, l0 !! n = Some x -> l !! n = Some y -> receives e x y) ->
  exists r, array_loop c (Parse e) colon k (Some (joined ws)) acc l0 = (Status_OK, acc ++ l, [], r) /\ (r = None \/ r = Some []).
Proof.
  intros Hl. revert l0 acc. induction Hl as [|v w l ws [t Hw] Hl IH]; intros [|x l0] acc Hlen Hr; try done.
  - exists (Some []). rewrite app_nil_r. auto.
  - destruct (elem_placed _ _ _ _ _ Hw) as (tok & Htok & Hp). destruct (elem_placed_shape _ _ _ _ _ Hw) as (Hne & _).
    assert (Happ : acc ++ v :: l = (acc ++ [v]) ++ l) by (by rewrite <- app_assoc). rewrite Happ.
    assert (Hx : receives e x v) by (by apply (Hr O)). cbn [array_loop].
    destruct ws as [|w' ws].
    + inversion Hl; subst. destruct l0; [|done]. destruct (NextToken_end colon (placed w) tok Htok) as (r & Hn & Ho).
      cbn [joined]. destruct (placed w) as [|y s] eqn:E; [done|]. rewrite Hn, Hp by done.
      change (IsNotSupported Status_OK) with false. rewrite andb_false_r. change (ok Status_OK) with true. cbn [negb].
      rewrite app_nil_r. destruct Ho as [-> | ->]; (eexists; split; [done|auto]).
    + rewrite joined_cons. pose proof (NextToken_text colon (placed w) tok (joined (w' :: ws)) eq_refl ltac:(done) Htok) as Hn.
      destruct (placed w ++ colon :: joined (w' :: ws)) as [|y s] eqn:E; [by destruct (placed w)|]. rewrite Hn, Hp by done.
      change (IsNotSupported Status_OK) with false. rewrite andb_false_r. change (ok Status_OK) with true. cbn [negb tail fmap option_fmap option_map].
      apply IH; [cbn in Hlen; lia|]. intros n a b Ha Hb. by apply (Hr (S n)).
Qed.

Lemma array_survives off n e ty ver fl k l :
  ShouldSerialize (mkInfo off (ArrayFuncs n e colon) ty ver fl) = true ->
  (forall v, In v l -> exists w t, elem_survives e k v w t) ->
  exists w t, survives (mkInfo off (ArrayFuncs n e colon) ty ver fl) k (VList l) w t.
Proof.
  intros Hi Hl. destruct (ShouldSerialize_inv _ Hi) as [Hdep Hdont].
  destruct (elems_texts e k l) as [ws Hws]; [done|]. pose proof (vector_text_shape e k l ws Hws) as Hsh.
  exists (vector_text ws), (joined ws). split_and!; [|done|].
  - intros c Hc. cbn [Serialize]. rewrite Hdep, Hdont. by apply SerializeVector_text.
  - intros c cur Hr. inversion Hr as [| |? ? ? ? ? ? ? l0 ? Hlen Hrec]; subst; [done|]. cbn [Parse]. rewrite Hdep.
    rewrite unescape_either by (by eapply shape_token). unfold ParseArray.
    destruct (array_loop_joined c e k l ws l0 [] Hws Hlen Hrec) as (r & -> & Ho). cbn [app].
    by destruct Ho as [-> | ->].
Qed.

(** ** Maps of strings *)

Definition map_sorted (m : list (bytes * bytes)) : Prop := StronglySorted (fun a b => compare (fst a) (fst b) < 0) m.

Definition map_item_text (p : bytes * bytes) : bytes := ToString true (fst p) ++ equals_sign :: ToString true (snd p).
Definition map_body (m : list (bytes * bytes)) : bytes := m ≫= fun p => map_item_text p ++ [semicolon].

Lemma map_body_text m : SerializeStringMap equals_sign semicolon m = open_brace :: map_body m ++ [close_brace].
Proof.
  unfold SerializeStringMap, map_body. do 2 f_equal. apply list_bind_ext; [|done]. intros [k v]. unfold map_item_text. cbn.
  by rewrite <- app_assoc.
Qed.

Lemma map_item_no_space p : Forall (fun c => plain_char c = true /\ isspace c = false) (map_item_text p).
Proof. apply Forall_app. split; [apply hex_no_space|]. constructor; [done|apply hex_no_space]. Qed.

Lemma hex_not_equals s : Forall (fun c => c <> equals_sign) (ToString true s).
Proof.
  unfold ToString. induction s as [|b s IH]; cbn [flat_map app]; [constructor|].
  constructor; [|constructor; [|done]]; destruct b; vm_compute; discriminate.
Qed.

Lemma map_emplace_last k v m : Forall (fun p => compare (fst p) k < 0) m -> map_emplace k v m = m ++ [(k, v)].
Proof.
  induction 1 as [|[k' v'] m Hk _ IH]; [done|]. cbn in *. rewrite (compare_antisym k' k).
  destruct (- compare k' k =? 0) eqn:E; [lia|]. destruct (- compare k' k <? 0) eqn:E2; [lia|]. by rewrite IH.
Qed.

Lemma map_items_body fuel m acc :
  map_sorted (acc ++ m) -> (length m <= fuel)%nat ->
  map_items_loop fuel equals_sign semicolon (map_body m) acc = (Status_OK, acc ++ m).
Proof.
  revert fuel acc. induction m as [|p m IH]; intros fuel acc Hs Hf; [rewrite app_nil_r; by destruct fuel|].
  destruct fuel as [|fuel]; [cbn in Hf; lia|]. cbn [length] in Hf.
  assert (Hb : map_body (p :: m) = map_item_text p ++ semicolon :: map_body m).
  { unfold map_body. cbn. by rewrite <- app_assoc. }
  assert (Hn : NextToken (map_body (p :: m)) semicolon = inr (map_item_text p, Some (semicolon :: map_body m))).
  { rewrite Hb. apply NextToken_text; [done..|]. apply plain_text; [apply plain_no_space, map_item_no_space|by left]. }
  cbn [map_items_loop]. destruct (map_body (p :: m)) as [|x s]; [by destruct (map_item_text p)|]. rewrite Hn.
  rewrite bool_decide_eq_false_2 by (unfold map_item_text; by destruct (ToString true (fst p))).
  unfold map_item at 1. unfold map_item_text at 1. rewrite cut_app by apply hex_not_equals. rewrite !DecodeHex_into_ToString.
  rewrite map_emplace_last.
  - cbn [tail]. replace (acc ++ p :: m) with ((acc ++ [p]) ++ m) by (by rewrite <- app_assoc).
    replace (fst p, snd p) with p by (by destruct p). apply IH; [by rewrite <- app_assoc|lia].
  - apply StronglySorted_app in Hs as [Hs _]. rewrite Forall_forall. intros q Hq. apply Hs; [done|]. by left.
Qed.

Lemma map_body_chars m : Forall (fun c => (plain_char c = true /\ isspace c = false) \/ c = semicolon) (map_body m).
Proof.
  unfold map_body. induction m as [|p m IH]; [constructor|]. cbn. apply Forall_app. split; [|done].
  apply Forall_app. split; [|by repeat constructor; right]. eapply Forall_impl; [apply map_item_no_space|]. by left.
Qed.

Lemma map_body_shape m : tight (map_body m) /\ balanced (map_body m) /\ unescaped (map_body m) /\ (length m <= length (map_body m))%nat.
Proof.
  pose proof (map_body_chars m) as Hc. rewrite List.Forall_forall in Hc.
  assert (Hsp : forall c, In c (map_body m) -> isspace c = false) by (intros c Hin; destruct (Hc c Hin) as [[_ ?]| ->]; done).
  split_and!.
  - split; intros c E; apply Hsp; destruct (map_body m) as [|x s] using rev_ind; try done.
    + destruct s; cbn in E; injection E as ->; by left.
    + rewrite last_snoc in E. injection E as ->. apply in_or_app. right. by left.
  - apply balanced_plain, List.Forall_forall. intros c Hin. destruct (Hc c Hin) as [[Hp _]| ->]; [by apply plain_char_spec|by intros [|]].
  - apply List.Forall_forall. intros c Hin. destruct (Hc c Hin) as [[Hp _]| ->]; [by apply plain_char_spec|done].
  - unfold map_body. clear. induction m as [|p m IH]; [done|]. rewrite bind_cons, !length_app. cbn [length]. lia.
Qed.

Lemma map_survives off ty ver fl k m :
  ShouldSerialize (mkInfo off (StringMapFuncs equals_sign semicolon) ty ver fl) = true -> map_sorted m ->
  exists w t, survives (mkInfo off (StringMapFuncs equals_sign semicolon) ty ver fl) k (VMap m) w t.
Proof.
  intros Hi Hm. destruct (ShouldSerialize_inv _ Hi) as [Hdep Hdont]. destruct (map_body_shape m) as (Ht & Hb & Hu & Hlen).
  exists (open_brace :: map_body m ++ [close_brace]), (map_body m). split_and!.
  - intros c Hc. cbn [Serialize]. rewrite Hdep, Hdont. by rewrite map_body_text.
  - by constructor.
  - intros c cur _. cbn [Parse]. rewrite Hdep, unescape_either by done. unfold ParseStringMap.
    rewrite (map_items_body _ m []) by done. done.
Qed.

(** ** Objects *)

(** The elements that a vector or an array can have *)
Definition elem_kind (e : OptionTypeInfo) (v : Value) : Prop :=
  match funcs_ e with
  | NoFuncs => v <> VString []
  | EnumFuncs _ => True
  | StructFuncs _ _ => v <> VObject []
  | _ => False
  end.

(** [v] is a value of the type that [i], registered under the name [k], describes, and its
    strings contain no character with a meaning in option strings. *)
Inductive conforms : OptionTypeInfo -> bytes -> Value -> Prop :=
| conforms_scalar off ty ver fl k v :
    ShouldSerialize (mkInfo off NoFuncs ty ver fl) = true -> scalar_ok ty v -> conforms (mkInfo off NoFuncs ty ver fl) k v
| conforms_enum off m ty ver fl k z :
    ShouldSerialize (mkInfo off (EnumFuncs (Some m)) ty ver fl) = true -> names_ok m z ->
    conforms (mkInfo off (EnumFuncs (Some m)) ty ver fl) k (VInt z)
| conforms_struct off m ty ver fl k fs :
    ShouldSerialize (mkInfo off (StructFuncs k m) ty ver fl) = true -> struct_ok m fs ->
    (forall name j v, In (name, j) m -> ShouldSerialize j = true -> field_get (offset_ j) fs = Some v -> conforms j name v) ->
    conforms (mkInfo off (StructFuncs k m) ty ver fl) k (VObject fs)
| conforms_vector off e elem ty ver fl k l :
    ShouldSerialize (mkInfo off (VectorFuncs e colon elem) ty ver fl) = true ->
    (forall v, In v l -> receives e elem v /\ elem_kind e v) -> (forall v, In v l -> conforms e k v) ->
    conforms (mkInfo off (VectorFuncs e colon elem) ty ver fl) k (VList l)
| conforms_array off n e ty ver fl k l :
    ShouldSerialize (mkInfo off (ArrayFuncs n e colon) ty ver fl) = true ->
    length l = n -> (forall v, In v l -> elem_kind e v) -> (forall v, In v l -> conforms e k v) ->
    conforms (mkInfo off (ArrayFuncs n e colon) ty ver fl) k (VList l)
| conforms_map off ty ver fl k m :
    ShouldSerialize (mkInfo off (StringMapFuncs equals_sign semicolon) ty ver fl) = true -> map_sorted m ->
    conforms (mkInfo off (StringMapFuncs equals_sign semicolon) ty ver fl) k (VMap m).

Lemma plain_survives i k v w :
  plain w -> (forall c, mutable_options_only c = false -> Serialize i c k (Some v) = (Status_OK, w)) ->
  (forall c cur, Parse i c k w (Some cur) = (Status_OK, Some v)) ->
  survives i k v w w /\ (w <> [] -> elem_survives i k v w w).
Proof.
  intros Hw Hser Hp. assert (Hs : survives i k v w w) by (split_and!; [done|by apply plain_shape|done]).
  split; [done|]. intros Hne. split_and!; [done..|]. by left.
Qed.

Lemma conforms_survives i k v :
  conforms i k v -> (exists w t, survives i k v w t) /\ (elem_kind i v -> exists w t, elem_survives i k v w t).
Proof.
  induction 1 as [off ty ver fl k v Hi Hv|off m ty ver fl k z Hi Hz|off m ty ver fl k fs Hi Hok _ IH|
    off e elem ty ver fl k l Hi Hl _ IH|off n e ty ver fl k l Hi Hn Hl _ IH|off ty ver fl k m Hi Hm];
    destruct (ShouldSerialize_inv _ Hi) as [Hdep Hdont].
  - destruct (scalar_survives ty v Hv) as (w & Hw & Hpl & Hne & Hp). destruct (plain_survives (mkInfo off NoFuncs ty ver fl) k v w) as [H1 H2].
    + done.
    + intros c Hc. cbn [Serialize]. rewrite Hdep, Hdont, Hc. cbn [andb]. by rewrite Hw.
    + intros c cur. cbn [Parse]. rewrite Hdep, unescape_either by (by apply plain_unescaped). by rewrite Hp.
    + split; [by exists w, w|]. intros Hk. exists w, w. by apply H2, Hne.
  - destruct Hz as (w & Hw & Hf & Hpl & Hne). destruct (plain_survives (mkInfo off (EnumFuncs (Some m)) ty ver fl) k (VInt z) w) as [H1 H2].
    + done.
    + intros c Hc. cbn [Serialize]. rewrite Hdep, Hdont. by rewrite Hw.
    + intros c cur. cbn [Parse]. rewrite Hdep, unescape_either by (by apply plain_unescaped). unfold ParseEnum. by rewrite Hf.
    + split; [by exists w, w|]. intros _. exists w, w. by apply H2.
  - destruct (struct_survives off k m ty ver fl fs Hi Hok) as (b & Hs & Hb).
    { intros name j v Hin Hj Hv. by apply IH. }
    split; [by eexists _, _|]. intros Hk. destruct Hb as [Hq Hp]; [intros ->; by apply Hk|].
    exists (open_brace :: b ++ [close_brace]), b. split_and!; [done|done|]. right. exists b.
    destruct Hs as (_ & Hs & _). by destruct (shape_braced_inv b Hs).
  - split; [|done]. apply vector_survives; [done|]. intros v Hv. destruct (Hl v Hv) as [H1 H2]. split; [done|]. by apply IH.
  - split; [|done]. apply array_survives; [done|]. intros v Hv. apply IH; [done|]. by apply Hl.
  - split; [|done]. by apply map_survives.
Qed.

(** C12: writing an options object as text and reading the text back gives the object, for objects
    that conform to their map of option infos. [SerializeType] succeeds, whatever white space is
    behind the semicolon that separates the options, and [ParseType] of its text into any other
    object with the same fields returns OK and leaves exactly [fs] there, in whatever order the
    hash map of the options is traversed, whatever the flags of the reading configuration are,
    and without an unused option.

    The map of option infos has basic types, enumerations, nested structs, arrays and vectors
    of basic values, enumerations or structs, and maps of strings. The conditions: the writing
    configuration is not restricted to mutable options and its delimiter is a semicolon
    followed by white space; arrays and vectors have the separator colon, maps of strings the
    separators of their writer; the names of the options are distinct and plain and their
    offsets differ, every field belongs to an option that is written; numbers are in the range
    of their types, [double]s print as plain text that parses back, values of enumerations have
    plain names; strings (other than encoded ones and those in maps, which are written in
    hexadecimal) are plain, that is without backslash, semicolon, colon, number sign, brace or
    line break, and without white space at their ends;
    no element of an array or vector is an empty string or a struct without fields. What
    happens without these conditions is shown by [semicolon_not_escaped],
    [nested_unescaped_twice], [single_element_split] and [empty_element_dropped]. *)
Theorem options_roundtrip c c' name m fs gs sp unused :
  mutable_options_only c = false -> delimiter c = semicolon :: sp -> blank sp ->
  conforms (Struct name m 0 kNormal 0) name (VObject fs) ->
  receives (Struct name m 0 kNormal 0) (VObject gs) (VObject fs) ->
  exists w, SerializeType c (with_printers m) (Some (VObject fs)) [] = (Status_OK, w) /\
    ParseType c' w (with_parsers m) (Some (VObject gs)) unused = (Status_OK, Some (VObject fs), unused).
Proof.
  intros Hc Hd Hsp Hconf Hrec. inversion Hconf as [| |? ? ? ? ? ? ? Hi Hok Hch| | |]; subst. inversion Hrec as [|? ? ? ? ? ? ? ? Hg Hr|]; subst; [done|].
  destruct (entries_exist m fs m) as (l & Hl & He); [|done|done|].
  { intros n j v Hin Hj Hv. by apply conforms_survives, (Hch n). }
  eexists. split; [by apply (SerializeType_entries c m fs m l [])|]. cbn [app]. rewrite Hd.
  apply (ParseType_survives c' m fs l); [done..| |done|done]. apply StringToMap_print; [done|]. by eapply entries_pair_ok.
Qed.

End platform.

(** ** Instances *)

(** The options are traversed in the order of the finite map; there are no [double]s. *)
#[global] Instance demo_platform : Platform :=
  {| print_double _ := text "0"; parse_double _ := Some 0; doubles_close := Z.eqb; hash_order := map_to_list |}.

#[global] Instance demo_platform_laws : PlatformLaws.
Proof. by intros m. Qed.

Definition plain_info (off : Z) (ty : OptionType) : OptionTypeInfo := mkInfo off NoFuncs ty kNormal 0.

(** [flag], a struct [sub] with a number, and a list [v] of structs *)
Definition demo_map : list (bytes * OptionTypeInfo) :=
  [(text "flag", plain_info 0 kBoolean);
   (text "sub", Struct (text "sub") [(text "x", plain_info 0 kInt)] 8 kNormal 0);
   (text "v", Vector 16 kNormal 0 (Struct (text "v") [(text "x", plain_info 0 kInt)] 0 kNormal 0) colon (VObject [(0, VInt 0)]));
   (text "old", mkInfo 0 NoFuncs kInt kDeprecated 0)].

Definition demo_object (b : bool) (x : Z) (l : list Z) : list (Z * Value) :=
  [(0, VBool b); (8, VObject [(0, VInt x)]); (16, VList (map (fun z => VObject [(0, VInt z)]) l))].

Lemma demo_field_ok z : struct_ok [(text "x", plain_info 0 kInt)] [(0, VInt z)].
Proof.
  split.
  - repeat constructor; set_solver.
  - intros name j [[= <- <-]|[]] _. split_and!; [|by repeat constructor|by eexists].
    split_and!; [done|by apply tight_single|]. constructor; [|constructor]. unfold key_char, is_brace. naive_solver.
  - by intros name name' j j' [[= <- <-]|[]] [[= <- <-]|[]].
  - repeat constructor; set_solver.
  - reflexivity.
Qed.

Lemma demo_sub_conforms off k z :
  - 2 ^ 31 <= z < 2 ^ 31 -> conforms (Struct k [(text "x", plain_info 0 kInt)] off kNormal 0) k (VObject [(0, VInt z)]).
Proof.
  intros Hz. constructor; [done|apply demo_field_ok|]. intros name j v [[= <- <-]|[]] _ [= <-]. by constructor.
Qed.

Lemma demo_sub_receives off k y z :
  receives (Struct k [(text "x", plain_info 0 kInt)] off kNormal 0) (VObject [(0, VInt y)]) (VObject [(0, VInt z)]).
Proof. constructor; [done|]. intros name j a b [[= <- <-]|[]] _ _ _. by constructor. Qed.


Definition demo_keyb (k : bytes) : bool :=
  negb (bool_decide (k = [])) &&
  forallb (fun c => plain_char c && negb (isspace c) && negb (bool_decide (c = equals_sign))) k.

Lemma demo_keyb_sound k : demo_keyb k = true -> key_text k /\ unescaped k.
Proof.
  unfold demo_keyb. rewrite andb_true_iff, negb_true_iff, bool_decide_eq_false, forallb_forall. intros [Hne Hk].
  assert (Hc : forall c, In c k -> plain_char c = true /\ isspace c = false /\ c <> equals_sign).
  { intros c Hc. apply Hk in Hc. rewrite !andb_true_iff, !negb_true_iff, bool_decide_eq_false in Hc. naive_solver. }
  assert (Hp : plain k).
  { apply plain_no_space, List.Forall_forall. intros c Hin. by destruct (Hc c Hin) as (? & ? & _). }
  split; [|by apply plain_unescaped]. split_and!; [done|apply Hp|]. apply List.Forall_forall. intros c Hin.
  destruct (Hc c Hin) as (H1 & _ & H3). destruct (plain_char_spec c H1) as (_ & H4 & _ & H5 & _). done.
Qed.

Lemma demo_conforms b x l :
  - 2 ^ 31 <= x < 2 ^ 31 -> Forall (fun z => - 2 ^ 31 <= z < 2 ^ 31) l ->
  conforms (Struct [] demo_map 0 kNormal 0) [] (VObject (demo_object b x l)).
Proof.
  intros Hx Hl. constructor; [done| |].
  - split.
    + repeat constructor; set_solver.
    + intros name j Hin Hj.
      enough (demo_keyb name = true /\ is_Some (field_get (offset_ j) (demo_object b x l))) as [Hk Hf]
        by (destruct (demo_keyb_sound name Hk); done).
      repeat (destruct Hin as [[= <- <-]|Hin]; [split; [done|by eexists]|]); done.
    + intros name name' j j' Hin Hin' Hj Hj' Ho.
      repeat (destruct Hin as [[= <- <-]|Hin]; [repeat (destruct Hin' as [[= <- <-]|Hin']; [done|]); done|]); done.
    + repeat constructor; set_solver.
    + reflexivity.
  - intros name j v Hin Hj Hv. repeat destruct Hin as [[= <- <-]|Hin]; [..|done|done]; try (injection Hv as <-).
    + by constructor.
    + by apply demo_sub_conforms.
    + constructor; [done| |]; intros v Hv; apply in_map_iff in Hv as (z & <- & Hz).
      * split; [apply demo_sub_receives|done].
      * apply demo_sub_conforms. rewrite List.Forall_forall in Hl. by apply Hl.
Qed.

(** An object with two structs in its list is written with line breaks between the options, and
    read into one that differs everywhere. *)
Lemma options_roundtrip_witness :
  exists w,
    SerializeType (set_delimiter [semicolon; x0a] ConfigOptions_new) (with_printers demo_map)
      (Some (VObject (demo_object true (-7) [1; 2]))) [] = (Status_OK, w) /\
    ParseType ConfigOptions_new w (with_parsers demo_map) (Some (VObject (demo_object false 0 [5]))) None =
    (Status_OK, Some (VObject (demo_object true (-7) [1; 2])), None).
Proof.
  apply (options_roundtrip _ _ [] _ _ _ [x0a]).
  - reflexivity.
  - reflexivity.
  - by repeat constructor.
  - apply demo_conforms; [lia|repeat constructor; lia].
  - constructor; [reflexivity|]. intros name j x y Hin Hj Hx Hy.
    repeat destruct Hin as [[= <- <-]|Hin]; [..|done|done]; try (injection Hx as <-; injection Hy as <-).
    + by constructor.
    + apply demo_sub_receives.
    + by constructor.
Defined.

(** ** What does not survive *)

(** Write with the default configuration, and read the text into the object itself. *)
Definition reread (m : list (bytes * OptionTypeInfo)) (fs : list (Z * Value)) : Status * option Value :=
  let '(_, w) := SerializeType ConfigOptions_new (with_printers m) (Some (VObject fs)) [] in
  fst (ParseType ConfigOptions_new w (with_parsers m) (Some (VObject fs)) None).

(** The string is unescaped once with the struct and once more with the field. *)
Lemma nested_unescaped_twice :
  reread [(text "s", Struct (text "s") [(text "p", plain_info 0 kString)] 0 kNormal 0)]
    [(0, VObject [(0, VString (text "a\b"))])] = (Status_OK, Some (VObject [(0, VObject [(0, VString (text "ab"))])])).
Proof. vm_compute. reflexivity. Qed.

(** A semicolon in a string is not escaped. *)
Lemma semicolon_not_escaped :
  ok (fst (reread [(text "p", plain_info 0 kString)] [(0, VString (text "x;y"))])) = false.
Proof. vm_compute. reflexivity. Qed.

(** The braces around the only element of a vector are taken for those of the vector. *)
Lemma single_element_split :
  reread [(text "v", Vector 0 kNormal 0 (plain_info 0 kString) colon (VString []))] [(0, VList [VString (text "a:b")])] =
  (Status_OK, Some (VObject [(0, VList [VString (text "a"); VString (text "b")])])).
Proof. vm_compute. reflexivity. Qed.

(** Empty strings in a vector are dropped. *)
Lemma empty_element_dropped :
  reread [(text "v", Vector 0 kNormal 0 (plain_info 0 kString) colon (VString []))] [(0, VList [VString []; VString (text "b")])] =
  (Status_OK, Some (VObject [(0, VList [VString (text "b")])])).
Proof. vm_compute. reflexivity. Qed.
