(* ===== verification/OptionEqual.v ===== *)
(** * Comparing options

    [options/options_helper.cc]: [OptionTypeInfo::AreEqual] and what it calls, which compare two
    options objects field by field and name the first field that differs. *)

From stdpp Require Import gmap.
From S2P Require Import Prelude.
From S2P Require Import Status.
From S2P Require Import Slice.
From S2P Require Import StringUtil.
From S2P Require Import OptionString.
From S2P Require Import OptionTypes.
From S2P Require Import OptionProofs.

Section platform.
Context `{PL : Platform}.

(** ** Operations *)

Definition AreOptionsEqual (type : OptionType) (this_ that : Value) : bool :=
  match type, this_, that with
  | kBoolean, VBool a, VBool b => bool_decide (a = b)
  | (kInt | kUInt | kInt32T | kInt64T | kUInt8T | kUInt32T | kUInt64T | kSizeT | kAtomicInt
     | kCompactionStyle | kCompactionStopStyle | kCompactionPri | kCompressionType | kChecksumType
     | kEncodingType | kTemperature), VInt a, VInt b => a =? b
  | (kString | kEncodedString), VString a, VString b => bool_decide (a = b)
  | kDouble, VDouble a, VDouble b => doubles_close a b
  | _, _, _ => false
  end.

(** [AreEqual] of an info that is known; the result is the answer and [*mismatch]. *)
Definition Comparer : Type := ConfigOptions -> bytes -> option Value -> option Value -> bytes -> bool * bytes.

Abbreviation comparers := (list (bytes * (OptionTypeInfo * Comparer))).

Fixpoint TypesAreEqual (c : ConfigOptions) (type_map : comparers) (this_ that : option Value) (mismatch : bytes) : bool * bytes :=
  match type_map with
  | [] => (true, mismatch)
  | (name, (info, are_equal)) :: type_map =>
      let '(b, mismatch) := are_equal c name (load_field (offset_ info) this_) (load_field (offset_ info) that) mismatch in
      if negb b then (false, mismatch) else TypesAreEqual c type_map this_ that mismatch
  end.

Definition StructsAreEqual (c : ConfigOptions) (struct_name : bytes) (struct_map : comparers) (opt_name : bytes)
    (this_ that : option Value) (mismatch : bytes) : bool * bytes :=
  if EndsWith opt_name struct_name then
    let '(matches, result) := TypesAreEqual c struct_map this_ that [] in
    if negb matches then (false, struct_name ++ dot :: result) else (true, mismatch)
  else
    let '(found, missing) :=
      if StartsWith opt_name (struct_name ++ [dot])
      then (Find fst (zdrop (size struct_name + 1) opt_name) struct_map, opt_name)
      else (Find fst opt_name struct_map, struct_name ++ dot :: opt_name) in
    match found with
    | None => (false, missing)
    | Some ((info, are_equal), elem_name) =>
        let '(matches, result) := are_equal c elem_name (load_field (offset_ info) this_) (load_field (offset_ info) that) [] in
        if negb matches then (false, struct_name ++ dot :: result) else (true, mismatch)
    end.

Fixpoint elems_equal (c : ConfigOptions) (are_equal : Comparer) (name : bytes) (l1 l2 : list Value) (mismatch : bytes) : bool * bytes :=
  match l1, l2 with
  | x :: l1, y :: l2 =>
      let '(b, mismatch) := are_equal c name (Some x) (Some y) mismatch in
      if negb b then (false, mismatch) else elems_equal c are_equal name l1 l2 mismatch
  | _, _ => (true, mismatch)
  end.

Definition VectorsAreEqual (c : ConfigOptions) (are_equal : Comparer) (name : bytes) (vec1 vec2 : list Value) (mismatch : bytes)
    : bool * bytes :=
  if negb (size vec1 =? size vec2) then (false, name) else elems_equal c are_equal name vec1 vec2 mismatch.

(** The sizes are those of the type. *)
Definition ArraysAreEqual (c : ConfigOptions) (are_equal : Comparer) (name : bytes) (array1 array2 : list Value) (mismatch : bytes)
    : bool * bytes := elems_equal c are_equal name array1 array2 mismatch.

(** The end of [AreEqual] *)
Definition report (name : bytes) (r : bool * bytes) : bool * bytes :=
  let '(b, mismatch) := r in if b then (true, mismatch) else (false, if bool_decide (mismatch = []) then name else mismatch).

Definition list_of (v : Value) : list Value := match v with VList l => l | _ => [] end.
Definition map_of (v : Value) : list (bytes * bytes) := match v with VMap m => m | _ => [] end.

Fixpoint AreEqual (i : OptionTypeInfo) (c : ConfigOptions) (opt_name : bytes) (this_ptr that_ptr : option Value) (mismatch : bytes)
    : bool * bytes :=
  let 'mkInfo offset funcs type verification flags := i in
  if negb (IsCheckEnabled c (GetSanityLevel (mkInfo offset funcs type verification flags))) then (true, mismatch)
  else
    match this_ptr, that_ptr with
    | None, None => (true, mismatch)
    | None, Some _ | Some _, None => report opt_name (false, mismatch)
    | Some a, Some b =>
        report opt_name
          match funcs with
          | NoFuncs => (AreOptionsEqual type a b, mismatch)
          | EnumFuncs _ => (match a, b with VInt x, VInt y => x =? y | _, _ => false end, mismatch)
          | StructFuncs struct_name struct_map =>
              StructsAreEqual c struct_name (map (fun e => (fst e, (snd e, AreEqual (snd e)))) struct_map) opt_name this_ptr that_ptr mismatch
          | ArrayFuncs _ elem_info _ => ArraysAreEqual c (AreEqual elem_info) opt_name (list_of a) (list_of b) mismatch
          | VectorFuncs elem_info _ _ => VectorsAreEqual c (AreEqual elem_info) opt_name (list_of a) (list_of b) mismatch
          | StringMapFuncs _ _ => (bool_decide (map_of a = map_of b), mismatch)
          end
    end.

Definition with_comparers (m : list (bytes * OptionTypeInfo)) : comparers := map (fun e => (fst e, (snd e, AreEqual (snd e)))) m.

(** [AreEqualByName] with a text *)
Definition AreEqualByName_value (i : OptionTypeInfo) (c : ConfigOptions) (opt_name : bytes) (opt_ptr : option Value) (that_value : bytes) : bool :=
  if negb (IsByName i) then false
  else
    let '(s, this_value) := Serialize i c opt_name opt_ptr in
    if negb (ok s) then false
    else if IsVerified i kByNameAllowFromNull && bool_decide (that_value = kNullptrString) then true
    else if IsVerified i kByNameAllowNull && bool_decide (that_value = kNullptrString) then true
    else bool_decide (this_value = that_value).

Definition AreEqualByName (i : OptionTypeInfo) (c : ConfigOptions) (opt_name : bytes) (this_ptr that_ptr : option Value) : bool :=
  if IsByName i then
    let '(s, that_value) := Serialize i c opt_name that_ptr in
    if ok s then AreEqualByName_value i c opt_name this_ptr that_value else false
  else false.

Fixpoint MatchesOptionsTypeFromMap (c : ConfigOptions) (type_map : list (bytes * OptionTypeInfo)) (this_ptr that_ptr : option Value)
    (mismatch : bytes) : bool * bytes :=
  match type_map with
  | [] => (true, mismatch)
  | (name, i) :: type_map =>
      if IsCheckEnabled c (GetSanityLevel i) then
        let this_ := load_field (offset_ i) this_ptr in
        let that := load_field (offset_ i) that_ptr in
        let '(b, mismatch) := AreEqual i c name this_ that mismatch in
        if negb b && negb (AreEqualByName i c name this_ that) then (false, mismatch)
        else MatchesOptionsTypeFromMap c type_map this_ptr that_ptr mismatch
      else MatchesOptionsTypeFromMap c type_map this_ptr that_ptr mismatch
  end.

(** ** The answer is exact *)

(** All fields are compared: no [double]s, which are compared up to an error, and no option that
    is left out of the comparison but written. *)
Inductive compared : OptionTypeInfo -> Prop :=
| compared_leaf off f ty ver fl :
    match f with NoFuncs => ty <> kDouble | EnumFuncs _ | StringMapFuncs _ _ => True | _ => False end ->
    GetSanityLevel (mkInfo off f ty ver fl) = kSanityLevelExactMatch -> compared (mkInfo off f ty ver fl)
| compared_struct off n m ty ver fl :
    GetSanityLevel (mkInfo off (StructFuncs n m) ty ver fl) = kSanityLevelExactMatch ->
    (forall name j, In (name, j) m -> ShouldSerialize j = true -> compared j) ->
    (forall name j, In (name, j) m -> ShouldSerialize j = false -> GetSanityLevel j = kSanityLevelNone) ->
    compared (mkInfo off (StructFuncs n m) ty ver fl)
| compared_array off n e sep ty ver fl :
    GetSanityLevel (mkInfo off (ArrayFuncs n e sep) ty ver fl) = kSanityLevelExactMatch -> compared e ->
    compared (mkInfo off (ArrayFuncs n e sep) ty ver fl)
| compared_vector off e sep elem ty ver fl :
    GetSanityLevel (mkInfo off (VectorFuncs e sep elem) ty ver fl) = kSanityLevelExactMatch -> compared e ->
    compared (mkInfo off (VectorFuncs e sep elem) ty ver fl).

Lemma compared_level i : compared i -> GetSanityLevel i = kSanityLevelExactMatch.
Proof. by destruct 1. Qed.

(** The name of the option, or of a part of it *)
Definition names_option (k mismatch : bytes) : Prop := mismatch = k \/ exists s, mismatch = k ++ dot :: s.

(** [r] is the exact answer to the question whether [P]. *)
Definition exact_answer (k : bytes) (P : Prop) (r : bool * bytes) : Prop :=
  (P /\ r = (true, [])) \/ (~ P /\ exists mm, r = (false, mm) /\ names_option k mm).

Lemma report_exact k P b : (b = true <-> P) -> exact_answer k P (report k (b, [])).
Proof. intros Hb. unfold exact_answer, names_option. destruct b; cbn; [left; naive_solver|right; naive_solver]. Qed.

Lemma report_answer k P r : exact_answer k P r -> exact_answer k P (report k r).
Proof.
  intros [[HP ->]|[HP (mm & -> & Hm)]]; [by left|]. right. split; [done|]. eexists. split; [done|].
  case_bool_decide; [by left|done].
Qed.

Lemma AreOptionsEqual_exact ty a b :
  scalar_ok ty a -> scalar_ok ty b -> ty <> kDouble -> AreOptionsEqual ty a b = true <-> a = b.
Proof.
  intros Ha Hb Hd. destruct ty, a; try done; destruct b; try done; cbn; rewrite ?Z.eqb_eq, ?bool_decide_eq_true; split; congruence.
Qed.

Section exact.
Context (c : ConfigOptions) (Hc : sanity_level c = kSanityLevelExactMatch).

Lemma check_enabled i : compared i -> IsCheckEnabled c (GetSanityLevel i) = true.
Proof. intros Hi. unfold IsCheckEnabled. by rewrite (compared_level i Hi), Hc. Qed.

Definition fields_agree (m : list (bytes * OptionTypeInfo)) (fs gs : list (Z * Value)) : Prop :=
  forall name j, In (name, j) m -> ShouldSerialize j = true -> field_get (offset_ j) fs = field_get (offset_ j) gs.

Lemma TypesAreEqual_exact m fs gs :
  (forall name j, In (name, j) m -> ShouldSerialize j = true ->
     exists a b, field_get (offset_ j) fs = Some a /\ field_get (offset_ j) gs = Some b /\
       exact_answer name (a = b) (AreEqual j c name (Some a) (Some b) [])) ->
  (forall name j, In (name, j) m -> ShouldSerialize j = false -> GetSanityLevel j = kSanityLevelNone) ->
  (fields_agree m fs gs /\ TypesAreEqual c (with_comparers m) (Some (VObject fs)) (Some (VObject gs)) [] = (true, [])) \/
  (exists name j mm, In (name, j) m /\ field_get (offset_ j) fs <> field_get (offset_ j) gs /\
     TypesAreEqual c (with_comparers m) (Some (VObject fs)) (Some (VObject gs)) [] = (false, mm) /\ names_option name mm).
Proof.
  induction m as [|[name j] m IH]; intros Hs Hn; [left; split; [by intros name j []|done]|].
  cbn [with_comparers map fst snd TypesAreEqual].
  change (map (fun e => (fst e, (snd e, AreEqual (snd e)))) m) with (with_comparers m).
  assert (Hrest : (AreEqual j c name (field_get (offset_ j) fs) (field_get (offset_ j) gs) [] = (true, []) /\
      (ShouldSerialize j = true -> field_get (offset_ j) fs = field_get (offset_ j) gs)) \/
    exists mm, AreEqual j c name (field_get (offset_ j) fs) (field_get (offset_ j) gs) [] = (false, mm) /\ names_option name mm /\
      field_get (offset_ j) fs <> field_get (offset_ j) gs).
  { destruct (ShouldSerialize j) eqn:E.
    - destruct (Hs name j) as (a & b & -> & -> & [[-> ->]|(Hab & mm & -> & Hm)]); [by left|done|by left|]. right. exists mm.
      split_and!; [done..|congruence].
    - left. split; [|done]. destruct j as [off f ty ver fl]. cbn [AreEqual].
      rewrite (Hn name _ (or_introl eq_refl) E). done. }
  cbn [load_field]. destruct Hrest as [[-> Heq]|(mm & -> & Hm & Hne)].
  - cbn [negb]. destruct IH as [[Hag ->]|(n' & j' & mm & Hin & Hd & -> & Hm)].
    + intros n' j' Hin. apply Hs. by right.
    + intros n' j' Hin. apply (Hn n'). by right.
    + left. split; [|done]. intros n' j' [[= <- <-]|Hin] Hj'; [by apply Heq|by apply (Hag n')].
    + right. exists n', j', mm. split_and!; [by right|done..].
  - right. exists name, j, mm. split_and!; [by left|done..].
Qed.

Lemma elems_equal_exact e k l1 l2 :
  length l1 = length l2 ->
  (forall p x y, l1 !! p = Some x -> l2 !! p = Some y -> exact_answer k (x = y) (AreEqual e c k (Some x) (Some y) [])) ->
  exact_answer k (l1 = l2) (elems_equal c (AreEqual e) k l1 l2 []).
Proof.
  revert l2. induction l1 as [|x l1 IH]; intros [|y l2] Hlen Hp; try done; [by left|]. cbn [elems_equal].
  destruct (Hp O x y eq_refl eq_refl) as [[-> ->]|(Hxy & mm & -> & Hm)]; cbn [negb].
  - destruct (IH l2) as [[-> ->]|(Hne & mm & -> & Hm)]; [cbn in Hlen; lia|intros p a b; apply (Hp (S p))|by left|].
    right. split; [congruence|by eexists].
  - right. split; [congruence|by eexists].
Qed.

Lemma AreEqual_exact i k a :
  conforms i k a -> forall b, conforms i k b -> compared i -> exact_answer k (a = b) (AreEqual i c k (Some a) (Some b) []).
Proof.
  induction 1 as [off ty ver fl k a Hi Ha|off m ty ver fl k z Hi Hz|off m ty ver fl k fs Hi Hok Hch IH|
    off e elem ty ver fl k l Hi Hl Hch IH|off n e ty ver fl k l Hi Hn Hl Hch IH|off ty ver fl k m Hi Hm];
    intros b Hb Hcm; cbn [AreEqual]; rewrite check_enabled by done; cbn [negb];
    inversion Hb; clear Hb; subst; inversion Hcm; subst; try done.
  - apply report_exact. by apply AreOptionsEqual_exact.
  - apply report_exact. rewrite Z.eqb_eq. split; congruence.
  - apply report_answer. unfold StructsAreEqual. rewrite EndsWith_self.
    change (map (fun e => (fst e, (snd e, AreEqual (snd e)))) m) with (with_comparers m).
    match goal with H : struct_ok m ?gs |- _ => rename gs into hs; rename H into Hok' end.
    destruct (TypesAreEqual_exact m fs hs) as [[Hag ->]|(name & j & mm & Hin & Hd & -> & Hm)].
    + intros name j Hin Hj. destruct (so_keys m fs Hok name j Hin Hj) as (_ & _ & x & Hx).
      destruct (so_keys m hs Hok' name j Hin Hj) as (_ & _ & y & Hy). exists x, y. split_and!; [done..|]. eauto.
    + done.
    + left. split; [|done]. f_equal. apply fields_eq; [apply Hok'|by rewrite (so_layout m fs Hok), (so_layout m hs Hok')|].
      intros o Ho. destruct (so_cover m hs o Hok' Ho) as (name & j & Hin & Hj & <-). by apply (Hag name).
    + right. split; [intros [= ->]; done|]. eexists. split; [done|]. right. by eexists.
  - apply report_answer. unfold VectorsAreEqual. cbn [list_of].
    match goal with |- context [VList l = VList ?l'] => rename l' into ls end.
    destruct (size l =? size ls) eqn:E; cbn [negb].
    + destruct (elems_equal_exact e k l ls) as [[-> ->]|(Hne & mm & -> & Hmm)].
      * unfold size in E. lia.
      * intros p x y Hx Hy. apply IH; [by eapply list_elem_of_In, list_elem_of_lookup_2| |done].
        match goal with H : forall v, In v ls -> conforms _ _ _ |- _ => apply H end. by eapply list_elem_of_In, list_elem_of_lookup_2.
      * by left.
      * right. split; [congruence|by eexists].
    + right. split; [intros [= ->]; lia|]. eexists. split; [done|by left].
  - apply report_answer. unfold ArraysAreEqual. cbn [list_of].
    match goal with |- context [VList l = VList ?l'] => rename l' into ls end.
    destruct (elems_equal_exact e k l ls) as [[-> ->]|(Hne & mm & -> & Hmm)].
    + done.
    + intros p x y Hx Hy. apply IH; [by eapply list_elem_of_In, list_elem_of_lookup_2| |done].
      match goal with H : forall v, In v ls -> conforms _ _ _ |- _ => apply H end. by eapply list_elem_of_In, list_elem_of_lookup_2.
    + by left.
    + right. split; [congruence|by eexists].
  - apply report_exact. cbn [map_of]. rewrite bool_decide_eq_true. split; congruence.
Qed.
End exact.

(** C30: the comparison of two options objects is exact. [TypesAreEqual] with the exact sanity
    level answers that they are equal, without a mismatch, exactly if they are the same;
    otherwise the mismatch it reports is the name of an option whose values differ, or a path
    into it, also through nested structs, arrays and vectors of different length.

    The conditions: both objects conform to the map of option infos in the sense of
    [options_roundtrip], with its restrictions on strings, elements and separators; there are
    no [double]s, which the code compares up to an error; and every option that is written has
    the exact sanity level while one that is not written has none, so that every field takes
    part in the comparison. *)
Theorem options_compare_exact c name m fs gs :
  sanity_level c = kSanityLevelExactMatch ->
  conforms (Struct name m 0 kNormal 0) name (VObject fs) -> conforms (Struct name m 0 kNormal 0) name (VObject gs) ->
  compared (Struct name m 0 kNormal 0) ->
  let r := TypesAreEqual c (with_comparers m) (Some (VObject fs)) (Some (VObject gs)) [] in
  (fs = gs /\ r = (true, [])) \/
  (exists opt j mm, In (opt, j) m /\ field_get (offset_ j) fs <> field_get (offset_ j) gs /\ r = (false, mm) /\ names_option opt mm).
Proof.
  intros Hc Hf Hg Hm r. subst r. inversion Hf as [| |? ? ? ? ? ? ? _ Hok Hch| | |]; subst.
  inversion Hg as [| |? ? ? ? ? ? ? _ Hok' Hch'| | |]; subst. inversion Hm as [|? ? ? ? ? ? _ Hcm Hn| |]; subst; [done|].
  destruct (TypesAreEqual_exact c m fs gs) as [[Hag ->]|Hd]; [|done| |by right].
  - intros opt j Hin Hj. destruct (so_keys m fs Hok opt j Hin Hj) as (_ & _ & x & Hx).
    destruct (so_keys m gs Hok' opt j Hin Hj) as (_ & _ & y & Hy). exists x, y. split_and!; [done..|].
    apply AreEqual_exact; eauto.
  - left. split; [|done]. apply fields_eq; [apply Hok'|by rewrite (so_layout m fs Hok), (so_layout m gs Hok')|].
    intros o Ho. destruct (so_cover m gs o Hok' Ho) as (opt & j & Hin & Hj & <-). by apply (Hag opt).
Qed.
End platform.

Lemma demo_compared : compared (Struct [] demo_map 0 kNormal 0).
Proof.
  assert (Hx : forall off k, compared (Struct k [(text "x", plain_info 0 kInt)] off kNormal 0)).
  { intros off k. apply compared_struct; [done| |]; intros name j [[= <- <-]|[]] Hj; [|done]. by apply compared_leaf. }
  apply compared_struct; [done| |]; intros name j Hin Hj.
  - repeat destruct Hin as [[= <- <-]|Hin]; [by apply compared_leaf|apply Hx|apply compared_vector; [done|apply Hx]|done|done].
  - repeat destruct Hin as [[= <- <-]|Hin]; try done.
Qed.

(** The second elements of the lists differ. *)
Lemma options_compare_exact_witness :
  let fs := demo_object true 3 [1; 2] in
  let gs := demo_object true 3 [1; 4] in
  let r := TypesAreEqual ConfigOptions_new (with_comparers demo_map) (Some (VObject fs)) (Some (VObject gs)) [] in
  r = (false, text "v.x") /\
  ((fs = gs /\ r = (true, [])) \/
   (exists opt j mm, In (opt, j) demo_map /\ field_get (offset_ j) fs <> field_get (offset_ j) gs /\ r = (false, mm) /\ names_option opt mm)).
Proof.
  split; [reflexivity|]. apply (options_compare_exact ConfigOptions_new [] demo_map).
  - reflexivity.
  - apply demo_conforms; [lia|repeat constructor; lia].
  - apply demo_conforms; [lia|repeat constructor; lia].
  - apply demo_compared.
Defined.
