(* ===== verification/WorkQueue.v ===== *)
(** * Work queue

    [util/work_queue.h]: a queue of bounded size between threads, with three condition variables.
    What a thread does under the mutex, up to its end or to a call of [wait], is one step; a
    notification is a step of its own after the mutex has been released, and a thread that waits
    may also wake up without one. The source calls one condition variable [writeCv_] where it
    waits and [writerCv_] where it notifies; it is one here. *)

From stdpp Require Import gmap.
From S2P Require Import Prelude.

Section queue.
Context {T : Type}.

(** ** State *)

(** Where a thread is: not in a call; about to take the mutex ([...Want]) with the arguments of
    its call; asleep at the condition variable; about to notify. *)
Inductive WqThread : Type :=
| Idle
| PushWant (item : T) | PushSleep (item : T) | PushNotify
| PopWant | PopSleep | PopNotify (item : T)
| SizeWant (maxSize : Z) | SizeNotify
| FinishWant | FinishReaders | FinishWriters | FinishFinish
| WaitWant | WaitSleep.

Record WorkQueue : Type := mkQueue {
  queue_ : list T;
  done_ : bool;
  maxSize_ : Z;
}.

Definition WorkQueue_new (maxSize : Z) : WorkQueue := mkQueue [] false maxSize.

Definition full (q : WorkQueue) : bool := if maxSize_ q =? 0 then false else size (queue_ q) >=? maxSize_ q.

Record WqSys : Type := mkSys { wq : WorkQueue; threads : list WqThread }.

(** What a call returns, and when an item enters and leaves the queue *)
Inductive WqEvent : Type :=
| EvPushed (item : T) | EvRefused (item : T) | EvPopped (item : T) | EvEmpty | EvSized | EvFinished | EvWaited.

(** ** Steps *)

(** The part of each operation under the mutex; [None] if an assertion fails or the thread is not
    about to take the mutex. *)
Definition critical (st : WqThread) (q : WorkQueue) : option (WorkQueue * WqThread * list WqEvent) :=
  match st with
  | PushWant item =>
      if full q && negb (done_ q) then Some (q, PushSleep item, [])
      else if done_ q then Some (q, Idle, [EvRefused item])
      else Some (mkQueue (queue_ q ++ [item]) (done_ q) (maxSize_ q), PushNotify, [EvPushed item])
  | PopWant =>
      match queue_ q with
      | [] => if done_ q then Some (q, Idle, [EvEmpty]) else Some (q, PopSleep, [])
      | item :: rest => Some (mkQueue rest (done_ q) (maxSize_ q), PopNotify item, [EvPopped item])
      end
  | SizeWant maxSize => Some (mkQueue (queue_ q) (done_ q) maxSize, SizeNotify, [])
  | FinishWant => if done_ q then None else Some (mkQueue (queue_ q) true (maxSize_ q), FinishReaders, [])
  | WaitWant => if done_ q then Some (q, Idle, [EvWaited]) else Some (q, WaitSleep, [])
  | _ => None
  end.

(** A thread that sleeps at a condition variable wakes up and takes the mutex again. *)
Definition wake_reader (st : WqThread) : WqThread := match st with PopSleep => PopWant | _ => st end.
Definition wake_writer (st : WqThread) : WqThread := match st with PushSleep item => PushWant item | _ => st end.
Definition wake_finish (st : WqThread) : WqThread := match st with WaitSleep => WaitWant | _ => st end.

Definition is_reader (st : WqThread) : bool := match st with PopSleep => true | _ => false end.
Definition is_writer (st : WqThread) : bool := match st with PushSleep _ => true | _ => false end.
Definition is_finish (st : WqThread) : bool := match st with WaitSleep => true | _ => false end.

(** [notify_one] wakes some thread that sleeps there, if there is one. *)
Inductive notify_one (sleeps : WqThread -> bool) (wake : WqThread -> WqThread) (l : list WqThread) : list WqThread -> Prop :=
| notify_some i st : l !! i = Some st -> sleeps st = true -> notify_one sleeps wake l (<[i := wake st]> l)
| notify_none : (forall i st, l !! i = Some st -> sleeps st = false) -> notify_one sleeps wake l l.

Definition is_call (st : WqThread) : bool :=
  match st with PushWant _ | PopWant | SizeWant _ | FinishWant | WaitWant => true | _ => false end.

Inductive wq_step : WqSys -> list WqEvent -> WqSys -> Prop :=
| step_call q l i st : l !! i = Some Idle -> is_call st = true -> wq_step (mkSys q l) [] (mkSys q (<[i := st]> l))
| step_critical q l i st q' st' ev :
    l !! i = Some st -> critical st q = Some (q', st', ev) -> wq_step (mkSys q l) ev (mkSys q' (<[i := st']> l))
| step_push_notify q l i l' :
    l !! i = Some PushNotify -> notify_one is_reader wake_reader l l' -> wq_step (mkSys q l) [] (mkSys q (<[i := Idle]> l'))
| step_pop_notify q l i item l' :
    l !! i = Some (PopNotify item) -> notify_one is_writer wake_writer l l' -> wq_step (mkSys q l) [] (mkSys q (<[i := Idle]> l'))
| step_size_notify q l i :
    l !! i = Some SizeNotify -> wq_step (mkSys q l) [EvSized] (mkSys q (<[i := Idle]> (map wake_writer l)))
| step_finish_readers q l i :
    l !! i = Some FinishReaders -> wq_step (mkSys q l) [] (mkSys q (<[i := FinishWriters]> (map wake_reader l)))
| step_finish_writers q l i :
    l !! i = Some FinishWriters -> wq_step (mkSys q l) [] (mkSys q (<[i := FinishFinish]> (map wake_writer l)))
| step_finish_finish q l i :
    l !! i = Some FinishFinish -> wq_step (mkSys q l) [EvFinished] (mkSys q (<[i := Idle]> (map wake_finish l)))
| step_spurious q l i st wake :
    l !! i = Some st -> In wake [wake_reader; wake_writer; wake_finish] -> wq_step (mkSys q l) [] (mkSys q (<[i := wake st]> l)).

(** A run of [n] threads on a new queue *)
Inductive wq_run (maxSize : Z) (n : nat) : list WqEvent -> WqSys -> Prop :=
| run_start : wq_run maxSize n [] (mkSys (WorkQueue_new maxSize) (replicate n Idle))
| run_step tr s ev s' : wq_run maxSize n tr s -> wq_step s ev s' -> wq_run maxSize n (tr ++ ev) s'.
End queue.
Arguments WqThread : clear implicits.
Arguments WorkQueue : clear implicits.
Arguments WqSys : clear implicits.
Arguments WqEvent : clear implicits.

(** ** Counting threads *)

Section proofs.
Context {T : Type}.
Implicit Types (l : list (WqThread T)) (st : WqThread T) (q : WorkQueue T).

Fixpoint cnt (P : WqThread T -> bool) l : Z :=
  match l with [] => 0 | st :: l => Z.b2z (P st) + cnt P l end.

Lemma cnt_nonneg P l : 0 <= cnt P l.
Proof. induction l as [|st l IH]; cbn; [done|]. destruct (P st); cbn; lia. Qed.

Lemma cnt_insert P l i old st : l !! i = Some old -> cnt P (<[i := st]> l) = cnt P l - Z.b2z (P old) + Z.b2z (P st).
Proof.
  revert i. induction l as [|x l IH]; intros [|i] Hi; try done.
  - injection Hi as ->. change (<[O := st]> (old :: l)) with (st :: l). cbn [cnt]. lia.
  - change (<[S i := st]> (x :: l)) with (x :: <[i := st]> l). cbn [cnt]. rewrite (IH i Hi). lia.
Qed.

Lemma cnt_map_none P (f : WqThread T -> WqThread T) l : (forall st, P (f st) = false) -> cnt P (map f l) = 0.
Proof. intros Hf. induction l as [|x l IH]; cbn; [done|]. by rewrite Hf, IH. Qed.

Lemma cnt_map_le P (f : WqThread T -> WqThread T) l : (forall st, Z.b2z (P st) <= Z.b2z (P (f st))) -> cnt P l <= cnt P (map f l).
Proof. intros Hf. induction l as [|x l IH]; cbn; [done|]. specialize (Hf x). lia. Qed.

Lemma cnt_zero P l i st : cnt P l = 0 -> l !! i = Some st -> P st = false.
Proof.
  revert i. induction l as [|x l IH]; intros [|i] Hc Hi; try done; cbn in *; pose proof (cnt_nonneg P l);
    destruct (P x) eqn:E; cbn in Hc; try lia; [by injection Hi as <-|by apply (IH i)].
Qed.

Lemma cnt_none P l : (forall i st, l !! i = Some st -> P st = false) -> cnt P l = 0.
Proof.
  induction l as [|x l IH]; intros Hl; [done|]. cbn. rewrite (Hl O x eq_refl), IH; [done|]. intros i. apply (Hl (S i)).
Qed.

Definition is_pop_want st : bool := match st with PopWant => true | _ => false end.
Definition is_push_want st : bool := match st with PushWant _ => true | _ => false end.
Definition is_push_notify st : bool := match st with PushNotify => true | _ => false end.
Definition is_pop_notify st : bool := match st with PopNotify _ => true | _ => false end.
Definition is_size_notify st : bool := match st with SizeNotify => true | _ => false end.
Definition finishing_1 st : bool := match st with FinishReaders => true | _ => false end.
Definition finishing_2 st : bool := match st with FinishReaders | FinishWriters => true | _ => false end.
Definition finishing_3 st : bool := match st with FinishReaders | FinishWriters | FinishFinish => true | _ => false end.

(** A notification is on its way for each item while readers sleep, and for each free place
    while writers sleep; when the queue is finished the notifications for all are. *)
Record no_lost (q : WorkQueue T) l : Prop := {
  nl_readers : done_ q = false -> cnt is_reader l = 0 \/ size (queue_ q) <= cnt is_push_notify l + cnt is_pop_want l;
  nl_writers : done_ q = false -> 1 <= cnt is_size_notify l \/ cnt is_writer l = 0 \/
    (maxSize_ q <> 0 /\ maxSize_ q - size (queue_ q) <= cnt is_pop_notify l + cnt is_push_want l);
  nl_done_readers : done_ q = true -> 1 <= cnt finishing_1 l \/ cnt is_reader l = 0;
  nl_done_writers : done_ q = true -> 1 <= cnt finishing_2 l \/ cnt is_writer l = 0;
  nl_done_finish : done_ q = true -> 1 <= cnt finishing_3 l \/ cnt is_finish l = 0;
}.

(** All counts after a change of one thread *)
Ltac count Hi :=
  rewrite ?(fun P st => cnt_insert P _ _ _ st Hi) in *; cbn [Z.b2z is_reader is_writer is_finish is_pop_want is_push_want
    is_push_notify is_pop_notify is_size_notify finishing_1 finishing_2 finishing_3] in *.

Ltac nonneg l :=
  pose proof (cnt_nonneg is_reader l); pose proof (cnt_nonneg is_writer l); pose proof (cnt_nonneg is_finish l);
  pose proof (cnt_nonneg is_pop_want l); pose proof (cnt_nonneg is_push_want l); pose proof (cnt_nonneg is_push_notify l);
  pose proof (cnt_nonneg is_pop_notify l); pose proof (cnt_nonneg is_size_notify l); pose proof (cnt_nonneg finishing_1 l);
  pose proof (cnt_nonneg finishing_2 l); pose proof (cnt_nonneg finishing_3 l).

Lemma no_lost_start maxSize n : no_lost (WorkQueue_new maxSize) (replicate n Idle).
Proof.
  assert (H : forall P, P Idle = false -> cnt P (replicate n Idle) = 0).
  { intros P HP. apply cnt_none. intros i st Hi. apply lookup_replicate in Hi as [-> _]. done. }
  split; cbn; try done; intros _; [left|right; left]; by apply H.
Qed.

Lemma no_lost_call q l i st : l !! i = Some Idle -> is_call st = true -> no_lost q l -> no_lost q (<[i := st]> l).
Proof.
  intros Hi Hst [H1 H2 H3 H4 H5]. nonneg (<[i := Idle]> l). destruct st; try done; split; intros Hd; count Hi;
    try specialize (H1 Hd); try specialize (H2 Hd); try specialize (H3 Hd); try specialize (H4 Hd); try specialize (H5 Hd); lia.
Qed.

Ltac use_done H1 H2 H3 H4 H5 Hd :=
  try specialize (H1 Hd); try specialize (H2 Hd); try specialize (H3 Hd); try specialize (H4 Hd); try specialize (H5 Hd).

Lemma no_lost_critical q l i st q' st' ev :
  l !! i = Some st -> critical st q = Some (q', st', ev) -> no_lost q l -> no_lost q' (<[i := st']> l).
Proof.
  intros Hi Hst [H1 H2 H3 H4 H5]. nonneg (<[i := Idle]> l). destruct st; try done; cbn [critical] in Hst.
  - destruct (full q && negb (done_ q)) eqn:E; [|destruct (done_ q) eqn:Ed]; simplify_eq.
    + apply andb_true_iff in E as [E Ed]. unfold full in E. apply negb_true_iff in Ed.
      split; intros Hd; try congruence; use_done H1 H2 H3 H4 H5 Hd; count Hi; [lia|].
      destruct (maxSize_ q' =? 0) eqn:E0; [done|]. lia.
    + split; intros Hd; try congruence; use_done H1 H2 H3 H4 H5 Hd; count Hi; lia.
    + split; intros Hd; cbn in Hd; try congruence; use_done H1 H2 H3 H4 H5 Ed; count Hi; cbn [queue_ done_ maxSize_];
        rewrite size_app; change (size [item]) with 1; lia.
  - destruct (queue_ q) as [|x rest] eqn:Eq; [destruct (done_ q) eqn:Ed|]; simplify_eq.
    + split; intros Hd; try congruence; use_done H1 H2 H3 H4 H5 Hd; count Hi; lia.
    + split; intros Hd; try congruence; use_done H1 H2 H3 H4 H5 Hd; count Hi; rewrite ?Eq; change (size (@nil T)) with 0 in *; lia.
    + rewrite size_cons in *. split; intros Hd; cbn in Hd; use_done H1 H2 H3 H4 H5 Hd; count Hi; cbn [queue_ done_ maxSize_]; lia.
  - simplify_eq. split; intros Hd; cbn in Hd; use_done H1 H2 H3 H4 H5 Hd; count Hi; cbn [queue_ done_ maxSize_]; lia.
  - destruct (done_ q) eqn:Ed; simplify_eq. split; intros Hd; cbn in Hd; try congruence; count Hi; lia.
  - destruct (done_ q) eqn:Ed; simplify_eq; split; intros Hd; try congruence; use_done H1 H2 H3 H4 H5 Hd; count Hi; lia.
Qed.

(** A wake-up changes a sleeping thread only. *)
Lemma no_lost_spurious q l i st wake :
  l !! i = Some st -> In wake [wake_reader; wake_writer; wake_finish] -> no_lost q l -> no_lost q (<[i := wake st]> l).
Proof.
  intros Hi Hw [H1 H2 H3 H4 H5]. nonneg (<[i := Idle]> l).
  destruct Hw as [<-|[<-|[<-|[]]]]; destruct st; cbn [wake_reader wake_writer wake_finish];
    split; intros Hd; use_done H1 H2 H3 H4 H5 Hd; count Hi; lia.
Qed.

(** [notify_one]: the thread that notifies is another one than the one it wakes. *)
Lemma no_lost_push_notify q l i l' :
  l !! i = Some PushNotify -> notify_one is_reader wake_reader l l' -> no_lost q l -> no_lost q (<[i := Idle]> l').
Proof.
  intros Hi Hn [H1 H2 H3 H4 H5]. destruct Hn as [j st Hj Hst|Hnone].
  - destruct st; try done. assert (i <> j) by (intros ->; congruence). cbn [wake_reader].
    assert (Hi' : <[j := PopWant]> l !! i = Some PushNotify) by (by rewrite list_lookup_insert_ne).
    nonneg (<[i := Idle]> (<[j := PopWant]> l)).
    split; intros Hd; use_done H1 H2 H3 H4 H5 Hd; count Hi'; count Hj; lia.
  - assert (Hz : cnt is_reader l = 0) by (by apply cnt_none). nonneg (<[i := Idle]> l).
    split; intros Hd; use_done H1 H2 H3 H4 H5 Hd; count Hi; lia.
Qed.

Lemma no_lost_pop_notify q l i item l' :
  l !! i = Some (PopNotify item) -> notify_one is_writer wake_writer l l' -> no_lost q l -> no_lost q (<[i := Idle]> l').
Proof.
  intros Hi Hn [H1 H2 H3 H4 H5]. destruct Hn as [j st Hj Hst|Hnone].
  - destruct st as [|x|x| | | | | | | | | | | |]; try done. assert (i <> j) by (intros ->; congruence). cbn [wake_writer].
    assert (Hi' : <[j := PushWant x]> l !! i = Some (PopNotify item)) by (by rewrite list_lookup_insert_ne).
    nonneg (<[i := Idle]> (<[j := PushWant x]> l)).
    split; intros Hd; use_done H1 H2 H3 H4 H5 Hd; count Hi'; count Hj; lia.
  - assert (Hz : cnt is_writer l = 0) by (by apply cnt_none). nonneg (<[i := Idle]> l).
    split; intros Hd; use_done H1 H2 H3 H4 H5 Hd; count Hi; lia.
Qed.

(** What [notify_all] changes: nobody sleeps there any more, and the threads it wakes want the mutex. *)
Lemma map_counts (f : WqThread T -> WqThread T) l :
  In f [wake_reader; wake_writer; wake_finish] ->
  (cnt is_reader (map f l) <= cnt is_reader l /\ cnt is_writer (map f l) <= cnt is_writer l /\ cnt is_finish (map f l) <= cnt is_finish l) /\
  (cnt is_pop_want l <= cnt is_pop_want (map f l) /\ cnt is_push_want l <= cnt is_push_want (map f l)) /\
  (cnt is_push_notify (map f l) = cnt is_push_notify l /\ cnt is_pop_notify (map f l) = cnt is_pop_notify l /\
   cnt is_size_notify (map f l) = cnt is_size_notify l) /\
  (cnt finishing_1 (map f l) = cnt finishing_1 l /\ cnt finishing_2 (map f l) = cnt finishing_2 l /\ cnt finishing_3 (map f l) = cnt finishing_3 l).
Proof.
  intros Hf. induction l as [|st l IH]; [done|]. cbn [map cnt].
  destruct Hf as [<-|[<-|[<-|[]]]]; destruct st; cbn [wake_reader wake_writer wake_finish Z.b2z is_reader is_writer is_finish is_pop_want
    is_push_want is_push_notify is_pop_notify is_size_notify finishing_1 finishing_2 finishing_3]; lia.
Qed.

Lemma no_lost_notify_all (f : WqThread T -> WqThread T) q l i st st' :
  l !! i = Some st -> f st = st -> In f [wake_reader; wake_writer; wake_finish] ->
  ((st = SizeNotify /\ st' = Idle /\ cnt is_writer (map f l) = 0) \/
   (st = FinishReaders /\ st' = FinishWriters /\ cnt is_reader (map f l) = 0) \/
   (st = FinishWriters /\ st' = FinishFinish /\ cnt is_writer (map f l) = 0) \/
   (st = FinishFinish /\ st' = Idle /\ cnt is_finish (map f l) = 0)) ->
  no_lost q l -> no_lost q (<[i := st']> (map f l)).
Proof.
  intros Hi Hfix Hf Hst [H1 H2 H3 H4 H5].
  assert (Hi' : map f l !! i = Some st) by (rewrite list_lookup_fmap, Hi; cbn; by rewrite Hfix).
  destruct (map_counts f l Hf) as ((C1 & C2 & C3) & (C4 & C5) & (C6 & C7 & C8) & C9 & C10 & C11). nonneg (<[i := Idle]> (map f l)).
  destruct Hst as [(-> & -> & C)|[(-> & -> & C)|[(-> & -> & C)|(-> & -> & C)]]];
    split; intros Hd; use_done H1 H2 H3 H4 H5 Hd; count Hi'; lia.
Qed.

Lemma no_lost_step (s : WqSys T) ev s' : wq_step s ev s' -> no_lost (wq s) (threads s) -> no_lost (wq s') (threads s').
Proof.
  destruct 1; cbn [wq threads]; intros HI.
  - by apply no_lost_call.
  - by eapply no_lost_critical.
  - by eapply no_lost_push_notify.
  - by eapply no_lost_pop_notify.
  - eapply (no_lost_notify_all wake_writer); [done|done|cbn; auto| |done]. left. split_and!; [done..|]. apply cnt_map_none. by intros [].
  - eapply (no_lost_notify_all wake_reader); [done|done|cbn; auto| |done]. right; left. split_and!; [done..|]. apply cnt_map_none. by intros [].
  - eapply (no_lost_notify_all wake_writer); [done|done|cbn; auto| |done]. right; right; left. split_and!; [done..|]. apply cnt_map_none. by intros [].
  - eapply (no_lost_notify_all wake_finish); [done|done|cbn; auto| |done]. right; right; right. split_and!; [done..|]. apply cnt_map_none. by intros [].
  - by apply no_lost_spurious.
Qed.

Lemma no_lost_run maxSize n tr (s : WqSys T) : wq_run maxSize n tr s -> no_lost (wq s) (threads s).
Proof. induction 1 as [|tr s ev s' _ IH Hs]; [apply no_lost_start|by eapply no_lost_step]. Qed.

(** ** What goes through the queue *)

Definition pushed (tr : list (WqEvent T)) : list T := tr ≫= fun ev => match ev with EvPushed x => [x] | _ => [] end.
Definition popped (tr : list (WqEvent T)) : list T := tr ≫= fun ev => match ev with EvPopped x => [x] | _ => [] end.

Lemma critical_events st (q : WorkQueue T) q' st' ev :
  critical st q = Some (q', st', ev) ->
  queue_ q ++ pushed ev = popped ev ++ queue_ q' /\
  (done_ q = true -> done_ q' = true) /\
  (forall x, In (EvRefused x) ev -> done_ q = true) /\ (In EvEmpty ev -> done_ q = true /\ queue_ q = []).
Proof.
  intros Hst. destruct st; try done; cbn [critical] in Hst.
  - destruct (full q && negb (done_ q)); [|destruct (done_ q) eqn:Ed]; simplify_eq; cbn; rewrite ?app_nil_r; naive_solver.
  - destruct (queue_ q) as [|x rest] eqn:Eq; [destruct (done_ q) eqn:Ed|]; simplify_eq; cbn; rewrite ?app_nil_r, ?Eq; naive_solver.
  - simplify_eq; cbn; rewrite app_nil_r; naive_solver.
  - destruct (done_ q); simplify_eq; cbn; rewrite app_nil_r; naive_solver.
  - destruct (done_ q) eqn:Ed; simplify_eq; cbn; rewrite app_nil_r; naive_solver.
Qed.

Lemma run_fifo maxSize n tr (s : WqSys T) : wq_run maxSize n tr s -> pushed tr = popped tr ++ queue_ (wq s).
Proof.
  induction 1 as [|tr s ev s' _ IH Hs]; [done|]. unfold pushed, popped in *. rewrite !bind_app, IH.
  destruct Hs; cbn [wq] in *; try (cbn; by rewrite !app_nil_r).
  match goal with H : critical _ _ = _ |- _ => destruct (critical_events _ _ _ _ _ H) as (E & _) end.
  unfold pushed, popped in E. rewrite <- !app_assoc. by rewrite E.
Qed.

Lemma run_refusals maxSize n tr (s : WqSys T) :
  wq_run maxSize n tr s -> done_ (wq s) = false -> (forall x, ~ In (EvRefused x) tr) /\ ~ In EvEmpty tr.
Proof.
  induction 1 as [|tr s ev s' _ IH Hs]; [intros _; split; [intros x []|intros []]|]. intros Hd.
  assert (Hsplit : done_ (wq s) = false /\ (forall x, ~ In (EvRefused x) ev) /\ ~ In EvEmpty ev).
  { destruct Hs; cbn [wq] in *; try (split_and!; [done|intros x|]; cbn; intuition discriminate).
    match goal with H : critical _ _ = _ |- _ => destruct (critical_events _ _ _ _ _ H) as (_ & E1 & E2 & E3) end.
    destruct (done_ q) eqn:Eq; [specialize (E1 eq_refl); congruence|]. split_and!; [done| |].
    - intros x Hx. apply E2 in Hx. congruence.
    - intros Hx. apply E3 in Hx as [Hx _]. congruence. }
  destruct Hsplit as (H1 & H2 & H3). destruct (IH H1) as [H4 H5].
  split; [intros x|]; rewrite in_app_iff; intros [Hx|Hx]; first [by apply (H4 x)|by apply (H2 x)|by apply H5|by apply H3].
Qed.

(** Threads that are in no call, or asleep *)
Definition at_rest st : bool := match st with Idle | PushSleep _ | PopSleep | WaitSleep => true | _ => false end.

Lemma notify_exists sleeps (wake : WqThread T -> WqThread T) l : exists l', notify_one sleeps wake l l'.
Proof.
  destruct (decide (Exists (fun st => sleeps st = true) l)) as [H|H].
  - apply Exists_exists in H as (st & Hin & Hst). apply list_elem_of_lookup in Hin as [i Hi]. eexists. by eapply notify_some.
  - exists l. apply notify_none. intros i st Hi. apply not_true_iff_false. intros Hst. apply H, Exists_exists. exists st.
    split; [by eapply list_elem_of_lookup_2|done].
Qed.

(** A thread of the list that has moved *)
Lemma moved (l l' : list (WqThread T)) i st st' :
  l !! i = Some st -> length l' = length l -> st' <> st -> exists st'', <[i := st']> l' !! i = Some st'' /\ st'' <> st.
Proof.
  intros Hi Hlen Hne. exists st'. split; [|done]. apply list_lookup_insert_eq. rewrite Hlen. by eapply lookup_lt_Some.
Qed.

Lemma notify_length sleeps (wake : WqThread T -> WqThread T) l l' : notify_one sleeps wake l l' -> length l' = length l.
Proof. destruct 1; [apply length_insert|done]. Qed.

Lemma critical_moves st (q : WorkQueue T) q' st' ev : critical st q = Some (q', st', ev) -> st' <> st.
Proof. destruct st; cbn [critical]; intros E; repeat case_match; simplify_eq; done. Qed.

Lemma awake_steps (s : WqSys T) i st :
  threads s !! i = Some st -> at_rest st = false ->
  (st = FinishWant /\ done_ (wq s) = true) \/
  exists ev s', wq_step s ev s' /\ exists st', threads s' !! i = Some st' /\ st' <> st.
Proof.
  destruct s as [q l]. cbn [wq threads]. intros Hi Hst.
  destruct (critical st q) as [[[q' st'] ev]|] eqn:E.
  { right. eexists _, _. split; [by eapply step_critical|]. by eapply moved, critical_moves. }
  destruct st; try done; cbn [critical] in E; try (repeat case_match; discriminate E).
  - right. destruct (notify_exists is_reader wake_reader l) as [l' Hl]. eexists _, _.
    split; [by eapply step_push_notify|by eapply moved; [|eapply notify_length|]].
  - right. destruct (notify_exists is_writer wake_writer l) as [l' Hl]. eexists _, _.
    split; [by eapply step_pop_notify|by eapply moved; [|eapply notify_length|]].
  - right. eexists _, _. split; [by eapply step_size_notify|by eapply moved; [|apply length_map|]].
  - left. destruct (done_ q); done.
  - right. eexists _, _. split; [by eapply step_finish_readers|by eapply moved; [|apply length_map|]].
  - right. eexists _, _. split; [by eapply step_finish_writers|by eapply moved; [|apply length_map|]].
  - right. eexists _, _. split; [by eapply step_finish_finish|by eapply moved; [|apply length_map|]].
Qed.

(** C14: The work queue hands items over in order and loses no wake-up. In every run of any number
    of threads, with limits that change and wake-ups without notification: the items pushed so
    far are the items popped so far followed by those in the queue, in this order; [push] refuses
    an item and [pop] reports the end only after [finish]. And whenever every thread is in no
    call or asleep, a sleeping [pop] means that the queue is empty, a sleeping [push] that it is
    full, and both, as a sleeping [waitUntilFinished], that [finish] has not been called: no
    thread sleeps although its condition holds. A thread in a call that is not asleep can always
    take its next step, unless it calls [finish] a second time. *)
Theorem work_queue_sound maxSize n tr (s : WqSys T) (Hrun : wq_run maxSize n tr s) :
  pushed tr = popped tr ++ queue_ (wq s) /\
  (done_ (wq s) = false -> (forall x, ~ In (EvRefused x) tr) /\ ~ In EvEmpty tr) /\
  ((forall i st, threads s !! i = Some st -> at_rest st = true) ->
   forall i st, threads s !! i = Some st ->
     match st with
     | PopSleep => queue_ (wq s) = [] /\ done_ (wq s) = false
     | PushSleep _ => full (wq s) = true /\ done_ (wq s) = false
     | WaitSleep => done_ (wq s) = false
     | _ => True
     end) /\
  (forall i st, threads s !! i = Some st -> at_rest st = false ->
     (st = FinishWant /\ done_ (wq s) = true) \/
     exists ev s', wq_step s ev s' /\ exists st', threads s' !! i = Some st' /\ st' <> st).
Proof.
  split_and!; [by eapply run_fifo|by eapply run_refusals| |intros i st; apply awake_steps]. intros Hrest i st Hi.
  destruct (no_lost_run _ _ _ _ Hrun) as [H1 H2 H3 H4 H5].
  assert (Hz : forall P, (forall st, at_rest st = true -> P st = false) -> cnt P (threads s) = 0).
  { intros P HP. apply cnt_none. intros j st' Hj. by apply HP, (Hrest j). }
  assert (Hpos : forall P, P st = true -> cnt P (threads s) <> 0) by (intros P HP E; rewrite (cnt_zero P _ _ _ E Hi) in HP; done).
  rewrite (Hz is_push_notify), (Hz is_pop_want) in H1 by (by intros []).
  rewrite (Hz is_size_notify), (Hz is_pop_notify), (Hz is_push_want) in H2 by (by intros []).
  rewrite (Hz finishing_1) in H3 by (by intros []). rewrite (Hz finishing_2) in H4 by (by intros []).
  rewrite (Hz finishing_3) in H5 by (by intros []).
  destruct (done_ (wq s)) eqn:Ed; destruct st; try done.
  - destruct H4 as [|E]; [done|lia|]. by apply Hpos in E.
  - destruct H3 as [|E]; [done|lia|]. by apply Hpos in E.
  - destruct H5 as [|E]; [done|lia|]. by apply Hpos in E.
  - split; [|done]. destruct (H2 eq_refl) as [|[E|[Hm Hs]]]; [lia|by apply Hpos in E|]. unfold full.
    destruct (maxSize_ (wq s) =? 0) eqn:E0; lia.
  - split; [|done]. destruct (H1 eq_refl) as [E|Hs]; [by apply Hpos in E|].
    destruct (queue_ (wq s)); [done|]. rewrite size_cons in Hs. pose proof (size_nonneg l). lia.
Qed.
End proofs.

(** One thread sleeps in [pop], the other pushes an item and wakes it. *)
Lemma work_queue_sound_witness :
  let s := mkSys (mkQueue [] false 1) [PopNotify 7; Idle] in
  wq_run 1 2 [EvPushed 7; EvPopped 7] s /\ pushed [EvPushed 7; EvPopped 7] = popped [EvPushed 7; EvPopped 7] ++ queue_ (wq s).
Proof.
  assert (Hrun : wq_run 1 2 [EvPushed 7; EvPopped 7] (mkSys (mkQueue [] false 1) [PopNotify 7; Idle])).
  { change [EvPushed 7; EvPopped 7] with (((((([] ++ []) ++ []) ++ []) ++ [EvPushed 7]) ++ []) ++ [EvPopped 7]).
    eapply run_step; [eapply run_step; [eapply run_step; [eapply run_step; [eapply run_step; [eapply run_step; [apply run_start|]|]|]|]|]|].
    - eapply (step_call _ _ 0 PopWant); reflexivity.
    - eapply (step_critical _ _ 0 PopWant _ PopSleep); reflexivity.
    - eapply (step_call _ _ 1 (PushWant 7)); reflexivity.
    - eapply (step_critical _ _ 1 (PushWant 7) _ PushNotify); reflexivity.
    - eapply (step_push_notify _ _ 1); [reflexivity|]. by apply (notify_some _ _ _ 0 PopSleep).
    - change [PopNotify 7; Idle] with (<[0%nat := PopNotify 7]> [PopWant; Idle]). eapply (step_critical _ _ 0 PopWant _ (PopNotify 7)); reflexivity. }
  split; [exact Hrun|]. apply (work_queue_sound 1 2 _ _ Hrun).
Defined.
