(* ===== verification/MultiGet.v ===== *)
(** * Ranges of a batched lookup

    [table/multiget_context.h]: the keys of a [MultiGet] are numbered in order; a [Range] is an
    interval of them with two bit masks, and the context has a mask of the keys whose value has
    been found. The masks have 64 bits. What a key needs for its lookup is left out. *)

From Stdlib Require Import Sorting.Sorted.
From S2P Require Import Prelude.
From S2P Require Import Math128.

(** ** Operations *)

Definition MAX_BATCH_SIZE : Z := 32.

Definition mask1 (i : Z) : Z := u64 (Z.shiftl 1 i).
Definition not64 (m : Z) : Z := u64 (Z.lnot m).

Record MultiGetContext : Set := mkContext { num_keys_ : Z; value_mask_ : Z; value_size_ : Z }.

Definition MultiGetContext_new (num_keys : Z) : MultiGetContext := mkContext num_keys 0 0.

Record Range : Set := mkRange { start_ : Z; end_ : Z; skip_mask_ : Z; invalid_mask_ : Z }.

Definition Range_new (num_keys : Z) : Range := mkRange 0 num_keys 0 0.

Definition GetMultiGetRange (ctx : MultiGetContext) : Range := Range_new (num_keys_ ctx).

(** The condition of the loops of the iterator *)
Definition passed_over (ctx : MultiGetContext) (r : Range) (index : Z) : bool :=
  negb (Z.land (mask1 index) (Z.lor (Z.lor (value_mask_ ctx) (skip_mask_ r)) (invalid_mask_ r)) =? 0).

(** [while (index_ < end_ && ...) index_++]: no more rounds than there are keys up to the end. *)
Fixpoint advance (fuel : nat) (ctx : MultiGetContext) (r : Range) (index : Z) : Z :=
  match fuel with
  | S fuel => if (index <? end_ r) && passed_over ctx r index then advance fuel ctx r (index + 1) else index
  | O => index
  end.

(** An iterator is its index. *)
Definition Iterator (ctx : MultiGetContext) (r : Range) (idx : Z) : Z := advance (Z.to_nat (end_ r - idx)) ctx r idx.
Definition Iterator_next (ctx : MultiGetContext) (r : Range) (index : Z) : Z :=
  advance (Z.to_nat (end_ r - (index + 1))) ctx r (index + 1).

Definition Range_begin (ctx : MultiGetContext) (r : Range) : Z := Iterator ctx r (start_ r).
Definition Range_end (ctx : MultiGetContext) (r : Range) : Z := Iterator ctx r (end_ r).

Definition Range_sub (r : Range) (first last : Z) : Range :=
  if first =? last then mkRange (start_ r) (start_ r) (skip_mask_ r) (invalid_mask_ r)
  else mkRange first last (skip_mask_ r) (invalid_mask_ r).

Definition RangeMask (start end_ : Z) : Z := u64 (Z.shiftl (u64 (mask1 (end_ - start) - 1)) start).

Definition RemainingMask (ctx : MultiGetContext) (r : Range) : Z :=
  Z.land (Z.land (u64 (mask1 (end_ r) - 1)) (not64 (u64 (mask1 (start_ r) - 1))))
         (not64 (Z.lor (value_mask_ ctx) (skip_mask_ r))).

Definition Range_empty (ctx : MultiGetContext) (r : Range) : bool := RemainingMask ctx r =? 0.
Definition KeysLeft (ctx : MultiGetContext) (r : Range) : Z := BitsSetToOne (RemainingMask ctx r).

Definition SkipIndex (r : Range) (index : Z) : Range :=
  mkRange (start_ r) (end_ r) (Z.lor (skip_mask_ r) (mask1 index)) (invalid_mask_ r).
Definition IsKeySkipped (r : Range) (index : Z) : bool := negb (Z.land (skip_mask_ r) (mask1 index) =? 0).
Definition MarkKeyDone (ctx : MultiGetContext) (index : Z) : MultiGetContext :=
  mkContext (num_keys_ ctx) (Z.lor (value_mask_ ctx) (mask1 index)) (value_size_ ctx).
Definition CheckKeyDone (ctx : MultiGetContext) (index : Z) : bool := negb (Z.land (value_mask_ ctx) (mask1 index) =? 0).
Definition AddSkipsFrom (r other : Range) : Range :=
  mkRange (start_ r) (end_ r) (Z.lor (skip_mask_ r) (skip_mask_ other)) (invalid_mask_ r).
Definition AddValueSize (ctx : MultiGetContext) (value_size : Z) : MultiGetContext :=
  mkContext (num_keys_ ctx) (value_mask_ ctx) (u64 (value_size_ ctx + value_size)).

(** [while (mask >>= 1) index++]: at most 63 rounds *)
Fixpoint last_loop (fuel : nat) (mask index : Z) : Z :=
  match fuel with
  | S fuel => if Z.shiftr mask 1 =? 0 then index else last_loop fuel (Z.shiftr mask 1) (index + 1)
  | O => index
  end.

Definition FindLastRemaining (ctx : MultiGetContext) (r : Range) : Z :=
  let mask := Z.shiftr (RemainingMask ctx r) (start_ r) in
  last_loop 63 mask (if mask =? 0 then 0 else start_ r).

Definition Suffix (ctx : MultiGetContext) (r other : Range) : Range :=
  let other_last := FindLastRemaining ctx other in
  let my_last := FindLastRemaining ctx r in
  if my_last >? other_last then Range_sub r (Iterator ctx r other_last) (Iterator ctx r my_last)
  else Range_sub r (Range_begin ctx r) (Range_begin ctx r).

(** [operator+=] *)
Definition Range_add (r rhs : Range) : Range :=
  let '(invalid, skip) :=
    if end_ r <? start_ rhs
    then (Z.lor (invalid_mask_ r) (RangeMask (end_ r) (start_ rhs)), Z.lor (skip_mask_ r) (RangeMask (end_ r) (start_ rhs)))
    else (invalid_mask_ r, skip_mask_ r) in
  mkRange (Z.min (start_ r) (start_ rhs)) (Z.max (end_ r) (end_ rhs))
    (Z.lor skip (Z.land (skip_mask_ rhs) (RangeMask (start_ rhs) (end_ rhs))))
    (Z.lor invalid (Z.land (Z.lor (invalid_mask_ rhs) (skip_mask_ rhs)) (RangeMask (start_ rhs) (end_ rhs)))).

(** [operator-=] *)
Definition Range_remove (r rhs : Range) : Range :=
  let removed := Z.land (Z.lor (not64 (skip_mask_ rhs)) (invalid_mask_ rhs)) (RangeMask (start_ rhs) (end_ rhs)) in
  mkRange (start_ r) (end_ r) (Z.lor (skip_mask_ r) removed) (Z.lor (invalid_mask_ r) removed).

(** [operator~] *)
Definition Range_complement (r : Range) : Range :=
  mkRange (start_ r) (end_ r) (Z.land (not64 (skip_mask_ r)) (RangeMask (start_ r) (end_ r))) (invalid_mask_ r).

(** ** Bits *)

Lemma mask1_bits i k : 0 <= i < 64 -> 0 <= k -> Z.testbit (mask1 i) k = (k =? i).
Proof.
  intros Hi Hk. unfold mask1. rewrite wrap_bits, Z.shiftl_1_l by lia.
  destruct (Z.eqb_spec k i) as [->|Hne].
  - rewrite Z.pow2_bits_true by lia. by destruct (Z.ltb_spec i 64); [|lia].
  - rewrite Z.pow2_bits_false by lia. apply andb_false_r.
Qed.

Lemma ones_mask n k : 0 <= n < 64 -> 0 <= k -> Z.testbit (u64 (mask1 n - 1)) k = (k <? n).
Proof.
  intros Hn Hk. unfold mask1. rewrite Z.shiftl_1_l, (wrap_small 64 (2 ^ n)).
  - replace (2 ^ n - 1) with (Z.ones n) by (rewrite Z.ones_equiv; lia). rewrite wrap_bits by lia.
    rewrite Z.testbit_ones_nonneg by lia. destruct (Z.ltb_spec k n), (Z.ltb_spec k 64); lia || done.
  - split; [lia|]. apply Z.pow_lt_mono_r; lia.
Qed.

Lemma not64_bits m k : 0 <= k -> Z.testbit (not64 m) k = (k <? 64) && negb (Z.testbit m k).
Proof. intros Hk. unfold not64. by rewrite wrap_bits, Z.lnot_spec by lia. Qed.

Lemma RangeMask_bits a b k : 0 <= a <= b -> b < 64 -> 0 <= k -> Z.testbit (RangeMask a b) k = (a <=? k) && (k <? b).
Proof.
  intros Ha Hb Hk. unfold RangeMask. rewrite wrap_bits by lia. rewrite Z.shiftl_spec by lia.
  destruct (Z.leb_spec a k).
  - rewrite ones_mask by lia. destruct (Z.ltb_spec k 64), (Z.ltb_spec (k - a) (b - a)), (Z.ltb_spec k b); cbn; lia || done.
  - rewrite Z.testbit_neg_r by lia. apply andb_false_r.
Qed.

(** A bit mask with one bit set tests it. *)
Lemma land_mask1 m i : 0 <= i < 64 -> negb (Z.land (mask1 i) m =? 0) = Z.testbit m i.
Proof.
  intros Hi. destruct (Z.testbit m i) eqn:E.
  - apply negb_true_iff, Z.eqb_neq. intros H0. assert (H1 : Z.testbit (Z.land (mask1 i) m) i = true).
    { rewrite Z.land_spec, mask1_bits, E by lia. by rewrite Z.eqb_refl. }
    rewrite H0, Z.bits_0 in H1. done.
  - apply negb_false_iff, Z.eqb_eq. apply Z.bits_inj'. intros k Hk. rewrite Z.land_spec, mask1_bits, Z.bits_0 by lia.
    destruct (Z.eqb_spec k i) as [->|]; [by rewrite E|done].
Qed.

(** ** The keys of a range *)

(** A key of the range that is neither skipped nor done *)
Definition key_left (ctx : MultiGetContext) (r : Range) (i : Z) : bool :=
  (start_ r <=? i) && (i <? end_ r) && negb (Z.testbit (value_mask_ ctx) i) && negb (Z.testbit (skip_mask_ r) i).

Record range_ok (r : Range) : Prop := {
  ro_start : 0 <= start_ r <= end_ r;
  ro_end : end_ r < 64;
  ro_invalid i : 0 <= i -> Z.testbit (invalid_mask_ r) i = true -> Z.testbit (skip_mask_ r) i = true;
}.

Lemma RemainingMask_bits ctx r k : range_ok r -> 0 <= k -> Z.testbit (RemainingMask ctx r) k = key_left ctx r k.
Proof.
  intros [[H1 H2] H3 _] Hk. unfold RemainingMask, key_left. rewrite !Z.land_spec, ones_mask, !not64_bits, ones_mask, Z.lor_spec by lia.
  destruct (Z.ltb_spec k (end_ r)), (Z.leb_spec (start_ r) k), (Z.ltb_spec k (start_ r)), (Z.ltb_spec k 64), (Z.testbit (value_mask_ ctx) k),
    (Z.testbit (skip_mask_ r) k); cbn; lia || done.
Qed.

Lemma passed_over_spec ctx r i :
  range_ok r -> start_ r <= i < end_ r -> passed_over ctx r i = negb (key_left ctx r i).
Proof.
  intros [[H1 H2] H3 H4] Hi. unfold passed_over, key_left. rewrite land_mask1, !Z.lor_spec by lia.
  specialize (H4 i ltac:(lia)). destruct (Z.leb_spec (start_ r) i), (Z.ltb_spec i (end_ r)); try lia. cbn.
  destruct (Z.testbit (value_mask_ ctx) i), (Z.testbit (skip_mask_ r) i), (Z.testbit (invalid_mask_ r) i); cbn; try done.
  by rewrite H4.
Qed.

(** From the beginning to the end of a range *)
Fixpoint seen_from (fuel : nat) (ctx : MultiGetContext) (r : Range) (index : Z) : list Z :=
  match fuel with
  | S fuel => if index =? Range_end ctx r then [] else index :: seen_from fuel ctx r (Iterator_next ctx r index)
  | O => []
  end.

Lemma Range_end_eq ctx r : Range_end ctx r = end_ r.
Proof. unfold Range_end, Iterator. by rewrite Z.sub_diag. Qed.

Lemma Iterator_unfold ctx r i :
  i < end_ r -> Iterator ctx r i = if passed_over ctx r i then Iterator ctx r (i + 1) else i.
Proof.
  intros Hi. unfold Iterator. replace (Z.to_nat (end_ r - i)) with (S (Z.to_nat (end_ r - (i + 1)))) by lia. cbn [advance].
  destruct (Z.ltb_spec i (end_ r)); [|lia]. done.
Qed.

Lemma seen_from_eq ctx r (n fuel : nat) i :
  i <= end_ r -> n = Z.to_nat (end_ r - i) -> (n <= fuel)%nat ->
  seen_from fuel ctx r (Iterator ctx r i) = List.filter (fun k => negb (passed_over ctx r k)) (seqZ i (end_ r - i)).
Proof.
  revert fuel i. induction n as [|n IH]; intros fuel i Hi Hn Hf.
  - replace i with (end_ r) by lia. rewrite Z.sub_diag. unfold Iterator. rewrite Z.sub_diag. cbn.
    destruct fuel; [done|]. cbn [seen_from]. by rewrite Range_end_eq, Z.eqb_refl.
  - rewrite (seqZ_cons i) by lia. cbn [List.filter]. rewrite Iterator_unfold by lia.
    replace (Z.pred (end_ r - i)) with (end_ r - Z.succ i) by lia.
    destruct (passed_over ctx r i); cbn [negb]; [apply IH; lia|].
    destruct fuel as [|fuel]; [lia|]. cbn [seen_from]. rewrite Range_end_eq. destruct (Z.eqb_spec i (end_ r)); [lia|]. f_equal.
    change (Iterator_next ctx r i) with (Iterator ctx r (i + 1)). apply IH; lia.
Qed.

(** ** Counting *)

Lemma BitsSetToOne_step m : 0 <= m -> BitsSetToOne m = Z.b2z (Z.testbit m 0) + BitsSetToOne (m / 2).
Proof.
  intros Hm. rewrite <- Z.div2_div. destruct m as [|p|p]; [done| |lia]. by destruct p.
Qed.

Lemma filter_map_len {A B} (f : A -> B) (P : B -> bool) l : length (List.filter P (map f l)) = length (List.filter (fun x => P (f x)) l).
Proof. induction l as [|x l IH]; [done|]. cbn. destruct (P (f x)); cbn; by rewrite IH. Qed.

Lemma popcount_count (n : nat) m :
  0 <= m < 2 ^ Z.of_nat n -> BitsSetToOne m = size (List.filter (Z.testbit m) (seqZ 0 (Z.of_nat n))).
Proof.
  revert m. induction n as [|n IH]; intros m Hm.
  - change (2 ^ Z.of_nat 0) with 1 in Hm. by replace m with 0 by lia.
  - rewrite Nat2Z.inj_succ, Z.pow_succ_r in Hm by lia. rewrite BitsSetToOne_step by lia. rewrite IH by (split; [apply Z.div_pos; lia|apply Z.div_lt_upper_bound; lia]).
    rewrite (seqZ_cons 0 (Z.of_nat (S n))) by lia. replace (Z.pred (Z.of_nat (S n))) with (Z.of_nat n) by lia. cbn [List.filter].
    assert (Hlen : size (List.filter (Z.testbit (m / 2)) (seqZ 0 (Z.of_nat n))) = size (List.filter (Z.testbit m) (seqZ (Z.succ 0) (Z.of_nat n)))).
    { rewrite <- (fmap_add_seqZ 1 0). unfold size. change (fmap (Z.add 1)) with (map (Z.add 1)). rewrite filter_map_len. do 2 f_equal.
      apply filter_ext_in. intros k Hk. rewrite Z.div2_bits; [f_equal; lia|].
      apply list_elem_of_In, elem_of_seqZ in Hk. lia. }
    rewrite Hlen. destruct (Z.testbit m 0); cbn [Z.b2z]; [by rewrite size_cons|lia].
Qed.

Lemma filter_none {A} (P : A -> bool) l : (forall x, In x l -> P x = false) -> List.filter P l = [].
Proof. induction l as [|x l IH]; intros H; [done|]. cbn. rewrite H by (by left). apply IH. intros y Hy. apply H. by right. Qed.

Lemma RemainingMask_range ctx r : range_ok r -> is_uint 64 (RemainingMask ctx r).
Proof.
  intros Hr. assert (H0 : 0 <= RemainingMask ctx r).
  { unfold RemainingMask. apply Z.land_nonneg. right. unfold not64, wrap. by apply Z.mod_pos_bound. }
  split; [done|]. destruct (Z.eq_dec (RemainingMask ctx r) 0) as [->|]; [done|]. apply Z.log2_lt_pow2; [lia|].
  destruct (Z.lt_ge_cases (Z.log2 (RemainingMask ctx r)) 64) as [|Hl]; [done|]. exfalso.
  pose proof (Z.bit_log2 (RemainingMask ctx r) ltac:(lia)) as Hb. rewrite RemainingMask_bits in Hb by (done || apply Z.log2_nonneg).
  unfold key_left in Hb. destruct Hr as [_ He _]. destruct (Z.ltb_spec (Z.log2 (RemainingMask ctx r)) (end_ r)); [lia|].
  by rewrite andb_false_r in Hb.
Qed.

Lemma KeysLeft_count ctx r :
  range_ok r -> KeysLeft ctx r = size (List.filter (key_left ctx r) (seqZ (start_ r) (end_ r - start_ r))).
Proof.
  intros Hr. pose proof (RemainingMask_range ctx r Hr) as Hm. unfold KeysLeft. rewrite (popcount_count 64) by apply Hm.
  destruct Hr as [[H1 H2] H3 H4] eqn:E. clear E.
  replace (seqZ 0 (Z.of_nat 64)) with (seqZ 0 (start_ r) ++ seqZ (start_ r) (end_ r - start_ r) ++ seqZ (end_ r) (64 - end_ r)).
  - rewrite !List.filter_app, !size_app.
    rewrite (filter_none _ (seqZ 0 _)), (filter_none _ (seqZ (end_ r) _)).
    + change (size (@nil Z)) with 0. rewrite Z.add_0_l, Z.add_0_r. f_equal. apply filter_ext_in. intros k Hk.
      apply list_elem_of_In, elem_of_seqZ in Hk. by apply RemainingMask_bits; [|lia].
    + intros k Hk. apply list_elem_of_In, elem_of_seqZ in Hk. rewrite RemainingMask_bits by (done || lia).
      unfold key_left. destruct (Z.ltb_spec k (end_ r)); [lia|]. by rewrite andb_false_r.
    + intros k Hk. apply list_elem_of_In, elem_of_seqZ in Hk. rewrite RemainingMask_bits by (done || lia).
      unfold key_left. by destruct (Z.leb_spec (start_ r) k); [lia|].
  - replace (Z.of_nat 64) with (start_ r + ((end_ r - start_ r) + (64 - end_ r))) by lia.
    rewrite !seqZ_app by lia. do 3 f_equal; lia.
Qed.

(** ** The last key *)

Lemma last_loop_spec (fuel : nat) mask index :
  0 < mask < 2 ^ (Z.of_nat fuel + 1) -> last_loop fuel mask index = index + Z.log2 mask.
Proof.
  revert mask index. induction fuel as [|fuel IH]; intros mask index Hm; cbn [last_loop].
  - change (2 ^ (Z.of_nat 0 + 1)) with 2 in Hm. replace mask with 1 by lia. cbn. lia.
  - rewrite Z.shiftr_div_pow2 by lia. change (2 ^ 1) with 2. destruct (Z.eqb_spec (mask / 2) 0) as [E|E].
    + replace mask with 1; [cbn; lia|]. apply Z.div_small_iff in E; lia.
    + replace (Z.of_nat (S fuel) + 1) with (Z.succ (Z.of_nat fuel + 1)) in Hm by lia. rewrite Z.pow_succ_r in Hm by lia.
      assert (Hd : 0 < mask / 2) by (pose proof (Z.div_pos mask 2 ltac:(lia) ltac:(lia)); lia).
      rewrite IH by (split; [done|apply Z.div_lt_upper_bound; lia]).
      replace (Z.log2 mask) with (1 + Z.log2 (mask / 2)); [lia|].
      pose proof (Z.log2_shiftr mask 1 ltac:(lia)) as Hl. rewrite Z.shiftr_div_pow2 in Hl by lia. change (2 ^ 1) with 2 in Hl.
      assert (1 <= Z.log2 mask).
      { apply Z.log2_le_pow2; [lia|]. pose proof (Z.mul_div_le mask 2 ltac:(lia)). lia. }
      lia.
Qed.

(** The greatest key that is left, or 0 *)
Lemma FindLastRemaining_spec ctx r :
  range_ok r ->
  (forall i, 0 <= i -> key_left ctx r i = true -> i <= FindLastRemaining ctx r) /\
  (key_left ctx r (FindLastRemaining ctx r) = true \/ ((forall i, 0 <= i -> key_left ctx r i = false) /\ FindLastRemaining ctx r = 0)).
Proof.
  intros Hr. pose proof (RemainingMask_range ctx r Hr) as [H0 H1]. destruct Hr as [[Hs1 Hs2] He Hi] eqn:E. clear E.
  assert (Hb : forall i, 0 <= i -> Z.testbit (RemainingMask ctx r) i = key_left ctx r i) by (intros i; by apply RemainingMask_bits).
  unfold FindLastRemaining. set (m := RemainingMask ctx r) in *.
  destruct (Z.eq_dec m 0) as [Hm|Hm].
  - assert (Hnone : forall i, 0 <= i -> key_left ctx r i = false) by (intros i Hi'; rewrite <- Hb, Hm by done; apply Z.bits_0).
    rewrite Hm, Z.shiftr_0_l. split; [intros i Hi' Hk; rewrite Hnone in Hk by done; done|]. right. by split.
  - assert (Hlog : Z.testbit m (Z.log2 m) = true) by (apply Z.bit_log2; lia).
    assert (Hge : start_ r <= Z.log2 m).
    { rewrite Hb in Hlog by apply Z.log2_nonneg. unfold key_left in Hlog. destruct (Z.leb_spec (start_ r) (Z.log2 m)); [done|]. done. }
    assert (Hsh : Z.shiftr m (start_ r) <> 0).
    { intros Hz. apply Z.shiftr_eq_0_iff in Hz as [|[_ Hz]]; lia. }
    assert (Hsh0 : 0 < Z.shiftr m (start_ r)) by (pose proof (proj2 (Z.shiftr_nonneg m (start_ r)) H0); lia).
    destruct (Z.eqb_spec (Z.shiftr m (start_ r)) 0); [done|]. rewrite last_loop_spec.
    + rewrite Z.log2_shiftr by lia. replace (start_ r + Z.max 0 (Z.log2 m - start_ r)) with (Z.log2 m) by lia. split.
      * intros i Hi' Hk. rewrite <- Hb in Hk by done. destruct (Z.lt_ge_cases (Z.log2 m) i); [|lia].
        rewrite Z.bits_above_log2 in Hk by lia. done.
      * left. by rewrite <- Hb by apply Z.log2_nonneg.
    + split; [done|]. change (2 ^ (Z.of_nat 63 + 1)) with (2 ^ 64). eapply Z.le_lt_trans; [|exact H1].
      rewrite Z.shiftr_div_pow2 by lia. apply Z.div_le_upper_bound; [lia|]. pose proof (Z.pow_pos_nonneg 2 (start_ r)). nia.
Qed.

(** ** What the operations do to the keys *)

Ltac by_bits :=
  repeat match goal with |- context [Z.leb ?a ?b] => destruct (Z.leb_spec a b) | |- context [Z.ltb ?a ?b] => destruct (Z.ltb_spec a b)
    | |- context [Z.eqb ?a ?b] => destruct (Z.eqb_spec a b) end;
  repeat match goal with |- context [Z.testbit ?a ?b] => destruct (Z.testbit a b) end; cbn; lia || done.

Lemma add_left ctx r rhs i :
  range_ok r -> range_ok rhs -> end_ r <= start_ rhs -> 0 <= i ->
  key_left ctx (Range_add r rhs) i =
  key_left ctx r i || (key_left ctx rhs i && negb (Z.testbit (skip_mask_ r) i)).
Proof.
  intros [[A1 A2] A3 _] [[B1 B2] B3 _] Hle Hi. unfold Range_add, key_left.
  destruct (Z.ltb_spec (end_ r) (start_ rhs)); cbn [start_ end_ skip_mask_ invalid_mask_];
    rewrite !Z.lor_spec, Z.land_spec, !RangeMask_bits by lia; rewrite Z.min_l, Z.max_r by lia; by_bits.
Qed.

Lemma add_ok r rhs : range_ok r -> range_ok rhs -> end_ r <= start_ rhs -> range_ok (Range_add r rhs).
Proof.
  intros [[A1 A2] A3 A4] [[B1 B2] B3 B4] Hle. unfold Range_add.
  destruct (Z.ltb_spec (end_ r) (start_ rhs)); split; cbn [start_ end_ skip_mask_ invalid_mask_]; try lia;
    intros i Hi; rewrite !Z.lor_spec, !Z.land_spec, !Z.lor_spec; specialize (A4 i Hi); specialize (B4 i Hi);
    destruct (Z.testbit (invalid_mask_ r) i), (Z.testbit (invalid_mask_ rhs) i), (Z.testbit (skip_mask_ rhs) i), (Z.testbit (skip_mask_ r) i),
      (Z.testbit (RangeMask (start_ rhs) (end_ rhs)) i); try destruct (Z.testbit (RangeMask (end_ r) (start_ rhs)) i); cbn; intuition.
Qed.

Lemma remove_left ctx r rhs i :
  range_ok r -> range_ok rhs -> start_ r <= start_ rhs -> end_ rhs <= end_ r -> 0 <= i ->
  key_left ctx (Range_remove r rhs) i =
  key_left ctx r i && negb ((start_ rhs <=? i) && (i <? end_ rhs) &&
    (negb (Z.testbit (skip_mask_ rhs) i) || Z.testbit (invalid_mask_ rhs) i)).
Proof.
  intros [[A1 A2] A3 _] [[B1 B2] B3 _] Hs He Hi. unfold Range_remove, key_left. cbn [start_ end_ skip_mask_ invalid_mask_].
  rewrite !Z.lor_spec, Z.land_spec, Z.lor_spec, not64_bits, RangeMask_bits by lia. by_bits.
Qed.

Lemma remove_ok r rhs : range_ok r -> range_ok (Range_remove r rhs).
Proof.
  intros [[A1 A2] A3 A4]. unfold Range_remove. split; cbn [start_ end_ skip_mask_ invalid_mask_]; try lia.
  intros i Hi. rewrite !Z.lor_spec. specialize (A4 i Hi). destruct (Z.testbit (invalid_mask_ r) i); [by rewrite A4|].
  cbn. intros ->. apply orb_true_r.
Qed.

Lemma sub_left ctx r first last i :
  range_ok r -> start_ r <= first <= last -> last <= end_ r ->
  range_ok (Range_sub r first last) /\
  key_left ctx (Range_sub r first last) i = key_left ctx r i && (first <=? i) && (i <? last).
Proof.
  intros [[A1 A2] A3 A4] Hf Hl. unfold Range_sub. destruct (Z.eqb_spec first last) as [->|Hne].
  - split; [split; cbn [start_ end_ skip_mask_ invalid_mask_]; lia || done|]. unfold key_left. cbn [start_ end_ skip_mask_ invalid_mask_]. by_bits.
  - split; [split; cbn [start_ end_ skip_mask_ invalid_mask_]; lia || done|]. unfold key_left. cbn [start_ end_ skip_mask_ invalid_mask_]. by_bits.
Qed.

Lemma skip_left ctx r j i :
  range_ok r -> 0 <= j < 64 -> 0 <= i -> key_left ctx (SkipIndex r j) i = key_left ctx r i && negb (i =? j).
Proof.
  intros _ Hj Hi. unfold SkipIndex, key_left. cbn [start_ end_ skip_mask_]. rewrite Z.lor_spec, mask1_bits by lia. by_bits.
Qed.

Lemma done_left ctx r j i :
  0 <= j < 64 -> 0 <= i -> key_left (MarkKeyDone ctx j) r i = key_left ctx r i && negb (i =? j).
Proof. intros Hj Hi. unfold MarkKeyDone, key_left. cbn [value_mask_]. rewrite Z.lor_spec, mask1_bits by lia. by_bits. Qed.

Lemma complement_left ctx r i :
  range_ok r -> 0 <= i ->
  key_left ctx (Range_complement r) i =
  (start_ r <=? i) && (i <? end_ r) && negb (Z.testbit (value_mask_ ctx) i) && Z.testbit (skip_mask_ r) i.
Proof.
  intros [[A1 A2] A3 _] Hi. unfold Range_complement, key_left. cbn [start_ end_ skip_mask_].
  rewrite Z.land_spec, not64_bits, RangeMask_bits by lia. by_bits.
Qed.

(** An iterator stands at the first key that is left from where it was put. *)
Lemma Iterator_spec ctx r (n : nat) i :
  range_ok r -> start_ r <= i <= end_ r -> n = Z.to_nat (end_ r - i) ->
  i <= Iterator ctx r i <= end_ r /\ (forall k, i <= k < Iterator ctx r i -> key_left ctx r k = false).
Proof.
  intros Hr. revert i. induction n as [|n IH]; intros i Hi Hn.
  - replace i with (end_ r) by lia. unfold Iterator. rewrite Z.sub_diag. change (Z.to_nat 0) with O.
    cbn [advance]. split; [lia|]. intros k Hk. lia.
  - rewrite Iterator_unfold, passed_over_spec by (done || lia). destruct (key_left ctx r i) eqn:E; cbn [negb]; [split; [lia|intros; lia]|].
    destruct (IH (i + 1)) as [H1 H2]; [lia..|]. split; [lia|]. intros k Hk. destruct (Z.eq_dec k i) as [->|]; [done|]. apply H2. lia.
Qed.

Lemma key_left_range ctx r i : key_left ctx r i = true -> start_ r <= i < end_ r.
Proof. unfold key_left. destruct (Z.leb_spec (start_ r) i), (Z.ltb_spec i (end_ r)); cbn; done || lia. Qed.

Lemma suffix_left ctx r other i :
  range_ok r -> range_ok other -> start_ r <= FindLastRemaining ctx other ->
  range_ok (Suffix ctx r other) /\
  key_left ctx (Suffix ctx r other) i =
  key_left ctx r i && (FindLastRemaining ctx other <=? i) && (i <? FindLastRemaining ctx r).
Proof.
  intros Hr Ho Hs. unfold Suffix. destruct (FindLastRemaining_spec ctx r Hr) as [_ Hlast].
  set (a := FindLastRemaining ctx other) in *. set (b := FindLastRemaining ctx r) in *. rewrite Z.gtb_ltb.
  destruct (Z.ltb_spec a b) as [Hab|Hab].
  - destruct Hlast as [Hlast|[_ Hz]]; [|destruct Hr; lia]. pose proof (key_left_range _ _ _ Hlast) as Hbr.
    destruct (Iterator_spec ctx r _ a Hr ltac:(lia) eq_refl) as [Ha1 Ha2].
    assert (Hb : Iterator ctx r b = b). { rewrite Iterator_unfold, passed_over_spec, Hlast by (done || lia). done. }
    assert (Hle : Iterator ctx r a <= b).
    { destruct (Z.le_gt_cases (Iterator ctx r a) b); [done|]. rewrite Ha2 in Hlast by lia. done. }
    rewrite Hb. destruct (sub_left ctx r (Iterator ctx r a) b i Hr ltac:(lia) ltac:(lia)) as [Hok ->]. split; [done|].
    destruct (Z.leb_spec (Iterator ctx r a) i), (Z.leb_spec a i); lia || done || by rewrite Ha2 by lia.
  - assert (Hb : start_ r <= Range_begin ctx r <= end_ r).
    { unfold Range_begin. by eapply Iterator_spec; [|destruct Hr; lia|]. }
    destruct (sub_left ctx r (Range_begin ctx r) (Range_begin ctx r) i Hr ltac:(lia) ltac:(lia)) as [Hok ->]. split; [done|].
    destruct (key_left ctx r i); [|done]. by_bits.
Qed.

(** ** The theorem *)

(** The keys that a loop over a range sees; the ranges end before 64. *)
Definition keys (ctx : MultiGetContext) (r : Range) : list Z := seen_from 64 ctx r (Range_begin ctx r).

Lemma keys_seen ctx r :
  0 <= start_ r <= end_ r -> end_ r < 64 ->
  keys ctx r = List.filter (fun k => negb (passed_over ctx r k)) (seqZ (start_ r) (end_ r - start_ r)).
Proof. intros Hs He. unfold keys, Range_begin. eapply seen_from_eq; [lia|done|lia]. Qed.

Lemma keys_eq ctx r : range_ok r -> keys ctx r = List.filter (key_left ctx r) (seqZ (start_ r) (end_ r - start_ r)).
Proof.
  intros Hr. rewrite keys_seen by (destruct Hr; lia). apply filter_ext_in. intros k Hk. apply list_elem_of_In, elem_of_seqZ in Hk.
  rewrite passed_over_spec by (done || lia). apply negb_involutive.
Qed.

Lemma keys_in ctx r i : range_ok r -> In i (keys ctx r) <-> key_left ctx r i = true.
Proof.
  intros Hr. rewrite keys_eq, List.filter_In by done. split; [by intros []|]. intros H. split; [|done].
  apply list_elem_of_In, elem_of_seqZ. pose proof (key_left_range _ _ _ H). lia.
Qed.

Lemma seqZ_sorted (n : nat) a len : n = Z.to_nat len -> StronglySorted Z.lt (seqZ a len).
Proof.
  revert a len. induction n as [|n IH]; intros a len Hn; [rewrite seqZ_nil by lia; constructor|].
  rewrite seqZ_cons by lia. constructor; [apply IH; lia|]. apply List.Forall_forall. intros k Hk. apply list_elem_of_In, elem_of_seqZ in Hk. lia.
Qed.

Lemma filter_sorted {A} (R : A -> A -> Prop) P l : StronglySorted R l -> StronglySorted R (List.filter P l).
Proof.
  induction 1 as [|x l Hl IH Hx]; [constructor|]. cbn. destruct (P x); [|done]. constructor; [done|].
  rewrite List.Forall_forall in *. intros y Hy. apply List.filter_In in Hy as [Hy _]. by apply Hx.
Qed.

Lemma keys_sorted ctx r : range_ok r -> StronglySorted Z.lt (keys ctx r).
Proof. intros Hr. rewrite keys_eq by done. by eapply filter_sorted, seqZ_sorted. Qed.

Lemma empty_keys ctx r : range_ok r -> (Range_empty ctx r = true <-> keys ctx r = []).
Proof.
  intros Hr. unfold Range_empty. rewrite Z.eqb_eq. split.
  - intros H0. destruct (keys ctx r) as [|i l] eqn:E; [done|]. assert (Hi : In i (keys ctx r)) by (rewrite E; by left).
    apply keys_in in Hi; [|done]. pose proof (key_left_range _ _ _ Hi). destruct Hr as [Hs He Hm] eqn:Er. clear Er.
    rewrite <- RemainingMask_bits, H0, Z.bits_0 in Hi by (done || lia). done.
  - intros Hk. apply Z.bits_inj'. intros i Hi. rewrite RemainingMask_bits, Z.bits_0 by done.
    destruct (key_left ctx r i) eqn:E; [|done]. apply keys_in in E; [|done]. by rewrite Hk in E.
Qed.

(** The bits of the keys, as the code asks for them *)
Lemma IsKeySkipped_bit r i : 0 <= i < 64 -> IsKeySkipped r i = Z.testbit (skip_mask_ r) i.
Proof. intros Hi. unfold IsKeySkipped. rewrite Z.land_comm. by apply land_mask1. Qed.

Lemma CheckKeyDone_bit ctx i : 0 <= i < 64 -> CheckKeyDone ctx i = Z.testbit (value_mask_ ctx) i.
Proof. intros Hi. unfold CheckKeyDone. rewrite Z.land_comm. by apply land_mask1. Qed.

Lemma keys_spec ctx r i :
  range_ok r -> In i (keys ctx r) <-> start_ r <= i < end_ r /\ CheckKeyDone ctx i = false /\ IsKeySkipped r i = false.
Proof.
  intros Hr. rewrite keys_in by done. destruct Hr as [Hs He _]. split.
  - intros H. pose proof (key_left_range _ _ _ H) as Hi. rewrite CheckKeyDone_bit, IsKeySkipped_bit by lia. split; [done|].
    unfold key_left in H. by destruct (Z.testbit (value_mask_ ctx) i), (Z.testbit (skip_mask_ r) i); rewrite ?andb_false_r in H.
  - intros (Hi & H1 & H2). rewrite CheckKeyDone_bit in H1 by lia. rewrite IsKeySkipped_bit in H2 by lia. unfold key_left. rewrite H1, H2.
    destruct (Z.leb_spec (start_ r) i), (Z.ltb_spec i (end_ r)); lia || done.
Qed.

Lemma mask_ok r s : range_ok r -> range_ok (mkRange (start_ r) (end_ r) (Z.lor (skip_mask_ r) s) (invalid_mask_ r)).
Proof. intros [A1 A2 A3]. split; cbn [start_ end_ skip_mask_ invalid_mask_]; try done. intros i Hi Hm. rewrite Z.lor_spec. by rewrite A3. Qed.

Lemma skip_keys ctx r j :
  range_ok r -> 0 <= j < 64 ->
  range_ok (SkipIndex r j) /\ forall i, In i (keys ctx (SkipIndex r j)) <-> In i (keys ctx r) /\ i <> j.
Proof.
  intros Hr Hj. assert (Hok : range_ok (SkipIndex r j)) by by apply mask_ok. split; [done|]. intros i. rewrite !keys_in by done.
  destruct (Z.lt_ge_cases i 0) as [Hi|Hi].
  - split; [intros H; apply key_left_range in H|intros [H _]; apply key_left_range in H]; destruct Hr; cbn in *; lia.
  - rewrite skip_left by (done || lia). destruct (Z.eqb_spec i j); destruct (key_left ctx r i); cbn; intuition congruence.
Qed.

Lemma done_keys ctx r j :
  range_ok r -> 0 <= j < 64 -> forall i, In i (keys (MarkKeyDone ctx j) r) <-> In i (keys ctx r) /\ i <> j.
Proof.
  intros Hr Hj i. rewrite !keys_in by done. destruct (Z.lt_ge_cases i 0) as [Hi|Hi].
  - split; [intros H; apply key_left_range in H|intros [H _]; apply key_left_range in H]; destruct Hr; lia.
  - rewrite done_left by (done || lia). destruct (Z.eqb_spec i j); destruct (key_left ctx r i); cbn; intuition congruence.
Qed.

Lemma sub_keys ctx r first last :
  range_ok r -> start_ r <= first <= last -> last <= end_ r ->
  range_ok (Range_sub r first last) /\
  forall i, In i (keys ctx (Range_sub r first last)) <-> In i (keys ctx r) /\ first <= i < last.
Proof.
  intros Hr H1 H2. split; [by apply (sub_left ctx r first last 0)|]. intros i.
  destruct (sub_left ctx r first last i Hr H1 H2) as [Hok Hk]. rewrite !keys_in, Hk by done.
  destruct (Z.leb_spec first i), (Z.ltb_spec i last), (key_left ctx r i); cbn; intuition (lia || done).
Qed.

Lemma add_keys ctx r rhs :
  range_ok r -> range_ok rhs -> end_ r <= start_ rhs ->
  range_ok (Range_add r rhs) /\
  forall i, In i (keys ctx (Range_add r rhs)) <-> In i (keys ctx r) \/ In i (keys ctx rhs) /\ IsKeySkipped r i = false.
Proof.
  intros Hr Hrhs H. pose proof (add_ok _ _ Hr Hrhs H) as Hok. split; [done|]. intros i. rewrite !keys_in by done.
  destruct (Z.lt_ge_cases i 0) as [Hi|Hi].
  - split; [intros Hk; apply key_left_range in Hk; destruct Hok; lia|].
    intros [Hk|[Hk _]]; apply key_left_range in Hk; destruct Hr, Hrhs; lia.
  - rewrite add_left by done. destruct (Z.lt_ge_cases i 64) as [Hi'|Hi'].
    + rewrite IsKeySkipped_bit by lia. destruct (key_left ctx r i), (key_left ctx rhs i), (Z.testbit (skip_mask_ r) i); cbn; intuition congruence.
    + assert (Hno : forall r', range_ok r' -> key_left ctx r' i = false).
      { intros r' Hr'. destruct (key_left ctx r' i) eqn:E; [|done]. apply key_left_range in E. destruct Hr'; lia. }
      rewrite !Hno by done. cbn. intuition congruence.
Qed.

(** The keys that [operator-=] takes out: those of the other range and those that had been made invalid there *)
Definition removed_by (rhs : Range) (i : Z) : Prop :=
  start_ rhs <= i < end_ rhs /\ (IsKeySkipped rhs i = false \/ Z.testbit (invalid_mask_ rhs) i = true).

Lemma remove_keys ctx r rhs :
  range_ok r -> range_ok rhs -> start_ r <= start_ rhs -> end_ rhs <= end_ r ->
  range_ok (Range_remove r rhs) /\
  forall i, In i (keys ctx (Range_remove r rhs)) <-> In i (keys ctx r) /\ ~ removed_by rhs i.
Proof.
  intros Hr Hrhs Hs He. pose proof (remove_ok r rhs Hr) as Hok. split; [done|]. intros i. rewrite !keys_in by done.
  destruct (Z.lt_ge_cases i 0) as [Hi|Hi].
  - split; [intros H; apply key_left_range in H|intros [H _]; apply key_left_range in H]; destruct Hr; cbn in *; lia.
  - rewrite remove_left by done. unfold removed_by.
    destruct (Z.leb_spec (start_ rhs) i), (Z.ltb_spec i (end_ rhs)); cbn [andb]; try (rewrite andb_true_r; intuition lia).
    rewrite IsKeySkipped_bit by (destruct Hrhs; lia).
    destruct (key_left ctx r i), (Z.testbit (skip_mask_ rhs) i), (Z.testbit (invalid_mask_ rhs) i); cbn; intuition (lia || congruence).
Qed.

Lemma last_keys ctx r :
  range_ok r ->
  (In (FindLastRemaining ctx r) (keys ctx r) /\ forall i, In i (keys ctx r) -> i <= FindLastRemaining ctx r) \/
  (keys ctx r = [] /\ FindLastRemaining ctx r = 0).
Proof.
  intros Hr. destruct (FindLastRemaining_spec ctx r Hr) as [Hmax [Hin|[Hno H0]]].
  - left. split; [by apply keys_in|]. intros i Hi. apply keys_in in Hi; [|done].
    apply Hmax; [|done]. apply key_left_range in Hi. destruct Hr; lia.
  - right. split; [|done]. rewrite keys_eq by done. apply filter_none. intros i Hi. apply list_elem_of_In, elem_of_seqZ in Hi.
    apply Hno. destruct Hr; lia.
Qed.

Lemma suffix_keys ctx r other :
  range_ok r -> range_ok other -> start_ r <= FindLastRemaining ctx other ->
  range_ok (Suffix ctx r other) /\
  forall i, In i (keys ctx (Suffix ctx r other)) <->
    In i (keys ctx r) /\ FindLastRemaining ctx other <= i < FindLastRemaining ctx r.
Proof.
  intros Hr Ho Hs. split; [by apply (suffix_left ctx r other 0)|]. intros i.
  destruct (suffix_left ctx r other i Hr Ho Hs) as [Hok Hk]. rewrite !keys_in, Hk by done.
  destruct (Z.leb_spec (FindLastRemaining ctx other) i), (Z.ltb_spec i (FindLastRemaining ctx r)), (key_left ctx r i);
    cbn [andb]; intuition (lia || done).
Qed.

(** [operator~] changes the keys that are skipped for those that are not; an invalid key is never seen. *)
Lemma complement_keys ctx r i :
  range_ok r ->
  In i (keys ctx (Range_complement r)) <->
  start_ r <= i < end_ r /\ CheckKeyDone ctx i = false /\ IsKeySkipped r i = true /\ Z.testbit (invalid_mask_ r) i = false.
Proof.
  intros [Hs He _]. rewrite keys_seen by (cbn; lia). rewrite List.filter_In, <- list_elem_of_In, elem_of_seqZ. cbn [start_ end_ Range_complement].
  destruct (decide (start_ r <= i < end_ r)) as [Hi|Hi]; [|intuition lia].
  unfold passed_over. cbn [skip_mask_ invalid_mask_ Range_complement]. rewrite CheckKeyDone_bit, IsKeySkipped_bit, land_mask1 by lia.
  rewrite !Z.lor_spec, Z.land_spec, not64_bits, RangeMask_bits by lia.
  destruct (Z.ltb_spec i 64), (Z.leb_spec (start_ r) i), (Z.ltb_spec i (end_ r)); try lia.
  destruct (Z.testbit (value_mask_ ctx) i), (Z.testbit (skip_mask_ r) i), (Z.testbit (invalid_mask_ r) i); cbn; intuition (lia || congruence).
Qed.

(** The count of a complement has the invalid keys that a loop over it does not see. *)
Lemma complement_counts_invalid :
  let ctx := MultiGetContext_new 4 in
  let r := Range_remove (Range_sub (GetMultiGetRange ctx) 0 4) (Range_sub (GetMultiGetRange ctx) 1 3) in
  keys ctx r = [0; 3] /\ keys ctx (Range_complement r) = [] /\
  KeysLeft ctx (Range_complement r) = 2 /\ Range_empty ctx (Range_complement r) = false.
Proof. by vm_compute. Qed.

(** A suffix of a range after one that has no keys left, where the range does not start at 0, has keys from before the range. *)
Lemma suffix_before_start :
  let ctx := MultiGetContext_new 8 in
  let r := Range_sub (GetMultiGetRange ctx) 5 8 in
  keys ctx r = [5; 6; 7] /\ keys ctx (Suffix ctx r (Range_sub r 5 5)) = [0; 1; 2; 3; 4; 5; 6].
Proof. by vm_compute. Qed.

Lemma first_range_ok n : 0 <= n <= MAX_BATCH_SIZE -> range_ok (GetMultiGetRange (MultiGetContext_new n)).
Proof. intros Hn. unfold MAX_BATCH_SIZE in Hn. split; cbn; [lia..|]. intros i _. by rewrite Z.bits_0. Qed.

(** C28: the ranges of a batched lookup. A loop over a range sees, in increasing order, exactly the keys of its interval that are
    neither done nor skipped; [KeysLeft] is their number and [empty] says that there are none; [FindLastRemaining] is the last of
    them, or 0. [SkipKey] and [MarkKeyDone] take one key out, a sub-range keeps the keys between its bounds, [+=] is the union
    (less the keys skipped here), [-=] removes the other range's keys, [~] changes skipped keys for the others without the
    invalid ones, and [Suffix] has the keys from the last key of the other range up to the last key of this one, which it leaves out.

    The conditions: both ranges are well formed ([range_ok]: they lie within the 64 keys of a batch and their invalid keys are
    skipped). The first range of a batch is, and skipping, sub-ranges, [+=], [-=] and [Suffix] keep it so, but [~] does not: its
    result can count keys that a loop over it does not see ([complement_counts_invalid]). The bounds of a sub-range lie in the range;
    [+=] is with a range to the right, [-=] with a range whose interval lies in this one's, as the assertions of the code and its
    comments demand; and [Suffix] is only described if the last key of the other range, which is 0 if it has no key left, is not
    before the start of this range, since otherwise the code gives back keys from before it ([suffix_before_start]). *)
Theorem multiget_ranges ctx r rhs (Hr : range_ok r) (Hrhs : range_ok rhs) :
  (forall n, 0 <= n <= MAX_BATCH_SIZE -> range_ok (GetMultiGetRange (MultiGetContext_new n))) /\
  StronglySorted Z.lt (keys ctx r) /\
  (forall i, In i (keys ctx r) <-> start_ r <= i < end_ r /\ CheckKeyDone ctx i = false /\ IsKeySkipped r i = false) /\
  KeysLeft ctx r = size (keys ctx r) /\ (Range_empty ctx r = true <-> keys ctx r = []) /\
  ((In (FindLastRemaining ctx r) (keys ctx r) /\ forall i, In i (keys ctx r) -> i <= FindLastRemaining ctx r) \/
   (keys ctx r = [] /\ FindLastRemaining ctx r = 0)) /\
  (forall j, 0 <= j < 64 ->
     (range_ok (SkipIndex r j) /\ forall i, In i (keys ctx (SkipIndex r j)) <-> In i (keys ctx r) /\ i <> j) /\
     forall i, In i (keys (MarkKeyDone ctx j) r) <-> In i (keys ctx r) /\ i <> j) /\
  (forall first last, start_ r <= first <= last -> last <= end_ r ->
     range_ok (Range_sub r first last) /\
     forall i, In i (keys ctx (Range_sub r first last)) <-> In i (keys ctx r) /\ first <= i < last) /\
  (end_ r <= start_ rhs ->
     range_ok (Range_add r rhs) /\
     forall i, In i (keys ctx (Range_add r rhs)) <-> In i (keys ctx r) \/ In i (keys ctx rhs) /\ IsKeySkipped r i = false) /\
  (start_ r <= start_ rhs -> end_ rhs <= end_ r ->
     range_ok (Range_remove r rhs) /\
     forall i, In i (keys ctx (Range_remove r rhs)) <-> In i (keys ctx r) /\ ~ removed_by rhs i) /\
  (start_ r <= FindLastRemaining ctx rhs ->
     range_ok (Suffix ctx r rhs) /\
     forall i, In i (keys ctx (Suffix ctx r rhs)) <->
       In i (keys ctx r) /\ FindLastRemaining ctx rhs <= i < FindLastRemaining ctx r) /\
  (forall i, In i (keys ctx (Range_complement r)) <->
     start_ r <= i < end_ r /\ CheckKeyDone ctx i = false /\ IsKeySkipped r i = true /\ Z.testbit (invalid_mask_ r) i = false).
Proof.
  split_and!; auto using first_range_ok, keys_sorted, sub_keys, add_keys, remove_keys, suffix_keys.
  - intros i. by apply keys_spec.
  - rewrite KeysLeft_count, keys_eq by done. done.
  - by apply empty_keys.
  - by apply last_keys.
  - intros j Hj. split; [by apply skip_keys|by apply done_keys].
  - intros i. by apply complement_keys.
Qed.

Lemma multiget_ranges_witness :
  let ctx := MarkKeyDone (MultiGetContext_new 8) 1 in
  let r := Range_sub (GetMultiGetRange ctx) 0 3 in
  let rhs := SkipIndex (Range_sub (GetMultiGetRange ctx) 4 8) 6 in
  range_ok r /\ range_ok rhs /\ keys ctx r = [0; 2] /\ keys ctx rhs = [4; 5; 7] /\
  keys ctx (Range_add r rhs) = [0; 2; 4; 5; 7] /\ KeysLeft ctx r = size (keys ctx r).
Proof.
  intros ctx r rhs. assert (H : forall n, 0 <= n <= MAX_BATCH_SIZE -> range_ok (GetMultiGetRange (MultiGetContext_new n))) by apply first_range_ok.
  assert (Hr : range_ok r) by (apply (sub_keys ctx); [by apply (H 8)|by cbn..]).
  assert (Hrhs : range_ok rhs) by (apply (skip_keys ctx); [apply (sub_keys ctx); [by apply (H 8)|by cbn..]|done]).
  split_and!; [exact Hr|exact Hrhs|by vm_compute..|].
  exact (proj1 (proj2 (proj2 (proj2 (multiget_ranges ctx r rhs Hr Hrhs))))).
Defined.
